(* ===== verification/_CoqProject ===== *)
-Q . S2P
Prelude.v
Bits.v
FindBit.v
Bitmap.v
BitmapMap.v
Kfifo.v
Sort.v
Crc.v
Cipher.v
Tea.v
Blowfish.v
Cast5.v
CString.v
Modes.v
RbTree.v
Lmb.v
Rwsem.v
Kmp.v
ResCounter.v
Digest.v
Sha.v
Md.v
StrTo.v
Vsprintf.v
Resource.v
Region.v
ResAlloc.v
ResInsert.v
PrioHeap.v
Semaphore.v
RadixTree.v
RadixInsert.v
RadixTag.v
RadixGang.v
RadixMap.v
CmdLine.v
Arith.v
