(* ===== verification/Prelude.v ===== *)
(** * Verified core routines of the Linux kernel of this modem tree

    The repository is a Linux 2.6.29 kernel for an ARM modem.  This library
    models the self-contained routines that the rest of the kernel is built on
    ([kernel/lib], [kernel/crypto], a few files of [kernel/kernel] and the
    headers they use) and proves that they do what their callers rely on.  The
    paths below are relative to [src/kernel].

    ** How C is modelled

    An integer of a fixed width is a [Z]; wrap-around is written out with [u8],
    [u16], [u32], [u64] (unsigned) and [s32], [s64] (conversion to signed) where
    the source can reach it.  [unsigned long] has 32 bits, [char] is unsigned
    and words are little-endian, as on the ARM targets.  Code that touches
    memory is a function in the monad [ST S]: it passes a state along and may
    fault ([None]).  A fault stands for an access outside an object, a failed
    [BUG_ON], a shift by a count that C does not define, or a loop that runs out
    of fuel; since the theorems conclude [Some _], or a run ([wp]) that exists,
    they exclude all of these.  Where a theorem says when a routine faults, as
    for [vsnprintf], it names the other causes exactly, so the fuel is shown to
    be enough.  For routines on buffers the state is the memory [mem] of
    [Prelude], a finite map from object identifiers to arrays of words or bytes,
    and a pointer is an object with an offset; arguments may alias.  Routines
    that own a structure (the tree, the tables of [lmb], the semaphore, the
    counters) have a record or a finite map of nodes as their state.  [for_] is
    a counted loop, [while] a loop with fuel and [while2] one with exponential
    fuel; a loop body that is argued about is a definition of its own, called
    [..._round].

    ** The parts

    - [Prelude]: integers, the monad and its rules ([wp_while] is the rule for
      loops, with an invariant and a measure), memory, lists indexed by [Z], and
      the tactics ([run], [wp_steps], [ulia], [dlia], [b2p]) and hint databases of
      the development.
    - [Bits]: [include/asm-generic/bitops/__ffs.h], [ffz.h], [fls.h],
      [lib/hweight.c], [lib/bitrev.c], rotations of [include/linux/bitops.h].
    - [FindBit]: [lib/find_next_bit.c].  The class [FindBit] is what the searches
      promise to bitmaps; it is discharged by [find_first_bit], [find_next_bit].
    - [Bitmap], [BitmapMap]: [lib/bitmap.c], proved against the class [FindBit]:
      predicates, logic and shifts, the region allocator with its [int]s, and the
      maps between positions and ordinals.
    - [Kfifo]: [kernel/kfifo.c].  A refinement to a bounded queue for the locked
      operations, and the steps of one writer and one reader without lock, of
      which the calls [__kfifo_put] and [__kfifo_get] are shown to be runs.
    - [Sort]: [lib/sort.c], for any comparison that is a total preorder.
    - [Crc]: [lib/crc*.c] with the generated tables of [lib/gen_crc32table.c].
    - [Cipher]: the class [BlockCipher], the contract between a cipher and a mode.
      [Tea] ([crypto/tea.c]), [Blowfish] ([crypto/blowfish.c]) and [Cast5]
      ([crypto/cast5.c]) discharge it; [Modes] ([crypto/ecb.c], [crypto/cbc.c],
      [crypto_xor] of [crypto/algapi.c]) is proved against it.
    - [CString]: [lib/string.c], [lib/ctype.c], [include/linux/ctype.h].
    - [RbTree]: [lib/rbtree.c] on nodes whose parent address and colour share one
      word; the relation of the memory to an abstract tree, and reachability.
    - [Lmb]: [lib/lmb.c], the early memory map and its allocator.  Ranges are
      added that are disjoint from the entries or equal to one; for others the
      table goes wrong, which is shown too.
    - [Rwsem]: [lib/rwsem-spinlock.c] with the sleeping tasks; the steps that the
      code makes for tasks inside ([serve]) are apart from arrivals and wake-ups
      from elsewhere ([step]).
    - [Kmp]: [lib/ts_kmp.c] with the sizes that [kmp_init] allocates; the class
      [TextSource] is the contract of the callback [get_next_block], discharged
      by [get_linear_data] of [lib/textsearch.c].
    - [ResCounter]: [kernel/res_counter.c] and its header, sequential and
      interleaved.
    - [Digest]: the digest of a message and the class [ShashAlg], the contract of
      the operations of [struct shash_alg]; [Sha] ([lib/sha1.c],
      [crypto/sha1_generic.c], [crypto/sha256_generic.c]) and [Md]
      ([crypto/md4.c], [crypto/md5.c]) discharge it, and against it a message cut
      into pieces is shown to have the digest of the whole.
    - [StrTo], [Vsprintf]: [lib/vsprintf.c], reading numbers from strings, and
      formatted output over a list of typed arguments, into a buffer at an address
      of 32 bits; [format_takes] says which arguments a format asks for.
    - [Resource]: the definitions of [kernel/resource.c] on a heap of linked
      resources, the tree that such a heap holds, and requesting and releasing.
      [Region] (regions, reservation with splitting, the walks), [ResAlloc]
      (allocation and adjustment) and [ResInsert] (insertion above others) hold
      the theorems about the other operations.
    - [PrioHeap]: [lib/prio_heap.c], on the heap orders of [Sort].
    - [Semaphore]: [kernel/semaphore.c] with the sleeping tasks, signals and
      timeouts, as a step relation.
    - [RadixTree]: nodes, tags and lookup of [lib/radix-tree.c] on a heap of
      nodes, and the relation of the heap to a map with a set of indices for
      each tag.  [RadixInsert] has allocation, [radix_tree_preload] and
      insertion, [RadixTag] the tags, deletion and the freeing of nodes,
      [RadixGang] the scans; [RadixMap] puts them together to the interface that
      the page cache uses.
    - [CmdLine]: [lib/cmdline.c], on the conversions of [StrTo].
    - [Arith]: [lib/div64.c], [include/linux/math64.h], [lib/int_sqrt.c],
      [lib/reciprocal_div.c], [lib/bcd.c].

    ** What the theorems show

    - Functional correctness, on every branch and with the errors: searches,
      bitmap operations, region allocation, sorting, string functions,
      insertion, removal and traversal of red-black trees, the changes of the
      memory map, and allocation as the highest fitting address; the text of
      every integer, character and string directive, and the numbers read from
      strings; resources and regions are linked exactly when their ranges allow
      it, allocation takes the lowest fitting range, and the walks of the tree
      miss nothing; a priority heap keeps the smallest elements; insertion,
      deletion, tagging and the gang lookups of radix trees, with the tree
      shrinking to the least height; and lists of numbers and ranges in option
      strings.
    - Equivalence with a reference definition: table-driven checksums against the
      bit-serial registers and against polynomial remainders; CBC against the
      mode on lists of blocks; the text search against the first occurrence;
      the hash functions against the definitions of the standards, constants
      included;
      64-bit divisions and the square root are the mathematical ones.
    - Refinement: the FIFO implements a bounded queue, and the radix tree a map
      with tags, whatever the allocator does.
    - Types: every node of a radix tree that goes back to the slab cache has the
      form its constructor promises.
    - Round trips: every cipher and mode, region allocation and release, numbers
      printed and read back, resources and regions requested and released.
    - Invariants and interleavings: reachable trees are balanced, reachable
      memory maps are sorted and disjoint, busy regions never overlap, the
      lock-free FIFO never loses or invents a byte, a read-write semaphore
      excludes, counts its owners exactly, loses no wake-up and serves every
      waiter in every order of the steps, a counting semaphore conserves its
      units and serves in order, and counters never pass their limits.
    - Bounds: [vsnprintf] writes a prefix of one text whatever the size of the
      buffer, and nothing outside it, for all formats, widths and precisions, as
      long as the text ends in front of the end of memory; division by a
      reciprocal is off by at most one.
    - Termination: every functional theorem produces a result, so every loop of
      the modelled code ends within its fuel.

    ** Fuel

    Fuel is an argument or a size computed from the state and never a guess that
    could hide behaviour, because the theorems show it is enough: string loops
    run at most the length of the object; the loops of [RbTree] and [ResCounter]
    that climb or descend run at most two more than the number of nodes; those
    of [Lmb] at most 131 times, the number of table entries and two; the search
    of [Kmp] takes a fuel that the theorem bounds by the length of the text; the
    loops of [Tea] that end on the running sum are shown to make 32 cycles; the
    loop over a format runs at most once per character, and the theorem shows
    that more fuel gives the same, and the padding loops have the fuel of the
    counter after its first decrement, which may wrap.  The loops of [Resource]
    run at most two more times than there are resources, and the recursion of
    [__reserve_region_with_split] has one level of fuel per address of the
    range.  Loops along the height of a radix tree run at most seven times, one
    more than the largest height; the scans over indices and
    [__iter_div_u64_rem], which may make billions of rounds, are [while2] loops
    of up to [2 ^ n] rounds.

    ** Not modelled

    Locks are taken and released around the modelled sections and have no state
    of their own here; lock debugging, module registration, [printk] and
    statistics are left out.  Of the modelled files the following are missing:
    the text forms of bitmaps and counters ([bitmap_scnprintf], [bitmap_parse],
    [res_counter_read], [res_counter_write]), which parse user memory;
    [lmb_alloc_nid] and [lmb_enforce_memory_limit]; the scatterlist walk of
    [crypto/blkcipher.c], whose steps are arguments of [Modes]; [vsscanf] and
    the variadic wrappers of [lib/vsprintf.c]; the [/proc] reports, managed
    wrappers, the [reserve=] option and the memory-hotplug walk of
    [kernel/resource.c]; the readers of a radix tree that run beside a writer,
    [radix_tree_init], and [radix_tree_tag_get], which kernel builds leave out.
    The scheduler, memory management, file systems, networking, drivers and
    architecture code interleave with hardware and with each other, and are
    outside this library.  Next to what is here, [lib/idr.c], [lib/ts_bm.c],
    [crypto/pcbc.c] and [crypto/ctr.c] would fit the same methods. *)

From Stdlib Require Import ZArith Lia.
From stdpp Require Import base tactics numbers list gmap option.

#[global] Open Scope Z_scope.

(** ** Machine integers

    An unsigned object of width [w] is a [Z] in [[0, 2^w)]; [wrap w] is the
    reduction the C standard prescribes for unsigned arithmetic, [sgn w] the
    two's-complement reading the kernel's compilers give to a conversion to a
    signed type. *)

Definition wrap (w x : Z) : Z := x mod 2 ^ w.
Definition sgn (w x : Z) : Z := (x + 2 ^ (w - 1)) mod 2 ^ w - 2 ^ (w - 1).

Abbreviation u8 := (wrap 8).
Abbreviation u16 := (wrap 16).
Abbreviation u32 := (wrap 32).
Abbreviation u64 := (wrap 64).
Abbreviation s32 := (sgn 32).
Abbreviation s64 := (sgn 64).

(** [~x] and [x << n] on [unsigned long], which is 32 bits wide on the ARM
    targets of this tree. *)
Definition not32 (x : Z) : Z := wrap 32 (Z.lnot x).
Definition shl32 (x n : Z) : Z := wrap 32 (Z.shiftl x n).

Definition uint (w x : Z) : Prop := 0 <= x < 2 ^ w.

#[global] Instance uint_dec w x : Decision (uint w x).
Proof. unfold uint. apply _. Defined.

Definition INT_MAX : Z := 2147483647.
Definition BITS_PER_LONG : Z := 32.

(** ** Error numbers ([include/asm-generic/errno-base.h], [errno.h]) *)
Definition EINTR : Z := 4.
Definition EAGAIN : Z := 11.
Definition ENOMEM : Z := 12.
Definition EFAULT : Z := 14.
Definition EBUSY : Z := 16.
Definition EINVAL : Z := 22.
Definition ERANGE : Z := 34.
Definition EOVERFLOW : Z := 75.

(** ** A state-and-fault monad for C code

    A computation reads and writes a state [S]; [None] is a fault: an access
    outside an object, a failed [BUG_ON], or a loop that exhausts its fuel.
    Every functional theorem of the development shows that the result is
    [Some _], so none of these happens under the stated preconditions. *)
Definition ST (S A : Type) : Type := S -> option (A * S).

Definition ret {S A} (a : A) : ST S A := fun s => Some (a, s).
Definition fault {S A} : ST S A := fun _ => None.
Definition bind {S A B} (m : ST S A) (f : A -> ST S B) : ST S B :=
  fun s => match m s with Some (a, s') => f a s' | None => None end.
Definition get {S} : ST S S := fun s => Some (s, s).
Definition put {S} (s' : S) : ST S unit := fun _ => Some (tt, s').

Declare Scope c_scope.
Delimit Scope c_scope with c.
Bind Scope c_scope with ST.
Notation "'let*' x := m 'in' k" := (bind m (fun x => k))
  (at level 10, x binder, m at level 200, k at level 200,
   format "'[v' 'let*'  x  :=  m  'in' '/' k ']'") : c_scope.
Notation "m ;; k" := (bind m (fun _ => k))
  (at level 100, k at level 200, right associativity) : c_scope.
#[global] Open Scope c_scope.

(** [for (k = i; k < i + n; k++) body] *)
Fixpoint for_ {S} (n : nat) (i : Z) (body : Z -> ST S unit) : ST S unit :=
  match n with
  | O => ret tt
  | Datatypes.S n' => (body i ;; for_ n' (i + 1) body)
  end.

(** The same loop whose body may leave the function: [Some r] is [return r]. *)
Fixpoint for_ret {S R} (n : nat) (i : Z) (body : Z -> ST S (option R))
  : ST S (option R) :=
  match n with
  | O => ret None
  | Datatypes.S n' =>
      let* o := body i in
      match o with Some r => ret (Some r) | None => for_ret n' (i + 1) body end
  end.

(** A general loop: the body gets the loop variables, and either continues
    with new ones ([inl]) or leaves the loop with a result ([inr]). *)
Fixpoint while {S X R} (fuel : nat) (body : X -> ST S (X + R)) (x : X) : ST S R :=
  match fuel with
  | O => fault
  | Datatypes.S fuel' =>
      let* o := body x in
      match o with inl x' => while fuel' body x' | inr r => ret r end
  end.

(** Long loops: at most [2 ^ n] rounds; a loop that does not end in them stays [inl]. *)
Fixpoint rounds2 {S X R} (n : nat) (body : X -> ST S (X + R)) (x : X) : ST S (X + R) :=
  match n with
  | O => body x
  | Datatypes.S n =>
      let* r := rounds2 n body x in
      match r with inl x => rounds2 n body x | inr r => ret (inr r) end
  end.
Definition while2 {S X R} (n : nat) (body : X -> ST S (X + R)) (x : X) : ST S R :=
  let* r := rounds2 n body x in match r with inl _ => fault | inr r => ret r end.

Lemma while_S {S X R} fuel (body : X -> ST S (X + R)) x :
  while (Datatypes.S fuel) body x =
  (let* o := body x in match o with inl x' => while fuel body x' | inr r => ret r end).
Proof. reflexivity. Qed.
Lemma bind_Some {S A B} (m : ST S A) (f : A -> ST S B) s a s' :
  m s = Some (a, s') -> bind m f s = f a s'.
Proof. intros H. unfold bind. by rewrite H. Qed.
(** A long loop ends if each round decreases a measure. *)
Section LongLoop.
Context {S X R : Type} (body : X -> ST S (X + R)) (s : S) (P : X -> Prop) (Q : R -> Prop) (mu : X -> Z).
Context (Hmu : forall x, P x -> 0 <= mu x).
Context (Hstep : forall x, P x -> exists r, body x s = Some (r, s) /\ match r with inl x' => P x' /\ mu x' < mu x | inr r => Q r end).

Lemma rounds2_spec n : forall x, P x -> exists r, rounds2 n body x s = Some (r, s) /\ match r with inl x' => P x' /\ mu x' + 2 ^ Z.of_nat n <= mu x | inr r => Q r end.
Proof using Hstep.
  induction n as [|n IH]; intros x Hx.
  - destruct (Hstep x Hx) as ([x'|r] & E & Hr); [exists (inl x')|exists (inr r)]; (split; [exact E|]); [|done]. destruct Hr. split; [done|]. cbn. lia.
  - cbn [rounds2]. destruct (IH x Hx) as ([x'|r] & E & Hr); rewrite (bind_Some _ _ _ _ _ E); [|by exists (inr r)]. destruct Hr as [Hx' Hm].
    destruct (IH x' Hx') as (r & E' & Hr). exists r. split; [done|]. destruct r as [x''|]; [|done]. destruct Hr as [? ?]. split; [done|].
    rewrite Nat2Z.inj_succ, Z.pow_succ_r by lia. lia.
Qed.
Lemma while2_spec n x : P x -> mu x < 2 ^ Z.of_nat n -> exists r, while2 n body x s = Some (r, s) /\ Q r.
Proof using Hstep Hmu.
  intros Hx Hn. unfold while2. destruct (rounds2_spec n x Hx) as ([x'|r] & E & Hr); rewrite (bind_Some _ _ _ _ _ E); [|by exists r].
  destruct Hr as [Hx' Hm]. specialize (Hmu x' Hx'). lia.
Qed.
End LongLoop.

Lemma bind_assoc {S A B D} (m : ST S A) (f : A -> ST S B) (g : B -> ST S D) s :
  bind (bind m f) g s = bind m (fun a => bind (f a) g) s.
Proof. unfold bind. by destruct (m s) as [[a s']|]. Qed.
Lemma bind_ret {S A B} (a : A) (f : A -> ST S B) s : bind (ret a) f s = f a s.
Proof. done. Qed.

Lemma bind_cong {S A B} (m m' : ST S A) (f : A -> ST S B) s s' : m s = m' s' -> bind m f s = bind m' f s'.
Proof. intros E. unfold bind. by rewrite E. Qed.

(** Run the next call of a computation, whose outcome [E] states. *)
Ltac run E := rewrite ?bind_assoc; rewrite (bind_Some _ _ _ _ _ E); cbv beta zeta.
Ltac run_ret := rewrite ?bind_assoc; rewrite bind_ret; cbv beta zeta.

(** ** Total-correctness predicate transformer *)
Definition wp {S A} (m : ST S A) (Q : A -> S -> Prop) (s : S) : Prop :=
  exists a s', m s = Some (a, s') /\ Q a s'.

Section WP.
Context {S : Type}.
Implicit Types s : S.

Lemma wp_ret {A} (a : A) (Q : A -> S -> Prop) s : Q a s -> wp (ret a) Q s.
Proof. intros H. exists a, s. done. Qed.

Lemma wp_exact {A} (m : ST S A) (Q : A -> S -> Prop) s a s' : m s = Some (a, s') -> Q a s' -> wp m Q s.
Proof. intros H HQ. exists a, s'. done. Qed.
Lemma wp_bind {A B} (m : ST S A) (f : A -> ST S B) (Q : B -> S -> Prop) s :
  wp m (fun a s' => wp (f a) Q s') s -> wp (bind m f) Q s.
Proof.
  intros (a & s' & Hm & b & s'' & Hf & HQ). exists b, s''.
  unfold bind. rewrite Hm. done.
Qed.

Lemma wp_mono {A} (m : ST S A) (P Q : A -> S -> Prop) s :
  wp m P s -> (forall a s', P a s' -> Q a s') -> wp m Q s.
Proof. intros (a & s' & Hm & HP) H. exists a, s'. eauto. Qed.

Lemma wp_run {A} (m : ST S A) (Q : A -> S -> Prop) s a s' :
  wp m Q s -> m s = Some (a, s') -> Q a s'.
Proof. intros (a' & s'' & Hm & HQ) Hr. rewrite Hr in Hm. by simplify_eq. Qed.

(** The loop rules: an invariant indexed by the counter. *)
Lemma wp_for (I : Z -> S -> Prop) n i (body : Z -> ST S unit) s :
  I i s ->
  (forall j s', i <= j < i + Z.of_nat n -> I j s' ->
    wp (body j) (fun _ s'' => I (j + 1) s'') s') ->
  wp (for_ n i body) (fun _ s' => I (i + Z.of_nat n) s') s.
Proof.
  revert i s. induction n as [|n IH]; intros i s HI Hb; simpl.
  - apply wp_ret. by rewrite Z.add_0_r.
  - apply wp_bind. eapply wp_mono; [apply Hb; [lia|done]|].
    intros [] s' HI'.
    replace (i + Z.of_nat (Datatypes.S n)) with ((i + 1) + Z.of_nat n) by lia.
    apply IH; [done|]. intros j s'' Hj. apply Hb. lia.
Qed.

Lemma wp_for_ret {R} (I : Z -> S -> Prop) (Q : R -> S -> Prop) n i
    (body : Z -> ST S (option R)) s :
  I i s ->
  (forall j s', i <= j < i + Z.of_nat n -> I j s' ->
    wp (body j) (fun o s'' =>
      match o with Some r => Q r s'' | None => I (j + 1) s'' end) s') ->
  wp (for_ret n i body) (fun o s' =>
    match o with Some r => Q r s' | None => I (i + Z.of_nat n) s' end) s.
Proof.
  revert i s. induction n as [|n IH]; intros i s HI Hb; simpl.
  - apply wp_ret. by rewrite Z.add_0_r.
  - apply wp_bind. eapply wp_mono; [apply Hb; [lia|done]|].
    intros [r|] s' HI'; simpl; [apply wp_ret; exact HI'|].
    replace (i + Z.of_nat (Datatypes.S n)) with ((i + 1) + Z.of_nat n) by lia.
    apply IH; [done|]. intros j s'' Hj. apply Hb. lia.
Qed.

(** A loop whose measure decreases runs to its end within the fuel. *)
Lemma wp_while {X R} (I : X -> S -> Prop) (Q : R -> S -> Prop)
    (measure : X -> nat) fuel (body : X -> ST S (X + R)) x s :
  I x s -> (measure x < fuel)%nat ->
  (forall x' s', I x' s' ->
    wp (body x') (fun o s'' =>
      match o with
      | inl x'' => I x'' s'' /\ (measure x'' < measure x')%nat
      | inr r => Q r s''
      end) s') ->
  wp (while fuel body x) Q s.
Proof.
  intros HI Hm Hb. revert x s HI Hm.
  induction fuel as [|fuel IH]; intros x s HI Hm; [lia|].
  simpl. apply wp_bind. eapply wp_mono; [by apply Hb|].
  intros [x'|r] s'; simpl.
  - intros [HI' Hlt]. apply IH; [done|lia].
  - intros HQ. by apply wp_ret.
Qed.

(** The same with the number of rounds left as a ghost. *)
Lemma wp_while_ix {X R} (I : nat -> X -> S -> Prop) (Q : R -> S -> Prop)
    n fuel (body : X -> ST S (X + R)) x s :
  I n x s -> (n < fuel)%nat ->
  (forall n' x' s', I n' x' s' ->
    wp (body x') (fun o s'' =>
      match o with
      | inl x'' => exists m, (m < n')%nat /\ I m x'' s''
      | inr r => Q r s''
      end) s') ->
  wp (while fuel body x) Q s.
Proof.
  intros HI Hm Hb. revert n x s HI Hm.
  induction fuel as [|fuel IH]; intros n x s HI Hm; [lia|].
  simpl. apply wp_bind. eapply wp_mono; [by eapply Hb|].
  intros [x'|r] s'; simpl.
  - intros (m & Hlt & HI'). apply (IH m); [done|lia].
  - intros HQ. by apply wp_ret.
Qed.
End WP.

#[global] Opaque for_ for_ret while.

(** ** Arrays of C objects *)
Section Arrays.
Context {A : Type}.

Definition zlen (l : list A) : Z := Z.of_nat (length l).
Definition zget (l : list A) (i : Z) : option A :=
  if decide (0 <= i) then l !! Z.to_nat i else None.
Definition upd (l : list A) (i : Z) (v : A) : list A := <[Z.to_nat i := v]> l.

Lemma zlen_upd l i v : zlen (upd l i v) = zlen l.
Proof. unfold zlen, upd. by rewrite length_insert. Qed.

Lemma zget_is_Some l i : 0 <= i < zlen l <-> is_Some (zget l i).
Proof.
  unfold zlen, zget. case_decide.
  - rewrite lookup_lt_is_Some. lia.
  - split; [lia|by intros [? ?]].
Qed.

Lemma zget_lt l i x : zget l i = Some x -> 0 <= i < zlen l.
Proof. intros H. apply zget_is_Some. eauto. Qed.

Lemma zget_upd_eq l i v : 0 <= i < zlen l -> zget (upd l i v) i = Some v.
Proof.
  unfold zlen, zget, upd. intros. case_decide; [|lia].
  apply list_lookup_insert_eq. lia.
Qed.

Lemma zget_upd_ne l i j v : 0 <= i -> i <> j -> zget (upd l i v) j = zget l j.
Proof.
  unfold zget, upd. intros. case_decide; [|done].
  apply list_lookup_insert_ne. lia.
Qed.

Lemma upd_upd l i v w : upd (upd l i v) i w = upd l i w.
Proof. apply list_insert_insert_eq. Qed.

Lemma zget_ext (l1 l2 : list A) :
  zlen l1 = zlen l2 -> (forall i, 0 <= i < zlen l1 -> zget l1 i = zget l2 i) -> l1 = l2.
Proof.
  unfold zlen, zget. intros Hl H.
  apply list_eq_same_length with (length l1); [lia|done|].
  intros i x y Hi H1 H2. specialize (H (Z.of_nat i) ltac:(lia)).
  case_decide; [|lia]. rewrite Nat2Z.id, H1, H2 in H. by simplify_eq.
Qed.

Lemma zget_app_l l1 l2 i : i < zlen l1 -> zget (l1 ++ l2) i = zget l1 i.
Proof.
  unfold zlen, zget. intros. case_decide; [|done]. apply lookup_app_l. lia.
Qed.

Lemma zget_app_r l1 l2 i :
  zlen l1 <= i -> zget (l1 ++ l2) i = zget l2 (i - zlen l1).
Proof.
  unfold zlen, zget. intros. rewrite !decide_True by lia.
  rewrite lookup_app_r by lia. f_equal. lia.
Qed.

Lemma zlen_app l1 l2 : zlen (l1 ++ l2) = zlen l1 + zlen l2.
Proof. unfold zlen. rewrite length_app. lia. Qed.
Lemma zlen_cons x l : zlen (x :: l) = 1 + zlen l.
Proof. unfold zlen. cbn [length]. lia. Qed.
Lemma zlen_replicate n x : 0 <= n -> zlen (replicate (Z.to_nat n) x) = n.
Proof. intros. unfold zlen. rewrite length_replicate. lia. Qed.

Lemma zlen_nonneg l : 0 <= zlen l.
Proof. unfold zlen. lia. Qed.

Lemma zget_cons x l i : 0 < i -> zget (x :: l) i = zget l (i - 1).
Proof.
  unfold zget. intros. rewrite !decide_True by lia.
  replace (Z.to_nat i) with (S (Z.to_nat (i - 1))) by lia. done.
Qed.

Lemma Forall_zget (P : A -> Prop) l i x : Forall P l -> zget l i = Some x -> P x.
Proof.
  unfold zget. intros HF H. case_decide; [|done]. by eapply Forall_lookup_1.
Qed.

Lemma Forall_upd (P : A -> Prop) l i v : Forall P l -> P v -> Forall P (upd l i v).
Proof. intros. by apply Forall_insert. Qed.
End Arrays.
Lemma zlen_fmap {A B} (f : A -> B) (l : list A) : zlen (f <$> l) = zlen l.
Proof. unfold zlen. by rewrite length_fmap. Qed.

Definition at_ (l : list Z) (i : Z) : Z := default 0 (zget l i).

Lemma at_upd_eq l i v : 0 <= i < zlen l -> at_ (upd l i v) i = v.
Proof. intros. unfold at_. by rewrite zget_upd_eq. Qed.
Lemma at_upd_ne l i j v : 0 <= i -> i <> j -> at_ (upd l i v) j = at_ l j.
Proof. intros. unfold at_. by rewrite zget_upd_ne. Qed.
Lemma zget_at l i : 0 <= i < zlen l -> zget l i = Some (at_ l i).
Proof. intros H. apply zget_is_Some in H as [x Hx]. unfold at_. by rewrite Hx. Qed.
Lemma at_out l i : ~ 0 <= i < zlen l -> at_ l i = 0.
Proof.
  intros H. unfold at_. destruct (zget l i) eqn:E; [|done].
  apply zget_lt in E. lia.
Qed.
Lemma at_ext (l1 l2 : list Z) :
  zlen l1 = zlen l2 -> (forall i, 0 <= i < zlen l1 -> at_ l1 i = at_ l2 i) -> l1 = l2.
Proof.
  intros Hl H. apply zget_ext; [done|]. intros i Hi.
  rewrite !zget_at by lia. f_equal. by apply H.
Qed.
Lemma Forall_at (P : Z -> Prop) l i : Forall P l -> 0 <= i < zlen l -> P (at_ l i).
Proof. intros HF Hi. eapply Forall_zget; [done|]. by apply zget_at. Qed.

(** ** Memory: disjoint array objects named by a block

    A pointer to an array object is the object's block, and [p[i]] is
    [load p i]; two pointers may be the same block (aliasing), and an index
    outside the object faults. *)
Definition block := positive.
Abbreviation mem := (gmap block (list Z)).
Abbreviation C := (ST mem).

Definition load (b : block) (i : Z) : C Z := fun h =>
  match h !! b with
  | Some l => match zget l i with Some v => Some (v, h) | None => None end
  | None => None
  end.

Definition store (b : block) (i v : Z) : C unit := fun h =>
  match h !! b with
  | Some l => match zget l i with
              | Some _ => Some (tt, <[b := upd l i v]> h)
              | None => None
              end
  | None => None
  end.

(** [memset(&b[i], v, n * sizeof *b)] and
    [memcpy(&d[i], &s[j], n * sizeof *d)], one element at a time. *)
Definition memset (b : block) (i v n : Z) : C unit :=
  for_ (Z.to_nat n) i (fun k => store b k v).
Definition memcpy (d : block) (i : Z) (s : block) (j n : Z) : C unit :=
  for_ (Z.to_nat n) 0 (fun k => let* x := load s (j + k) in store d (i + k) x).

Lemma wp_load (b : block) i l (Q : Z -> mem -> Prop) (h : mem) :
  h !! b = Some l -> 0 <= i < zlen l -> Q (at_ l i) h -> wp (load b i) Q h.
Proof.
  intros Hb Hi HQ. exists (at_ l i), h. unfold load.
  by rewrite Hb, zget_at.
Qed.

Lemma wp_store (b : block) i v l (Q : unit -> mem -> Prop) (h : mem) :
  h !! b = Some l -> 0 <= i < zlen l -> Q tt (<[b := upd l i v]> h) ->
  wp (store b i v) Q h.
Proof.
  intros Hb Hi HQ. exists tt, (<[b := upd l i v]> h). unfold store.
  by rewrite Hb, zget_at.
Qed.

#[global] Opaque load store.

Ltac forall_inv :=
  repeat match goal with
  | H : Forall _ (_ :: _) |- _ => apply Forall_cons_iff in H as [? H]
  end; cbv beta in *.

Ltac case_if E :=
  match goal with |- context [if ?b then _ else _] => destruct b eqn:E end.

(** One symbolic step of a computation; side conditions on memory are solved
    by map rewriting, bounds by [lia]. *)
Ltac wp_side := first [eassumption | by simplify_map_eq | rewrite ?zlen_upd; lia].
Ltac wp_step :=
  cbv beta;
  lazymatch goal with
  | |- wp (bind _ _) _ _ => apply wp_bind
  | |- wp (ret _) _ _ => apply wp_ret
  | |- wp (load _ _) _ _ => eapply wp_load; [wp_side|try wp_side|]
  | |- wp (store _ _ _) _ _ => eapply wp_store; [wp_side|try wp_side|]
  | |- wp (if ?b then _ else _) _ _ => let E := fresh "E" in destruct b eqn:E
  end; cbv beta.
Ltac wp_steps := repeat wp_step.

Lemma bool_decide_Zeqb (a b : Z) : bool_decide (a = b) = (a =? b).
Proof. case_bool_decide; symmetry; [apply Z.eqb_eq|apply Z.eqb_neq]; done. Qed.

(** Evaluate the powers of two with a closed exponent. *)
Ltac pow2_val k :=
  let v := eval compute in (2 ^ k) in
  lazymatch v with Zpos _ => v end.
Ltac pow2 :=
  repeat match goal with
  | |- context [2 ^ ?k] => let v := pow2_val k in change (2 ^ k) with v
  | H : context [2 ^ ?k] |- _ => let v := pow2_val k in change (2 ^ k) with v in H
  end.

(** Linear arithmetic with division and remainder by constants. *)
Ltac dlia := Z.div_mod_to_equations; lia.
Ltac ulia := unfold uint, wrap, BITS_PER_LONG in *; pow2; dlia.

(** Turn the boolean comparisons of the code into arithmetic facts. *)
Ltac b2p :=
  repeat match goal with
  | H : (_ <? _) = true |- _ => apply Z.ltb_lt in H
  | H : (_ <? _) = false |- _ => apply Z.ltb_ge in H
  | H : (_ <=? _) = true |- _ => apply Z.leb_le in H
  | H : (_ <=? _) = false |- _ => apply Z.leb_gt in H
  | H : (_ =? _) = true |- _ => apply Z.eqb_eq in H
  | H : (_ =? _) = false |- _ => apply Z.eqb_neq in H
  | H : negb _ = true |- _ => apply negb_true_iff in H
  | H : negb _ = false |- _ => apply negb_false_iff in H
  | H : (_ && _) = true |- _ => apply andb_true_iff in H as [? ?]
  | H : (_ || _) = false |- _ => apply orb_false_iff in H as [? ?]
  | H : (_ && _) = false |- _ => apply andb_false_iff in H
  | H : (_ || _) = true |- _ => apply orb_true_iff in H
  end.

Lemma ltb_t a b : a < b -> (a <? b) = true.
Proof. apply Z.ltb_lt. Qed.
Lemma ltb_f a b : b <= a -> (a <? b) = false.
Proof. apply Z.ltb_ge. Qed.
Lemma eqb_f a b : a <> b -> (a =? b) = false.
Proof. apply Z.eqb_neq. Qed.

(** ** Bit-level reasoning *)
Lemma testbit_wrap w x i :
  0 <= w -> 0 <= i -> Z.testbit (wrap w x) i = (i <? w) && Z.testbit x i.
Proof.
  intros. unfold wrap. destruct (i <? w) eqn:E; b2p; simpl.
  - by apply Z.mod_pow2_bits_low.
  - by apply Z.mod_pow2_bits_high.
Qed.
Lemma testbit_not32 x i :
  0 <= i -> Z.testbit (not32 x) i = (i <? 32) && negb (Z.testbit x i).
Proof. intros. unfold not32. rewrite testbit_wrap, Z.lnot_spec by lia. done. Qed.
Lemma testbit_shl32 x n i :
  0 <= i -> Z.testbit (shl32 x n) i = (i <? 32) && Z.testbit x (i - n).
Proof. intros. unfold shl32. rewrite testbit_wrap, Z.shiftl_spec by lia. done. Qed.
Lemma testbit_ones n i :
  0 <= n -> 0 <= i -> Z.testbit (Z.ones n) i = (i <? n).
Proof.
  intros. destruct (i <? n) eqn:E; b2p.
  - by apply Z.ones_spec_low.
  - apply Z.ones_spec_high. lia.
Qed.
Lemma testbit_above w x i : 0 <= w -> uint w x -> w <= i -> Z.testbit x i = false.
Proof.
  intros Hw Hx Hi. rewrite <- (Z.mod_small x (2 ^ w)) by exact Hx.
  apply Z.mod_pow2_bits_high. lia.
Qed.

Lemma uint_wrap w x : 0 <= w -> uint w (wrap w x).
Proof. intros. apply Z.mod_pos_bound. lia. Qed.
Lemma wrap_id w x : uint w x -> wrap w x = x.
Proof. apply Z.mod_small. Qed.
Lemma u32_id x : 0 <= x < 2 ^ 32 -> u32 x = x.
Proof. apply wrap_id. Qed.
Lemma u64_id x : 0 <= x < 2 ^ 64 -> u64 x = x.
Proof. apply wrap_id. Qed.
Lemma sgn_id w x : - 2 ^ (w - 1) <= x < 2 ^ (w - 1) -> 1 <= w -> sgn w x = x.
Proof.
  intros Hx Hw. unfold sgn. replace (2 ^ w) with (2 * 2 ^ (w - 1)).
  - rewrite Z.mod_small by lia. lia.
  - rewrite <- Z.pow_succ_r by lia. f_equal. lia.
Qed.
Lemma s32_id x : - 2147483648 <= x < 2147483648 -> s32 x = x.
Proof. intros. apply sgn_id; pow2; lia. Qed.
Lemma sgn_mul_wrap w x y : 0 <= w -> sgn w (wrap w x * y) = sgn w (x * y).
Proof.
  intros. unfold sgn, wrap. f_equal.
  rewrite <- Z.add_mod_idemp_l, Z.mul_mod_idemp_l, Z.add_mod_idemp_l by lia. done.
Qed.
Lemma uint_bits w x :
  0 <= w -> 0 <= x -> (forall i, w <= i -> Z.testbit x i = false) -> uint w x.
Proof.
  intros Hw Hx H. rewrite <- (Z.mod_small x (2 ^ w)).
  - by apply uint_wrap.
  - split; [done|]. destruct (Z.eq_dec x 0) as [->|]; [lia|].
    apply Z.log2_lt_pow2; [lia|].
    destruct (Z.lt_ge_cases (Z.log2 x) w) as [|Hge]; [done|].
    apply H in Hge. rewrite Z.bit_log2 in Hge by lia. done.
Qed.
Lemma uint_land w x y : 0 <= w -> uint w x -> 0 <= y -> uint w (Z.land x y).
Proof.
  intros Hw Hx Hy. apply uint_bits; [done|apply Z.land_nonneg; left; apply Hx|].
  intros i Hi. rewrite Z.land_spec, (testbit_above w x) by done. done.
Qed.
Lemma uint_lor w x y : 0 <= w -> uint w x -> uint w y -> uint w (Z.lor x y).
Proof.
  intros Hw Hx Hy. apply uint_bits; [done|apply Z.lor_nonneg; split; [apply Hx|apply Hy]|].
  intros i Hi. by rewrite Z.lor_spec, (testbit_above w x), (testbit_above w y).
Qed.
Lemma uint_lxor w x y : 0 <= w -> uint w x -> uint w y -> uint w (Z.lxor x y).
Proof.
  intros Hw Hx Hy. apply uint_bits; [done|apply Z.lxor_nonneg; split; intros; [apply Hy|apply Hx]|].
  intros i Hi. by rewrite Z.lxor_spec, (testbit_above w x), (testbit_above w y).
Qed.
Lemma uint_shiftr w x n : 0 <= n -> uint w x -> uint w (Z.shiftr x n).
Proof.
  intros Hn [H0 H1]. split; [by apply Z.shiftr_nonneg|].
  rewrite Z.shiftr_div_pow2 by done.
  assert (0 < 2 ^ n) by (apply Z.pow_pos_nonneg; lia).
  apply Z.le_lt_trans with x; [|done]. apply Z.div_le_upper_bound; nia.
Qed.
Lemma uint_not32 x : uint 32 (not32 x).
Proof. by apply uint_wrap. Qed.
Lemma uint_shl32 x n : uint 32 (shl32 x n).
Proof. by apply uint_wrap. Qed.
Lemma uint_nonneg w x : uint w x -> 0 <= x.
Proof. by intros [? ?]. Qed.
Lemma uint_0 w : 0 <= w -> uint w 0.
Proof. intros. split; [lia|]. apply Z.pow_pos_nonneg; lia. Qed.

Create HintDb uint.
#[export] Hint Resolve uint_wrap uint_land uint_lor uint_lxor uint_shiftr uint_not32
  uint_shl32 uint_nonneg uint_0 : uint.
#[export] Hint Extern 1 (_ <= _) => lia : uint.

Create Rewrite HintDb bits.
#[export] Hint Rewrite Z.land_spec Z.lor_spec Z.lxor_spec Z.ldiff_spec : bits.
#[export] Hint Rewrite testbit_wrap testbit_not32 testbit_shl32 testbit_ones
  Z.shiftr_spec Z.shiftl_spec using lia : bits.
#[export] Hint Rewrite Z.bits_0 andb_false_r andb_true_r andb_false_l andb_true_l
  orb_false_r orb_true_r orb_false_l orb_true_l : bits.

Lemma bits_ext x y :
  (forall i, 0 <= i -> Z.testbit x i = Z.testbit y i) -> x = y.
Proof. intros H. by apply Z.bits_inj'. Qed.

(** A word is zero exactly when none of its bits is set. *)
Lemma word_zero_iff w x :
  0 <= w -> uint w x ->
  x = 0 <-> forall i, 0 <= i < w -> Z.testbit x i = false.
Proof.
  intros Hw Hx. split; [intros -> i _; apply Z.bits_0|].
  intros H. apply bits_ext. intros i Hi. rewrite Z.bits_0.
  destruct (Z.lt_ge_cases i w); [apply H; lia|by apply (testbit_above w)].
Qed.

(** Rounding down to a multiple of a power of two with a mask. *)
Lemma land_mask w k x : 0 <= k < w -> 0 <= x < 2 ^ w -> Z.land x (wrap w (Z.lnot (2 ^ k - 1))) = x - x mod 2 ^ k.
Proof.
  intros Hk Hx. assert (0 < 2 ^ k) by (apply Z.pow_pos_nonneg; lia). replace (2 ^ k - 1) with (Z.ones k) by (rewrite Z.ones_equiv; lia).
  unfold wrap. rewrite <- Z.land_ones by lia. rewrite (Z.land_comm (Z.lnot _)), Z.land_assoc, Z.land_ones by lia.
  rewrite (Z.mod_small x) by done. rewrite <- Z.ldiff_land. rewrite Z.ldiff_ones_r by lia.
  rewrite Z.shiftl_mul_pow2, Z.shiftr_div_pow2 by lia. pose proof (Z.div_mod x (2 ^ k)). lia.
Qed.

(** Bits of a byte followed by higher ones. *)
Lemma testbit_cat x y i :
  uint 8 x -> 0 <= i -> Z.testbit (x + 256 * y) i = if i <? 8 then Z.testbit x i else Z.testbit y (i - 8).
Proof.
  intros Hx Hi. unfold uint in Hx. pow2. destruct (i <? 8) eqn:E; b2p.
  - rewrite <- (Z.mod_pow2_bits_low _ 8) by lia. f_equal. pow2. dlia.
  - replace i with (i - 8 + 8) at 1 by lia. rewrite <- Z.div_pow2_bits by lia. f_equal. pow2. dlia.
Qed.

Lemma lxor_cat x y x' y' :
  uint 8 x -> uint 8 x' -> Z.lxor (x + 256 * y) (x' + 256 * y') = Z.lxor x x' + 256 * Z.lxor y y'.
Proof.
  intros Hx Hx'. apply bits_ext. intros i Hi. rewrite Z.lxor_spec.
  rewrite !testbit_cat by (done || by apply uint_lxor). rewrite !Z.lxor_spec. by destruct (i <? 8).
Qed.

(** Search for the first index of a range that satisfies a test. *)
Lemma first_true (f : Z -> bool) a (n : nat) :
  (forall i, a <= i < a + Z.of_nat n -> f i = false) \/
  (exists k, a <= k < a + Z.of_nat n /\ f k = true /\ forall j, a <= j < k -> f j = false).
Proof.
  induction n as [|n IH]; [left; lia|].
  destruct IH as [IH|(k & ? & ? & ?)]; [|right; exists k; split; [lia|done]].
  destruct (f (a + Z.of_nat n)) eqn:E.
  - right. exists (a + Z.of_nat n). split; [lia|]. split; [done|].
    intros j Hj. apply IH. lia.
  - left. intros i Hi. destruct (Z.eq_dec i (a + Z.of_nat n)) as [->|]; [done|]. apply IH. lia.
Qed.

(** ** Block operations *)

(** Overwriting a range with one value. *)
Lemma memset_spec (b : block) i v n l (h : mem) :
  h !! b = Some l -> 0 <= i -> 0 <= n -> i + n <= zlen l ->
  wp (memset b i v n) (fun _ h' => exists l', h' = <[b := l']> h /\ zlen l' = zlen l /\
    (forall k, i <= k < i + n -> at_ l' k = v) /\
    (forall k, ~ i <= k < i + n -> at_ l' k = at_ l k)) h.
Proof.
  intros Hb Hi Hn Hl. unfold memset. eapply wp_mono.
  - apply (wp_for (fun j h' => exists l', h' = <[b := l']> h /\ zlen l' = zlen l /\
      (forall k, i <= k < j -> at_ l' k = v) /\ (forall k, ~ i <= k < j -> at_ l' k = at_ l k))).
    + exists l. split; [by rewrite insert_id|]. split; [done|]. split; [lia|done].
    + intros j h' Hj (l' & -> & Hlen & Hin & Hout). wp_step.
      exists (upd l' j v). rewrite insert_insert_eq, zlen_upd. split; [done|]. split; [done|].
      split; intros k Hk; (destruct (Z.eq_dec j k) as [->|];
        [rewrite at_upd_eq by lia; done || lia|rewrite at_upd_ne by lia]).
      * apply Hin. lia.
      * apply Hout. lia.
  - intros [] h' (l' & -> & Hlen & Hin & Hout). exists l'. rewrite Z2Nat.id in Hin, Hout by lia. done.
Qed.

Lemma Forall_by_at (P : Z -> Prop) l : (forall i, 0 <= i < zlen l -> P (at_ l i)) -> Forall P l.
Proof.
  intros H. apply Forall_lookup. intros i x Hi. unfold zlen in H.
  pose proof (lookup_lt_Some _ _ _ Hi). specialize (H (Z.of_nat i) ltac:(lia)).
  unfold at_, zget in H. rewrite decide_True, Nat2Z.id, Hi in H by lia. done.
Qed.

(** Copying between different objects. *)
Lemma memcpy_spec (d : block) i (s : block) j n ld ls (h : mem) :
  h !! d = Some ld -> h !! s = Some ls -> d <> s ->
  0 <= n -> 0 <= i -> i + n <= zlen ld -> 0 <= j -> j + n <= zlen ls ->
  wp (memcpy d i s j n) (fun _ h' => exists l', h' = <[d := l']> h /\ zlen l' = zlen ld /\
    (forall k, i <= k < i + n -> at_ l' k = at_ ls (j + (k - i))) /\
    (forall k, ~ i <= k < i + n -> at_ l' k = at_ ld k)) h.
Proof.
  intros Hd Hs Hne Hn Hi Hl Hj Hl'. unfold memcpy. eapply wp_mono.
  - apply (wp_for (fun m h' => exists l', h' = <[d := l']> h /\ zlen l' = zlen ld /\
      (forall k, i <= k < i + m -> at_ l' k = at_ ls (j + (k - i))) /\
      (forall k, ~ i <= k < i + m -> at_ l' k = at_ ld k))).
    + exists ld. split; [by rewrite insert_id|]. split; [done|]. split; [lia|done].
    + intros m h' Hm (l' & -> & Hlen & Hin & Hout). wp_step.
      eapply wp_load; [by rewrite lookup_insert_ne|lia|]. wp_step.
      exists (upd l' (i + m) (at_ ls (j + m))). rewrite insert_insert_eq, zlen_upd.
      split; [done|]. split; [done|].
      split; intros k Hk; (destruct (Z.eq_dec (i + m) k) as [<-|];
        [rewrite at_upd_eq by lia; f_equal; lia|rewrite at_upd_ne by lia]).
      * apply Hin. lia.
      * apply Hout. lia.
  - intros [] h' (l' & -> & Hlen & Hin & Hout). exists l'. rewrite Z2Nat.id in Hin, Hout by lia. done.
Qed.

Lemma at_app_l l1 l2 i : i < zlen l1 -> at_ (l1 ++ l2) i = at_ l1 i.
Proof. intros. unfold at_. by rewrite zget_app_l. Qed.
Lemma at_app_r l1 l2 i : zlen l1 <= i -> at_ (l1 ++ l2) i = at_ l2 (i - zlen l1).
Proof. intros. unfold at_. by rewrite zget_app_r. Qed.
Lemma zlen_take {A} (l : list A) n : 0 <= n -> zlen (take (Z.to_nat n) l) = Z.min n (zlen l).
Proof. intros. unfold zlen. rewrite length_take. lia. Qed.
Lemma zlen_drop {A} (l : list A) n : 0 <= n -> zlen (drop (Z.to_nat n) l) = Z.max 0 (zlen l - n).
Proof. intros. unfold zlen. rewrite length_drop. lia. Qed.
Lemma at_take l n i : i < n -> at_ (take (Z.to_nat n) l) i = at_ l i.
Proof.
  intros. unfold at_, zget. case_decide; [|done]. by rewrite lookup_take_lt by lia.
Qed.
Lemma at_drop l n i : 0 <= n -> 0 <= i -> at_ (drop (Z.to_nat n) l) i = at_ l (n + i).
Proof.
  intros. unfold at_, zget. rewrite !decide_True by lia. rewrite lookup_drop. do 2 f_equal. lia.
Qed.

(** ** Byte pointers: a block and an offset *)
Definition ptr : Type := block * Z.

(** [*(u32 * )p], little-endian. *)
Definition load_u32 (p : ptr) : C Z :=
  let* b0 := load p.1 p.2 in
  let* b1 := load p.1 (p.2 + 1) in
  let* b2 := load p.1 (p.2 + 2) in
  let* b3 := load p.1 (p.2 + 3) in
  ret (b0 + 2 ^ 8 * b1 + 2 ^ 16 * b2 + 2 ^ 24 * b3).
Definition store_u32 (p : ptr) (v : Z) : C unit :=
  store p.1 p.2 (v mod 2 ^ 8) ;;
  store p.1 (p.2 + 1) (v / 2 ^ 8 mod 2 ^ 8) ;;
  store p.1 (p.2 + 2) (v / 2 ^ 16 mod 2 ^ 8) ;;
  store p.1 (p.2 + 3) (v / 2 ^ 24 mod 2 ^ 8).

Lemma le_bytes b0 b1 b2 b3 :
  uint 8 b0 -> uint 8 b1 -> uint 8 b2 -> uint 8 b3 ->
  let v := b0 + 2 ^ 8 * b1 + 2 ^ 16 * b2 + 2 ^ 24 * b3 in
  v mod 2 ^ 8 = b0 /\ v / 2 ^ 8 mod 2 ^ 8 = b1 /\ v / 2 ^ 16 mod 2 ^ 8 = b2 /\
  v / 2 ^ 24 mod 2 ^ 8 = b3.
Proof. intros. unfold uint in *. pow2. subst v. repeat split; dlia. Qed.

Definition put4 (l : list Z) (x b0 b1 b2 b3 : Z) : list Z :=
  upd (upd (upd (upd l x b0) (x + 1) b1) (x + 2) b2) (x + 3) b3.

Lemma wp_load_u32 (b : block) x l (Q : Z -> mem -> Prop) (h : mem) :
  h !! b = Some l -> 0 <= x -> x + 4 <= zlen l ->
  Q (at_ l x + 2 ^ 8 * at_ l (x + 1) + 2 ^ 16 * at_ l (x + 2) + 2 ^ 24 * at_ l (x + 3)) h ->
  wp (load_u32 (b, x)) Q h.
Proof. intros. unfold load_u32. cbn [fst snd]. by wp_steps. Qed.

Lemma wp_store_u32 (b : block) x b0 b1 b2 b3 l (Q : unit -> mem -> Prop) (h : mem) :
  h !! b = Some l -> 0 <= x -> x + 4 <= zlen l ->
  uint 8 b0 -> uint 8 b1 -> uint 8 b2 -> uint 8 b3 ->
  Q tt (<[b := put4 l x b0 b1 b2 b3]> h) ->
  wp (store_u32 (b, x) (b0 + 2 ^ 8 * b1 + 2 ^ 16 * b2 + 2 ^ 24 * b3)) Q h.
Proof.
  intros Hb Hx Hl ? ? ? ? HQ. unfold store_u32. cbn [fst snd].
  destruct (le_bytes b0 b1 b2 b3) as (-> & -> & -> & ->); [done..|].
  wp_steps. unfold put4 in HQ. by rewrite !insert_insert_eq.
Qed.

(** ** The [n] elements from index [o] on *)
Definition slice {A} (l : list A) (o n : Z) : list A := take (Z.to_nat n) (drop (Z.to_nat o) l).

Lemma slice_cons l o n :
  0 <= o < zlen l -> 0 <= n -> slice l o (n + 1) = at_ l o :: slice l (o + 1) n.
Proof.
  intros Ho Hn. unfold slice. replace (Z.to_nat (n + 1)) with (S (Z.to_nat n)) by lia.
  replace (Z.to_nat (o + 1)) with (S (Z.to_nat o)) by lia.
  pose proof (zget_at l o Ho) as Hz. unfold zget in Hz. rewrite decide_True in Hz by lia.
  by rewrite (drop_S _ _ _ Hz).
Qed.
Lemma slice_0 {A} (l : list A) o : slice l o 0 = [].
Proof. done. Qed.
Lemma slice_all {A} (s : list A) n : n = zlen s -> slice s 0 n = s.
Proof. intros ->. unfold slice, zlen. rewrite drop_0. apply take_ge. lia. Qed.

(** A computation that ends in a known result and state. *)
Lemma wp_eq {S A} (m : ST S A) s a s' : wp m (fun r s1 => r = a /\ s1 = s') s -> m s = Some (a, s').
Proof. by intros (? & ? & ? & -> & ->). Qed.
