(* ===== verification/Bits.v ===== *)
(** * Word-level bit operations

    [include/asm-generic/bitops/__ffs.h], [ffz.h], [fls.h], [lib/hweight.c] and
    [lib/bitrev.c]: the branch-cascade and SWAR routines as functions on 32-bit
    words, with their reference meaning in terms of [Z.testbit]. *)

From Stdlib Require Import ZArith Lia.
From stdpp Require Import base tactics numbers list gmap option.
From S2P Require Import Prelude.

(** ** Rotations ([include/linux/bitops.h]) *)
Definition rol32 (word shift : Z) : Z := Z.lor (shl32 word shift) (Z.shiftr word (32 - shift)).
Definition ror32 (word shift : Z) : Z := Z.lor (Z.shiftr word shift) (shl32 word (32 - shift)).

(** Equality of words by cases on each bit. *)
Ltac bits_eq := apply Z.bits_inj'; intros n Hn; 
  repeat first [rewrite Z.lxor_spec | rewrite Z.land_spec | rewrite Z.lor_spec | rewrite Z.lnot_spec by done | rewrite Z.bits_0];
  repeat match goal with |- context [Z.testbit ?x n] => destruct (Z.testbit x n) end; reflexivity.

(** ** Definitions *)
(** One stage of the [__ffs] cascade: skip [k] low bits when they are all zero. *)
Definition ffs_stage (k : Z) (st : Z * Z) : Z * Z :=
  let '(word, num) := st in
  if Z.land word (Z.ones k) =? 0 then (Z.shiftr word k, num + k) else (word, num).

Definition __ffs (word : Z) : Z :=
  let st := (word, 0) in
  let st := ffs_stage 16 st in
  let st := ffs_stage 8 st in
  let st := ffs_stage 4 st in
  let st := ffs_stage 2 st in
  let '(word, num) := st in
  if Z.land word 1 =? 0 then num + 1 else num.

Definition ffz (word : Z) : Z := __ffs (not32 word).

(** One stage of the [fls] cascade: when the [k] high bits are zero, shift them out. *)
Definition fls_stage (k : Z) (st : Z * Z) : Z * Z :=
  let '(x, r) := st in
  if Z.land x (shl32 (Z.ones k) (32 - k)) =? 0 then (shl32 x k, r - k) else (x, r).

Definition fls (x : Z) : Z :=
  if x =? 0 then 0
  else snd (fls_stage 1 (fls_stage 2 (fls_stage 4 (fls_stage 8 (fls_stage 16 (x, 32)))))).

Definition hweight32 (w : Z) : Z :=
  let res := u32 (w - Z.land (Z.shiftr w 1) 0x55555555) in
  let res := u32 (Z.land res 0x33333333 + Z.land (Z.shiftr res 2) 0x33333333) in
  let res := Z.land (u32 (res + Z.shiftr res 4)) 0x0F0F0F0F in
  let res := u32 (res + Z.shiftr res 8) in
  Z.land (u32 (res + Z.shiftr res 16)) 0x000000FF.

Definition hweight16 (w : Z) : Z :=
  let res := u32 (w - Z.land (Z.shiftr w 1) 0x5555) in
  let res := u32 (Z.land res 0x3333 + Z.land (Z.shiftr res 2) 0x3333) in
  let res := Z.land (u32 (res + Z.shiftr res 4)) 0x0F0F in
  Z.land (u32 (res + Z.shiftr res 8)) 0x00FF.

Definition hweight8 (w : Z) : Z :=
  let res := u32 (w - Z.land (Z.shiftr w 1) 0x55) in
  let res := u32 (Z.land res 0x33 + Z.land (Z.shiftr res 2) 0x33) in
  Z.land (u32 (res + Z.shiftr res 4)) 0x0F.

(** [BITS_PER_LONG == 32] branch. *)
Definition hweight64 (w : Z) : Z :=
  u32 (hweight32 (u32 (Z.shiftr w 32)) + hweight32 (u32 w)).

Definition hweight_long (w : Z) : Z := hweight32 w.

Definition byte_rev_table : list Z := [
  0x00; 0x80; 0x40; 0xc0; 0x20; 0xa0; 0x60; 0xe0;
  0x10; 0x90; 0x50; 0xd0; 0x30; 0xb0; 0x70; 0xf0;
  0x08; 0x88; 0x48; 0xc8; 0x28; 0xa8; 0x68; 0xe8;
  0x18; 0x98; 0x58; 0xd8; 0x38; 0xb8; 0x78; 0xf8;
  0x04; 0x84; 0x44; 0xc4; 0x24; 0xa4; 0x64; 0xe4;
  0x14; 0x94; 0x54; 0xd4; 0x34; 0xb4; 0x74; 0xf4;
  0x0c; 0x8c; 0x4c; 0xcc; 0x2c; 0xac; 0x6c; 0xec;
  0x1c; 0x9c; 0x5c; 0xdc; 0x3c; 0xbc; 0x7c; 0xfc;
  0x02; 0x82; 0x42; 0xc2; 0x22; 0xa2; 0x62; 0xe2;
  0x12; 0x92; 0x52; 0xd2; 0x32; 0xb2; 0x72; 0xf2;
  0x0a; 0x8a; 0x4a; 0xca; 0x2a; 0xaa; 0x6a; 0xea;
  0x1a; 0x9a; 0x5a; 0xda; 0x3a; 0xba; 0x7a; 0xfa;
  0x06; 0x86; 0x46; 0xc6; 0x26; 0xa6; 0x66; 0xe6;
  0x16; 0x96; 0x56; 0xd6; 0x36; 0xb6; 0x76; 0xf6;
  0x0e; 0x8e; 0x4e; 0xce; 0x2e; 0xae; 0x6e; 0xee;
  0x1e; 0x9e; 0x5e; 0xde; 0x3e; 0xbe; 0x7e; 0xfe;
  0x01; 0x81; 0x41; 0xc1; 0x21; 0xa1; 0x61; 0xe1;
  0x11; 0x91; 0x51; 0xd1; 0x31; 0xb1; 0x71; 0xf1;
  0x09; 0x89; 0x49; 0xc9; 0x29; 0xa9; 0x69; 0xe9;
  0x19; 0x99; 0x59; 0xd9; 0x39; 0xb9; 0x79; 0xf9;
  0x05; 0x85; 0x45; 0xc5; 0x25; 0xa5; 0x65; 0xe5;
  0x15; 0x95; 0x55; 0xd5; 0x35; 0xb5; 0x75; 0xf5;
  0x0d; 0x8d; 0x4d; 0xcd; 0x2d; 0xad; 0x6d; 0xed;
  0x1d; 0x9d; 0x5d; 0xdd; 0x3d; 0xbd; 0x7d; 0xfd;
  0x03; 0x83; 0x43; 0xc3; 0x23; 0xa3; 0x63; 0xe3;
  0x13; 0x93; 0x53; 0xd3; 0x33; 0xb3; 0x73; 0xf3;
  0x0b; 0x8b; 0x4b; 0xcb; 0x2b; 0xab; 0x6b; 0xeb;
  0x1b; 0x9b; 0x5b; 0xdb; 0x3b; 0xbb; 0x7b; 0xfb;
  0x07; 0x87; 0x47; 0xc7; 0x27; 0xa7; 0x67; 0xe7;
  0x17; 0x97; 0x57; 0xd7; 0x37; 0xb7; 0x77; 0xf7;
  0x0f; 0x8f; 0x4f; 0xcf; 0x2f; 0xaf; 0x6f; 0xef;
  0x1f; 0x9f; 0x5f; 0xdf; 0x3f; 0xbf; 0x7f; 0xff
].

Definition bitrev8 (x : Z) : Z := at_ byte_rev_table x.
Definition bitrev16 (x : Z) : Z :=
  u16 (Z.lor (Z.shiftl (bitrev8 (Z.land x 0xff)) 8) (bitrev8 (Z.shiftr x 8))).
Definition bitrev32 (x : Z) : Z :=
  u32 (Z.lor (Z.shiftl (bitrev16 (Z.land x 0xffff)) 16) (bitrev16 (Z.shiftr x 16))).

(** ** Reference notions *)

(** [lowest x n]: bit [n] is the least significant set bit of [x]. *)
Definition lowest (x n : Z) : Prop :=
  0 <= n /\ Z.testbit x n = true /\ forall j, 0 <= j < n -> Z.testbit x j = false.

(** How many of the bits [a .. a+n-1] satisfy [f]. *)
Fixpoint count (f : Z -> bool) (a : Z) (n : nat) : Z :=
  match n with O => 0 | S n' => Z.b2z (f a) + count f (a + 1) n' end.

(** ** [__ffs], [ffz], [fls] *)
Lemma lowest_unique x n m : lowest x n -> lowest x m -> n = m.
Proof.
  intros (Hn0 & Hn & Hn') (Hm0 & Hm & Hm').
  destruct (Z.lt_trichotomy n m) as [H|[H|H]]; [|done|].
  - rewrite Hm' in Hn by lia. done.
  - rewrite Hn' in Hm by lia. done.
Qed.

Lemma land_ones_zero x k :
  0 <= k -> Z.land x (Z.ones k) = 0 <-> forall i, 0 <= i < k -> Z.testbit x i = false.
Proof.
  intros Hk. split.
  - intros H i Hi. apply (f_equal (fun z => Z.testbit z i)) in H.
    rewrite Z.land_spec, testbit_ones, Z.bits_0 in H by lia.
    by rewrite ltb_t, andb_true_r in H by lia.
  - intros H. apply bits_ext. intros i Hi. autorewrite with bits.
    destruct (i <? k) eqn:E; b2p; [rewrite H by lia; done|by rewrite andb_false_r].
Qed.

(** A stage keeps the lowest set bit of the original word at [num + n] and, from
    a word whose lowest bit is below [2k], leaves one below [k]. *)
Lemma ffs_stage_spec k word num n :
  0 <= k -> lowest word n -> n < 2 * k ->
  exists n', lowest (ffs_stage k (word, num)).1 n' /\ n' < k /\
             (ffs_stage k (word, num)).2 + n' = num + n.
Proof.
  intros Hk Hl Hn. unfold ffs_stage. destruct Hl as (Hn0 & Hb & Hz).
  destruct (Z.land word (Z.ones k) =? 0) eqn:E; b2p; simpl.
  - rewrite land_ones_zero in E by done.
    assert (k <= n).
    { destruct (Z.lt_ge_cases n k); [|done]. rewrite E in Hb by lia. done. }
    exists (n - k). split; [|lia]. split; [lia|]. split.
    + rewrite Z.shiftr_spec by lia. by rewrite Z.sub_add.
    + intros j Hj. rewrite Z.shiftr_spec by lia. apply Hz. lia.
  - exists n. split; [done|]. split; [|lia].
    destruct (Z.lt_ge_cases n k) as [|Hge]; [done|]. exfalso. apply E.
    apply land_ones_zero; [done|]. intros i Hi. apply Hz. lia.
Qed.

Lemma ffs_lowest x n : lowest x n -> n < 32 -> __ffs x = n.
Proof.
  intros Hl Hn. unfold __ffs.
  destruct (ffs_stage_spec 16 x 0 n) as (n1 & L1 & B1 & E1); [lia|done|lia|].
  destruct (ffs_stage 16 (x, 0)) as [w1 m1]; cbn [fst snd] in *.
  destruct (ffs_stage_spec 8 w1 m1 n1) as (n2 & L2 & B2 & E2); [lia|done|lia|].
  destruct (ffs_stage 8 (w1, m1)) as [w2 m2]; cbn [fst snd] in *.
  destruct (ffs_stage_spec 4 w2 m2 n2) as (n3 & L3 & B3 & E3); [lia|done|lia|].
  destruct (ffs_stage 4 (w2, m2)) as [w3 m3]; cbn [fst snd] in *.
  destruct (ffs_stage_spec 2 w3 m3 n3) as (n4 & L4 & B4 & E4); [lia|done|lia|].
  destruct (ffs_stage 2 (w3, m3)) as [w4 m4]; cbn [fst snd] in *.
  destruct (ffs_stage_spec 1 w4 m4 n4) as (n5 & L5 & B5 & Hs); [lia|done|lia|].
  unfold ffs_stage in Hs, L5. change (Z.ones 1) with 1 in *.
  destruct L5 as (P5 & _).
  revert Hs. destruct (Z.land w4 1 =? 0); simpl; lia.
Qed.

(** A non-zero word has a lowest set bit. *)
Lemma lowest_exists w x :
  0 <= w -> uint w x -> x <> 0 -> exists n, lowest x n /\ n < w.
Proof.
  intros Hw Hx Hne. destruct (first_true (Z.testbit x) 0 (Z.to_nat w)) as [H|(k & ? & ? & ?)].
  - exfalso. apply Hne, (word_zero_iff w); [done..|]. intros i Hi. apply H. lia.
  - exists k. split; [|lia]. split; [lia|]. done.
Qed.

Lemma ffs_spec x : uint 32 x -> x <> 0 -> lowest x (__ffs x) /\ __ffs x < 32.
Proof.
  intros Hx Hne. destruct (lowest_exists 32 x) as (n & Hl & Hn); [lia|done..|].
  by rewrite (ffs_lowest x n).
Qed.

Lemma ffz_spec x :
  uint 32 x -> x <> 2 ^ 32 - 1 -> lowest (not32 x) (ffz x) /\ ffz x < 32.
Proof.
  intros Hx Hne. apply ffs_spec; [apply uint_not32|].
  unfold not32, wrap, Z.lnot, uint in *. intros H. apply Hne.
  rewrite <- (Z.mod_add _ 1) in H by lia. rewrite Z.mod_small in H; lia.
Qed.

Lemma land_high_zero x k :
  uint 32 x -> 0 <= k <= 32 ->
  Z.land x (shl32 (Z.ones k) (32 - k)) = 0 <-> x < 2 ^ (32 - k).
Proof.
  intros Hx Hk.
  rewrite (word_zero_iff 32) by (eauto with uint || lia).
  transitivity (forall i, 32 - k <= i -> Z.testbit x i = false).
  - split.
    + intros H i Hi. destruct (Z.lt_ge_cases i 32); [|by apply (testbit_above 32)].
      specialize (H i ltac:(lia)). autorewrite with bits in H.
      rewrite !ltb_t in H by lia. by autorewrite with bits in H.
    + intros H i Hi. autorewrite with bits.
      destruct (Z.lt_ge_cases i (32 - k)).
      * rewrite (Z.testbit_neg_r (Z.ones k)) by lia. by rewrite !andb_false_r.
      * by rewrite H by lia.
  - split.
    + intros H. apply uint_bits; [lia|apply Hx|done].
    + intros H i Hi. apply (testbit_above (32 - k)); [lia| |done]. split; [apply Hx|done].
Qed.

Lemma fls_stage_spec k x r y :
  1 <= k <= 16 -> uint 32 y -> 0 <= r <= 32 -> y = x * 2 ^ (32 - r) -> 2 ^ (32 - 2 * k) <= y ->
  uint 32 (fls_stage k (y, r)).1 /\ (fls_stage k (y, r)).2 <= 32 /\
  (fls_stage k (y, r)).1 = x * 2 ^ (32 - (fls_stage k (y, r)).2) /\
  2 ^ (32 - k) <= (fls_stage k (y, r)).1.
Proof.
  intros Hk Hy Hr He Hlow. unfold fls_stage.
  destruct (Z.land y (shl32 (Z.ones k) (32 - k)) =? 0) eqn:E; b2p; simpl.
  - apply land_high_zero in E; [|done|lia].
    assert (Hs : shl32 y k = y * 2 ^ k).
    { unfold shl32. rewrite Z.shiftl_mul_pow2 by lia. apply wrap_id.
      replace 32 with ((32 - k) + k) by lia. unfold uint in *. rewrite Z.pow_add_r by lia. nia. }
    rewrite Hs. split; [rewrite <- Hs; apply uint_shl32|]. split; [lia|]. split.
    + rewrite He, <- Z.mul_assoc, <- Z.pow_add_r by lia. do 2 f_equal. lia.
    + replace (32 - k) with ((32 - 2 * k) + k) by lia. rewrite Z.pow_add_r by lia. nia.
  - rewrite land_high_zero in E by (done || lia).
    split; [done|]. split; [lia|]. split; [done|lia].
Qed.

(** [fls] is the position of the most significant set bit, counted from 1. *)
Lemma fls_spec x : uint 32 x -> x <> 0 -> fls x = Z.log2 x + 1.
Proof.
  intros Hx Hne. unfold fls. rewrite eqb_f by done.
  destruct (fls_stage_spec 16 x 32 x) as (U1 & R1 & E1 & L1);
    [lia|done|lia|by rewrite Z.mul_1_r|unfold uint in Hx; simpl; lia|].
  assert (G : forall k y r, 1 <= k <= 8 -> uint 32 y -> r <= 32 -> y = x * 2 ^ (32 - r) ->
    2 ^ (32 - 2 * k) <= y -> 0 <= r).
  { intros k y r Hk Hy Hr He Hl. unfold uint in Hx, Hy.
    destruct (Z.lt_ge_cases r 0); [|done].
    assert (2 ^ 33 <= 2 ^ (32 - r)) by (apply Z.pow_le_mono_r; lia). nia. }
  destruct (fls_stage 16 (x, 32)) as [y1 r1]. cbn [fst snd] in *.
  destruct (fls_stage_spec 8 x r1 y1) as (U2 & R2 & E2 & L2);
    [lia|done|split; [by apply (G 8 y1 r1)|done]|done|exact L1|].
  destruct (fls_stage 8 (y1, r1)) as [y2 r2]. cbn [fst snd] in *.
  destruct (fls_stage_spec 4 x r2 y2) as (U3 & R3 & E3 & L3);
    [lia|done|split; [by apply (G 4 y2 r2)|done]|done|exact L2|].
  destruct (fls_stage 4 (y2, r2)) as [y3 r3]. cbn [fst snd] in *.
  destruct (fls_stage_spec 2 x r3 y3) as (U4 & R4 & E4 & L4);
    [lia|done|split; [by apply (G 2 y3 r3)|done]|done|exact L3|].
  destruct (fls_stage 2 (y3, r3)) as [y4 r4]. cbn [fst snd] in *.
  destruct (fls_stage_spec 1 x r4 y4) as (U5 & R5 & E5 & L5);
    [lia|done|split; [by apply (G 1 y4 r4)|done]|done|exact L4|].
  destruct (fls_stage 1 (y4, r4)) as [y5 r5]. cbn [fst snd] in *.
  assert (Z.log2 y5 = 31) by (apply Z.log2_unique'  with (y5 - 2 ^ 31); unfold uint in U5; simpl in *; lia).
  rewrite E5, Z.log2_mul_pow2 in H; [lia|unfold uint in Hx; lia|lia].
Qed.

(** ** Counting bits *)
Lemma count_app f a n m : count f a (n + m) = count f a n + count f (a + Z.of_nat n) m.
Proof.
  revert a. induction n as [|n IH]; intros a; simpl.
  - by rewrite Z.add_0_r.
  - rewrite IH. replace (a + Z.of_nat (S n)) with (a + 1 + Z.of_nat n) by lia. lia.
Qed.

Lemma count_ext f g a n :
  (forall i, a <= i < a + Z.of_nat n -> f i = g i) -> count f a n = count g a n.
Proof.
  revert a. induction n as [|n IH]; intros a H; simpl; [done|].
  rewrite H by lia. f_equal. apply IH. intros. apply H. lia.
Qed.

Lemma count_shift f a b n : count (fun i => f (i + b)) a n = count f (a + b) n.
Proof.
  revert a. induction n as [|n IH]; intros a; simpl; [done|].
  rewrite IH. do 2 f_equal. lia.
Qed.

Lemma count_bounds f a n : 0 <= count f a n <= Z.of_nat n.
Proof.
  revert a. induction n as [|n IH]; intros a; simpl; [lia|].
  specialize (IH (a + 1)). destruct (f a); simpl; lia.
Qed.

(** Little-endian digits in base [B]. *)
Fixpoint undig (B : Z) (l : list Z) : Z :=
  match l with [] => 0 | d :: l => d + B * undig B l end.

Lemma undig_nonneg B l : 0 <= B -> Forall (fun d => 0 <= d) l -> 0 <= undig B l.
Proof. intros HB. induction 1; simpl; nia. Qed.

Lemma digits_exist k (n : nat) x :
  0 <= k -> uint (k * Z.of_nat n) x ->
  exists l, length l = n /\ Forall (uint k) l /\ x = undig (2 ^ k) l.
Proof.
  intros Hk. revert x. induction n as [|n IH]; intros x Hx.
  - exists []. split; [done|]. split; [done|]. unfold uint in Hx. rewrite Z.mul_0_r in Hx. simpl in *. lia.
  - destruct (IH (x / 2 ^ k)) as (l & Hl & HF & He).
    { unfold uint in *. replace (k * Z.of_nat (S n)) with (k * Z.of_nat n + k) in Hx by lia.
      rewrite Z.pow_add_r in Hx by lia.
      assert (0 < 2 ^ k) by (apply Z.pow_pos_nonneg; lia).
      split; [apply Z.div_pos; lia|apply Z.div_lt_upper_bound; lia]. }
    exists (x mod 2 ^ k :: l). split; [simpl; lia|]. split.
    + constructor; [by apply uint_wrap|done].
    + simpl. rewrite <- He. assert (0 < 2 ^ k) by (apply Z.pow_pos_nonneg; lia).
      pose proof (Z.div_mod x (2 ^ k)). lia.
Qed.

(** [&] acts on the low and the high part of a word separately. *)
Lemma land_split k a x b y :
  0 <= k -> uint k a -> uint k b ->
  Z.land (a + 2 ^ k * x) (b + 2 ^ k * y) = Z.land a b + 2 ^ k * Z.land x y.
Proof.
  intros Hk Ha Hb.
  assert (E : forall c z, uint k c -> c + 2 ^ k * z = Z.lor c (Z.shiftl z k)).
  { intros c z Hc. assert (Z.land c (Z.shiftl z k) = 0).
    { apply bits_ext. intros i Hi. autorewrite with bits.
      destruct (Z.lt_ge_cases i k).
      - rewrite (Z.testbit_neg_r z) by lia. by autorewrite with bits.
      - rewrite (testbit_above k c) by (done || lia). by autorewrite with bits. }
    rewrite <- Z.lxor_lor, <- Z.add_nocarry_lxor, Z.shiftl_mul_pow2 by done. lia. }
  rewrite !E by (try done; apply uint_land; try done; apply Hb).
  apply bits_ext. intros i Hi. autorewrite with bits.
  destruct (Z.lt_ge_cases i k).
  - rewrite !(Z.testbit_neg_r _ (i - k)) by lia. by autorewrite with bits.
  - rewrite (testbit_above k a), (testbit_above k b) by (done || lia). by autorewrite with bits.
Qed.

Lemma uint_land_r w x y : 0 <= w -> 0 <= x -> uint w y -> uint w (Z.land x y).
Proof. intros. rewrite Z.land_comm. by apply uint_land. Qed.

Section Swar.
(** One halving step of the SWAR sum: fields of [2j] bits, mask [2^j-1]. *)
Context (j : Z) (Hj : 0 < j).
Let B := 2 ^ (2 * j).
Let h := 2 ^ j.

Lemma swar_base : 0 < h /\ B = h * h.
Proof.
  unfold B, h. split; [apply Z.pow_pos_nonneg; lia|].
  rewrite <- Z.pow_add_r by lia. f_equal. lia.
Qed.

Lemma swar_low l n :
  length l = n -> Forall (uint (2 * j)) l ->
  Z.land (undig B l) (undig B (replicate n (Z.ones j))) = undig B (map (fun d => d mod h) l).
Proof.
  intros <- HF. induction HF as [|d l Hd HF IH]; simpl; [done|].
  assert (Hm : uint (2 * j) (Z.ones j)).
  { destruct swar_base as [H0 H1]. unfold uint. fold B. rewrite Z.ones_equiv. fold h. nia. }
  unfold B at 1 3. rewrite land_split by (done || lia). fold B.
  rewrite IH, Z.land_ones by lia. done.
Qed.

Lemma swar_high l n :
  length l = n -> Forall (uint (2 * j)) l ->
  Z.land (Z.shiftr (undig B l) j) (undig B (replicate n (Z.ones j)))
  = undig B (map (fun d => d / h) l).
Proof.
  destruct swar_base as [H0 H1].
  intros <- HF. induction HF as [|d l Hd HF IH]; simpl; [by rewrite Z.shiftr_0_l|].
  assert (Hm : uint (2 * j) (Z.ones j)).
  { unfold uint. fold B. rewrite Z.ones_equiv. fold h. nia. }
  unfold uint in Hd. fold B in Hd. set (X := undig B l) in *.
  assert (Hs : Z.shiftr (d + B * X) j = (d / h + h * (X mod h)) + 2 ^ (2 * j) * Z.shiftr X j).
  { rewrite !Z.shiftr_div_pow2 by lia. fold h B.
    replace (d + B * X) with (d + (h * X) * h) by nia. rewrite Z.div_add by lia.
    pose proof (Z.div_mod X h). nia. }
  assert (0 <= X mod h < h) by (apply Z.mod_pos_bound; lia).
  assert (0 <= d / h < h) by (split; [apply Z.div_pos; lia|apply Z.div_lt_upper_bound; nia]).
  rewrite Hs. unfold B at 1. rewrite land_split; [|lia|unfold uint; fold B; nia|done].
  fold B. rewrite IH, Z.land_ones by lia. fold h.
  rewrite Z.mul_comm, Z.mod_add, Z.mod_small by lia. lia.
Qed.

(** The last step adds before masking; fields whose halves leave headroom
    do not carry into each other. *)
Lemma swar_sum l n M :
  length l = n -> Forall (fun d => 0 <= d /\ d mod h <= M /\ d / h <= M) l -> 2 * M + 1 < h ->
  Z.land (undig B l + Z.shiftr (undig B l) j) (undig B (replicate n (Z.ones j)))
  = undig B (map (fun d => d mod h + d / h) l).
Proof.
  destruct swar_base as [H0 H1].
  intros <- HF HM. induction HF as [|d l (Hd0 & Hd1 & Hd2) HF IH]; simpl;
    [by rewrite Z.land_0_r|].
  assert (Hm : uint (2 * j) (Z.ones j)).
  { unfold uint. fold B. rewrite Z.ones_equiv. fold h. nia. }
  set (X := undig B l) in *.
  assert (HX : 0 <= X mod h <= M).
  { split; [apply Z.mod_pos_bound; lia|]. subst X. destruct HF as [|e l' (? & ? & ?) _]; simpl.
    - rewrite Z.mod_0_l by lia. pose proof (Z.div_pos d h). lia.
    - rewrite H1, <- Z.mul_assoc, (Z.mul_comm h), Z.mod_add by lia. done. }
  assert (0 <= d mod h < h) by (apply Z.mod_pos_bound; lia).
  assert (0 <= d / h) by (apply Z.div_pos; lia).
  pose proof (Z.div_mod d h) as Hdm.
  assert (Hs : d + B * X + Z.shiftr (d + B * X) j
    = ((d mod h + d / h) + h * (d / h + X mod h)) + 2 ^ (2 * j) * (X + Z.shiftr X j)).
  { rewrite !Z.shiftr_div_pow2 by lia. fold h B.
    replace (d + B * X) with (d + (h * X) * h) at 2 by nia. rewrite Z.div_add by lia.
    pose proof (Z.div_mod X h). nia. }
  rewrite Hs. unfold B at 1. rewrite land_split; [|lia|unfold uint; fold B; nia|done].
  fold B. rewrite IH, Z.land_ones by lia. fold h.
  rewrite (Z.mul_comm h), Z.mod_add, Z.mod_small by lia. lia.
Qed.
End Swar.

Lemma testbit_undig_low k d x i :
  0 <= k -> uint k d -> 0 <= i < k -> Z.testbit (d + 2 ^ k * x) i = Z.testbit d i.
Proof.
  intros Hk Hd Hi. rewrite <- (Z.mod_pow2_bits_low _ k) by lia.
  by rewrite Z.mul_comm, Z.mod_add, Z.mod_small by (try exact Hd; apply Z.pow_nonzero; lia).
Qed.
Lemma testbit_undig_high k d x i :
  0 <= k -> uint k d -> 0 <= i -> Z.testbit (d + 2 ^ k * x) (i + k) = Z.testbit x i.
Proof.
  intros Hk Hd Hi. rewrite <- Z.shiftr_spec, Z.shiftr_div_pow2 by lia.
  rewrite Z.mul_comm, Z.div_add, Z.div_small by (try exact Hd; apply Z.pow_nonzero; lia). done.
Qed.

Lemma count_undig4 l :
  Forall (uint 2) l ->
  count (Z.testbit (undig (2 ^ 2) l)) 0 (2 * length l)
  = foldr Z.add 0 (map (fun d => d - d / 2) l).
Proof.
  induction 1 as [|d l Hd HF IH]; [done|].
  replace (2 * length (d :: l))%nat with (2 + 2 * length l)%nat by (simpl; lia).
  rewrite count_app. cbn [undig map foldr count]. rewrite <- IH, Z.add_0_l.
  rewrite !testbit_undig_low by (done || lia). f_equal.
  - unfold uint in Hd. assert (d = 0 \/ d = 1 \/ d = 2 \/ d = 3) as [->|[->|[->| ->]]] by lia; done.
  - replace (Z.of_nat 2) with (0 + 2) by done. rewrite <- count_shift.
    apply count_ext. intros i Hi. by rewrite testbit_undig_high by (done || lia).
Qed.

(** The three stages of [hweight32], each on a list of fields. *)
Definition pairs_sum (l : list Z) : list Z :=
  (fix go l := match l with a :: b :: l' => (a + b) :: go l' | _ => [] end) l.
Definition pairs_cat (B : Z) (l : list Z) : list Z :=
  (fix go l := match l with a :: b :: l' => (a + B * b) :: go l' | _ => [] end) l.

Lemma pairs_ind (P : list Z -> Prop) :
  P [] -> (forall a, P [a]) -> (forall a b l, P l -> P (a :: b :: l)) -> forall l, P l.
Proof.
  intros H0 H1 H2. fix go 1. intros [|a [|b l]]; [done|apply H1|apply H2, go].
Qed.

Lemma undig_pairs B l : Nat.even (length l) = true -> undig B l = undig (B * B) (pairs_cat B l).
Proof. induction l as [| |a b l IH] using pairs_ind; simpl; [done..|]. intros H. rewrite IH by done. lia. Qed.
Lemma length_pairs_cat B l n : length l = (2 * n)%nat -> length (pairs_cat B l) = n.
Proof.
  revert n. induction l as [| |a b l IH] using pairs_ind; simpl; intros n H; [lia..|].
  destruct n; [lia|]. f_equal. apply IH. lia.
Qed.
Lemma length_pairs_sum l n : length l = (2 * n)%nat -> length (pairs_sum l) = n.
Proof.
  revert n. induction l as [| |a b l IH] using pairs_ind; simpl; intros n H; [lia..|].
  destruct n; [lia|]. f_equal. apply IH. lia.
Qed.
Lemma Forall_pairs_sum M l : Forall (fun d => 0 <= d <= M) l ->
  Forall (fun d => 0 <= d <= 2 * M) (pairs_sum l).
Proof.
  induction l as [| |a b l IH] using pairs_ind; simpl; intros H; [done..|].
  apply Forall_cons_iff in H as [Ha H]; apply Forall_cons_iff in H as [Hb H]. constructor; [lia|auto].
Qed.
Lemma Forall_pairs_cat M B l : 0 <= M < B -> Forall (fun d => 0 <= d <= M) l ->
  Forall (fun d => 0 <= d /\ d mod B <= M /\ d / B <= M) (pairs_cat B l).
Proof.
  intros HM. induction l as [| |a b l IH] using pairs_ind; simpl; intros H; [done..|].
  apply Forall_cons_iff in H as [Ha H]; apply Forall_cons_iff in H as [Hb H]. constructor; [|auto].
  rewrite (Z.mul_comm B), Z.mod_add, Z.div_add, Z.mod_small, Z.div_small by lia. nia.
Qed.
Lemma map_pairs_cat M B l : 0 <= M < B -> Forall (fun d => 0 <= d <= M) l ->
  map (fun d => d mod B + d / B) (pairs_cat B l) = pairs_sum l.
Proof.
  intros HM. induction l as [| |a b l IH] using pairs_ind; simpl; intros H; [done..|].
  apply Forall_cons_iff in H as [Ha H]; apply Forall_cons_iff in H as [Hb H]. rewrite IH by done.
  rewrite (Z.mul_comm B), Z.mod_add, Z.div_add, Z.mod_small, Z.div_small by lia. done.
Qed.
Lemma sum_pairs l : Nat.even (length l) = true -> foldr Z.add 0 (pairs_sum l) = foldr Z.add 0 l.
Proof. induction l as [| |a b l IH] using pairs_ind; simpl; [done..|]. intros. rewrite IH by done. lia. Qed.

Lemma undig_map_add B (f g : Z -> Z) l :
  undig B (map (fun d => f d + g d) l) = undig B (map f l) + undig B (map g l).
Proof. induction l; simpl; lia. Qed.
Lemma undig_map_sub B (f g : Z -> Z) l :
  undig B (map (fun d => f d - g d) l) = undig B (map f l) - undig B (map g l).
Proof. induction l; simpl; lia. Qed.
Lemma undig_lt B l : 0 < B -> Forall (fun d => 0 <= d < B) l -> 0 <= undig B l < B ^ zlen l.
Proof.
  intros HB. induction 1 as [|d l Hd HF IH]; [done|].
  unfold zlen in *. cbn [length undig]. rewrite Nat2Z.inj_succ, Z.pow_succ_r by lia. nia.
Qed.

Lemma undig_u32 B k l :
  0 < B -> B ^ k <= 2 ^ 32 -> zlen l = k -> Forall (fun d => 0 <= d < B) l -> uint 32 (undig B l).
Proof. intros HB Hk <- HF. apply undig_lt in HF; [|done]. unfold uint. lia. Qed.

Lemma swar_stage1 l n :
  length l = n -> (n <= 16)%nat -> Forall (uint 2) l ->
  u32 (undig 4 l - Z.land (Z.shiftr (undig 4 l) 1) (undig 4 (replicate n 1)))
  = undig 4 (map (fun d => d - d / 2) l).
Proof.
  intros Hl Hn HF. pose proof (swar_high 1 ltac:(lia) l n Hl HF) as E.
  change (2 ^ (2 * 1)) with 4 in E. change (2 ^ 1) with 2 in E. change (Z.ones 1) with 1 in E.
  rewrite E, <- (map_id l) at 1. rewrite <- (undig_map_sub 4 (fun d => d)). apply wrap_id.
  eapply undig_u32; [lia| |done|].
  - unfold zlen. rewrite length_map, Hl. change (2 ^ 32) with (4 ^ 16). apply Z.pow_le_mono_r; lia.
  - apply Forall_map. eapply Forall_impl; [|exact HF]. intros a Ha. ulia.
Qed.

Lemma swar_stage2 c n :
  length c = (2 * n)%nat -> (n <= 8)%nat -> Forall (fun d => 0 <= d <= 2) c ->
  u32 (Z.land (undig 4 c) (undig 16 (replicate n 3))
       + Z.land (Z.shiftr (undig 4 c) 2) (undig 16 (replicate n 3)))
  = undig 16 (pairs_sum c).
Proof.
  intros Hl Hn HF. pose proof (length_pairs_cat 4 c n Hl) as Hp.
  assert (HU : Forall (uint (2 * 2)) (pairs_cat 4 c)).
  { eapply Forall_impl; [|by apply (Forall_pairs_cat 2)]. intros a Ha. ulia. }
  rewrite (undig_pairs 4) by (rewrite Hl; apply Nat.even_spec; eexists; done).
  pose proof (swar_low 2 ltac:(lia) _ n Hp HU) as E1.
  pose proof (swar_high 2 ltac:(lia) _ n Hp HU) as E2.
  change (2 ^ (2 * 2)) with (4 * 4) in E1, E2. change (Z.ones 2) with 3 in E1, E2.
  change 16 with (4 * 4). rewrite E1, E2, <- undig_map_add. change (2 ^ 2) with 4.
  rewrite (map_pairs_cat 2) by (done || lia).
  apply wrap_id. eapply undig_u32; [lia| |done|].
  - unfold zlen. rewrite (length_pairs_sum c n) by done. change (2 ^ 32) with ((4 * 4) ^ 8).
    apply Z.pow_le_mono_r; lia.
  - apply Forall_pairs_sum in HF. eapply Forall_impl; [|exact HF]. intros a Ha. cbv beta in *. lia.
Qed.

Lemma swar_stage3 c n :
  length c = (2 * n)%nat -> (n <= 4)%nat -> Forall (fun d => 0 <= d <= 4) c ->
  Z.land (u32 (undig 16 c + Z.shiftr (undig 16 c) 4)) (undig 256 (replicate n 15))
  = undig 256 (pairs_sum c).
Proof.
  intros Hl Hn HF. pose proof (length_pairs_cat 16 c n Hl) as Hp.
  rewrite wrap_id.
  - rewrite (undig_pairs 16) by (rewrite Hl; apply Nat.even_spec; eexists; done).
    pose proof (swar_sum 4 ltac:(lia) _ n 4 Hp (Forall_pairs_cat 4 16 c ltac:(lia) HF) ltac:(done)) as E.
    change (2 ^ (2 * 4)) with (16 * 16) in E. change (Z.ones 4) with 15 in E.
    change 256 with (16 * 16). rewrite E.
    change (2 ^ 4) with 16. by rewrite (map_pairs_cat 4) by (done || lia).
  - rewrite Z.shiftr_div_pow2 by lia.
    assert (H : 0 <= undig 16 c <= 1145324612).
    { assert (H : forall k : nat, (k <= 8)%nat -> forall c, length c = k ->
        Forall (fun d => 0 <= d <= 4) c -> 0 <= 15 * undig 16 c <= 4 * (16 ^ Z.of_nat k - 1)).
      { clear. induction k as [|k IH]; intros Hk c Hc HF; destruct c as [|d c]; try done.
        apply Forall_cons_iff in HF as [Hd HF]. specialize (IH ltac:(lia) c ltac:(simpl in *; lia) HF).
        cbn [undig]. rewrite Nat2Z.inj_succ, Z.pow_succ_r by lia. lia. }
      specialize (H (2 * n)%nat ltac:(lia) c Hl HF).
      assert (16 ^ Z.of_nat (2 * n) <= 16 ^ 8) by (apply Z.pow_le_mono_r; lia).
      change (16 ^ 8) with 4294967296 in *. lia. }
    ulia.
Qed.

(** The common part of the 16- and 32-bit routines: [4n] bytes' worth of
    digits end as [n] byte-wide sums. *)
Lemma swar_bytes w n :
  (n <= 4)%nat -> uint (8 * Z.of_nat n) w ->
  exists b, length b = n /\ Forall (fun d => 0 <= d <= 8) b /\
    foldr Z.add 0 b = count (Z.testbit w) 0 (8 * n) /\
    undig 256 b =
      let res := u32 (w - Z.land (Z.shiftr w 1) (undig 4 (replicate (4 * n) 1))) in
      let res := u32 (Z.land res (undig 16 (replicate (2 * n) 3))
                      + Z.land (Z.shiftr res 2) (undig 16 (replicate (2 * n) 3))) in
      Z.land (u32 (res + Z.shiftr res 4)) (undig 256 (replicate n 15)).
Proof.
  intros Hn Hw. destruct (digits_exist 2 (4 * n) w) as (l & Hl & HF & ->);
    [lia|by replace (2 * Z.of_nat (4 * n)) with (8 * Z.of_nat n) by lia|].
  replace (8 * n)%nat with (2 * length l)%nat by lia. rewrite count_undig4 by done.
  change (2 ^ 2) with 4. rewrite swar_stage1 by (done || lia).
  set (c := map (fun d => d - d / 2) l).
  assert (Hc : length c = (2 * (2 * n))%nat) by (unfold c; rewrite length_map; lia).
  assert (HcF : Forall (fun d => 0 <= d <= 2) c).
  { apply Forall_map. eapply Forall_impl; [|exact HF]. intros a Ha. ulia. }
  cbv zeta. rewrite swar_stage2 by (done || lia).
  pose proof (length_pairs_sum c (2 * n) Hc) as Hc2. pose proof (Forall_pairs_sum 2 c HcF) as HcF2.
  rewrite swar_stage3 by (done || lia).
  pose proof (length_pairs_sum _ n Hc2) as Hc3. pose proof (Forall_pairs_sum 4 _ HcF2) as HcF3.
  exists (pairs_sum (pairs_sum c)). split; [done|]. split; [done|]. split; [|done].
  rewrite !sum_pairs by (rewrite ?Hc, ?Hc2; apply Nat.even_spec; eexists; done). done.
Qed.

Lemma hweight32_count w : uint 32 w -> hweight32 w = count (Z.testbit w) 0 32.
Proof.
  intros Hw. destruct (swar_bytes w 4) as (b & Hb & HF & Hs & E); [lia|done|].
  unfold hweight32. change (8 * 4)%nat with 32%nat in Hs. rewrite <- Hs.
  cbv zeta in E.
  change (undig 4 (replicate (4 * 4) 1)) with 0x55555555 in E.
  change (undig 16 (replicate (2 * 4) 3)) with 0x33333333 in E.
  change (undig 256 (replicate 4 15)) with 0x0F0F0F0F in E.
  rewrite <- E. clear E Hs Hw w.
  destruct b as [|b0 [|b1 [|b2 [|b3 []]]]]; try done.
  forall_inv.
  change 0x000000FF with (Z.ones 8). rewrite Z.land_ones, !Z.shiftr_div_pow2 by lia.
  cbn [undig foldr].
  assert (E1 : (b0 + 256 * (b1 + 256 * (b2 + 256 * (b3 + 256 * 0)))) / 2 ^ 8
    = b1 + 256 * (b2 + 256 * b3)) by (symmetry; apply Z.div_unique with b0; pow2; lia).
  rewrite E1.
  set (y := b0 + 256 * (b1 + 256 * (b2 + 256 * (b3 + 256 * 0))) + (b1 + 256 * (b2 + 256 * b3))).
  rewrite (wrap_id 32 y) by (unfold y, uint; pow2; lia).
  assert (E2 : y / 2 ^ 16 = b2 + b3 + 256 * b3).
  { symmetry. apply Z.div_unique with (b0 + b1 + 256 * (b1 + b2)); unfold y; pow2; lia. }
  rewrite E2, (wrap_id 32) by (unfold y, uint; pow2; lia).
  symmetry. apply Z.mod_unique with (b1 + b2 + b3 + 256 * (b2 + b3 + 256 * b3)); unfold y; pow2; lia.
Qed.

(** A property of all values below a bound, by evaluation. *)
Fixpoint all_from (P : Z -> bool) (i : Z) (n : nat) : bool :=
  match n with O => true | S n' => P i && all_from P (i + 1) n' end.

Lemma all_from_spec P i n :
  all_from P i n = true -> forall x, i <= x < i + Z.of_nat n -> P x = true.
Proof.
  revert i. induction n as [|n IH]; intros i H x Hx; [lia|]. simpl in H. b2p.
  destruct (Z.eq_dec x i) as [->|]; [done|]. apply (IH (i + 1)); [done|lia].
Qed.

Lemma check_range (P : Z -> bool) n :
  all_from P 0 (Z.to_nat n) = true -> forall x, 0 <= x < n -> P x = true.
Proof. intros H x Hx. eapply all_from_spec; [exact H|lia]. Qed.

Lemma hweight8_count w : uint 8 w -> hweight8 w = count (Z.testbit w) 0 8.
Proof.
  intros Hw. apply Z.eqb_eq.
  apply (check_range (fun w => hweight8 w =? count (Z.testbit w) 0 8) 256); [by vm_compute|done].
Qed.

Lemma hweight16_count w : uint 16 w -> hweight16 w = count (Z.testbit w) 0 16.
Proof.
  intros Hw. destruct (swar_bytes w 2) as (b & Hb & HF & Hs & E); [lia|done|].
  unfold hweight16. change (8 * 2)%nat with 16%nat in Hs. rewrite <- Hs.
  cbv zeta in E.
  change (undig 4 (replicate (4 * 2) 1)) with 0x5555 in E.
  change (undig 16 (replicate (2 * 2) 3)) with 0x3333 in E.
  change (undig 256 (replicate 2 15)) with 0x0F0F in E.
  rewrite <- E. clear E Hs Hw w. destruct b as [|b0 [|b1 []]]; try done. forall_inv.
  change 0x00FF with (Z.ones 8). rewrite Z.land_ones, !Z.shiftr_div_pow2 by lia.
  cbn [undig foldr]. ulia.
Qed.

Lemma hweight64_count w : uint 64 w -> hweight64 w = count (Z.testbit w) 0 64.
Proof.
  intros Hw. unfold hweight64. rewrite !hweight32_count by (by apply uint_wrap).
  change 64%nat with (32 + 32)%nat. rewrite count_app. rewrite wrap_id.
  - rewrite Z.add_comm. f_equal.
    + apply count_ext. intros i Hi. autorewrite with bits. by rewrite ltb_t by lia.
    + change (0 + Z.of_nat 32) with (0 + 32). rewrite <- count_shift.
      apply count_ext. intros i Hi. autorewrite with bits. by rewrite ltb_t by lia.
  - pose proof (count_bounds (Z.testbit (u32 (Z.shiftr w 32))) 0 32).
    pose proof (count_bounds (Z.testbit (u32 w)) 0 32). unfold uint. pow2. lia.
Qed.

(** ** Bit reversal *)
Lemma bitrev8_spec x i :
  uint 8 x -> 0 <= i < 8 -> Z.testbit (bitrev8 x) i = Z.testbit x (7 - i).
Proof.
  intros Hx Hi.
  pose proof (check_range (fun x => all_from (fun i => Bool.eqb (Z.testbit (bitrev8 x) i)
    (Z.testbit x (7 - i))) 0 (Z.to_nat 8)) 256 ltac:(by vm_compute) x Hx) as H.
  apply Bool.eqb_prop. by apply (check_range _ _ H).
Qed.
Lemma bitrev8_uint x : uint 8 x -> uint 8 (bitrev8 x).
Proof.
  intros Hx. pose proof (check_range (fun x => (0 <=? bitrev8 x) && (bitrev8 x <? 256)) 256
    ltac:(by vm_compute) x Hx) as H. cbv beta in H. b2p. done.
Qed.

(** One doubling step, shared by [bitrev16] and [bitrev32]. *)
Lemma bitrev_double k (rev : Z -> Z) x i :
  0 < k ->
  (forall y, uint k y -> uint k (rev y)) ->
  (forall y j, uint k y -> 0 <= j < k -> Z.testbit (rev y) j = Z.testbit y (k - 1 - j)) ->
  uint (2 * k) x -> 0 <= i < 2 * k ->
  Z.testbit (wrap (2 * k) (Z.lor (Z.shiftl (rev (Z.land x (Z.ones k))) k) (rev (Z.shiftr x k)))) i
  = Z.testbit x (2 * k - 1 - i).
Proof.
  intros Hk Hu Hrev Hx Hi. rewrite Z.land_ones by lia.
  assert (Hl : uint k (x mod 2 ^ k)) by (apply uint_wrap; lia).
  assert (Hh : uint k (Z.shiftr x k)).
  { rewrite Z.shiftr_div_pow2 by lia. unfold uint in *.
    replace (2 * k) with (k + k) in Hx by lia. rewrite Z.pow_add_r in Hx by lia.
    assert (0 < 2 ^ k) by (apply Z.pow_pos_nonneg; lia).
    split; [apply Z.div_pos; lia|apply Z.div_lt_upper_bound; lia]. }
  autorewrite with bits. rewrite ltb_t by lia. simpl.
  destruct (Z.lt_ge_cases i k).
  - rewrite (Z.testbit_neg_r _ (i - k)), Hrev by (done || lia). simpl.
    rewrite Z.shiftr_spec by lia. f_equal. lia.
  - rewrite (testbit_above k (rev (Z.shiftr x k))) by (auto || lia). rewrite orb_false_r.
    rewrite Hrev by (done || lia). rewrite Z.mod_pow2_bits_low by lia. f_equal. lia.
Qed.

Lemma bitrev16_spec x i :
  uint 16 x -> 0 <= i < 16 -> Z.testbit (bitrev16 x) i = Z.testbit x (15 - i).
Proof.
  intros Hx Hi. apply (bitrev_double 8 bitrev8 x i); try done.
  - apply bitrev8_uint.
  - apply bitrev8_spec.
Qed.

Lemma bitrev32_bits x i :
  uint 32 x -> 0 <= i < 32 -> Z.testbit (bitrev32 x) i = Z.testbit x (31 - i).
Proof.
  intros Hx Hi. apply (bitrev_double 16 bitrev16 x i); try done.
  - intros. by apply uint_wrap.
  - apply bitrev16_spec.
Qed.

(** ** Properties *)

(** The four Hamming-weight routines return the number of set bits of
    their 8-, 16-, 32- and 64-bit argument. *)
Theorem hweight_correct w :
  (uint 8 w -> hweight8 w = count (Z.testbit w) 0 8) /\
  (uint 16 w -> hweight16 w = count (Z.testbit w) 0 16) /\
  (uint 32 w -> hweight32 w = count (Z.testbit w) 0 32) /\
  (uint 64 w -> hweight64 w = count (Z.testbit w) 0 64).
Proof.
  split; [apply hweight8_count|]. split; [apply hweight16_count|].
  split; [apply hweight32_count|apply hweight64_count].
Qed.

Lemma hweight_correct_witness :
  hweight8 0xA7 = 5 /\ hweight16 0xF00F = 8 /\ hweight32 0xDEADBEEF = 24 /\
  hweight64 0xDEADBEEF00000001 = 25.
Proof.
  split; [rewrite (proj1 (hweight_correct _)); [reflexivity|done]|].
  split; [rewrite (proj1 (proj2 (hweight_correct _))); [reflexivity|done]|].
  split; [rewrite (proj1 (proj2 (proj2 (hweight_correct _)))); [reflexivity|done]|].
  rewrite (proj2 (proj2 (proj2 (hweight_correct _)))); [reflexivity|done].
Defined.

(** [bitrev32] reverses the 32 bits of a word, and is therefore its own
    inverse. *)
Theorem bitrev32_correct x :
  uint 32 x ->
  (forall i, 0 <= i < 32 -> Z.testbit (bitrev32 x) i = Z.testbit x (31 - i)) /\
  bitrev32 (bitrev32 x) = x.
Proof.
  intros Hx. split; [intros; by apply bitrev32_bits|].
  assert (Hu : forall y, uint 32 (bitrev32 y)) by (intros; by apply uint_wrap).
  apply bits_ext. intros i Hi. destruct (Z.lt_ge_cases i 32).
  - rewrite !bitrev32_bits by (done || lia). f_equal. lia.
  - by rewrite !(testbit_above 32) by (done || lia).
Qed.

Lemma bitrev32_correct_witness :
  bitrev32 0x00000003 = 0xC0000000 /\ bitrev32 (bitrev32 0x12345678) = 0x12345678.
Proof. split; [reflexivity|]. apply (bitrev32_correct 0x12345678). done. Defined.
