(* ===== verification/FindBit.v ===== *)
(** * Bit arrays: [test_bit], [set_bit] and the [find_*_bit] family

    [lib/find_next_bit.c] and [include/asm-generic/bitops/non-atomic.h].  A bit
    array is an array object of 32-bit words; [bm_bit] reads its bits.  The
    searches are proved to return the first set (or clear) bit at or after the
    offset; the class [FindBit] is what they promise to [lib/bitmap.c]. *)

From Stdlib Require Import ZArith Lia.
From stdpp Require Import base tactics numbers list gmap option.
From S2P Require Import Prelude Bits.

(** ** Operations *)
Definition test_bit (nr : Z) (addr : block) : C bool :=
  let* w := load addr (nr / BITS_PER_LONG) in
  ret (Z.testbit w (nr mod BITS_PER_LONG)).

Definition set_bit (nr : Z) (addr : block) : C unit :=
  let* w := load addr (nr / BITS_PER_LONG) in
  store addr (nr / BITS_PER_LONG) (Z.lor w (shl32 1 (nr mod BITS_PER_LONG))).

(** The labels [found_first] and [found_middle] of the searches for a set and
    for a clear bit. *)
Definition found_middle_set (tmp result : Z) : C Z := ret (u32 (result + __ffs tmp)).
Definition found_first_set (tmp result size : Z) : C Z :=
  let tmp := Z.land tmp (Z.shiftr (not32 0) (BITS_PER_LONG - size)) in
  if tmp =? 0 then ret (u32 (result + size)) else found_middle_set tmp result.

Definition found_middle_zero (tmp result : Z) : C Z := ret (u32 (result + ffz tmp)).
Definition found_first_zero (tmp result size : Z) : C Z :=
  let tmp := Z.lor tmp (shl32 (not32 0) size) in
  if tmp =? not32 0 then ret (u32 (result + size)) else found_middle_zero tmp result.

(** The word loop and what follows it, with the two labels it can jump to. *)
Definition scan_words (hit : Z -> bool) (found_middle : Z -> Z -> C Z)
    (found_first : Z -> Z -> Z -> C Z) (addr : block) (p size result : Z) : C Z :=
  let* r := while (S (Z.to_nat (size / BITS_PER_LONG))) (fun '(p, size, result) =>
      if Z.land size (not32 (BITS_PER_LONG - 1)) =? 0
      then ret (inr (inr (p, size, result)))
      else let* tmp := load addr p in
           if hit tmp then ret (inr (inl (tmp, result)))
           else ret (inl (p + 1, u32 (size - BITS_PER_LONG), u32 (result + BITS_PER_LONG))))
    (p, size, result) in
  match r with
  | inl (tmp, result) => found_middle tmp result
  | inr (p, size, result) =>
      if size =? 0 then ret result
      else let* tmp := load addr p in found_first tmp result size
  end.

Definition find_next_bit (addr : block) (size offset : Z) : C Z :=
  let p := offset / BITS_PER_LONG in
  let result := Z.land offset (not32 (BITS_PER_LONG - 1)) in
  let hit tmp := negb (tmp =? 0) in
  let scan := scan_words hit found_middle_set found_first_set addr in
  if size <=? offset then ret size else
  let size := u32 (size - result) in
  let offset := offset mod BITS_PER_LONG in
  if offset =? 0 then scan p size result
  else
    let* tmp := load addr p in
    let tmp := Z.land tmp (shl32 (not32 0) offset) in
    if size <? BITS_PER_LONG then found_first_set tmp result size
    else if hit tmp then found_middle_set tmp result
    else scan (p + 1) (u32 (size - BITS_PER_LONG)) (u32 (result + BITS_PER_LONG)).

Definition find_next_zero_bit (addr : block) (size offset : Z) : C Z :=
  let p := offset / BITS_PER_LONG in
  let result := Z.land offset (not32 (BITS_PER_LONG - 1)) in
  let hit tmp := negb (not32 tmp =? 0) in
  let scan := scan_words hit found_middle_zero found_first_zero addr in
  if size <=? offset then ret size else
  let size := u32 (size - result) in
  let offset := offset mod BITS_PER_LONG in
  if offset =? 0 then scan p size result
  else
    let* tmp := load addr p in
    let tmp := Z.lor tmp (Z.shiftr (not32 0) (BITS_PER_LONG - offset)) in
    if size <? BITS_PER_LONG then found_first_zero tmp result size
    else if hit tmp then found_middle_zero tmp result
    else scan (p + 1) (u32 (size - BITS_PER_LONG)) (u32 (result + BITS_PER_LONG)).

Definition find_first_bit (addr : block) (size : Z) : C Z :=
  scan_words (fun tmp => negb (tmp =? 0)) found_middle_set found_first_set addr 0 size 0.

Definition find_first_zero_bit (addr : block) (size : Z) : C Z :=
  scan_words (fun tmp => negb (not32 tmp =? 0)) found_middle_zero found_first_zero addr 0 size 0.

(** Big-endian builds: words are byte-swapped before their bits are numbered. *)
Definition ext2_swab (x : Z) : Z :=
  Z.lor (Z.lor (Z.lor (shl32 (Z.land x 0x000000ff) 24) (shl32 (Z.land x 0x0000ff00) 8))
               (Z.shiftr (Z.land x 0x00ff0000) 8))
        (Z.shiftr (Z.land x 0xff000000) 24).

Definition generic_find_next_le_bit (addr : block) (size offset : Z) : C Z :=
  let p := offset / BITS_PER_LONG in
  let result := Z.land offset (not32 (BITS_PER_LONG - 1)) in
  let hit tmp := negb (tmp =? 0) in
  let found_middle_swap tmp := found_middle_set (ext2_swab tmp) in
  let scan := scan_words hit found_middle_swap (fun tmp => found_first_set (ext2_swab tmp)) addr in
  if size <=? offset then ret size else
  let size := u32 (size - result) in
  let offset := Z.land offset (BITS_PER_LONG - 1) in
  if offset =? 0 then scan p size result
  else
    let* w := load addr p in
    let tmp := Z.land (ext2_swab w) (shl32 (not32 0) offset) in
    if size <? BITS_PER_LONG then found_first_set tmp result size
    else if hit tmp then found_middle_set tmp result
    else scan (p + 1) (u32 (size - BITS_PER_LONG)) (u32 (result + BITS_PER_LONG)).

Definition generic_find_next_zero_le_bit (addr : block) (size offset : Z) : C Z :=
  let p := offset / BITS_PER_LONG in
  let result := Z.land offset (not32 (BITS_PER_LONG - 1)) in
  let hit tmp := negb (not32 tmp =? 0) in
  let found_middle_swap tmp := found_middle_zero (ext2_swab tmp) in
  let scan := scan_words hit found_middle_swap (fun tmp => found_first_zero (ext2_swab tmp)) addr in
  if size <=? offset then ret size else
  let size := u32 (size - result) in
  let offset := Z.land offset (BITS_PER_LONG - 1) in
  if offset =? 0 then scan p size result
  else
    let* w := load addr p in
    let tmp := Z.lor (ext2_swab w) (Z.shiftr (not32 0) (BITS_PER_LONG - offset)) in
    if size <? BITS_PER_LONG then found_first_zero tmp result size
    else if hit tmp then found_middle_zero tmp result
    else scan (p + 1) (u32 (size - BITS_PER_LONG)) (u32 (result + BITS_PER_LONG)).

(** ** Abstraction *)

(** Bit [i] of an array of words. *)
Definition bm_bit (ws : list Z) (i : Z) : bool :=
  Z.testbit (at_ ws (i / BITS_PER_LONG)) (i mod BITS_PER_LONG).

(** Bit [i] of a little-endian bit array read by a big-endian machine. *)
Definition le_bit (ws : list Z) (i : Z) : bool :=
  Z.testbit (ext2_swab (at_ ws (i / BITS_PER_LONG))) (i mod BITS_PER_LONG).

Definition words (ws : list Z) : Prop := Forall (uint 32) ws.

(** [r] is the first index in [[offset, size)] with [f r = true], or [size]. *)
Definition first_from (f : Z -> bool) (size offset r : Z) : Prop :=
  if offset <? size
  then offset <= r <= size /\ (forall j, offset <= j < r -> f j = false) /\ (r < size -> f r = true)
  else r = size.

(** What the bit searches promise to their clients. *)
Class FindBit (find_first : block -> Z -> C Z) (find_next : block -> Z -> Z -> C Z) : Prop := {
  find_first_ok addr ws size (h : mem) :
    h !! addr = Some ws -> words ws -> uint 32 size -> size <= 32 * zlen ws ->
    wp (find_first addr size) (fun r h' => h' = h /\ first_from (bm_bit ws) size 0 r) h;
  find_next_ok addr ws size offset (h : mem) :
    h !! addr = Some ws -> words ws -> uint 32 size -> 0 <= offset -> size <= 32 * zlen ws ->
    wp (find_next addr size offset) (fun r h' => h' = h /\ first_from (bm_bit ws) size offset r) h
}.

(** ** Words *)
Lemma not32_0 : not32 0 = Z.ones 32.
Proof. reflexivity. Qed.

Lemma land_not31 x : uint 32 x -> Z.land x (not32 (BITS_PER_LONG - 1)) = 32 * (x / 32).
Proof.
  intros Hx. transitivity (Z.ldiff x (Z.ones 5)).
  - apply bits_ext. intros i Hi. autorewrite with bits.
    change (BITS_PER_LONG - 1) with (Z.ones 5). rewrite testbit_ones by lia.
    destruct (Z.lt_ge_cases i 32); [by rewrite (ltb_t i 32) by lia|].
    by rewrite (testbit_above 32 x) by (done || lia).
  - rewrite Z.ldiff_ones_r, Z.shiftl_mul_pow2, Z.shiftr_div_pow2 by lia. pow2. lia.
Qed.

Lemma div_mod_word q n : 0 <= n < 32 -> (32 * q + n) / 32 = q /\ (32 * q + n) mod 32 = n.
Proof. intros. dlia. Qed.

Lemma bm_bit_word ws q n :
  0 <= n < 32 -> bm_bit ws (32 * q + n) = Z.testbit (at_ ws q) n.
Proof. intros H. unfold bm_bit, BITS_PER_LONG. by destruct (div_mod_word q n H) as [-> ->]. Qed.

Lemma words_at ws i : words ws -> uint 32 (at_ ws i).
Proof.
  intros H. destruct (decide (0 <= i < zlen ws)); [by apply Forall_at|].
  rewrite at_out by done. by apply uint_0.
Qed.
#[export] Hint Resolve words_at : uint.

(** ** The searches, for any reading [sel] of the words *)
Section Search.
Context (sel : Z -> Z) (hit : Z -> bool) (fm : Z -> Z -> C Z) (ff : Z -> Z -> Z -> C Z).
Context (Hsel : forall w, uint 32 w -> uint 32 (sel w)).
Context (Hhit : forall w, uint 32 w -> hit w = negb (sel w =? 0)).
Context (Hfm : forall w result, uint 32 w -> fm w result = ret (u32 (result + __ffs (sel w)))).
Context (Hff : forall w result size, uint 32 w -> 0 < size < 32 ->
  ff w result size =
    let v := Z.land (sel w) (Z.ones size) in
    ret (if v =? 0 then u32 (result + size) else u32 (result + __ffs v))).
Context (addr : block) (ws : list Z) (h : mem).
Context (Hb : h !! addr = Some ws) (Hws : words ws).

Definition sel_bit (i : Z) : bool :=
  Z.testbit (sel (at_ ws (i / BITS_PER_LONG))) (i mod BITS_PER_LONG).

Lemma sel_bit_word q n : 0 <= n < 32 -> sel_bit (32 * q + n) = Z.testbit (sel (at_ ws q)) n.
Proof. intros H. unfold sel_bit, BITS_PER_LONG. by destruct (div_mod_word q n H) as [-> ->]. Qed.

(** [v] is word [q] restricted to the positions in [[lo, hi)]. *)
Definition window (v q lo hi : Z) : Prop :=
  uint 32 v /\ forall n, 0 <= n < 32 ->
    Z.testbit v n = sel_bit (32 * q + n) && ((lo <=? 32 * q + n) && (32 * q + n <? hi)).

Lemma window_hit v q lo hi :
  window v q lo hi -> v <> 0 ->
  lo <= 32 * q + __ffs v < hi /\ 0 <= __ffs v < 32 /\ sel_bit (32 * q + __ffs v) = true /\
  forall j, 32 * q <= j -> lo <= j < 32 * q + __ffs v -> sel_bit j = false.
Proof.
  intros [Hu Hv] Hne. destruct (ffs_spec v Hu Hne) as [(H0 & Hset & Hlow) H32].
  rewrite Hv in Hset by lia. b2p. split; [lia|]. split; [lia|]. split; [done|].
  intros j Hq Hj. specialize (Hlow (j - 32 * q) ltac:(lia)).
  rewrite Hv in Hlow by lia. replace (32 * q + (j - 32 * q)) with j in Hlow by lia.
  rewrite (proj2 (Z.leb_le lo j)), (ltb_t j hi) in Hlow by lia.
  by rewrite !andb_true_r in Hlow.
Qed.

Lemma window_miss v q lo hi :
  window v q lo hi -> v = 0 ->
  forall j, 32 * q <= j < 32 * q + 32 -> lo <= j < hi -> sel_bit j = false.
Proof.
  intros [Hu Hv] -> j Hq Hj. specialize (Hv (j - 32 * q) ltac:(lia)).
  rewrite Z.bits_0 in Hv. replace (32 * q + (j - 32 * q)) with j in Hv by lia.
  rewrite (proj2 (Z.leb_le lo j)), (ltb_t j hi) in Hv by lia.
  by rewrite !andb_true_r in Hv.
Qed.

Lemma window_word q lo hi :
  lo <= 32 * q -> 32 * q + 32 <= hi -> window (sel (at_ ws q)) q lo hi.
Proof.
  intros. split; [apply Hsel; eauto with uint|]. intros n Hn.
  rewrite sel_bit_word, (proj2 (Z.leb_le _ _)), ltb_t by lia. by rewrite !andb_true_r.
Qed.

Lemma window_last v q lo size :
  window v q lo (32 * q + 32) -> 0 <= size < 32 ->
  window (Z.land v (Z.ones size)) q lo (32 * q + size).
Proof.
  intros [Hu Hv] Hs. split.
  { apply uint_land; [lia|done|]. rewrite Z.ones_equiv.
    assert (0 < 2 ^ size) by (apply Z.pow_pos_nonneg; lia). lia. }
  intros n Hn. rewrite Z.land_spec, testbit_ones, Hv by lia.
  rewrite (ltb_t (32 * q + n) (32 * q + 32)), andb_true_r by lia.
  replace (32 * q + n <? 32 * q + size) with (n <? size)
    by (destruct (Z.ltb_spec n size), (Z.ltb_spec (32 * q + n) (32 * q + size)); lia).
  by rewrite andb_assoc.
Qed.

(** The word loop and the code after it. *)
Lemma scan_words_spec p size result :
  result = 32 * p -> 0 <= result -> 0 <= size -> uint 32 (result + size) ->
  result + size <= 32 * zlen ws ->
  wp (scan_words hit fm ff addr p size result) (fun r h' => h' = h /\
    result <= r <= result + size /\ (forall j, result <= j < r -> sel_bit j = false) /\
    (r < result + size -> sel_bit r = true)) h.
Proof using Hb Hws Hsel Hhit Hfm Hff.
  intros Hr Hr0 Hs Hu Hlen. unfold scan_words. set (total := result + size) in *.
  apply wp_bind. eapply wp_mono.
  - apply (wp_while (fun st h' => let '(p', size', result') := st in
      h' = h /\ result' = 32 * p' /\ result <= result' /\ result' + size' = total /\
      0 <= size' /\ forall j, result <= j < result' -> sel_bit j = false)
      (fun o h' => h' = h /\ match o with
        | inl (tmp, r) => exists q, r = 32 * q /\ tmp = at_ ws q /\ sel tmp <> 0 /\
            result <= r /\ r + 32 <= total /\ (forall j, result <= j < r -> sel_bit j = false)
        | inr (q, size', r) => r = 32 * q /\ result <= r /\ r + size' = total /\ 0 <= size' < 32 /\
            (forall j, result <= j < r -> sel_bit j = false) end)
      (fun st => Z.to_nat (st.1.2 / BITS_PER_LONG))).
    + repeat (split; [done || lia|]). intros. lia.
    + simpl. lia.
    + intros [[p' size'] result'] h' (-> & -> & Hres & Htot & Hs0 & Hclear).
      assert (uint 32 size') by (unfold uint in *; lia).
      rewrite land_not31 by done. wp_step; b2p.
      * wp_step. split; [done|]. repeat (split; [done || lia || dlia|]). done.
      * wp_step. wp_step; [dlia|]. rewrite Hhit by (eauto with uint).
        destruct (sel (at_ ws p') =? 0) eqn:E0; b2p; cbn [negb]; wp_step.
        -- rewrite !wrap_id by (unfold BITS_PER_LONG, uint in *; dlia).
           unfold BITS_PER_LONG. split.
           ++ repeat (split; [done || dlia|]). intros j Hj.
              destruct (Z.lt_ge_cases j (32 * p')); [apply Hclear; lia|].
              eapply window_miss; [apply (window_word p' (32 * p') (32 * p' + 32)); lia|done|lia|lia].
           ++ cbn [fst snd]. apply Z2Nat.inj_lt; dlia.
        -- split; [done|]. exists p'. repeat (split; [done || dlia|]). done.
  - intros [[tmp r]|[[q size'] r]] h' [-> Hpost]; cbv beta.
    + destruct Hpost as (q & -> & -> & Hne & Hres & Hle & Hclear).
      rewrite Hfm by (eauto with uint). wp_step.
      destruct (window_hit (sel (at_ ws q)) q (32 * q) (32 * q + 32)) as (? & ? & Hset & Hlow);
        [apply window_word; lia|done|].
      rewrite wrap_id by (unfold uint in *; lia).
      split; [done|]. split; [lia|]. split; [|done].
      intros j Hj. destruct (Z.lt_ge_cases j (32 * q)); [apply Hclear; lia|apply Hlow; lia].
    + destruct Hpost as (-> & Hres & Htot & Hs' & Hclear). wp_step; b2p.
      * subst. wp_step. split; [done|]. split; [lia|]. split; [done|lia].
      * wp_step. wp_step. rewrite Hff by (eauto with uint || lia). cbv zeta. wp_step.
        assert (W : window (Z.land (sel (at_ ws q)) (Z.ones size')) q (32 * q) (32 * q + size'))
          by (apply window_last; [apply window_word; lia|lia]).
        destruct (_ =? 0) eqn:E0; b2p.
        -- rewrite wrap_id by (unfold uint in *; lia). split; [done|]. split; [lia|].
           split; [|lia]. intros j Hj. destruct (Z.lt_ge_cases j (32 * q)); [apply Hclear; lia|].
           eapply window_miss; [exact W|done|lia|lia].
        -- destruct (window_hit _ _ _ _ W E0) as (? & ? & Hset & Hlow).
           rewrite wrap_id by (unfold uint in *; lia).
           split; [done|]. split; [lia|]. split; [|done].
           intros j Hj. destruct (Z.lt_ge_cases j (32 * q)); [apply Hclear; lia|apply Hlow; lia].
Qed.

(** The common shape of the [find_next] functions: the first, partial word is
    masked by [mlo] and goes to its own labels. *)
Context (sel1 : Z -> Z) (hit1 : Z -> bool) (fm1 : Z -> Z -> C Z) (ff1 : Z -> Z -> Z -> C Z)
        (mlo : Z -> Z -> Z).
Context (Hhit1 : forall w, uint 32 w -> hit1 w = negb (sel1 w =? 0)).
Context (Hfm1 : forall w result, uint 32 w -> fm1 w result = ret (u32 (result + __ffs (sel1 w)))).
Context (Hff1 : forall w result size, uint 32 w -> 0 < size < 32 ->
  ff1 w result size =
    let v := Z.land (sel1 w) (Z.ones size) in
    ret (if v =? 0 then u32 (result + size) else u32 (result + __ffs v))).
Context (Hmlo : forall w o, uint 32 w -> 0 < o < 32 ->
  uint 32 (mlo w o) /\ sel1 (mlo w o) = Z.land (sel w) (shl32 (Z.ones 32) o)).

Definition find_next_shape (size offset : Z) : C Z :=
  let p := offset / 32 in
  let result := Z.land offset (not32 (BITS_PER_LONG - 1)) in
  if size <=? offset then ret size else
  let size := u32 (size - result) in
  if offset mod 32 =? 0 then scan_words hit fm ff addr p size result
  else
    let* w := load addr p in
    let tmp := mlo w (offset mod 32) in
    if size <? BITS_PER_LONG then ff1 tmp result size
    else if hit1 tmp then fm1 tmp result
    else scan_words hit fm ff addr (p + 1) (u32 (size - BITS_PER_LONG)) (u32 (result + BITS_PER_LONG)).

Lemma window_first q o :
  0 < o < 32 -> window (sel1 (mlo (at_ ws q) o)) q (32 * q + o) (32 * q + 32).
Proof using Hws Hsel Hmlo.
  intros Ho. destruct (Hmlo (at_ ws q) o) as [_ ->]; [eauto with uint|done|].
  split; [apply uint_land; [lia|apply Hsel; eauto with uint|apply uint_shl32]|].
  intros n Hn. rewrite sel_bit_word by done. autorewrite with bits.
  rewrite (ltb_t n 32), (ltb_t (32 * q + n)) by lia. simpl. f_equal.
  destruct (Z.leb_spec (32 * q + o) (32 * q + n)); simpl.
  - rewrite testbit_ones by lia. by apply ltb_t; lia.
  - apply Z.testbit_neg_r. lia.
Qed.

Lemma find_next_shape_spec size offset :
  uint 32 size -> 0 <= offset -> size <= 32 * zlen ws ->
  wp (find_next_shape size offset) (fun r h' => h' = h /\ first_from sel_bit size offset r) h.
Proof using Hb Hws Hsel Hhit Hfm Hff Hhit1 Hfm1 Hff1 Hmlo.
  intros Hu Ho Hlen. unfold find_next_shape, first_from. wp_step; b2p.
  { wp_step. by rewrite ltb_f by lia. }
  rewrite (ltb_t offset size) by lia. rewrite land_not31 by (unfold uint in *; lia).
  set (q := offset / 32). set (o := offset mod 32).
  assert (Hoq : offset = 32 * q + o /\ 0 <= o < 32) by (unfold q, o; dlia).
  rewrite (wrap_id 32 (size - 32 * q)) by (unfold uint in *; lia).
  wp_step; b2p.
  { eapply wp_mono; [apply scan_words_spec; unfold uint in *; lia|].
    replace (32 * q + (size - 32 * q)) with size by lia.
    replace (32 * q) with offset by lia. intros r h' (-> & ? & ? & ?). done. }
  wp_step. wp_step. pose proof (window_first q o ltac:(lia)) as W.
  destruct (Hmlo (at_ ws q) o) as [Hum _]; [eauto with uint|lia|].
  assert (G : forall v, window v q offset size -> v <> 0 ->
    first_from sel_bit size offset (u32 (32 * q + __ffs v))).
  { intros v Wv Hne. destruct (window_hit _ _ _ _ Wv Hne) as (? & ? & Hset & Hlow).
    unfold first_from. rewrite (ltb_t offset size), wrap_id by (unfold uint in *; lia).
    split; [lia|]. split; [|done]. intros j Hj. apply Hlow; lia. }
  unfold first_from in G. rewrite (ltb_t offset size) in G by lia.
  wp_step; unfold BITS_PER_LONG in *; b2p.
  - rewrite Hff1 by (done || lia). cbv zeta. wp_step. split; [done|].
    apply (window_last _ _ _ (size - 32 * q)) in W; [|lia].
    replace (32 * q + (size - 32 * q)) with size in W by lia. replace (32 * q + o) with offset in W by lia.
    destruct (_ =? 0) eqn:Ez; b2p; [|by apply G].
    rewrite wrap_id by (unfold uint in *; lia). split; [lia|]. split; [|lia].
    intros j Hj. eapply window_miss; [exact W|done|lia|lia].
  - assert (W' : window (sel1 (mlo (at_ ws q) o)) q offset size).
    { destruct W as [W1 W2]. split; [done|]. intros n Hn. rewrite W2 by done.
      rewrite (ltb_t _ (32 * q + 32)), (ltb_t _ size) by lia. do 3 f_equal; lia. }
    rewrite Hhit1 by done. destruct (_ =? 0) eqn:Ez; b2p; cbn [negb].
    + rewrite !wrap_id by (unfold uint in *; lia).
      eapply wp_mono; [apply scan_words_spec; unfold uint in *; lia|].
      replace (32 * q + 32 + (size - 32 * q - 32)) with size by lia.
      intros r h' (-> & ? & Hcl & ?). split; [done|]. split; [lia|]. split; [|done].
      intros j Hj. destruct (Z.lt_ge_cases j (32 * q + 32)); [|apply Hcl; lia].
      eapply window_miss; [exact W'|done|lia|lia].
    + rewrite Hfm1 by done. wp_step. split; [done|]. by apply G.
Qed.
End Search.

(** ** The six instances *)
Lemma ones_shiftr n : 0 <= n <= 32 -> Z.shiftr (not32 0) (32 - n) = Z.ones n.
Proof.
  intros. rewrite not32_0. apply bits_ext. intros i Hi. autorewrite with bits.
  destruct (Z.ltb_spec (i + (32 - n)) 32), (Z.ltb_spec i n); lia || done.
Qed.

Lemma not32_invol x : uint 32 x -> not32 (not32 x) = x.
Proof.
  intros Hx. apply bits_ext. intros i Hi. autorewrite with bits.
  destruct (Z.ltb_spec i 32); simpl; [by rewrite negb_involutive|].
  by rewrite (testbit_above 32) by (done || lia).
Qed.

Lemma not32_eqb x : uint 32 x -> (x =? not32 0) = (not32 x =? 0).
Proof.
  intros Hx. destruct (Z.eqb_spec (not32 x) 0) as [E|E].
  - apply Z.eqb_eq. by rewrite <- (not32_invol x), E.
  - apply Z.eqb_neq. intros ->. apply E. reflexivity.
Qed.

Lemma not32_lor x y : not32 (Z.lor x y) = Z.land (not32 x) (not32 y).
Proof.
  apply bits_ext. intros i Hi. autorewrite with bits.
  destruct (i <? 32); simpl; [by rewrite negb_orb|done].
Qed.

Lemma not32_high n : 0 <= n <= 32 -> not32 (shl32 (not32 0) n) = Z.ones n.
Proof.
  intros. rewrite not32_0. apply bits_ext. intros i Hi. autorewrite with bits.
  destruct (Z.ltb_spec i 32), (Z.ltb_spec i n); simpl; try lia; try done.
  - by rewrite Z.testbit_neg_r by lia.
  - by rewrite testbit_ones, ltb_t by lia.
Qed.

Lemma not32_low n : 0 <= n <= 32 -> not32 (Z.ones n) = shl32 (Z.ones 32) n.
Proof.
  intros. rewrite <- not32_high, not32_invol, not32_0 by (lia || apply uint_shl32). done.
Qed.

Lemma ones_uint n : 0 <= n <= 32 -> uint 32 (Z.ones n).
Proof. intros. rewrite <- ones_shiftr by done. apply uint_shiftr; [lia|apply uint_not32]. Qed.

Lemma found_first_set_eq w result size : 0 < size < 32 ->
  found_first_set w result size =
    let v := Z.land w (Z.ones size) in
    ret (if v =? 0 then u32 (result + size) else u32 (result + __ffs v)).
Proof.
  intros. unfold found_first_set, BITS_PER_LONG. rewrite ones_shiftr by lia.
  cbv zeta. by destruct (_ =? 0).
Qed.

Lemma found_first_zero_eq w result size : uint 32 w -> 0 < size < 32 ->
  found_first_zero w result size =
    let v := Z.land (not32 w) (Z.ones size) in
    ret (if v =? 0 then u32 (result + size) else u32 (result + __ffs v)).
Proof.
  intros Hw Hs. unfold found_first_zero, found_middle_zero, ffz.
  rewrite not32_eqb by (apply uint_lor; [lia|done|apply uint_shl32]).
  rewrite not32_lor, not32_high by lia. cbv zeta. by destruct (_ =? 0).
Qed.

Lemma mask_low_set w o : uint 32 w -> 0 < o < 32 ->
  uint 32 (Z.land w (shl32 (not32 0) o)) /\
  Z.land w (shl32 (not32 0) o) = Z.land w (shl32 (Z.ones 32) o).
Proof. intros. split; [apply uint_land; [lia|done|apply uint_shl32]|done]. Qed.

Lemma mask_low_zero w o : uint 32 w -> 0 < o < 32 ->
  uint 32 (Z.lor w (Z.shiftr (not32 0) (BITS_PER_LONG - o))) /\
  not32 (Z.lor w (Z.shiftr (not32 0) (BITS_PER_LONG - o))) = Z.land (not32 w) (shl32 (Z.ones 32) o).
Proof.
  intros. unfold BITS_PER_LONG. rewrite ones_shiftr by lia.
  split; [apply uint_lor; [lia|done|by apply ones_uint; lia]|].
  by rewrite not32_lor, not32_low by lia.
Qed.

(** Byte swapping permutes the bits. *)
Definition swap_index (i : Z) : Z := 24 - 8 * (i / 8) + i mod 8.

Lemma testbit_byte_mask x k j :
  0 <= k -> Z.testbit (Z.land x (Z.shiftl (Z.ones 8) k)) j
            = Z.testbit x j && ((k <=? j) && (j <? k + 8)).
Proof.
  intros. rewrite Z.land_spec. f_equal. destruct (Z.lt_ge_cases j 0).
  - rewrite Z.testbit_neg_r by done. destruct (Z.leb_spec k j); [lia|done].
  - rewrite Z.shiftl_spec by done. destruct (Z.leb_spec k j); simpl.
    + rewrite testbit_ones by lia. destruct (Z.ltb_spec (j - k) 8), (Z.ltb_spec j (k + 8)); lia || done.
    + apply Z.testbit_neg_r. lia.
Qed.

Lemma ext2_swab_bits x i :
  0 <= i < 32 -> Z.testbit (ext2_swab x) i = Z.testbit x (swap_index i).
Proof.
  intros Hi. unfold ext2_swab, swap_index.
  change 0x000000ff with (Z.shiftl (Z.ones 8) 0). change 0x0000ff00 with (Z.shiftl (Z.ones 8) 8).
  change 0x00ff0000 with (Z.shiftl (Z.ones 8) 16). change 0xff000000 with (Z.shiftl (Z.ones 8) 24).
  rewrite !Z.lor_spec, !testbit_shl32, !Z.shiftr_spec, !testbit_byte_mask by lia.
  rewrite (ltb_t i 32) by lia.
  assert (0 <= i < 8 \/ 8 <= i < 16 \/ 16 <= i < 24 \/ 24 <= i < 32) as [C|[C|[C|C]]] by lia;
    repeat match goal with
    | |- context [?a <=? ?b] => destruct (Z.leb_spec a b); try lia
    | |- context [?a <? ?b] => destruct (Z.ltb_spec a b); try lia
    end; autorewrite with bits; f_equal; dlia.
Qed.

Lemma ext2_swab_uint x : uint 32 x -> uint 32 (ext2_swab x).
Proof. intros. unfold ext2_swab. auto 12 with uint. Qed.

Lemma swap_index_range i : 0 <= i < 32 -> 0 <= swap_index i < 32 /\ swap_index (swap_index i) = i.
Proof. intros. unfold swap_index. dlia. Qed.

Lemma ext2_swab_zero x : uint 32 x -> (ext2_swab x =? 0) = (x =? 0).
Proof.
  intros Hx. apply eq_true_iff_eq. rewrite !Z.eqb_eq.
  rewrite !(word_zero_iff 32) by (done || by apply ext2_swab_uint). split; intros H i Hi.
  - destruct (swap_index_range i Hi) as [? E]. rewrite <- E, <- ext2_swab_bits by done. by apply H.
  - rewrite ext2_swab_bits by done. apply H. by apply swap_index_range.
Qed.

Lemma not32_swab x : uint 32 x -> not32 (ext2_swab x) = ext2_swab (not32 x).
Proof.
  intros Hx. apply bits_ext. intros i Hi. destruct (Z.lt_ge_cases i 32).
  - rewrite testbit_not32, !ext2_swab_bits, testbit_not32 by (lia || by apply swap_index_range).
    by rewrite !ltb_t by (lia || by apply swap_index_range).
  - by rewrite !(testbit_above 32) by (auto using uint_not32, ext2_swab_uint || lia).
Qed.

Lemma first_from_ext f g size offset r :
  (forall i, f i = g i) -> first_from f size offset r -> first_from g size offset r.
Proof.
  intros E. unfold first_from. destruct (offset <? size); [|done].
  intros (? & H & ?). split; [done|]. split; [intros; rewrite <- E; auto|rewrite <- E; auto].
Qed.

Lemma sel_not32 ws i : sel_bit not32 ws i = negb (bm_bit ws i).
Proof.
  unfold sel_bit, bm_bit. pose proof (Z.mod_pos_bound i 32 eq_refl).
  rewrite testbit_not32, ltb_t by (unfold BITS_PER_LONG; lia). done.
Qed.
Lemma sel_not32_swab ws i : sel_bit (fun w => not32 (ext2_swab w)) ws i = negb (le_bit ws i).
Proof.
  unfold sel_bit, le_bit. pose proof (Z.mod_pos_bound i 32 eq_refl).
  rewrite testbit_not32, ltb_t by (unfold BITS_PER_LONG; lia). done.
Qed.

Lemma land_31 x : Z.land x (BITS_PER_LONG - 1) = x mod BITS_PER_LONG.
Proof. change (BITS_PER_LONG - 1) with (Z.ones 5). by rewrite Z.land_ones. Qed.

Section Specs.
Context (addr : block) (ws : list Z) (h : mem).
Context (Hb : h !! addr = Some ws) (Hws : words ws).

Lemma find_next_bit_spec size offset :
  uint 32 size -> 0 <= offset -> size <= 32 * zlen ws ->
  wp (find_next_bit addr size offset)
    (fun r h' => h' = h /\ first_from (bm_bit ws) size offset r) h.
Proof using Hb Hws.
  intros. refine (find_next_shape_spec (fun w => w) (fun w => negb (w =? 0))
    found_middle_set found_first_set _ _ _ _ addr ws h Hb Hws (fun w => w) (fun w => negb (w =? 0))
    found_middle_set found_first_set (fun w o => Z.land w (shl32 (not32 0) o)) _ _ _ _ size offset _ _ _);
    try done; intros; by (apply found_first_set_eq || apply mask_low_set).
Qed.

Lemma find_next_zero_bit_spec size offset :
  uint 32 size -> 0 <= offset -> size <= 32 * zlen ws ->
  wp (find_next_zero_bit addr size offset)
    (fun r h' => h' = h /\ first_from (fun i => negb (bm_bit ws i)) size offset r) h.
Proof using Hb Hws.
  intros. eapply wp_mono.
  - refine (find_next_shape_spec not32 (fun w => negb (not32 w =? 0))
    found_middle_zero found_first_zero _ _ _ _ addr ws h Hb Hws not32 (fun w => negb (not32 w =? 0))
    found_middle_zero found_first_zero
    (fun w o => Z.lor w (Z.shiftr (not32 0) (BITS_PER_LONG - o))) _ _ _ _ size offset _ _ _);
    try done; intros; by (apply found_first_zero_eq || apply mask_low_zero || apply uint_not32).
  - intros r h' [-> Hf]. split; [done|]. eapply first_from_ext; [|exact Hf]. apply sel_not32.
Qed.

Lemma find_next_le_bit_spec size offset :
  uint 32 size -> 0 <= offset -> size <= 32 * zlen ws ->
  wp (generic_find_next_le_bit addr size offset)
    (fun r h' => h' = h /\ first_from (le_bit ws) size offset r) h.
Proof using Hb Hws.
  intros. unfold generic_find_next_le_bit. rewrite land_31.
  refine (find_next_shape_spec ext2_swab (fun w => negb (w =? 0))
    (fun w => found_middle_set (ext2_swab w)) (fun w => found_first_set (ext2_swab w)) _ _ _ _
    addr ws h Hb Hws (fun w => w) (fun w => negb (w =? 0))
    found_middle_set found_first_set (fun w o => Z.land (ext2_swab w) (shl32 (not32 0) o))
    _ _ _ _ size offset _ _ _); try done; intros;
    try (apply found_first_set_eq || apply mask_low_set || apply ext2_swab_uint); try done.
  - by rewrite ext2_swab_zero.
  - by apply ext2_swab_uint.
Qed.

Lemma find_next_zero_le_bit_spec size offset :
  uint 32 size -> 0 <= offset -> size <= 32 * zlen ws ->
  wp (generic_find_next_zero_le_bit addr size offset)
    (fun r h' => h' = h /\ first_from (fun i => negb (le_bit ws i)) size offset r) h.
Proof using Hb Hws.
  intros. unfold generic_find_next_zero_le_bit. rewrite land_31. eapply wp_mono.
  - refine (find_next_shape_spec (fun w => not32 (ext2_swab w)) (fun w => negb (not32 w =? 0))
    (fun w => found_middle_zero (ext2_swab w)) (fun w => found_first_zero (ext2_swab w)) _ _ _ _
    addr ws h Hb Hws not32 (fun w => negb (not32 w =? 0)) found_middle_zero found_first_zero
    (fun w o => Z.lor (ext2_swab w) (Z.shiftr (not32 0) (BITS_PER_LONG - o)))
    _ _ _ _ size offset _ _ _); try done; intros;
    try (apply found_first_zero_eq || apply mask_low_zero || apply uint_not32);
    try (by apply ext2_swab_uint); try done.
    by rewrite not32_swab, ext2_swab_zero by (done || apply uint_not32).
  - intros r h' [-> Hf]. split; [done|]. eapply first_from_ext; [|exact Hf]. apply sel_not32_swab.
Qed.

Lemma scan_first_spec f r size :
  0 <= size ->
  (0 <= r <= 0 + size /\ (forall j, 0 <= j < r -> f j = false) /\ (r < 0 + size -> f r = true)) ->
  first_from f size 0 r.
Proof.
  intros Hs (? & ? & ?). unfold first_from.
  destruct (Z.ltb_spec 0 size); [done|lia].
Qed.

Lemma find_first_bit_spec size :
  uint 32 size -> size <= 32 * zlen ws ->
  wp (find_first_bit addr size) (fun r h' => h' = h /\ first_from (bm_bit ws) size 0 r) h.
Proof using Hb Hws.
  intros Hu Hl. eapply wp_mono.
  - apply (scan_words_spec (fun w => w)) with (h := h) (ws := ws); try done;
      try (intros; by apply found_first_set_eq); unfold uint in *; lia.
  - intros r h' [-> Hr]. split; [done|]. apply scan_first_spec; [apply Hu|]. exact Hr.
Qed.

Lemma find_first_zero_bit_spec size :
  uint 32 size -> size <= 32 * zlen ws ->
  wp (find_first_zero_bit addr size)
    (fun r h' => h' = h /\ first_from (fun i => negb (bm_bit ws i)) size 0 r) h.
Proof using Hb Hws.
  intros Hu Hl. eapply wp_mono.
  - apply (scan_words_spec not32) with (h := h) (ws := ws); try done;
      try (intros; by apply found_first_zero_eq); try (intros; apply uint_not32);
      unfold uint in *; lia.
  - intros r h' [-> Hr]. split; [done|]. apply scan_first_spec; [apply Hu|].
    revert Hr. setoid_rewrite sel_not32. done.
Qed.
End Specs.

#[export] Instance generic_find_bit : FindBit find_first_bit find_next_bit.
Proof. split; intros; [by apply find_first_bit_spec|by apply find_next_bit_spec]. Qed.

(** ** [test_bit] and [set_bit] *)
Lemma test_bit_spec nr addr ws (h : mem) :
  h !! addr = Some ws -> 0 <= nr < 32 * zlen ws ->
  wp (test_bit nr addr) (fun r h' => h' = h /\ r = bm_bit ws nr) h.
Proof.
  intros Hb Hn. unfold test_bit. wp_step. wp_step; [unfold BITS_PER_LONG; dlia|]. by wp_step.
Qed.

Definition bm_set (ws : list Z) (nr : Z) : list Z :=
  upd ws (nr / BITS_PER_LONG) (Z.lor (at_ ws (nr / BITS_PER_LONG)) (shl32 1 (nr mod BITS_PER_LONG))).

Lemma set_bit_spec nr addr ws (h : mem) :
  h !! addr = Some ws -> 0 <= nr < 32 * zlen ws ->
  wp (set_bit nr addr) (fun _ h' => h' = <[addr := bm_set ws nr]> h) h.
Proof.
  intros Hb Hn. unfold set_bit. wp_step. wp_step; [unfold BITS_PER_LONG; dlia|].
  wp_step; [unfold BITS_PER_LONG; dlia|]. done.
Qed.

Lemma words_bm_set ws nr : words ws -> words (bm_set ws nr).
Proof. intros. apply Forall_upd; [done|]. auto with uint. Qed.
Lemma zlen_bm_set ws nr : zlen (bm_set ws nr) = zlen ws.
Proof. apply zlen_upd. Qed.

Lemma testbit_1 i : 0 <= i -> Z.testbit 1 i = (i =? 0).
Proof. intros. destruct (Z.eqb_spec i 0) as [->|]; [done|]. change 1 with (Z.ones 1).
  rewrite testbit_ones by lia. apply ltb_f. lia. Qed.

Lemma bm_bit_set ws nr i :
  0 <= nr < 32 * zlen ws -> 0 <= i -> bm_bit (bm_set ws nr) i = bm_bit ws i || (i =? nr).
Proof.
  intros Hn Hi. unfold bm_bit, bm_set, BITS_PER_LONG.
  destruct (Z.eq_dec (nr / 32) (i / 32)) as [E|E].
  - rewrite <- E, at_upd_eq by dlia. rewrite Z.lor_spec, testbit_shl32 by dlia. f_equal.
    rewrite ltb_t by dlia. simpl. destruct (Z.eqb_spec i nr) as [->|].
    + by rewrite Z.sub_diag.
    + destruct (Z.lt_ge_cases (i mod 32) (nr mod 32)); [apply Z.testbit_neg_r; lia|].
      rewrite testbit_1 by lia. apply eqb_f. dlia.
  - rewrite at_upd_ne by dlia. rewrite eqb_f by (intros ->; done). by rewrite orb_false_r.
Qed.

(** ** Properties *)

(** On a bit array that has the words for [size] bits, the generic
    [find_next_bit], [find_next_zero_bit], [find_first_bit] and
    [find_first_zero_bit] read only inside the array, leave memory unchanged and
    return the first set (clear) bit of the range, or [size] when there is none. *)
Theorem find_bit_correct addr ws (h : mem) size offset :
  h !! addr = Some ws -> words ws -> uint 32 size -> 0 <= offset -> size <= 32 * zlen ws ->
  wp (find_next_bit addr size offset)
    (fun r h' => h' = h /\ first_from (bm_bit ws) size offset r) h /\
  wp (find_next_zero_bit addr size offset)
    (fun r h' => h' = h /\ first_from (fun i => negb (bm_bit ws i)) size offset r) h /\
  wp (find_first_bit addr size)
    (fun r h' => h' = h /\ first_from (bm_bit ws) size 0 r) h /\
  wp (find_first_zero_bit addr size)
    (fun r h' => h' = h /\ first_from (fun i => negb (bm_bit ws i)) size 0 r) h.
Proof.
  intros. split; [by apply find_next_bit_spec|]. split; [by apply find_next_zero_bit_spec|].
  split; [by apply find_first_bit_spec|by apply find_first_zero_bit_spec].
Qed.

Lemma find_bit_correct_witness :
  find_next_bit 1%positive 70 5 {[1%positive := [0x11; 0; 0x28]]} = Some (67, {[1%positive := [0x11; 0; 0x28]]}) /\
  wp (find_next_bit 1%positive 70 5)
    (fun r h' => h' = {[1%positive := [0x11; 0; 0x28]]} /\ first_from (bm_bit [0x11; 0; 0x28]) 70 5 r)
    ({[1%positive := [0x11; 0; 0x28]]} : mem).
Proof.
  split; [vm_compute; reflexivity|].
  apply (find_bit_correct 1%positive [0x11; 0; 0x28] {[1%positive := [0x11; 0; 0x28]]} 70 5);
    [reflexivity|repeat constructor; done|done|lia|vm_compute; congruence].
Defined.

(** The big-endian searches of a little-endian bit array return the first
    set (clear) bit under the byte-swapped numbering [le_bit], although the word
    loop tests the words unswapped. *)
Theorem find_le_bit_correct addr ws (h : mem) size offset :
  h !! addr = Some ws -> words ws -> uint 32 size -> 0 <= offset -> size <= 32 * zlen ws ->
  wp (generic_find_next_le_bit addr size offset)
    (fun r h' => h' = h /\ first_from (le_bit ws) size offset r) h /\
  wp (generic_find_next_zero_le_bit addr size offset)
    (fun r h' => h' = h /\ first_from (fun i => negb (le_bit ws i)) size offset r) h.
Proof.
  intros. split; [by apply find_next_le_bit_spec|by apply find_next_zero_le_bit_spec].
Qed.

Lemma find_le_bit_correct_witness :
  wp (generic_find_next_le_bit 1%positive 64 3)
    (fun r h' => h' = {[1%positive := [0x01000000; 0x00800000]]} /\
       first_from (le_bit [0x01000000; 0x00800000]) 64 3 r)
    ({[1%positive := [0x01000000; 0x00800000]]} : mem).
Proof.
  apply (find_le_bit_correct 1%positive [0x01000000; 0x00800000] {[1%positive := [0x01000000; 0x00800000]]} 64 3);
    [reflexivity|repeat constructor; done|done|lia|vm_compute; congruence].
Defined.
