(* ===== verification/Bitmap.v ===== *)
(** * Bitmaps

    [lib/bitmap.c] with the inline helpers of [include/linux/bitmap.h] it calls:
    word-wise predicates and logical operations, shifts, weight, the ordinal maps
    ([bitmap_remap], [bitmap_onto], [bitmap_fold]) and the region allocator.  All
    operations work on the memory of [Prelude], so a destination may alias a
    source.  The bit searches are taken through the class [FindBit]. *)

From Stdlib Require Import ZArith Lia.
From stdpp Require Import base tactics numbers list gmap option.
From S2P Require Import Prelude Bits FindBit.

(** ** Operations *)
Definition BITS_TO_LONGS (nr : Z) : Z := (nr + (BITS_PER_LONG - 1)) / BITS_PER_LONG.

Definition BITMAP_LAST_WORD_MASK (nbits : Z) : Z :=
  if nbits mod BITS_PER_LONG =? 0 then not32 0
  else u32 (shl32 1 (nbits mod BITS_PER_LONG) - 1).

Definition bitmap_zero (dst : block) (nbits : Z) : C unit :=
  memset dst 0 0 (BITS_TO_LONGS nbits).

(** The loop shared by the boolean predicates: leave with [hit] at the first
    full word for which [any] holds, then test the masked last word. *)
Definition word_scan (any : Z -> C bool) (last : Z -> C Z) (hit miss bits : Z) : C Z :=
  let lim := bits / BITS_PER_LONG in
  let* o := for_ret (Z.to_nat lim) 0 (fun k =>
    let* b := any k in ret (if b then Some hit else None)) in
  match o with
  | Some r => ret r
  | None =>
      if negb (bits mod BITS_PER_LONG =? 0)
      then let* w := last lim in
           if negb (Z.land w (BITMAP_LAST_WORD_MASK bits) =? 0) then ret hit else ret miss
      else ret miss
  end.

Definition __bitmap_empty (bitmap : block) (bits : Z) : C Z :=
  word_scan (fun k => let* w := load bitmap k in ret (negb (w =? 0)))
            (fun k => load bitmap k) 0 1 bits.

Definition __bitmap_full (bitmap : block) (bits : Z) : C Z :=
  word_scan (fun k => let* w := load bitmap k in ret (negb (not32 w =? 0)))
            (fun k => let* w := load bitmap k in ret (not32 w)) 0 1 bits.

Definition __bitmap_equal (bitmap1 bitmap2 : block) (bits : Z) : C Z :=
  word_scan (fun k => let* w1 := load bitmap1 k in let* w2 := load bitmap2 k in
                      ret (negb (w1 =? w2)))
            (fun k => let* w1 := load bitmap1 k in let* w2 := load bitmap2 k in
                      ret (Z.lxor w1 w2)) 0 1 bits.

Definition __bitmap_intersects (bitmap1 bitmap2 : block) (bits : Z) : C Z :=
  word_scan (fun k => let* w1 := load bitmap1 k in let* w2 := load bitmap2 k in
                      ret (negb (Z.land w1 w2 =? 0)))
            (fun k => let* w1 := load bitmap1 k in let* w2 := load bitmap2 k in
                      ret (Z.land w1 w2)) 1 0 bits.

Definition __bitmap_subset (bitmap1 bitmap2 : block) (bits : Z) : C Z :=
  word_scan (fun k => let* w1 := load bitmap1 k in let* w2 := load bitmap2 k in
                      ret (negb (Z.land w1 (not32 w2) =? 0)))
            (fun k => let* w1 := load bitmap1 k in let* w2 := load bitmap2 k in
                      ret (Z.land w1 (not32 w2))) 0 1 bits.

Definition __bitmap_complement (dst src : block) (bits : Z) : C unit :=
  let lim := bits / BITS_PER_LONG in
  for_ (Z.to_nat lim) 0 (fun k => let* w := load src k in store dst k (not32 w)) ;;
  if negb (bits mod BITS_PER_LONG =? 0)
  then let* w := load src lim in
       store dst lim (Z.land (not32 w) (BITMAP_LAST_WORD_MASK bits))
  else ret tt.

(** [for (k = 0; k < nr; k++) dst[k] = op(bitmap1[k], bitmap2[k])] *)
Definition map2_words (op : Z -> Z -> Z) (dst bitmap1 bitmap2 : block) (bits : Z) : C unit :=
  for_ (Z.to_nat (BITS_TO_LONGS bits)) 0 (fun k =>
    let* w1 := load bitmap1 k in
    let* w2 := load bitmap2 k in
    store dst k (op w1 w2)).

Definition __bitmap_and : block -> block -> block -> Z -> C unit := map2_words Z.land.
Definition __bitmap_or : block -> block -> block -> Z -> C unit := map2_words Z.lor.
Definition __bitmap_xor : block -> block -> block -> Z -> C unit := map2_words Z.lxor.
Definition __bitmap_andnot : block -> block -> block -> Z -> C unit :=
  map2_words (fun w1 w2 => Z.land w1 (not32 w2)).

Definition __bitmap_shift_right (dst src : block) (shift bits : Z) : C unit :=
  let lim := BITS_TO_LONGS bits in
  let left := bits mod BITS_PER_LONG in
  let off := shift / BITS_PER_LONG in
  let rem := shift mod BITS_PER_LONG in
  let mask := u32 (shl32 1 left - 1) in
  for_ (Z.to_nat (lim - off)) 0 (fun k =>
    let* upper :=
      (if (rem =? 0) || (lim <=? off + k + 1) then ret 0
       else let* u := load src (off + k + 1) in
            ret (if (off + k + 1 =? lim - 1) && negb (left =? 0) then Z.land u mask else u)) in
    let* l := load src (off + k) in
    let lower := if negb (left =? 0) && (off + k =? lim - 1) then Z.land l mask else l in
    store dst k (Z.lor (shl32 upper (BITS_PER_LONG - rem)) (Z.shiftr lower rem)) ;;
    if negb (left =? 0) && (k =? lim - 1)
    then let* d := load dst k in store dst k (Z.land d mask)
    else ret tt) ;;
  if negb (off =? 0) then memset dst (lim - off) 0 off else ret tt.

Definition __bitmap_shift_left (dst src : block) (shift bits : Z) : C unit :=
  let lim := BITS_TO_LONGS bits in
  let left := bits mod BITS_PER_LONG in
  let off := shift / BITS_PER_LONG in
  let rem := shift mod BITS_PER_LONG in
  (* k runs from lim - off - 1 down to 0; j counts the iterations *)
  for_ (Z.to_nat (lim - off)) 0 (fun j =>
    let k := lim - off - 1 - j in
    let* lower := (if negb (rem =? 0) && (0 <? k) then load src (k - 1) else ret 0) in
    let* u := load src k in
    let upper := if negb (left =? 0) && (k =? lim - 1)
                 then Z.land u (u32 (shl32 1 left - 1)) else u in
    store dst (k + off) (Z.lor (Z.shiftr lower (BITS_PER_LONG - rem)) (shl32 upper rem)) ;;
    if negb (left =? 0) && (k + off =? lim - 1)
    then let* d := load dst (k + off) in
         store dst (k + off) (Z.land d (u32 (shl32 1 left - 1)))
    else ret tt) ;;
  if negb (off =? 0) then memset dst 0 0 off else ret tt.

Definition __bitmap_weight (bitmap : block) (bits : Z) : C Z :=
  let lim := bits / BITS_PER_LONG in
  let* '(k, w) := while (S (Z.to_nat lim)) (fun '(k, w) =>
      if k <? lim then let* x := load bitmap k in ret (inl (k + 1, w + hweight_long x))
      else ret (inr (k, w))) (0, 0) in
  if negb (bits mod BITS_PER_LONG =? 0)
  then let* x := load bitmap k in
       ret (w + hweight_long (Z.land x (BITMAP_LAST_WORD_MASK bits)))
  else ret w.

(** The region operations of [enum]. *)
Inductive reg_op := REG_OP_ISFREE | REG_OP_ALLOC | REG_OP_RELEASE.

(** A shift by a count outside the width of the type is not defined: a fault. *)
Definition shift_count (n : Z) : bool := (0 <=? n) && (n <? 32).

(** The variables are [int]s; [BITS_TO_LONGS] divides by a [size_t], so that its
    sum is unsigned. *)
Definition __reg_op (bitmap : block) (pos order : Z) (op : reg_op) : C Z :=
  let nbits_reg := s32 (Z.shiftl 1 order) in
  let index := Z.quot pos BITS_PER_LONG in
  let offset := pos - index * BITS_PER_LONG in
  let nlongs_reg := s32 (u32 (nbits_reg + (BITS_PER_LONG - 1)) / BITS_PER_LONG) in
  let nbitsinlong := Z.min nbits_reg BITS_PER_LONG in
  let shift := s32 (nbitsinlong - 1) in
  if negb (shift_count order && shift_count shift && shift_count offset) then fault else
  let mask := shl32 1 shift in
  let mask := u32 (mask + u32 (mask - 1)) in
  let mask := shl32 mask offset in
  match op with
  | REG_OP_ISFREE =>
      let* o := for_ret (Z.to_nat nlongs_reg) 0 (fun i =>
        let* w := load bitmap (index + i) in
        ret (if negb (Z.land w mask =? 0) then Some 0 else None)) in
      match o with Some ret0 => ret ret0 | None => ret 1 end
  | REG_OP_ALLOC =>
      for_ (Z.to_nat nlongs_reg) 0 (fun i =>
        let* w := load bitmap (index + i) in store bitmap (index + i) (Z.lor w mask)) ;;
      ret 0
  | REG_OP_RELEASE =>
      for_ (Z.to_nat nlongs_reg) 0 (fun i =>
        let* w := load bitmap (index + i) in store bitmap (index + i) (Z.land w (not32 mask))) ;;
      ret 0
  end.

Definition bitmap_find_free_region (bitmap : block) (bits order : Z) : C Z :=
  while (S (Z.to_nat bits)) (fun pos =>
    if negb (shift_count order) then fault else
    let end_ := s32 (pos + s32 (Z.shiftl 1 order)) in
    if end_ <=? bits
    then let* free := __reg_op bitmap pos order REG_OP_ISFREE in
         if free =? 0 then ret (inl end_)
         else let* _ := __reg_op bitmap pos order REG_OP_ALLOC in ret (inr pos)
    else ret (inr (- ENOMEM))) 0.

Definition bitmap_release_region (bitmap : block) (pos order : Z) : C unit :=
  let* _ := __reg_op bitmap pos order REG_OP_RELEASE in ret tt.

Definition bitmap_allocate_region (bitmap : block) (pos order : Z) : C Z :=
  let* free := __reg_op bitmap pos order REG_OP_ISFREE in
  if free =? 0 then ret (- EBUSY)
  else let* _ := __reg_op bitmap pos order REG_OP_ALLOC in ret 0.

(** [cpu_to_le32] is the identity on a little-endian build. *)
Definition bitmap_copy_le (cpu_to_le32 : Z -> Z) (dst src : block) (nbits : Z) : C unit :=
  for_ (Z.to_nat (nbits / BITS_PER_LONG)) 0 (fun i =>
    let* w := load src i in store dst i (cpu_to_le32 w)).

(** ** Shared facts *)
Lemma last_mask n : 0 <= n < 32 -> u32 (shl32 1 n - 1) = Z.ones n.
Proof.
  intros Hn. unfold shl32. rewrite Z.shiftl_1_l, Z.ones_equiv.
  assert (0 < 2 ^ n < 2 ^ 32) by (split; [apply Z.pow_pos_nonneg; lia|apply Z.pow_lt_mono_r; lia]).
  rewrite !wrap_id; unfold uint; rewrite ?wrap_id; unfold uint; lia.
Qed.

Lemma BITMAP_LAST_WORD_MASK_ones bits :
  bits mod 32 <> 0 -> BITMAP_LAST_WORD_MASK bits = Z.ones (bits mod 32).
Proof.
  intros H. unfold BITMAP_LAST_WORD_MASK, BITS_PER_LONG. rewrite eqb_f by done.
  apply last_mask. dlia.
Qed.

(** A load after the destination was rewritten, the source possibly aliasing it:
    it sees the original word as long as that word was not rewritten yet. *)
Lemma wp_load_alias (dst b : block) wd wd' w k (Q : Z -> mem -> Prop) (h : mem) :
  h !! dst = Some wd -> h !! b = Some w -> zlen wd' = zlen wd -> 0 <= k < zlen w ->
  at_ wd' k = at_ wd k -> Q (at_ w k) (<[dst := wd']> h) ->
  wp (load b k) Q (<[dst := wd']> h).
Proof.
  intros Hd Hb Hl Hk Ha HQ. destruct (decide (b = dst)) as [->|Hne].
  - simplify_eq. eapply wp_load; [by rewrite lookup_insert_eq|lia|by rewrite Ha].
  - eapply wp_load; [by rewrite lookup_insert_ne|done|done].
Qed.

(** ** Predicates *)
Section WordScan.
Context (v : Z -> Z) (any : Z -> C bool) (last : Z -> C Z) (hit miss bits : Z) (h : mem).
Context (Hbits : 0 <= bits) (Hv : forall k, uint 32 (v k)).
Context (Hany : forall k, 0 <= k < bits / 32 ->
  wp (any k) (fun b h' => h' = h /\ b = negb (v k =? 0)) h).
Context (Hlast : bits mod 32 <> 0 ->
  wp (last (bits / 32)) (fun w h' => h' = h /\ w = v (bits / 32)) h).

Definition vbit (i : Z) : bool := Z.testbit (v (i / 32)) (i mod 32).

Lemma vbit_word k n : 0 <= n < 32 -> vbit (32 * k + n) = Z.testbit (v k) n.
Proof. intros H. unfold vbit. by destruct (div_mod_word k n H) as [-> ->]. Qed.

Lemma word_scan_spec :
  wp (word_scan any last hit miss bits) (fun r h' => h' = h /\
    ((r = hit /\ exists i, 0 <= i < bits /\ vbit i = true) \/
     (r = miss /\ forall i, 0 <= i < bits -> vbit i = false))) h.
Proof using Hbits Hv Hany Hlast.
  unfold word_scan, BITS_PER_LONG. wp_step. eapply wp_mono.
  - apply (wp_for_ret (fun j h' => h' = h /\ forall i, 0 <= i < 32 * j -> vbit i = false)
      (fun r h' => h' = h /\ r = hit /\ exists i, 0 <= i < bits /\ vbit i = true)).
    + split; [done|lia].
    + intros j h' Hj [-> Hz]. wp_step. eapply wp_mono; [apply Hany; dlia|].
      intros b h' [-> ->]. cbv beta. wp_step.
      destruct (v j =? 0) eqn:E; b2p; cbn [negb].
      * split; [done|]. intros i Hi. destruct (Z.lt_ge_cases i (32 * j)); [apply Hz; lia|].
        replace i with (32 * j + (i - 32 * j)) by lia. rewrite vbit_word, E by lia. apply Z.bits_0.
      * split; [done|]. split; [done|].
        destruct (lowest_exists 32 (v j)) as (n & (? & Hn & _) & ?); [lia|auto|done|].
        exists (32 * j + n). split; [dlia|]. by rewrite vbit_word by lia.
  - intros [r|] h' Hpost; cbv beta.
    + destruct Hpost as (-> & -> & He). wp_step. split; [done|]. by left.
    + destruct Hpost as [-> Hz]. rewrite Z2Nat.id in Hz by dlia. wp_step; b2p.
      * wp_step. eapply wp_mono; [by apply Hlast|]. intros w h' [-> ->]. cbv beta.
        rewrite BITMAP_LAST_WORD_MASK_ones by done.
        assert (Hb : forall n, 0 <= n < bits mod 32 ->
          Z.testbit (Z.land (v (bits / 32)) (Z.ones (bits mod 32))) n = vbit (32 * (bits / 32) + n)).
        { intros n Hn. rewrite vbit_word by dlia. autorewrite with bits.
          by rewrite ?testbit_ones, ltb_t, andb_true_r by dlia. }
        wp_step; b2p; wp_step; (split; [done|]).
        -- left. split; [done|].
           destruct (lowest_exists 32 (Z.land (v (bits / 32)) (Z.ones (bits mod 32))))
             as (n & (? & Hn & _) & ?); [lia| |done|].
           { apply uint_land; [lia|auto|]. apply ones_uint. dlia. }
           assert (n < bits mod 32).
           { destruct (Z.lt_ge_cases n (bits mod 32)); [done|]. autorewrite with bits in Hn.
             rewrite ?testbit_ones, ltb_f, andb_false_r in Hn by dlia. done. }
           exists (32 * (bits / 32) + n). split; [dlia|]. by rewrite <- Hb by lia.
        -- right. split; [done|]. intros i Hi.
           destruct (Z.lt_ge_cases i (32 * (bits / 32))); [apply Hz; lia|].
           replace i with (32 * (bits / 32) + (i - 32 * (bits / 32))) by lia.
           rewrite <- Hb, E0 by dlia. apply Z.bits_0.
      * wp_step. split; [done|]. right. split; [done|]. intros i Hi. apply Hz. dlia.
Qed.
End WordScan.

(** [r] is the C truth value of [P]. *)
Definition truth (r : Z) (P : Prop) : Prop := (r = 1 /\ P) \/ (r = 0 /\ ~ P).

Lemma lxor_eqb x y : (Z.lxor x y =? 0) = (x =? y).
Proof.
  apply eq_true_iff_eq. rewrite !Z.eqb_eq. split; [apply Z.lxor_eq|].
  intros ->. apply Z.lxor_nilpotent.
Qed.

Section Predicates.
Context (b1 b2 : block) (w1 w2 : list Z) (bits : Z) (h : mem).
Context (H1 : h !! b1 = Some w1) (H2 : h !! b2 = Some w2).
Context (Hw1 : words w1) (Hw2 : words w2).
Context (Hbits : 0 <= bits) (Hl1 : bits <= 32 * zlen w1) (Hl2 : bits <= 32 * zlen w2).

Local Ltac read_words :=
  intros; wp_steps; try (unfold BITS_PER_LONG; dlia); try (split; [done|]); try done.

Lemma bitmap_empty_spec :
  wp (__bitmap_empty b1 bits)
    (fun r h' => h' = h /\ truth r (forall i, 0 <= i < bits -> bm_bit w1 i = false)) h.
Proof using H1 Hw1 Hbits Hl1.
  eapply wp_mono.
  - apply (word_scan_spec (fun k => at_ w1 k)); [done|eauto with uint| |]; read_words.
  - intros r h' [-> [[-> (i & Hi & Hs)]|[-> Hz]]]; (split; [done|]); [right|left; done].
    split; [done|]. intros Hz. specialize (Hz i Hi). change (bm_bit w1 i = true) in Hs. by rewrite Hs in Hz.
Qed.

Lemma bitmap_full_spec :
  wp (__bitmap_full b1 bits)
    (fun r h' => h' = h /\ truth r (forall i, 0 <= i < bits -> bm_bit w1 i = true)) h.
Proof using H1 Hw1 Hbits Hl1.
  assert (E : forall i, vbit (fun k => not32 (at_ w1 k)) i = negb (bm_bit w1 i))
    by (apply sel_not32).
  eapply wp_mono.
  - apply (word_scan_spec (fun k => not32 (at_ w1 k))); [done|intros; apply uint_not32| |]; read_words.
  - intros r h' [-> [[-> (i & Hi & Hs)]|[-> Hz]]]; (split; [done|]); [right|left]; (split; [done|]).
    + intros Hf. by rewrite E, Hf in Hs.
    + intros i Hi. specialize (Hz i Hi). rewrite E in Hz. by apply negb_false_iff.
Qed.

Lemma bitmap_equal_spec :
  wp (__bitmap_equal b1 b2 bits)
    (fun r h' => h' = h /\ truth r (forall i, 0 <= i < bits -> bm_bit w1 i = bm_bit w2 i)) h.
Proof using H1 H2 Hw1 Hw2 Hbits Hl1 Hl2.
  assert (E : forall i, vbit (fun k => Z.lxor (at_ w1 k) (at_ w2 k)) i = xorb (bm_bit w1 i) (bm_bit w2 i))
    by (intros; apply Z.lxor_spec).
  eapply wp_mono.
  - apply (word_scan_spec (fun k => Z.lxor (at_ w1 k) (at_ w2 k)));
      [done|intros; apply uint_lxor; [lia|eauto with uint..]| |]; read_words.
    by rewrite lxor_eqb.
  - intros r h' [-> [[-> (i & Hi & Hs)]|[-> Hz]]]; (split; [done|]); [right|left]; (split; [done|]).
    + intros Hf. rewrite E, Hf in Hs by done. by rewrite xorb_nilpotent in Hs.
    + intros i Hi. specialize (Hz i Hi). rewrite E in Hz. by apply xorb_eq.
Qed.

Lemma bitmap_intersects_spec :
  wp (__bitmap_intersects b1 b2 bits)
    (fun r h' => h' = h /\
       truth r (exists i, 0 <= i < bits /\ bm_bit w1 i = true /\ bm_bit w2 i = true)) h.
Proof using H1 H2 Hw1 Hw2 Hbits Hl1 Hl2.
  assert (E : forall i, vbit (fun k => Z.land (at_ w1 k) (at_ w2 k)) i = bm_bit w1 i && bm_bit w2 i)
    by (intros; apply Z.land_spec).
  eapply wp_mono.
  - apply (word_scan_spec (fun k => Z.land (at_ w1 k) (at_ w2 k)));
      [done|intros; apply uint_land; [lia|eauto with uint..]| |]; read_words.
  - intros r h' [-> [[-> (i & Hi & Hs)]|[-> Hz]]]; (split; [done|]); [left|right]; (split; [done|]).
    + exists i. rewrite E in Hs. by b2p.
    + intros (i & Hi & Hs1 & Hs2). specialize (Hz i Hi). by rewrite E, Hs1, Hs2 in Hz.
Qed.

Lemma bitmap_subset_spec :
  wp (__bitmap_subset b1 b2 bits)
    (fun r h' => h' = h /\
       truth r (forall i, 0 <= i < bits -> bm_bit w1 i = true -> bm_bit w2 i = true)) h.
Proof using H1 H2 Hw1 Hw2 Hbits Hl1 Hl2.
  assert (E : forall i, vbit (fun k => Z.land (at_ w1 k) (not32 (at_ w2 k))) i
                        = bm_bit w1 i && negb (bm_bit w2 i)).
  { intros. rewrite <- sel_not32. apply Z.land_spec. }
  eapply wp_mono.
  - apply (word_scan_spec (fun k => Z.land (at_ w1 k) (not32 (at_ w2 k))));
      [done|intros; apply uint_land; [lia|eauto with uint|apply uint_not32]| |]; read_words.
  - intros r h' [-> [[-> (i & Hi & Hs)]|[-> Hz]]]; (split; [done|]); [right|left]; (split; [done|]).
    + intros Hf. rewrite E in Hs. b2p. rewrite Hf in * by done. done.
    + intros i Hi Hs. specialize (Hz i Hi). rewrite E, Hs in Hz. simpl in Hz. by apply negb_false_iff.
Qed.
End Predicates.

(** ** Destination arrays being filled *)

(** In [h'] the words [lo .. hi-1] of [dst] hold [g], the others what [wd] held. *)
Definition filled (h : mem) (dst : block) (wd : list Z) (lo hi : Z) (g : Z -> Z) (h' : mem) : Prop :=
  exists wd', h' = <[dst := wd']> h /\ zlen wd' = zlen wd /\
    (forall k, lo <= k < hi -> at_ wd' k = g k) /\
    (forall k, ~ lo <= k < hi -> at_ wd' k = at_ wd k).

Section Filled.
Context (h : mem) (dst : block) (wd : list Z) (Hd : h !! dst = Some wd) (g : Z -> Z).

Lemma filled_empty lo : filled h dst wd lo lo g h.
Proof using Hd. exists wd. split; [by rewrite insert_id|]. split; [done|]. split; [lia|done]. Qed.

Lemma filled_load lo hi h' b w k (Q : Z -> mem -> Prop) :
  filled h dst wd lo hi g h' -> h !! b = Some w -> 0 <= k < zlen w -> ~ lo <= k < hi ->
  Q (at_ w k) h' -> wp (load b k) Q h'.
Proof using Hd.
  intros (wd' & -> & Hl & _ & Ho) Hb Hk Hn HQ. eapply wp_load_alias; eauto.
Qed.

(** Storing at either end of the filled range. *)
Lemma filled_store_gen lo hi lo' hi' h' j x (Q : unit -> mem -> Prop) :
  filled h dst wd lo hi g h' -> 0 <= j < zlen wd -> x = g j ->
  (forall k, lo' <= k < hi' <-> lo <= k < hi \/ k = j) ->
  (forall h'', filled h dst wd lo' hi' g h'' -> Q tt h'') -> wp (store dst j x) Q h'.
Proof.
  intros (wd' & -> & Hl & Hi & Ho) Hj -> Hr HQ. wp_step. rewrite insert_insert_eq. apply HQ.
  exists (upd wd' j (g j)). rewrite zlen_upd. split; [done|]. split; [done|].
  split; intros k Hk; rewrite Hr in Hk; (destruct (Z.eq_dec j k) as [->|];
    [rewrite at_upd_eq by lia; try done; lia|rewrite at_upd_ne by lia]).
  - apply Hi. lia.
  - apply Ho. lia.
Qed.

(** A store followed by the masking of the last word in place. *)
Lemma filled_store_mask lo hi lo' hi' h' j x (c : bool) m (Q : unit -> mem -> Prop) :
  filled h dst wd lo hi g h' -> 0 <= j < zlen wd -> (if c then Z.land x m else x) = g j ->
  (forall k, lo' <= k < hi' <-> lo <= k < hi \/ k = j) ->
  (forall h'', filled h dst wd lo' hi' g h'' -> Q tt h'') ->
  wp (store dst j x ;; if c then let* d := load dst j in store dst j (Z.land d m) else ret tt) Q h'.
Proof.
  intros (wd' & -> & Hl & Hi & Ho) Hj Hx Hr HQ.
  assert (HF : filled h dst wd lo' hi' g (<[dst := upd wd' j (g j)]> h)).
  { exists (upd wd' j (g j)). rewrite zlen_upd. split; [done|]. split; [done|].
    split; intros k Hk; rewrite Hr in Hk; (destruct (Z.eq_dec j k) as [->|];
      [rewrite at_upd_eq by lia; try done; lia|rewrite at_upd_ne by lia]).
    - apply Hi. lia.
    - apply Ho. lia. }
  apply HQ in HF. wp_step. wp_step. destruct c.
  - wp_step. wp_step. wp_step. by rewrite at_upd_eq, Hx, !insert_insert_eq, upd_upd by lia.
  - wp_step. by rewrite Hx, insert_insert_eq.
Qed.

Lemma filled_store hi lo h' x (Q : unit -> mem -> Prop) :
  filled h dst wd lo hi g h' -> lo <= hi -> 0 <= hi < zlen wd -> x = g hi ->
  (forall h'', filled h dst wd lo (hi + 1) g h'' -> Q tt h'') -> wp (store dst hi x) Q h'.
Proof. intros. eapply (filled_store_gen lo hi lo (hi + 1)); [done|done|done|lia|done]. Qed.
End Filled.

Lemma filled_bits h dst wd lim g h' :
  filled h dst wd 0 lim g h' ->
  exists wd', h' = <[dst := wd']> h /\ zlen wd' = zlen wd /\
    (forall i, 0 <= i < 32 * lim -> bm_bit wd' i = Z.testbit (g (i / 32)) (i mod 32)) /\
    (forall k, 0 <= k < lim -> at_ wd' k = g k) /\
    (forall k, lim <= k -> at_ wd' k = at_ wd k).
Proof.
  intros (wd' & -> & Hl & Hi & Ho). exists wd'. split; [done|]. split; [done|]. split; [|split].
  - intros i Hr. unfold bm_bit, BITS_PER_LONG. by rewrite Hi by dlia.
  - auto.
  - intros k Hk. apply Ho. lia.
Qed.

Lemma words_filled wd wd' lim g :
  words wd -> zlen wd' = zlen wd -> (forall k, uint 32 (g k)) ->
  (forall k, 0 <= k < lim -> at_ wd' k = g k) -> (forall k, lim <= k -> at_ wd' k = at_ wd k) ->
  words wd'.
Proof.
  intros Hw Hl Hg Hi Ho. apply Forall_by_at. intros k Hk.
  destruct (Z.lt_ge_cases k lim); [rewrite Hi by lia; auto|rewrite Ho by lia; eauto with uint].
Qed.

(** ** Logical operations *)

(** What an operation that produces [bits] bits in [dst] guarantees: only [dst]
    changes, only in the words of the bitmap, and bit [i] is [f i]. *)
Definition result_bits (h : mem) (dst : block) (wd : list Z) (bits : Z) (f : Z -> bool) (h' : mem) : Prop :=
  exists wd', h' = <[dst := wd']> h /\ zlen wd' = zlen wd /\ words wd' /\
    (forall i, 0 <= i < bits -> bm_bit wd' i = f i) /\
    (forall k, BITS_TO_LONGS bits <= k -> at_ wd' k = at_ wd k).

Section Logical.
Context (dst b1 b2 : block) (wd w1 w2 : list Z) (bits : Z) (h : mem).
Context (Hd : h !! dst = Some wd) (H1 : h !! b1 = Some w1) (H2 : h !! b2 = Some w2).
Context (Hwd : words wd) (Hw1 : words w1) (Hw2 : words w2).
Context (Hbits : 0 <= bits) (Hld : bits <= 32 * zlen wd)
        (Hl1 : bits <= 32 * zlen w1) (Hl2 : bits <= 32 * zlen w2).

Lemma map2_words_spec (op : Z -> Z -> Z) (f : bool -> bool -> bool) :
  (forall x y, uint 32 x -> uint 32 y -> uint 32 (op x y)) ->
  (forall x y n, 0 <= n < 32 -> Z.testbit (op x y) n = f (Z.testbit x n) (Z.testbit y n)) ->
  wp (map2_words op dst b1 b2 bits) (fun _ h' =>
    result_bits h dst wd (32 * BITS_TO_LONGS bits) (fun i => f (bm_bit w1 i) (bm_bit w2 i)) h') h.
Proof using Hd H1 H2 Hwd Hw1 Hw2 Hbits Hld Hl1 Hl2.
  intros Hu Hf. unfold map2_words. set (g := fun k => op (at_ w1 k) (at_ w2 k)).
  assert (Hn : 0 <= BITS_TO_LONGS bits <= zlen wd /\ BITS_TO_LONGS bits <= zlen w1 /\
               BITS_TO_LONGS bits <= zlen w2) by (unfold BITS_TO_LONGS, BITS_PER_LONG; dlia).
  eapply wp_mono.
  - apply (wp_for (fun j h' => filled h dst wd 0 j g h')); [by apply filled_empty|].
    intros j h' Hj HF. wp_step. eapply (filled_load h dst wd Hd); [done|done|lia|lia|].
    wp_step. eapply (filled_load h dst wd Hd); [done|done|lia|lia|].
    eapply filled_store; [done|lia|lia|done|done].
  - intros [] h' HF. rewrite Z2Nat.id, Z.add_0_l in HF by lia.
    apply filled_bits in HF as (wd' & -> & Hl & Hb & Hi & Ho).
    exists wd'. split; [done|]. split; [done|]. split; [|split].
    + eapply (words_filled wd); [done|done| |done|done]. intros k. apply Hu; eauto with uint.
    + intros i Hr. rewrite Hb by done. unfold g. rewrite Hf by dlia. done.
    + intros k Hk. apply Ho. unfold BITS_TO_LONGS, BITS_PER_LONG in *. dlia.
Qed.

Lemma bitmap_complement_spec :
  wp (__bitmap_complement dst b1 bits) (fun _ h' =>
    result_bits h dst wd (32 * BITS_TO_LONGS bits) (fun i => (i <? bits) && negb (bm_bit w1 i)) h') h.
Proof using Hd H1 Hwd Hw1 Hbits Hld Hl1.
  unfold __bitmap_complement, BITS_PER_LONG.
  set (g := fun k => if k <? bits / 32 then not32 (at_ w1 k)
                     else Z.land (not32 (at_ w1 k)) (Z.ones (bits mod 32))).
  wp_step. eapply wp_mono.
  - apply (wp_for (fun j h' => filled h dst wd 0 j g h')); [by apply filled_empty|].
    intros j h' Hj HF. wp_step. eapply (filled_load h dst wd Hd); [done|done|dlia|lia|].
    eapply filled_store; [done|lia|dlia| |done]. unfold g. by rewrite ltb_t by dlia.
  - intros [] h' HF. cbv beta. rewrite Z2Nat.id, Z.add_0_l in HF by dlia.
    assert (Hg : forall k, uint 32 (g k)).
    { intros k. unfold g. destruct (_ <? _); [apply uint_not32|].
      apply uint_land; [lia|apply uint_not32|]. apply ones_uint. dlia. }
    assert (Hbit : forall i, 0 <= i < 32 * BITS_TO_LONGS bits ->
      Z.testbit (g (i / 32)) (i mod 32) = (i <? bits) && negb (bm_bit w1 i)).
    { intros i Hi. unfold g. rewrite <- sel_not32. unfold sel_bit, BITS_PER_LONG.
      destruct (Z.ltb_spec (i / 32) (bits / 32)).
      - by rewrite ltb_t by dlia.
      - rewrite Z.land_spec, testbit_ones by dlia. rewrite andb_comm. f_equal.
        unfold BITS_TO_LONGS, BITS_PER_LONG in Hi.
        destruct (Z.ltb_spec (i mod 32) (bits mod 32)), (Z.ltb_spec i bits); dlia || done. }
    assert (Hend : forall h', filled h dst wd 0 (BITS_TO_LONGS bits) g h' ->
      result_bits h dst wd (32 * BITS_TO_LONGS bits) (fun i => (i <? bits) && negb (bm_bit w1 i)) h').
    { intros h'' HF'. apply filled_bits in HF' as (wd' & -> & Hl & Hb & Hi & Ho).
      exists wd'. split; [done|]. split; [done|]. split; [|split].
      - by eapply (words_filled wd).
      - intros i Hr. rewrite Hb by done. by apply Hbit.
      - intros k Hk. apply Ho. unfold BITS_TO_LONGS, BITS_PER_LONG in *. dlia. }
    wp_step; b2p.
    + wp_step. eapply (filled_load h dst wd Hd); [done|done|dlia|lia|].
      eapply filled_store; [done|dlia|dlia| |].
      * unfold g. by rewrite ltb_f, BITMAP_LAST_WORD_MASK_ones by (done || lia).
      * intros h'' HF'. apply Hend. unfold BITS_TO_LONGS, BITS_PER_LONG.
        replace ((bits + (32 - 1)) / 32) with (bits / 32 + 1) by dlia. done.
    + wp_step. apply Hend. unfold BITS_TO_LONGS, BITS_PER_LONG.
      replace ((bits + (32 - 1)) / 32) with (bits / 32) by dlia. done.
Qed.
End Logical.

(** ** Shifts *)
Section Shift.
Context (dst src : block) (wd ws : list Z) (shift bits : Z) (h : mem).
Context (Hd : h !! dst = Some wd) (Hs : h !! src = Some ws).
Context (Hwd : words wd) (Hws : words ws).
Context (Hbits : 0 <= bits) (Hld : bits <= 32 * zlen wd) (Hls : bits <= 32 * zlen ws).
Context (Hsh : 0 <= shift) (Hoff : shift / 32 <= BITS_TO_LONGS bits).

Let lim := BITS_TO_LONGS bits.
Let left := bits mod 32.
Let off := shift / 32.
Let rem := shift mod 32.

Lemma shift_nums :
  0 <= lim <= zlen wd /\ lim <= zlen ws /\ 0 <= off <= lim /\ 0 <= rem < 32 /\ 0 <= left < 32 /\
  shift = 32 * off + rem /\ (left = 0 -> bits = 32 * lim) /\
  (left <> 0 -> bits = 32 * (lim - 1) + left /\ 0 < lim).
Proof using Hbits Hld Hls Hsh Hoff.
  unfold lim, left, off, rem, BITS_TO_LONGS, BITS_PER_LONG in *. dlia.
Qed.

Definition masked (k : Z) : Z :=
  if negb (left =? 0) && (k =? lim - 1) then Z.land (at_ ws k) (Z.ones left) else at_ ws k.

Lemma masked_uint k : uint 32 (masked k).
Proof using Hws Hbits Hld Hls Hsh Hoff.
  destruct shift_nums as (? & ? & ? & ? & ? & ?).
  unfold masked. destruct (_ && _); [|eauto with uint].
  apply uint_land; [lia|eauto with uint|apply ones_uint; lia].
Qed.

Lemma masked_bit k n :
  0 <= k < lim -> 0 <= n < 32 ->
  Z.testbit (masked k) n = (32 * k + n <? bits) && bm_bit ws (32 * k + n).
Proof using Hbits Hld Hls Hsh Hoff.
  intros Hk Hn. destruct shift_nums as (? & ? & ? & ? & ? & ? & HL0 & HL1).
  rewrite bm_bit_word by done. unfold masked.
  destruct (left =? 0) eqn:E0, (k =? lim - 1) eqn:E1; b2p; cbn [negb andb].
  - by rewrite ltb_t by lia.
  - by rewrite ltb_t by lia.
  - rewrite Z.land_spec, testbit_ones, andb_comm by lia. f_equal.
    destruct (Z.ltb_spec n left), (Z.ltb_spec (32 * k + n) bits); lia || done.
  - by rewrite ltb_t by lia.
Qed.

(** The word stored at index [k] by the right shift. *)
Definition right_word (k : Z) : Z :=
  let upper := if (rem =? 0) || (lim <=? off + k + 1) then 0 else masked (off + k + 1) in
  let x := Z.lor (shl32 upper (32 - rem)) (Z.shiftr (masked (off + k)) rem) in
  if negb (left =? 0) && (k =? lim - 1) then Z.land x (Z.ones left) else x.

Lemma right_word_bit k n :
  0 <= k -> off + k < lim -> 0 <= n < 32 ->
  Z.testbit (right_word k) n
  = (32 * k + n + shift <? bits) && bm_bit ws (32 * k + n + shift).
Proof using Hws Hbits Hld Hls Hsh Hoff.
  intros Hk Hk' Hn. destruct shift_nums as (? & ? & ? & ? & ? & Hshift & HL0 & HL1).
  unfold right_word.
  set (upper := if _ || _ then 0 else _).
  set (x := Z.lor _ _).
  assert (Hx : Z.testbit x n = (32 * k + n + shift <? bits) && bm_bit ws (32 * k + n + shift)).
  { unfold x. rewrite Z.lor_spec, testbit_shl32, (ltb_t n 32), Z.shiftr_spec by lia. cbn [andb].
    destruct (Z.lt_ge_cases (n + rem) 32).
    - rewrite (Z.testbit_neg_r upper) by lia. cbn [orb]. rewrite masked_bit by lia.
      replace (32 * (off + k) + (n + rem)) with (32 * k + n + shift) by lia. done.
    - rewrite (testbit_above 32 (masked _)) by (lia || apply masked_uint). rewrite orb_false_r.
      unfold upper. destruct (rem =? 0) eqn:E0, (lim <=? off + k + 1) eqn:E1; b2p; try lia; cbn [orb].
      + rewrite Z.bits_0. rewrite ltb_f; [done|]. destruct (Z.eq_dec left 0); lia.
      + rewrite masked_bit by lia.
        replace (32 * (off + k + 1) + (n - (32 - rem))) with (32 * k + n + shift) by lia. done. }
  destruct (left =? 0) eqn:E0, (k =? lim - 1) eqn:E1; b2p; cbn [negb andb]; try done.
  rewrite Z.land_spec, Hx, testbit_ones by lia.
  destruct (Z.ltb_spec n left); [by rewrite andb_true_r|].
  rewrite ltb_f by lia. done.
Qed.

Lemma right_word_uint k : uint 32 (right_word k).
Proof using Hws Hbits Hld Hls Hsh Hoff.
  destruct shift_nums as (? & ? & ? & ? & ? & ?).
  assert (uint 32 (Z.lor (shl32 (if (rem =? 0) || (lim <=? off + k + 1) then 0 else masked (off + k + 1)) (32 - rem))
           (Z.shiftr (masked (off + k)) rem))).
  { apply uint_lor; [lia|apply uint_shl32|]. apply uint_shiftr; [lia|apply masked_uint]. }
  unfold right_word. destruct (_ && _); [|done].
  apply uint_land; [lia|done|apply ones_uint; lia].
Qed.

Lemma bitmap_shift_right_spec :
  wp (__bitmap_shift_right dst src shift bits) (fun _ h' =>
    result_bits h dst wd (32 * BITS_TO_LONGS bits)
      (fun i => (i + shift <? bits) && bm_bit ws (i + shift)) h') h.
Proof using Hd Hs Hwd Hws Hbits Hld Hls Hsh Hoff.
  pose proof shift_nums as (? & ? & ? & ? & ? & Hshift & HL0 & HL1).
  unfold __bitmap_shift_right, BITS_PER_LONG. fold lim left off rem.
  rewrite last_mask by done.
  assert (Hfinal : forall wd', zlen wd' = zlen wd ->
    (forall k, 0 <= k < lim - off -> at_ wd' k = right_word k) ->
    (forall k, lim - off <= k < lim -> at_ wd' k = 0) ->
    (forall k, lim <= k -> at_ wd' k = at_ wd k) ->
    result_bits h dst wd (32 * lim) (fun i => (i + shift <? bits) && bm_bit ws (i + shift))
      (<[dst := wd']> h)).
  { intros wd' Hl Hlow Hmid Hhi. exists wd'. split; [done|]. split; [done|]. split; [|split].
    - apply Forall_by_at. intros k Hk. destruct (Z.lt_ge_cases k (lim - off));
        [rewrite Hlow by lia; apply right_word_uint|].
      destruct (Z.lt_ge_cases k lim); [rewrite Hmid by lia; by apply uint_0|].
      rewrite Hhi by lia. eauto with uint.
    - intros i Hi. unfold bm_bit at 1, BITS_PER_LONG.
      destruct (Z.lt_ge_cases (i / 32) (lim - off)).
      + rewrite Hlow, right_word_bit by dlia.
        by replace (32 * (i / 32) + i mod 32) with i by dlia.
      + rewrite Hmid, Z.bits_0 by dlia. rewrite ltb_f; [done|].
        destruct (Z.eq_dec left 0); dlia.
    - intros k Hk. apply Hhi. unfold BITS_TO_LONGS, BITS_PER_LONG in Hk. dlia. }
  wp_step. eapply wp_mono.
  - apply (wp_for (fun j h' => filled h dst wd 0 j right_word h')); [by apply filled_empty|].
    intros k h' Hk HF. rewrite Z2Nat.id in Hk by lia. wp_step.
    assert (Hup : wp (if (rem =? 0) || (lim <=? off + k + 1) then ret 0
        else let* u := load src (off + k + 1) in
             ret (if (off + k + 1 =? lim - 1) && negb (left =? 0) then Z.land u (Z.ones left) else u))
      (fun u h'' => h'' = h' /\
         u = if (rem =? 0) || (lim <=? off + k + 1) then 0 else masked (off + k + 1)) h').
    { destruct (_ || _) eqn:E; wp_step; [done|]. b2p.
      eapply (filled_load h dst wd Hd); [done|done|lia|lia|]. wp_step.
      split; [done|]. unfold masked. by rewrite andb_comm. }
    eapply wp_mono; [exact Hup|]. intros u h'' [-> ->]. clear Hup. cbv beta.
    wp_step. eapply (filled_load h dst wd Hd); [done|done|lia|lia|]. cbv zeta. fold (masked (off + k)).
    eapply (filled_store_mask h dst wd right_word 0 k 0 (k + 1)); [done|lia|done|lia|by intros].
  - intros [] h' (wd' & -> & Hl & Hi & Ho). cbv beta. rewrite Z2Nat.id, Z.add_0_l in Hi, Ho by lia.
    wp_step; b2p.
    + eapply wp_mono; [eapply memset_spec; [by rewrite lookup_insert_eq|lia|lia|lia]|].
      intros [] h' (wd'' & -> & Hl' & Hin & Hout). rewrite insert_insert_eq.
      apply Hfinal; [lia|intros; rewrite Hout by lia; apply Hi; lia|intros; apply Hin; lia|].
      intros k Hk. rewrite Hout by lia. apply Ho. lia.
    + wp_step. apply Hfinal; [done|auto|lia|]. intros k Hk. apply Ho. lia.
Qed.

(** The word stored at index [m] by the left shift. *)
Definition left_word (m : Z) : Z :=
  let k := m - off in
  let lower := if negb (rem =? 0) && (0 <? k) then at_ ws (k - 1) else 0 in
  let x := Z.lor (Z.shiftr lower (32 - rem)) (shl32 (masked k) rem) in
  if negb (left =? 0) && (m =? lim - 1) then Z.land x (Z.ones left) else x.

Lemma left_word_bit m n :
  off <= m < lim -> 0 <= n < 32 ->
  Z.testbit (left_word m) n
  = (32 * m + n <? bits) && ((shift <=? 32 * m + n) && bm_bit ws (32 * m + n - shift)).
Proof using Hws Hbits Hld Hls Hsh Hoff.
  intros Hm Hn. destruct shift_nums as (? & ? & ? & ? & ? & Hshift & HL0 & HL1).
  unfold left_word. set (k := m - off).
  set (lower := if negb (rem =? 0) && _ then _ else _).
  set (x := Z.lor _ _). set (i := 32 * m + n).
  assert (Hx : i < bits -> Z.testbit x n = (shift <=? i) && bm_bit ws (i - shift)).
  { intros Hib. unfold x. rewrite Z.lor_spec, testbit_shl32, (ltb_t n 32), Z.shiftr_spec by lia. cbn [andb].
    assert (uint 32 lower) by (unfold lower; destruct (_ && _); [eauto with uint|by apply uint_0]).
    destruct (Z.lt_ge_cases n rem).
    - rewrite (Z.testbit_neg_r (masked k)), orb_false_r by lia. unfold lower.
      rewrite (eqb_f rem 0) by lia. cbn [negb andb].
      destruct (Z.ltb_spec 0 k); unfold k, i in *.
      + rewrite (proj2 (Z.leb_le _ _)) by lia. cbn [andb].
        replace (32 * m + n - shift) with (32 * (m - off - 1) + (n + (32 - rem))) by lia.
        by rewrite bm_bit_word by lia.
      + rewrite Z.bits_0. destruct (Z.leb_spec shift (32 * m + n)); [lia|done].
    - rewrite (testbit_above 32 lower) by (done || lia). cbn [orb].
      rewrite masked_bit by (unfold k in *; lia). unfold k, i in *.
      rewrite ltb_t, (proj2 (Z.leb_le _ _)) by lia. cbn [andb].
      f_equal. lia. }
  destruct (Z.ltb_spec i bits) as [Hib|Hib]; cbn [andb].
  - destruct (negb (left =? 0) && (m =? lim - 1)) eqn:E; [|by apply Hx]. b2p.
    rewrite Z.land_spec, Hx, testbit_ones, ltb_t, andb_true_r by (done || lia). done.
  - destruct (Z.eq_dec left 0) as [E|E]; [lia|].
    rewrite (eqb_f left 0), (proj2 (Z.eqb_eq m (lim - 1))) by lia. cbn [negb andb].
    rewrite Z.land_spec, testbit_ones, ltb_f, andb_false_r by lia. done.
Qed.

Lemma left_word_uint m : uint 32 (left_word m).
Proof using Hws Hbits Hld Hls Hsh Hoff.
  destruct shift_nums as (? & ? & ? & ? & ? & ?).
  unfold left_word. set (lower := if negb (rem =? 0) && _ then _ else _). set (x := Z.lor _ _).
  assert (uint 32 lower) by (unfold lower; destruct (_ && _); [eauto with uint|by apply uint_0]).
  assert (uint 32 x) by (apply uint_lor; [lia|apply uint_shiftr; [lia|done]|apply uint_shl32]).
  destruct (negb (left =? 0) && (m =? lim - 1)); [|done]. apply uint_land; [lia|done|apply ones_uint; lia].
Qed.

Lemma bitmap_shift_left_spec :
  wp (__bitmap_shift_left dst src shift bits) (fun _ h' =>
    result_bits h dst wd (32 * BITS_TO_LONGS bits)
      (fun i => (i <? bits) && ((shift <=? i) && bm_bit ws (i - shift))) h') h.
Proof using Hd Hs Hwd Hws Hbits Hld Hls Hsh Hoff.
  pose proof shift_nums as (? & ? & ? & ? & ? & Hshift & HL0 & HL1).
  unfold __bitmap_shift_left, BITS_PER_LONG. fold lim left off rem.
  rewrite last_mask by done.
  assert (Hfinal : forall wd', zlen wd' = zlen wd ->
    (forall k, off <= k < lim -> at_ wd' k = left_word k) ->
    (forall k, 0 <= k < off -> at_ wd' k = 0) ->
    (forall k, lim <= k -> at_ wd' k = at_ wd k) ->
    result_bits h dst wd (32 * lim)
      (fun i => (i <? bits) && ((shift <=? i) && bm_bit ws (i - shift))) (<[dst := wd']> h)).
  { intros wd' Hl Hmid Hlow Hhi. exists wd'. split; [done|]. split; [done|]. split; [|split].
    - apply Forall_by_at. intros k Hk. destruct (Z.lt_ge_cases k off);
        [rewrite Hlow by lia; by apply uint_0|].
      destruct (Z.lt_ge_cases k lim); [rewrite Hmid by lia; apply left_word_uint|].
      rewrite Hhi by lia. eauto with uint.
    - intros i Hi. unfold bm_bit at 1, BITS_PER_LONG.
      destruct (Z.lt_ge_cases (i / 32) off).
      + rewrite Hlow, Z.bits_0 by dlia.
        destruct (Z.leb_spec shift i); [dlia|]. cbn [andb]. by rewrite andb_false_r.
      + rewrite Hmid, left_word_bit by dlia.
        by replace (32 * (i / 32) + i mod 32) with i by dlia.
    - intros k Hk. apply Hhi. unfold BITS_TO_LONGS, BITS_PER_LONG in Hk. dlia. }
  wp_step. eapply wp_mono.
  - apply (wp_for (fun j h' => filled h dst wd (lim - j) lim left_word h')).
    { rewrite Z.sub_0_r. by apply filled_empty. }
    intros j h' Hj HF. rewrite Z2Nat.id in Hj by lia. cbv zeta.
    set (k := lim - off - 1 - j). wp_step.
    assert (Hlo : wp (if negb (rem =? 0) && (0 <? k) then load src (k - 1) else ret 0)
      (fun u h'' => h'' = h' /\ u = if negb (rem =? 0) && (0 <? k) then at_ ws (k - 1) else 0) h').
    { destruct (_ && _) eqn:E; [|by wp_step]. b2p.
      eapply (filled_load h dst wd Hd); [done|done|unfold k in *; lia|unfold k in *; lia|done]. }
    eapply wp_mono; [exact Hlo|]. intros u h'' [-> ->]. clear Hlo. cbv beta.
    wp_step. eapply (filled_load h dst wd Hd); [done|done|unfold k; lia|unfold k; lia|].
    fold (masked k).
    eapply (filled_store_mask h dst wd left_word (lim - j) lim (lim - (j + 1)) lim);
      [done|unfold k; lia| |unfold k; lia|by intros].
    unfold left_word. replace (k + off - off) with k by lia. done.
  - intros [] h' (wd' & -> & Hl & Hi & Ho). cbv beta. rewrite Z2Nat.id, Z.add_0_l in Hi, Ho by lia.
    replace (lim - (lim - off)) with off in Hi, Ho by lia. wp_step; b2p.
    + eapply wp_mono; [eapply memset_spec; [by rewrite lookup_insert_eq|lia|lia|lia]|].
      intros [] h' (wd'' & -> & Hl' & Hin & Hout). rewrite insert_insert_eq.
      apply Hfinal; [lia|intros; rewrite Hout by lia; apply Hi; lia|intros; apply Hin; lia|].
      intros k Hk. rewrite Hout by lia. apply Ho. lia.
    + wp_step. apply Hfinal; [done|auto|lia|]. intros k Hk. apply Ho. lia.
Qed.
End Shift.

(** ** Weight *)
Lemma hweight_word ws k : words ws ->
  hweight_long (at_ ws k) = count (bm_bit ws) (32 * k) 32.
Proof.
  intros Hw. unfold hweight_long. rewrite hweight32_count by (eauto with uint).
  replace (32 * k) with (0 + 32 * k) by lia. rewrite <- count_shift. apply count_ext.
  intros i Hi. rewrite Z.add_comm. by rewrite bm_bit_word by lia.
Qed.

Lemma count_zero f a n : (forall i, a <= i < a + Z.of_nat n -> f i = false) -> count f a n = 0.
Proof.
  revert a. induction n as [|n IH]; intros a H; simpl; [done|].
  rewrite H by lia. rewrite IH; [done|]. intros. apply H. lia.
Qed.

Lemma count_masked w m :
  0 <= m <= 32 -> count (Z.testbit (Z.land w (Z.ones m))) 0 32 = count (Z.testbit w) 0 (Z.to_nat m).
Proof.
  intros Hm. replace 32%nat with (Z.to_nat m + Z.to_nat (32 - m))%nat by lia. rewrite count_app.
  rewrite (count_zero _ (0 + _)), Z.add_0_r.
  - apply count_ext. intros i Hi. autorewrite with bits. by rewrite ltb_t, andb_true_r by lia.
  - intros i Hi. autorewrite with bits. by rewrite ltb_f, andb_false_r by lia.
Qed.

Lemma bitmap_weight_spec b ws bits (h : mem) :
  h !! b = Some ws -> words ws -> 0 <= bits <= 32 * zlen ws ->
  wp (__bitmap_weight b bits) (fun r h' => h' = h /\ r = count (bm_bit ws) 0 (Z.to_nat bits)) h.
Proof.
  intros Hb Hw Hl. unfold __bitmap_weight, BITS_PER_LONG. wp_step. eapply wp_mono.
  - apply (wp_while (fun '(k, w) h' => h' = h /\ 0 <= k <= bits / 32 /\
        w = count (bm_bit ws) 0 (Z.to_nat (32 * k)))
      (fun '(k, w) h' => h' = h /\ k = bits / 32 /\ w = count (bm_bit ws) 0 (Z.to_nat (32 * k)))
      (fun '(k, _) => Z.to_nat (bits / 32 - k))).
    + split; [done|]. split; [dlia|done].
    + rewrite Z.sub_0_r. lia.
    + intros [k w] h' (-> & Hk & ->). wp_step; b2p.
      * wp_step. wp_step; [dlia|]. wp_step. split; [|lia]. split; [done|]. split; [lia|].
        replace (Z.to_nat (32 * (k + 1))) with (Z.to_nat (32 * k) + 32)%nat by lia.
        rewrite count_app, hweight_word by done. do 2 f_equal. lia.
      * wp_step. split; [done|]. split; [lia|done].
  - intros [k w] h' (-> & -> & ->). cbv beta. wp_step; b2p.
    + wp_step. wp_step; [dlia|]. wp_step. split; [done|].
      rewrite BITMAP_LAST_WORD_MASK_ones by done. unfold hweight_long.
      rewrite hweight32_count
        by (apply uint_land; [lia|eauto with uint|apply ones_uint; dlia]).
      replace (Z.to_nat bits) with (Z.to_nat (32 * (bits / 32)) + Z.to_nat (bits mod 32))%nat by dlia.
      rewrite count_app. f_equal.
      rewrite count_masked, Z2Nat.id by dlia.
      rewrite <- (Z.add_0_l (0 + _)), Z.add_assoc, <- count_shift. apply count_ext. intros i Hi.
      by rewrite Z.add_comm, bm_bit_word by dlia.
    + wp_step. split; [done|]. do 2 f_equal. dlia.
Qed.

(** ** Regions *)
Lemma shift_count_ok n : 0 <= n < 32 -> shift_count n = true.
Proof. intros. unfold shift_count. by rewrite (proj2 (Z.leb_le _ _)), ltb_t by lia. Qed.
Lemma reg_mask n :
  1 <= n <= 32 -> u32 (shl32 1 (n - 1) + u32 (shl32 1 (n - 1) - 1)) = Z.ones n.
Proof.
  intros Hn. unfold shl32. rewrite Z.shiftl_1_l, Z.ones_equiv.
  assert (H : 0 < 2 ^ (n - 1) <= 2 ^ 31)
    by (split; [apply Z.pow_pos_nonneg; lia|apply Z.pow_le_mono_r; lia]).
  replace (2 ^ n) with (2 * 2 ^ (n - 1)) by (rewrite <- Z.pow_succ_r by lia; f_equal; lia).
  set (x := 2 ^ (n - 1)) in *. pow2. rewrite (wrap_id 32 x) by (unfold uint; pow2; lia).
  rewrite (wrap_id 32 (x - 1)) by (unfold uint; pow2; lia). rewrite wrap_id by (unfold uint; pow2; lia). lia.
Qed.

Section Region.
Context (pos order : Z) (Horder : 0 <= order <= 30) (Hpos : 0 <= pos) (Halign : pos mod 2 ^ order = 0).
Let nb := 2 ^ order.
Let index := pos / 32.
Let nlongs := BITS_TO_LONGS nb.
Definition region_mask : Z := shl32 (Z.ones (Z.min (2 ^ order) 32)) (pos - pos / 32 * 32).

Lemma region_nums :
  1 <= nb /\ 0 <= index /\ 1 <= nlongs /\
  ((nb <= 32 /\ nlongs = 1 /\ pos - 32 * index + nb <= 32) \/
   (32 <= nb /\ nb = 32 * nlongs /\ pos = 32 * index)).
Proof using Horder Hpos Halign.
  assert (Hnb : 1 <= nb) by (unfold nb; assert (0 < 2 ^ order) by (apply Z.pow_pos_nonneg; lia); lia).
  fold nb in Halign. unfold nlongs, index, BITS_TO_LONGS, BITS_PER_LONG.
  destruct (Z.lt_ge_cases order 5) as [Hs|Hs].
  - assert (nb = 1 \/ nb = 2 \/ nb = 4 \/ nb = 8 \/ nb = 16) as HC.
    { unfold nb. assert (order = 0 \/ order = 1 \/ order = 2 \/ order = 3 \/ order = 4)
        as [->|[->|[->|[->| ->]]]] by lia; pow2; lia. }
    destruct HC as [E|[E|[E|[E|E]]]]; rewrite E in *; dlia.
  - assert (E : nb = 32 * 2 ^ (order - 5)).
    { unfold nb. change 32 with (2 ^ 5). rewrite <- Z.pow_add_r by lia. f_equal. lia. }
    set (m := 2 ^ (order - 5)) in *.
    assert (0 < m) by (apply Z.pow_pos_nonneg; lia).
    assert (Hp : pos = 32 * (m * (pos / nb))) by (pose proof (Z.div_mod pos nb ltac:(lia)); lia).
    generalize dependent (m * (pos / nb)). intros z Hz. dlia.
Qed.

(** The numbers of [__reg_op] for a region of at most [2^30] bits. *)
Lemma reg_op_unfold bitmap op : __reg_op bitmap pos order op =
  match op with
  | REG_OP_ISFREE =>
      let* o := for_ret (Z.to_nat nlongs) 0 (fun i =>
        let* w := load bitmap (index + i) in
        ret (if negb (Z.land w region_mask =? 0) then Some 0 else None)) in
      match o with Some ret0 => ret ret0 | None => ret 1 end
  | REG_OP_ALLOC =>
      for_ (Z.to_nat nlongs) 0 (fun i =>
        let* w := load bitmap (index + i) in store bitmap (index + i) (Z.lor w region_mask)) ;;
      ret 0
  | REG_OP_RELEASE =>
      for_ (Z.to_nat nlongs) 0 (fun i =>
        let* w := load bitmap (index + i) in store bitmap (index + i) (Z.land w (not32 region_mask))) ;;
      ret 0
  end.
Proof using Horder Hpos Halign.
  destruct region_nums as (? & ? & ? & HC). assert (nb <= 2 ^ 30) as Hnb by (apply Z.pow_le_mono_r; lia). pow2.
  unfold __reg_op, BITS_PER_LONG. rewrite Z.shiftl_1_l, Z.quot_div_nonneg by lia. fold nb index.
  rewrite !(s32_id nb) by lia. rewrite wrap_id by (unfold uint; pow2; lia). rewrite !(s32_id (Z.min nb 32 - 1)) by lia.
  assert (s32 ((nb + (32 - 1)) / 32) = nlongs) as -> by (unfold nlongs, BITS_TO_LONGS, BITS_PER_LONG; apply s32_id; dlia).
  rewrite reg_mask by lia. unfold region_mask. fold nb index. unfold index in *.
  rewrite (shift_count_ok order), (shift_count_ok (Z.min nb 32 - 1)), (shift_count_ok (pos - _)) by dlia. done.
Qed.

Definition in_region (j : Z) : bool := (pos <=? j) && (j <? pos + 2 ^ order).

Lemma region_mask_bit i n :
  0 <= i < nlongs -> 0 <= n < 32 ->
  Z.testbit region_mask n = in_region (32 * (index + i) + n).
Proof using Horder Hpos Halign.
  intros Hi Hn. destruct region_nums as (? & ? & ? & HC).
  unfold region_mask, in_region. fold nb index.
  rewrite testbit_shl32, (ltb_t n 32) by lia. cbn [andb].
  destruct (Z.lt_ge_cases n (pos - index * 32)).
  - rewrite Z.testbit_neg_r by lia. destruct (Z.leb_spec pos (32 * (index + i) + n)); [lia|done].
  - rewrite testbit_ones by lia.
    destruct (Z.leb_spec pos (32 * (index + i) + n)); [|lia]. cbn [andb].
    destruct (Z.ltb_spec (n - (pos - index * 32)) (Z.min nb 32)),
      (Z.ltb_spec (32 * (index + i) + n) (pos + nb)); lia || done.
Qed.

Lemma region_words j : in_region j = true -> index <= j / 32 < index + nlongs.
Proof using Horder Hpos Halign.
  intros H. destruct region_nums as (? & ? & ? & HC). unfold in_region in H. fold nb in H. b2p.
  unfold index in *. dlia.
Qed.

Lemma region_mask_uint : uint 32 region_mask.
Proof. apply uint_shl32. Qed.

Context (b : block) (ws : list Z) (h : mem) (Hb : h !! b = Some ws) (Hw : words ws).
Context (Hl : pos + 2 ^ order <= 32 * zlen ws).

Lemma region_bound : index + nlongs <= zlen ws.
Proof using Horder Hpos Halign Hl.
  destruct region_nums as (? & ? & ? & HC). fold nb in Hl. unfold index in *. dlia.
Qed.

(** The region is free: all its bits are zero. *)
Definition region_free : Prop := forall j, in_region j = true -> bm_bit ws j = false.

Lemma reg_op_isfree_spec :
  wp (__reg_op b pos order REG_OP_ISFREE) (fun r h' => h' = h /\ truth r region_free) h.
Proof using Horder Hpos Halign Hb Hw Hl.
  pose proof region_nums as (? & ? & ? & HC). pose proof region_bound.
  rewrite reg_op_unfold. cbv iota. wp_step. eapply wp_mono.
  - apply (wp_for_ret (fun i h' => h' = h /\
      forall j, in_region j = true -> j / 32 < index + i -> bm_bit ws j = false)
      (fun r h' => h' = h /\ r = 0 /\ ~ region_free)).
    + split; [done|]. intros j Hj. apply region_words in Hj. lia.
    + intros i h' Hi [-> Hz]. wp_step. wp_step. wp_step.
      assert (Hbit : forall n, 0 <= n < 32 -> Z.testbit (Z.land (at_ ws (index + i)) region_mask) n
        = bm_bit ws (32 * (index + i) + n) && in_region (32 * (index + i) + n)).
      { intros n Hn. by rewrite Z.land_spec, (region_mask_bit i), bm_bit_word by lia. }
      destruct (_ =? 0) eqn:E; b2p; cbn [negb].
      * split; [done|]. intros j Hj Hlt. destruct (Z.lt_ge_cases (j / 32) (index + i)); [by apply Hz|].
        specialize (Hbit (j mod 32) ltac:(dlia)). rewrite E, Z.bits_0 in Hbit.
        replace (32 * (index + i) + j mod 32) with j in Hbit by dlia.
        by rewrite Hj, andb_true_r in Hbit.
      * split; [done|]. split; [done|]. intros Hfree.
        destruct (lowest_exists 32 _ ltac:(lia) (uint_land 32 _ region_mask ltac:(lia)
          (words_at ws (index + i) Hw) (proj1 region_mask_uint)) E) as (n & (? & Hn & _) & ?).
        rewrite Hbit in Hn by lia. b2p. rewrite Hfree in *; done.
  - intros [r|] h' Hpost; cbv beta; wp_step; rewrite ?Z2Nat.id, ?Z.add_0_l in Hpost by lia.
    + destruct Hpost as (-> & -> & Hn). split; [done|]. by right.
    + destruct Hpost as [-> Hz]. split; [done|]. left. split; [done|].
      intros j Hj. apply Hz; [done|]. apply region_words in Hj. lia.
Qed.

(** The two updating operations, by the word function they apply. *)
Lemma reg_loop_spec (op : Z -> Z) (f : bool -> bool -> bool) :
  (forall x, uint 32 x -> uint 32 (op x)) ->
  (forall x n, uint 32 x -> 0 <= n < 32 -> Z.testbit (op x) n = f (Z.testbit x n) (Z.testbit region_mask n)) ->
  (forall x, f x false = x) ->
  wp (for_ (Z.to_nat nlongs) 0 (fun i =>
        let* w := load b (index + i) in store b (index + i) (op w))) (fun _ h' =>
    exists ws', h' = <[b := ws']> h /\ zlen ws' = zlen ws /\ words ws' /\
      forall j, 0 <= j -> bm_bit ws' j = f (bm_bit ws j) (in_region j)) h.
Proof using Horder Hpos Halign Hb Hw Hl.
  intros Hu Hf Hid. pose proof region_nums as (? & ? & ? & HC). pose proof region_bound.
  set (g := fun k => op (at_ ws k)). eapply wp_mono.
  - apply (wp_for (fun i h' => filled h b ws index (index + i) g h')).
    { rewrite Z.add_0_r. by apply filled_empty. }
    intros i h' Hi HF. wp_step. eapply (filled_load h b ws Hb); [done|done|lia|lia|].
    eapply (filled_store_gen h b ws g index (index + i) index (index + (i + 1)));
      [done|lia|done|lia|by intros].
  - intros [] h' (ws' & -> & Hlen & Hin & Hout). rewrite Z2Nat.id, Z.add_0_l in Hin, Hout by lia.
    exists ws'. split; [done|]. split; [done|]. split.
    + apply Forall_by_at. intros k Hk. destruct (decide (index <= k < index + nlongs)).
      * rewrite Hin by done. apply Hu. eauto with uint.
      * rewrite Hout by done. eauto with uint.
    + intros j Hj. unfold bm_bit, BITS_PER_LONG. destruct (decide (index <= j / 32 < index + nlongs)) as [Hr|Hr].
      * rewrite Hin by done. unfold g. rewrite Hf by (eauto with uint || dlia).
        rewrite (region_mask_bit (j / 32 - index)) by dlia. do 2 f_equal. dlia.
      * rewrite Hout by done. destruct (in_region j) eqn:E; [apply region_words in E; lia|]. by rewrite Hid.
Qed.

Lemma reg_op_alloc_spec :
  wp (__reg_op b pos order REG_OP_ALLOC) (fun r h' => r = 0 /\
    exists ws', h' = <[b := ws']> h /\ zlen ws' = zlen ws /\ words ws' /\
      forall j, 0 <= j -> bm_bit ws' j = bm_bit ws j || in_region j) h.
Proof using Horder Hpos Halign Hb Hw Hl.
  pose proof region_nums as (? & ? & ? & HC).
  rewrite reg_op_unfold. cbv iota. wp_step. eapply wp_mono.
  - apply (reg_loop_spec (fun w => Z.lor w region_mask) orb).
    + intros x Hx. apply uint_lor; [lia|done|apply region_mask_uint].
    + intros. apply Z.lor_spec.
    + apply orb_false_r.
  - intros [] h' Hpost. cbv beta. by wp_step.
Qed.

Lemma reg_op_release_spec :
  wp (__reg_op b pos order REG_OP_RELEASE) (fun r h' => r = 0 /\
    exists ws', h' = <[b := ws']> h /\ zlen ws' = zlen ws /\ words ws' /\
      forall j, 0 <= j -> bm_bit ws' j = bm_bit ws j && negb (in_region j)) h.
Proof using Horder Hpos Halign Hb Hw Hl.
  pose proof region_nums as (? & ? & ? & HC).
  rewrite reg_op_unfold. cbv iota. wp_step. eapply wp_mono.
  - apply (reg_loop_spec (fun w => Z.land w (not32 region_mask)) (fun x y => x && negb y)).
    + intros x Hx. apply uint_land; [lia|done|apply uint_not32].
    + intros. by rewrite Z.land_spec, testbit_not32, ltb_t by lia.
    + intros. apply andb_true_r.
  - intros [] h' Hpost. cbv beta. by wp_step.
Qed.
End Region.

Section RegionApi.
Context (b : block) (ws : list Z) (h : mem) (Hb : h !! b = Some ws) (Hw : words ws).
Context (order : Z) (Horder : 0 <= order <= 30).

(** The bitmap with exactly the bits of the region at [pos] set in addition. *)
Definition allocated (pos : Z) (h' : mem) : Prop :=
  exists ws', h' = <[b := ws']> h /\ zlen ws' = zlen ws /\ words ws' /\
    forall j, 0 <= j -> bm_bit ws' j = bm_bit ws j || in_region pos order j.

Lemma bitmap_allocate_region_spec pos :
  0 <= pos -> pos mod 2 ^ order = 0 -> pos + 2 ^ order <= 32 * zlen ws ->
  wp (bitmap_allocate_region b pos order) (fun r h' =>
    (r = 0 /\ region_free pos order ws /\ allocated pos h') \/
    (r = - EBUSY /\ ~ region_free pos order ws /\ h' = h)) h.
Proof using Hb Hw Horder.
  intros Hp Ha Hl. unfold bitmap_allocate_region. wp_step.
  eapply wp_mono; [by apply reg_op_isfree_spec|]. intros r h' [-> [[-> Hf]|[-> Hf]]]; cbv beta; cbn [Z.eqb].
  - wp_step. eapply wp_mono; [by apply reg_op_alloc_spec|]. intros r h' [-> Hal]. cbv beta. wp_step. by left.
  - wp_step. by right.
Qed.

Lemma bitmap_find_free_region_spec bits :
  bits <= 32 * zlen ws -> bits <= INT_MAX - 2 ^ order ->
  wp (bitmap_find_free_region b bits order) (fun r h' =>
    (0 <= r /\ r mod 2 ^ order = 0 /\ r + 2 ^ order <= bits /\ region_free r order ws /\
     (forall p, 0 <= p < r -> p mod 2 ^ order = 0 -> ~ region_free p order ws) /\ allocated r h') \/
    (r = - ENOMEM /\ h' = h /\
     forall p, 0 <= p -> p mod 2 ^ order = 0 -> p + 2 ^ order <= bits -> ~ region_free p order ws)) h.
Proof using Hb Hw Horder.
  intros Hl Hmax. assert (Hnb : 1 <= 2 ^ order) by (assert (0 < 2 ^ order) by (apply Z.pow_pos_nonneg; lia); lia).
  assert (2 ^ order <= 2 ^ 30) as Hnb' by (apply Z.pow_le_mono_r; lia). pow2. unfold INT_MAX in Hmax.
  unfold bitmap_find_free_region.
  apply (wp_while (fun pos h' => h' = h /\ 0 <= pos <= Z.max 0 bits /\ pos mod 2 ^ order = 0 /\
      forall p, 0 <= p < pos -> p mod 2 ^ order = 0 -> ~ region_free p order ws) _
    (fun pos => Z.to_nat (bits - pos))).
  - split; [done|]. split; [lia|]. split; [|lia]. apply Z.mod_0_l. lia.
  - lia.
  - intros pos h' (-> & Hp & Ha & Hprev). rewrite Z.shiftl_1_l, shift_count_ok by lia. cbn [negb].
    rewrite (s32_id (2 ^ order)), (s32_id (pos + _)) by lia.
    assert (Hgap : forall p, pos <= p < pos + 2 ^ order -> p mod 2 ^ order = 0 -> p = pos).
    { intros p Hr Hpa. apply Z.div_exact in Ha, Hpa; [|lia..].
      set (x := p / 2 ^ order) in *. set (y := pos / 2 ^ order) in *.
      assert (y <= x < y + 1) by nia. replace x with y in Hpa by lia. lia. }
    cbv zeta. wp_step; b2p.
    + wp_step. eapply wp_mono; [apply reg_op_isfree_spec with (ws := ws); done || lia|].
      intros r h' [-> [[-> Hf]|[-> Hf]]]; cbv beta; cbn [Z.eqb].
      * wp_step. eapply wp_mono; [apply reg_op_alloc_spec with (ws := ws); done || lia|].
        intros r h' [-> Hal]. cbv beta. wp_step. left. split; [lia|done].
      * wp_step. split; [|lia]. split; [done|]. split; [lia|].
        split; [by rewrite <- Z.add_mod_idemp_r, Z.mod_same, Z.add_0_r by lia|].
        intros p Hr Hpa. destruct (Z.lt_ge_cases p pos); [apply Hprev; lia|].
        by rewrite (Hgap p) by (lia || done).
    + wp_step. right. split; [done|]. split; [done|]. intros p H0 Hpa Hle.
      apply Hprev; [|done]. destruct (Z.lt_ge_cases p pos); [lia|].
      destruct (Z.lt_ge_cases p (pos + 2 ^ order)); [|lia]. rewrite (Hgap p) in Hle by (lia || done). lia.
Qed.
End RegionApi.

Lemma bitmap_release_region_spec b ws (h : mem) pos order :
  h !! b = Some ws -> words ws -> 0 <= order <= 30 -> 0 <= pos -> pos mod 2 ^ order = 0 ->
  pos + 2 ^ order <= 32 * zlen ws ->
  wp (bitmap_release_region b pos order) (fun _ h' =>
    exists ws', h' = <[b := ws']> h /\ zlen ws' = zlen ws /\ words ws' /\
      forall j, 0 <= j -> bm_bit ws' j = bm_bit ws j && negb (in_region pos order j)) h.
Proof.
  intros. unfold bitmap_release_region. wp_step.
  eapply wp_mono; [by apply reg_op_release_spec|]. intros r h' [-> Hr]. cbv beta. by wp_step.
Qed.

(** ** Properties *)

(** The five word-scanning predicates decide their set-theoretic meaning on
    the first [bits] bits, whatever the unused bits of the last word hold, and
    leave memory unchanged. *)
Theorem bitmap_predicates_correct b1 b2 w1 w2 bits (h : mem) :
  h !! b1 = Some w1 -> h !! b2 = Some w2 -> words w1 -> words w2 ->
  0 <= bits -> bits <= 32 * zlen w1 -> bits <= 32 * zlen w2 ->
  wp (__bitmap_empty b1 bits)
    (fun r h' => h' = h /\ truth r (forall i, 0 <= i < bits -> bm_bit w1 i = false)) h /\
  wp (__bitmap_full b1 bits)
    (fun r h' => h' = h /\ truth r (forall i, 0 <= i < bits -> bm_bit w1 i = true)) h /\
  wp (__bitmap_equal b1 b2 bits)
    (fun r h' => h' = h /\ truth r (forall i, 0 <= i < bits -> bm_bit w1 i = bm_bit w2 i)) h /\
  wp (__bitmap_intersects b1 b2 bits)
    (fun r h' => h' = h /\
       truth r (exists i, 0 <= i < bits /\ bm_bit w1 i = true /\ bm_bit w2 i = true)) h /\
  wp (__bitmap_subset b1 b2 bits)
    (fun r h' => h' = h /\
       truth r (forall i, 0 <= i < bits -> bm_bit w1 i = true -> bm_bit w2 i = true)) h.
Proof.
  intros. split; [by apply bitmap_empty_spec|]. split; [by apply bitmap_full_spec|].
  split; [by apply bitmap_equal_spec|]. split; [by apply bitmap_intersects_spec|by apply bitmap_subset_spec].
Qed.

Definition demo_mem : mem := {[1%positive := [0xF0; 0x80000003]; 2%positive := [0xFF; 0x3]]}.

Ltac demo_side :=
  first [reflexivity | (repeat constructor; done) | lia | (vm_compute; congruence)].

Lemma bitmap_predicates_correct_witness :
  __bitmap_subset 1%positive 2%positive 40 demo_mem = Some (1, demo_mem) /\
  wp (__bitmap_subset 1%positive 2%positive 40)
    (fun r h' => h' = demo_mem /\ truth r (forall i, 0 <= i < 40 ->
       bm_bit [0xF0; 0x80000003] i = true -> bm_bit [0xFF; 0x3] i = true)) demo_mem.
Proof.
  split; [vm_compute; reflexivity|].
  apply (bitmap_predicates_correct 1%positive 2%positive [0xF0; 0x80000003] [0xFF; 0x3] 40 demo_mem); demo_side.
Defined.

(** [__bitmap_and], [__bitmap_or], [__bitmap_xor], [__bitmap_andnot] and
    [__bitmap_complement] compute the bitwise operation into [dst] even when
    [dst] is one of the operands, write nothing outside the bitmap's words, and
    the complement leaves the unused bits of the last word clear. *)
Theorem bitmap_logic_correct dst b1 b2 wd w1 w2 bits (h : mem) :
  h !! dst = Some wd -> h !! b1 = Some w1 -> h !! b2 = Some w2 ->
  words wd -> words w1 -> words w2 ->
  0 <= bits -> bits <= 32 * zlen wd -> bits <= 32 * zlen w1 -> bits <= 32 * zlen w2 ->
  let all := 32 * BITS_TO_LONGS bits in
  wp (__bitmap_and dst b1 b2 bits)
    (fun _ h' => result_bits h dst wd all (fun i => bm_bit w1 i && bm_bit w2 i) h') h /\
  wp (__bitmap_or dst b1 b2 bits)
    (fun _ h' => result_bits h dst wd all (fun i => bm_bit w1 i || bm_bit w2 i) h') h /\
  wp (__bitmap_xor dst b1 b2 bits)
    (fun _ h' => result_bits h dst wd all (fun i => xorb (bm_bit w1 i) (bm_bit w2 i)) h') h /\
  wp (__bitmap_andnot dst b1 b2 bits)
    (fun _ h' => result_bits h dst wd all (fun i => bm_bit w1 i && negb (bm_bit w2 i)) h') h /\
  wp (__bitmap_complement dst b1 bits)
    (fun _ h' => result_bits h dst wd all (fun i => (i <? bits) && negb (bm_bit w1 i)) h') h.
Proof.
  intros. repeat split.
  - apply (map2_words_spec dst b1 b2 wd w1 w2 bits h); eauto using Z.land_spec with uint.
  - apply (map2_words_spec dst b1 b2 wd w1 w2 bits h); eauto using Z.lor_spec with uint.
  - apply (map2_words_spec dst b1 b2 wd w1 w2 bits h); eauto using Z.lxor_spec with uint.
  - apply (map2_words_spec dst b1 b2 wd w1 w2 bits h) with (f := fun x y => x && negb y); eauto with uint.
    intros x y n Hn. by rewrite Z.land_spec, testbit_not32, ltb_t by lia.
  - by apply bitmap_complement_spec.
Qed.

Lemma bitmap_logic_correct_witness :
  __bitmap_xor 1%positive 1%positive 2%positive 40 demo_mem
    = Some (tt, {[1%positive := [0x0F; 0x80000000]; 2%positive := [0xFF; 0x3]]}) /\
  wp (__bitmap_xor 1%positive 1%positive 2%positive 40)
    (fun _ h' => result_bits demo_mem 1%positive [0xF0; 0x80000003] (32 * BITS_TO_LONGS 40)
       (fun i => xorb (bm_bit [0xF0; 0x80000003] i) (bm_bit [0xFF; 0x3] i)) h') demo_mem.
Proof.
  split; [vm_compute; reflexivity|].
  apply (bitmap_logic_correct 1%positive 1%positive 2%positive [0xF0; 0x80000003] [0xF0; 0x80000003]
    [0xFF; 0x3] 40 demo_mem); demo_side.
Defined.

(** The word-wise shifts move bit [i + shift] to bit [i] (right) and bit
    [i - shift] to bit [i] (left), feed zeros, ignore garbage above [bits] in the
    source and leave every bit of the last word above [bits] clear, also in place. *)
Theorem bitmap_shift_correct dst src wd ws shift bits (h : mem) :
  h !! dst = Some wd -> h !! src = Some ws -> words wd -> words ws ->
  0 <= bits -> bits <= 32 * zlen wd -> bits <= 32 * zlen ws ->
  0 <= shift -> shift / 32 <= BITS_TO_LONGS bits ->
  let all := 32 * BITS_TO_LONGS bits in
  wp (__bitmap_shift_right dst src shift bits) (fun _ h' =>
    result_bits h dst wd all (fun i => (i + shift <? bits) && bm_bit ws (i + shift)) h') h /\
  wp (__bitmap_shift_left dst src shift bits) (fun _ h' =>
    result_bits h dst wd all (fun i => (i <? bits) && ((shift <=? i) && bm_bit ws (i - shift))) h') h.
Proof. intros. split; [by apply bitmap_shift_right_spec|by apply bitmap_shift_left_spec]. Qed.

Lemma bitmap_shift_correct_witness :
  __bitmap_shift_left 1%positive 1%positive 5 40 demo_mem
    = Some (tt, {[1%positive := [0x1E00; 0x60]; 2%positive := [0xFF; 0x3]]}) /\
  wp (__bitmap_shift_left 1%positive 1%positive 5 40) (fun _ h' =>
    result_bits demo_mem 1%positive [0xF0; 0x80000003] (32 * BITS_TO_LONGS 40)
      (fun i => (i <? 40) && ((5 <=? i) && bm_bit [0xF0; 0x80000003] (i - 5))) h') demo_mem.
Proof.
  split; [vm_compute; reflexivity|].
  apply (bitmap_shift_correct 1%positive 1%positive [0xF0; 0x80000003] [0xF0; 0x80000003] 5 40 demo_mem);
    demo_side.
Defined.

(** [__bitmap_weight] returns the number of set bits among the first [bits]. *)
Theorem bitmap_weight_correct b ws bits (h : mem) :
  h !! b = Some ws -> words ws -> 0 <= bits <= 32 * zlen ws ->
  wp (__bitmap_weight b bits) (fun r h' => h' = h /\ r = count (bm_bit ws) 0 (Z.to_nat bits)) h.
Proof. apply bitmap_weight_spec. Qed.

Lemma bitmap_weight_correct_witness :
  wp (__bitmap_weight 1%positive 40) (fun r h' => h' = demo_mem /\
    r = count (bm_bit [0xF0; 0x80000003]) 0 (Z.to_nat 40)) demo_mem.
Proof. apply bitmap_weight_correct; demo_side. Defined.

(** C4. The region allocator: [bitmap_find_free_region] allocates the lowest
    free aligned region of [2^order] bits, or returns [-ENOMEM] without a change
    exactly when there is none, for orders up to 30 and bitmaps of at most
    [INT_MAX - 2^order] bits, so that no [int] of the search overflows. *)
Theorem bitmap_find_free_region_correct b ws (h : mem) order bits :
  h !! b = Some ws -> words ws -> 0 <= order <= 30 -> bits <= 32 * zlen ws -> bits <= INT_MAX - 2 ^ order ->
  wp (bitmap_find_free_region b bits order) (fun r h' =>
    (0 <= r /\ r mod 2 ^ order = 0 /\ r + 2 ^ order <= bits /\ region_free r order ws /\
     (forall p, 0 <= p < r -> p mod 2 ^ order = 0 -> ~ region_free p order ws) /\
     allocated b ws h order r h') \/
    (r = - ENOMEM /\ h' = h /\
     forall p, 0 <= p -> p mod 2 ^ order = 0 -> p + 2 ^ order <= bits -> ~ region_free p order ws)) h.
Proof. intros. by apply bitmap_find_free_region_spec. Qed.

Lemma bitmap_find_free_region_correct_witness :
  bitmap_find_free_region 1%positive 64 3 demo_mem
    = Some (8, {[1%positive := [0xFFF0; 0x80000003]; 2%positive := [0xFF; 0x3]]}) /\
  wp (bitmap_find_free_region 1%positive 64 3) (fun r h' =>
    (0 <= r /\ r mod 2 ^ 3 = 0 /\ r + 2 ^ 3 <= 64 /\ region_free r 3 [0xF0; 0x80000003] /\
     (forall p, 0 <= p < r -> p mod 2 ^ 3 = 0 -> ~ region_free p 3 [0xF0; 0x80000003]) /\
     allocated 1%positive [0xF0; 0x80000003] demo_mem 3 r h') \/
    (r = - ENOMEM /\ h' = demo_mem /\
     forall p, 0 <= p -> p mod 2 ^ 3 = 0 -> p + 2 ^ 3 <= 64 -> ~ region_free p 3 [0xF0; 0x80000003])) demo_mem.
Proof.
  split; [vm_compute; reflexivity|].
  apply (bitmap_find_free_region_correct 1%positive [0xF0; 0x80000003] demo_mem 3 64); demo_side.
Defined.

(** For the order 31 the size [1 << order] is negative: the search takes any
    bitmap for large enough and shifts by a count out of range. *)
Theorem find_free_region_order_31 b bits (h : mem) :
  - 2 ^ 31 <= bits -> bitmap_find_free_region b bits 31 h = None.
Proof.
  intros Hb. unfold bitmap_find_free_region. rewrite while_S. change (shift_count 31) with true. cbn [negb].
  change (s32 (0 + s32 (Z.shiftl 1 31))) with (- 2 ^ 31). by rewrite (proj2 (Z.leb_le _ _)).
Qed.

(** [bitmap_allocate_region] fails with [-EBUSY] and no change when a bit of
    the region is set; otherwise it sets exactly the region, and a following
    [bitmap_release_region] restores every bit of the bitmap. *)
Theorem bitmap_allocate_release b ws (h : mem) pos order :
  h !! b = Some ws -> words ws -> 0 <= order <= 30 -> 0 <= pos -> pos mod 2 ^ order = 0 ->
  pos + 2 ^ order <= 32 * zlen ws ->
  wp (let* r := bitmap_allocate_region b pos order in
      (if r =? 0 then bitmap_release_region b pos order else ret tt) ;; ret r)
    (fun r h' => (r = - EBUSY /\ ~ region_free pos order ws /\ h' = h) \/
      (r = 0 /\ region_free pos order ws /\
       exists ws', h' = <[b := ws']> h /\ zlen ws' = zlen ws /\ words ws' /\
         forall j, 0 <= j -> bm_bit ws' j = bm_bit ws j)) h.
Proof.
  intros Hb Hw Ho Hp Ha Hl. wp_step. eapply wp_mono; [by apply bitmap_allocate_region_spec|].
  intros r h' [(-> & Hf & ws1 & -> & Hl1 & Hw1 & Hb1)|(-> & Hf & ->)]; cbv beta; cbn [Z.eqb Z.opp].
  - wp_step. eapply wp_mono.
    + apply bitmap_release_region_spec with (ws := ws1); [by rewrite lookup_insert_eq|done..|lia].
    + intros [] h' (ws2 & -> & Hl2 & Hw2 & Hb2). cbv beta. wp_step. right. split; [done|]. split; [done|].
      exists ws2. rewrite insert_insert_eq. split; [done|]. split; [lia|]. split; [done|].
      intros j Hj. rewrite Hb2, Hb1 by done. destruct (in_region pos order j) eqn:E; simpl.
      * rewrite andb_false_r. symmetry. by apply Hf.
      * by rewrite orb_false_r, andb_true_r.
  - change (- EBUSY =? 0) with false. cbv iota. do 3 wp_step. by left.
Qed.

Lemma bitmap_allocate_release_witness :
  wp (let* r := bitmap_allocate_region 1%positive 8 3 in
      (if r =? 0 then bitmap_release_region 1%positive 8 3 else ret tt) ;; ret r)
    (fun r h' => (r = - EBUSY /\ ~ region_free 8 3 [0xF0; 0x80000003] /\ h' = demo_mem) \/
      (r = 0 /\ region_free 8 3 [0xF0; 0x80000003] /\
       exists ws', h' = <[1%positive := ws']> demo_mem /\ zlen ws' = zlen [0xF0; 0x80000003] /\ words ws' /\
         forall j, 0 <= j -> bm_bit ws' j = bm_bit [0xF0; 0x80000003] j)) demo_mem.
Proof. apply bitmap_allocate_release; demo_side. Defined.
