(* ===== verification/BitmapMap.v ===== *)
(** * Ordinal maps between bitmaps

    The second half of [lib/bitmap.c]: [bitmap_pos_to_ord], [bitmap_ord_to_pos],
    [bitmap_remap], [bitmap_bitremap], [bitmap_onto] and [bitmap_fold].  They use
    the bit searches only through the promises of the class [FindBit], and are
    specified by the rank ([count] of the set bits below a position) and the
    n-th set bit. *)

From Stdlib Require Import ZArith Lia.
From stdpp Require Import base tactics numbers list gmap option.
From S2P Require Import Prelude Bits FindBit Bitmap.

(** ** Operations *)
Section Ops.
Context (find_first : block -> Z -> C Z) (find_next : block -> Z -> Z -> C Z).

(** [for (i = find_first_bit(map, bits); i < bits; i = find_next_bit(map, bits, i + 1))],
    with a loop variable [x] of the body. *)
Definition for_each_set {X} (map : block) (bits : Z) (body : Z -> X -> C X) (x : X) : C X :=
  let* i := find_first map bits in
  while (S (Z.to_nat bits)) (fun '(i, x) =>
    if i <? bits
    then let* x' := body i x in
         let* i' := find_next map bits (i + 1) in
         ret (inl (i', x'))
    else ret (inr x)) (i, x).

Definition bitmap_pos_to_ord (buf : block) (pos bits : Z) : C Z :=
  let* bad :=
    (if (pos <? 0) || (bits <=? pos) then ret true
     else let* b := test_bit pos buf in ret (negb b)) in
  if (bad : bool) then ret (-1)
  else
    let* i := find_first buf bits in
    let* '(i, ord) := while (S (Z.to_nat bits)) (fun '(i, ord) =>
      if i <? pos
      then let* i' := find_next buf bits (i + 1) in ret (inl (i', ord + 1))
      else ret (inr (i, ord))) (i, 0) in
    (* BUG_ON(i != pos) *)
    if negb (i =? pos) then fault else ret ord.

Definition bitmap_ord_to_pos (buf : block) (ord bits : Z) : C Z :=
  if (0 <=? ord) && (ord <? bits)
  then
    let* i := find_first buf bits in
    let* '(i, ord) := while (S (Z.to_nat bits)) (fun '(i, ord) =>
      if (i <? bits) && (0 <? ord)
      then let* i' := find_next buf bits (i + 1) in ret (inl (i', ord - 1))
      else ret (inr (i, ord))) (i, ord) in
    ret (if (i <? bits) && (ord =? 0) then i else 0)
  else ret 0.

Definition bitmap_remap (dst src old new : block) (bits : Z) : C unit :=
  if bool_decide (dst = src) then ret tt
  else
    bitmap_zero dst bits ;;
    let* w := __bitmap_weight new bits in
    for_each_set src bits (fun oldbit _ =>
      let* n := bitmap_pos_to_ord old oldbit bits in
      if (n <? 0) || (w =? 0) then set_bit oldbit dst
      else let* p := bitmap_ord_to_pos new (n mod w) bits in set_bit p dst) tt.

Definition bitmap_bitremap (oldbit : Z) (old new : block) (bits : Z) : C Z :=
  let* w := __bitmap_weight new bits in
  let* n := bitmap_pos_to_ord old oldbit bits in
  if (n <? 0) || (w =? 0) then ret oldbit
  else bitmap_ord_to_pos new (n mod w) bits.

Definition bitmap_onto (dst orig relmap : block) (bits : Z) : C unit :=
  if bool_decide (dst = orig) then ret tt
  else
    bitmap_zero dst bits ;;
    let* _ := for_each_set relmap bits (fun n m =>
      let* b := test_bit m orig in
      (if (b : bool) then set_bit n dst else ret tt) ;;
      ret (m + 1)) 0 in
    ret tt.

Definition bitmap_fold (dst orig : block) (sz bits : Z) : C unit :=
  if bool_decide (dst = orig) then ret tt
  else
    bitmap_zero dst bits ;;
    for_each_set orig bits (fun oldbit _ => set_bit (oldbit mod sz) dst) tt.
End Ops.

(** ** Rank and selection *)
Definition rank (f : Z -> bool) (i : Z) : Z := count f 0 (Z.to_nat i).

(** [p] is the [n]-th (from 0) set position of the first [bits]. *)
Definition is_nth (f : Z -> bool) (bits n p : Z) : Prop :=
  0 <= p < bits /\ f p = true /\ rank f p = n.

Lemma rank_split f i j : 0 <= i <= j -> rank f j = rank f i + count f i (Z.to_nat (j - i)).
Proof.
  intros. unfold rank. replace (Z.to_nat j) with (Z.to_nat i + Z.to_nat (j - i))%nat by lia.
  rewrite count_app. do 2 f_equal. lia.
Qed.

(** Stepping from one set bit to the next raises the rank by one. *)
Lemma rank_next f i j :
  0 <= i < j -> f i = true -> (forall k, i < k < j -> f k = false) -> rank f j = rank f i + 1.
Proof.
  intros Hij Hi Hz. rewrite (rank_split f i j) by lia. f_equal.
  replace (Z.to_nat (j - i)) with (1 + Z.to_nat (j - i - 1))%nat by lia.
  rewrite count_app. simpl. rewrite Hi, count_zero; [done|]. intros k Hk. apply Hz. lia.
Qed.

Lemma rank_first f j : (forall k, 0 <= k < j -> f k = false) -> rank f j = 0.
Proof. intros H. apply count_zero. intros. apply H. lia. Qed.

Lemma rank_bounds f i : 0 <= i -> 0 <= rank f i <= i.
Proof. intros. pose proof (count_bounds f 0 (Z.to_nat i)). unfold rank. lia. Qed.

Lemma rank_mono f i j : 0 <= i <= j -> rank f i <= rank f j.
Proof. intros. rewrite (rank_split f i j) by lia. pose proof (count_bounds f i (Z.to_nat (j - i))). lia. Qed.

Lemma rank_lt f i j : 0 <= i < j -> f i = true -> rank f i < rank f j.
Proof.
  intros Hij Hi. rewrite (rank_split f i j) by lia.
  replace (Z.to_nat (j - i)) with (1 + Z.to_nat (j - i - 1))%nat by lia.
  rewrite count_app. cbn [count]. rewrite Hi.
  pose proof (count_bounds f (i + Z.of_nat 1) (Z.to_nat (j - i - 1))). cbn [Z.b2z]. lia.
Qed.

Lemma is_nth_unique f bits n p q : is_nth f bits n p -> is_nth f bits n q -> p = q.
Proof.
  intros (Hp & Hfp & Hrp) (Hq & Hfq & Hrq).
  destruct (Z.lt_trichotomy p q) as [H|[H|H]]; [|done|].
  - pose proof (rank_lt f p q ltac:(lia) Hfp). lia.
  - pose proof (rank_lt f q p ltac:(lia) Hfq). lia.
Qed.

(** The position that [bitmap_remap] gives to bit [i]. *)
Definition remaps (old new : Z -> bool) (bits i j : Z) : Prop :=
  if (0 <=? i) && (i <? bits) && old i && negb (rank new bits =? 0)
  then is_nth new bits (rank old i mod rank new bits) j
  else j = i.

Lemma is_nth_exists f bits n : 0 <= bits -> 0 <= n < rank f bits -> exists p, is_nth f bits n p.
Proof.
  intros Hb. rewrite <- (Z2Nat.id bits) by done. induction (Z.to_nat bits) as [|b IH]; intros Hn.
  - unfold rank in Hn. simpl in Hn. lia.
  - rewrite Nat2Z.inj_succ in *. pose proof (rank_split f (Z.of_nat b) (Z.succ (Z.of_nat b)) ltac:(lia)) as E.
    replace (Z.to_nat (Z.succ (Z.of_nat b) - Z.of_nat b)) with 1%nat in E by lia. cbn [count] in E.
    destruct (Z.lt_ge_cases n (rank f (Z.of_nat b))).
    + destruct IH as (p & ? & ? & ?); [lia|]. exists p. split; [lia|done].
    + destruct (f (Z.of_nat b)) eqn:Ef; cbn [Z.b2z] in E; [|lia].
      exists (Z.of_nat b). split; [lia|]. split; [done|]. lia.
Qed.

Lemma is_nth_rank f bits n p : is_nth f bits n p -> 0 <= n < rank f bits.
Proof.
  intros (Hp & Hf & <-). pose proof (rank_bounds f p ltac:(lia)). pose proof (rank_lt f p bits ltac:(lia) Hf). lia.
Qed.

(** ** A destination bitmap that holds exactly a set of positions *)
Definition holds_set (h : mem) (dst : block) (wd : list Z) (bits : Z) (P : Z -> Prop) (h' : mem) : Prop :=
  exists wd', h' = <[dst := wd']> h /\ zlen wd' = zlen wd /\ words wd' /\
    (forall j, 0 <= j < 32 * BITS_TO_LONGS bits -> bm_bit wd' j = true <-> P j) /\
    (forall k, BITS_TO_LONGS bits <= k -> at_ wd' k = at_ wd k).

Section HoldsSet.
Context (h : mem) (dst : block) (wd : list Z) (bits : Z).
Context (Hd : h !! dst = Some wd) (Hwd : words wd) (Hbits : 0 <= bits) (Hld : bits <= 32 * zlen wd).

Lemma lim_bounds : 0 <= BITS_TO_LONGS bits <= zlen wd /\ bits <= 32 * BITS_TO_LONGS bits.
Proof using Hbits Hld. unfold BITS_TO_LONGS, BITS_PER_LONG. dlia. Qed.

Lemma bitmap_zero_spec :
  wp (bitmap_zero dst bits) (fun _ h' => holds_set h dst wd bits (fun _ => False) h') h.
Proof using Hd Hwd Hbits Hld.
  pose proof lim_bounds. unfold bitmap_zero. eapply wp_mono; [eapply memset_spec; [exact Hd|lia..]|].
  intros [] h' (wd' & -> & Hl & Hin & Hout). exists wd'. split; [done|]. split; [done|]. split; [|split].
  - apply Forall_by_at. intros k Hk. destruct (Z.lt_ge_cases k (BITS_TO_LONGS bits)).
    + rewrite Hin by lia. by apply uint_0.
    + rewrite Hout by lia. eauto with uint.
  - intros j Hj. unfold bm_bit, BITS_PER_LONG. rewrite Hin, Z.bits_0 by dlia. done.
  - intros k Hk. apply Hout. lia.
Qed.

Lemma holds_set_iff P Q h' :
  (forall j, 0 <= j < 32 * BITS_TO_LONGS bits -> P j <-> Q j) ->
  holds_set h dst wd bits P h' -> holds_set h dst wd bits Q h'.
Proof.
  intros HPQ (wd' & ? & ? & ? & Hb & ?). exists wd'. do 3 (split; [done|]). split; [|done].
  intros j Hj. by rewrite Hb, HPQ.
Qed.

Lemma holds_set_add P h' n :
  holds_set h dst wd bits P h' -> 0 <= n < bits ->
  wp (set_bit n dst) (fun _ h'' => holds_set h dst wd bits (fun j => P j \/ j = n) h'') h'.
Proof using Hbits Hld.
  pose proof lim_bounds. intros (wd' & -> & Hl & Hw & Hb & Hout) Hn.
  eapply wp_mono; [apply set_bit_spec with (ws := wd'); [by rewrite lookup_insert_eq|lia]|].
  intros [] h'' ->. rewrite insert_insert_eq. exists (bm_set wd' n).
  split; [done|]. split; [by rewrite zlen_bm_set|]. split; [by apply words_bm_set|]. split.
  - intros j Hj. rewrite bm_bit_set by lia. rewrite <- Hb by done.
    rewrite orb_true_iff, Z.eqb_eq. done.
  - intros k Hk. rewrite <- Hout by done. apply at_upd_ne; unfold BITS_PER_LONG; dlia.
Qed.

Lemma holds_set_other P h' b w : b <> dst -> h !! b = Some w -> holds_set h dst wd bits P h' -> h' !! b = Some w.
Proof. intros Hne Hb (wd' & -> & _). by rewrite lookup_insert_ne. Qed.
End HoldsSet.

(** ** The loops over set bits *)
Section Specs.
Context (find_first : block -> Z -> C Z) (find_next : block -> Z -> Z -> C Z)
        {HFB : FindBit find_first find_next}.

Lemma for_each_set_spec {X} (map : block) ws bits (body : Z -> X -> C X) x (h : mem)
    (I : Z -> X -> mem -> Prop) :
  words ws -> uint 32 bits -> bits <= 32 * zlen ws ->
  (forall i x h, I i x h -> h !! map = Some ws) ->
  (forall i j x h, 0 <= i <= j -> j <= bits -> (forall k, i <= k < j -> bm_bit ws k = false) ->
     I i x h -> I j x h) ->
  (forall i x h, 0 <= i < bits -> bm_bit ws i = true -> I i x h ->
     wp (body i x) (fun x' h' => I (i + 1) x' h') h) ->
  I 0 x h ->
  wp (for_each_set find_first find_next map bits body x) (fun x' h' => I bits x' h') h.
Proof using HFB.
  intros Hw Hu Hl Hmap Hskip Hbody HI. unfold for_each_set. wp_step.
  eapply wp_mono; [apply find_first_ok; eauto|]. intros i h' [-> Hf]. cbv beta.
  apply (wp_while (fun '(i, x) h' => 0 <= i <= bits /\ (i < bits -> bm_bit ws i = true) /\ I i x h')
    _ (fun '(i, _) => Z.to_nat (bits - i))).
  - unfold first_from in Hf. destruct (Z.ltb_spec 0 bits).
    + destruct Hf as (? & Hz & Hs). split; [lia|]. split; [done|]. eapply Hskip; [| | |exact HI]; [lia|lia|done].
    + unfold uint in Hu. subst i. replace bits with 0 in * by lia. split; [lia|]. split; [lia|done].
  - unfold first_from in Hf. unfold uint in Hu. destruct (Z.ltb_spec 0 bits); lia.
  - intros [k y] h' (Hk & Hs & HI'). wp_step; b2p.
    + wp_step. eapply wp_mono; [apply Hbody; [lia|by apply Hs|done]|].
      intros y' h'' HI''. cbv beta. wp_step. eapply wp_mono; [apply find_next_ok; eauto; lia|].
      intros r h''' [-> Hr]. cbv beta. wp_step. unfold first_from in Hr. destruct (Z.ltb_spec (k + 1) bits).
      * destruct Hr as (? & Hz & Hr). split; [|lia]. split; [lia|]. split; [done|].
        eapply Hskip; [| | |exact HI'']; [lia|lia|done].
      * subst r. split; [|lia]. split; [lia|]. split; [lia|]. by replace bits with (k + 1) by lia.
    + wp_step. by replace bits with k by lia.
Qed.

Section Ordinals.
Context (buf : block) (ws : list Z) (bits : Z) (h : mem).
Context (Hb : h !! buf = Some ws) (Hw : words ws) (Hu : uint 32 bits) (Hl : bits <= 32 * zlen ws).
Let f := bm_bit ws.

Lemma pos_to_ord_spec pos :
  wp (bitmap_pos_to_ord find_first find_next buf pos bits)
    (fun r h' => h' = h /\ r = if (0 <=? pos) && (pos <? bits) && f pos then rank f pos else -1) h.
Proof using HFB Hb Hw Hu Hl.
  unfold bitmap_pos_to_ord. wp_step.
  destruct ((pos <? 0) || (bits <=? pos)) eqn:E.
  { do 2 wp_step. split; [done|]. b2p.
    destruct E as [E|E]; b2p; destruct (Z.leb_spec 0 pos), (Z.ltb_spec pos bits); done || lia. }
  b2p. wp_step. eapply wp_mono; [by apply test_bit_spec; [exact Hb|lia]|]. intros r h' [-> ->]. cbv beta.
  wp_step. fold f. destruct (f pos) eqn:Ef; cbn [negb].
  2: { wp_step. by rewrite andb_false_r. }
  rewrite (proj2 (Z.leb_le 0 pos)), (ltb_t pos bits) by lia. cbn [andb].
  wp_step. eapply wp_mono; [apply find_first_ok; eauto|]. intros i h' [-> Hf]. cbv beta.
  unfold first_from in Hf. rewrite ltb_t in Hf by lia. destruct Hf as (? & Hz & Hs).
  assert (Hle : i <= pos) by (destruct (Z.lt_ge_cases pos i) as [Hlt|]; [|lia]; unfold f in Ef; by rewrite Hz in Ef by lia).
  wp_step. eapply wp_mono.
  - apply (wp_while (fun '(i, ord) h' => h' = h /\ 0 <= i <= pos /\ f i = true /\ ord = rank f i)
      (fun '(i, ord) h' => h' = h /\ i = pos /\ ord = rank f pos)
      (fun '(i, _) => Z.to_nat (pos - i))).
    + split; [done|]. split; [lia|]. split; [apply Hs; lia|]. symmetry. by apply rank_first.
    + lia.
    + intros [k o] h' (-> & Hk & Hfk & ->). wp_step; b2p.
      * wp_step. eapply wp_mono; [apply find_next_ok; eauto; lia|]. intros r h' [-> Hr]. cbv beta. wp_step.
        unfold first_from in Hr. rewrite ltb_t in Hr by lia. destruct Hr as (? & Hzr & Hsr).
        assert (r <= pos) by (destruct (Z.lt_ge_cases pos r) as [Hlt|]; [|lia]; unfold f in Ef; by rewrite Hzr in Ef by lia).
        split; [|lia]. split; [done|]. split; [lia|]. split; [apply Hsr; lia|].
        symmetry. apply rank_next; [lia|done|]. intros j Hj. apply Hzr. lia.
      * wp_step. split; [done|]. replace k with pos by lia. done.
  - intros [k o] h' (-> & -> & ->). cbv beta. rewrite Z.eqb_refl. cbn [negb]. by wp_step.
Qed.

Lemma ord_to_pos_spec ord :
  wp (bitmap_ord_to_pos find_first find_next buf ord bits)
    (fun r h' => h' = h /\ (is_nth f bits ord r \/ (r = 0 /\ forall p, ~ is_nth f bits ord p))) h.
Proof using HFB Hb Hw Hu Hl.
  unfold bitmap_ord_to_pos. destruct ((0 <=? ord) && (ord <? bits)) eqn:E.
  2: { wp_step. split; [done|]. right. split; [done|]. intros p Hp. pose proof (is_nth_rank _ _ _ _ Hp).
       pose proof (rank_bounds f bits (proj1 Hu)). b2p. destruct E; b2p; lia. }
  b2p. wp_step. eapply wp_mono; [apply find_first_ok; eauto|]. intros i h' [-> Hf]. cbv beta.
  unfold first_from in Hf. rewrite ltb_t in Hf by lia. destruct Hf as (? & Hz & Hs).
  wp_step. eapply wp_mono.
  - apply (wp_while (fun '(i, o) h' => h' = h /\ 0 <= i <= bits /\ (i < bits -> f i = true) /\ 0 <= o /\
        o + rank f i = ord)
      (fun '(i, o) h' => h' = h /\ 0 <= i <= bits /\ (i < bits -> f i = true) /\ 0 <= o /\
        o + rank f i = ord /\ (i = bits \/ o = 0))
      (fun '(i, _) => Z.to_nat (bits - i))).
    + split; [done|]. split; [lia|]. split; [done|]. split; [lia|]. unfold f. rewrite rank_first; [lia|done].
    + lia.
    + intros [k o] h' (-> & Hk & Hfk & Ho & Hr). wp_step; b2p.
      * wp_step. eapply wp_mono; [apply find_next_ok; eauto; lia|]. intros r h' [-> Hn]. cbv beta. wp_step.
        assert (HG : k < r <= bits /\ (forall j, k < j < r -> f j = false) /\ (r < bits -> f r = true)).
        { unfold first_from in Hn. destruct (Z.ltb_spec (k + 1) bits).
          - destruct Hn as (? & Hzr & Hsr). split; [lia|]. split; [|done]. intros j Hj. apply Hzr. lia.
          - split; [lia|]. split; [lia|lia]. }
        destruct HG as (? & Hzr & Hsr). split; [|lia]. split; [done|]. split; [lia|]. split; [done|].
        split; [lia|]. rewrite (rank_next f k r); [lia|lia|apply Hfk; lia|done].
      * wp_step. do 5 (split; [done|]). destruct (Z.eq_dec k bits); [by left|right].
        destruct E; b2p; lia.
  - intros [k o] h' (-> & Hk & Hfk & Ho & Hr & Hend). cbv beta. wp_step. split; [done|].
    destruct ((k <? bits) && (o =? 0)) eqn:E'; b2p.
    + left. split; [lia|]. split; [apply Hfk; lia|lia].
    + right. split; [done|]. intros p Hp. pose proof (is_nth_rank _ _ _ _ Hp).
      assert (k = bits) as -> by (destruct E'; b2p; lia). lia.
Qed.

Lemma ord_to_pos_total ord : 0 <= ord < rank f bits ->
  wp (bitmap_ord_to_pos find_first find_next buf ord bits) (fun r h' => h' = h /\ is_nth f bits ord r) h.
Proof using HFB Hb Hw Hu Hl.
  intros Ho. eapply wp_mono; [apply ord_to_pos_spec|]. intros r h' [-> [Hn|[-> Hn]]]; [done|].
  destruct (is_nth_exists f bits ord (proj1 Hu) Ho) as [p Hp]. by destruct (Hn p).
Qed.
End Ordinals.

Section Maps.
Context (dst src old new : block) (wd ws wo wn : list Z) (bits : Z) (h : mem).
Context (Hd : h !! dst = Some wd) (Hs : h !! src = Some ws) (Ho : h !! old = Some wo) (Hn : h !! new = Some wn).
Context (Hwd : words wd) (Hws : words ws) (Hwo : words wo) (Hwn : words wn).
Context (Hu : uint 32 bits) (Hld : bits <= 32 * zlen wd) (Hls : bits <= 32 * zlen ws)
        (Hlo : bits <= 32 * zlen wo) (Hln : bits <= 32 * zlen wn).

(** Where [bitmap_remap] and [bitmap_bitremap] send one bit, in any state that
    still holds [old] and [new]. *)
Lemma remap_bit {A} i (k : Z -> C A) (Q : A -> mem -> Prop) (h' : mem) :
  h' !! old = Some wo -> h' !! new = Some wn ->
  (forall p, remaps (bm_bit wo) (bm_bit wn) bits i p -> wp (k p) Q h') ->
  wp (let* n := bitmap_pos_to_ord find_first find_next old i bits in
      if (n <? 0) || (rank (bm_bit wn) bits =? 0) then k i
      else let* p := bitmap_ord_to_pos find_first find_next new (n mod rank (bm_bit wn) bits) bits in k p)
    Q h'.
Proof using HFB Hwo Hwn Hu Hlo Hln.
  intros Ho' Hn' HQ. set (w := rank (bm_bit wn) bits) in *.
  assert (0 <= w) by (apply (rank_bounds _ _ (proj1 Hu))).
  wp_step. eapply wp_mono; [by apply pos_to_ord_spec|]. intros n h'' [-> ->]. cbv beta.
  unfold remaps in HQ. fold w in HQ.
  destruct ((0 <=? i) && (i <? bits) && bm_bit wo i) eqn:E; cbn [andb] in HQ.
  - b2p. pose proof (rank_bounds (bm_bit wo) i ltac:(lia)). rewrite (ltb_f (rank _ i) 0) by lia. cbn [orb].
    destruct (w =? 0) eqn:Ew; b2p; cbn [negb] in HQ; [by apply HQ|].
    wp_step. eapply wp_mono; [apply ord_to_pos_total; [done..|]|].
    + apply Z.mod_pos_bound. lia.
    + intros p h'' [-> Hp]. cbv beta. by apply HQ.
  - apply HQ. done.
Qed.

Lemma bitmap_bitremap_spec i :
  wp (bitmap_bitremap find_first find_next i old new bits)
    (fun r h' => h' = h /\ remaps (bm_bit wo) (bm_bit wn) bits i r) h.
Proof using HFB Ho Hn Hwo Hwn Hu Hlo Hln.
  unfold bitmap_bitremap. wp_step.
  eapply wp_mono; [apply bitmap_weight_spec; [exact Hn|done|destruct Hu; lia]|].
  intros w h' [-> ->]. cbv beta. fold (rank (bm_bit wn) bits).
  assert (G : wp (let* n := bitmap_pos_to_ord find_first find_next old i bits in
      if (n <? 0) || (rank (bm_bit wn) bits =? 0) then ret i
      else let* p := bitmap_ord_to_pos find_first find_next new (n mod rank (bm_bit wn) bits) bits in ret p)
    (fun r h' => h' = h /\ remaps (bm_bit wo) (bm_bit wn) bits i r) h).
  { apply (remap_bit i ret); [done..|]. intros p Hp. by wp_step. }
  destruct G as (a & s & Hr & HQ). exists a, s. split; [|done]. rewrite <- Hr.
  unfold bind. destruct (bitmap_pos_to_ord _ _ _ _ _ _) as [[n s']|]; [|done].
  destruct (_ || _); [done|]. by destruct (bitmap_ord_to_pos _ _ _ _ _ _) as [[? ?]|].
Qed.

Lemma remaps_range i p : 0 <= i < bits -> remaps (bm_bit wo) (bm_bit wn) bits i p -> 0 <= p < bits.
Proof. unfold remaps. intros Hi. destruct (_ && _); [by intros (? & _)|lia]. Qed.

Lemma bitmap_remap_spec :
  dst <> src -> dst <> old -> dst <> new ->
  wp (bitmap_remap find_first find_next dst src old new bits) (fun _ h' =>
    holds_set h dst wd bits (fun j => exists i, 0 <= i < bits /\ bm_bit ws i = true /\
      remaps (bm_bit wo) (bm_bit wn) bits i j) h') h.
Proof using HFB Hd Hs Ho Hn Hwd Hws Hwo Hwn Hu Hld Hls Hlo Hln.
  intros N1 N2 N3. pose proof (proj1 Hu) as Hb0. unfold bitmap_remap. rewrite bool_decide_eq_false_2 by done.
  wp_step. eapply wp_mono; [by apply bitmap_zero_spec|]. intros [] h1 H1. cbv beta. wp_step.
  eapply wp_mono; [apply bitmap_weight_spec; [eapply holds_set_other; [|exact Hn|exact H1]; done|done|lia]|].
  intros w h' [-> ->]. cbv beta. fold (rank (bm_bit wn) bits).
  apply (for_each_set_spec src ws bits _ tt h1 (fun i _ h' =>
    holds_set h dst wd bits (fun j => exists i', 0 <= i' < i /\ bm_bit ws i' = true /\
      remaps (bm_bit wo) (bm_bit wn) bits i' j) h')); [done..| | | |].
  - intros i x h' HI. eapply holds_set_other; [|exact Hs|exact HI]. done.
  - intros i j x h' Hij Hj Hz. apply holds_set_iff. intros k Hk. split.
    + intros (i' & ? & ? & ?). exists i'. split; [lia|done].
    + intros (i' & Hi' & Hset & ?). exists i'. split; [|done].
      destruct (Z.lt_ge_cases i' i); [lia|]. by rewrite Hz in Hset by lia.
  - intros i x h' Hi Hset HI. destruct x. apply (remap_bit i (fun p => set_bit p dst)).
    { eapply holds_set_other; [|exact Ho|exact HI]; done. }
    { eapply holds_set_other; [|exact Hn|exact HI]; done. }
    intros p Hp. pose proof (remaps_range i p Hi Hp).
    eapply wp_mono; [eapply (holds_set_add h dst wd bits); [done|done|exact HI|done]|]. intros [] h''. cbv beta.
    apply holds_set_iff. intros j Hj. split.
    + intros [(i' & ? & ? & ?)| ->]; [exists i'; split; [lia|done]|exists i; split; [lia|done]].
    + intros (i' & Hi' & Hset' & Hr). destruct (Z.eq_dec i' i) as [->|];
        [right|left; exists i'; split; [lia|done]].
      unfold remaps in Hp, Hr. destruct (_ && _); [by eapply is_nth_unique|congruence].
  - eapply holds_set_iff; [|exact H1]. intros j Hj. split; [done|]. intros (i' & ? & _). lia.
Qed.

(** [bitmap_onto]: [src] is [orig], [old] is [relmap]. *)
Lemma bitmap_onto_spec :
  dst <> src -> dst <> old ->
  wp (bitmap_onto find_first find_next dst src old bits) (fun _ h' =>
    holds_set h dst wd bits (fun j => j < bits /\ bm_bit wo j = true /\
      bm_bit ws (rank (bm_bit wo) j) = true) h') h.
Proof using HFB Hd Hs Ho Hwd Hws Hwo Hu Hld Hls Hlo.
  intros N1 N2. pose proof (proj1 Hu) as Hb0. unfold bitmap_onto. rewrite bool_decide_eq_false_2 by done.
  wp_step. eapply wp_mono; [by apply bitmap_zero_spec|]. intros [] h1 H1. cbv beta. wp_step.
  set (P := fun i j => j < i /\ bm_bit wo j = true /\ bm_bit ws (rank (bm_bit wo) j) = true).
  eapply wp_mono.
  - apply (for_each_set_spec old wo bits _ 0 h1 (fun i m h' =>
      m = rank (bm_bit wo) i /\ holds_set h dst wd bits (P i) h')); [done..| | | |].
    + intros i x h' [_ HI]. eapply holds_set_other; [|exact Ho|exact HI]. done.
    + intros i j x h' Hij Hj Hz [-> HI]. split.
      { rewrite (rank_split _ i j) by lia. rewrite count_zero; [lia|]. intros. apply Hz. lia. }
      eapply holds_set_iff; [|exact HI]. intros k Hk. unfold P. split; [intros [? ?]; split; [lia|done]|].
      intros (? & Hset & ?). split; [|done]. destruct (Z.lt_ge_cases k i); [lia|]. by rewrite Hz in Hset by lia.
    + intros i m h' Hi Hset [-> HI]. wp_step. pose proof (rank_bounds (bm_bit wo) i ltac:(lia)).
      eapply wp_mono; [apply test_bit_spec with (ws := ws); [|lia]|].
      { eapply holds_set_other; [|exact Hs|exact HI]. done. }
      intros b h'' [-> ->]. cbv beta. wp_step.
      assert (Hrk : rank (bm_bit wo) i + 1 = rank (bm_bit wo) (i + 1)).
      { symmetry. apply rank_next; [lia|done|lia]. }
      destruct (bm_bit ws (rank (bm_bit wo) i)) eqn:Eb.
      * eapply wp_mono; [eapply (holds_set_add h dst wd bits); [done|done|exact HI|done]|]. intros [] h'' HI'. cbv beta. wp_step.
        split; [done|]. eapply holds_set_iff; [|exact HI']. intros j Hj. unfold P. split.
        -- intros [[? ?]| ->]; [split; [lia|done]|split; [lia|done]].
        -- intros (? & ? & ?). destruct (Z.eq_dec j i); [by right|left; split; [lia|done]].
      * do 2 wp_step. split; [done|]. eapply holds_set_iff; [|exact HI]. intros j Hj. unfold P.
        split; [intros [? ?]; split; [lia|done]|]. intros (? & ? & Hr). split; [|done].
        destruct (Z.eq_dec j i) as [->|]; [congruence|lia].
    + split; [done|]. eapply holds_set_iff; [|exact H1]. intros j Hj. unfold P. split; [done|]. intros [? _]. lia.
  - intros m h' [_ HI]. cbv beta. by wp_step.
Qed.

(** [bitmap_fold]: [src] is [orig]. *)
Lemma bitmap_fold_spec sz :
  dst <> src -> 0 < sz ->
  wp (bitmap_fold find_first find_next dst src sz bits) (fun _ h' =>
    holds_set h dst wd bits (fun j => exists i, 0 <= i < bits /\ bm_bit ws i = true /\ j = i mod sz) h') h.
Proof using HFB Hd Hs Hwd Hws Hu Hld Hls.
  intros N1 Hsz. pose proof (proj1 Hu) as Hb0. unfold bitmap_fold. rewrite bool_decide_eq_false_2 by done.
  wp_step. eapply wp_mono; [by apply bitmap_zero_spec|]. intros [] h1 H1. cbv beta.
  apply (for_each_set_spec src ws bits _ tt h1 (fun i _ h' =>
    holds_set h dst wd bits (fun j => exists i', 0 <= i' < i /\ bm_bit ws i' = true /\ j = i' mod sz) h'));
    [done..| | | |].
  - intros i x h' HI. eapply holds_set_other; [|exact Hs|exact HI]. done.
  - intros i j x h' Hij Hj Hz. apply holds_set_iff. intros k Hk. split.
    + intros (i' & ? & ? & ?). exists i'. split; [lia|done].
    + intros (i' & Hi' & Hset & ?). exists i'. split; [|done].
      destruct (Z.lt_ge_cases i' i); [lia|]. by rewrite Hz in Hset by lia.
  - intros i x h' Hi Hset HI. destruct x.
    assert (0 <= i mod sz < bits).
    { pose proof (Z.mod_pos_bound i sz Hsz). pose proof (Z.mod_le i sz). lia. }
    eapply wp_mono; [eapply (holds_set_add h dst wd bits); [done|done|exact HI|done]|]. intros [] h''. cbv beta.
    apply holds_set_iff. intros j Hj. split.
    + intros [(i' & ? & ? & ?)| ->]; [exists i'; split; [lia|done]|exists i; split; [lia|done]].
    + intros (i' & Hi' & Hset' & ->). destruct (Z.eq_dec i' i) as [->|];
        [by right|left; exists i'; split; [lia|done]].
  - eapply holds_set_iff; [|exact H1]. intros j Hj. split; [done|]. intros (i' & ? & _). lia.
Qed.
End Maps.
End Specs.

(** ** Properties *)

(** [bitmap_pos_to_ord] is the rank of a set bit and -1 for any other
    position; [bitmap_ord_to_pos] is its inverse on the set bits, and 0 for an
    ordinal that no set bit has. *)
Theorem bitmap_ordinals_correct ff fn `{!FindBit ff fn} buf ws bits (h : mem) pos ord :
  h !! buf = Some ws -> words ws -> uint 32 bits -> bits <= 32 * zlen ws ->
  wp (bitmap_pos_to_ord ff fn buf pos bits) (fun r h' => h' = h /\
    r = if (0 <=? pos) && (pos <? bits) && bm_bit ws pos then rank (bm_bit ws) pos else -1) h /\
  wp (bitmap_ord_to_pos ff fn buf ord bits) (fun r h' => h' = h /\
    (is_nth (bm_bit ws) bits ord r \/ (r = 0 /\ forall p, ~ is_nth (bm_bit ws) bits ord p))) h /\
  (0 <= pos < bits -> bm_bit ws pos = true ->
   wp (let* n := bitmap_pos_to_ord ff fn buf pos bits in bitmap_ord_to_pos ff fn buf n bits)
     (fun r h' => h' = h /\ r = pos) h).
Proof.
  intros Hb Hw Hu Hl. split; [by apply pos_to_ord_spec|]. split; [by apply ord_to_pos_spec|].
  intros Hp Hs. wp_step. eapply wp_mono; [by apply pos_to_ord_spec|]. intros n h' [-> ->]. cbv beta.
  rewrite (proj2 (Z.leb_le 0 pos)), (ltb_t pos bits), Hs by lia. cbn [andb].
  assert (Hn : is_nth (bm_bit ws) bits (rank (bm_bit ws) pos) pos) by (split; [lia|done]).
  eapply wp_mono; [apply ord_to_pos_total; [done..|by eapply is_nth_rank]|].
  intros r h' [-> Hr]. split; [done|]. by eapply is_nth_unique.
Qed.

Lemma bitmap_ordinals_correct_witness :
  bitmap_pos_to_ord find_first_bit find_next_bit 1%positive 32 64 demo_mem = Some (4, demo_mem) /\
  wp (let* n := bitmap_pos_to_ord find_first_bit find_next_bit 1%positive 32 64 in
      bitmap_ord_to_pos find_first_bit find_next_bit 1%positive n 64)
     (fun r h' => h' = demo_mem /\ r = 32) demo_mem.
Proof.
  split; [vm_compute; reflexivity|].
  apply (bitmap_ordinals_correct find_first_bit find_next_bit 1%positive [0xF0; 0x80000003] 64 demo_mem 32 0);
    demo_side.
Defined.

(** [bitmap_bitremap] sends bit [i] to the [(rank old i mod weight new)]-th
    set bit of [new] when [i] is set in [old] and [new] is not empty, and to
    itself otherwise; [bitmap_remap] produces exactly the image of [src] under
    that map and clears every other bit of [dst]. *)
Theorem bitmap_remap_correct ff fn `{!FindBit ff fn} dst src old new wd ws wo wn bits (h : mem) i :
  h !! dst = Some wd -> h !! src = Some ws -> h !! old = Some wo -> h !! new = Some wn ->
  words wd -> words ws -> words wo -> words wn -> uint 32 bits ->
  bits <= 32 * zlen wd -> bits <= 32 * zlen ws -> bits <= 32 * zlen wo -> bits <= 32 * zlen wn ->
  wp (bitmap_bitremap ff fn i old new bits)
    (fun r h' => h' = h /\ remaps (bm_bit wo) (bm_bit wn) bits i r) h /\
  (dst <> src -> dst <> old -> dst <> new ->
   wp (bitmap_remap ff fn dst src old new bits) (fun _ h' =>
     holds_set h dst wd bits (fun j => exists i, 0 <= i < bits /\ bm_bit ws i = true /\
       remaps (bm_bit wo) (bm_bit wn) bits i j) h') h) /\
  (dst = src -> wp (bitmap_remap ff fn dst src old new bits) (fun _ h' => h' = h) h).
Proof.
  intros. split; [by apply bitmap_bitremap_spec|]. split; [by intros; apply bitmap_remap_spec|].
  intros ->. unfold bitmap_remap. rewrite bool_decide_eq_true_2 by done. by wp_step.
Qed.

Definition map_mem : mem :=
  {[1%positive := [0xFFFFFFFF]; 2%positive := [0xA2]; 3%positive := [0xF0]; 4%positive := [0xF000]]}.

Lemma bitmap_remap_correct_witness :
  (snd <$> bitmap_remap find_first_bit find_next_bit 1%positive 2%positive 3%positive 4%positive 32 map_mem)
    = Some (<[1%positive := [0xA002]]> map_mem) /\
  wp (bitmap_remap find_first_bit find_next_bit 1%positive 2%positive 3%positive 4%positive 32) (fun _ h' =>
     holds_set map_mem 1%positive [0xFFFFFFFF] 32 (fun j => exists i, 0 <= i < 32 /\ bm_bit [0xA2] i = true /\
       remaps (bm_bit [0xF0]) (bm_bit [0xF000]) 32 i j) h') map_mem.
Proof.
  split; [vm_compute; reflexivity|].
  apply (bitmap_remap_correct find_first_bit find_next_bit 1%positive 2%positive 3%positive 4%positive
    [0xFFFFFFFF] [0xA2] [0xF0] [0xF000] 32 map_mem 5); demo_side || done.
Defined.

(** [bitmap_onto] sets bit [j] exactly when [j] is set in [relmap] and the
    bit of [orig] at its rank is set; [bitmap_fold] sets exactly the positions
    [i mod sz] of the set bits [i] of [orig]. *)
Theorem bitmap_onto_fold_correct ff fn `{!FindBit ff fn} dst orig relmap wd ws wo sz bits (h : mem) :
  h !! dst = Some wd -> h !! orig = Some ws -> h !! relmap = Some wo ->
  words wd -> words ws -> words wo -> uint 32 bits ->
  bits <= 32 * zlen wd -> bits <= 32 * zlen ws -> bits <= 32 * zlen wo ->
  dst <> orig -> dst <> relmap -> 0 < sz ->
  wp (bitmap_onto ff fn dst orig relmap bits) (fun _ h' =>
    holds_set h dst wd bits (fun j => j < bits /\ bm_bit wo j = true /\
      bm_bit ws (rank (bm_bit wo) j) = true) h') h /\
  wp (bitmap_fold ff fn dst orig sz bits) (fun _ h' =>
    holds_set h dst wd bits (fun j => exists i, 0 <= i < bits /\ bm_bit ws i = true /\ j = i mod sz) h') h.
Proof. intros. split; [by apply bitmap_onto_spec|by apply bitmap_fold_spec]. Qed.

Lemma bitmap_onto_fold_correct_witness :
  (snd <$> bitmap_fold find_first_bit find_next_bit 1%positive 2%positive 5 32 map_mem)
    = Some (<[1%positive := [0x7]]> map_mem) /\
  wp (bitmap_fold find_first_bit find_next_bit 1%positive 2%positive 5 32) (fun _ h' =>
    holds_set map_mem 1%positive [0xFFFFFFFF] 32
      (fun j => exists i, 0 <= i < 32 /\ bm_bit [0xA2] i = true /\ j = i mod 5) h') map_mem.
Proof.
  split; [vm_compute; reflexivity|].
  apply (bitmap_onto_fold_correct find_first_bit find_next_bit 1%positive 2%positive 3%positive
    [0xFFFFFFFF] [0xA2] [0xF0] 5 32 map_mem); demo_side || done.
Defined.
