(* ===== verification/Kfifo.v ===== *)
(** * The kernel FIFO

    [kernel/kfifo.c] and the inline wrappers of [include/linux/kfifo.h].  The
    free-running 32-bit indices [in] and [out] wrap; the buffer is an object of
    the memory.  The operations refine a bounded queue of bytes, and a step
    relation for one writer and one reader that run without the lock shows that
    the reader only ever sees bytes the writer put, in order. *)

From Stdlib Require Import ZArith Lia.
From stdpp Require Import base tactics numbers list gmap option.
From S2P Require Import Prelude Bits.

(** ** State and operations *)
Record kfifo := Kfifo {
  buffer : block;
  size : Z;
  in_ : Z;
  out : Z
}.

Definition is_power_of_2 (n : Z) : bool := negb (n =? 0) && (Z.land n (u32 (n - 1)) =? 0).
Definition roundup_pow_of_two (n : Z) : Z := shl32 1 (fls (u32 (n - 1))).

(** [ERR_PTR(-ENOMEM)] is [inl (- ENOMEM)]; [got_struct] tells whether the
    allocation of the [struct kfifo] succeeds. *)
Definition kfifo_init (got_struct : bool) (buf : block) (sz : Z) : C (Z + kfifo) :=
  if negb (is_power_of_2 sz) then fault (* BUG_ON *)
  else if got_struct then ret (inr (Kfifo buf sz 0 0)) else ret (inl (- ENOMEM)).

(** [kmalloc n] and [kfree] are the allocator's entry points. *)
Definition kfifo_alloc (kmalloc : Z -> C (option block)) (kfree : block -> C unit)
    (got_struct : bool) (sz : Z) : C (Z + kfifo) :=
  let* sz :=
    (if negb (Z.land sz (u32 (sz - 1)) =? 0)
     then if 0x80000000 <? sz then fault else ret (roundup_pow_of_two sz)
     else ret sz) in
  let* o := kmalloc sz in
  match o with
  | None => ret (inl (- ENOMEM))
  | Some buf =>
      let* r := kfifo_init got_struct buf sz in
      match r with
      | inl e => kfree buf ;; ret (inl e)
      | inr f => ret (inr f)
      end
  end.

(** The byte offsets at which the two [memcpy] calls of a transfer of [len]
    bytes at index [idx] start and the length of the first. *)
Definition first_chunk (fifo : kfifo) (idx len : Z) : Z :=
  Z.min len (u32 (size fifo - Z.land idx (u32 (size fifo - 1)))).

Definition __kfifo_put (fifo : kfifo) (buf : block) (len : Z) : C (Z * kfifo) :=
  let len := Z.min len (u32 (size fifo - in_ fifo + out fifo)) in
  let l := first_chunk fifo (in_ fifo) len in
  memcpy (buffer fifo) (Z.land (in_ fifo) (u32 (size fifo - 1))) buf 0 l ;;
  memcpy (buffer fifo) 0 buf l (len - l) ;;
  ret (len, Kfifo (buffer fifo) (size fifo) (u32 (in_ fifo + len)) (out fifo)).

Definition __kfifo_get (fifo : kfifo) (buf : block) (len : Z) : C (Z * kfifo) :=
  let len := Z.min len (u32 (in_ fifo - out fifo)) in
  let l := first_chunk fifo (out fifo) len in
  memcpy buf 0 (buffer fifo) (Z.land (out fifo) (u32 (size fifo - 1))) l ;;
  memcpy buf l (buffer fifo) 0 (len - l) ;;
  ret (len, Kfifo (buffer fifo) (size fifo) (in_ fifo) (u32 (out fifo + len))).

Definition __kfifo_reset (fifo : kfifo) : kfifo := Kfifo (buffer fifo) (size fifo) 0 0.
Definition __kfifo_len (fifo : kfifo) : Z := u32 (in_ fifo - out fifo).

(** The locked versions; the lock makes each of them one step. *)
Definition kfifo_put (fifo : kfifo) (buf : block) (len : Z) : C (Z * kfifo) :=
  __kfifo_put fifo buf len.
Definition kfifo_get (fifo : kfifo) (buf : block) (len : Z) : C (Z * kfifo) :=
  let* '(r, fifo) := __kfifo_get fifo buf len in
  ret (r, if in_ fifo =? out fifo then __kfifo_reset fifo else fifo).

(** ** Abstraction: a bounded queue of bytes *)
Definition fifo_ok (f : kfifo) : Prop :=
  (exists k, 0 <= k <= 31 /\ size f = 2 ^ k) /\ uint 32 (in_ f) /\ uint 32 (out f) /\
  u32 (in_ f - out f) <= size f.

(** The buffer [bs] holds the queue [q] from index [from] on. *)
Definition holds_queue (bs : list Z) (sz from : Z) (q : list Z) : Prop :=
  forall i, 0 <= i < zlen q -> at_ bs ((from + i) mod sz) = at_ q i.

Definition rep (h : mem) (f : kfifo) (q : list Z) : Prop :=
  fifo_ok f /\ zlen q = u32 (in_ f - out f) /\
  exists bs, h !! buffer f = Some bs /\ zlen bs = size f /\ holds_queue bs (size f) (out f) q.

(** ** Index arithmetic *)
Lemma pow2_bounds k : 0 <= k <= 31 -> 1 <= 2 ^ k <= 2 ^ 31.
Proof.
  intros. split; [|apply Z.pow_le_mono_r; lia].
  assert (0 < 2 ^ k) by (apply Z.pow_pos_nonneg; lia). lia.
Qed.

Lemma fifo_size f : fifo_ok f -> 1 <= size f <= 2 ^ 31.
Proof. intros ((k & Hk & ->) & _). by apply pow2_bounds. Qed.

Lemma land_size f i : fifo_ok f -> Z.land i (u32 (size f - 1)) = i mod size f.
Proof.
  intros ((k & Hk & ->) & _). pose proof (pow2_bounds k Hk). pow2.
  rewrite wrap_id by (unfold uint; pow2; lia).
  replace (2 ^ k - 1) with (Z.ones k) by (rewrite Z.ones_equiv; lia). by rewrite Z.land_ones by lia.
Qed.

(** Reduction mod [2^32] is invisible mod the size. *)
Lemma wrap_mod_size f x : fifo_ok f -> u32 x mod size f = x mod size f.
Proof.
  intros ((k & Hk & ->) & _). unfold wrap.
  replace (2 ^ 32) with (2 ^ (32 - k) * 2 ^ k) by (rewrite <- Z.pow_add_r by lia; f_equal; lia).
  assert (0 < 2 ^ k) by (apply Z.pow_pos_nonneg; lia).
  assert (0 < 2 ^ (32 - k)) by (apply Z.pow_pos_nonneg; lia).
  rewrite (Z.mul_comm (2 ^ (32 - k))), Z.rem_mul_r by lia.
  by rewrite (Z.mul_comm (2 ^ k)), Z.mod_add, Z.mod_mod by lia.
Qed.

Lemma mod_distinct x d S : 0 < d < S -> (x + d) mod S <> x mod S.
Proof.
  intros Hd E. pose proof (Z.div_mod x S ltac:(lia)). pose proof (Z.div_mod (x + d) S ltac:(lia)).
  assert (S * ((x + d) / S - x / S) = d) by (rewrite Z.mul_sub_distr_l; lia).
  set (t := (x + d) / S - x / S) in *. destruct (Z.lt_ge_cases t 1); nia.
Qed.

Lemma in_index f (n : Z) :
  fifo_ok f -> u32 (in_ f - out f) = n -> in_ f = u32 (out f + n).
Proof.
  intros (_ & Hi & Ho & _) <-. unfold wrap. rewrite Z.add_mod_idemp_r by lia.
  replace (out f + (in_ f - out f)) with (in_ f) by lia. symmetry. by apply Z.mod_small.
Qed.

Lemma free_space f n :
  fifo_ok f -> u32 (in_ f - out f) = n -> u32 (size f - in_ f + out f) = size f - n.
Proof.
  intros Hok <-. pose proof (fifo_size f Hok). destruct Hok as (_ & Hi & Ho & Hle).
  replace (size f - in_ f + out f) with (size f - (in_ f - out f)) by lia. unfold wrap in *.
  rewrite <- (Zminus_mod_idemp_r (size f)). apply Z.mod_small.
  assert (0 <= (in_ f - out f) mod 2 ^ 32) by (apply Z.mod_pos_bound; lia). pow2. lia.
Qed.

(** The slot the code uses for byte [p] of a transfer at index [idx]. *)
Lemma slot_index f idx len p :
  fifo_ok f -> 0 <= p < len -> len <= size f ->
  (idx + p) mod size f =
    if p <? first_chunk f idx len then idx mod size f + p else p - first_chunk f idx len.
Proof.
  intros Hok Hp Hl. pose proof (fifo_size f Hok). unfold first_chunk. rewrite land_size by done.
  pose proof (Z.mod_pos_bound idx (size f)). rewrite wrap_id by (unfold uint; pow2; lia).
  rewrite <- Z.add_mod_idemp_l by lia. set (o := idx mod size f) in *.
  destruct (Z.ltb_spec p (Z.min len (size f - o))).
  - apply Z.mod_small. lia.
  - symmetry. apply Z.mod_unique with 1; lia.
Qed.

(** ** Transfers *)
Section Transfer.
Context (f : kfifo) (h : mem) (q bs : list Z).
Context (Hok : fifo_ok f) (Hq : zlen q = u32 (in_ f - out f)).
Context (Hbs : h !! buffer f = Some bs) (Hlen : zlen bs = size f).
Context (Hrep : holds_queue bs (size f) (out f) q).

Lemma chunk_bounds idx len :
  0 <= len -> 0 <= first_chunk f idx len <= len /\
  idx mod size f + first_chunk f idx len <= size f /\ 0 <= idx mod size f < size f /\
  (len <= size f -> len - first_chunk f idx len <= idx mod size f).
Proof using Hok.
  intros Hl. pose proof (fifo_size f Hok). unfold first_chunk. rewrite land_size by done.
  pose proof (Z.mod_pos_bound idx (size f) ltac:(lia)). rewrite wrap_id by (unfold uint; pow2; lia). lia.
Qed.

(** Writing the [n] bytes of [data] behind the queue. *)
Lemma holds_queue_put bs' n data :
  0 <= n <= size f - zlen q -> n <= zlen data ->
  (forall p, 0 <= p < n -> at_ bs' ((in_ f + p) mod size f) = at_ data p) ->
  (forall k, (forall p, 0 <= p < n -> k <> (in_ f + p) mod size f) -> at_ bs' k = at_ bs k) ->
  holds_queue bs' (size f) (out f) (q ++ take (Z.to_nat n) data).
Proof using Hok Hq Hrep.
  intros Hn Hd Hin Hout i Hi. pose proof (fifo_size f Hok). pose proof (zlen_nonneg q).
  rewrite zlen_app, zlen_take in Hi by lia.
  assert (Hidx : forall p, (in_ f + p) mod size f = (out f + (zlen q + p)) mod size f).
  { intros p. rewrite (in_index f (zlen q) Hok) by done.
    rewrite <- Z.add_mod_idemp_l, wrap_mod_size, Z.add_mod_idemp_l by (done || lia). f_equal. lia. }
  destruct (Z.lt_ge_cases i (zlen q)).
  - rewrite at_app_l, <- Hrep by lia. apply Hout. intros p Hp E. rewrite Hidx in E.
    apply (mod_distinct (out f + i) (zlen q + p - i) (size f)); [lia|]. rewrite E. f_equal. lia.
  - rewrite at_app_r, at_take, <- Hin by lia. rewrite Hidx. do 2 f_equal. lia.
Qed.

Lemma kfifo_put_raw buf data len :
  buf <> buffer f -> h !! buf = Some data -> 0 <= len <= zlen data ->
  wp (__kfifo_put f buf len) (fun '(n, f') h' =>
    n = Z.min len (size f - zlen q) /\ f' = Kfifo (buffer f) (size f) (u32 (in_ f + n)) (out f) /\
    exists bs', h' = <[buffer f := bs']> h /\ zlen bs' = zlen bs /\
      (forall p, 0 <= p < n -> at_ bs' ((in_ f + p) mod size f) = at_ data p) /\
      (forall k, (forall p, 0 <= p < n -> k <> (in_ f + p) mod size f) -> at_ bs' k = at_ bs k)) h.
Proof using Hok Hq Hbs Hlen.
  intros Hne Hb Hl. unfold __kfifo_put. rewrite (free_space f (zlen q)), land_size by done.
  pose proof (zlen_nonneg q). pose proof (fifo_size f Hok).
  assert (Hqs : zlen q <= size f) by (rewrite Hq; apply Hok).
  set (n := Z.min len (size f - zlen q)). set (l := first_chunk f (in_ f) n).
  destruct (chunk_bounds (in_ f) n) as (Hc1 & Hc2 & Hc3 & Hc4); [lia|]. fold l in Hc1, Hc2, Hc4.
  specialize (Hc4 ltac:(lia)). wp_step.
  eapply wp_mono; [eapply memcpy_spec; [exact Hbs|exact Hb|done|lia..]|].
  intros [] h1 (b1 & -> & Hl1 & Hin1 & Hout1). cbv beta. wp_step.
  eapply wp_mono.
  { eapply memcpy_spec; [by rewrite lookup_insert_eq|by rewrite lookup_insert_ne|done|lia..]. }
  intros [] h2 (b2 & -> & Hl2 & Hin2 & Hout2). cbv beta. wp_step. rewrite insert_insert_eq.
  assert (Hslot : forall p, 0 <= p < n -> (in_ f + p) mod size f = if p <? l then in_ f mod size f + p else p - l).
  { intros p Hp. apply slot_index; [done|lia|lia]. }
  split; [done|]. split; [done|]. exists b2. split; [done|]. split; [lia|]. split.
  - intros p Hp. rewrite Hslot by done. destruct (Z.ltb_spec p l).
    + rewrite Hout2 by lia. rewrite Hin1 by lia. f_equal. lia.
    + rewrite Hin2 by lia. f_equal. lia.
  - intros k Hk. rewrite Hout2.
    2: { intros Hr. apply (Hk (k + l)); [lia|]. rewrite Hslot by lia. rewrite ltb_f by lia. lia. }
    apply Hout1. intros Hr. apply (Hk (k - in_ f mod size f)); [lia|].
    rewrite Hslot by lia. rewrite ltb_t by lia. lia.
Qed.

Lemma kfifo_put_spec buf data len :
  buf <> buffer f -> h !! buf = Some data -> 0 <= len <= zlen data ->
  wp (__kfifo_put f buf len) (fun '(n, f') h' =>
    n = Z.min len (size f - zlen q) /\ size f' = size f /\ buffer f' = buffer f /\
    rep h' f' (q ++ take (Z.to_nat n) data) /\
    exists bs', h' = <[buffer f := bs']> h /\ zlen bs' = zlen bs) h.
Proof using Hok Hq Hbs Hlen Hrep.
  intros Hne Hb Hl. pose proof (zlen_nonneg q). pose proof (fifo_size f Hok).
  assert (Hqs : zlen q <= size f) by (rewrite Hq; apply Hok).
  eapply wp_mono; [by eapply kfifo_put_raw|]. intros [n f'] h' (En & -> & b2 & -> & Hl2 & Hin2 & Hout2). cbn [size buffer].
  split; [done|]. split; [done|]. split; [done|]. split; [|exists b2; split; [done|lia]].
  assert (Hn' : u32 (u32 (in_ f + n) - out f) = zlen q + n).
  { unfold wrap. rewrite Zminus_mod_idemp_l, (in_index f (zlen q) Hok) by done. unfold wrap.
    replace ((out f + zlen q) mod 2 ^ 32 + n - out f) with ((out f + zlen q) mod 2 ^ 32 + (n - out f)) by lia.
    rewrite Z.add_mod_idemp_l by lia. replace (out f + zlen q + (n - out f)) with (zlen q + n) by lia.
    apply Z.mod_small. pow2. lia. }
  split; [|split].
  - destruct Hok as (Hk & Hi & Ho & _). split; [done|]. split; [by apply uint_wrap|].
    split; [done|]. cbn [in_ out size]. rewrite Hn'. lia.
  - cbn [in_ out]. rewrite Hn', zlen_app, zlen_take by lia. lia.
  - exists b2. cbn [buffer size out]. rewrite lookup_insert_eq. split; [done|]. split; [lia|].
    apply holds_queue_put; [lia|lia|done|done].
Qed.

Lemma kfifo_get_raw buf old len :
  buf <> buffer f -> h !! buf = Some old -> 0 <= len <= zlen old ->
  wp (__kfifo_get f buf len) (fun '(n, f') h' =>
    n = Z.min len (zlen q) /\ f' = Kfifo (buffer f) (size f) (in_ f) (u32 (out f + n)) /\
    rep h' f' (drop (Z.to_nat n) q) /\
    exists new, h' = <[buf := new]> h /\ zlen new = zlen old /\
      (forall p, 0 <= p < n -> at_ new p = at_ q p) /\ (forall p, n <= p -> at_ new p = at_ old p)) h.
Proof using Hok Hq Hbs Hlen Hrep.
  intros Hne Hb Hl. unfold __kfifo_get. rewrite <- Hq, land_size by done.
  pose proof (zlen_nonneg q). pose proof (fifo_size f Hok).
  assert (Hqs : zlen q <= size f) by (rewrite Hq; apply Hok).
  set (n := Z.min len (zlen q)). set (l := first_chunk f (out f) n).
  destruct (chunk_bounds (out f) n) as (Hc1 & Hc2 & Hc3 & Hc4); [lia|]. fold l in Hc1, Hc2, Hc4.
  specialize (Hc4 ltac:(lia)). wp_step.
  eapply wp_mono; [eapply memcpy_spec; [exact Hb|exact Hbs|done|lia..]|].
  intros [] h1 (b1 & -> & Hl1 & Hin1 & Hout1). cbv beta. wp_step.
  eapply wp_mono.
  { eapply memcpy_spec; [by rewrite lookup_insert_eq|by rewrite lookup_insert_ne|done|lia..]. }
  intros [] h2 (b2 & -> & Hl2 & Hin2 & Hout2). cbv beta. wp_step. rewrite insert_insert_eq.
  assert (Hslot : forall p, 0 <= p < n -> (out f + p) mod size f = if p <? l then out f mod size f + p else p - l).
  { intros p Hp. apply slot_index; [done|lia|lia]. }
  split; [done|]. split; [done|].
  assert (Hn' : u32 (in_ f - u32 (out f + n)) = zlen q - n).
  { unfold wrap. rewrite Zminus_mod_idemp_r, (in_index f (zlen q) Hok) by done. unfold wrap.
    rewrite Zminus_mod_idemp_l. replace (out f + zlen q - (out f + n)) with (zlen q - n) by lia.
    apply Z.mod_small. pow2. lia. }
  split.
  - split; [|split].
    + destruct Hok as (Hk & Hi & Ho & _). split; [done|]. split; [done|]. split; [by apply uint_wrap|].
      cbn [in_ out size]. rewrite Hn'. lia.
    + cbn [in_ out]. rewrite Hn', zlen_drop by lia. lia.
    + exists bs. cbn [buffer size out]. rewrite lookup_insert_ne by done. split; [done|]. split; [done|].
      intros i Hi. rewrite zlen_drop in Hi by lia. rewrite at_drop by lia. rewrite <- Hrep by lia.
      rewrite <- Z.add_mod_idemp_l, wrap_mod_size, Z.add_mod_idemp_l by (done || lia). do 2 f_equal. lia.
  - exists b2. split; [done|]. split; [lia|]. split.
    + intros p Hp. rewrite <- Hrep, Hslot by lia. destruct (Z.ltb_spec p l).
      * rewrite Hout2 by lia. rewrite Hin1 by lia. f_equal. lia.
      * rewrite Hin2 by lia. f_equal; lia.
    + intros p Hp. rewrite Hout2, Hout1 by lia. done.
Qed.
End Transfer.

(** ** Refinement of a bounded queue by sequences of locked operations *)
Inductive fifo_op := Put (data : list Z) | Get (len : Z).
Inductive fifo_res := Accepted (n : Z) | Got (bytes : list Z).

(** The caller's buffer [ubuf] is filled before a put and read after a get. *)
Definition set_block (b : block) (l : list Z) : C unit := fun h => Some (tt, <[b := l]> h).
Definition get_block (b : block) : C (list Z) := fun h =>
  match h !! b with Some l => Some (l, h) | None => None end.

Definition run_op (ubuf : block) (f : kfifo) (op : fifo_op) : C (fifo_res * kfifo) :=
  match op with
  | Put data =>
      set_block ubuf data ;;
      let* '(n, f') := kfifo_put f ubuf (zlen data) in ret (Accepted n, f')
  | Get len =>
      set_block ubuf (replicate (Z.to_nat len) 0) ;;
      let* '(n, f') := kfifo_get f ubuf len in
      let* l := get_block ubuf in ret (Got (take (Z.to_nat n) l), f')
  end.

Fixpoint run_ops (ubuf : block) (f : kfifo) (ops : list fifo_op) : C (list fifo_res * kfifo) :=
  match ops with
  | [] => ret ([], f)
  | op :: ops =>
      let* '(r, f) := run_op ubuf f op in
      let* '(rs, f) := run_ops ubuf f ops in ret (r :: rs, f)
  end.

(** The abstract queue of capacity [cap]. *)
Definition queue_op (cap : Z) (q : list Z) (op : fifo_op) : fifo_res * list Z :=
  match op with
  | Put data => let n := Z.min (zlen data) (cap - zlen q) in
                (Accepted n, q ++ take (Z.to_nat n) data)
  | Get len => (Got (take (Z.to_nat len) q), drop (Z.to_nat len) q)
  end.

Fixpoint queue_ops (cap : Z) (q : list Z) (ops : list fifo_op) : list fifo_res * list Z :=
  match ops with
  | [] => ([], q)
  | op :: ops =>
      let '(r, q) := queue_op cap q op in
      let '(rs, q) := queue_ops cap q ops in (r :: rs, q)
  end.

Definition op_ok (op : fifo_op) : Prop := match op with Put _ => True | Get len => 0 <= len end.

Lemma rep_set_block h f q b l : b <> buffer f -> rep h f q -> rep (<[b := l]> h) f q.
Proof. intros Hne (? & ? & bs & ? & ?). split; [done|]. split; [done|]. exists bs. by rewrite lookup_insert_ne. Qed.

Lemma rep_reset h f : rep h f [] -> rep h (__kfifo_reset f) [].
Proof.
  intros ((Hk & _) & _ & bs & ? & ? & _). pose proof Hk as (k & Hk' & Hs). pose proof (pow2_bounds k Hk').
  split; [|split; [done|]].
  - split; [done|]. cbn. split; [done|]. split; [done|]. change (u32 (0 - 0)) with 0. lia.
  - exists bs. split; [done|]. split; [done|]. intros i Hi. unfold zlen in Hi. simpl in Hi. lia.
Qed.

Lemma run_op_spec ubuf f q op (h : mem) :
  rep h f q -> ubuf <> buffer f -> op_ok op ->
  wp (run_op ubuf f op) (fun '(r, f') h' =>
    exists q', queue_op (size f) q op = (r, q') /\ rep h' f' q' /\
      size f' = size f /\ buffer f' = buffer f) h.
Proof.
  intros Hrep Hne Hok. destruct op as [data|len]; unfold run_op, queue_op; wp_step;
    (eexists _, _; split; [reflexivity|]; cbv beta); wp_step.
  - pose proof (rep_set_block h f q ubuf data Hne Hrep) as (Hf & Hq & bs & Hb & Hl & Hh).
    eapply wp_mono; [eapply kfifo_put_spec; [done..|by rewrite lookup_insert_eq|pose proof (zlen_nonneg data); lia]|].
    intros [n f'] h' (-> & Hs & Hbuf & Hr & _). cbv beta. wp_step. eexists. done.
  - pose proof (rep_set_block h f q ubuf (replicate (Z.to_nat len) 0) Hne Hrep) as (Hf & Hq & bs & Hb & Hl & Hh).
    simpl in Hok. assert (Hzl : zlen (replicate (Z.to_nat len) 0) = len) by (unfold zlen; rewrite length_replicate; lia).
    unfold kfifo_get. wp_step.
    eapply wp_mono; [eapply kfifo_get_raw; [done..|by rewrite lookup_insert_eq|lia]|].
    intros [n f'] h' (-> & -> & Hr & new & -> & Hln & Hin & Hout). cbv beta. wp_step. wp_step.
    eexists _, _. split; [unfold get_block; by rewrite lookup_insert_eq|]. cbv beta. wp_step.
    pose proof (zlen_nonneg q).
    eexists. split; [|split].
    + f_equal. f_equal. apply at_ext.
      * rewrite !zlen_take by lia. lia.
      * intros i Hi. rewrite zlen_take in Hi by lia. rewrite !at_take by lia. symmetry. apply Hin. lia.
    + assert (E : drop (Z.to_nat (Z.min len (zlen q))) q = drop (Z.to_nat len) q).
      { destruct (Z.le_ge_cases len (zlen q)); [by rewrite Z.min_l by lia|].
        rewrite !drop_ge by (unfold zlen in *; lia). done. }
      rewrite E in Hr. destruct (_ =? _) eqn:Ee; [|exact Hr]. b2p.
      assert (Hnil : drop (Z.to_nat len) q = []).
      { destruct Hr as (_ & Hz & _). cbn [in_ out] in Hz, Ee. rewrite Ee, Z.sub_diag in Hz.
        unfold zlen, wrap in Hz. rewrite Z.mod_0_l in Hz by lia. apply length_zero_iff_nil. lia. }
      rewrite Hnil in *. by apply rep_reset.
    + by destruct (_ =? _).
Qed.

Lemma run_ops_spec ubuf ops f q (h : mem) :
  rep h f q -> ubuf <> buffer f -> Forall op_ok ops ->
  wp (run_ops ubuf f ops) (fun '(rs, f') h' =>
    exists q', queue_ops (size f) q ops = (rs, q') /\ rep h' f' q') h.
Proof.
  revert f q h. induction ops as [|op ops IH]; intros f q h Hr Hne HF; simpl.
  - wp_step. eauto.
  - apply Forall_cons_iff in HF as [Ho HF]. wp_step. eapply wp_mono; [by apply run_op_spec|].
    intros [r f'] h' (q' & Hq & Hr' & Hs & Hb). cbv beta. wp_step.
    eapply wp_mono; [apply (IH f' q'); [done|congruence|done]|].
    intros [rs f''] h'' (q'' & Hq'' & Hr''). cbv beta. wp_step. exists q''.
    rewrite Hs in Hq''. by rewrite Hq, Hq''.
Qed.

(** ** Allocation *)
Lemma land_pred_zero n : uint 32 n -> n <> 0 -> Z.land n (u32 (n - 1)) = 0 -> exists k, 0 <= k <= 31 /\ n = 2 ^ k.
Proof.
  intros Hn Hne H. assert (0 < n) by (unfold uint in Hn; lia).
  rewrite wrap_id in H by (unfold uint in *; lia).
  exists (Z.log2 n). pose proof (Z.log2_spec n ltac:(lia)) as [Hlo Hhi].
  split. { split; [apply Z.log2_nonneg|]. apply Z.lt_succ_r, Z.log2_lt_pow2; [lia|apply Hn]. }
  destruct (Z.eq_dec n (2 ^ Z.log2 n)) as [|Hd]; [done|exfalso].
  (* the top bit is set in both [n] and [n - 1] *)
  assert (Z.testbit (Z.land n (n - 1)) (Z.log2 n) = true).
  { rewrite Z.land_spec, Z.bit_log2 by lia. cbn [andb].
    replace (Z.log2 n) with (Z.log2 (n - 1)); [apply Z.bit_log2|].
    - assert (0 < 2 ^ Z.log2 n) by (apply Z.pow_pos_nonneg; [lia|apply Z.log2_nonneg]). lia.
    - apply Z.log2_unique; [apply Z.log2_nonneg|lia]. }
  rewrite H, Z.bits_0 in *. done.
Qed.

Lemma power_of_2_test k : 0 <= k <= 31 -> is_power_of_2 (2 ^ k) = true.
Proof.
  intros Hk. pose proof (pow2_bounds k Hk). unfold is_power_of_2.
  rewrite eqb_f by lia. cbn [negb andb]. rewrite wrap_id by (unfold uint; pow2; lia). apply Z.eqb_eq.
  replace (2 ^ k - 1) with (Z.ones k) by (rewrite Z.ones_equiv; lia).
  rewrite Z.land_ones by lia. apply Z.mod_same. lia.
Qed.

Lemma roundup_pow_of_two_spec n :
  1 < n <= 2 ^ 31 -> exists k, 0 <= k <= 31 /\ roundup_pow_of_two n = 2 ^ k /\ n <= 2 ^ k < 2 * n.
Proof.
  intros Hn. unfold roundup_pow_of_two. rewrite wrap_id by (unfold uint; pow2; lia).
  rewrite fls_spec by (unfold uint; pow2; lia).
  pose proof (Z.log2_spec (n - 1) ltac:(lia)) as [Hlo Hhi]. pose proof (Z.log2_nonneg (n - 1)).
  assert (Z.log2 (n - 1) < 31) by (apply Z.log2_lt_pow2; lia).
  exists (Z.log2 (n - 1) + 1). rewrite Z.add_1_r. split; [lia|].
  rewrite Z.pow_succ_r in Hhi |- * by lia. split; [|lia].
  unfold shl32. rewrite Z.shiftl_1_l, Z.pow_succ_r by lia. apply wrap_id. unfold uint.
  pose proof (pow2_bounds (Z.log2 (n - 1)) ltac:(lia)).
  assert (2 ^ Z.log2 (n - 1) <= 2 ^ 30) by (apply Z.pow_le_mono_r; lia). pow2. lia.
Qed.

(** What [kmalloc] is relied on for: it fails without an effect or returns a
    fresh object of the requested size. *)
Definition kmalloc_ok (kmalloc : Z -> C (option block)) : Prop := forall n (h : mem),
  0 <= n -> wp (kmalloc n) (fun o h' => match o with
    | None => h' = h
    | Some b => h !! b = None /\ exists l, zlen l = n /\ h' = <[b := l]> h end) h.
Definition kfree_ok (kfree : block -> C unit) : Prop := forall b (h : mem),
  is_Some (h !! b) -> wp (kfree b) (fun _ h' => h' = delete b h) h.

Lemma kfifo_alloc_spec kmalloc kfree got sz (h : mem) :
  kmalloc_ok kmalloc -> kfree_ok kfree -> 1 <= sz <= 2 ^ 31 ->
  wp (kfifo_alloc kmalloc kfree got sz) (fun r h' => match r with
    | inl e => e = - ENOMEM /\ h' = h
    | inr f => rep h' f [] /\ sz <= size f < 2 * sz /\ h !! buffer f = None /\ delete (buffer f) h' = h
    end) h.
Proof.
  intros Hm Hf Hsz. unfold kfifo_alloc.
  assert (Hround : wp (if negb (Z.land sz (u32 (sz - 1)) =? 0)
       then if 0x80000000 <? sz then fault else ret (roundup_pow_of_two sz) else ret sz)
     (fun s h' => h' = h /\ exists k, 0 <= k <= 31 /\ s = 2 ^ k /\ sz <= 2 ^ k < 2 * sz) h).
  { wp_step; b2p.
    - rewrite ltb_f by (pow2; lia). wp_step. split; [done|]. apply roundup_pow_of_two_spec.
      destruct (Z.eq_dec sz 1) as [->|]; [done|lia].
    - wp_step. split; [done|]. destruct (land_pred_zero sz) as (k & Hk & ->); [unfold uint; pow2; lia|lia|done|].
      exists k. split; [done|]. split; [done|]. lia. }
  wp_step. eapply wp_mono; [exact Hround|]. intros s h1 (-> & k & Hk & -> & Hb). clear Hround. cbv beta.
  pose proof (pow2_bounds k Hk). wp_step. eapply wp_mono; [apply Hm; lia|].
  intros [b|] h1; cbv beta.
  - intros (Hn & l & Hl & ->). unfold kfifo_init. rewrite power_of_2_test by done. cbn [negb].
    destruct got; do 2 wp_step.
    + wp_step. cbn [buffer size]. split; [|split; [lia|]].
      * split; [|split; [done|]].
        -- split; [eauto|]. cbn. split; [done|]. split; [done|]. change (u32 (0 - 0)) with 0. lia.
        -- exists l. cbn. rewrite lookup_insert_eq. split; [done|]. split; [done|].
           intros i Hi. unfold zlen in Hi. simpl in Hi. lia.
      * split; [done|]. by rewrite delete_insert_id.
    + wp_step. eapply wp_mono; [apply Hf; rewrite lookup_insert_eq; eauto|].
      intros [] h' ->. cbv beta. wp_step. split; [done|]. by rewrite delete_insert_id.
  - intros ->. by wp_step.
Qed.

(** ** One writer and one reader without the lock

    The steps of [__kfifo_put] and [__kfifo_get] interleave: sampling the other
    side's index, moving one byte of the two [memcpy] calls, publishing the own
    index.  The barriers of the code are what makes these steps happen in this
    order.  [put_writer_steps] and [get_reader_steps] show that a call is a run
    of these steps. *)
Inductive wstate := WIdle | WCopy (pending : list Z) (pos : Z).
Inductive rstate := RIdle | RCopy (len : Z) (got : list Z).

Record spsc := Spsc {
  fifo : kfifo;            (* indices and size *)
  store_ : list Z;         (* the bytes of the buffer *)
  wr : wstate;
  rd : rstate;
  sent : list Z;           (* ghost: everything put so far *)
  rcvd : list Z            (* ghost: everything got so far *)
}.

(** The buffer slot of byte [p] in a transfer of [len] bytes at index [idx],
    as the two [memcpy] calls lay it out. *)
Definition fifo_slot (f : kfifo) (idx len p : Z) : Z :=
  if p <? first_chunk f idx len then Z.land idx (u32 (size f - 1)) + p else p - first_chunk f idx len.

Inductive writer_step : spsc -> spsc -> Prop :=
| w_begin f b r s g data :
    let len := Z.min (zlen data) (u32 (size f - in_ f + out f)) in
    writer_step (Spsc f b WIdle r s g) (Spsc f b (WCopy (take (Z.to_nat len) data) 0) r s g)
| w_byte f b r s g p pos :
    0 <= pos < zlen p ->
    writer_step (Spsc f b (WCopy p pos) r s g)
                (Spsc f (upd b (fifo_slot f (in_ f) (zlen p) pos) (at_ p pos)) (WCopy p (pos + 1)) r s g)
| w_end f b r s g p :
    writer_step (Spsc f b (WCopy p (zlen p)) r s g)
                (Spsc (Kfifo (buffer f) (size f) (u32 (in_ f + zlen p)) (out f)) b WIdle r (s ++ p) g).
Inductive reader_step : spsc -> spsc -> Prop :=
| r_begin f b w s g len :
    0 <= len ->
    reader_step (Spsc f b w RIdle s g) (Spsc f b w (RCopy (Z.min len (u32 (in_ f - out f))) []) s g)
| r_byte f b w s g len got :
    zlen got < len ->
    reader_step (Spsc f b w (RCopy len got) s g)
                (Spsc f b w (RCopy len (got ++ [at_ b (fifo_slot f (out f) len (zlen got))])) s g)
| r_end f b w s g len got :
    zlen got = len ->
    reader_step (Spsc f b w (RCopy len got) s g)
                (Spsc (Kfifo (buffer f) (size f) (in_ f) (u32 (out f + len))) b w RIdle s (g ++ got)).
Inductive spsc_step (st st' : spsc) : Prop :=
| by_writer : writer_step st st' -> spsc_step st st'
| by_reader : reader_step st st' -> spsc_step st st'.

Record spsc_inv (st : spsc) : Prop := {
  inv_ok : fifo_ok (fifo st);
  inv_len : zlen (store_ st) = size (fifo st);
  inv_in : in_ (fifo st) = u32 (zlen (sent st));
  inv_out : out (fifo st) = u32 (zlen (rcvd st));
  inv_gap : zlen (rcvd st) <= zlen (sent st) <= zlen (rcvd st) + size (fifo st);
  inv_prefix : forall i, 0 <= i < zlen (rcvd st) -> at_ (rcvd st) i = at_ (sent st) i;
  inv_data : forall i, zlen (rcvd st) <= i < zlen (sent st) ->
    at_ (store_ st) (i mod size (fifo st)) = at_ (sent st) i;
  inv_w : match wr st with
    | WIdle => True
    | WCopy p pos => 0 <= pos <= zlen p /\ zlen (sent st) + zlen p <= zlen (rcvd st) + size (fifo st) /\
        forall j, 0 <= j < pos -> at_ (store_ st) ((zlen (sent st) + j) mod size (fifo st)) = at_ p j
    end;
  inv_r : match rd st with
    | RIdle => True
    | RCopy len got => zlen got <= len /\ zlen (rcvd st) + len <= zlen (sent st) /\
        forall j, 0 <= j < zlen got -> at_ got j = at_ (sent st) (zlen (rcvd st) + j)
    end
}.

Lemma slot_mod f idx len p :
  fifo_ok f -> 0 <= p < len -> len <= size f -> fifo_slot f idx len p = (idx + p) mod size f.
Proof. intros. unfold fifo_slot. rewrite land_size by done. symmetry. by apply slot_index. Qed.

Lemma gap_wrap f n m :
  fifo_ok f -> in_ f = u32 n -> out f = u32 m -> m <= n <= m + size f -> u32 (in_ f - out f) = n - m.
Proof.
  intros Hok -> -> Hg. pose proof (fifo_size f Hok). unfold wrap.
  rewrite <- Zminus_mod. apply Z.mod_small. pow2. lia.
Qed.

Lemma fifo_ok_indices f i o :
  fifo_ok f -> uint 32 i -> uint 32 o -> u32 (i - o) <= size f -> fifo_ok (Kfifo (buffer f) (size f) i o).
Proof. intros (Hk & _) ? ? ?. done. Qed.

Lemma wrap_succ n k : u32 (u32 n + k) = u32 (n + k).
Proof. unfold wrap. by rewrite Z.add_mod_idemp_l. Qed.

Lemma spsc_step_inv st st' : spsc_inv st -> spsc_step st st' -> spsc_inv st'.
Proof.
  intros [Hok Hlen Hin Hout Hgap Hpre Hdata Hw Hr] Hstep.
  pose proof (fifo_size _ Hok) as Hsize.
  destruct Hstep as [Hs|Hs];
    [destruct Hs as [f b r s g data len|f b r s g p pos Hpos|f b r s g p]
    |destruct Hs as [f b w s g len Hl|f b w s g len got Hl|f b w s g len got Hl]]; cbn [fifo store_ wr rd sent rcvd] in *;
    pose proof (zlen_nonneg s); pose proof (zlen_nonneg g).
  - constructor; cbn [fifo store_ wr rd sent rcvd]; try done.
    pose proof (zlen_nonneg data).
    assert (E : len = Z.min (zlen data) (size f - (zlen s - zlen g))).
    { unfold len. by rewrite (free_space f (zlen s - zlen g) Hok (gap_wrap f _ _ Hok Hin Hout Hgap)). }
    rewrite zlen_take by lia. split; [lia|]. split; [lia|]. intros. lia.
  - destruct Hw as (Hp & Hfit & Hdone). rewrite slot_mod by (done || lia).
    rewrite Hin, <- Z.add_mod_idemp_l, wrap_mod_size, Z.add_mod_idemp_l by (done || lia).
    set (k := (zlen s + pos) mod size f).
    assert (0 <= k < zlen b) by (rewrite Hlen; apply Z.mod_pos_bound; lia).
    constructor; cbn [fifo store_ wr rd sent rcvd]; try done.
    + by rewrite zlen_upd.
    + intros i Hi. rewrite at_upd_ne; [by apply Hdata|lia|].
      unfold k. replace (zlen s + pos) with (i + (zlen s + pos - i)) by lia. apply mod_distinct. lia.
    + split; [lia|]. split; [done|]. intros j Hj. destruct (Z.eq_dec j pos) as [->|].
      * rewrite at_upd_eq by done. done.
      * rewrite at_upd_ne; [apply Hdone; lia|lia|].
        unfold k. replace (zlen s + pos) with (zlen s + j + (pos - j)) by lia. apply mod_distinct. lia.
  - destruct Hw as (Hp & Hfit & Hdone). pose proof (zlen_nonneg p).
    assert (Hi' : u32 (in_ f + zlen p) = u32 (zlen (s ++ p))) by (by rewrite Hin, wrap_succ, zlen_app).
    constructor; cbn [fifo store_ wr rd sent rcvd in_ out size buffer]; try done; rewrite ?zlen_app.
    + apply fifo_ok_indices; [done|by apply uint_wrap|apply Hok|]. rewrite Hi', Hout.
      unfold wrap. rewrite <- Zminus_mod, zlen_app, Z.mod_small; [lia|pow2; lia].
    + lia.
    + intros i Hi. rewrite at_app_l by lia. by apply Hpre.
    + intros i Hi. destruct (Z.lt_ge_cases i (zlen s)).
      * rewrite at_app_l by lia. apply Hdata. lia.
      * rewrite at_app_r by lia. rewrite <- Hdone by lia. do 2 f_equal. lia.
    + destruct r as [|len got]; [done|]. destruct Hr as (? & ? & Hg). split; [lia|]. split; [lia|].
      intros j Hj. rewrite at_app_l by lia. by apply Hg.
  - constructor; cbn [fifo store_ wr rd sent rcvd]; try done.
    rewrite (gap_wrap f _ _ Hok Hin Hout Hgap). change (zlen (@nil Z)) with 0.
    split; [lia|]. split; [lia|]. intros. lia.
  - destruct Hr as (Hgl & Hfit & Hgot). pose proof (zlen_nonneg got).
    constructor; cbn [fifo store_ wr rd sent rcvd]; try done.
    rewrite zlen_app. replace (zlen [_]) with 1 by done. split; [lia|]. split; [done|].
    intros j Hj. destruct (Z.lt_ge_cases j (zlen got)).
    + rewrite at_app_l by lia. apply Hgot. lia.
    + rewrite at_app_r by lia. replace j with (zlen got) by lia. rewrite Z.sub_diag. cbn.
      rewrite slot_mod by (done || lia).
      rewrite Hout, <- Z.add_mod_idemp_l, wrap_mod_size, Z.add_mod_idemp_l by (done || lia). apply Hdata. lia.
  - destruct Hr as (Hgl & Hfit & Hgot). pose proof (zlen_nonneg got). subst len.
    assert (Ho' : u32 (out f + zlen got) = u32 (zlen (g ++ got))) by (by rewrite Hout, wrap_succ, zlen_app).
    constructor; cbn [fifo store_ wr rd sent rcvd in_ out size buffer]; try done; rewrite ?zlen_app.
    + apply fifo_ok_indices; [done|apply Hok|by apply uint_wrap|]. rewrite Ho', Hin.
      unfold wrap. rewrite <- Zminus_mod, zlen_app, Z.mod_small; [lia|pow2; lia].
    + lia.
    + intros i Hi. destruct (Z.lt_ge_cases i (zlen g)).
      * rewrite at_app_l by lia. apply Hpre. lia.
      * rewrite at_app_r, Hgot by lia. f_equal. lia.
    + intros i Hi. apply Hdata. lia.
    + destruct w as [|p pos]; [done|]. destruct Hw as (? & ? & ?). split; [lia|]. split; [lia|done].
Qed.

(** A freshly initialised FIFO of size [2^k], both sides idle. *)
Definition spsc_init (k : Z) (bytes : list Z) : spsc :=
  Spsc (Kfifo 1%positive (2 ^ k) 0 0) bytes WIdle RIdle [] [].

Lemma spsc_init_inv k bytes : 0 <= k <= 31 -> zlen bytes = 2 ^ k -> spsc_inv (spsc_init k bytes).
Proof.
  intros Hk Hl. pose proof (pow2_bounds k Hk).
  constructor; cbn; try done; try (unfold zlen; simpl; lia).
  split; [eauto|]. cbn. split; [done|]. split; [done|]. change (u32 (0 - 0)) with 0. lia.
Qed.

Lemma spsc_reachable_inv k bytes st :
  0 <= k <= 31 -> zlen bytes = 2 ^ k -> rtc spsc_step (spsc_init k bytes) st -> spsc_inv st.
Proof.
  intros Hk Hl Hst. pose proof (spsc_init_inv k bytes Hk Hl) as HI. revert HI.
  induction Hst as [|x y z Hxy _ IH]; [done|]. intros HI. apply IH. by eapply spsc_step_inv.
Qed.

(** What has been received, with what the reader has copied, is a prefix of what
    has been sent; the rest of it is the queue in the buffer. *)
Lemma spsc_prefix st : spsc_inv st ->
  let got := match rd st with RCopy _ got => got | RIdle => [] end in
  rcvd st ++ got = take (length (rcvd st ++ got)) (sent st).
Proof.
  intros [Hok Hlen Hin Hout Hgap Hpre Hdata Hw Hr] got.
  pose proof (zlen_nonneg (rcvd st)). pose proof (zlen_nonneg got).
  assert (Hg : zlen (rcvd st ++ got) <= zlen (sent st) /\
    forall i, 0 <= i < zlen (rcvd st ++ got) -> at_ (rcvd st ++ got) i = at_ (sent st) i).
  { unfold got in *. rewrite zlen_app in *. destruct (rd st) as [|len g].
    - rewrite app_nil_r. change (zlen (@nil Z)) with 0. split; [lia|]. intros i Hi. apply Hpre. lia.
    - destruct Hr as (? & ? & Hg). split; [lia|]. intros i Hi. destruct (Z.lt_ge_cases i (zlen (rcvd st))).
      + rewrite at_app_l by lia. apply Hpre. lia.
      + rewrite at_app_r, Hg by lia. f_equal. lia. }
  destruct Hg as [Hg1 Hg2].
  replace (length (rcvd st ++ got)) with (Z.to_nat (zlen (rcvd st ++ got))) by (unfold zlen; lia).
  pose proof (zlen_nonneg (rcvd st ++ got)).
  apply at_ext; [rewrite zlen_take; lia|]. intros i Hi. rewrite at_take by lia. by apply Hg2.
Qed.
Lemma spsc_queue st : spsc_inv st ->
  exists q, zlen q = u32 (in_ (fifo st) - out (fifo st)) /\ zlen q = zlen (sent st) - zlen (rcvd st) /\
    holds_queue (store_ st) (size (fifo st)) (out (fifo st)) q.
Proof.
  intros [Hok Hlen Hin Hout Hgap Hpre Hdata _ _]. pose proof (fifo_size _ Hok). pose proof (zlen_nonneg (rcvd st)).
  exists (drop (Z.to_nat (zlen (rcvd st))) (sent st)). split; [|split].
  - rewrite (gap_wrap _ _ _ Hok Hin Hout Hgap), zlen_drop by lia. lia.
  - rewrite zlen_drop by lia. lia.
  - intros i Hi. rewrite zlen_drop in Hi by lia. rewrite at_drop by lia.
    rewrite Hout, <- Z.add_mod_idemp_l, wrap_mod_size, Z.add_mod_idemp_l by (done || lia).
    by rewrite Hdata by lia.
Qed.

(** A call of [__kfifo_put] that is not interrupted is a run of the writer. *)
Lemma writer_bytes f r s g p b : fifo_ok f -> zlen p <= size f -> zlen b = size f -> forall n, (n <= length p)%nat ->
  exists b', rtc writer_step (Spsc f b (WCopy p 0) r s g) (Spsc f b' (WCopy p (Z.of_nat n)) r s g) /\ zlen b' = zlen b /\
    (forall j, 0 <= j < Z.of_nat n -> at_ b' ((in_ f + j) mod size f) = at_ p j) /\
    (forall k, (forall j, 0 <= j < Z.of_nat n -> k <> (in_ f + j) mod size f) -> at_ b' k = at_ b k).
Proof.
  intros Hok Hp Hb n Hn. pose proof (fifo_size f Hok). induction n as [|n IH].
  { exists b. split; [reflexivity|]. split; [done|]. split; [lia|done]. }
  destruct IH as (b' & R & Hl & H1 & H2); [lia|]. assert (0 <= Z.of_nat n < zlen p) as Hpos by (unfold zlen; lia).
  pose proof (Z.mod_pos_bound (in_ f + Z.of_nat n) (size f) ltac:(lia)).
  exists (upd b' ((in_ f + Z.of_nat n) mod size f) (at_ p (Z.of_nat n))). split; [|split; [by rewrite zlen_upd|split]].
  - eapply rtc_r; [exact R|]. replace (Z.of_nat (S n)) with (Z.of_nat n + 1) by lia. rewrite <- (slot_mod f (in_ f) (zlen p)) by (done || lia).
    by apply w_byte.
  - intros j Hj. destruct (Z.eq_dec j (Z.of_nat n)) as [->|Hne]; [apply at_upd_eq; lia|].
    rewrite at_upd_ne; [apply H1; lia|lia|]. replace (in_ f + Z.of_nat n) with (in_ f + j + (Z.of_nat n - j)) by lia. apply mod_distinct. lia.
  - intros k Hk. rewrite at_upd_ne; [|lia|intros <-; apply (Hk (Z.of_nat n)); [lia|done]]. apply H2. intros j Hj. apply Hk. lia.
Qed.
Lemma put_writer_steps f b r s g (q : list Z) (h : mem) buf data len : fifo_ok f -> zlen b = size f -> zlen q = u32 (in_ f - out f) ->
  h !! buffer f = Some b -> buf <> buffer f -> h !! buf = Some data -> 0 <= len <= zlen data ->
  wp (__kfifo_put f buf len) (fun '(n, f') h' => n = Z.min len (size f - zlen q) /\ exists b', h' = <[buffer f := b']> h /\
    rtc writer_step (Spsc f b WIdle r s g) (Spsc f' b' WIdle r (s ++ take (Z.to_nat n) data) g)) h.
Proof.
  intros Hok Hb Hq Hh Hne Hd Hl. pose proof (fifo_size f Hok). assert (zlen q <= size f) by (rewrite Hq; apply Hok).
  pose proof (zlen_nonneg q). eapply wp_mono; [by eapply (kfifo_put_raw f h q b)|].
  intros [n f'] h' (En & -> & b2 & -> & Hl2 & Hin & Hout). split; [done|]. exists b2. split; [done|].
  set (p := take (Z.to_nat n) data). assert (zlen p = n) as Hp by (unfold p; rewrite zlen_take; lia).
  destruct (writer_bytes f r s g p b Hok ltac:(lia) Hb (length p) ltac:(done)) as (b' & R & Hl' & W1 & W2).
  assert (b' = b2) as ->.
  { apply at_ext; [lia|]. intros k Hk. change (Z.of_nat (length p)) with (zlen p) in *. rewrite Hp in *.
    assert (k = (in_ f + (k - in_ f) mod size f) mod size f) as Ek.
    { rewrite Z.add_mod_idemp_r by lia. replace (in_ f + (k - in_ f)) with k by lia. symmetry. apply Z.mod_small. lia. }
    pose proof (Z.mod_pos_bound (k - in_ f) (size f) ltac:(lia)). destruct (Z.lt_ge_cases ((k - in_ f) mod size f) n) as [Hj|Hj].
    - rewrite Ek, W1, Hin by lia. unfold p. by apply at_take.
    - assert (forall j, 0 <= j < n -> k <> (in_ f + j) mod size f) as Hno.
      { intros j Hj' ->. rewrite Zminus_mod_idemp_l in Hj. replace (in_ f + j - in_ f) with j in Hj by lia.
        rewrite Z.mod_small in Hj by lia. lia. }
      by rewrite W2, Hout. }
  eapply rtc_l; [|eapply rtc_r; [exact R|]].
  - pose proof (w_begin f b r s g (take (Z.to_nat len) data)) as S. cbv zeta in S. rewrite zlen_take in S by lia.
    rewrite (free_space f (zlen q)) in S by done. rewrite take_take in S.
    replace (Z.to_nat _ `min` Z.to_nat len)%nat with (Z.to_nat n) in S by lia. exact S.
  - change (Z.of_nat (length p)) with (zlen p). rewrite <- Hp. apply w_end.
Qed.

(** So is a call of [__kfifo_get] for the reader. *)
Lemma reader_bytes f b w s g len : forall n, Z.of_nat n <= len ->
  exists got, rtc reader_step (Spsc f b w (RCopy len []) s g) (Spsc f b w (RCopy len got) s g) /\ zlen got = Z.of_nat n /\
    forall j, 0 <= j < Z.of_nat n -> at_ got j = at_ b (fifo_slot f (out f) len j).
Proof.
  induction n as [|n IH]; intros Hn; [exists []; split; [reflexivity|]; split; [done|lia]|].
  destruct IH as (got & R & Hl & H); [lia|]. exists (got ++ [at_ b (fifo_slot f (out f) len (zlen got))]).
  split; [eapply rtc_r; [exact R|apply r_byte; lia]|]. split; [rewrite zlen_app, Hl; change (zlen [_]) with 1; lia|].
  intros j Hj. destruct (Z.eq_dec j (zlen got)) as [->|Hne].
  - by rewrite at_app_r, Z.sub_diag by lia.
  - rewrite at_app_l by lia. apply H. lia.
Qed.
Lemma get_reader_steps f b w s g (q : list Z) (h : mem) buf old len : fifo_ok f -> zlen b = size f -> zlen q = u32 (in_ f - out f) ->
  holds_queue b (size f) (out f) q -> h !! buffer f = Some b -> buf <> buffer f -> h !! buf = Some old -> 0 <= len <= zlen old ->
  wp (__kfifo_get f buf len) (fun '(n, f') h' => n = Z.min len (zlen q) /\ exists new, h' = <[buf := new]> h /\
    rtc reader_step (Spsc f b w RIdle s g) (Spsc f' b w RIdle s (g ++ take (Z.to_nat n) new))) h.
Proof.
  intros Hok Hb Hq Hrep Hh Hne Hd Hl. assert (zlen q <= size f) by (rewrite Hq; apply Hok).
  pose proof (zlen_nonneg q). eapply wp_mono; [by eapply (kfifo_get_raw f h q b)|].
  intros [n f'] h' (En & -> & _ & new & -> & Hl2 & Hin & _). split; [done|]. exists new. split; [done|].
  destruct (reader_bytes f b w s g n (Z.to_nat n)) as (got & R & Hg & H1); [lia|].
  assert (take (Z.to_nat n) new = got) as ->.
  { apply at_ext; [rewrite zlen_take; lia|]. intros k Hk. rewrite zlen_take in Hk by lia. rewrite at_take, Hin, H1 by lia.
    rewrite slot_mod by (done || lia). symmetry. apply Hrep. lia. }
  eapply rtc_l; [|eapply rtc_r; [exact R|apply r_end; lia]]. pose proof (r_begin f b w s g len ltac:(lia)) as S. rewrite <- Hq in S. by rewrite En.
Qed.

(** ** Properties *)

(** C1. Every sequence of locked [kfifo_put] and [kfifo_get] calls behaves as
    the same sequence on a queue of capacity [size]: it accepts and returns the
    same bytes, never faults, and leaves a FIFO that represents the resulting
    queue, whatever the free-running indices have wrapped to. *)
Theorem kfifo_refines_queue ubuf ops f q (h : mem) :
  rep h f q -> ubuf <> buffer f -> Forall op_ok ops ->
  wp (run_ops ubuf f ops) (fun '(rs, f') h' =>
    exists q', queue_ops (size f) q ops = (rs, q') /\ rep h' f' q') h.
Proof. apply run_ops_spec. Qed.

Definition wrap_fifo : kfifo := Kfifo 1%positive 4 0xFFFFFFFE 0xFFFFFFFE.
Definition wrap_mem : mem := {[1%positive := [0; 0; 0; 0]]}.

Lemma kfifo_refines_queue_witness :
  (fst ∘ fst <$> run_ops 2%positive wrap_fifo [Put [1; 2; 3]; Get 2; Put [4; 5; 6; 7]; Get 9] wrap_mem)
    = Some [Accepted 3; Got [1; 2]; Accepted 3; Got [3; 4; 5; 6]] /\
  wp (run_ops 2%positive wrap_fifo [Put [1; 2; 3]; Get 2; Put [4; 5; 6; 7]; Get 9]) (fun '(rs, f') h' =>
    exists q', queue_ops 4 [] [Put [1; 2; 3]; Get 2; Put [4; 5; 6; 7]; Get 9] = (rs, q') /\ rep h' f' q') wrap_mem.
Proof.
  split; [vm_compute; reflexivity|].
  apply (kfifo_refines_queue 2%positive _ wrap_fifo []); [|done|by repeat constructor].
  split; [|split; [done|]].
  - split; [exists 2; done|]. done.
  - exists [0; 0; 0; 0]. split; [reflexivity|]. split; [done|]. intros i Hi. unfold zlen in Hi. simpl in Hi. lia.
Defined.

(** [kfifo_alloc] rounds the size up to the next power of two (below twice
    the request) and returns an empty FIFO on a fresh buffer, or fails with
    [-ENOMEM] leaking nothing: the buffer is freed when the structure cannot be
    allocated. *)
Theorem kfifo_alloc_correct kmalloc kfree got sz (h : mem) :
  kmalloc_ok kmalloc -> kfree_ok kfree -> 1 <= sz <= 2 ^ 31 ->
  wp (kfifo_alloc kmalloc kfree got sz) (fun r h' => match r with
    | inl e => e = - ENOMEM /\ h' = h
    | inr f => rep h' f [] /\ sz <= size f < 2 * sz /\ h !! buffer f = None /\ delete (buffer f) h' = h
    end) h.
Proof. apply kfifo_alloc_spec. Qed.

Definition bump_kmalloc (n : Z) : C (option block) := fun h =>
  let b := fresh (dom h) in Some (Some b, <[b := replicate (Z.to_nat n) 0]> h).
Definition map_kfree (b : block) : C unit := fun h => Some (tt, delete b h).

Lemma kfifo_alloc_correct_witness :
  kmalloc_ok bump_kmalloc /\
  wp (kfifo_alloc bump_kmalloc map_kfree true 100) (fun r h' => match r with
    | inl e => e = - ENOMEM /\ h' = ∅
    | inr f => rep h' f [] /\ 100 <= size f < 2 * 100 /\ (∅ : mem) !! buffer f = None /\ delete (buffer f) h' = ∅
    end) ∅.
Proof.
  assert (Hm : kmalloc_ok bump_kmalloc).
  { intros n h Hn. eexists _, _. split; [reflexivity|]. cbv beta zeta.
    split; [apply not_elem_of_dom, is_fresh|]. eexists. split; [|done].
    unfold zlen. rewrite length_replicate. lia. }
  split; [exact Hm|]. apply kfifo_alloc_correct; [exact Hm| |lia].
  intros b h _. eexists _, _. done.
Defined.

(** C34. With one writer and one reader and no lock, in every interleaving of
    their byte moves and index updates the bytes received so far, including the
    ones the reader has copied but not yet released, are a prefix of the bytes
    sent, and nothing sent and not yet received has been overwritten. A call of
    [__kfifo_put] by the idle writer does not fault, accepts as many bytes as
    there is room for, and does what a run of the writer's steps does that sends
    them; a call of [__kfifo_get] by the idle reader returns as many bytes as
    there are, and does what a run of the reader's steps does that receives
    them. *)
Theorem kfifo_spsc_safe k bytes st :
  0 <= k <= 31 -> zlen bytes = 2 ^ k -> rtc spsc_step (spsc_init k bytes) st ->
  (let got := match rd st with RCopy _ got => got | RIdle => [] end in
   rcvd st ++ got = take (length (rcvd st ++ got)) (sent st)) /\
  (forall i, zlen (rcvd st) <= i < zlen (sent st) ->
    at_ (store_ st) (i mod size (fifo st)) = at_ (sent st) i) /\
  (forall (h : mem) buf old len, h !! buffer (fifo st) = Some (store_ st) -> buf <> buffer (fifo st) ->
    h !! buf = Some old -> 0 <= len <= zlen old ->
    let held := zlen (sent st) - zlen (rcvd st) in
    (wr st = WIdle -> wp (__kfifo_put (fifo st) buf len) (fun '(n, f') h' =>
       n = Z.min len (size (fifo st) - held) /\ exists b', h' = <[buffer (fifo st) := b']> h /\
       rtc writer_step st (Spsc f' b' WIdle (rd st) (sent st ++ take (Z.to_nat n) old) (rcvd st))) h) /\
    (rd st = RIdle -> wp (__kfifo_get (fifo st) buf len) (fun '(n, f') h' =>
       n = Z.min len held /\ exists new, h' = <[buf := new]> h /\
       rtc reader_step st (Spsc f' (store_ st) (wr st) RIdle (sent st) (rcvd st ++ take (Z.to_nat n) new))) h)).
Proof.
  intros Hk Hl Hst. apply spsc_reachable_inv in Hst; [|done..].
  split; [by apply spsc_prefix|]. split; [apply Hst|]. intros h buf old len H1 H2 H3 H4.
  destruct (spsc_queue st Hst) as (q & Hq & Hh & Hrep). destruct Hst as [Hok Hlen Hin Hout Hgap Hpre Hdata _ _].
  destruct st as [f b w r s g]. cbn [fifo store_ wr rd sent rcvd] in *. rewrite <- !Hh. split; intros ->.
  - by eapply put_writer_steps.
  - by eapply get_reader_steps.
Qed.

Definition spsc_demo : spsc :=
  Spsc (Kfifo 1%positive 2 1 0) [7; 0] WIdle (RCopy 1 [7]) [7] [].

Lemma kfifo_spsc_safe_witness :
  rtc spsc_step (spsc_init 1 [0; 0]) spsc_demo /\ [] ++ [7] = take 1 (sent spsc_demo).
Proof.
  assert (H : rtc spsc_step (spsc_init 1 [0; 0]) spsc_demo).
  { eapply rtc_l; [apply by_writer, (w_begin (Kfifo 1%positive (2 ^ 1) 0 0) [0; 0] RIdle [] [] [7])|].
    eapply rtc_l; [apply by_writer, (w_byte (Kfifo 1%positive (2 ^ 1) 0 0) [0; 0] RIdle [] [] [7] 0); done|].
    eapply rtc_l; [apply by_writer, (w_end (Kfifo 1%positive (2 ^ 1) 0 0) [7; 0] RIdle [] [] [7])|].
    eapply rtc_l; [apply by_reader, (r_begin (Kfifo 1%positive (2 ^ 1) 1 0) [7; 0] WIdle [7] [] 5); done|].
    eapply rtc_l; [apply by_reader, (r_byte (Kfifo 1%positive (2 ^ 1) 1 0) [7; 0] WIdle [7] [] 1 []); done|].
    apply rtc_refl. }
  split; [exact H|].
  destruct (kfifo_spsc_safe 1 [0; 0] spsc_demo) as [E _]; [lia|reflexivity|exact H|exact E].
Defined.
