(* ===== verification/Sort.v ===== *)
(** * Heapsort

    [lib/sort.c]: the array is an object of bytes, elements are [size] bytes
    wide, and the counters are the pre-scaled byte offsets of the source, kept
    as 32-bit [int] and [size_t] values.  The comparison and the optional swap
    function are parameters; [u32_swap] and [generic_swap] are modelled and
    shown to exchange two elements.  [sort] returns a sorted permutation of the
    elements for every array shorter than 2^31 bytes. *)

From Stdlib Require Import ZArith Lia.
From stdpp Require Import base tactics numbers list gmap option.
From S2P Require Import Prelude.

(** ** Swap functions *)
Definition u32_swap (a b : ptr) (size : Z) : C unit :=
  let* t := load_u32 a in
  let* v := load_u32 b in
  store_u32 a v ;;
  store_u32 b t.

Definition generic_swap (a b : ptr) (size : Z) : C unit :=
  while (S (Z.to_nat size)) (fun '(x, y, size) =>
    let* t := load a.1 x in
    let* v := load b.1 y in
    store a.1 x v ;;
    store b.1 y t ;;
    let size := size - 1 in
    ret (if 0 <? size then inl (x + 1, y + 1, size) else inr tt)) (a.2, b.2, size).

(** ** The sort *)
Section Sort.
Context (cmp_func : ptr -> ptr -> C Z).

(** The inner loop [for (r = r0; r * 2 + size < n; r = c)] both phases share. *)
Definition sift (swap_func : ptr -> ptr -> Z -> C unit) (base : block) (size n r0 : Z) : C unit :=
  while (S (Z.to_nat n)) (fun r =>
    if u32 (r * 2 + size) <? u32 n then
      let c := s32 (r * 2 + size) in
      let* c :=
        (if u32 c <? u32 (n - size) then
           let* v := cmp_func (base, c) (base, c + size) in
           ret (if v <? 0 then s32 (c + size) else c)
         else ret c) in
      let* v := cmp_func (base, r) (base, c) in
      if 0 <=? v then ret (inr tt) else
      swap_func (base, r) (base, c) (s32 size) ;;
      ret (inl c)
    else ret (inr tt)) r0.

Definition sort (base : block) (num size : Z)
    (swap_func : option (ptr -> ptr -> Z -> C unit)) : C unit :=
  let i := s32 (u32 (num / 2 - 1) * size) in
  let n := s32 (num * size) in
  let swap_func :=
    match swap_func with
    | Some f => f
    | None => if size =? 4 then u32_swap else generic_swap
    end in
  (* heapify *)
  while (S (Z.to_nat num)) (fun i =>
    if 0 <=? i then
      sift swap_func base size n i ;; ret (inl (s32 (i - size)))
    else ret (inr tt)) i ;;
  (* sort *)
  while (S (Z.to_nat num)) (fun i =>
    if 0 <? i then
      swap_func (base, 0) (base, i) (s32 size) ;;
      sift swap_func base size i 0 ;; ret (inl (s32 (i - size)))
    else ret (inr tt)) (s32 (n - size)).
End Sort.

(** ** Elements of a byte array *)
Definition elem (size : Z) (l : list Z) (i : Z) : list Z :=
  take (Z.to_nat size) (drop (Z.to_nat (i * size)) l).
Definition elems (size num : Z) (l : list Z) : list (list Z) := elem size l <$> seqZ 0 num.

(** [l'] is [l] with the elements [i] and [j] exchanged. *)
Definition swapped (size num : Z) (l l' : list Z) (i j : Z) : Prop :=
  zlen l' = zlen l /\ elem size l' i = elem size l j /\ elem size l' j = elem size l i /\
  forall k, 0 <= k < num -> k <> i -> k <> j -> elem size l' k = elem size l k.

(** What [sort] asks of a swap function. *)
Definition swap_ok (size num : Z) (swap_func : ptr -> ptr -> Z -> C unit) : Prop :=
  forall (h : mem) b l i j, h !! b = Some l -> Forall (uint 8) l -> zlen l = num * size ->
    0 <= i < num -> 0 <= j < num -> i <> j ->
    wp (swap_func (b, i * size) (b, j * size) size) (fun _ h' => exists l',
      h' = <[b := l']> h /\ Forall (uint 8) l' /\ swapped size num l l' i j) h.

(** The bytewise form of an exchange. *)
Definition byte_swapped (size : Z) (l l' : list Z) (x y : Z) : Prop :=
  zlen l' = zlen l /\
  (forall k, 0 <= k < size -> at_ l' (x + k) = at_ l (y + k) /\ at_ l' (y + k) = at_ l (x + k)) /\
  (forall k, ~ x <= k < x + size -> ~ y <= k < y + size -> at_ l' k = at_ l k).

Lemma elem_eq size l l' i j :
  0 <= size -> 0 <= i -> 0 <= j -> (i + 1) * size <= zlen l -> (j + 1) * size <= zlen l' ->
  (forall k, 0 <= k < size -> at_ l (i * size + k) = at_ l' (j * size + k)) ->
  elem size l i = elem size l' j.
Proof.
  intros Hs Hi Hj Hl Hl' H. unfold elem. apply at_ext.
  - rewrite !zlen_take, !zlen_drop by nia. nia.
  - intros k Hk. rewrite zlen_take, zlen_drop in Hk by nia.
    rewrite !at_take, !at_drop by nia. apply H. lia.
Qed.

Lemma byte_swapped_elems size num l l' i j :
  0 < size -> zlen l = num * size -> 0 <= i < num -> 0 <= j < num -> i <> j ->
  byte_swapped size l l' (i * size) (j * size) -> swapped size num l l' i j.
Proof.
  intros Hs Hl Hi Hj Hij (Hlen & Hin & Hout). split; [done|].
  repeat split; [| |intros q Hq Hqi Hqj]; apply elem_eq; try nia; intros k Hk.
  - by apply Hin.
  - by apply Hin.
  - apply Hout; nia.
Qed.

(** ** The two built-in swaps *)
Lemma generic_swap_ok size num : 0 < size -> swap_ok size num generic_swap.
Proof.
  intros Hs h b l i j Hb Hf Hl Hi Hj Hij. unfold generic_swap. cbn [fst snd].
  eapply wp_mono.
  - apply (wp_while (fun '(x, y, m) h' => exists l', h' = <[b := l']> h /\ Forall (uint 8) l' /\
      0 < m <= size /\ x = i * size + (size - m) /\ y = j * size + (size - m) /\
      byte_swapped (size - m) l l' (i * size) (j * size))
      (fun _ h' => exists l', h' = <[b := l']> h /\ Forall (uint 8) l' /\
        byte_swapped size l l' (i * size) (j * size)) (fun '(x, y, m) => Z.to_nat m)).
    + exists l. rewrite insert_id by done. repeat split; try done; try lia. 
    + lia.
    + intros [[x y] m] h' (l' & -> & Hf' & Hm & -> & -> & Hlen & Hin & Hout).
      set (x := i * size + (size - m)). set (y := j * size + (size - m)).
      assert (0 <= x < zlen l') by nia. assert (0 <= y < zlen l') by nia. assert (x <> y) by nia.
      wp_steps.
      set (l'' := upd (upd l' x (at_ l' y)) y (at_ l' x)).
      assert (byte_swapped (size - m + 1) l l'' (i * size) (j * size)) as Hbs.
      { split; [unfold l''; by rewrite !zlen_upd|]. split.
        - intros k Hk. unfold l''. destruct (Z.eq_dec k (size - m)) as [->|].
          + fold x y. rewrite at_upd_eq by (rewrite zlen_upd; lia).
            rewrite at_upd_ne, at_upd_eq by lia.
            split; symmetry; rewrite Hout by nia; done.
          + rewrite !at_upd_ne by nia. apply Hin. lia.
        - intros k Hk1 Hk2. unfold l''. rewrite !at_upd_ne by nia. apply Hout; nia. }
      assert (Forall (uint 8) l'').
      { unfold l''. apply Forall_upd; [apply Forall_upd; [done|]|]; by apply Forall_at. }
      destruct (0 <? m - 1) eqn:E; b2p.
      * split; [|lia]. exists l''. rewrite !insert_insert_eq. split; [done|]. split; [done|].
        split; [lia|]. split; [lia|]. split; [lia|].
        replace (size - (m - 1)) with (size - m + 1) by lia. done.
      * exists l''. rewrite !insert_insert_eq. split; [done|]. split; [done|].
        replace size with (size - m + 1) at 1 by lia. done.
  - intros _ h' (l' & -> & Hf' & Hbs). exists l'. split; [done|]. split; [done|].
    by apply byte_swapped_elems.
Qed.

Lemma put4_in l x b0 b1 b2 b3 :
  0 <= x -> x + 4 <= zlen l ->
  at_ (put4 l x b0 b1 b2 b3) x = b0 /\ at_ (put4 l x b0 b1 b2 b3) (x + 1) = b1 /\
  at_ (put4 l x b0 b1 b2 b3) (x + 2) = b2 /\ at_ (put4 l x b0 b1 b2 b3) (x + 3) = b3.
Proof.
  intros. unfold put4. repeat split;
  repeat (rewrite at_upd_ne by lia); rewrite at_upd_eq by (rewrite ?zlen_upd; lia); done.
Qed.
Lemma put4_out l x b0 b1 b2 b3 k :
  0 <= x -> ~ x <= k < x + 4 -> at_ (put4 l x b0 b1 b2 b3) k = at_ l k.
Proof. intros. unfold put4. by rewrite !at_upd_ne by lia. Qed.
Lemma zlen_put4 l x b0 b1 b2 b3 : zlen (put4 l x b0 b1 b2 b3) = zlen l.
Proof. unfold put4. by rewrite !zlen_upd. Qed.
Lemma Forall_put4 l x b0 b1 b2 b3 :
  Forall (uint 8) l -> uint 8 b0 -> uint 8 b1 -> uint 8 b2 -> uint 8 b3 ->
  Forall (uint 8) (put4 l x b0 b1 b2 b3).
Proof. intros. unfold put4. repeat (apply Forall_upd; [|done]). done. Qed.

Lemma u32_swap_ok num : swap_ok 4 num u32_swap.
Proof.
  intros h b l i j Hb Hf Hl Hi Hj Hij. unfold u32_swap.
  assert (forall k, 0 <= k < zlen l -> uint 8 (at_ l k)) as Hat by (intros; by apply Forall_at).
  wp_step. eapply wp_load_u32; [done|lia|lia|].
  wp_step. eapply wp_load_u32; [done|lia|lia|].
  wp_step. eapply wp_store_u32; [done|lia|lia|apply Hat; lia..|].
  eapply wp_store_u32; [by rewrite lookup_insert_eq|lia|rewrite zlen_put4; lia|apply Hat; lia..|].
  eexists. rewrite insert_insert_eq. split; [done|]. split.
  { repeat (apply Forall_put4; [|apply Hat; lia..]). done. }
  apply byte_swapped_elems; [lia..|]. split; [by rewrite !zlen_put4|]. split.
  - intros k Hk.
    match goal with |- context [put4 ?l (i * 4) ?a ?b ?c ?d] =>
      destruct (put4_in l (i * 4) a b c d) as (A0 & A1 & A2 & A3); [lia|lia|];
      set (l1 := put4 l (i * 4) a b c d) in * end.
    assert (zlen l1 = zlen l) as Hl1 by apply zlen_put4.
    match goal with |- context [put4 ?l (j * 4) ?a ?b ?c ?d] =>
      destruct (put4_in l (j * 4) a b c d) as (B0 & B1 & B2 & B3); [lia|lia|] end.
    rewrite (put4_out l1) by lia.
    assert (k = 0 \/ k = 1 \/ k = 2 \/ k = 3) as [-> | [-> | [-> | ->]]] by lia;
      rewrite ?Z.add_0_r; done.
  - intros k Hk1 Hk2. by rewrite !put4_out by lia.
Qed.

(** ** Heaps over an indexed family *)
Section Heap.
Context {T : Type} (le : T -> T -> Prop).
Context (le_trans : forall x y z, le x y -> le y z -> le x z).
Context (le_refl : forall x, le x x).
Implicit Types e : Z -> T.

Definition child (i c : Z) : Prop := c = 2 * i + 1 \/ c = 2 * i + 2.
Definition heap_at e (n i : Z) : Prop := forall c, child i c -> c < n -> le (e c) (e i).
Definition heap e (lo n : Z) : Prop := forall i, lo <= i -> heap_at e n i.

(** A heap but for the place [r], whose children are below its parent. *)
Definition heap_but e (lo n r : Z) : Prop :=
  (forall i, lo <= i -> i <> r -> heap_at e n i) /\
  (forall p c, lo <= p -> child p r -> child r c -> c < n -> le (e c) (e p)).

(** The effect of exchanging [i] and [j], and of any number of exchanges
    inside [[0, n)]. *)
Definition exch e e' (num i j : Z) : Prop :=
  e' i = e j /\ e' j = e i /\ forall k, 0 <= k < num -> k <> i -> k <> j -> e' k = e k.
Definition shuffled e e' (num lo n : Z) : Prop :=
  (forall k, 0 <= k < num -> ~ lo <= k < n -> e' k = e k) /\
  (forall k, lo <= k < n -> exists k', lo <= k' < n /\ e' k = e k') /\
  e' <$> seqZ 0 num ≡ₚ e <$> seqZ 0 num.

Lemma shuffled_refl e num lo n : shuffled e e num lo n.
Proof. split; [done|]. split; [eauto|done]. Qed.

Lemma shuffled_trans e1 e2 e3 num lo n :
  shuffled e1 e2 num lo n -> shuffled e2 e3 num lo n -> shuffled e1 e3 num lo n.
Proof.
  intros (A & B & P) (A' & B' & P'). split; [|split].
  - intros. rewrite A' by done. auto.
  - intros k Hk. destruct (B' k Hk) as (k' & Hk' & ->). apply B, Hk'.
  - by rewrite P'.
Qed.

Lemma seqZ_lookup_fmap e num i : 0 <= i < num -> (e <$> seqZ 0 num) !! Z.to_nat i = Some (e i).
Proof.
  intros. rewrite list_lookup_fmap, (lookup_seqZ_lt 0 num) by lia. cbn. do 2 f_equal. lia.
Qed.

Lemma exch_shuffled e e' num lo n i j :
  exch e e' num i j -> 0 <= lo -> n <= num -> lo <= i < n -> lo <= j < n -> i <> j ->
  shuffled e e' num lo n.
Proof.
  intros (E1 & E2 & E3) Hlo Hn Hi Hj Hij. split; [|split].
  - intros k Hk Hk'. apply E3; [done| |]; intros ->; lia.
  - intros k Hk. destruct (Z.eq_dec k i) as [->|]; [eauto|].
    destruct (Z.eq_dec k j) as [->|]; [eauto|]. exists k. split; [done|]. apply E3; lia.
  - enough (e' <$> seqZ 0 num =
      <[Z.to_nat i := e j]> (<[Z.to_nat j := e i]> (e <$> seqZ 0 num))) as ->.
    { apply Permutation_insert_swap; apply seqZ_lookup_fmap; lia. }
    apply list_eq. intros k. destruct (decide (k < Z.to_nat num)%nat) as [Hk|Hk].
    + replace k with (Z.to_nat (Z.of_nat k)) by lia. rewrite seqZ_lookup_fmap by lia.
      symmetry. destruct (decide (Z.of_nat k = i)) as [->|].
      { rewrite list_lookup_insert_eq; [by rewrite E1|].
        rewrite length_insert, length_fmap, length_seqZ. lia. }
      rewrite list_lookup_insert_ne by lia. destruct (decide (Z.of_nat k = j)) as [->|].
      { rewrite list_lookup_insert_eq; [by rewrite E2|]. rewrite length_fmap, length_seqZ. lia. }
      rewrite list_lookup_insert_ne by lia. rewrite seqZ_lookup_fmap by lia.
      by rewrite E3 by lia.
    + rewrite !lookup_ge_None_2; [done|..];
        rewrite ?length_insert, length_fmap, length_seqZ; lia.
Qed.

(** Pushing the larger child up keeps the heap but for one place. *)
Lemma heap_but_step e e' lo n num r c :
  heap_but e lo n r -> exch e e' num r c -> n <= num -> 0 <= lo <= r -> child r c -> c < n ->
  le (e r) (e c) -> (forall d, child r d -> d < n -> le (e d) (e c)) ->
  heap_but e' lo n c.
Proof.
  intros (Hh & Hp) (E1 & E2 & E3) Hn Hr Hc Hcn Hrc Hd. unfold child in *. split.
  - intros i Hi Hic d Hdi Hdn. unfold child in Hdi.
    destruct (Z.eq_dec i r) as [->|].
    + rewrite E1. destruct (Z.eq_dec d c) as [->|]; [by rewrite E2|].
      rewrite E3 by lia. by apply Hd.
    + rewrite (E3 i) by lia. destruct (Z.eq_dec d r) as [->|].
      * rewrite E1. apply Hp; unfold child; try lia.
      * rewrite E3 by lia. apply Hh; unfold child; lia.
  - intros p d Hpl Hpc Hcd Hdn. unfold child in Hpc, Hcd. assert (p = r) as -> by lia. rewrite E1.
    rewrite E3 by lia. apply Hh; unfold child; lia.
Qed.

Lemma heap_but_done e lo n r :
  heap_but e lo n r -> heap_at e n r -> heap e lo n.
Proof.
  intros (Hh & _) Hr i Hi. destruct (Z.eq_dec i r) as [->|]; [done|by apply Hh].
Qed.

Lemma heap_max e n i : heap e 0 n -> 0 <= i < n -> le (e i) (e 0).
Proof.
  intros Hh Hi. assert (0 <= i) as H0 by lia. revert Hi. pattern i. apply Zlt_0_ind; [|done].
  clear i H0. intros i IH _ Hi.
  destruct (Z.eq_dec i 0) as [->|]; [done|]. set (p := (i - 1) / 2).
  assert (child p i) as Hc by (unfold child, p; dlia).
  apply le_trans with (e p); [apply Hh; [unfold p; dlia|done|lia]|].
  apply IH; unfold p; dlia.
Qed.

(** The invariant of the second phase: the places from [i] on are sorted and
    above the heap of the first [i]. *)
Definition sorting e (num i : Z) : Prop :=
  heap e 0 i /\ (forall j k, i <= j < k -> k < num -> le (e j) (e k)) /\
  (forall j k, 0 <= j < i -> i <= k < num -> le (e j) (e k)).

Lemma sorting_step e e1 e2 num i :
  sorting e num (i + 1) -> 0 < i < num -> exch e e1 num 0 i ->
  shuffled e1 e2 num 0 i -> heap e2 0 i -> sorting e2 num i.
Proof.
  intros (Hh & Hs & Hb) Hi (E1 & E2 & E3) (S1 & S2 & _) Hh2.
  assert (forall k, 0 <= k < i -> exists k', 0 <= k' <= i /\ e2 k = e k') as Hin.
  { intros k Hk. destruct (S2 k Hk) as (k' & Hk' & ->).
    destruct (Z.eq_dec k' 0) as [->|]; [exists i; split; [lia|done]|].
    exists k'. split; [lia|]. apply E3; lia. }
  assert (e2 i = e 0) as Hi0 by (rewrite S1 by lia; done).
  assert (forall k, i < k < num -> e2 k = e k) as Hout.
  { intros k Hk. rewrite S1 by lia. apply E3; lia. }
  split; [done|]. split.
  - intros j k Hj Hk. rewrite (Hout k) by lia. destruct (Z.eq_dec j i) as [->|].
    + rewrite Hi0. apply Hb; lia.
    + rewrite Hout by lia. apply Hs; lia.
  - intros j k Hj Hk. destruct (Hin j Hj) as (j' & Hj' & ->).
    destruct (Z.eq_dec k i) as [->|].
    + rewrite Hi0. apply (heap_max e (i + 1)); [done|lia].
    + rewrite Hout by lia. apply Hb; lia.
Qed.
End Heap.

(** ** Correctness of [sort] *)
Section SortCorrect.
Context (cmp_func : ptr -> ptr -> C Z) (swap_func : ptr -> ptr -> Z -> C unit).
Context (cmp : list Z -> list Z -> Z) (size num : Z).
Context (Hsize : 0 < size) (Hnum : 0 <= num) (Hmax : num * size < 2 ^ 31).
Context (Hcmp : forall (h : mem) b l i j, h !! b = Some l -> zlen l = num * size ->
  0 <= i < num -> 0 <= j < num ->
  cmp_func (b, i * size) (b, j * size) h = Some (cmp (elem size l i) (elem size l j), h)).
Context (Hswap : swap_ok size num swap_func).
Context (cmp_total : forall x y, 0 <= cmp x y -> cmp y x <= 0).
Context (cmp_trans : forall x y z, cmp x y <= 0 -> cmp y z <= 0 -> cmp x z <= 0).

Definition cmp_le (x y : list Z) : Prop := cmp x y <= 0.

Lemma cmp_le_refl x : cmp_le x x.
Proof. unfold cmp_le. destruct (Z.lt_ge_cases 0 (cmp x x)); [apply cmp_total|]; lia. Qed.

Lemma scale_ltb a b : (a * size <? b * size) = (a <? b).
Proof.
  destruct (a <? b) eqn:E; b2p; [apply ltb_t|apply ltb_f]; nia.
Qed.

Lemma scaled_bound i n : 0 <= i <= n -> n <= num -> 0 <= i * size <= num * size.
Proof. nia. Qed.

Lemma wp_cmp b l i j (Q : Z -> mem -> Prop) (h : mem) :
  h !! b = Some l -> zlen l = num * size -> 0 <= i < num -> 0 <= j < num ->
  Q (cmp (elem size l i) (elem size l j)) h -> wp (cmp_func (b, i * size) (b, j * size)) Q h.
Proof. intros ? ? ? ? HQ. eexists _, _. split; [by apply Hcmp|done]. Qed.

(** Choosing the larger child. *)
Lemma larger_child b l n c (h : mem) (Q : Z -> mem -> Prop) :
  h !! b = Some l -> zlen l = num * size -> 0 <= c < n -> n <= num ->
  (forall c', (c' = c \/ c' = c + 1) -> c' < n ->
     (forall d, c <= d <= c + 1 -> d < n -> cmp_le (elem size l d) (elem size l c')) ->
     Q (c' * size) h) ->
  wp (if u32 (c * size) <? u32 (n * size - size) then
        let* v := cmp_func (b, c * size) (b, c * size + size) in
        ret (if v <? 0 then s32 (c * size + size) else c * size)
      else ret (c * size)) Q h.
Proof.
  intros Hb Hl Hc Hn HQ. pose proof (scaled_bound (c + 1) n). pose proof (scaled_bound n n).
  pow2. rewrite !wrap_id by (unfold uint; pow2; nia).
  replace (n * size - size) with ((n - 1) * size) by lia. rewrite scale_ltb.
  replace (c * size + size) with ((c + 1) * size) by lia.
  wp_steps; b2p.
  - eapply wp_cmp; [done|done|lia|lia|]. wp_steps.
    destruct (_ <? 0) eqn:Ev; b2p.
    + rewrite s32_id by lia. apply HQ; [lia|lia|]. intros d Hd1 Hd2.
      assert (d = c \/ d = c + 1) as [-> | ->] by lia; [unfold cmp_le; lia|apply cmp_le_refl].
    + apply HQ; [lia|lia|]. intros d Hd1 Hd2.
      assert (d = c \/ d = c + 1) as [-> | ->] by lia; [apply cmp_le_refl|].
      by apply cmp_total.
  - apply HQ; [lia|lia|]. intros d Hd1 Hd2. assert (d = c) as -> by lia. apply cmp_le_refl.
Qed.

Definition sift_post (b : block) (l : list Z) (lo n : Z) (h h' : mem) : Prop :=
  exists l', h' = <[b := l']> h /\ Forall (uint 8) l' /\ zlen l' = zlen l /\
    shuffled (elem size l) (elem size l') num lo n /\ heap cmp_le (elem size l') lo n.

Lemma sift_spec b l n lo (h : mem) :
  h !! b = Some l -> Forall (uint 8) l -> zlen l = num * size ->
  0 <= lo < n -> n <= num -> heap_but cmp_le (elem size l) lo n lo ->
  wp (sift cmp_func swap_func b size (n * size) (lo * size))
     (fun _ => sift_post b l lo n h) h.
Proof.
  intros Hb Hf Hl Hlo Hn Hh. unfold sift.
  apply (wp_while (fun x h' => exists r l', x = r * size /\ lo <= r < n /\
    h' = <[b := l']> h /\ Forall (uint 8) l' /\ zlen l' = zlen l /\
    shuffled (elem size l) (elem size l') num lo n /\ heap_but cmp_le (elem size l') lo n r)
    (fun _ => sift_post b l lo n h) (fun x => Z.to_nat (n * size - x))).
  - exists lo, l. rewrite insert_id by done. split; [done|]. split; [lia|].
    repeat split; try done; [eauto|apply Hh|apply Hh].
  - nia.
  - intros x h' (r & l' & -> & Hr & -> & Hf' & Hl' & Hsh & Hhb).
    pose proof (scaled_bound n n). pose proof (scaled_bound (r + 1) n). pow2.
    replace (r * size * 2 + size) with ((2 * r + 1) * size) by lia.
    rewrite !(wrap_id 32) by (unfold uint; pow2; nia). rewrite scale_ltb.
    wp_step; b2p.
    + pose proof (scaled_bound (2 * r + 1) n). rewrite s32_id by lia.
      wp_step. eapply larger_child; [by rewrite lookup_insert_eq|lia|lia|done|].
      intros c Hc Hcn Hbig. pose proof (scaled_bound c n).
      wp_step. eapply wp_cmp; [by rewrite lookup_insert_eq|lia|lia|lia|]. wp_step; b2p.
      * wp_step. exists l'. split; [done|]. split; [done|]. split; [done|]. split; [done|].
        eapply heap_but_done; [done|]. intros d Hd Hdn. unfold child in Hd.
        eapply cmp_trans; [apply Hbig; lia|]. by apply cmp_total.
      * rewrite s32_id by nia. wp_step. eapply wp_mono.
        { eapply Hswap; [by rewrite lookup_insert_eq|done|lia..]. }
        intros _ h' (l'' & -> & Hf'' & Hlen & Hex). wp_step. rewrite insert_insert_eq. split; [|nia].
        exists c, l''. split; [done|]. split; [lia|]. split; [done|]. split; [done|].
        split; [lia|]. split.
        -- eapply shuffled_trans; [done|]. eapply (exch_shuffled _ _ _ _ _ r c); [done|lia..].
        -- eapply (heap_but_step _ (elem size l') _ _ _ num r c); try done; try (unfold child; lia).
           ++ unfold cmp_le. lia.
           ++ intros d Hd Hdn. unfold child in Hd. apply Hbig; lia.
    + wp_step. exists l'. split; [done|]. split; [done|]. split; [done|]. split; [done|].
      eapply heap_but_done; [done|]. intros d Hd Hdn. unfold child in Hd. lia.
Qed.

(** The first phase builds a heap, the second empties it from the top. *)
Definition sort_inv (b : block) (l : list Z) (h : mem) (P : (Z -> list Z) -> Prop) (h' : mem) : Prop :=
  exists l', h' = <[b := l']> h /\ Forall (uint 8) l' /\ zlen l' = num * size /\
    shuffled (elem size l) (elem size l') num 0 num /\ P (elem size l').

Lemma shuffled_widen (e e' : Z -> list Z) lo n :
  shuffled e e' num lo n -> 0 <= lo -> n <= num -> shuffled e e' num 0 num.
Proof.
  intros (A & B & P) Hlo Hn. split; [intros; lia|]. split; [|done]. intros k Hk.
  destruct (decide (lo <= k < n)) as [Hin|Hout].
  - destruct (B k Hin) as (k' & ? & ?). exists k'. split; [lia|done].
  - exists k. split; [done|]. by apply A.
Qed.

Lemma sort_inv_step b l h P P' (h1 h2 : mem) l1 l2 lo n :
  h1 = <[b := l1]> h -> zlen l1 = num * size ->
  shuffled (elem size l) (elem size l1) num 0 num ->
  h2 = <[b := l2]> h1 -> Forall (uint 8) l2 -> zlen l2 = zlen l1 ->
  shuffled (elem size l1) (elem size l2) num lo n -> 0 <= lo -> n <= num ->
  (P (elem size l1) -> P' (elem size l2)) -> P (elem size l1) -> sort_inv b l h P' h2.
Proof.
  intros -> Hl Hs -> Hf Hl2 Hs2 Hlo Hn HP HP1. exists l2. rewrite insert_insert_eq.
  split; [done|]. split; [done|]. split; [lia|]. split; [|auto].
  eapply shuffled_trans; [done|]. by eapply shuffled_widen.
Qed.

Lemma heapify_spec b l (h : mem) fuel :
  h !! b = Some l -> Forall (uint 8) l -> zlen l = num * size -> size < 2 ^ 31 ->
  (Z.to_nat num < fuel)%nat ->
  wp (while fuel (fun i =>
    if 0 <=? i then
      sift cmp_func swap_func b size (num * size) i ;; ret (inl (s32 (i - size)))
    else ret (inr tt)) (s32 (u32 (num / 2 - 1) * size)))
    (fun _ => sort_inv b l h (fun e => heap cmp_le e 0 num)) h.
Proof.
  intros Hb Hf Hl Hs Hfuel. pow2.
  assert (num / 2 <= num) by dlia. assert (0 <= num / 2) by dlia.
  rewrite sgn_mul_wrap, s32_id by nia.
  apply (wp_while (fun x h' => exists i, x = i * size /\ -1 <= i < num / 2 /\
    sort_inv b l h (fun e => heap cmp_le e (i + 1) num) h')
    _ (fun x => Z.to_nat (x / size + 1))).
  - exists (num / 2 - 1). split; [done|]. split; [lia|]. exists l. rewrite insert_id by done.
    split; [done|]. split; [done|]. split; [done|]. split; [apply shuffled_refl|].
    intros i Hi c Hc Hcn. unfold child in Hc. dlia.
  - rewrite Z.div_mul by lia. lia.
  - intros x h' (i & -> & Hi & l' & -> & Hf' & Hl' & Hsh & Hhp). wp_step; b2p.
    + assert (0 <= i) by nia. wp_step. eapply wp_mono.
      { eapply (sift_spec b l' num i); [by rewrite lookup_insert_eq|done|done|dlia|done|].
        split; [intros; apply Hhp; lia|]. intros p c Hp Hpr. unfold child in Hpr. lia. }
      intros _ h'' (l'' & -> & Hf'' & Hl'' & Hsh' & Hhp'). wp_step.
      rewrite s32_id by nia. replace (i * size - size) with ((i - 1) * size) by lia. split.
      * exists (i - 1). split; [done|]. split; [lia|]. replace (i - 1 + 1) with i by lia.
        eapply (sort_inv_step b l h (fun _ => True)); try done; lia.
      * rewrite !Z.div_mul by lia. lia.
    + wp_step. exists l'. repeat (split; [done|]). assert (i = -1) as -> by nia. done.
Qed.

Lemma sortdown_spec b l (h : mem) fuel :
  h !! b = Some l -> Forall (uint 8) l -> zlen l = num * size -> size < 2 ^ 31 ->
  (Z.to_nat num < fuel)%nat -> heap cmp_le (elem size l) 0 num ->
  wp (while fuel (fun i =>
    if 0 <? i then
      swap_func (b, 0) (b, i) (s32 size) ;;
      sift cmp_func swap_func b size i 0 ;; ret (inl (s32 (i - size)))
    else ret (inr tt)) (s32 (num * size - size)))
    (fun _ => sort_inv b l h (fun e => forall j k, 0 <= j < k -> k < num -> cmp_le (e j) (e k))) h.
Proof.
  intros Hb Hf Hl Hs Hfuel Hhp. pow2. rewrite (s32_id (num * size - size)) by nia.
  replace (num * size - size) with ((num - 1) * size) by lia.
  apply (wp_while (fun x h' => exists i, x = i * size /\ -1 <= i < num /\ (i = -1 -> num = 0) /\
    sort_inv b l h (fun e => sorting cmp_le e num (i + 1)) h')
    _ (fun x => Z.to_nat (x / size + 1))).
  - exists (num - 1). split; [done|]. split; [lia|]. split; [lia|]. exists l. rewrite insert_id by done.
    split; [done|]. split; [done|]. split; [done|]. split; [apply shuffled_refl|].
    replace (num - 1 + 1) with num by lia. split; [done|]. split; intros; lia.
  - rewrite Z.div_mul by lia. lia.
  - intros x h' (i & -> & Hi & Hi' & l' & -> & Hf' & Hl' & Hsh & Hso). wp_step; b2p.
    + assert (0 < i) by nia. rewrite (s32_id size) by nia.
      wp_step. change 0 with (0 * size). eapply wp_mono.
      { eapply (Hswap _ b l' 0 i); [by rewrite lookup_insert_eq|done|lia..]. }
      intros _ h1 (l1 & -> & Hf1 & Hl1 & Hex). wp_step. eapply wp_mono.
      { eapply (sift_spec b l1 i 0); [by rewrite lookup_insert_eq|done|lia|lia|lia|].
        destruct Hso as (Hh & _). destruct Hex as (_ & _ & Hsame). split.
        - intros k Hk Hk0 c Hc Hcn. unfold child in Hc.
          rewrite !Hsame by lia. apply Hh; unfold child; lia.
        - intros p c Hp Hpr. unfold child in Hpr. lia. }
      intros _ h2 (l2 & -> & Hf2 & Hl2 & Hsh2 & Hh2). wp_step.
      rewrite s32_id by nia. replace (i * size - size) with ((i - 1) * size) by lia. split.
      * exists (i - 1). split; [done|]. split; [lia|]. split; [lia|].
        replace (i - 1 + 1) with i by lia. rewrite insert_insert_eq.
        eapply (sort_inv_step b l h (fun _ => True) _ (<[b := l1]> h) _ l1 l2 0 i); try done; try lia.
        -- eapply shuffled_trans; [done|].
           eapply (exch_shuffled _ _ _ _ _ 0 i); [done|lia..].
        -- by rewrite !insert_insert_eq.
        -- intros _. eapply (sorting_step _ cmp_trans cmp_le_refl (elem size l')); try done; lia.
      * rewrite !Z.div_mul by lia. lia.
    + wp_step. exists l'. repeat (split; [done|]). assert (i = -1 \/ i = 0) as [-> | ->] by nia.
      * intros; lia.
      * destruct Hso as (_ & Hs1 & Hs2). intros j k Hj Hk.
        destruct (Z.eq_dec j 0) as [->|]; [apply Hs2|apply Hs1]; lia.
Qed.
End SortCorrect.

Definition swap_or_default (size : Z) (o : option (ptr -> ptr -> Z -> C unit)) : ptr -> ptr -> Z -> C unit :=
  match o with Some f => f | None => if size =? 4 then u32_swap else generic_swap end.

(** C2. [sort] turns the array into a permutation of its elements in which
    every element is below all later ones, for every number and size of
    elements whose product fits an [int], with a swap function that exchanges
    elements or with the built-in ones; it never accesses a byte outside the
    array and changes no other object.  The comparison is any function of the
    two elements' bytes that is a total preorder. *)
Theorem sort_correct cmp_func swap_func cmp size num (b : block) l (h : mem) :
  0 < size < 2 ^ 31 -> 0 <= num -> num * size < 2 ^ 31 ->
  (forall (h : mem) b l i j, h !! b = Some l -> zlen l = num * size ->
    0 <= i < num -> 0 <= j < num ->
    cmp_func (b, i * size) (b, j * size) h = Some (cmp (elem size l i) (elem size l j), h)) ->
  (forall f, swap_func = Some f -> swap_ok size num f) ->
  (forall x y, 0 <= cmp x y -> cmp y x <= 0) ->
  (forall x y z, cmp x y <= 0 -> cmp y z <= 0 -> cmp x z <= 0) ->
  h !! b = Some l -> Forall (uint 8) l -> zlen l = num * size ->
  exists l', sort cmp_func b num size swap_func h = Some (tt, <[b := l']> h) /\
    zlen l' = zlen l /\ elems size num l' ≡ₚ elems size num l /\
    forall j k, 0 <= j < k -> k < num -> cmp (elem size l' j) (elem size l' k) <= 0.
Proof.
  intros Hs Hn Hmax Hc Hsw Ht Htr Hb Hf Hl.
  assert (swap_ok size num (swap_or_default size swap_func)) as Hsok.
  { unfold swap_or_default. destruct swap_func; [by apply Hsw|].
    case_if E; [b2p; subst; apply u32_swap_ok|apply generic_swap_ok; lia]. }
  enough (wp (sort cmp_func b num size swap_func)
    (fun _ => sort_inv size num b l h (fun e => forall j k, 0 <= j < k -> k < num -> cmp_le cmp (e j) (e k))) h)
    as ([] & h' & Hr & l' & -> & Hf' & Hl' & (_ & _ & HP) & Hso).
  { exists l'. split; [done|]. split; [lia|]. split; [exact HP|exact Hso]. }
  unfold sort. cbv zeta. fold (swap_or_default size swap_func).
  rewrite (s32_id (num * size)) by (pow2; nia).
  wp_step. eapply wp_mono; [eapply heapify_spec; try done; lia|].
  intros _ h1 (l1 & -> & Hf1 & Hl1 & Hsh1 & Hh1). eapply wp_mono.
  { eapply sortdown_spec; try done; [lia|by rewrite lookup_insert_eq|lia|lia]. }
  intros _ h2 (l2 & -> & Hf2 & Hl2 & Hsh2 & Hso). exists l2. rewrite insert_insert_eq.
  repeat (split; [done|]). split; [by eapply shuffled_trans|done].
Qed.

Definition byte_cmp (p q : ptr) : C Z :=
  let* x := load p.1 p.2 in let* y := load q.1 q.2 in ret (x - y).

Lemma sort_correct_witness : exists l',
  sort byte_cmp 1%positive 5 1 None {[1%positive := [3; 1; 4; 1; 5]]} =
    Some (tt, <[1%positive := l']> {[1%positive := [3; 1; 4; 1; 5]]}) /\
  zlen l' = 5 /\ elems 1 5 l' ≡ₚ [[3]; [1]; [4]; [1]; [5]] /\
  forall j k, 0 <= j < k -> k < 5 -> at_ (elem 1 l' j) 0 - at_ (elem 1 l' k) 0 <= 0.
Proof.
  apply (sort_correct byte_cmp None (fun x y => at_ x 0 - at_ y 0) 1 5 1%positive [3; 1; 4; 1; 5]);
    [lia..| |done|lia|lia|done| |done].
  - intros h b l i j Hb Hl Hi Hj.
    assert (wp (byte_cmp (b, i * 1) (b, j * 1)) (fun r h' =>
      r = at_ (elem 1 l i) 0 - at_ (elem 1 l j) 0 /\ h' = h) h) as (r & h' & Hr & -> & ->); [|done].
    unfold byte_cmp. cbn [fst snd]. wp_steps.
    unfold elem. rewrite !at_take, !at_drop by lia. rewrite !Z.add_0_r. done.
  - repeat constructor; unfold uint; pow2; lia.
Defined.
