(* ===== verification/Crc.v ===== *)
(** * Cyclic redundancy checks

    [lib/crc16.c], [crc-ccitt.c], [crc-itu-t.c], [crc-t10dif.c], [crc7.c] and
    [crc32.c] with the table generator [gen_crc32table.c].  The table-driven
    loops are shown equal to the bit-serial shift registers of the tutorial in
    [crc32.c], for every buffer, seed and alignment, and the shift registers to
    compute the remainder of the message polynomial. *)

From Stdlib Require Import ZArith Lia.
From stdpp Require Import base tactics numbers list gmap option.
From S2P Require Import Prelude Bits FindBit.

(** ** Tables *)
Definition crc16_table : list Z := [
   0x0000; 0xc0c1; 0xc181; 0x0140; 0xc301; 0x03c0; 0x0280; 0xc241;
   0xc601; 0x06c0; 0x0780; 0xc741; 0x0500; 0xc5c1; 0xc481; 0x0440;
   0xcc01; 0x0cc0; 0x0d80; 0xcd41; 0x0f00; 0xcfc1; 0xce81; 0x0e40;
   0x0a00; 0xcac1; 0xcb81; 0x0b40; 0xc901; 0x09c0; 0x0880; 0xc841;
   0xd801; 0x18c0; 0x1980; 0xd941; 0x1b00; 0xdbc1; 0xda81; 0x1a40;
   0x1e00; 0xdec1; 0xdf81; 0x1f40; 0xdd01; 0x1dc0; 0x1c80; 0xdc41;
   0x1400; 0xd4c1; 0xd581; 0x1540; 0xd701; 0x17c0; 0x1680; 0xd641;
   0xd201; 0x12c0; 0x1380; 0xd341; 0x1100; 0xd1c1; 0xd081; 0x1040;
   0xf001; 0x30c0; 0x3180; 0xf141; 0x3300; 0xf3c1; 0xf281; 0x3240;
   0x3600; 0xf6c1; 0xf781; 0x3740; 0xf501; 0x35c0; 0x3480; 0xf441;
   0x3c00; 0xfcc1; 0xfd81; 0x3d40; 0xff01; 0x3fc0; 0x3e80; 0xfe41;
   0xfa01; 0x3ac0; 0x3b80; 0xfb41; 0x3900; 0xf9c1; 0xf881; 0x3840;
   0x2800; 0xe8c1; 0xe981; 0x2940; 0xeb01; 0x2bc0; 0x2a80; 0xea41;
   0xee01; 0x2ec0; 0x2f80; 0xef41; 0x2d00; 0xedc1; 0xec81; 0x2c40;
   0xe401; 0x24c0; 0x2580; 0xe541; 0x2700; 0xe7c1; 0xe681; 0x2640;
   0x2200; 0xe2c1; 0xe381; 0x2340; 0xe101; 0x21c0; 0x2080; 0xe041;
   0xa001; 0x60c0; 0x6180; 0xa141; 0x6300; 0xa3c1; 0xa281; 0x6240;
   0x6600; 0xa6c1; 0xa781; 0x6740; 0xa501; 0x65c0; 0x6480; 0xa441;
   0x6c00; 0xacc1; 0xad81; 0x6d40; 0xaf01; 0x6fc0; 0x6e80; 0xae41;
   0xaa01; 0x6ac0; 0x6b80; 0xab41; 0x6900; 0xa9c1; 0xa881; 0x6840;
   0x7800; 0xb8c1; 0xb981; 0x7940; 0xbb01; 0x7bc0; 0x7a80; 0xba41;
   0xbe01; 0x7ec0; 0x7f80; 0xbf41; 0x7d00; 0xbdc1; 0xbc81; 0x7c40;
   0xb401; 0x74c0; 0x7580; 0xb541; 0x7700; 0xb7c1; 0xb681; 0x7640;
   0x7200; 0xb2c1; 0xb381; 0x7340; 0xb101; 0x71c0; 0x7080; 0xb041;
   0x5000; 0x90c1; 0x9181; 0x5140; 0x9301; 0x53c0; 0x5280; 0x9241;
   0x9601; 0x56c0; 0x5780; 0x9741; 0x5500; 0x95c1; 0x9481; 0x5440;
   0x9c01; 0x5cc0; 0x5d80; 0x9d41; 0x5f00; 0x9fc1; 0x9e81; 0x5e40;
   0x5a00; 0x9ac1; 0x9b81; 0x5b40; 0x9901; 0x59c0; 0x5880; 0x9841;
   0x8801; 0x48c0; 0x4980; 0x8941; 0x4b00; 0x8bc1; 0x8a81; 0x4a40;
   0x4e00; 0x8ec1; 0x8f81; 0x4f40; 0x8d01; 0x4dc0; 0x4c80; 0x8c41;
   0x4400; 0x84c1; 0x8581; 0x4540; 0x8701; 0x47c0; 0x4680; 0x8641;
   0x8201; 0x42c0; 0x4380; 0x8341; 0x4100; 0x81c1; 0x8081; 0x4040].

Definition crc_ccitt_table : list Z := [
   0x0000; 0x1189; 0x2312; 0x329b; 0x4624; 0x57ad; 0x6536; 0x74bf;
   0x8c48; 0x9dc1; 0xaf5a; 0xbed3; 0xca6c; 0xdbe5; 0xe97e; 0xf8f7;
   0x1081; 0x0108; 0x3393; 0x221a; 0x56a5; 0x472c; 0x75b7; 0x643e;
   0x9cc9; 0x8d40; 0xbfdb; 0xae52; 0xdaed; 0xcb64; 0xf9ff; 0xe876;
   0x2102; 0x308b; 0x0210; 0x1399; 0x6726; 0x76af; 0x4434; 0x55bd;
   0xad4a; 0xbcc3; 0x8e58; 0x9fd1; 0xeb6e; 0xfae7; 0xc87c; 0xd9f5;
   0x3183; 0x200a; 0x1291; 0x0318; 0x77a7; 0x662e; 0x54b5; 0x453c;
   0xbdcb; 0xac42; 0x9ed9; 0x8f50; 0xfbef; 0xea66; 0xd8fd; 0xc974;
   0x4204; 0x538d; 0x6116; 0x709f; 0x0420; 0x15a9; 0x2732; 0x36bb;
   0xce4c; 0xdfc5; 0xed5e; 0xfcd7; 0x8868; 0x99e1; 0xab7a; 0xbaf3;
   0x5285; 0x430c; 0x7197; 0x601e; 0x14a1; 0x0528; 0x37b3; 0x263a;
   0xdecd; 0xcf44; 0xfddf; 0xec56; 0x98e9; 0x8960; 0xbbfb; 0xaa72;
   0x6306; 0x728f; 0x4014; 0x519d; 0x2522; 0x34ab; 0x0630; 0x17b9;
   0xef4e; 0xfec7; 0xcc5c; 0xddd5; 0xa96a; 0xb8e3; 0x8a78; 0x9bf1;
   0x7387; 0x620e; 0x5095; 0x411c; 0x35a3; 0x242a; 0x16b1; 0x0738;
   0xffcf; 0xee46; 0xdcdd; 0xcd54; 0xb9eb; 0xa862; 0x9af9; 0x8b70;
   0x8408; 0x9581; 0xa71a; 0xb693; 0xc22c; 0xd3a5; 0xe13e; 0xf0b7;
   0x0840; 0x19c9; 0x2b52; 0x3adb; 0x4e64; 0x5fed; 0x6d76; 0x7cff;
   0x9489; 0x8500; 0xb79b; 0xa612; 0xd2ad; 0xc324; 0xf1bf; 0xe036;
   0x18c1; 0x0948; 0x3bd3; 0x2a5a; 0x5ee5; 0x4f6c; 0x7df7; 0x6c7e;
   0xa50a; 0xb483; 0x8618; 0x9791; 0xe32e; 0xf2a7; 0xc03c; 0xd1b5;
   0x2942; 0x38cb; 0x0a50; 0x1bd9; 0x6f66; 0x7eef; 0x4c74; 0x5dfd;
   0xb58b; 0xa402; 0x9699; 0x8710; 0xf3af; 0xe226; 0xd0bd; 0xc134;
   0x39c3; 0x284a; 0x1ad1; 0x0b58; 0x7fe7; 0x6e6e; 0x5cf5; 0x4d7c;
   0xc60c; 0xd785; 0xe51e; 0xf497; 0x8028; 0x91a1; 0xa33a; 0xb2b3;
   0x4a44; 0x5bcd; 0x6956; 0x78df; 0x0c60; 0x1de9; 0x2f72; 0x3efb;
   0xd68d; 0xc704; 0xf59f; 0xe416; 0x90a9; 0x8120; 0xb3bb; 0xa232;
   0x5ac5; 0x4b4c; 0x79d7; 0x685e; 0x1ce1; 0x0d68; 0x3ff3; 0x2e7a;
   0xe70e; 0xf687; 0xc41c; 0xd595; 0xa12a; 0xb0a3; 0x8238; 0x93b1;
   0x6b46; 0x7acf; 0x4854; 0x59dd; 0x2d62; 0x3ceb; 0x0e70; 0x1ff9;
   0xf78f; 0xe606; 0xd49d; 0xc514; 0xb1ab; 0xa022; 0x92b9; 0x8330;
   0x7bc7; 0x6a4e; 0x58d5; 0x495c; 0x3de3; 0x2c6a; 0x1ef1; 0x0f78].

Definition crc_itu_t_table : list Z := [
   0x0000; 0x1021; 0x2042; 0x3063; 0x4084; 0x50a5; 0x60c6; 0x70e7;
   0x8108; 0x9129; 0xa14a; 0xb16b; 0xc18c; 0xd1ad; 0xe1ce; 0xf1ef;
   0x1231; 0x0210; 0x3273; 0x2252; 0x52b5; 0x4294; 0x72f7; 0x62d6;
   0x9339; 0x8318; 0xb37b; 0xa35a; 0xd3bd; 0xc39c; 0xf3ff; 0xe3de;
   0x2462; 0x3443; 0x0420; 0x1401; 0x64e6; 0x74c7; 0x44a4; 0x5485;
   0xa56a; 0xb54b; 0x8528; 0x9509; 0xe5ee; 0xf5cf; 0xc5ac; 0xd58d;
   0x3653; 0x2672; 0x1611; 0x0630; 0x76d7; 0x66f6; 0x5695; 0x46b4;
   0xb75b; 0xa77a; 0x9719; 0x8738; 0xf7df; 0xe7fe; 0xd79d; 0xc7bc;
   0x48c4; 0x58e5; 0x6886; 0x78a7; 0x0840; 0x1861; 0x2802; 0x3823;
   0xc9cc; 0xd9ed; 0xe98e; 0xf9af; 0x8948; 0x9969; 0xa90a; 0xb92b;
   0x5af5; 0x4ad4; 0x7ab7; 0x6a96; 0x1a71; 0x0a50; 0x3a33; 0x2a12;
   0xdbfd; 0xcbdc; 0xfbbf; 0xeb9e; 0x9b79; 0x8b58; 0xbb3b; 0xab1a;
   0x6ca6; 0x7c87; 0x4ce4; 0x5cc5; 0x2c22; 0x3c03; 0x0c60; 0x1c41;
   0xedae; 0xfd8f; 0xcdec; 0xddcd; 0xad2a; 0xbd0b; 0x8d68; 0x9d49;
   0x7e97; 0x6eb6; 0x5ed5; 0x4ef4; 0x3e13; 0x2e32; 0x1e51; 0x0e70;
   0xff9f; 0xefbe; 0xdfdd; 0xcffc; 0xbf1b; 0xaf3a; 0x9f59; 0x8f78;
   0x9188; 0x81a9; 0xb1ca; 0xa1eb; 0xd10c; 0xc12d; 0xf14e; 0xe16f;
   0x1080; 0x00a1; 0x30c2; 0x20e3; 0x5004; 0x4025; 0x7046; 0x6067;
   0x83b9; 0x9398; 0xa3fb; 0xb3da; 0xc33d; 0xd31c; 0xe37f; 0xf35e;
   0x02b1; 0x1290; 0x22f3; 0x32d2; 0x4235; 0x5214; 0x6277; 0x7256;
   0xb5ea; 0xa5cb; 0x95a8; 0x8589; 0xf56e; 0xe54f; 0xd52c; 0xc50d;
   0x34e2; 0x24c3; 0x14a0; 0x0481; 0x7466; 0x6447; 0x5424; 0x4405;
   0xa7db; 0xb7fa; 0x8799; 0x97b8; 0xe75f; 0xf77e; 0xc71d; 0xd73c;
   0x26d3; 0x36f2; 0x0691; 0x16b0; 0x6657; 0x7676; 0x4615; 0x5634;
   0xd94c; 0xc96d; 0xf90e; 0xe92f; 0x99c8; 0x89e9; 0xb98a; 0xa9ab;
   0x5844; 0x4865; 0x7806; 0x6827; 0x18c0; 0x08e1; 0x3882; 0x28a3;
   0xcb7d; 0xdb5c; 0xeb3f; 0xfb1e; 0x8bf9; 0x9bd8; 0xabbb; 0xbb9a;
   0x4a75; 0x5a54; 0x6a37; 0x7a16; 0x0af1; 0x1ad0; 0x2ab3; 0x3a92;
   0xfd2e; 0xed0f; 0xdd6c; 0xcd4d; 0xbdaa; 0xad8b; 0x9de8; 0x8dc9;
   0x7c26; 0x6c07; 0x5c64; 0x4c45; 0x3ca2; 0x2c83; 0x1ce0; 0x0cc1;
   0xef1f; 0xff3e; 0xcf5d; 0xdf7c; 0xaf9b; 0xbfba; 0x8fd9; 0x9ff8;
   0x6e17; 0x7e36; 0x4e55; 0x5e74; 0x2e93; 0x3eb2; 0x0ed1; 0x1ef0].

Definition t10_dif_crc_table : list Z := [
   0x0000; 0x8bb7; 0x9cd9; 0x176e; 0xb205; 0x39b2; 0x2edc; 0xa56b;
   0xefbd; 0x640a; 0x7364; 0xf8d3; 0x5db8; 0xd60f; 0xc161; 0x4ad6;
   0x54cd; 0xdf7a; 0xc814; 0x43a3; 0xe6c8; 0x6d7f; 0x7a11; 0xf1a6;
   0xbb70; 0x30c7; 0x27a9; 0xac1e; 0x0975; 0x82c2; 0x95ac; 0x1e1b;
   0xa99a; 0x222d; 0x3543; 0xbef4; 0x1b9f; 0x9028; 0x8746; 0x0cf1;
   0x4627; 0xcd90; 0xdafe; 0x5149; 0xf422; 0x7f95; 0x68fb; 0xe34c;
   0xfd57; 0x76e0; 0x618e; 0xea39; 0x4f52; 0xc4e5; 0xd38b; 0x583c;
   0x12ea; 0x995d; 0x8e33; 0x0584; 0xa0ef; 0x2b58; 0x3c36; 0xb781;
   0xd883; 0x5334; 0x445a; 0xcfed; 0x6a86; 0xe131; 0xf65f; 0x7de8;
   0x373e; 0xbc89; 0xabe7; 0x2050; 0x853b; 0x0e8c; 0x19e2; 0x9255;
   0x8c4e; 0x07f9; 0x1097; 0x9b20; 0x3e4b; 0xb5fc; 0xa292; 0x2925;
   0x63f3; 0xe844; 0xff2a; 0x749d; 0xd1f6; 0x5a41; 0x4d2f; 0xc698;
   0x7119; 0xfaae; 0xedc0; 0x6677; 0xc31c; 0x48ab; 0x5fc5; 0xd472;
   0x9ea4; 0x1513; 0x027d; 0x89ca; 0x2ca1; 0xa716; 0xb078; 0x3bcf;
   0x25d4; 0xae63; 0xb90d; 0x32ba; 0x97d1; 0x1c66; 0x0b08; 0x80bf;
   0xca69; 0x41de; 0x56b0; 0xdd07; 0x786c; 0xf3db; 0xe4b5; 0x6f02;
   0x3ab1; 0xb106; 0xa668; 0x2ddf; 0x88b4; 0x0303; 0x146d; 0x9fda;
   0xd50c; 0x5ebb; 0x49d5; 0xc262; 0x6709; 0xecbe; 0xfbd0; 0x7067;
   0x6e7c; 0xe5cb; 0xf2a5; 0x7912; 0xdc79; 0x57ce; 0x40a0; 0xcb17;
   0x81c1; 0x0a76; 0x1d18; 0x96af; 0x33c4; 0xb873; 0xaf1d; 0x24aa;
   0x932b; 0x189c; 0x0ff2; 0x8445; 0x212e; 0xaa99; 0xbdf7; 0x3640;
   0x7c96; 0xf721; 0xe04f; 0x6bf8; 0xce93; 0x4524; 0x524a; 0xd9fd;
   0xc7e6; 0x4c51; 0x5b3f; 0xd088; 0x75e3; 0xfe54; 0xe93a; 0x628d;
   0x285b; 0xa3ec; 0xb482; 0x3f35; 0x9a5e; 0x11e9; 0x0687; 0x8d30;
   0xe232; 0x6985; 0x7eeb; 0xf55c; 0x5037; 0xdb80; 0xccee; 0x4759;
   0x0d8f; 0x8638; 0x9156; 0x1ae1; 0xbf8a; 0x343d; 0x2353; 0xa8e4;
   0xb6ff; 0x3d48; 0x2a26; 0xa191; 0x04fa; 0x8f4d; 0x9823; 0x1394;
   0x5942; 0xd2f5; 0xc59b; 0x4e2c; 0xeb47; 0x60f0; 0x779e; 0xfc29;
   0x4ba8; 0xc01f; 0xd771; 0x5cc6; 0xf9ad; 0x721a; 0x6574; 0xeec3;
   0xa415; 0x2fa2; 0x38cc; 0xb37b; 0x1610; 0x9da7; 0x8ac9; 0x017e;
   0x1f65; 0x94d2; 0x83bc; 0x080b; 0xad60; 0x26d7; 0x31b9; 0xba0e;
   0xf0d8; 0x7b6f; 0x6c01; 0xe7b6; 0x42dd; 0xc96a; 0xde04; 0x55b3].

Definition crc7_syndrome_table : list Z := [
   0x00; 0x09; 0x12; 0x1b; 0x24; 0x2d; 0x36; 0x3f;
   0x48; 0x41; 0x5a; 0x53; 0x6c; 0x65; 0x7e; 0x77;
   0x19; 0x10; 0x0b; 0x02; 0x3d; 0x34; 0x2f; 0x26;
   0x51; 0x58; 0x43; 0x4a; 0x75; 0x7c; 0x67; 0x6e;
   0x32; 0x3b; 0x20; 0x29; 0x16; 0x1f; 0x04; 0x0d;
   0x7a; 0x73; 0x68; 0x61; 0x5e; 0x57; 0x4c; 0x45;
   0x2b; 0x22; 0x39; 0x30; 0x0f; 0x06; 0x1d; 0x14;
   0x63; 0x6a; 0x71; 0x78; 0x47; 0x4e; 0x55; 0x5c;
   0x64; 0x6d; 0x76; 0x7f; 0x40; 0x49; 0x52; 0x5b;
   0x2c; 0x25; 0x3e; 0x37; 0x08; 0x01; 0x1a; 0x13;
   0x7d; 0x74; 0x6f; 0x66; 0x59; 0x50; 0x4b; 0x42;
   0x35; 0x3c; 0x27; 0x2e; 0x11; 0x18; 0x03; 0x0a;
   0x56; 0x5f; 0x44; 0x4d; 0x72; 0x7b; 0x60; 0x69;
   0x1e; 0x17; 0x0c; 0x05; 0x3a; 0x33; 0x28; 0x21;
   0x4f; 0x46; 0x5d; 0x54; 0x6b; 0x62; 0x79; 0x70;
   0x07; 0x0e; 0x15; 0x1c; 0x23; 0x2a; 0x31; 0x38;
   0x41; 0x48; 0x53; 0x5a; 0x65; 0x6c; 0x77; 0x7e;
   0x09; 0x00; 0x1b; 0x12; 0x2d; 0x24; 0x3f; 0x36;
   0x58; 0x51; 0x4a; 0x43; 0x7c; 0x75; 0x6e; 0x67;
   0x10; 0x19; 0x02; 0x0b; 0x34; 0x3d; 0x26; 0x2f;
   0x73; 0x7a; 0x61; 0x68; 0x57; 0x5e; 0x45; 0x4c;
   0x3b; 0x32; 0x29; 0x20; 0x1f; 0x16; 0x0d; 0x04;
   0x6a; 0x63; 0x78; 0x71; 0x4e; 0x47; 0x5c; 0x55;
   0x22; 0x2b; 0x30; 0x39; 0x06; 0x0f; 0x14; 0x1d;
   0x25; 0x2c; 0x37; 0x3e; 0x01; 0x08; 0x13; 0x1a;
   0x6d; 0x64; 0x7f; 0x76; 0x49; 0x40; 0x5b; 0x52;
   0x3c; 0x35; 0x2e; 0x27; 0x18; 0x11; 0x0a; 0x03;
   0x74; 0x7d; 0x66; 0x6f; 0x50; 0x59; 0x42; 0x4b;
   0x17; 0x1e; 0x05; 0x0c; 0x33; 0x3a; 0x21; 0x28;
   0x5f; 0x56; 0x4d; 0x44; 0x7b; 0x72; 0x69; 0x60;
   0x0e; 0x07; 0x1c; 0x15; 0x2a; 0x23; 0x38; 0x31;
   0x46; 0x4f; 0x54; 0x5d; 0x62; 0x6b; 0x70; 0x79].

(** ** Byte-at-a-time loops *)
(** Reading a table faults outside it. *)
Definition tab_get (tab : list Z) (i : Z) : C Z :=
  match zget tab i with Some v => ret v | None => fault end.

(** [while (len--) crc = step(crc, *buffer++)] *)
Fixpoint crc_loop (step : Z -> Z -> C Z) (len : nat) (crc : Z) (b : block) (o : Z) : C Z :=
  match len with
  | O => ret crc
  | S len =>
      let* data := load b o in
      let* crc := step crc data in
      crc_loop step len crc b (o + 1)
  end.

Definition crc16_byte (crc data : Z) : C Z :=
  let* t := tab_get crc16_table (Z.land (Z.lxor crc data) 0xff) in
  ret (u16 (Z.lxor (Z.shiftr crc 8) t)).
Definition crc16 (crc : Z) (buffer : ptr) (len : Z) : C Z :=
  crc_loop crc16_byte (Z.to_nat len) crc buffer.1 buffer.2.

Definition crc_ccitt_byte (crc c : Z) : C Z :=
  let* t := tab_get crc_ccitt_table (Z.land (Z.lxor crc c) 0xff) in
  ret (u16 (Z.lxor (Z.shiftr crc 8) t)).
Definition crc_ccitt (crc : Z) (buffer : ptr) (len : Z) : C Z :=
  crc_loop crc_ccitt_byte (Z.to_nat len) crc buffer.1 buffer.2.

Definition crc_itu_t_byte (crc data : Z) : C Z :=
  let* t := tab_get crc_itu_t_table (Z.land (Z.lxor (Z.shiftr crc 8) data) 0xff) in
  ret (u16 (Z.lxor (Z.shiftl crc 8) t)).
Definition crc_itu_t (crc : Z) (buffer : ptr) (len : Z) : C Z :=
  crc_loop crc_itu_t_byte (Z.to_nat len) crc buffer.1 buffer.2.

Definition crc_t10dif (buffer : ptr) (len : Z) : C Z :=
  crc_loop (fun crc data =>
    let* t := tab_get t10_dif_crc_table (Z.land (Z.lxor (Z.shiftr crc 8) data) 0xff) in
    ret (u16 (Z.lxor (Z.shiftl crc 8) t))) (Z.to_nat len) 0 buffer.1 buffer.2.

Definition crc7_byte (crc data : Z) : C Z :=
  tab_get crc7_syndrome_table (Z.lxor (Z.shiftl crc 1) data).
Definition crc7 (crc : Z) (buffer : ptr) (len : Z) : C Z :=
  crc_loop crc7_byte (Z.to_nat len) crc buffer.1 buffer.2.

(** ** CRC-32: the table generator *)
Definition CRCPOLY_LE : Z := 0xedb88320.
Definition CRCPOLY_BE : Z := 0x04c11db7.
Definition LE_TABLE_SIZE : Z := 256.
Definition BE_TABLE_SIZE : Z := 256.

(** The generator's state is the table it fills; an index outside it faults. *)
Definition tab_put (i v : Z) : ST (list Z) unit := fun t =>
  match zget t i with Some _ => Some (tt, upd t i v) | None => None end.
Definition tab_at (i : Z) : ST (list Z) Z := fun t =>
  match zget t i with Some v => Some (v, t) | None => None end.

Definition crc32init_le : ST (list Z) unit :=
  tab_put 0 0 ;;
  while 10 (fun '(i, crc) =>
    if i =? 0 then ret (inr tt) else
    let crc := Z.lxor (Z.shiftr crc 1) (if Z.land crc 1 =? 0 then 0 else CRCPOLY_LE) in
    while 257 (fun j =>
      if j <? LE_TABLE_SIZE then
        let* t := tab_at j in
        tab_put (i + j) (Z.lxor crc t) ;;
        ret (inl (j + 2 * i))
      else ret (inr tt)) 0 ;;
    ret (inl (Z.shiftr i 1, crc))) (128, 1).

Definition crc32init_be : ST (list Z) unit :=
  tab_put 0 0 ;;
  while 10 (fun '(i, crc) =>
    if i <? BE_TABLE_SIZE then
      let crc := Z.lxor (shl32 crc 1) (if Z.land crc 0x80000000 =? 0 then 0 else CRCPOLY_BE) in
      while 257 (fun j =>
        if j <? i then
          let* t := tab_at j in
          tab_put (i + j) (Z.lxor crc t) ;;
          ret (inl (j + 1))
        else ret (inr tt)) 0 ;;
      ret (inl (shl32 i 1, crc))
    else ret (inr tt)) (1, 0x80000000).

(** The zero-initialised static table after the generator has run. *)
Definition generated (init : ST (list Z) unit) (size : Z) : list Z :=
  match init (replicate (Z.to_nat size) 0) with Some (_, t) => t | None => [] end.

(** ** CRC-32: the word-at-a-time loops of a little-endian machine *)
Definition swab32 (x : Z) : Z :=
  Z.lor (Z.lor (Z.lor (shl32 (Z.land x 0x000000ff) 24) (shl32 (Z.land x 0x0000ff00) 8))
               (Z.shiftr (Z.land x 0x00ff0000) 8))
        (Z.shiftr (Z.land x 0xff000000) 24).

Definition cpu_to_le32 (x : Z) : Z := x.
Definition cpu_to_be32 (x : Z) : Z := swab32 x.
Definition crc32table_le : list Z := cpu_to_le32 <$> generated crc32init_le LE_TABLE_SIZE.
Definition crc32table_be : list Z := cpu_to_be32 <$> generated crc32init_be BE_TABLE_SIZE.

Definition DO_CRC (tab : list Z) (crc x : Z) : C Z :=
  let* t := tab_get tab (Z.land (Z.lxor crc x) 255) in
  ret (Z.lxor t (Z.shiftr crc 8)).

(** The body both byte orders share: bytes up to an aligned address, then
    words, then the remaining bytes.  [addr] is the address of the object, [o]
    the offset of the next byte. *)
Definition crc32_body (tab : list Z) (addr : Z) (crc : Z) (p : ptr) (len : Z) : C Z :=
  let b := p.1 in
  (* align it *)
  let* '(crc, o, len) :=
    (if negb (Z.land (u32 (addr + p.2)) 3 =? 0) && negb (len =? 0) then
       while 5 (fun '(crc, o, len) =>
         let* x := load b o in
         let* crc := DO_CRC tab crc x in
         let o := o + 1 in
         let len := len - 1 in
         ret (if negb (len =? 0) && negb (Z.land (u32 (addr + o)) 3 =? 0)
              then inl (crc, o, len) else inr (crc, o, len))) (crc, p.2, len)
     else ret (crc, p.2, len)) in
  (* load data 32 bits wide, xor data 32 bits wide *)
  let* '(crc, o, len) :=
    (if 4 <=? len then
       let save_len := Z.land len 3 in
       let len := Z.shiftr len 2 in
       let* '(crc, o) :=
         while (S (Z.to_nat len)) (fun '(crc, o, len) =>
           let* w := load_u32 (b, o) in
           let crc := Z.lxor crc w in
           let* crc := DO_CRC tab crc 0 in
           let* crc := DO_CRC tab crc 0 in
           let* crc := DO_CRC tab crc 0 in
           let* crc := DO_CRC tab crc 0 in
           let len := len - 1 in
           ret (if negb (len =? 0) then inl (crc, o + 4, len) else inr (crc, o + 4)))
           (crc, o, len) in
       ret (crc, o, save_len)
     else ret (crc, o, len)) in
  (* and the last few bytes *)
  if negb (len =? 0) then
    while 5 (fun '(crc, o, len) =>
      let* x := load b o in
      let* crc := DO_CRC tab crc x in
      let len := len - 1 in
      ret (if negb (len =? 0) then inl (crc, o + 1, len) else inr crc)) (crc, o, len)
  else ret crc.

Definition crc32_le (addr crc : Z) (p : ptr) (len : Z) : C Z :=
  let* crc := crc32_body crc32table_le addr (cpu_to_le32 crc) p len in
  ret (cpu_to_le32 crc).
Definition crc32_be (addr crc : Z) (p : ptr) (len : Z) : C Z :=
  let* crc := crc32_body crc32table_be addr (cpu_to_be32 crc) p len in
  ret (cpu_to_be32 crc).

(** The [CRC_LE_BITS == 1] and [CRC_BE_BITS == 1] branches. *)
Fixpoint iter8 (f : Z -> Z) (n : nat) (x : Z) : Z :=
  match n with O => x | S n => iter8 f n (f x) end.
Definition crc32_le_bitwise (crc : Z) (p : ptr) (len : Z) : C Z :=
  crc_loop (fun crc data => ret (iter8 (fun crc =>
    Z.lxor (Z.shiftr crc 1) (if Z.land crc 1 =? 0 then 0 else CRCPOLY_LE)) 8 (Z.lxor crc data)))
    (Z.to_nat len) crc p.1 p.2.
Definition crc32_be_bitwise (crc : Z) (p : ptr) (len : Z) : C Z :=
  crc_loop (fun crc data => ret (iter8 (fun crc =>
    Z.lxor (shl32 crc 1) (if Z.land crc 0x80000000 =? 0 then 0 else CRCPOLY_BE)) 8
      (Z.lxor crc (shl32 data 24))))
    (Z.to_nat len) crc p.1 p.2.

(** ** Reference: bit-serial shift registers

    The loops of the tutorial in [crc32.c], one input bit at a time, for a
    register of [w] bits: most significant bit first, and least significant
    bit first with the reversed polynomial. *)
Definition msb_bit (w poly r : Z) (b : bool) : Z :=
  Z.lxor (wrap w (Z.shiftl r 1)) (if xorb (Z.testbit r (w - 1)) b then poly else 0).
Definition lsb_bit (poly r : Z) (b : bool) : Z :=
  Z.lxor (Z.shiftr r 1) (if xorb (Z.testbit r 0) b then poly else 0).

Definition bits_msb (d : Z) : list bool := Z.testbit d <$> [7; 6; 5; 4; 3; 2; 1; 0].
Definition bits_lsb (d : Z) : list bool := Z.testbit d <$> [0; 1; 2; 3; 4; 5; 6; 7].
Definition msb_crc (w poly seed : Z) (msg : list Z) : Z :=
  foldl (msb_bit w poly) seed (msg ≫= bits_msb).
Definition lsb_crc (poly seed : Z) (msg : list Z) : Z :=
  foldl (lsb_bit poly) seed (msg ≫= bits_lsb).

(** One step of the register without input. *)
Abbreviation msb_step w poly := (fun x => msb_bit w poly x false).
Abbreviation lsb_step poly := (fun x => lsb_bit poly x false).

Ltac xor_cases :=
  repeat match goal with
  | |- context [if ?b then _ else _] => destruct b eqn:?
  | |- context [Z.testbit ?x ?i] => destruct (Z.testbit x i) eqn:?
  end; simpl in *; try congruence.

(** Input merged up front is input merged when it is needed. *)
Lemma lsb_merge poly r d k :
  0 <= k ->
  lsb_step poly (Z.lxor r (Z.shiftr d k)) =
  Z.lxor (lsb_bit poly r (Z.testbit d k)) (Z.shiftr d (k + 1)).
Proof.
  intros Hk. unfold lsb_bit. apply bits_ext. intros i Hi. autorewrite with bits.
  replace (0 + k) with k by lia. replace (i + 1 + k) with (i + (k + 1)) by lia. xor_cases;
  autorewrite with bits; xor_cases.
Qed.

Lemma lsb_shift poly a y n :
  iter8 (lsb_step poly) n (Z.lxor a (Z.shiftl y (Z.of_nat n))) = Z.lxor (iter8 (lsb_step poly) n a) y.
Proof.
  revert a. induction n as [|n IH]; intros a; [by rewrite Z.shiftl_0_r|].
  cbn [iter8]. rewrite <- IH. f_equal. unfold lsb_bit. apply bits_ext. intros i Hi.
  autorewrite with bits. rewrite (Z.testbit_neg_r y (0 - _)) by lia.
  replace (i + 1 - Z.of_nat (S n)) with (i - Z.of_nat n) by lia.
  xor_cases; autorewrite with bits; xor_cases.
Qed.

Lemma lsb_byte poly r d :
  uint 8 d ->
  foldl (lsb_bit poly) r (bits_lsb d) =
  Z.lxor (Z.shiftr r 8) (iter8 (lsb_step poly) 8 (Z.land (Z.lxor r d) 255)).
Proof.
  intros Hd. transitivity (iter8 (lsb_step poly) 8 (Z.lxor r d)).
  - replace (Z.lxor r d) with (Z.lxor r (Z.shiftr d 0)) by (by rewrite Z.shiftr_0_r).
    unfold bits_lsb. cbn [fmap list_fmap foldl iter8]. rewrite !lsb_merge by lia.
    replace (Z.shiftr d _) with 0; [by rewrite Z.lxor_0_r|].
    symmetry. unfold uint in Hd. pow2. rewrite Z.shiftr_div_pow2 by lia. pow2. dlia.
  - rewrite (Z.lxor_comm (Z.shiftr r 8)), <- lsb_shift. f_equal. apply bits_ext. intros i Hi.
    autorewrite with bits. change 255 with (Z.ones 8). autorewrite with bits.
    destruct (i <? 8) eqn:E; b2p; simpl.
    + rewrite (Z.testbit_neg_r _ (i - _)) by lia. autorewrite with bits. by rewrite xorb_false_r.
    + rewrite Z.shiftr_spec by lia. autorewrite with bits. replace (i - Z.of_nat 8 + 8) with i by lia.
      rewrite (testbit_above 8 d) by (done || lia). rewrite xorb_false_r. by destruct (Z.testbit r i).
Qed.

Section Msb.
Context (w poly : Z) (Hw : 8 <= w) (Hpoly : uint w poly).

Lemma msb_merge r d k :
  uint w r -> 0 <= k < 8 -> uint 8 d ->
  msb_step w poly (Z.lxor r (wrap w (Z.shiftl d (w - 8 + k)))) =
  Z.lxor (msb_bit w poly r (Z.testbit d (7 - k))) (wrap w (Z.shiftl d (w - 8 + (k + 1)))).
Proof using Hw.
  intros Hr Hk Hd. unfold msb_bit. apply bits_ext. intros i Hi.
  autorewrite with bits. replace (w - 1 - (w - 8 + k)) with (7 - k) by lia.
  rewrite (ltb_t (w - 1) w) by lia. simpl.
  destruct (Z.eq_dec i 0) as [->|].
  - rewrite (Z.testbit_neg_r r (0 - 1)), (Z.testbit_neg_r (wrap w (Z.shiftl d (w - 8 + k))) (0 - 1)),
      (Z.testbit_neg_r d (0 - (w - 8 + (k + 1)))) by lia.
    rewrite !andb_false_r. xor_cases; autorewrite with bits; xor_cases.
  - rewrite testbit_wrap, Z.shiftl_spec by lia.
    replace (i - 1 - (w - 8 + k)) with (i - (w - 8 + (k + 1))) by lia.
    destruct (i <? w) eqn:E; simpl; b2p.
    + rewrite (ltb_t (i - 1) w) by lia. xor_cases; autorewrite with bits; xor_cases.
    + xor_cases; autorewrite with bits; xor_cases.
Qed.

Lemma msb_shift a y n :
  Z.of_nat n <= w -> uint (w - Z.of_nat n) y ->
  iter8 (msb_step w poly) n (Z.lxor a y) = Z.lxor (iter8 (msb_step w poly) n a) (Z.shiftl y (Z.of_nat n)).
Proof using Hw.
  revert a y. induction n as [|n IH]; intros a y Hn Hy; [by rewrite Z.shiftl_0_r|].
  assert (uint (w - Z.of_nat n) (Z.shiftl y 1)) as Hy1.
  { unfold uint in *. rewrite Z.shiftl_mul_pow2 by lia.
    replace (w - Z.of_nat n) with (Z.succ (w - Z.of_nat (S n))) by lia.
    rewrite Z.pow_succ_r by lia. lia. }
  cbn [iter8]. replace (Z.shiftl y (Z.of_nat (S n))) with (Z.shiftl (Z.shiftl y 1) (Z.of_nat n))
    by (rewrite Z.shiftl_shiftl by lia; f_equal; lia).
  rewrite <- IH by (done || lia). f_equal. unfold msb_bit. apply bits_ext. intros i Hi.
  autorewrite with bits.
  rewrite (testbit_above (w - Z.of_nat (S n)) y (w - 1)) by (done || lia).
  destruct (i <? w) eqn:E; b2p; simpl.
  - xor_cases; autorewrite with bits; xor_cases.
  - rewrite (testbit_above (w - Z.of_nat (S n)) y (i - 1)) by (done || lia).
    xor_cases; autorewrite with bits; xor_cases.
Qed.

Lemma uint_msb_bit r b : uint w (msb_bit w poly r b).
Proof using Hw Hpoly.
  unfold msb_bit. apply uint_lxor; [lia|apply uint_wrap; lia|].
  destruct (xorb _ _); [done|apply uint_0; lia].
Qed.

Lemma msb_byte r d :
  uint w r -> uint 8 d ->
  foldl (msb_bit w poly) r (bits_msb d) =
  Z.lxor (wrap w (Z.shiftl r 8))
    (iter8 (msb_step w poly) 8 (Z.shiftl (Z.lxor (Z.shiftr r (w - 8)) d) (w - 8))).
Proof using Hw Hpoly.
  intros Hr Hd. transitivity (iter8 (msb_step w poly) 8 (Z.lxor r (wrap w (Z.shiftl d (w - 8 + 0))))).
  - unfold bits_msb. cbn [fmap list_fmap foldl iter8].
    rewrite !msb_merge by (try apply uint_msb_bit; done || lia).
    replace (wrap w _) with 0; [by rewrite Z.lxor_0_r|].
    symmetry. apply bits_ext. intros i Hi. autorewrite with bits.
    destruct (i <? w) eqn:E; b2p; [|done]. rewrite Z.testbit_neg_r by lia. done.
  - assert (uint (w - 8) (r mod 2 ^ (w - 8))) as Hlow.
    { apply Z.mod_pos_bound, Z.pow_pos_nonneg; lia. }
    replace (Z.lxor r _) with
      (Z.lxor (Z.shiftl (Z.lxor (Z.shiftr r (w - 8)) d) (w - 8)) (r mod 2 ^ (w - 8))).
    + rewrite msb_shift by (done || lia). rewrite Z.lxor_comm. f_equal.
      apply bits_ext. intros i Hi. autorewrite with bits. change (Z.of_nat 8) with 8.
      destruct (Z.lt_ge_cases i 8); [rewrite !Z.testbit_neg_r by lia; by rewrite andb_false_r|].
      fold (wrap (w - 8) r). rewrite testbit_wrap by lia. f_equal.
      destruct (i <? w) eqn:E; [apply ltb_t|apply ltb_f]; b2p; lia.
    + apply bits_ext. intros i Hi. autorewrite with bits. fold (wrap (w - 8) r).
      rewrite testbit_wrap, Z.add_0_r by lia. destruct (Z.lt_ge_cases i (w - 8)).
      * rewrite !(Z.testbit_neg_r _ (i - _)), ltb_t by lia. rewrite andb_false_r. simpl. xor_cases.
      * rewrite Z.shiftr_spec by lia. replace (i - (w - 8) + (w - 8)) with i by lia.
        rewrite (ltb_f i (w - 8)) by lia. destruct (i <? w) eqn:E; b2p; simpl; [xor_cases|].
        rewrite (testbit_above w r), (testbit_above 8 d) by (done || lia). done.
Qed.
End Msb.

(** ** The byte loops *)
Section Loop.
Context (step : Z -> Z -> C Z) (f : Z -> Z -> Z) (I : Z -> Prop).
Context (Hstep : forall crc d h, I crc -> uint 8 d -> step crc d h = Some (f crc d, h) /\ I (f crc d)).

Lemma crc_loop_spec n crc b o l (h : mem) :
  I crc -> h !! b = Some l -> Forall (uint 8) l -> 0 <= o -> o + Z.of_nat n <= zlen l ->
  crc_loop step n crc b o h = Some (foldl f crc (slice l o (Z.of_nat n)), h) /\
  I (foldl f crc (slice l o (Z.of_nat n))).
Proof using Hstep.
  intros Hc Hb Hl. revert crc o Hc. induction n as [|n IH]; intros crc o Hc Ho Hlen; [done|].
  assert (uint 8 (at_ l o)) as Hd by (apply Forall_at; [done|lia]).
  replace (Z.of_nat (S n)) with (Z.of_nat n + 1) by lia. rewrite slice_cons by lia.
  destruct (Hstep crc (at_ l o) h Hc Hd) as [Hs Hi].
  destruct (IH (f crc (at_ l o)) (o + 1)) as [IH1 IH2]; [done|lia|lia|].
  split; [|exact IH2]. apply wp_eq. cbn [crc_loop]. wp_steps.
  exists (f crc (at_ l o)), h. split; [done|]. eexists _, _. split; [exact IH1|done].
Qed.
End Loop.

Lemma foldl_bits (g : Z -> bool -> Z) bits r (msg : list Z) :
  foldl g r (msg ≫= bits) = foldl (fun r d => foldl g r (bits d)) r msg.
Proof. revert r. induction msg as [|d msg IH]; intros r; [done|]. cbn. by rewrite foldl_app, IH. Qed.

(** A table entry is the register after eight steps from that byte. *)
Definition table_ok (tab : list Z) (f : Z -> Z) : Prop :=
  forall i, 0 <= i < 256 -> zget tab i = Some (f i).

Lemma table_check tab f :
  forallb (fun i => match zget tab i with Some v => v =? f i | None => false end) (seqZ 0 256) = true ->
  table_ok tab f.
Proof.
  intros H i Hi. rewrite forallb_forall in H. specialize (H i).
  rewrite <- list_elem_of_In, elem_of_seqZ in H. specialize (H ltac:(lia)).
  destruct (zget tab i); [|done]. b2p. by subst.
Qed.

Lemma tab_get_ok tab f i h : table_ok tab f -> 0 <= i < 256 -> tab_get tab i h = Some (f i, h).
Proof. intros H Hi. unfold tab_get. by rewrite H. Qed.

Lemma land255 x : 0 <= Z.land x 255 < 256.
Proof. change 255 with (Z.ones 8). rewrite Z.land_ones by lia. apply Z.mod_pos_bound. lia. Qed.

Lemma crc16_table_ok : table_ok crc16_table (iter8 (lsb_step 0xa001) 8).
Proof. apply table_check. vm_compute. done. Qed.
Lemma crc_ccitt_table_ok : table_ok crc_ccitt_table (iter8 (lsb_step 0x8408) 8).
Proof. apply table_check. vm_compute. done. Qed.
Lemma crc_itu_t_table_ok : table_ok crc_itu_t_table (fun i => iter8 (msb_step 16 0x1021) 8 (Z.shiftl i 8)).
Proof. apply table_check. vm_compute. done. Qed.
Lemma t10_dif_table_ok : table_ok t10_dif_crc_table (fun i => iter8 (msb_step 16 0x8bb7) 8 (Z.shiftl i 8)).
Proof. apply table_check. vm_compute. done. Qed.
Lemma crc7_table_ok : table_ok crc7_syndrome_table (fun i => Z.shiftr (iter8 (msb_step 8 0x12) 8 i) 1).
Proof. apply table_check. vm_compute. done. Qed.

(** ** One byte of each CRC *)
Lemma uint_lsb_bit w poly r b : 0 <= w -> uint w poly -> uint w r -> uint w (lsb_bit poly r b).
Proof.
  intros Hw Hp Hr. unfold lsb_bit. apply uint_lxor; [done|apply uint_shiftr; [lia|done]|].
  destruct (xorb _ _); [done|by apply uint_0].
Qed.
Lemma uint_lsb_fold w poly r bits : 0 <= w -> uint w poly -> uint w r -> uint w (foldl (lsb_bit poly) r bits).
Proof.
  intros Hw Hp. revert r. induction bits as [|b bits IH]; intros r Hr; [done|].
  cbn. by apply IH, uint_lsb_bit.
Qed.
Lemma uint_msb_fold w poly r bits : 8 <= w -> uint w poly -> uint w r -> uint w (foldl (msb_bit w poly) r bits).
Proof.
  intros Hw Hp. revert r. induction bits as [|b bits IH]; intros r Hr; [done|].
  cbn. by apply IH, uint_msb_bit.
Qed.

Lemma lsb_byte_step tab poly crc d (h : mem) :
  table_ok tab (iter8 (lsb_step poly) 8) -> uint 16 poly -> uint 16 crc -> uint 8 d ->
  (let* t := tab_get tab (Z.land (Z.lxor crc d) 0xff) in
   ret (u16 (Z.lxor (Z.shiftr crc 8) t))) h = Some (foldl (lsb_bit poly) crc (bits_lsb d), h) /\
  uint 16 (foldl (lsb_bit poly) crc (bits_lsb d)).
Proof.
  intros Ht Hp Hc Hd. assert (uint 16 (foldl (lsb_bit poly) crc (bits_lsb d))) by by apply uint_lsb_fold.
  split; [|done]. unfold bind. rewrite (tab_get_ok _ _ _ _ Ht) by apply land255.
  rewrite <- lsb_byte by done. unfold ret. by rewrite wrap_id.
Qed.

Lemma msb_byte_step tab poly crc d (h : mem) :
  table_ok tab (fun i => iter8 (msb_step 16 poly) 8 (Z.shiftl i 8)) ->
  uint 16 poly -> uint 16 crc -> uint 8 d ->
  (let* t := tab_get tab (Z.land (Z.lxor (Z.shiftr crc 8) d) 0xff) in
   ret (u16 (Z.lxor (Z.shiftl crc 8) t))) h = Some (foldl (msb_bit 16 poly) crc (bits_msb d), h) /\
  uint 16 (foldl (msb_bit 16 poly) crc (bits_msb d)).
Proof.
  intros Ht Hp Hc Hd. assert (uint 16 (foldl (msb_bit 16 poly) crc (bits_msb d))) as Hu by by apply uint_msb_fold.
  split; [|done]. unfold bind. rewrite (tab_get_ok _ _ _ _ Ht) by apply land255. unfold ret.
  assert (uint 8 (Z.lxor (Z.shiftr crc 8) d)) as H8.
  { apply uint_lxor; [lia| |done]. unfold uint in *. rewrite Z.shiftr_div_pow2 by lia. pow2. dlia. }
  replace (Z.land (Z.lxor (Z.shiftr crc 8) d) 255) with (Z.lxor (Z.shiftr crc 8) d).
  2:{ change 255 with (Z.ones 8). by rewrite Z.land_ones, Z.mod_small by (lia || exact H8). }
  do 2 f_equal. rewrite (msb_byte 16 poly) in Hu |- * by done.
  rewrite <- (wrap_id 16 (Z.lxor (wrap 16 _) _)) by exact Hu.
  apply bits_ext. intros i Hi. autorewrite with bits. by destruct (i <? 16).
Qed.

(** A 7-bit register is the upper part of an 8-bit one. *)
Lemma msb7_embed r bits :
  uint 7 r -> foldl (msb_bit 8 0x12) (Z.shiftl r 1) bits = Z.shiftl (foldl (msb_bit 7 0x9) r bits) 1 /\
  uint 7 (foldl (msb_bit 7 0x9) r bits).
Proof.
  revert r. induction bits as [|b bits IH]; intros r Hr; [done|]. cbn [foldl].
  replace (msb_bit 8 0x12 (Z.shiftl r 1) b) with (Z.shiftl (msb_bit 7 0x9 r b) 1).
  - apply IH. unfold msb_bit. apply uint_lxor; [lia|by apply uint_wrap|].
    destruct (xorb _ _); split; pow2; lia.
  - unfold msb_bit. rewrite Z.shiftl_spec by lia. change (8 - 1 - 1) with (7 - 1).
    rewrite Z.shiftl_lxor. f_equal; [|by destruct (xorb _ _)].
    unfold wrap, uint in *. rewrite !Z.shiftl_mul_pow2 by lia. pow2. dlia.
Qed.

Lemma crc7_byte_step crc d (h : mem) :
  uint 7 crc -> uint 8 d ->
  crc7_byte crc d h = Some (foldl (msb_bit 7 0x9) crc (bits_msb d), h) /\
  uint 7 (foldl (msb_bit 7 0x9) crc (bits_msb d)).
Proof.
  intros Hc Hd. destruct (msb7_embed crc (bits_msb d) Hc) as [He Hu]. split; [|done].
  unfold crc7_byte.
  assert (uint 8 (Z.shiftl crc 1)) as Hs.
  { unfold uint in *. rewrite Z.shiftl_mul_pow2 by lia. pow2. lia. }
  assert (uint 8 (Z.lxor (Z.shiftl crc 1) d)) as Hx by (by apply uint_lxor).
  rewrite (tab_get_ok _ _ _ _ crc7_table_ok) by exact Hx. do 2 f_equal.
  rewrite (msb_byte 8 0x12) in He by (done || lia).
  change (8 - 8) with 0 in He. rewrite Z.shiftr_0_r, Z.shiftl_0_r in He.
  replace (wrap 8 (Z.shiftl (Z.shiftl crc 1) 8)) with 0 in He.
  2:{ unfold wrap. rewrite (Z.shiftl_mul_pow2 _ 8), Z.mod_mul by lia. done. }
  rewrite Z.lxor_0_l in He. rewrite He, Z.shiftr_shiftl_l, Z.shiftl_0_r by lia. done.
Qed.

Lemma crc16_family (h : mem) b l o len seed :
  h !! b = Some l -> Forall (uint 8) l -> 0 <= o -> 0 <= len -> o + len <= zlen l -> uint 16 seed ->
  crc_itu_t seed (b, o) len h = Some (msb_crc 16 0x1021 seed (slice l o len), h) /\
  crc_t10dif (b, o) len h = Some (msb_crc 16 0x8bb7 0 (slice l o len), h).
Proof.
  intros Hb Hl Ho Hlen Hend Hs. unfold crc_itu_t, crc_t10dif, msb_crc. rewrite !foldl_bits.
  cbn [fst snd]. rewrite <- (Z2Nat.id len) in Hend |- * by done. rewrite !Nat2Z.id. split.
  - eapply (crc_loop_spec _ _ (uint 16)); try done. intros.
    apply msb_byte_step; [apply crc_itu_t_table_ok|by split|done|done].
  - eapply (crc_loop_spec _ _ (uint 16)); try done. intros.
    apply msb_byte_step; [apply t10_dif_table_ok|by split|done|done].
Qed.

(** On every buffer and seed the table-driven CRCs return what the bit-serial
    shift register of their polynomial returns: CRC-16 (0x8005, reversed
    0xa001) and CRC-CCITT (0x1021, reversed 0x8408) feeding the low bit first,
    CRC-ITU-T (0x1021), T10-DIF (0x8bb7) and CRC-7 (0x09) feeding the high bit
    first.  No access leaves the buffer or a table. *)
Theorem crc_tables_correct (h : mem) b l o len seed :
  h !! b = Some l -> Forall (uint 8) l -> 0 <= o -> 0 <= len -> o + len <= zlen l -> uint 16 seed ->
  crc16 seed (b, o) len h = Some (lsb_crc 0xa001 seed (slice l o len), h) /\
  crc_ccitt seed (b, o) len h = Some (lsb_crc 0x8408 seed (slice l o len), h) /\
  crc_itu_t seed (b, o) len h = Some (msb_crc 16 0x1021 seed (slice l o len), h) /\
  crc_t10dif (b, o) len h = Some (msb_crc 16 0x8bb7 0 (slice l o len), h) /\
  (seed < 128 -> crc7 seed (b, o) len h = Some (msb_crc 7 0x9 seed (slice l o len), h)).
Proof.
  intros Hb Hl Ho Hlen Hend Hs.
  destruct (crc16_family h b l o len seed) as (Eit & Et10); try assumption. rewrite Eit, Et10.
  unfold crc16, crc_ccitt, crc7, lsb_crc, msb_crc. rewrite !foldl_bits.
  cbn [fst snd]. rewrite <- (Z2Nat.id len) in Hend |- * by done. rewrite !Nat2Z.id.
  split; [|split; [|split; [done|split; [done|intros H7]]]].
  - eapply (crc_loop_spec _ _ (uint 16)); try done. intros.
    apply lsb_byte_step; [apply crc16_table_ok|by split|done|done].
  - eapply (crc_loop_spec _ _ (uint 16)); try done. intros.
    apply lsb_byte_step; [apply crc_ccitt_table_ok|by split|done|done].
  - eapply (crc_loop_spec _ _ (uint 7)); try done; [|split; pow2; [apply Hs|lia]].
    intros. by apply crc7_byte_step.
Qed.

Definition crc_demo : mem := {[1%positive := [0; 49; 50; 51; 52; 53; 54; 55; 56; 57]]}.

Lemma crc_tables_correct_witness :
  crc16 0xffff (1%positive, 1) 9 crc_demo = Some (0x4b37, crc_demo) /\
  crc_ccitt 0 (1%positive, 1) 9 crc_demo = Some (0x2189, crc_demo) /\
  crc_itu_t 0 (1%positive, 1) 9 crc_demo = Some (0x31c3, crc_demo) /\
  crc_t10dif (1%positive, 1) 9 crc_demo = Some (0xd0db, crc_demo) /\
  crc7 0 (1%positive, 1) 9 crc_demo = Some (0x75, crc_demo).
Proof.
  assert (Forall (uint 8) [0; 49; 50; 51; 52; 53; 54; 55; 56; 57]) as Hl
    by (repeat constructor; pow2; lia).
  destruct (crc_tables_correct crc_demo 1%positive _ 1 9 0xffff (eq_refl _) Hl)
    as (H1 & _); [lia|lia|unfold zlen; simpl; lia|by split|].
  destruct (crc_tables_correct crc_demo 1%positive _ 1 9 0 (eq_refl _) Hl)
    as (_ & H2 & H3 & H4 & H5); [lia|lia|unfold zlen; simpl; lia|by split|].
  split; [exact H1|]. split; [exact H2|].
  split; [exact H3|]. split; [exact H4|].
  exact (H5 eq_refl).
Defined.

(** ** CRC-32 *)
Definition do_crc (T : Z -> Z) (crc x : Z) : Z := Z.lxor (T (Z.land (Z.lxor crc x) 255)) (Z.shiftr crc 8).

Section Crc32Body.
Context (tab : list Z) (T : Z -> Z) (Htab : table_ok tab T).

Lemma wp_do_crc crc x (Q : Z -> mem -> Prop) (h : mem) : Q (do_crc T crc x) h -> wp (DO_CRC tab crc x) Q h.
Proof using Htab.
  intros HQ. exists (do_crc T crc x), h. split; [|done]. unfold DO_CRC, bind.
  by rewrite (tab_get_ok _ _ _ _ Htab) by apply land255.
Qed.

(** Xoring more than one byte into the register defers the rest. *)
Lemma do_crc_cat c x y : uint 8 x -> do_crc T (Z.lxor c (x + 256 * y)) 0 = Z.lxor (do_crc T c x) y.
Proof.
  intros Hx. unfold do_crc. rewrite Z.lxor_0_r, Z.lxor_assoc. f_equal; [f_equal|].
  - apply bits_ext. intros i Hi. change 255 with (Z.ones 8). autorewrite with bits.
    rewrite testbit_cat by done. by destruct (i <? 8); rewrite ?andb_true_r, ?andb_false_r.
  - apply bits_ext. intros i Hi. autorewrite with bits. rewrite testbit_cat, ltb_f by (done || lia).
    by replace (i + 8 - 8) with i by lia.
Qed.

Lemma do_crc_word c b0 b1 b2 b3 :
  uint 8 b0 -> uint 8 b1 -> uint 8 b2 -> uint 8 b3 ->
  do_crc T (do_crc T (do_crc T (do_crc T (Z.lxor c (b0 + 2 ^ 8 * b1 + 2 ^ 16 * b2 + 2 ^ 24 * b3)) 0) 0) 0) 0 =
  do_crc T (do_crc T (do_crc T (do_crc T c b0) b1) b2) b3.
Proof.
  intros. pow2.
  replace (b0 + 256 * b1 + 65536 * b2 + 16777216 * b3)
    with (b0 + 256 * (b1 + 256 * (b2 + 256 * (b3 + 256 * 0)))) by lia.
  rewrite !do_crc_cat by done. by rewrite Z.lxor_0_r.
Qed.

(** The bytes still to do give the final register. *)
Definition crc_rest (l : list Z) (crc o len r : Z) : Prop :=
  foldl (do_crc T) crc (slice l o len) = r /\ 0 <= o /\ 0 <= len /\ o + len <= zlen l.

Lemma crc_rest_byte l crc o len r :
  crc_rest l crc o len r -> 0 < len -> crc_rest l (do_crc T crc (at_ l o)) (o + 1) (len - 1) r.
Proof.
  intros (H & Ho & Hl & He) Hp. split; [|lia]. rewrite <- H.
  replace len with (len - 1 + 1) at 2 by lia. by rewrite slice_cons by lia.
Qed.

Lemma land3 x : Z.land (u32 x) 3 = x mod 4.
Proof.
  change 3 with (Z.ones 2). rewrite Z.land_ones by lia. unfold wrap. pow2. dlia.
Qed.

Lemma crc32_body_spec addr crc b o len l (h : mem) :
  h !! b = Some l -> Forall (uint 8) l -> 0 <= o -> 0 <= len -> o + len <= zlen l ->
  crc32_body tab addr crc (b, o) len h = Some (foldl (do_crc T) crc (slice l o len), h).
Proof using Htab.
  intros Hb Hl Ho Hlen Hend. apply wp_eq. set (r := foldl _ _ _).
  assert (crc_rest l crc o len r) as Hr by done. clearbody r. clear Ho Hlen Hend.
  unfold crc32_body. cbn [fst snd]. wp_step.
  apply (wp_mono _ (fun '(crc, o, len) h' => crc_rest l crc o len r /\ h' = h)).
  { case_if E; [|by wp_step]. b2p. apply (wp_while (fun '(crc, o, len) h' =>
      crc_rest l crc o len r /\ 0 < len /\ (addr + o) mod 4 <> 0 /\ h' = h) _
      (fun '(crc, o, len) => Z.to_nat (4 - (addr + o) mod 4))).
    - rewrite land3 in *. destruct Hr as (? & ? & ? & ?). repeat split; try done. lia.
    - pose proof (Z.mod_pos_bound (addr + o) 4 eq_refl). lia.
    - intros [[c o'] len'] h' (Hc & Hp & Hm & ->). pose proof (crc_rest_byte _ _ _ _ _ Hc Hp) as Hc'.
      pose proof Hc as (_ & ? & ? & ?). wp_steps. apply wp_do_crc. wp_steps.
      case_if E'; b2p; [|done]. rewrite land3 in *. repeat split; try apply Hc'; try done; try lia. dlia. }
  intros [[c1 o1] len1] h1 [Hr1 ->]. wp_step.
  apply (wp_mono _ (fun '(crc, o, len) h' => crc_rest l crc o len r /\ len < 4 /\ h' = h)).
  { wp_step; b2p; [|wp_step; split; [done|]; split; [lia|done]].
    wp_step. apply (wp_mono _ (fun '(crc, o) h' => crc_rest l crc o (len1 mod 4) r /\ h' = h)).
    - apply (wp_while (fun '(crc, o, n) h' => crc_rest l crc o (4 * n + len1 mod 4) r /\ 0 < n /\ h' = h)
        _ (fun '(crc, o, n) => Z.to_nat n)).
      + rewrite Z.shiftr_div_pow2 by lia. pow2. pose proof (Z.div_mod len1 4).
        replace (4 * (len1 / 4) + len1 mod 4) with len1 by lia. split; [done|]. split; [dlia|done].
      + lia.
      + intros [[c o'] n] h' (Hc & Hn & ->). pose proof (Z.mod_pos_bound len1 4 eq_refl).
        pose proof Hc as (_ & ? & ? & ?). wp_step. eapply wp_load_u32; [done|lia|lia|].
        do 4 (wp_step; apply wp_do_crc). wp_step.
        rewrite do_crc_word by (apply Forall_at; [done|lia]).
        do 4 (apply crc_rest_byte in Hc; [|lia]).
        replace (o' + 1 + 1 + 1 + 1) with (o' + 4) in Hc by lia.
        replace (o' + 1 + 1 + 1) with (o' + 3) in Hc by lia.
        replace (o' + 1 + 1) with (o' + 2) in Hc by lia.
        replace (4 * n + len1 mod 4 - 1 - 1 - 1 - 1) with (4 * (n - 1) + len1 mod 4) in Hc by lia.
        case_if E'; b2p.
        * split; [|lia]. split; [done|]. split; [lia|done].
        * split; [|done]. by replace (4 * (n - 1)) with 0 in Hc by lia.
    - intros [c o'] h' [Hc ->]. wp_step. change 3 with (Z.ones 2). rewrite Z.land_ones by lia. pow2.
      split; [done|]. split; [dlia|done]. }
  intros [[c2 o2] len2] h2 (Hr2 & Hlt & ->). wp_step; b2p.
  - apply (wp_while (fun '(crc, o, len) h' => crc_rest l crc o len r /\ 0 < len < 4 /\ h' = h)
      _ (fun '(crc, o, len) => Z.to_nat len)).
    + destruct Hr2 as (? & ? & ? & ?). repeat split; try done; lia.
    + lia.
    + intros [[c o'] len'] h' (Hc & Hp & ->). pose proof (crc_rest_byte _ _ _ _ _ Hc ltac:(lia)) as Hc'.
      pose proof Hc as (_ & ? & ? & ?). wp_steps. apply wp_do_crc. wp_step.
      case_if E'; b2p.
      * split; [|lia]. split; [done|]. split; [lia|done].
      * split; [|done]. destruct Hc' as (Hc' & _). by replace (len' - 1) with 0 in Hc' by lia.
  - wp_step. split; [|done]. destruct Hr2 as (H & _). by subst len2.
Qed.
End Crc32Body.

Lemma swab32_bits x i : 0 <= i < 32 -> Z.testbit (swab32 x) i = Z.testbit x (swap_index i).
Proof. apply ext2_swab_bits. Qed.
Lemma uint_swab32 x : uint 32 x -> uint 32 (swab32 x).
Proof. apply ext2_swab_uint. Qed.
Ltac above32 := rewrite !(testbit_above 32) by (lia || eauto 7 using uint_swab32 with uint).
Lemma swab32_invol x : uint 32 x -> swab32 (swab32 x) = x.
Proof.
  intros Hx. apply bits_ext. intros i Hi. destruct (Z.lt_ge_cases i 32).
  - destruct (swap_index_range i) as [Hr Hs]; [lia|]. rewrite !swab32_bits by (done || lia). by rewrite Hs.
  - by above32.
Qed.
Lemma swab32_lxor x y : uint 32 x -> uint 32 y -> swab32 (Z.lxor x y) = Z.lxor (swab32 x) (swab32 y).
Proof.
  intros Hx Hy. apply bits_ext. intros i Hi. rewrite Z.lxor_spec. destruct (Z.lt_ge_cases i 32).
  - by rewrite !swab32_bits, Z.lxor_spec by lia.
  - by above32.
Qed.
(** Dropping the low byte of the swapped register drops the high one. *)
Lemma swab32_shift x : uint 32 x -> Z.shiftr (swab32 x) 8 = swab32 (wrap 32 (Z.shiftl x 8)).
Proof.
  intros Hx. apply bits_ext. intros i Hi. rewrite Z.shiftr_spec by lia.
  destruct (Z.lt_ge_cases i 32); [|by above32].
  rewrite (swab32_bits _ i) by lia. pose proof (swap_index_range i ltac:(lia)) as [Hr _].
  rewrite testbit_wrap, ltb_t, Z.shiftl_spec by lia. simpl. unfold swap_index in *.
  destruct (Z.lt_ge_cases i 24).
  - rewrite swab32_bits by lia. unfold swap_index. f_equal. dlia.
  - rewrite (testbit_above 32 (swab32 x)) by (lia || by apply uint_swab32).
    rewrite Z.testbit_neg_r; [done|dlia].
Qed.
Lemma swab32_index x d :
  uint 32 x -> uint 8 d -> Z.land (Z.lxor (swab32 x) d) 255 = Z.lxor (Z.shiftr x 24) d.
Proof.
  intros Hx Hd. apply bits_ext. intros i Hi. change 255 with (Z.ones 8). autorewrite with bits.
  destruct (i <? 8) eqn:E; b2p.
  - rewrite swab32_bits, andb_true_r by lia. unfold swap_index. do 2 f_equal. dlia.
  - rewrite andb_false_r, (testbit_above 32 x), (testbit_above 8 d) by (done || lia). done.
Qed.

Lemma crc32table_le_ok : table_ok crc32table_le (iter8 (lsb_step CRCPOLY_LE) 8).
Proof. apply table_check. vm_compute. done. Qed.
Lemma crc32table_be_ok :
  table_ok crc32table_be (fun i => swab32 (iter8 (msb_step 32 CRCPOLY_BE) 8 (Z.shiftl i 24))).
Proof. apply table_check. vm_compute. done. Qed.

#[local] Opaque crc32table_le crc32table_be.

(** One byte of the three ways to compute each byte order. *)
Lemma land1_bit x : (Z.land x 1 =? 0) = negb (Z.testbit x 0).
Proof.
  change 1 with (Z.ones 1). rewrite Z.land_ones, Z.bit0_odd, Zodd_mod by lia. pow2.
  pose proof (Z.mod_pos_bound x 2 eq_refl).
  assert (x mod 2 = 0 \/ x mod 2 = 1) as [-> | ->] by lia; done.
Qed.
Lemma land_top_bit x : uint 32 x -> (Z.land x 0x80000000 =? 0) = negb (Z.testbit x 31).
Proof.
  intros Hx. apply eq_true_iff_eq. rewrite Z.eqb_eq, negb_true_iff, (word_zero_iff 32)
    by (lia || by apply uint_land). split; intros H.
  - specialize (H 31 ltac:(lia)). rewrite Z.land_spec in H. by rewrite andb_true_r in H.
  - intros i Hi. change 0x80000000 with (Z.shiftl 1 31). rewrite Z.land_spec.
    destruct (Z.eq_dec i 31) as [->|]; [by rewrite H|]. rewrite Z.shiftl_1_l, Z.pow2_bits_false by lia.
    apply andb_false_r.
Qed.

Lemma iter8_ext (I : Z -> Prop) f g n x :
  (forall y, I y -> f y = g y /\ I (g y)) -> I x -> iter8 f n x = iter8 g n x.
Proof.
  intros H. revert x. induction n as [|n IH]; intros x Hx; [done|]. cbn [iter8].
  destruct (H x Hx) as [-> ?]. by apply IH.
Qed.

Lemma le_bitwise_byte crc d :
  uint 8 d ->
  iter8 (fun crc => Z.lxor (Z.shiftr crc 1) (if Z.land crc 1 =? 0 then 0 else CRCPOLY_LE)) 8 (Z.lxor crc d) =
  foldl (lsb_bit CRCPOLY_LE) crc (bits_lsb d).
Proof.
  intros Hd. rewrite lsb_byte by done. rewrite (iter8_ext (fun _ => True) _ (lsb_step CRCPOLY_LE)); [|..|done].
  - rewrite (Z.lxor_comm (Z.shiftr crc 8)), <- lsb_shift. f_equal.
    apply bits_ext. intros i Hi. change 255 with (Z.ones 8). autorewrite with bits. change (Z.of_nat 8) with 8.
    destruct (i <? 8) eqn:E; b2p.
    + rewrite (Z.testbit_neg_r _ (i - 8)) by lia. by rewrite andb_true_r, xorb_false_r.
    + rewrite Z.shiftr_spec, (testbit_above 8 d) by (done || lia). rewrite andb_false_r.
      replace (i - 8 + 8) with i by lia. by destruct (Z.testbit crc i).
  - intros y _. split; [|done]. unfold lsb_bit. rewrite land1_bit, xorb_false_r. by destruct (Z.testbit y 0).
Qed.

Lemma be_table_byte crc d :
  uint 32 crc -> uint 8 d ->
  do_crc (fun i => swab32 (iter8 (msb_step 32 CRCPOLY_BE) 8 (Z.shiftl i 24))) (swab32 crc) d =
  swab32 (foldl (msb_bit 32 CRCPOLY_BE) crc (bits_msb d)).
Proof.
  intros Hc Hd. unfold do_crc. rewrite swab32_index, swab32_shift by done.
  rewrite (msb_byte 32 CRCPOLY_BE) by done. rewrite swab32_lxor.
  - by rewrite Z.lxor_comm.
  - by apply uint_wrap.
  - cbn [iter8]. by apply uint_msb_bit.
Qed.

Lemma be_bitwise_byte crc d :
  uint 32 crc -> uint 8 d ->
  iter8 (fun crc => Z.lxor (shl32 crc 1) (if Z.land crc 0x80000000 =? 0 then 0 else CRCPOLY_BE)) 8
    (Z.lxor crc (shl32 d 24)) =
  foldl (msb_bit 32 CRCPOLY_BE) crc (bits_msb d).
Proof.
  intros Hc Hd. rewrite (iter8_ext (uint 32) _ (msb_step 32 CRCPOLY_BE)).
  - unfold shl32. change 24 with (32 - 8 + 0). unfold bits_msb. cbn [fmap list_fmap foldl iter8].
    rewrite !(msb_merge 32 CRCPOLY_BE) by (try apply uint_msb_bit; done || lia).
    replace (wrap 32 _) with 0; [by rewrite Z.lxor_0_r|].
    unfold wrap. change (32 - 8 + _) with 32. by rewrite Z.shiftl_mul_pow2, Z.mod_mul by lia.
  - intros y Hy. split; [|by apply uint_msb_bit]. unfold msb_bit, shl32.
    rewrite land_top_bit, xorb_false_r by done. change (32 - 1) with 31. by destruct (Z.testbit y 31).
  - apply uint_lxor; [lia|done|apply uint_shl32].
Qed.

Lemma do_crc_le_byte crc d :
  uint 8 d -> do_crc (iter8 (lsb_step CRCPOLY_LE) 8) crc d = foldl (lsb_bit CRCPOLY_LE) crc (bits_lsb d).
Proof. intros Hd. rewrite lsb_byte by done. unfold do_crc. apply Z.lxor_comm. Qed.

Lemma foldl_ext_inv (I : Z -> Prop) (P : Z -> Prop) f g (msg : list Z) r :
  (forall y d, I y -> P d -> f y d = g y d /\ I (g y d)) -> I r -> Forall P msg ->
  foldl f r msg = foldl g r msg.
Proof.
  intros H Hr HP. revert r Hr. induction HP as [|d msg Hd HP IH]; intros r Hr; [done|]. cbn.
  destruct (H r d Hr Hd) as [-> ?]. by apply IH.
Qed.

Lemma foldl_be_table crc (msg : list Z) :
  uint 32 crc -> Forall (uint 8) msg ->
  foldl (do_crc (fun i => swab32 (iter8 (msb_step 32 CRCPOLY_BE) 8 (Z.shiftl i 24)))) (swab32 crc) msg =
  swab32 (foldl (fun r d => foldl (msb_bit 32 CRCPOLY_BE) r (bits_msb d)) crc msg).
Proof.
  intros Hc HP. revert crc Hc. induction HP as [|d msg Hd HP IH]; intros crc Hc; [done|]. cbn [foldl].
  rewrite be_table_byte by done. apply IH. by apply uint_msb_fold.
Qed.

Lemma Forall_slice {A} (P : A -> Prop) l o n : Forall P l -> Forall P (slice l o n).
Proof. intros H. by apply Forall_take, Forall_drop. Qed.

Lemma uint_msb_msg crc msg :
  uint 32 crc -> uint 32 (foldl (fun r d => foldl (msb_bit 32 CRCPOLY_BE) r (bits_msb d)) crc msg).
Proof.
  revert crc. induction msg as [|d msg IH]; intros crc Hc; [done|]. cbn [foldl].
  apply IH. by apply uint_msb_fold.
Qed.

Section Crc32Calls.
Context (h : mem) (b : block) (l : list Z) (o len seed addr : Z).
Context (Hb : h !! b = Some l) (Hl : Forall (uint 8) l) (Ho : 0 <= o) (Hlen : 0 <= len).
Context (Hend : o + len <= zlen l) (Hs : uint 32 seed).

Lemma crc32_body_le : crc32_le addr seed (b, o) len h = Some (lsb_crc CRCPOLY_LE seed (slice l o len), h).
Proof using All.
  unfold crc32_le, bind. rewrite (crc32_body_spec _ _ crc32table_le_ok _ _ _ _ _ l) by assumption.
  unfold ret, cpu_to_le32, lsb_crc. do 2 f_equal. rewrite foldl_bits.
  apply (foldl_ext_inv (fun _ => True) (uint 8)); [|done|by apply Forall_slice].
  intros. by rewrite do_crc_le_byte.
Qed.

Lemma crc32_body_be : crc32_be addr seed (b, o) len h = Some (msb_crc 32 CRCPOLY_BE seed (slice l o len), h).
Proof using All.
  unfold crc32_be, bind. rewrite (crc32_body_spec _ _ crc32table_be_ok _ _ _ _ _ l) by assumption.
  unfold ret, cpu_to_be32, msb_crc. do 2 f_equal.
  rewrite foldl_bits, foldl_be_table by (done || by apply Forall_slice).
  apply swab32_invol. by apply uint_msb_msg.
Qed.
End Crc32Calls.

(** C3. [crc32_le] and [crc32_be], with the tables [gen_crc32table] generates and
    their alignment prologue, word loop and byte epilogue, return for every
    buffer, alignment and seed what their one-bit-at-a-time variants return,
    which is the bit-serial register of the polynomial. *)
Theorem crc32_correct (h : mem) b l o len seed addr :
  h !! b = Some l -> Forall (uint 8) l -> 0 <= o -> 0 <= len -> o + len <= zlen l -> uint 32 seed ->
  crc32_le addr seed (b, o) len h = crc32_le_bitwise seed (b, o) len h /\
  crc32_le addr seed (b, o) len h = Some (lsb_crc CRCPOLY_LE seed (slice l o len), h) /\
  crc32_be addr seed (b, o) len h = crc32_be_bitwise seed (b, o) len h /\
  crc32_be addr seed (b, o) len h = Some (msb_crc 32 CRCPOLY_BE seed (slice l o len), h).
Proof.
  intros Hb Hl Ho Hlen Hend Hs.
  pose proof (crc32_body_le h b l o len seed addr Hb Hl Ho Hlen Hend Hs) as Ele.
  pose proof (crc32_body_be h b l o len seed addr Hb Hl Ho Hlen Hend Hs) as Ebe.
  rewrite Ele, Ebe. unfold crc32_le_bitwise, crc32_be_bitwise, lsb_crc, msb_crc. cbn [fst snd].
  rewrite !foldl_bits. clear Ele Ebe.
  rewrite <- (Z2Nat.id len) in Hend |- * by done. rewrite !Nat2Z.id.
  split; [symmetry|split; [done|split; [symmetry|done]]].
  - eapply (crc_loop_spec _ _ (fun _ => True)); try done. intros. split; [|done]. unfold ret.
    by rewrite le_bitwise_byte.
  - eapply (crc_loop_spec _ _ (uint 32)); try done. intros. split; [|by apply uint_msb_fold].
    unfold ret. by rewrite be_bitwise_byte.
Qed.

Lemma crc32_correct_witness :
  crc32_le 3 0xffffffff (1%positive, 1) 9 crc_demo = Some (Z.lxor 0xcbf43926 0xffffffff, crc_demo) /\
  crc32_be 3 0xffffffff (1%positive, 1) 9 crc_demo = Some (0x0376e6e7, crc_demo).
Proof.
  destruct (crc32_correct crc_demo 1%positive [0; 49; 50; 51; 52; 53; 54; 55; 56; 57] 1 9 0xffffffff 3)
    as (_ & H1 & _ & H2); [done|repeat constructor; pow2; lia|lia|lia|unfold zlen; simpl; lia|by split|].
  split; [exact H1|exact H2].
Defined.

(** ** The registers divide polynomials

    A number stands for the polynomial over GF(2) whose coefficients are its
    bits; addition is [Z.lxor] and multiplication by [x^k] is [Z.shiftl _ k]. *)
Definition shifts (G : Z) (q : list Z) : Z := foldr (fun k acc => Z.lxor (Z.shiftl G k) acc) 0 q.
Definition multiple (G p : Z) : Prop := exists q, Forall (fun k => 0 <= k) q /\ p = shifts G q.
Definition msg_poly (msg : list Z) : Z := foldl (fun a d => Z.lxor (Z.shiftl a 8) d) 0 msg.

Lemma shifts_cons G k q : shifts G (k :: q) = Z.lxor (Z.shiftl G k) (shifts G q).
Proof. done. Qed.
Lemma multiple_0 G : multiple G 0.
Proof. exists []. done. Qed.
Lemma multiple_self G : multiple G G.
Proof. exists [0]. split; [by repeat constructor|]. cbn. by rewrite Z.lxor_0_r, Z.shiftl_0_r. Qed.
Lemma multiple_lxor G p p' : multiple G p -> multiple G p' -> multiple G (Z.lxor p p').
Proof.
  intros (q & Hq & ->) (q' & Hq' & ->). exists (q ++ q'). split; [by apply Forall_app|].
  induction Hq as [|k q Hk Hq IH]; [apply Z.lxor_0_l|].
  cbn [app]. by rewrite !shifts_cons, Z.lxor_assoc, IH.
Qed.
Lemma multiple_shift G p k : 0 <= k -> multiple G p -> multiple G (Z.shiftl p k).
Proof.
  intros Hk (q & Hq & ->). exists (Z.add k <$> q). split.
  - apply Forall_fmap. eapply List.Forall_impl; [|exact Hq]. intros j Hj. change (0 <= k + j). cbv beta in Hj. lia.
  - induction Hq as [|j q Hj Hq IH]; [apply Z.shiftl_0_l|]. rewrite fmap_cons, !shifts_cons, <- IH.
    by rewrite Z.shiftl_lxor, Z.shiftl_shiftl, (Z.add_comm k j).
Qed.

Section Remainder.
Context (w poly : Z) (Hw : 8 <= w) (Hpoly : uint w poly).
Local Abbreviation G := (Z.lxor (Z.shiftl 1 w) poly).

(** A step of the register is multiplication by [x] modulo [G]. *)
Lemma msb_step_cong r :
  uint w r -> multiple G (Z.lxor (msb_step w poly r) (Z.shiftl r 1)).
Proof.
  intros Hr. unfold msb_bit. rewrite xorb_false_r.
  enough (Z.lxor (Z.lxor (wrap w (Z.shiftl r 1)) (if Z.testbit r (w - 1) then poly else 0)) (Z.shiftl r 1) =
          if Z.testbit r (w - 1) then G else 0) as ->.
  { destruct (Z.testbit r (w - 1)); [apply multiple_self|apply multiple_0]. }
  apply bits_ext. intros i Hi. autorewrite with bits.
  destruct (i <? w) eqn:E; b2p; simpl.
  - destruct (Z.testbit r (w - 1)); autorewrite with bits.
    + rewrite (Z.testbit_neg_r 1 (i - w)) by lia. xor_cases.
    + xor_cases.
  - destruct (Z.eq_dec i w) as [->|].
    + destruct (Z.testbit r (w - 1)) eqn:T; autorewrite with bits; [|done].
      rewrite Z.sub_diag, (testbit_above w poly) by (done || lia). done.
    + rewrite (testbit_above w r (i - 1)) by (done || lia).
      destruct (Z.testbit r (w - 1)) eqn:T; autorewrite with bits; [|done].
      rewrite (testbit_above w poly), (testbit_above 1 1) by (done || lia). done.
Qed.

Lemma iter_cong r n :
  uint w r -> multiple G (Z.lxor (iter8 (msb_step w poly) n r) (Z.shiftl r (Z.of_nat n))).
Proof.
  revert r. induction n as [|n IH]; intros r Hr.
  - cbn. rewrite Z.shiftl_0_r, Z.lxor_nilpotent. apply multiple_0.
  - cbn [iter8]. pose proof (IH (msb_step w poly r) (uint_msb_bit w poly Hw Hpoly _ _)) as H.
    pose proof (multiple_shift _ _ (Z.of_nat n) ltac:(lia) (msb_step_cong r Hr)) as H'.
    pose proof (multiple_lxor _ _ _ H H') as HH.
    rewrite Z.shiftl_lxor, Z.shiftl_shiftl in HH by lia.
    replace (1 + Z.of_nat n) with (Z.of_nat (S n)) in HH by lia.
    set (s := Z.shiftl (msb_step w poly r) (Z.of_nat n)) in HH.
    by rewrite Z.lxor_assoc, <- (Z.lxor_assoc s), Z.lxor_nilpotent, Z.lxor_0_l in HH.
Qed.

Lemma uint_top d : uint 8 d -> uint w (Z.shiftl d (w - 8)).
Proof.
  intros Hd. unfold uint in *. rewrite Z.shiftl_mul_pow2 by lia.
  assert (2 ^ w = 2 ^ 8 * 2 ^ (w - 8)) as -> by (rewrite <- Z.pow_add_r by lia; f_equal; lia).
  assert (0 < 2 ^ (w - 8)) by (apply Z.pow_pos_nonneg; lia). nia.
Qed.

Lemma byte_cong r d :
  uint w r -> uint 8 d ->
  multiple G (Z.lxor (foldl (msb_bit w poly) r (bits_msb d)) (Z.lxor (Z.shiftl r 8) (Z.shiftl d w))).
Proof.
  intros Hr Hd. pose proof (uint_top d Hd) as Ht.
  assert (uint w (Z.lxor r (Z.shiftl d (w - 8)))) as Hu by (apply uint_lxor; [lia|done|done]).
  pose proof (iter_cong _ 8 Hu) as H. change (Z.of_nat 8) with 8 in H.
  rewrite Z.shiftl_lxor, Z.shiftl_shiftl in H by lia. replace (w - 8 + 8) with w in H by lia.
  rewrite <- (wrap_id w (Z.shiftl d (w - 8))) in H at 1 by done.
  replace (foldl _ _ _) with (iter8 (msb_step w poly) 8 (Z.lxor r (wrap w (Z.shiftl d (w - 8))))); [done|].
  replace (w - 8) with (w - 8 + 0) by lia. unfold bits_msb. cbn [fmap list_fmap foldl iter8].
  rewrite !msb_merge by (try apply uint_msb_bit; done || lia).
  replace (wrap w _) with 0; [by rewrite Z.lxor_0_r|].
  unfold wrap. replace (w - 8 + _) with w by lia. symmetry.
  rewrite Z.shiftl_mul_pow2 by lia. apply Z.mod_mul. pose proof (Z.pow_pos_nonneg 2 w). lia.
Qed.

Lemma msb_crc_remainder seed msg :
  uint w seed -> Forall (uint 8) msg ->
  uint w (msb_crc w poly seed msg) /\
  multiple G (Z.lxor (Z.lxor (Z.shiftl seed (8 * zlen msg)) (Z.shiftl (msg_poly msg) w))
                     (msb_crc w poly seed msg)).
Proof.
  intros Hs Hm. unfold msb_crc, msg_poly. rewrite foldl_bits.
  induction msg as [|d msg IH] using rev_ind.
  - split; [done|]. cbn. rewrite Z.shiftl_0_r, Z.shiftl_0_l, Z.lxor_0_r, Z.lxor_nilpotent. apply multiple_0.
  - apply Forall_app in Hm as [Hm Hd]. apply Forall_cons_1 in Hd as [Hd _].
    destruct (IH Hm) as [Hu HG]. clear IH. rewrite !foldl_app. cbn [foldl].
    set (r := foldl _ seed msg) in *. set (m := foldl _ 0 msg) in *.
    split; [by apply uint_msb_fold|].
    pose proof (multiple_shift _ _ 8 ltac:(lia) HG) as H1.
    pose proof (multiple_lxor _ _ _ H1 (byte_cong r d Hu Hd)) as H2.
    rewrite zlen_app. change (zlen [d]) with 1. pose proof (zlen_nonneg msg).
    set (rd := foldl _ r (bits_msb d)) in *.
    rewrite !Z.shiftl_lxor, (Z.shiftl_shiftl seed), (Z.shiftl_shiftl m) in H2 by lia.
    rewrite Z.shiftl_lxor, (Z.shiftl_shiftl m) by lia.

    replace (8 * (zlen msg + 1)) with (8 * zlen msg + 8) by lia. rewrite (Z.add_comm 8 w).
    match goal with |- multiple _ ?a => match type of H2 with multiple _ ?b => replace a with b end end; [done|].
    apply bits_ext. intros i Hi. rewrite !Z.lxor_spec. xor_cases.
Qed.
End Remainder.

(** Reversing the bits of register and input exchanges the two bit orders. *)
Lemma uint_bitrev32 x : uint 32 (bitrev32 x).
Proof. by apply uint_wrap. Qed.

Lemma bitrev32_step r b :
  uint 32 r -> lsb_bit CRCPOLY_LE (bitrev32 r) b = bitrev32 (msb_bit 32 CRCPOLY_BE r b).
Proof.
  intros Hr. assert (uint 32 (msb_bit 32 CRCPOLY_BE r b)) as Hu by by apply uint_msb_bit.
  apply bits_ext. intros i Hi. destruct (Z.lt_ge_cases i 32).
  - rewrite bitrev32_bits by (done || lia). unfold lsb_bit, msb_bit. autorewrite with bits.
    rewrite (bitrev32_bits r 0) by (done || lia). rewrite (ltb_t (31 - i)) by lia.
    change (32 - 1) with (31 - 0). simpl. f_equal.
    + destruct (Z.eq_dec i 31) as [->|].
      * rewrite (testbit_above 32) by (apply uint_bitrev32 || lia). by rewrite Z.testbit_neg_r by lia.
      * rewrite bitrev32_bits by (done || lia). f_equal. lia.
    + destruct (xorb _ _); [|by rewrite !Z.bits_0].
      change CRCPOLY_LE with (bitrev32 CRCPOLY_BE). rewrite bitrev32_bits by (done || lia). done.
  - rewrite !(testbit_above 32); try apply uint_lsb_bit; try apply uint_bitrev32; try done; by split.
Qed.

Lemma bitrev32_crc r msg :
  uint 32 r -> Forall (uint 8) msg ->
  lsb_crc CRCPOLY_LE (bitrev32 r) (bitrev8 <$> msg) = bitrev32 (msb_crc 32 CRCPOLY_BE r msg).
Proof.
  intros Hr HP. unfold lsb_crc, msb_crc. rewrite !foldl_bits. revert r Hr.
  induction HP as [|d msg Hd HP IH]; intros r Hr; [done|]. rewrite fmap_cons. cbn [foldl].
  rewrite <- IH by by apply uint_msb_fold. f_equal.
  replace (bits_lsb (bitrev8 d)) with (bits_msb d).
  - clear IH. revert r Hr. induction (bits_msb d) as [|b bits IHb]; intros r Hr; [done|]. cbn [foldl].
    rewrite bitrev32_step by done. apply IHb. by apply uint_msb_bit.
  - unfold bits_lsb, bits_msb. cbn [fmap list_fmap]. rewrite !bitrev8_spec by (done || lia). done.
Qed.

(** What the checksums mean.  [crc32_be], [crc_itu_t] and [crc_t10dif] return
    the remainder of the division of [seed x^(8 len) + message x^w] by the
    generator polynomial [G], of degree 32 or 16: the difference is a sum of
    shifted copies of [G] and the result has degree below [G]'s.  [crc32_le] is
    the bit-reversed checksum of the bit-reversed message. *)
Theorem crc_remainder (h : mem) b l o len seed addr :
  h !! b = Some l -> Forall (uint 8) l -> 0 <= o -> 0 <= len -> o + len <= zlen l -> uint 16 seed ->
  (exists r, crc32_be addr seed (b, o) len h = Some (r, h) /\ uint 32 r /\
     multiple 0x104c11db7 (Z.lxor (Z.lxor (Z.shiftl seed (8 * len)) (Z.shiftl (msg_poly (slice l o len)) 32)) r)) /\
  (exists r, crc_itu_t seed (b, o) len h = Some (r, h) /\ uint 16 r /\
     multiple 0x11021 (Z.lxor (Z.lxor (Z.shiftl seed (8 * len)) (Z.shiftl (msg_poly (slice l o len)) 16)) r)) /\
  (exists r, crc_t10dif (b, o) len h = Some (r, h) /\ uint 16 r /\
     multiple 0x18bb7 (Z.lxor (Z.shiftl (msg_poly (slice l o len)) 16) r)) /\
  (forall r, crc32_be addr seed (b, o) len h = Some (r, h) ->
     crc32_le addr (bitrev32 seed) (b, o) len (<[b := bitrev8 <$> l]> h) =
     Some (bitrev32 r, <[b := bitrev8 <$> l]> h)).
Proof.
  intros Hb Hl Ho Hlen Hend Hs. pose proof (Forall_slice _ _ o len Hl) as Hsl.
  assert (uint 32 seed) as Hs32 by (unfold uint in *; pow2; lia).
  assert (zlen (slice l o len) = len) as Hzl by (unfold slice; rewrite zlen_take, zlen_drop by lia; lia).
  pose proof (crc32_body_be h b l o len seed addr Hb Hl Ho Hlen Hend Hs32) as Ebe.
  destruct (crc16_family h b l o len seed) as (Eit & Et10); try assumption.
  split; [|split; [|split]].
  - eexists. split; [exact Ebe|]. rewrite <- Hzl at 2.
    by apply (msb_crc_remainder 32 CRCPOLY_BE).
  - eexists. split; [exact Eit|]. rewrite <- Hzl at 2.
    by apply (msb_crc_remainder 16 0x1021).
  - eexists. split; [exact Et10|].
    destruct (msb_crc_remainder 16 0x8bb7 ltac:(lia) ltac:(by split) 0 (slice l o len)) as [Hu HG]; [by split|done|].
    split; [done|]. by rewrite Z.shiftl_0_l, Z.lxor_0_l in HG.
  - intros r Hr. rewrite Ebe in Hr. simplify_eq. rewrite <- bitrev32_crc by done.
    replace (bitrev8 <$> slice l o len) with (slice (bitrev8 <$> l) o len)
      by (unfold slice; by rewrite fmap_take, fmap_drop).
    apply crc32_body_le; try done.
    + by rewrite lookup_insert_eq.
    + apply Forall_fmap. eapply List.Forall_impl; [|exact Hl]. intros d Hd. by apply bitrev8_uint.
    + unfold zlen. rewrite length_fmap. exact Hend.
    + apply uint_bitrev32.
Qed.

Lemma crc_remainder_witness :
  crc_itu_t 0 (1%positive, 1) 9 crc_demo = Some (0x31c3, crc_demo) /\
  multiple 0x11021 (Z.lxor (Z.shiftl 0x313233343536373839 16) 0x31c3).
Proof.
  destruct (crc_remainder crc_demo 1%positive [0; 49; 50; 51; 52; 53; 54; 55; 56; 57] 1 9 0 0)
    as (_ & (r & Hr & _ & Hm) & _);
    [done|repeat constructor; pow2; lia|lia|lia|unfold zlen; simpl; lia|by split|].
  assert (r = 0x31c3) as ->.
  { assert (Some (r, crc_demo) = Some (0x31c3, crc_demo)) as E by (rewrite <- Hr; reflexivity).
    by simplify_eq. }
  split; [exact Hr|exact Hm].
Defined.
