(* ===== verification/Cipher.v ===== *)
(** * Block ciphers: the interface between cipher modules and block modes

    What [struct cipher_alg] ([include/linux/crypto.h]) promises to the block
    modes: [cia_encrypt] and [cia_decrypt] transform one block from [src] to
    [dst], which may be the same, and undo each other.  The ciphers discharge
    the interface, the modes are verified against it.  The file also holds the
    byte-string view of memory both sides use. *)

From Stdlib Require Import ZArith Lia.
From stdpp Require Import base tactics numbers list gmap option.
From S2P Require Import Prelude.

(** ** Byte strings in memory *)
Abbreviation bytes := (Forall (uint 8)).

(** The [n] bytes at [p], if they lie inside one object. *)
Definition rd (h : mem) (p : ptr) (n : Z) : option (list Z) :=
  match h !! p.1 with
  | Some l => if (0 <=? p.2) && (0 <=? n) && (p.2 + n <=? zlen l) then Some (slice l p.2 n) else None
  | None => None
  end.

(** [l] with the bytes from [o] on replaced by [bs]. *)
Definition splice (l : list Z) (o : Z) (bs : list Z) : list Z :=
  take (Z.to_nat o) l ++ bs ++ drop (Z.to_nat (o + zlen bs)) l.

Definition wr (h : mem) (p : ptr) (bs : list Z) : mem :=
  match h !! p.1 with Some l => <[p.1 := splice l p.2 bs]> h | None => h end.

Definition padd (p : ptr) (n : Z) : ptr := (p.1, p.2 + n).

Lemma rd_Some h p n x :
  rd h p n = Some x <->
  exists l, h !! p.1 = Some l /\ 0 <= p.2 /\ 0 <= n /\ p.2 + n <= zlen l /\ x = slice l p.2 n.
Proof.
  unfold rd. destruct (h !! p.1) as [l|]; [|split; [done|by intros (? & ? & _)]]. case_if E.
  - b2p. split; [intros; simplify_eq; eauto 10|intros (l' & ? & ? & ? & ? & ->); by simplify_eq].
  - split; [done|]. intros (l' & ? & ? & ? & ? & _). simplify_eq.
    assert (((0 <=? p.2) && (0 <=? n) && (p.2 + n <=? zlen l')) = true) as E'; [|congruence].
    rewrite !andb_true_iff, !Z.leb_le. lia.
Qed.

Lemma zlen_slice {A} (l : list A) o n : 0 <= o -> 0 <= n -> o + n <= zlen l -> zlen (slice l o n) = n.
Proof. intros. unfold slice. rewrite zlen_take, zlen_drop by lia. lia. Qed.
Lemma at_slice l o n k : 0 <= o -> 0 <= k < n -> at_ (slice l o n) k = at_ l (o + k).
Proof. intros. unfold slice. rewrite at_take, at_drop by lia. done. Qed.

Lemma zlen_splice l o bs : 0 <= o -> o + zlen bs <= zlen l -> zlen (splice l o bs) = zlen l.
Proof.
  intros. pose proof (zlen_nonneg bs). unfold splice. rewrite !zlen_app, zlen_take, zlen_drop by lia. lia.
Qed.
Lemma at_splice l o bs k :
  0 <= o -> o + zlen bs <= zlen l ->
  at_ (splice l o bs) k = if decide (o <= k < o + zlen bs) then at_ bs (k - o) else at_ l k.
Proof.
  intros Ho Hl. pose proof (zlen_nonneg bs). unfold splice.
  assert (zlen (take (Z.to_nat o) l) = o) as Ht by (rewrite zlen_take by lia; lia). case_decide.
  - rewrite at_app_r, Ht, at_app_l by lia. done.
  - destruct (Z.lt_ge_cases k o).
    + rewrite at_app_l by lia. apply at_take. lia.
    + rewrite !at_app_r, Ht, at_drop by lia. f_equal. lia.
Qed.

Lemma rd_len h p n x : rd h p n = Some x -> zlen x = n.
Proof. rewrite rd_Some. intros (l & _ & ? & ? & ? & ->). by apply zlen_slice. Qed.

(** Reading a part of what can be read. *)
Lemma rd_sub h p n x k m :
  rd h p n = Some x -> 0 <= k -> 0 <= m -> k + m <= n -> rd h (padd p k) m = Some (slice x k m).
Proof.
  rewrite !rd_Some. intros (l & Hb & Ho & Hn & Hl & ->) Hk Hm Hkm. exists l. unfold padd. cbn [fst snd].
  repeat split; try done; try lia. apply at_ext.
  - rewrite !zlen_slice by (rewrite ?zlen_slice by lia; lia). done.
  - intros i Hi. rewrite zlen_slice in Hi by (rewrite ?zlen_slice by lia; lia).
    rewrite !at_slice by lia. f_equal. lia.
Qed.

Lemma padd_0 p : padd p 0 = p.
Proof. destruct p. unfold padd. cbn [fst snd]. by rewrite Z.add_0_r. Qed.
Lemma padd_padd p n m : padd (padd p n) m = padd p (n + m).
Proof. unfold padd. cbn [fst snd]. by rewrite Z.add_assoc. Qed.
Lemma rd_prefix h p n x m : rd h p n = Some x -> 0 <= m <= n -> rd h p m = Some (slice x 0 m).
Proof. intros H Hm. rewrite <- (padd_0 p). apply (rd_sub _ _ n); [done|lia..]. Qed.

Lemma rd_app h p n m x y :
  rd h p n = Some x -> rd h (padd p n) m = Some y -> rd h p (n + m) = Some (x ++ y).
Proof.
  rewrite !rd_Some. unfold padd. cbn [fst snd].
  intros (l & Hb & Ho & Hn & Hl & ->) (l' & Hb' & Ho' & Hm & Hl' & ->). simplify_eq.
  exists l. repeat split; try done; try lia. apply at_ext.
  - rewrite zlen_app, !zlen_slice by lia. done.
  - intros i Hi. rewrite zlen_app, !zlen_slice in Hi by lia. rewrite at_slice by lia.
    destruct (Z.lt_ge_cases i n).
    + rewrite at_app_l, at_slice by (rewrite ?zlen_slice; lia). done.
    + rewrite at_app_r, zlen_slice, at_slice by (rewrite ?zlen_slice; lia). f_equal. lia.
Qed.

(** Writing where [rd] succeeds. *)
Lemma wr_lookup h p bs l : h !! p.1 = Some l -> wr h p bs !! p.1 = Some (splice l p.2 bs).
Proof. intros H. unfold wr. rewrite H. apply lookup_insert_eq. Qed.
Lemma wr_other h p bs b : b <> p.1 -> wr h p bs !! b = h !! b.
Proof. intros H. unfold wr. destruct (h !! p.1); [|done]. by rewrite lookup_insert_ne. Qed.

Lemma rd_wr_eq h p bs x : rd h p (zlen bs) = Some x -> rd (wr h p bs) p (zlen bs) = Some bs.
Proof.
  rewrite !rd_Some. intros (l & Hb & Ho & Hn & Hl & ->). exists (splice l p.2 bs).
  split; [by apply wr_lookup|]. rewrite zlen_splice by done. repeat split; try done.
  apply at_ext; [by rewrite zlen_slice by (rewrite ?zlen_splice; lia)|]. intros k Hk.
  rewrite at_slice, at_splice, decide_True by lia. f_equal. lia.
Qed.

Definition disjoint_ptr (p : ptr) (n : Z) (q : ptr) (m : Z) : Prop :=
  p.1 <> q.1 \/ p.2 + n <= q.2 \/ q.2 + m <= p.2.

Lemma rd_wr_ne h p bs q n x :
  rd h p (zlen bs) = Some x -> disjoint_ptr p (zlen bs) q n -> rd (wr h p bs) q n = rd h q n.
Proof.
  rewrite rd_Some. intros (l & Hb & Ho & Hn & Hl & ->) Hd. unfold disjoint_ptr in Hd.
  destruct (decide (q.1 = p.1)) as [E|E]; [|unfold rd; by rewrite wr_other].
  destruct Hd as [|Hd]; [congruence|]. unfold rd. rewrite E, (wr_lookup _ _ _ l), Hb by done.
  rewrite zlen_splice by done. case_if Ec; [|done]. b2p. f_equal. apply at_ext.
  - by rewrite !zlen_slice by (rewrite ?zlen_splice; lia).
  - intros k Hk. rewrite zlen_slice in Hk by (rewrite ?zlen_splice; lia).
    rewrite !at_slice, at_splice, decide_False by lia. done.
Qed.

Lemma wr_wr h p bs bs' x :
  rd h p (zlen bs) = Some x -> zlen bs' = zlen bs -> wr (wr h p bs) p bs' = wr h p bs'.
Proof.
  rewrite rd_Some. intros (l & Hb & Ho & Hn & Hl & ->) Hlen. unfold wr at 1.
  rewrite (wr_lookup _ _ _ l) by done. unfold wr. rewrite Hb, insert_insert_eq. f_equal. apply at_ext.
  - rewrite !zlen_splice by (rewrite ?zlen_splice; lia). done.
  - intros k Hk. rewrite !at_splice by (rewrite ?zlen_splice; lia). rewrite Hlen. by case_decide.
Qed.

(** Consecutive writes are one. *)
Lemma wr_app h p bs bs' x :
  rd h p (zlen bs + zlen bs') = Some x -> wr (wr h p bs) (padd p (zlen bs)) bs' = wr h p (bs ++ bs').
Proof.
  rewrite rd_Some. intros (l & Hb & Ho & Hn & Hl & ->). pose proof (zlen_nonneg bs). pose proof (zlen_nonneg bs').
  unfold wr at 1, padd. cbn [fst snd].
  rewrite (wr_lookup _ _ _ l) by done. unfold wr. rewrite Hb, insert_insert_eq. f_equal. apply at_ext.
  - rewrite !zlen_splice; rewrite ?zlen_app, ?zlen_splice; lia.
  - intros k Hk. rewrite !at_splice; rewrite ?zlen_app, ?zlen_splice; try lia.
    repeat case_decide; try lia; try done; [rewrite at_app_r by lia; f_equal; lia|by rewrite at_app_l by lia].
Qed.

(** ** Words in memory *)
Definition le4 (v : Z) : list Z := [v mod 2 ^ 8; v / 2 ^ 8 mod 2 ^ 8; v / 2 ^ 16 mod 2 ^ 8; v / 2 ^ 24 mod 2 ^ 8].
Definition le_word (x : list Z) : Z := at_ x 0 + 2 ^ 8 * at_ x 1 + 2 ^ 16 * at_ x 2 + 2 ^ 24 * at_ x 3.

(** [be32_to_cpu( *(__be32 * )p)] and its inverse. *)
Definition be4 (v : Z) : list Z := reverse (le4 v).
Definition be_word (x : list Z) : Z := at_ x 3 + 2 ^ 8 * at_ x 2 + 2 ^ 16 * at_ x 1 + 2 ^ 24 * at_ x 0.
Definition load_be32 (p : ptr) : C Z :=
  let* b3 := load p.1 p.2 in
  let* b2 := load p.1 (p.2 + 1) in
  let* b1 := load p.1 (p.2 + 2) in
  let* b0 := load p.1 (p.2 + 3) in
  ret (b0 + 2 ^ 8 * b1 + 2 ^ 16 * b2 + 2 ^ 24 * b3).
Definition store_be32 (p : ptr) (v : Z) : C unit :=
  store p.1 p.2 (v / 2 ^ 24 mod 2 ^ 8) ;;
  store p.1 (p.2 + 1) (v / 2 ^ 16 mod 2 ^ 8) ;;
  store p.1 (p.2 + 2) (v / 2 ^ 8 mod 2 ^ 8) ;;
  store p.1 (p.2 + 3) (v mod 2 ^ 8).

Lemma bytes_le4 v : bytes (le4 v).
Proof. unfold le4. repeat constructor; apply Z.mod_pos_bound; lia. Qed.
Lemma bytes_be4 v : bytes (be4 v).
Proof. unfold be4. rewrite Forall_reverse. apply bytes_le4. Qed.
Lemma bytes_at x k : bytes x -> uint 8 (at_ x k).
Proof.
  intros H. destruct (decide (0 <= k < zlen x)); [by apply Forall_at|].
  rewrite at_out by done. by apply uint_0.
Qed.
Lemma uint_word4 b0 b1 b2 b3 :
  uint 8 b0 -> uint 8 b1 -> uint 8 b2 -> uint 8 b3 -> uint 32 (b0 + 2 ^ 8 * b1 + 2 ^ 16 * b2 + 2 ^ 24 * b3).
Proof. unfold uint. pow2. lia. Qed.
Lemma uint_le_word x : bytes x -> uint 32 (le_word x).
Proof. intros. apply uint_word4; by apply bytes_at. Qed.
Lemma uint_be_word x : bytes x -> uint 32 (be_word x).
Proof. intros. apply uint_word4; by apply bytes_at. Qed.

Lemma le_word_le4 v y : uint 32 v -> le_word (le4 v ++ y) = v.
Proof.
  intros Hv. unfold le_word. rewrite !at_app_l by done.
  change (at_ (le4 v) 0) with (v mod 2 ^ 8). change (at_ (le4 v) 1) with (v / 2 ^ 8 mod 2 ^ 8).
  change (at_ (le4 v) 2) with (v / 2 ^ 16 mod 2 ^ 8). change (at_ (le4 v) 3) with (v / 2 ^ 24 mod 2 ^ 8).
  unfold uint in Hv. pow2. dlia.
Qed.
Lemma le4_le_word x : bytes x -> zlen x = 4 -> le4 (le_word x) = x.
Proof.
  intros Hx Hl. destruct x as [|b0 [|b1 [|b2 [|b3 [|? ?]]]]]; try (unfold zlen in Hl; simpl in Hl; lia).
  forall_inv. destruct (le_bytes b0 b1 b2 b3) as (E0 & E1 & E2 & E3); try done.
  unfold le4, le_word. change (at_ [b0; b1; b2; b3] 0) with b0. change (at_ [b0; b1; b2; b3] 1) with b1.
  change (at_ [b0; b1; b2; b3] 2) with b2. change (at_ [b0; b1; b2; b3] 3) with b3.
  by rewrite E0, E1, E2, E3.
Qed.
Lemma be_word_be4 v y : uint 32 v -> be_word (be4 v ++ y) = v.
Proof. intros Hv. rewrite <- (le_word_le4 v []) at 2 by done. unfold be_word. by rewrite !at_app_l by done. Qed.
Lemma be4_be_word x : bytes x -> zlen x = 4 -> be4 (be_word x) = x.
Proof.
  intros Hx Hl. destruct x as [|b0 [|b1 [|b2 [|b3 [|? ?]]]]]; try (unfold zlen in Hl; simpl in Hl; lia).
  unfold be4. change (be_word [b0; b1; b2; b3]) with (le_word [b3; b2; b1; b0]).
  rewrite le4_le_word; [done| |done]. change [b3; b2; b1; b0] with (reverse [b0; b1; b2; b3]).
  by apply Forall_reverse.
Qed.

(** ** Reading and writing words as byte strings *)
Lemma load_u32_rd h p n x :
  rd h p n = Some x -> 4 <= n -> load_u32 p h = Some (le_word x, h).
Proof.
  rewrite rd_Some. intros (l & Hb & Ho & Hn & Hl & ->) H4. destruct p as [b o]. cbn [fst snd] in *.
  apply wp_eq. eapply wp_load_u32; [done|lia|lia|]. split; [|done]. unfold le_word.
  rewrite !at_slice by lia. by rewrite Z.add_0_r.
Qed.
Lemma load_be32_rd h p n x :
  rd h p n = Some x -> 4 <= n -> load_be32 p h = Some (be_word x, h).
Proof.
  rewrite rd_Some. intros (l & Hb & Ho & Hn & Hl & ->) H4. destruct p as [b o]. cbn [fst snd] in *.
  apply wp_eq. unfold load_be32. cbn [fst snd]. wp_steps. split; [|done]. unfold be_word.
  rewrite !at_slice by lia. by rewrite Z.add_0_r.
Qed.

Lemma put4_splice l o b0 b1 b2 b3 :
  0 <= o -> o + 4 <= zlen l -> put4 l o b0 b1 b2 b3 = splice l o [b0; b1; b2; b3].
Proof.
  intros Ho Hl. change (zlen [b0; b1; b2; b3]) with 4 in *. apply at_ext.
  - unfold put4. rewrite !zlen_upd, zlen_splice by (change (zlen [b0; b1; b2; b3]) with 4; lia). done.
  - intros k Hk. rewrite at_splice by (change (zlen [b0; b1; b2; b3]) with 4; lia).
    change (zlen [b0; b1; b2; b3]) with 4. unfold put4. case_decide.
    + assert (k = o \/ k = o + 1 \/ k = o + 2 \/ k = o + 3) as [-> | [-> | [-> | ->]]] by lia;
        repeat (rewrite at_upd_ne by lia); rewrite at_upd_eq by (rewrite ?zlen_upd; lia).
      all: [> replace (o - o) with 0 by lia | replace (o + 1 - o) with 1 by lia
            | replace (o + 2 - o) with 2 by lia | replace (o + 3 - o) with 3 by lia]; done.
    + by rewrite !at_upd_ne by lia.
Qed.

Lemma store_u32_wr h p n x v :
  rd h p n = Some x -> 4 <= n -> store_u32 p v h = Some (tt, wr h p (le4 v)).
Proof.
  rewrite rd_Some. intros (l & Hb & Ho & Hn & Hl & ->) H4. destruct p as [b o]. cbn [fst snd] in *.
  apply wp_eq. unfold store_u32, wr. cbn [fst snd]. rewrite Hb. wp_steps. split; [done|].
  rewrite !insert_insert_eq. f_equal. by apply put4_splice; [|lia].
Qed.
Lemma store_be32_wr h p n x v :
  rd h p n = Some x -> 4 <= n -> store_be32 p v h = Some (tt, wr h p (be4 v)).
Proof.
  rewrite rd_Some. intros (l & Hb & Ho & Hn & Hl & ->) H4. destruct p as [b o]. cbn [fst snd] in *.
  apply wp_eq. unfold store_be32, wr. cbn [fst snd]. rewrite Hb. wp_steps. split; [done|].
  rewrite !insert_insert_eq. f_equal. by apply put4_splice; [|lia].
Qed.

(** ** The interface *)
Class BlockCipher (Ctx : Type) := {
  cra_blocksize : Z;
  cia_encrypt : Ctx -> ptr -> ptr -> C unit;
  cia_decrypt : Ctx -> ptr -> ptr -> C unit;
  (* the contexts [cia_setkey] produces *)
  key_ok : Ctx -> Prop;
  (* the permutation of blocks a key selects, and its inverse *)
  enc : Ctx -> list Z -> list Z;
  dec : Ctx -> list Z -> list Z;
  blocksize_pow2 : exists k, 2 <= k < 31 /\ cra_blocksize = 2 ^ k;
  enc_block k x : key_ok k -> bytes x -> zlen x = cra_blocksize ->
    bytes (enc k x) /\ zlen (enc k x) = cra_blocksize;
  dec_block k x : key_ok k -> bytes x -> zlen x = cra_blocksize ->
    bytes (dec k x) /\ zlen (dec k x) = cra_blocksize;
  dec_enc k x : key_ok k -> bytes x -> zlen x = cra_blocksize -> dec k (enc k x) = x;
  enc_dec k x : key_ok k -> bytes x -> zlen x = cra_blocksize -> enc k (dec k x) = x;
  encrypt_spec k (h : mem) dst src x y : key_ok k -> bytes x ->
    rd h src cra_blocksize = Some x -> rd h dst cra_blocksize = Some y ->
    cia_encrypt k dst src h = Some (tt, wr h dst (enc k x));
  decrypt_spec k (h : mem) dst src x y : key_ok k -> bytes x ->
    rd h src cra_blocksize = Some x -> rd h dst cra_blocksize = Some y ->
    cia_decrypt k dst src h = Some (tt, wr h dst (dec k x));
}.

Lemma blocksize_pos `{BlockCipher Ctx} : 4 <= cra_blocksize < 2 ^ 31.
Proof.
  destruct blocksize_pow2 as (k & Hk & ->). split.
  - change 4 with (2 ^ 2). apply Z.pow_le_mono_r; lia.
  - apply Z.pow_lt_mono_r; lia.
Qed.

(** ** Ciphers on two 32-bit words

    The frame most 64-bit ciphers share: read [in[0]] and [in[1]], transform
    them, write [out[0]] and [out[1]]; big-endian words when [be]. *)
Section TwoWords.
Context (be : bool).
Definition load_w : ptr -> C Z := if be then load_be32 else load_u32.
Definition store_w : ptr -> Z -> C unit := if be then store_be32 else store_u32.
Definition word_of (x : list Z) : Z := if be then be_word x else le_word x.
Definition bytes_of (v : Z) : list Z := if be then be4 v else le4 v.

Definition crypt2 (f : Z * Z -> C (Z * Z)) (dst src : ptr) : C unit :=
  let* y := load_w src in
  let* z := load_w (padd src 4) in
  let* '(y, z) := f (y, z) in
  store_w dst y ;;
  store_w (padd dst 4) z.

Definition block2 (g : Z * Z -> Z * Z) (x : list Z) : list Z :=
  let '(y, z) := g (word_of x, word_of (slice x 4 4)) in bytes_of y ++ bytes_of z.

Lemma zlen_bytes_of v : zlen (bytes_of v) = 4.
Proof. unfold bytes_of. by destruct be. Qed.
Lemma bytes_bytes_of v : bytes (bytes_of v).
Proof. unfold bytes_of. destruct be; [apply bytes_be4|apply bytes_le4]. Qed.
Lemma uint_word_of x : bytes x -> uint 32 (word_of x).
Proof. unfold word_of. destruct be; [apply uint_be_word|apply uint_le_word]. Qed.
Lemma word_of_bytes v y : uint 32 v -> word_of (bytes_of v ++ y) = v.
Proof. unfold word_of, bytes_of. destruct be; [apply be_word_be4|apply le_word_le4]. Qed.
Lemma bytes_of_word x : bytes x -> zlen x = 4 -> bytes_of (word_of x) = x.
Proof. unfold word_of, bytes_of. destruct be; [apply be4_be_word|apply le4_le_word]. Qed.
Lemma word_of_slice x : 4 <= zlen x -> word_of (slice x 0 4) = word_of x.
Proof. intros. unfold word_of, be_word, le_word. destruct be; by rewrite !at_slice by lia. Qed.

Lemma load_w_rd h p n x : rd h p n = Some x -> 4 <= n -> load_w p h = Some (word_of x, h).
Proof. unfold load_w, word_of. destruct be; [apply load_be32_rd|apply load_u32_rd]. Qed.
Lemma store_w_wr h p n x v : rd h p n = Some x -> 4 <= n -> store_w p v h = Some (tt, wr h p (bytes_of v)).
Proof. unfold store_w, bytes_of. destruct be; [apply store_be32_wr|apply store_u32_wr]. Qed.

Definition words2 (p : Z * Z) : Prop := uint 32 p.1 /\ uint 32 p.2.

Lemma block2_block g x : bytes (block2 g x) /\ zlen (block2 g x) = 8.
Proof.
  unfold block2. destruct (g _) as [y z].
  split; [apply Forall_app; split; apply bytes_bytes_of|by rewrite zlen_app, !zlen_bytes_of].
Qed.

Lemma slice_bytes_of v w : slice (bytes_of v ++ bytes_of w) 4 4 = bytes_of w.
Proof. unfold bytes_of. by destruct be. Qed.

Lemma block2_inv g g' x :
  bytes x -> zlen x = 8 -> (forall p, words2 p -> words2 (g p) /\ g' (g p) = p) ->
  block2 g' (block2 g x) = x.
Proof.
  intros Hx Hl Hg. unfold block2 at 2. set (p := (word_of x, word_of (slice x 4 4))).
  assert (bytes (slice x 4 4)) as Hx' by (by apply Forall_take, Forall_drop).
  assert (words2 p) as Hp by (split; by apply uint_word_of).
  destruct (Hg p Hp) as [[Hy Hz] Hinv]. destruct (g p) as [y z] eqn:E. cbn [fst snd] in *.
  unfold block2. rewrite word_of_bytes by done. rewrite slice_bytes_of.
  rewrite <- (app_nil_r (bytes_of z)) at 1. rewrite word_of_bytes by done. rewrite Hinv. unfold p.
  rewrite (bytes_of_word (slice x 4 4)) by (done || by rewrite zlen_slice by lia).
  rewrite <- (word_of_slice x), bytes_of_word by (lia || (by apply Forall_take, Forall_drop) || by rewrite zlen_slice by lia).
  unfold slice. rewrite drop_0. rewrite (take_ge (drop _ _)); [apply take_drop|].
  rewrite length_drop. unfold zlen in Hl. lia.
Qed.

Lemma crypt2_spec (f : Z * Z -> C (Z * Z)) g (h : mem) dst src x y :
  (forall p h, words2 p -> f p h = Some (g p, h)) -> bytes x ->
  rd h src 8 = Some x -> rd h dst 8 = Some y ->
  crypt2 f dst src h = Some (tt, wr h dst (block2 g x)).
Proof.
  intros Hf Hx Hs Hd. pose proof (rd_len _ _ _ _ Hs) as Hl.
  pose proof (rd_sub _ _ _ _ 4 4 Hs ltac:(lia) ltac:(lia) ltac:(lia)) as Hs4.
  unfold crypt2, bind. rewrite (load_w_rd _ _ _ _ Hs), (load_w_rd _ _ _ _ Hs4) by lia.
  rewrite Hf by (split; apply uint_word_of; [done|by apply Forall_take, Forall_drop]).
  unfold block2. destruct (g _) as [u v]. rewrite (store_w_wr _ _ _ _ _ Hd) by lia.
  erewrite store_w_wr; [|erewrite rd_wr_ne|].
  - f_equal. f_equal. rewrite <- (zlen_bytes_of u).
    eapply wr_app. rewrite !zlen_bytes_of. exact Hd.
  - exact (rd_sub _ _ _ _ 4 4 Hd ltac:(lia) ltac:(lia) ltac:(lia)).
  - rewrite zlen_bytes_of. exact (rd_prefix _ _ _ _ 4 Hd ltac:(lia)).
  - right. left. rewrite zlen_bytes_of. cbn. lia.
  - lia.
Qed.
End TwoWords.

(** ** What every client of the interface gets: decryption in place restores
    the block that was encrypted to that place. *)
Section Roundtrip.
Context {Ctx : Type} `{BlockCipher Ctx}.

Lemma cipher_roundtrip k (h : mem) dst src x y :
  key_ok k -> bytes x -> rd h src cra_blocksize = Some x -> rd h dst cra_blocksize = Some y ->
  exists h1, cia_encrypt k dst src h = Some (tt, h1) /\ cia_decrypt k dst dst h1 = Some (tt, wr h dst x).
Proof.
  intros Hk Hx Hs Hd. pose proof (rd_len _ _ _ _ Hs) as Hl.
  destruct (enc_block k x Hk Hx Hl) as [Hb Hel].
  exists (wr h dst (enc k x)). split; [by eapply encrypt_spec|].
  rewrite <- Hel in Hd. pose proof (rd_wr_eq _ _ _ _ Hd) as Hr. rewrite Hel in Hr.
  erewrite decrypt_spec by done. rewrite dec_enc by done. do 2 f_equal.
  eapply wr_wr; [done|]. by rewrite Hel.
Qed.

Lemma cipher_roundtrip' k (h : mem) dst src x y :
  key_ok k -> bytes x -> rd h src cra_blocksize = Some x -> rd h dst cra_blocksize = Some y ->
  exists h1, cia_decrypt k dst src h = Some (tt, h1) /\ cia_encrypt k dst dst h1 = Some (tt, wr h dst x).
Proof.
  intros Hk Hx Hs Hd. pose proof (rd_len _ _ _ _ Hs) as Hl.
  destruct (dec_block k x Hk Hx Hl) as [Hb Hel].
  exists (wr h dst (dec k x)). split; [by eapply decrypt_spec|].
  rewrite <- Hel in Hd. pose proof (rd_wr_eq _ _ _ _ Hd) as Hr. rewrite Hel in Hr.
  erewrite encrypt_spec by done. rewrite enc_dec by done. do 2 f_equal.
  eapply wr_wr; [done|]. by rewrite Hel.
Qed.
End Roundtrip.

(** ** Tables of 32-bit words *)
Lemma uint_at32 l i : Forall (uint 32) l -> uint 32 (at_ l i).
Proof.
  intros H. destruct (decide (0 <= i < zlen l)); [by apply Forall_at|].
  rewrite at_out by done. by apply uint_0.
Qed.

Definition all_u32 (l : list Z) : bool := forallb (fun x => (0 <=? x) && (x <? 4294967296)) l.
Lemma all_u32_ok l : all_u32 l = true -> Forall (uint 32) l.
Proof.
  unfold all_u32. rewrite forallb_forall. intros H. apply Forall_forall. intros x Hx.
  apply H in Hx. b2p. unfold uint. pow2. lia.
Qed.

(** ** Feistel networks *)
(** Cancel equal terms of an exclusive or. *)
Ltac xor_solve :=
  apply bits_ext; intros ? _; rewrite ?Z.lxor_spec;
  repeat match goal with |- context [Z.testbit ?x ?i] => destruct (Z.testbit x i) end; reflexivity.

Definition swap2 (p : Z * Z) : Z * Z := (p.2, p.1).
Definition feistel_step (p : Z * Z) (f : Z -> Z) : Z * Z := (p.2, Z.lxor p.1 (f p.2)).
Definition feistel (fs : list (Z -> Z)) (p : Z * Z) : Z * Z := foldl feistel_step p fs.

(** Exchanging the halves and running the rounds in reverse order undoes a
    Feistel network, whatever its round functions are. *)
Lemma feistel_reverse fs p : feistel (reverse fs) (swap2 (feistel fs p)) = swap2 p.
Proof.
  revert p. induction fs as [|f fs IH]; intros p; [done|]. unfold feistel in *. cbn [foldl].
  rewrite reverse_cons, foldl_app, IH. destruct p as [l r]. unfold swap2, feistel_step. cbn [foldl fst snd].
  f_equal. xor_solve.
Qed.

Lemma words2_feistel fs p :
  Forall (fun f => forall x, uint 32 x -> uint 32 (f x)) fs -> words2 p -> words2 (feistel fs p).
Proof.
  intros Hf. revert p. induction Hf as [|f fs Hf1 Hf IH]; intros p [H1 H2]; [done|].
  unfold feistel in *. cbn [foldl]. apply IH. split; cbn [fst snd feistel_step]; [done|].
  apply uint_lxor; [lia|done|auto].
Qed.
