(* ===== verification/Tea.v ===== *)
(** * The TEA family

    [crypto/tea.c]: TEA, XTEA and the incorrectly implemented XETA kept for
    compatibility.  Each is an alternating-addition network of 32 cycles; one
    generic lemma on such networks gives that decryption undoes encryption, and
    the loops of the source, whose exit test is on the running sum, are shown to
    run exactly 32 cycles. *)

From Stdlib Require Import ZArith Lia.
From stdpp Require Import base tactics numbers list gmap option.
From S2P Require Import Prelude Bits Cipher.

Definition TEA_ROUNDS : Z := 32.
Definition TEA_DELTA : Z := 0x9e3779b9.
Definition XTEA_ROUNDS : Z := 32.
Definition XTEA_DELTA : Z := 0x9e3779b9.

Record tea_ctx := TeaCtx { KEY : list Z }.

Definition tea_setkey (in_key : ptr) : C tea_ctx :=
  let* k0 := load_u32 in_key in
  let* k1 := load_u32 (padd in_key 4) in
  let* k2 := load_u32 (padd in_key 8) in
  let* k3 := load_u32 (padd in_key 12) in
  ret (TeaCtx [k0; k1; k2; k3]).
Definition xtea_setkey : ptr -> C tea_ctx := tea_setkey.

(** ** TEA *)
Definition tea_F (z k sum k' : Z) : Z :=
  Z.lxor (Z.lxor (u32 (shl32 z 4 + k)) (u32 (z + sum))) (u32 (Z.shiftr z 5 + k')).

Definition tea_encrypt (ctx : tea_ctx) (dst src : ptr) : C unit :=
  let k0 := at_ (KEY ctx) 0 in
  let k1 := at_ (KEY ctx) 1 in
  let k2 := at_ (KEY ctx) 2 in
  let k3 := at_ (KEY ctx) 3 in
  crypt2 false (fun '(y, z) =>
    while 33 (fun '(n, sum, y, z) =>
      if 0 <? n then
        let sum := u32 (sum + TEA_DELTA) in
        let y := u32 (y + tea_F z k0 sum k1) in
        let z := u32 (z + tea_F y k2 sum k3) in
        ret (inl (n - 1, sum, y, z))
      else ret (inr (y, z))) (TEA_ROUNDS, 0, y, z)) dst src.

Definition tea_decrypt (ctx : tea_ctx) (dst src : ptr) : C unit :=
  let k0 := at_ (KEY ctx) 0 in
  let k1 := at_ (KEY ctx) 1 in
  let k2 := at_ (KEY ctx) 2 in
  let k3 := at_ (KEY ctx) 3 in
  crypt2 false (fun '(y, z) =>
    while 33 (fun '(n, sum, y, z) =>
      if 0 <? n then
        let z := u32 (z - tea_F y k2 sum k3) in
        let y := u32 (y - tea_F z k0 sum k1) in
        let sum := u32 (sum - TEA_DELTA) in
        ret (inl (n - 1, sum, y, z))
      else ret (inr (y, z))) (TEA_ROUNDS, shl32 TEA_DELTA 5, y, z)) dst src.

(** ** XTEA and XETA: the sum is the loop counter *)
Definition xtea_limit : Z := u32 (XTEA_DELTA * XTEA_ROUNDS).

Definition xtea_F (key z sum : Z) : Z :=
  Z.lxor (u32 (Z.lxor (shl32 z 4) (Z.shiftr z 5) + z)) (u32 (sum + key)).
Definition xeta_F (key z sum : Z) : Z :=
  u32 (u32 (Z.lxor (shl32 z 4) (Z.shiftr z 5) + Z.lxor z sum) + key).

Definition xtea_enc_loop (F : Z -> Z -> Z -> Z) (ctx : tea_ctx) : Z * Z -> C (Z * Z) := fun '(y, z) =>
  while 33 (fun '(sum, y, z) =>
    if negb (sum =? xtea_limit) then
      let y := u32 (y + F (at_ (KEY ctx) (Z.land sum 3)) z sum) in
      let sum := u32 (sum + XTEA_DELTA) in
      let z := u32 (z + F (at_ (KEY ctx) (Z.land (Z.shiftr sum 11) 3)) y sum) in
      ret (inl (sum, y, z))
    else ret (inr (y, z))) (0, y, z).

Definition xtea_dec_loop (F : Z -> Z -> Z -> Z) (ctx : tea_ctx) : Z * Z -> C (Z * Z) := fun '(y, z) =>
  while 33 (fun '(sum, y, z) =>
    if negb (sum =? 0) then
      let z := u32 (z - F (at_ (KEY ctx) (Z.land (Z.shiftr sum 11) 3)) y sum) in
      let sum := u32 (sum - XTEA_DELTA) in
      let y := u32 (y - F (at_ (KEY ctx) (Z.land sum 3)) z sum) in
      ret (inl (sum, y, z))
    else ret (inr (y, z))) (xtea_limit, y, z).

Definition xtea_encrypt (ctx : tea_ctx) : ptr -> ptr -> C unit := crypt2 false (xtea_enc_loop xtea_F ctx).
Definition xtea_decrypt (ctx : tea_ctx) : ptr -> ptr -> C unit := crypt2 false (xtea_dec_loop xtea_F ctx).
Definition xeta_encrypt (ctx : tea_ctx) : ptr -> ptr -> C unit := crypt2 false (xtea_enc_loop xeta_F ctx).
Definition xeta_decrypt (ctx : tea_ctx) : ptr -> ptr -> C unit := crypt2 false (xtea_dec_loop xeta_F ctx).

(** ** Alternating-addition networks *)
Section Network.
Context (A B : Z -> Z -> Z).

Definition cycle (i : Z) (p : Z * Z) : Z * Z :=
  let y := u32 (p.1 + A i p.2) in (y, u32 (p.2 + B i y)).
Definition uncycle (i : Z) (p : Z * Z) : Z * Z :=
  let z := u32 (p.2 - B i p.1) in (u32 (p.1 - A i z), z).

Fixpoint cycles (n : nat) (p : Z * Z) : Z * Z :=
  match n with O => p | S n => cycle (Z.of_nat n) (cycles n p) end.
Fixpoint uncycles (n : nat) (p : Z * Z) : Z * Z :=
  match n with O => p | S n => uncycles n (uncycle (Z.of_nat n) p) end.

Lemma words2_u32 a b : words2 (u32 a, u32 b).
Proof. split; by apply uint_wrap. Qed.
Lemma words2_cycles n p : words2 p -> words2 (cycles n p).
Proof. destruct n; [done|intros _; apply words2_u32]. Qed.

Lemma wrap_add_sub x a : uint 32 x -> u32 (u32 (x + a) - a) = x.
Proof.
  intros Hx. unfold wrap. rewrite Zminus_mod_idemp_l. replace (x + a - a) with x by lia. by apply Z.mod_small.
Qed.
Lemma wrap_sub_add x a : uint 32 x -> u32 (u32 (x - a) + a) = x.
Proof.
  intros Hx. unfold wrap. rewrite Z.add_mod_idemp_l by lia. replace (x - a + a) with x by lia. by apply Z.mod_small.
Qed.

Lemma uncycle_cycle i p : words2 p -> uncycle i (cycle i p) = p.
Proof.
  destruct p as [y z]. intros [Hy Hz]. cbn [fst snd] in *. unfold uncycle, cycle. cbn [fst snd].
  rewrite (wrap_add_sub z) by done. by rewrite wrap_add_sub.
Qed.
Lemma cycle_uncycle i p : words2 p -> cycle i (uncycle i p) = p.
Proof.
  destruct p as [y z]. intros [Hy Hz]. cbn [fst snd] in *. unfold uncycle, cycle. cbn [fst snd].
  rewrite (wrap_sub_add y) by done. by rewrite wrap_sub_add.
Qed.

Lemma words2_uncycles n p : words2 p -> words2 (uncycles n p).
Proof. revert p. induction n as [|n IH]; intros p Hp; [done|]. apply IH, words2_u32. Qed.

Lemma uncycles_cycles n p : words2 p -> words2 (cycles n p) /\ uncycles n (cycles n p) = p.
Proof.
  intros Hp. split; [by apply words2_cycles|]. induction n as [|n IH]; [done|]. cbn [cycles uncycles].
  by rewrite uncycle_cycle by by apply words2_cycles.
Qed.
Lemma cycles_uncycles n p : words2 p -> words2 (uncycles n p) /\ cycles n (uncycles n p) = p.
Proof.
  intros Hp. split; [by apply words2_uncycles|]. revert p Hp. induction n as [|n IH]; intros p Hp; [done|].
  cbn [cycles uncycles]. rewrite IH by apply words2_u32. by apply cycle_uncycle.
Qed.
End Network.

(** ** The loops are networks of 32 cycles *)
Definition sum_at (i : Z) : Z := u32 (i * TEA_DELTA).
Lemma sum_next i : u32 (sum_at i + TEA_DELTA) = sum_at (i + 1).
Proof. unfold sum_at, wrap. rewrite Z.add_mod_idemp_l by lia. f_equal. lia. Qed.
Lemma sum_prev i : u32 (sum_at (i + 1) - TEA_DELTA) = sum_at i.
Proof. unfold sum_at, wrap. rewrite Zminus_mod_idemp_l. f_equal. lia. Qed.

(** The running sum takes 33 different values. *)
Lemma sum_distinct i j : 0 <= i <= 32 -> 0 <= j <= 32 -> sum_at i = sum_at j -> i = j.
Proof.
  intros Hi Hj E.
  pose proof (check_range (fun i => all_from (fun j => implb (sum_at i =? sum_at j) (i =? j)) 0 (Z.to_nat 33)) 33
    ltac:(by vm_compute) i ltac:(lia)) as H. cbv beta in H.
  pose proof (check_range _ 33 H j ltac:(lia)) as H'. cbv beta in H'.
  rewrite E, Z.eqb_refl in H'. by apply Z.eqb_eq.
Qed.

Section Tea.
Context (k : tea_ctx).
Definition tea_A (i z : Z) : Z := tea_F z (at_ (KEY k) 0) (sum_at (i + 1)) (at_ (KEY k) 1).
Definition tea_B (i y : Z) : Z := tea_F y (at_ (KEY k) 2) (sum_at (i + 1)) (at_ (KEY k) 3).

Lemma tea_encrypt_spec h dst src x y :
  bytes x -> rd h src 8 = Some x -> rd h dst 8 = Some y ->
  tea_encrypt k dst src h = Some (tt, wr h dst (block2 false (cycles tea_A tea_B 32) x)).
Proof.
  intros Hx Hs Hd. unfold tea_encrypt. eapply crypt2_spec; try done. clear. intros [y z] h _.
  apply wp_eq. apply (wp_while (fun '(n, sum, y', z') h' => exists i : nat, (i <= 32)%nat /\
    n = 32 - Z.of_nat i /\ sum = sum_at (Z.of_nat i) /\ (y', z') = cycles tea_A tea_B i (y, z) /\ h' = h) _
    (fun '(n, sum, y', z') => Z.to_nat n)).
  - exists 0%nat. repeat split. lia.
  - unfold TEA_ROUNDS. lia.
  - intros [[[n sum] y'] z'] h' (i & Hi & -> & -> & Hp & ->). wp_step; b2p; wp_step.
    + split; [|lia]. exists (S i). split; [lia|]. split; [lia|]. rewrite sum_next.
      replace (Z.of_nat (S i)) with (Z.of_nat i + 1) by lia. split; [done|]. split; [|done].
      cbn [cycles]. rewrite <- Hp. unfold cycle, tea_A, tea_B. cbn [fst snd]. reflexivity.
    + replace i with 32%nat in Hp by lia. done.
Qed.

Lemma tea_decrypt_spec h dst src x y :
  bytes x -> rd h src 8 = Some x -> rd h dst 8 = Some y ->
  tea_decrypt k dst src h = Some (tt, wr h dst (block2 false (uncycles tea_A tea_B 32) x)).
Proof.
  intros Hx Hs Hd. unfold tea_decrypt. eapply crypt2_spec; try done. clear. intros [y z] h _.
  apply wp_eq. apply (wp_while (fun '(n, sum, y', z') h' => exists i : nat,
    n = Z.of_nat i /\ sum = sum_at (Z.of_nat i) /\
    uncycles tea_A tea_B i (y', z') = uncycles tea_A tea_B 32 (y, z) /\ h' = h) _
    (fun '(n, sum, y', z') => Z.to_nat n)).
  - exists 32%nat. repeat split.
  - unfold TEA_ROUNDS. lia.
  - intros [[[n sum] y'] z'] h' (i & -> & -> & Hp & ->). wp_step; b2p; wp_step.
    + split; [|lia]. destruct i as [|i]; [lia|]. exists i. split; [lia|].
      replace (Z.of_nat (S i)) with (Z.of_nat i + 1) by lia. rewrite sum_prev. split; [done|].
      split; [|done]. rewrite <- Hp. cbn [uncycles]. unfold uncycle, tea_A, tea_B. cbn [fst snd]. reflexivity.
    + replace i with 0%nat in Hp by lia. done.
Qed.
End Tea.

Section Xtea.
Context (F : Z -> Z -> Z -> Z) (k : tea_ctx).
Definition xtea_A (i z : Z) : Z := F (at_ (KEY k) (Z.land (sum_at i) 3)) z (sum_at i).
Definition xtea_B (i y : Z) : Z :=
  F (at_ (KEY k) (Z.land (Z.shiftr (sum_at (i + 1)) 11) 3)) y (sum_at (i + 1)).

Lemma xtea_enc_loop_spec p h : xtea_enc_loop F k p h = Some (cycles xtea_A xtea_B 32 p, h).
Proof.
  destruct p as [y z]. apply wp_eq. unfold xtea_enc_loop.
  apply (wp_while_ix (fun n '(sum, y', z') h' => exists i : nat, (i + n = 32)%nat /\
    sum = sum_at (Z.of_nat i) /\ (y', z') = cycles xtea_A xtea_B i (y, z) /\ h' = h) _ 32).
  - exists 0%nat. repeat split.
  - lia.
  - intros n [[sum y'] z'] h' (i & Hi & -> & Hp & ->). wp_step; b2p; wp_step.
    + change xtea_limit with (sum_at 32) in *. assert (i <> 32%nat) by (intros ->; done).
      exists (n - 1)%nat. split; [lia|]. exists (S i). split; [lia|].
      change XTEA_DELTA with TEA_DELTA. rewrite sum_next.
      replace (Z.of_nat (S i)) with (Z.of_nat i + 1) by lia. split; [done|]. split; [|done].
      cbn [cycles]. rewrite <- Hp. unfold cycle, xtea_A, xtea_B. cbn [fst snd]. reflexivity.
    + change xtea_limit with (sum_at 32) in *. split; [|done].
      assert (Z.of_nat i = 32) by (apply sum_distinct; lia || done).
      by replace i with 32%nat in Hp by lia.
Qed.

Lemma xtea_dec_loop_spec p h : xtea_dec_loop F k p h = Some (uncycles xtea_A xtea_B 32 p, h).
Proof.
  destruct p as [y z]. apply wp_eq. unfold xtea_dec_loop.
  apply (wp_while_ix (fun n '(sum, y', z') h' => (n <= 32)%nat /\ sum = sum_at (Z.of_nat n) /\
    uncycles xtea_A xtea_B n (y', z') = uncycles xtea_A xtea_B 32 (y, z) /\ h' = h) _ 32).
  - repeat split. lia.
  - lia.
  - intros n [[sum y'] z'] h' (Hn & -> & Hp & ->). wp_step; b2p; wp_step.
    + destruct n as [|n]; [done|]. exists n. split; [lia|]. split; [lia|].
      replace (Z.of_nat (S n)) with (Z.of_nat n + 1) in * by lia.
      change XTEA_DELTA with TEA_DELTA. rewrite sum_prev. split; [done|]. split; [|done].
      rewrite <- Hp. cbn [uncycles]. unfold uncycle, xtea_A, xtea_B. cbn [fst snd]. reflexivity.
    + split; [|done]. assert (Z.of_nat n = 0) by (apply sum_distinct; lia || done).
      by replace n with 0%nat in Hp by lia.
Qed.
End Xtea.

(** ** The ciphers as block ciphers *)
Section Instances.
Context (A B : tea_ctx -> Z -> Z -> Z) (e d : tea_ctx -> ptr -> ptr -> C unit).
Context (He : forall k h dst src x y, bytes x -> rd h src 8 = Some x -> rd h dst 8 = Some y ->
  e k dst src h = Some (tt, wr h dst (block2 false (cycles (A k) (B k) 32) x))).
Context (Hd : forall k h dst src x y, bytes x -> rd h src 8 = Some x -> rd h dst 8 = Some y ->
  d k dst src h = Some (tt, wr h dst (block2 false (uncycles (A k) (B k) 32) x))).

Definition network_cipher : BlockCipher tea_ctx.
Proof using All.
  refine {| cra_blocksize := 8; cia_encrypt := e; cia_decrypt := d; key_ok := fun _ => True;
    enc := fun k => block2 false (cycles (A k) (B k) 32);
    dec := fun k => block2 false (uncycles (A k) (B k) 32) |}.
  - by exists 3.
  - intros. apply block2_block.
  - intros. apply block2_block.
  - intros. apply block2_inv; [done..|]. intros. by apply uncycles_cycles.
  - intros. apply block2_inv; [done..|]. intros. by apply cycles_uncycles.
  - intros. by eapply He.
  - intros. by eapply Hd.
Defined.
End Instances.

Lemma xtea_encrypt_ok F k h dst src x y :
  bytes x -> rd h src 8 = Some x -> rd h dst 8 = Some y ->
  crypt2 false (xtea_enc_loop F k) dst src h =
  Some (tt, wr h dst (block2 false (cycles (xtea_A F k) (xtea_B F k) 32) x)).
Proof. intros. eapply crypt2_spec; try done. intros. apply xtea_enc_loop_spec. Qed.
Lemma xtea_decrypt_ok F k h dst src x y :
  bytes x -> rd h src 8 = Some x -> rd h dst 8 = Some y ->
  crypt2 false (xtea_dec_loop F k) dst src h =
  Some (tt, wr h dst (block2 false (uncycles (xtea_A F k) (xtea_B F k) 32) x)).
Proof. intros. eapply crypt2_spec; try done. intros. apply xtea_dec_loop_spec. Qed.

Definition tea_cipher : BlockCipher tea_ctx :=
  network_cipher tea_A tea_B tea_encrypt tea_decrypt tea_encrypt_spec tea_decrypt_spec.
Definition xtea_cipher : BlockCipher tea_ctx :=
  network_cipher (xtea_A xtea_F) (xtea_B xtea_F) xtea_encrypt xtea_decrypt
    (xtea_encrypt_ok xtea_F) (xtea_decrypt_ok xtea_F).
Definition xeta_cipher : BlockCipher tea_ctx :=
  network_cipher (xtea_A xeta_F) (xtea_B xeta_F) xeta_encrypt xeta_decrypt
    (xtea_encrypt_ok xeta_F) (xtea_decrypt_ok xeta_F).

(** For every key and block, decrypting in place what TEA, XTEA or XETA
    encrypted restores the block, and encrypting what they decrypted does too;
    each of the loops, also those whose exit test is on the running sum, ends
    after 32 cycles. *)
Theorem tea_family_roundtrip k (h : mem) dst src x y :
  bytes x -> rd h src 8 = Some x -> rd h dst 8 = Some y ->
  (exists h1, tea_encrypt k dst src h = Some (tt, h1) /\ tea_decrypt k dst dst h1 = Some (tt, wr h dst x)) /\
  (exists h1, tea_decrypt k dst src h = Some (tt, h1) /\ tea_encrypt k dst dst h1 = Some (tt, wr h dst x)) /\
  (exists h1, xtea_encrypt k dst src h = Some (tt, h1) /\ xtea_decrypt k dst dst h1 = Some (tt, wr h dst x)) /\
  (exists h1, xtea_decrypt k dst src h = Some (tt, h1) /\ xtea_encrypt k dst dst h1 = Some (tt, wr h dst x)) /\
  (exists h1, xeta_encrypt k dst src h = Some (tt, h1) /\ xeta_decrypt k dst dst h1 = Some (tt, wr h dst x)) /\
  (exists h1, xeta_decrypt k dst src h = Some (tt, h1) /\ xeta_encrypt k dst dst h1 = Some (tt, wr h dst x)).
Proof.
  intros Hx Hs Hd.
  split; [exact (@cipher_roundtrip _ tea_cipher k h dst src x y I Hx Hs Hd)|].
  split; [exact (@cipher_roundtrip' _ tea_cipher k h dst src x y I Hx Hs Hd)|].
  split; [exact (@cipher_roundtrip _ xtea_cipher k h dst src x y I Hx Hs Hd)|].
  split; [exact (@cipher_roundtrip' _ xtea_cipher k h dst src x y I Hx Hs Hd)|].
  split; [exact (@cipher_roundtrip _ xeta_cipher k h dst src x y I Hx Hs Hd)|].
  exact (@cipher_roundtrip' _ xeta_cipher k h dst src x y I Hx Hs Hd).
Qed.

Lemma tea_family_roundtrip_witness :
  let h : mem := {[1%positive := [1; 2; 3; 4; 5; 6; 7; 8]; 2%positive := [0; 0; 0; 0; 0; 0; 0; 0]]} in
  exists h1, tea_encrypt (TeaCtx [10; 20; 30; 40]) (2%positive, 0) (1%positive, 0) h = Some (tt, h1) /\
    tea_decrypt (TeaCtx [10; 20; 30; 40]) (2%positive, 0) (2%positive, 0) h1 =
      Some (tt, wr h (2%positive, 0) [1; 2; 3; 4; 5; 6; 7; 8]).
Proof.
  intros h.
  destruct (tea_family_roundtrip (TeaCtx [10; 20; 30; 40]) h (2%positive, 0) (1%positive, 0)
    [1; 2; 3; 4; 5; 6; 7; 8] [0; 0; 0; 0; 0; 0; 0; 0]) as (H & _);
    [repeat constructor; pow2; lia|reflexivity|reflexivity|exact H].
Defined.
