(* ===== verification/CString.v ===== *)
(** * Strings and memory blocks

    [lib/string.c] and the character classes of [lib/ctype.c].  A pointer is an
    object and an offset, [NULL] is [None]; [char] is unsigned, as on ARM.  A
    loop over a string has as many steps as its object has bytes: a pointer that
    goes on walking leaves the object and the access faults, so the theorems also
    say that no routine reads or writes outside its arguments. *)

From Stdlib Require Import ZArith Lia.
From stdpp Require Import base tactics numbers list gmap option.
From S2P Require Import Prelude Cipher.

(** ** Character classes *)
Definition _L : Z := 0x02.
Definition _U : Z := 0x01.
Definition _S : Z := 0x20.
Definition _ctype : list Z := [
   0x8; 0x8; 0x8; 0x8; 0x8; 0x8; 0x8; 0x8; 0x8; 0x28; 0x28; 0x28; 0x28; 0x28; 0x8; 0x8;
   0x8; 0x8; 0x8; 0x8; 0x8; 0x8; 0x8; 0x8; 0x8; 0x8; 0x8; 0x8; 0x8; 0x8; 0x8; 0x8;
   0xa0; 0x10; 0x10; 0x10; 0x10; 0x10; 0x10; 0x10; 0x10; 0x10; 0x10; 0x10; 0x10; 0x10; 0x10; 0x10;
   0x4; 0x4; 0x4; 0x4; 0x4; 0x4; 0x4; 0x4; 0x4; 0x4; 0x10; 0x10; 0x10; 0x10; 0x10; 0x10;
   0x10; 0x41; 0x41; 0x41; 0x41; 0x41; 0x41; 0x1; 0x1; 0x1; 0x1; 0x1; 0x1; 0x1; 0x1; 0x1;
   0x1; 0x1; 0x1; 0x1; 0x1; 0x1; 0x1; 0x1; 0x1; 0x1; 0x1; 0x10; 0x10; 0x10; 0x10; 0x10;
   0x10; 0x42; 0x42; 0x42; 0x42; 0x42; 0x42; 0x2; 0x2; 0x2; 0x2; 0x2; 0x2; 0x2; 0x2; 0x2;
   0x2; 0x2; 0x2; 0x2; 0x2; 0x2; 0x2; 0x2; 0x2; 0x2; 0x2; 0x10; 0x10; 0x10; 0x10; 0x8;
   0x0; 0x0; 0x0; 0x0; 0x0; 0x0; 0x0; 0x0; 0x0; 0x0; 0x0; 0x0; 0x0; 0x0; 0x0; 0x0;
   0x0; 0x0; 0x0; 0x0; 0x0; 0x0; 0x0; 0x0; 0x0; 0x0; 0x0; 0x0; 0x0; 0x0; 0x0; 0x0;
   0xa0; 0x10; 0x10; 0x10; 0x10; 0x10; 0x10; 0x10; 0x10; 0x10; 0x10; 0x10; 0x10; 0x10; 0x10; 0x10;
   0x10; 0x10; 0x10; 0x10; 0x10; 0x10; 0x10; 0x10; 0x10; 0x10; 0x10; 0x10; 0x10; 0x10; 0x10; 0x10;
   0x1; 0x1; 0x1; 0x1; 0x1; 0x1; 0x1; 0x1; 0x1; 0x1; 0x1; 0x1; 0x1; 0x1; 0x1; 0x1;
   0x1; 0x1; 0x1; 0x1; 0x1; 0x1; 0x1; 0x10; 0x1; 0x1; 0x1; 0x1; 0x1; 0x1; 0x1; 0x2;
   0x2; 0x2; 0x2; 0x2; 0x2; 0x2; 0x2; 0x2; 0x2; 0x2; 0x2; 0x2; 0x2; 0x2; 0x2; 0x2;
   0x2; 0x2; 0x2; 0x2; 0x2; 0x2; 0x2; 0x10; 0x2; 0x2; 0x2; 0x2; 0x2; 0x2; 0x2; 0x2].
Definition isspace (c : Z) : bool := negb (Z.land (at_ _ctype (u8 c)) _S =? 0).
Definition isupper (c : Z) : bool := negb (Z.land (at_ _ctype (u8 c)) _U =? 0).
Definition tolower (c : Z) : Z := if isupper c then u8 (c - (65 - 97)) else c.
Definition islower (c : Z) : bool := negb (Z.land (at_ _ctype (u8 c)) _L =? 0).
Definition toupper (c : Z) : Z := if islower c then u8 (c - (97 - 65)) else c.
Definition isdigit (c : Z) : bool := negb (Z.land (at_ _ctype (u8 c)) 0x04 =? 0).
Definition isxdigit (c : Z) : bool := negb (Z.land (at_ _ctype (u8 c)) (Z.lor 0x04 0x40) =? 0).
Definition isalnum (c : Z) : bool := negb (Z.land (at_ _ctype (u8 c)) (Z.lor (Z.lor _U _L) 0x04) =? 0).

(** ** Walking a pointer *)
Definition steps (p : ptr) : C nat := fun h => Some (S (length (default [] (h !! p.1))), h).
Definition ld (p : ptr) : C Z := load p.1 p.2.
Definition st (p : ptr) (v : Z) : C unit := store p.1 p.2 v.

(** ** Length and search *)
Definition strlen (s : ptr) : C Z :=
  let* f := steps s in
  while f (fun sc =>
    let* c := ld sc in
    ret (if negb (c =? 0) then inl (padd sc 1) else inr (sc.2 - s.2))) s.

Definition strnlen (s : ptr) (count : Z) : C Z :=
  let* f := steps s in
  while f (fun '(sc, count) =>
    if count =? 0 then ret (inr (sc.2 - s.2)) else
    let* c := ld sc in
    ret (if negb (c =? 0) then inl (padd sc 1, count - 1) else inr (sc.2 - s.2))) (s, count).

Definition strchr (s : ptr) (c : Z) : C (option ptr) :=
  let* f := steps s in
  while f (fun s =>
    let* x := ld s in
    ret (if x =? u8 c then inr (Some s) else if x =? 0 then inr None else inl (padd s 1))) s.

Definition strnchr (s : ptr) (count c : Z) : C (option ptr) :=
  let* f := steps s in
  while f (fun '(s, count) =>
    if count =? 0 then ret (inr None) else
    let* x := ld s in
    ret (if x =? 0 then inr None
         else if x =? u8 c then inr (Some s) else inl (padd s 1, count - 1))) (s, count).

Definition strrchr (s : ptr) (c : Z) : C (option ptr) :=
  let* n := strlen s in
  let* f := steps s in
  while f (fun p =>
    let* x := ld p in
    ret (if x =? u8 c then inr (Some p)
         else if s.2 <=? p.2 - 1 then inl (padd p (-1)) else inr None)) (padd s n).

Definition memscan (addr : ptr) (c size : Z) : C ptr :=
  let* f := steps addr in
  while f (fun '(p, size) =>
    if size =? 0 then ret (inr p) else
    let* x := ld p in
    ret (if x =? c then inr p else inl (padd p 1, size - 1))) (addr, size).

Definition memchr (s : ptr) (c n : Z) : C (option ptr) :=
  let* f := steps s in
  while f (fun '(p, n) =>
    if n =? 0 then ret (inr None) else
    let* x := ld p in
    ret (if u8 c =? x then inr (Some p) else inl (padd p 1, n - 1))) (s, n).

(** ** Comparison: [sgn 8] is the conversion to [signed char __res] *)
Definition strcmp (cs ct : ptr) : C Z :=
  let* f := steps cs in
  while f (fun '(cs, ct) =>
    let* a := ld cs in
    let* b := ld ct in
    let res := sgn 8 (a - b) in
    ret (if negb (res =? 0) || (a =? 0) then inr res else inl (padd cs 1, padd ct 1))) (cs, ct).

Definition strncmp (cs ct : ptr) (count : Z) : C Z :=
  let* f := steps cs in
  while f (fun '(cs, ct, count) =>
    if count =? 0 then ret (inr 0) else
    let* a := ld cs in
    let* b := ld ct in
    let res := sgn 8 (a - b) in
    ret (if negb (res =? 0) || (a =? 0) then inr res else inl (padd cs 1, padd ct 1, count - 1)))
    (cs, ct, count).

Definition memcmp (cs ct : ptr) (count : Z) : C Z :=
  let* f := steps cs in
  while f (fun '(su1, su2, count) =>
    if 0 <? count then
      let* a := ld su1 in
      let* b := ld su2 in
      ret (if negb (a - b =? 0) then inr (a - b) else inl (padd su1 1, padd su2 1, count - 1))
    else ret (inr 0)) (cs, ct, count).

Definition strcasecmp (s1 s2 : ptr) : C Z :=
  let* f := steps s1 in
  while f (fun '(s1, s2) =>
    let* a := ld s1 in
    let* b := ld s2 in
    let c1 := tolower a in
    let c2 := tolower b in
    ret (if (c1 =? c2) && negb (c1 =? 0) then inl (padd s1 1, padd s2 1) else inr (c1 - c2))) (s1, s2).

Definition strnicmp (s1 s2 : ptr) (len : Z) : C Z :=
  if len =? 0 then ret 0 else
  let* f := steps s1 in
  while f (fun '(s1, s2, len) =>
    let* c1 := ld s1 in
    let* c2 := ld s2 in
    let next c1 c2 := if negb (len - 1 =? 0) then inl (padd s1 1, padd s2 1, len - 1) else inr (c1 - c2) in
    ret (if c1 =? 0 then inr (c1 - c2) else
         if c2 =? 0 then inr (c1 - c2) else
         if c1 =? c2 then next c1 c2 else
         let c1 := tolower c1 in
         let c2 := tolower c2 in
         if negb (c1 =? c2) then inr (c1 - c2) else next c1 c2)) (s1, s2, len).

Definition sysfs_streq (s1 s2 : ptr) : C bool :=
  let* f := steps s1 in
  let* '(s1, s2) := while f (fun '(s1, s2) =>
    let* a := ld s1 in
    if a =? 0 then ret (inr (s1, s2)) else
    let* b := ld s2 in
    ret (if a =? b then inl (padd s1 1, padd s2 1) else inr (s1, s2))) (s1, s2) in
  let* a := ld s1 in
  let* b := ld s2 in
  if a =? b then ret true else
  let* x := (if (a =? 0) && (b =? 10) then let* n := ld (padd s2 1) in ret (n =? 0) else ret false) in
  if x : bool then ret true else
  let* y := (if a =? 10 then let* n := ld (padd s1 1) in ret ((n =? 0) && (b =? 0)) else ret false) in
  ret y.

(** ** Copying *)
Definition copy_string (dest src : ptr) : C unit :=
  let* f := steps src in
  while f (fun '(dest, src) =>
    let* c := ld src in
    st dest c ;;
    ret (if negb (c =? 0) then inl (padd dest 1, padd src 1) else inr tt)) (dest, src).

Definition strcpy (dest src : ptr) : C ptr := copy_string dest src ;; ret dest.

Definition strncpy (dest src : ptr) (count : Z) : C ptr :=
  let* f := steps dest in
  while f (fun '(tmp, src, count) =>
    if count =? 0 then ret (inr tt) else
    let* c := ld src in
    st tmp c ;;
    ret (inl (padd tmp 1, if negb (c =? 0) then padd src 1 else src, count - 1))) (dest, src, count) ;;
  ret dest.

Definition memcpy_p (dest src : ptr) (count : Z) : C unit := memcpy dest.1 dest.2 src.1 src.2 count.

Definition strlcpy (dest src : ptr) (size : Z) : C Z :=
  let* r := strlen src in
  (if negb (size =? 0) then
     let len := if size <=? r then size - 1 else r in
     memcpy_p dest src len ;;
     st (padd dest len) 0
   else ret tt) ;;
  ret r.

Definition find_end (dest : ptr) : C ptr :=
  let* f := steps dest in
  while f (fun dest =>
    let* c := ld dest in
    ret (if negb (c =? 0) then inl (padd dest 1) else inr dest)) dest.

Definition strcat (dest src : ptr) : C ptr :=
  let* e := find_end dest in
  copy_string e src ;;
  ret dest.

Definition strncat (dest src : ptr) (count : Z) : C ptr :=
  (if negb (count =? 0) then
     let* e := find_end dest in
     let* f := steps src in
     while f (fun '(dest, src, count) =>
       let* c := ld src in
       st dest c ;;
       if negb (c =? 0) then
         if count - 1 =? 0 then st (padd dest 1) 0 ;; ret (inr tt)
         else ret (inl (padd dest 1, padd src 1, count - 1))
       else ret (inr tt)) (e, src, count)
   else ret tt) ;;
  ret dest.

Definition strlcat (dest src : ptr) (count : Z) : C Z :=
  let* dsize := strlen dest in
  let* len := strlen src in
  let res := u32 (dsize + len) in
  if count <=? dsize then fault (* BUG_ON *) else
  let dest := padd dest dsize in
  let count := count - dsize in
  let len := if count <=? len then count - 1 else len in
  memcpy_p dest src len ;;
  st (padd dest len) 0 ;;
  ret res.

(** Two areas of one object are ordered by offset, areas of different objects
    by their addresses; [before] is the outcome of [dest <= src] then. *)
Definition memmove (before : bool) (dest src : ptr) (count : Z) : C ptr :=
  (if (if decide (dest.1 = src.1) then dest.2 <=? src.2 else before) then
     for_ (Z.to_nat count) 0 (fun k => let* x := ld (padd src k) in st (padd dest k) x)
   else
     for_ (Z.to_nat count) 0 (fun k =>
       let* x := ld (padd src (count - 1 - k)) in st (padd dest (count - 1 - k)) x)) ;;
  ret dest.

(** ** Sets of characters and tokens *)
(** The inner loop over [accept], [reject] or [ct]: is [x] one of its characters? *)
Definition in_set (x : Z) (set : ptr) : C bool :=
  let* f := steps set in
  while f (fun a =>
    let* y := ld a in
    ret (if y =? 0 then inr false else if x =? y then inr true else inl (padd a 1))) set.

Definition span (stop : bool) (s set : ptr) : C Z :=
  let* f := steps s in
  while f (fun '(p, count) =>
    let* x := ld p in
    if x =? 0 then ret (inr count) else
    let* found := in_set x set in
    ret (if Bool.eqb found stop then inr count else inl (padd p 1, count + 1))) (s, 0).
Definition strspn (s accept : ptr) : C Z := span false s accept.
Definition strcspn (s reject : ptr) : C Z := span true s reject.

Definition strpbrk (cs ct : ptr) : C (option ptr) :=
  let* f := steps cs in
  while f (fun sc1 =>
    let* x := ld sc1 in
    if x =? 0 then ret (inr None) else
    let* found := in_set x ct in
    ret (if found : bool then inr (Some sc1) else inl (padd sc1 1))) cs.

(** [*s] is passed and returned. *)
Definition strsep (s : option ptr) (ct : ptr) : C (option ptr * option ptr) :=
  match s with
  | None => ret (None, s)
  | Some sbegin =>
      let* e := strpbrk sbegin ct in
      match e with
      | Some e => st e 0 ;; ret (Some sbegin, Some (padd e 1))
      | None => ret (Some sbegin, None)
      end
  end.

Definition strstr (s1 s2 : ptr) : C (option ptr) :=
  let* l2 := strlen s2 in
  if l2 =? 0 then ret (Some s1) else
  let* l1 := strlen s1 in
  let* f := steps s1 in
  while f (fun '(s1, l1) =>
    if l2 <=? l1 then
      let* r := memcmp s1 s2 l2 in
      ret (if r =? 0 then inr (Some s1) else inl (padd s1 1, l1 - 1))
    else ret (inr None)) (s1, l1).

Definition strstrip (s : ptr) : C ptr :=
  let* size := strlen s in
  if size =? 0 then ret s else
  let* f := steps s in
  let* e := while f (fun e =>
    if s.2 <=? e.2 then
      let* c := ld e in
      ret (if isspace c then inl (padd e (-1)) else inr e)
    else ret (inr e)) (padd s (size - 1)) in
  st (padd e 1) 0 ;;
  while f (fun s =>
    let* c := ld s in
    ret (if negb (c =? 0) && isspace c then inl (padd s 1) else inr s)) s.

(** ** Strings and areas in memory *)
Definition chars (s : list Z) : Prop := Forall (fun c => 0 < c < 256) s.

(** A NUL-terminated string [s] at [p]; [at_ s i] is [0] for the terminator. *)
Definition cstr (h : mem) (p : ptr) (s : list Z) : Prop :=
  chars s /\ rd h p (zlen s + 1) = Some (s ++ [0]).

Definition first_idx (P : Z -> Prop) (n : Z) (r : option Z) : Prop :=
  match r with
  | Some i => 0 <= i < n /\ P i /\ forall j, 0 <= j < i -> ~ P j
  | None => forall j, 0 <= j < n -> ~ P j
  end.
Definition last_idx (P : Z -> Prop) (n : Z) (r : option Z) : Prop :=
  match r with
  | Some i => 0 <= i < n /\ P i /\ forall j, i < j < n -> ~ P j
  | None => forall j, 0 <= j < n -> ~ P j
  end.

Lemma chars_at s i : chars s -> 0 <= i < zlen s -> 0 < at_ s i < 256.
Proof. intros Hs Hi. by apply (Forall_at (fun c => 0 < c < 256)). Qed.
Lemma at_end s : at_ s (zlen s) = 0.
Proof. apply at_out. lia. Qed.
Lemma at_app_nul s i : 0 <= i <= zlen s -> at_ (s ++ [0]) i = at_ s i.
Proof.
  intros Hi. destruct (Z.eq_dec i (zlen s)) as [->|].
  - rewrite at_app_r, Z.sub_diag, at_end by lia. done.
  - by rewrite at_app_l by lia.
Qed.
Lemma char_nul s i : chars s -> 0 <= i <= zlen s -> at_ s i = 0 <-> i = zlen s.
Proof.
  intros Hs Hi. split; [|intros ->; apply at_end]. intros H.
  destruct (Z.eq_dec i (zlen s)); [done|]. pose proof (chars_at s i Hs). lia.
Qed.

Lemma wp_ld h p n x i (Q : Z -> mem -> Prop) :
  rd h p n = Some x -> 0 <= i < n -> Q (at_ x i) h -> wp (ld (padd p i)) Q h.
Proof.
  rewrite rd_Some. intros (l & Hb & Ho & Hn & Hl & ->) Hi HQ. unfold ld, padd. cbn [fst snd].
  eapply wp_load; [done|lia|]. by rewrite at_slice in HQ by lia.
Qed.
Lemma wp_ld_str h p s i (Q : Z -> mem -> Prop) :
  cstr h p s -> 0 <= i <= zlen s -> Q (at_ s i) h -> wp (ld (padd p i)) Q h.
Proof.
  intros [_ Hr] Hi HQ. eapply wp_ld; [done|lia|]. by rewrite at_app_nul.
Qed.
Lemma wp_ld_str0 h p s (Q : Z -> mem -> Prop) :
  cstr h p s -> Q (at_ s 0) h -> wp (ld p) Q h.
Proof.
  intros Hc HQ. rewrite <- (padd_0 p). eapply wp_ld_str; [done| |done]. pose proof (zlen_nonneg s). lia.
Qed.

(** There are more steps than bytes from [p] on. *)
Lemma wp_steps_of h p n x (Q : nat -> mem -> Prop) :
  rd h p n = Some x -> (forall f, n < Z.of_nat f -> Q f h) -> wp (steps p) Q h.
Proof.
  rewrite rd_Some. intros (l & Hb & Ho & Hn & Hl & ->) HQ. eexists _, _. split; [done|].
  rewrite Hb. apply HQ. change (default [] (Some l)) with l. unfold zlen in Hl. lia.
Qed.
Lemma wp_steps_str h p s (Q : nat -> mem -> Prop) :
  cstr h p s -> (forall f, zlen s + 1 < Z.of_nat f -> Q f h) -> wp (steps p) Q h.
Proof. intros [_ Hr]. by apply (wp_steps_of _ _ _ _ _ Hr). Qed.

(** A loop whose variables are a function of a counter that goes up to at most
    [n]: with [I i] established it goes on to [i + 1] or leaves with a result. *)
Lemma wp_walk_gen {X R} (v : Z -> X) (I : Z -> Prop) (Q : R -> mem -> Prop) n f (body : X -> C (X + R)) h :
  I 0 -> 0 <= n < Z.of_nat f ->
  (forall i, 0 <= i <= n -> I i -> wp (body (v i)) (fun o h' =>
     match o with
     | inl q => q = v (i + 1) /\ h' = h /\ i < n /\ I (i + 1)
     | inr r => Q r h'
     end) h) ->
  wp (while f body (v 0)) Q h.
Proof.
  intros H0 Hf Hb.
  apply (wp_while_ix (fun m q h' => exists i, 0 <= i <= n /\ m = Z.to_nat (n - i) /\
    q = v i /\ h' = h /\ I i) _ (Z.to_nat n)).
  - exists 0. repeat split; try done; lia.
  - lia.
  - intros m q h' (i & Hi & -> & -> & -> & HI). eapply wp_mono; [by apply Hb|].
    intros [q|r] h'; [|done]. intros (-> & -> & Hlt & HI'). exists (Z.to_nat (n - (i + 1))).
    split; [lia|]. exists (i + 1). repeat split; try done; lia.
Qed.

(** A pointer that walks up from [p], also with a count that goes down, and two
    pointers that walk in step. *)
Lemma wp_walk {R} (I : Z -> Prop) (Q : R -> mem -> Prop) n f (body : ptr -> C (ptr + R)) p h :
  I 0 -> 0 <= n < Z.of_nat f ->
  (forall i, 0 <= i <= n -> I i -> wp (body (padd p i)) (fun o h' =>
     match o with
     | inl q => q = padd p (i + 1) /\ h' = h /\ i < n /\ I (i + 1)
     | inr r => Q r h'
     end) h) ->
  wp (while f body p) Q h.
Proof. intros H1 H2 H3. pose proof (wp_walk_gen (padd p) I Q n f body h H1 H2 H3) as H. by rewrite padd_0 in H. Qed.

Lemma wp_walk_count {R} (I : Z -> Prop) (Q : R -> mem -> Prop) n f count
    (body : ptr * Z -> C (ptr * Z + R)) p h :
  I 0 -> 0 <= n < Z.of_nat f ->
  (forall i, 0 <= i <= n -> I i -> wp (body (padd p i, count - i)) (fun o h' =>
     match o with
     | inl q => q = (padd p (i + 1), count - (i + 1)) /\ h' = h /\ i < n /\ I (i + 1)
     | inr r => Q r h'
     end) h) ->
  wp (while f body (p, count)) Q h.
Proof.
  intros H1 H2 H3. pose proof (wp_walk_gen (fun i => (padd p i, count - i)) I Q n f body h H1 H2 H3) as H.
  cbv beta in H. by rewrite !padd_0, Z.sub_0_r in H.
Qed.

Lemma wp_walk2 {R} (I : Z -> Prop) (Q : R -> mem -> Prop) n f (body : ptr * ptr -> C (ptr * ptr + R)) p q h :
  I 0 -> 0 <= n < Z.of_nat f ->
  (forall i, 0 <= i <= n -> I i -> wp (body (padd p i, padd q i)) (fun o h' =>
     match o with
     | inl x => x = (padd p (i + 1), padd q (i + 1)) /\ h' = h /\ i < n /\ I (i + 1)
     | inr r => Q r h'
     end) h) ->
  wp (while f body (p, q)) Q h.
Proof.
  intros H1 H2 H3. pose proof (wp_walk_gen (fun i => (padd p i, padd q i)) I Q n f body h H1 H2 H3) as H.
  cbv beta in H. by rewrite !padd_0 in H.
Qed.

Lemma wp_walk2_count {R} (I : Z -> Prop) (Q : R -> mem -> Prop) n f count
    (body : ptr * ptr * Z -> C (ptr * ptr * Z + R)) p q h :
  I 0 -> 0 <= n < Z.of_nat f ->
  (forall i, 0 <= i <= n -> I i -> wp (body (padd p i, padd q i, count - i)) (fun o h' =>
     match o with
     | inl x => x = (padd p (i + 1), padd q (i + 1), count - (i + 1)) /\ h' = h /\ i < n /\ I (i + 1)
     | inr r => Q r h'
     end) h) ->
  wp (while f body (p, q, count)) Q h.
Proof.
  intros H1 H2 H3. pose proof (wp_walk_gen (fun i => (padd p i, padd q i, count - i)) I Q n f body h H1 H2 H3) as H.
  cbv beta in H. by rewrite !padd_0, Z.sub_0_r in H.
Qed.

Lemma padd_1 p i : padd (padd p i) 1 = padd p (i + 1).
Proof. apply padd_padd. Qed.

(** ** Length and search *)
Lemma strlen_spec h p s : cstr h p s -> strlen p h = Some (zlen s, h).
Proof.
  intros Hc. pose proof (zlen_nonneg s). apply wp_eq. unfold strlen. wp_step.
  eapply wp_steps_str; [done|]. intros f Hf.
  apply (wp_walk (fun _ => True) _ (zlen s)); [done|lia|]. intros i Hi _. wp_step.
  eapply wp_ld_str; [done|lia|]. wp_step. pose proof (char_nul s i ltac:(apply Hc) Hi) as Hn.
  destruct (at_ s i =? 0) eqn:E; b2p; cbn [negb].
  - split; [cbn; lia|done].
  - rewrite padd_1. repeat split; lia.
Qed.

Lemma strnlen_spec h p s count :
  cstr h p s -> 0 <= count -> strnlen p count h = Some (Z.min count (zlen s), h).
Proof.
  intros Hc Hcount. pose proof (zlen_nonneg s). apply wp_eq. unfold strnlen. wp_step.
  eapply wp_steps_str; [done|]. intros f Hf.
  apply (wp_walk_count (fun i => i <= count) _ (zlen s)); [lia|lia|]. intros i Hi HI. wp_step; b2p.
  - wp_step. split; [cbn; lia|done].
  - wp_step. eapply wp_ld_str; [done|lia|]. wp_step. pose proof (char_nul s i ltac:(apply Hc) Hi) as Hn.
    destruct (at_ s i =? 0) eqn:E'; b2p; cbn [negb].
    + split; [cbn; lia|done].
    + rewrite padd_1. repeat split; try lia. f_equal. lia.
Qed.

Section Search.
Context (h : mem) (p : ptr).

Lemma strchr_spec s c :
  cstr h p s -> exists r, strchr p c h = Some (padd p <$> r, h) /\
    first_idx (fun i => at_ s i = u8 c) (zlen s + 1) r.
Proof.
  intros Hc. pose proof (zlen_nonneg s).
  enough (wp (strchr p c) (fun o h' => h' = h /\ exists r, o = padd p <$> r /\
    first_idx (fun i => at_ s i = u8 c) (zlen s + 1) r) h) as (o & h' & E & -> & r & -> & Hr) by eauto.
  unfold strchr. wp_step. eapply wp_steps_str; [done|]. intros f Hf.
  apply (wp_walk (fun i => forall j, 0 <= j < i -> at_ s j <> u8 c) _ (zlen s)); [lia|lia|].
  intros i Hi HI. wp_step. eapply wp_ld_str; [done|lia|]. wp_step.
  pose proof (char_nul s i ltac:(apply Hc) Hi) as Hn.
  destruct (at_ s i =? u8 c) eqn:E1; [|destruct (at_ s i =? 0) eqn:E2]; b2p.
  - split; [done|]. exists (Some i). split; [done|]. split; [lia|]. done.
  - split; [done|]. exists None. split; [done|]. intros j Hj.
    destruct (Z.eq_dec j i) as [->|]; [done|apply HI; lia].
  - rewrite padd_1. repeat split; try lia. intros j Hj.
    destruct (Z.eq_dec j i) as [->|]; [done|apply HI; lia].
Qed.

Lemma strnchr_spec s count c :
  cstr h p s -> 0 <= count -> exists r, strnchr p count c h = Some (padd p <$> r, h) /\
    first_idx (fun i => at_ s i = u8 c) (Z.min count (zlen s)) r.
Proof.
  intros Hc Hcount. pose proof (zlen_nonneg s).
  enough (wp (strnchr p count c) (fun o h' => h' = h /\ exists r, o = padd p <$> r /\
    first_idx (fun i => at_ s i = u8 c) (Z.min count (zlen s)) r) h) as (o & h' & E & -> & r & -> & Hr) by eauto.
  unfold strnchr. wp_step. eapply wp_steps_str; [done|]. intros f Hf.
  apply (wp_walk_count (fun i => i <= count /\ forall j, 0 <= j < i -> at_ s j <> u8 c) _ (zlen s)); [split; [lia|intros; lia]|lia|].
  intros i Hi [Hic HI]. wp_step; b2p.
  - wp_step. split; [done|]. exists None. split; [done|]. intros j Hj. apply HI. lia.
  - wp_step. eapply wp_ld_str; [done|lia|]. wp_step. pose proof (char_nul s i ltac:(apply Hc) Hi) as Hn.
    destruct (at_ s i =? 0) eqn:E1; [|destruct (at_ s i =? u8 c) eqn:E2]; b2p.
    + split; [done|]. exists None. split; [done|]. intros j Hj. apply HI. lia.
    + split; [done|]. exists (Some i). split; [done|]. split; [lia|]. done.
    + rewrite padd_1. repeat split; try lia; [f_equal; lia|]. intros j Hj.
      destruct (Z.eq_dec j i) as [->|]; [done|apply HI; lia].
Qed.

Lemma strrchr_spec s c :
  cstr h p s -> exists r, strrchr p c h = Some (padd p <$> r, h) /\
    last_idx (fun i => at_ s i = u8 c) (zlen s + 1) r.
Proof.
  intros Hc. pose proof (zlen_nonneg s).
  enough (wp (strrchr p c) (fun o h' => h' = h /\ exists r, o = padd p <$> r /\
    last_idx (fun i => at_ s i = u8 c) (zlen s + 1) r) h) as (o & h' & E & -> & r & -> & Hr) by eauto.
  unfold strrchr. wp_step. eexists _, _. split; [by apply strlen_spec|]. wp_step.
  eapply wp_steps_str; [done|]. intros f Hf.
  apply (wp_while_ix (fun m q h' => exists i, 0 <= i <= zlen s /\ m = Z.to_nat i /\ q = padd p i /\ h' = h /\
    forall j, i < j <= zlen s -> at_ s j <> u8 c) _ (Z.to_nat (zlen s))).
  - exists (zlen s). repeat split; try done; lia.
  - lia.
  - intros m q h' (i & Hi & -> & -> & -> & HI). wp_step. eapply wp_ld_str; [done|lia|]. wp_step.
    destruct (at_ s i =? u8 c) eqn:E1; b2p.
    { split; [done|]. exists (Some i). split; [done|]. split; [lia|]. split; [done|].
      intros j Hj. apply HI. lia. }
    assert (forall j, i - 1 < j <= zlen s -> at_ s j <> u8 c) as HI'.
    { intros j Hj. destruct (Z.eq_dec j i) as [->|]; [done|apply HI; lia]. }
    cbn [snd padd]. destruct (p.2 <=? p.2 + i - 1) eqn:E2; b2p.
    + exists (Z.to_nat (i - 1)). split; [lia|]. exists (i - 1). rewrite padd_padd.
      repeat split; try done; lia.
    + split; [done|]. exists None. split; [done|]. intros j Hj. apply HI'. lia.
Qed.

Lemma memchr_spec x n c :
  rd h p n = Some x -> exists r, memchr p c n h = Some (padd p <$> r, h) /\
    first_idx (fun i => at_ x i = u8 c) n r.
Proof.
  intros Hr. pose proof (rd_len _ _ _ _ Hr) as Hl. pose proof (zlen_nonneg x).
  enough (wp (memchr p c n) (fun o h' => h' = h /\ exists r, o = padd p <$> r /\
    first_idx (fun i => at_ x i = u8 c) n r) h) as (o & h' & E & -> & r & -> & Hf) by eauto.
  unfold memchr. wp_step. eapply wp_steps_of; [done|]. intros f Hf.
  apply (wp_walk_count (fun i => forall j, 0 <= j < i -> at_ x j <> u8 c) _ n); [lia|lia|].
  intros i Hi HI. wp_step; b2p.
  - wp_step. split; [done|]. exists None. split; [done|]. intros j Hj. apply HI. lia.
  - wp_step. eapply wp_ld; [done|lia|]. wp_step. destruct (u8 c =? at_ x i) eqn:E1; b2p.
    + split; [done|]. exists (Some i). split; [done|]. split; [lia|]. done.
    + rewrite padd_1. repeat split; try lia; [f_equal; lia|]. intros j Hj.
      destruct (Z.eq_dec j i) as [->|]; [congruence|apply HI; lia].
Qed.

Lemma memscan_spec x n c :
  rd h p n = Some x -> exists r, memscan p c n h = Some (padd p (default n r), h) /\
    first_idx (fun i => at_ x i = c) n r.
Proof.
  intros Hr. pose proof (rd_len _ _ _ _ Hr) as Hl. pose proof (zlen_nonneg x).
  enough (wp (memscan p c n) (fun o h' => h' = h /\ exists r, o = padd p (default n r) /\
    first_idx (fun i => at_ x i = c) n r) h) as (o & h' & E & -> & r & -> & Hf) by eauto.
  unfold memscan. wp_step. eapply wp_steps_of; [done|]. intros f Hf.
  apply (wp_walk_count (fun i => forall j, 0 <= j < i -> at_ x j <> c) _ n); [lia|lia|].
  intros i Hi HI. wp_step; b2p.
  - wp_step. split; [done|]. exists None. split; [cbn; f_equal; lia|]. intros j Hj. apply HI. lia.
  - wp_step. eapply wp_ld; [done|lia|]. wp_step. destruct (at_ x i =? c) eqn:E1; b2p.
    + split; [done|]. exists (Some i). split; [done|]. split; [lia|]. done.
    + rewrite padd_1. repeat split; try lia; [f_equal; lia|]. intros j Hj.
      destruct (Z.eq_dec j i) as [->|]; [done|apply HI; lia].
Qed.
End Search.

(** On a NUL-terminated string, [strlen] is its length, [strnlen] the length
    bounded by [count], [strchr] and [strrchr] return the first and the last
    position of the character, the terminator included, [strnchr] the first one
    among the first [count] characters; [memchr] and [memscan] return the first
    position of the byte in the area, and [NULL] and the end of the area when
    there is none.  Nothing is written and nothing outside is read. *)
Theorem string_search_correct (h : mem) p s count c q x n :
  cstr h p s -> 0 <= count -> rd h q n = Some x ->
  strlen p h = Some (zlen s, h) /\
  strnlen p count h = Some (Z.min count (zlen s), h) /\
  (exists r, strchr p c h = Some (padd p <$> r, h) /\
     first_idx (fun i => at_ s i = u8 c) (zlen s + 1) r) /\
  (exists r, strrchr p c h = Some (padd p <$> r, h) /\
     last_idx (fun i => at_ s i = u8 c) (zlen s + 1) r) /\
  (exists r, strnchr p count c h = Some (padd p <$> r, h) /\
     first_idx (fun i => at_ s i = u8 c) (Z.min count (zlen s)) r) /\
  (exists r, memchr q c n h = Some (padd q <$> r, h) /\ first_idx (fun i => at_ x i = u8 c) n r) /\
  (exists r, memscan q c n h = Some (padd q (default n r), h) /\ first_idx (fun i => at_ x i = c) n r).
Proof.
  intros Hc Hcount Hr. split; [by apply strlen_spec|]. split; [by apply strnlen_spec|].
  split; [by apply strchr_spec|]. split; [by apply strrchr_spec|].
  split; [by apply strnchr_spec|]. split; [by apply memchr_spec|by apply memscan_spec].
Qed.

Definition str_demo : mem := {[1%positive := [97; 98; 97; 99; 0; 7]; 2%positive := [98; 97; 0]]}.

Lemma cstr_intro (h : mem) p s :
  forallb (fun c => (0 <? c) && (c <? 256)) s = true -> rd h p (zlen s + 1) = Some (s ++ [0]) -> cstr h p s.
Proof.
  intros Hs Hr. split; [|done]. rewrite forallb_forall in Hs. apply Forall_forall. intros x Hx.
  apply Hs in Hx. b2p. lia.
Qed.

Lemma string_search_correct_witness :
  strlen (1%positive, 0) str_demo = Some (4, str_demo) /\
  exists r, strchr (1%positive, 0) 99 str_demo = Some (padd (1%positive, 0) <$> r, str_demo) /\
    first_idx (fun i => at_ [97; 98; 97; 99] i = 99) 5 r.
Proof.
  destruct (string_search_correct str_demo (1%positive, 0) [97; 98; 97; 99] 3 99 (1%positive, 1) [98; 97] 2)
    as (H1 & _ & H2 & _); [by apply cstr_intro|lia|reflexivity|].
  split; [exact H1|exact H2].
Defined.

(** ** Comparison *)
(** The first [n] positions agree; [i] is the first position where they differ. *)
Definition agree (s t : list Z) (n : Z) : Prop := forall j, 0 <= j < n -> at_ s j = at_ t j.
Definition differ_at (s t : list Z) (i : Z) : Prop := 0 <= i /\ agree s t i /\ at_ s i <> at_ t i.

(** What a comparison over at most [n] positions returns: [0] when all agree, and
    [f a b] for the characters [a] and [b] at the first difference. *)
Definition compares (f : Z -> Z -> Z) (s t : list Z) (n r : Z) : Prop :=
  (agree s t n /\ r = 0) \/ (exists i, i < n /\ differ_at s t i /\ r = f (at_ s i) (at_ t i)).

Lemma agree_eq s t n : zlen s <= n -> zlen t <= n -> chars s -> chars t -> agree s t n <-> s = t.
Proof.
  intros Hn Hm Hs Ht. split; [|by intros -> ? ?]. intros H. pose proof (zlen_nonneg s). pose proof (zlen_nonneg t).
  assert (zlen s = zlen t) as Hl.
  { destruct (Z.lt_total (zlen s) (zlen t)) as [Hlt|[|Hlt]]; [|done|].
    - pose proof (chars_at t (zlen s) Ht). specialize (H (zlen s)). rewrite at_end in H. lia.
    - pose proof (chars_at s (zlen t) Hs). specialize (H (zlen t)). rewrite at_end in H. lia. }
  apply at_ext; [done|]. intros i Hi. apply H. lia.
Qed.

Lemma char_range s i : chars s -> 0 <= at_ s i < 256.
Proof.
  intros Hs. destruct (decide (0 <= i < zlen s)); [pose proof (chars_at s i Hs); lia|].
  rewrite at_out by done. lia.
Qed.
Lemma sgn8_zero a b : 0 <= a < 256 -> 0 <= b < 256 -> (sgn 8 (a - b) =? 0) = (a =? b).
Proof.
  intros. apply eq_true_iff_eq. rewrite !Z.eqb_eq. unfold sgn. pow2. split; [|intros ->; rewrite Z.sub_diag; done].
  dlia.
Qed.

Section Compare.
Context (h : mem) (p q : ptr) (s t : list Z) (Hp : cstr h p s) (Hq : cstr h q t).

Local Lemma agree_next i : agree s t i -> at_ s i = at_ t i -> agree s t (i + 1).
Proof. intros H E j Hj. destruct (Z.eq_dec j i) as [->|]; [done|apply H; lia]. Qed.

(** As long as the strings agree, neither has ended before the other. *)
Local Lemma agree_in_range i : 0 <= i <= zlen s -> agree s t i -> i <= zlen t.
Proof using Hp Hq.
  intros Hi H. destruct (Z.le_gt_cases i (zlen t)) as [|Hlt]; [done|]. pose proof (zlen_nonneg t).
  specialize (H (zlen t) ltac:(lia)). rewrite at_end in H. apply char_nul in H; [lia|apply Hp|lia].
Qed.

Lemma strcmp_spec : exists r, strcmp p q h = Some (r, h) /\
  compares (fun a b => sgn 8 (a - b)) s t (zlen s + 1) r.
Proof using Hp Hq.
  pose proof (zlen_nonneg s). pose proof (proj1 Hp) as Hs. pose proof (proj1 Hq) as Ht.
  enough (wp (strcmp p q) (fun r h' => h' = h /\ compares (fun a b => sgn 8 (a - b)) s t (zlen s + 1) r) h)
    as (r & h' & E & -> & Hr) by eauto.
  unfold strcmp. wp_step. eapply wp_steps_str; [done|]. intros f Hf.
  apply (wp_walk2 (agree s t) _ (zlen s)); [intros ?; lia|lia|]. intros i Hi HI.
  pose proof (agree_in_range i Hi HI). wp_step. eapply wp_ld_str; [done|lia|].
  wp_step. eapply wp_ld_str; [done|lia|]. wp_step. cbv zeta.
  rewrite sgn8_zero by (by apply char_range).
  pose proof (char_nul s i Hs Hi) as Hn.
  destruct (at_ s i =? at_ t i) eqn:E3; b2p; cbn [negb orb].
  - destruct (at_ s i =? 0) eqn:E4; b2p.
    + split; [done|]. left. assert (i = zlen s) as -> by tauto. split; [by apply agree_next|].
      rewrite E3, Z.sub_diag. done.
    + rewrite !padd_1. repeat split; try done; [|by apply agree_next].
      destruct (Z.eq_dec i (zlen s)); [tauto|lia].
  - split; [done|]. right. exists i. split; [lia|]. split; [|done]. split; [lia|done].
Qed.

Lemma strncmp_spec count : 0 <= count -> exists r, strncmp p q count h = Some (r, h) /\
  compares (fun a b => sgn 8 (a - b)) s t (Z.min count (zlen s + 1)) r.
Proof using Hp Hq.
  intros Hcount. pose proof (zlen_nonneg s). pose proof (proj1 Hp) as Hs. pose proof (proj1 Hq) as Ht.
  enough (wp (strncmp p q count) (fun r h' => h' = h /\
    compares (fun a b => sgn 8 (a - b)) s t (Z.min count (zlen s + 1)) r) h)
    as (r & h' & E & -> & Hr) by eauto.
  unfold strncmp. wp_step. eapply wp_steps_str; [done|]. intros f Hf.
  apply (wp_walk2_count (fun i => i <= count /\ agree s t i) _ (zlen s)); [split; [lia|intros ?; lia]|lia|].
  intros i Hi [Hic HI]. pose proof (agree_in_range i Hi HI). wp_step; b2p.
  { wp_step. split; [done|]. left. split; [|done]. intros j Hj. apply HI. lia. }
  wp_step. eapply wp_ld_str; [done|lia|].
  wp_step. eapply wp_ld_str; [done|lia|]. wp_step. cbv zeta.
  rewrite sgn8_zero by (by apply char_range).
  pose proof (char_nul s i Hs Hi) as Hn.
  destruct (at_ s i =? at_ t i) eqn:E3; b2p; cbn [negb orb].
  - destruct (at_ s i =? 0) eqn:E4; b2p.
    + split; [done|]. left. assert (i = zlen s) as -> by tauto. rewrite E3, Z.sub_diag. split; [|done].
      intros j Hj. exact (agree_next _ HI E3 j ltac:(lia)).
    + rewrite !padd_1. repeat split; try done; [f_equal; lia| |lia|by apply agree_next].
      destruct (Z.eq_dec i (zlen s)); [tauto|lia].
  - split; [done|]. right. exists i. split; [lia|]. split; [|done]. split; [lia|done].
Qed.
End Compare.

Lemma memcmp_spec (h : mem) p q x y n :
  rd h p n = Some x -> rd h q n = Some y ->
  exists r, memcmp p q n h = Some (r, h) /\ compares (fun a b => a - b) x y n r.
Proof.
  intros Hp Hq. pose proof (rd_len _ _ _ _ Hp) as Hl. pose proof (zlen_nonneg x).
  enough (wp (memcmp p q n) (fun r h' => h' = h /\ compares (fun a b => a - b) x y n r) h)
    as (r & h' & E & -> & Hr) by eauto.
  unfold memcmp. wp_step. eapply wp_steps_of; [exact Hp|]. intros f Hf.
  apply (wp_walk2_count (agree x y) _ n); [intros ?; lia|lia|].
  intros i Hi HI. wp_step; b2p.
  - wp_step. eapply wp_ld; [exact Hp|lia|]. wp_step. eapply wp_ld; [exact Hq|lia|]. wp_step.
    destruct (at_ x i - at_ y i =? 0) eqn:E3; b2p; cbn [negb].
    + rewrite !padd_1. repeat split; try lia; [f_equal; lia|]. apply agree_next; [done|lia].
    + split; [done|]. right. exists i. split; [lia|]. split; [|done]. split; [lia|]. split; [done|lia].
  - wp_step. split; [done|]. left. split; [|done]. intros j Hj. apply HI. lia.
Qed.

(** [strcmp], [strncmp] and [memcmp] return zero exactly when the strings,
    their first [count] characters or the areas are equal.  When they are not,
    the result of [memcmp] is the difference of the first two bytes that differ,
    so its sign orders the areas as unsigned bytes; [strcmp] and [strncmp] return
    that difference cut to a [signed char], so their sign orders strings of
    characters below 128. *)
Theorem string_compare_correct (h : mem) p q s t count u v x y n :
  cstr h p s -> cstr h q t -> 0 <= count -> rd h u n = Some x -> rd h v n = Some y ->
  (exists r, strcmp p q h = Some (r, h) /\ (r = 0 <-> s = t) /\
     forall i, differ_at s t i -> at_ s i < 128 -> at_ t i < 128 -> r = at_ s i - at_ t i) /\
  (exists r, strncmp p q count h = Some (r, h) /\ (r = 0 <-> agree s t count) /\
     forall i, differ_at s t i -> i < count -> at_ s i < 128 -> at_ t i < 128 -> r = at_ s i - at_ t i) /\
  (exists r, memcmp u v n h = Some (r, h) /\ (r = 0 <-> x = y) /\
     forall i, differ_at x y i -> i < n -> r = at_ x i - at_ y i).
Proof.
  intros Hp Hq Hcount Hu Hv.
  assert (forall a b i j, differ_at a b i -> differ_at a b j -> i = j) as Huniq.
  { intros a b i j (? & Hi & Hi') (? & Hj & Hj'). destruct (Z.lt_total i j) as [|[|]]; [|done|].
    - by destruct Hi'; apply Hj.
    - by destruct Hj'; apply Hi. }
  assert (forall i, differ_at s t i -> at_ s i < 128 -> at_ t i < 128 ->
    sgn 8 (at_ s i - at_ t i) = at_ s i - at_ t i) as Hsgn.
  { intros i _ Ha Hb. pose proof (char_range s i ltac:(apply Hp)). pose proof (char_range t i ltac:(apply Hq)).
    apply sgn_id; pow2; lia. }
  assert (forall i, differ_at s t i -> sgn 8 (at_ s i - at_ t i) <> 0) as Hnz.
  { intros i (_ & _ & Hd) E. apply Z.eqb_eq in E.
    rewrite sgn8_zero in E by (apply char_range; apply Hp || apply Hq). b2p. done. }
  pose proof (zlen_nonneg s). pose proof (zlen_nonneg t).
  split; [|split].
  - destruct (strcmp_spec h p q s t Hp Hq) as (r & E & [[Ha ->]|(i & Hi & Hd & ->)]); eexists; (split; [exact E|]).
    + assert (s = t) as <-.
      { apply (agree_eq s t (zlen s + 1)); [lia| |apply Hp|apply Hq|done].
        destruct (Z.le_gt_cases (zlen t) (zlen s + 1)); [done|].
        pose proof (chars_at t (zlen s) ltac:(apply Hq)). specialize (Ha (zlen s)). rewrite at_end in Ha. lia. }
      split; [done|]. by intros i (_ & _ & ?).
    + split; [|intros j Hj ? ?; rewrite (Huniq s t j i) in * by done; by apply Hsgn].
      split; [intros E'; by apply Hnz in Hd|intros ->]. by destruct Hd as (_ & _ & ?).
  - destruct (strncmp_spec h p q s t Hp Hq count Hcount) as (r & E & [[Ha ->]|(i & Hi & Hd & ->)]); eexists; (split; [exact E|]).
    + assert (agree s t count) as Hall.
      { intros j Hj. destruct (Z.lt_ge_cases j (zlen s + 1)); [apply Ha; lia|].
        rewrite (at_out s) by lia. destruct (decide (0 <= j < zlen t)); [|by rewrite at_out].
        pose proof (chars_at t (zlen s) ltac:(apply Hq)). specialize (Ha (zlen s)). rewrite at_end in Ha. lia. }
      split; [done|]. intros i (? & _ & Hd) Hi. by destruct Hd; apply Hall.
    + split; [|intros j Hj ? ? ?; rewrite (Huniq s t j i) in * by done; by apply Hsgn].
      split; [intros E'; by apply Hnz in Hd|]. intros Hall. destruct Hd as (? & _ & Hd). destruct Hd. apply Hall. lia.
  - pose proof (rd_len _ _ _ _ Hu). pose proof (rd_len _ _ _ _ Hv).
    destruct (memcmp_spec h u v x y n Hu Hv) as (r & E & [[Ha ->]|(i & Hi & Hd & ->)]); eexists; (split; [exact E|]).
    + split; [split; [intros _; apply at_ext; [lia|intros; apply Ha; lia]|done]|].
      intros i (? & _ & Hd) Hi. by destruct Hd; apply Ha.
    + split; [|intros j Hj ?; by rewrite (Huniq x y j i)].
      destruct Hd as (? & _ & Hd). split; [lia|intros ->; lia].
Qed.

Lemma string_compare_correct_witness :
  exists r, strcmp (1%positive, 0) (2%positive, 0) str_demo = Some (r, str_demo) /\ r <> 0.
Proof.
  destruct (string_compare_correct str_demo (1%positive, 0) (2%positive, 0) [97; 98; 97; 99] [98; 97] 2
    (1%positive, 1) (2%positive, 0) [98; 97] [98; 97] 2) as ((r & H1 & H2 & _) & _);
    [by apply cstr_intro|by apply cstr_intro|lia|reflexivity|reflexivity|].
  exists r. split; [exact H1|]. intros E. apply H2 in E. discriminate.
Defined.

(** The cut to [signed char] reverses the order of strings whose first
    difference is 128 or more. *)
Lemma strcmp_8bit_order :
  strcmp (1%positive, 0) (2%positive, 0) {[1%positive := [200; 0]; 2%positive := [72; 0]]} =
  Some (-128, {[1%positive := [200; 0]; 2%positive := [72; 0]]}).
Proof. reflexivity. Qed.

(** ** Copying *)
Lemma slice_snoc s i : 0 <= i < zlen s -> slice s 0 (i + 1) = slice s 0 i ++ [at_ s i].
Proof.
  intros Hi. apply at_ext.
  - rewrite zlen_app, !zlen_slice by lia. done.
  - intros k Hk. rewrite zlen_slice in Hk by lia. rewrite at_slice by lia.
    destruct (Z.eq_dec k i) as [->|].
    + rewrite at_app_r, zlen_slice, Z.sub_diag by (rewrite ?zlen_slice; lia). done.
    + rewrite at_app_l, at_slice by (rewrite ?zlen_slice; lia). done.
Qed.
Lemma wr_nil h p x : rd h p 0 = Some x -> wr h p [] = h.
Proof.
  rewrite rd_Some. intros (l & Hb & Ho & _ & Hl & _). unfold wr. rewrite Hb. apply insert_id. rewrite Hb. f_equal.
  unfold splice. change (zlen []) with 0. rewrite Z.add_0_r. cbn [app]. symmetry. apply take_drop.
Qed.

(** A store inside an area. *)
Lemma st_wr h p n x i v :
  rd h p n = Some x -> 0 <= i < n -> st (padd p i) v h = Some (tt, wr h (padd p i) [v]).
Proof.
  rewrite rd_Some. intros (l & Hb & Ho & Hn & Hl & ->) Hi. apply wp_eq. unfold st, padd, wr. cbn [fst snd].
  rewrite Hb. wp_step. split; [done|]. f_equal. apply at_ext.
  - rewrite zlen_upd, zlen_splice by (change (zlen [v]) with 1; lia). done.
  - intros k Hk. rewrite at_splice by (change (zlen [v]) with 1; lia). change (zlen [v]) with 1. case_decide.
    + replace k with (p.2 + i) by lia. rewrite at_upd_eq, Z.sub_diag by lia. done.
    + by rewrite at_upd_ne by lia.
Qed.

(** Extending what has been written by one byte. *)
Lemma wr_snoc h p n x bs v :
  rd h p n = Some x -> zlen bs < n -> wr (wr h p bs) (padd p (zlen bs)) [v] = wr h p (bs ++ [v]).
Proof.
  intros Hr Hl. pose proof (zlen_nonneg bs). eapply wr_app.
  apply (rd_prefix _ _ _ _ (zlen bs + zlen [v]) Hr). change (zlen [v]) with 1. lia.
Qed.

Lemma rd_wr_valid h p n x q m y bs :
  rd h p n = Some x -> zlen bs <= n -> rd h q m = Some y -> exists y', rd (wr h p bs) q m = Some y'.
Proof.
  rewrite !rd_Some. intros (l & Hb & Ho & Hn & Hl & ->) Hbs (l' & Hb' & Ho' & Hm & Hl' & ->).
  destruct (decide (p.1 = q.1)) as [E|E].
  - eexists. rewrite rd_Some. exists (splice l p.2 bs). rewrite <- E at 1. rewrite (wr_lookup _ _ _ l) by done.
    rewrite <- E, Hb in Hb'. simplify_eq. rewrite zlen_splice by lia. repeat split; done.
  - eexists. rewrite rd_Some. exists l'. rewrite wr_other by done. repeat split; done.
Qed.

Lemma st_snoc h p n x bs i v :
  rd h p n = Some x -> zlen bs = i -> i < n ->
  st (padd p i) v (wr h p bs) = Some (tt, wr h p (bs ++ [v])).
Proof.
  intros Hr <- Hl. pose proof (zlen_nonneg bs).
  destruct (rd_wr_valid h p n x p n x bs Hr ltac:(lia) Hr) as [x' Hr'].
  rewrite (st_wr _ _ _ _ _ _ Hr') by lia. by erewrite wr_snoc.
Qed.

Definition apart (p : ptr) (n : Z) (q : ptr) (m : Z) : Prop := disjoint_ptr p n q m.

(** A byte of the source that has not been overwritten. *)
Lemma wp_ld_apart h p n x bs q m y i (Q : Z -> mem -> Prop) :
  rd h p n = Some x -> zlen bs <= n -> rd h q m = Some y -> 0 <= i < m ->
  disjoint_ptr p (zlen bs) (padd q i) 1 ->
  Q (at_ y i) (wr h p bs) -> wp (ld (padd q i)) Q (wr h p bs).
Proof.
  intros Hp Hl Hq Hi Hd HQ. pose proof (zlen_nonneg bs).
  assert (rd (wr h p bs) (padd q i) 1 = Some (slice y i 1)) as Hr.
  { erewrite rd_wr_ne; [|apply (rd_prefix _ _ _ _ (zlen bs) Hp); lia|done].
    apply (rd_sub _ _ _ _ i 1 Hq); lia. }
  rewrite <- (padd_0 (padd q i)). eapply wp_ld; [done|lia|]. rewrite at_slice, Z.add_0_r by lia. done.
Qed.

Lemma disjoint_sub p n q m n' i m' :
  disjoint_ptr p n q m -> n' <= n -> 0 <= i -> i + m' <= m -> disjoint_ptr p n' (padd q i) m'.
Proof. unfold disjoint_ptr, padd. cbn [fst snd]. intros [|[|]]; [auto|right; left; lia|right; right; lia]. Qed.

(** ** Copying a string with its terminator *)
Lemma copy_string_spec h dest src s y :
  cstr h src s -> rd h dest (zlen s + 1) = Some y -> disjoint_ptr dest (zlen s + 1) src (zlen s + 1) ->
  copy_string dest src h = Some (tt, wr h dest (s ++ [0])).
Proof.
  intros [Hs Hr] Hd Hdis. pose proof (zlen_nonneg s). apply wp_eq. unfold copy_string. wp_step.
  eapply wp_steps_of; [exact Hr|]. intros f Hf.
  apply (wp_while_ix (fun m '(d, q) h' => exists i, 0 <= i <= zlen s /\ m = Z.to_nat (zlen s - i) /\
    d = padd dest i /\ q = padd src i /\ h' = wr h dest (slice s 0 i)) _ (Z.to_nat (zlen s))).
  - exists 0. rewrite !padd_0. repeat split; try lia. rewrite slice_0. symmetry.
    apply (wr_nil _ _ (slice y 0 0)), (rd_prefix _ _ _ _ 0 Hd). lia.
  - lia.
  - intros m [d q] h' (i & Hi & -> & -> & -> & ->). wp_step.
    assert (zlen (slice s 0 i) = i) as Hz by (apply zlen_slice; lia).
    eapply wp_ld_apart; [exact Hd|lia|exact Hr|lia|eapply disjoint_sub; [exact Hdis|lia..]|].
    rewrite at_app_nul by lia. wp_step.
    eexists _, _. split; [eapply st_snoc; [exact Hd|exact Hz|lia]|]. wp_step. pose proof (char_nul s i Hs Hi) as Hn.
    destruct (at_ s i =? 0) eqn:E; b2p; cbn [negb].
    + split; [done|]. assert (i = zlen s) as -> by tauto. by rewrite slice_all, at_end.
    + exists (Z.to_nat (zlen s - (i + 1))). split; [lia|]. exists (i + 1). rewrite !padd_1.
      repeat split; try lia. by rewrite slice_snoc by lia.
Qed.

Lemma cstr_written h p s y : chars s -> rd h p (zlen s + 1) = Some y -> cstr (wr h p (s ++ [0])) p s.
Proof.
  intros Hs Hr. split; [done|]. replace (zlen s + 1) with (zlen (s ++ [0])) in * by (by rewrite zlen_app).
  by eapply rd_wr_eq.
Qed.

(** The bytes [strncpy] writes: the string, padded or cut to [count]. *)
Definition padded (s : list Z) (count : Z) : list Z := at_ s <$> seqZ 0 count.
Lemma zlen_padded s count : 0 <= count -> zlen (padded s count) = count.
Proof. intros. unfold padded, zlen. rewrite length_fmap, length_seqZ. lia. Qed.
Lemma at_padded s count i : 0 <= i < count -> at_ (padded s count) i = at_ s i.
Proof.
  intros Hi. unfold padded, at_ at 1, zget. rewrite decide_True by lia.
  rewrite list_lookup_fmap, (lookup_seqZ_lt 0 count) by lia. cbn. f_equal. lia.
Qed.

Lemma strncpy_spec h dest src s y count :
  cstr h src s -> 0 <= count -> rd h dest count = Some y -> disjoint_ptr dest count src (zlen s + 1) ->
  strncpy dest src count h = Some (dest, wr h dest (padded s count)).
Proof.
  intros [Hs Hr] Hcount Hd Hdis. pose proof (zlen_nonneg s). apply wp_eq. unfold strncpy. wp_step.
  eapply wp_steps_of; [exact Hd|]. intros f Hf. wp_step.
  eapply wp_mono with (P := fun _ h' => h' = wr h dest (padded s count)); [|intros _ ? ->; by wp_step].
  apply (wp_while_ix (fun m '(d, q, n) h' => exists i, 0 <= i <= count /\ m = Z.to_nat (count - i) /\
    d = padd dest i /\ q = padd src (Z.min i (zlen s)) /\ n = count - i /\
    h' = wr h dest (slice (padded s count) 0 i)) _ (Z.to_nat count)).
  - exists 0. rewrite Z.min_l, !padd_0 by lia. repeat split; try lia. rewrite slice_0. symmetry.
    apply (wr_nil _ _ (slice y 0 0)), (rd_prefix _ _ _ _ 0 Hd). lia.
  - lia.
  - intros m [[d q] n] h' (i & Hi & -> & -> & -> & -> & ->). pose proof (zlen_padded s count Hcount) as Hpl. wp_step; b2p.
    + wp_step. by rewrite slice_all by lia.
    + wp_step. assert (zlen (slice (padded s count) 0 i) = i) as Hz by (apply zlen_slice; lia).
      eapply wp_ld_apart; [exact Hd|lia|exact Hr|lia|eapply disjoint_sub; [exact Hdis|lia..]|].
      rewrite at_app_nul by lia.
      assert (at_ s (Z.min i (zlen s)) = at_ s i) as ->.
      { destruct (Z.lt_ge_cases i (zlen s)); [f_equal; lia|]. rewrite Z.min_r, at_end, at_out by lia. done. }
      wp_step. eexists _, _. split; [eapply st_snoc; [exact Hd|exact Hz|lia]|]. wp_step. exists (Z.to_nat (count - (i + 1))). split; [lia|].
      exists (i + 1). rewrite padd_1.
      split; [lia|]. split; [done|]. split; [done|]. split; [|split; [lia|]].
      * destruct (Z.lt_ge_cases i (zlen s)).
        -- pose proof (chars_at s i Hs). destruct (at_ s i =? 0) eqn:E'; b2p; [lia|]. cbn [negb].
           rewrite !Z.min_l, padd_1 by lia. done.
        -- rewrite at_out, !Z.min_r by lia. done.
      * by rewrite slice_snoc, at_padded by lia.
Qed.

(** ** Blocks of memory *)
(** Copying upwards is right unless the destination starts inside the source. *)
Lemma copy_up_spec h dest src n x y :
  rd h src n = Some x -> rd h dest n = Some y ->
  (forall k, 0 <= k < n -> disjoint_ptr dest k (padd src k) 1) ->
  for_ (Z.to_nat n) 0 (fun k => let* c := ld (padd src k) in st (padd dest k) c) h = Some (tt, wr h dest x).
Proof.
  intros Hs Hd Hdis. pose proof (rd_len _ _ _ _ Hs) as Hl. pose proof (zlen_nonneg x). apply wp_eq.
  eapply wp_mono.
  - apply (wp_for (fun k h' => h' = wr h dest (slice x 0 k))).
    + rewrite slice_0. symmetry. apply (wr_nil _ _ (slice y 0 0)), (rd_prefix _ _ _ _ 0 Hd). lia.
    + intros k h' Hk ->. assert (zlen (slice x 0 k) = k) as Hz by (apply zlen_slice; lia). wp_step.
      eapply wp_ld_apart; [exact Hd|lia|exact Hs|lia|rewrite Hz; apply Hdis; lia|].
      eexists _, _. split; [eapply st_snoc; [exact Hd|exact Hz|lia]|]. by rewrite slice_snoc by lia.
  - intros [] h' ->. split; [done|]. by rewrite slice_all by lia.
Qed.

Lemma wr_cons h p n x i bs v :
  rd h p n = Some x -> 0 <= i -> i + 1 + zlen bs <= n ->
  wr (wr h (padd p (i + 1)) bs) (padd p i) [v] = wr h (padd p i) (v :: bs).
Proof.
  rewrite rd_Some. intros (l & Hb & Ho & Hn & Hl & ->) Hi Hbs. pose proof (zlen_nonneg bs).
  unfold wr at 1. cbn [padd fst]. rewrite (wr_lookup _ (padd p (i + 1)) _ l) by done.
  unfold wr. cbn [padd fst snd]. rewrite Hb, insert_insert_eq. f_equal.
  assert (zlen (v :: bs) = zlen bs + 1) as Hc by (unfold zlen; cbn [length]; lia). apply at_ext.
  - rewrite !zlen_splice; rewrite ?zlen_splice, ?Hc; change (zlen [v]) with 1; lia.
  - intros k Hk. rewrite !at_splice; rewrite ?zlen_splice, ?Hc; change (zlen [v]) with 1; try lia.
    repeat case_decide; try lia; try done.
    + by replace (k - (p.2 + i)) with 0 by lia.
    + change (v :: bs) with ([v] ++ bs). rewrite at_app_r by (change (zlen [v]) with 1; lia).
      f_equal. change (zlen [v]) with 1. lia.
Qed.

Lemma copy_down_spec h dest src n x y :
  rd h src n = Some x -> rd h dest n = Some y ->
  (forall k, 0 <= k < n -> disjoint_ptr (padd dest (k + 1)) (n - (k + 1)) (padd src k) 1) ->
  for_ (Z.to_nat n) 0 (fun k =>
    let* c := ld (padd src (n - 1 - k)) in st (padd dest (n - 1 - k)) c) h = Some (tt, wr h dest x).
Proof.
  intros Hs Hd Hdis. pose proof (rd_len _ _ _ _ Hs) as Hl. pose proof (zlen_nonneg x). apply wp_eq.
  eapply wp_mono.
  - apply (wp_for (fun k h' => h' = wr h (padd dest (n - k)) (slice x (n - k) k))).
    + rewrite Z.sub_0_r, slice_0. symmetry. apply (wr_nil _ _ (slice y n 0)), (rd_sub _ _ _ _ n 0 Hd); lia.
    + intros k h' Hk ->. assert (zlen (slice x (n - k) k) = k) as Hz by (apply zlen_slice; lia).
      pose proof (rd_sub _ _ _ _ (n - k) k Hd ltac:(lia) ltac:(lia) ltac:(lia)) as Hd'. wp_step.
      eapply wp_ld_apart; [exact Hd'|lia|exact Hs|lia| |].
      { rewrite Hz. specialize (Hdis (n - 1 - k) ltac:(lia)).
        replace (n - 1 - k + 1) with (n - k) in Hdis by lia. by replace (n - (n - k)) with k in Hdis by lia. }
      destruct (rd_wr_valid h (padd dest (n - k)) k _ dest n y (slice x (n - k) k) Hd' ltac:(lia) Hd) as [y' Hr].
      eexists _, _. split; [eapply st_wr; [exact Hr|lia]|].
      replace (n - k) with (n - 1 - k + 1) by lia. rewrite (wr_cons _ _ n y); [|done|lia|rewrite zlen_slice by lia; lia].
      replace (n - (k + 1)) with (n - 1 - k) by lia. by rewrite slice_cons by lia.
  - intros [] h' ->. split; [done|]. replace (0 + Z.of_nat (Z.to_nat n)) with n by lia.
    by rewrite Z.sub_diag, padd_0, slice_all by lia.
Qed.

(** C35. [memmove] leaves in the destination what the source held, however the two
    areas of an object overlap or whether they are areas of different objects,
    and changes nothing else; [memcpy] does so when the destination does not
    start inside the source. *)
Theorem memmove_correct (h : mem) before dest src n x y :
  rd h src n = Some x -> rd h dest n = Some y ->
  memmove before dest src n h = Some (dest, wr h dest x) /\
  (disjoint_ptr dest n src n \/ dest.2 <= src.2 -> memcpy_p dest src n h = Some (tt, wr h dest x)).
Proof.
  intros Hs Hd. split.
  - assert ((if if decide (dest.1 = src.1) then dest.2 <=? src.2 else before
      then for_ (Z.to_nat n) 0 (fun k => let* c := ld (padd src k) in st (padd dest k) c)
      else for_ (Z.to_nat n) 0 (fun k =>
        let* c := ld (padd src (n - 1 - k)) in st (padd dest (n - 1 - k)) c)) h = Some (tt, wr h dest x)) as E.
    { case_if E.
      - apply (copy_up_spec _ _ _ _ _ y); [done|done|]. intros k Hk. unfold disjoint_ptr, padd. cbn [fst snd].
        case_decide; [b2p; right; left; lia|by left].
      - apply (copy_down_spec _ _ _ _ _ y); [done|done|]. intros k Hk. unfold disjoint_ptr, padd. cbn [fst snd].
        case_decide; [b2p; right; right; lia|by left]. }
    unfold memmove, bind at 1. by rewrite E.
  - intros Hov. unfold memcpy_p, memcpy. apply (copy_up_spec h dest src n x y Hs Hd).
    intros k Hk. destruct Hov as [Hov|Hov]; [eapply disjoint_sub; [done|lia..]|].
    unfold disjoint_ptr, padd. cbn [fst snd]. right. left. lia.
Qed.

Lemma memmove_correct_witness :
  memmove false (1%positive, 1) (1%positive, 0) 4 str_demo =
    Some ((1%positive, 1), wr str_demo (1%positive, 1) [97; 98; 97; 99]) /\
  memcpy_p (1%positive, 0) (1%positive, 1) 4 str_demo =
    Some (tt, wr str_demo (1%positive, 0) [98; 97; 99; 0]).
Proof.
  destruct (memmove_correct str_demo false (1%positive, 1) (1%positive, 0) 4 [97; 98; 97; 99] [98; 97; 99; 0])
    as [H1 _]; [reflexivity|reflexivity|].
  destruct (memmove_correct str_demo false (1%positive, 0) (1%positive, 1) 4 [98; 97; 99; 0] [97; 98; 97; 99])
    as [_ H2]; [reflexivity|reflexivity|].
  split; [exact H1|]. apply H2. right. cbn. lia.
Defined.

(** ** Bounded copies and concatenation *)
Lemma copy_nul_spec h dest src s n y len :
  cstr h src s -> 0 <= len <= zlen s -> rd h dest n = Some y -> len < n ->
  disjoint_ptr dest n src (zlen s + 1) ->
  (memcpy_p dest src len ;; st (padd dest len) 0) h = Some (tt, wr h dest (slice s 0 len ++ [0])).
Proof.
  intros [Hs Hr] Hlen Hd Hn Hdis.
  assert (rd h src len = Some (slice s 0 len)) as Hsrc.
  { rewrite (rd_prefix _ _ _ _ len Hr) by lia. f_equal. apply at_ext.
    - rewrite !zlen_slice by (rewrite ?zlen_app; pose proof (zlen_nonneg [0]); lia). done.
    - intros k Hk. rewrite zlen_slice in Hk by (rewrite ?zlen_app; pose proof (zlen_nonneg [0]); lia).
      rewrite !at_slice, at_app_l by lia. done. }
  unfold bind. unfold memcpy_p, memcpy.
  pose proof (copy_up_spec h dest src len _ _ Hsrc (rd_prefix _ _ _ _ len Hd ltac:(lia))) as E.
  unfold ld, st, padd in E. cbn [fst snd] in E. rewrite E.
  - eapply st_snoc; [exact Hd|apply zlen_slice; lia|lia].
  - intros k Hk. eapply (disjoint_sub _ _ _ _ k k 1 Hdis); lia.
Qed.

Lemma find_end_spec h p s : cstr h p s -> find_end p h = Some (padd p (zlen s), h).
Proof.
  intros Hc. pose proof (zlen_nonneg s). apply wp_eq. unfold find_end. wp_step.
  eapply wp_steps_str; [done|]. intros f Hf.
  apply (wp_walk (fun _ => True) _ (zlen s)); [done|lia|]. intros i Hi _. wp_step.
  eapply wp_ld_str; [done|lia|]. wp_step. pose proof (char_nul s i ltac:(apply Hc) Hi) as Hn.
  destruct (at_ s i =? 0) eqn:E; b2p; cbn [negb].
  - split; [|done]. f_equal. tauto.
  - rewrite padd_1. repeat split. destruct (Z.eq_dec i (zlen s)); [tauto|lia].
Qed.

Lemma chars_slice s o n : chars s -> chars (slice s o n).
Proof. intros H. by apply Forall_take, Forall_drop. Qed.

(** A string extended in place. *)
Lemma cstr_extend h p d t n y :
  cstr h p d -> chars t -> rd h p n = Some y -> zlen d + zlen t < n ->
  cstr (wr h (padd p (zlen d)) (t ++ [0])) p (d ++ t).
Proof.
  intros [Hd Hr] Ht Hn Hl. pose proof (zlen_nonneg d). pose proof (zlen_nonneg t).
  assert (zlen (t ++ [0]) = zlen t + 1) as Hz by by rewrite zlen_app.
  pose proof (rd_sub _ _ _ _ (zlen d) (zlen (t ++ [0])) Hn ltac:(lia) ltac:(lia) ltac:(lia)) as Hw.
  split; [by apply Forall_app|]. rewrite zlen_app, <- app_assoc.
  replace (zlen d + zlen t + 1) with (zlen d + zlen (t ++ [0])) by lia. apply rd_app.
  - rewrite (rd_wr_ne _ _ _ _ _ _ Hw).
    + rewrite (rd_prefix _ _ _ _ (zlen d) Hr) by lia. f_equal. unfold slice. rewrite drop_0.
      rewrite take_app_le by (unfold zlen; lia). apply take_ge. unfold zlen. lia.
    + right. right. cbn. lia.
  - by eapply rd_wr_eq.
Qed.

Lemma strncat_loop_spec h e src s n y count f :
  cstr h src s -> 0 < count -> rd h e n = Some y -> Z.min count (zlen s) < n ->
  disjoint_ptr e n src (zlen s + 1) -> zlen s + 1 < Z.of_nat f ->
  while f (fun '(dest, src, count) =>
    let* c := ld src in
    st dest c ;;
    if negb (c =? 0) then
      if count - 1 =? 0 then st (padd dest 1) 0 ;; ret (inr tt)
      else ret (inl (padd dest 1, padd src 1, count - 1))
    else ret (inr tt)) (e, src, count) h = Some (tt, wr h e (slice s 0 (Z.min count (zlen s)) ++ [0])).
Proof.
  intros [Hs Hr] Hcount He Hn Hdis Hf. pose proof (zlen_nonneg s). apply wp_eq.
  apply (wp_while_ix (fun m '(d, q, c) h' => exists i, 0 <= i <= zlen s /\ i < count /\
    m = Z.to_nat (zlen s - i) /\ d = padd e i /\ q = padd src i /\ c = count - i /\
    h' = wr h e (slice s 0 i)) _ (Z.to_nat (zlen s))).
  - exists 0. rewrite !padd_0. repeat split; try lia. rewrite slice_0. symmetry.
    apply (wr_nil _ _ (slice y 0 0)), (rd_prefix _ _ _ _ 0 He). lia.
  - lia.
  - intros m [[d q] c] h' (i & Hi & Hic & -> & -> & -> & -> & ->).
    assert (zlen (slice s 0 i) = i) as Hz by (apply zlen_slice; lia). wp_step.
    eapply wp_ld_apart; [exact He|lia|exact Hr|lia|eapply disjoint_sub; [exact Hdis|lia..]|].
    rewrite at_app_nul by lia. wp_step.
    eexists _, _. split; [eapply st_snoc; [exact He|exact Hz|lia]|].
    pose proof (char_nul s i Hs Hi) as Hnul. destruct (at_ s i =? 0) eqn:E; b2p; cbn [negb].
    + wp_step. split; [done|]. assert (i = zlen s) as -> by tauto.
      rewrite Z.min_r by lia. by rewrite at_end.
    + assert (i < zlen s) by (destruct (Z.eq_dec i (zlen s)); [tauto|lia]).
      rewrite <- slice_snoc by lia. wp_step; b2p.
      * wp_step. rewrite padd_1. eexists _, _.
        split; [eapply st_snoc; [exact He|apply zlen_slice; lia|lia]|]. wp_step.
        split; [done|]. do 3 f_equal. lia.
      * wp_step. exists (Z.to_nat (zlen s - (i + 1))). split; [lia|]. exists (i + 1). rewrite !padd_1.
        repeat split; lia.
Qed.

(** Copies and concatenations of NUL-terminated strings, from a source outside
    the [n] bytes of the destination.  [strcpy] copies the string, [strncpy]
    exactly [count] bytes, cut or padded with NULs, [strlcpy] as much as fits with
    a terminator, and returns the length it wanted; [strcat], [strncat] and
    [strlcat] leave the concatenation, with at most [count] characters of the
    source or cut to a buffer of [count] bytes.  Each writes only the bytes the
    result takes. *)
Theorem string_copy_correct (h : mem) dest src s n y count d :
  cstr h src s -> rd h dest n = Some y -> disjoint_ptr dest n src (zlen s + 1) -> 0 <= count ->
  (zlen s < n -> strcpy dest src h = Some (dest, wr h dest (s ++ [0]))) /\
  (count <= n -> strncpy dest src count h = Some (dest, wr h dest (padded s count))) /\
  (1 <= count <= n -> strlcpy dest src count h =
     Some (zlen s, wr h dest (slice s 0 (Z.min (zlen s) (count - 1)) ++ [0]))) /\
  (cstr h dest d -> zlen d + zlen s < n ->
     strcat dest src h = Some (dest, wr h (padd dest (zlen d)) (s ++ [0])) /\
     cstr (wr h (padd dest (zlen d)) (s ++ [0])) dest (d ++ s)) /\
  (cstr h dest d -> zlen d + Z.min count (zlen s) < n -> exists h',
     strncat dest src count h = Some (dest, h') /\ cstr h' dest (d ++ slice s 0 (Z.min count (zlen s))) /\
     (count = 0 -> h' = h)) /\
  (cstr h dest d -> zlen d < count <= n -> zlen d + zlen s < 2 ^ 32 -> exists h',
     strlcat dest src count h = Some (zlen d + zlen s, h') /\
     cstr h' dest (d ++ slice s 0 (Z.min (zlen s) (count - zlen d - 1)))).
Proof.
  intros Hs Hd Hdis Hcount. pose proof (zlen_nonneg s). pose proof (zlen_nonneg d).
  assert (forall k, 0 <= k -> disjoint_ptr (padd dest k) (n - k) src (zlen s + 1)) as Hdisk.
  { intros k Hk. unfold disjoint_ptr, padd in *. cbn [fst snd] in *. destruct Hdis as [|[|]]; auto with lia. }
  split; [|split; [|split; [|split; [|split]]]].
  - intros Hn. unfold strcpy, bind. erewrite copy_string_spec; [done|done|apply (rd_prefix _ _ _ _ _ Hd); lia|].
    rewrite <- (padd_0 src). eapply disjoint_sub; [done|lia..].
  - intros Hn. eapply strncpy_spec; [done|done|apply (rd_prefix _ _ _ _ _ Hd); lia|].
    rewrite <- (padd_0 src). eapply disjoint_sub; [done|lia..].
  - intros Hn. unfold strlcpy, bind at 1. rewrite (strlen_spec _ _ _ Hs).
    destruct (count =? 0) eqn:E; b2p; [lia|]. cbn [negb]. cbv zeta.
    replace (if count <=? zlen s then count - 1 else zlen s) with (Z.min (zlen s) (count - 1))
      by (case_if E'; b2p; lia).
    unfold bind at 1. erewrite copy_nul_spec; [done|done|lia|exact Hd|lia|done].
  - intros Hds Hn. assert (rd h (padd dest (zlen d)) (zlen s + 1) = Some (slice y (zlen d) (zlen s + 1))) as Hw.
    { apply (rd_sub _ _ _ _ _ _ Hd); lia. }
    split; [|eapply cstr_extend; [done|apply Hs|done|lia]].
    unfold strcat, bind. rewrite (find_end_spec _ _ _ Hds).
    erewrite copy_string_spec; [done|done|exact Hw|].
    rewrite <- (padd_0 src). eapply disjoint_sub; [apply (Hdisk (zlen d)); lia|lia..].
  - intros Hds Hn. unfold strncat. destruct (count =? 0) eqn:E; b2p; cbn [negb].
    + exists h. split; [done|]. split; [|done]. rewrite Z.min_l, E, slice_0, app_nil_r by lia. done.
    + eexists. split; [|split; [|lia]].
      * unfold bind. rewrite (find_end_spec _ _ _ Hds). cbv [steps].
        erewrite strncat_loop_spec; [done|done|lia|apply (rd_sub _ _ _ _ (zlen d) (n - zlen d) Hd); lia|lia| |].
        -- apply Hdisk. lia.
        -- destruct Hs as [_ Hr]. apply rd_Some in Hr as (l & -> & ? & ? & ? & _).
           change (default [] (Some l)) with l. unfold zlen in *. lia.
      * eapply cstr_extend; [done|apply chars_slice, Hs|done|]. rewrite zlen_slice by lia. lia.
  - intros Hds Hn H32. eexists. split.
    + unfold strlcat, bind at 1. rewrite (strlen_spec _ _ _ Hds). unfold bind at 1.
      rewrite (strlen_spec _ _ _ Hs). cbv zeta. destruct (count <=? zlen d) eqn:E; b2p; [lia|].
      replace (if count - zlen d <=? zlen s then count - zlen d - 1 else zlen s)
        with (Z.min (zlen s) (count - zlen d - 1)) by (case_if E'; b2p; lia).
      set (len := Z.min (zlen s) (count - zlen d - 1)).
      pose proof (copy_nul_spec h (padd dest (zlen d)) src s (n - zlen d) _ len Hs ltac:(lia)
        (rd_sub _ _ _ _ (zlen d) (n - zlen d) Hd ltac:(lia) ltac:(lia) ltac:(lia)) ltac:(lia)
        (Hdisk (zlen d) ltac:(lia))) as Ec. unfold bind in Ec |- *.
      destruct (memcpy_p (padd dest (zlen d)) src len h) as [[[] h1]|]; [|done]. rewrite Ec.
      unfold ret. do 3 f_equal. apply wrap_id. split; [lia|done].
    + eapply cstr_extend; [done|apply chars_slice, Hs|done|]. rewrite zlen_slice by lia. lia.
Qed.

Definition copy_demo : mem :=
  {[1%positive := [97; 98; 0]; 2%positive := [120; 0; 1; 2; 3; 4; 5]]}.

Lemma string_copy_correct_witness :
  strlcpy (2%positive, 0) (1%positive, 0) 2 copy_demo = Some (2, wr copy_demo (2%positive, 0) [97; 0]) /\
  strcat (2%positive, 0) (1%positive, 0) copy_demo =
    Some ((2%positive, 0), wr copy_demo (2%positive, 1) [97; 98; 0]).
Proof.
  destruct (string_copy_correct copy_demo (2%positive, 0) (1%positive, 0) [97; 98] 7 [120; 0; 1; 2; 3; 4; 5] 2 [120])
    as (_ & _ & H1 & H2 & _); [by apply cstr_intro|reflexivity|by left|lia|].
  split; [exact (H1 ltac:(lia))|]. apply H2; [by apply cstr_intro|apply Z.ltb_lt; reflexivity].
Defined.

(** ** Sets of characters and tokens *)
Lemma in_set_spec h x p s : cstr h p s -> x <> 0 -> in_set x p h = Some (bool_decide (x ∈ s), h).
Proof.
  intros Hc Hx. pose proof (zlen_nonneg s). apply wp_eq. unfold in_set. wp_step.
  eapply wp_steps_str; [done|]. intros f Hf.
  apply (wp_walk (fun i => forall j, 0 <= j < i -> at_ s j <> x) _ (zlen s)); [lia|lia|].
  intros i Hi HI. wp_step. eapply wp_ld_str; [done|lia|]. wp_step.
  pose proof (char_nul s i ltac:(apply Hc) Hi) as Hn.
  destruct (at_ s i =? 0) eqn:E1; [|destruct (x =? at_ s i) eqn:E2]; b2p.
  - split; [|done]. symmetry. apply bool_decide_eq_false. intros Hin.
    apply list_elem_of_lookup in Hin as [k Hk]. pose proof (lookup_lt_Some _ _ _ Hk).
    apply (HI (Z.of_nat k)); [unfold zlen in *; lia|].
    unfold at_, zget. rewrite decide_True, Nat2Z.id, Hk by lia. done.
  - split; [|done]. symmetry. apply bool_decide_eq_true. rewrite E2.
    apply (list_elem_of_lookup_2 _ (Z.to_nat i)). assert (i < zlen s) by (destruct (Z.eq_dec i (zlen s)); [tauto|lia]).
    pose proof (zget_at s i ltac:(lia)) as Hz. unfold zget in Hz. by rewrite decide_True in Hz by lia.
  - rewrite padd_1. repeat split; [destruct (Z.eq_dec i (zlen s)); [tauto|lia]|].
    intros j Hj. destruct (Z.eq_dec j i) as [->|]; [congruence|apply HI; lia].
Qed.

(** The number of leading characters whose membership in [set] is not [stop]. *)
Fixpoint lead (stop : bool) (set s : list Z) : Z :=
  match s with
  | [] => 0
  | x :: s => if Bool.eqb (bool_decide (x ∈ set)) stop then 0 else 1 + lead stop set s
  end.

Lemma lead_spec stop set s :
  0 <= lead stop set s <= zlen s /\
  (forall j, 0 <= j < lead stop set s -> bool_decide (at_ s j ∈ set) = negb stop) /\
  (lead stop set s < zlen s -> bool_decide (at_ s (lead stop set s) ∈ set) = stop).
Proof.
  induction s as [|x s (IH1 & IH2 & IH3)].
  { cbn [lead]. change (zlen (@nil Z)) with 0. split; [lia|]. split; intros; lia. }
  cbn [lead].
  assert (zlen (x :: s) = zlen s + 1) as -> by (unfold zlen; cbn [length]; lia).
  assert (forall j, 0 < j -> at_ (x :: s) j = at_ s (j - 1)) as Hat.
  { intros j Hj. unfold at_. by rewrite zget_cons. }
  destruct (bool_decide (x ∈ set)) eqn:Ex, stop; cbn [Bool.eqb].
  all: try (split; [lia|]; split; [lia|]; intros _; exact Ex).
  all: split; [lia|]; split.
  all: try (intros j Hj; destruct (Z.eq_dec j 0) as [->|]; [exact Ex|rewrite Hat by lia; apply IH2; lia]).
  all: intros Hl; rewrite Hat by lia.
  all: match goal with |- bool_decide (at_ ?l ?k ∈ ?st) = ?b =>
         replace k with (lead b st l) by lia; apply IH3; lia end.
Qed.

Lemma span_spec h p q s set stop :
  cstr h p s -> cstr h q set -> span stop p q h = Some (lead stop set s, h).
Proof.
  intros Hp Hq. pose proof (zlen_nonneg s). destruct (lead_spec stop set s) as (L1 & L2 & L3).
  apply wp_eq. unfold span. wp_step. eapply wp_steps_str; [done|]. intros f Hf.
  rewrite <- (padd_0 p) at 1.
  apply (wp_walk_gen (fun i => (padd p i, i)) (fun i => i <= lead stop set s) _ (zlen s)); [lia|lia|].
  intros i Hi HI. wp_step. eapply wp_ld_str; [done|lia|]. pose proof (char_nul s i ltac:(apply Hp) Hi) as Hn.
  wp_step; b2p.
  - wp_step. split; [|done]. lia.
  - wp_step. eexists _, _. split; [by apply in_set_spec|]. wp_step.
    destruct (Bool.eqb (bool_decide (at_ s i ∈ set)) stop) eqn:Eb.
    + apply Bool.eqb_prop in Eb. split; [|done].
      destruct (Z.eq_dec i (lead stop set s)); [done|]. rewrite (L2 i) in Eb by lia. by destruct stop.
    + apply Bool.eqb_false_iff in Eb. rewrite padd_1. repeat split; [destruct (Z.eq_dec i (zlen s)); [tauto|lia]|].
      destruct (Z.eq_dec i (lead stop set s)) as [->|]; [|lia].
      destruct Eb. apply L3. destruct (Z.eq_dec (lead stop set s) (zlen s)); [tauto|lia].
Qed.

Lemma strpbrk_spec h p q s set :
  cstr h p s -> cstr h q set ->
  strpbrk p q h = Some (if lead true set s <? zlen s then Some (padd p (lead true set s)) else None, h).
Proof.
  intros Hp Hq. pose proof (zlen_nonneg s). destruct (lead_spec true set s) as (L1 & L2 & L3).
  apply wp_eq. unfold strpbrk. wp_step. eapply wp_steps_str; [done|]. intros f Hf.
  apply (wp_walk (fun i => i <= lead true set s) _ (zlen s)); [lia|lia|].
  intros i Hi HI. wp_step. eapply wp_ld_str; [done|lia|]. pose proof (char_nul s i ltac:(apply Hp) Hi) as Hn.
  wp_step; b2p.
  - wp_step. split; [|done]. by rewrite ltb_f by lia.
  - assert (i < zlen s) by (destruct (Z.eq_dec i (zlen s)); [tauto|lia]).
    wp_step. eexists _, _. split; [by apply in_set_spec|]. wp_step.
    destruct (bool_decide (at_ s i ∈ set)) eqn:Eb.
    + split; [|done]. destruct (Z.eq_dec i (lead true set s)) as [->|]; [by rewrite ltb_t|].
      rewrite (L2 i) in Eb by lia. done.
    + rewrite padd_1. repeat split; [lia|]. destruct (Z.eq_dec i (lead true set s)) as [->|]; [|lia].
      rewrite L3 in Eb by lia. done.
Qed.

(** Cutting a string and starting further in. *)
Lemma cstr_cut h p s k : cstr h p s -> 0 <= k <= zlen s -> cstr (wr h (padd p k) [0]) p (slice s 0 k).
Proof.
  intros [Hs Hr] Hk. assert (zlen (s ++ [0]) = zlen s + 1) as Hz by by rewrite zlen_app.
  pose proof (rd_sub _ _ _ _ k 1 Hr ltac:(lia) ltac:(lia) ltac:(lia)) as Hw.
  split; [by apply chars_slice|]. rewrite zlen_slice by lia. apply rd_app.
  - rewrite (rd_wr_ne _ _ [0] _ _ _ Hw) by (right; right; cbn; lia).
    rewrite (rd_prefix _ _ _ _ k Hr) by lia. f_equal. apply at_ext; [by rewrite !zlen_slice by lia|].
    intros i Hi. rewrite zlen_slice in Hi by lia. rewrite !at_slice, at_app_l by lia. done.
  - by eapply (rd_wr_eq _ _ [0]).
Qed.

Lemma cstr_suffix h p s a : cstr h p s -> 0 <= a <= zlen s -> cstr h (padd p a) (slice s a (zlen s - a)).
Proof.
  intros [Hs Hr] Ha. assert (zlen (s ++ [0]) = zlen s + 1) as Hz by by rewrite zlen_app.
  split; [by apply chars_slice|]. rewrite zlen_slice by lia.
  rewrite (rd_sub _ _ _ _ a (zlen s - a + 1) Hr) by lia. f_equal. apply at_ext.
  - rewrite zlen_app, !zlen_slice by lia. done.
  - intros i Hi. rewrite zlen_slice in Hi by lia. rewrite at_slice, at_app_nul by lia.
    rewrite at_app_nul by (rewrite zlen_slice by lia; lia).
    destruct (Z.lt_ge_cases i (zlen s - a)); [by rewrite at_slice by lia|].
    rewrite at_out, at_out by (rewrite ?zlen_slice by lia; lia). done.
Qed.

(** [strspn] and [strcspn] return the length of the longest prefix inside and
    outside a set of characters, [strpbrk] the first character of the set.
    [strsep] cuts the string there: the token is the prefix without separators,
    terminated in place, the rest of the string starts after the separator, and
    the last token is the whole string; with [*s == NULL] there is none. *)
Theorem string_tokens_correct (h : mem) p q s set :
  cstr h p s -> cstr h q set ->
  let k := lead true set s in
  (0 <= k <= zlen s /\ (forall j, 0 <= j < k -> at_ s j ∉ set) /\ (k < zlen s -> at_ s k ∈ set)) /\
  strcspn p q h = Some (k, h) /\
  (exists k', strspn p q h = Some (k', h) /\ 0 <= k' <= zlen s /\
     (forall j, 0 <= j < k' -> at_ s j ∈ set) /\ (k' < zlen s -> at_ s k' ∉ set)) /\
  strpbrk p q h = Some (if k <? zlen s then Some (padd p k) else None, h) /\
  strsep None q h = Some ((None, None), h) /\
  (k = zlen s -> strsep (Some p) q h = Some ((Some p, None), h)) /\
  (k < zlen s -> exists h', strsep (Some p) q h = Some ((Some p, Some (padd p (k + 1))), h') /\
     cstr h' p (slice s 0 k) /\ cstr h' (padd p (k + 1)) (slice s (k + 1) (zlen s - k - 1))).
Proof.
  intros Hp Hq k. destruct (lead_spec true set s) as (L1 & L2 & L3). fold k in L1, L2, L3.
  pose proof (strpbrk_spec h p q s set Hp Hq) as Hpb. fold k in Hpb.
  split; [|split; [by apply span_spec|split; [|split; [done|split; [done|split]]]]].
  - split; [done|]. split; intros; [apply (bool_decide_eq_false_1 (_ ∈ set)); auto|].
    apply (bool_decide_eq_true_1 (_ ∈ set)); auto.
  - destruct (lead_spec false set s) as (M1 & M2 & M3). exists (lead false set s).
    split; [by apply span_spec|]. split; [done|]. split; intros.
    + apply (bool_decide_eq_true_1 (_ ∈ set)). auto.
    + apply (bool_decide_eq_false_1 (_ ∈ set)). auto.
  - intros E. unfold strsep, bind. rewrite Hpb, ltb_f by lia. done.
  - intros Hk. unfold strsep, bind. rewrite Hpb, ltb_t by lia. destruct Hp as [Hs Hr].
    eexists. split; [rewrite (st_wr _ _ _ _ _ _ Hr), padd_1 by lia; reflexivity|].
    split; [by apply cstr_cut; [|lia]|].
    destruct (cstr_suffix h p s (k + 1) (conj Hs Hr) ltac:(lia)) as [Hc Hrest].
    replace (zlen s - (k + 1)) with (zlen s - k - 1) in Hc, Hrest by lia. split; [done|].
    pose proof (rd_sub _ _ _ _ k 1 Hr ltac:(lia) ltac:(lia) ltac:(lia)) as Hw.
    rewrite (rd_wr_ne _ _ [0] _ _ _ Hw); [done|].
    right; left; unfold padd; cbn [fst snd]; change (zlen [0]) with 1; lia.
Qed.

Lemma string_tokens_correct_witness :
  let h : mem := {[1%positive := [97; 44; 98; 0]; 2%positive := [44; 0]]} in
  exists h', strsep (Some (1%positive, 0)) (2%positive, 0) h =
    Some ((Some (1%positive, 0), Some (1%positive, 2)), h') /\ cstr h' (1%positive, 0) [97] /\
    cstr h' (1%positive, 2) [98].
Proof.
  intros h. destruct (string_tokens_correct h (1%positive, 0) (2%positive, 0) [97; 44; 98] [44])
    as (_ & _ & _ & _ & _ & _ & H); [by apply cstr_intro|by apply cstr_intro|].
  apply H. apply Z.ltb_lt. reflexivity.
Defined.

(** ** Substrings *)
Definition occurs (s t : list Z) (i : Z) : Prop :=
  i + zlen t <= zlen s /\ forall j, 0 <= j < zlen t -> at_ s (i + j) = at_ t j.

(** [strstr] returns the first place where the second string occurs in the
    first, the start for an empty one, and [NULL] when it does not occur. *)
Theorem strstr_correct (h : mem) p q s t :
  cstr h p s -> cstr h q t ->
  exists r, strstr p q h = Some (padd p <$> r, h) /\ first_idx (occurs s t) (zlen s + 1) r.
Proof.
  intros Hp Hq. pose proof (zlen_nonneg s). pose proof (zlen_nonneg t).
  enough (wp (strstr p q) (fun o h' => h' = h /\ exists r, o = padd p <$> r /\
    first_idx (occurs s t) (zlen s + 1) r) h) as (o & h' & E & -> & r & -> & Hr) by eauto.
  unfold strstr. wp_step. eexists _, _. split; [by apply strlen_spec|]. wp_step; b2p.
  { wp_step. split; [done|]. exists (Some 0). cbn [fmap option_fmap option_map]. rewrite padd_0. split; [done|].
    split; [lia|]. split; [|intros; lia]. split; [lia|intros; lia]. }
  wp_step. eexists _, _. split; [by apply strlen_spec|]. wp_step. eapply wp_steps_str; [exact Hp|]. intros f Hf.
  apply (wp_walk_count (fun i => forall j, 0 <= j < i -> ~ occurs s t j) _ (zlen s)); [lia|lia|].
  intros i Hi HI. wp_step; b2p.
  - wp_step. destruct Hp as [Hs Hr], Hq as [Ht Hr'].
    destruct (memcmp_spec h (padd p i) q _ _ (zlen t)
      (rd_sub _ _ _ _ i (zlen t) Hr ltac:(lia) ltac:(lia) ltac:(lia))
      (rd_prefix _ _ _ _ (zlen t) Hr' ltac:(lia))) as (r & Er & Hcmp).
    assert (forall j, 0 <= j < zlen t -> at_ (slice (s ++ [0]) i (zlen t)) j = at_ s (i + j) /\
      at_ (slice (t ++ [0]) 0 (zlen t)) j = at_ t j) as Hat.
    { intros j Hj. rewrite !at_slice, !at_app_nul by lia. done. }
    eexists _, _. split; [exact Er|]. wp_step.
    destruct Hcmp as [[Hag ->]|(j & Hj & (Hj0 & _ & Hd) & ->)].
    + cbn [Z.eqb]. split; [done|]. exists (Some i). split; [done|]. split; [lia|]. split; [|done].
      split; [lia|]. intros j Hj. destruct (Hat j Hj) as [<- <-]. by apply Hag.
    + destruct (Hat j ltac:(lia)) as [E1 E2]. rewrite E1, E2 in *.
      destruct (at_ s (i + j) - at_ t j =? 0) eqn:Ez; b2p; [lia|].
      rewrite padd_1. repeat split; try lia; [f_equal; lia|]. intros k Hk.
      destruct (Z.eq_dec k i) as [->|]; [|apply HI; lia]. intros [_ Hoc]. apply Hd, Hoc. lia.
  - wp_step. split; [done|]. exists None. split; [done|]. intros j Hj Hoc.
    destruct (Z.lt_ge_cases j i); [by apply (HI j); [lia|]|]. destruct Hoc as [Hoc _]. lia.
Qed.

Lemma strstr_correct_witness : exists r,
  strstr (1%positive, 0) (2%positive, 0) str_demo = Some (padd (1%positive, 0) <$> r, str_demo) /\
  first_idx (occurs [97; 98; 97; 99] [98; 97]) 5 r.
Proof.
  apply (strstr_correct str_demo (1%positive, 0) (2%positive, 0) [97; 98; 97; 99] [98; 97]);
    by apply cstr_intro.
Defined.

(** ** Trimming *)
Lemma wp_ld_next h p s i (Q : Z -> mem -> Prop) :
  cstr h p s -> 0 <= i < zlen s -> Q (at_ s (i + 1)) h -> wp (ld (padd (padd p i) 1)) Q h.
Proof. intros Hc Hi HQ. rewrite padd_1. eapply wp_ld_str; [done|lia|done]. Qed.

Lemma sysfs_streq_spec h p q s t :
  cstr h p s -> cstr h q t ->
  exists r, sysfs_streq p q h = Some (r, h) /\ (r = true <-> s = t \/ t = s ++ [10] \/ s = t ++ [10]).
Proof.
  intros Hp Hq. pose proof (zlen_nonneg s). pose proof (zlen_nonneg t).
  pose proof (proj1 Hp) as Hs. pose proof (proj1 Hq) as Ht.
  enough (wp (sysfs_streq p q) (fun r h' => h' = h /\
    (r = true <-> s = t \/ t = s ++ [10] \/ s = t ++ [10])) h) as (r & h' & E & -> & Hr) by eauto.
  unfold sysfs_streq. wp_step. eapply wp_steps_str; [exact Hp|]. intros f Hf. wp_step.
  eapply wp_mono with (P := fun x h' => h' = h /\ exists i, 0 <= i <= zlen s /\ i <= zlen t /\
    x = (padd p i, padd q i) /\ agree s t i /\ (at_ s i = 0 \/ at_ s i <> at_ t i)).
  { apply (wp_walk2 (agree s t) _ (zlen s)); [intros ?; lia|lia|]. intros i Hi HI.
    pose proof (agree_in_range h p q s t Hp Hq i Hi HI). pose proof (char_nul s i Hs Hi) as Hn.
    wp_step. eapply wp_ld_str; [done|lia|]. wp_step; b2p.
    - wp_step. split; [done|]. exists i. split; [lia|]. split; [lia|]. split; [done|]. split; [done|by left].
    - wp_step. eapply wp_ld_str; [done|lia|]. wp_step. destruct (at_ s i =? at_ t i) eqn:E2; b2p.
      + rewrite !padd_1. repeat split; [destruct (Z.eq_dec i (zlen s)); [tauto|lia]|by apply agree_next].
      + split; [done|]. exists i. split; [lia|]. split; [lia|]. split; [done|]. split; [done|by right]. }
  intros x h' (-> & i & Hi & Hit & -> & HI & Hstop).
  pose proof (char_nul s i Hs Hi) as Hns. pose proof (char_nul t i Ht ltac:(lia)) as Hnt.
  wp_step. eapply wp_ld_str; [done|lia|]. wp_step. eapply wp_ld_str; [done|lia|]. wp_step; b2p.
  { wp_step. split; [done|]. split; [intros _; left|done]. assert (i = zlen s) by (destruct Hstop; tauto).
    assert (i = zlen t) by (apply Hnt; rewrite <- E; tauto). apply at_ext; [lia|]. intros; apply HI; lia. }
  (* one string is the other and a newline exactly when it ends that way here *)
  assert (forall a b, chars a -> chars b -> agree a b i -> 0 <= i <= zlen a -> i <= zlen b ->
    at_ a i <> at_ b i -> b = a ++ [10] <-> at_ a i = 0 /\ at_ b i = 10 /\ at_ b (i + 1) = 0) as Hnl.
  { intros a b Ha Hb Hag Hia Hib Hne. pose proof (char_nul a i Ha Hia) as Hna. split.
    - intros ->. rewrite zlen_app in Hib. change (zlen [10]) with 1 in Hib.
      assert (i = zlen a) as ->.
      { destruct (Z.eq_dec i (zlen a)); [done|]. destruct Hne. by rewrite at_app_l by lia. }
      rewrite at_end, at_app_r, Z.sub_diag by lia. split; [done|]. split; [done|].
      apply at_out. rewrite zlen_app. change (zlen [10]) with 1. lia.
    - intros (E1 & E2 & E3). assert (i = zlen a) as -> by tauto.
      assert (zlen a < zlen b).
      { destruct (Z.eq_dec (zlen a) (zlen b)) as [E4|]; [|lia]. rewrite E4, at_end in E2. lia. }
      assert (zlen b = zlen a + 1).
      { destruct (Z.eq_dec (zlen b) (zlen a + 1)); [done|]. pose proof (chars_at b (zlen a + 1) Hb). lia. }
      apply at_ext; [by rewrite zlen_app|]. intros j Hj. destruct (Z.eq_dec j (zlen a)) as [->|].
      + rewrite at_app_r, Z.sub_diag by lia. done.
      + rewrite at_app_l by lia. symmetry. apply Hag. lia. }
  pose proof (Hnl s t Hs Ht HI Hi Hit E) as Hst.
  pose proof (Hnl t s Ht Hs (fun j Hj => eq_sym (HI j Hj)) ltac:(lia) ltac:(lia) (not_eq_sym E)) as Hts.
  assert (s <> t) as Hneq by (intros ->; done).
  wp_step.
  eapply wp_mono with (P := fun x h' => h' = h /\
    (x = true <-> at_ s i = 0 /\ at_ t i = 10 /\ at_ t (i + 1) = 0)).
  { wp_step; b2p.
    - wp_step. eapply wp_ld_next; [done| |].
      { destruct (Z.eq_dec i (zlen t)) as [->|]; [rewrite at_end in *; lia|lia]. }
      wp_step. split; [done|]. rewrite Z.eqb_eq. tauto.
    - wp_step. split; [done|]. split; [done|]. intros (E1 & E2 & _). destruct E0 as [E0|E0]; b2p; lia. }
  intros x h' [-> Hx]. rewrite <- Hst in Hx. destruct x.
  { wp_step. split; [done|]. tauto. }
  wp_step. eapply wp_mono with (P := fun x h' => h' = h /\
    (x = true <-> at_ t i = 0 /\ at_ s i = 10 /\ at_ s (i + 1) = 0)).
  { wp_step; b2p.
    - wp_step. eapply wp_ld_next; [done| |].
      { destruct (Z.eq_dec i (zlen s)) as [->|]; [rewrite at_end in *; lia|lia]. }
      wp_step. split; [done|]. rewrite andb_true_iff, !Z.eqb_eq. tauto.
    - wp_step. split; [done|]. split; [done|]. intros (E1 & E2 & _). lia. }
  intros y h' [-> Hy]. rewrite <- Hts in Hy. wp_step. split; [done|]. rewrite Hy. split; [auto|]. intros [|[Ht'|]]; [done| |done].
  apply Hx in Ht'. done.
Qed.

Lemma strstrip_spec h p s :
  cstr h p s -> exists a k h', strstrip p h = Some (padd p a, h') /\
    0 <= a <= k /\ k <= zlen s /\ cstr h' (padd p a) (slice s a (k - a)) /\
    (forall j, 0 <= j < a -> isspace (at_ s j) = true) /\
    (forall j, k <= j < zlen s -> isspace (at_ s j) = true) /\
    (a < k -> isspace (at_ s a) = false /\ isspace (at_ s (k - 1)) = false).
Proof.
  intros Hp. pose proof (zlen_nonneg s).
  enough (wp (strstrip p) (fun r h' => exists a k, r = padd p a /\
    0 <= a <= k /\ k <= zlen s /\ cstr h' (padd p a) (slice s a (k - a)) /\
    (forall j, 0 <= j < a -> isspace (at_ s j) = true) /\
    (forall j, k <= j < zlen s -> isspace (at_ s j) = true) /\
    (a < k -> isspace (at_ s a) = false /\ isspace (at_ s (k - 1)) = false)) h)
    as (r & h' & E & a & k & -> & Hrest) by eauto 10.
  unfold strstrip. wp_step. eexists _, _. split; [by apply strlen_spec|]. wp_step; b2p.
  { wp_step. exists 0, 0. rewrite padd_0. split; [done|]. split; [lia|]. split; [lia|].
    split; [|repeat split; intros; lia].
    pose proof (cstr_suffix h p s 0 Hp ltac:(lia)) as Hc. rewrite padd_0 in Hc. by rewrite E in Hc. }
  wp_step. eapply wp_steps_str; [exact Hp|]. intros f Hf. wp_step.
  eapply wp_mono with (P := fun e h' => h' = h /\ exists k, 0 <= k <= zlen s /\ e = padd p (k - 1) /\
    (forall j, k <= j < zlen s -> isspace (at_ s j) = true) /\ (0 < k -> isspace (at_ s (k - 1)) = false)).
  { apply (wp_while_ix (fun m e h' => h' = h /\ exists k, 0 <= k <= zlen s /\ e = padd p (k - 1) /\
      m = Z.to_nat k /\ (forall j, k <= j < zlen s -> isspace (at_ s j) = true)) _ (Z.to_nat (zlen s))).
    - split; [done|]. exists (zlen s). repeat split; try lia; intros; lia.
    - lia.
    - intros m e h' (-> & k & Hk & -> & -> & Hsp). cbn [snd padd]. wp_step; b2p.
      + wp_step. eapply wp_ld_str; [exact Hp|lia|]. wp_step.
        destruct (isspace (at_ s (k - 1))) eqn:Es.
        * exists (Z.to_nat (k - 1)). split; [lia|]. split; [done|]. exists (k - 1). rewrite padd_padd.
          repeat split; try lia; try (f_equal; lia). intros j Hj.
          destruct (Z.eq_dec j (k - 1)) as [->|]; [done|apply Hsp; lia].
        * split; [done|]. exists k. repeat split; try done; lia.
      + wp_step. split; [done|]. exists k. repeat split; try done; lia. }
  intros e h' (-> & k & Hk & -> & Hsp & Hns). rewrite padd_padd. replace (k - 1 + 1) with k by lia.
  wp_step. destruct Hp as [Hs Hr].
  eexists _, _. split; [eapply st_wr; [exact Hr|lia]|].
  pose proof (cstr_cut h p s k (conj Hs Hr) ltac:(lia)) as Hc.
  assert (zlen (slice s 0 k) = k) as Hz by (apply zlen_slice; lia).
  apply (wp_walk (fun i => forall j, 0 <= j < i -> isspace (at_ s j) = true) _ k); [lia|lia|].
  intros i Hi HI. wp_step. eapply wp_ld_str; [exact Hc|lia|]. wp_step.
  pose proof (char_nul (slice s 0 k) i ltac:(apply Hc) ltac:(lia)) as Hn. rewrite Hz in Hn.
  destruct (at_ (slice s 0 k) i =? 0) eqn:E0; b2p; cbn [negb andb].
  - assert (i = k) as -> by tauto. exists k, k. split; [done|]. split; [lia|]. split; [lia|].
    split; [|repeat split; try done; intros; lia].
    pose proof (cstr_suffix _ p _ k Hc ltac:(lia)) as Hc'. rewrite Hz, Z.sub_diag in Hc'.
    by rewrite Z.sub_diag, !slice_0 in *.
  - assert (i < k) by (destruct (Z.eq_dec i k); [tauto|lia]). rewrite at_slice by lia.
    change (0 + i) with i. destruct (isspace (at_ s i)) eqn:Es.
    + rewrite padd_1. repeat split; [lia|]. intros j Hj.
      destruct (Z.eq_dec j i) as [->|]; [done|apply HI; lia].
    + exists i, k. split; [done|]. split; [lia|]. split; [lia|].
      split; [|split; [done|split; [done|intros _; split; [done|apply Hns; lia]]]].
      pose proof (cstr_suffix _ p _ i Hc ltac:(lia)) as Hc'. rewrite Hz in Hc'.
      replace (slice (slice s 0 k) i (k - i)) with (slice s i (k - i)) in Hc'; [done|].
      apply at_ext; [by rewrite !zlen_slice by (rewrite ?Hz; lia)|]. intros j Hj.
      rewrite zlen_slice in Hj by lia. rewrite !at_slice by lia. f_equal.
Qed.

(** [strstrip] returns the string without its leading and trailing white
    space: what it skips and cuts is white space, and what is left neither starts
    nor ends with any.  [sysfs_streq] holds exactly when the strings are equal or
    one is the other followed by a newline. *)
Theorem string_trim_correct (h : mem) p q s t :
  cstr h p s -> cstr h q t ->
  (exists a k h', strstrip p h = Some (padd p a, h') /\
    0 <= a <= k /\ k <= zlen s /\ cstr h' (padd p a) (slice s a (k - a)) /\
    (forall j, 0 <= j < a -> isspace (at_ s j) = true) /\
    (forall j, k <= j < zlen s -> isspace (at_ s j) = true) /\
    (a < k -> isspace (at_ s a) = false /\ isspace (at_ s (k - 1)) = false)) /\
  (exists r, sysfs_streq p q h = Some (r, h) /\ (r = true <-> s = t \/ t = s ++ [10] \/ s = t ++ [10])).
Proof. intros Hp Hq. split; [by apply strstrip_spec|by apply sysfs_streq_spec]. Qed.

Lemma string_trim_correct_witness :
  let h : mem := {[1%positive := [32; 97; 32; 0]; 2%positive := [32; 97; 32; 10; 0]]} in
  exists r, sysfs_streq (1%positive, 0) (2%positive, 0) h = Some (r, h) /\ r = true.
Proof.
  intros h. destruct (string_trim_correct h (1%positive, 0) (2%positive, 0) [32; 97; 32] [32; 97; 32; 10])
    as [_ (r & H1 & H2)]; [by apply cstr_intro|by apply cstr_intro|].
  exists r. split; [exact H1|]. apply H2. right. left. reflexivity.
Defined.
