(* ===== verification/Modes.v ===== *)
(** * Block modes: ECB and CBC

    The segment routines of [crypto/ecb.c] and [crypto/cbc.c] and [crypto_xor]
    of [crypto/algapi.c], for any cipher that keeps the promises of the
    interface [BlockCipher].  The in-place and the two-buffer variants compute
    the same text and leave the same chaining value, and decryption restores
    the plaintext.  A walk step ([struct blkcipher_walk]) is an argument: the
    scatterlist walk of [crypto/blkcipher.c] that produces the steps is not
    modelled. *)

From Stdlib Require Import ZArith Lia.
From stdpp Require Import base tactics numbers list gmap option.
From S2P Require Import Prelude Cipher Tea CString.

(** ** [crypto_xor] *)
Definition crypto_xor_byte (a b : ptr) (size : Z) : C unit :=
  for_ (Z.to_nat size) 0 (fun k =>
    let* x := load a.1 (a.2 + k) in
    let* y := load b.1 (b.2 + k) in
    store a.1 (a.2 + k) (Z.lxor x y)).

Definition crypto_xor (dst src : ptr) (size : Z) : C unit :=
  let* '(a, b, size) :=
    while (S (Z.to_nat size)) (fun '(a, b, size) =>
      if 4 <=? size then
        let* x := load_u32 a in
        let* y := load_u32 b in
        store_u32 a (Z.lxor x y) ;;
        ret (inl (padd a 4, padd b 4, size - 4))
      else ret (inr (a, b, size))) (dst, src, size) in
  crypto_xor_byte a b size.

(** The part of [struct blkcipher_walk] a segment works on. *)
Record walk := Walk { w_src : ptr; w_dst : ptr; w_iv : ptr; w_nbytes : Z }.

Section Modes.
Context {Ctx : Type} {cipher : BlockCipher Ctx} (tfm : Ctx).
Abbreviation bsize := cra_blocksize.

(** The loops end when fewer than [bsize] bytes are left, and return how many. *)
Definition fuel (w : walk) : nat := S (Z.to_nat (w_nbytes w)).

Definition crypto_ecb_crypt_segment (fn : Ctx -> ptr -> ptr -> C unit) (w : walk) : C Z :=
  while (fuel w) (fun '(wsrc, wdst, nbytes) =>
    fn tfm wdst wsrc ;;
    let nbytes := u32 (nbytes - bsize) in
    ret (if bsize <=? nbytes then inl (padd wsrc bsize, padd wdst bsize, nbytes) else inr nbytes))
    (w_src w, w_dst w, w_nbytes w).

Definition crypto_cbc_encrypt_segment (w : walk) : C Z :=
  let iv := w_iv w in
  while (fuel w) (fun '(src, dst, nbytes) =>
    crypto_xor iv src bsize ;;
    cia_encrypt tfm dst iv ;;
    memcpy_p iv dst bsize ;;
    let nbytes := u32 (nbytes - bsize) in
    ret (if bsize <=? nbytes then inl (padd src bsize, padd dst bsize, nbytes) else inr nbytes))
    (w_src w, w_dst w, w_nbytes w).

Definition crypto_cbc_encrypt_inplace (w : walk) : C Z :=
  let* '(iv, nbytes) :=
    while (fuel w) (fun '(src, iv, nbytes) =>
      crypto_xor src iv bsize ;;
      cia_encrypt tfm src src ;;
      let iv := src in
      let nbytes := u32 (nbytes - bsize) in
      ret (if bsize <=? nbytes then inl (padd src bsize, iv, nbytes) else inr (iv, nbytes)))
      (w_src w, w_iv w, w_nbytes w) in
  memcpy_p (w_iv w) iv bsize ;;
  ret nbytes.

Definition crypto_cbc_decrypt_segment (w : walk) : C Z :=
  let* '(iv, nbytes) :=
    while (fuel w) (fun '(src, dst, iv, nbytes) =>
      cia_decrypt tfm dst src ;;
      crypto_xor dst iv bsize ;;
      let iv := src in
      let nbytes := u32 (nbytes - bsize) in
      ret (if bsize <=? nbytes then inl (padd src bsize, padd dst bsize, iv, nbytes) else inr (iv, nbytes)))
      (w_src w, w_dst w, w_iv w, w_nbytes w) in
  memcpy_p (w_iv w) iv bsize ;;
  ret nbytes.

(** [last_iv] is the local array that saves the last ciphertext block. *)
Definition crypto_cbc_decrypt_inplace (last_iv : block) (w : walk) : C Z :=
  let src := padd (w_src w) (w_nbytes w - Z.land (w_nbytes w) (bsize - 1) - bsize) in
  memcpy_p (last_iv, 0) src bsize ;;
  let* '(src, nbytes) :=
    while (fuel w) (fun '(src, nbytes) =>
      cia_decrypt tfm src src ;;
      let nbytes := u32 (nbytes - bsize) in
      if nbytes <? bsize then ret (inr (src, nbytes)) else
      crypto_xor src (padd src (- bsize)) bsize ;;
      ret (inl (padd src (- bsize), nbytes))) (src, w_nbytes w) in
  crypto_xor src (w_iv w) bsize ;;
  memcpy_p (w_iv w) (last_iv, 0) bsize ;;
  ret nbytes.

(** The bodies of the walk loops of [crypto_cbc_encrypt] and
    [crypto_cbc_decrypt], up to [blkcipher_walk_done]. *)
Definition crypto_cbc_encrypt_chunk (w : walk) : C Z :=
  if decide (w_src w = w_dst w) then crypto_cbc_encrypt_inplace w else crypto_cbc_encrypt_segment w.
Definition crypto_cbc_decrypt_chunk (last_iv : block) (w : walk) : C Z :=
  if decide (w_src w = w_dst w) then crypto_cbc_decrypt_inplace last_iv w else crypto_cbc_decrypt_segment w.
End Modes.

(** ** What the modes compute, on lists of blocks *)
Definition xorl (x y : list Z) : list Z := zip_with Z.lxor x y.

Section Spec.
Context {Ctx : Type} {cipher : BlockCipher Ctx} (tfm : Ctx).

Fixpoint cbc_enc (iv : list Z) (xs : list (list Z)) : list (list Z) :=
  match xs with
  | [] => []
  | x :: xs => let c := enc tfm (xorl iv x) in c :: cbc_enc c xs
  end.
Fixpoint cbc_dec (iv : list Z) (cs : list (list Z)) : list (list Z) :=
  match cs with [] => [] | c :: cs => xorl (dec tfm c) iv :: cbc_dec c cs end.

(** The chaining value after the blocks [cs]. *)
Fixpoint last_block (iv : list Z) (cs : list (list Z)) : list Z :=
  match cs with [] => iv | c :: cs => last_block c cs end.

(** Blocks of the cipher's size. *)
Definition is_block (x : list Z) : Prop := bytes x /\ zlen x = cra_blocksize.
End Spec.

(** ** Exclusive or of byte strings *)
Lemma zlen_xorl x y : zlen x = zlen y -> zlen (xorl x y) = zlen x.
Proof. unfold zlen, xorl. intros. rewrite length_zip_with. lia. Qed.
Lemma at_xorl x y i : zlen x = zlen y -> at_ (xorl x y) i = Z.lxor (at_ x i) (at_ y i).
Proof.
  intros Hl. destruct (decide (0 <= i < zlen x)) as [Hi|Hi].
  - unfold at_, zget, xorl. rewrite !decide_True by lia. rewrite lookup_zip_with.
    unfold zlen in *. destruct (lookup_lt_is_Some_2 x (Z.to_nat i)) as [a ->]; [lia|].
    destruct (lookup_lt_is_Some_2 y (Z.to_nat i)) as [b ->]; [lia|]. done.
  - rewrite !at_out; [done|lia|lia|]. rewrite zlen_xorl by done. lia.
Qed.
Lemma bytes_xorl x y : bytes x -> bytes y -> zlen x = zlen y -> bytes (xorl x y).
Proof.
  intros Hx Hy Hl. apply Forall_by_at. intros i Hi. rewrite at_xorl by done.
  apply uint_lxor; [lia|by apply bytes_at..].
Qed.
Lemma xorl_comm x y : zlen x = zlen y -> xorl x y = xorl y x.
Proof.
  intros Hl. apply at_ext; [rewrite !zlen_xorl; lia|]. intros i Hi. rewrite !at_xorl by lia. apply Z.lxor_comm.
Qed.
Lemma xorl_cancel a x : zlen a = zlen x -> xorl (xorl a x) a = x.
Proof.
  intros Hl. assert (zlen (xorl a x) = zlen a) as Hz by by apply zlen_xorl.
  apply at_ext; [rewrite zlen_xorl; lia|]. intros i Hi. rewrite !at_xorl by lia. xor_solve.
Qed.
Lemma xorl_app a b x y : zlen a = zlen x -> xorl (a ++ b) (x ++ y) = xorl a x ++ xorl b y.
Proof. intros Hl. unfold xorl. apply zip_with_app. unfold zlen in Hl. lia. Qed.

Lemma le4_lxor a b :
  bytes a -> bytes b -> zlen a = 4 -> zlen b = 4 -> le4 (Z.lxor (le_word a) (le_word b)) = xorl a b.
Proof.
  intros Ha Hb Hla Hlb.
  rewrite <- (le4_le_word (xorl a b)) by ((by apply bytes_xorl; [| |lia]) || (rewrite zlen_xorl; lia)).
  f_equal. unfold le_word. rewrite !at_xorl by lia. pow2.
  assert (forall l i, bytes l -> uint 8 (at_ l i)) as H8 by (intros; by apply bytes_at).
  assert (forall x0 x1 x2 x3, x0 + 256 * x1 + 65536 * x2 + 16777216 * x3 =
    x0 + 256 * (x1 + 256 * (x2 + 256 * (x3 + 256 * 0)))) as R by (intros; lia).
  rewrite !R, !lxor_cat by auto. done.
Qed.

(** ** Memory: writes that commute or change nothing *)
Lemma wr_id h p n x : rd h p n = Some x -> wr h p x = h.
Proof.
  intros Hr. pose proof (rd_len _ _ _ _ Hr) as Hl. apply rd_Some in Hr as (l & Hb & Ho & Hn & Hle & ->).
  unfold wr. rewrite Hb. apply insert_id. rewrite Hb. f_equal.
  apply at_ext; [by rewrite zlen_splice by lia|]. intros k Hk. rewrite at_splice by lia.
  case_decide; [|done]. rewrite at_slice by lia. f_equal. lia.
Qed.

Lemma wr_comm h p a q b x y :
  rd h p (zlen a) = Some x -> rd h q (zlen b) = Some y -> disjoint_ptr p (zlen a) q (zlen b) ->
  wr (wr h p a) q b = wr (wr h q b) p a.
Proof.
  rewrite !rd_Some. intros (l & Hb & Ho & Hn & Hl & ->) (l' & Hb' & Ho' & Hm & Hl' & ->) Hd.
  destruct (decide (p.1 = q.1)) as [E|E].
  - destruct Hd as [|Hd]; [done|]. rewrite <- E, Hb in Hb'. injection Hb' as <-.
    unfold wr at 1. rewrite <- E, (wr_lookup _ _ _ l) by done. symmetry.
    unfold wr at 1. rewrite E at 1. rewrite (wr_lookup _ q _ l) by (by rewrite <- E). symmetry.
    unfold wr. rewrite <- E, Hb, !insert_insert_eq. f_equal. apply at_ext.
    + rewrite !zlen_splice; rewrite ?zlen_splice; lia.
    + intros k Hk. rewrite !at_splice; rewrite ?zlen_splice; try lia. repeat case_decide; lia || done.
  - unfold wr at 1. rewrite wr_other by done. rewrite Hb'. symmetry.
    unfold wr at 1. rewrite wr_other by done. rewrite Hb. unfold wr. rewrite Hb, Hb'.
    by rewrite insert_insert_ne by done.
Qed.

(** Copying a block. *)
Lemma copy_spec h d s n x y :
  rd h s n = Some x -> rd h d n = Some y -> disjoint_ptr d n s n -> memcpy_p d s n h = Some (tt, wr h d x).
Proof.
  intros Hs Hd Hdis. unfold memcpy_p, memcpy. apply (copy_up_spec h d s n x y Hs Hd).
  intros k Hk. eapply disjoint_sub; [done|lia..].
Qed.

(** ** [crypto_xor] *)
Lemma slice_xorl x y o n :
  zlen x = zlen y -> 0 <= o -> 0 <= n -> o + n <= zlen x ->
  slice (xorl x y) o n = xorl (slice x o n) (slice y o n).
Proof.
  intros Hl Ho Hn Hle. assert (zlen (xorl x y) = zlen x) as Hz by by apply zlen_xorl.
  assert (zlen (slice x o n) = zlen (slice y o n)) as Hs by (by rewrite !zlen_slice by lia).
  apply at_ext; [rewrite zlen_xorl, !zlen_slice by lia; done|].
  intros i Hi. rewrite zlen_slice in Hi by lia. rewrite at_xorl by done. rewrite !at_slice by lia. by apply at_xorl.
Qed.
Lemma slice_split {A} (x : list A) n m :
  0 <= n -> 0 <= m -> slice x 0 (n + m) = slice x 0 n ++ slice x n m.
Proof.
  intros. unfold slice. rewrite drop_0. replace (Z.to_nat (n + m)) with (Z.to_nat n + Z.to_nat m)%nat by lia.
  symmetry. apply take_take_drop.
Qed.

Section Xor.
Context (h : mem) (dst src : ptr) (n : Z) (x y : list Z).
Context (Hd : rd h dst n = Some x) (Hs : rd h src n = Some y).
Context (Hx : bytes x) (Hy : bytes y) (Hdis : disjoint_ptr dst n src n).

Local Lemma xor_lens : zlen x = n /\ zlen y = n /\ zlen (xorl x y) = n /\ 0 <= n.
Proof using Hd Hs.
  pose proof (rd_len _ _ _ _ Hd). pose proof (rd_len _ _ _ _ Hs). pose proof (zlen_nonneg x).
  rewrite zlen_xorl by lia. lia.
Qed.

(** What is still to be combined after [i] bytes. *)
Local Lemma xor_rest i m :
  0 <= i -> 0 <= m -> i + m <= n ->
  rd (wr h dst (slice (xorl x y) 0 i)) (padd dst i) m = Some (slice x i m) /\
  rd (wr h dst (slice (xorl x y) 0 i)) (padd src i) m = Some (slice y i m).
Proof using Hd Hs Hdis.
  intros Hi Hm Him. destruct xor_lens as (Lx & Ly & Lz & Hn).
  assert (zlen (slice (xorl x y) 0 i) = i) as Hz by (apply zlen_slice; lia).
  pose proof (rd_prefix _ _ _ _ i Hd ltac:(lia)) as Hp. rewrite <- Hz in Hp at 1. split.
  - rewrite (rd_wr_ne _ _ _ _ _ _ Hp); [apply (rd_sub _ _ _ _ i m Hd); lia|].
    right. left. rewrite Hz. cbn. lia.
  - rewrite (rd_wr_ne _ _ _ _ _ _ Hp); [apply (rd_sub _ _ _ _ i m Hs); lia|].
    rewrite Hz. eapply disjoint_sub; [exact Hdis|lia..].
Qed.

Local Lemma xor_advance i bs m :
  0 <= i -> 0 <= m -> i + m <= n -> bs = slice (xorl x y) i m ->
  wr (wr h dst (slice (xorl x y) 0 i)) (padd dst i) bs = wr h dst (slice (xorl x y) 0 (i + m)).
Proof using Hd Hs.
  intros Hi Hm Him ->. destruct xor_lens as (Lx & Ly & Lz & Hn).
  assert (zlen (slice (xorl x y) 0 i) = i) as Hz by (apply zlen_slice; lia).
  assert (zlen (slice (xorl x y) i m) = m) as Hz' by (apply zlen_slice; lia).
  rewrite slice_split by lia. rewrite <- Hz at 2. eapply wr_app. rewrite Hz, Hz'.
  apply (rd_prefix _ _ _ _ (i + m) Hd). lia.
Qed.

Lemma crypto_xor_spec : crypto_xor dst src n h = Some (tt, wr h dst (xorl x y)).
Proof using All.
  destruct xor_lens as (Lx & Ly & Lz & Hn). apply wp_eq. unfold crypto_xor. wp_step.
  apply (wp_mono _ (fun '(a, b, m) h' => exists i, 0 <= i <= n /\ m = n - i /\ m < 4 /\ a = padd dst i /\
    b = padd src i /\ h' = wr h dst (slice (xorl x y) 0 i))).
  - apply (wp_while (fun '(a, b, m) h' => exists i, 0 <= i <= n /\ m = n - i /\ a = padd dst i /\
      b = padd src i /\ h' = wr h dst (slice (xorl x y) 0 i)) _ (fun '(a, b, m) => Z.to_nat m)).
    + exists 0. rewrite !padd_0, slice_0. repeat split; try lia. symmetry.
      apply (wr_nil _ _ (slice x 0 0)), (rd_prefix _ _ _ _ 0 Hd). lia.
    + lia.
    + intros [[a b] m] h' (i & Hi & -> & -> & -> & ->). wp_step; b2p; [|wp_step; exists i; repeat split; try done; lia].
      destruct (xor_rest i 4) as [R1 R2]; [lia..|].
      wp_step. eexists _, _. split; [eapply load_u32_rd; [exact R1|lia]|].
      wp_step. eexists _, _. split; [eapply load_u32_rd; [exact R2|lia]|].
      wp_step. eexists _, _. split; [eapply store_u32_wr; [exact R1|lia]|].
      wp_step. split; [|lia]. exists (i + 4). rewrite !padd_padd. repeat split; try lia.
      apply xor_advance; [lia..|]. rewrite slice_xorl by lia.
      apply le4_lxor; [by apply Forall_take, Forall_drop..|by rewrite zlen_slice by lia|by rewrite zlen_slice by lia].
  - intros [[a b] m] h' (i & Hi & -> & Hm & -> & -> & ->). unfold crypto_xor_byte. eapply wp_mono.
    + apply (wp_for (fun k h' => h' = wr h dst (slice (xorl x y) 0 (i + k)))); [by rewrite Z.add_0_r|].
      intros k h' Hk ->. destruct (xor_rest (i + k) 1) as [R1 R2]; [lia..|].
      change (load (padd dst i).1 ((padd dst i).2 + k)) with (ld (padd (padd dst i) k)).
      change (load (padd src i).1 ((padd src i).2 + k)) with (ld (padd (padd src i) k)).
      rewrite !padd_padd. wp_step. rewrite <- (padd_0 (padd dst (i + k))).
      eapply wp_ld; [exact R1|lia|]. wp_step. rewrite <- (padd_0 (padd src (i + k))).
      eapply wp_ld; [exact R2|lia|].
      match goal with |- wp (store _ _ ?v) _ _ =>
        change (store (padd dst i).1 ((padd dst i).2 + k) v) with (st (padd (padd dst i) k) v) end.
      rewrite padd_padd, <- (padd_0 (padd dst (i + k))).
      eexists _, _. split; [eapply st_wr; [exact R1|lia]|]. rewrite padd_0, Z.add_assoc.
      apply xor_advance; [lia..|]. apply at_ext; [by rewrite zlen_slice by lia|].
      intros j Hj. change (zlen _) with 1 in Hj. assert (j = 0) as -> by lia.
      rewrite !at_slice by lia. rewrite (at_xorl x y) by lia. rewrite !Z.add_0_r. done.
    + intros [] h' ->. split; [done|]. rewrite slice_all; [done|]. lia.
Qed.
End Xor.

(** ** The segment loops *)
Section Loops.
Context {Ctx : Type} {cipher : BlockCipher Ctx} (tfm : Ctx) (Hkey : key_ok tfm).
Local Abbreviation bs := cra_blocksize.

Local Lemma bs_pos : 4 <= bs < 2147483648.
Proof. pose proof blocksize_pos. by pow2. Qed.

Lemma zlen_concat xs : Forall is_block xs -> zlen (concat xs) = Z.of_nat (length xs) * bs.
Proof.
  induction 1 as [|x xs [_ Hx] Hxs IH]; [done|]. cbn [concat length]. rewrite zlen_app, IH, Hx. lia.
Qed.
Lemma is_block_xorl x y : is_block x -> is_block y -> is_block (xorl x y).
Proof.
  intros [Hx Lx] [Hy Ly]. split; [apply bytes_xorl; [done|done|lia]|rewrite zlen_xorl; lia].
Qed.
Lemma is_block_enc x : is_block x -> is_block (enc tfm x).
Proof using Hkey. intros [Hx Lx]. by apply enc_block. Qed.
Lemma is_block_dec x : is_block x -> is_block (dec tfm x).
Proof using Hkey. intros [Hx Lx]. by apply dec_block. Qed.
Lemma cbc_enc_blocks iv xs : is_block iv -> Forall is_block xs -> Forall is_block (cbc_enc tfm iv xs).
Proof using Hkey.
  intros Hiv H. revert iv Hiv. induction H as [|x xs Hx Hxs IH]; intros iv Hiv; [done|]. cbn [cbc_enc].
  assert (is_block (enc tfm (xorl iv x))) by by apply is_block_enc, is_block_xorl.
  apply Forall_cons_2; [done|by apply IH].
Qed.
Lemma cbc_dec_blocks iv cs : is_block iv -> Forall is_block cs -> Forall is_block (cbc_dec tfm iv cs).
Proof using Hkey.
  intros Hiv H. revert iv Hiv. induction H as [|c cs Hc Hcs IH]; intros iv Hiv; [done|]. cbn [cbc_dec].
  apply Forall_cons_2; [by apply is_block_xorl; [apply is_block_dec|]|by apply IH].
Qed.
Lemma cbc_enc_length iv xs : length (cbc_enc tfm iv xs) = length xs.
Proof. revert iv. induction xs as [|x xs IH]; intros iv; [done|]. cbn. by rewrite IH. Qed.
Lemma cbc_dec_length iv xs : length (cbc_dec tfm iv xs) = length xs.
Proof. revert iv. induction xs as [|x xs IH]; intros iv; [done|]. cbn. by rewrite IH. Qed.

(** The mathematical round trip. *)
Lemma cbc_dec_enc iv xs :
  is_block iv -> Forall is_block xs -> cbc_dec tfm iv (cbc_enc tfm iv xs) = xs.
Proof using Hkey.
  intros Hiv H. revert iv Hiv. induction H as [|x xs Hx Hxs IH]; intros iv Hiv; [done|]. cbn [cbc_enc cbc_dec].
  pose proof (is_block_xorl iv x Hiv Hx) as Hix. rewrite IH by by apply is_block_enc.
  rewrite dec_enc by apply Hix || done. f_equal. apply xorl_cancel. destruct Hiv, Hx. lia.
Qed.

(** The bytes of a list of blocks, from the first one on. *)
Lemma rd_blocks h p x xs :
  is_block x -> Forall is_block xs -> rd h p (zlen (concat (x :: xs))) = Some (concat (x :: xs)) ->
  rd h p bs = Some x /\ rd h (padd p bs) (zlen (concat xs)) = Some (concat xs).
Proof.
  intros [_ Hx] Hxs Hr. pose proof bs_pos. pose proof (zlen_nonneg (concat xs)).
  cbn [concat] in Hr. rewrite zlen_app, Hx in Hr. split.
  - rewrite (rd_prefix _ _ _ _ bs Hr) by lia. f_equal. unfold slice. rewrite drop_0.
    rewrite take_app_le by (unfold zlen in *; lia). apply take_ge. unfold zlen in *. lia.
  - rewrite (rd_sub _ _ _ _ bs (zlen (concat xs)) Hr) by lia. f_equal. unfold slice.
    replace (Z.to_nat bs) with (length x) by (unfold zlen in Hx; lia). rewrite drop_app_length.
    apply take_ge. unfold zlen. lia.
Qed.

(** Space for one more block and the rest. *)
Lemma rd_space h p n y m : rd h p (n + m) = Some y -> 0 <= n -> 0 <= m ->
  (exists a, rd h p n = Some a) /\ (exists b, rd h (padd p n) m = Some b).
Proof.
  intros Hr Hn Hm. split; eexists; [apply (rd_prefix _ _ _ _ n Hr); lia|apply (rd_sub _ _ _ _ n m Hr); lia].
Qed.

Lemma left_over n rem : bs <= n -> 0 <= rem < bs -> n + rem < 2 ^ 32 -> u32 (n + rem - bs) = n - bs + rem.
Proof. intros. pose proof bs_pos. replace (n + rem - bs) with (n - bs + rem) by lia. apply wrap_id. split; lia. Qed.

(** *** ECB *)
Section Ecb.
Context (fn : Ctx -> ptr -> ptr -> C unit) (g : list Z -> list Z).
Context (Hfn : forall (h : mem) dst src x y, is_block x -> rd h src bs = Some x -> rd h dst bs = Some y ->
  fn tfm dst src h = Some (tt, wr h dst (g x))).
Context (Hg : forall x, is_block x -> is_block (g x)).

Lemma ecb_loop xs : forall (h : mem) src dst y f rem,
  xs <> [] -> Forall is_block xs -> rd h src (zlen (concat xs)) = Some (concat xs) ->
  rd h dst (zlen (concat xs)) = Some y ->
  (dst = src \/ disjoint_ptr dst (zlen (concat xs)) src (zlen (concat xs))) ->
  0 <= rem < bs -> zlen (concat xs) + rem < 2 ^ 32 -> (length xs <= f)%nat ->
  while f (fun '(wsrc, wdst, nbytes) =>
    fn tfm wdst wsrc ;;
    let nbytes := u32 (nbytes - bs) in
    ret (if bs <=? nbytes then inl (padd wsrc bs, padd wdst bs, nbytes) else inr nbytes))
    (src, dst, zlen (concat xs) + rem) h = Some (rem, wr h dst (concat (g <$> xs))).
Proof using Hfn Hg.
  pose proof bs_pos. induction xs as [|x xs IH]; intros h src dst y f rem Hne Hbl Hs Hd Hov Hrem Hmax Hf; [done|].
  apply Forall_cons_iff in Hbl as [Hx Hxs]. destruct f as [|f]; [cbn in Hf; lia|].
  destruct (rd_blocks _ _ _ _ Hx Hxs Hs) as [Hs1 Hs2]. pose proof (zlen_nonneg (concat xs)).
  assert (zlen (concat (x :: xs)) = bs + zlen (concat xs)) as Hz by (cbn [concat]; rewrite zlen_app; by destruct Hx as [_ ->]).
  rewrite Hz in *. destruct (rd_space _ _ _ _ _ Hd ltac:(lia) ltac:(lia)) as [[a Ha] [b Hb]].
  destruct (Hg x Hx) as [Gb Gl].
  pose proof (Hfn h dst src x a Hx Hs1 Ha) as Efn.
  rewrite while_S. run Efn. run_ret. rewrite left_over by lia. replace (bs + zlen (concat xs) - bs) with (zlen (concat xs)) by lia.
  destruct xs as [|x' xs'].
  - change (zlen (concat [])) with 0 in *. destruct (bs <=? 0 + rem) eqn:E; b2p; [lia|].
    unfold ret. cbn [fmap list_fmap concat]. by rewrite app_nil_r.
  - set (xs := x' :: xs') in *. assert (bs <= zlen (concat xs)).
    { rewrite zlen_concat by done. unfold xs. cbn [length]. nia. }
    destruct (bs <=? zlen (concat xs) + rem) eqn:E; b2p; [|lia].
    assert (disjoint_ptr dst bs (padd src bs) (zlen (concat xs))) as Hdj.
    { destruct Hov as [->|Hov]; [right; left; cbn; lia|eapply disjoint_sub; [done|lia..]]. }
    rewrite <- Gl in Ha, Hdj at 1.
    destruct (rd_wr_valid h dst bs _ (padd dst bs) (zlen (concat xs)) b (g x) ltac:(rewrite <- Gl; exact Ha) ltac:(lia) Hb)
      as [b' Hb'].
    erewrite (IH (wr h dst (g x)) (padd src bs) (padd dst bs)); [|done|done| |exact Hb'| |done|lia|cbn in *; lia].
    + do 2 f_equal. rewrite fmap_cons. cbn [concat]. rewrite <- Gl at 1. eapply wr_app. rewrite Gl.
      assert (Forall is_block (g <$> xs)) as Hgx by (apply Forall_fmap; exact (List.Forall_impl _ Hg Hxs)).
      rewrite (zlen_concat (g <$> xs)), length_fmap, <- zlen_concat by done. exact Hd.
    + rewrite (rd_wr_ne _ _ _ _ _ _ Ha Hdj). exact Hs2.
    + destruct Hov as [->|Hov]; [by left|right]. unfold disjoint_ptr, padd in *. cbn [fst snd] in *.
      destruct Hov as [|[|]]; [by left|right; left; lia|right; right; lia].
Qed.
End Ecb.

(** *** CBC encryption between two buffers *)
Lemma is_block_last iv cs : is_block iv -> Forall is_block cs -> is_block (last_block iv cs).
Proof.
  intros Hiv H. revert iv Hiv. induction H as [|c cs Hc Hcs IH]; intros iv Hiv; [done|].
  by apply IH.
Qed.

Lemma disjoint_sym p n q m : disjoint_ptr p n q m -> disjoint_ptr q m p n.
Proof. unfold disjoint_ptr. intros [|[|]]; auto. Qed.
Lemma disjoint_part p n q m i k j l :
  disjoint_ptr p n q m -> 0 <= i -> i + k <= n -> 0 <= j -> j + l <= m ->
  disjoint_ptr (padd p i) k (padd q j) l.
Proof.
  unfold disjoint_ptr, padd. cbn [fst snd]. intros [|[|]]; [by left|right; left; lia|right; right; lia].
Qed.
Lemma disjoint_head p n q m k l :
  disjoint_ptr p n q m -> k <= n -> l <= m -> disjoint_ptr p k q l.
Proof. unfold disjoint_ptr. intros [|[|]]; [by left|right; left; lia|right; right; lia]. Qed.

(** A block written somewhere is what is read there. *)
Lemma rd_wr_block h p a x : rd h p bs = Some a -> is_block x -> rd (wr h p x) p bs = Some x.
Proof. intros Hr [_ Hx]. rewrite <- Hx in *. by eapply rd_wr_eq. Qed.
Lemma rd_wr_block_ne h p a x q n :
  rd h p bs = Some a -> is_block x -> disjoint_ptr p bs q n -> rd (wr h p x) q n = rd h q n.
Proof. intros Hr [_ Hx] Hd. rewrite <- Hx in *. by eapply rd_wr_ne. Qed.
Lemma wr_comm_block h p a q b x y n :
  rd h p bs = Some a -> is_block x -> rd h q n = Some b -> zlen y = n -> disjoint_ptr p bs q n ->
  wr (wr h p x) q y = wr (wr h q y) p x.
Proof. intros Hp [_ Hx] Hq <- Hd. rewrite <- Hx in *. by eapply wr_comm. Qed.
Lemma wr_wr_block h p a x y :
  rd h p bs = Some a -> is_block x -> is_block y -> wr (wr h p x) p y = wr h p y.
Proof. intros Hp [_ Hx] [_ Hy]. rewrite <- Hx in Hp. eapply wr_wr; [done|lia]. Qed.
Lemma wr_cons_blocks h p y x xs :
  is_block x -> rd h p (bs + zlen (concat xs)) = Some y ->
  wr (wr h p x) (padd p bs) (concat xs) = wr h p (concat (x :: xs)).
Proof. intros [_ Hx] Hr. rewrite <- Hx in *. by eapply wr_app. Qed.
Lemma zlen_concat_cons x xs : is_block x -> zlen (concat (x :: xs)) = bs + zlen (concat xs).
Proof. intros [_ Hx]. cbn [concat]. rewrite zlen_app. lia. Qed.
Lemma zlen_concat_enc iv xs :
  is_block iv -> Forall is_block xs -> zlen (concat (cbc_enc tfm iv xs)) = zlen (concat xs).
Proof using Hkey. intros. rewrite !zlen_concat by (done || by apply cbc_enc_blocks). by rewrite cbc_enc_length. Qed.
Lemma zlen_concat_dec iv xs :
  is_block iv -> Forall is_block xs -> zlen (concat (cbc_dec tfm iv xs)) = zlen (concat xs).
Proof using Hkey. intros. rewrite !zlen_concat by (done || by apply cbc_dec_blocks). by rewrite cbc_dec_length. Qed.
Lemma zlen_concat_ne xs : Forall is_block xs -> xs <> [] -> bs <= zlen (concat xs).
Proof. intros H Hne. pose proof bs_pos. rewrite zlen_concat by done. destruct xs; [done|]. cbn [length]. nia. Qed.

(** One block. *)
Lemma cbc_enc_step {A} (k : C A) (h : mem) iv src dst ivv x a :
  is_block ivv -> is_block x -> rd h iv bs = Some ivv -> rd h src bs = Some x -> rd h dst bs = Some a ->
  disjoint_ptr iv bs src bs -> disjoint_ptr iv bs dst bs ->
  let c := enc tfm (xorl ivv x) in
  (crypto_xor iv src bs ;; cia_encrypt tfm dst iv ;; memcpy_p iv dst bs ;; k) h = k (wr (wr h dst c) iv c).
Proof using Hkey.
  intros Hiv Hx Hi Hs Hd Dis Did c.
  pose proof (is_block_xorl ivv x Hiv Hx) as Hv. pose proof (is_block_enc _ Hv : is_block c) as Hc.
  pose proof (crypto_xor_spec h iv src bs ivv x Hi Hs (proj1 Hiv) (proj1 Hx) Dis) as E1. run E1.
  set (v := xorl ivv x) in *.
  pose proof (rd_wr_block _ _ _ v Hi Hv) as R1.
  assert (rd (wr h iv v) dst bs = Some a) as R2 by by rewrite (rd_wr_block_ne _ _ _ _ _ _ Hi Hv Did).
  pose proof (encrypt_spec tfm _ dst iv v a Hkey (proj1 Hv) R1 R2) as E2. fold c in E2. run E2.
  pose proof (disjoint_sym _ _ _ _ Did) as Ddi.
  rewrite (wr_comm_block h iv _ dst _ v c bs Hi Hv Hd (proj2 Hc) Did).
  assert (rd (wr h dst c) iv bs = Some ivv) as R3 by by rewrite (rd_wr_block_ne _ _ _ _ _ _ Hd Hc Ddi).
  pose proof (rd_wr_block _ _ _ v R3 Hv) as R4.
  assert (rd (wr (wr h dst c) iv v) dst bs = Some c) as R5.
  { rewrite (rd_wr_block_ne _ _ _ _ _ _ R3 Hv Did). exact (rd_wr_block _ _ _ _ Hd Hc). }
  pose proof (copy_spec _ iv dst bs c v R5 R4 Did) as E3. run E3. by rewrite (wr_wr_block _ _ _ _ _ R3 Hv Hc).
Qed.

Lemma cbc_enc_loop iv xs : forall (h : mem) ivv src dst y f rem,
  xs <> [] -> Forall is_block xs -> is_block ivv -> rd h iv bs = Some ivv ->
  rd h src (zlen (concat xs)) = Some (concat xs) -> rd h dst (zlen (concat xs)) = Some y ->
  disjoint_ptr dst (zlen (concat xs)) src (zlen (concat xs)) ->
  disjoint_ptr iv bs src (zlen (concat xs)) -> disjoint_ptr iv bs dst (zlen (concat xs)) ->
  0 <= rem < bs -> zlen (concat xs) + rem < 2 ^ 32 -> (length xs <= f)%nat ->
  while f (fun '(src, dst, nbytes) =>
    crypto_xor iv src bs ;;
    cia_encrypt tfm dst iv ;;
    memcpy_p iv dst bs ;;
    let nbytes := u32 (nbytes - bs) in
    ret (if bs <=? nbytes then inl (padd src bs, padd dst bs, nbytes) else inr nbytes))
    (src, dst, zlen (concat xs) + rem) h =
  Some (rem, wr (wr h dst (concat (cbc_enc tfm ivv xs))) iv (last_block ivv (cbc_enc tfm ivv xs))).
Proof using Hkey.
  pose proof bs_pos.
  induction xs as [|x xs IH]; intros h ivv src dst y f rem Hne Hbl Hiv Hi Hs Hd Dds Dis Did Hrem Hmax Hf; [done|].
  apply Forall_cons_iff in Hbl as [Hx Hxs]. destruct f as [|f]; [cbn in Hf; lia|].
  destruct (rd_blocks _ _ _ _ Hx Hxs Hs) as [Hs1 Hs2]. pose proof (zlen_nonneg (concat xs)).
  rewrite (zlen_concat_cons x xs Hx) in *. destruct (rd_space _ _ _ _ _ Hd ltac:(lia) ltac:(lia)) as [[a Ha] [b Hb]].
  assert (disjoint_ptr iv bs src bs) as Dis1 by (eapply disjoint_head; [exact Dis|lia..]).
  assert (disjoint_ptr iv bs dst bs) as Did1 by (eapply disjoint_head; [exact Did|lia..]).
  assert (disjoint_ptr iv bs (padd dst bs) (zlen (concat xs))) as Did2 by (eapply disjoint_sub; [exact Did|lia..]).
  pose proof (is_block_enc _ (is_block_xorl ivv x Hiv Hx)) as Hc.
  cbn [cbc_enc last_block]. cbv zeta. set (c := enc tfm (xorl ivv x)) in *.
  rewrite while_S. erewrite bind_cong by exact (cbc_enc_step _ _ _ _ _ _ _ _ Hiv Hx Hi Hs1 Ha Dis1 Did1). fold c. run_ret. rewrite left_over by lia.
  replace (bs + zlen (concat xs) - bs) with (zlen (concat xs)) by lia.
  assert (rd (wr h dst c) iv bs = Some ivv) as Hi1.
  { rewrite (rd_wr_block_ne _ _ _ _ _ _ Ha Hc); [done|]. by apply disjoint_sym. }
  destruct (decide (xs = [])) as [->|Hne'].
  - change (zlen (concat [])) with 0 in *. destruct (bs <=? 0 + rem) eqn:E0; b2p; [lia|].
    unfold ret. cbn [cbc_enc concat]. by rewrite app_nil_r.
  - pose proof (zlen_concat_ne xs Hxs Hne'). destruct (bs <=? zlen (concat xs) + rem) eqn:E0; b2p; [|lia].
    pose proof (zlen_concat_enc c xs Hc Hxs) as Hcz. pose proof (cbc_enc_blocks c xs Hc Hxs) as Hcs.
    assert (rd (wr h dst c) (padd dst bs) (zlen (concat xs)) = Some b) as Hb1.
    { rewrite (rd_wr_block_ne _ _ _ _ _ _ Ha Hc); [done|]. right. left. cbn. lia. }
    erewrite (IH _ c (padd src bs) (padd dst bs)); [|done|done|done| | | | | | |done|lia|cbn in *; lia].
    + do 2 f_equal. rewrite (wr_comm_block _ iv _ (padd dst bs) _ c _ _ Hi1 Hc Hb1 Hcz Did2).
      rewrite (wr_cons_blocks _ _ y) by (done || by rewrite Hcz).
      eapply wr_wr_block; [|done|by apply is_block_last].
      rewrite (rd_wr_ne _ _ _ _ _ y); rewrite ?(zlen_concat_cons _ _ Hc), ?Hcz; [exact Hi|done|by apply disjoint_sym].
    + exact (rd_wr_block _ _ _ _ Hi1 Hc).
    + rewrite (rd_wr_block_ne _ _ _ _ _ _ Hi1 Hc), (rd_wr_block_ne _ _ _ _ _ _ Ha Hc);
        [done|eapply disjoint_sub; [exact Dds|lia..]|eapply disjoint_sub; [exact Dis|lia..]].
    + rewrite (rd_wr_block_ne _ _ _ _ _ _ Hi1 Hc); [exact Hb1|done].
    + eapply disjoint_part; [exact Dds|lia..].
    + eapply disjoint_sub; [exact Dis|lia..].
    + done.
Qed.
(** *** The last block of a text *)
Lemma rd_blocks_last h p iv xs :
  Forall is_block xs -> xs <> [] -> rd h p (zlen (concat xs)) = Some (concat xs) ->
  rd h (padd p (zlen (concat xs) - bs)) bs = Some (last_block iv xs).
Proof.
  intros H. revert p iv. induction H as [|x xs Hx Hxs IH]; intros p iv Hne Hr; [done|].
  destruct (rd_blocks _ _ _ _ Hx Hxs Hr) as [R1 R2]. rewrite (zlen_concat_cons x xs Hx). cbn [last_block].
  destruct (decide (xs = [])) as [->|Hne'].
  - change (zlen (concat [])) with 0. replace (bs + 0 - bs) with 0 by lia. by rewrite padd_0.
  - rewrite <- (IH _ x Hne' R2), padd_padd. do 2 f_equal. lia.
Qed.
Lemma rd_wr_blocks h p y xs :
  rd h p (zlen (concat xs)) = Some y -> rd (wr h p (concat xs)) p (zlen (concat xs)) = Some (concat xs).
Proof. intros. by eapply rd_wr_eq. Qed.

(** *** CBC encryption in place *)
Lemma cbc_enc_inplace_loop xs : forall (h : mem) iv ivv src f rem,
  xs <> [] -> Forall is_block xs -> is_block ivv -> rd h iv bs = Some ivv ->
  rd h src (zlen (concat xs)) = Some (concat xs) -> disjoint_ptr iv bs src (zlen (concat xs)) ->
  0 <= rem < bs -> zlen (concat xs) + rem < 2 ^ 32 -> (length xs <= f)%nat ->
  while f (fun '(src, iv, nbytes) =>
    crypto_xor src iv bs ;;
    cia_encrypt tfm src src ;;
    let iv := src in
    let nbytes := u32 (nbytes - bs) in
    ret (if bs <=? nbytes then inl (padd src bs, iv, nbytes) else inr (iv, nbytes)))
    (src, iv, zlen (concat xs) + rem) h =
  Some ((padd src (zlen (concat xs) - bs), rem), wr h src (concat (cbc_enc tfm ivv xs))).
Proof using Hkey.
  pose proof bs_pos.
  induction xs as [|x xs IH]; intros h iv ivv src f rem Hne Hbl Hiv Hi Hs Dis Hrem Hmax Hf; [done|].
  apply Forall_cons_iff in Hbl as [Hx Hxs]. destruct f as [|f]; [cbn in Hf; lia|].
  destruct (rd_blocks _ _ _ _ Hx Hxs Hs) as [Hs1 Hs2]. pose proof (zlen_nonneg (concat xs)).
  rewrite (zlen_concat_cons x xs Hx) in *.
  assert (disjoint_ptr src bs iv bs) as Dsi by (eapply disjoint_sym, disjoint_head; [exact Dis|lia..]).
  pose proof (is_block_xorl x ivv Hx Hiv) as Hv. pose proof (is_block_enc _ Hv) as Hc.
  pose proof (crypto_xor_spec h src iv bs x ivv Hs1 Hi (proj1 Hx) (proj1 Hiv) Dsi) as E1.
  pose proof (rd_wr_block _ _ _ _ Hs1 Hv) as R1.
  pose proof (encrypt_spec tfm _ src src _ _ Hkey (proj1 Hv) R1 R1) as E2.
  rewrite (wr_wr_block _ _ _ _ _ Hs1 Hv Hc) in E2.
  cbn [cbc_enc]. cbv zeta. rewrite (xorl_comm ivv x) by (destruct Hiv, Hx; lia). set (c := enc tfm (xorl x ivv)) in *.
  rewrite while_S. run E1. run E2. run_ret. rewrite left_over by lia.
  replace (bs + zlen (concat xs) - bs) with (zlen (concat xs)) by lia.
  destruct (decide (xs = [])) as [->|Hne'].
  - change (zlen (concat [])) with 0 in *. destruct (bs <=? 0 + rem) eqn:E0; b2p; [lia|].
    unfold ret. cbn [cbc_enc concat]. by rewrite app_nil_r, padd_0.
  - pose proof (zlen_concat_ne xs Hxs Hne'). destruct (bs <=? zlen (concat xs) + rem) eqn:E0; b2p; [|lia].
    pose proof (zlen_concat_enc c xs Hc Hxs) as Hcz.
    assert (disjoint_ptr src bs (padd src bs) (zlen (concat xs))) as Dss by (right; left; cbn; lia).
    erewrite (IH _ src c (padd src bs)); [|done|done|done| | |done|done|lia|cbn in *; lia].
    + f_equal. f_equal; [rewrite padd_padd; do 2 f_equal; lia|].
      eapply wr_cons_blocks; [done|]. rewrite Hcz. exact Hs.
    + exact (rd_wr_block _ _ _ _ Hs1 Hc).
    + rewrite (rd_wr_block_ne _ _ _ _ _ _ Hs1 Hc); [done|done].
Qed.

(** *** CBC decryption between two buffers *)
Lemma cbc_dec_loop xs : forall (h : mem) iv ivv src dst y f rem,
  xs <> [] -> Forall is_block xs -> is_block ivv -> rd h iv bs = Some ivv ->
  rd h src (zlen (concat xs)) = Some (concat xs) -> rd h dst (zlen (concat xs)) = Some y ->
  disjoint_ptr dst (zlen (concat xs)) src (zlen (concat xs)) -> disjoint_ptr dst (zlen (concat xs)) iv bs ->
  0 <= rem < bs -> zlen (concat xs) + rem < 2 ^ 32 -> (length xs <= f)%nat ->
  while f (fun '(src, dst, iv, nbytes) =>
    cia_decrypt tfm dst src ;;
    crypto_xor dst iv bs ;;
    let iv := src in
    let nbytes := u32 (nbytes - bs) in
    ret (if bs <=? nbytes then inl (padd src bs, padd dst bs, iv, nbytes) else inr (iv, nbytes)))
    (src, dst, iv, zlen (concat xs) + rem) h =
  Some ((padd src (zlen (concat xs) - bs), rem), wr h dst (concat (cbc_dec tfm ivv xs))).
Proof using Hkey.
  pose proof bs_pos.
  induction xs as [|x xs IH]; intros h iv ivv src dst y f rem Hne Hbl Hiv Hi Hs Hd Dds Ddi Hrem Hmax Hf; [done|].
  apply Forall_cons_iff in Hbl as [Hx Hxs]. destruct f as [|f]; [cbn in Hf; lia|].
  destruct (rd_blocks _ _ _ _ Hx Hxs Hs) as [Hs1 Hs2]. pose proof (zlen_nonneg (concat xs)).
  rewrite (zlen_concat_cons x xs Hx) in *. destruct (rd_space _ _ _ _ _ Hd ltac:(lia) ltac:(lia)) as [[a Ha] [b Hb]].
  assert (disjoint_ptr dst bs iv bs) as Ddi1 by (eapply disjoint_head; [exact Ddi|lia..]).
  pose proof (is_block_dec _ Hx) as Hv. pose proof (is_block_xorl _ _ Hv Hiv) as Hp.
  pose proof (decrypt_spec tfm h dst src x a Hkey (proj1 Hx) Hs1 Ha) as E1.
  pose proof (rd_wr_block _ _ _ _ Ha Hv) as R1.
  assert (rd (wr h dst (dec tfm x)) iv bs = Some ivv) as R2 by by rewrite (rd_wr_block_ne _ _ _ _ _ _ Ha Hv Ddi1).
  pose proof (crypto_xor_spec _ dst iv bs _ ivv R1 R2 (proj1 Hv) (proj1 Hiv) Ddi1) as E2.
  rewrite (wr_wr_block _ _ _ _ _ Ha Hv Hp) in E2.
  cbn [cbc_dec]. set (p := xorl (dec tfm x) ivv) in *.
  rewrite while_S. run E1. run E2. run_ret. rewrite left_over by lia.
  replace (bs + zlen (concat xs) - bs) with (zlen (concat xs)) by lia.
  destruct (decide (xs = [])) as [->|Hne'].
  - change (zlen (concat [])) with 0 in *. destruct (bs <=? 0 + rem) eqn:E0; b2p; [lia|].
    unfold ret. cbn [cbc_dec concat]. by rewrite app_nil_r, padd_0.
  - pose proof (zlen_concat_ne xs Hxs Hne'). destruct (bs <=? zlen (concat xs) + rem) eqn:E0; b2p; [|lia].
    erewrite (IH _ src x (padd src bs) (padd dst bs)); [|done|done|done| | | | | |done|lia|cbn in *; lia].
    + f_equal. f_equal; [rewrite padd_padd; do 2 f_equal; lia|].
      eapply wr_cons_blocks; [done|]. rewrite (zlen_concat_dec x xs Hx Hxs). exact Hd.
    + rewrite (rd_wr_block_ne _ _ _ _ _ _ Ha Hp); [done|]. eapply disjoint_head; [exact Dds|lia..].
    + rewrite (rd_wr_block_ne _ _ _ _ _ _ Ha Hp); [done|]. eapply disjoint_sub; [exact Dds|lia..].
    + rewrite (rd_wr_block_ne _ _ _ _ _ _ Ha Hp); [exact Hb|]. right. left. cbn. lia.
    + eapply disjoint_part; [exact Dds|lia..].
    + rewrite <- (padd_0 src). eapply disjoint_part; [exact Dds|lia..].
Qed.
(** *** CBC decryption in place, from the last block backwards *)
(** What the loop leaves: every block but the first is finished. *)
Definition cbc_dec_raw (xs : list (list Z)) : list (list Z) :=
  match xs with [] => [] | x :: xs => dec tfm x :: cbc_dec tfm x xs end.

Lemma cbc_dec_snoc iv xs x : cbc_dec tfm iv (xs ++ [x]) = cbc_dec tfm iv xs ++ [xorl (dec tfm x) (last_block iv xs)].
Proof. revert iv. induction xs as [|x' xs IH]; intros iv; [done|]. cbn. by rewrite IH. Qed.
Lemma cbc_dec_raw_snoc iv xs x :
  xs <> [] -> cbc_dec_raw (xs ++ [x]) = cbc_dec_raw xs ++ [xorl (dec tfm x) (last_block iv xs)].
Proof. destruct xs as [|x' xs]; [done|]. intros _. cbn. by rewrite cbc_dec_snoc. Qed.
Lemma cbc_dec_raw_blocks xs : Forall is_block xs -> Forall is_block (cbc_dec_raw xs).
Proof using Hkey.
  intros [|x xs' Hx Hxs]; [done|]. cbn. apply Forall_cons_2; [by apply is_block_dec|by apply cbc_dec_blocks].
Qed.
Lemma concat_snoc (xs : list (list Z)) x : concat (xs ++ [x]) = concat xs ++ x.
Proof. rewrite concat_app. cbn. by rewrite app_nil_r. Qed.
Lemma rd_split h p x y : rd h p (zlen (x ++ y)) = Some (x ++ y) ->
  rd h p (zlen x) = Some x /\ rd h (padd p (zlen x)) (zlen y) = Some y.
Proof.
  intros Hr. pose proof (zlen_nonneg x). pose proof (zlen_nonneg y). rewrite zlen_app in Hr. split.
  - rewrite (rd_prefix _ _ _ _ (zlen x) Hr) by lia. f_equal. unfold slice, zlen. rewrite drop_0, Nat2Z.id.
    apply take_app_length.
  - rewrite (rd_sub _ _ _ _ (zlen x) (zlen y) Hr) by lia. f_equal. unfold slice, zlen. rewrite !Nat2Z.id.
    rewrite drop_app_length. by apply take_ge.
Qed.

Lemma cbc_dec_inplace_loop xs : forall (h : mem) base f rem,
  xs <> [] -> Forall is_block xs -> rd h base (zlen (concat xs)) = Some (concat xs) ->
  0 <= rem < bs -> zlen (concat xs) + rem < 2 ^ 32 -> (length xs <= f)%nat ->
  while f (fun '(src, nbytes) =>
    cia_decrypt tfm src src ;;
    let nbytes := u32 (nbytes - bs) in
    if nbytes <? bs then ret (inr (src, nbytes)) else
    crypto_xor src (padd src (- bs)) bs ;;
    ret (inl (padd src (- bs), nbytes))) (padd base (zlen (concat xs) - bs), zlen (concat xs) + rem) h =
  Some ((base, rem), wr h base (concat (cbc_dec_raw xs))).
Proof using Hkey.
  pose proof bs_pos.
  induction xs as [|x xs IH] using rev_ind; intros h base f rem Hne Hbl Hs Hrem Hmax Hf; [done|].
  apply Forall_app in Hbl as [Hxs [Hx _]%Forall_cons_iff]. destruct f as [|f]; [rewrite length_app in Hf; cbn in Hf; lia|].
  rewrite concat_snoc in *. destruct (rd_split _ _ _ _ Hs) as [Hs1 Hs2]. pose proof (zlen_nonneg (concat xs)).
  rewrite zlen_app in *. rewrite (proj2 Hx) in *. replace (zlen (concat xs) + bs - bs) with (zlen (concat xs)) by lia.
  pose proof (is_block_dec _ Hx) as Hv.
  set (last := padd base (zlen (concat xs))) in *.
  pose proof (decrypt_spec tfm h last last x x Hkey (proj1 Hx) Hs2 Hs2) as E1.
  rewrite while_S. run E1. rewrite left_over by lia.
  replace (zlen (concat xs) + bs - bs) with (zlen (concat xs)) by lia.
  destruct (decide (xs = [])) as [->|Hne'].
  - subst last. change (zlen (concat [])) with 0 in *. destruct (0 + rem <? bs) eqn:E0; b2p; [|lia].
    unfold ret, bind. cbn [cbc_dec_raw cbc_dec app concat]. by rewrite app_nil_r, padd_0.
  - pose proof (zlen_concat_ne xs Hxs Hne'). destruct (zlen (concat xs) + rem <? bs) eqn:E0; b2p; [lia|].
    pose proof (rd_blocks_last _ _ (dec tfm x) _ Hxs Hne' Hs1) as Hprev.
    set (pv := last_block (dec tfm x) xs) in *.
    assert (is_block pv) as Hpv by by apply is_block_last.
    replace (padd last (- bs)) with (padd base (zlen (concat xs) - bs)) by (unfold last; rewrite padd_padd; f_equal; lia).
    assert (disjoint_ptr last bs (padd base (zlen (concat xs) - bs)) bs) as D1 by (right; right; cbn; lia).
    assert (disjoint_ptr last bs base (zlen (concat xs))) as D2 by (right; right; cbn; lia).
    pose proof (rd_wr_block _ _ _ _ Hs2 Hv) as R1.
    assert (rd (wr h last (dec tfm x)) (padd base (zlen (concat xs) - bs)) bs = Some pv) as R2
      by by rewrite (rd_wr_block_ne _ _ _ _ _ _ Hs2 Hv D1).
    pose proof (is_block_xorl _ _ Hv Hpv) as Hp.
    pose proof (crypto_xor_spec _ last _ bs _ pv R1 R2 (proj1 Hv) (proj1 Hpv) D1) as E2.
    rewrite (wr_wr_block _ _ _ _ _ Hs2 Hv Hp) in E2. run E2. run_ret.
    rewrite (IH _ base); [|done|done| |done|lia|rewrite length_app in Hf; cbn in Hf; lia].
    + do 2 f_equal. pose proof (cbc_dec_raw_blocks xs Hxs) as Hraw.
      assert (zlen (concat (cbc_dec_raw xs)) = zlen (concat xs)) as Hz.
      { rewrite !zlen_concat by done. destruct xs; [done|]. cbn. by rewrite cbc_dec_length. }
      rewrite (wr_comm_block _ last _ base _ _ _ _ Hs2 Hp Hs1 Hz D2).
      rewrite (cbc_dec_raw_snoc (dec tfm x)), concat_snoc by done. unfold last. rewrite <- Hz.
      eapply wr_app. fold pv. rewrite Hz, (proj2 Hp). exact Hs.
    + by rewrite (rd_wr_block_ne _ _ _ _ _ _ Hs2 Hp D2).
Qed.
(** *** The segments *)
Lemma fuel_blocks xs rem : Forall is_block xs -> 0 <= rem -> (length xs <= S (Z.to_nat (zlen (concat xs) + rem)))%nat.
Proof. intros H Hr. pose proof bs_pos. rewrite (zlen_concat xs) by done. nia. Qed.

Lemma cbc_encrypt_segment_spec (h : mem) w xs ivv y rem :
  xs <> [] -> Forall is_block xs -> is_block ivv -> 0 <= rem < bs ->
  w_nbytes w = zlen (concat xs) + rem -> w_nbytes w < 2 ^ 32 -> rd h (w_iv w) bs = Some ivv ->
  rd h (w_src w) (zlen (concat xs)) = Some (concat xs) -> rd h (w_dst w) (zlen (concat xs)) = Some y ->
  disjoint_ptr (w_dst w) (zlen (concat xs)) (w_src w) (zlen (concat xs)) ->
  disjoint_ptr (w_iv w) bs (w_src w) (zlen (concat xs)) -> disjoint_ptr (w_iv w) bs (w_dst w) (zlen (concat xs)) ->
  crypto_cbc_encrypt_segment tfm w h = Some (rem,
    wr (wr h (w_dst w) (concat (cbc_enc tfm ivv xs))) (w_iv w) (last_block ivv (cbc_enc tfm ivv xs))).
Proof using Hkey.
  intros Hne Hbl Hiv Hrem Hn Hmax Hi Hs Hd D1 D2 D3. unfold crypto_cbc_encrypt_segment, fuel. cbv zeta.
  rewrite Hn in *. eapply cbc_enc_loop; try done. apply fuel_blocks; [done|lia].
Qed.

Lemma cbc_encrypt_inplace_spec (h : mem) w xs ivv rem :
  xs <> [] -> Forall is_block xs -> is_block ivv -> 0 <= rem < bs ->
  w_nbytes w = zlen (concat xs) + rem -> w_nbytes w < 2 ^ 32 -> rd h (w_iv w) bs = Some ivv ->
  rd h (w_src w) (zlen (concat xs)) = Some (concat xs) -> disjoint_ptr (w_iv w) bs (w_src w) (zlen (concat xs)) ->
  crypto_cbc_encrypt_inplace tfm w h = Some (rem,
    wr (wr h (w_src w) (concat (cbc_enc tfm ivv xs))) (w_iv w) (last_block ivv (cbc_enc tfm ivv xs))).
Proof using Hkey.
  intros Hne Hbl Hiv Hrem Hn Hmax Hi Hs Dis. unfold crypto_cbc_encrypt_inplace, fuel. rewrite Hn in *.
  pose proof (cbc_enc_blocks ivv xs Hiv Hbl) as Hcs. pose proof (zlen_concat_enc ivv xs Hiv Hbl) as Hcz.
  assert (cbc_enc tfm ivv xs <> []) as Hcne by by destruct xs. pose proof bs_pos. pose proof (zlen_concat_ne xs Hbl Hne).
  pose proof (cbc_enc_inplace_loop xs h (w_iv w) ivv (w_src w) (S (Z.to_nat (zlen (concat xs) + rem))) rem
    Hne Hbl Hiv Hi Hs Dis Hrem Hmax (fuel_blocks xs rem Hbl ltac:(lia))) as E. run E.
  assert (rd h (w_src w) (zlen (concat (cbc_enc tfm ivv xs))) = Some (concat xs)) as Hs' by by rewrite Hcz.
  pose proof (rd_blocks_last _ _ ivv _ Hcs Hcne (rd_wr_blocks _ _ _ _ Hs')) as R1. rewrite Hcz in R1.
  assert (rd (wr h (w_src w) (concat (cbc_enc tfm ivv xs))) (w_iv w) bs = Some ivv) as R2.
  { rewrite (rd_wr_ne _ _ _ _ _ _ Hs'); [done|]. rewrite Hcz. by apply disjoint_sym. }
  assert (disjoint_ptr (w_iv w) bs (padd (w_src w) (zlen (concat xs) - bs)) bs) as D
    by (eapply disjoint_sub; [exact Dis|lia..]).
  pose proof (copy_spec _ _ _ _ _ _ R1 R2 D) as E'. run E'. done.
Qed.

Lemma cbc_decrypt_segment_spec (h : mem) w xs ivv y rem :
  xs <> [] -> Forall is_block xs -> is_block ivv -> 0 <= rem < bs ->
  w_nbytes w = zlen (concat xs) + rem -> w_nbytes w < 2 ^ 32 -> rd h (w_iv w) bs = Some ivv ->
  rd h (w_src w) (zlen (concat xs)) = Some (concat xs) -> rd h (w_dst w) (zlen (concat xs)) = Some y ->
  disjoint_ptr (w_dst w) (zlen (concat xs)) (w_src w) (zlen (concat xs)) ->
  disjoint_ptr (w_iv w) bs (w_src w) (zlen (concat xs)) -> disjoint_ptr (w_iv w) bs (w_dst w) (zlen (concat xs)) ->
  crypto_cbc_decrypt_segment tfm w h = Some (rem,
    wr (wr h (w_dst w) (concat (cbc_dec tfm ivv xs))) (w_iv w) (last_block ivv xs)).
Proof using Hkey.
  intros Hne Hbl Hiv Hrem Hn Hmax Hi Hs Hd D1 D2 D3. unfold crypto_cbc_decrypt_segment, fuel. rewrite Hn in *.
  pose proof bs_pos. pose proof (zlen_concat_ne xs Hbl Hne). pose proof (zlen_concat_dec ivv xs Hiv Hbl) as Hcz.
  pose proof (cbc_dec_loop xs h (w_iv w) ivv (w_src w) (w_dst w) y (S (Z.to_nat (zlen (concat xs) + rem))) rem
    Hne Hbl Hiv Hi Hs Hd D1 (disjoint_sym _ _ _ _ D3) Hrem Hmax (fuel_blocks xs rem Hbl ltac:(lia))) as E. run E.
  rewrite <- Hcz in Hd, D1 at 1. rewrite <- Hcz in D3.
  assert (rd (wr h (w_dst w) (concat (cbc_dec tfm ivv xs))) (w_src w) (zlen (concat xs)) = Some (concat xs)) as R0
    by by rewrite (rd_wr_ne _ _ _ _ _ _ Hd D1).
  pose proof (rd_blocks_last _ _ ivv _ Hbl Hne R0) as R1.
  assert (rd (wr h (w_dst w) (concat (cbc_dec tfm ivv xs))) (w_iv w) bs = Some ivv) as R2
    by by rewrite (rd_wr_ne _ _ _ _ _ _ Hd (disjoint_sym _ _ _ _ D3)).
  assert (disjoint_ptr (w_iv w) bs (padd (w_src w) (zlen (concat xs) - bs)) bs) as D
    by (eapply disjoint_sub; [exact D2|lia..]).
  pose proof (copy_spec _ _ _ _ _ _ R1 R2 D) as E'. run E'. done.
Qed.
Lemma land_rem xs rem :
  Forall is_block xs -> 0 <= rem < bs -> Z.land (zlen (concat xs) + rem) (bs - 1) = rem.
Proof.
  intros Hbl Hrem. rewrite zlen_concat by done. destruct (@blocksize_pow2 _ cipher) as (k & Hk & Hb). rewrite Hb in *.
  replace (2 ^ k - 1) with (Z.ones k) by (rewrite Z.ones_equiv; lia). rewrite Z.land_ones by lia.
  rewrite Z.add_comm, Z_mod_plus_full. apply Z.mod_small. lia.
Qed.

(** Finishing the first block. *)
Definition first_block (xs : list (list Z)) : list Z := match xs with [] => [] | x :: _ => x end.
Lemma cbc_dec_finish h p ivv xs y :
  xs <> [] -> Forall is_block xs -> is_block ivv -> rd h p (zlen (concat xs)) = Some y ->
  wr (wr h p (concat (cbc_dec_raw xs))) p (xorl (dec tfm (first_block xs)) ivv) =
  wr h p (concat (cbc_dec tfm ivv xs)).
Proof using Hkey.
  destruct xs as [|x xs]; [done|]. intros _ [Hx Hxs]%Forall_cons_iff Hiv Hr. cbn [first_block cbc_dec_raw cbc_dec].
  rewrite (zlen_concat_cons x xs Hx) in Hr. pose proof bs_pos. pose proof (zlen_nonneg (concat xs)).
  pose proof (zlen_concat_dec x xs Hx Hxs) as Hz. rewrite <- Hz in Hr.
  pose proof (is_block_dec x Hx) as Hv. pose proof (is_block_xorl _ _ Hv Hiv) as Hp.
  rewrite <- (wr_cons_blocks _ _ _ _ _ Hv Hr), <- (wr_cons_blocks _ _ _ _ _ Hp Hr).
  destruct (rd_space _ _ _ _ _ Hr ltac:(lia) ltac:(lia)) as [[a Ha] [b Hb]].
  assert (disjoint_ptr p bs (padd p bs) (zlen (concat (cbc_dec tfm x xs)))) as D by (right; left; cbn; lia).
  assert (rd (wr h p (dec tfm x)) (padd p bs) (zlen (concat (cbc_dec tfm x xs))) = Some b) as Hb'
    by by rewrite (rd_wr_block_ne _ _ _ _ _ _ Ha Hv D).
  pose proof (rd_wr_block _ _ _ _ Ha Hv) as R.
  rewrite <- (wr_comm_block _ p _ (padd p bs) _ _ _ _ R Hp Hb' eq_refl D). f_equal.
  exact (wr_wr_block _ _ _ _ _ Ha Hv Hp).
Qed.
Lemma rd_first_raw h p ivv xs y :
  xs <> [] -> Forall is_block xs -> is_block ivv -> rd h p (zlen (concat xs)) = Some y ->
  rd (wr h p (concat (cbc_dec_raw xs))) p bs = Some (dec tfm (first_block xs)).
Proof using Hkey.
  destruct xs as [|x xs]; [done|]. intros _ [Hx Hxs]%Forall_cons_iff Hiv Hr. cbn [first_block cbc_dec_raw].
  pose proof (is_block_dec x Hx) as Hv. pose proof (zlen_concat_dec x xs Hx Hxs) as Hz.
  assert (rd h p (zlen (concat (dec tfm x :: cbc_dec tfm x xs))) = Some y) as Hr'.
  { rewrite (zlen_concat_cons _ _ Hv), Hz, <- (zlen_concat_cons x xs Hx). exact Hr. }
  by destruct (rd_blocks _ _ _ _ Hv (cbc_dec_blocks _ _ Hx Hxs) (rd_wr_blocks _ _ _ _ Hr')).
Qed.

Lemma cbc_decrypt_inplace_spec (h : mem) last_iv l w xs ivv rem :
  xs <> [] -> Forall is_block xs -> is_block ivv -> 0 <= rem < bs ->
  w_nbytes w = zlen (concat xs) + rem -> w_nbytes w < 2 ^ 32 -> rd h (w_iv w) bs = Some ivv ->
  rd h (w_src w) (zlen (concat xs)) = Some (concat xs) -> disjoint_ptr (w_iv w) bs (w_src w) (zlen (concat xs)) ->
  rd h (last_iv, 0) bs = Some l -> last_iv <> (w_src w).1 -> last_iv <> (w_iv w).1 ->
  crypto_cbc_decrypt_inplace tfm last_iv w h = Some (rem,
    wr (wr (wr h (last_iv, 0) (last_block ivv xs)) (w_src w) (concat (cbc_dec tfm ivv xs)))
      (w_iv w) (last_block ivv xs)).
Proof using Hkey.
  intros Hne Hbl Hiv Hrem Hn Hmax Hi Hs Dis Hl Nls Nli. unfold crypto_cbc_decrypt_inplace, fuel. cbv zeta. rewrite Hn in *.
  pose proof bs_pos. pose proof (zlen_concat_ne xs Hbl Hne). rewrite land_rem by done.
  replace (zlen (concat xs) + rem - rem - bs) with (zlen (concat xs) - bs) by lia.
  pose proof (is_block_last _ _ Hiv Hbl) as Hlast. set (lb := last_block ivv xs) in *.
  assert (forall q n, (last_iv <> q.1) -> disjoint_ptr (last_iv, 0) bs q n) as Dl by by left.
  pose proof (copy_spec _ _ _ _ _ _ (rd_blocks_last _ _ ivv _ Hbl Hne Hs) Hl (Dl (padd _ _) _ Nls)) as E1. run E1. fold lb.
  set (h1 := wr h (last_iv, 0) lb).
  assert (forall q n, last_iv <> q.1 -> rd h1 q n = rd h q n) as F1
    by (intros; apply (rd_wr_block_ne _ _ _ _ _ _ Hl Hlast); auto).
  assert (rd h1 (last_iv, 0) bs = Some lb) as R1 by exact (rd_wr_block _ _ _ _ Hl Hlast).
  rewrite <- F1 in Hs, Hi by done.
  pose proof (cbc_dec_inplace_loop xs h1 (w_src w) (S (Z.to_nat (zlen (concat xs) + rem))) rem
    Hne Hbl Hs Hrem Hmax (fuel_blocks xs rem Hbl ltac:(lia))) as E2. run E2.
  pose proof (cbc_dec_raw_blocks xs Hbl) as Hraw.
  assert (zlen (concat (cbc_dec_raw xs)) = zlen (concat xs)) as Hz.
  { rewrite !zlen_concat by done. destruct xs; [done|]. cbn. by rewrite cbc_dec_length. }
  set (h2 := wr h1 (w_src w) (concat (cbc_dec_raw xs))).
  assert (forall q n, disjoint_ptr (w_src w) (zlen (concat xs)) q n -> rd h2 q n = rd h1 q n) as F2.
  { intros q n D. eapply rd_wr_ne; [rewrite Hz; exact Hs|by rewrite Hz]. }
  pose proof (rd_first_raw _ _ ivv _ _ Hne Hbl Hiv Hs) as R2. fold h2 in R2.
  assert (is_block (dec tfm (first_block xs))) as Hf.
  { apply is_block_dec. destruct Hbl; [done|]. by cbn. }
  assert (rd h2 (w_iv w) bs = Some ivv) as R3 by (rewrite F2; [done|by apply disjoint_sym]).
  assert (disjoint_ptr (w_src w) bs (w_iv w) bs) as Dsi by (eapply disjoint_sym, disjoint_head; [exact Dis|lia..]).
  pose proof (crypto_xor_spec _ _ _ _ _ _ R2 R3 (proj1 Hf) (proj1 Hiv) Dsi) as E3. run E3. unfold h2.
  rewrite (cbc_dec_finish _ _ _ _ _ Hne Hbl Hiv Hs).
  pose proof (zlen_concat_dec ivv xs Hiv Hbl) as Hz'.
  set (h3 := wr h1 (w_src w) (concat (cbc_dec tfm ivv xs))).
  assert (forall q n, disjoint_ptr (w_src w) (zlen (concat xs)) q n -> rd h3 q n = rd h1 q n) as F3.
  { intros q n D. eapply rd_wr_ne; [rewrite Hz'; exact Hs|by rewrite Hz']. }
  assert (rd h3 (last_iv, 0) bs = Some lb) as R4 by (rewrite F3; [done|left; cbn; congruence]).
  assert (rd h3 (w_iv w) bs = Some ivv) as R5 by (rewrite F3; [done|by apply disjoint_sym]).
  assert (disjoint_ptr (w_iv w) bs (last_iv, 0) bs) as Dil by (left; cbn; congruence).
  pose proof (copy_spec _ _ _ _ _ _ R4 R5 Dil) as E4. run E4. done.
Qed.
(** Chunks chain: the chaining value left by one is what the next needs. *)
Lemma cbc_enc_app iv xs ys :
  cbc_enc tfm iv (xs ++ ys) = cbc_enc tfm iv xs ++ cbc_enc tfm (last_block iv (cbc_enc tfm iv xs)) ys.
Proof. revert iv. induction xs as [|x xs IH]; intros iv; [done|]. cbn. by rewrite IH. Qed.
Lemma cbc_dec_app iv xs ys :
  cbc_dec tfm iv (xs ++ ys) = cbc_dec tfm iv xs ++ cbc_dec tfm (last_block iv xs) ys.
Proof. revert iv. induction xs as [|x xs IH]; intros iv; [done|]. cbn. by rewrite IH. Qed.
Lemma ecb_dec_enc xs : Forall is_block xs -> dec tfm <$> (enc tfm <$> xs) = xs.
Proof using Hkey.
  induction 1 as [|x xs [Hx Hl] Hxs IH]; [done|]. rewrite !fmap_cons, IH. by rewrite dec_enc.
Qed.
End Loops.

(** ** The theorems *)
(** The walk [w] holds the blocks [xs] and [rem] bytes that do not fill a block;
    source and destination are the same or apart, and the chaining value [ivv]
    lies outside both. *)
Definition walk_ok `{BlockCipher Ctx} (h : mem) (w : walk) (xs : list (list Z)) (ivv : list Z) (rem : Z) : Prop :=
  xs <> [] /\ Forall is_block xs /\ is_block ivv /\ 0 <= rem < cra_blocksize /\
  w_nbytes w = zlen (concat xs) + rem /\ w_nbytes w < 2 ^ 32 /\
  rd h (w_iv w) cra_blocksize = Some ivv /\
  rd h (w_src w) (zlen (concat xs)) = Some (concat xs) /\
  (exists y, rd h (w_dst w) (zlen (concat xs)) = Some y) /\
  (w_src w = w_dst w \/ disjoint_ptr (w_dst w) (zlen (concat xs)) (w_src w) (zlen (concat xs))) /\
  disjoint_ptr (w_iv w) cra_blocksize (w_src w) (zlen (concat xs)) /\
  disjoint_ptr (w_iv w) cra_blocksize (w_dst w) (zlen (concat xs)).

(** C32. A chunk of [crypto_cbc_encrypt] and of [crypto_cbc_decrypt] computes
    cipher block chaining of its whole blocks, in place (where decryption runs
    backwards and saves the last block) and between two buffers alike; it
    leaves the chaining value for the next chunk in [walk->iv], returns the
    number of bytes that do not fill a block, and changes nothing else.
    Chained chunks compute the mode of the whole text, and decryption inverts
    encryption. *)
Theorem cbc_correct {Ctx} {cipher : BlockCipher Ctx} tfm (h : mem) last_iv l w xs ivv rem :
  key_ok tfm -> walk_ok h w xs ivv rem ->
  rd h (last_iv, 0) cra_blocksize = Some l -> last_iv <> (w_src w).1 -> last_iv <> (w_iv w).1 ->
  last_iv <> (w_dst w).1 ->
  crypto_cbc_encrypt_chunk tfm w h = Some (rem,
    wr (wr h (w_dst w) (concat (cbc_enc tfm ivv xs))) (w_iv w) (last_block ivv (cbc_enc tfm ivv xs))) /\
  (exists l', crypto_cbc_decrypt_chunk tfm last_iv w h = Some (rem,
    wr (wr (wr h (last_iv, 0) l') (w_dst w) (concat (cbc_dec tfm ivv xs))) (w_iv w) (last_block ivv xs))) /\
  (forall ys, cbc_enc tfm ivv (xs ++ ys) =
    cbc_enc tfm ivv xs ++ cbc_enc tfm (last_block ivv (cbc_enc tfm ivv xs)) ys) /\
  (forall ys, cbc_dec tfm ivv (xs ++ ys) = cbc_dec tfm ivv xs ++ cbc_dec tfm (last_block ivv xs) ys) /\
  cbc_dec tfm ivv (cbc_enc tfm ivv xs) = xs.
Proof.
  intros Hk (Hne & Hbl & Hiv & Hrem & Hn & Hmax & Hi & Hs & [y Hd] & Hov & Dis & Did) Hl N1 N2 N3.
  split; [|split; [|split; [|split]]].
  - unfold crypto_cbc_encrypt_chunk. case_decide as E.
    + rewrite <- E. by apply cbc_encrypt_inplace_spec.
    + destruct Hov as [|Hov]; [done|]. by eapply cbc_encrypt_segment_spec.
  - unfold crypto_cbc_decrypt_chunk. case_decide as E.
    + rewrite <- E. eexists. by eapply cbc_decrypt_inplace_spec.
    + destruct Hov as [|Hov]; [done|]. exists l. rewrite (wr_id _ _ _ _ Hl). by eapply cbc_decrypt_segment_spec.
  - intros ys. apply cbc_enc_app.
  - intros ys. apply cbc_dec_app.
  - by apply cbc_dec_enc.
Qed.

(** The inner loop of [crypto_ecb_crypt] transforms each whole block of the
    chunk by itself, in place or between two buffers, and returns the number
    of bytes left; decryption restores what encryption transformed. *)
Theorem ecb_correct {Ctx} {cipher : BlockCipher Ctx} tfm (h : mem) w xs ivv rem :
  key_ok tfm -> walk_ok h w xs ivv rem ->
  crypto_ecb_crypt_segment tfm cia_encrypt w h = Some (rem, wr h (w_dst w) (concat (enc tfm <$> xs))) /\
  crypto_ecb_crypt_segment tfm cia_decrypt w h = Some (rem, wr h (w_dst w) (concat (dec tfm <$> xs))) /\
  dec tfm <$> (enc tfm <$> xs) = xs.
Proof.
  intros Hk (Hne & Hbl & Hiv & Hrem & Hn & Hmax & Hi & Hs & [y Hd] & Hov & _ & _).
  unfold crypto_ecb_crypt_segment, fuel. rewrite Hn in *.
  assert (w_dst w = w_src w \/ disjoint_ptr (w_dst w) (zlen (concat xs)) (w_src w) (zlen (concat xs))) as Hov'
    by (destruct Hov; auto).
  pose proof (fuel_blocks xs rem Hbl ltac:(lia)). split; [|split].
  - eapply ecb_loop; try done; [|intros; by apply is_block_enc].
    intros h' dst src x y' [Hx _] ? ?. by eapply encrypt_spec.
  - eapply ecb_loop; try done; [|intros; by apply is_block_dec].
    intros h' dst src x y' [Hx _] ? ?. by eapply decrypt_spec.
  - by apply ecb_dec_enc.
Qed.

(** Two blocks and three bytes, encrypted with TEA in place and to another buffer. *)
Definition tea_key : tea_ctx := TeaCtx [10; 20; 30; 40].
Definition wit_blocks : list (list Z) := [[1; 2; 3; 4; 5; 6; 7; 8]; [9; 10; 11; 12; 13; 14; 15; 16]].
Definition wit_mem : mem :=
  {[1%positive := concat wit_blocks ++ [7; 7; 7]; 2%positive := replicate 20 0;
    3%positive := [255; 0; 255; 0; 255; 0; 255; 0]; 4%positive := replicate 8 0]}.
Definition wit_walk (dst : block) : walk := Walk (1%positive, 0) (dst, 0) (3%positive, 0) 19.

Lemma wit_walk_ok dst :
  dst = 1%positive \/ dst = 2%positive ->
  @walk_ok _ tea_cipher wit_mem (wit_walk dst) wit_blocks [255; 0; 255; 0; 255; 0; 255; 0] 3.
Proof.
  assert (forall l : list Z, forallb (fun x => (0 <=? x) && (x <? 256)) l = true -> bytes l) as Hb.
  { intros l. rewrite forallb_forall. intros H. apply Forall_forall. intros x Hx. apply H in Hx. b2p.
    unfold uint. pow2. lia. }
  intros Hdst. unfold walk_ok. repeat split; try done; try (by apply Hb); try (by left).
  - by repeat (apply Forall_cons_2; [split; [by apply Hb|done]|]).
  - destruct Hdst as [-> | ->]; by eexists.
  - destruct Hdst as [-> | ->]; [by left|right; by left].
  - destruct Hdst as [-> | ->]; by left.
Qed.

Lemma cbc_correct_witness :
  exists h', @crypto_cbc_encrypt_chunk _ tea_cipher tea_key (wit_walk 1%positive) wit_mem = Some (3, h') /\
    @cbc_dec _ tea_cipher tea_key [255; 0; 255; 0; 255; 0; 255; 0]
      (@cbc_enc _ tea_cipher tea_key [255; 0; 255; 0; 255; 0; 255; 0] wit_blocks) = wit_blocks.
Proof.
  destruct (@cbc_correct _ tea_cipher tea_key wit_mem 4%positive (replicate 8 0) (wit_walk 1%positive) wit_blocks
    [255; 0; 255; 0; 255; 0; 255; 0] 3) as (H1 & _ & _ & _ & H2);
    [exact I|apply wit_walk_ok; by left|reflexivity|discriminate..|].
  eexists. split; [exact H1|exact H2].
Defined.

Lemma ecb_correct_witness :
  exists h', @crypto_ecb_crypt_segment _ tea_cipher tea_key tea_encrypt (wit_walk 2%positive) wit_mem = Some (3, h').
Proof.
  destruct (@ecb_correct _ tea_cipher tea_key wit_mem (wit_walk 2%positive) wit_blocks
    [255; 0; 255; 0; 255; 0; 255; 0] 3) as (H1 & _);
    [exact I|apply wit_walk_ok; by right|].
  eexists. exact H1.
Defined.
