(* ===== verification/RbTree.v ===== *)
(** * Red-black trees

    [lib/rbtree.c] and [include/linux/rbtree.h] on a heap of nodes: addresses
    are word-aligned 32-bit integers, and a node packs its parent's address and
    its colour in one word, as in the source.  The two mirrored halves of each
    routine are one definition with the side as an argument.

    The theorems relate the heap to a tree: insertion and removal keep the
    order of the nodes and restore the red-black invariant, and the traversal
    functions follow the order. *)

From Stdlib Require Import ZArith Lia.
From stdpp Require Import base tactics numbers list gmap option.
From S2P Require Import Prelude.

(** ** Nodes and the heap *)
Record rb_node := RbNode { rb_parent_color : Z; rb_right : Z; rb_left : Z }.
Record rb_state := RbState { nodes : gmap Z rb_node; root : Z }.
Abbreviation RB := (ST rb_state).

Definition RB_RED : Z := 0.
Definition RB_BLACK : Z := 1.

Definition rb_parent (r : rb_node) : Z := Z.land (rb_parent_color r) (not32 3).
Definition rb_color (r : rb_node) : Z := Z.land (rb_parent_color r) 1.
Definition rb_is_red (r : rb_node) : bool := rb_color r =? 0.
Definition rb_is_black (r : rb_node) : bool := negb (rb_color r =? 0).

(** Left and right. *)
Inductive side := L | R.
Definition opp (d : side) : side := match d with L => R | R => L end.
Definition child (d : side) (n : rb_node) : Z := match d with L => rb_left n | R => rb_right n end.

(** Dereferencing an address that is not a node's is a fault. *)
Definition getn (a : Z) : RB rb_node := fun s =>
  match nodes s !! a with Some n => Some (n, s) | None => None end.
Definition modn (a : Z) (f : rb_node -> rb_node) : RB unit := fun s =>
  match nodes s !! a with Some n => Some (tt, RbState (<[a := f n]> (nodes s)) (root s)) | None => None end.
Definition get_root : RB Z := fun s => Some (root s, s).
Definition set_root (a : Z) : RB unit := fun s => Some (tt, RbState (nodes s) a).

Definition set_child (a : Z) (d : side) (v : Z) : RB unit := modn a (fun n =>
  match d with
  | L => RbNode (rb_parent_color n) (rb_right n) v
  | R => RbNode (rb_parent_color n) v (rb_left n)
  end).
Definition set_pc (f : Z -> Z) (n : rb_node) : rb_node := RbNode (f (rb_parent_color n)) (rb_right n) (rb_left n).
Definition rb_set_red (a : Z) : RB unit := modn a (set_pc (fun pc => Z.land pc (not32 1))).
Definition rb_set_black (a : Z) : RB unit := modn a (set_pc (fun pc => Z.lor pc 1)).
Definition rb_set_parent (a p : Z) : RB unit := modn a (set_pc (fun pc => Z.lor (Z.land pc 3) p)).
Definition rb_set_color (a color : Z) : RB unit := modn a (set_pc (fun pc => Z.lor (Z.land pc (not32 1)) color)).

(** [a && rb_is_red(a)] and [!a || rb_is_black(a)] *)
Definition is_red_at (a : Z) : RB bool :=
  if a =? 0 then ret false else let* n := getn a in ret (rb_is_red n).
Definition is_black_at (a : Z) : RB bool :=
  if a =? 0 then ret true else let* n := getn a in ret (rb_is_black n).
Definition when (b : bool) (m : RB unit) : RB unit := if b then m else ret tt.

(** A loop up or down the tree takes at most one round per node and two more. *)
Definition on_path {X A} (body : X -> RB (X + A)) (x : X) : RB A := fun s =>
  while (2 + size (nodes s)) body x s.

(** Make the parent of [old], or the root, point to [new] instead; the child on
    side [e] is tested first. *)
Definition relink (e : side) (parent old new : Z) : RB unit :=
  if negb (parent =? 0) then
    let* p := getn parent in
    if old =? child e p then set_child parent e new else set_child parent (opp e) new
  else set_root new.

(** ** Rotations: [__rb_rotate_left] is [rotate L], [__rb_rotate_right] is [rotate R] *)
Definition rotate (d : side) (node : Z) : RB unit :=
  let* n := getn node in
  let right := child (opp d) n in
  let parent := rb_parent n in
  let* r := getn right in
  set_child node (opp d) (child d r) ;;
  when (negb (child d r =? 0)) (rb_set_parent (child d r) node) ;;
  set_child right d node ;;
  rb_set_parent right parent ;;
  relink d parent node right ;;
  rb_set_parent node right.
Definition __rb_rotate_left : Z -> RB unit := rotate L.
Definition __rb_rotate_right : Z -> RB unit := rotate R.

(** ** Insertion *)
(** [rb_link_node]: [link] is the child slot of [parent], or the root. *)
Definition rb_link_node (node parent : Z) (link : option side) : RB unit :=
  modn node (fun _ => RbNode parent 0 0) ;;
  match link with Some d => set_child parent d node | None => set_root node end.

(** The body of the loop when [parent] is the child of [gparent] on side [d]. *)
Definition insert_fix (d : side) (node parent gparent : Z) : RB (Z + unit) :=
  let* g := getn gparent in
  let uncle := child (opp d) g in
  let* red := is_red_at uncle in
  if red then
    rb_set_black uncle ;;
    rb_set_black parent ;;
    rb_set_red gparent ;;
    ret (inl gparent)
  else
    let* p := getn parent in
    let* '(parent, node) :=
      (if child (opp d) p =? node then rotate d parent ;; ret (node, parent)
       else ret (parent, node)) in
    rb_set_black parent ;;
    rb_set_red gparent ;;
    rotate (opp d) gparent ;;
    ret (inl node).

Definition insert_round (node : Z) : RB (Z + unit) :=
  let* n := getn node in
  let parent := rb_parent n in
  let* red := is_red_at parent in
  if red then
    let* p := getn parent in
    let gparent := rb_parent p in
    let* g := getn gparent in
    insert_fix (if parent =? rb_left g then L else R) node parent gparent
  else ret (inr tt).

Definition rb_insert_color (node : Z) : RB unit :=
  on_path insert_round node ;;
  let* r := get_root in
  rb_set_black r.

(** ** Removal *)
(** The body of the loop of [__rb_erase_color] when [node] is the child of
    [parent] on side [d].  The loop variables are [node] and [parent], and
    leaving the loop gives [node].  The last rotation: *)
Definition erase_rotate (d : side) (parent other : Z) : RB (Z * Z + Z) :=
  let* p := getn parent in
  rb_set_color other (rb_color p) ;;
  rb_set_black parent ;;
  let* o := getn other in
  when (negb (child (opp d) o =? 0)) (rb_set_black (child (opp d) o)) ;;
  rotate d parent ;;
  let* r := get_root in
  ret (inr r).

(** [other], the sibling, is black: *)
Definition erase_black (d : side) (parent other : Z) : RB (Z * Z + Z) :=
  let* o := getn other in
  let* both :=
    (let* bl := is_black_at (rb_left o) in
     if bl then is_black_at (rb_right o) else ret false) in
  if both then
    rb_set_red other ;;
    let* p := getn parent in
    ret (inl (parent, rb_parent p))
  else
    let* far_black := is_black_at (child (opp d) o) in
    let* other :=
      (if far_black then
         let near := child d o in
         when (negb (near =? 0)) (rb_set_black near) ;;
         rb_set_red other ;;
         rotate (opp d) other ;;
         let* p := getn parent in
         ret (child (opp d) p)
       else ret other) in
    erase_rotate d parent other.

Definition erase_fix (d : side) (parent : Z) : RB (Z * Z + Z) :=
  let* p := getn parent in
  let other := child (opp d) p in
  let* o := getn other in
  let* other :=
    (if rb_is_red o then
       rb_set_black other ;;
       rb_set_red parent ;;
       rotate d parent ;;
       let* p := getn parent in
       ret (child (opp d) p)
     else ret other) in
  erase_black d parent other.

Definition erase_round : Z * Z -> RB (Z * Z + Z) := fun '(node, parent) =>
  let* black := is_black_at node in
  let* r := get_root in
  if black && negb (node =? r) then
    let* p := getn parent in
    erase_fix (if rb_left p =? node then L else R) parent
  else ret (inr node).

Definition __rb_erase_color (node parent : Z) : RB unit :=
  let* node := on_path erase_round (node, parent) in
  when (negb (node =? 0)) (rb_set_black node).

(** Going to the end of the tree on side [d]. *)
Definition down_round (d : side) (node : Z) : RB (Z + Z) :=
  let* n := getn node in
  ret (if negb (child d n =? 0) then inl (child d n) else inr node).
Definition walk_down (d : side) (node : Z) : RB Z := on_path (down_round d) node.

Definition rb_erase (node : Z) : RB unit :=
  let* n := getn node in
  let* '(child, parent, color) :=
    (if negb (rb_left n =? 0) && negb (rb_right n =? 0) then
       let old := node in
       let* node := walk_down L (rb_right n) in
       let* s := getn node in
       let child := rb_right s in
       let parent := rb_parent s in
       let color := rb_color s in
       when (negb (child =? 0)) (rb_set_parent child parent) ;;
       let* parent :=
         (if parent =? old then set_child parent R child ;; ret node
          else set_child parent L child ;; ret parent) in
       let* o := getn old in
       modn node (fun _ => o) ;;
       relink L (rb_parent o) old node ;;
       rb_set_parent (rb_left o) node ;;
       when (negb (rb_right o =? 0)) (rb_set_parent (rb_right o) node) ;;
       ret (child, parent, color)
     else
       let child := if rb_left n =? 0 then rb_right n else rb_left n in
       let parent := rb_parent n in
       let color := rb_color n in
       when (negb (child =? 0)) (rb_set_parent child parent) ;;
       relink L parent node child ;;
       ret (child, parent, color)) in
  when (color =? RB_BLACK) (__rb_erase_color child parent).

(** ** Traversal: [rb_first] and [rb_prev] are the mirror images of [rb_last] and [rb_next] *)
Definition rb_end (d : side) : RB Z :=
  let* n := get_root in
  if n =? 0 then ret 0 else walk_down d n.
Definition rb_first : RB Z := rb_end L.
Definition rb_last : RB Z := rb_end R.

(** Going up from a node that has nothing on side [d]. *)
Definition up_round (d : side) (node : Z) : RB (Z + Z) :=
  let* n := getn node in
  let parent := rb_parent n in
  if parent =? 0 then ret (inr parent) else
  let* p := getn parent in
  ret (if node =? child d p then inl parent else inr parent).

(** The neighbour on side [d]: down and back, or up to the first ancestor on that side. *)
Definition rb_step (d : side) (node : Z) : RB Z :=
  let* n := getn node in
  if rb_parent n =? node then ret 0 else
  if negb (child d n =? 0) then walk_down (opp d) (child d n) else
  on_path (up_round d) node.
Definition rb_next : Z -> RB Z := rb_step R.
Definition rb_prev : Z -> RB Z := rb_step L.

Definition rb_replace_node (victim new : Z) : RB unit :=
  let* v := getn victim in
  relink L (rb_parent v) victim new ;;
  let* v := getn victim in
  when (negb (rb_left v =? 0)) (rb_set_parent (rb_left v) new) ;;
  let* v := getn victim in
  when (negb (rb_right v =? 0)) (rb_set_parent (rb_right v) new) ;;
  let* v := getn victim in
  modn new (fun _ => v).

(** ** Trees and contexts *)
Inductive color := Red | Black.
Inductive tree := E | T (c : color) (l : tree) (x : Z) (r : tree).

#[global] Instance side_dec : EqDecision side.
Proof. solve_decision. Defined.
#[global] Instance color_dec : EqDecision color.
Proof. solve_decision. Defined.

#[global] Instance tree_dec : EqDecision tree.
Proof. solve_decision. Defined.

Definition colz (c : color) : Z := match c with Red => RB_RED | Black => RB_BLACK end.
Definition is_black (c : color) : bool := match c with Red => false | Black => true end.
Definition rootloc (t : tree) : Z := match t with E => 0 | T _ _ x _ => x end.
Fixpoint inorder (t : tree) : list Z :=
  match t with E => [] | T _ l x r => inorder l ++ x :: inorder r end.

(** A node whose child on side [d] is [t] and whose other child is [u]. *)
Definition mk (d : side) (c : color) (t : tree) (x : Z) (u : tree) : tree :=
  match d with L => T c t x u | R => T c u x t end.
Record frame := Frame { f_side : side; f_color : color; f_loc : Z; f_other : tree }.
(** A context, the innermost node first. *)
Fixpoint plug (k : list frame) (t : tree) : tree :=
  match k with [] => t | Frame d c x u :: k => plug k (mk d c t x u) end.
Definition up (k : list frame) : Z := match k with [] => 0 | f :: _ => f_loc f end.

(** ** Addresses and the packed word *)
Definition aligned (p : Z) : Prop := uint 32 p /\ Z.land p 3 = 0.
Definition valid (p : Z) : Prop := aligned p /\ p <> 0.
Definition pack (p : Z) (c : color) : Z := Z.lor p (colz c).

Lemma testbit_3 i : 0 <= i -> Z.testbit 3 i = (i <? 2).
Proof. intros Hi. change 3 with (Z.ones 2). rewrite Z.testbit_ones by lia. rewrite (proj2 (Z.leb_le 0 i) Hi). done. Qed.
Lemma testbit_low i : 0 <= i -> Z.testbit 1 i = (i =? 0).
Proof. intros Hi. destruct (Z.eqb_spec i 0) as [->|]; [done|]. apply Z.bits_above_log2; cbn; lia. Qed.
Lemma testbit_aligned p i : aligned p -> 0 <= i -> i < 2 \/ 32 <= i -> Z.testbit p i = false.
Proof.
  intros [Hp H3] Hi [Hlt|Hge]; [|by apply (testbit_above 32); [|exact Hp|]].
  assert (Z.testbit (Z.land p 3) i = false) as Hb by (rewrite H3; apply Z.bits_0).
  rewrite Z.land_spec, testbit_3 in Hb by lia. rewrite (proj2 (Z.ltb_lt i 2) Hlt), andb_true_r in Hb. done.
Qed.
Lemma testbit_colz c i : 0 <= i -> Z.testbit (colz c) i = (i =? 0) && is_black c.
Proof. intros Hi. destruct c; cbn [colz is_black]; unfold RB_RED, RB_BLACK; [by rewrite Z.bits_0, andb_false_r|]. by rewrite testbit_low, andb_true_r. Qed.

Section Packed.
Context (p q : Z) (c c' : color) (Hp : aligned p) (Hq : aligned q).

(** Bit by bit: bit 0 is the colour, bit 1 is clear, the others are the address. *)
Local Ltac packed :=
  apply bits_ext; intros i Hi; unfold pack;
  autorewrite with bits; rewrite ?testbit_not32 by lia; rewrite ?testbit_3, ?testbit_low, ?testbit_colz by lia;
  destruct (decide (i < 2 \/ 32 <= i)) as [Ho|Ho];
  rewrite ?(testbit_aligned p i Hp Hi Ho), ?(testbit_aligned q i Hq Hi Ho);
  repeat match goal with |- context [is_black ?x] => is_var x; destruct x end; cbn [is_black];
  repeat match goal with |- context [Z.testbit ?x i] => destruct (Z.testbit x i) end;
  repeat match goal with |- context [?a <? ?b] => destruct (Z.ltb_spec a b) | |- context [?a =? ?b] => destruct (Z.eqb_spec a b)
    | |- context [?a <=? ?b] => destruct (Z.leb_spec a b) end;
  try reflexivity; exfalso; lia.

Lemma pack_parent : Z.land (pack p c) (not32 3) = p.
Proof using Hp. packed. Qed.
Lemma pack_color : Z.land (pack p c) 1 = colz c.
Proof using Hp. packed. Qed.
Lemma pack_red : Z.land (pack p c) (not32 1) = pack p Red.
Proof using Hp. packed. Qed.
Lemma pack_black : Z.lor (pack p c) 1 = pack p Black.
Proof using Hp. packed. Qed.
Lemma pack_set_parent : Z.lor (Z.land (pack p c) 3) q = pack q c.
Proof using Hp Hq. packed. Qed.
Lemma pack_set_color : Z.lor (Z.land (pack p c) (not32 1)) (colz c') = pack p c'.
Proof using Hp. packed. Qed.
End Packed.

(** Membership in lists that are built from parts. *)
Ltac elems :=
  cbn [app] in *;
  repeat match goal with
  | H : _ ∈ _ ++ _ |- _ => apply elem_of_app in H
  | H : _ ∈ _ :: _ |- _ => apply elem_of_cons in H
  | H : _ ∉ _ ++ _ |- _ => apply not_elem_of_app in H
  | H : _ ∉ _ :: _ |- _ => apply not_elem_of_cons in H
  | H : _ /\ _ |- _ => destruct H
  | H : _ ∈ _ \/ _ |- _ => destruct H
  | H : _ = _ \/ _ |- _ => destruct H
  end; repeat (rewrite elem_of_app || rewrite elem_of_cons); try tauto; intuition congruence.

(** ** The heap holds a tree *)
(** The node with parent [p] and children [a] on side [d] and [b] on the other. *)
Definition mkn (d : side) (p : Z) (c : color) (a b : Z) : rb_node :=
  match d with L => RbNode (pack p c) b a | R => RbNode (pack p c) a b end.

Fixpoint repr (m : gmap Z rb_node) (p : Z) (t : tree) : Prop :=
  match t with
  | E => True
  | T c l x r => m !! x = Some (mkn L p c (rootloc l) (rootloc r)) /\ repr m x l /\ repr m x r
  end.
Fixpoint reprc (m : gmap Z rb_node) (k : list frame) (a : Z) : Prop :=
  match k with
  | [] => True
  | Frame d c x u :: k => m !! x = Some (mkn d (up k) c a (rootloc u)) /\ repr m x u /\ reprc m k x
  end.
Fixpoint locs_c (k : list frame) : list Z :=
  match k with [] => [] | Frame _ _ x u :: k => x :: inorder u ++ locs_c k end.

(** The state [st] holds the tree [t]; [rest] is the heap outside of it. *)
Record rep (st : rb_state) (t : tree) (rest : gmap Z rb_node) : Prop := {
  rep_root : root st = rootloc t;
  rep_repr : repr (nodes st) 0 t;
  rep_nodup : NoDup (inorder t);
  rep_valid : Forall valid (inorder t);
  rep_rest x : x ∉ inorder t -> nodes st !! x = rest !! x;
}.

Lemma child_same d p c a b : child d (mkn d p c a b) = a.
Proof. by destruct d. Qed.
Lemma child_opp d p c a b : child (opp d) (mkn d p c a b) = b.
Proof. by destruct d. Qed.
Lemma mkn_opp d p c a b : mkn (opp d) p c a b = mkn d p c b a.
Proof. by destruct d. Qed.
Lemma opp_opp d : opp (opp d) = d.
Proof. by destruct d. Qed.
Lemma pc_mkn d p c a b : rb_parent_color (mkn d p c a b) = pack p c.
Proof. by destruct d. Qed.
Lemma mk_opp d c t x u : mk (opp d) c t x u = mk d c u x t.
Proof. by destruct d. Qed.
Lemma rootloc_mk d c t x u : rootloc (mk d c t x u) = x.
Proof. by destruct d. Qed.
Lemma plug_mk d c x u k t : plug (Frame d c x u :: k) t = plug k (mk d c t x u).
Proof. done. Qed.

Lemma repr_mk m p d c t x u :
  repr m p (mk d c t x u) <-> m !! x = Some (mkn d p c (rootloc t) (rootloc u)) /\ repr m x t /\ repr m x u.
Proof. destruct d; cbn; tauto. Qed.
Lemma repr_plug m k t : repr m 0 (plug k t) <-> repr m (up k) t /\ reprc m k (rootloc t).
Proof.
  revert t. induction k as [|[d c x u] k IH]; intros t; cbn [plug up reprc f_loc]; [tauto|].
  rewrite IH, repr_mk, rootloc_mk. tauto.
Qed.

Lemma inorder_mk d c t x u : inorder (mk d c t x u) ≡ₚ x :: inorder t ++ inorder u.
Proof. destruct d; cbn; [by rewrite Permutation_middle|]. rewrite <- Permutation_middle. by rewrite (Permutation_app_comm (inorder u)). Qed.
Lemma inorder_plug k t : inorder (plug k t) ≡ₚ inorder t ++ locs_c k.
Proof.
  revert t. induction k as [|[d c x u] k IH]; intros t; cbn [plug locs_c]; [by rewrite app_nil_r|].
  rewrite IH, inorder_mk. cbn. rewrite <- Permutation_middle, <- app_assoc. done.
Qed.

Lemma repr_ext m m' p t : (forall x, x ∈ inorder t -> m' !! x = m !! x) -> repr m p t -> repr m' p t.
Proof.
  revert p. induction t as [|c l IHl x r IHr]; intros p He; cbn in *; [done|]. intros (H & Hl & Hr).
  rewrite He by elems. split; [done|]. split; [apply IHl|apply IHr]; try done; intros; apply He; elems.
Qed.
Lemma reprc_ext m m' k a : (forall x, x ∈ locs_c k -> m' !! x = m !! x) -> reprc m k a -> reprc m' k a.
Proof.
  revert a. induction k as [|[d c x u] k IH]; intros a He; cbn in *; [done|]. intros (H & Hu & Hk).
  rewrite He by elems. split; [done|]. split; [eapply repr_ext; [|done]|apply IH; [|done]]; intros; apply He; elems.
Qed.

Lemma rootloc_in t : t <> E -> rootloc t ∈ inorder t.
Proof. destruct t; [done|]. cbn. elems. Qed.
Lemma up_in k : k <> [] -> up k ∈ locs_c k.
Proof. destruct k as [|[]]; [done|]. cbn. elems. Qed.
Lemma valid_ne_0 x : valid x -> x <> 0.
Proof. by intros []. Qed.
Lemma aligned_0 : aligned 0.
Proof. split; [by apply uint_0|done]. Qed.
Lemma aligned_up k : Forall valid (locs_c k) -> aligned (up k).
Proof. destruct k as [|[d c x u] k]; intros H; [apply aligned_0|]. cbn in *. by apply Forall_cons_iff in H as [[] _]. Qed.
Lemma aligned_root t : Forall valid (inorder t) -> aligned (rootloc t).
Proof.
  destruct t as [|c l x r]; intros H; [apply aligned_0|]. cbn in *.
  apply Forall_app in H as [_ H]. by apply Forall_cons_iff in H as [[] _].
Qed.
Lemma rootloc_E t : Forall valid (inorder t) -> rootloc t = 0 <-> t = E.
Proof.
  intros H. split; [|by intros ->]. destruct t as [|c l x r]; [done|]. cbn in *. intros ->.
  apply Forall_app in H as [_ H]. by apply Forall_cons_iff in H as [[] _].
Qed.

(** The same facts around a focus. *)
Record focus (st : rb_state) (k : list frame) (t : tree) (rest : gmap Z rb_node) : Prop := {
  fo_root : root st = rootloc (plug k t);
  fo_tree : repr (nodes st) (up k) t;
  fo_ctx : reprc (nodes st) k (rootloc t);
  fo_nodup : NoDup (inorder t ++ locs_c k);
  fo_valid : Forall valid (inorder t ++ locs_c k);
  fo_rest x : x ∉ inorder t ++ locs_c k -> nodes st !! x = rest !! x;
}.
Lemma rep_focus st k t rest : rep st (plug k t) rest <-> focus st k t rest.
Proof.
  pose proof (inorder_plug k t) as P. split.
  - intros [Hr Hm Hn Hv Ho]. apply repr_plug in Hm as [H1 H2]. rewrite P in Hn, Hv. split; try done.
    intros x Hx. apply Ho. by rewrite P.
  - intros [Hr H1 H2 Hn Hv Ho]. rewrite <- P in Hn, Hv. split; try done; [by apply repr_plug|].
    intros x Hx. apply Ho. by rewrite <- P.
Qed.

Lemma rootloc_plug k t t' : k <> [] \/ rootloc t = rootloc t' -> rootloc (plug k t) = rootloc (plug k t').
Proof.
  revert t t'. induction k as [|[d c x u] k IH]; intros t t' H; cbn [plug].
  - destruct H; [done|done].
  - apply IH. right. by rewrite !rootloc_mk.
Qed.

(** Replacing the focused tree by one that takes the same nodes, by a change of
    the heap that leaves the context alone. *)
Lemma focus_change st st' k t t' rest :
  focus st k t rest -> inorder t' ≡ₚ inorder t -> rootloc t' = rootloc t -> root st' = root st ->
  (forall x, x ∉ inorder t -> nodes st' !! x = nodes st !! x) -> repr (nodes st') (up k) t' -> focus st' k t' rest.
Proof.
  intros [Hr H1 H2 Hn Hv Ho] HP Hl Hroot Hsame Ht. destruct (proj1 (list.NoDup_app _ _) Hn) as (_ & Hd & _).
  split; try done; rewrite ?HP, ?Hl; try done.
  - rewrite Hroot, Hr. apply rootloc_plug. auto.
  - eapply reprc_ext; [|done]. intros x Hx. apply Hsame. intros Hx'. by apply (Hd x).
  - intros x Hx. rewrite HP in Hx. rewrite Hsame by elems. by apply Ho.
Qed.

Section Primitive.
Context (st : rb_state) (k : list frame) (rest : gmap Z rb_node).
Context (d : side) (c : color) (t : tree) (x : Z) (u : tree).
Context (Hrep : rep st (plug k (mk d c t x u)) rest).

Lemma get_spec : getn x st = Some (mkn d (up k) c (rootloc t) (rootloc u), st).
Proof using Hrep.
  apply rep_focus in Hrep as [_ H _ _ _ _]. apply repr_mk in H as (H & _ & _). unfold getn. by rewrite H.
Qed.
Lemma rep_aligned : aligned (up k) /\ valid x /\ aligned x /\ aligned (rootloc t) /\ aligned (rootloc u).
Proof using Hrep.
  apply rep_focus in Hrep as [_ _ _ _ Hv _]. apply Forall_app in Hv as [H1 H2].
  rewrite inorder_mk in H1. apply Forall_cons_iff in H1 as [Hx H1]. apply Forall_app in H1 as [Ht Hu].
  split; [by apply aligned_up|]. split; [done|]. split; [by destruct Hx|]. split; by apply aligned_root.
Qed.

Lemma mod_spec f c' :
  f (mkn d (up k) c (rootloc t) (rootloc u)) = mkn d (up k) c' (rootloc t) (rootloc u) ->
  exists st', modn x f st = Some (tt, st') /\ rep st' (plug k (mk d c' t x u)) rest.
Proof using Hrep.
  intros Hf. apply rep_focus in Hrep as F. pose proof F as [_ Ht _ Hn _ _].
  apply repr_mk in Ht as (Hx & H1 & H2). unfold modn. rewrite Hx, Hf. eexists. split; [done|].
  apply rep_focus. eapply focus_change; try done; rewrite ?rootloc_mk, ?inorder_mk; try done.
  - intros y Hy. cbn. apply lookup_insert_ne. intros <-. rewrite inorder_mk in Hy. elems.
  - apply repr_mk. cbn. rewrite lookup_insert_eq. split; [done|].
    rewrite inorder_mk in Hn. cbn in Hn. apply list.NoDup_cons in Hn as [Hx' _].
    split; (eapply repr_ext; [|done]); intros y Hy; apply lookup_insert_ne; intros <-; elems.
Qed.

Lemma set_pc_mkn f c' : f (pack (up k) c) = pack (up k) c' ->
  set_pc f (mkn d (up k) c (rootloc t) (rootloc u)) = mkn d (up k) c' (rootloc t) (rootloc u).
Proof. intros H. unfold set_pc. rewrite pc_mkn, H. by destruct d. Qed.

Lemma set_red_spec : exists st', rb_set_red x st = Some (tt, st') /\ rep st' (plug k (mk d Red t x u)) rest.
Proof using Hrep. apply mod_spec, set_pc_mkn, pack_red, rep_aligned. Qed.
Lemma set_black_spec : exists st', rb_set_black x st = Some (tt, st') /\ rep st' (plug k (mk d Black t x u)) rest.
Proof using Hrep. apply mod_spec, set_pc_mkn, pack_black, rep_aligned. Qed.
Lemma set_color_spec c' :
  exists st', rb_set_color x (colz c') st = Some (tt, st') /\ rep st' (plug k (mk d c' t x u)) rest.
Proof using Hrep. apply mod_spec, set_pc_mkn, pack_set_color, rep_aligned. Qed.

Lemma parent_spec : rb_parent (mkn d (up k) c (rootloc t) (rootloc u)) = up k.
Proof using Hrep. unfold rb_parent. rewrite pc_mkn. apply pack_parent, rep_aligned. Qed.
Lemma color_spec : rb_color (mkn d (up k) c (rootloc t) (rootloc u)) = colz c.
Proof using Hrep. unfold rb_color. rewrite pc_mkn. apply pack_color, rep_aligned. Qed.
End Primitive.

(** *** Pieces of the routines that change links *)
Lemma getn_eq st a n : nodes st !! a = Some n -> getn a st = Some (n, st).
Proof. intros H. unfold getn. by rewrite H. Qed.
Lemma modn_eq st a f n :
  nodes st !! a = Some n -> modn a f st = Some (tt, RbState (<[a := f n]> (nodes st)) (root st)).
Proof. intros H. unfold modn. by rewrite H. Qed.
Lemma set_parent_mkn d p q c a b : aligned p -> aligned q ->
  set_pc (fun pc => Z.lor (Z.land pc 3) q) (mkn d p c a b) = mkn d q c a b.
Proof. intros. unfold set_pc. rewrite pc_mkn, pack_set_parent by done. by destruct d. Qed.
Lemma set_child_mkn d p c a b v :
  match d with
  | L => RbNode (rb_parent_color (mkn d p c a b)) (rb_right (mkn d p c a b)) v
  | R => RbNode (rb_parent_color (mkn d p c a b)) v (rb_left (mkn d p c a b))
  end = mkn d p c v b.
Proof. by destruct d. Qed.
Lemma set_child_eq st x d p c a b v :
  nodes st !! x = Some (mkn d p c a b) ->
  set_child x d v st = Some (tt, RbState (<[x := mkn d p c v b]> (nodes st)) (root st)).
Proof. intros H. unfold set_child. rewrite (modn_eq _ _ _ _ H). by rewrite set_child_mkn. Qed.
Lemma set_child_opp_eq st x d p c a b v :
  nodes st !! x = Some (mkn d p c a b) ->
  set_child x (opp d) v st = Some (tt, RbState (<[x := mkn d p c a v]> (nodes st)) (root st)).
Proof. intros H. rewrite <- mkn_opp in H |- *. exact (set_child_eq _ _ _ _ _ _ _ _ H). Qed.
Lemma set_parent_eq st x d p q c a b :
  nodes st !! x = Some (mkn d p c a b) -> aligned p -> aligned q ->
  rb_set_parent x q st = Some (tt, RbState (<[x := mkn d q c a b]> (nodes st)) (root st)).
Proof. intros H Hp Hq. unfold rb_set_parent. rewrite (modn_eq _ _ _ _ H). by rewrite set_parent_mkn. Qed.

(** Giving a subtree a new parent. *)
Lemma reparent_spec st p q b :
  repr (nodes st) p b -> NoDup (inorder b) -> Forall valid (inorder b) -> aligned p -> aligned q ->
  exists st', when (negb (rootloc b =? 0)) (rb_set_parent (rootloc b) q) st = Some (tt, st') /\
    root st' = root st /\ repr (nodes st') q b /\ (forall w, w ∉ inorder b -> nodes st' !! w = nodes st !! w).
Proof.
  intros Hb Hn Hv Hp Hq. destruct b as [|c l z r]; [by exists st|]. cbn [rootloc] in *.
  destruct Hb as (Hz & Hl & Hr). cbn [inorder] in *. pose proof Hn as Hn'. rewrite <- Permutation_middle in Hn'.
  apply list.NoDup_cons in Hn' as [Hz' _].
  apply Forall_app in Hv as [_ [[_ Hz0] _]%Forall_cons_iff]. rewrite eqb_f by done. cbn [negb when].
  rewrite (set_parent_eq _ _ L _ _ _ _ _ Hz) by done. eexists. split; [done|]. split; [done|]. cbn [nodes repr].
  split; [split; [apply lookup_insert_eq|]|].
  - split; (eapply repr_ext; [|done]); intros y Hy; apply lookup_insert_ne; intros <-; elems.
  - intros w Hw. apply lookup_insert_ne. intros <-. elems.
Qed.

(** Making the context point to another node. *)
Lemma relink_spec st e k a b :
  reprc (nodes st) k a -> NoDup (a :: locs_c k) -> Forall valid (a :: locs_c k) ->
  exists st', relink e (up k) a b st = Some (tt, st') /\ reprc (nodes st') k b /\
    root st' = (if decide (k = []) then b else root st) /\
    (forall w, w ∉ locs_c k -> nodes st' !! w = nodes st !! w).
Proof.
  intros Hk Hn Hv. unfold relink. destruct k as [|[d c x u] k]; cbn [up f_loc locs_c reprc] in *.
  { eexists. split; [reflexivity|]. done. }
  destruct Hk as (Hx & Hu & Hk). apply list.NoDup_cons in Hn as [Ha Hn]. apply list.NoDup_cons in Hn as [Hx' Hn].
  apply Forall_cons_iff in Hv as [Hva Hv]. apply Forall_cons_iff in Hv as [[_ Hx0] Hv]. rewrite eqb_f by done. cbn [negb].
  unfold bind. rewrite (getn_eq _ _ _ Hx).
  assert ((if a =? child e (mkn d (up k) c a (rootloc u)) then set_child x e b else set_child x (opp e) b) =
    set_child x d b) as ->.
  { destruct (decide (e = d)) as [->|Hne]; [by rewrite child_same, Z.eqb_refl|].
    assert (e = opp d) as -> by (by destruct e, d). rewrite child_opp, opp_opp.
    rewrite eqb_f; [done|]. intros ->. apply Forall_app in Hv as [Hvu _].
    destruct u as [|cu lu y ru]; [by destruct Hva|]. apply Ha. apply elem_of_cons. right. apply elem_of_app. left.
    by apply rootloc_in. }
  rewrite (set_child_eq _ _ _ _ _ _ _ _ Hx). eexists. split; [done|]. cbn [nodes root reprc up]. split; [|split].
  - split; [apply lookup_insert_eq|]. split; [eapply repr_ext; [|done]|eapply reprc_ext; [|done]];
      intros y Hy; apply lookup_insert_ne; intros <-; elems.
  - done.
  - intros w Hw. apply lookup_insert_ne. intros <-. elems.
Qed.

Lemma inorder_rotate d c a x c' b y e :
  inorder (mk d c' (mk d c a x b) y e) = inorder (mk d c a x (mk d c' b y e)).
Proof. destruct d; cbn; by rewrite <- app_assoc. Qed.

Lemma rotate_spec st k d c a x c' b y e rest :
  rep st (plug k (mk d c a x (mk d c' b y e))) rest ->
  exists st', rotate d x st = Some (tt, st') /\ rep st' (plug k (mk d c' (mk d c a x b) y e)) rest.
Proof.
  intros Hrep. apply rep_focus in Hrep as F. pose proof F as [Fr Ft Fc Fn Fv Fo].
  destruct (rep_aligned _ _ _ _ _ _ _ _ Hrep) as (Ak & Vx & Ax & Aa & Ay).
  apply repr_mk in Ft as (Hx & Ha & Hu). rewrite rootloc_mk in *. apply repr_mk in Hu as (Hy & Hb & He).
  rewrite !inorder_mk in Fn, Fv. cbn [app] in Fn, Fv.
  apply list.NoDup_cons in Fn as [Nx Fn]. apply Forall_cons_iff in Fv as [_ Fv].
  rewrite <- app_assoc in Nx, Fn, Fv. cbn [app] in *. rewrite <- app_assoc in Nx, Fn, Fv.
  apply list.NoDup_app in Fn as (Na & Da & Fn). apply list.NoDup_cons in Fn as [Ny Fn].
  apply list.NoDup_app in Fn as (Nb & Db & Fn). apply list.NoDup_app in Fn as (Ne & De & Nk).
  apply Forall_app in Fv as [Va Fv]. apply Forall_cons_iff in Fv as [Vy Fv].
  apply Forall_app in Fv as [Vb Fv]. apply Forall_app in Fv as [Ve Vk].
  unfold rotate. run (getn_eq _ _ _ Hx). rewrite child_opp. run (getn_eq _ _ _ Hy). rewrite child_same.
  unfold rb_parent. rewrite pc_mkn, pack_parent by done. run (set_child_opp_eq _ _ _ _ _ _ _ (rootloc b) Hx).
  set (s1 := RbState _ _).
  assert (forall w, w <> x -> nodes s1 !! w = nodes st !! w) as S1 by (intros; by apply lookup_insert_ne).
  assert (nodes s1 !! x = Some (mkn d (up k) c (rootloc a) (rootloc b))) as X1 by apply lookup_insert_eq.
  assert (repr (nodes s1) y b) as B1 by (eapply repr_ext; [|done]; intros w Hw; apply S1; intros ->; elems).
  destruct (reparent_spec s1 y x b B1 Nb Vb Ay Ax) as (s2 & E2 & R2 & B2 & S2). run E2.
  assert (nodes s2 !! y = Some (mkn d x c' (rootloc b) (rootloc e))) as Y2.
  { rewrite S2, S1; [done|intros ->; elems|elems]. }
  run (set_child_eq _ _ _ _ _ _ _ x Y2). set (s3 := RbState _ _).
  assert (nodes s3 !! y = Some (mkn d x c' x (rootloc e))) as Y3 by apply lookup_insert_eq.
  run (set_parent_eq _ _ _ _ (up k) _ _ _ Y3 Ax Ak). set (s4 := RbState _ _).
  assert (nodes s4 !! y = Some (mkn d (up k) c' x (rootloc e))) as Y4 by apply lookup_insert_eq.
  assert (forall w, w <> y -> nodes s4 !! w = nodes s2 !! w) as S4
    by (intros; unfold s4, s3; cbn; by rewrite !lookup_insert_ne).
  assert (forall w, w <> x -> w <> y -> w ∉ inorder b -> nodes s4 !! w = nodes st !! w) as S41
    by (intros; rewrite S4, S2, S1; done).
  assert (reprc (nodes s4) k x) as K4.
  { eapply reprc_ext; [|done]. intros w Hw. apply S41; [intros ->; elems|intros ->; elems|]. intros Hw'. apply (Db w Hw'). elems. }
  destruct (relink_spec s4 d k x y K4) as (s5 & E5 & K5 & R5 & S5).
  { apply list.NoDup_cons. split; [|done]. elems. }
  { by apply Forall_cons_2. }
  run E5.
  assert (nodes s5 !! x = Some (mkn d (up k) c (rootloc a) (rootloc b))) as X5.
  { rewrite S5, S4, S2; [done|elems|intros ->; elems|elems]. }
  rewrite (set_parent_eq _ _ _ _ y _ _ _ X5 Ak Ay). eexists. split; [reflexivity|].
  set (s6 := RbState _ _).
  assert (nodes s6 !! x = Some (mkn d y c (rootloc a) (rootloc b))) as X6 by apply lookup_insert_eq.
  assert (forall w, w <> x -> nodes s6 !! w = nodes s5 !! w) as S6 by (intros; by apply lookup_insert_ne).
  assert (forall w, w <> x -> w <> y -> w ∉ inorder b -> w ∉ locs_c k -> nodes s6 !! w = nodes st !! w) as S61
    by (intros; rewrite S6, S5, S41; done).
  apply rep_focus. split.
  - cbn [root s6]. rewrite R5. destruct k as [|f k]; [cbn; by rewrite rootloc_mk|].
    cbn [root s4 s3]. rewrite R2. cbn [root s1]. rewrite Fr. apply rootloc_plug. by left.
  - apply repr_mk. rewrite rootloc_mk, repr_mk, X6, S6, S5, Y4; [|elems|intros ->; elems]. split; [done|]. split; [split; [done|split]|].
    + eapply repr_ext; [|done]. intros w Hw. apply S61; [intros ->; elems|intros ->; apply (Da y); elems|..];
        intros Hw'; apply (Da w); elems.
    + eapply repr_ext; [|done]. intros w Hw. rewrite S6, S5, S4; [done|intros ->; elems| |intros ->; elems].
      intros Hw'. apply (Db w); elems.
    + eapply repr_ext; [|done]. intros w Hw. apply S61; [intros ->; elems|intros ->; elems|..];
        intros Hw'; [apply (Db w)|apply (De w)]; elems.
  - rewrite rootloc_mk. eapply reprc_ext; [|done]. intros w Hw. apply S6. intros ->. elems.
  - rewrite inorder_rotate. apply F.
  - rewrite inorder_rotate. apply F.
  - intros w Hw. rewrite inorder_rotate in Hw. rewrite <- (Fo w Hw). rewrite !inorder_mk in Hw. apply S61; elems.
Qed.

(** ** The red-black invariant *)
(** [rbt c n t]: [t] may be the child of a node of colour [c], no red node of it
    has a red child, and every path to a leaf passes [n] black nodes. *)
Inductive rbt : color -> nat -> tree -> Prop :=
  | rbt_E c : rbt c 0 E
  | rbt_red l x r n : rbt Red n l -> rbt Red n r -> rbt Black n (T Red l x r)
  | rbt_black c l x r n : rbt Black n l -> rbt Black n r -> rbt c (S n) (T Black l x r).
#[local] Hint Constructors rbt : core.

(** The whole tree: the root is black. *)
Definition rb_ok (t : tree) : Prop := exists h, rbt Red h t.

Definition pcol (k : list frame) : color := match k with [] => Red | f :: _ => f_color f end.
(** The context is fine if its hole is filled by a tree of black height [n]. *)
Fixpoint ctxok (k : list frame) (n : nat) : Prop :=
  match k with
  | [] => True
  | Frame d c x u :: k =>
      rbt c n u /\ (c = Red -> pcol k = Black) /\ ctxok k (match c with Red => n | Black => S n end)
  end.
Definition tree_red (t : tree) : bool := match t with T Red _ _ _ => true | _ => false end.

Lemma rbt_weaken n t : rbt Red n t -> rbt Black n t.
Proof. inversion 1; auto. Qed.
Lemma rbt_any c n t : rbt Red n t -> rbt c n t.
Proof. destruct c; [done|apply rbt_weaken]. Qed.
Lemma rbt_not_red c n t : rbt c n t -> tree_red t = false -> rbt Red n t.
Proof. inversion 1; [auto|done|auto]. Qed.
Lemma rbt_mk_red d n t x u : rbt Red n t -> rbt Red n u -> rbt Black n (mk d Red t x u).
Proof. destruct d; cbn; auto. Qed.
Lemma rbt_mk_black d c n t x u : rbt Black n t -> rbt Black n u -> rbt c (S n) (mk d Black t x u).
Proof. destruct d; cbn; auto. Qed.
Lemma rbt_mk_inv_black d c n t x u : rbt c n (mk d Black t x u) -> exists n', n = S n' /\ rbt Black n' t /\ rbt Black n' u.
Proof. destruct d; cbn; inversion 1; eauto. Qed.
Lemma rbt_mk_inv_red d c n t x u : rbt c n (mk d Red t x u) -> c = Black /\ rbt Red n t /\ rbt Red n u.
Proof. destruct d; cbn; inversion 1; eauto. Qed.

Lemma rbt_plug k n t : ctxok k n -> rbt (pcol k) n t -> rb_ok (plug k t).
Proof.
  revert n t. induction k as [|[d c x u] k IH]; cbn [plug ctxok pcol f_color]; intros n t Hk Ht; [by exists n|].
  destruct Hk as (Hu & Hc & Hk). eapply IH; [done|]. destruct c; [rewrite Hc by done; by apply rbt_mk_red|by apply rbt_mk_black].
Qed.
Lemma rbt_unplug k t : rb_ok (plug k t) -> exists n, ctxok k n /\ rbt (pcol k) n t.
Proof.
  revert t. induction k as [|[d c x u] k IH]; cbn [plug ctxok pcol f_color]; intros t Ht; [by destruct Ht as [h]; exists h|].
  apply IH in Ht as (n & Hk & Hm). destruct c.
  - apply rbt_mk_inv_red in Hm as (Hp & H1 & H2). eauto 10.
  - apply rbt_mk_inv_black in Hm as (n' & -> & H1 & H2). exists n'. repeat split; try done.
Qed.

Lemma inorder_plug_eq k t t' : inorder t = inorder t' -> inorder (plug k t) = inorder (plug k t').
Proof.
  revert t t'. induction k as [|[d c x u] k IH]; intros t t' Ht; cbn [plug]; [done|].
  apply IH. destruct d; cbn; by rewrite Ht.
Qed.
Lemma inorder_color d c c' t x u : inorder (mk d c t x u) = inorder (mk d c' t x u).
Proof. by destruct d. Qed.
Lemma mk_side d c t x u d' : exists t' u', mk d c t x u = mk d' c t' x u'.
Proof. destruct d, d'; cbn; eauto. Qed.

(** Reading the colour of a subtree, and of the node above. *)
Lemma is_red_spec st k t rest : rep st (plug k t) rest -> is_red_at (rootloc t) st = Some (tree_red t, st).
Proof.
  intros H. destruct t as [|c l x r]; [done|]. change (T c l x r) with (mk L c l x r) in H.
  pose proof (rep_aligned _ _ _ _ _ _ _ _ H) as (_ & [_ Hx] & _). unfold is_red_at. cbn [rootloc].
  rewrite eqb_f by done. run (get_spec _ _ _ _ _ _ _ _ H). unfold rb_is_red.
  rewrite (color_spec _ _ _ _ _ _ _ _ H). by destruct c.
Qed.
Lemma is_black_spec st k t rest : rep st (plug k t) rest -> is_black_at (rootloc t) st = Some (negb (tree_red t), st).
Proof.
  intros H. destruct t as [|c l x r]; [done|]. change (T c l x r) with (mk L c l x r) in H.
  pose proof (rep_aligned _ _ _ _ _ _ _ _ H) as (_ & [_ Hx] & _). unfold is_black_at. cbn [rootloc].
  rewrite eqb_f by done. run (get_spec _ _ _ _ _ _ _ _ H). unfold rb_is_black.
  rewrite (color_spec _ _ _ _ _ _ _ _ H). by destruct c.
Qed.

(** The children of a node are different. *)
Lemma roots_ne st k d c t x u rest :
  rep st (plug k (mk d c t x u)) rest -> t <> E -> rootloc t <> rootloc u.
Proof.
  intros H Ht Heq. apply rep_focus in H as [_ _ _ Hn Hv _]. rewrite inorder_mk in Hn, Hv. cbn [app] in *.
  apply list.NoDup_cons in Hn as [_ Hn]. rewrite <- app_assoc in Hn. apply list.NoDup_app in Hn as (_ & Hd & _).
  apply Forall_cons_iff in Hv as [_ Hv]. apply Forall_app in Hv as [Hv _]. apply Forall_app in Hv as [Hv Hv'].
  destruct (decide (u = E)) as [->|Hu].
  - cbn [rootloc] in Heq. by apply rootloc_E in Heq.
  - apply (Hd (rootloc t)); [by apply rootloc_in|]. rewrite Heq. apply elem_of_app. left. by apply rootloc_in.
Qed.
Lemma side_test st k d c t x u rest :
  rep st (plug k (mk d c t x u)) rest -> t <> E ->
  (if rootloc t =? rb_left (mkn d (up k) c (rootloc t) (rootloc u)) then L else R) = d.
Proof.
  intros H Ht. pose proof (roots_ne _ _ _ _ _ _ _ _ H Ht). destruct d; cbn; [by rewrite Z.eqb_refl|by rewrite eqb_f].
Qed.

(** Compare two node sequences up to associativity. *)
Ltac flat_inorder := cbn; repeat (rewrite <- app_assoc; cbn [app]); reflexivity.

(** ** Insertion restores the invariant *)
(** After a step the state is known by the lemma [H]; run the call and go on. *)
Ltac step H st' :=
  let E := fresh "E" in let Hr := fresh "Hr" in destruct H as (st' & E & Hr); run E.

Lemma mk_ne_E d c t x u : mk d c t x u <> E.
Proof. by destruct d. Qed.

(** The uncle is red: recolour. *)
Lemma insert_fix_red st d d' X p s g u k rest :
  X <> E -> tree_red u = true ->
  rep st (plug k (mk d' Black (mk d Red X p s) g u)) rest ->
  exists st', insert_fix d' (rootloc X) p g st = Some (inl g, st') /\
    exists u', u' <> E /\ (forall c n, rbt c n u -> rbt Red (S n) u') /\ inorder u' = inorder u /\
    rep st' (plug k (mk d' Red (mk d Black X p s) g u')) rest.
Proof.
  intros HX Hu H. destruct u as [|[] ul y ur]; [done| |done]. unfold insert_fix.
  run (get_spec _ _ _ _ _ _ _ _ H). rewrite child_opp.
  rewrite <- mk_opp, <- plug_mk in H. run (is_red_spec _ _ _ _ H). cbn [tree_red rootloc].
  change (T Red ul y ur) with (mk L Red ul y ur) in H. step (set_black_spec _ _ _ _ _ _ _ _ H) s1.
  rewrite plug_mk, mk_opp, <- plug_mk in Hr. step (set_black_spec _ _ _ _ _ _ _ _ Hr) s2.
  rewrite plug_mk in Hr0. step (set_red_spec _ _ _ _ _ _ _ _ Hr0) s3.
  eexists. split; [reflexivity|]. exists (mk L Black ul y ur). split; [done|]. split; [|by split].
  intros c n Hn. inversion Hn; subst. cbn. constructor; by apply rbt_weaken.
Qed.

(** The uncle is black: one or two rotations. *)
Lemma insert_rotate st d' N P S g u k rest :
  rep st (plug k (mk d' Black (mk d' Red N P S) g u)) rest ->
  exists st', (rb_set_black P ;; rb_set_red g ;; rotate (opp d') g ;; ret (inl (rootloc N) : Z + unit)) st =
      Some (inl (rootloc N), st') /\
    rep st' (plug k (mk (opp d') Black (mk (opp d') Red u g S) P N)) rest.
Proof.
  intros H. rewrite <- plug_mk in H. step (set_black_spec _ _ _ _ _ _ _ _ H) s1. rewrite plug_mk in Hr.
  step (set_red_spec _ _ _ _ _ _ _ _ Hr) s2. rewrite <- (mk_opp d' Red), <- (mk_opp d' Black) in Hr0.
  step (rotate_spec _ _ _ _ _ _ _ _ _ _ _ Hr0) s3. eexists. by split.
Qed.

Lemma insert_fix_black st d d' d0 l x r p s g u k n rest :
  tree_red u = false -> rbt Red n l -> rbt Red n r -> rbt Red n s ->
  rep st (plug k (mk d' Black (mk d Red (mk d0 Red l x r) p s) g u)) rest ->
  exists st' N P S, insert_fix d' x p g st = Some (inl (rootloc N), st') /\ N <> E /\ rbt Black n N /\ rbt Red n S /\
    inorder (mk d' Black (mk d Red (mk d0 Red l x r) p s) g u) = inorder (mk (opp d') Black (mk (opp d') Red u g S) P N) /\
    rep st' (plug k (mk (opp d') Black (mk (opp d') Red u g S) P N)) rest.
Proof.
  intros Hu Hl Hr Hs H. unfold insert_fix. run (get_spec _ _ _ _ _ _ _ _ H). rewrite child_opp.
  rewrite <- mk_opp, <- plug_mk in H. run (is_red_spec _ _ _ _ H). rewrite Hu. rewrite plug_mk, mk_opp, <- plug_mk in H.
  run (get_spec _ _ _ _ _ _ _ _ H). rewrite rootloc_mk.
  destruct (decide (d = d')) as [->|Hne].
  - rewrite child_opp. rewrite (eqb_f _ x).
    2:{ pose proof (roots_ne _ _ _ _ _ _ _ _ H (mk_ne_E _ _ _ _ _)) as Hn. rewrite rootloc_mk in Hn. done. }
    run_ret. rewrite plug_mk in H. destruct (insert_rotate _ _ _ _ _ _ _ _ _ H) as (st' & E' & H'). rewrite rootloc_mk in E'.
    exists st', (mk d0 Red l x r), p, s. rewrite rootloc_mk. split; [exact E'|]. split; [apply mk_ne_E|].
    split; [by apply rbt_mk_red|]. split; [done|]. split; [|done]. destruct d'; flat_inorder.
  - assert (d = opp d') as -> by (by destruct d, d'). rewrite child_same, Z.eqb_refl. cbn [up f_loc].
    assert (exists l' r', mk d0 Red l x r = mk d' Red l' x r' /\ rbt Red n l' /\ rbt Red n r') as (l' & r' & Em & Hl' & Hr')
      by (destruct d0, d'; cbn; eauto 10).
    rewrite Em in *. rewrite mk_opp in H. rewrite !bind_assoc.
    step (rotate_spec _ _ _ _ _ _ _ _ _ _ _ H) s1. run_ret. rewrite plug_mk in Hr0.
    destruct (insert_rotate _ _ _ _ _ _ _ _ _ Hr0) as (st' & E' & H'). rewrite rootloc_mk in E'.
    exists st', (mk d' Red s p l'), x, r'. rewrite rootloc_mk. split; [exact E'|]. split; [apply mk_ne_E|].
    split; [by apply rbt_mk_red|]. split; [done|]. split; [|done]. destruct d'; flat_inorder.
Qed.

(** The tree after the loop: valid, but that its root may be red. *)
Definition root_red_ok (t : tree) : Prop :=
  rb_ok t \/ exists d l x r n, t = mk d Red l x r /\ rbt Red n l /\ rbt Red n r.

Lemma is_red_up st k t rest : rep st (plug k t) rest ->
  is_red_at (up k) st = Some (match k with [] => false | f :: _ => match f_color f with Red => true | Black => false end end, st).
Proof.
  intros H. destruct k as [|[d c p u] k]; [done|]. rewrite plug_mk in H. cbn [up f_loc f_color].
  rewrite <- (rootloc_mk d c t p u). rewrite (is_red_spec _ _ _ _ H). by destruct d, c.
Qed.

Lemma insert_stop st k d N p u rest :
  rep st (plug k (mk d Black N p u)) rest -> N <> E -> insert_round (rootloc N) st = Some (inr tt, st).
Proof.
  intros H HN. rewrite <- plug_mk in H. destruct N as [|c l x r]; [done|]. change (T c l x r) with (mk L c l x r) in *.
  unfold insert_round. rewrite rootloc_mk. run (get_spec _ _ _ _ _ _ _ _ H).
  rewrite (parent_spec _ _ _ _ _ _ _ _ H). run (is_red_up _ _ _ _ H). done.
Qed.

Lemma insert_loop k : forall st d0 l x r n f rest,
  rep st (plug k (mk d0 Red l x r)) rest -> rbt Red n l -> rbt Red n r -> ctxok k n -> (length k + 1 < f)%nat ->
  exists st' t', while f insert_round x st = Some (tt, st') /\ rep st' t' rest /\
    inorder t' = inorder (plug k (mk d0 Red l x r)) /\ root_red_ok t'.
Proof.
  induction k as [k IH] using (induction_ltof1 _ length). unfold ltof in IH. intros st d0 l x r n f rest H Hl Hr Hk Hf.
  destruct f as [|f]; [lia|]. rewrite while_S. unfold insert_round at 1. rewrite !bind_assoc.
  run (get_spec _ _ _ _ _ _ _ _ H). rewrite (parent_spec _ _ _ _ _ _ _ _ H). run (is_red_up _ _ _ _ H).
  destruct k as [|[d [] p s] k]; cbn [f_color up f_loc].
  - run_ret. exists st, (mk d0 Red l x r). split; [done|]. split; [done|]. split; [done|]. right. eauto 10.
  - destruct Hk as (Hs & Hp & Hk). specialize (Hp eq_refl). destruct k as [|[d' [] g u] k]; [done|done|].
    destruct Hk as (Hu & _ & Hk). rewrite plug_mk in H. run (get_spec _ _ _ _ _ _ _ _ H).
    rewrite (parent_spec _ _ _ _ _ _ _ _ H). cbn [up f_loc]. rewrite plug_mk in H. run (get_spec _ _ _ _ _ _ _ _ H).
    pose proof (side_test _ _ _ _ _ _ _ _ H (mk_ne_E _ _ _ _ _)) as Hside. rewrite rootloc_mk in Hside |- *. rewrite Hside.
    destruct (tree_red u) eqn:Eu.
    + destruct (insert_fix_red _ _ _ _ _ _ _ _ _ _ (mk_ne_E _ _ _ _ _) Eu H) as (s1 & E1 & u' & _ & Hu' & Iu & H1).
      rewrite rootloc_mk in E1. run E1. specialize (Hu' _ _ Hu).
      destruct (IH k ltac:(cbn; lia) s1 d' (mk d Black (mk d0 Red l x r) p s) g u' (S n) f rest H1) as (s2 & t' & E2 & H2 & I2 & O2);
        [|done|done|cbn in Hf; lia|].
      * apply rbt_mk_black; [by apply rbt_mk_red|by apply rbt_weaken].
      * exists s2, t'. split; [done|]. split; [done|]. split; [|done]. rewrite I2. cbn [plug]. apply inorder_plug_eq.
        destruct d'; cbn; rewrite Iu; f_equal; destruct d; done.
    + destruct (insert_fix_black _ _ _ _ _ _ _ _ _ _ _ _ n _ Eu Hl Hr Hs H) as (s1 & N & P & S' & E1 & NE & HN & HS & I1 & H1).
      run E1. destruct f as [|f]; [cbn in Hf; lia|]. rewrite <- mk_opp, opp_opp in H1.
      rewrite while_S. run (insert_stop _ _ _ _ _ _ _ H1 NE). exists s1. eexists. split; [done|]. split; [exact H1|].
      split; [cbn [plug]; apply inorder_plug_eq; rewrite I1; by rewrite (mk_opp d' Black)|]. left.
      eapply rbt_plug; [exact Hk|]. apply rbt_mk_black; [done|]. apply rbt_mk_red; [|done]. by eapply rbt_not_red.
  - run_ret. exists st, (plug (Frame d Black p s :: k) (mk d0 Red l x r)). split; [done|]. split; [done|]. split; [done|].
    left. eapply rbt_plug; [exact Hk|]. cbn [pcol f_color]. by apply rbt_mk_red.
Qed.

(** *** Fuel: a path is no longer than the heap is large *)
Lemma repr_dom m p t x : repr m p t -> x ∈ inorder t -> x ∈ dom m.
Proof.
  revert p. induction t as [|c l IHl y r IHr]; intros p H Hx; cbn in *; [by apply elem_of_nil in Hx|].
  destruct H as (Hy & Hl & Hr). apply elem_of_app in Hx as [Hx|[->|Hx]%elem_of_cons]; [by eapply IHl| |by eapply IHr].
  by eapply elem_of_dom_2.
Qed.
Lemma rep_size st t rest : rep st t rest -> (length (inorder t) <= size (nodes st))%nat.
Proof.
  intros [_ H Hn _ _]. rewrite <- (size_list_to_set (C := gset Z)) by done. rewrite <- size_dom. apply subseteq_size.
  intros x Hx. apply elem_of_list_to_set in Hx. by eapply repr_dom.
Qed.
Lemma length_locs_c k : (length k <= length (locs_c k))%nat.
Proof. induction k as [|[d c x u] k IH]; cbn; [done|]. rewrite length_app. lia. Qed.
Lemma rep_depth st k t rest : rep st (plug k t) rest -> (length k + length (inorder t) <= size (nodes st))%nat.
Proof.
  intros H. apply rep_size in H. rewrite inorder_plug, length_app in H. pose proof (length_locs_c k). lia.
Qed.

Lemma on_path_eq {X A} (body : X -> RB (X + A)) x st r :
  while (2 + size (nodes st)) body x st = r -> on_path body x st = r.
Proof. done. Qed.

(** *** Linking a new node below a leaf *)
Definition link_side (k : list frame) : option side := match k with [] => None | f :: _ => Some (f_side f) end.

Lemma link_spec st k x rest n0 :
  rep st (plug k E) rest -> nodes st !! x = Some n0 -> valid x -> x ∉ locs_c k ->
  exists st', rb_link_node x (up k) (link_side k) st = Some (tt, st') /\ rep st' (plug k (mk L Red E x E)) rest.
Proof.
  intros H Hx Vx Nx. apply rep_focus in H as F. pose proof F as [Fr Ft Fc Fn Fv Fo]. cbn [inorder app] in *.
  unfold rb_link_node. run (modn_eq _ _ (fun _ => RbNode (up k) 0 0) _ Hx).
  assert (RbNode (up k) 0 0 = mkn L (up k) Red 0 0) as ->.
  { cbn. f_equal. unfold pack. cbn. by rewrite Z.lor_0_r. }
  set (m1 := <[x := _]> (nodes st)).
  assert (forall w, w <> x -> m1 !! w = nodes st !! w) as S1 by (intros; by apply lookup_insert_ne).
  assert (m1 !! x = Some (mkn L (up k) Red 0 0)) as X1 by apply lookup_insert_eq.
  destruct k as [|[d c p u] k]; cbn [link_side f_side up f_loc locs_c reprc] in *.
  - eexists. split; [reflexivity|]. apply rep_focus. split; cbn [root nodes plug mk rootloc repr reprc inorder app up locs_c].
    + done.
    + by split.
    + done.
    + apply list.NoDup_cons. split; [by intros ?%elem_of_nil|constructor].
    + by repeat constructor; apply Vx.
    + intros w Hw. rewrite S1 by (intros ->; elems). apply Fo. by intros ?%elem_of_nil.
  - destruct Fc as (Hp & Hu & Hk). assert (p <> x) by (intros ->; elems).
    assert (m1 !! p = Some (mkn d (up k) c 0 (rootloc u))) as P1 by (rewrite S1 by done; exact Hp).
    rewrite (set_child_eq (RbState m1 (root st)) _ _ _ _ _ _ x P1). eexists. split; [reflexivity|].
    cbn [nodes root]. apply list.NoDup_cons in Fn as [Np Fn].
    apply rep_focus. split; cbn [root nodes plug mk rootloc repr reprc inorder app up locs_c f_loc].
    + rewrite Fr. cbn [plug]. apply rootloc_plug. right. by rewrite !rootloc_mk.
    + rewrite lookup_insert_ne by done. by split.
    + split; [apply lookup_insert_eq|]. split; [eapply repr_ext; [|done]|eapply reprc_ext; [|done]];
        intros w Hw; (rewrite lookup_insert_ne by (intros <-; elems)); apply S1; intros ->; elems.
    + apply list.NoDup_cons. split; [elems|]. by apply list.NoDup_cons.
    + by apply Forall_cons_2.
    + intros w Hw. rewrite lookup_insert_ne by (intros <-; elems). rewrite S1 by (intros ->; elems). apply Fo. elems.
Qed.

Lemma insert_color_spec st k x rest :
  rep st (plug k (mk L Red E x E)) rest -> rb_ok (plug k E) ->
  exists st' t', rb_insert_color x st = Some (tt, st') /\ rep st' t' rest /\
    inorder t' = inorder (plug k (mk L Red E x E)) /\ rb_ok t'.
Proof.
  intros H Hok. apply rbt_unplug in Hok as (n & Hk & Ht). inversion Ht; subst.
  pose proof (rep_depth _ _ _ _ H) as Hd. cbn in Hd.
  destruct (insert_loop k st L E x E 0 (2 + size (nodes st)) rest H) as (s1 & t1 & E1 & H1 & I1 & O1); try done; [constructor..|lia|].
  unfold rb_insert_color. rewrite (bind_Some _ _ _ _ _ (on_path_eq _ _ _ _ E1)). unfold get_root, bind.
  rewrite (rep_root _ _ _ H1).
  assert (exists d c l y r, t1 = mk d c l y r) as (d & c & l & y & r & ->).
  { destruct t1 as [|c l y r]; [|by exists L, c, l, y, r]. exfalso.
    assert (x ∈ inorder E) as ?%elem_of_nil; [|done]. rewrite I1, inorder_plug. cbn. elems. }
  rewrite rootloc_mk. change (mk d c l y r) with (plug [] (mk d c l y r)) in H1.
  destruct (set_black_spec _ _ _ _ _ _ _ _ H1) as (s2 & E2 & H2). rewrite E2. exists s2, (mk d Black l y r).
  split; [done|]. split; [done|]. split; [rewrite <- I1; apply inorder_color|].
  destruct O1 as [[h O1]|(d' & l' & y' & r' & n & Em & Hl & Hr)].
  - exists h. destruct c; [by apply rbt_mk_inv_red in O1 as []|done].
  - exists (S n). assert (rbt Black n l /\ rbt Black n r) as [].
    { destruct d, d'; cbn in Em; injection Em as -> -> -> ->; split; by apply rbt_weaken. }
    by apply rbt_mk_black.
Qed.

(** ** Removal restores the invariant *)
(** [t] lacks one black node: blackening its root gives height [S n]. *)
Definition semi (n : nat) (t : tree) : Prop :=
  match t with T Red l x r => rbt Black n l /\ rbt Black n r | _ => rbt Red n t end.

Lemma erase_rotate_spec st k d c t p sl o c2 d2 e z f rest :
  rep st (plug k (mk d c t p (mk d Black sl o (mk d2 c2 e z f)))) rest ->
  exists st', erase_rotate d p o st = Some (inr (root st'), st') /\
    rep st' (plug k (mk d c (mk d Black t p sl) o (mk d2 Black e z f))) rest.
Proof.
  intros H. unfold erase_rotate. run (get_spec _ _ _ _ _ _ _ _ H). rewrite (color_spec _ _ _ _ _ _ _ _ H).
  rewrite <- mk_opp, <- plug_mk in H. step (set_color_spec _ _ _ _ _ _ _ _ H c) s1.
  rewrite plug_mk, mk_opp in Hr. step (set_black_spec _ _ _ _ _ _ _ _ Hr) s2.
  rewrite <- mk_opp, <- plug_mk in Hr0. run (get_spec _ _ _ _ _ _ _ _ Hr0). rewrite child_opp, rootloc_mk.
  rewrite <- (mk_opp d c _ o sl), <- plug_mk in Hr0.
  pose proof (rep_aligned _ _ _ _ _ _ _ _ Hr0) as (_ & [_ Hz] & _). rewrite eqb_f by done. cbn [negb when].
  step (set_black_spec _ _ _ _ _ _ _ _ Hr0) s3. rewrite !plug_mk, !mk_opp in Hr1.
  step (rotate_spec _ _ _ _ _ _ _ _ _ _ _ Hr1) s4. eexists. by split.
Qed.

(** Reading the colours of both children. *)
Lemma both_black_spec st k d c t x u rest :
  rep st (plug k (mk d c t x u)) rest ->
  let n := mkn d (up k) c (rootloc t) (rootloc u) in
  (let* bl := is_black_at (rb_left n) in if bl then is_black_at (rb_right n) else ret false) st =
  Some (negb (tree_red t) && negb (tree_red u), st).
Proof.
  intros H n. pose proof H as H'. rewrite <- plug_mk in H. rewrite <- mk_opp, <- plug_mk in H'.
  pose proof (is_black_spec _ _ _ _ H) as E1. pose proof (is_black_spec _ _ _ _ H') as E2.
  subst n. destruct d; cbn [mkn rb_left rb_right].
  - run E1. destruct (tree_red t); [done|]. exact E2.
  - run E2. destruct (tree_red u); [by rewrite andb_false_r|]. by rewrite andb_true_r.
Qed.

Lemma erase_black_spec st k d c t p sl o sr n rest :
  rep st (plug k (mk d c t p (mk d Black sl o sr))) rest ->
  rbt Red n t -> rbt Black n sl -> rbt Black n sr ->
  exists st' res, erase_black d p o st = Some (res, st') /\
    ((res = inl (p, up k) /\ rbt Red n sl /\ rbt Red n sr /\ rep st' (plug k (mk d c t p (mk d Red sl o sr))) rest) \/
     (res = inr (root st') /\ exists X o' Y, rbt Red (S n) X /\ rbt Red (S n) Y /\
        inorder (mk d c X o' Y) = inorder (mk d c t p (mk d Black sl o sr)) /\
        rep st' (plug k (mk d c X o' Y)) rest)).
Proof.
  intros H Ht Hsl Hsr. unfold erase_black. rewrite <- mk_opp, <- plug_mk in H.
  run (get_spec _ _ _ _ _ _ _ _ H). rewrite (bind_Some _ _ _ _ _ (both_black_spec _ _ _ _ _ _ _ _ H)); cbv beta.
  destruct (negb (tree_red sl) && negb (tree_red sr)) eqn:Eb.
  - apply andb_true_iff in Eb as [B1 B2]. apply negb_true_iff in B1, B2.
    step (set_red_spec _ _ _ _ _ _ _ _ H) s1. rewrite plug_mk, mk_opp in Hr.
    run (get_spec _ _ _ _ _ _ _ _ Hr). rewrite (parent_spec _ _ _ _ _ _ _ _ Hr). eexists _, _. split; [reflexivity|].
    left. split; [done|]. split; [by eapply rbt_not_red|]. split; [by eapply rbt_not_red|]. done.
  - rewrite child_opp. pose proof H as H'. rewrite <- (mk_opp d Black sr), <- plug_mk in H'.
    pose proof (is_black_spec _ _ _ _ H') as E1. run E1. clear H'.
    destruct (tree_red sr) eqn:Esr; cbn [negb] in *.
    + destruct sr as [|[] e z f]; try done. run_ret. rewrite plug_mk, mk_opp in H.
      change (T Red e z f) with (mk L Red e z f) in H, Hsr |- *.
      destruct (erase_rotate_spec _ _ _ _ _ _ _ _ _ _ _ _ _ _ H) as (s1 & E2 & H2).
      eexists _, _. split; [exact E2|]. right. split; [done|]. apply rbt_mk_inv_red in Hsr as (_ & He & Hf).
      eexists _, _, _. split; [|split; [|split; [|exact H2]]].
      * apply rbt_mk_black; [by apply rbt_weaken|done].
      * apply rbt_mk_black; by apply rbt_weaken.
      * destruct d; flat_inorder.
    + rewrite andb_true_r in Eb. apply negb_false_iff in Eb. destruct sl as [|[] a y b]; try done.
      assert (exists a' b', T Red a y b = mk d Red a' y b' /\ rbt Red n a' /\ rbt Red n b') as (a' & b' & Em & Ha & Hb).
      { inversion Hsl; subst. destruct d; cbn; eauto 10. }
      rewrite Em in *. rewrite child_same, rootloc_mk, <- plug_mk in *.
      pose proof (rep_aligned _ _ _ _ _ _ _ _ H) as (_ & [_ Hz] & _). rewrite eqb_f by done. cbn [negb when].
      rewrite !bind_assoc. step (set_black_spec _ _ _ _ _ _ _ _ H) s1. rewrite (plug_mk d Black) in Hr.
      step (set_red_spec _ _ _ _ _ _ _ _ Hr) s2. rewrite <- (mk_opp d Red), <- (mk_opp d Black) in Hr0.
      step (rotate_spec _ _ _ _ _ _ _ _ _ _ _ Hr0) s3. rewrite !mk_opp, plug_mk, mk_opp in Hr1.
      run (get_spec _ _ _ _ _ _ _ _ Hr1). run_ret. rewrite child_opp, rootloc_mk.
      destruct (erase_rotate_spec _ _ _ _ _ _ _ _ _ _ _ _ _ _ Hr1) as (s4 & E9 & H2).
      eexists _, _. split; [exact E9|]. right. split; [done|].
      eexists _, _, _. split; [|split; [|split; [|exact H2]]].
      * apply rbt_mk_black; by apply rbt_weaken.
      * apply rbt_mk_black; [by apply rbt_weaken|done].
      * destruct d; flat_inorder.
Qed.

Lemma semi_red d n t x u : rbt Black n t -> rbt Black n u -> semi n (mk d Red t x u).
Proof. by destruct d. Qed.
Lemma semi_not_red n t : rbt Red n t -> semi n t.
Proof. destruct t as [|[] l x r]; [done|inversion 1|done]. Qed.
Lemma semi_inv n t : tree_red t = false -> semi n t -> rbt Red n t.
Proof. by destruct t as [|[]]. Qed.

(** One round of the loop: either the problem moves up, or it is solved. *)
Definition round_out (st' : rb_state) (res : Z * Z + Z) (k : list frame) (t0 : tree) (rest : gmap Z rb_node) : Prop :=
  (exists k2 t2 m, res = inl (rootloc t2, up k2) /\ rep st' (plug k2 t2) rest /\ inorder (plug k2 t2) = inorder t0 /\
     ctxok k2 (S m) /\ semi m t2 /\ (k2 = k \/ tree_red t2 = true)) \/
  (exists t2, res = inr (root st') /\ rep st' t2 rest /\ inorder t2 = inorder t0 /\ rb_ok t2).

(** With a black sibling, in a context that expects the height it had. *)
Lemma erase_black_out st k k0 d c t p sl o sr n t0 rest :
  rep st (plug k (mk d c t p (mk d Black sl o sr))) rest ->
  inorder (plug k (mk d c t p (mk d Black sl o sr))) = inorder t0 ->
  rbt Red n t -> rbt Black n sl -> rbt Black n sr ->
  ctxok k (match c with Red => S n | Black => S (S n) end) -> (c = Red -> pcol k = Black) -> (k = k0 \/ c = Red) ->
  exists st' res, erase_black d p o st = Some (res, st') /\ round_out st' res k0 t0 rest.
Proof.
  intros H HI Ht Hsl Hsr Hk Hc Hk0.
  destruct (erase_black_spec _ _ _ _ _ _ _ _ _ n _ H Ht Hsl Hsr) as (st' & res & E1 & [(-> & Bl & Br & H1)|(-> & X & o' & Y & HX & HY & I1 & H1)]);
    eexists _, _; (split; [exact E1|]).
  - left. exists k, (mk d c t p (mk d Red sl o sr)), (match c with Red => n | Black => S n end).
    rewrite rootloc_mk. split; [done|]. split; [done|]. split; [rewrite <- HI; apply inorder_plug_eq; by destruct d|].
    split; [by destruct c|]. split.
    + destruct c; [apply semi_red; [by apply rbt_weaken|by apply rbt_mk_red]|].
      apply semi_not_red, rbt_mk_black; [by apply rbt_weaken|by apply rbt_mk_red].
    + destruct Hk0 as [|Hk0]; [by left|right]. subst c. by destruct d.
  - right. exists (plug k (mk d c X o' Y)). split; [done|]. split; [done|].
    split; [rewrite <- HI; by apply inorder_plug_eq|]. eapply rbt_plug; [exact Hk|]. destruct c.
    + rewrite Hc by done. by apply rbt_mk_red.
    + apply rbt_mk_black; by apply rbt_weaken.
Qed.

Lemma erase_fix_out st k d c t p s n rest :
  rep st (plug k (mk d c t p s)) rest -> rbt Red n t -> rbt c (S n) s ->
  ctxok k (match c with Red => S n | Black => S (S n) end) -> (c = Red -> pcol k = Black) ->
  exists st' res, erase_fix d p st = Some (res, st') /\ round_out st' res k (plug k (mk d c t p s)) rest.
Proof.
  intros H Ht Hs Hk Hc. destruct s as [|cs sl0 o sr0]; [inversion Hs|].
  destruct (mk_side L cs sl0 o sr0 d) as (sl & sr & Em). cbn [mk] in Em. rewrite Em in *. clear Em sl0 sr0.
  unfold erase_fix. run (get_spec _ _ _ _ _ _ _ _ H). rewrite child_opp, rootloc_mk.
  pose proof H as H'. rewrite <- mk_opp, <- plug_mk in H'. run (get_spec _ _ _ _ _ _ _ _ H').
  unfold rb_is_red. rewrite (color_spec _ _ _ _ _ _ _ _ H'). destruct cs; cbn [colz]; unfold RB_RED, RB_BLACK; cbn [Z.eqb].
  - apply rbt_mk_inv_red in Hs as (-> & Hsl & Hsr). rewrite !bind_assoc.
    step (set_black_spec _ _ _ _ _ _ _ _ H') s1. rewrite plug_mk, mk_opp in Hr.
    step (set_red_spec _ _ _ _ _ _ _ _ Hr) s2. step (rotate_spec _ _ _ _ _ _ _ _ _ _ _ Hr0) s3.
    rewrite <- plug_mk in Hr1. run (get_spec _ _ _ _ _ _ _ _ Hr1). run_ret. rewrite child_opp.
    destruct sl as [|cl a0 y b0]; [inversion Hsl|]. destruct (mk_side L cl a0 y b0 d) as (a & b & Em). cbn [mk] in Em.
    rewrite Em in *. clear Em a0 b0. rewrite rootloc_mk. destruct cl; [by apply rbt_mk_inv_red in Hsl as []|].
    apply rbt_mk_inv_black in Hsl as (n' & [= <-] & Ha & Hb).
    eapply erase_black_out; [exact Hr1| |exact Ht|done|done| |done|by right].
    + cbn [plug]. apply inorder_plug_eq. rewrite inorder_rotate. by destruct d.
    + cbn [ctxok]. split; [by apply rbt_weaken|]. by split.
  - apply rbt_mk_inv_black in Hs as (n' & [= <-] & Hsl & Hsr). run_ret.
    eapply erase_black_out; [exact H|done|exact Ht|done|done|done|done|by left].
Qed.

(** What the loop leaves: blackening [node] finishes the tree. *)
Definition finish (node : Z) (t : tree) : Prop :=
  (t = E /\ node = 0) \/
  (exists k2 d c l x r, t = plug k2 (mk d c l x r) /\ node = x /\ rb_ok (plug k2 (mk d Black l x r))).

Lemma finish_root t : rb_ok t -> finish (rootloc t) t.
Proof.
  intros [h H]. destruct t as [|c l x r]; [by left|right]. exists [], L, c, l, x, r. split; [done|]. split; [done|].
  inversion H; subst. by exists (S n).
Qed.
Lemma finish_stop k t n : semi n t -> ctxok k (S n) -> k = [] \/ tree_red t = true -> finish (rootloc t) (plug k t).
Proof.
  intros Hs Hk Hc. destruct t as [|c l x r].
  - destruct Hc as [->|]; [by left|done].
  - right. exists k, L, c, l, x, r. split; [done|]. split; [done|]. destruct c.
    + destruct Hs. eapply rbt_plug; [exact Hk|]. by apply (rbt_mk_black L).
    + destruct Hc as [->|]; [|done]. by exists n.
Qed.
Lemma plug_root_in f k t : rootloc (plug (f :: k) t) ∈ locs_c (f :: k).
Proof.
  revert f t. induction k as [|f' k IH]; intros [d c x u] t; cbn [plug locs_c].
  - rewrite rootloc_mk. elems.
  - specialize (IH f' (mk d c t x u)). destruct f'. cbn [plug locs_c] in *. elems.
Qed.
Lemma root_ne st f k t rest : rep st (plug (f :: k) t) rest -> rootloc t <> root st.
Proof.
  intros H Heq. apply rep_focus in H as [Hr _ _ Hn Hv _]. apply Forall_app in Hv as [Hv1 Hv2].
  pose proof (plug_root_in f k t) as Hin. rewrite <- Hr, <- Heq in Hin.
  destruct (decide (t = E)) as [->|Ht].
  - rewrite list.Forall_forall in Hv2. by destruct (Hv2 _ Hin) as [_ ?].
  - apply list.NoDup_app in Hn as (_ & Hd & _). apply (Hd (rootloc t)); [by apply rootloc_in|done].
Qed.

Lemma erase_stop st k t rest :
  rep st (plug k t) rest -> k = [] \/ tree_red t = true ->
  erase_round (rootloc t, up k) st = Some (inr (rootloc t), st).
Proof.
  intros H Hc. unfold erase_round. run (is_black_spec _ _ _ _ H). unfold get_root, bind.
  destruct (tree_red t) eqn:Et; cbn [negb andb]; [done|]. destruct Hc as [->|]; [|done].
  rewrite (rep_root _ _ _ H). cbn [plug]. by rewrite Z.eqb_refl.
Qed.

Lemma erase_loop k : forall st t n f rest,
  rep st (plug k t) rest -> semi n t -> ctxok k (S n) -> (length k + 1 < f)%nat ->
  exists st' t' node, while f erase_round (rootloc t, up k) st = Some (node, st') /\ rep st' t' rest /\
    inorder t' = inorder (plug k t) /\ finish node t'.
Proof.
  induction k as [|[d c p s] k IH]; intros st t n f rest H Ht Hk Hf; (destruct f as [|f]; [cbn in Hf; lia|]); rewrite while_S.
  { run (erase_stop _ _ _ _ H (or_introl eq_refl)). exists st. eexists _, _. split; [done|]. split; [exact H|]. split; [done|].
    eapply finish_stop; [exact Ht|done|by left]. }
  destruct (tree_red t) eqn:Et.
  { run (erase_stop _ _ _ _ H (or_intror Et)). exists st. eexists _, _. split; [done|]. split; [exact H|]. split; [done|].
    eapply finish_stop; [exact Ht|done|by right]. }
  unfold erase_round at 1. rewrite !bind_assoc. run (is_black_spec _ _ _ _ H). rewrite Et. cbn [negb andb].
  run (eq_refl : get_root st = Some (root st, st)). pose proof (root_ne _ _ _ _ _ H). rewrite eqb_f by done. cbn [negb].
  rewrite plug_mk in H. cbn [up f_loc]. run (get_spec _ _ _ _ _ _ _ _ H). destruct Hk as (Hs & Hc & Hk).
  assert ((if rb_left (mkn d (up k) c (rootloc t) (rootloc s)) =? rootloc t then L else R) = d) as ->.
  { destruct d; cbn; [by rewrite Z.eqb_refl|]. rewrite eqb_f; [done|].
    apply (roots_ne st k L c s p t rest); [exact H|]. intros ->. inversion Hs. }
  destruct (erase_fix_out _ _ _ _ _ _ _ n _ H (semi_inv _ _ Et Ht) Hs Hk Hc) as (s1 & res & E1 & [HA|HB]); run E1.
  - destruct HA as (k2 & t2 & m & -> & H2 & I2 & Hk2 & Ht2 & Hor).
    assert (k2 = k /\ tree_red t2 = false \/ tree_red t2 = true) as [[-> _]|Hred].
    { destruct (tree_red t2); [by right|left]. by destruct Hor. }
    + destruct (IH s1 t2 m f rest H2 Ht2 Hk2 ltac:(cbn in Hf; lia)) as (s2 & t' & node & E2 & H3 & I3 & F3).
      exists s2, t', node. split; [done|]. split; [done|]. split; [|done]. by rewrite I3, I2.
    + destruct f as [|f]; [cbn in Hf; lia|]. rewrite while_S. run (erase_stop _ _ _ _ H2 (or_intror Hred)).
      exists s1. eexists _, _. split; [done|]. split; [exact H2|]. split; [done|]. eapply finish_stop; [exact Ht2|done|by right].
  - destruct HB as (t2 & -> & H2 & I2 & O2). exists s1, t2, (root s1). split; [done|]. split; [done|]. split; [done|].
    rewrite (rep_root _ _ _ H2). by apply finish_root.
Qed.

Lemma erase_color_spec st k t n rest :
  rep st (plug k t) rest -> semi n t -> ctxok k (S n) ->
  exists st' t', __rb_erase_color (rootloc t) (up k) st = Some (tt, st') /\ rep st' t' rest /\
    inorder t' = inorder (plug k t) /\ rb_ok t'.
Proof.
  intros H Ht Hk. unfold __rb_erase_color.
  assert (length k + 1 < 2 + size (nodes st))%nat as Hf by (pose proof (rep_depth _ _ _ _ H); lia).
  destruct (erase_loop k st t n _ rest H Ht Hk Hf) as (s1 & t1 & node & E1 & H1 & I1 & F1).
  rewrite (bind_Some _ _ _ _ _ (on_path_eq _ _ _ _ E1)). destruct F1 as [[-> ->]|(k2 & d & c & l & x & r & -> & -> & O)].
  - exists s1, E. split; [done|]. split; [done|]. split; [done|]. by exists 0%nat.
  - pose proof (rep_aligned _ _ _ _ _ _ _ _ H1) as (_ & [_ Hx] & _). rewrite eqb_f by done. cbn [negb when].
    destruct (set_black_spec _ _ _ _ _ _ _ _ H1) as (s2 & E2 & H2). rewrite E2. exists s2. eexists.
    split; [done|]. split; [exact H2|]. split; [|done]. rewrite <- I1. apply inorder_plug_eq, inorder_color.
Qed.

(** ** Unlinking a node with at most one child *)
(** The context and the remaining child after [x] has been bypassed. *)
Lemma splice_rep st s1 k d c x ch n0 rest :
  rep st (plug k (mk d c E x ch)) rest -> nodes st !! x = Some n0 ->
  reprc (nodes s1) k (rootloc ch) -> repr (nodes s1) (up k) ch ->
  root s1 = rootloc (plug k ch) -> (forall w, w ∉ inorder ch ++ locs_c k -> nodes s1 !! w = nodes st !! w) ->
  rep s1 (plug k ch) (<[x := n0]> rest).
Proof.
  intros H Hx Hk Hch Hroot Hsame. apply rep_focus in H as [Fr Ft Fc Fn Fv Fo]. rewrite inorder_mk in Fn, Fv. cbn [inorder app] in *.
  apply list.NoDup_cons in Fn as [Nx Fn]. apply Forall_cons_iff in Fv as [_ Fv]. apply rep_focus. split; try done.
  intros w Hw. rewrite Hsame by done. destruct (decide (w = x)) as [->|Hne]; [by rewrite lookup_insert_eq|].
  rewrite lookup_insert_ne by done. apply Fo. rewrite inorder_mk. cbn [inorder app]. elems.
Qed.

(** The facts about the parts of a tree with a one-child node in focus. *)
Lemma one_child_parts st k d c x ch rest :
  rep st (plug k (mk d c E x ch)) rest ->
  reprc (nodes st) k x /\ repr (nodes st) x ch /\ NoDup (x :: locs_c k) /\ NoDup (inorder ch) /\
  (forall w, w ∈ inorder ch -> w <> x /\ w ∉ locs_c k) /\
  Forall valid (x :: locs_c k) /\ Forall valid (inorder ch) /\ aligned (up k) /\ aligned x /\
  nodes st !! x = Some (mkn d (up k) c 0 (rootloc ch)) /\ root st = rootloc (plug k (mk d c E x ch)).
Proof.
  intros H. destruct (rep_aligned _ _ _ _ _ _ _ _ H) as (Ak & Vx & Ax & _).
  apply rep_focus in H as [Fr Ft Fc Fn Fv Fo]. apply repr_mk in Ft as (Hx & _ & Hch). rewrite rootloc_mk in Fc.
  rewrite inorder_mk in Fn, Fv. cbn [inorder app] in *. apply list.NoDup_cons in Fn as [Nx Fn].
  apply list.NoDup_app in Fn as (Nc & Dc & Nk). apply Forall_cons_iff in Fv as [_ Fv]. apply Forall_app in Fv as [Vc Vk].
  split; [done|]. split; [done|]. split; [apply list.NoDup_cons; split; [elems|done]|]. split; [done|].
  split; [intros w Hw; split; [intros ->; elems|by apply Dc]|]. split; [by apply Forall_cons_2|]. by split.
Qed.

Lemma unlink_spec st k d c x ch rest :
  rep st (plug k (mk d c E x ch)) rest ->
  exists st' n0, (when (negb (rootloc ch =? 0)) (rb_set_parent (rootloc ch) (up k)) ;; relink L (up k) x (rootloc ch)) st =
      Some (tt, st') /\ rep st' (plug k ch) (<[x := n0]> rest).
Proof.
  intros H. destruct (one_child_parts _ _ _ _ _ _ _ H) as (Hk & Hch & Nk & Nc & Dc & Vk & Vc & Ak & Ax & Hx & Hroot).
  destruct (reparent_spec _ _ _ _ Hch Nc Vc Ax Ak) as (s1 & E1 & R1 & C1 & S1). run E1.
  assert (reprc (nodes s1) k x) as K1.
  { eapply reprc_ext; [|done]. intros w Hw. apply S1. intros Hw'. by destruct (Dc w Hw'). }
  destruct (relink_spec s1 L k x (rootloc ch) K1 Nk Vk) as (s2 & E2 & K2 & R2 & S2).
  exists s2. eexists. split; [exact E2|]. eapply splice_rep; [exact H|exact Hx|done| | |].
  - eapply repr_ext; [|done]. intros w Hw. apply S2. by destruct (Dc w Hw).
  - rewrite R2. destruct k as [|f k]; [done|]. cbn [decide]. rewrite R1, Hroot. apply rootloc_plug. by left.
  - intros w Hw. rewrite S2, S1 by elems. done.
Qed.

(** ** Going down on one side *)
Lemma plug_app k1 k2 t : plug (k1 ++ k2) t = plug k2 (plug k1 t).
Proof. revert t. induction k1 as [|[d c x u] k1 IH]; intros t; cbn; [done|]. by rewrite IH. Qed.

Lemma down_loop d r : forall st k f rest,
  rep st (plug k r) rest -> r <> E -> (length (inorder r) <= f)%nat ->
  exists kr c y u, r = plug kr (mk d c E y u) /\ Forall (fun fr => f_side fr = d) kr /\
    while f (down_round d) (rootloc r) st = Some (y, st).
Proof.
  assert (forall c t x u, (forall st k f rest, rep st (plug k t) rest -> t <> E -> (length (inorder t) <= f)%nat ->
      exists kr c y u, t = plug kr (mk d c E y u) /\ Forall (fun fr => f_side fr = d) kr /\
        while f (down_round d) (rootloc t) st = Some (y, st)) ->
    forall st k f rest, rep st (plug k (mk d c t x u)) rest -> (length (inorder (mk d c t x u)) <= f)%nat ->
      exists kr c' y u', mk d c t x u = plug kr (mk d c' E y u') /\ Forall (fun fr => f_side fr = d) kr /\
        while f (down_round d) x st = Some (y, st)) as Hstep.
  { intros c t x u IH st k f rest H Hf. rewrite inorder_mk in Hf. cbn in Hf. rewrite length_app in Hf.
    destruct f as [|f]; [lia|]. rewrite while_S. unfold down_round at 1. rewrite !bind_assoc.
    run (get_spec _ _ _ _ _ _ _ _ H). run_ret. rewrite child_same. rewrite <- plug_mk in H.
    destruct (decide (t = E)) as [->|Ht].
    - cbn. exists [], c, x, u. split; [done|]. by split.
    - assert (rootloc t <> 0) as Hz.
      { apply rep_focus in H as [_ _ _ _ Hv _]. apply Forall_app in Hv as [Hv _]. by rewrite rootloc_E. }
      rewrite eqb_f by done. cbn [negb].
      destruct (IH st _ f rest H Ht ltac:(lia)) as (kr & c' & y & u' & Et & Hs & Ew).
      exists (kr ++ [Frame d c x u]), c', y, u'. rewrite plug_app. cbn [plug]. rewrite <- Et. split; [done|].
      split; [|done]. apply Forall_app. split; [done|]. by constructor. }
  induction r as [|c l IHl x r IHr]; intros st k f rest H Hne Hf; [done|]. destruct d.
  - by apply (Hstep c l x r IHl st k f rest).
  - by apply (Hstep c r x l IHr st k f rest).
Qed.

Lemma walk_down_spec d st k r rest :
  rep st (plug k r) rest -> r <> E ->
  exists kr c y u, r = plug kr (mk d c E y u) /\ Forall (fun fr => f_side fr = d) kr /\
    walk_down d (rootloc r) st = Some (y, st).
Proof.
  intros H Hne. pose proof (rep_depth _ _ _ _ H). apply (down_loop d r st k _ rest H Hne). lia.
Qed.

(** ** Unlinking a node with two children: its successor takes its place *)
Lemma set_slot_spec st d c p u k a b :
  reprc (nodes st) (Frame d c p u :: k) a -> NoDup (locs_c (Frame d c p u :: k)) ->
  exists st', set_child p d b st = Some (tt, st') /\ reprc (nodes st') (Frame d c p u :: k) b /\
    root st' = root st /\ (forall w, w <> p -> nodes st' !! w = nodes st !! w).
Proof.
  intros (Hp & Hu & Hk) Hn. cbn [locs_c] in Hn. apply list.NoDup_cons in Hn as [Np _].
  rewrite (set_child_eq _ _ _ _ _ _ _ b Hp). eexists. split; [done|]. cbn [nodes root reprc]. split; [|split; [done|]].
  - split; [apply lookup_insert_eq|]. split; [eapply repr_ext; [|done]|eapply reprc_ext; [|done]];
      intros w Hw; apply lookup_insert_ne; intros <-; elems.
  - intros w Hw. by apply lookup_insert_ne.
Qed.

(** Bypassing a one-child node through its parent's slot, which is known. *)
Lemma bypass_spec st d1 c1 p u1 k d c x ch rest :
  let K := Frame d1 c1 p u1 :: k in
  rep st (plug K (mk d c E x ch)) rest ->
  exists st' n0, (when (negb (rootloc ch =? 0)) (rb_set_parent (rootloc ch) p) ;; set_child p d1 (rootloc ch)) st =
      Some (tt, st') /\ rep st' (plug K ch) (<[x := n0]> rest) /\ (forall w, w ∉ inorder ch ++ locs_c K -> nodes st' !! w = nodes st !! w).
Proof.
  intros K H. destruct (one_child_parts _ _ _ _ _ _ _ H) as (Hk & Hch & Nk & Nc & Dc & Vk & Vc & Ak & Ax & Hx & Hroot).
  destruct (reparent_spec _ _ _ _ Hch Nc Vc Ax Ak) as (s1 & E1 & R1 & C1 & S1). run E1.
  assert (reprc (nodes s1) K x) as K1.
  { eapply reprc_ext; [|done]. intros w Hw. apply S1. intros Hw'. by destruct (Dc w Hw'). }
  apply list.NoDup_cons in Nk as [Nx Nk].
  destruct (set_slot_spec s1 _ _ _ _ _ _ (rootloc ch) K1 Nk) as (s2 & E2 & K2 & R2 & S2).
  assert (forall w, w ∉ inorder ch ++ locs_c K -> nodes s2 !! w = nodes st !! w) as Hsame.
  { intros w Hw. rewrite S2, S1; [done|elems|]. intros ->. unfold K in Hw. cbn [locs_c] in Hw. elems. }
  exists s2. eexists. split; [exact E2|]. split; [|done]. eapply splice_rep; [exact H|exact Hx|done| | |done].
  - eapply repr_ext; [|done]. intros w Hw. apply S2. intros ->. destruct (Dc p Hw) as [_ Hn]. apply Hn. unfold K. cbn. elems.
  - rewrite R2, R1, Hroot. apply rootloc_plug. by left.
Qed.

(** The neighbours of [x] are told about [y]. *)
Lemma adopt_spec st k l x r y :
  reprc (nodes st) k x -> repr (nodes st) x l -> repr (nodes st) x r ->
  NoDup (x :: inorder l ++ inorder r ++ locs_c k) -> Forall valid (x :: inorder l ++ inorder r ++ locs_c k) -> aligned y ->
  exists s1 s2 s3, relink L (up k) x y st = Some (tt, s1) /\
    when (negb (rootloc l =? 0)) (rb_set_parent (rootloc l) y) s1 = Some (tt, s2) /\
    when (negb (rootloc r =? 0)) (rb_set_parent (rootloc r) y) s2 = Some (tt, s3) /\
    reprc (nodes s3) k y /\ repr (nodes s3) y l /\ repr (nodes s3) y r /\
    root s3 = (if decide (k = []) then y else root st) /\
    (forall w, w ∉ inorder l ++ inorder r ++ locs_c k ->
       nodes s1 !! w = nodes st !! w /\ nodes s2 !! w = nodes st !! w /\ nodes s3 !! w = nodes st !! w).
Proof.
  intros Hk Hl Hr Hn Hv Ay. apply list.NoDup_cons in Hn as [Nx Hn]. apply list.NoDup_app in Hn as (Nl & Dl & Hn).
  apply list.NoDup_app in Hn as (Nr & Dr & Nk). apply Forall_cons_iff in Hv as [Vx Hv]. apply Forall_app in Hv as [Vl Hv].
  apply Forall_app in Hv as [Vr Vk].
  destruct (relink_spec st L k x y Hk) as (s1 & E1 & K1 & R1 & S1).
  { apply list.NoDup_cons. split; [elems|done]. }
  { by apply Forall_cons_2. }
  assert (repr (nodes s1) x l) as L1.
  { eapply repr_ext; [|done]. intros w Hw. apply S1. intros Hw'. apply (Dl w Hw). elems. }
  destruct (reparent_spec s1 x y l L1 Nl Vl ltac:(apply Vx) Ay) as (s2 & E2 & R2 & L2 & S2).
  assert (repr (nodes s2) x r) as Q2.
  { eapply repr_ext; [|done]. intros w Hw. rewrite S2, S1; [done|by apply Dr|]. intros Hw'. apply (Dl w Hw'). elems. }
  destruct (reparent_spec s2 x y r Q2 Nr Vr ltac:(apply Vx) Ay) as (s3 & E3 & R3 & Q3 & S3).
  exists s1, s2, s3. split; [done|]. split; [done|]. split; [done|]. split; [|split; [|split; [done|split]]].
  - eapply reprc_ext; [|done]. intros w Hw. rewrite S3, S2; [done| |].
    + intros Hw'. apply (Dl w Hw'). elems.
    + intros Hw'. by apply (Dr w Hw').
  - eapply repr_ext; [|done]. intros w Hw. apply S3. intros Hw'. apply (Dl w Hw). elems.
  - by rewrite R3, R2, R1.
  - intros w Hw. rewrite S3, S2, S1 by elems. done.
Qed.

(** The parts of a tree with a node in focus. *)
Lemma node_parts st k c l x r rest :
  rep st (plug k (mk L c l x r)) rest ->
  reprc (nodes st) k x /\ repr (nodes st) x l /\ repr (nodes st) x r /\
  NoDup (x :: inorder l ++ inorder r ++ locs_c k) /\ Forall valid (x :: inorder l ++ inorder r ++ locs_c k) /\
  nodes st !! x = Some (mkn L (up k) c (rootloc l) (rootloc r)) /\ aligned (up k) /\
  root st = rootloc (plug k (mk L c l x r)) /\
  (forall w, w ∉ x :: inorder l ++ inorder r ++ locs_c k -> nodes st !! w = rest !! w).
Proof.
  intros H. destruct (rep_aligned _ _ _ _ _ _ _ _ H) as (Ak & _). apply rep_focus in H as [Fr Ft Fc Fn Fv Fo].
  apply repr_mk in Ft as (Hx & Hl & Hr). rewrite inorder_mk in Fn, Fv. cbn [app] in Fn, Fv. rewrite <- app_assoc in Fn, Fv.
  split; [done|]. split; [done|]. split; [done|]. split; [done|]. split; [done|]. split; [done|]. split; [done|].
  split; [done|]. intros w Hw. apply Fo. rewrite inorder_mk. cbn [app]. by rewrite <- app_assoc.
Qed.

(** The result: [y] is where [x] was. *)
Lemma replaced_rep st st' k c l x r y n0 rest :
  rep st (plug k (mk L c l x r)) rest -> nodes st !! x = Some n0 -> valid y ->
  y ∉ x :: inorder l ++ inorder r ++ locs_c k ->
  reprc (nodes st') k y -> repr (nodes st') y l -> repr (nodes st') y r ->
  nodes st' !! y = Some (mkn L (up k) c (rootloc l) (rootloc r)) -> root st' = (if decide (k = []) then y else root st) ->
  (forall w, w ∉ inorder l ++ inorder r ++ locs_c k -> w <> y -> nodes st' !! w = nodes st !! w) ->
  rep st' (plug k (mk L c l y r)) (<[x := n0]> rest).
Proof.
  intros H Hx0 Vy Ny Hk Hl Hr Hy Hroot Hsame.
  destruct (node_parts _ _ _ _ _ _ _ H) as (_ & _ & _ & Hn & Hv & Hx & _ & Hr0 & Ho).
  apply list.NoDup_cons in Hn as [Nx Hn]. apply Forall_cons_iff in Hv as [_ Hv]. apply rep_focus.
  split; rewrite ?inorder_mk, ?rootloc_mk; cbn [app]; rewrite <- ?app_assoc.
  - rewrite Hroot. destruct k as [|f k]; [done|]. cbn [decide]. rewrite Hr0. apply rootloc_plug. by left.
  - by apply repr_mk.
  - done.
  - apply list.NoDup_cons. split; [elems|done].
  - by apply Forall_cons_2.
  - intros w Hw. rewrite inorder_mk in Hw. cbn [app] in Hw. rewrite <- app_assoc in Hw.
    destruct (decide (w = x)) as [->|Hne].
    + rewrite lookup_insert_eq, Hsame; [done|elems|intros ->; elems].
    + rewrite lookup_insert_ne by done. rewrite Hsame by elems. apply Ho. elems.
Qed.

Lemma take_place_spec {A} (M : RB A) st k c l x r y ny rest :
  rep st (plug k (mk L c l x r)) rest -> nodes st !! y = Some ny -> valid y ->
  y ∉ x :: inorder l ++ inorder r ++ locs_c k -> l <> E ->
  exists st' n0, (let* o := getn x in
     modn y (fun _ => o) ;;
     relink L (rb_parent o) x y ;;
     rb_set_parent (rb_left o) y ;;
     when (negb (rb_right o =? 0)) (rb_set_parent (rb_right o) y) ;; M) st = M st' /\
    rep st' (plug k (mk L c l y r)) (<[x := n0]> rest).
Proof.
  intros H Hy Vy Ny Hl. destruct (node_parts _ _ _ _ _ _ _ H) as (Fc & Fl & Fr & Fn & Fv & Hx & Ak & Hroot & Ho).
  run (getn_eq _ _ _ Hx). unfold rb_parent. rewrite pc_mkn, pack_parent by done. cbn [mkn rb_left rb_right].
  run (modn_eq _ _ (fun _ => RbNode (pack (up k) c) (rootloc r) (rootloc l)) _ Hy). set (s0 := RbState _ _).
  assert (forall w, w <> y -> nodes s0 !! w = nodes st !! w) as S0 by (intros; by apply lookup_insert_ne).
  destruct (adopt_spec s0 k l x r y) as (s1 & s2 & s3 & E1 & E2 & E3 & K3 & L3 & R3 & T3 & S3).
  { eapply reprc_ext; [|done]. intros w Hw. apply S0. intros ->. elems. }
  { eapply repr_ext; [|done]. intros w Hw. apply S0. intros ->. elems. }
  { eapply repr_ext; [|done]. intros w Hw. apply S0. intros ->. elems. }
  { done. }
  { done. }
  { by destruct Vy. }
  run E1. assert (rootloc l <> 0) as Hz.
  { apply Forall_cons_iff in Fv as [_ Fv]. apply Forall_app in Fv as [Fv _]. by rewrite rootloc_E. }
  rewrite eqb_f in E2 by done. cbn [negb when] in E2. run E2. run E3. exists s3. eexists. split; [done|].
  eapply replaced_rep; [exact H|exact Hx|done|done|done|done|done| |done|].
  - destruct (S3 y) as (_ & _ & ->); [elems|]. apply lookup_insert_eq.
  - intros w Hw Hwy. destruct (S3 w Hw) as (_ & _ & ->). by apply S0.
Qed.

(** ** [rb_erase] *)
Lemma semi_of_rbt n t : rbt Black n t -> semi n t.
Proof. inversion 1; subst; cbn; auto using rbt_weaken. Qed.

Lemma fixup_spec st k d c x ch k0 rest :
  rep st (plug k ch) rest -> rb_ok (plug k0 (mk d c E x ch)) ->
  (forall n, ctxok k0 n -> ctxok k n) -> pcol k = pcol k0 ->
  exists st' t', when (colz c =? RB_BLACK) (__rb_erase_color (rootloc ch) (up k)) st = Some (tt, st') /\
    rep st' t' rest /\ inorder t' = inorder (plug k ch) /\ rb_ok t'.
Proof.
  intros H Hok Hk Hp. apply rbt_unplug in Hok as (n & Hc & Ht). apply Hk in Hc. destruct c; cbn.
  - apply rbt_mk_inv_red in Ht as (_ & _ & Ht). exists st, (plug k ch). split; [done|]. split; [done|]. split; [done|].
    eapply rbt_plug; [exact Hc|]. by apply rbt_any.
  - apply rbt_mk_inv_black in Ht as (n' & -> & _ & Ht). eapply erase_color_spec; [done|by apply semi_of_rbt|done].
Qed.

Lemma pcol_rename kr d c x y u k : pcol (kr ++ Frame d c x u :: k) = pcol (kr ++ Frame d c y u :: k).
Proof. by destruct kr. Qed.
Lemma ctxok_rename kr d c x y u k n : ctxok (kr ++ Frame d c x u :: k) n -> ctxok (kr ++ Frame d c y u :: k) n.
Proof.
  revert n. induction kr as [|[d' c' z w] kr IH]; intros n; [done|]. cbn [app ctxok].
  rewrite (pcol_rename kr d c y x). intros (H1 & H2 & H3). auto.
Qed.

(** A context of left sides adds nodes only behind. *)
Lemma left_path kr : Forall (fun fr => f_side fr = L) kr -> exists B, forall t, inorder (plug kr t) = inorder t ++ B.
Proof.
  induction 1 as [|[d c x u] kr Hd Hkr [B IH]]; [exists []; intros; by rewrite app_nil_r|]. cbn in Hd. subst d.
  exists (x :: inorder u ++ B). intros t. cbn [plug mk]. rewrite IH. flat_inorder.
Qed.
Lemma right_path kr : Forall (fun fr => f_side fr = R) kr -> exists B, forall t, inorder (plug kr t) = B ++ inorder t.
Proof.
  induction 1 as [|[d c x u] kr Hd Hkr [B IH]]; [by exists []|]. cbn in Hd. subst d.
  exists (B ++ inorder u ++ [x]). intros t. cbn [plug mk]. rewrite IH. flat_inorder.
Qed.

Lemma colors_eq c : (colz c =? RB_BLACK) = is_black c.
Proof. by destruct c. Qed.

(** At most one child. *)
Lemma erase_one st k d c x ch rest :
  rep st (plug k (mk d c E x ch)) rest -> rb_ok (plug k (mk d c E x ch)) ->
  exists st' t' n0, rb_erase x st = Some (tt, st') /\ rep st' t' (<[x := n0]> rest) /\
    inorder t' = inorder (plug k ch) /\ rb_ok t'.
Proof.
  intros H Hok. unfold rb_erase. run (get_spec _ _ _ _ _ _ _ _ H).
  set (n := mkn d (up k) c (rootloc E) (rootloc ch)).
  assert (negb (rb_left n =? 0) && negb (rb_right n =? 0) = false) as ->.
  { subst n. destruct d; cbn; [done|]. by rewrite andb_false_r. }
  assert ((if rb_left n =? 0 then rb_right n else rb_left n) = rootloc ch) as ->.
  { subst n. destruct d; cbn; [done|]. case_match eqn:E0; [|done]. apply Z.eqb_eq in E0. by rewrite E0. }
  subst n. rewrite (parent_spec _ _ _ _ _ _ _ _ H), (color_spec _ _ _ _ _ _ _ _ H).
  destruct (unlink_spec _ _ _ _ _ _ _ H) as (s1 & n0 & E1 & H1).
  destruct (fixup_spec s1 k d c x ch k _ H1 Hok) as (s2 & t2 & E2 & H2 & I2 & O2); [done|done|].
  exists s2, t2, n0. split; [|done]. rewrite <- E2. rewrite !bind_assoc.
  unfold bind in E1 |- *. destruct (when _ _ st) as [[[] s']|]; [|done]. rewrite E1. done.
Qed.

Lemma inorder_split k : exists A B, forall t, inorder (plug k t) = A ++ inorder t ++ B.
Proof.
  induction k as [|[d c x u] k (A & B & IH)]; [exists [], []; intros; by rewrite app_nil_r|].
  destruct d; [exists A, (x :: inorder u ++ B)|exists (A ++ inorder u ++ [x]), B]; intros t; cbn [plug mk];
    rewrite IH; flat_inorder.
Qed.

(** Two children: bypass the successor [y], then put it in the place of [x]. *)
Lemma bypass_succ {A} (M : Z -> RB A) st kr c x l k cy y ry rest :
  let K := kr ++ Frame R c x l :: k in
  rep st (plug K (mk L cy E y ry)) rest -> Forall (fun fr => f_side fr = L) kr -> x ∉ locs_c kr ->
  exists s1 ny, (when (negb (rootloc ry =? 0)) (rb_set_parent (rootloc ry) (up K)) ;;
      let* parent :=
        (if up K =? x then set_child (up K) R (rootloc ry) ;; ret y
         else set_child (up K) L (rootloc ry) ;; ret (up K)) in
      M parent) st = M (up (kr ++ Frame R c y l :: k)) s1 /\
    rep s1 (plug K ry) (<[y := ny]> rest) /\ nodes s1 !! y = nodes st !! y.
Proof.
  intros K H Hkr Hx. pose proof (one_child_parts _ _ _ _ _ _ _ H) as (_ & _ & Nk & _ & Dc & _).
  apply list.NoDup_cons in Nk as [Ny _].
  assert (y ∉ inorder ry ++ locs_c K) as Hy.
  { intros [Hy|Hy]%elem_of_app; [by destruct (Dc _ Hy)|done]. }
  destruct kr as [|[d1 c1 p u1] kr]; subst K; cbn [app up f_loc] in *.
  - rewrite Z.eqb_refl. destruct (bypass_spec _ _ _ _ _ _ _ _ _ _ _ H) as (s1 & ny & E1 & H1 & S1).
    exists s1, ny. split; [|split; [done|by apply S1]]. unfold bind in E1 |- *.
    destruct (when _ _ st) as [[[] s']|]; [|done]. cbv beta in E1 |- *. by rewrite E1.
  - apply Forall_cons_iff in Hkr as [Hd1 _]. cbn in Hd1. subst d1. rewrite (eqb_f p x) by (intros ->; cbn in Hx; elems).
    destruct (bypass_spec _ _ _ _ _ _ _ _ _ _ _ H) as (s1 & ny & E1 & H1 & S1).
    exists s1, ny. split; [|split; [done|by apply S1]]. unfold bind in E1 |- *.
    destruct (when _ _ st) as [[[] s']|]; [|done]. cbv beta in E1 |- *. by rewrite E1.
Qed.

Lemma erase_two st k c l x r rest :
  rep st (plug k (mk L c l x r)) rest -> rb_ok (plug k (mk L c l x r)) -> l <> E -> r <> E ->
  exists st' t' rest', rb_erase x st = Some (tt, st') /\ rep st' t' rest' /\
    (forall w, w ∉ inorder (plug k (mk L c l x r)) -> rest' !! w = rest !! w) /\
    (exists A B, (forall t, inorder (plug k t) = A ++ inorder t ++ B) /\ inorder t' = A ++ (inorder l ++ inorder r) ++ B) /\
    rb_ok t'.
Proof.
  intros H Hok Hl Hr. unfold rb_erase. run (get_spec _ _ _ _ _ _ _ _ H). cbn [mkn rb_left rb_right].
  pose proof H as H'. change (mk L c l x r) with (mk R c r x l) in H', Hok. rewrite <- plug_mk in H', Hok.
  destruct (node_parts _ _ _ _ _ _ _ H) as (_ & _ & _ & Fn & Fv & _).
  assert (rootloc l <> 0 /\ rootloc r <> 0) as [Zl Zr].
  { apply Forall_cons_iff in Fv as [_ Fv]. apply Forall_app in Fv as [Vl Fv]. apply Forall_app in Fv as [Vr _].
    by rewrite !rootloc_E. }
  rewrite !eqb_f by done. cbn [negb andb].
  destruct (walk_down_spec L _ _ _ _ H' Hr) as (kr & cy & y & ry & Er & Hkr & Ew). rewrite !bind_assoc. run Ew.
  rewrite Er, <- plug_app in H', Hok. run (get_spec _ _ _ _ _ _ _ _ H').
  rewrite (parent_spec _ _ _ _ _ _ _ _ H'), (color_spec _ _ _ _ _ _ _ _ H').
  change (rb_right (mkn L (up (kr ++ Frame R c x l :: k)) cy (rootloc E) (rootloc ry))) with (rootloc ry).
  assert (inorder r ≡ₚ y :: inorder ry ++ locs_c kr) as Pr by (rewrite Er, inorder_plug, inorder_mk; done).
  apply list.NoDup_cons in Fn as [Nx Fn]. apply Forall_cons_iff in Fv as [_ Fv].
  assert (x ∉ locs_c kr) as Nkr by (intros Hx; apply Nx; rewrite Pr; elems).
  rewrite Pr in Nx, Fn, Fv.
  edestruct (bypass_succ (fun parent => let* o := getn x in modn y (fun _ => o) ;; relink L (rb_parent o) x y ;;
    rb_set_parent (rb_left o) y ;; when (negb (rb_right o =? 0)) (rb_set_parent (rb_right o) y) ;;
    ret (rootloc ry, parent, colz cy)) _ _ _ _ _ _ _ _ _ _ H' Hkr Nkr) as (s1 & ny & E1 & H1 & Y1).
  erewrite bind_cong by exact E1.
  assert ((y ∉ inorder l) /\ (y ∉ locs_c k) /\ (y ∉ inorder ry ++ locs_c kr) /\ valid y) as (Y2 & Y3 & Y4 & Vy).
  { apply list.NoDup_app in Fn as (_ & D & Fn). apply Forall_app in Fv as [_ Fv]. cbn [app] in Fn, Fv.
    apply list.NoDup_cons in Fn as [Fn _]. apply Forall_cons_iff in Fv as [Fv _].
    split; [intros Hy; apply (D y Hy); elems|]. split; [elems|]. split; [elems|done]. }
  rewrite plug_app, plug_mk in H1. change (mk R c (plug kr ry) x l) with (mk L c l x (plug kr ry)) in H1.
  pose proof (get_spec _ _ _ _ _ _ _ _ H') as Gy. unfold getn in Gy. destruct (nodes st !! y) as [ny'|] eqn:Ey; [|done].
  edestruct (take_place_spec (ret (rootloc ry, up (kr ++ Frame R c y l :: k), colz cy)) s1 k c l x (plug kr ry) y ny' _ H1 Y1 Vy)
    as (s2 & n0 & E2 & H2).
  { rewrite inorder_plug. intros Hy. assert (y <> x) by (intros ->; elems). elems. }
  { done. }
  erewrite bind_cong by exact E2. run_ret.
  change (mk L c l y (plug kr ry)) with (mk R c (plug kr ry) y l) in H2. rewrite <- plug_mk, <- plug_app in H2.
  destruct (fixup_spec s2 _ L cy y ry _ _ H2 Hok) as (s3 & t' & E3 & H3 & I3 & O3).
  { intros n. apply ctxok_rename. }
  { apply pcol_rename. }
  exists s3, t', (<[x := n0]> (<[y := ny]> rest)). split; [done|]. split; [done|]. split; [|split; [|done]].
  - intros w Hw. rewrite inorder_plug, inorder_mk, Pr in Hw. rewrite !lookup_insert_ne; [done|intros ->; elems|intros ->; elems].
  - destruct (inorder_split k) as (A & B & HAB). destruct (left_path kr Hkr) as [B' HB'].
    exists A, B. split; [done|]. rewrite I3, plug_app, plug_mk, HAB, Er. cbn [mk inorder]. rewrite !HB'. cbn [mk inorder app].
    by rewrite <- !app_assoc.
Qed.

(** ** [rb_replace_node] *)
Lemma replace_spec st k c l x r y ny rest :
  rep st (plug k (mk L c l x r)) rest -> nodes st !! y = Some ny -> valid y ->
  y ∉ x :: inorder l ++ inorder r ++ locs_c k ->
  exists st' n0, rb_replace_node x y st = Some (tt, st') /\ rep st' (plug k (mk L c l y r)) (<[x := n0]> rest).
Proof.
  intros H Hy Vy Ny. destruct (node_parts _ _ _ _ _ _ _ H) as (Fc & Fl & Fr & Fn & Fv & Hx & Ak & Hroot & Ho).
  unfold rb_replace_node. run (getn_eq _ _ _ Hx). unfold rb_parent. rewrite pc_mkn, pack_parent by done.
  destruct (adopt_spec st k l x r y Fc Fl Fr Fn Fv ltac:(apply Vy)) as (s1 & s2 & s3 & E1 & E2 & E3 & K3 & L3 & R3 & T3 & S3).
  apply list.NoDup_cons in Fn as [Nx Fn]. destruct (S3 x Nx) as (X1 & X2 & X3). rewrite Hx in X1, X2, X3.
  run E1. run (getn_eq _ _ _ X1). cbn [mkn rb_left]. run E2. run (getn_eq _ _ _ X2). cbn [mkn rb_right]. run E3.
  run (getn_eq _ _ _ X3). destruct (S3 y ltac:(elems)) as (_ & _ & Y3). rewrite Hy in Y3.
  rewrite (modn_eq _ _ (fun _ => mkn L (up k) c (rootloc l) (rootloc r)) _ Y3). eexists _, _. split; [reflexivity|].
  assert (forall w, w <> y -> nodes (RbState (<[y := mkn L (up k) c (rootloc l) (rootloc r)]> (nodes s3)) (root s3)) !! w =
    nodes s3 !! w) as S4 by (intros; by apply lookup_insert_ne).
  eapply replaced_rep; [exact H|exact Hx|done|done| | | |apply lookup_insert_eq|done|].
  - eapply reprc_ext; [|done]. intros w Hw. apply S4. intros ->. elems.
  - eapply repr_ext; [|done]. intros w Hw. apply S4. intros ->. elems.
  - eapply repr_ext; [|done]. intros w Hw. apply S4. intros ->. elems.
  - intros w Hw Hwy. rewrite S4 by done. by destruct (S3 w Hw) as (_ & _ & ->).
Qed.

(** ** Traversal *)
Lemma find_focus x t : x ∈ inorder t -> exists k c l r, t = plug k (mk L c l x r).
Proof.
  enough (forall k, x ∈ inorder t -> exists k' c l r, plug k t = plug k' (mk L c l x r)) as Hk by exact (Hk []).
  induction t as [|c l IHl y r IHr]; intros k Hx; cbn [inorder] in Hx; [by apply elem_of_nil in Hx|].
  apply elem_of_app in Hx as [Hx|[->|Hx]%elem_of_cons].
  - exact (IHl (Frame L c y r :: k) Hx).
  - by exists k, c, l, r.
  - exact (IHr (Frame R c y l :: k) Hx).
Qed.

(** The first and the last of a sequence of nodes, or NULL. *)
Definition hd0 (l : list Z) : Z := match l with [] => 0 | x :: _ => x end.
Definition end_of (d : side) (l : list Z) : Z := match d with L => hd0 l | R => hd0 (reverse l) end.

Lemma hd0_app l x l' : hd0 (l ++ x :: l') = hd0 (l ++ [x]).
Proof. by destruct l. Qed.
Lemma endmost d kr c y u :
  Forall (fun fr => f_side fr = d) kr -> end_of d (inorder (plug kr (mk d c E y u))) = y.
Proof.
  intros Hk. destruct d; cbn [end_of].
  - destruct (left_path kr Hk) as [B HB]. by rewrite HB.
  - destruct (right_path kr Hk) as [B HB]. rewrite HB. cbn [mk inorder]. rewrite reverse_app, reverse_app. done.
Qed.

Lemma end_spec d st t rest : rep st t rest -> rb_end d st = Some (end_of d (inorder t), st).
Proof.
  intros H. unfold rb_end. run (eq_refl : get_root st = Some (root st, st)). rewrite (rep_root _ _ _ H).
  destruct (decide (t = E)) as [->|Ht]; [by destruct d|]. rewrite eqb_f by (rewrite rootloc_E; [done|apply H]).
  destruct (walk_down_spec d st [] t rest H Ht) as (kr & c & y & u & -> & Hk & E1). rewrite E1. by rewrite endmost.
Qed.

(** What lies on side [d] of the hole of a context, nearest first. *)
Fixpoint beyond (d : side) (k : list frame) : Z :=
  match k with [] => 0 | Frame d' _ x _ :: k => if decide (d' = d) then beyond d k else x end.

Lemma up_loop d k : forall st t f rest,
  rep st (plug k t) rest -> t <> E -> (length k < f)%nat ->
  while f (up_round d) (rootloc t) st = Some (beyond d k, st).
Proof.
  induction k as [|[d' c' p u] k IH]; intros st t f rest H Ht Hf; (destruct f as [|f]; [cbn in Hf; lia|]); rewrite while_S.
  - destruct t as [|c l x r]; [done|]. change (T c l x r) with (mk L c l x r) in *. rewrite rootloc_mk.
    unfold up_round at 1. rewrite !bind_assoc. run (get_spec _ _ _ _ _ _ _ _ H).
    rewrite (parent_spec _ _ _ _ _ _ _ _ H). done.
  - destruct t as [|c l x r]; [done|]. change (T c l x r) with (mk L c l x r) in *. rewrite rootloc_mk.
    unfold up_round at 1. rewrite !bind_assoc. run (get_spec _ _ _ _ _ _ _ _ H).
    rewrite (parent_spec _ _ _ _ _ _ _ _ H). cbn [up f_loc]. rewrite plug_mk in H.
    pose proof (rep_aligned _ _ _ _ _ _ _ _ H) as (_ & [_ Hp] & _). rewrite eqb_f by done.
    rewrite !bind_assoc. run (get_spec _ _ _ _ _ _ _ _ H). run_ret. rewrite rootloc_mk. cbn [beyond]. case_decide as Hd.
    + subst d'. rewrite child_same, Z.eqb_refl. rewrite <- (rootloc_mk d c' (mk L c l x r) p u).
      eapply IH; [exact H|apply mk_ne_E|cbn in Hf; lia].
    + assert (d = opp d') as -> by (by destruct d, d'). rewrite child_opp.
      pose proof (roots_ne _ _ _ _ _ _ _ _ H (mk_ne_E _ _ _ _ _)) as Hne. rewrite rootloc_mk in Hne.
      by rewrite (eqb_f x _).
Qed.

Lemma inorder_beyond k : exists A B, (forall t, inorder (plug k t) = A ++ inorder t ++ B) /\
  beyond R k = hd0 B /\ beyond L k = hd0 (reverse A).
Proof.
  induction k as [|[d c x u] k (A & B & IH & HR & HL)]; [exists [], []; split; [intros; by rewrite app_nil_r|done]|].
  destruct d; [exists A, (x :: inorder u ++ B)|exists (A ++ inorder u ++ [x]), B]; (split; [intros t; cbn [plug mk]; rewrite IH; flat_inorder|]).
  - by split.
  - split; [done|]. by rewrite app_assoc, reverse_snoc.
Qed.

Lemma split_unique (A B A' B' : list Z) x : NoDup (A ++ x :: B) -> A ++ x :: B = A' ++ x :: B' -> A = A' /\ B = B'.
Proof.
  revert A'. induction A as [|a A IH]; intros A' Hn Heq; destruct A' as [|a' A']; cbn in *; simplify_eq.
  - done.
  - apply list.NoDup_cons in Hn as [Hx _]. elems.
  - apply list.NoDup_cons in Hn as [Hx _]. elems.
  - apply list.NoDup_cons in Hn as [_ Hn]. destruct (IH A' Hn) as [-> ->]; done.
Qed.

Lemma hd0_ne l l' : l <> [] -> hd0 (l ++ l') = hd0 l.
Proof. by destruct l. Qed.
Lemma inorder_nil t : inorder t = [] -> t = E.
Proof. destruct t as [|c l x r]; [done|]. cbn. by destruct (inorder l). Qed.

(** The neighbour of [x] on side [d], among the nodes [A] before and [B] after it. *)
Definition neighbour (d : side) (A B : list Z) : Z := match d with L => hd0 (reverse A) | R => hd0 B end.

Lemma step_spec d st t x A B rest :
  rep st t rest -> inorder t = A ++ x :: B -> rb_step d x st = Some (neighbour d A B, st).
Proof.
  intros H HI. destruct (find_focus x t) as (k & c & l & r & ->); [rewrite HI; elems|].
  destruct (inorder_beyond k) as (A' & B' & Hin & HR & HL). pose proof (rep_nodup _ _ _ H) as Hn. rewrite HI in Hn.
  assert (inorder (plug k (mk L c l x r)) = (A' ++ inorder l) ++ x :: inorder r ++ B') as HI'
    by (rewrite Hin; flat_inorder).
  rewrite HI in HI'. destruct (split_unique _ _ _ _ _ Hn HI') as [-> ->]. clear HI HI' Hn.
  destruct (mk_side L c l x r d) as (u & v & Em). rewrite Em in H.
  unfold rb_step. run (get_spec _ _ _ _ _ _ _ _ H). rewrite (parent_spec _ _ _ _ _ _ _ _ H), child_same.
  assert (up k <> x) as Hup.
  { apply rep_focus in H as [_ _ _ Hn Hv _]. rewrite inorder_mk in Hn, Hv. cbn [app] in *.
    apply list.NoDup_cons in Hn as [Hn _]. apply Forall_cons_iff in Hv as [[_ Hv] _].
    destruct k as [|f k]; [done|]. intros <-. pose proof (up_in (f :: k) ltac:(done)). elems. }
  rewrite (eqb_f _ x) by done. pose proof H as H'. rewrite <- plug_mk in H. destruct (decide (u = E)) as [->|Hu].
  - cbn [rootloc Z.eqb negb]. pose proof (rep_depth _ _ _ _ H') as Hd.
    rewrite <- (rootloc_mk d c E x v) at 1.
    rewrite (on_path_eq (up_round d) _ st _ (up_loop d k st _ (2 + size (nodes st)) rest H' (mk_ne_E _ _ _ _ _) ltac:(lia))).
    destruct d; cbn [neighbour mk] in *; injection Em as -> ->; cbn [inorder app]; rewrite ?app_nil_r; by rewrite ?HR, ?HL.
  - assert (rootloc u <> 0) as Hz.
    { apply rep_focus in H as [_ _ _ _ Hv _]. apply Forall_app in Hv as [Hv _]. by rewrite rootloc_E. }
    rewrite eqb_f by done. cbn [negb].
    destruct (walk_down_spec (opp d) st _ u rest H Hu) as (kr & c' & y & u' & Eu & Hk & E1). rewrite E1.
    assert (inorder u <> []) as Hne by (by intros ?%inorder_nil). do 2 f_equal.
    rewrite <- (endmost (opp d) kr c' y u' Hk), <- Eu.
    destruct d; cbn [neighbour mk end_of opp] in *; injection Em as -> ->.
    + rewrite reverse_app, hd0_ne; [done|]. intros E0%(f_equal reverse). by rewrite reverse_involutive in E0.
    + by rewrite hd0_ne.
Qed.

(** ** The theorems *)
(** The state holds the tree [t], whose nodes are word-aligned and distinct. *)
Definition holds (st : rb_state) (t : tree) : Prop := rep st t (nodes st).
(** The nodes that are not in the tree keep their contents. *)
Definition frame_ok (st st' : rb_state) (t : tree) : Prop :=
  forall w, w ∉ inorder t -> nodes st' !! w = nodes st !! w.

Lemma rep_holds st t rest : rep st t rest -> holds st t.
Proof. intros [? ? ? ? ?]. by split. Qed.

(** C29. Inserting a node: when a caller has found the empty place of the new
    node [x] in a red-black tree, [rb_link_node] and [rb_insert_color] produce a
    red-black tree whose nodes are those of the old one with [x] at that place
    of the order; nodes outside are not touched, no invalid address is used and
    the loop ends. *)
Theorem rb_insert_correct st k x n0 :
  holds st (plug k E) -> rb_ok (plug k E) -> nodes st !! x = Some n0 -> valid x -> x ∉ inorder (plug k E) ->
  exists st' t', (rb_link_node x (up k) (link_side k) ;; rb_insert_color x) st = Some (tt, st') /\
    holds st' t' /\ rb_ok t' /\ frame_ok st st' (plug k (T Red E x E)) /\
    inorder t' = inorder (plug k (T Red E x E)).
Proof.
  intros H Hok Hx Vx Nx. rewrite inorder_plug in Nx. cbn [inorder app] in Nx.
  destruct (link_spec st k x _ n0 H Hx Vx Nx) as (s1 & E1 & H1).
  destruct (insert_color_spec s1 k x _ H1 Hok) as (s2 & t' & E2 & H2 & I2 & O2).
  exists s2, t'. split; [run E1; exact E2|]. split; [by eapply rep_holds|]. split; [done|]. split.
  - intros w Hw. apply (rep_rest _ _ _ H2). by rewrite I2.
  - done.
Qed.

(** C30. Removing a node: [rb_erase] turns a red-black tree into a red-black tree
    of the other nodes in the same order, whatever the number of children of
    the removed node and the shape of the tree. *)
Theorem rb_erase_correct st t x A B :
  holds st t -> rb_ok t -> inorder t = A ++ x :: B ->
  exists st' t', rb_erase x st = Some (tt, st') /\ holds st' t' /\ rb_ok t' /\ frame_ok st st' t /\
    inorder t' = A ++ B.
Proof.
  intros H Hok HI. destruct (find_focus x t) as (k & c & l & r & ->); [rewrite HI; elems|].
  pose proof (rep_nodup _ _ _ H) as Hn. rewrite HI in Hn.
  assert (exists st' t' rest', rb_erase x st = Some (tt, st') /\ rep st' t' rest' /\
    (forall w, w ∉ inorder (plug k (mk L c l x r)) -> rest' !! w = nodes st !! w) /\
    (exists A B, (forall t, inorder (plug k t) = A ++ inorder t ++ B) /\ inorder t' = A ++ (inorder l ++ inorder r) ++ B) /\
    rb_ok t') as (st' & t' & rest' & E1 & H1 & Hf & (A' & B' & HAB & HI') & O1).
  { destruct (decide (l = E)) as [->|Hl]; [|destruct (decide (r = E)) as [->|Hr]; [|by apply erase_two]].
    - destruct (erase_one st k L c x r _ H Hok) as (s1 & t1 & n0 & E1 & H1 & I1 & O1).
      destruct (inorder_split k) as (A' & B' & HAB). exists s1, t1. eexists. split; [done|]. split; [exact H1|].
      split; [|split; [exists A', B'; by rewrite I1, HAB|done]].
      intros w Hw. apply lookup_insert_ne. intros ->. apply Hw. rewrite inorder_plug, inorder_mk. elems.
    - destruct (erase_one st k R c x l _ H Hok) as (s1 & t1 & n0 & E1 & H1 & I1 & O1).
      destruct (inorder_split k) as (A' & B' & HAB). exists s1, t1. eexists. split; [done|]. split; [exact H1|].
      split; [|split; [exists A', B'; by rewrite I1, HAB, app_nil_r|done]].
      intros w Hw. apply lookup_insert_ne. intros ->. apply Hw. rewrite inorder_plug, inorder_mk. elems. }
  rewrite HAB in HI. assert (A ++ x :: B = (A' ++ inorder l) ++ x :: inorder r ++ B') as HE by (rewrite <- HI; flat_inorder).
  destruct (split_unique _ _ _ _ _ Hn HE) as [-> ->].
  exists st', t'. split; [done|]. split; [by eapply rep_holds|]. split; [done|]. split.
  - intros w Hw. rewrite <- Hf by done. apply (rep_rest _ _ _ H1). intros Hw'. apply Hw. rewrite HAB.
    rewrite HI' in Hw'. cbn [mk inorder]. elems.
  - rewrite HI'. flat_inorder.
Qed.

(** Traversal: [rb_first] and [rb_last] return the ends of the order and NULL
    for an empty tree, [rb_next] and [rb_prev] the neighbours of a node and NULL
    at the ends, and [rb_replace_node] puts a new node in the place of an old
    one; none of the first four changes the tree. *)
Theorem rb_traversal_correct st t x A B y ny :
  holds st t -> inorder t = A ++ x :: B -> nodes st !! y = Some ny -> valid y -> y ∉ inorder t ->
  rb_first st = Some (hd0 (A ++ [x]), st) /\ rb_last st = Some (hd0 (reverse (x :: B)), st) /\
  rb_next x st = Some (hd0 B, st) /\ rb_prev x st = Some (hd0 (reverse A), st) /\
  (exists st' t', rb_replace_node x y st = Some (tt, st') /\ holds st' t' /\ inorder t' = A ++ y :: B /\
     (rb_ok t -> rb_ok t')).
Proof.
  intros H HI Hy Vy Ny.
  split; [unfold rb_first; rewrite (end_spec L _ _ _ H); cbn [end_of]; by rewrite HI, hd0_app|].
  split.
  { unfold rb_last. rewrite (end_spec R _ _ _ H). cbn [end_of]. rewrite HI, reverse_app, hd0_ne; [done|].
    rewrite reverse_cons. by destruct (reverse B). }
  split; [exact (step_spec R _ _ _ _ _ _ H HI)|]. split; [exact (step_spec L _ _ _ _ _ _ H HI)|].
  destruct (find_focus x t) as (k & c & l & r & ->); [rewrite HI; elems|].
  destruct (replace_spec st k c l x r y ny _ H Hy Vy) as (st' & n0 & E1 & H1).
  { intros Hin. apply Ny. rewrite inorder_plug, inorder_mk. elems. }
  exists st', (plug k (mk L c l y r)). split; [done|]. split; [by eapply rep_holds|].
  pose proof (rep_nodup _ _ _ H) as Hn. rewrite HI in Hn. destruct (inorder_split k) as (A' & B' & HAB). rewrite HAB in HI.
  assert (A ++ x :: B = (A' ++ inorder l) ++ x :: inorder r ++ B') as HE by (rewrite <- HI; flat_inorder).
  destruct (split_unique _ _ _ _ _ Hn HE) as [-> ->]. split; [rewrite HAB; flat_inorder|].
  intros (n & Hk & Ht)%rbt_unplug. eapply rbt_plug; [exact Hk|]. inversion Ht; subst; cbn; auto.
Qed.

(** ** Every tree built by the operations is balanced *)
Fixpoint depth (t : tree) : nat := match t with E => 0%nat | T _ l _ r => S (Nat.max (depth l) (depth r)) end.

(** The trees that insertions and removals build from the empty one, as steps of
    the heap.  A client allocates nodes in between, in any way that leaves the
    nodes of the tree alone. *)
Inductive reachable : rb_state -> Prop :=
  | reach_empty m : reachable (RbState m 0)
  | reach_insert st st' k x n0 :
      reachable st -> holds st (plug k E) -> nodes st !! x = Some n0 -> valid x -> x ∉ inorder (plug k E) ->
      (rb_link_node x (up k) (link_side k) ;; rb_insert_color x) st = Some (tt, st') -> reachable st'
  | reach_erase st st' t x :
      reachable st -> holds st t -> x ∈ inorder t -> rb_erase x st = Some (tt, st') -> reachable st'
  | reach_client st t m :
      reachable st -> holds st t -> (forall w, w ∈ inorder t -> m !! w = nodes st !! w) -> reachable (RbState m (root st)).

Lemma repr_inj m p t t' : repr m p t -> repr m p t' -> rootloc t = rootloc t' ->
  Forall valid (inorder t) -> Forall valid (inorder t') -> aligned p -> t = t'.
Proof.
  revert p t'. induction t as [|c l IHl x r IHr]; intros p t' H H' Hr Hv Hv' Ap.
  - symmetry. apply rootloc_E; [done|]. by rewrite <- Hr.
  - destruct t' as [|c' l' x' r']; cbn in Hr; subst.
    { apply Forall_app in Hv as [_ [[_ ?] _]%Forall_cons_iff]. done. }
    destruct H as (Hx & Hl & Hr). destruct H' as (Hx' & Hl' & Hr'). cbn [inorder] in *.
    apply Forall_app in Hv as [Vl [Vx Vr]%Forall_cons_iff]. apply Forall_app in Hv' as [Vl' [_ Vr']%Forall_cons_iff].
    rewrite Hx in Hx'. cbn [mkn] in Hx'. injection Hx' as Hpc Er El.
    assert (c = c') as ->.
    { assert (colz c = colz c') as Hc by (by rewrite <- (pack_color p c Ap), <- (pack_color p c' Ap), Hpc).
      by destruct c, c'. }
    f_equal; [eapply IHl|eapply IHr]; try done; by destruct Vx.
Qed.
Lemma holds_inj st t t' : holds st t -> holds st t' -> t = t'.
Proof.
  intros [R1 H1 _ V1 _] [R2 H2 _ V2 _]. apply (repr_inj (nodes st) 0); [done|done|congruence|done|done|apply aligned_0].
Qed.

Lemma rbt_bounds c n t : rbt c n t ->
  (2 ^ Z.of_nat n <= Z.of_nat (length (inorder t)) + 1) /\ (depth t <= 2 * n + match c with Red => 0 | Black => 1 end)%nat.
Proof.
  induction 1 as [c|l x r n Hl [IHl Dl] Hr [IHr Dr]|c l x r n Hl [IHl Dl] Hr [IHr Dr]]; cbn [inorder depth].
  - cbn. destruct c; lia.
  - rewrite length_app. cbn [length]. lia.
  - rewrite length_app. cbn [length]. rewrite Nat2Z.inj_succ, Z.pow_succ_r by lia. destruct c; lia.
Qed.

Lemma reachable_inv st : reachable st -> exists t, holds st t /\ rb_ok t.
Proof.
  induction 1 as [m|st st' k x n0 _ (t & Ht & Ok) Hk Hx Vx Nx E1|st st' t x _ (t0 & Ht & Ok) H0 Hx E1|st t m _ (t0 & Ht & Ok) H0 Hm].
  - exists E. split; [|by exists 0%nat]. split; try done; constructor.
  - rewrite (holds_inj _ _ _ Ht Hk) in Ok.
    destruct (link_spec st k x _ n0 Hk Hx Vx) as (s1 & F1 & H1).
    { rewrite inorder_plug in Nx. cbn in Nx. done. }
    destruct (insert_color_spec s1 k x _ H1 Ok) as (s2 & t' & E2 & H2 & I2 & O2).
    rewrite (bind_Some _ _ _ _ _ F1) in E1. rewrite E2 in E1. injection E1 as <-. exists t'. split; [by eapply rep_holds|done].
  - rewrite (holds_inj _ _ _ Ht H0) in Ok.
    destruct (find_focus x t Hx) as (k & c & l & r & ->).
    destruct (decide (l = E)) as [->|Hl]; [|destruct (decide (r = E)) as [->|Hr]].
    + destruct (erase_one st k L c x r _ H0 Ok) as (s1 & t1 & n0 & F1 & H1 & _ & O1). rewrite F1 in E1. injection E1 as <-.
      exists t1. split; [by eapply rep_holds|done].
    + destruct (erase_one st k R c x l _ H0 Ok) as (s1 & t1 & n0 & F1 & H1 & _ & O1). rewrite F1 in E1. injection E1 as <-.
      exists t1. split; [by eapply rep_holds|done].
    + destruct (erase_two st k c l x r _ H0 Ok Hl Hr) as (s1 & t1 & n0 & F1 & H1 & _ & _ & O1). rewrite F1 in E1. injection E1 as <-.
      exists t1. split; [by eapply rep_holds|done].
  - exists t0. rewrite <- (holds_inj _ _ _ Ht H0) in Hm. split; [|done]. destruct Ht as [R1 H1 N1 V1 _].
    split; try done. cbn [nodes]. eapply repr_ext; [|done]. done.
Qed.

(** In every state that insertions and removals reach from an empty tree, with
    any changes by the client to other nodes in between, the heap holds a
    red-black tree, and its depth is at most twice the logarithm of the number
    of nodes plus one. *)
Theorem rb_reachable_balanced st :
  reachable st ->
  exists t, holds st t /\ rb_ok t /\ Z.of_nat (depth t) <= 2 * Z.log2 (Z.of_nat (length (inorder t)) + 1).
Proof.
  intros (t & Ht & [h Ok])%reachable_inv. exists t. split; [done|]. split; [by exists h|].
  destruct (rbt_bounds _ _ _ Ok) as [B1 B2]. apply Z.log2_le_mono in B1. rewrite Z.log2_pow2 in B1 by lia. lia.
Qed.

(** *** Examples *)
(** Nodes 4, 8 and 12 with 8 on top, and a node 16 outside. *)
Definition ex_tree : tree := T Black (T Red E 4 E) 8 (T Red E 12 E).
Definition ex_state : rb_state :=
  RbState {[4 := mkn L 8 Red 0 0; 8 := mkn L 0 Black 4 12; 12 := mkn L 8 Red 0 0; 16 := mkn L 0 Red 0 0]} 8.

Lemma ex_valid x : (0 <? x) && (x <? 4294967296) && (Z.land x 3 =? 0) = true -> valid x.
Proof. intros H. b2p. split; [split; [unfold uint; pow2; lia|done]|lia]. Qed.
Lemma ex_holds : holds ex_state ex_tree.
Proof.
  split; [done| | | |done].
  - by repeat split.
  - apply (bool_decide_unpack _). vm_compute. exact I.
  - by repeat constructor; apply ex_valid.
Qed.
Lemma ex_ok : rb_ok ex_tree.
Proof. exists 1%nat. repeat constructor. Qed.

Lemma rb_insert_correct_witness :
  exists st' t', (rb_link_node 16 12 (Some R) ;; rb_insert_color 16) ex_state = Some (tt, st') /\ holds st' t' /\
    inorder t' = [4; 8; 12; 16].
Proof.
  destruct (rb_insert_correct ex_state [Frame R Red 12 E; Frame R Black 8 (T Red E 4 E)] 16 (mkn L 0 Red 0 0)
    ex_holds ex_ok) as (st' & t' & E1 & H & _ & _ & HI);
    [reflexivity|by apply ex_valid|apply (bool_decide_unpack _); vm_compute; exact I|].
  exists st', t'. split; [exact E1|]. split; [exact H|exact HI].
Defined.

Lemma rb_erase_correct_witness :
  exists st' t', rb_erase 8 ex_state = Some (tt, st') /\ holds st' t' /\ rb_ok t' /\ inorder t' = [4; 12].
Proof.
  destruct (rb_erase_correct ex_state ex_tree 8 [4] [12] ex_holds ex_ok eq_refl) as (st' & t' & E1 & H & O & _ & HI).
  exists st', t'. split; [exact E1|]. split; [exact H|]. split; [exact O|exact HI].
Defined.

Lemma rb_traversal_correct_witness :
  rb_first ex_state = Some (4, ex_state) /\ rb_next 8 ex_state = Some (12, ex_state) /\
  rb_prev 8 ex_state = Some (4, ex_state).
Proof.
  destruct (rb_traversal_correct ex_state ex_tree 8 [4] [12] 16 (mkn L 0 Red 0 0) ex_holds eq_refl) as (H1 & _ & H2 & H3 & _);
    [reflexivity|by apply ex_valid|apply (bool_decide_unpack _); vm_compute; exact I|].
  split; [exact H1|]. split; [exact H2|exact H3].
Defined.

(** A tree of one node. *)
Definition ex_one : rb_state := RbState {[4 := mkn L 0 Black 0 0]} 4.
Lemma ex_one_reachable : reachable ex_one.
Proof.
  apply (reach_insert (RbState {[4 := mkn L 0 Red 0 0]} 0) ex_one [] 4 (mkn L 0 Red 0 0)).
  - apply reach_empty.
  - split; try done; constructor.
  - reflexivity.
  - by apply ex_valid.
  - cbn. apply not_elem_of_nil.
  - vm_compute. reflexivity.
Qed.

Lemma rb_reachable_balanced_witness :
  exists t, holds ex_one t /\ rb_ok t /\ Z.of_nat (depth t) <= 2 * Z.log2 (Z.of_nat (length (inorder t)) + 1).
Proof. exact (rb_reachable_balanced _ ex_one_reachable). Defined.
