(* ===== verification/Lmb.v ===== *)
(** * Logical memory blocks

    [lib/lmb.c]: the early memory map and its allocator.  Two tables of address
    ranges, [memory] and [reserved], are kept sorted in arrays of
    [MAX_LMB_REGIONS + 1] entries; adding a range merges it with its neighbours,
    and an allocation reserves the highest free aligned range.  Addresses are
    64-bit, counters 32-bit. *)

From Stdlib Require Import ZArith Lia.
From stdpp Require Import base tactics numbers list gmap option.
From S2P Require Import Prelude.

(** ** The tables *)
(** [total] is the field [size] of a table, the sum that [lmb_analyze] computes; the
    field [debug] of the map is not used by the code. *)
Definition MAX_LMB_REGIONS : Z := 128.
Record lmb_property := Range { base : Z; size : Z }.
Record lmb_region := Region { cnt : Z; total : Z; region : list lmb_property }.
Record lmb := Lmb { rmo_size : Z; memory : lmb_region; reserved : lmb_region }.

Definition LMB_ALLOC_ANYWHERE : Z := 0.

(** ** Operations on one table *)
Abbreviation RG := (ST lmb_region).
Definition getr (i : Z) : RG lmb_property := fun s =>
  if i <? 0 then None else match region s !! Z.to_nat i with Some p => Some (p, s) | None => None end.
Definition setr (i : Z) (p : lmb_property) : RG unit := fun s =>
  if (i <? 0) || (zlen (region s) <=? i) then None
  else Some (tt, Region (cnt s) (total s) (<[Z.to_nat i := p]> (region s))).
Definition get_cnt : RG Z := fun s => Some (cnt s, s).
Definition set_cnt (c : Z) : RG unit := fun s => Some (tt, Region c (total s) (region s)).

(** An index beyond the array faults, so no loop over it takes more rounds. *)
Definition each {X R} (body : X -> RG (X + R)) (x : X) : RG R := while 131 body x.

Definition lmb_addrs_overlap (base1 size1 base2 size2 : Z) : bool :=
  (base1 <? u64 (base2 + size2)) && (base2 <? u64 (base1 + size1)).

Definition lmb_addrs_adjacent (base1 size1 base2 size2 : Z) : Z :=
  if base2 =? u64 (base1 + size1) then 1
  else if base1 =? u64 (base2 + size2) then -1 else 0.

Definition lmb_regions_adjacent (r1 r2 : Z) : RG Z :=
  let* p1 := getr r1 in
  let* p2 := getr r2 in
  ret (lmb_addrs_adjacent (base p1) (size p1) (base p2) (size p2)).

Definition remove_round (i : Z) : RG (Z + unit) :=
  let* c := get_cnt in
  if i <? u32 (c - 1) then
    let* p := getr (i + 1) in
    setr i p ;;
    ret (inl (i + 1))
  else ret (inr tt).
Definition lmb_remove_region (r : Z) : RG unit :=
  each remove_round r ;;
  let* c := get_cnt in
  set_cnt (u32 (c - 1)).

Definition lmb_coalesce_regions (r1 r2 : Z) : RG unit :=
  let* p1 := getr r1 in
  let* p2 := getr r2 in
  setr r1 (Range (base p1) (u64 (size p1 + size p2))) ;;
  lmb_remove_region r2.

(** The loop that looks for a range to merge with: [inl] when the range is there
    already, else the index and whether a neighbour was found. *)
Definition neighbour_round (b s i : Z) : RG (Z + (unit + Z * Z)) :=
  let* c := get_cnt in
  if i <? c then
    let* p := getr i in
    if (base p =? b) && (size p =? s) then ret (inr (inl tt)) else
    let adjacent := lmb_addrs_adjacent b s (base p) (size p) in
    if 0 <? adjacent then
      setr i (Range (u64 (base p - s)) (u64 (size p + s))) ;;
      ret (inr (inr (i, 1)))
    else if adjacent <? 0 then
      setr i (Range (base p) (u64 (size p + s))) ;;
      ret (inr (inr (i, 1)))
    else ret (inl (i + 1))
  else ret (inr (inr (i, 0))).
Definition find_neighbour (b s : Z) : RG (unit + Z * Z) := each (neighbour_round b s) 0.

(** The loop that shifts the ranges above the new one up. *)
Definition shift_round (b s i : Z) : RG (Z + unit) :=
  if 0 <=? i then
    let* p := getr i in
    if b <? base p then
      setr (i + 1) p ;;
      ret (inl (i - 1))
    else
      setr (i + 1) (Range b s) ;;
      ret (inr tt)
  else ret (inr tt).
Definition insert_sorted (b s : Z) : RG unit :=
  let* c := get_cnt in
  each (shift_round b s) (s32 (c - 1)).

(** The range at [i] is merged with the next one when they touch. *)
Definition merge_next (i coalesced : Z) : RG Z :=
  let* c := get_cnt in
  if i <? u32 (c - 1) then
    let* adjacent := lmb_regions_adjacent i (i + 1) in
    if negb (adjacent =? 0) then
      lmb_coalesce_regions i (i + 1) ;;
      ret (coalesced + 1)
    else ret coalesced
  else ret coalesced.

(** A range that touches no other is put in its place. *)
Definition add_new (b s : Z) : RG Z :=
  let* c := get_cnt in
  if MAX_LMB_REGIONS <=? c then ret (-1) else
  insert_sorted b s ;;
  let* p0 := getr 0 in
  (if b <? base p0 then setr 0 (Range b s) else ret tt) ;;
  let* c := get_cnt in
  set_cnt (u32 (c + 1)) ;;
  ret 0.

Definition lmb_add_region (b s : Z) : RG Z :=
  let* c := get_cnt in
  let* p0 := getr 0 in
  if (c =? 1) && (size p0 =? 0) then
    setr 0 (Range b s) ;;
    ret 0
  else
    let* found := find_neighbour b s in
    match found with
    | inl _ => ret 0
    | inr (i, coalesced) =>
        let* coalesced := merge_next i coalesced in
        if negb (coalesced =? 0) then ret coalesced else add_new b s
    end.

Definition overlaps_round (b s i : Z) : RG (Z + Z) :=
  let* c := get_cnt in
  if i <? c then
    let* p := getr i in
    if lmb_addrs_overlap b s (base p) (size p) then ret (inr i) else ret (inl (i + 1))
  else ret (inr (-1)).
Definition lmb_overlaps_region (b s : Z) : RG Z := each (overlaps_round b s) 0.

(** ** Operations on the map *)
Abbreviation LM := (ST lmb).
Definition on_memory {A} (m : RG A) : LM A := fun s =>
  match m (memory s) with Some (a, r) => Some (a, Lmb (rmo_size s) r (reserved s)) | None => None end.
Definition on_reserved {A} (m : RG A) : LM A := fun s =>
  match m (reserved s) with Some (a, r) => Some (a, Lmb (rmo_size s) (memory s) r) | None => None end.

Definition lmb_init : LM unit :=
  on_memory (setr 0 (Range 0 0)) ;;
  on_memory (set_cnt 1) ;;
  on_reserved (setr 0 (Range 0 0)) ;;
  on_reserved (set_cnt 1).

Definition lmb_add (b s : Z) : LM Z :=
  (if b =? 0 then (fun st => Some (tt, Lmb s (memory st) (reserved st))) else ret tt) ;;
  on_memory (lmb_add_region b s).

(** The loop that looks for the range holding [\[b, end_)]: its index, begin and end. *)
Definition holder_round (b end_ i : Z) : RG (Z + option (Z * Z * Z)) :=
  let* c := get_cnt in
  if i <? c then
    let* p := getr i in
    let rgnbegin := base p in
    let rgnend := u64 (rgnbegin + size p) in
    if (rgnbegin <=? b) && (end_ <=? rgnend) then ret (inr (Some (i, rgnbegin, rgnend))) else ret (inl (i + 1))
  else ret (inr None).

Definition remove_range (b s : Z) : RG Z :=
  let end_ := u64 (b + s) in
  let* found := each (holder_round b end_) 0 in
  match found with
  | None => ret (-1)
  | Some (i, rgnbegin, rgnend) =>
      if (rgnbegin =? b) && (rgnend =? end_) then lmb_remove_region i ;; ret 0 else
      let* p := getr i in
      if rgnbegin =? b then setr i (Range end_ (u64 (size p - s))) ;; ret 0 else
      if rgnend =? end_ then setr i (Range (base p) (u64 (size p - s))) ;; ret 0 else
      setr i (Range (base p) (u64 (b - base p))) ;;
      lmb_add_region end_ (u64 (rgnend - end_))
  end.
Definition lmb_remove (b s : Z) : LM Z := on_memory (remove_range b s).

Definition lmb_reserve (b s : Z) : LM Z :=
  if s =? 0 then fault else on_reserved (lmb_add_region b s).

Definition not64 (x : Z) : Z := wrap 64 (Z.lnot x).
Definition lmb_align_down (addr sz : Z) : Z := Z.land addr (not64 (u64 (sz - 1))).
Definition lmb_align_up (addr sz : Z) : Z := Z.land (u64 (addr + u64 (sz - 1))) (not64 (u64 (sz - 1))).

(** The search below [b] in one memory range that starts at [lmbbase]: [Some r]
    returns [r], [None] goes on with the next range. *)
Definition alloc_round (align s lmbbase b : Z) : RG (Z + option Z) :=
  if negb (b =? 0) && (lmbbase <=? b) then
    let* j := lmb_overlaps_region b s in
    if j <? 0 then
      let* r := lmb_add_region b s in
      ret (inr (Some (if r <? 0 then 0 else b)))
    else
      let* p := getr j in
      if base p <? s then ret (inr None)
      else ret (inl (lmb_align_down (u64 (base p - s)) align))
  else ret (inr None).
Definition alloc_below (align s lmbbase b : Z) : RG (option Z) := each (alloc_round align s lmbbase) b.

(** The highest candidate in a memory range, [None] when the range is above [max_addr]. *)
Definition alloc_start (align s max_addr : Z) (p : lmb_property) : option Z :=
  if max_addr =? LMB_ALLOC_ANYWHERE then Some (lmb_align_down (u64 (u64 (base p + size p) - s)) align)
  else if base p <? max_addr then
    Some (lmb_align_down (u64 (Z.min (u64 (base p + size p)) max_addr - s)) align)
  else None.
Definition memory_round (align s max_addr i : Z) : LM (Z + Z) :=
  if 0 <=? i then
    let* p := on_memory (getr i) in
    if size p <? s then ret (inl (i - 1)) else
    match alloc_start align s max_addr p with
    | None => ret (inl (i - 1))
    | Some b =>
        let* r := on_reserved (alloc_below align s (base p) b) in
        ret (match r with Some v => inr v | None => inl (i - 1) end)
    end
  else ret (inr 0).

(** [real_limit] is the architecture's [LMB_REAL_LIMIT]. *)
Definition __lmb_alloc_base (real_limit s align max_addr : Z) : LM Z :=
  if s =? 0 then fault else
  let s := lmb_align_up s align in
  let max_addr := if max_addr =? LMB_ALLOC_ANYWHERE then real_limit else max_addr in
  let* c := on_memory get_cnt in
  while 131 (memory_round align s max_addr) (s32 (c - 1)).

(** [panic] when there is no such range. *)
Definition lmb_alloc_base (real_limit s align max_addr : Z) : LM Z :=
  let* alloc := __lmb_alloc_base real_limit s align max_addr in
  if alloc =? 0 then fault else ret alloc.
Definition lmb_alloc (real_limit s align : Z) : LM Z := lmb_alloc_base real_limit s align LMB_ALLOC_ANYWHERE.

Definition lmb_analyze : LM unit :=
  on_memory (fun s => match
    each (fun '(i, acc) =>
      let* c := get_cnt in
      if i <? c then let* p := getr i in ret (inl (i + 1, u64 (acc + size p))) else ret (inr acc)) (0, 0) s
    with Some (t, s) => Some (tt, Region (cnt s) t (region s)) | None => None end).
Definition lmb_phys_mem_size : LM Z := fun s => Some (total (memory s), s).

Definition lmb_end_of_DRAM : LM Z :=
  let* c := on_memory get_cnt in
  let* p := on_memory (getr (s32 (c - 1))) in
  ret (u64 (base p + size p)).

Definition reserved_round (addr i : Z) : RG (Z + Z) :=
  let* c := get_cnt in
  if i <? c then
    let* p := getr i in
    let upper := u64 (base p + size p - 1) in
    if (base p <=? addr) && (addr <=? upper) then ret (inr 1) else ret (inl (i + 1))
  else ret (inr 0).
Definition lmb_is_reserved (addr : Z) : LM Z := on_reserved (each (reserved_round addr) 0).

(** [res] is read and, on success, adjusted. *)
Definition find_round (res : lmb_property) (i : Z) : RG (Z + Z * lmb_property) :=
  let rstart := base res in
  let rend := u64 (rstart + size res - 1) in
  let* c := get_cnt in
  if i <? c then
    let* p := getr i in
    let start := base p in
    let end_ := u64 (start + size p - 1) in
    if rend <? start then ret (inr (-1, res)) else
    if (rstart <=? end_) && (start <? rend) then
      let rstart := if rstart <? start then start else rstart in
      let rend := if end_ <? rend then end_ else rend in
      ret (inr (0, Range rstart (u64 (rend - rstart + 1))))
    else ret (inl (i + 1))
  else ret (inr (-1, res)).
Definition lmb_find (res : lmb_property) : LM (Z * lmb_property) := on_memory (each (find_round res) 0).

(** ** What a table means *)
(** The ranges are in ascending order from [lo] on with gaps between them, and
    none is empty or reaches the end of the address space. *)
Fixpoint sorted (lo : Z) (es : list lmb_property) : Prop :=
  match es with
  | [] => True
  | p :: es => lo <= base p /\ 0 < size p /\ base p + size p < 2 ^ 64 /\ sorted (base p + size p + 1) es
  end.
(** The address lies in one of the ranges. *)
Definition covered (es : list lmb_property) (a : Z) : Prop := Exists (fun p => base p <= a < base p + size p) es.
Definition apart (b s : Z) (p : lmb_property) : Prop := base p + size p <= b \/ b + s <= base p.

Definition ents (r : lmb_region) : list lmb_property := take (Z.to_nat (cnt r)) (region r).
(** The table after [lmb_init] has one empty range. *)
Definition dummy : list lmb_property := [Range 0 0].
Definition wf (r : lmb_region) : Prop :=
  1 <= cnt r <= MAX_LMB_REGIONS /\ zlen (region r) = MAX_LMB_REGIONS + 1 /\ (sorted 0 (ents r) \/ ents r = dummy).

Lemma covered_app es es' a : covered (es ++ es') a <-> covered es a \/ covered es' a.
Proof. apply list.Exists_app. Qed.
Lemma covered_cons p es a : covered (p :: es) a <-> base p <= a < base p + size p \/ covered es a.
Proof. apply Exists_cons. Qed.
Lemma covered_nil a : covered [] a <-> False.
Proof. apply Exists_nil. Qed.

(** A change of the ranges in the middle of a table changes what it covers by as much. *)
Lemma covered_mid pre mid mid' post a (P : Prop) :
  (covered mid' a <-> covered mid a \/ P) -> (covered (pre ++ mid' ++ post) a <-> covered (pre ++ mid ++ post) a \/ P).
Proof. rewrite !covered_app. tauto. Qed.
Lemma covered_one p a : covered [p] a <-> base p <= a < base p + size p.
Proof. rewrite covered_cons, covered_nil. tauto. Qed.
Lemma covered_two p q a : covered [p; q] a <-> base p <= a < base p + size p \/ base q <= a < base q + size q.
Proof. by rewrite covered_cons, covered_one. Qed.

Lemma sorted_lo lo lo' es : sorted lo es -> lo' <= lo -> sorted lo' es.
Proof. destruct es; cbn; [done|]. intros (? & ?) ?. split; [lia|done]. Qed.
Lemma sorted_Forall lo es :
  sorted lo es -> Forall (fun p => lo <= base p /\ 0 < size p /\ base p + size p < 2 ^ 64) es.
Proof.
  revert lo. induction es as [|p es IH]; intros lo H; [constructor|]. destruct H as (H1 & H2 & H3 & H4).
  constructor; [done|]. apply IH in H4. eapply List.Forall_impl; [|exact H4]. cbn. intros q ?. lia.
Qed.

(** *** Changing one range of a sorted table *)
Section Change.
Context (b s : Z) (Hs : 0 < s) (Hb : b + s < 2 ^ 64).

(** A new range between two others. *)
Lemma sorted_insert lo pre post :
  sorted lo (pre ++ post) -> Forall (fun p => base p + size p < b) pre -> Forall (fun p => b + s < base p) post ->
  lo <= b -> sorted lo (pre ++ Range b s :: post).
Proof using Hs Hb.
  intros H Hpre Hpost Hlo. revert lo H Hlo. induction pre as [|p pre IH]; intros lo H Hlo; cbn [app sorted base size] in *.
  - split; [done|]. split; [done|]. split; [done|]. destruct post as [|q post]; [done|].
    apply Forall_cons_iff in Hpost as [Hq _]. destruct H as (H1 & H2 & H3). split; [lia|done].
  - destruct H as (H1 & H2 & H3 & H4). apply Forall_cons_iff in Hpre as [Hp Hps].
    split; [done|]. split; [done|]. split; [done|]. apply IH; try done. lia.
Qed.

(** Growing a range downwards. *)
Lemma sorted_down lo pre p post :
  sorted lo (pre ++ p :: post) -> Forall (fun q => base q + size q < b) pre -> lo <= b -> b + s = base p ->
  sorted lo (pre ++ Range b (size p + s) :: post).
Proof using Hs Hb.
  intros H Hd Hlo Hp. revert lo H Hlo. induction pre as [|q pre IH]; intros lo H Hlo; cbn [app sorted base size] in *.
  - destruct H as (H1 & H2 & H3 & H4). split; [done|]. split; [lia|]. split; [lia|].
    by replace (b + (size p + s)) with (base p + size p) by lia.
  - destruct H as (H1 & H2 & H3 & H4). apply Forall_cons_iff in Hd as [Hd Hds].
    split; [done|]. split; [done|]. split; [done|]. apply IH; try done. lia.
Qed.

(** Growing a range upwards. *)
Lemma sorted_up lo pre p post :
  sorted lo (pre ++ p :: post) -> Forall (fun q => b + s < base q) post -> b = base p + size p ->
  sorted lo (pre ++ Range (base p) (size p + s) :: post).
Proof using Hs Hb.
  intros H Hd Hp. revert lo H. induction pre as [|q pre IH]; intros lo H; cbn [app sorted base size] in *.
  - destruct H as (H1 & H2 & H3 & H4). split; [done|]. split; [lia|]. split; [lia|].
    destruct post as [|q post]; [done|]. apply Forall_cons_iff in Hd as [Hd _]. destruct H4 as (H4 & H5 & H6).
    split; [lia|done].
  - destruct H as (H1 & H2 & H3 & H4). split; [done|]. split; [done|]. split; [done|]. by apply IH.
Qed.

(** Filling the gap between two ranges. *)
Lemma sorted_fill lo pre p q post :
  sorted lo (pre ++ p :: q :: post) -> b = base p + size p -> b + s = base q ->
  sorted lo (pre ++ Range (base p) (size p + s + size q) :: post).
Proof using Hs Hb.
  intros H Hp Hq. revert lo H. induction pre as [|x pre IH]; intros lo H; cbn [app sorted base size] in *.
  - destruct H as (H1 & H2 & H3 & H4 & H5 & H6 & H7). split; [done|]. split; [lia|]. split; [lia|].
    by replace (base p + (size p + s + size q)) with (base q + size q) by lia.
  - destruct H as (H1 & H2 & H3 & H4). split; [done|]. split; [done|]. split; [done|]. by apply IH.
Qed.
End Change.

(** Dropping a range. *)
Lemma sorted_drop lo pre p post : sorted lo (pre ++ p :: post) -> sorted lo (pre ++ post).
Proof.
  revert lo. induction pre as [|x pre IH]; intros lo H; cbn [app sorted] in *.
  - destruct H as (H1 & H2 & H3 & H4). eapply sorted_lo; [done|lia].
  - destruct H as (H1 & H2 & H3 & H4). split; [done|]. split; [done|]. split; [done|]. by apply IH.
Qed.
(** Ordered neighbours. *)
Lemma sorted_next lo pre p q post : sorted lo (pre ++ p :: q :: post) -> base p + size p < base q.
Proof.
  revert lo. induction pre as [|x pre IH]; intros lo H; cbn [app sorted] in *; [lia|].
  destruct H as (_ & _ & _ & H). by eapply IH.
Qed.

(** ** Access to an entry *)
Lemma zlen_middle {A} (pre : list A) x y post : zlen (pre ++ x :: post) = zlen (pre ++ y :: post).
Proof. by rewrite !zlen_app, !zlen_cons. Qed.
Lemma getr_eq c t pre p post i : i = zlen pre -> getr i (Region c t (pre ++ p :: post)) = Some (p, Region c t (pre ++ p :: post)).
Proof.
  intros ->. unfold getr. pose proof (zlen_nonneg pre). rewrite ltb_f by lia. cbn [region].
  unfold zlen. rewrite Nat2Z.id. by rewrite list_lookup_middle.
Qed.
Lemma setr_eq c t pre p post i q :
  i = zlen pre -> setr i q (Region c t (pre ++ p :: post)) = Some (tt, Region c t (pre ++ q :: post)).
Proof.
  intros ->. unfold setr. pose proof (zlen_nonneg pre). pose proof (zlen_nonneg post). cbn [region].
  rewrite zlen_app, zlen_cons. rewrite ltb_f by lia. rewrite (proj2 (Z.leb_gt _ _)) by lia. cbn [orb cnt total]. unfold zlen. rewrite Nat2Z.id.
  by rewrite insert_app_r_alt, Nat.sub_diag by lia.
Qed.

Lemma get_cnt_eq s : get_cnt s = Some (cnt s, s).
Proof. done. Qed.

(** The C comparisons agree with those of the integers. *)
Lemma adjacent_spec b1 s1 b2 s2 :
  0 <= b1 -> 0 < s1 -> b1 + s1 < 2 ^ 64 -> 0 <= b2 -> 0 < s2 -> b2 + s2 < 2 ^ 64 ->
  lmb_addrs_adjacent b1 s1 b2 s2 =
  if decide (b1 + s1 = b2) then 1 else if decide (b2 + s2 = b1) then -1 else 0.
Proof.
  intros. unfold lmb_addrs_adjacent. rewrite !u64_id by lia.
  destruct (b2 =? b1 + s1) eqn:E1, (b1 =? b2 + s2) eqn:E2; b2p; repeat case_decide; lia.
Qed.

(** ** Removing an entry *)
Lemma remove_loop post : forall f c t pre p tl,
  c = zlen pre + 1 + zlen post -> c <= MAX_LMB_REGIONS -> (length post < f)%nat ->
  exists x, while f remove_round (zlen pre) (Region c t (pre ++ p :: post ++ tl)) =
    Some (tt, Region c t (pre ++ post ++ x :: tl)).
Proof.
  induction post as [|q post IH]; intros f c t pre p tl Hc Hm Hf; (destruct f as [|f]; [cbn in Hf; lia|]); rewrite while_S;
    pose proof (zlen_nonneg pre); unfold MAX_LMB_REGIONS in *;
    unfold remove_round at 1; rewrite !bind_assoc;
    rewrite (bind_Some _ _ _ _ _ (get_cnt_eq _)); cbn [cnt];
    rewrite (wrap_id 32) by (split; [|pow2]; unfold zlen in *; cbn in Hc; lia).
  - rewrite ltb_f by (unfold zlen in *; cbn in Hc; lia). exists p. done.
  - rewrite zlen_cons in Hc. pose proof (zlen_nonneg post). rewrite ltb_t by lia. rewrite !bind_assoc.
    assert (getr (zlen pre + 1) (Region c t (pre ++ p :: (q :: post) ++ tl)) = Some (q, Region c t (pre ++ p :: (q :: post) ++ tl))) as E1.
    { change (pre ++ p :: (q :: post) ++ tl) with (pre ++ [p] ++ q :: (post ++ tl)). rewrite app_assoc.
      apply getr_eq. rewrite zlen_app. done. }
    run E1. run (setr_eq c t pre p ((q :: post) ++ tl) (zlen pre) q eq_refl). run_ret.
    destruct (IH f c t (pre ++ [q]) q tl) as [x Hx].
    + rewrite zlen_app. change (zlen [q]) with 1. lia.
    + done.
    + cbn in Hf. lia.
    + exists x. rewrite zlen_app in Hx. change (zlen [q]) with 1 in Hx. rewrite <- !app_assoc in Hx. exact Hx.
Qed.

Lemma remove_spec t pre p post tl :
  zlen (pre ++ p :: post) <= MAX_LMB_REGIONS ->
  exists x, lmb_remove_region (zlen pre) (Region (zlen (pre ++ p :: post)) t (pre ++ p :: post ++ tl)) =
    Some (tt, Region (zlen (pre ++ post)) t ((pre ++ post) ++ x :: tl)).
Proof.
  intros Hm. rewrite zlen_app, zlen_cons in *. pose proof (zlen_nonneg pre). pose proof (zlen_nonneg post).
  destruct (remove_loop post 131 (zlen pre + (1 + zlen post)) t pre p tl) as [x Hx]; [lia|done| |].
  { unfold MAX_LMB_REGIONS, zlen in *. lia. }
  exists x. unfold lmb_remove_region, each. run Hx. unfold get_cnt, set_cnt, bind. cbn [cnt total region].
  rewrite <- app_assoc, zlen_app. do 2 f_equal. f_equal. rewrite wrap_id; [lia|].
  unfold MAX_LMB_REGIONS in *. split; [lia|pow2; lia].
Qed.

Lemma coalesce_spec t pre p q post tl :
  zlen (pre ++ p :: q :: post) <= MAX_LMB_REGIONS -> 0 <= size p + size q < 2 ^ 64 ->
  exists x, let es := pre ++ Range (base p) (size p + size q) :: post in
    lmb_coalesce_regions (zlen pre) (zlen pre + 1) (Region (zlen (pre ++ p :: q :: post)) t (pre ++ p :: q :: post ++ tl)) =
    Some (tt, Region (zlen es) t (es ++ x :: tl)).
Proof.
  intros Hm Hs. unfold lmb_coalesce_regions. run (getr_eq (zlen (pre ++ p :: q :: post)) t pre p (q :: post ++ tl) _ eq_refl).
  pose proof (getr_eq (zlen (pre ++ p :: q :: post)) t (pre ++ [p]) q (post ++ tl) (zlen pre + 1)
    ltac:(by rewrite zlen_app)) as E1. rewrite <- app_assoc in E1. run E1.
  run (setr_eq (zlen (pre ++ p :: q :: post)) t pre p (q :: post ++ tl) _ (Range (base p) (u64 (size p + size q))) eq_refl).
  rewrite u64_id by done. set (p' := Range (base p) (size p + size q)).
  destruct (remove_spec t (pre ++ [p']) q post tl) as [x Hx].
  { revert Hm. by rewrite <- app_assoc, !zlen_app, !zlen_cons. }
  exists x. cbv zeta. rewrite <- !app_assoc in Hx. cbn [app] in Hx. rewrite zlen_app in Hx at 1.
  replace (zlen (pre ++ p :: q :: post)) with (zlen (pre ++ p' :: q :: post)) by (by rewrite !zlen_app, !zlen_cons).
  rewrite <- !app_assoc. exact Hx.
Qed.

(** ** Adding a range *)
Section Add.
Context (b s : Z) (Hb0 : 0 <= b) (Hs : 0 < s) (Hb : b + s < 2 ^ 64).

(** Neither the new range nor a neighbour of it. *)
Definition untouched (p : lmb_property) : Prop := p <> Range b s /\ b + s <> base p /\ base p + size p <> b.

(** What the search for a neighbour finds in the ranges [es], stored before [tl]. *)
Inductive found (t : Z) (es tl : list lmb_property) : unit + Z * Z -> lmb_region -> Prop :=
  | found_same : Range b s ∈ es -> found t es tl (inl tt) (Region (zlen es) t (es ++ tl))
  | found_down pre p post : es = pre ++ p :: post -> Forall untouched pre -> b + s = base p ->
      found t es tl (inr (zlen pre, 1)) (Region (zlen es) t ((pre ++ Range b (size p + s) :: post) ++ tl))
  | found_up pre p post : es = pre ++ p :: post -> Forall untouched pre -> b = base p + size p ->
      found t es tl (inr (zlen pre, 1)) (Region (zlen es) t ((pre ++ Range (base p) (size p + s) :: post) ++ tl))
  | found_none : Forall untouched es -> found t es tl (inr (zlen es, 0)) (Region (zlen es) t (es ++ tl)).

Lemma neighbour_loop t es tl post : forall pre f,
  es = pre ++ post -> sorted 0 es -> Forall untouched pre -> (length post < f)%nat ->
  exists r st, while f (neighbour_round b s) (zlen pre) (Region (zlen es) t (es ++ tl)) = Some (r, st) /\ found t es tl r st.
Proof using Hb0 Hs Hb.
  induction post as [|p post IH]; intros pre f He Hso Hun Hf; (destruct f as [|f]; [cbn in Hf; lia|]); rewrite while_S;
    unfold neighbour_round at 1; rewrite !bind_assoc; rewrite (bind_Some _ _ _ _ _ (get_cnt_eq _)); cbn [cnt].
  - rewrite app_nil_r in He. subst pre. rewrite ltb_f by lia. eexists _, _. split; [reflexivity|]. by constructor.
  - assert (zlen pre < zlen es) as Hlt.
    { rewrite He, zlen_app, zlen_cons. pose proof (zlen_nonneg post). lia. }
    rewrite ltb_t by done. rewrite !bind_assoc.
    assert (forall q, pre ++ q :: post ++ tl = (pre ++ q :: post) ++ tl) as Ha by (intros; by rewrite <- app_assoc).
    pose proof (getr_eq (zlen es) t pre p (post ++ tl) _ eq_refl) as E1. rewrite Ha, <- He in E1. run E1.
    pose proof (sorted_Forall _ _ Hso) as Hall. rewrite He in Hall. apply Forall_app in Hall as [_ [Hp _]%Forall_cons_iff].
    destruct ((base p =? b) && (size p =? s)) eqn:Esame.
    { b2p. eexists _, _. split; [reflexivity|]. constructor. rewrite He. destruct p as [bp sp]. cbn in *. subst. 
      apply elem_of_app. right. apply elem_of_cons. by left. }
    rewrite adjacent_spec by lia. repeat case_decide.
    + cbn [Z.ltb Z.compare]. rewrite !bind_assoc. rewrite !u64_id by lia.
      pose proof (setr_eq (zlen es) t pre p (post ++ tl) (zlen pre) (Range (base p - s) (size p + s)) eq_refl) as E2.
      rewrite !Ha, <- He in E2. run E2. replace (base p - s) with b in * by lia. eexists _, _. split; [reflexivity|].
      by eapply found_down.
    + cbn [Z.ltb Z.compare]. rewrite !bind_assoc. rewrite !u64_id by lia.
      pose proof (setr_eq (zlen es) t pre p (post ++ tl) (zlen pre) (Range (base p) (size p + s)) eq_refl) as E2.
      rewrite !Ha, <- He in E2. run E2. eexists _, _. split; [reflexivity|]. by eapply found_up.
    + cbn [Z.ltb Z.compare]. run_ret. destruct (IH (pre ++ [p]) f) as (r & st & E2 & Hr).
      * by rewrite <- app_assoc.
      * done.
      * apply Forall_app. split; [done|]. constructor; [|done]. split; [|done]. intros ->. cbn in Esame.
        rewrite !Z.eqb_refl in Esame. done.
      * cbn in Hf. lia.
      * rewrite zlen_app in E2. change (zlen [p]) with 1 in E2. eexists _, _. split; [exact E2|done].
Qed.

(** The shifting loop splits the ranges at the new one. *)
Lemma shift_loop t c tl pre : forall f x post,
  Forall (fun p => b < base p) post -> (length pre < f)%nat -> (pre = [] -> post <> [] -> b < base x) ->
  exists pre' post' x', while f (shift_round b s) (zlen pre - 1) (Region c t (pre ++ x :: post ++ tl)) =
      Some (tt, Region c t (pre' ++ x' :: post' ++ tl)) /\ pre' ++ post' = pre ++ post /\
    Forall (fun p => b < base p) post' /\
    ((pre' = [] /\ (post' <> [] -> b < base x')) \/ (x' = Range b s /\ exists p q, pre' = q ++ [p] /\ base p <= b)).
Proof.
  induction pre as [|p pre IH] using rev_ind; intros f x post Hpost Hf Hx; (destruct f as [|f]; [rewrite ?length_app in Hf; cbn in Hf; lia|]);
    rewrite while_S; unfold shift_round at 1.
  - cbn [zlen length]. change (0 <=? zlen [] - 1) with false. cbn iota. run_ret. exists [], post, x. split; [done|]. split; [done|].
    split; [done|]. left. split; [done|]. auto.
  - rewrite zlen_app. change (zlen [p]) with 1. replace (zlen pre + 1 - 1) with (zlen pre) by lia.
    pose proof (zlen_nonneg pre). rewrite (proj2 (Z.leb_le 0 (zlen pre))) by done. rewrite <- app_assoc. cbn [app]. rewrite !bind_assoc.
    run (getr_eq c t pre p (x :: post ++ tl) _ eq_refl). destruct (b <? base p) eqn:Eb; b2p; rewrite !bind_assoc.
    + pose proof (setr_eq c t (pre ++ [p]) x (post ++ tl) (zlen pre + 1) p ltac:(by rewrite zlen_app)) as E1.
      rewrite <- !app_assoc in E1. cbn [app] in E1. run E1. run_ret.
      destruct (IH f p (p :: post)) as (pre' & post' & x' & E2 & He & Hp' & Hor).
      * by apply Forall_cons_2.
      * rewrite length_app in Hf. cbn in Hf. lia.
      * done.
      * exists pre', post', x'. split; [exact E2|]. split; [by rewrite He, <- app_assoc|]. done.
    + pose proof (setr_eq c t (pre ++ [p]) x (post ++ tl) (zlen pre + 1) (Range b s) ltac:(by rewrite zlen_app)) as E1.
      rewrite <- !app_assoc in E1. cbn [app] in E1. run E1. run_ret. exists (pre ++ [p]), post, (Range b s).
      split; [by rewrite <- app_assoc|]. split; [by rewrite <- app_assoc|]. split; [done|]. right. split; [done|]. by exists p, pre.
Qed.

Lemma sorted_parts lo pre p post : sorted lo (pre ++ p :: post) ->
  Forall (fun q => base q + size q < base p /\ 0 < size q) pre /\ 0 < size p /\ base p + size p < 2 ^ 64 /\ lo <= base p /\
  Forall (fun q => base p + size p < base q /\ 0 < size q) post.
Proof.
  revert lo. induction pre as [|x pre IH]; intros lo H; cbn [app sorted] in H; destruct H as (H1 & H2 & H3 & H4).
  - split; [constructor|]. split; [done|]. split; [done|]. split; [done|]. apply sorted_Forall in H4.
    eapply List.Forall_impl; [|exact H4]. cbn. lia.
  - destruct (IH _ H4) as (Hp & H5 & H6 & H7 & H8). split; [constructor; [lia|done]|]. split; [done|]. split; [done|]. split; [lia|done].
Qed.

Definition ok_with (es : list lmb_property) : Prop := Forall (fun p => apart b s p \/ p = Range b s) es.

Lemma before_new pre p post :
  sorted 0 (pre ++ p :: post) -> ok_with (pre ++ p :: post) -> Forall untouched pre -> base p <= b + s ->
  Forall (fun q => base q + size q < b) pre.
Proof using Hs.
  intros Hso Hok Hun Hp. destruct (sorted_parts _ _ _ _ Hso) as (Hpre & _). apply Forall_app in Hok as [Hok _].
  rewrite list.Forall_forall in *. intros q Hq. specialize (Hpre q Hq). specialize (Hun q Hq). specialize (Hok q Hq). cbn in *.
  destruct Hun as (U1 & U2 & U3). destruct Hok as [[]|]; [lia|lia|done].
Qed.
Lemma after_new pre p post :
  sorted 0 (pre ++ p :: post) -> ok_with (pre ++ p :: post) -> b <= base p + size p -> Forall (fun q => b + s <= base q) post.
Proof using Hs.
  intros Hso Hok Hp. destruct (sorted_parts _ _ _ _ Hso) as (_ & _ & _ & _ & Hpost).
  apply Forall_app in Hok as [_ [_ Hok]%Forall_cons_iff].
  rewrite list.Forall_forall in *. intros q Hq. specialize (Hpost q Hq). specialize (Hok q Hq). cbn in *.
  destruct Hok as [[]|E]; [lia|lia|]. subst q. cbn in *. lia.
Qed.

(** The result of adding: the table is full and unchanged, or covers the new range too. *)
Definition added (es tl : list lmb_property) (r : Z) (es' tl' : list lmb_property) : Prop :=
  zlen es' + zlen tl' = MAX_LMB_REGIONS + 1 /\ 1 <= zlen es' <= MAX_LMB_REGIONS /\ sorted 0 es' /\
  ((r = -1 /\ es' = es /\ tl' = tl /\ zlen es = MAX_LMB_REGIONS) \/
   (0 <= r /\ forall a, covered es' a <-> covered es a \/ b <= a < b + s)).

(** *** Merging with the next range *)
Lemma merge_far t pre p post tl :
  sorted 0 (pre ++ p :: post) -> zlen (pre ++ p :: post) <= MAX_LMB_REGIONS ->
  merge_next (zlen pre) 1 (Region (zlen (pre ++ p :: post)) t ((pre ++ p :: post) ++ tl)) =
    Some (1, Region (zlen (pre ++ p :: post)) t ((pre ++ p :: post) ++ tl)).
Proof.
  intros Hso Hm. unfold merge_next. rewrite (bind_Some _ _ _ _ _ (get_cnt_eq _)). cbn [cnt].
  assert (zlen (pre ++ p :: post) = zlen pre + 1 + zlen post) as Hl by (rewrite zlen_app, zlen_cons; lia).
  pose proof (zlen_nonneg pre). pose proof (zlen_nonneg post). unfold MAX_LMB_REGIONS in *.
  rewrite (wrap_id 32) by (split; [lia|pow2; lia]). destruct post as [|q post].
  { change (zlen []) with 0 in Hl. rewrite ltb_f by lia. done. }
  rewrite zlen_cons in Hl. pose proof (zlen_nonneg post). rewrite ltb_t by lia. unfold lmb_regions_adjacent. rewrite !bind_assoc.
  pose proof (getr_eq (zlen (pre ++ p :: q :: post)) t pre p ((q :: post) ++ tl) _ eq_refl) as E1.
  pose proof (getr_eq (zlen (pre ++ p :: q :: post)) t (pre ++ [p]) q (post ++ tl) (zlen pre + 1) ltac:(by rewrite zlen_app)) as E2.
  rewrite <- !app_assoc in *. cbn [app] in *. run E1. run E2. run_ret.
  pose proof (sorted_next _ _ _ _ _ Hso). pose proof (sorted_Forall _ _ Hso) as Hall.
  apply Forall_app in Hall as [_ [Hp [Hq _]%Forall_cons_iff]%Forall_cons_iff].
  rewrite adjacent_spec by lia. rewrite !decide_False by lia. done.
Qed.

Lemma merge_touching t pre p q post tl :
  0 <= base p -> 0 < size p -> 0 < size q -> base p + size p = base q -> base q + size q < 2 ^ 64 ->
  zlen (pre ++ p :: q :: post) <= MAX_LMB_REGIONS ->
  exists x, let es := pre ++ Range (base p) (size p + size q) :: post in
    merge_next (zlen pre) 1 (Region (zlen (pre ++ p :: q :: post)) t ((pre ++ p :: q :: post) ++ tl)) =
    Some (2, Region (zlen es) t (es ++ x :: tl)).
Proof.
  intros H1 H2 H3 H4 H5 Hm. unfold merge_next. rewrite (bind_Some _ _ _ _ _ (get_cnt_eq _)). cbn [cnt].
  assert (zlen (pre ++ p :: q :: post) = zlen pre + 2 + zlen post) as Hl by (rewrite zlen_app, !zlen_cons; lia).
  pose proof (zlen_nonneg pre). pose proof (zlen_nonneg post). pose proof Hm as Hm'. unfold MAX_LMB_REGIONS in Hm.
  rewrite (wrap_id 32) by (split; [lia|pow2; lia]).
  rewrite ltb_t by lia. unfold lmb_regions_adjacent. rewrite !bind_assoc.
  destruct (coalesce_spec t pre p q post tl Hm' ltac:(lia)) as [x E3]. exists x. cbv zeta in *.
  pose proof (getr_eq (zlen (pre ++ p :: q :: post)) t pre p ((q :: post) ++ tl) _ eq_refl) as E1.
  pose proof (getr_eq (zlen (pre ++ p :: q :: post)) t (pre ++ [p]) q (post ++ tl) (zlen pre + 1) ltac:(by rewrite zlen_app)) as E2.
  rewrite <- !app_assoc in *. cbn [app] in *. run E1. run E2. run_ret.
  rewrite adjacent_spec by lia. rewrite decide_True by lia. cbn [negb Z.eqb]. by run E3.
Qed.

(** *** A range that touches no other *)
Lemma split_new pre post :
  sorted 0 (pre ++ post) -> ok_with (pre ++ post) -> Forall untouched (pre ++ post) -> Forall (fun p => b < base p) post ->
  (forall q p, pre = q ++ [p] -> base p <= b) ->
  Forall (fun p => base p + size p < b) pre /\ Forall (fun p => b + s < base p) post.
Proof using Hs.
  intros Hso Hok Hun Hpost Hlast. unfold ok_with in *. apply Forall_app in Hok as [Hok1 Hok2]. apply Forall_app in Hun as [Hun1 Hun2].
  assert (Forall (fun p => base p <= b) pre) as Hle.
  { destruct pre as [|p pre _] using rev_ind; [constructor|]. specialize (Hlast pre p eq_refl). apply Forall_app. split; [|by constructor].
    rewrite <- app_assoc in Hso. destruct (sorted_parts _ _ _ _ Hso) as (Hp & _).
    eapply List.Forall_impl; [|exact Hp]. cbn. lia. }
  rewrite !list.Forall_forall in *. split; intros q Hq.
  - specialize (Hok1 q Hq). specialize (Hun1 q Hq). specialize (Hle q Hq). cbn in *. destruct Hun1 as (U1 & U2 & U3).
    destruct Hok1 as [[]|]; [lia|lia|done].
  - specialize (Hok2 q Hq). specialize (Hun2 q Hq). specialize (Hpost q Hq). cbn in *. destruct Hun2 as (U1 & U2 & U3).
    destruct Hok2 as [[]|]; [|lia|done]. exfalso. rewrite <- (app_nil_r post) in Hso.
    apply sorted_Forall in Hso. rewrite app_nil_r, list.Forall_forall in Hso.
    specialize (Hso q (proj2 (elem_of_app _ _ _) (or_intror Hq))). lia.
Qed.

Lemma add_new_spec t es x tl :
  es <> [] -> sorted 0 es -> ok_with es -> Forall untouched es -> zlen es < MAX_LMB_REGIONS ->
  exists pre post, es = pre ++ post /\
    Forall (fun p => base p + size p < b) pre /\ Forall (fun p => b + s < base p) post /\
    add_new b s (Region (zlen es) t (es ++ x :: tl)) =
      Some (0, Region (zlen (pre ++ Range b s :: post)) t ((pre ++ Range b s :: post) ++ tl)).
Proof using Hs.
  intros Hne Hso Hok Hun Hm. pose proof (zlen_nonneg es). unfold MAX_LMB_REGIONS in *.
  assert (0 < zlen es) as Hpos by (destruct es; [done|]; rewrite zlen_cons; pose proof (zlen_nonneg es); lia).
  unfold add_new. rewrite (bind_Some _ _ _ _ _ (get_cnt_eq _)). cbn [cnt]. rewrite (proj2 (Z.leb_gt _ _)) by (unfold MAX_LMB_REGIONS; lia).
  unfold insert_sorted. rewrite !bind_assoc. rewrite (bind_Some _ _ _ _ _ (get_cnt_eq _)). cbn [cnt].
  rewrite s32_id by (split; pow2; lia).
  destruct (shift_loop t (zlen es) tl es 131 x []) as (pre & post & x' & E & He & Hpost & Hor); [constructor|unfold zlen in *; lia|done|].
  cbn [app] in E. unfold each. rewrite (bind_Some _ _ _ _ _ E). clear E. rewrite app_nil_r in He. subst es.
  assert (forall q p, pre = q ++ [p] -> base p <= b) as Hlast.
  { intros q p ->. destruct Hor as [[Hn _]|(_ & p' & q' & Hq & Hb')]; [by destruct q|]. apply app_inj_tail in Hq as [_ ->]. done. }
  destruct (split_new pre post Hso Hok Hun Hpost Hlast) as [F1 F2].
  exists pre, post. split; [done|]. split; [done|]. split; [done|].
  assert (exists p0 r0, (let* p0 := getr 0 in if b <? base p0 then setr 0 (Range b s) else ret tt)
     (Region (zlen (pre ++ post)) t (pre ++ x' :: post ++ tl)) = Some (p0, Region (zlen (pre ++ post)) t r0) /\
     r0 = pre ++ Range b s :: post ++ tl) as (u & r0 & E & Hr0).
  { destruct Hor as [[-> Hx]|(-> & p & q & -> & Hle)].
    - cbn [app] in *. rewrite (bind_Some _ _ _ _ _ (getr_eq _ _ [] x' (post ++ tl) 0 eq_refl)). rewrite ltb_t by auto.
      rewrite (setr_eq _ _ [] x' (post ++ tl) 0 _ eq_refl). by eexists _, _.
    - destruct q as [|q0 q].
      + cbn [app] in *. rewrite (bind_Some _ _ _ _ _ (getr_eq _ _ [] p (Range b s :: post ++ tl) 0 eq_refl)). rewrite ltb_f by lia.
        by eexists _, _.
      + cbn [app] in *. rewrite (bind_Some _ _ _ _ _ (getr_eq _ _ [] q0 ((q ++ [p]) ++ Range b s :: post ++ tl) 0 eq_refl)).
        apply Forall_cons_iff in F1 as [F1 _]. destruct Hso as (_ & Hsz & _). rewrite ltb_f by lia. by eexists _, _. }
  rewrite <- bind_assoc. rewrite (bind_Some _ _ _ _ _ E). rewrite Hr0. unfold get_cnt, set_cnt, bind, ret. cbn [cnt total region].
  rewrite <- app_assoc. cbn [app]. do 2 f_equal. f_equal. rewrite !zlen_app, zlen_cons in *. rewrite wrap_id; [lia|]. split; [lia|pow2; lia].
Qed.

(** *** What follows the search *)
Definition finish (i coalesced : Z) : RG Z :=
  let* coalesced := merge_next i coalesced in
  if negb (coalesced =? 0) then ret coalesced else add_new b s.

Lemma finish_down t pre p post tl :
  sorted 0 (pre ++ p :: post) -> ok_with (pre ++ p :: post) -> Forall untouched pre -> b + s = base p ->
  1 <= zlen (pre ++ p :: post) <= MAX_LMB_REGIONS -> zlen (pre ++ p :: post) + zlen tl = MAX_LMB_REGIONS + 1 ->
  exists r es' tl', finish (zlen pre) 1 (Region (zlen (pre ++ p :: post)) t ((pre ++ Range b (size p + s) :: post) ++ tl)) =
      Some (r, Region (zlen es') t (es' ++ tl')) /\ added (pre ++ p :: post) tl r es' tl'.
Proof using Hb0 Hs Hb.
  intros Hso Hok Hun Hp Hc Hlen. assert (sorted 0 (pre ++ Range b (size p + s) :: post)) as Hso'.
  { apply sorted_down; try done. eapply before_new; try done. lia. }
  unfold finish. rewrite (zlen_middle pre p (Range b (size p + s))) in *.
  rewrite (bind_Some _ _ _ _ _ (merge_far _ _ _ _ _ Hso' (proj2 Hc))).
  eexists 1, _, _. split; [reflexivity|]. split; [done|]. split; [lia|]. split; [done|]. right. split; [lia|].
  intros a. destruct (sorted_parts _ _ _ _ Hso) as (_ & Hsz & _). apply (covered_mid pre [p] [_] post).
  rewrite !covered_one. cbn [base size]. lia.
Qed.

Lemma next_far pre p post :
  sorted 0 (pre ++ p :: post) -> Forall (fun q => b + s <= base q) post ->
  Forall (fun q => b + s < base q) post \/ exists q post', post = q :: post' /\ b + s = base q.
Proof.
  intros Hso Haft. destruct post as [|q post]; [left; constructor|]. apply Forall_cons_iff in Haft as [Haft _].
  destruct (decide (b + s = base q)) as [Eq|Eq]; [right; eauto|left].
  change (pre ++ p :: q :: post) with (pre ++ [p] ++ q :: post) in Hso. rewrite app_assoc in Hso.
  destruct (sorted_parts _ _ _ _ Hso) as (_ & Hszq & _ & _ & Hq). constructor; [lia|].
  eapply List.Forall_impl; [|exact Hq]. cbn. lia.
Qed.

Lemma finish_up t pre p post tl :
  sorted 0 (pre ++ p :: post) -> ok_with (pre ++ p :: post) -> b = base p + size p ->
  1 <= zlen (pre ++ p :: post) <= MAX_LMB_REGIONS -> zlen (pre ++ p :: post) + zlen tl = MAX_LMB_REGIONS + 1 ->
  exists r es' tl', finish (zlen pre) 1 (Region (zlen (pre ++ p :: post)) t ((pre ++ Range (base p) (size p + s) :: post) ++ tl)) =
      Some (r, Region (zlen es') t (es' ++ tl')) /\ added (pre ++ p :: post) tl r es' tl'.
Proof using Hb0 Hs Hb.
  intros Hso Hok Hp Hc Hlen. destruct (sorted_parts _ _ _ _ Hso) as (_ & Hsz & _ & Hlo & _).
  pose proof (after_new _ _ _ Hso Hok ltac:(lia)) as Haft. rewrite (zlen_middle pre p (Range (base p) (size p + s))) in *.
  unfold finish. destruct (next_far _ _ _ Hso Haft) as [Hfar|(q & post' & -> & Eq)].
  - assert (sorted 0 (pre ++ Range (base p) (size p + s) :: post)) as Hso' by (by apply (sorted_up b s)).
    rewrite (bind_Some _ _ _ _ _ (merge_far _ _ _ _ _ Hso' (proj2 Hc))). eexists 1, _, _. split; [reflexivity|].
    split; [done|]. split; [lia|]. split; [done|]. right. split; [lia|]. intros a. apply (covered_mid pre [p] [_] post).
    rewrite !covered_one. cbn [base size]. lia.
  - assert (base q + size q < 2 ^ 64 /\ 0 < size q) as [Hq1 Hq2].
    { apply sorted_Forall, Forall_app in Hso as [_ [_ [Hq _]%Forall_cons_iff]%Forall_cons_iff]. lia. }
    destruct (merge_touching t pre (Range (base p) (size p + s)) q post' tl) as [x Ex]; cbn [base size] in *; try lia.
    cbv zeta in Ex. rewrite (bind_Some _ _ _ _ _ Ex). eexists 2, _, _. split; [reflexivity|].
    pose proof (sorted_fill b s Hs Hb _ _ _ _ _ Hso Hp Eq) as Hso'. pose proof (zlen_nonneg pre). pose proof (zlen_nonneg post').
    unfold added, MAX_LMB_REGIONS in *. rewrite !zlen_app, !zlen_cons in *.
    split; [lia|]. split; [lia|]. split; [done|].
    right. split; [lia|]. intros a. apply (covered_mid pre [p; q] [_] post'). rewrite covered_one, covered_two. cbn [base size]. lia.
Qed.

Lemma finish_new t es tl :
  es <> [] -> sorted 0 es -> ok_with es -> Forall untouched es ->
  1 <= zlen es <= MAX_LMB_REGIONS -> zlen es + zlen tl = MAX_LMB_REGIONS + 1 ->
  exists r es' tl', finish (zlen es) 0 (Region (zlen es) t (es ++ tl)) = Some (r, Region (zlen es') t (es' ++ tl')) /\
    added es tl r es' tl'.
Proof using Hb0 Hs Hb.
  intros Hne Hso Hok Hun Hc Hlen. pose proof (zlen_nonneg tl).
  assert (merge_next (zlen es) 0 (Region (zlen es) t (es ++ tl)) = Some (0, Region (zlen es) t (es ++ tl))) as E2.
  { unfold merge_next. rewrite (bind_Some _ _ _ _ _ (get_cnt_eq _)). cbn [cnt]. unfold MAX_LMB_REGIONS in *.
    rewrite (wrap_id 32) by (split; [lia|pow2; lia]). by rewrite ltb_f by lia. }
  unfold finish. rewrite (bind_Some _ _ _ _ _ E2). cbn [negb Z.eqb]. destruct (decide (zlen es = MAX_LMB_REGIONS)) as [Efull|Efull].
  { exists (-1), es, tl. split; [|split; [done|]; split; [lia|]; split; [done|]; by left].
    unfold add_new. rewrite (bind_Some _ _ _ _ _ (get_cnt_eq _)). cbn [cnt]. by rewrite (proj2 (Z.leb_le _ _)) by lia. }
  destruct tl as [|x tl]; [change (zlen []) with 0 in *; lia|]. rewrite zlen_cons in *.
  destruct (add_new_spec t es x tl Hne Hso Hok Hun ltac:(lia)) as (pre & post & -> & Hpre & Hpost & E3).
  exists 0, (pre ++ Range b s :: post), tl. split; [exact E3|]. unfold added. rewrite !zlen_app, zlen_cons in *.
  split; [lia|]. split; [lia|]. split; [by apply sorted_insert|]. right. split; [lia|]. intros a.
  apply (covered_mid pre [] [_] post). rewrite covered_one, covered_nil. cbn [base size]. tauto.
Qed.

Lemma add_found t es tl :
  es <> [] -> sorted 0 es -> zlen es + zlen tl = MAX_LMB_REGIONS + 1 -> zlen es <= MAX_LMB_REGIONS -> ok_with es ->
  exists r es' tl', lmb_add_region b s (Region (zlen es) t (es ++ tl)) = Some (r, Region (zlen es') t (es' ++ tl')) /\
    added es tl r es' tl'.
Proof using Hb0 Hs Hb.
  intros Hne Hso Hlen Hmax Hok.
  assert (exists p0 es0, es = p0 :: es0) as (p0 & es0 & He0) by (destruct es; eauto; done).
  assert (1 <= zlen es) as Hpos by (rewrite He0, zlen_cons; pose proof (zlen_nonneg es0); lia).
  unfold lmb_add_region. rewrite (bind_Some _ _ _ _ _ (get_cnt_eq _)). cbn [cnt].
  pose proof (getr_eq (zlen es) t [] p0 (es0 ++ tl) 0 eq_refl) as E0.
  change ([] ++ p0 :: es0 ++ tl) with ((p0 :: es0) ++ tl) in E0. rewrite <- He0 in E0. run E0.
  assert (0 < size p0) as Hp0 by (rewrite He0 in Hso; apply Hso).
  rewrite (eqb_f (size p0)) by lia. rewrite andb_false_r.
  destruct (neighbour_loop t es tl es [] 131 eq_refl Hso) as (r & st & E1 & Hf); [constructor| |].
  { unfold MAX_LMB_REGIONS, zlen in *. lia. }
  change (zlen []) with 0 in E1. unfold find_neighbour, each. run E1.
  destruct Hf as [Hin|pre p post -> Hun Hp|pre p post -> Hun Hp|Hun].
  - exists 0, es, tl. split; [done|]. split; [done|]. split; [lia|]. split; [done|]. right. split; [lia|]. intros a. split; [auto|].
    intros [|Ha]; [done|]. apply list.Exists_exists. eauto.
  - by apply finish_down.
  - by apply finish_up.
  - by apply finish_new.
Qed.
End Add.

(** ** The table as a whole *)
(** A table is its ranges and the unused rest of the array. *)
Lemma table_parts r : 0 <= cnt r <= zlen (region r) ->
  exists tl, r = Region (zlen (ents r)) (total r) (ents r ++ tl) /\ zlen (ents r) = cnt r /\ zlen (ents r) + zlen tl = zlen (region r).
Proof.
  intros Hc. exists (drop (Z.to_nat (cnt r)) (region r)). unfold ents.
  assert (zlen (take (Z.to_nat (cnt r)) (region r)) = cnt r) as Hz by (unfold zlen in *; rewrite length_take; lia).
  rewrite Hz, take_drop. destruct r; cbn in *. split; [done|]. split; [done|]. unfold zlen in *. rewrite length_drop. lia.
Qed.
Lemma ents_eq es t tl : ents (Region (zlen es) t (es ++ tl)) = es.
Proof. unfold ents, zlen. cbn [cnt region]. rewrite Nat2Z.id. apply take_app_length. Qed.

Definition holds_addr (r : lmb_region) (a : Z) : Prop := covered (ents r) a.
(** The range may be added: it lies apart from the others, or is one of them. *)
Definition addable (b s : Z) (r : lmb_region) : Prop := Forall (fun p => apart b s p \/ p = Range b s) (ents r).

Lemma wf_eq es t tl : 1 <= zlen es <= MAX_LMB_REGIONS -> zlen es + zlen tl = MAX_LMB_REGIONS + 1 -> sorted 0 es ->
  wf (Region (zlen es) t (es ++ tl)).
Proof. intros. split; [done|]. split; [cbn [region]; by rewrite zlen_app|]. left. by rewrite ents_eq. Qed.

Lemma add_spec b s r :
  0 <= b -> 0 < s -> b + s < 2 ^ 64 -> wf r -> addable b s r ->
  exists v r', lmb_add_region b s r = Some (v, r') /\ wf r' /\ total r' = total r /\
    ((v = -1 /\ r' = r /\ cnt r = MAX_LMB_REGIONS) \/
     (0 <= v /\ sorted 0 (ents r') /\ forall a, holds_addr r' a <-> holds_addr r a \/ b <= a < b + s)).
Proof.
  intros Hb Hs He (Hc & Hl & Hso) Hok. unfold holds_addr, addable in *.
  destruct (table_parts r ltac:(lia)) as (tl & Hr & Hz & Hlen). destruct Hso as [Hso|Hd].
  - destruct (add_found b s Hb Hs He (total r) (ents r) tl) as (v & es' & tl' & E & Hl' & Hc' & Hso' & Hor); try done; try lia.
    { intros E. rewrite E in Hz. change (zlen []) with 0 in Hz. lia. }
    rewrite <- Hr in E. exists v, (Region (zlen es') (total r) (es' ++ tl')). split; [done|].
    split; [by apply wf_eq|]. split; [done|]. rewrite ents_eq.
    destruct Hor as [(-> & -> & -> & Hfull)|[Hv Hcov]]; [left|right; done].
    split; [done|]. split; [by symmetry|lia].
  - rewrite Hd in *. change (zlen dummy) with 1 in *. exists 0, (Region (zlen [Range b s]) (total r) ([Range b s] ++ tl)).
    split; [rewrite Hr; done|]. split; [apply wf_eq; [by compute|change (zlen [Range b s]) with 1; lia|cbn; lia]|]. split; [done|]. right.
    rewrite ents_eq.
    split; [lia|]. split; [cbn; lia|]. intros a. rewrite covered_one. unfold dummy. rewrite covered_one. cbn. lia.
Qed.

(** ** Searching a table *)
(** The loops that only read go through the ranges in order until one gives a result. *)
Section Scan.
Context {A : Type} (g : Z -> lmb_property -> option A) (d : A).

Definition scan (i : Z) : RG (Z + A) :=
  let* c := get_cnt in
  if i <? c then
    let* p := getr i in
    match g i p with Some a => ret (inr a) | None => ret (inl (i + 1)) end
  else ret (inr d).
Fixpoint scan_list (i : Z) (es : list lmb_property) : A :=
  match es with
  | [] => d
  | p :: es => match g i p with Some a => a | None => scan_list (i + 1) es end
  end.

Lemma scan_loop round : (forall i r, round i r = scan i r) -> forall post t c tl pre f,
  c = zlen (pre ++ post) -> (length post < f)%nat ->
  while f round (zlen pre) (Region c t ((pre ++ post) ++ tl)) =
    Some (scan_list (zlen pre) post, Region c t ((pre ++ post) ++ tl)).
Proof.
  intros Hrd. induction post as [|p post IH]; intros t c tl pre f -> Hf; (destruct f as [|f]; [cbn in Hf; lia|]); rewrite while_S;
    erewrite bind_cong by apply Hrd; unfold scan at 1; rewrite !bind_assoc; rewrite (bind_Some _ _ _ _ _ (get_cnt_eq _)); cbn [cnt].
  - rewrite app_nil_r. by rewrite ltb_f by lia.
  - rewrite ltb_t by (rewrite zlen_app, zlen_cons; pose proof (zlen_nonneg post); lia).
    pose proof (getr_eq (zlen (pre ++ p :: post)) t pre p (post ++ tl) _ eq_refl) as E1. rewrite app_comm_cons, app_assoc in E1.
    rewrite !bind_assoc. rewrite (bind_Some _ _ _ _ _ E1). cbn [scan_list]. destruct (g (zlen pre) p) as [a|]; run_ret; [done|].
    cbn in Hf. specialize (IH t _ tl (pre ++ [p]) f eq_refl ltac:(lia)).
    replace (zlen (pre ++ [p])) with (zlen pre + 1) in IH by (by rewrite zlen_app). rewrite <- !app_assoc in *. exact IH.
Qed.

Lemma scan_table round r : (forall i r, round i r = scan i r) -> 0 <= cnt r <= MAX_LMB_REGIONS -> cnt r <= zlen (region r) ->
  each round 0 r = Some (scan_list 0 (ents r), r).
Proof.
  intros Hrd Hc Hl. destruct (table_parts r ltac:(lia)) as (tl & Hr & Hz & Hlen).
  pose proof (scan_loop round Hrd (ents r) (total r) (zlen (ents r)) tl [] 131 eq_refl) as E.
  cbn [app] in E. rewrite <- Hr in E. apply E. unfold MAX_LMB_REGIONS, zlen in *. lia.
Qed.
End Scan.

(** A round of a search is a step through the ranges. *)
Tactic Notation "is_scan" reference(rd) reference(g) := intros; unfold rd, scan, g, bind, get_cnt, ret; cbn beta iota zeta;
  repeat (match goal with |- context [match ?x with _ => _ end] => destruct x end; cbn beta iota zeta; try reflexivity).

(** ** Removing a range *)
Section Remove.
Context (b s : Z) (Hb0 : 0 <= b) (Hs : 0 < s) (Hb : b + s < 2 ^ 64).

(** The range lies inside [p]. *)
Definition inside (p : lmb_property) : Prop := base p <= b /\ b + s <= base p + size p.
(** No arithmetic on the range wraps. *)
Definition in_range (p : lmb_property) : Prop := 0 <= base p /\ 0 <= size p /\ base p + size p < 2 ^ 64.

Definition holder (i : Z) (p : lmb_property) : option (option (Z * Z * Z)) :=
  if (base p <=? b) && (b + s <=? u64 (base p + size p)) then Some (Some (i, base p, u64 (base p + size p))) else None.
Definition held (i : Z) (es : list lmb_property) (o : option (Z * Z * Z)) : Prop :=
  match o with
  | Some (j, x, y) => exists pre p post, es = pre ++ p :: post /\ inside p /\ j = i + zlen pre /\ x = base p /\ y = base p + size p
  | None => Forall (fun p => ~ inside p) es
  end.

Lemma holder_scan es : Forall in_range es -> forall i, held i es (scan_list holder None i es).
Proof using.
  induction es as [|p es IH]; intros H i; cbn [scan_list]; [constructor|]. apply Forall_cons_iff in H as [(R1 & R2 & R3) H].
  unfold holder at 1. rewrite u64_id by (clear Hb0 Hs Hb; lia). destruct ((base p <=? b) && _) eqn:Ei; b2p.
  - exists [], p, es. split; [done|]. split; [done|]. change (zlen []) with 0. split; [clear Hb0 Hs Hb; lia|done].
  - specialize (IH H (i + 1)). destruct (scan_list holder None (i + 1) es) as [[[j x] y]|]; cbn [held] in *.
    + destruct IH as (pre & q & post & -> & Hq & -> & IH). exists (p :: pre), q, post. rewrite zlen_cons.
      split; [done|]. split; [done|]. split; [clear Hb0 Hs Hb; lia|done].
    + constructor; [|done]. intros [I1 I2]. clear Hb0 Hs Hb. destruct Ei as [Ei|Ei]; b2p; lia.
Qed.

Lemma sorted_shrink lo pre p q post :
  sorted lo (pre ++ p :: post) -> base p <= base q -> 0 < size q -> base q + size q <= base p + size p ->
  sorted lo (pre ++ q :: post).
Proof using.
  intros H H1 H2 H3. revert lo H. induction pre as [|x pre IH]; intros lo H; cbn [app sorted] in *.
  - destruct H as (H4 & H5 & H6 & H7). split; [lia|]. split; [done|]. split; [lia|]. eapply sorted_lo; [exact H7|lia].
  - destruct H as (H4 & H5 & H6 & H7). split; [done|]. split; [done|]. split; [done|]. by apply IH.
Qed.

(** Cutting out of one range what lies in it cuts it out of the table. *)
Lemma covered_cut lo pre p mid post a (P : Prop) :
  sorted lo (pre ++ p :: post) -> (P -> base p <= a < base p + size p) ->
  (covered mid a <-> (base p <= a < base p + size p) /\ ~ P) ->
  (covered (pre ++ mid ++ post) a <-> covered (pre ++ p :: post) a /\ ~ P).
Proof using.
  intros Hso HP Hmid. destruct (sorted_parts _ _ _ _ Hso) as (Hpre & Hsz & _ & _ & Hpost).
  rewrite !covered_app, covered_cons, Hmid. assert (covered pre a -> ~ P) as N1.
  { unfold covered. rewrite list.Exists_exists. intros (q & Hq & ?) HPa. rewrite list.Forall_forall in Hpre.
    specialize (Hpre q Hq). specialize (HP HPa). cbn in *. lia. }
  assert (covered post a -> ~ P) as N2.
  { unfold covered. rewrite list.Exists_exists. intros (q & Hq & ?) HPa. rewrite list.Forall_forall in Hpost.
    specialize (Hpost q Hq). specialize (HP HPa). cbn in *. lia. }
  tauto.
Qed.

(** The outcomes of a removal: not found, the tail of a split range lost because the
    table is full, or exactly the range gone. *)
Definition removed (es tl : list lmb_property) (v : Z) (es' tl' : list lmb_property) : Prop :=
  zlen es' + zlen tl' = MAX_LMB_REGIONS + 1 /\ zlen es' <= MAX_LMB_REGIONS /\ sorted 0 es' /\
  ((v = -1 /\ es' = es /\ tl' = tl /\ Forall (fun p => ~ inside p) es) \/
   (v = -1 /\ zlen es = MAX_LMB_REGIONS /\ exists p, p ∈ es /\ base p < b /\ b + s < base p + size p /\
      forall a, covered es' a <-> covered es a /\ ~ (b <= a < base p + size p)) \/
   (0 <= v /\ Exists inside es /\ forall a, covered es' a <-> covered es a /\ ~ (b <= a < b + s))).
Lemma remove_split t pre p post tl :
  let es := pre ++ p :: post in
  sorted 0 es -> base p < b -> b + s < base p + size p ->
  zlen es <= MAX_LMB_REGIONS -> zlen es + zlen tl = MAX_LMB_REGIONS + 1 ->
  exists v es' tl', lmb_add_region (b + s) (base p + size p - (b + s))
      (Region (zlen es) t ((pre ++ Range (base p) (b - base p) :: post) ++ tl)) = Some (v, Region (zlen es') t (es' ++ tl')) /\
    removed es tl v es' tl'.
Proof using Hb0 Hs Hb.
  intros es Hso H1 H2 Hc Hlen. destruct (sorted_parts _ _ _ _ Hso) as (Hpre & Hsz & Hend & Hlo & Hpost). unfold es in *. clear es.
  assert (inside p) as Hin by (split; lia). set (q := Range (base p) (b - base p)).
  assert (sorted 0 (pre ++ q :: post)) as Hso' by (eapply sorted_shrink; [exact Hso|cbn; lia..]).
  rewrite (zlen_middle pre p q) in *.
  destruct (add_found (b + s) (base p + size p - (b + s)) ltac:(lia) ltac:(lia) ltac:(lia) t (pre ++ q :: post) tl)
    as (v & es' & tl' & E & Hl' & Hc' & Hso'' & Hor); try done.
  { by destruct pre. }
  { apply Forall_app. split; [|constructor].
    - eapply List.Forall_impl; [|exact Hpre]. intros x Hx. left. left. cbn in Hx. lia.
    - left. left. cbn. lia.
    - eapply List.Forall_impl; [|exact Hpost]. intros x Hx. left. right. cbn in Hx. lia. }
  exists v, es', tl'. split; [exact E|]. split; [done|]. split; [lia|]. split; [done|]. right.
  destruct Hor as [(-> & -> & -> & Hfull)|[Hv Hcov]].
  - left. split; [done|]. split; [by rewrite (zlen_middle pre p q)|]. exists p.
    split; [apply elem_of_app; right; apply elem_of_cons; by left|]. split; [done|]. split; [done|]. intros a.
    eapply (covered_cut 0 pre p [q] post); [exact Hso|lia|]. rewrite covered_one. cbn [base size q]. lia.
  - right. split; [done|]. split; [apply list.Exists_app; right; by constructor|]. intros a. rewrite Hcov.
    rewrite <- (covered_cut 0 pre p [q; Range (b + s) (base p + size p - (b + s))] post a (b <= a < b + s)); [|exact Hso|lia|].
    + apply iff_sym, (covered_mid pre [q] [q; Range (b + s) (base p + size p - (b + s))] post). rewrite covered_one, covered_two.
      cbn [base size q]. lia.
    + rewrite covered_two. cbn [base size q]. lia.
Qed.

Lemma remove_found t es tl :
  sorted 0 es -> zlen es <= MAX_LMB_REGIONS -> zlen es + zlen tl = MAX_LMB_REGIONS + 1 ->
  exists v es' tl', remove_range b s (Region (zlen es) t (es ++ tl)) = Some (v, Region (zlen es') t (es' ++ tl')) /\
    removed es tl v es' tl'.
Proof using Hb0 Hs Hb.
  intros Hso Hc Hlen. unfold remove_range. rewrite u64_id by lia.
  pose proof (scan_table holder None (holder_round b (b + s)) (Region (zlen es) t (es ++ tl)) ltac:(is_scan holder_round holder)) as E1.
  cbn [cnt region] in E1. rewrite ents_eq, zlen_app in E1. pose proof (zlen_nonneg es). pose proof (zlen_nonneg tl). run (E1 ltac:(lia) ltac:(lia)).
  pose proof (holder_scan es ltac:(eapply List.Forall_impl; [|apply (sorted_Forall 0), Hso]; intros p ?; unfold in_range; cbn in *; lia) 0) as Ho.
  destruct (scan_list holder None 0 es) as [[[i x] y]|]; cbn [held] in Ho.
  2: { exists (-1), es, tl. split; [done|]. split; [done|]. split; [done|]. split; [done|]. by left. }
  destruct Ho as (pre & p & post & -> & [I1 I2] & -> & -> & ->). rewrite Z.add_0_l.
  destruct (sorted_parts _ _ _ _ Hso) as (_ & Hsz & Hend & Hlo & _).
  assert (Exists inside (pre ++ p :: post)) as Hex by (apply list.Exists_app; right; by constructor).
  assert (forall q, pre ++ q :: post ++ tl = (pre ++ q :: post) ++ tl) as Ha by (intros; by rewrite <- app_assoc).
  pose proof (getr_eq (zlen (pre ++ p :: post)) t pre p (post ++ tl) _ eq_refl) as E2. rewrite Ha in E2.
  pose proof (fun q => setr_eq (zlen (pre ++ p :: post)) t pre p (post ++ tl) _ q eq_refl) as E3. setoid_rewrite Ha in E3.
  assert (forall q, base p <= base q -> 0 < size q -> base q + size q <= base p + size p ->
    (forall a, base q <= a < base q + size q <-> base p <= a < base p + size p /\ ~ b <= a < b + s) ->
    exists v es' tl', Some (0, Region (zlen (pre ++ p :: post)) t ((pre ++ q :: post) ++ tl)) = Some (v, Region (zlen es') t (es' ++ tl')) /\
      removed (pre ++ p :: post) tl v es' tl') as Hshrink.
  { intros q Q1 Q2 Q3 Q4. exists 0, (pre ++ q :: post), tl. split; [by rewrite (zlen_middle pre p q)|].
    split; [by rewrite (zlen_middle pre q p)|]. split; [by rewrite (zlen_middle pre q p)|].
    split; [by eapply sorted_shrink|]. right. right. split; [lia|]. split; [done|]. intros a.
    apply (covered_cut 0 pre p [q] post); [done|lia|]. by rewrite covered_one. }
  destruct ((base p =? b) && (base p + size p =? b + s)) eqn:Eall; b2p.
  { destruct (remove_spec t pre p post tl Hc) as [x E4]. rewrite <- Ha. run E4. exists 0, (pre ++ post), (x :: tl). split; [done|].
    rewrite zlen_app, zlen_cons in *. split; [rewrite zlen_app, zlen_cons; lia|]. split; [rewrite zlen_app; lia|].
    split; [by eapply sorted_drop|]. right. right. split; [lia|]. split; [done|]. intros a.
    apply (covered_cut 0 pre p [] post); [done|lia|]. rewrite covered_nil. lia. }
  run E2. destruct (base p =? b) eqn:Ef; b2p; [|destruct (base p + size p =? b + s) eqn:Ee; b2p].
  - run (E3 (Range (b + s) (u64 (size p - s)))). rewrite u64_id by lia. apply Hshrink; cbn [base size]; try lia.
  - run (E3 (Range (base p) (u64 (size p - s)))). rewrite u64_id by lia. apply Hshrink; cbn [base size]; lia.
  - run (E3 (Range (base p) (u64 (b - base p)))). rewrite !u64_id by lia. apply remove_split; try done; lia.
Qed.
End Remove.

(** ** Alignment *)
Section Align.
Context (k : Z) (Hk : 0 <= k < 64).

Lemma align_mask x : 0 <= x < 2 ^ 64 -> Z.land x (not64 (u64 (2 ^ k - 1))) = x - x mod 2 ^ k.
Proof using Hk.
  intros Hx. assert (0 < 2 ^ k) by (apply Z.pow_pos_nonneg; lia). assert (2 ^ k <= 2 ^ 63) by (apply Z.pow_le_mono_r; lia).
  rewrite u64_id by (pow2; lia). by apply land_mask.
Qed.

Lemma align_down_spec x : 0 <= x < 2 ^ 64 ->
  let y := lmb_align_down x (2 ^ k) in 0 <= y <= x /\ (2 ^ k | y) /\ forall z, (2 ^ k | z) -> z <= x -> z <= y.
Proof using Hk.
  intros Hx. cbv zeta. unfold lmb_align_down. rewrite align_mask by done.
  assert (0 < 2 ^ k) by (apply Z.pow_pos_nonneg; lia). pose proof (Z.mod_pos_bound x (2 ^ k)). pose proof (Z.mod_le x (2 ^ k)).
  pose proof (Z.div_mod x (2 ^ k)) as Hd. split; [lia|]. split.
  - exists (x / 2 ^ k). lia.
  - intros z [q ->] Hq. assert (q <= x / 2 ^ k) by (apply Z.div_le_lower_bound; lia). nia.
Qed.
Lemma align_up_spec x : 0 <= x -> x + (2 ^ k - 1) < 2 ^ 64 ->
  let y := lmb_align_up x (2 ^ k) in x <= y < x + 2 ^ k /\ (2 ^ k | y).
Proof using Hk.
  intros Hx Ho. cbv zeta. unfold lmb_align_up. assert (0 < 2 ^ k) by (apply Z.pow_pos_nonneg; lia).
  assert (u64 (2 ^ k - 1) = 2 ^ k - 1) as Hu by (apply u64_id; lia).
  assert (u64 (x + u64 (2 ^ k - 1)) = x + (2 ^ k - 1)) as -> by (rewrite Hu; apply u64_id; lia). rewrite align_mask by lia.
  pose proof (Z.mod_pos_bound (x + (2 ^ k - 1)) (2 ^ k)). pose proof (Z.div_mod (x + (2 ^ k - 1)) (2 ^ k)).
  split; [lia|]. exists ((x + (2 ^ k - 1)) / 2 ^ k). lia.
Qed.
End Align.

(** ** Searching the reserved ranges *)
(** The two ranges share an address. *)
Definition overlaps (b s : Z) (p : lmb_property) : Prop := b < base p + size p /\ base p < b + s.

Lemma overlap_spec b s p : 0 <= b -> 0 <= s -> b + s < 2 ^ 64 -> in_range p ->
  lmb_addrs_overlap b s (base p) (size p) = true <-> overlaps b s p.
Proof. intros ? ? ? (? & ? & ?). unfold lmb_addrs_overlap. rewrite !u64_id by lia. rewrite andb_true_iff, !Z.ltb_lt. done. Qed.

Definition overlapping (b s i : Z) (p : lmb_property) : option Z :=
  if lmb_addrs_overlap b s (base p) (size p) then Some i else None.
Definition first_overlap (b s : Z) (i : Z) (es : list lmb_property) (j : Z) : Prop :=
  (j = -1 /\ Forall (fun p => ~ overlaps b s p) es) \/
  (exists pre p post, es = pre ++ p :: post /\ overlaps b s p /\ j = i + zlen pre).

Lemma overlap_scan b s es : 0 <= b -> 0 <= s -> b + s < 2 ^ 64 -> Forall in_range es ->
  forall i, first_overlap b s i es (scan_list (overlapping b s) (-1) i es).
Proof.
  intros Hb Hs He. induction es as [|p es IH]; intros H i; cbn [scan_list]; [by left|]. apply Forall_cons_iff in H as [R H].
  pose proof (overlap_spec b s p Hb Hs He R) as Ho. unfold overlapping at 1.
  destruct (lmb_addrs_overlap b s (base p) (size p)) eqn:Ei.
  - right. exists [], p, es. change (zlen []) with 0. rewrite <- Ho. split; [done|]. split; [done|lia].
  - destruct (IH H (i + 1)) as [[-> Hno]|(pre & q & post & -> & Hq & ->)]; [left|right].
    + split; [done|]. constructor; [|done]. intros Hp. by apply Ho in Hp.
    + exists (p :: pre), q, post. rewrite zlen_cons. split; [done|]. split; [done|lia].
Qed.

Lemma wf_in_range r : wf r -> Forall in_range (ents r).
Proof.
  intros (_ & _ & [Hso| ->]).
  - eapply List.Forall_impl; [|apply (sorted_Forall 0), Hso]. intros p ?. unfold in_range. cbn in *. lia.
  - constructor; [by compute|constructor].
Qed.

Lemma overlaps_region_spec b s r : 0 <= b -> 0 <= s -> b + s < 2 ^ 64 -> wf r ->
  exists j, lmb_overlaps_region b s r = Some (j, r) /\ first_overlap b s 0 (ents r) j.
Proof.
  intros Hb Hs He Hwf. eexists. split; [|apply (overlap_scan b s (ents r)); try done; by apply wf_in_range].
  destruct Hwf as (Hc & Hl & _). apply scan_table; [is_scan overlaps_round overlapping|lia|lia].
Qed.

(** ** Allocation *)
Section Alloc.
Context (k s : Z) (Hk : 0 <= k < 64) (Hs : 0 < s).

(** The address is aligned, not null, and the range of [s] bytes there is not reserved. *)
Definition free_at (r : lmb_region) (x : Z) : Prop := 0 < x /\ (2 ^ k | x) /\ Forall (fun p => ~ overlaps x s p) (ents r).

(** The reserved ranges that begin below [x]: every round of the search leaves one behind. *)
Fixpoint below (x : Z) (es : list lmb_property) : nat :=
  match es with [] => 0 | p :: es => (if decide (base p < x) then 1 else 0) + below x es end.
Lemma below_app x es es' : below x (es ++ es') = (below x es + below x es')%nat.
Proof using. induction es; cbn; lia. Qed.
Lemma below_mono x y es : x <= y -> (below x es <= below y es)%nat.
Proof using. intros H. induction es; cbn; repeat case_decide; lia. Qed.
Lemma below_length x es : (below x es <= length es)%nat.
Proof using. induction es; cbn; repeat case_decide; lia. Qed.

Definition alloc_result (r : lmb_region) (lo b : Z) (o : option Z) (r' : lmb_region) : Prop :=
  match o with
  | None => r' = r /\ forall x, lo <= x <= b -> ~ free_at r x
  | Some v => exists x w, free_at r x /\ lo <= x <= b /\ (forall y, x < y <= b -> ~ free_at r y) /\
      lmb_add_region x s r = Some (w, r') /\ v = if w <? 0 then 0 else x
  end.

(** Everything between the candidate after the reserved range [p] and [b] overlaps [p]. *)
Lemma alloc_skip r p b y x :
  p ∈ ents r -> overlaps b s p -> y < x <= b -> (forall z, (2 ^ k | z) -> z <= base p - s -> z <= y) -> ~ free_at r x.
Proof using Hk Hs.
  intros Hin [O1 O2] Hx Hy (F1 & F2 & F3). rewrite list.Forall_forall in F3. apply (F3 p Hin). split; [lia|].
  destruct (decide (x <= base p - s)) as [Hle|]; [|lia]. specialize (Hy x F2 Hle). lia.
Qed.

Lemma free_apart r x : free_at r x -> addable x s r.
Proof using.
  intros (F1 & F2 & F3). eapply List.Forall_impl; [|exact F3]. intros p Hp. left. unfold apart, overlaps in *.
  destruct (decide (base p + size p <= x)); [by left|]. right. destruct (decide (x + s <= base p)); [done|].
  exfalso. apply Hp. clear -n n0. lia.
Qed.

Lemma getr_middle r pre p post : wf r -> ents r = pre ++ p :: post -> getr (zlen pre) r = Some (p, r).
Proof using.
  intros (Hc & Hl & _) He. destruct (table_parts r ltac:(clear Hk Hs; lia)) as (tl & Hr & _). rewrite Hr, He, <- app_assoc. by apply getr_eq.
Qed.

Lemma alloc_loop r lo : wf r -> 0 <= lo -> forall f b,
  (2 ^ k | b) -> 0 <= b -> b + s < 2 ^ 64 -> (below (b + s) (ents r) < f)%nat ->
  exists o r', while f (alloc_round (2 ^ k) s lo) b r = Some (o, r') /\ alloc_result r lo b o r'.
Proof using Hk Hs.
  intros Hwf Hlo. induction f as [|f IH]; intros b Hal Hb He Hf; [lia|]. rewrite while_S. unfold alloc_round at 1.
  destruct (negb (b =? 0) && (lo <=? b)) eqn:Eg; b2p.
  2: { eexists None, r. split; [reflexivity|]. split; [done|]. intros x Hx (F1 & _). destruct Eg as [Eg|Eg]; b2p; lia. }
  destruct (overlaps_region_spec b s r Hb ltac:(lia) He Hwf) as (j & E1 & Hj). rewrite !bind_assoc. rewrite (bind_Some _ _ _ _ _ E1).
  destruct Hj as [[-> Hfree]|(pre & p & post & Hes & Hov & ->)].
  - cbn [Z.ltb Z.compare]. assert (free_at r b) as Hfr by (split; [lia|done]).
    destruct (add_spec b s r Hb Hs He Hwf (free_apart _ _ Hfr)) as (w & r' & E2 & _). rewrite !bind_assoc. rewrite (bind_Some _ _ _ _ _ E2).
    eexists (Some _), r'. split; [reflexivity|]. exists b, w. split; [done|]. split; [lia|]. split; [lia|done].
  - rewrite Z.add_0_l. rewrite ltb_f by (apply zlen_nonneg). rewrite !bind_assoc.
    rewrite (bind_Some _ _ _ _ _ (getr_middle _ _ _ _ Hwf Hes)).
    assert (p ∈ ents r) as Hin by (rewrite Hes; apply elem_of_app; right; apply elem_of_cons; by left).
    destruct (base p <? s) eqn:Ebs; b2p.
    { eexists None, r. split; [reflexivity|]. split; [done|]. intros x Hx.
      apply (alloc_skip r p b (-1)); [done|done|lia|]. intros z _ Hz. lia. }
    pose proof (wf_in_range _ Hwf) as Hr. rewrite list.Forall_forall in Hr. destruct (Hr p Hin) as (R1 & R2 & R3).
    run_ret. rewrite u64_id by lia.
    destruct (align_down_spec k Hk (base p - s)) as (A1 & A2 & A3); [lia|]. set (b' := lmb_align_down (base p - s) (2 ^ k)) in *.
    destruct Hov as [O1 O2]. destruct (IH b') as (o & r' & E3 & Ho); [done|lia|lia| |].
    { rewrite Hes in *. rewrite below_app in *. cbn [below] in *. rewrite decide_True in Hf by lia. rewrite decide_False by lia.
      pose proof (below_mono (b' + s) (b + s) pre). pose proof (below_mono (b' + s) (b + s) post). lia. }
    exists o, r'. split; [exact E3|].
    assert (forall x, b' < x <= b -> ~ free_at r x) as Hskip by (intros x Hx; by eapply (alloc_skip r p b b')).
    destruct o as [v|]; cbn [alloc_result] in *.
    + destruct Ho as (x & w & H1 & H2 & H3 & H4). exists x, w. split; [done|]. split; [lia|]. split; [|done].
      intros y Hy. destruct (decide (y <= b')); [apply H3; lia|apply Hskip; lia].
    + destruct Ho as [-> H1]. split; [done|]. intros x Hx. destruct (decide (x <= b')); [apply H1; lia|apply Hskip; lia].
Qed.

(** *** The memory ranges *)
Context (m : Z) (Hm : m = 0 \/ s <= m < 2 ^ 64).

(** The [s] bytes at [x] lie in the memory range and below the limit. *)
Definition fits_in (p : lmb_property) (x : Z) : Prop := base p <= x /\ x + s <= base p + size p /\ (m = 0 \/ x + s <= m).
Definition fits (st : lmb) (x : Z) : Prop := free_at (reserved st) x /\ Exists (fun p => fits_in p x) (ents (memory st)).

Lemma start_spec p : in_range p -> s <= size p ->
  match alloc_start (2 ^ k) s m p with
  | Some b => (2 ^ k | b) /\ 0 <= b /\ b + s <= base p + size p /\ (m = 0 \/ b + s <= m) /\
      forall x, (2 ^ k | x) -> fits_in p x -> x <= b
  | None => forall x, ~ fits_in p x
  end.
Proof using Hk Hs Hm.
  intros (R1 & R2 & R3) Hsz. unfold alloc_start, fits_in, LMB_ALLOC_ANYWHERE. rewrite (u64_id (base p + size p)) by lia.
  destruct (m =? 0) eqn:Em; b2p; [|destruct (base p <? m) eqn:Eb; b2p; [|lia]].
  - rewrite u64_id by lia. destruct (align_down_spec k Hk (base p + size p - s)) as (A1 & A2 & A3); [lia|].
    split; [done|]. split; [lia|]. split; [lia|]. split; [by left|]. intros x Hx (_ & ? & _). apply A3; [done|lia].
  - rewrite u64_id by lia. destruct (align_down_spec k Hk (Z.min (base p + size p) m - s)) as (A1 & A2 & A3); [lia|].
    split; [done|]. split; [lia|]. split; [lia|]. split; [lia|]. intros x Hx (_ & ? & ?). apply A3; [done|lia].
Qed.

Lemma wf_before r pre p post : wf r -> ents r = pre ++ p :: post -> Forall (fun q => base q + size q < base p) pre.
Proof using.
  intros (_ & _ & [Hso|Hd]) He.
  - rewrite He in Hso. destruct (sorted_parts _ _ _ _ Hso) as (Hpre & _). eapply List.Forall_impl; [|exact Hpre]. intros q [Hq _]. exact Hq.
  - rewrite Hd in He. destruct pre as [|q pre]; [constructor|]. by destruct pre.
Qed.

(** The outcome of the search: nothing fits, or the highest fitting address is added
    to the reserved ranges. *)
Definition alloc_done (st : lmb) (v : Z) (st' : lmb) : Prop :=
  (v = 0 /\ st' = st /\ forall x, ~ fits st x) \/
  (exists x w r', fits st x /\ (forall y, fits st y -> y <= x) /\ lmb_add_region x s (reserved st) = Some (w, r') /\
     st' = Lmb (rmo_size st) (memory st) r' /\ v = if w <? 0 then 0 else x).

Lemma on_memory_eq {A} (g : RG A) st a : g (memory st) = Some (a, memory st) -> on_memory g st = Some (a, st).
Proof using. intros E. unfold on_memory. rewrite E. by destruct st. Qed.
Lemma on_reserved_eq {A} (g : RG A) st a r' :
  g (reserved st) = Some (a, r') -> on_reserved g st = Some (a, Lmb (rmo_size st) (memory st) r').
Proof using. intros E. unfold on_reserved. by rewrite E. Qed.

Lemma memory_loop st : wf (memory st) -> wf (reserved st) -> forall pre post f,
  ents (memory st) = pre ++ post -> (forall p x, p ∈ post -> fits_in p x -> ~ free_at (reserved st) x) -> (length pre < f)%nat ->
  exists v st', while f (memory_round (2 ^ k) s m) (zlen pre - 1) st = Some (v, st') /\ alloc_done st v st'.
Proof using Hk Hs Hm.
  intros Hwm Hwr. induction pre as [|p pre IH] using rev_ind; intros post f He Hpost Hf;
    (destruct f as [|f]; [rewrite ?length_app in Hf; cbn in Hf; lia|]); rewrite while_S; unfold memory_round at 1.
  { change (0 <=? zlen [] - 1) with false. eexists 0, st. split; [reflexivity|]. left. split; [done|]. split; [done|].
    intros x [F1 F2]. cbn [app] in He. rewrite He in F2. apply list.Exists_exists in F2 as (q & Hq & F2). by eapply Hpost. }
  rewrite zlen_app. change (zlen [p]) with 1. replace (zlen pre + 1 - 1) with (zlen pre) by lia.
  rewrite (proj2 (Z.leb_le 0 (zlen pre))) by (apply zlen_nonneg). rewrite <- app_assoc in He. cbn [app] in He.
  rewrite length_app in Hf. cbn [length] in Hf.
  pose proof (on_memory_eq _ _ _ (getr_middle _ _ _ _ Hwm He)) as E1. rewrite !bind_assoc. rewrite (bind_Some _ _ _ _ _ E1).
  assert (in_range p) as Hp. { pose proof (wf_in_range _ Hwm) as Hr. rewrite He in Hr. by apply Forall_app in Hr as [_ [Hr _]%Forall_cons_iff]. }
  assert ((forall x, fits_in p x -> ~ free_at (reserved st) x) ->
    exists v st', while f (memory_round (2 ^ k) s m) (zlen pre - 1) st = Some (v, st') /\ alloc_done st v st') as Hnext.
  { intros Hno. apply (IH (p :: post) f); [done| |lia]. intros q x [->|Hq]%elem_of_cons; [by apply Hno|by apply Hpost]. }
  destruct (size p <? s) eqn:Esz; b2p. { run_ret. apply Hnext. intros x (? & ? & _). lia. }
  pose proof (start_spec p Hp Esz) as Hst. destruct (alloc_start (2 ^ k) s m p) as [b|]; [|run_ret; apply Hnext; intros x Hx; by apply Hst in Hx].
  destruct Hst as (S1 & S2 & S3 & S4 & S5). destruct Hp as (R1 & R2 & R3).
  destruct (alloc_loop (reserved st) (base p) Hwr R1 131 b S1 S2 ltac:(lia)) as (o & r' & E2 & Ho).
  { pose proof (below_length (b + s) (ents (reserved st))). destruct Hwr as (Hc & Hl & _).
    destruct (table_parts (reserved st) ltac:(lia)) as (tl & _ & Hz & _). unfold MAX_LMB_REGIONS, zlen in *. lia. }
  unfold alloc_below, each. rewrite !bind_assoc. rewrite (bind_Some _ _ _ _ _ (on_reserved_eq _ _ _ _ E2)).
  destruct o as [v|]; cbn [alloc_result] in Ho; run_ret.
  - destruct Ho as (x & w & H1 & H2 & H3 & H4 & H5). eexists v, _. split; [reflexivity|]. right. exists x, w, r'.
    assert (fits_in p x) as Hfx by (unfold fits_in; lia).
    split. { split; [done|]. rewrite He. apply list.Exists_app. right. by constructor. }
    split; [|done]. intros y [Y1 Y2]. rewrite He in Y2. apply list.Exists_app in Y2 as [Y2|[Y2|Y2]%Exists_cons].
    + apply list.Exists_exists in Y2 as (q & Hq & Y2). pose proof (wf_before _ _ _ _ Hwm He) as Hbef.
      rewrite list.Forall_forall in Hbef. specialize (Hbef q Hq). unfold fits_in in *. cbn in Hbef. lia.
    + destruct (decide (y <= x)); [done|]. exfalso. apply (H3 y); [|done]. destruct Y1 as (_ & Y1 & _). specialize (S5 y Y1 Y2). lia.
    + apply list.Exists_exists in Y2 as (q & Hq & Y2). by apply (Hpost q y) in Y2.
  - destruct Ho as [-> Ho]. replace (Lmb (rmo_size st) (memory st) (reserved st)) with st by (by destruct st). apply Hnext.
    intros x Hx Hfr. apply (Ho x); [|done]. destruct Hfr as (_ & Hal & _). specialize (S5 x Hal Hx). unfold fits_in in Hx. lia.
Qed.
End Alloc.

(** ** Correctness *)
(** The table grew by the range, or is full and unchanged. *)
Definition grown (b s v : Z) (r r' : lmb_region) : Prop :=
  wf r' /\ total r' = total r /\
  ((v = -1 /\ r' = r /\ cnt r = MAX_LMB_REGIONS) \/
   (0 <= v /\ sorted 0 (ents r') /\ forall a, holds_addr r' a <-> holds_addr r a \/ b <= a < b + s)).

Lemma reserve_spec b s st : 0 <= b -> 0 < s -> b + s < 2 ^ 64 -> wf (reserved st) -> addable b s (reserved st) ->
  exists v st', lmb_reserve b s st = Some (v, st') /\ grown b s v (reserved st) (reserved st') /\
    rmo_size st' = rmo_size st /\ memory st' = memory st.
Proof.
  intros Hb Hs He Hwf Hok. destruct (add_spec b s (reserved st) Hb Hs He Hwf Hok) as (v & r' & E & H).
  exists v, (Lmb (rmo_size st) (memory st) r'). split; [|split; [exact H|done]]. unfold lmb_reserve. rewrite eqb_f by lia. by apply on_reserved_eq.
Qed.
Lemma add_memory_spec b s st : 0 <= b -> 0 < s -> b + s < 2 ^ 64 -> wf (memory st) -> addable b s (memory st) ->
  exists v st', lmb_add b s st = Some (v, st') /\ grown b s v (memory st) (memory st') /\
    rmo_size st' = (if b =? 0 then s else rmo_size st) /\ reserved st' = reserved st.
Proof.
  intros Hb Hs He Hwf Hok. destruct (add_spec b s (memory st) Hb Hs He Hwf Hok) as (v & r' & E & H).
  exists v, (Lmb (if b =? 0 then s else rmo_size st) r' (reserved st)). split; [|split; [exact H|done]].
  unfold lmb_add, bind, on_memory, ret. destruct (b =? 0); cbn [memory rmo_size reserved]; by rewrite E.
Qed.

(** Adding a range to the memory map, or reserving one, keeps the table sorted with
    its ranges merged and covers exactly the range in addition, provided the range lies
    apart from the others or is one of them; when the table is full and the range touches
    no other, the call returns -1 and changes nothing. *)
Theorem lmb_add_correct (b s : Z) (st : lmb) (Hb : 0 <= b) (Hs : 0 < s) (He : b + s < 2 ^ 64) :
  (wf (memory st) -> addable b s (memory st) ->
   exists v st', lmb_add b s st = Some (v, st') /\ grown b s v (memory st) (memory st') /\
     rmo_size st' = (if b =? 0 then s else rmo_size st) /\ reserved st' = reserved st) /\
  (wf (reserved st) -> addable b s (reserved st) ->
   exists v st', lmb_reserve b s st = Some (v, st') /\ grown b s v (reserved st) (reserved st') /\
     rmo_size st' = rmo_size st /\ memory st' = memory st).
Proof. split; intros; [by apply add_memory_spec|by apply reserve_spec]. Qed.

(** The table before and after a removal: the range is not inside one of the ranges and
    nothing changes; the table is full, the range to be split loses its end, and the call
    fails; or exactly the range is gone. *)
Definition shrunk (b s v : Z) (r r' : lmb_region) : Prop :=
  total r' = total r /\ sorted 0 (ents r') /\
  ((v = -1 /\ r' = r /\ Forall (fun p => ~ inside b s p) (ents r)) \/
   (v = -1 /\ cnt r = MAX_LMB_REGIONS /\ exists p, p ∈ ents r /\ base p < b /\ b + s < base p + size p /\
      forall a, holds_addr r' a <-> holds_addr r a /\ ~ (b <= a < base p + size p)) \/
   (0 <= v /\ Exists (inside b s) (ents r) /\ forall a, holds_addr r' a <-> holds_addr r a /\ ~ (b <= a < b + s))).

(** Removing a range from the memory map takes exactly its addresses away, whether it
    is a whole range, an end of one or its middle, and keeps the ranges sorted; it returns
    -1 when no range holds it all.  Only in a full table a removal from the middle of a
    range loses the part above it too, and says so by -1. *)
Theorem lmb_remove_correct (b s : Z) (st : lmb) (Hb : 0 <= b) (Hs : 0 < s) (He : b + s < 2 ^ 64)
    (Hwf : wf (memory st)) (Hso : sorted 0 (ents (memory st))) :
  exists v st', lmb_remove b s st = Some (v, st') /\ shrunk b s v (memory st) (memory st') /\
    rmo_size st' = rmo_size st /\ reserved st' = reserved st.
Proof.
  destruct Hwf as (Hc & Hl & _). destruct (table_parts (memory st) ltac:(lia)) as (tl & Hr & Hz & Hlen).
  destruct (remove_found b s Hb Hs He (total (memory st)) (ents (memory st)) tl Hso ltac:(lia) ltac:(lia)) as (v & es' & tl' & E & _ & _ & Hso' & Hor).
  rewrite <- Hr in E. exists v. eexists. split; [unfold lmb_remove, on_memory; rewrite E; reflexivity|].
  split; [|done]. cbn [memory]. split; [done|]. unfold holds_addr. rewrite ents_eq. split; [done|].
  destruct Hor as [(-> & -> & -> & H)|[(-> & H1 & H2)|H]].
  - left. by rewrite <- Hr.
  - right. left. rewrite <- Hz. done.
  - by right; right.
Qed.

(** The outcome of an allocation of [s] bytes, a multiple of [2 ^ k], below [m]. *)
Definition allocated (k s m v : Z) (st st' : lmb) : Prop :=
  wf (reserved st') /\ memory st' = memory st /\ rmo_size st' = rmo_size st /\
  ((v = 0 /\ st' = st /\ (cnt (reserved st) = MAX_LMB_REGIONS \/ forall x, ~ fits k s m st x)) \/
   (fits k s m st v /\ (forall x, fits k s m st x -> x <= v) /\
    forall a, holds_addr (reserved st') a <-> holds_addr (reserved st) a \/ v <= a < v + s)).

Lemma alloc_spec real_limit size0 k max_addr st :
  0 <= k < 64 -> 0 < size0 -> size0 + (2 ^ k - 1) < 2 ^ 64 -> wf (memory st) -> wf (reserved st) ->
  let s := lmb_align_up size0 (2 ^ k) in
  let m := if max_addr =? 0 then real_limit else max_addr in
  (m = 0 \/ s <= m < 2 ^ 64) ->
  exists v st', __lmb_alloc_base real_limit size0 (2 ^ k) max_addr st = Some (v, st') /\ allocated k s m v st st'.
Proof.
  intros Hk Hs Hov Hwm Hwr s m Hm. destruct (align_up_spec k Hk size0 ltac:(lia) Hov) as [Hup Hdiv].
  unfold __lmb_alloc_base. rewrite eqb_f by lia. cbv zeta. change LMB_ALLOC_ANYWHERE with 0. fold m. fold s in Hup |- *.
  rewrite (bind_Some _ _ _ _ _ (on_memory_eq _ _ _ (get_cnt_eq _))).
  pose proof Hwm as (Hc & Hl & _). destruct (table_parts (memory st) ltac:(lia)) as (tl & Hr & Hz & Hlen).
  rewrite s32_id by (unfold MAX_LMB_REGIONS in *; lia). rewrite <- Hz.
  destruct (memory_loop k s Hk ltac:(lia) m Hm st Hwm Hwr (ents (memory st)) [] 131) as (v & st' & E & Hd).
  { by rewrite app_nil_r. } { intros p x Hp. by apply elem_of_nil in Hp. } { unfold MAX_LMB_REGIONS, zlen in *. lia. }
  exists v, st'. split; [exact E|]. destruct Hd as [(-> & -> & Hno)|(x & w & r' & F1 & F2 & E2 & -> & ->)].
  { split; [done|]. split; [done|]. split; [done|]. left. split; [done|]. split; [done|]. by right. }
  assert (0 < x /\ x + s < 2 ^ 64) as [X1 X2].
  { destruct F1 as [(X1 & _) X2]. split; [done|]. apply list.Exists_exists in X2 as (p & Hp & _ & X2 & _).
    pose proof (wf_in_range _ Hwm) as Hin. rewrite list.Forall_forall in Hin. destruct (Hin p Hp) as (_ & _ & ?). lia. }
  destruct (add_spec x s (reserved st) ltac:(lia) ltac:(lia) X2 Hwr (free_apart _ _ _ _ (proj1 F1))) as (w' & r'' & E3 & W1 & _ & Hor).
  rewrite E2 in E3. injection E3 as <- <-. split; [done|]. split; [done|]. split; [done|]. cbn [reserved].
  destruct Hor as [(-> & -> & Hfull)|(Hw & _ & Hcov)]; [left|right].
  - split; [done|]. split; [by destruct st|]. by left.
  - rewrite ltb_f by lia. done.
Qed.

(** C31. An allocation terminates, and for a power-of-two alignment returns the highest
    address, other than 0, at which the size rounded up to the alignment is aligned, lies
    inside one memory range and below the limit and overlaps no reserved range; the
    range is then reserved and nothing else changes.  It returns 0 with nothing changed
    when there is no such address or when the table of reserved ranges is full.  The
    limit is 0 (anywhere) or at least the size. *)
Theorem lmb_alloc_correct (real_limit size0 k max_addr : Z) (st : lmb) (Hk : 0 <= k < 64) (Hs : 0 < size0)
    (Hov : size0 + (2 ^ k - 1) < 2 ^ 64) (Hwm : wf (memory st)) (Hwr : wf (reserved st)) :
  let s := lmb_align_up size0 (2 ^ k) in
  let m := if max_addr =? 0 then real_limit else max_addr in
  (m = 0 \/ s <= m < 2 ^ 64) ->
  size0 <= s < size0 + 2 ^ k /\ (2 ^ k | s) /\
  exists v st', __lmb_alloc_base real_limit size0 (2 ^ k) max_addr st = Some (v, st') /\ allocated k s m v st st'.
Proof.
  intros s m Hm. destruct (align_up_spec k Hk size0 ltac:(lia) Hov) as [Hup Hdiv]. split; [done|]. split; [done|].
  by apply alloc_spec.
Qed.

(** ** Histories *)
Definition in_prop (p : lmb_property) (a : Z) : Prop := base p <= a < base p + size p.
Definition disjoint_props (p q : lmb_property) : Prop := forall a, ~ (in_prop p a /\ in_prop q a).

(** The states of the map while it is set up and allocated from, with the ranges that
    were allocated.  A range that is added or reserved is disjoint from the entries of
    its table or equal to one of them ([addable]); the code does not check this, and
    [lmb_overlap_forgets] shows what happens otherwise.  The other conditions are that
    no range wraps and that a limit is not below the size. *)
Inductive history (real_limit : Z) : lmb -> list lmb_property -> Prop :=
  | history_init st0 st : zlen (region (memory st0)) = MAX_LMB_REGIONS + 1 -> zlen (region (reserved st0)) = MAX_LMB_REGIONS + 1 ->
      lmb_init st0 = Some (tt, st) -> history real_limit st []
  | history_add st l b s v st' : history real_limit st l -> 0 <= b -> 0 < s -> b + s < 2 ^ 64 -> addable b s (memory st) ->
      lmb_add b s st = Some (v, st') -> history real_limit st' l
  | history_reserve st l b s v st' : history real_limit st l -> 0 <= b -> 0 < s -> b + s < 2 ^ 64 -> addable b s (reserved st) ->
      lmb_reserve b s st = Some (v, st') -> history real_limit st' l
  | history_alloc st l size0 k max_addr v st' : history real_limit st l -> 0 <= k < 64 -> 0 < size0 -> size0 + (2 ^ k - 1) < 2 ^ 64 ->
      (let m := if max_addr =? 0 then real_limit else max_addr in m = 0 \/ lmb_align_up size0 (2 ^ k) <= m < 2 ^ 64) ->
      __lmb_alloc_base real_limit size0 (2 ^ k) max_addr st = Some (v, st') ->
      history real_limit st' (if v =? 0 then l else Range v (lmb_align_up size0 (2 ^ k)) :: l).

(** What holds of every such state. *)
Definition sound (st : lmb) (l : list lmb_property) : Prop :=
  wf (memory st) /\ wf (reserved st) /\ ForallOrdPairs disjoint_props l /\
  Forall (fun p => forall a, in_prop p a -> holds_addr (memory st) a /\ holds_addr (reserved st) a) l.

Lemma grown_mono b s v r r' a : grown b s v r r' -> holds_addr r a -> holds_addr r' a.
Proof. intros (_ & _ & [(_ & -> & _)|(_ & _ & H)]) Ha; [done|]. apply H. by left. Qed.

Lemma sound_mono st st' l :
  sound st l -> wf (memory st') -> wf (reserved st') ->
  (forall a, holds_addr (memory st) a -> holds_addr (memory st') a) ->
  (forall a, holds_addr (reserved st) a -> holds_addr (reserved st') a) -> sound st' l.
Proof.
  intros (_ & _ & H3 & H4) W1 W2 M1 M2. split; [done|]. split; [done|]. split; [done|].
  eapply List.Forall_impl; [|exact H4]. intros p Hp a Ha. destruct (Hp a Ha). auto.
Qed.

Lemma sound_alloc st l k s m v st' : sound st l -> 0 < s -> allocated k s m v st st' -> sound st' (if v =? 0 then l else Range v s :: l).
Proof.
  intros H Hs (W & Hmem & _ & Hor).
  assert (sound st' l) as H'.
  { apply (sound_mono st); try done; [by rewrite Hmem; apply H|by rewrite Hmem|]. intros a Ha.
    destruct Hor as [(_ & -> & _)|(_ & _ & Hcov)]; [done|]. apply Hcov. by left. }
  destruct (v =? 0) eqn:Ev; [done|]. b2p. destruct Hor as [(? & _)|(Hfit & _ & Hcov)]; [done|].
  destruct H' as (H1 & H2 & H3 & H4). split; [done|]. split; [done|]. destruct Hfit as [(_ & _ & Hfree) Hin].
  destruct H as (_ & _ & _ & Hl). split; constructor; try done.
  - eapply List.Forall_impl; [|exact Hl]. intros q Hq a [A1 A2]. destruct (Hq a A2) as [_ Hr].
    apply list.Exists_exists in Hr as (e & He & Hae). rewrite list.Forall_forall in Hfree. apply (Hfree e He).
    unfold in_prop in *. cbn [base size] in *. split; lia.
  - intros a Ha. unfold in_prop in Ha. cbn [base size] in Ha. split; [|apply Hcov; by right]. rewrite Hmem.
    apply list.Exists_exists in Hin as (p & Hp & F1 & F2 & _). apply list.Exists_exists. exists p. split; [done|lia].
Qed.

Lemma init_wf r r' : zlen (region r) = MAX_LMB_REGIONS + 1 -> region r' = <[0%nat := Range 0 0]> (region r) -> cnt r' = 1 -> wf r'.
Proof.
  intros Hl Hr Hc. destruct r as [c t es], r' as [c' t' es']. cbn in *. subst. destruct es as [|e es]; [by compute in Hl|].
  split; [by compute|]. split; [cbn; by rewrite zlen_cons in *|]. right. reflexivity.
Qed.

(** C33. In every state reached by initialising, adding memory, reserving and allocating,
    where each range added or reserved is disjoint from the entries of its table or equal
    to one of them, both tables are well formed, and the allocated ranges are pairwise
    disjoint and lie in the memory and in the reserved ranges. *)
Theorem lmb_history_sound (real_limit : Z) (st : lmb) (l : list lmb_property) (H : history real_limit st l) : sound st l.
Proof.
  induction H as [st0 st L1 L2 E|st l b s v st' H IH Hb Hs He Hok E|st l b s v st' H IH Hb Hs He Hok E
    |st l size0 k max_addr v st' H IH Hk Hs Hov Hm E].
  - unfold lmb_init, bind, on_memory, on_reserved, setr, set_cnt in E. rewrite L1 in E.
    change ((0 <? 0) || (MAX_LMB_REGIONS + 1 <=? 0)) with false in E. cbn [memory reserved rmo_size cnt total region] in E.
    rewrite L2 in E. change ((0 <? 0) || (MAX_LMB_REGIONS + 1 <=? 0)) with false in E. injection E as <-.
    split; [by apply (init_wf (memory st0))|]. split; [by apply (init_wf (reserved st0))|]. split; constructor.
  - destruct (add_memory_spec b s st Hb Hs He (proj1 IH) Hok) as (v' & st'' & E' & G & _ & Hr). rewrite E in E'. injection E' as <- <-.
    apply (sound_mono st); try done; [apply G|by rewrite Hr; apply IH|intros a; by eapply grown_mono|by rewrite Hr].
  - destruct (reserve_spec b s st Hb Hs He (proj1 (proj2 IH)) Hok) as (v' & st'' & E' & G & _ & Hr). rewrite E in E'. injection E' as <- <-.
    apply (sound_mono st); try done; [by rewrite Hr; apply IH|apply G|by rewrite Hr|intros a; by eapply grown_mono].
  - pose proof IH as (W1 & W2 & _). destruct (alloc_spec real_limit size0 k max_addr st Hk Hs Hov W1 W2 Hm) as (v' & st'' & E' & Ha).
    rewrite E in E'. injection E' as <- <-. eapply sound_alloc; [exact IH| |exact Ha].
    destruct (align_up_spec k Hk size0 ltac:(lia) Hov). lia.
Qed.

(** ** Queries *)
Definition reserving (addr i : Z) (p : lmb_property) : option Z :=
  if (base p <=? addr) && (addr <=? u64 (base p + size p - 1)) then Some 1 else None.

Lemma reserving_scan addr es : Forall (fun p => in_range p /\ 0 < size p) es ->
  forall i, scan_list (reserving addr) 0 i es = if decide (covered es addr) then 1 else 0.
Proof.
  induction es as [|p es IH]; intros H i; cbn [scan_list].
  { rewrite decide_False; [done|]. intros []%covered_nil. }
  apply Forall_cons_iff in H as [((R1 & R2 & R3) & R4) H]. unfold reserving at 1. rewrite u64_id by lia.
  destruct ((base p <=? addr) && (addr <=? base p + size p - 1)) eqn:E; b2p.
  - rewrite decide_True; [done|]. rewrite covered_cons. left. lia.
  - rewrite IH by done. apply decide_ext. rewrite covered_cons. split; [auto|]. intros [?|?]; [|done].
    exfalso. destruct E as [E|E]; b2p; lia.
Qed.

Lemma sorted_ranges es : sorted 0 es -> Forall (fun p => in_range p /\ 0 < size p) es.
Proof. intros H. eapply List.Forall_impl; [|apply (sorted_Forall 0), H]. intros p ?. unfold in_range. cbn in *. lia. Qed.

(** Once a range has been reserved, the query for an address answers whether one of
    the reserved ranges holds it; on the freshly initialised table, whose only range is
    empty, it answers 1 for every address. *)
Theorem lmb_is_reserved_correct (addr : Z) (st : lmb) (Ha : 0 <= addr < 2 ^ 64) (Hwf : wf (reserved st)) :
  exists v, lmb_is_reserved addr st = Some (v, st) /\
    (sorted 0 (ents (reserved st)) -> v = if decide (holds_addr (reserved st) addr) then 1 else 0) /\
    (ents (reserved st) = dummy -> v = 1).
Proof.
  exists (scan_list (reserving addr) 0 0 (ents (reserved st))). split; [|split].
  - destruct Hwf as (Hc & Hl & _).
    assert (each (reserved_round addr) 0 (reserved st) = Some (scan_list (reserving addr) 0 0 (ents (reserved st)), reserved st)) as E
      by (apply scan_table; [is_scan reserved_round reserving|lia|lia]).
    unfold lmb_is_reserved. rewrite (on_reserved_eq _ _ _ _ E). by destruct st.
  - intros Hso. apply reserving_scan. by apply sorted_ranges.
  - intros ->. unfold dummy. cbn [scan_list]. unfold reserving. cbn [base size]. change (u64 (0 + 0 - 1)) with (2 ^ 64 - 1).
    rewrite (proj2 (Z.leb_le 0 addr)), (proj2 (Z.leb_le addr (2 ^ 64 - 1))) by lia. done.
Qed.

Section Find.
Context (res : lmb_property) (Hres : 0 <= base res) (Hsz : 0 < size res) (Hend : base res + size res <= 2 ^ 64).

Definition finding (i : Z) (p : lmb_property) : option (Z * lmb_property) :=
  let rend := u64 (base res + size res - 1) in
  let end_ := u64 (base p + size p - 1) in
  if rend <? base p then Some (-1, res) else
  if (base res <=? end_) && (base p <? rend) then
    let rstart := if base res <? base p then base p else base res in
    let rend := if end_ <? rend then end_ else rend in
    Some (0, Range rstart (u64 (rend - rstart + 1)))
  else None.

(** The answer for the ranges [es]: the lowest part of the request that is memory, or
    nothing, when none of its addresses but perhaps the last is. *)
Definition found_part (es : list lmb_property) (v : Z) (res' : lmb_property) : Prop :=
  (v = 0 /\ exists p, p ∈ es /\ (forall a, in_prop res' a <-> in_prop res a /\ in_prop p a) /\ 0 < size res' /\
     forall a, in_prop res a -> a < base res' -> ~ covered es a) \/
  (v = -1 /\ res' = res /\ forall a, in_prop res a -> a < base res + size res - 1 -> ~ covered es a).

Lemma finding_scan es : forall lo i, 0 <= lo -> sorted lo es ->
  let '(v, res') := scan_list finding (-1, res) i es in found_part es v res'.
Proof using Hres Hsz Hend.
  induction es as [|p es IH]; intros lo i Hlo Hso; cbn [scan_list].
  { right. split; [done|]. split; [done|]. intros a _ _ []%covered_nil. }
  destruct Hso as (S1 & S2 & S3 & S4). unfold finding at 1. rewrite (u64_id (base res + size res - 1)), (u64_id (base p + size p - 1)) by lia.
  assert (forall a, a < base p + size p -> ~ covered es a) as Hup.
  { intros a Ha Hc. apply list.Exists_exists in Hc as (q & Hq & Hqa). apply sorted_Forall in S4. rewrite list.Forall_forall in S4.
    specialize (S4 q Hq). cbn in S4. lia. }
  destruct (base res + size res - 1 <? base p) eqn:E1; b2p.
  { right. split; [done|]. split; [done|]. intros a A1 A2 [A3|A3]%covered_cons; [unfold in_prop in *; lia|]. apply (Hup a); [lia|done]. }
  destruct ((base res <=? base p + size p - 1) && (base p <? base res + size res - 1)) eqn:E2; b2p.
  - left. split; [done|]. exists p. split; [apply elem_of_cons; by left|].
    assert (0 <= base p <= 2 ^ 64) by lia.
    set (x := if base res <? base p then base p else base res).
    set (y := if base p + size p - 1 <? base res + size res - 1 then base p + size p - 1 else base res + size res - 1).
    assert (x = Z.max (base res) (base p)) as Hx by (unfold x; destruct (Z.ltb_spec (base res) (base p)); lia).
    assert (y = Z.min (base p + size p) (base res + size res) - 1) as Hy by (unfold y; destruct (Z.ltb_spec (base p + size p - 1) (base res + size res - 1)); lia).
    rewrite u64_id by lia. unfold in_prop. cbn [base size]. split; [lia|]. split; [lia|].
    intros a A1 A2 [A3|A3]%covered_cons; [lia|]. apply (Hup a); [lia|done].
  - specialize (IH (base p + size p + 1) (i + 1) ltac:(lia) S4). destruct (scan_list finding (-1, res) (i + 1) es) as [v res'].
    assert (forall a, in_prop res a -> a < base res + size res - 1 -> ~ base p <= a < base p + size p) as Hno.
    { intros a A1 A2 A3. unfold in_prop in *. destruct E2 as [E2|E2]; b2p; lia. }
    destruct IH as [(-> & q & Hq & Hiff & Hpos & Hlow)|(-> & -> & Hlow)]; [left|right].
    + split; [done|]. exists q. split; [apply elem_of_cons; by right|]. split; [done|]. split; [done|].
      intros a A1 A2 [A3|A3]%covered_cons; [|by apply (Hlow a)]. apply (Hno a); try done.
      destruct (proj1 (Hiff (base res' + size res' - 1))) as [[_ Hlast] _]; [unfold in_prop; lia|]. unfold in_prop in *. lia.
    + split; [done|]. split; [done|]. intros a A1 A2 [A3|A3]%covered_cons; [by apply (Hno a)|by apply (Hlow a)].
Qed.
End Find.

(** The search for memory in a requested range returns the lowest contiguous part of
    the request that is memory, and -1 only when no address of the request is memory,
    the last one excepted. *)
Theorem lmb_find_correct (res : lmb_property) (st : lmb) (Hres : 0 <= base res) (Hsz : 0 < size res)
    (Hend : base res + size res <= 2 ^ 64) (Hwf : wf (memory st)) (Hso : sorted 0 (ents (memory st))) :
  exists v res', lmb_find res st = Some ((v, res'), st) /\ found_part res (ents (memory st)) v res'.
Proof.
  pose proof (finding_scan res Hres Hsz Hend (ents (memory st)) 0 0 ltac:(lia) Hso) as H.
  destruct Hwf as (Hc & Hl & _).
  assert (each (find_round res) 0 (memory st) = Some (scan_list (finding res) (-1, res) 0 (ents (memory st)), memory st)) as E
    by (apply scan_table; [is_scan find_round finding|lia|lia]).
  destruct (scan_list (finding res) (-1, res) 0 (ents (memory st))) as [v res']. exists v, res'. split; [|done].
  unfold lmb_find. by apply on_memory_eq.
Qed.

(** ** Removing the last range *)
Lemma remove_only b s t tl : 0 < b -> 0 < s -> b + s < 2 ^ 64 ->
  remove_range b s (Region 1 t (Range b s :: tl)) = Some (0, Region 0 t (Range b s :: tl)).
Proof.
  intros Hb Hs He. unfold remove_range. rewrite u64_id by lia.
  pose proof (scan_loop (holder b s) None (holder_round b (b + s)) ltac:(is_scan holder_round holder) [Range b s] t 1 tl [] 131 eq_refl ltac:(cbn; lia)) as E.
  cbn [app zlen length Z.of_nat scan_list] in E. unfold holder in E. cbn [base size] in E. rewrite u64_id, Z.leb_refl, Z.leb_refl in E by lia.
  cbn [andb] in E. unfold each. run E. rewrite !Z.eqb_refl. reflexivity.
Qed.

Lemma add_to_none b s b' s' t tl : 0 < b -> 0 < s -> b + s < 2 ^ 64 -> b <= b' ->
  lmb_add_region b' s' (Region 0 t (Range b s :: Range 0 0 :: tl)) = Some (0, Region 1 t (Range b s :: Range 0 0 :: tl)).
Proof.
  intros Hb Hs He Hle. set (r := Region 0 t (Range b s :: Range 0 0 :: tl)).
  assert (merge_next 0 0 r = Some (0, r)) as E1.
  { unfold merge_next. rewrite (bind_Some _ _ _ _ _ (get_cnt_eq _)). change (0 <? u32 (cnt r - 1)) with true. cbn iota.
    unfold lmb_regions_adjacent. run (getr_eq 0 t [] (Range b s) (Range 0 0 :: tl) 0 eq_refl).
    run (getr_eq 0 t [Range b s] (Range 0 0) tl (0 + 1) eq_refl). run_ret. unfold lmb_addrs_adjacent. cbn [base size].
    change (u64 (0 + 0)) with 0. rewrite u64_id by lia. rewrite (eqb_f 0 (b + s)), (eqb_f b 0) by lia. done. }
  assert (add_new b' s' r = Some (0, Region 1 t (Range b s :: Range 0 0 :: tl))) as E2.
  { unfold add_new. rewrite (bind_Some _ _ _ _ _ (get_cnt_eq _)). change (MAX_LMB_REGIONS <=? cnt r) with false. cbn iota.
    assert (insert_sorted b' s' r = Some (tt, r)) as E by reflexivity. run E.
    run (getr_eq 0 t [] (Range b s) (Range 0 0 :: tl) 0 eq_refl). cbn [base]. rewrite ltb_f by lia. reflexivity. }
  assert (find_neighbour b' s' r = Some (inr (0, 0), r)) as E3 by reflexivity.
  unfold lmb_add_region. rewrite (bind_Some _ _ _ _ _ (get_cnt_eq _)). run (getr_eq 0 t [] (Range b s) (Range 0 0 :: tl) 0 eq_refl).
  change (cnt r =? 1) with false. cbn [andb]. run E3. run E1. exact E2.
Qed.

(** Removing the only memory range and then adding a higher one does not give the
    map of the new range: the table, left with no range at all, keeps its stale first entry,
    which the addition counts again, and the new range is lost. *)
Theorem lmb_remove_last_stale (b s b' s' rmo t : Z) (tl : list lmb_property) (res : lmb_region)
    (Hb : 0 < b) (Hs : 0 < s) (He : b + s < 2 ^ 64) (Hle : b + s < b') (Hs' : 0 < s') (He' : b' + s' < 2 ^ 64) :
  let st := Lmb rmo (Region 1 t (Range b s :: Range 0 0 :: tl)) res in
  (let* _ := lmb_remove b s in lmb_add b' s') st = Some (0, st).
Proof.
  cbv zeta. unfold lmb_remove, lmb_add, bind, on_memory. cbn [memory]. rewrite remove_only by done. cbn iota.
  rewrite eqb_f by lia. unfold ret. cbn [memory rmo_size reserved]. rewrite add_to_none by lia. done.
Qed.

(** ** Examples *)
Definition table (es : list lmb_property) : lmb_region := Region (zlen es) 0 (es ++ replicate (129 - length es) (Range 0 0)).
(** Two memory ranges, one of them partly reserved. *)
Definition sample : lmb :=
  Lmb 0 (table [Range 0x1000 0x1000; Range 0x4000 0x4000]) (table [Range 0x7000 0x1000]).

Lemma sample_memory : wf (memory sample) /\ sorted 0 (ents (memory sample)).
Proof.
  assert (sorted 0 (ents (memory sample))) as H.
  { change (ents (memory sample)) with [Range 0x1000 0x1000; Range 0x4000 0x4000]. cbn [sorted base size]. lia. }
  split; [|done]. split; [by compute|]. split; [reflexivity|by left].
Qed.
Lemma sample_reserved : wf (reserved sample) /\ sorted 0 (ents (reserved sample)).
Proof.
  assert (sorted 0 (ents (reserved sample))) as H.
  { change (ents (reserved sample)) with [Range 0x7000 0x1000]. cbn [sorted base size]. lia. }
  split; [|done]. split; [by compute|]. split; [reflexivity|by left].
Qed.

Lemma lmb_add_correct_witness : exists v st', lmb_add 0x2000 0x2000 sample = Some (v, st') /\ grown 0x2000 0x2000 v (memory sample) (memory st') /\
    rmo_size st' = rmo_size sample /\ reserved st' = reserved sample.
Proof.
  apply (lmb_add_correct 0x2000 0x2000 sample ltac:(lia) ltac:(lia) ltac:(lia)); [apply sample_memory|].
  unfold addable. change (ents (memory sample)) with [Range 0x1000 0x1000; Range 0x4000 0x4000].
  repeat (apply Forall_cons_2; [left; unfold apart; cbn [base size]; lia|]). constructor.
Defined.

Lemma lmb_remove_correct_witness : exists v st', lmb_remove 0x5000 0x1000 sample = Some (v, st') /\
    shrunk 0x5000 0x1000 v (memory sample) (memory st') /\ rmo_size st' = rmo_size sample /\ reserved st' = reserved sample.
Proof. apply (lmb_remove_correct 0x5000 0x1000 sample); [lia|lia|lia|apply sample_memory..]. Defined.

Lemma lmb_alloc_correct_witness : exists v st', __lmb_alloc_base 0 0x1800 (2 ^ 12) 0 sample = Some (v, st') /\
    allocated 12 0x2000 0 v sample st'.
Proof.
  apply (lmb_alloc_correct 0 0x1800 12 0 sample); [lia|lia|lia|apply sample_memory|apply sample_reserved|by left].
Defined.

(** Memory of 16 kB is added to a fresh map and a range is allocated from it. *)
Definition after {A} (m : LM A) (st : lmb) : lmb := match m st with Some (_, st') => st' | None => st end.
Definition blank : lmb := Lmb 0 (Region 0 0 (replicate 129 (Range 0 0))) (Region 0 0 (replicate 129 (Range 0 0))).
Definition booted : lmb := after lmb_init blank.
Definition populated : lmb := after (lmb_add 0x1000 0x4000) booted.
Definition served : lmb := after (__lmb_alloc_base 0 0x1800 (2 ^ 12) 0) populated.
Lemma served_history : history 0 served [Range 0x3000 0x2000].
Proof.
  eapply (history_alloc 0 populated [] 0x1800 12 0 0x3000); [|lia|lia|lia|by left|vm_compute; reflexivity].
  eapply (history_add 0 booted [] 0x1000 0x4000 0); [|lia|lia|lia| |vm_compute; reflexivity].
  - apply (history_init 0 blank); reflexivity.
  - unfold addable. change (ents (memory booted)) with dummy. apply Forall_cons_2; [left; left; cbn [base size]; lia|constructor].
Qed.
Lemma lmb_history_sound_witness : sound served [Range 0x3000 0x2000].
Proof. apply (lmb_history_sound 0). apply served_history. Defined.

(** Ranges that overlap an entry in part are entered beside it.  The second reservation
    leaves a table whose ranges overlap, the third one the ranges out of order, and the
    fourth one is written over the first entry, so that a page reserved at first is not
    reserved any more. *)
Definition reserve_all (l : list lmb_property) : LM unit :=
  fold_right (fun p m => let* _ := lmb_reserve (base p) (size p) in m) (ret tt) l.
Theorem lmb_overlap_forgets : exists st1 st2 st4,
  reserve_all [Range 0x8000 0x16000] booted = Some (tt, st1) /\ lmb_is_reserved 0x1a000 st1 = Some (1, st1) /\
  lmb_reserve 0xa000 0xa000 st1 = Some (0, st2) /\ ~ wf (reserved st2) /\
  reserve_all [Range 0x5000 0x5000; Range 0x6000 0x1000] st2 = Some (tt, st4) /\ lmb_is_reserved 0x1a000 st4 = Some (0, st4).
Proof.
  eexists _, _, _. split; [vm_compute; reflexivity|]. split; [vm_compute; reflexivity|]. split; [vm_compute; reflexivity|]. split.
  - intros (_ & _ & [H|H]); [|discriminate H]. destruct H as (_ & _ & _ & H & _). vm_compute in H. by apply H.
  - split; [vm_compute; reflexivity|]. vm_compute. reflexivity.
Qed.

Lemma lmb_is_reserved_correct_witness : lmb_is_reserved 0x7fff sample = Some (1, sample).
Proof.
  destruct (lmb_is_reserved_correct 0x7fff sample ltac:(lia) (proj1 sample_reserved)) as (v & E & H & _). rewrite E.
  rewrite (H (proj2 sample_reserved)). reflexivity.
Defined.

Lemma lmb_find_correct_witness : exists v res', lmb_find (Range 0x1800 0x4000) sample = Some ((v, res'), sample) /\
    found_part (Range 0x1800 0x4000) (ents (memory sample)) v res'.
Proof. apply (lmb_find_correct (Range 0x1800 0x4000) sample); [cbn; lia..|apply sample_memory|apply sample_memory]. Defined.

Lemma lmb_remove_last_stale_witness : 0x1000 + 0x1000 < 0x8000 /\
  let st := Lmb 0 (Region 1 0 (Range 0x1000 0x1000 :: Range 0 0 :: replicate 127 (Range 0 0))) (Region 0 0 []) in
  (let* _ := lmb_remove 0x1000 0x1000 in lmb_add 0x8000 0x1000) st = Some (0, st).
Proof. split; [lia|]. apply (lmb_remove_last_stale 0x1000 0x1000 0x8000 0x1000 0 0); lia. Defined.

(** The memory found for a request stops at the end of the range, and the allocation is
    the highest free one: below the reserved page of the upper range. *)
Example lmb_find_example : lmb_find (Range 0x1800 0x4000) sample = Some ((0, Range 0x1800 0x800), sample).
Proof. vm_compute. reflexivity. Qed.
Example lmb_alloc_example : option_map fst (__lmb_alloc_base 0 0x1800 0x1000 0 sample) = Some 0x5000.
Proof. vm_compute. reflexivity. Qed.
(** A limit below the size makes the subtraction wrap: the address returned is not memory. *)
Example lmb_alloc_wraps :
  option_map fst (__lmb_alloc_base 0 0x4000 0x1000 0x2000 (Lmb 0 (table [Range 0x1000 0x10000]) (reserved sample))) = Some (2 ^ 64 - 0x2000).
Proof. vm_compute. reflexivity. Qed.
