(* ===== verification/Rwsem.v ===== *)
(** * Read-write semaphores

    [lib/rwsem-spinlock.c]: the generic reader-writer semaphore.  The sections
    under [wait_lock] are operations on the semaphore; a step relation
    interleaves them with the loops in which tasks wait to be given the lock and
    with the two actions that give it, the clearing of [waiter->task] and the
    wake-up.  In every reachable state a writer excludes all others and
    [activity] is exact, and no task that waits is forgotten: the steps of the
    tasks inside come to an end, and only when every waiter has had the lock. *)

From Stdlib Require Import ZArith Lia.
From stdpp Require Import base tactics numbers list gmap option relations.
From S2P Require Import Prelude.

(** ** The semaphore *)
Definition RWSEM_WAITING_FOR_READ : Z := 1.
Definition RWSEM_WAITING_FOR_WRITE : Z := 2.
Record rwsem_waiter := Waiter { task : Z; flags : Z }.
Record rw_semaphore := Sem { activity : Z; wait_list : list rwsem_waiter }.

Abbreviation SM := (ST rw_semaphore).
Definition __init_rwsem : SM unit := fun _ => Some (tt, Sem 0 []).

Definition list_empty (l : list rwsem_waiter) : bool := match l with [] => true | _ => false end.
Definition flagged (w : rwsem_waiter) (f : Z) : bool := negb (Z.land (flags w) f =? 0).

(** The loop over the readers at the front of the queue: the tasks to wake and
    the waiters that are left. *)
Fixpoint wake_readers (l : list rwsem_waiter) : list Z * list rwsem_waiter :=
  match l with
  | [] => ([], [])
  | waiter :: next =>
      if flagged waiter RWSEM_WAITING_FOR_READ then
        let '(woken, rest) := wake_readers next in (task waiter :: woken, rest)
      else ([], l)
  end.

(** The functions that wake give the woken tasks in order; [waiter->task] is
    cleared and the task woken for each (the steps [step_clear] and [step_wake]
    below). *)
Definition __rwsem_do_wake (wakewrite : bool) : SM (list Z) := fun sem =>
  match wait_list sem with
  | [] => None
  | waiter :: next =>
      if flagged waiter RWSEM_WAITING_FOR_WRITE then
        if wakewrite then Some ([task waiter], Sem (-1) next) else Some ([], sem)
      else
        let '(woken, rest) := wake_readers (wait_list sem) in
        Some (woken, Sem (s32 (activity sem + zlen woken)) rest)
  end.
Definition __rwsem_wake_one_writer : SM (list Z) := fun sem =>
  match wait_list sem with
  | [] => None
  | waiter :: next => Some ([task waiter], Sem (-1) next)
  end.

(** The part of the down functions under the lock: [true] when the lock is
    granted, else the task is queued and goes on to wait. *)
Definition __down_read (tsk : Z) : SM bool := fun sem =>
  if (0 <=? activity sem) && list_empty (wait_list sem) then
    Some (true, Sem (s32 (activity sem + 1)) (wait_list sem))
  else Some (false, Sem (activity sem) (wait_list sem ++ [Waiter tsk RWSEM_WAITING_FOR_READ])).
Definition __down_write_nested (tsk : Z) : SM bool := fun sem =>
  if (activity sem =? 0) && list_empty (wait_list sem) then
    Some (true, Sem (-1) (wait_list sem))
  else Some (false, Sem (activity sem) (wait_list sem ++ [Waiter tsk RWSEM_WAITING_FOR_WRITE])).
Definition __down_write : Z -> SM bool := __down_write_nested.

Definition __down_read_trylock : SM bool := fun sem =>
  if (0 <=? activity sem) && list_empty (wait_list sem) then
    Some (true, Sem (s32 (activity sem + 1)) (wait_list sem))
  else Some (false, sem).
Definition __down_write_trylock : SM bool := fun sem =>
  if (activity sem =? 0) && list_empty (wait_list sem) then
    Some (true, Sem (-1) (wait_list sem))
  else Some (false, sem).

Definition __up_read : SM (list Z) := fun sem =>
  let sem := Sem (s32 (activity sem - 1)) (wait_list sem) in
  if (activity sem =? 0) && negb (list_empty (wait_list sem)) then __rwsem_wake_one_writer sem else Some ([], sem).
Definition __up_write : SM (list Z) := fun sem =>
  let sem := Sem 0 (wait_list sem) in
  if negb (list_empty (wait_list sem)) then __rwsem_do_wake true sem else Some ([], sem).
Definition __downgrade_write : SM (list Z) := fun sem =>
  let sem := Sem 1 (wait_list sem) in
  if negb (list_empty (wait_list sem)) then __rwsem_do_wake false sem else Some ([], sem).

(** ** Tasks that use the semaphore *)
Inductive kind := Read | Write.
#[global] Instance kind_eq_dec : EqDecision kind.
Proof. solve_decision. Defined.
Definition flag (k : kind) : Z := match k with Read => RWSEM_WAITING_FOR_READ | Write => RWSEM_WAITING_FOR_WRITE end.
Definition down (k : kind) : Z -> SM bool := match k with Read => __down_read | Write => __down_write end.
Definition down_trylock (k : kind) : SM bool := match k with Read => __down_read_trylock | Write => __down_write_trylock end.
Definition up (k : kind) : SM (list Z) := match k with Read => __up_read | Write => __up_write end.

(** Where a task is: outside, at the test of [waiter.task] in the loop, at
    [schedule], at [set_task_state] after it, or holding the lock. *)
Inductive place := Out | Check (k : kind) | Sched (k : kind) | SetState (k : kind) | Hold (k : kind).
#[global] Instance place_eq_dec : EqDecision place.
Proof. solve_decision. Defined.
(** [running] is its scheduler state, [TASK_RUNNING] or [TASK_UNINTERRUPTIBLE],
    and [cleared] tells that its [waiter.task] is [NULL]. *)
Record tstate := Task { pc : place; running : bool; cleared : bool }.
(** What the holder of [wait_lock] still has to do for the tasks it wakes. *)
Inductive micro := ClearTask (t : Z) | WakeUp (t : Z).
Record config := Config { sem : rw_semaphore; todo : list micro; ts : Z -> tstate }.

Definition set_task (t : Z) (s : tstate) (ts : Z -> tstate) : Z -> tstate := fun u => if decide (u = t) then s else ts u.
Definition wake_all (woken : list Z) : list micro := woken ≫= fun t => [ClearTask t; WakeUp t].

(** A step of the code by a task that is inside: it waits, gives the lock up or
    downgrades it, or does the rest of a wake-up. *)
Inductive serve : config -> config -> Prop :=
  | step_check k t s m ts : pc (ts t) = Check k ->
      serve (Config s m ts)
        (Config s m (set_task t (if cleared (ts t) then Task (Hold k) true true else Task (Sched k) (running (ts t)) false) ts))
  | step_schedule k t s m ts : pc (ts t) = Sched k -> running (ts t) = true ->
      serve (Config s m ts) (Config s m (set_task t (Task (SetState k) true (cleared (ts t))) ts))
  | step_set_state k t s m ts : pc (ts t) = SetState k ->
      serve (Config s m ts) (Config s m (set_task t (Task (Check k) false (cleared (ts t))) ts))
  | step_up k t s s' woken ts : pc (ts t) = Hold k -> up k s = Some (woken, s') ->
      serve (Config s [] ts) (Config s' (wake_all woken) (set_task t (Task Out (running (ts t)) (cleared (ts t))) ts))
  | step_downgrade t s s' woken ts : pc (ts t) = Hold Write -> __downgrade_write s = Some (woken, s') ->
      serve (Config s [] ts) (Config s' (wake_all woken) (set_task t (Task (Hold Read) (running (ts t)) (cleared (ts t))) ts))
  | step_clear t s m ts :
      serve (Config s (ClearTask t :: m) ts) (Config s m (set_task t (Task (pc (ts t)) (running (ts t)) true) ts))
  | step_wake t s m ts :
      serve (Config s (WakeUp t :: m) ts) (Config s m (set_task t (Task (pc (ts t)) true (cleared (ts t))) ts)).

(** All the steps of a system with the tasks [T]: also the arrivals and, at any
    time, a wake-up from somewhere else. The sections under [wait_lock] run while
    no wake-up is under way. *)
Inductive step (T : list Z) : config -> config -> Prop :=
  | step_serve c c' : serve c c' -> step T c c'
  | step_down k t s s' r ts : t ∈ T -> pc (ts t) = Out -> down k t s = Some (r, s') ->
      step T (Config s [] ts)
        (Config s' [] (set_task t (if r then Task (Hold k) (running (ts t)) (cleared (ts t)) else Task (Check k) false false) ts))
  | step_trylock k t s s' r ts : t ∈ T -> pc (ts t) = Out -> down_trylock k s = Some (r, s') ->
      step T (Config s [] ts)
        (Config s' [] (if r then set_task t (Task (Hold k) (running (ts t)) (cleared (ts t))) ts else ts))
  | step_other_wake t s m ts :
      step T (Config s m ts) (Config s m (set_task t (Task (pc (ts t)) true (cleared (ts t))) ts)).
Definition start : config := Config (Sem 0 []) [] (fun _ => Task Out true false).

(** ** Waking *)
Lemma flagged_read k t : flagged (Waiter t (flag k)) RWSEM_WAITING_FOR_READ = bool_decide (k = Read).
Proof. by destruct k. Qed.
Lemma flagged_write k t : flagged (Waiter t (flag k)) RWSEM_WAITING_FOR_WRITE = bool_decide (k = Write).
Proof. by destruct k. Qed.

(** The woken readers are all that stand before the first writer. *)
Lemma wake_readers_spec l : (forall w, w ∈ l -> exists k, flags w = flag k) ->
  exists pre rest, l = pre ++ rest /\ wake_readers l = (task <$> pre, rest) /\
    Forall (fun w => flags w = flag Read) pre /\ (forall w l', rest = w :: l' -> flags w = flag Write).
Proof.
  induction l as [|w l IH]; intros Hl; [by exists [], []|]. cbn [wake_readers].
  destruct (Hl w) as [k Hk]; [apply elem_of_cons; by left|]. destruct w as [t f]. cbn in Hk. subst f. rewrite flagged_read.
  destruct k; cbn.
  - destruct IH as (pre & rest & -> & -> & Hp & Hr); [intros w' Hw; apply Hl, elem_of_cons; by right|].
    exists (Waiter t (flag Read) :: pre), rest. split; [done|]. split; [done|]. split; [by apply Forall_cons_2|done].
  - exists [], (Waiter t (flag Write) :: l). split; [done|]. split; [done|]. split; [constructor|].
    intros w l' [= <- <-]. done.
Qed.

(** ** The invariant *)
(** The task waits for the lock. *)
Definition wants (k : kind) (p : place) : Prop := p = Check k \/ p = Sched k \/ p = SetState k.
(** The task has the lock, though it may not yet know. *)
Definition owns (c : config) (t : Z) (k : kind) : Prop :=
  pc (ts c t) = Hold k \/ (wants k (pc (ts c t)) /\ (cleared (ts c t) = true \/ ClearTask t ∈ todo c)).
Definition todo_ok (m : list micro) : Prop := exists l, NoDup l /\ (m = wake_all l \/ exists t, m = WakeUp t :: wake_all l).

Record inv (T : list Z) (c : config) (O : list (Z * kind)) : Prop := Inv {
  i_nodup : NoDup (O.*1 ++ (task <$> wait_list (sem c)));
  i_owner t k : (t, k) ∈ O <-> owns c t k;
  i_queue w : w ∈ wait_list (sem c) -> exists k, flags w = flag k /\ wants k (pc (ts c (task w)));
  i_waits t k : wants k (pc (ts c t)) -> (t, k) ∈ O \/ Waiter t (flag k) ∈ wait_list (sem c);
  i_clear t : ClearTask t ∈ todo c -> cleared (ts c t) = false /\ exists k, wants k (pc (ts c t));
  i_todo : todo_ok (todo c);
  i_wake t k : pc (ts c t) = Sched k -> cleared (ts c t) = true -> running (ts c t) = true \/ WakeUp t ∈ todo c;
  i_excl : (exists t, O = [(t, Write)] /\ activity (sem c) = -1) \/
           (Forall (fun p => p.2 = Read) O /\ activity (sem c) = zlen O);
  i_head w l : wait_list (sem c) = w :: l -> 0 < activity (sem c) -> flags w = flag Write;
  i_idle : activity (sem c) = 0 -> wait_list (sem c) = [];
  i_tasks t : pc (ts c t) <> Out -> t ∈ T
}.

Lemma set_task_eq t s ts : set_task t s ts t = s.
Proof. unfold set_task. by rewrite decide_True. Qed.
Lemma set_task_ne t s ts u : u <> t -> set_task t s ts u = ts u.
Proof. intros. unfold set_task. by rewrite decide_False. Qed.

(** A step of a waiting task, or on its behalf, that leaves its claim on the lock. *)
Definition same_claim (c c' : config) (t : Z) : Prop :=
  (forall k, owns c' t k <-> owns c t k) /\ (forall k, wants k (pc (ts c' t)) -> owns c t k \/ wants k (pc (ts c t))) /\
  (forall k, wants k (pc (ts c t)) -> ~ owns c t k -> wants k (pc (ts c' t))).

Lemma inv_quiet T c c' O t :
  inv T c O -> sem c' = sem c -> (forall u, u <> t -> ts c' u = ts c u) ->
  (forall u, u <> t -> ClearTask u ∈ todo c' <-> ClearTask u ∈ todo c) -> (forall u, u <> t -> WakeUp u ∈ todo c -> WakeUp u ∈ todo c') ->
  todo_ok (todo c') -> same_claim c c' t ->
  (ClearTask t ∈ todo c' -> cleared (ts c' t) = false /\ exists k, wants k (pc (ts c' t))) ->
  (forall k, pc (ts c' t) = Sched k -> cleared (ts c' t) = true -> running (ts c' t) = true \/ WakeUp t ∈ todo c') ->
  (pc (ts c' t) <> Out -> pc (ts c t) <> Out) -> inv T c' O.
Proof.
  intros H Hsem Hts Hcl Hwk Htodo (S1 & S2 & S3) Hc Hw Ho.
  assert (forall u k, u <> t -> owns c' u k <-> owns c u k) as Hown.
  { intros u k Hu. unfold owns. rewrite (Hts u Hu), (Hcl u Hu). done. }
  assert (forall u k, (u, k) ∈ O <-> owns c' u k) as Howner.
  { intros u k. rewrite (i_owner _ _ _ H). destruct (decide (u = t)) as [->|Hu]; [by rewrite S1|by rewrite Hown]. }
  split; rewrite ?Hsem; try (by apply H); try done.
  - intros w Hwl. destruct (i_queue _ _ _ H w Hwl) as (k & Hf & Hk). exists k. split; [done|].
    destruct (decide (task w = t)) as [E|Hu]; [|by rewrite Hts]. rewrite E in *. apply S3; [done|].
    rewrite <- (i_owner _ _ _ H). intros Hin. pose proof (i_nodup _ _ _ H) as Hnd. apply list.NoDup_app in Hnd as (_ & Hnd & _).
    apply (Hnd t); [apply list_elem_of_fmap; by exists (t, k)|]. rewrite <- E. by apply list_elem_of_fmap_2.
  - intros u k Hu. destruct (decide (u = t)) as [->|Hne]; [|rewrite Hts in Hu by done; by apply H].
    destruct (S2 k Hu) as [?|?]; [left; by apply (i_owner _ _ _ H)|by apply H].
  - intros u Hu. destruct (decide (u = t)) as [->|Hne]; [by apply Hc|]. rewrite Hts by done. apply (i_clear _ _ _ H). by apply Hcl.
  - intros u k Hu1 Hu2. destruct (decide (u = t)) as [->|Hne]; [by eapply Hw|]. rewrite Hts in * by done.
    destruct (i_wake _ _ _ H u k Hu1 Hu2); [by left|right; by apply Hwk].
  - intros u Hu. apply (i_tasks _ _ _ H). destruct (decide (u = t)) as [->|Hne]; [by apply Ho|by rewrite <- (Hts u Hne)].
Qed.

Lemma in_wake_all t l : ClearTask t ∈ wake_all l <-> t ∈ l.
Proof.
  unfold wake_all. rewrite list_elem_of_bind. split.
  - intros (u & Hu & Hin). rewrite !elem_of_cons, elem_of_nil in Hu. naive_solver.
  - intros Ht. exists t. split; [apply elem_of_cons; by left|done].
Qed.
Lemma todo_clear t m : todo_ok (ClearTask t :: m) -> todo_ok m /\ WakeUp t ∈ m /\ ClearTask t ∉ m.
Proof.
  intros (l & Hnd & [H|(u & H)]); [|done]. destruct l as [|v l]; [done|]. cbn in H. injection H as -> ->.
  apply list.NoDup_cons in Hnd as [Hv Hnd]. split; [exists l; split; [done|right; by exists v]|]. split; [apply elem_of_cons; by left|].
  intros [?|Hin]%elem_of_cons; [done|]. by apply in_wake_all in Hin.
Qed.
Lemma todo_wake t m : todo_ok (WakeUp t :: m) -> todo_ok m.
Proof. intros (l & Hnd & [H|(u & H)]); [by destruct l|]. injection H as -> ->. exists l. auto. Qed.

Lemma wants_inj k k' p : wants k p -> wants k' p -> k = k'.
Proof. unfold wants. intros [->|[->| ->]] [H|[H|H]]; congruence. Qed.
Lemma wants_ne k k' p : wants k p -> p <> Hold k' /\ p <> Out.
Proof. unfold wants. intros [->|[->| ->]]; done. Qed.

Section Quiet.
Context (T : list Z) (O : list (Z * kind)) (s : rw_semaphore) (m : list micro) (ts0 : Z -> tstate) (t : Z).

(** A waiting task goes on waiting. *)
Lemma claim_wait k p r m' : wants k (pc (ts0 t)) -> wants k p -> (ClearTask t ∈ m' <-> ClearTask t ∈ m) ->
  same_claim (Config s m ts0) (Config s m' (set_task t (Task p r (cleared (ts0 t))) ts0)) t.
Proof using.
  intros H1 H2 Hm. unfold same_claim, owns. cbn [ts todo]. rewrite set_task_eq. cbn [pc cleared]. setoid_rewrite Hm.
  split; [|split].
  - intros k'. destruct (wants_ne k k' _ H1) as [N1 _], (wants_ne k k' _ H2) as [N2 _]. split; intros [E|[E1 E2]]; try done; right.
    + rewrite (wants_inj _ _ _ E1 H2). done.
    + rewrite (wants_inj _ _ _ E1 H1). done.
  - intros k' Hk'. right. by rewrite (wants_inj _ _ _ Hk' H2).
  - intros k' Hk' _. by rewrite (wants_inj _ _ _ Hk' H1).
Qed.

Ltac quiet H := apply (inv_quiet T _ _ O t H); cbn [sem todo ts]; try done; try (intros u Hu; by rewrite set_task_ne).

Lemma inv_check k : pc (ts0 t) = Check k -> inv T (Config s m ts0) O ->
  inv T (Config s m (set_task t (if cleared (ts0 t) then Task (Hold k) true true else Task (Sched k) (running (ts0 t)) false) ts0)) O.
Proof using.
  intros Hp H. pose proof (i_clear _ _ _ H t) as Hc. pose proof (i_todo _ _ _ H). cbn [sem todo ts] in *.
  destruct (cleared (ts0 t)) eqn:Ec; quiet H; rewrite ?set_task_eq; cbn [pc cleared running]; rewrite ?Hp; try done.
  - unfold same_claim, owns. cbn [ts todo]. rewrite !set_task_eq, Hp, Ec. cbn [pc cleared]. unfold wants. naive_solver.
  - intros Hin. by destruct (Hc Hin).
  - rewrite <- Ec. apply claim_wait with k; [rewrite Hp|..]; unfold wants; auto.
  - intros Hin. split; [done|]. exists k. unfold wants. auto.
Qed.

Lemma inv_wait k p r : wants k (pc (ts0 t)) -> wants k p -> (forall k', p <> Sched k') -> inv T (Config s m ts0) O ->
  inv T (Config s m (set_task t (Task p r (cleared (ts0 t))) ts0)) O.
Proof using.
  intros H1 H2 Hns H. pose proof (i_clear _ _ _ H t) as Hc. pose proof (i_todo _ _ _ H). cbn [sem todo ts] in *.
  quiet H; rewrite ?set_task_eq; cbn [pc cleared running].
  - by apply claim_wait with k.
  - intros Hin. destruct (Hc Hin). eauto.
  - intros k' E. by destruct (Hns k').
  - intros _. by apply wants_ne with (k' := k) in H1 as [_ ?].
Qed.

Lemma inv_wake m' : (forall u, ClearTask u ∈ m' <-> ClearTask u ∈ m) -> (forall u, u <> t -> WakeUp u ∈ m -> WakeUp u ∈ m') -> todo_ok m' ->
  inv T (Config s m ts0) O -> inv T (Config s m' (set_task t (Task (pc (ts0 t)) true (cleared (ts0 t))) ts0)) O.
Proof using.
  intros M1 M2 M3 H. pose proof (i_clear _ _ _ H t) as Hc. cbn [sem todo ts] in *.
  quiet H; rewrite ?set_task_eq; cbn [pc cleared running]; auto.
  - unfold same_claim, owns. cbn [ts todo]. rewrite !set_task_eq. cbn [pc cleared]. setoid_rewrite M1. naive_solver.
  - rewrite M1. done.
Qed.

Lemma inv_clear : inv T (Config s (ClearTask t :: m) ts0) O -> inv T (Config s m (set_task t (Task (pc (ts0 t)) (running (ts0 t)) true) ts0)) O.
Proof using.
  intros H. destruct (i_clear _ _ _ H t) as [Hc [k Hk]]; [apply elem_of_cons; by left|].
  destruct (todo_clear _ _ (i_todo _ _ _ H)) as (H1 & H2 & H3). cbn [sem todo ts] in *.
  quiet H; rewrite ?set_task_eq; cbn [pc cleared running]; auto.
  - intros u Hu. rewrite elem_of_cons. naive_solver.
  - intros u Hu. rewrite elem_of_cons. naive_solver.
  - unfold same_claim, owns. cbn [ts todo]. rewrite !set_task_eq. cbn [pc cleared]. setoid_rewrite elem_of_cons. naive_solver.
Qed.
End Quiet.

(** ** Acquiring *)
Section Lock.
Context (T : list Z) (HT : zlen T < INT_MAX).

Lemma users_bound c O : inv T c O -> zlen O + zlen (wait_list (sem c)) <= zlen T.
Proof using.
  intros H. assert ((length (O.*1 ++ (task <$> wait_list (sem c))) <= length T)%nat) as Hl.
  { apply submseteq_length, NoDup_submseteq; [apply (i_nodup _ _ _ H)|]. intros t Ht. apply (i_tasks _ _ _ H).
    apply elem_of_app in Ht as [([u k] & -> & Hu)%list_elem_of_fmap|(w & -> & Hw)%list_elem_of_fmap].
    - apply (i_owner _ _ _ H) in Hu as [Hu|[Hu _]]; cbn; [congruence|]. by apply wants_ne with (k' := k) in Hu as [_ ?].
    - apply (i_queue _ _ _ H) in Hw as (k & _ & Hk). by apply wants_ne with (k' := k) in Hk as [_ ?]. }
  rewrite length_app, !length_fmap in Hl. unfold zlen. lia.
Qed.

Lemma out_not_owner c O t k : inv T c O -> pc (ts c t) = Out -> (t, k) ∉ O.
Proof using.
  intros H Hp Hin. apply (i_owner _ _ _ H) in Hin as [E|[E _]]; [congruence|]. by apply wants_ne with (k' := k) in E as [_ ?].
Qed.
Lemma out_not_queued c O t : inv T c O -> pc (ts c t) = Out -> t ∉ (task <$> wait_list (sem c)).
Proof using.
  intros H Hp Hin. apply list_elem_of_fmap in Hin as (w & -> & Hw). apply (i_queue _ _ _ H) in Hw as (k & _ & Hk).
  by apply wants_ne with (k' := k) in Hk as [_ ?].
Qed.
Lemma owner_fst c O t : inv T c O -> t ∈ O.*1 -> exists k, (t, k) ∈ O.
Proof using. intros _ Hin. apply list_elem_of_fmap in Hin as ([u k] & -> & Hu). eauto. Qed.

(** The lock is granted at once: nobody waits. *)
Lemma inv_grant s ts0 O k t a r cl :
  inv T (Config s [] ts0) O -> t ∈ T -> pc (ts0 t) = Out -> wait_list s = [] ->
  (k = Read -> 0 <= activity s /\ a = activity s + 1) -> (k = Write -> activity s = 0 /\ a = -1) ->
  inv T (Config (Sem a []) [] (set_task t (Task (Hold k) r cl) ts0)) ((t, k) :: O).
Proof using.
  intros H Ht Hp Hwl Hr Hw. pose proof (out_not_owner _ _ _ Read H Hp) as N1. pose proof (out_not_owner _ _ _ Write H Hp) as N2.
  destruct H as [I1 I2 I3 I4 I5 I6 I7 I8 I9 I10 I11]. cbn [sem todo ts] in *. rewrite Hwl in *.
  split; cbn [sem todo ts wait_list activity] in *.
  - rewrite fmap_nil, app_nil_r in *. rewrite fmap_cons. apply list.NoDup_cons. split; [|done].
    intros Hin. apply list_elem_of_fmap in Hin as ([u k'] & E & Hu). cbn in E. subst u. by destruct k'.
  - intros u k'. rewrite elem_of_cons, I2. unfold owns. cbn [ts todo]. destruct (decide (u = t)) as [->|Hu].
    + rewrite set_task_eq, Hp. cbn [pc cleared]. unfold wants. naive_solver.
    + rewrite set_task_ne by done. naive_solver.
  - intros w Hin. by apply elem_of_nil in Hin.
  - intros u k' Hu. left. destruct (decide (u = t)) as [->|Hne].
    + rewrite set_task_eq in Hu. by destruct Hu as [?|[?|?]].
    + rewrite set_task_ne in Hu by done. apply elem_of_cons. right. destruct (I4 u k' Hu) as [?|Hin]; [done|by apply elem_of_nil in Hin].
  - intros u Hin. by apply elem_of_nil in Hin.
  - done.
  - intros u k'. destruct (decide (u = t)) as [->|Hne]; [by rewrite set_task_eq|]. rewrite set_task_ne by done. apply I7.
  - assert (activity s >= 0 -> Forall (fun p => p.2 = Read) O /\ activity s = zlen O) as HO by (destruct I8 as [(u & -> & ->)|?]; [lia|done]).
    destruct k; [destruct Hr as [Hr ->]; [done|]; right|destruct Hw as [Hw ->]; [done|]; left].
    + destruct HO as [HO ->]; [lia|]. split; [by apply Forall_cons_2|]. unfold zlen. cbn [length]. lia.
    + destruct HO as [HO E]; [lia|]. exists t. split; [|done]. destruct O; [done|]. unfold zlen in E. cbn in E. lia.
  - done.
  - done.
  - intros u. destruct (decide (u = t)) as [->|Hne]; [done|]. rewrite set_task_ne by done. apply I11.
Qed.

(** The task is queued: somebody has the lock or waits. *)
Lemma inv_enqueue s ts0 O k t :
  inv T (Config s [] ts0) O -> t ∈ T -> pc (ts0 t) = Out ->
  (wait_list s = [] -> activity s <> 0 /\ (k = Read -> activity s < 0)) ->
  inv T (Config (Sem (activity s) (wait_list s ++ [Waiter t (flag k)])) [] (set_task t (Task (Check k) false false) ts0)) O.
Proof using.
  intros H Ht Hp Hbusy. pose proof (out_not_owner _ _ _ Read H Hp) as N1. pose proof (out_not_owner _ _ _ Write H Hp) as N2.
  pose proof (out_not_queued _ _ _ H Hp) as N3.
  destruct H as [I1 I2 I3 I4 I5 I6 I7 I8 I9 I10 I11]. cbn [sem todo ts] in *.
  split; cbn [sem todo ts wait_list activity] in *.
  - rewrite fmap_app, app_assoc. apply list.NoDup_app. split; [done|]. split.
    + intros u Hu Hin. cbn in Hin. apply list_elem_of_singleton in Hin as ->. apply elem_of_app in Hu as [Hu|Hu]; [|done].
      apply list_elem_of_fmap in Hu as ([v k'] & E & Hv). cbn in E. subst v. by destruct k'.
    + cbn. apply NoDup_singleton.
  - intros u k'. rewrite I2. unfold owns. cbn [ts todo]. destruct (decide (u = t)) as [->|Hu].
    + rewrite set_task_eq, Hp. cbn [pc cleared]. rewrite elem_of_nil. unfold wants. naive_solver.
    + by rewrite set_task_ne by done.
  - intros w Hin. apply elem_of_app in Hin as [Hin|Hin].
    + destruct (I3 w Hin) as (k' & Hf & Hk'). exists k'. split; [done|]. rewrite set_task_ne; [done|].
      intros E. apply N3. rewrite <- E. by apply list_elem_of_fmap_2.
    + apply list_elem_of_singleton in Hin as ->. exists k. cbn [task flags]. rewrite set_task_eq. unfold wants. auto.
  - intros u k' Hu. destruct (decide (u = t)) as [->|Hne].
    + rewrite set_task_eq in Hu. right. apply elem_of_app. right. apply list_elem_of_singleton.
      destruct Hu as [Hu|[Hu|Hu]]; cbn in Hu; congruence.
    + rewrite set_task_ne in Hu by done. destruct (I4 u k' Hu); [by left|right; apply elem_of_app; by left].
  - intros u Hin. by apply elem_of_nil in Hin.
  - done.
  - intros u k'. destruct (decide (u = t)) as [->|Hne]; [by rewrite set_task_eq|]. rewrite set_task_ne by done. apply I7.
  - done.
  - intros w l E Hpos. destruct (wait_list s) as [|w' l'] eqn:Ew; cbn in E; injection E as <- <-; [|by eapply I9].
    destruct Hbusy as [_ Hb]; [done|]. destruct k; [|done]. specialize (Hb eq_refl). lia.
  - intros E. specialize (I10 E). destruct Hbusy; done.
  - intros u. destruct (decide (u = t)) as [->|Hne]; [done|]. rewrite set_task_ne by done. apply I11.
Qed.

(** ** Releasing *)
Lemma flag_inj k k' : flag k = flag k' -> k = k'.
Proof using. by destruct k, k'. Qed.

(** The task [t] gives up the lock, or downgrades it, and the waiters [pre] at the
    front of the queue, which all wait for [kw], are given it. *)
Lemma inv_release s ts0 O t k p r cl pre rest kw B a :
  inv T (Config s [] ts0) O -> pc (ts0 t) = Hold k -> wait_list s = pre ++ rest -> Forall (fun w => flags w = flag kw) pre ->
  p = Out \/ p = Hold Read -> NoDup B.*1 -> (forall u k', (u, k') ∈ B <-> (u <> t /\ (u, k') ∈ O) \/ (u = t /\ p = Hold k')) ->
  let O' := B ++ ((fun w => (task w, kw)) <$> pre) in
  (exists t, O' = [(t, Write)] /\ a = -1) \/ (Forall (fun p => p.2 = Read) O' /\ a = zlen O') ->
  (forall w l, rest = w :: l -> 0 < a -> flags w = flag Write) -> (a = 0 -> rest = []) ->
  inv T (Config (Sem a rest) (wake_all (task <$> pre)) (set_task t (Task p r cl) ts0)) O'.
Proof using.
  intros H Hp Hwl Hpre Hpl HndB HB O' Hex Hhd Hid.
  destruct H as [I1 I2 I3 I4 I5 I6 I7 I8 I9 I10 I11]. cbn [sem todo ts] in *. rewrite Hwl in *.
  rewrite fmap_app in I1. pose proof I1 as (_ & D1 & (D2 & D3 & D4)%list.NoDup_app)%list.NoDup_app.
  assert ((t, k) ∈ O) as Ht by (apply I2; by left).
  assert (forall u, u ∈ B.*1 -> u ∈ O.*1) as Hsub.
  { intros u ([v k'] & -> & Hv)%list_elem_of_fmap. apply HB in Hv as [[_ Hv]|[-> _]]; [apply list_elem_of_fmap; by exists (v, k')|].
    apply list_elem_of_fmap. by exists (t, k). }
  assert (forall u, u ∈ (task <$> pre) -> u <> t /\ wants kw (pc (ts0 u)) /\ cleared (ts0 u) = false) as Hpw.
  { intros u Hu. assert (u ∉ O.*1) as Hno by (intros Hin; apply (D1 u Hin); apply elem_of_app; by left).
    apply list_elem_of_fmap in Hu as (w & -> & Hw). split; [intros E; apply Hno; rewrite E; apply list_elem_of_fmap; by exists (t, k)|].
    destruct (I3 w) as (k' & Hf & Hk'); [apply elem_of_app; by left|]. rewrite list.Forall_forall in Hpre. pose proof (Hpre w Hw) as Hf'.
    cbn in Hf'. assert (k' = kw) as -> by (apply flag_inj; congruence). split; [done|].
    destruct (cleared (ts0 (task w))) eqn:Ec; [|done]. exfalso. apply Hno. apply list_elem_of_fmap. exists (task w, kw). split; [done|].
    apply I2. right. auto. }
  assert (forall u k', (u, k') ∈ ((fun w => (task w, kw)) <$> pre) <-> u ∈ (task <$> pre) /\ k' = kw) as Hmap.
  { intros u k'. rewrite !list_elem_of_fmap. naive_solver. }
  split; cbn [sem todo ts wait_list activity]; try done.
  - unfold O'. rewrite fmap_app, <- list_fmap_compose, <- app_assoc. apply list.NoDup_app. split; [done|]. split.
    + intros u Hu. apply D1. by apply Hsub.
    + apply list.NoDup_app. done.
  - intros u k'. unfold O', owns. cbn [ts todo]. rewrite elem_of_app, HB, Hmap, in_wake_all. destruct (decide (u = t)) as [->|Hne].
    + rewrite set_task_eq. cbn [pc cleared]. split.
      * intros [[[? _]|[_ ->]]|[Hin _]]; [done|by left|]. by destruct (Hpw _ Hin).
      * intros [->|[Hw _]]; [left; by right|]. destruct Hpl as [->| ->]; by destruct (wants_ne _ Read _ Hw).
    + rewrite set_task_ne by done. rewrite I2. unfold owns. cbn [ts todo]. rewrite elem_of_nil. split.
      * intros [[[_ [?|[? [?|[]]]]]|[? _]]|[Hin ->]]; [by left|right; auto|done|]. destruct (Hpw _ Hin) as (_ & ? & _). right. auto.
      * intros [?|[Hw [?|Hin]]]; [left; left; auto|left; left; auto|]. right. split; [done|].
        destruct (Hpw _ Hin) as (_ & Hw' & _). by eapply wants_inj.
  - intros w Hw. destruct (I3 w) as (k' & Hf & Hk'); [apply elem_of_app; by right|]. exists k'. split; [done|].
    rewrite set_task_ne; [done|]. intros E. rewrite E, Hp in Hk'. by destruct (wants_ne _ k _ Hk').
  - intros u k' Hu. destruct (decide (u = t)) as [->|Hne].
    { rewrite set_task_eq in Hu. cbn in Hu. destruct Hpl as [->| ->]; by destruct (wants_ne _ Read _ Hu). }
    rewrite set_task_ne in Hu by done. unfold O'. rewrite elem_of_app, HB, Hmap.
    destruct (I4 u k' Hu) as [?|[Hin|Hin]%elem_of_app]; [by auto| |by right].
    left. right. split; [by apply (list_elem_of_fmap_2 task) in Hin|]. rewrite list.Forall_forall in Hpre. apply flag_inj, (Hpre _ Hin).
  - intros u Hu%in_wake_all. destruct (Hpw u Hu) as (Hne & Hw & Hc). rewrite set_task_ne by done. eauto.
  - exists (task <$> pre). auto.
  - intros u k' E1 E2. destruct (decide (u = t)) as [->|Hne].
    + rewrite set_task_eq in E1. cbn in E1. destruct Hpl as [->| ->]; done.
    + rewrite set_task_ne in * by done. destruct (I7 u k' E1 E2) as [?|Hin]; [by left|by apply elem_of_nil in Hin].
  - intros u Hu. destruct (decide (u = t)) as [->|Hne]; [apply I11; by rewrite Hp|]. apply I11. by rewrite set_task_ne in Hu.
Qed.

Lemma inv_down s ts0 O k t : inv T (Config s [] ts0) O -> t ∈ T -> pc (ts0 t) = Out ->
  exists r s' O', down k t s = Some (r, s') /\
    inv T (Config s' [] (set_task t (if r then Task (Hold k) (running (ts0 t)) (cleared (ts0 t)) else Task (Check k) false false) ts0)) O'.
Proof using HT.
  intros H Ht Hp. pose proof (users_bound _ _ H) as Hb. pose proof (zlen_nonneg (wait_list (sem (Config s [] ts0)))).
  pose proof (i_excl _ _ _ H) as Hex. cbn [sem] in Hex.
  assert (-1 <= activity s <= zlen O) as Ha by (pose proof (zlen_nonneg O); destruct Hex as [(u & _ & ->)|[_ ->]]; lia).
  destruct k; cbn [down]; unfold __down_read, __down_write, __down_write_nested.
  - destruct ((0 <=? activity s) && list_empty (wait_list s)) eqn:E.
    + apply andb_true_iff in E as [E1%Z.leb_le E2]. destruct (wait_list s) eqn:Ew; [|done]. eexists true, _, _. split; [reflexivity|].
      eapply inv_grant; [exact H|done|done|done|intros _|done]. split; [done|]. apply s32_id. unfold INT_MAX in HT. lia.
    + eexists false, _, O. split; [reflexivity|]. apply (inv_enqueue s ts0 O Read t H Ht Hp).
      intros Ew. rewrite Ew, andb_true_r in E. apply Z.leb_gt in E. split; [lia|done].
  - destruct ((activity s =? 0) && list_empty (wait_list s)) eqn:E.
    + apply andb_true_iff in E as [E1%Z.eqb_eq E2]. destruct (wait_list s) eqn:Ew; [|done]. eexists true, _, _. split; [reflexivity|].
      by eapply inv_grant; [exact H|done|done|done|done|intros _].
    + eexists false, _, O. split; [reflexivity|]. apply (inv_enqueue s ts0 O Write t H Ht Hp).
      intros Ew. rewrite Ew, andb_true_r in E. apply Z.eqb_neq in E. done.
Qed.

(** A trylock grants the lock exactly when [down] would, and else changes nothing. *)
Lemma trylock_down k t (s : rw_semaphore) : exists (r : bool) (s' s'' : rw_semaphore),
  down_trylock k s = Some (r, if r then s' else s) /\ down k t s = Some (r, if r then s' else s'').
Proof using.
  destruct k; cbn; unfold __down_read_trylock, __down_write_trylock, __down_read, __down_write, __down_write_nested.
  - destruct ((0 <=? activity s) && list_empty (wait_list s)); [eexists true, _, s|eexists false, s, _]; split; reflexivity.
  - destruct ((activity s =? 0) && list_empty (wait_list s)); [eexists true, _, s|eexists false, s, _]; split; reflexivity.
Qed.

(** *** The owners when a task releases *)
Lemma write_owner c O t : inv T c O -> pc (ts c t) = Hold Write -> O = [(t, Write)] /\ activity (sem c) = -1.
Proof using.
  intros H Hp. assert ((t, Write) ∈ O) as Hin by (apply (i_owner _ _ _ H); by left).
  destruct (i_excl _ _ _ H) as [(u & -> & ?)|[Hr _]]; [apply list_elem_of_singleton in Hin; by simplify_eq|].
  rewrite list.Forall_forall in Hr. by specialize (Hr _ Hin).
Qed.
Lemma read_owner c O t : inv T c O -> pc (ts c t) = Hold Read ->
  exists O1 O2, O = O1 ++ (t, Read) :: O2 /\ Forall (fun p => p.2 = Read) (O1 ++ O2) /\ activity (sem c) = zlen (O1 ++ O2) + 1 /\
    NoDup (O1 ++ O2).*1 /\ forall u k, (u, k) ∈ O1 ++ O2 <-> u <> t /\ (u, k) ∈ O.
Proof using.
  intros H Hp. assert ((t, Read) ∈ O) as Hin by (apply (i_owner _ _ _ H); by left).
  destruct (i_excl _ _ _ H) as [(u & -> & ?)|[Hr Ha]]; [by apply list_elem_of_singleton in Hin|].
  apply list_elem_of_split in Hin as (O1 & O2 & ->). exists O1, O2. split; [done|].
  pose proof (i_nodup _ _ _ H) as Hnd. apply list.NoDup_app in Hnd as (Hnd & _). rewrite fmap_app, fmap_cons in Hnd. cbn in Hnd.
  apply list.NoDup_app in Hnd as (N1 & N2 & (N3 & N4)%list.NoDup_cons).
  split; [apply Forall_app in Hr as [? [_ ?]%Forall_cons_iff]; by apply Forall_app|]. split; [rewrite Ha, !zlen_app; unfold zlen; cbn; lia|].
  split; [rewrite fmap_app; apply list.NoDup_app; split; [done|]; split; [|done]; intros u Hu Hin; apply (N2 u Hu), elem_of_cons; by right|].
  intros u k. rewrite !elem_of_app, elem_of_cons. split; [|naive_solver]. intros Hu. split; [|naive_solver]. intros ->. destruct Hu as [Hu|Hu].
  - apply (N2 t); [apply list_elem_of_fmap; by exists (t, k)|apply elem_of_cons; by left].
  - apply N3, list_elem_of_fmap. by exists (t, k).
Qed.

(** The front of the queue when the lock falls free or is downgraded. *)
Lemma do_wake_spec wakewrite s : wait_list s <> [] -> (forall w, w ∈ wait_list s -> exists k, flags w = flag k) ->
  0 <= activity s -> activity s + zlen (wait_list s) < INT_MAX ->
  exists pre rest kw a, wait_list s = pre ++ rest /\ __rwsem_do_wake wakewrite s = Some (task <$> pre, Sem a rest) /\
    Forall (fun w => flags w = flag kw) pre /\ (wakewrite = true -> pre <> []) /\
    ((kw = Write /\ wakewrite = true /\ a = -1 /\ exists w, pre = [w]) \/
     (kw = Read /\ a = activity s + zlen pre /\ forall w l, rest = w :: l -> flags w = flag Write)).
Proof using.
  clear T HT. intros Hne Hf Ha Hb. unfold __rwsem_do_wake. destruct (wait_list s) as [|w l] eqn:Ew; [done|].
  destruct (Hf w) as [k Hk]; [apply elem_of_cons; by left|].
  assert (flagged w RWSEM_WAITING_FOR_WRITE = bool_decide (k = Write)) as -> by (destruct w; cbn in Hk; subst; apply flagged_write).
  destruct k; cbn [bool_decide].
  - destruct (wake_readers_spec (w :: l) Hf) as (pre & rest & E & -> & Hp & Hr). exists pre, rest, Read, (activity s + zlen pre).
    assert (zlen pre <= zlen (w :: l)) by (rewrite E, zlen_app; pose proof (zlen_nonneg rest); lia). pose proof (zlen_nonneg pre).
    split; [done|]. split; [|split; [done|split; [|right; done]]].
    + do 3 f_equal. unfold zlen. rewrite length_fmap. apply s32_id. unfold zlen, INT_MAX in *. lia.
    + intros _ ->. cbn in E. subst rest. specialize (Hr w l eq_refl). rewrite Hk in Hr. done.
  - destruct wakewrite.
    + exists [w], l, Write, (-1). split; [done|]. split; [done|]. split; [by apply Forall_cons_2|]. split; [done|]. left. eauto.
    + exists [], (w :: l), Read, (activity s). destruct s as [act wl]. cbn in *. subst wl. split; [done|]. split; [done|]. split; [constructor|].
      split; [done|]. right. split; [done|]. split; [unfold zlen; cbn; lia|]. by intros w' l' [= <- <-].
Qed.

Lemma queue_flags c O : inv T c O -> forall w, w ∈ wait_list (sem c) -> exists k, flags w = flag k.
Proof using. intros H w Hw. destruct (i_queue _ _ _ H w Hw) as (k & ? & _). eauto. Qed.

Lemma all_read (pre : list rwsem_waiter) : Forall (fun p : Z * kind => p.2 = Read) ((fun w => (task w, Read)) <$> pre).
Proof using. apply list.Forall_forall. intros [u k] (w & E & _)%list_elem_of_fmap. cbn. congruence. Qed.

Definition released (s : rw_semaphore) (ts0 : Z -> tstate) (t : Z) (p : place) (m : SM (list Z)) : Prop :=
  exists pre s' O', m s = Some (task <$> pre, s') /\ wait_list s = pre ++ wait_list s' /\
    inv T (Config s' (wake_all (task <$> pre)) (set_task t (Task p (running (ts0 t)) (cleared (ts0 t))) ts0)) O'.

Lemma inv_up_write s ts0 O t : inv T (Config s [] ts0) O -> pc (ts0 t) = Hold Write -> released s ts0 t Out __up_write.
Proof using HT.
  intros H Hp. destruct (write_owner _ _ _ H Hp) as [-> Ha]. pose proof (users_bound _ _ H) as Hb. cbn [sem] in *.
  change (zlen [(t, Write)]) with 1 in Hb.
  assert (forall u k', (u, k') ∈ [] <-> (u <> t /\ (u, k') ∈ [(t, Write)]) \/ (u = t /\ Out = Hold k')) as HB.
  { intros u k'. rewrite elem_of_nil, list_elem_of_singleton. naive_solver. }
  unfold released, __up_write. destruct (decide (wait_list s = [])) as [Ew|Ew].
  { rewrite Ew. eexists [], _, _. split; [reflexivity|]. split; [done|].
    eapply (inv_release s ts0 _ t Write Out _ _ [] [] Read [] 0 H Hp Ew); try done; [by left|constructor|].
    right. split; [constructor|done]. }
  cbn [wait_list]. destruct (list_empty (wait_list s)) eqn:El; [by destruct (wait_list s)|]. cbn [negb].
  destruct (do_wake_spec true (Sem 0 (wait_list s)) Ew (queue_flags _ _ H)) as (pre & rest & kw & a & E1 & E2 & Hf & Hne & Hor); [done|cbn in *; lia|].
  cbn [wait_list activity] in *. exists pre, (Sem a rest). eexists. split; [exact E2|]. split; [done|].
  apply (inv_release s ts0 _ t Write Out _ _ pre rest kw [] a H Hp E1 Hf); try done; [by left|constructor| | |].
  - destruct Hor as [(-> & _ & -> & w & ->)|(-> & -> & _)]; [left; by exists (task w)|right]. split; [apply all_read|].
    cbn [app]. unfold zlen. rewrite length_fmap. done.
  - destruct Hor as [(_ & _ & -> & _)|(_ & _ & Hh)]; [lia|]. eauto.
  - intros ->. destruct Hor as [(_ & _ & ? & _)|(_ & E & _)]; [done|]. exfalso. apply Hne; [done|]. destruct pre; [done|]. unfold zlen in E. cbn in E.
    lia.
Qed.

Lemma inv_up_read s ts0 O t : inv T (Config s [] ts0) O -> pc (ts0 t) = Hold Read -> released s ts0 t Out __up_read.
Proof using HT.
  intros H Hp. destruct (read_owner _ _ _ H Hp) as (O1 & O2 & E & Hr & Ha & Hnd & HB'). pose proof (users_bound _ _ H) as Hb. cbn [sem] in *.
  assert (forall u k', (u, k') ∈ O1 ++ O2 <-> (u <> t /\ (u, k') ∈ O) \/ (u = t /\ Out = Hold k')) as HB.
  { intros u k'. rewrite HB'. naive_solver. }
  assert (zlen O = zlen (O1 ++ O2) + 1) as Hlen by (rewrite E, !zlen_app; unfold zlen; cbn; lia).
  pose proof (zlen_nonneg (O1 ++ O2)). pose proof (zlen_nonneg (wait_list s)).
  unfold released, __up_read. cbn [activity wait_list]. rewrite s32_id by (unfold INT_MAX in *; lia).
  replace (activity s - 1) with (zlen (O1 ++ O2)) by lia.
  destruct ((zlen (O1 ++ O2) =? 0) && negb (list_empty (wait_list s))) eqn:Ec.
  - apply andb_true_iff in Ec as [Ez%Z.eqb_eq El]. destruct (wait_list s) as [|w l] eqn:Ew; [done|].
    assert (O1 ++ O2 = []) as En by (destruct (O1 ++ O2); [done|unfold zlen in Ez; cbn in Ez; lia]). rewrite En in *.
    assert (flags w = flag Write) as Hw by (eapply (i_head _ _ _ H); [exact Ew|cbn; lia]).
    eexists [w], _, _. split; [reflexivity|]. split; [done|].
    eapply (inv_release s ts0 O t Read Out _ _ [w] l Write [] (-1) H Hp Ew); try done; [by apply Forall_cons_2|by left|].
    left. by exists (task w).
  - eexists [], _, _. split; [reflexivity|]. split; [done|].
    eapply (inv_release s ts0 O t Read Out _ _ [] (wait_list s) Read (O1 ++ O2) _ H Hp); try done; [by left| | |].
    + right. cbn [fmap list_fmap]. rewrite app_nil_r. done.
    + intros w l Ew _. eapply (i_head _ _ _ H); [exact Ew|cbn; lia].
    + intros Ez. rewrite Ez in Ec. destruct (wait_list s); [done|]. done.
Qed.

Lemma inv_downgrade s ts0 O t : inv T (Config s [] ts0) O -> pc (ts0 t) = Hold Write -> released s ts0 t (Hold Read) __downgrade_write.
Proof using HT.
  intros H Hp. destruct (write_owner _ _ _ H Hp) as [-> Ha]. pose proof (users_bound _ _ H) as Hb. cbn [sem] in *.
  change (zlen [(t, Write)]) with 1 in Hb.
  assert (forall u k', (u, k') ∈ [(t, Read)] <-> (u <> t /\ (u, k') ∈ [(t, Write)]) \/ (u = t /\ Hold Read = Hold k')) as HB.
  { intros u k'. rewrite !list_elem_of_singleton. naive_solver. }
  unfold released, __downgrade_write. destruct (decide (wait_list s = [])) as [Ew|Ew].
  { rewrite Ew. eexists [], _, _. split; [reflexivity|]. split; [done|].
    eapply (inv_release s ts0 _ t Write (Hold Read) _ _ [] [] Read [(t, Read)] 1 H Hp Ew); try done; [by right|apply NoDup_singleton|].
    right. split; [by apply Forall_cons_2|done]. }
  cbn [wait_list]. destruct (list_empty (wait_list s)) eqn:El; [by destruct (wait_list s)|]. cbn [negb].
  destruct (do_wake_spec false (Sem 1 (wait_list s)) Ew (queue_flags _ _ H)) as (pre & rest & kw & a & E1 & E2 & Hf & _ & Hor); [done|cbn in *; lia|].
  destruct Hor as [(_ & ? & _)|(-> & -> & Hh)]; [done|].
  cbn [wait_list activity] in *. exists pre, (Sem (1 + zlen pre) rest). eexists. split; [exact E2|]. split; [done|].
  pose proof (zlen_nonneg pre).
  apply (inv_release s ts0 _ t Write (Hold Read) _ _ pre rest Read [(t, Read)] _ H Hp E1 Hf); try done; [by right|apply NoDup_singleton| | |lia].
  - right. split; [apply Forall_cons_2; [done|apply all_read]|]. unfold zlen. cbn [app length]. rewrite length_fmap. lia.
  - eauto.
Qed.

(** ** Every reachable state *)
Lemma up_released s ts0 O t k : inv T (Config s [] ts0) O -> pc (ts0 t) = Hold k -> released s ts0 t Out (up k).
Proof using HT. intros H Hp. destruct k; [by eapply inv_up_read|by eapply inv_up_write]. Qed.
Lemma serve_inv c c' O : inv T c O -> serve c c' -> exists O', inv T c' O'.
Proof using HT.
  intros H Hst. destruct Hst as [k t s m ts0 Hp|k t s m ts0 Hp Hr|k t s m ts0 Hp
    |k t s s' woken ts0 Hp Hu|t s s' woken ts0 Hp Hu|t s m ts0|t s m ts0].
  - exists O. by apply inv_check.
  - exists O. apply (inv_wait T O s m ts0 t k); unfold wants; auto.
  - exists O. apply (inv_wait T O s m ts0 t k); unfold wants; auto.
  - destruct (up_released s ts0 O t k H Hp) as (pre & s'' & O' & E & _ & H'). rewrite Hu in E. injection E as -> ->. eauto.
  - destruct (inv_downgrade s ts0 O t H Hp) as (pre & s'' & O' & E & _ & H'). rewrite Hu in E. injection E as -> ->. eauto.
  - exists O. by apply inv_clear.
  - exists O. eapply inv_wake; [| |by eapply todo_wake, (i_todo _ _ _ H)|exact H].
    + intros u. rewrite elem_of_cons. naive_solver.
    + intros u Hu [?|?]%elem_of_cons; [congruence|done].
Qed.
Lemma step_inv c c' O : inv T c O -> step T c c' -> exists O', inv T c' O'.
Proof using HT.
  intros H Hst. destruct Hst as [c c' Hs|k t s s' r ts0 Ht Hp Hd|k t s s' r ts0 Ht Hp Hd|t s m ts0]; [by eapply serve_inv| | |].
  - destruct (inv_down s ts0 O k t H Ht Hp) as (r' & s'' & O' & E & H'). rewrite Hd in E. injection E as <- <-. eauto.
  - destruct (inv_down s ts0 O k t H Ht Hp) as (r' & s'' & O' & E & H').
    destruct (trylock_down k t s) as (r1 & s1 & s2 & E1 & E2). rewrite Hd in E1. injection E1 as -> ->. rewrite E in E2. injection E2 as -> ->.
    destruct r1; eauto.
  - exists O. eapply inv_wake; [done|done|apply (i_todo _ _ _ H)|exact H].
Qed.

Lemma start_inv : inv T start [].
Proof using.
  assert (forall k, ~ wants k Out) as Hw by (unfold wants; naive_solver).
  split; cbn [start sem todo ts pc wait_list activity]; try done.
  - constructor.
  - intros t k. unfold owns. cbn. rewrite elem_of_nil. naive_solver.
  - intros w Hin. by apply elem_of_nil in Hin.
  - intros t k Hk. by apply Hw in Hk.
  - intros t Hin. by apply elem_of_nil in Hin.
  - exists []. split; [constructor|by left].
  - right. split; [constructor|done].
Qed.
Lemma rwsem_reachable_inv c : rtc (step T) start c -> exists O, inv T c O.
Proof using HT.
  intros H. apply rtc_ind_r with (P := fun c => exists O, inv T c O) in H; [done|exists []; apply start_inv|].
  intros y z _ Hyz [O HO]. by eapply step_inv.
Qed.

(** ** Progress *)
(** The steps a task inside can still make, and those that the wake-ups under way
    and the wake-ups of the queued tasks will add. *)
Definition rank (s : tstate) : nat :=
  match pc s with
  | Out => 0
  | Hold Read => 1
  | Hold Write => 2
  | Sched _ => if running s then 6 else 3
  | Check _ => if running s then 7 else 4
  | SetState _ => 5
  end.
Definition load (m : list micro) : nat := sum_list_with (fun x => match x with ClearTask _ => 1 | WakeUp _ => 4 end)%nat m.
Definition ranks (f : Z -> tstate) : nat := sum_list_with (fun u => rank (f u)) (remove_dups T).
Definition remaining (c : config) : nat := ranks (ts c) + load (todo c) + 5 * length (wait_list (sem c)).

Lemma load_wake_all l : load (wake_all l) = (5 * length l)%nat.
Proof using. induction l as [|t l IH]; [done|]. change (load (wake_all (t :: l))) with (1 + (4 + load (wake_all l)))%nat. cbn [length]. lia. Qed.
Lemma ranks_set_task f t s :
  (ranks (set_task t s f) + (if decide (t ∈ T) then rank (f t) else 0) = ranks f + (if decide (t ∈ T) then rank s else 0))%nat.
Proof using.
  unfold ranks. rewrite <- (decide_ext (t ∈ remove_dups T) (t ∈ T)) by apply elem_of_remove_dups.
  rewrite <- (decide_ext (t ∈ remove_dups T) (t ∈ T)) by apply elem_of_remove_dups.
  pose proof (NoDup_remove_dups T) as Hnd. induction Hnd as [|u l Hu Hnd IH]; [done|]. cbn [sum_list_with].
  destruct (decide (u = t)) as [->|Hne].
  - rewrite set_task_eq, !(decide_True (P := t ∈ t :: l)) by (apply elem_of_cons; by left).
    rewrite !decide_False in IH by done. lia.
  - rewrite set_task_ne by done. rewrite !(decide_ext (t ∈ u :: l) (t ∈ l)) by (rewrite elem_of_cons; naive_solver). lia.
Qed.
Lemma ranks_lt f t s : t ∈ T -> (rank s < rank (f t))%nat -> (ranks (set_task t s f) < ranks f)%nat.
Proof using. intros Ht Hr. pose proof (ranks_set_task f t s) as E. rewrite !decide_True in E by done. lia. Qed.
Lemma ranks_le f t s n : (rank s <= rank (f t) + n)%nat -> (ranks (set_task t s f) <= ranks f + n)%nat.
Proof using. intros Hr. pose proof (ranks_set_task f t s) as E. case_decide; lia. Qed.

Lemma released_remaining s ts0 O t k p m s' woken :
  inv T (Config s [] ts0) O -> pc (ts0 t) = Hold k -> (rank (Task p (running (ts0 t)) (cleared (ts0 t))) < rank (ts0 t))%nat ->
  released s ts0 t p m -> m s = Some (woken, s') ->
  (remaining (Config s' (wake_all woken) (set_task t (Task p (running (ts0 t)) (cleared (ts0 t))) ts0)) < remaining (Config s [] ts0))%nat.
Proof using.
  intros H Hp Hr (pre & s'' & O' & E & Ew & _) Hm. rewrite Hm in E. injection E as -> ->. unfold remaining. cbn [sem todo ts].
  rewrite load_wake_all, Ew, length_fmap, length_app. change (load []) with 0%nat.
  assert (pc (ts0 t) <> Out) as Ho by congruence. pose proof (i_tasks _ _ _ H t Ho). pose proof (ranks_lt ts0 t _ ltac:(done) Hr). lia.
Qed.

(** Every step of the tasks inside uses up some of it. *)
Lemma serve_remaining c c' O : inv T c O -> serve c c' -> (remaining c' < remaining c)%nat.
Proof using HT.
  intros H Hst. destruct Hst as [k t s m ts0 Hp|k t s m ts0 Hp Hr|k t s m ts0 Hp
    |k t s s' woken ts0 Hp Hu|t s s' woken ts0 Hp Hu|t s m ts0|t s m ts0].
  1-3: assert (pc (ts0 t) <> Out) as Ho by congruence; pose proof (i_tasks _ _ _ H t Ho) as Ht; unfold remaining; cbn [sem todo ts];
    apply Nat.add_lt_mono_r, Nat.add_lt_mono_r, ranks_lt; [done|]; unfold rank; rewrite Hp; cbn [pc running]; rewrite ?Hr.
  - destruct (cleared (ts0 t)), k; cbn [pc running]; destruct (running (ts0 t)); lia.
  - lia.
  - lia.
  - eapply released_remaining; [exact H|exact Hp| |by eapply up_released|exact Hu]. unfold rank. rewrite Hp. cbn [pc]. destruct k; lia.
  - eapply released_remaining; [exact H|exact Hp| |by eapply inv_downgrade|exact Hu]. unfold rank. rewrite Hp. cbn [pc]. lia.
  - unfold remaining, load. cbn [sem todo ts sum_list_with].
    pose proof (ranks_le ts0 t (Task (pc (ts0 t)) (running (ts0 t)) true) 0). unfold rank in *. cbn [pc running] in *. lia.
  - unfold remaining, load. cbn [sem todo ts sum_list_with]. pose proof (ranks_le ts0 t (Task (pc (ts0 t)) true (cleared (ts0 t))) 3) as Hle.
    enough (rank (Task (pc (ts0 t)) true (cleared (ts0 t))) <= rank (ts0 t) + 3)%nat by (specialize (Hle ltac:(done)); lia).
    unfold rank. cbn [pc running]. destruct (pc (ts0 t)) as [| | | |[]], (running (ts0 t)); lia.
Qed.
Lemma serve_sn c O : inv T c O -> sn serve c.
Proof using HT.
  remember (remaining c) as n eqn:En. revert c O En. induction n as [n IH] using lt_wf_ind. intros c O -> H.
  constructor. intros c' Hs. unfold flip in Hs. destruct (serve_inv _ _ _ H Hs) as [O' H'].
  eapply IH; [by eapply serve_remaining|done|exact H'].
Qed.

(** A task that waits and has neither been given the lock nor is about to run
    again is asleep in the queue; then somebody else has the lock and can go on. *)
Lemma wants_step s ts0 O t k : inv T (Config s [] ts0) O -> wants k (pc (ts0 t)) -> (t, k) ∈ O -> red serve (Config s [] ts0).
Proof using.
  intros H Hw Hin. apply (i_owner _ _ _ H) in Hin as [Hp|[_ [Hc|Hin]]]; cbn [ts todo] in *; [| |by apply elem_of_nil in Hin].
  { by apply wants_ne with (k' := k) in Hw as [? _]. }
  destruct Hw as [Hp|[Hp|Hp]]; [eexists; by eapply step_check| |eexists; by eapply step_set_state].
  destruct (i_wake _ _ _ H t k Hp Hc) as [Hr|Hin]; [eexists; by eapply step_schedule|by apply elem_of_nil in Hin].
Qed.
Lemma owner_step s ts0 O t k : inv T (Config s [] ts0) O -> (t, k) ∈ O -> red serve (Config s [] ts0).
Proof using HT.
  intros H Hin. pose proof Hin as Hin'. apply (i_owner _ _ _ H) in Hin' as [Hp|[Hw _]]; [|by eapply wants_step].
  destruct (up_released s ts0 O t k H Hp) as (pre & s' & O' & E & _). eexists. by eapply step_up.
Qed.
Lemma serve_red c O t : inv T c O -> pc (ts c t) <> Out -> red serve c.
Proof using HT.
  intros H Hp. destruct c as [s m ts0]. cbn [ts] in Hp. destruct m as [|[u|u] m]; [|eexists; apply step_clear|eexists; apply step_wake].
  destruct O as [|[u k'] O].
  - exfalso. destruct (i_excl _ _ _ H) as [(v & ? & _)|[_ Ha]]; [done|]. pose proof (i_idle _ _ _ H Ha) as Ei. cbn [sem] in Ei.
    assert (exists k, Hold k = pc (ts0 t) \/ wants k (pc (ts0 t))) as (k & [Hk|Hk])
      by (unfold wants; destruct (pc (ts0 t)) as [|k|k|k|k]; [done|exists k; auto..]).
    + by apply (elem_of_nil (t, k)), (i_owner _ _ _ H); left.
    + destruct (i_waits _ _ _ H t k Hk) as [Hin|Hin]; [by apply elem_of_nil in Hin|]. cbn [sem] in Hin. rewrite Ei in Hin. by apply elem_of_nil in Hin.
  - eapply (owner_step _ _ _ u k'); [exact H|]. apply elem_of_cons. by left.
Qed.

(** A task that waits goes on waiting until it has the lock. *)
Lemma serve_wants c c' t k : serve c c' -> wants k (pc (ts c t)) -> wants k (pc (ts c' t)) \/ pc (ts c' t) = Hold k.
Proof using.
  intros Hst Hw. destruct Hst as [k' u s m ts0 Hp|k' u s m ts0 Hp Hr|k' u s m ts0 Hp
    |k' u s s' woken ts0 Hp Hu|u s s' woken ts0 Hp Hu|u s m ts0|u s m ts0]; cbn [ts] in *;
    (destruct (decide (t = u)) as [->|Hne]; [rewrite set_task_eq|rewrite set_task_ne by done; by left]); try (by left);
    rewrite ?Hp in Hw; unfold wants in *; try naive_solver.
  destruct (cleared (ts0 u)); naive_solver.
Qed.
Lemma served c c' t k : rtc serve c c' -> wants k (pc (ts c t)) -> pc (ts c' t) = Out ->
  exists c1, rtc serve c c1 /\ pc (ts c1 t) = Hold k /\ rtc serve c1 c'.
Proof using.
  intros Hr. induction Hr as [c|c c1 c' Hs Hr IH]; intros Hw Ho; [by apply wants_ne with (k' := k) in Hw as [_ ?]|].
  destruct (serve_wants _ _ _ _ Hs Hw) as [Hw1|Hh].
  - destruct (IH Hw1 Ho) as (c2 & H1 & H2 & H3). exists c2. split; [by eapply rtc_l|done].
  - exists c1. split; [by apply rtc_once|done].
Qed.
Lemma serve_rtc_inv c c' O : inv T c O -> rtc serve c c' -> exists O', inv T c' O'.
Proof using HT.
  intros H Hr. revert O H. induction Hr as [c|c c1 c' Hs Hr IH]; intros O H; [eauto|]. destruct (serve_inv _ _ _ H Hs) as [O1 H1]. by eapply IH.
Qed.
End Lock.

(** ** Correctness *)
(** C24. In every reachable state of any number of tasks using the semaphore, a writer
    that holds it excludes every other holder, and [activity] is exact: -1 when a writer
    has the lock, else the number of readers that have it, where a task has the lock if it
    holds it, or if it waits and its [waiter->task] is cleared or just about to be. No
    task waits while the semaphore is free. *)
Theorem rwsem_exclusion (T : list Z) (c : config) (HT : zlen T < INT_MAX) (H : rtc (step T) start c) :
  (forall t u k, pc (ts c t) = Hold Write -> pc (ts c u) = Hold k -> u = t) /\
  (exists owners, NoDup owners.*1 /\
    (forall t k, (t, k) ∈ owners <->
       pc (ts c t) = Hold k \/ (wants k (pc (ts c t)) /\ (cleared (ts c t) = true \/ ClearTask t ∈ todo c))) /\
    ((exists t, owners = [(t, Write)] /\ activity (sem c) = -1) \/
     (Forall (fun p => p.2 = Read) owners /\ activity (sem c) = zlen owners))) /\
  (activity (sem c) = 0 -> wait_list (sem c) = []).
Proof.
  destruct (rwsem_reachable_inv T HT c H) as [O HO]. split; [|split].
  - intros t u k Ht Hu. destruct (write_owner T c O t HO Ht) as [-> _].
    assert ((u, k) ∈ [(t, Write)]) as Hin by (apply (i_owner _ _ _ HO); by left). apply list_elem_of_singleton in Hin. congruence.
  - exists O. split; [|split; [apply (i_owner _ _ _ HO)|apply (i_excl _ _ _ HO)]].
    pose proof (i_nodup _ _ _ HO) as Hnd. by apply list.NoDup_app in Hnd as (? & _).
  - apply (i_idle _ _ _ HO).
Qed.

(** C25. No wake-up is lost and every waiter is served. In every reachable state a task
    that has been given the lock and is at [schedule] can run, or its wake-up is under
    way. As long as a task is inside, some task can go on by the code alone, without a
    wake-up from elsewhere; with no new arrivals it cannot go on for ever; and however
    the steps are ordered, a task that waits has held the lock before they come to an
    end, which is when all tasks are out. Every release by a holder is defined and wakes
    waiters from the front of the queue. *)
Theorem rwsem_progress (T : list Z) (c : config) (HT : zlen T < INT_MAX) (H : rtc (step T) start c) :
  (forall t k, pc (ts c t) = Sched k -> cleared (ts c t) = true -> running (ts c t) = true \/ WakeUp t ∈ todo c) /\
  (forall t, pc (ts c t) <> Out -> exists c', serve c c') /\
  sn serve c /\
  (forall c', rtc serve c c' -> nf serve c' ->
     (forall t, pc (ts c' t) = Out) /\
     (forall t k, wants k (pc (ts c t)) -> exists c1, rtc serve c c1 /\ pc (ts c1 t) = Hold k /\ rtc serve c1 c')) /\
  (forall t k, pc (ts c t) = Hold k -> todo c = [] ->
     exists pre s', up k (sem c) = Some (task <$> pre, s') /\ wait_list (sem c) = pre ++ wait_list s').
Proof.
  destruct (rwsem_reachable_inv T HT c H) as [O HO]. split; [apply (i_wake _ _ _ HO)|].
  split; [intros t; by eapply serve_red|]. split; [by eapply serve_sn|]. split.
  - intros c' Hr Hn. assert (forall t, pc (ts c' t) = Out) as Ho.
    { intros t. destruct (decide (pc (ts c' t) = Out)) as [|Hp]; [done|]. destruct (serve_rtc_inv T HT c c' O HO Hr) as [O' HO'].
      destruct Hn. by eapply serve_red. }
    split; [done|]. intros t k Hw. by apply served.
  - intros t k Hp Hm. destruct c as [s m ts0]. cbn [sem todo ts] in *. subst m.
    destruct (up_released T HT s ts0 O t k HO Hp) as (pre & s' & O' & E1 & E2 & _). eauto.
Qed.

(** Task 1 holds the lock for writing and task 2 waits to read. *)
Definition demo : config :=
  let t1 := set_task 1 (Task (Hold Write) true false) (ts start) in
  Config (Sem (-1) [Waiter 2 RWSEM_WAITING_FOR_READ]) [] (set_task 2 (Task (Check Read) false false) t1).
Lemma demo_reachable : rtc (step [1; 2]) start demo.
Proof.
  eapply rtc_l; [apply (step_down [1; 2] Write 1 _ (Sem (-1) []) true); [by left|reflexivity|reflexivity]|].
  apply rtc_once. apply (step_down [1; 2] Read 2 _ (Sem (-1) [Waiter 2 RWSEM_WAITING_FOR_READ]) false); [right; by left|reflexivity|reflexivity].
Qed.
Lemma rwsem_exclusion_witness : pc (ts demo 1) = Hold Write /\
  exists owners, NoDup owners.*1 /\
    (forall t k, (t, k) ∈ owners <->
       pc (ts demo t) = Hold k \/ (wants k (pc (ts demo t)) /\ (cleared (ts demo t) = true \/ ClearTask t ∈ todo demo))) /\
    ((exists t, owners = [(t, Write)] /\ activity (sem demo) = -1) \/
     (Forall (fun p => p.2 = Read) owners /\ activity (sem demo) = zlen owners)).
Proof. split; [reflexivity|]. apply (rwsem_exclusion [1; 2] demo); [reflexivity|apply demo_reachable]. Defined.
(** A complete run from there: task 1 releases the lock, task 2 is given it and
    woken, takes it and releases it. *)
Lemma all_out_nf c : todo c = [] -> (forall t, pc (ts c t) = Out) -> nf serve c.
Proof.
  intros Hm Hp [c' Hs]. destruct Hs as [k t s m ts0 E|k t s m ts0 E|k t s m ts0 E|k t s s' w ts0 E|t s s' w ts0 E|t s m ts0|t s m ts0];
    cbn [todo ts] in *; first [done|by rewrite Hp in E].
Qed.
Lemma demo_run : exists c', rtc serve demo c' /\ nf serve c'.
Proof.
  eexists. split.
  - eapply rtc_l; [apply (step_up Write 1); reflexivity|]. eapply rtc_l; [apply step_clear|]. eapply rtc_l; [apply step_wake|].
    eapply rtc_l; [apply (step_check Read 2); reflexivity|]. eapply rtc_l; [apply (step_up Read 2); reflexivity|]. reflexivity.
  - apply all_out_nf; [reflexivity|]. intros t. cbn [ts]. unfold set_task. by repeat case_decide.
Qed.
Lemma rwsem_progress_witness : exists c' c1, nf serve c' /\ rtc serve demo c1 /\ pc (ts c1 2) = Hold Read /\ rtc serve c1 c'.
Proof.
  destruct demo_run as (c' & Hr & Hn). exists c'.
  destruct (rwsem_progress [1; 2] demo) as (_ & _ & _ & H & _); [reflexivity|apply demo_reachable|].
  destruct (H c' Hr Hn) as [_ Hw]. destruct (Hw 2 Read) as (c1 & H1); [by left|]. by exists c1.
Defined.
