(* ===== verification/Kmp.v ===== *)
(** * Knuth-Morris-Pratt text search

    [lib/ts_kmp.c], with the linear text source of [lib/textsearch.c].  The
    pattern is preprocessed into the table of its borders, and the search reads
    the text block by block through the callback [get_next_block] of the search
    configuration, of which only what [include/linux/textsearch.h] documents is
    assumed (the class [TextSource]).  The search returns the first occurrence at
    or after the offset, however the text is cut into blocks. *)

From Stdlib Require Import ZArith Lia.
From stdpp Require Import base tactics numbers list gmap option.
From S2P Require Import Prelude CString.

(** ** Text sources *)
(** The callback returns the next bytes of the text, none only at its end. *)
Class TextSource (text : list Z) (get_next_block : Z -> list Z) : Prop := {
  block_text c : 0 <= c <= zlen text -> exists rest, drop (Z.to_nat c) text = get_next_block c ++ rest;
  block_some c : 0 <= c < zlen text -> get_next_block c <> []
}.

Definition get_linear_data (data : list Z) (consumed : Z) : list Z :=
  if consumed <? zlen data then drop (Z.to_nat consumed) data else [].
#[export] Instance linear_data data : TextSource data (get_linear_data data).
Proof.
  split; intros c Hc; unfold get_linear_data.
  - destruct (c <? zlen data) eqn:E; b2p; [exists []; by rewrite app_nil_r|by eexists].
  - rewrite (proj2 (Z.ltb_lt _ _)) by lia. intros E. apply (f_equal length) in E. rewrite length_drop in E. unfold zlen in *. cbn in E. lia.
Qed.

(** ** The algorithm *)
Definition TS_IGNORECASE : Z := 2.
Record ts_kmp := Kmp { pattern : list Z; pattern_len : Z; prefix_tbl : list Z }.

Definition getl {S} (l : list Z) (i : Z) : ST S Z := match zget l i with Some x => ret x | None => fault end.
Definition fold_char (flags x : Z) : Z := if negb (Z.land flags TS_IGNORECASE =? 0) then toupper x else x.

(** The loop both functions share: [pch] reads the pattern, [tbl] the table. *)
Definition fall_round {S} (pch tbl : Z -> ST S Z) (ch q : Z) : ST S (Z + Z) :=
  if 0 <? q then
    let* x := pch q in
    if negb (x =? ch) then
      let* k := tbl (q - 1) in
      ret (inl k)
    else ret (inr q)
  else ret (inr q).
Definition advance {S} (pch tbl : Z -> ST S Z) (ch q : Z) : ST S Z :=
  let* q := while (Datatypes.S (Z.to_nat q)) (fall_round pch tbl ch) q in
  let* x := pch q in
  ret (if x =? ch then u32 (q + 1) else q).

(** The table is the state. *)
Definition prefix_round (pat : list Z) (flags : Z) (len : Z) : Z * Z -> ST (list Z) (Z * Z + unit) := fun '(k, q) =>
  if q <? len then
    let* y := getl pat q in
    let* k := advance (fun i => let* x := getl pat i in ret (fold_char flags x)) (fun i s => getl s i s) (fold_char flags y) k in
    (fun s => if (0 <=? q) && (q <? zlen s) then Some (tt, upd s q k) else None) ;;
    ret (inl (k, u32 (q + 1)))
  else ret (inr tt).
Definition compute_prefix_tbl (pat : list Z) (flags len : Z) : ST (list Z) unit :=
  while (Datatypes.S (length pat)) (prefix_round pat flags len) (0, 1).

(** [alloc_ts_config] asks for the structure [ts_config], aligned, and the
    payload; [kzalloc] tells whether the zeroed memory is there.  The result is
    the number of bytes from [ts_config_priv] on. *)
Definition TS_PRIV_ALIGN (len : Z) : Z := Z.land (len + 8 - 1) (Z.lnot (8 - 1)).
Definition sizeof_ts_config : Z := 16.
Definition alloc_ts_config (kzalloc : Z -> bool) (payload : Z) : Z + Z :=
  let total := u32 (TS_PRIV_ALIGN sizeof_ts_config + payload) in
  if kzalloc total then inr (total - TS_PRIV_ALIGN sizeof_ts_config) else inl (- ENOMEM).

(** The payload is the structure [ts_kmp], whose table takes [prefix_tbl_len]
    bytes, and the pattern behind the table.  The table is written first: an
    entry that is not inside the payload faults, and so does a pattern that is
    not.  The entries under the pattern are lost when it is copied. *)
Definition sizeof_ts_kmp : Z := 8.
Definition kmp_init (kzalloc : Z -> bool) (pat : list Z) (flags : Z) : option (Z + ts_kmp) :=
  let len := zlen pat in
  let prefix_tbl_len := u32 (len * 4) in
  let priv_size := u32 (sizeof_ts_kmp + len + prefix_tbl_len) in
  match alloc_ts_config kzalloc priv_size with
  | inl err => Some (inl err)
  | inr priv =>
      if priv <? sizeof_ts_kmp then None else
      match compute_prefix_tbl pat flags len (replicate (Z.to_nat ((priv - sizeof_ts_kmp) / 4)) 0) with
      | None => None
      | Some (_, tbl) =>
          if priv <? sizeof_ts_kmp + prefix_tbl_len + len then None
          else Some (inr (Kmp (fold_char flags <$> pat) len (take (Z.to_nat (prefix_tbl_len / 4)) tbl)))
      end
  end.
Definition kmp_get_pattern (kmp : ts_kmp) : list Z := pattern kmp.
Definition kmp_get_pattern_len (kmp : ts_kmp) : Z := pattern_len kmp.

(** The state is [state->offset].  In a block: [inl] the result of the search,
    [inr] the length matched at its end. *)
Definition block_round (kmp : ts_kmp) (flags consumed : Z) (text : list Z) : Z * Z -> ST Z (Z * Z + (Z + Z)) := fun '(i, q) =>
  if i <? zlen text then
    let* x := getl text i in
    let* q := advance (getl (pattern kmp)) (getl (prefix_tbl kmp)) (fold_char flags x) q in
    if q =? pattern_len kmp then
      (fun _ => Some (tt, u32 (consumed + i + 1))) ;;
      let* offset := get in
      ret (inr (inl (u32 (offset - pattern_len kmp))))
    else ret (inl (u32 (i + 1), q))
  else ret (inr (inr q)).
Definition UINT_MAX : Z := 2 ^ 32 - 1.
Definition text_round (kmp : ts_kmp) (flags : Z) (get_next_block : Z -> list Z) : Z * Z -> ST Z (Z * Z + Z) := fun '(consumed, q) =>
  let text := get_next_block consumed in
  if zlen text =? 0 then ret (inr UINT_MAX) else
  let* r := while (Datatypes.S (length text)) (block_round kmp flags consumed text) (0, q) in
  match r with
  | inl found => ret (inr found)
  | inr q => ret (inl (u32 (consumed + zlen text), q))
  end.
(** Each round consumes a block; [fuel] bounds their number. *)
Definition kmp_find (fuel : nat) (kmp : ts_kmp) (flags : Z) (get_next_block : Z -> list Z) : ST Z Z :=
  let* consumed := get in
  while fuel (text_round kmp flags get_next_block) (consumed, 0).

(** ** Borders and suffixes *)
Section Match.
Context (pat : Z -> Z).

(** The first [k] characters of the pattern are the last [k] of the text between [o] and [n]. *)
Definition sfx (txt : Z -> Z) (o n k : Z) : Prop := 0 <= k <= n - o /\ forall j, 0 <= j < k -> pat j = txt (n - k + j).
Definition longest (P : Z -> Prop) (k : Z) : Prop := P k /\ forall k', P k' -> k' <= k.
(** A proper border of the first [q] characters. *)
Definition border (q k : Z) : Prop := sfx pat 1 q k.

Lemma sfx_border txt o n q k : sfx txt o n q -> sfx txt o n k -> k < q -> border q k.
Proof.
  intros [H1 H2] [H3 H4] Hk. split; [lia|]. intros j Hj. rewrite H4, H2 by lia. f_equal. lia.
Qed.
Lemma border_sfx txt o n q k : sfx txt o n q -> border q k -> sfx txt o n k.
Proof.
  intros [H1 H2] [H3 H4]. split; [lia|]. intros j Hj. rewrite H4, H2 by lia. f_equal. lia.
Qed.
Lemma sfx_next txt o n k : 0 <= k -> sfx txt o (n + 1) (k + 1) <-> sfx txt o n k /\ pat k = txt n.
Proof.
  intros Hk. split.
  - intros [H1 H2]. split; [|rewrite H2 by lia; f_equal; lia]. split; [lia|]. intros j Hj. rewrite H2 by lia. f_equal. lia.
  - intros [[H1 H2] H3]. split; [lia|]. intros j Hj. destruct (decide (j = k)) as [->|Hne]; [rewrite H3; f_equal; lia|].
    rewrite H2 by lia. f_equal. lia.
Qed.
Lemma sfx_0 txt o n : o <= n -> sfx txt o n 0.
Proof. intros. split; [lia|]. lia. Qed.
End Match.

(** ** One character *)
Section Advance.
Context {S : Type} (pch tbl : Z -> ST S Z) (s : S) (pat pi : Z -> Z) (len m : Z).
Context (Hpch : forall i, 0 <= i < len -> pch i s = Some (pat i, s)).
Context (Htbl : forall i, 0 <= i < m -> tbl i s = Some (pi i, s)).
Context (Hpi : forall i, 0 <= i < m -> longest (border pat (i + 1)) (pi i)).

Lemma advance_spec txt o n q :
  0 < len < 2 ^ 32 -> q < len -> q <= m -> o <= n -> longest (fun k => sfx pat txt o n k /\ k < len) q ->
  exists q', advance pch tbl (txt n) q s = Some (q', s) /\ longest (fun k => sfx pat txt o (n + 1) k /\ k <= len) q'.
Proof using Hpch Htbl Hpi.
  intros Hlen Hql Hqm Hon [[Hq _] Hmax].
  assert (wp (while (Datatypes.S (Z.to_nat q)) (fall_round pch tbl (txt n)) q)
    (fun q' s' => s' = s /\ sfx pat txt o n q' /\ q' < len /\ (forall k, sfx pat txt o n k -> k < len -> pat k = txt n -> k <= q') /\
       (q' = 0 \/ pat q' = txt n)) s) as (q1 & s1 & E1 & -> & H1 & H2 & H3 & H4).
  { apply wp_while with (measure := Z.to_nat)
      (I := fun q s' => s' = s /\ sfx pat txt o n q /\ q < len /\ q <= m /\ forall k, sfx pat txt o n k -> k < len -> pat k = txt n -> k <= q).
    - split; [done|]. split; [done|]. split; [done|]. split; [done|]. intros k K1 K2 _. by apply Hmax.
    - lia.
    - intros x s' (-> & I1 & I2 & I3 & I4). pose proof I1 as [I5 _]. unfold fall_round. destruct (0 <? x) eqn:E0; b2p.
      2: { apply wp_ret. split; [done|]. split; [done|]. split; [done|]. split; [done|]. left. lia. }
      apply wp_bind. exists (pat x), s. split; [apply Hpch; lia|]. destruct (pat x =? txt n) eqn:E1; b2p; cbn [negb].
      { apply wp_ret. split; [done|]. split; [done|]. split; [done|]. split; [done|]. by right. }
      apply wp_bind. exists (pi (x - 1)), s. split; [apply Htbl; lia|]. apply wp_ret.
      destruct (Hpi (x - 1) ltac:(lia)) as [B1 B2]. replace (x - 1 + 1) with x in * by lia. pose proof B1 as [B3 _].
      split; [|lia]. split; [done|]. split; [by eapply border_sfx|]. split; [lia|]. split; [lia|].
      intros k K1 K2 K3. apply B2. assert (k <= x) by (by apply I4). assert (k <> x) by congruence. eapply sfx_border; [exact I1|exact K1|lia]. }
  unfold advance. rewrite (bind_Some _ _ _ _ _ E1). pose proof H1 as [H5 _]. rewrite (bind_Some _ _ _ _ _ (Hpch q1 ltac:(lia))).
  assert (forall k, sfx pat txt o (n + 1) (k + 1) -> k + 1 <= len -> 0 <= k -> k <= q1 /\ pat k = txt n) as Hk.
  { intros k K1 K2 K3. apply sfx_next in K1 as [K1 K4]; [|done]. split; [apply H3; [done|lia|done]|done]. }
  destruct (pat q1 =? txt n) eqn:E2; b2p.
  - exists (q1 + 1). split; [rewrite u32_id by lia; done|]. split; [split; [apply sfx_next; [lia|done]|lia]|].
    intros k [K1 K2]. pose proof K1 as [K3 _]. destruct (decide (k = 0)); [lia|]. destruct (Hk (k - 1)); [by replace (k - 1 + 1) with k by lia|lia..].
  - exists q1. split; [done|]. destruct H4 as [->|H4]; [|done]. split; [split; [apply sfx_0; lia|lia]|].
    intros k [K1 K2]. pose proof K1 as [K3 _]. destruct (decide (k = 0)); [lia|].
    destruct (Hk (k - 1)) as [K4 K5]; [by replace (k - 1 + 1) with k by lia|lia..|]. assert (k - 1 = 0) as E by lia. rewrite E in K5. done.
Qed.
End Advance.

(** ** The prefix table *)
Section Table.
Context (pat : list Z) (flags : Z) (Hlen : 0 < zlen pat < 2 ^ 32).
(** The character the comparisons see. *)
Definition pchar (i : Z) : Z := fold_char flags (at_ pat i).
Definition tbl_ok (tbl : list Z) (m : Z) : Prop := forall i, 0 <= i < m -> longest (border pchar (i + 1)) (at_ tbl i).

Lemma getl_at {S} (l : list Z) i (s : S) : 0 <= i < zlen l -> getl l i s = Some (at_ l i, s).
Proof using. intros Hi. unfold getl. by rewrite zget_at. Qed.

Lemma border_1 : longest (border pchar 1) 0.
Proof using. split; [apply sfx_0; lia|]. intros k [Hk _]. lia. Qed.

Lemma compute_prefix_tbl_spec tbl :
  zlen pat <= zlen tbl -> at_ tbl 0 = 0 ->
  wp (compute_prefix_tbl pat flags (zlen pat)) (fun _ tbl' => zlen tbl' = zlen tbl /\ tbl_ok tbl' (zlen pat)) tbl.
Proof using Hlen.
  intros Hl H0. unfold compute_prefix_tbl.
  apply wp_while with (measure := fun '(_, q) => Z.to_nat (zlen pat - q))
    (I := fun '(k, q) tbl' => zlen tbl' = zlen tbl /\ 1 <= q <= zlen pat /\ tbl_ok tbl' q /\ longest (border pchar q) k).
  - split; [done|]. split; [lia|]. split; [|apply border_1]. intros i Hi. replace i with 0 by lia. rewrite H0. apply border_1.
  - unfold zlen in *. lia.
  - intros [k q] s (I1 & I2 & I3 & I4). unfold prefix_round. destruct (q <? zlen pat) eqn:Eq; b2p.
    2: { apply wp_ret. split; [done|]. by replace (zlen pat) with q by lia. }
    apply wp_bind. exists (at_ pat q), s. split; [apply getl_at; lia|]. pose proof I4 as [[I5 _] I6].
    destruct (advance_spec (fun i => let* x := getl pat i in ret (fold_char flags x)) (fun i s => getl s i s) s pchar (at_ s) (zlen pat) q) with
      (txt := pchar) (o := 1) (n := q) (q := k) as (k' & E & L1 & L2); try done; try lia.
    { intros i Hi. unfold bind. by rewrite getl_at. }
    { intros i Hi. apply getl_at. lia. }
    { split; [split; [apply I4|lia]|]. intros k2 [K1 _]. by apply I6. }
    apply wp_bind. exists k', s. split; [exact E|]. apply wp_bind. exists tt, (upd s q k').
    split; [by rewrite (proj2 (Z.leb_le _ _)), (proj2 (Z.ltb_lt _ _)) by lia|]. apply wp_ret.
    assert (longest (border pchar (q + 1)) k') as Hk'.
    { split; [apply L1|]. intros k2 K2. pose proof K2 as [K3 _]. apply L2. split; [exact K2|lia]. }
    rewrite u32_id by lia. split; [|lia]. split; [by rewrite zlen_upd|]. split; [lia|]. split; [|done].
    intros i Hi. destruct (decide (i = q)) as [->|Hne]; [by rewrite at_upd_eq by lia|]. rewrite at_upd_ne by lia. apply I3. lia.
Qed.

(** The numbers that do not wrap. *)
Context (kzalloc : Z -> bool) (Hsize : 24 + 5 * zlen pat < 2 ^ 32).
Lemma alloc_ts_config_eq : alloc_ts_config kzalloc (u32 (sizeof_ts_kmp + zlen pat + u32 (zlen pat * 4))) =
  if kzalloc (24 + 5 * zlen pat) then inr (8 + 5 * zlen pat) else inl (- ENOMEM).
Proof using Hlen Hsize.
  unfold alloc_ts_config, sizeof_ts_kmp. change (TS_PRIV_ALIGN sizeof_ts_config) with 16. cbv zeta.
  rewrite (u32_id (zlen pat * 4)), (u32_id (8 + _ + _)), (u32_id (16 + _)) by lia.
  replace (16 + (8 + zlen pat + zlen pat * 4)) with (24 + 5 * zlen pat) by lia. destruct (kzalloc _); [f_equal; lia|done].
Qed.
Lemma kmp_init_nomem : kzalloc (24 + 5 * zlen pat) = false -> kmp_init kzalloc pat flags = Some (inl (- ENOMEM)).
Proof using Hlen Hsize. intros E. unfold kmp_init. cbv zeta. by rewrite alloc_ts_config_eq, E. Qed.
Lemma kmp_init_spec : kzalloc (24 + 5 * zlen pat) = true ->
  exists tbl, kmp_init kzalloc pat flags = Some (inr (Kmp (fold_char flags <$> pat) (zlen pat) tbl)) /\
    zlen tbl = zlen pat /\ tbl_ok tbl (zlen pat).
Proof using Hlen Hsize.
  intros Ek. pose proof (zlen_nonneg pat). set (n := Z.to_nat ((8 + 5 * zlen pat - 8) / 4)).
  assert (zlen pat <= Z.of_nat n) by (unfold n; dlia).
  destruct (compute_prefix_tbl_spec (replicate n 0)) as ([] & tbl & E & H1 & H2).
  - unfold zlen at 2. rewrite length_replicate. lia.
  - unfold at_, zget. cbn. destruct n; done.
  - exists (take (Z.to_nat (zlen pat)) tbl). unfold zlen at 2 in H1. rewrite length_replicate in H1. unfold kmp_init. cbv zeta.
    rewrite alloc_ts_config_eq, Ek, (u32_id (zlen pat * 4)), Z.div_mul by lia. unfold sizeof_ts_kmp. rewrite ltb_f by lia. fold n.
    rewrite E, ltb_f by lia. split; [done|]. split; [rewrite zlen_take; lia|].
    intros i Hi. rewrite at_take by lia. by apply H2.
Qed.
End Table.

(** ** The search *)
Section Search.
Context (pat : list Z) (flags : Z) (tbl text : list Z) (gnb : Z -> list Z) {Hsrc : TextSource text gnb}.
Context (Hlen : 0 < zlen pat < 2 ^ 32) (Htl : zlen tbl = zlen pat) (Htbl : tbl_ok pat flags tbl (zlen pat)) (Htext : zlen text < 2 ^ 32).
Let kmp := Kmp (fold_char flags <$> pat) (zlen pat) tbl.
Definition tchar (i : Z) : Z := fold_char flags (at_ text i).

(** The state of the search after [n] characters from [o] on: [q] is the longest
    match under way, and no occurrence has ended yet. *)
Definition searching (o n q : Z) : Prop :=
  o <= n <= zlen text /\ longest (fun k => sfx (pchar pat flags) tchar o n k /\ k < zlen pat) q /\
  forall n', n' <= n -> ~ sfx (pchar pat flags) tchar o n' (zlen pat).
(** The first occurrence from [o] on ends at [n]. *)
Definition found_at (o n : Z) : Prop :=
  n <= zlen text /\ sfx (pchar pat flags) tchar o n (zlen pat) /\ forall n', n' < n -> ~ sfx (pchar pat flags) tchar o n' (zlen pat).

Lemma at_fmap_fold l i : 0 <= i < zlen l -> at_ (fold_char flags <$> l) i = fold_char flags (at_ l i).
Proof using.
  intros Hi. pose proof (zget_at l i Hi) as E. unfold at_ at 1. unfold zget in *. case_decide; [|done]. rewrite list_lookup_fmap, E. done.
Qed.

Lemma search_char o n q (s : Z) : searching o n q -> n < zlen text ->
  exists q', advance (getl (pattern kmp)) (getl (prefix_tbl kmp)) (tchar n) q s = Some (q', s) /\
    ((q' = zlen pat /\ found_at o (n + 1)) \/ (q' <> zlen pat /\ searching o (n + 1) q')).
Proof using Hlen Htl Htbl.
  intros (S1 & S2 & S3) Hn. pose proof S2 as [[_ S4] _].
  destruct (advance_spec (getl (pattern kmp)) (getl (prefix_tbl kmp)) s (pchar pat flags) (at_ tbl) (zlen pat) (zlen pat)) with
    (txt := tchar) (o := o) (n := n) (q := q) as (q' & E & [L1 L2] & L3); try done; try lia.
  - intros i Hi. cbn [kmp pattern]. rewrite getl_at by (unfold zlen in *; rewrite length_fmap; done). unfold pchar. by rewrite at_fmap_fold.
  - intros i Hi. apply getl_at. cbn. lia.
  - exists q'. split; [exact E|]. destruct (decide (q' = zlen pat)) as [->|Hne].
    + left. split; [done|]. split; [lia|]. split; [done|]. intros n' Hn'. apply S3. lia.
    + right. split; [done|]. split; [lia|]. split.
      * split; [split; [done|lia]|]. intros k [K1 K2]. apply L3. split; [done|lia].
      * intros n' Hn' Hs. destruct (decide (n' = n + 1)) as [->|?]; [|apply (S3 n'); [lia|done]].
        specialize (L3 (zlen pat) (conj Hs (Z.le_refl _))). lia.
Qed.

Lemma block_at c i : 0 <= c <= zlen text -> 0 <= i < zlen (gnb c) -> at_ (gnb c) i = at_ text (c + i) /\ c + zlen (gnb c) <= zlen text.
Proof using Hsrc.
  intros Hc Hi. destruct (block_text c Hc) as [rest E].
  assert (at_ (gnb c) i = at_ (gnb c ++ rest) i) as -> by (symmetry; apply at_app_l; lia). rewrite <- E.
  split; [rewrite at_drop by lia; f_equal; lia|]. apply (f_equal zlen) in E. rewrite zlen_app, zlen_drop in E by lia.
  pose proof (zlen_nonneg rest). lia.
Qed.

Lemma block_spec o c q off : 0 <= o -> searching o c q ->
  wp (while (Datatypes.S (length (gnb c))) (block_round kmp flags c (gnb c)) (0, q)) (fun r off' =>
    match r with
    | inl v => exists n, found_at o n /\ v = n - zlen pat /\ off' = n
    | inr q' => off' = off /\ searching o (c + zlen (gnb c)) q'
    end) off.
Proof using Hlen Htl Htbl Htext Hsrc.
  intros Ho Hse. pose proof Hse as (Hc & _).
  apply wp_while with (measure := fun '(i, _) => Z.to_nat (zlen (gnb c) - i))
    (I := fun '(i, q) off' => off' = off /\ 0 <= i <= zlen (gnb c) /\ searching o (c + i) q).
  - split; [done|]. split; [pose proof (zlen_nonneg (gnb c)); lia|]. by rewrite Z.add_0_r.
  - unfold zlen. lia.
  - intros [i q1] off' (-> & I1 & I2). unfold block_round. destruct (i <? zlen (gnb c)) eqn:Ei; b2p.
    2: { apply wp_ret. split; [done|]. by replace (zlen (gnb c)) with i by lia. }
    destruct (block_at c i ltac:(lia) ltac:(lia)) as [Eat Hb].
    apply wp_bind. exists (at_ (gnb c) i), off. split; [apply getl_at; lia|]. rewrite Eat.
    destruct (search_char o (c + i) q1 off I2 ltac:(lia)) as (q' & E & Hor). apply wp_bind. exists q', off. split; [exact E|].
    cbn [kmp pattern_len]. destruct Hor as [[-> Hf]|[Hne Hs]].
    + rewrite Z.eqb_refl. apply wp_bind. exists tt, (u32 (c + i + 1)). split; [done|]. apply wp_bind. exists (u32 (c + i + 1)), (u32 (c + i + 1)).
      split; [done|]. apply wp_ret. exists (c + i + 1). split; [by replace (c + i + 1) with (c + i + 1) by lia|].
      destruct Hf as (F1 & [F2 _] & _). rewrite (u32_id (c + i + 1)) by lia. split; [apply u32_id; lia|done].
    + rewrite eqb_f by done. apply wp_ret. rewrite u32_id by lia. split; [|lia]. split; [done|]. split; [lia|].
      by replace (c + (i + 1)) with (c + i + 1) by lia.
Qed.

Lemma find_spec fuel o : 0 <= o <= zlen text -> (length text < fuel)%nat ->
  wp (kmp_find fuel kmp flags gnb) (fun v off' =>
    (exists n, found_at o n /\ v = n - zlen pat /\ off' = n) \/
    (v = UINT_MAX /\ off' = o /\ forall n, n <= zlen text -> ~ sfx (pchar pat flags) tchar o n (zlen pat))) o.
Proof using Hlen Htl Htbl Htext Hsrc.
  intros Ho Hf. unfold kmp_find. apply wp_bind. exists o, o. split; [done|].
  apply wp_while with (measure := fun '(c, _) => Z.to_nat (zlen text - c)) (I := fun '(c, q) off => off = o /\ searching o c q).
  - split; [done|]. split; [lia|]. split.
    + split; [split; [apply sfx_0; lia|lia]|]. intros k [[K1 _] _]. lia.
    + intros n' Hn' [K1 _]. lia.
  - unfold zlen. lia.
  - intros [c q] off (-> & Hse). pose proof Hse as (Hc & _ & Hno). unfold text_round. cbv zeta.
    destruct (zlen (gnb c) =? 0) eqn:Ez; b2p.
    { apply wp_ret. right. split; [done|]. split; [done|]. intros n Hn. apply Hno. destruct (decide (c < zlen text)) as [Hlt|]; [|lia].
      exfalso. apply (block_some c); [lia|]. destruct (gnb c); [done|]. unfold zlen in Ez. cbn in Ez. lia. }
    apply wp_bind. eapply wp_mono; [apply (block_spec o c q o); [lia|done]|]. intros [v|q'] off' Hr.
    + apply wp_ret. by left.
    + destruct Hr as [-> Hr]. apply wp_ret. pose proof Hr as (Hb & _). pose proof (zlen_nonneg (gnb c)). rewrite u32_id by lia. split; [done|lia].
Qed.
End Search.

(** ** Correctness *)
(** The pattern stands at [p] in the text, up to case when the flag says so. *)
Definition matches_at (pat : list Z) (flags : Z) (text : list Z) (p : Z) : Prop :=
  0 <= p /\ p + zlen pat <= zlen text /\
  forall j, 0 <= j < zlen pat -> fold_char flags (at_ pat j) = fold_char flags (at_ text (p + j)).

Lemma sfx_matches pat flags text o n : 0 <= o -> n <= zlen text ->
  sfx (pchar pat flags) (tchar flags text) o n (zlen pat) <-> matches_at pat flags text (n - zlen pat) /\ o <= n - zlen pat.
Proof.
  intros Ho Hn. unfold sfx, matches_at, pchar, tchar. pose proof (zlen_nonneg pat). split.
  - intros [H1 H2]. split; [|lia]. split; [lia|]. split; [lia|done].
  - intros [(H1 & H2 & H3) H4]. split; [lia|done].
Qed.

(** C26. For a pattern whose table and copy have a size that fits into 32 bits, [kmp_init]
    returns [-ENOMEM] when there is no memory, and else, however the callback cuts the
    text into blocks, the search it has prepared returns the first place at or after the
    offset where the pattern stands, ignoring case if asked to, and moves the offset
    behind it; it returns [UINT_MAX] and keeps the offset when there is none.  Both loops
    end, and no access to the pattern or the table leaves it. *)
Theorem kmp_find_correct (kzalloc : Z -> bool) (pat : list Z) (flags : Z) (text : list Z) (gnb : Z -> list Z)
    (Hsrc : TextSource text gnb) (fuel : nat) (off : Z) (Hlen : 0 < zlen pat) (Hsize : 24 + 5 * zlen pat < 2 ^ 32)
    (Htext : zlen text < 2 ^ 32) (Hoff : 0 <= off <= zlen text) (Hf : (length text < fuel)%nat) :
  if kzalloc (24 + 5 * zlen pat) then
    exists kmp v off', kmp_init kzalloc pat flags = Some (inr kmp) /\ kmp_find fuel kmp flags gnb off = Some (v, off') /\
      ((off <= v /\ matches_at pat flags text v /\ (forall p, off <= p < v -> ~ matches_at pat flags text p) /\ off' = v + zlen pat) \/
       (v = UINT_MAX /\ off' = off /\ forall p, off <= p -> ~ matches_at pat flags text p))
  else kmp_init kzalloc pat flags = Some (inl (- ENOMEM)).
Proof.
  destruct (kzalloc (24 + 5 * zlen pat)) eqn:Ek; [|apply kmp_init_nomem; [lia|done|done]].
  destruct (kmp_init_spec pat flags ltac:(lia) kzalloc Hsize Ek) as (tbl & E1 & H1 & H2).
  destruct (find_spec pat flags tbl text gnb ltac:(lia) H1 H2 Htext fuel off Hoff Hf) as (v & off' & E2 & Hor).
  eexists _, v, off'. split; [exact E1|]. split; [exact E2|]. destruct Hor as [(n & (F1 & F2 & F3) & -> & ->)|(-> & -> & Hno)].
  - left. apply sfx_matches in F2 as [F2 F4]; [|lia..]. split; [done|]. split; [done|]. split; [|lia].
    intros p Hp Hm. pose proof Hm as (M1 & M2 & _). apply (F3 (p + zlen pat)); [lia|]. apply sfx_matches; [lia|lia|].
    replace (p + zlen pat - zlen pat) with p by lia. split; [done|lia].
  - right. split; [done|]. split; [done|]. intros p Hp Hm. pose proof Hm as (M1 & M2 & _). apply (Hno (p + zlen pat)); [lia|].
    apply sfx_matches; [lia|lia|]. replace (p + zlen pat - zlen pat) with p by lia. done.
Qed.

(** ** Patterns that are too long *)
Definition reads {S A} (m : ST S A) : Prop := forall s a s', m s = Some (a, s') -> s' = s.
Lemma reads_while {S X R} fuel (body : X -> ST S (X + R)) : (forall x, reads (body x)) -> forall x, reads (while fuel body x).
Proof.
  intros Hb. induction fuel as [|fuel IH]; intros x s a s' E; [done|]. rewrite while_S in E. unfold bind in E.
  destruct (body x s) as [[[x'|r] s1]|] eqn:Eb; [| |done]; apply Hb in Eb as ->; [by apply IH in E|by injection E].
Qed.
Lemma reads_advance {S} (pch tbl : Z -> ST S Z) ch q : (forall i, reads (pch i)) -> (forall i, reads (tbl i)) -> reads (advance pch tbl ch q).
Proof.
  intros Hp Ht s a s' E. unfold advance, bind in E.
  destruct (while _ _ q s) as [[q1 s1]|] eqn:Ew; [|done]. destruct (pch q1 s1) as [[x s2]|] eqn:Ep; [|done].
  apply Hp in Ep as ->. injection E as _ <-. eapply reads_while; [|exact Ew]. clear - Hp Ht. intros i s a s' E. unfold fall_round, bind in E.
  destruct (0 <? i); [|by injection E]. destruct (pch i s) as [[x s1]|] eqn:E1; [|done]. apply Hp in E1 as ->.
  destruct (negb (x =? ch)); [|by injection E]. destruct (tbl (i - 1) s) as [[k s2]|] eqn:E2; [|done]. apply Ht in E2 as ->. by injection E.
Qed.
Lemma reads_getl {S} l i : reads (S := S) (getl l i).
Proof. intros s a s' E. unfold getl in E. destruct (zget l i); [by injection E|done]. Qed.

(** A table that is computed to its end has room for the whole pattern. *)
Lemma prefix_rounds pat flags len fuel : len < 2 ^ 32 -> forall k q tbl r tbl', 0 <= q ->
  while fuel (prefix_round pat flags len) (k, q) tbl = Some (r, tbl') -> len <= Z.max q (zlen tbl).
Proof.
  intros Hl. induction fuel as [|fuel IH]; intros k q tbl r tbl' Hq E; [done|]. rewrite while_S in E. unfold bind at 1, prefix_round at 1 in E.
  destruct (q <? len) eqn:Eq; b2p; [|lia]. unfold bind in E. destruct (getl pat q tbl) as [[y s1]|] eqn:E1; [|done].
  apply reads_getl in E1 as ->. destruct (advance _ _ _ k tbl) as [[k' s2]|] eqn:E2; [|done]. apply reads_advance in E2 as ->.
  2: { intros i s a s' E'. unfold bind in E'. destruct (getl pat i s) as [[x s3]|] eqn:E3; [|done]. apply reads_getl in E3 as ->. by injection E'. }
  2: { intros i s a s' E'. by apply reads_getl in E'. }
  destruct ((0 <=? q) && (q <? zlen tbl)) eqn:E3; [|done]. b2p. cbn in E. apply IH in E; [|by apply (uint_wrap 32)].
  rewrite u32_id, zlen_upd in E by lia. lia.
Qed.

(** The sizes are computed in 32 bits.  For a pattern whose sizes do not fit, too little
    memory is asked for, and if it is there, [kmp_init] writes the table over its end. *)
Theorem kmp_init_wraps (kzalloc : Z -> bool) pat flags : 2 ^ 32 <= 24 + 5 * zlen pat -> zlen pat < 2 ^ 32 ->
  kzalloc (u32 (16 + u32 (8 + zlen pat + u32 (zlen pat * 4)))) = true -> kmp_init kzalloc pat flags = None.
Proof.
  intros H1 H2 Hk. unfold kmp_init, alloc_ts_config. cbv zeta. change (TS_PRIV_ALIGN sizeof_ts_config) with 16.
  unfold sizeof_ts_kmp. rewrite Hk. set (total := u32 (16 + _)). destruct (total - 16 <? 8) eqn:E8; [done|]. b2p.
  assert ((total - 16 - 8) / 4 < zlen pat) as Hroom.
  { assert (total - 16 < 8 + 4 * zlen pat); [|dlia]. unfold total, wrap in *. pow2. dlia. }
  destruct (compute_prefix_tbl _ _ _ _) as [[u tbl]|] eqn:E; [|done]. exfalso. apply prefix_rounds in E; [|lia|lia].
  unfold zlen at 2 in E. rewrite length_replicate in E. dlia.
Qed.

(** The text abaab, cut after its second character, and the pattern AB without case. *)
Definition cut_text (c : Z) : list Z := if c <? 2 then take 2 (drop (Z.to_nat c) [97; 98; 97; 97; 98]) else drop (Z.to_nat c) [97; 98; 97; 97; 98].
#[export] Instance cut_source : TextSource [97; 98; 97; 97; 98] cut_text.
Proof.
  split; intros c Hc; change (zlen [97; 98; 97; 97; 98]) with 5 in Hc;
    assert (c = 0 \/ c = 1 \/ c = 2 \/ c = 3 \/ c = 4 \/ c = 5) as [->|[->|[->|[->|[->| ->]]]]] by lia; try lia; try (by eexists); done.
Qed.
Lemma kmp_find_correct_witness : exists kmp v off', kmp_init (fun _ => true) [65; 66] TS_IGNORECASE = Some (inr kmp) /\ kmp_find 6 kmp TS_IGNORECASE cut_text 1 = Some (v, off') /\
    ((1 <= v /\ matches_at [65; 66] TS_IGNORECASE [97; 98; 97; 97; 98] v /\
       (forall p, 1 <= p < v -> ~ matches_at [65; 66] TS_IGNORECASE [97; 98; 97; 97; 98] p) /\ off' = v + zlen [65; 66]) \/
     (v = UINT_MAX /\ off' = 1 /\ forall p, 1 <= p -> ~ matches_at [65; 66] TS_IGNORECASE [97; 98; 97; 97; 98] p)).
Proof.
  apply (kmp_find_correct (fun _ => true) [65; 66] TS_IGNORECASE [97; 98; 97; 97; 98] cut_text cut_source 6 1);
    [by compute|by compute|by compute|by compute|cbn; lia].
Defined.
Example kmp_example : (match kmp_init (fun _ => true) [65; 66] TS_IGNORECASE with Some (inr kmp) => kmp_find 6 kmp TS_IGNORECASE cut_text 1 | _ => None end) = Some (3, 5).
Proof. vm_compute. reflexivity. Qed.
