(* ===== verification/ResCounter.v ===== *)
(** * Hierarchical resource counters

    [kernel/res_counter.c] and [include/linux/res_counter.h]: a counter limits the
    use of a resource, and charging it charges its ancestors too, or none of them
    when one has no room.  The loops lock one counter at a time, so a second part
    runs any number of charges and releases interleaved, step by step, and shows
    that no limit is ever exceeded and no release underflows.  Amounts are 32-bit,
    counters 64-bit. *)

From Stdlib Require Import ZArith Lia.
From stdpp Require Import base tactics numbers list gmap option relations.
From S2P Require Import Prelude.

(** ** Counters *)
Record res_counter := Counter { usage : Z; max_usage : Z; limit : Z; failcnt : Z; parent : option Z }.
Definition LLONG_MAX : Z := 2 ^ 63 - 1.

(** The counters are kept by address. *)
Abbreviation counters := (gmap Z res_counter).
Abbreviation RC := (ST counters).
Definition getc (x : Z) : RC res_counter := fun m => match m !! x with Some r => Some (r, m) | None => None end.
Definition setc (x : Z) (r : res_counter) : RC unit := fun m => Some (tt, <[x := r]> m).

(** Only the lock, the limit and the parent are set: the structure is part of a
    zeroed object. *)
Definition res_counter_init (counter : Z) (par : option Z) : RC unit :=
  let* r := getc counter in
  setc counter (Counter (usage r) (max_usage r) LLONG_MAX (failcnt r) par).

(** The parts under the lock of one counter. *)
Definition res_counter_charge_locked (r : res_counter) (val : Z) : Z * res_counter :=
  if limit r <? u64 (usage r + val) then
    (- ENOMEM, Counter (usage r) (max_usage r) (limit r) (u64 (failcnt r + 1)) (parent r))
  else
    let u := u64 (usage r + val) in
    (0, Counter u (if max_usage r <? u then u else max_usage r) (limit r) (failcnt r) (parent r)).
Definition res_counter_uncharge_locked (r : res_counter) (val : Z) : res_counter :=
  let val := if usage r <? val then usage r else val in
  Counter (u64 (usage r - val)) (max_usage r) (limit r) (failcnt r) (parent r).

(** A loop along the ancestors takes a round for each counter, and one more. *)
Definition along {X A} (body : X -> RC (X + A)) (x : X) : RC A := fun m => while (2 + size m) body x m.

Definition charge_round (val : Z) (c : option Z) : RC (option Z + Z * option Z) :=
  match c with
  | None => ret (inr (0, None))
  | Some x =>
      let* r := getc x in
      let '(v, r') := res_counter_charge_locked r val in
      setc x r' ;;
      if v <? 0 then ret (inr (v, Some x)) else ret (inl (parent r))
  end.
Definition undo_round (val : Z) (stop u : option Z) : RC (option Z + unit) :=
  if decide (u = stop) then ret (inr tt) else
  match u with
  | None => fault
  | Some x =>
      let* r := getc x in
      setc x (res_counter_uncharge_locked r val) ;;
      ret (inl (parent r))
  end.
(** The result and [*limit_fail_at]. *)
Definition res_counter_charge (counter : Z) (val : Z) : RC (Z * option Z) :=
  let* '(r, c) := along (charge_round val) (Some counter) in
  if r <? 0 then
    along (undo_round val c) (Some counter) ;;
    ret (r, c)
  else ret (0, None).
Definition res_counter_uncharge (counter : Z) (val : Z) : RC unit :=
  along (undo_round val None) (Some counter).

Inductive member := RES_USAGE | RES_MAX_USAGE | RES_LIMIT | RES_FAILCNT.
Definition res_counter_member (r : res_counter) (mb : member) : Z :=
  match mb with RES_USAGE => usage r | RES_MAX_USAGE => max_usage r | RES_LIMIT => limit r | RES_FAILCNT => failcnt r end.
Definition res_counter_read_u64 (counter : Z) (mb : member) : RC Z :=
  let* r := getc counter in ret (res_counter_member r mb).
Definition res_counter_check_under_limit (r : res_counter) : bool := usage r <? limit r.
Definition res_counter_reset_max (counter : Z) : RC unit :=
  let* r := getc counter in setc counter (Counter (usage r) (usage r) (limit r) (failcnt r) (parent r)).
Definition res_counter_reset_failcnt (counter : Z) : RC unit :=
  let* r := getc counter in setc counter (Counter (usage r) (max_usage r) (limit r) 0 (parent r)).
(** Under the lock of the counter. *)
Definition set_limit_locked (r : res_counter) (lim : Z) : Z * res_counter :=
  if usage r <=? lim then (0, Counter (usage r) (max_usage r) lim (failcnt r) (parent r)) else (- EBUSY, r).
Definition res_counter_set_limit (counter lim : Z) : RC Z :=
  let* r := getc counter in
  let '(v, r') := set_limit_locked r lim in
  setc counter r' ;; ret v.

(** ** One counter *)
(** The fields have their widths, the usage is within the limit, and the limit is so
    far from the end of the range that adding an amount cannot wrap. *)
Definition sane (r : res_counter) : Prop := 0 <= usage r <= limit r /\ limit r <= 2 ^ 64 - 2 ^ 32 /\ usage r <= max_usage r.
Definition room (val : Z) (r : res_counter) : Prop := usage r + val <= limit r.
Definition bump (val : Z) (r : res_counter) : res_counter :=
  Counter (usage r + val) (Z.max (max_usage r) (usage r + val)) (limit r) (failcnt r) (parent r).
Definition refuse (r : res_counter) : res_counter := Counter (usage r) (max_usage r) (limit r) (u64 (failcnt r + 1)) (parent r).
Definition drop_ (val : Z) (r : res_counter) : res_counter := Counter (usage r - val) (max_usage r) (limit r) (failcnt r) (parent r).

Section One.
Context (val : Z) (Hval : 0 <= val < 2 ^ 32).
Lemma charge_locked_spec r : sane r ->
  (room val r /\ res_counter_charge_locked r val = (0, bump val r)) \/
  (~ room val r /\ res_counter_charge_locked r val = (- ENOMEM, refuse r)).
Proof using Hval.
  intros ((H1 & H2) & H3 & H4). unfold res_counter_charge_locked, room. rewrite u64_id by lia.
  destruct (Z.ltb_spec (limit r) (usage r + val)); [right|left]; (split; [lia|]); [done|].
  f_equal. unfold bump. f_equal. destruct (Z.ltb_spec (max_usage r) (usage r + val)); lia.
Qed.
Lemma uncharge_locked_spec r : val <= usage r < 2 ^ 64 -> res_counter_uncharge_locked r val = drop_ val r.
Proof using Hval. intros H. unfold res_counter_uncharge_locked. rewrite ltb_f by lia. by rewrite u64_id by lia. Qed.
Lemma sane_bump r : sane r -> room val r -> sane (bump val r).
Proof using Hval. unfold sane, room, bump. cbn. lia. Qed.
Lemma sane_drop r : sane r -> val <= usage r -> sane (drop_ val r).
Proof using Hval. unfold sane, drop_. cbn. lia. Qed.
End One.

(** ** The ancestors *)
(** [l] is the way from the counter [o] to its last ancestor. *)
Fixpoint path (m : counters) (o : option Z) (l : list Z) : Prop :=
  match l with
  | [] => o = None
  | x :: l => o = Some x /\ exists r, m !! x = Some r /\ path m (parent r) l
  end.
(** The counters of [l] changed by [f]. *)
Fixpoint change (f : res_counter -> res_counter) (l : list Z) (m : counters) : counters :=
  match l with [] => m | x :: l => alter f x (change f l m) end.

Lemma change_lookup f l m y : NoDup l -> change f l m !! y = if decide (y ∈ l) then f <$> m !! y else m !! y.
Proof.
  induction l as [|x l IH]; intros Hnd; cbn; [by rewrite decide_False by (apply not_elem_of_nil)|].
  apply list.NoDup_cons in Hnd as [Hx Hnd]. destruct (decide (y = x)) as [->|Hne].
  - rewrite lookup_alter_eq, IH by done. rewrite decide_False by done. rewrite decide_True by (apply elem_of_cons; by left). done.
  - rewrite lookup_alter_ne by done. rewrite IH by done. apply decide_ext. rewrite elem_of_cons. naive_solver.
Qed.
Lemma change_cons f x l m r : x ∉ l -> NoDup l -> m !! x = Some r -> change f l (<[x := f r]> m) = change f (x :: l) m.
Proof.
  intros Hx Hnd Hr. apply map_eq. intros y. rewrite !change_lookup by (done || by apply list.NoDup_cons). destruct (decide (y = x)) as [->|Hne].
  - rewrite decide_False, decide_True by (done || apply elem_of_cons; by left). by rewrite lookup_insert_eq, Hr.
  - rewrite lookup_insert_ne by done. apply decide_ext. rewrite elem_of_cons. naive_solver.
Qed.

(** The way from [o] that ends before [stop]. *)
Fixpoint segment (m : counters) (o : option Z) (l : list Z) (stop : option Z) : Prop :=
  match l with
  | [] => o = stop
  | x :: l => o = Some x /\ Some x <> stop /\ exists r, m !! x = Some r /\ segment m (parent r) l stop
  end.
Lemma path_change m m' o l : (forall y r, y ∈ l -> m !! y = Some r -> exists r', m' !! y = Some r' /\ parent r' = parent r) -> path m o l -> path m' o l.
Proof.
  revert o. induction l as [|x l IH]; intros o Hm; cbn; [done|]. intros [-> (r & Hr & Hp)]. split; [done|].
  destruct (Hm x r) as (r' & Hr' & Hpr); [apply elem_of_cons; by left|done|]. exists r'. split; [done|]. rewrite Hpr.
  apply IH; [|done]. intros y ry Hy. apply Hm, elem_of_cons. by right.
Qed.
Lemma segment_change m m' o l stop :
  (forall y r, y ∈ l -> m !! y = Some r -> exists r', m' !! y = Some r' /\ parent r' = parent r) -> segment m o l stop -> segment m' o l stop.
Proof.
  revert o. induction l as [|x l IH]; intros o Hm; cbn; [done|]. intros (-> & Hx & r & Hr & Hp). split; [done|]. split; [done|].
  destruct (Hm x r) as (r' & Hr' & Hpr); [apply elem_of_cons; by left|done|]. exists r'. split; [done|]. rewrite Hpr.
  apply IH; [|done]. intros y ry Hy. apply Hm, elem_of_cons. by right.
Qed.
Lemma path_segment m o l1 x l2 : NoDup (l1 ++ x :: l2) -> path m o (l1 ++ x :: l2) -> segment m o l1 (Some x).
Proof.
  revert o. induction l1 as [|y l1 IH]; intros o Hnd; cbn; [by intros [-> _]|]. intros [-> (r & Hr & Hp)].
  cbn in Hnd. apply list.NoDup_cons in Hnd as [Hy Hnd]. split; [done|]. split; [|exists r; split; [done|by apply IH]].
  intros [= ->]. apply Hy, elem_of_app. right. apply elem_of_cons. by left.
Qed.
Lemma path_whole m o l : path m o l -> segment m o l None.
Proof.
  revert o. induction l as [|y l IH]; intros o; cbn; [done|]. intros [-> (r & Hr & Hp)]. split; [done|]. split; [done|]. eauto.
Qed.
Lemma keep_parent (x : Z) (r' : res_counter) (m : counters) (l : list Z) : x ∉ l -> forall y ry, y ∈ l -> m !! y = Some ry -> exists ry', <[x := r']> m !! y = Some ry' /\ parent ry' = parent ry.
Proof. intros Hx y ry Hy Hr. exists ry. rewrite lookup_insert_ne; [done|]. by intros ->. Qed.

Section Charge.
Context (val : Z) (Hval : 0 <= val < 2 ^ 32).
Definition at_counter (m : counters) (P : res_counter -> Prop) (x : Z) : Prop := exists r, m !! x = Some r /\ P r.

Lemma at_counter_insert m P x r l : x ∉ l -> Forall (at_counter (<[x := r]> m) P) l <-> Forall (at_counter m P) l.
Proof using.
  intros Hx. rewrite !list.Forall_forall. unfold at_counter.
  split; intros H y Hy; specialize (H y Hy); rewrite lookup_insert_ne in * by (by intros ->); done.
Qed.

Lemma charge_loop l : forall f m o, path m o l -> NoDup l -> Forall (at_counter m sane) l -> (length l < f)%nat ->
  (Forall (at_counter m (room val)) l /\ while f (charge_round val) o m = Some ((0, None), change (bump val) l m)) \/
  (exists l1 x l2 r, l = l1 ++ x :: l2 /\ Forall (at_counter m (room val)) l1 /\ m !! x = Some r /\ ~ room val r /\
     while f (charge_round val) o m = Some ((- ENOMEM, Some x), change (bump val) l1 (<[x := refuse r]> m))).
Proof using Hval.
  induction l as [|x l IH]; intros f m o Hp Hnd Hs Hf; (destruct f as [|f]; [cbn in Hf; lia|]); cbn in Hp.
  { subst o. left. split; [constructor|done]. }
  destruct Hp as [-> (r & Hr & Hp)]. apply list.NoDup_cons in Hnd as [Hx Hnd]. apply Forall_cons_iff in Hs as [(r' & Hr' & Hs) Hss].
  rewrite Hr in Hr'. injection Hr' as <-.
  assert (getc x m = Some (r, m)) as Eg by (unfold getc; by rewrite Hr).
  destruct (charge_locked_spec val Hval r Hs) as [[Hroom El]|[Hroom El]].
  - assert (while (S f) (charge_round val) (Some x) m = while f (charge_round val) (parent r) (<[x := bump val r]> m)) as E.
    { rewrite while_S. unfold charge_round at 1. rewrite !bind_assoc. rewrite (bind_Some _ _ _ _ _ Eg), El. done. }
    rewrite E. destruct (IH f (<[x := bump val r]> m) (parent r)) as [[H1 H2]|(l1 & y & l2 & ry & -> & H1 & H2 & H3 & H4)].
    + eapply path_change; [|exact Hp]. by apply keep_parent.
    + done.
    + by apply at_counter_insert.
    + cbn in Hf. lia.
    + left. rewrite at_counter_insert in H1 by done. split; [constructor; [by exists r|done]|]. rewrite H2. by rewrite (change_cons _ x l m r).
    + right. apply list.NoDup_app in Hnd as (N1 & N2 & N3).
      assert (x <> y) as Hxy by (intros ->; apply Hx, elem_of_app; right; apply elem_of_cons; by left).
      assert (x ∉ l1) as Hx1 by (intros Hin; apply Hx, elem_of_app; by left).
      exists (x :: l1), y, l2, ry. split; [done|]. rewrite at_counter_insert in H1 by done. split; [constructor; [by exists r|done]|].
      rewrite lookup_insert_ne in H2 by done. split; [done|]. split; [done|]. rewrite H4. rewrite insert_insert_ne by done.
      rewrite (change_cons _ x l1 _ r); [done|done|done|]. by rewrite lookup_insert_ne.
  - right. exists [], x, l, r. split; [done|]. split; [constructor|]. split; [done|]. split; [done|].
    rewrite while_S. unfold charge_round at 1. rewrite !bind_assoc. rewrite (bind_Some _ _ _ _ _ Eg), El. done.
Qed.

Lemma undo_loop l : forall f m o stop, segment m o l stop -> NoDup l -> Forall (at_counter m (fun r => val <= usage r < 2 ^ 64)) l -> (length l < f)%nat ->
  while f (undo_round val stop) o m = Some (tt, change (drop_ val) l m).
Proof using Hval.
  induction l as [|x l IH]; intros f m o stop Hp Hnd Hs Hf; (destruct f as [|f]; [cbn in Hf; lia|]); cbn in Hp; rewrite while_S; unfold undo_round at 1.
  { subst o. by rewrite decide_True. }
  destruct Hp as (-> & Hst & r & Hr & Hp). apply list.NoDup_cons in Hnd as [Hx Hnd]. apply Forall_cons_iff in Hs as [(r' & Hr' & Hs) Hss].
  rewrite Hr in Hr'. injection Hr' as <-. rewrite decide_False by done. rewrite !bind_assoc.
  assert (getc x m = Some (r, m)) as Eg by (unfold getc; by rewrite Hr). rewrite (bind_Some _ _ _ _ _ Eg).
  rewrite (uncharge_locked_spec val Hval r Hs). unfold setc. unfold bind at 1 2. cbn -[while undo_round change].
  rewrite IH.
  - by rewrite (change_cons _ x l m r).
  - eapply segment_change; [|exact Hp]. by apply keep_parent.
  - done.
  - by apply at_counter_insert.
  - cbn in Hf. lia.
Qed.

Lemma path_size m o l : path m o l -> NoDup l -> (length l <= size m)%nat.
Proof using.
  intros Hp Hnd. rewrite <- (size_list_to_set (C := gset Z) l Hnd), <- size_dom. apply subseteq_size. intros x Hx.
  apply elem_of_list_to_set in Hx. apply elem_of_dom. clear Hnd. revert o Hp. induction l as [|y l IH]; intros o Hp; [by apply elem_of_nil in Hx|].
  destruct Hp as [_ (r & Hr & Hp)]. apply elem_of_cons in Hx as [->|Hx]; [done|by eapply IH].
Qed.
Lemma change_change f g l m : NoDup l -> change g l (change f l m) = change (fun r => g (f r)) l m.
Proof using.
  intros Hnd. apply map_eq. intros y. rewrite !change_lookup by done. case_decide; [|done]. by destruct (m !! y).
Qed.
Lemma change_at f l m P Q : NoDup l -> Forall (at_counter m P) l -> (forall r, P r -> Q (f r)) -> Forall (at_counter (change f l m) Q) l.
Proof using.
  intros Hnd HP HPQ. rewrite list.Forall_forall in *. intros y Hy. destruct (HP y Hy) as (r & Hr & H). exists (f r). split; [|by apply HPQ].
  rewrite change_lookup, decide_True by done. by rewrite Hr.
Qed.
Lemma change_parent f l m : NoDup l -> (forall r, parent (f r) = parent r) ->
  forall y r, m !! y = Some r -> exists r', change f l m !! y = Some r' /\ parent r' = parent r.
Proof using.
  intros Hnd Hf y r Hr. rewrite change_lookup by done. case_decide; rewrite Hr; cbn; eauto.
Qed.

(** What a refused charge leaves of an ancestor it had charged: only the mark of the
    highest usage. *)
Definition raise (r : res_counter) : res_counter := drop_ val (bump val r).

(** The outcome of a charge of the counters [l], lowest first. *)
Definition charged (l : list Z) (m : counters) (v : Z) (c : option Z) (m' : counters) : Prop :=
  (v = 0 /\ c = None /\ Forall (at_counter m (room val)) l /\ m' = change (bump val) l m) \/
  (v = - ENOMEM /\ exists l1 x l2 r, l = l1 ++ x :: l2 /\ c = Some x /\ Forall (at_counter m (room val)) l1 /\
     m !! x = Some r /\ ~ room val r /\ m' = change raise l1 (<[x := refuse r]> m)).

Lemma charge_spec m counter l : path m (Some counter) l -> NoDup l -> Forall (at_counter m sane) l ->
  exists v c m', res_counter_charge counter val m = Some ((v, c), m') /\ charged l m v c m'.
Proof using Hval.
  intros Hp Hnd Hs. pose proof (path_size _ _ _ Hp Hnd) as Hsz. unfold res_counter_charge.
  destruct (charge_loop l (2 + size m) m (Some counter) Hp Hnd Hs ltac:(lia)) as [[H1 H2]|(l1 & x & l2 & r & -> & H1 & H2 & H3 & H4)].
  - unfold bind, along. rewrite H2. eexists 0, None, _. split; [reflexivity|]. left. done.
  - pose proof Hnd as (N1 & N2 & N3)%list.NoDup_app. assert (x ∉ l1) as Hx by (intros Hin; apply (N2 x Hin), elem_of_cons; by left).
    set (m1 := <[x := refuse r]> m) in *. apply Forall_app in Hs as [Hs1 _].
    assert (forall y ry, m !! y = Some ry -> exists ry', m1 !! y = Some ry' /\ parent ry' = parent ry) as Hm1.
    { intros y ry Hy. unfold m1. destruct (decide (y = x)) as [->|Hne]; [|exists ry; by rewrite lookup_insert_ne].
      rewrite H2 in Hy. injection Hy as <-. exists (refuse r). by rewrite lookup_insert_eq. }
    assert (while (2 + size (change (bump val) l1 m1)) (undo_round val (Some x)) (Some counter) (change (bump val) l1 m1) =
      Some (tt, change (drop_ val) l1 (change (bump val) l1 m1))) as E.
    { apply undo_loop; [|done| |].
      - eapply segment_change; [|by eapply (path_segment m)]. intros y ry _ Hy. destruct (Hm1 y ry Hy) as (ry' & Hy' & Hpy).
        destruct (change_parent (bump val) l1 m1 N1) with (y := y) (r := ry') as (r2 & E1 & E2); [done|done|]. exists r2. split; [done|congruence].
      - apply (change_at _ _ _ (fun r => sane r /\ room val r)); [done| |].
        + rewrite list.Forall_forall in *. intros y Hy. destruct (Hs1 y Hy) as (ry & E1 & E2), (H1 y Hy) as (ry' & E3 & E4).
          rewrite E1 in E3. injection E3 as <-. exists ry. unfold m1. rewrite lookup_insert_ne by (by intros ->). done.
        + intros ry [[[S1 S2] [S3 S4]] S5]. unfold room in S5. cbn. lia.
      - assert (length l1 <= size (change (bump val) l1 m1))%nat; [|lia]. transitivity (size m1).
        + unfold m1. rewrite map_size_insert_Some by eauto. rewrite length_app in Hsz. lia.
        + rewrite <- !size_dom. apply subseteq_size. intros y. rewrite !elem_of_dom. intros [ry Hy].
          destruct (change_parent (bump val) l1 m1 N1) with (y := y) (r := ry) as (r2 & E1 & _); eauto. }
    rewrite (bind_Some (along (charge_round val) (Some counter)) _ m _ _ H4). change (- ENOMEM <? 0) with true. cbn iota.
    rewrite (bind_Some (along (undo_round val (Some x)) (Some counter)) _ _ _ _ E).
    eexists (- ENOMEM), (Some x), _. split; [reflexivity|].
    right. split; [done|]. exists l1, x, l2, r. split; [done|]. split; [done|]. split; [done|]. split; [done|]. split; [done|].
    by rewrite change_change.
Qed.
End Charge.

(** ** Interleaved charges *)
(** An activity under way: [from] and [to] are the counters at which the part of the
    ancestors it has charged begins and ends.  [Charging] goes on at [to]; [Undoing],
    after a refusal, and [Uncharging] take the charge back at [from]; [Held] is a
    charge that was granted. *)
Inductive stage := Charging | Undoing | Held | Uncharging.
Record act := Act { what : stage; from : option Z; to : option Z; amount : Z }.
Record config := Config { cs : counters; acts : list act }.
Definition releasing (s : stage) : Prop := s = Undoing \/ s = Uncharging.

Inductive istep : config -> config -> Prop :=
  | i_begin m A x val : is_Some (m !! x) -> 0 <= val < 2 ^ 32 ->
      istep (Config m A) (Config m (Act Charging (Some x) (Some x) val :: A))
  | i_charge m A B f x val r v r' : m !! x = Some r -> res_counter_charge_locked r val = (v, r') ->
      istep (Config m (A ++ Act Charging f (Some x) val :: B))
        (Config (<[x := r']> m) (A ++ (if v <? 0 then Act Undoing f (Some x) val else Act Charging f (parent r) val) :: B))
  | i_granted m A B f val : istep (Config m (A ++ Act Charging f None val :: B)) (Config m (A ++ Act Held f None val :: B))
  | i_release m A B f val : istep (Config m (A ++ Act Held f None val :: B)) (Config m (A ++ Act Uncharging f None val :: B))
  | i_uncharge m A B s x t val r : releasing s -> Some x <> t -> m !! x = Some r ->
      istep (Config m (A ++ Act s (Some x) t val :: B))
        (Config (<[x := res_counter_uncharge_locked r val]> m) (A ++ Act s (parent r) t val :: B))
  | i_end m A B s t val : releasing s -> istep (Config m (A ++ Act s t t val :: B)) (Config m (A ++ B))
  | i_limit m A x r lim v r' : m !! x = Some r -> lim <= 2 ^ 64 - 2 ^ 32 -> set_limit_locked r lim = (v, r') ->
      istep (Config m A) (Config (<[x := r']> m) A)
  | i_reset m A x r n : m !! x = Some r ->
      istep (Config m A) (Config (<[x := Counter (usage r) (usage r) (limit r) n (parent r)]> m) A).

(** The counters form a forest, and at the start nothing is charged. *)
Definition forest (m : counters) : Prop := forall x, is_Some (m !! x) -> exists l, path m (Some x) l /\ NoDup l.
Definition unused (m : counters) : Prop := forall x r, m !! x = Some r -> usage r = 0 /\ sane r.

(** The counters [l] are those the activity has charged. *)
Definition claims (m : counters) (a : act) (l : list Z) : Prop :=
  0 <= amount a < 2 ^ 32 /\ exists rest, path m (from a) (l ++ rest) /\ NoDup (l ++ rest) /\ to a = head rest.
Fixpoint load (x : Z) (A : list act) (L : list (list Z)) : Z :=
  match A, L with
  | a :: A, l :: L => (if decide (x ∈ l) then amount a else 0) + load x A L
  | _, _ => 0
  end.
Definition balanced (c : config) (L : list (list Z)) : Prop :=
  forest (cs c) /\ Forall2 (claims (cs c)) (acts c) L /\
  forall x r, cs c !! x = Some r -> sane r /\ usage r = load x (acts c) L.

Lemma load_app x A B L M : length A = length L -> load x (A ++ B) (L ++ M) = load x A L + load x B M.
Proof. revert L. induction A as [|a A IH]; intros [|l L] H; cbn in *; try lia. rewrite IH by lia. lia. Qed.
Lemma load_nonneg x A L m : Forall2 (claims m) A L -> 0 <= load x A L.
Proof. induction 1 as [|a l A L [Ha _] _ IH]; cbn; [lia|]. case_decide; lia. Qed.

(** A change that keeps the parents keeps the ways. *)
Definition same_tree (m m' : counters) : Prop := forall y, parent <$> m' !! y = parent <$> m !! y.
Lemma same_tree_path m m' o l : same_tree m m' -> path m o l -> path m' o l.
Proof.
  intros H. apply path_change. intros y r _ Hr. specialize (H y). rewrite Hr in H. destruct (m' !! y) as [r'|]; [|done].
  injection H as H. eauto.
Qed.
Lemma same_tree_sym m m' : same_tree m m' -> same_tree m' m.
Proof. intros H y. by rewrite H. Qed.
Lemma same_tree_insert m x r r' : m !! x = Some r -> parent r' = parent r -> same_tree m (<[x := r']> m).
Proof.
  intros Hr Hp y. destruct (decide (y = x)) as [->|Hne]; [rewrite lookup_insert_eq, Hr; cbn; by rewrite Hp|by rewrite lookup_insert_ne].
Qed.
Lemma same_tree_claims m m' a l : same_tree m m' -> claims m a l -> claims m' a l.
Proof. intros H [Ha (rest & Hp & Hr)]. split; [done|]. exists rest. split; [by eapply same_tree_path|done]. Qed.
Lemma same_tree_forest m m' : same_tree m m' -> forest m -> forest m'.
Proof.
  intros H Hf x [r Hr]. destruct (Hf x) as (l & Hp & Hnd).
  - specialize (H x). rewrite Hr in H. destruct (m !! x); [done|]. done.
  - exists l. split; [by eapply same_tree_path|done].
Qed.
Lemma path_head m o l : path m o l -> o = head l.
Proof. destruct l; cbn; [done|]. by intros [-> _]. Qed.

(** One counter is changed, and with it the share of one activity. *)
Lemma balanced_update m A B L M a l a' l' x r r' :
  balanced (Config m (A ++ a :: B)) (L ++ l :: M) -> length A = length L ->
  m !! x = Some r -> parent r' = parent r -> sane r' -> claims m a' l' ->
  (forall y, (if decide (y ∈ l') then amount a' else 0) = (if decide (y ∈ l) then amount a else 0) + (if decide (y = x) then usage r' - usage r else 0)) ->
  balanced (Config (<[x := r']> m) (A ++ a' :: B)) (L ++ l' :: M).
Proof.
  intros (Hf & H2 & Hu) Hlen Hr Hp Hs Hc Hy. cbn [cs acts] in *. pose proof (same_tree_insert m x r r' Hr Hp) as Ht.
  split; [by eapply same_tree_forest|]. split.
  - apply Forall2_app_inv in H2 as [HA HB]; [|done]. inversion HB as [|? ? ? ? Hal HBM]; subst.
    cbn [acts cs]. apply Forall2_app; [|constructor].
    + eapply Forall2_impl; [exact HA|]. intros. by eapply same_tree_claims.
    + by eapply same_tree_claims.
    + eapply Forall2_impl; [exact HBM|]. intros. by eapply same_tree_claims.
  - intros y ry Hry. cbn [cs acts] in *.
    assert (load y (A ++ a' :: B) (L ++ l' :: M) = load y (A ++ a :: B) (L ++ l :: M) + if decide (y = x) then usage r' - usage r else 0) as El.
    { rewrite !load_app by done. cbn [load]. rewrite Hy. lia. }
    rewrite El. destruct (decide (y = x)) as [->|Hne].
    + rewrite lookup_insert_eq in Hry. injection Hry as <-. destruct (Hu x r Hr) as [_ Hus]. split; [done|]. lia.
    + rewrite lookup_insert_ne in Hry by done. destruct (Hu y ry Hry). split; [done|lia].
Qed.

Lemma balanced_split m A a B L :
  balanced (Config m (A ++ a :: B)) L -> exists L1 l L2, L = L1 ++ l :: L2 /\ length A = length L1 /\ claims m a l.
Proof.
  intros (_ & H2 & _). cbn [acts cs] in H2. apply Forall2_app_inv_l in H2 as (L1 & L' & HA & HB & ->).
  apply Forall2_cons_inv_l in HB as (l & L2 & Hc & HB & ->). exists L1, l, L2. split; [done|]. split; [by eapply Forall2_length|done].
Qed.

(** The activity goes to another stage with the same counters charged. *)
Lemma balanced_stage m A B L M f t v s s' l : length A = length L ->
  balanced (Config m (A ++ Act s f t v :: B)) (L ++ l :: M) -> balanced (Config m (A ++ Act s' f t v :: B)) (L ++ l :: M).
Proof.
  intros Hlen (Hf & H2 & Hu). split; [done|]. cbn [cs acts] in *. split.
  - apply Forall2_app_inv in H2 as [HA HB]; [|done]. inversion HB; subst. apply Forall2_app; [done|]. by constructor.
  - intros x r Hr. destruct (Hu x r Hr) as [? ->]. split; [done|]. by rewrite !load_app by done.
Qed.

Lemma charged_here m a l x : claims m a l -> to a = Some x -> exists rest, path m (from a) (l ++ x :: rest) /\ NoDup (l ++ x :: rest).
Proof. intros [_ (rest & Hp & Hnd & Ht)] E. rewrite E in Ht. destruct rest as [|y rest]; cbn in Ht; [done|]. injection Ht as ->. eauto. Qed.

Lemma path_parent m o l x rest r : path m o (l ++ x :: rest) -> m !! x = Some r -> parent r = head rest.
Proof.
  revert o. induction l as [|y l IH]; intros o; cbn.
  - intros [-> (r' & Hr' & Hp)] Hr. rewrite Hr in Hr'. injection Hr' as <-. by eapply path_head.
  - intros [-> (r' & Hr' & Hp)] Hr. by eapply IH.
Qed.

Lemma charge_balanced m A B f x val r v r' L :
  balanced (Config m (A ++ Act Charging f (Some x) val :: B)) L -> m !! x = Some r -> res_counter_charge_locked r val = (v, r') ->
  exists L', balanced (Config (<[x := r']> m) (A ++ (if v <? 0 then Act Undoing f (Some x) val else Act Charging f (parent r) val) :: B)) L'.
Proof.
  intros H Hr Hc. destruct (balanced_split _ _ _ _ _ H) as (L1 & l & L2 & -> & Hlen & Hcl).
  pose proof H as (_ & _ & Hu). destruct (Hu x r Hr) as [Hs _]. pose proof Hcl as [Hv _]. cbn [amount] in Hv.
  destruct (charged_here _ _ _ x Hcl eq_refl) as (rest & Hp & Hnd). cbn [from] in Hp.
  destruct (charge_locked_spec val Hv r Hs) as [[Hroom E]|[Hroom E]]; rewrite E in Hc; injection Hc as <- <-.
  - exists (L1 ++ (l ++ [x]) :: L2). change (0 <? 0) with false. cbn iota. eapply balanced_update; [exact H|done|exact Hr|done|by apply sane_bump| |].
    + split; [done|]. exists rest. cbn [from to]. rewrite <- app_assoc. cbn [app]. split; [done|]. split; [done|]. by eapply path_parent.
    + intros y. cbn [amount bump usage]. apply list.NoDup_app in Hnd as (_ & Hnd & _). destruct (decide (y = x)) as [->|Hne].
      * rewrite decide_True by (apply elem_of_app; right; apply elem_of_cons; by left).
        rewrite decide_False; [lia|]. intros Hin. apply (Hnd x Hin), elem_of_cons. by left.
      * rewrite Z.add_0_r. apply decide_ext. rewrite elem_of_app, list_elem_of_singleton. naive_solver.
  - exists (L1 ++ l :: L2). change (- ENOMEM <? 0) with true. cbn iota. eapply balanced_update; [exact H|done|exact Hr|done|done| |].
    + split; [done|]. exists (x :: rest). done.
    + intros y. cbn [amount refuse usage]. case_decide; case_decide; lia.
Qed.

Lemma uncharge_balanced m A B s x t val r L :
  balanced (Config m (A ++ Act s (Some x) t val :: B)) L -> Some x <> t -> m !! x = Some r ->
  val <= usage r /\ exists L', balanced (Config (<[x := res_counter_uncharge_locked r val]> m) (A ++ Act s (parent r) t val :: B)) L'.
Proof.
  intros H Hne Hr. destruct (balanced_split _ _ _ _ _ H) as (L1 & l & L2 & -> & Hlen & Hcl).
  pose proof H as (_ & HF & Hu). destruct (Hu x r Hr) as [Hs Hus]. cbn [cs acts] in *. pose proof Hcl as [Hv (rest & Hp & Hnd & Ht)].
  cbn [amount from to] in *.
  destruct l as [|y l].
  { exfalso. cbn in Hp. apply path_head in Hp. congruence. }
  cbn in Hp. destruct Hp as [[= <-] (ry & Hry & Hp)]. rewrite Hr in Hry. injection Hry as <-.
  assert (val <= usage r) as Hle.
  { rewrite Hus. apply Forall2_app_inv in HF as [HA HB]; [|done]. inversion HB as [|? ? ? ? ? HB']; subst. rewrite load_app by done. cbn [load].
    rewrite decide_True by (apply elem_of_cons; by left). cbn [amount].
    pose proof (load_nonneg x _ _ _ HA). pose proof (load_nonneg x _ _ _ HB'). lia. }
  split; [done|]. cbn in Hnd. apply list.NoDup_cons in Hnd as [Hx Hnd].
  assert (usage r < 2 ^ 64) as Hub by (destruct Hs as (? & ? & ?); lia).
  exists (L1 ++ l :: L2). rewrite (uncharge_locked_spec val Hv r) by done.
  eapply balanced_update; [exact H|done|exact Hr|done|by apply sane_drop| |].
  - split; [done|]. exists rest. done.
  - intros y. cbn [amount drop_ usage]. destruct (decide (y = x)) as [->|Hyx].
    + rewrite decide_False by (intros Hin; apply Hx, elem_of_app; by left). rewrite decide_True by (apply elem_of_cons; by left). lia.
    + rewrite Z.add_0_r. apply decide_ext. rewrite elem_of_cons. naive_solver.
Qed.

Lemma balanced_counter m A L x r r' :
  balanced (Config m A) L -> m !! x = Some r -> parent r' = parent r -> usage r' = usage r -> sane r' -> balanced (Config (<[x := r']> m) A) L.
Proof.
  intros (Hf & H2 & Hu) Hr Hp He Hs. cbn [cs acts] in *. pose proof (same_tree_insert m x r r' Hr Hp) as Ht.
  split; [by eapply same_tree_forest|]. split; [eapply Forall2_impl; [exact H2|]; intros; by eapply same_tree_claims|].
  intros y ry Hry. cbn [cs acts] in *. destruct (decide (y = x)) as [->|Hne].
  - rewrite lookup_insert_eq in Hry. injection Hry as <-. split; [done|]. rewrite He. by apply Hu.
  - rewrite lookup_insert_ne in Hry by done. by apply Hu.
Qed.

Lemma end_balanced m A B s t val L : balanced (Config m (A ++ Act s t t val :: B)) L -> exists L', balanced (Config m (A ++ B)) L'.
Proof.
  intros H. destruct (balanced_split _ _ _ _ _ H) as (L1 & l & L2 & -> & Hlen & [_ (rest & Hp & Hnd & Ht)]). cbn [from to] in *.
  assert (l = []) as ->.
  { destruct l as [|y l]; [done|]. exfalso. apply path_head in Hp. cbn in Hp, Hnd. rewrite Ht in Hp. destruct rest as [|z rest]; [done|].
    injection Hp as ->. apply list.NoDup_cons in Hnd as [Hz _]. apply Hz, elem_of_app. right. apply elem_of_cons. by left. }
  exists (L1 ++ L2). destruct H as (Hf & H2 & Hu). cbn [cs acts] in *. split; [done|]. cbn [cs acts]. split.
  - apply Forall2_app_inv in H2 as [HA HB]; [|done]. inversion HB; subst. by apply Forall2_app.
  - intros x r Hr. destruct (Hu x r Hr) as [? ->]. split; [done|]. rewrite !load_app by done. cbn [load].
    rewrite decide_False by (apply not_elem_of_nil). lia.
Qed.

Lemma istep_balanced c c' L : balanced c L -> istep c c' -> exists L', balanced c' L'.
Proof.
  intros H Hst. destruct Hst as [m A x val Hx Hv|m A B f x val r v r' Hr Hc|m A B f val|m A B f val|m A B s x t val r Hs Hne Hr
    |m A B s t val Hs|m A x r lim v r' Hr Hlim Hc|m A x r n Hr].
  - pose proof H as (Hf & H2 & Hu). destruct (Hf x Hx) as (l & Hp & Hnd). exists ([] :: L). split; [done|]. split.
    + constructor; [|done]. split; [done|]. exists l. split; [done|]. split; [done|]. by apply path_head in Hp.
    + intros y r Hr. cbn [acts load]. rewrite decide_False by (apply not_elem_of_nil). by apply Hu.
  - by eapply charge_balanced.
  - destruct (balanced_split _ _ _ _ _ H) as (L1 & l & L2 & -> & Hlen & _). exists (L1 ++ l :: L2). by eapply balanced_stage.
  - destruct (balanced_split _ _ _ _ _ H) as (L1 & l & L2 & -> & Hlen & _). exists (L1 ++ l :: L2). by eapply balanced_stage.
  - by eapply uncharge_balanced.
  - by eapply end_balanced.
  - exists L. pose proof H as (_ & _ & Hu). destruct (Hu x r Hr) as [(S1 & S2 & S3) _]. unfold set_limit_locked in Hc.
    destruct (Z.leb_spec (usage r) lim); injection Hc as <- <-; (eapply balanced_counter; [exact H|exact Hr|done|done|]); unfold sane; cbn; lia.
  - exists L. pose proof H as (_ & _ & Hu). destruct (Hu x r Hr) as [(S1 & S2 & S3) _].
    eapply balanced_counter; [exact H|exact Hr|done|done|]. unfold sane. cbn. lia.
Qed.

Lemma start_balanced m : forest m -> unused m -> balanced (Config m []) [].
Proof. intros Hf Hu. split; [done|]. split; [constructor|]. intros x r Hr. destruct (Hu x r Hr). done. Qed.
Lemma reachable_balanced m c : forest m -> unused m -> rtc istep (Config m []) c -> exists L, balanced c L.
Proof.
  intros Hf Hu H. apply rtc_ind_r with (P := fun c => exists L, balanced c L) in H; [done| |].
  - exists []. by apply start_balanced.
  - intros y z _ Hyz [L HL]. by eapply istep_balanced.
Qed.

(** ** Correctness *)
(** C27. A charge of a counter is all or nothing: when every ancestor has room, it adds
    the amount to all of them; else it returns -ENOMEM with the lowest ancestor without
    room, whose failures it counts, and leaves every usage as it was.  A release takes the
    amount back from all of them. *)
Theorem res_counter_charge_correct (val : Z) (m : counters) (counter : Z) (l : list Z) (Hval : 0 <= val < 2 ^ 32)
    (Hp : path m (Some counter) l) (Hnd : NoDup l) (Hs : Forall (at_counter m sane) l) :
  (exists v c m', res_counter_charge counter val m = Some ((v, c), m') /\ charged val l m v c m' /\
     (v <> 0 -> forall y, usage <$> m' !! y = usage <$> m !! y)) /\
  (Forall (at_counter m (fun r => val <= usage r)) l ->
   res_counter_uncharge counter val m = Some (tt, change (drop_ val) l m)).
Proof.
  split.
  - destruct (charge_spec val Hval m counter l Hp Hnd Hs) as (v & c & m' & E & Hc). exists v, c, m'. split; [exact E|]. split; [done|].
    intros Hv y. destruct Hc as [(-> & _)|(_ & l1 & x & l2 & r & -> & _ & _ & Hr & _ & ->)]; [done|].
    apply list.NoDup_app in Hnd as (N1 & N2 & _). rewrite change_lookup by done. destruct (decide (y = x)) as [->|Hne].
    + rewrite decide_False by (intros Hin; apply (N2 x Hin), elem_of_cons; by left). by rewrite lookup_insert_eq, Hr.
    + rewrite lookup_insert_ne by done. case_decide; [|done]. destruct (m !! y) as [ry|]; [|done]. cbn. f_equal. lia.
  - intros Hu. unfold res_counter_uncharge, along. apply undo_loop; [done|by apply path_whole|done| |].
    + rewrite list.Forall_forall in *. intros y Hy. destruct (Hs y Hy) as (r & Hr & (S1 & S2 & S3)), (Hu y Hy) as (r' & Hr' & Hle).
      rewrite Hr in Hr'. injection Hr' as <-. exists r. split; [done|lia].
    + pose proof (path_size m _ _ Hp Hnd). lia.
Qed.

(** C28. Whatever charges, releases, changes of limits and resets run interleaved, one
    locked section at a time, no counter of the forest ever exceeds its limit, the usage of
    a counter is the sum of what is charged to it, and a release never takes more from a
    counter than is there, so that its warning cannot appear. *)
Theorem res_counter_interleaved_safe (m : counters) (c : config) (Hf : forest m) (Hu : unused m) (H : rtc istep (Config m []) c) :
  (forall x r, cs c !! x = Some r -> 0 <= usage r <= limit r /\ usage r <= max_usage r) /\
  (exists L, Forall2 (claims (cs c)) (acts c) L /\ forall x r, cs c !! x = Some r -> usage r = load x (acts c) L) /\
  (forall a x r, a ∈ acts c -> from a = Some x -> to a <> Some x -> cs c !! x = Some r -> amount a <= usage r).
Proof.
  destruct (reachable_balanced m c Hf Hu H) as [L HL]. pose proof HL as (_ & H2 & Hus). split; [|split].
  - intros x r Hr. destruct (Hus x r Hr) as [(S1 & S2 & S3) _]. done.
  - exists L. split; [done|]. intros x r Hr. by apply Hus.
  - intros a x r Ha Ef Et Hr. destruct c as [mc A]. cbn [cs acts] in *. apply list_elem_of_split in Ha as (A1 & A2 & ->). destruct a as [s f t v].
    cbn in Ef, Et. subst f. by eapply uncharge_balanced.
Qed.

(** A group 1 below the group 2, which allows 10 units. *)
Definition groups : counters := {[ 1 := Counter 0 0 LLONG_MAX 0 (Some 2); 2 := Counter 0 0 10 0 None ]}.
Lemma groups_path : path groups (Some 1) [1; 2].
Proof. split; [done|]. eexists. split; [reflexivity|]. split; [done|]. eexists. by split. Qed.
Lemma groups_nodup : NoDup [1; 2].
Proof. by apply (bool_decide_eq_true_1 _). Qed.
Lemma groups_unused : unused groups.
Proof.
  intros x r Hr. unfold groups in Hr. rewrite lookup_insert_Some in Hr. destruct Hr as [[<- <-]|[_ Hr]]; [by split; [|compute]|].
  apply lookup_singleton_Some in Hr as [<- <-]. by split; [|compute].
Qed.
Lemma groups_forest : forest groups.
Proof.
  intros x [r Hr]. unfold groups in Hr. rewrite lookup_insert_Some in Hr. destruct Hr as [[<- <-]|[_ Hr]].
  - exists [1; 2]. split; [apply groups_path|apply groups_nodup].
  - apply lookup_singleton_Some in Hr as [<- _]. exists [2]. split; [|apply NoDup_singleton]. split; [done|]. eexists. by split.
Qed.
Lemma res_counter_charge_correct_witness : exists v c m', res_counter_charge 1 7 groups = Some ((v, c), m') /\ charged 7 [1; 2] groups v c m' /\
     (v <> 0 -> forall y, usage <$> m' !! y = usage <$> groups !! y).
Proof.
  apply (res_counter_charge_correct 7 groups 1 [1; 2]); [lia|apply groups_path|apply groups_nodup|].
  repeat (apply Forall_cons_2; [eexists; split; [reflexivity|by compute]|]). constructor.
Defined.
Lemma res_counter_interleaved_safe_witness : exists c, rtc istep (Config groups []) c /\
  forall x r, cs c !! x = Some r -> 0 <= usage r <= limit r /\ usage r <= max_usage r.
Proof.
  assert (rtc istep (Config groups []) (Config groups [Act Charging (Some 1) (Some 1) 7])) as H
    by (apply rtc_once, i_begin; [by eexists|lia]).
  eexists. split; [exact H|]. apply (res_counter_interleaved_safe groups _ groups_forest groups_unused H).
Defined.
(** Two charges of 7 units: the second is refused by the upper group. *)
Example charge_example :
  option_map fst ((let* _ := res_counter_charge 1 7 in res_counter_charge 1 7) groups) = Some (- ENOMEM, Some 2).
Proof. vm_compute. reflexivity. Qed.
