(* ===== verification/Digest.v ===== *)
(** * Message digests: buffering and padding

    What the hash modules of [crypto/] have in common: a message is absorbed in
    blocks of 64 bytes by a compression function, what is left of it is kept in a
    buffer, and the end is padded with the length.  The file defines the digest of
    a whole message, and the interface that the update and final functions of the
    hash modules are proved to implement: however a message is cut into pieces, the
    digest of the whole comes out. *)

From Stdlib Require Import ZArith Lia.
From stdpp Require Import base tactics numbers list gmap option.
From S2P Require Import Prelude Cipher.

(** ** Blocks of a message *)
(** What is left of [l] when its whole blocks are taken off. *)
Definition left_over (l : list Z) : list Z := drop (Z.to_nat (64 * (zlen l / 64))) l.

Lemma zlen_left_over l : zlen (left_over l) = zlen l mod 64.
Proof. pose proof (zlen_nonneg l). unfold left_over. rewrite zlen_drop by dlia. dlia. Qed.

Section Blocks.
Context (compress : list Z -> list Z -> list Z).

Fixpoint absorb (n : nat) (s l : list Z) : list Z :=
  match n with O => s | S n => absorb n (compress s (take 64 l)) (drop 64 l) end.
(** All whole blocks of [l] are absorbed. *)
Definition blocks (s l : list Z) : list Z := absorb (Z.to_nat (zlen l / 64)) s l.

Lemma blocks_short s l : zlen l < 64 -> blocks s l = s /\ left_over l = l.
Proof.
  intros H. pose proof (zlen_nonneg l). assert (zlen l / 64 = 0) as E by dlia. unfold blocks, left_over. by rewrite E.
Qed.
Lemma blocks_step s l : 64 <= zlen l -> blocks s l = blocks (compress s (take 64 l)) (drop 64 l) /\ left_over l = left_over (drop 64 l).
Proof.
  intros H. assert (zlen (drop 64 l) = zlen l - 64) as Hd by (unfold zlen in *; rewrite length_drop; lia).
  assert (zlen l / 64 = 1 + (zlen l - 64) / 64) as Hq by dlia. assert (0 <= (zlen l - 64) / 64) by dlia.
  unfold blocks, left_over. rewrite Hd, Hq. split.
  - by replace (Z.to_nat (1 + (zlen l - 64) / 64)) with (S (Z.to_nat ((zlen l - 64) / 64))) by lia.
  - rewrite drop_drop. f_equal. lia.
Qed.

(** What is absorbed of a longer message depends only on the state and on what was left. *)
Lemma blocks_app l : forall s d, blocks s (l ++ d) = blocks (blocks s l) (left_over l ++ d) /\ left_over (l ++ d) = left_over (left_over l ++ d).
Proof.
  remember (length l) as n eqn:Hn. revert l Hn. induction n as [n IH] using lt_wf_ind. intros l -> s d.
  destruct (decide (zlen l < 64)) as [Hlt|Hge].
  { destruct (blocks_short s l Hlt) as [-> ->]. done. }
  assert (length l >= 64)%nat as Hl by (unfold zlen in *; lia).
  destruct (blocks_step s l ltac:(lia)) as [-> ->]. destruct (blocks_step s (l ++ d)) as [-> ->].
  { rewrite zlen_app. pose proof (zlen_nonneg d). lia. }
  rewrite take_app_le, drop_app_le by lia. apply (IH (length (drop 64 l))); [rewrite length_drop; lia|done].
Qed.

(** ** The digest of a message *)
(** [length_bytes] writes the number of bits in the byte order of the hash. *)
Definition pad_zeros (n : Z) : Z := (55 - n) mod 64.
Definition pad_message (length_bytes : Z -> list Z) (msg : list Z) : list Z :=
  msg ++ 0x80 :: replicate (Z.to_nat (pad_zeros (zlen msg))) 0 ++ length_bytes (8 * zlen msg).
End Blocks.

Lemma blocks_ext f g s l : (forall s x, f s x = g s x) -> blocks f s l = blocks g s l.
Proof.
  intros E. unfold blocks. generalize (Z.to_nat (zlen l / 64)) as n. intros n. revert s l.
  induction n as [|n IH]; intros s l; cbn; [done|]. by rewrite E, IH.
Qed.
(** The padding completes the last block. *)
Lemma zlen_pad_message lb msg : zlen (lb (8 * zlen msg)) = 8 -> zlen (pad_message lb msg) mod 64 = 0 /\ zlen (pad_message lb msg) <= zlen msg + 72.
Proof.
  intros H. unfold pad_message, pad_zeros. rewrite zlen_app, zlen_cons, zlen_app, H, zlen_replicate by dlia. dlia.
Qed.

(** ** The buffer *)
(** Reading and writing part of an array, which faults outside it. *)
Definition peek {S} (l : list Z) (o n : Z) : ST S (list Z) :=
  if (0 <=? o) && (0 <=? n) && (o + n <=? zlen l) then ret (slice l o n) else fault.
Definition poke (l : list Z) (o : Z) (x : list Z) : option (list Z) :=
  if (0 <=? o) && (o + zlen x <=? zlen l) then Some (splice l o x) else None.

Lemma peek_eq {S} l o n (s : S) : 0 <= o -> 0 <= n -> o + n <= zlen l -> peek l o n s = Some (slice l o n, s).
Proof. intros. unfold peek. rewrite !(proj2 (Z.leb_le _ _)) by lia. done. Qed.
Lemma poke_eq l o x : 0 <= o -> o + zlen x <= zlen l -> poke l o x = Some (splice l o x).
Proof. intros. unfold poke. rewrite !(proj2 (Z.leb_le _ _)) by lia. done. Qed.

Lemma wp_peek {S} l o n (Q : list Z -> S -> Prop) s : 0 <= o -> 0 <= n -> o + n <= zlen l -> Q (slice l o n) s -> wp (peek l o n) Q s.
Proof. intros. eapply wp_exact; [by apply peek_eq|done]. Qed.
Lemma land_63 x : Z.land x 0x3f = x mod 64.
Proof. change 0x3f with (Z.ones 6). by rewrite Z.land_ones. Qed.

(** The first bytes of the buffer are [p]. *)
Definition begins (buf p : list Z) : Prop := zlen p <= zlen buf /\ slice buf 0 (zlen p) = p.
Lemma begins_nil buf : begins buf [].
Proof. split; [apply zlen_nonneg|]. done. Qed.
Lemma begins_put buf p x : begins buf p -> zlen p + zlen x <= zlen buf -> begins (splice buf (zlen p) x) (p ++ x).
Proof.
  intros [H1 H2] H3. pose proof (zlen_nonneg p). pose proof (zlen_nonneg x). split; [rewrite zlen_splice, zlen_app by lia; lia|].
  unfold splice. unfold slice in H2 |- *. change (Z.to_nat 0) with 0%nat in *. rewrite drop_0 in *.
  rewrite H2. rewrite app_assoc. apply take_app_length'. unfold zlen. lia.
Qed.
Lemma slice_to_end (l : list Z) o : 0 <= o <= zlen l -> slice l o (zlen l - o) = drop (Z.to_nat o) l.
Proof. intros. unfold slice. apply take_ge. rewrite length_drop. unfold zlen in *. lia. Qed.
Lemma begins_whole buf p n : begins buf p -> zlen p = n -> slice buf 0 n = p.
Proof. by intros [_ H] <-. Qed.

(** *** A context in the middle of a message *)
Section Holds.
Context (compress : list Z -> list Z -> list Z) (iv : list Z).

(** The state [s] and the buffer [buf] of a context that has been fed [msg]. *)
Definition holds (s buf : list Z) (size : Z) (msg : list Z) : Prop :=
  s = blocks compress iv msg /\ zlen buf = size /\ begins buf (left_over msg).
(** The same while the data [D] are being absorbed and are used up to [i]. *)
Definition rest (msg D s : list Z) (i : Z) : Prop :=
  blocks compress iv (msg ++ D) = blocks compress s (drop (Z.to_nat i) D) /\ left_over (msg ++ D) = left_over (drop (Z.to_nat i) D).

Lemma holds_nil buf size : zlen buf = size -> holds iv buf size [].
Proof. intros H. split; [done|]. split; [done|]. apply begins_nil. Qed.

Lemma holds_short s buf size msg D : holds s buf size msg -> zlen msg mod 64 + zlen D < 64 -> 64 <= size ->
  holds s (splice buf (zlen msg mod 64) D) size (msg ++ D).
Proof.
  intros (-> & Hb & Hp) Hs Hsz. destruct (blocks_app compress msg iv D) as [E1 E2].
  destruct (blocks_short compress (blocks compress iv msg) (left_over msg ++ D)) as [E3 E4].
  { rewrite zlen_app, zlen_left_over. done. }
  pose proof (zlen_left_over msg) as Hl. pose proof (Z.mod_pos_bound (zlen msg) 64).
  split; [congruence|]. split; [rewrite zlen_splice; lia|]. rewrite E2, E4, <- Hl. apply begins_put; [done|lia].
Qed.

Lemma rest_start s buf size msg D : holds s buf size msg -> zlen msg mod 64 = 0 -> rest msg D s 0.
Proof.
  intros (-> & _ & _) H0. assert (left_over msg = []) as E by (pose proof (zlen_left_over msg); apply length_zero_iff_nil; unfold zlen in *; lia).
  destruct (blocks_app compress msg iv D) as [E1 E2]. rewrite E in E1, E2. split; done.
Qed.

(** The buffer is filled up with the head of the data. *)
Lemma rest_first s buf size msg D n : holds s buf size msg -> n = zlen msg mod 64 -> 64 <= n + zlen D -> 64 <= size ->
  zlen (splice buf n (slice D 0 (64 - n))) = size /\
  rest msg D (compress s (slice (splice buf n (slice D 0 (64 - n))) 0 64)) (64 - n).
Proof.
  intros (-> & Hb & Hp) -> Hs Hsz. pose proof (zlen_left_over msg) as Hl. pose proof (Z.mod_pos_bound (zlen msg) 64). set (n := zlen msg mod 64) in *.
  assert (zlen (slice D 0 (64 - n)) = 64 - n) as Hd by (apply zlen_slice; lia).
  split; [rewrite zlen_splice; lia|]. rewrite <- Hl at 1. rewrite (begins_whole _ (left_over msg ++ slice D 0 (64 - n))); cycle 1.
  { apply begins_put; [done|lia]. } { rewrite zlen_app. lia. }
  destruct (blocks_app compress msg iv D) as [E1 E2].
  destruct (blocks_step compress (blocks compress iv msg) (left_over msg ++ D)) as [E3 E4]; [rewrite zlen_app; lia|].
  assert (length (left_over msg) <= 64)%nat by (unfold zlen in *; lia).
  assert (64 - length (left_over msg) = Z.to_nat (64 - n))%nat as En by (unfold zlen in *; lia).
  rewrite take_app_ge, drop_app_ge, En in * by done.
  change (slice D 0 (64 - n)) with (take (Z.to_nat (64 - n)) D). split; congruence.
Qed.

Lemma rest_step msg D s i : rest msg D s i -> 0 <= i -> i + 64 <= zlen D -> rest msg D (compress s (slice D i 64)) (i + 64).
Proof.
  intros [H1 H2] Hi Hl. assert (64 <= zlen (drop (Z.to_nat i) D)) as Hd by (rewrite zlen_drop; lia).
  destruct (blocks_step compress s _ Hd) as [E1 E2]. rewrite drop_drop in E1, E2.
  replace (Z.to_nat i + 64)%nat with (Z.to_nat (i + 64)) in * by lia.
  change (slice D i 64) with (take 64 (drop (Z.to_nat i) D)). split; congruence.
Qed.

(** What is left of the data goes to the buffer. *)
Lemma rest_done msg D s i buf size : rest msg D s i -> 0 <= i <= zlen D -> zlen D - i < 64 -> zlen buf = size -> 64 <= size ->
  holds s (splice buf 0 (slice D i (zlen D - i))) size (msg ++ D).
Proof.
  intros [H1 H2] Hi Hl Hb Hsz. rewrite slice_to_end by done. set (t := drop _ D) in *.
  assert (zlen t < 64) as Ht by (unfold t; rewrite zlen_drop; lia). destruct (blocks_short compress s t Ht) as [E1 E2].
  split; [congruence|]. split; [rewrite zlen_splice; lia|]. rewrite H2, E2. change 0 with (zlen (@nil Z)).
  apply (begins_put buf [] t); [apply begins_nil|]. pose proof (zlen_nonneg t). change (zlen []) with 0. lia.
Qed.
End Holds.

(** ** The interface of a hash module *)
(** The three operations of [struct shash_alg] on a context, the digest of a whole
    message, and what a context that has been fed a message is; the laws say that the
    operations keep to it.  A piece is shorter than 2^29 bytes and a message than
    2^61. *)
Class ShashAlg (C : Type) := {
  h_init : ST C unit;
  h_update : list Z -> ST C unit;
  h_final : ST C (list Z);
  digest : list Z -> list Z;
  ready : C -> Prop;
  fed : C -> list Z -> Prop;
  init_fed c : ready c -> exists c', h_init c = Some (tt, c') /\ fed c' [];
  update_fed c msg d : fed c msg -> zlen d < 2 ^ 29 -> zlen (msg ++ d) < 2 ^ 61 ->
    exists c', h_update d c = Some (tt, c') /\ fed c' (msg ++ d);
  final_fed c msg : fed c msg -> zlen msg < 2 ^ 61 - 2 ^ 8 -> exists c', h_final c = Some (digest msg, c') /\ ready c'
}.

Fixpoint update_all {C} (up : list Z -> ST C unit) (pieces : list (list Z)) : ST C unit :=
  match pieces with [] => ret tt | d :: pieces => (up d ;; update_all up pieces) end.
(** The way a caller hashes a message that comes in pieces. *)
Definition hash_pieces {C} (init : ST C unit) (up : list Z -> ST C unit) (final : ST C (list Z)) (pieces : list (list Z)) : ST C (list Z) :=
  init ;; update_all up pieces ;; final.

Lemma pieces_fed {C} {alg : ShashAlg C} pieces : forall c msg,
  fed c msg -> Forall (fun d => zlen d < 2 ^ 29) pieces -> zlen (msg ++ concat pieces) < 2 ^ 61 ->
  exists c', update_all h_update pieces c = Some (tt, c') /\ fed c' (msg ++ concat pieces).
Proof.
  induction pieces as [|d pieces IH]; intros c msg Hf Hs Hl; cbn in *; [rewrite app_nil_r; eauto|].
  apply Forall_cons_iff in Hs as [Hd Hs]. rewrite app_assoc in *.
  assert (zlen (msg ++ d) < 2 ^ 61) as Hm by (rewrite (zlen_app (msg ++ d)) in Hl; pose proof (zlen_nonneg (concat pieces)); lia).
  destruct (update_fed c msg d Hf Hd Hm) as (c1 & E1 & H1). destruct (IH c1 (msg ++ d) H1 Hs Hl) as (c2 & E2 & H2).
  exists c2. split; [|done]. unfold bind. by rewrite E1.
Qed.
Lemma hash_pieces_spec {C} {alg : ShashAlg C} c pieces :
  ready c -> Forall (fun d => zlen d < 2 ^ 29) pieces -> zlen (concat pieces) < 2 ^ 61 - 2 ^ 8 ->
  exists c', hash_pieces h_init h_update h_final pieces c = Some (digest (concat pieces), c') /\ ready c'.
Proof.
  intros Hr Hs Hl. destruct (init_fed c Hr) as (c1 & E1 & H1). destruct (pieces_fed pieces c1 [] H1 Hs ltac:(cbn; lia)) as (c2 & E2 & H2).
  destruct (final_fed c2 _ H2 Hl) as (c3 & E3 & H3). exists c3. split; [|done]. unfold hash_pieces, bind. by rewrite E1, E2, E3.
Qed.
