(* ===== verification/Sha.v ===== *)
(** * SHA-1, SHA-224 and SHA-256

    [lib/sha1.c], [crypto/sha1_generic.c] and [crypto/sha256_generic.c]: the
    compression functions, and the update and final functions with their buffers
    and bit counters, which implement the interface [ShashAlg].  The functions are
    compared with the hash functions as the standard defines them ([Fips]): words
    [W] given by a recurrence, one round that moves all registers, the logical
    functions as choice and majority of bits. *)

From Stdlib Require Import ZArith Lia.
From stdpp Require Import base tactics numbers list gmap option.
From S2P Require Import Prelude Bits Cipher Digest.

(** The big-endian words of a block, and the eight bytes of a number. *)
Definition be_words (x : list Z) : list Z := (fun i => be_word (slice x (4 * Z.of_nat i) 4)) <$> seq 0 16.
Definition be8 (v : Z) : list Z := be4 (v / 2 ^ 32 mod 2 ^ 32) ++ be4 (v mod 2 ^ 32).
(** [static const u8 padding[64] = { 0x80, }] *)
Definition sha_padding : list Z := 0x80 :: replicate 63 0.

(** ** SHA-1 *)
Module Sha1.
Definition f1 (x y z : Z) : Z := Z.lxor z (Z.land x (Z.lxor y z)).
Definition f2 (x y z : Z) : Z := Z.lxor (Z.lxor x y) z.
Definition f3 (x y z : Z) : Z := u32 (Z.land x y + Z.land z (Z.lxor x y)).
Definition K1 : Z := 0x5A827999.
Definition K2 : Z := 0x6ED9EBA1.
Definition K3 : Z := 0x8F1BBCDC.
Definition K4 : Z := 0xCA62C1D6.

(** [W[i+16]] for [n] values of [i]. *)
Fixpoint expand (n : nat) (i : Z) (W : list Z) : list Z :=
  match n with
  | O => W
  | S n => expand n (i + 1) (W ++ [rol32 (Z.lxor (Z.lxor (Z.lxor (at_ W (i + 13)) (at_ W (i + 8))) (at_ W (i + 2))) (at_ W i)) 1])
  end.
(** [n] rounds from round [i] on. *)
Fixpoint rounds (n : nat) (f : Z -> Z -> Z -> Z) (K : Z) (W : list Z) (i : Z) (r : Z * Z * Z * Z * Z) : Z * Z * Z * Z * Z :=
  match n with
  | O => r
  | S n =>
      let '(a, b, c, d, e) := r in
      let t := u32 (f b c d + K + rol32 a 5 + e + at_ W i) in
      rounds n f K W (i + 1) (t, a, rol32 b 30, c, d)
  end.
Definition sha_transform (digest input : list Z) : list Z :=
  let W := expand 64 0 (be_words input) in
  let r := (at_ digest 0, at_ digest 1, at_ digest 2, at_ digest 3, at_ digest 4) in
  let r := rounds 20 f1 K1 W 0 r in
  let r := rounds 20 f2 K2 W 20 r in
  let r := rounds 20 f3 K3 W 40 r in
  let '(a, b, c, d, e) := rounds 20 f2 K4 W 60 r in
  [u32 (at_ digest 0 + a); u32 (at_ digest 1 + b); u32 (at_ digest 2 + c); u32 (at_ digest 3 + d); u32 (at_ digest 4 + e)].

Record sha1_ctx := Sha1Ctx { count : Z; state : list Z; buffer : list Z }.
(** [SHA1_H0] ... [SHA1_H4] *)
Definition SHA1_H : list Z := [0x67452301; 0xefcdab89; 0x98badcfe; 0x10325476; 0xc3d2e1f0].
Definition sha1_init : ST sha1_ctx unit := fun _ => Some (tt, Sha1Ctx 0 SHA1_H (replicate 64 0)).

Definition set_count (n : Z) : ST sha1_ctx unit := fun c => Some (tt, Sha1Ctx n (state c) (buffer c)).
Definition buffer_put (o : Z) (x : list Z) : ST sha1_ctx unit := fun c =>
  match poke (buffer c) o x with Some b => Some (tt, Sha1Ctx (count c) (state c) b) | None => None end.
(** [src] is the buffer ([None]) or a place in the data. *)
Definition transform_round (data : list Z) : Z * option Z -> ST sha1_ctx (Z * option Z + Z) := fun '(done, src) =>
  let* c := get in
  let* x := (match src with None => peek (buffer c) 0 64 | Some o => peek data o 64 end) in
  put (Sha1Ctx (count c) (sha_transform (state c) x) (buffer c)) ;;
  let done := u32 (done + 64) in
  ret (if u32 (done + 63) <? zlen data then inl (done, Some done) else inr done).
Definition sha1_update (data : list Z) : ST sha1_ctx unit :=
  let len := zlen data in
  let* c := get in
  let partial := Z.land (count c) 0x3f in
  set_count (u64 (count c + len)) ;;
  if 63 <? u32 (partial + len) then
    let* start :=
      (if negb (partial =? 0) then
         let done := u32 (- partial) in
         let* x := peek data 0 (u32 (done + 64)) in
         buffer_put partial x ;;
         ret (done, None)
       else ret (0, Some 0)) in
    let* done := while (1 + length data) (transform_round data) start in
    let* x := peek data done (u32 (len - done)) in
    buffer_put 0 x
  else
    let* x := peek data 0 len in
    buffer_put partial x.

Definition sha1_final : ST sha1_ctx (list Z) :=
  let* c := get in
  let bits := be8 (u64 (Z.shiftl (count c) 3)) in
  let index := u32 (Z.land (count c) 0x3f) in
  let padlen := if index <? 56 then 56 - index else 64 + 56 - index in
  let* pad := peek sha_padding 0 padlen in
  sha1_update pad ;;
  sha1_update bits ;;
  let* c := get in
  put (Sha1Ctx 0 (replicate 5 0) (replicate 64 0)) ;;
  ret (concat (be4 <$> state c)).
End Sha1.

(** ** SHA-224 and SHA-256 *)
Module Sha256.
Definition Ch (x y z : Z) : Z := Z.lxor z (Z.land x (Z.lxor y z)).
Definition Maj (x y z : Z) : Z := Z.lor (Z.land x y) (Z.land z (Z.lor x y)).
Definition e0 (x : Z) : Z := Z.lxor (Z.lxor (ror32 x 2) (ror32 x 13)) (ror32 x 22).
Definition e1 (x : Z) : Z := Z.lxor (Z.lxor (ror32 x 6) (ror32 x 11)) (ror32 x 25).
Definition s0 (x : Z) : Z := Z.lxor (Z.lxor (ror32 x 7) (ror32 x 18)) (Z.shiftr x 3).
Definition s1 (x : Z) : Z := Z.lxor (Z.lxor (ror32 x 17) (ror32 x 19)) (Z.shiftr x 10).

(** [BLEND_OP(I, W)] for [n] values of [I]. *)
Definition BLEND_OP (I : Z) (W : list Z) : list Z :=
  W ++ [u32 (s1 (at_ W (I - 2)) + at_ W (I - 7) + s0 (at_ W (I - 15)) + at_ W (I - 16))].
Fixpoint blend (n : nat) (I : Z) (W : list Z) : list Z :=
  match n with O => W | S n => blend n (I + 1) (BLEND_OP I W) end.

(** The constants in the order in which the transformation uses them. *)
Definition row (a b c d e f g h : Z) : list Z := [a; b; c; d; e; f; g; h].
Definition K : list Z :=
  row 0x428a2f98 0x71374491 0xb5c0fbcf 0xe9b5dba5 0x3956c25b 0x59f111f1 0x923f82a4 0xab1c5ed5 ++
  row 0xd807aa98 0x12835b01 0x243185be 0x550c7dc3 0x72be5d74 0x80deb1fe 0x9bdc06a7 0xc19bf174 ++
  row 0xe49b69c1 0xefbe4786 0x0fc19dc6 0x240ca1cc 0x2de92c6f 0x4a7484aa 0x5cb0a9dc 0x76f988da ++
  row 0x983e5152 0xa831c66d 0xb00327c8 0xbf597fc7 0xc6e00bf3 0xd5a79147 0x06ca6351 0x14292967 ++
  row 0x27b70a85 0x2e1b2138 0x4d2c6dfc 0x53380d13 0x650a7354 0x766a0abb 0x81c2c92e 0x92722c85 ++
  row 0xa2bfe8a1 0xa81a664b 0xc24b8b70 0xc76c51a3 0xd192e819 0xd6990624 0xf40e3585 0x106aa070 ++
  row 0x19a4c116 0x1e376c08 0x2748774c 0x34b0bcb5 0x391c0cb3 0x4ed8aa4a 0x5b9cca4f 0x682e6ff3 ++
  row 0x748f82ee 0x78a5636f 0x84c87814 0x8cc70208 0x90befffa 0xa4506ceb 0xbef9a3f7 0xc67178f2.

(** Eight rounds from round [i] on, after which the registers are back in their
    places. *)
Definition eight_rounds (W : list Z) (i : Z) (r : Z * Z * Z * Z * Z * Z * Z * Z) : Z * Z * Z * Z * Z * Z * Z * Z :=
  let '(a, b, c, d, e, f, g, h) := r in
  let t1 := u32 (h + e1 e + Ch e f g + at_ K i + at_ W i) in
  let t2 := u32 (e0 a + Maj a b c) in let d := u32 (d + t1) in let h := u32 (t1 + t2) in
  let t1 := u32 (g + e1 d + Ch d e f + at_ K (i + 1) + at_ W (i + 1)) in
  let t2 := u32 (e0 h + Maj h a b) in let c := u32 (c + t1) in let g := u32 (t1 + t2) in
  let t1 := u32 (f + e1 c + Ch c d e + at_ K (i + 2) + at_ W (i + 2)) in
  let t2 := u32 (e0 g + Maj g h a) in let b := u32 (b + t1) in let f := u32 (t1 + t2) in
  let t1 := u32 (e + e1 b + Ch b c d + at_ K (i + 3) + at_ W (i + 3)) in
  let t2 := u32 (e0 f + Maj f g h) in let a := u32 (a + t1) in let e := u32 (t1 + t2) in
  let t1 := u32 (d + e1 a + Ch a b c + at_ K (i + 4) + at_ W (i + 4)) in
  let t2 := u32 (e0 e + Maj e f g) in let h := u32 (h + t1) in let d := u32 (t1 + t2) in
  let t1 := u32 (c + e1 h + Ch h a b + at_ K (i + 5) + at_ W (i + 5)) in
  let t2 := u32 (e0 d + Maj d e f) in let g := u32 (g + t1) in let c := u32 (t1 + t2) in
  let t1 := u32 (b + e1 g + Ch g h a + at_ K (i + 6) + at_ W (i + 6)) in
  let t2 := u32 (e0 c + Maj c d e) in let f := u32 (f + t1) in let b := u32 (t1 + t2) in
  let t1 := u32 (a + e1 f + Ch f g h + at_ K (i + 7) + at_ W (i + 7)) in
  let t2 := u32 (e0 b + Maj b c d) in let e := u32 (e + t1) in let a := u32 (t1 + t2) in
  (a, b, c, d, e, f, g, h).
Fixpoint all_rounds (n : nat) (W : list Z) (i : Z) (r : Z * Z * Z * Z * Z * Z * Z * Z) : Z * Z * Z * Z * Z * Z * Z * Z :=
  match n with O => r | S n => all_rounds n W (i + 8) (eight_rounds W i r) end.
Definition sha256_transform (state input : list Z) : list Z :=
  let W := blend 48 16 (be_words input) in
  let '(a, b, c, d, e, f, g, h) :=
    all_rounds 8 W 0 (at_ state 0, at_ state 1, at_ state 2, at_ state 3, at_ state 4, at_ state 5, at_ state 6, at_ state 7) in
  [u32 (at_ state 0 + a); u32 (at_ state 1 + b); u32 (at_ state 2 + c); u32 (at_ state 3 + d);
   u32 (at_ state 4 + e); u32 (at_ state 5 + f); u32 (at_ state 6 + g); u32 (at_ state 7 + h)].

(** [count[0]], [count[1]], [state], [buf] *)
Record sha256_ctx := Sha256Ctx { count0 : Z; count1 : Z; state : list Z; buf : list Z }.
Definition SHA224_H : list Z :=
  [0xc1059ed8; 0x367cd507; 0x3070dd17; 0xf70e5939; 0xffc00b31; 0x68581511; 0x64f98fa7; 0xbefa4fa4].
Definition SHA256_H : list Z :=
  [0x6a09e667; 0xbb67ae85; 0x3c6ef372; 0xa54ff53a; 0x510e527f; 0x9b05688c; 0x1f83d9ab; 0x5be0cd19].
Definition sha224_init : ST sha256_ctx unit := fun c => Some (tt, Sha256Ctx 0 0 SHA224_H (buf c)).
Definition sha256_init : ST sha256_ctx unit := fun c => Some (tt, Sha256Ctx 0 0 SHA256_H (buf c)).

(** [if ((count[0] += (len << 3)) < (len << 3)) { count[1]++; count[1] += (len >> 29); }] *)
Definition add_bits (len : Z) : ST sha256_ctx unit := fun c =>
  let bits := u32 (Z.shiftl len 3) in
  let n0 := u32 (count0 c + bits) in
  let n1 := if n0 <? bits then u32 (u32 (count1 c + 1) + Z.shiftr len 29) else count1 c in
  Some (tt, Sha256Ctx n0 n1 (state c) (buf c)).
Definition buf_put (o : Z) (x : list Z) : ST sha256_ctx unit := fun c =>
  match poke (buf c) o x with Some b => Some (tt, Sha256Ctx (count0 c) (count1 c) (state c) b) | None => None end.
Definition absorb_block (x : list Z) : ST sha256_ctx unit := fun c =>
  Some (tt, Sha256Ctx (count0 c) (count1 c) (sha256_transform (state c) x) (buf c)).
Definition data_round (data : list Z) (i : Z) : ST sha256_ctx (Z + Z) :=
  if u32 (i + 63) <? zlen data then
    let* x := peek data i 64 in
    absorb_block x ;;
    ret (inl (u32 (i + 64)))
  else ret (inr i).
Definition sha256_update (data : list Z) : ST sha256_ctx unit :=
  let len := zlen data in
  let* c := get in
  let index := Z.land (Z.shiftr (count0 c) 3) 0x3f in
  add_bits len ;;
  let part_len := u32 (64 - index) in
  if part_len <=? len then
    let* x := peek data 0 part_len in
    buf_put index x ;;
    let* c := get in
    let* x := peek (buf c) 0 64 in
    absorb_block x ;;
    let* i := while (1 + length data) (data_round data) part_len in
    let* x := peek data i (u32 (len - i)) in
    buf_put 0 x
  else
    let* x := peek data 0 len in
    buf_put index x.
Definition sha256_final : ST sha256_ctx (list Z) :=
  let* c := get in
  let bits := be4 (count1 c) ++ be4 (count0 c) in
  let index := Z.land (Z.shiftr (count0 c) 3) 0x3f in
  let pad_len := if index <? 56 then 56 - index else 64 + 56 - index in
  let* pad := peek sha_padding 0 pad_len in
  sha256_update pad ;;
  sha256_update bits ;;
  let* c := get in
  put (Sha256Ctx 0 0 (replicate 8 0) (replicate 128 0)) ;;
  ret (concat (be4 <$> state c)).
Definition sha224_final : ST sha256_ctx (list Z) :=
  let* D := sha256_final in
  ret (take 28 D).
End Sha256.

(** ** The standard *)
Module Fips.
Definition choose (x y z : Z) : Z := Z.lxor (Z.land x y) (Z.land (Z.lnot x) z).
Definition parity (x y z : Z) : Z := Z.lxor (Z.lxor x y) z.
Definition majority (x y z : Z) : Z := Z.lxor (Z.lxor (Z.land x y) (Z.land x z)) (Z.land y z).

(** The constants are digits of roots: [root k n v] is the [k]-th root of [v],
    rounded down, if it has at most [n] bits. *)
Fixpoint root_from (k : Z) (n : nat) (v acc : Z) : Z :=
  match n with
  | O => acc
  | S n => let x := acc + 2 ^ Z.of_nat n in root_from k n v (if x ^ k <=? v then x else acc)
  end.
Definition root (k : Z) (n : nat) (v : Z) : Z := root_from k n v 0.
(** The [n] bits after the point of the [k]-th root of [p]. *)
Definition frac (k n p : Z) : Z := root k 80 (p * 2 ^ (n * k)) mod 2 ^ n.
Definition primes : list Z :=
  filter (fun p => Forall (fun d => p mod d <> 0) (seqZ 2 (p - 2))) (seqZ 2 310).

(** The message schedule: the words of the block, continued to [n] words. *)
Fixpoint schedule (next : list Z -> Z -> Z) (n : nat) (W : list Z) : list Z :=
  match n with O => W | S n => schedule next n (W ++ [next W (zlen W)]) end.

(** *** SHA-1 *)
Definition W1 (W : list Z) (t : Z) : Z :=
  rol32 (Z.lxor (Z.lxor (Z.lxor (at_ W (t - 3)) (at_ W (t - 8))) (at_ W (t - 14))) (at_ W (t - 16))) 1.
Definition f (t : Z) : Z -> Z -> Z -> Z :=
  if t <? 20 then choose else if t <? 40 then parity else if t <? 60 then majority else parity.
(** The square roots of 2, 3, 5 and 10, times 2^30. *)
Definition k1 (t : Z) : Z :=
  root 2 33 ((if t <? 20 then 2 else if t <? 40 then 3 else if t <? 60 then 5 else 10) * 2 ^ 60).
Definition round1 (W : list Z) (r : Z * Z * Z * Z * Z) (t : Z) : Z * Z * Z * Z * Z :=
  let '(a, b, c, d, e) := r in (u32 (rol32 a 5 + f t b c d + e + k1 t + at_ W t), a, rol32 b 30, c, d).
Definition compress1 (H x : list Z) : list Z :=
  let W := schedule W1 64 (be_words x) in
  let '(a, b, c, d, e) := foldl (round1 W) (at_ H 0, at_ H 1, at_ H 2, at_ H 3, at_ H 4) (seqZ 0 80) in
  [u32 (at_ H 0 + a); u32 (at_ H 1 + b); u32 (at_ H 2 + c); u32 (at_ H 3 + d); u32 (at_ H 4 + e)].
Definition sha1 (msg : list Z) : list Z :=
  concat (be4 <$> blocks compress1 [0x67452301; 0xefcdab89; 0x98badcfe; 0x10325476; 0xc3d2e1f0] (pad_message be8 msg)).

(** *** SHA-256 *)
Definition Sigma0 (x : Z) : Z := Z.lxor (Z.lxor (ror32 x 2) (ror32 x 13)) (ror32 x 22).
Definition Sigma1 (x : Z) : Z := Z.lxor (Z.lxor (ror32 x 6) (ror32 x 11)) (ror32 x 25).
Definition sigma0 (x : Z) : Z := Z.lxor (Z.lxor (ror32 x 7) (ror32 x 18)) (Z.shiftr x 3).
Definition sigma1 (x : Z) : Z := Z.lxor (Z.lxor (ror32 x 17) (ror32 x 19)) (Z.shiftr x 10).
Definition W256 (W : list Z) (t : Z) : Z :=
  u32 (sigma1 (at_ W (t - 2)) + at_ W (t - 7) + sigma0 (at_ W (t - 15)) + at_ W (t - 16)).
(** The cube roots of the first 64 primes. *)
Definition k256 : list Z := frac 3 32 <$> take 64 primes.
Definition round256 (W : list Z) (r : Z * Z * Z * Z * Z * Z * Z * Z) (t : Z) : Z * Z * Z * Z * Z * Z * Z * Z :=
  let '(a, b, c, d, e, f, g, h) := r in
  let T1 := h + Sigma1 e + choose e f g + at_ k256 t + at_ W t in
  let T2 := Sigma0 a + majority a b c in
  (u32 (T1 + T2), a, b, c, u32 (d + T1), e, f, g).
Definition compress256 (H x : list Z) : list Z :=
  let W := schedule W256 48 (be_words x) in
  let '(a, b, c, d, e, f, g, h) :=
    foldl (round256 W) (at_ H 0, at_ H 1, at_ H 2, at_ H 3, at_ H 4, at_ H 5, at_ H 6, at_ H 7) (seqZ 0 64) in
  [u32 (at_ H 0 + a); u32 (at_ H 1 + b); u32 (at_ H 2 + c); u32 (at_ H 3 + d);
   u32 (at_ H 4 + e); u32 (at_ H 5 + f); u32 (at_ H 6 + g); u32 (at_ H 7 + h)].
(** The square roots of the first eight primes; SHA-224 takes the second 32 bits of
    those of the next eight. *)
Definition H256 : list Z := frac 2 32 <$> take 8 primes.
Definition H224 : list Z := (fun p => frac 2 64 p mod 2 ^ 32) <$> take 8 (drop 8 primes).
Definition sha256 (msg : list Z) : list Z := concat (be4 <$> blocks compress256 H256 (pad_message be8 msg)).
Definition sha224 (msg : list Z) : list Z := take 28 (concat (be4 <$> blocks compress256 H224 (pad_message be8 msg))).
End Fips.

(** [root] is the root. *)
Lemma root_from_spec k n v acc : 0 < k -> 0 <= acc -> acc ^ k <= v < (acc + 2 ^ Z.of_nat n) ^ k ->
  0 <= Fips.root_from k n v acc /\ Fips.root_from k n v acc ^ k <= v < (Fips.root_from k n v acc + 1) ^ k.
Proof.
  intros Hk. revert acc. induction n as [|n IH]; intros acc Ha Hv; [done|]. cbn [Fips.root_from].
  assert (2 ^ Z.of_nat (S n) = 2 * 2 ^ Z.of_nat n) as E by (rewrite Nat2Z.inj_succ, Z.pow_succ_r; lia).
  assert (0 < 2 ^ Z.of_nat n) by (apply Z.pow_pos_nonneg; lia). rewrite E in Hv.
  destruct (Z.leb_spec ((acc + 2 ^ Z.of_nat n) ^ k) v); apply IH; try lia.
  replace (acc + 2 ^ Z.of_nat n + 2 ^ Z.of_nat n) with (acc + 2 * 2 ^ Z.of_nat n); lia.
Qed.
Lemma root_spec k n v : 0 < k -> 0 <= v < (2 ^ Z.of_nat n) ^ k -> Fips.root k n v ^ k <= v < (Fips.root k n v + 1) ^ k.
Proof. intros. apply root_from_spec; [done|done|]. by rewrite Z.pow_0_l, Z.add_0_l. Qed.

(** The constants of the code are those of the standard. *)
Lemma K256_eq : Sha256.K = Fips.k256.
Proof. vm_compute. reflexivity. Qed.
Lemma H256_eq : Sha256.SHA256_H = Fips.H256.
Proof. vm_compute. reflexivity. Qed.
Lemma H224_eq : Sha256.SHA224_H = Fips.H224.
Proof. vm_compute. reflexivity. Qed.

(** *** The logical functions *)
Lemma Ch_eq x y z : Z.lxor z (Z.land x (Z.lxor y z)) = Fips.choose x y z.
Proof. unfold Fips.choose. bits_eq. Qed.
Lemma Maj_eq x y z : Z.lor (Z.land x y) (Z.land z (Z.lor x y)) = Fips.majority x y z.
Proof. unfold Fips.majority. bits_eq. Qed.
Lemma f3_eq x y z : Sha1.f3 x y z = u32 (Fips.majority x y z).
Proof.
  unfold Sha1.f3, Fips.majority. f_equal. rewrite Z.add_nocarry_lxor; bits_eq.
Qed.

(** *** The compression functions *)
Lemma expand_eq n : forall W, Sha1.expand n (zlen W - 16) W = Fips.schedule Fips.W1 n W.
Proof.
  induction n as [|n IH]; intros W; [done|]. cbn [Sha1.expand Fips.schedule]. rewrite <- IH, zlen_app. change (zlen [_]) with 1.
  unfold Fips.W1. do 2 f_equal; [lia|]. do 2 f_equal. do 3 f_equal; f_equal; lia.
Qed.
Lemma rounds_eq n f K W : forall i r,
  (forall t x y z, i <= t < i + Z.of_nat n -> u32 (f x y z) = u32 (Fips.f t x y z) /\ K = Fips.k1 t) ->
  Sha1.rounds n f K W i r = foldl (Fips.round1 W) r (seqZ i (Z.of_nat n)).
Proof.
  induction n as [|n IH]; intros i r H; [done|]. rewrite seqZ_cons by lia. destruct r as [[[[a b] c] d] e]. cbn [Sha1.rounds foldl].
  replace (Z.pred (Z.of_nat (S n))) with (Z.of_nat n) by lia. rewrite IH by (intros; apply H; lia). f_equal.
  unfold Fips.round1. do 4 f_equal. destruct (H i b c d ltac:(lia)) as [E1 E2]. rewrite E2 in *. unfold wrap in *. clear H.
  rewrite <- !Z.add_assoc, Z.add_mod, E1, <- Z.add_mod by done. f_equal. lia.
Qed.
(** The four groups of rounds have the functions and constants of the standard. *)
Ltac group :=
  let t := fresh "t" in let Ht := fresh "Ht" in
  intros t ? ? ? Ht; cbn in Ht; unfold Fips.f, Fips.k1; 
  repeat match goal with |- context [t <? ?k] => destruct (Z.ltb_spec t k); try lia end;
  (split; [first [rewrite f3_eq; unfold wrap; by rewrite Z.mod_mod by lia | by unfold Sha1.f1; rewrite Ch_eq | done] | vm_compute; reflexivity]).
Lemma sha_transform_eq s x : Sha1.sha_transform s x = Fips.compress1 s x.
Proof.
  unfold Sha1.sha_transform, Fips.compress1. 
  rewrite (expand_eq 64 (be_words x) : Sha1.expand 64 0 (be_words x) = _). set (W := Fips.schedule _ _ _).
  change (seqZ 0 80) with (seqZ 0 20 ++ seqZ 20 20 ++ seqZ 40 20 ++ seqZ 60 20). rewrite !foldl_app.
  rewrite (rounds_eq 20 Sha1.f1 Sha1.K1), (rounds_eq 20 Sha1.f2 Sha1.K2), (rounds_eq 20 Sha1.f3 Sha1.K3), (rounds_eq 20 Sha1.f2 Sha1.K4) by group.
  reflexivity.
Qed.

Lemma blend_eq n : forall W, Sha256.blend n (zlen W) W = Fips.schedule Fips.W256 n W.
Proof.
  induction n as [|n IH]; intros W; [done|]. cbn [Sha256.blend Fips.schedule]. rewrite <- IH, zlen_app. done.
Qed.
(** One step of the unrolled loop. *)
Lemma round256_eq W t a b c d e f g h t1 t2 d' h' :
  t1 = u32 (h + Sha256.e1 e + Sha256.Ch e f g + at_ Sha256.K t + at_ W t) -> t2 = u32 (Sha256.e0 a + Sha256.Maj a b c) ->
  d' = u32 (d + t1) -> h' = u32 (t1 + t2) -> Fips.round256 W (a, b, c, d, e, f, g, h) t = (h', a, b, c, d', e, f, g).
Proof.
  intros -> -> -> ->. unfold Fips.round256. rewrite <- K256_eq, <- Ch_eq, <- Maj_eq. unfold wrap. rewrite <- Z.add_mod, Z.add_mod_idemp_r by lia.
  done.
Qed.
Lemma let_abs {A B} (v : A) (b : A -> B) (r : B) : (forall y, y = v -> b y = r) -> (let x := v in b x) = r.
Proof. intros H. by apply H. Qed.
Ltac next_let := lazymatch goal with |- (let x := ?v in @?b x) = ?r => apply (let_abs v b r); let y := fresh x in let E := fresh "E" in intros y E; cbv beta end.
Lemma eight_rounds_eq W i r : Sha256.eight_rounds W i r = foldl (Fips.round256 W) r (seqZ i 8).
Proof.
  destruct r as [[[[[[[a b] c] d] e] f] g] h].
  replace (seqZ i 8) with [i; i + 1; i + 2; i + 3; i + 4; i + 5; i + 6; i + 7]
    by (symmetry; change 8 with (Z.succ 7); by rewrite !seqZ_cons by lia; cbn; rewrite <- !Z.add_1_r, <- !Z.add_assoc).
  cbv beta delta [Sha256.eight_rounds] match. repeat next_let. cbn [foldl].
  repeat (erewrite round256_eq by eassumption). done.
Qed.
Lemma all_rounds_eq n W : forall i r, Sha256.all_rounds n W i r = foldl (Fips.round256 W) r (seqZ i (8 * Z.of_nat n)).
Proof.
  induction n as [|n IH]; intros i r; [done|]. cbn [Sha256.all_rounds].
  rewrite IH, eight_rounds_eq. replace (8 * Z.of_nat (S n)) with (8 + 8 * Z.of_nat n) by lia. by rewrite seqZ_app, foldl_app by lia.
Qed.
Lemma sha256_transform_eq s x : Sha256.sha256_transform s x = Fips.compress256 s x.
Proof.
  unfold Sha256.sha256_transform, Fips.compress256. change 16 with (zlen (be_words x)). by rewrite blend_eq, all_rounds_eq.
Qed.

(** ** Padding *)
Lemma zlen_be8 v : zlen (be8 v) = 8.
Proof. done. Qed.
Definition pad_length (n : Z) : Z := if n mod 64 <? 56 then 56 - n mod 64 else 64 + 56 - n mod 64.
Lemma pad_length_eq n : 0 <= n -> pad_length n = 1 + pad_zeros n /\ 0 <= pad_zeros n < 64.
Proof. intros. unfold pad_length, pad_zeros. case_if E; b2p; dlia. Qed.
Lemma sha_pad_eq n : 0 <= n -> slice sha_padding 0 (pad_length n) = 0x80 :: replicate (Z.to_nat (pad_zeros n)) 0.
Proof.
  intros H. destruct (pad_length_eq n H) as [-> Hz]. unfold slice, sha_padding. rewrite drop_0.
  replace (Z.to_nat (1 + pad_zeros n)) with (S (Z.to_nat (pad_zeros n))) by lia. cbn [take]. rewrite take_replicate. do 2 f_equal. lia.
Qed.
Lemma pad_message_eq msg : (msg ++ slice sha_padding 0 (pad_length (zlen msg))) ++ be8 (8 * zlen msg) = pad_message be8 msg.
Proof. rewrite sha_pad_eq by apply zlen_nonneg. unfold pad_message. by rewrite <- app_assoc. Qed.

(** ** SHA-1 implements the interface *)
Section Sha1Alg.
Import Sha1.
#[local] Opaque sha_transform Fips.compress1.
Definition sha1_fed (c : sha1_ctx) (msg : list Z) : Prop :=
  count c = zlen msg /\ holds sha_transform SHA1_H (state c) (buffer c) 64 msg.

Lemma wp_buffer_put o x c (Q : unit -> sha1_ctx -> Prop) : 0 <= o -> o + zlen x <= zlen (buffer c) ->
  Q tt (Sha1Ctx (count c) (state c) (splice (buffer c) o x)) -> wp (buffer_put o x) Q c.
Proof. intros H1 H2 HQ. eapply wp_exact; [|exact HQ]. unfold buffer_put. by rewrite poke_eq. Qed.

(** The loop goes on from a state in which the next block is in the buffer or in the
    data, and is the next of the message. *)
Definition sha1_inside (msg D : list Z) (x : Z * option Z) (c : sha1_ctx) : Prop :=
  count c = zlen (msg ++ D) /\ zlen (buffer c) = 64 /\
  exists i, x.1 = u32 (i - 64) /\ 0 <= i <= zlen D /\
    match x.2 with
    | None => 0 < i < 64 /\ rest sha_transform SHA1_H msg D (sha_transform (state c) (slice (buffer c) 0 64)) i
    | Some o => o = i - 64 /\ 0 <= o /\ rest sha_transform SHA1_H msg D (sha_transform (state c) (slice D o 64)) i
    end.
Lemma sha1_loop msg D x c : sha1_inside msg D x c -> zlen D < 2 ^ 29 ->
  wp (while (1 + length D) (transform_round D) x)
    (fun i c' => count c' = zlen (msg ++ D) /\ zlen (buffer c') = 64 /\ 0 <= i <= zlen D /\ zlen D - i < 64 /\
      rest sha_transform SHA1_H msg D (state c') i) c.
Proof.
  intros H HD. apply (wp_while (fun x c => sha1_inside msg D x c) _ (fun x => Z.to_nat (zlen D - u32 (x.1 + 64)))); [done| |].
  { pose proof (Z.mod_pos_bound (x.1 + 64) (2 ^ 32) ltac:(lia)). unfold wrap, zlen in *. lia. }
  clear x c H. intros [done src] c (Hc & Hb & i & Hd & Hi & Hr). cbn [fst snd] in *. unfold transform_round.
  assert (u32 (done + 64) = i) as Ei by (subst done; ulia). rewrite Ei, (u32_id (i + 63)) by lia.
  apply wp_bind. eapply wp_exact; [reflexivity|]. cbv beta. apply wp_bind.
  assert (Htail : forall X, rest sha_transform SHA1_H msg D (sha_transform (state c) X) i ->
    wp (let* _ := put (Sha1Ctx (count c) (sha_transform (state c) X) (buffer c)) in
        ret (if i + 63 <? zlen D then inl (i, Some i) else inr i))
      (fun o c' => match o with
       | inl x' => sha1_inside msg D x' c' /\ (Z.to_nat (zlen D - u32 (x'.1 + 64)) < Z.to_nat (zlen D - i))%nat
       | inr i => count c' = zlen (msg ++ D) /\ zlen (buffer c') = 64 /\ 0 <= i <= zlen D /\ zlen D - i < 64 /\
           rest sha_transform SHA1_H msg D (state c') i
       end) c).
  { intros X HX. apply wp_bind. eapply wp_exact; [reflexivity|]. cbv beta. apply wp_ret. destruct (Z.ltb_spec (i + 63) (zlen D)).
    - split; [|cbn; rewrite u32_id; lia]. split; [done|]. split; [done|]. exists (i + 64). cbn. rewrite u32_id by lia.
      split; [lia|]. split; [lia|]. split; [lia|]. split; [lia|]. apply rest_step; [done|lia|lia].
    - cbn. split; [done|]. split; [done|]. split; [done|]. split; [lia|done]. }
  destruct src as [o|]; destruct Hr as [Ho Hr].
  - destruct Hr as [Ho' Hr]. apply wp_peek; [lia|lia|lia|]. by apply Htail.
  - apply wp_peek; [lia|lia|lia|]. by apply Htail.
Qed.

Lemma sha1_update_fed c msg D : sha1_fed c msg -> zlen D < 2 ^ 29 -> zlen (msg ++ D) < 2 ^ 61 ->
  wp (sha1_update D) (fun _ c' => sha1_fed c' (msg ++ D)) c.
Proof.
  intros [Hc Hh] HD Hl. pose proof Hh as (_ & Hb & _). unfold sha1_update. rewrite zlen_app in Hl. pose proof (zlen_nonneg msg).
  pose proof (zlen_nonneg D).
  apply wp_bind. eapply wp_exact; [reflexivity|]. cbv beta zeta. rewrite land_63, Hc. set (n := zlen msg mod 64).
  assert (0 <= n < 64) by (apply Z.mod_pos_bound; lia). apply wp_bind. eapply wp_exact; [reflexivity|]. cbv beta.
  rewrite (u64_id (zlen msg + _)), (u32_id (n + _)), <- zlen_app by lia. set (c1 := Sha1Ctx _ _ _).
  destruct (Z.ltb_spec 63 (n + zlen D)).
  - apply wp_bind. apply (wp_mono _ (fun x c2 => sha1_inside msg D x c2)).
    + destruct (Z.eqb_spec n 0) as [Hn|Hn]; cbn [negb].
      * apply wp_ret. split; [done|]. split; [done|]. exists 64. cbn. split; [done|]. split; [lia|]. split; [done|]. split; [done|].
        apply (rest_step _ _ _ _ _ 0); [by eapply rest_start|done|lia].
      * assert (u32 (u32 (- n) + 64) = 64 - n) as -> by ulia. destruct (rest_first _ _ _ _ _ _ D n Hh eq_refl) as [E1 E2]; [lia|done|].
        apply wp_bind. apply wp_peek; [lia|lia|lia|]. apply wp_bind. apply wp_buffer_put; [lia|rewrite zlen_slice; cbn; lia|].
        apply wp_ret. split; [done|]. split; [done|]. exists (64 - n). cbn. split; [f_equal; lia|]. split; [lia|]. split; [lia|done].
    + intros x c2 Hx. apply wp_bind. eapply wp_mono; [by apply sha1_loop|]. intros i c3 (Hc3 & Hb3 & Hi & Hs & Hr).
      rewrite u32_id by lia. apply wp_bind. apply wp_peek; [lia|lia|lia|]. apply wp_buffer_put; [lia|rewrite zlen_slice; lia|].
      split; [done|]. by apply rest_done.
  - apply wp_bind. apply wp_peek; [lia|lia|lia|]. rewrite slice_all by done.
    apply wp_buffer_put; [lia|cbn; lia|]. split; [done|]. apply holds_short; [done|lia|lia].
Qed.
Lemma sha1_final_fed c msg : sha1_fed c msg -> zlen msg < 2 ^ 61 - 2 ^ 8 ->
  wp sha1_final (fun d c' => d = Fips.sha1 msg) c.
Proof.
  intros Hf Hl. pose proof (zlen_nonneg msg). pose proof Hf as [Hc _]. unfold sha1_final. apply wp_bind. eapply wp_exact; [reflexivity|].
  cbv beta zeta.
  rewrite land_63, Hc, Z.shiftl_mul_pow2, u64_id, (u32_id (_ mod _)) by dlia. fold (pad_length (zlen msg)).
  destruct (pad_length_eq (zlen msg)) as [Hp Hz]; [done|]. apply wp_bind. apply wp_peek; [done|lia|change (zlen sha_padding) with 64; lia|].
  assert (zlen (slice sha_padding 0 (pad_length (zlen msg))) = 1 + pad_zeros (zlen msg)) as Hs by (rewrite Hp; apply zlen_slice; [done|lia|change (zlen sha_padding) with 64; lia]).
  apply wp_bind. eapply wp_mono; [apply sha1_update_fed; [done|lia|rewrite zlen_app; lia]|]. intros [] c1 H1. cbv beta.
  apply wp_bind. eapply wp_mono; [apply sha1_update_fed; [done|done|rewrite !zlen_app, zlen_be8; lia]|]. intros [] c2 [_ (H2 & _)]. cbv beta.
  apply wp_bind. eapply wp_exact; [reflexivity|]. apply wp_bind. eapply wp_exact; [reflexivity|]. apply wp_ret.
  rewrite Z.mul_comm, pad_message_eq in H2. 
  rewrite (blocks_ext _ _ _ _ sha_transform_eq) in H2. by rewrite H2.
Qed.
End Sha1Alg.

#[global] Instance sha1_alg : ShashAlg Sha1.sha1_ctx.
Proof.
  refine {| h_init := Sha1.sha1_init; h_update := Sha1.sha1_update; h_final := Sha1.sha1_final;
    digest := Fips.sha1; ready := fun _ => True; fed := sha1_fed; init_fed := _; update_fed := _; final_fed := _ |}.
  - intros c _. eexists. split; [reflexivity|]. split; [done|]. by apply holds_nil.
  - intros c msg d Hf Hd Hl. destruct (sha1_update_fed c msg d Hf Hd Hl) as ([] & c' & E & H). eauto.
  - intros c msg Hf Hl. destruct (sha1_final_fed c msg Hf Hl) as (x & c' & E & ->). eauto.
Defined.

(** ** SHA-256 and SHA-224 implement the interface *)
Section Sha256Alg.
Import Sha256.
#[local] Opaque sha256_transform Fips.compress256.
Context (iv : list Z).
Definition sha256_fed (c : sha256_ctx) (msg : list Z) : Prop :=
  count0 c = u32 (8 * zlen msg) /\ count1 c = u32 (8 * zlen msg / 2 ^ 32) /\ holds sha256_transform iv (state c) (buf c) 128 msg.

Lemma wp_buf_put o x c (Q : unit -> sha256_ctx -> Prop) : 0 <= o -> o + zlen x <= zlen (buf c) ->
  Q tt (Sha256Ctx (count0 c) (count1 c) (state c) (splice (buf c) o x)) -> wp (buf_put o x) Q c.
Proof. intros H1 H2 HQ. eapply wp_exact; [|exact HQ]. unfold buf_put. by rewrite poke_eq. Qed.

(** The two counters are a 64-bit number of bits. *)
Lemma add_bits_eq len c m : count0 c = u32 (8 * m) -> count1 c = u32 (8 * m / 2 ^ 32) -> 0 <= m -> 0 <= len < 2 ^ 29 ->
  add_bits len c = Some (tt, Sha256Ctx (u32 (8 * (m + len))) (u32 (8 * (m + len) / 2 ^ 32)) (state c) (buf c)).
Proof.
  intros H0 H1 Hm Hl. unfold add_bits. rewrite Z.shiftl_mul_pow2, Z.shiftr_div_pow2, H0, H1, (u32_id (len * 2 ^ 3)) by lia.
  rewrite (Z.div_small len) by lia. do 3 f_equal; [ulia|]. case_if E; b2p; ulia.
Qed.
Lemma index_eq m : 0 <= m -> Z.land (Z.shiftr (u32 (8 * m)) 3) 0x3f = m mod 64.
Proof. intros. rewrite land_63, Z.shiftr_div_pow2 by lia. ulia. Qed.

Definition sha256_after (msg D : list Z) (i : Z) (c : sha256_ctx) : Prop :=
  count0 c = u32 (8 * zlen (msg ++ D)) /\ count1 c = u32 (8 * zlen (msg ++ D) / 2 ^ 32) /\ zlen (buf c) = 128 /\
  0 <= i <= zlen D /\ rest sha256_transform iv msg D (state c) i.
Lemma sha256_loop msg D i c : sha256_after msg D i c -> zlen D < 2 ^ 29 ->
  wp (while (1 + length D) (data_round D) i) (fun i c' => sha256_after msg D i c' /\ zlen D - i < 64) c.
Proof.
  intros H HD.
  apply (wp_while (sha256_after msg D) _ (fun i => Z.to_nat (zlen D - i))); [done|destruct H as (_ & _ & _ & ? & _); unfold zlen in *; lia|].
  clear i c H. intros i c (H0 & H1 & Hb & Hi & Hr). unfold data_round. rewrite u32_id by lia. destruct (Z.ltb_spec (i + 63) (zlen D)).
  - apply wp_bind, wp_peek; [lia|lia|lia|]. apply wp_bind. eapply wp_exact; [reflexivity|]. apply wp_ret. rewrite u32_id by lia.
    split; [|lia]. repeat (split; [done||lia|]). apply rest_step; [done|lia|lia].
  - apply wp_ret. split; [|lia]. by repeat (split; [done|]).
Qed.

Lemma sha256_update_fed c msg D : sha256_fed c msg -> zlen D < 2 ^ 29 -> zlen (msg ++ D) < 2 ^ 61 ->
  wp (sha256_update D) (fun _ c' => sha256_fed c' (msg ++ D)) c.
Proof.
  intros (H0 & H1 & Hh) HD Hl. pose proof Hh as (_ & Hb & _). unfold sha256_update. pose proof (zlen_nonneg msg). pose proof (zlen_nonneg D).
  apply wp_bind. eapply wp_exact; [reflexivity|]. cbv beta zeta. rewrite H0, index_eq by done. set (n := zlen msg mod 64).
  assert (0 <= n < 64) by (apply Z.mod_pos_bound; lia). apply wp_bind. eapply wp_exact; [by apply (add_bits_eq _ _ (zlen msg))|].
  cbv beta. rewrite <- zlen_app, (u32_id (64 - n)) by lia. destruct (Z.leb_spec (64 - n) (zlen D)).
  - destruct (rest_first _ _ _ _ _ _ D n Hh eq_refl) as [E1 E2]; [lia|lia|].
    apply wp_bind, wp_peek; [lia|lia|lia|]. apply wp_bind, wp_buf_put; [lia|rewrite zlen_slice; cbn; lia|].
    apply wp_bind. eapply wp_exact; [reflexivity|]. apply wp_bind. cbn [count0 count1 state buf]. apply wp_peek; [lia|lia|lia|].
    apply wp_bind. eapply wp_exact; [reflexivity|]. apply wp_bind. eapply wp_mono; [apply sha256_loop; [|done]|].
    { repeat (split; [done||lia|]). done. }
    intros i c2 [(H0' & H1' & Hb' & Hi & Hr) Hs]. rewrite u32_id by lia. apply wp_bind, wp_peek; [lia|lia|lia|].
    apply wp_buf_put; [lia|rewrite zlen_slice; lia|]. split; [done|]. split; [done|]. apply rest_done; [done|lia|lia|done|lia].
  - apply wp_bind, wp_peek; [lia|lia|lia|]. rewrite slice_all by done. apply wp_buf_put; [lia|cbn; lia|].
    split; [done|]. split; [done|]. apply holds_short; [done|lia|lia].
Qed.
Lemma sha256_final_fed c msg : sha256_fed c msg -> zlen msg < 2 ^ 61 - 2 ^ 8 ->
  wp sha256_final (fun d c' => d = concat (be4 <$> blocks Fips.compress256 iv (pad_message be8 msg)) /\ zlen (buf c') = 128) c.
Proof.
  intros Hf Hl. pose proof (zlen_nonneg msg). pose proof Hf as (H0 & H1 & _). unfold sha256_final. apply wp_bind. eapply wp_exact; [reflexivity|].
  cbv beta zeta.
  rewrite H0, H1, index_eq by done. fold (pad_length (zlen msg)). change (be4 _ ++ be4 _) with (be8 (8 * zlen msg)).
  destruct (pad_length_eq (zlen msg)) as [Hp Hz]; [done|]. apply wp_bind, wp_peek; [done|lia|change (zlen sha_padding) with 64; lia|].
  assert (zlen (slice sha_padding 0 (pad_length (zlen msg))) = 1 + pad_zeros (zlen msg)) as Hs by (rewrite Hp; apply zlen_slice; [done|lia|change (zlen sha_padding) with 64; lia]).
  apply wp_bind. eapply wp_mono; [apply sha256_update_fed; [done|lia|rewrite zlen_app; lia]|]. intros [] c1 Hc1. cbv beta.
  apply wp_bind. eapply wp_mono; [apply sha256_update_fed; [done|done|rewrite !zlen_app, zlen_be8; lia]|]. intros [] c2 (_ & _ & H2 & _). cbv beta.
  apply wp_bind. eapply wp_exact; [reflexivity|]. apply wp_bind. eapply wp_exact; [reflexivity|]. apply wp_ret. split; [|done].
  rewrite pad_message_eq in H2. rewrite (blocks_ext _ _ _ _ sha256_transform_eq) in H2. by rewrite H2.
Qed.
End Sha256Alg.

Definition sha256_alg : ShashAlg Sha256.sha256_ctx.
Proof.
  refine {| h_init := Sha256.sha256_init; h_update := Sha256.sha256_update; h_final := Sha256.sha256_final;
    digest := Fips.sha256; ready := fun c => zlen (Sha256.buf c) = 128; fed := sha256_fed Sha256.SHA256_H;
    init_fed := _; update_fed := _; final_fed := _ |}.
  - intros c Hb. eexists. split; [reflexivity|]. split; [done|]. split; [done|]. by apply holds_nil.
  - intros c msg d Hf Hd Hl. destruct (sha256_update_fed _ c msg d Hf Hd Hl) as ([] & c' & E & H). eauto.
  - intros c msg Hf Hl. destruct (sha256_final_fed _ c msg Hf Hl) as (x & c' & E & -> & Hb). exists c'. rewrite E, H256_eq. done.
Defined.
Definition sha224_alg : ShashAlg Sha256.sha256_ctx.
Proof.
  refine {| h_init := Sha256.sha224_init; h_update := Sha256.sha256_update; h_final := Sha256.sha224_final;
    digest := Fips.sha224; ready := fun c => zlen (Sha256.buf c) = 128; fed := sha256_fed Sha256.SHA224_H;
    init_fed := _; update_fed := _; final_fed := _ |}.
  - intros c Hb. eexists. split; [reflexivity|]. split; [done|]. split; [done|]. by apply holds_nil.
  - intros c msg d Hf Hd Hl. destruct (sha256_update_fed _ c msg d Hf Hd Hl) as ([] & c' & E & H). eauto.
  - intros c msg Hf Hl. destruct (sha256_final_fed _ c msg Hf Hl) as (x & c' & E & -> & Hb). exists c'.
    unfold Sha256.sha224_final, bind. rewrite E, H224_eq. done.
Defined.

(** The length is lost when a single piece has 2^29 bytes or more: the upper bits of
    [len << 3] are added to the counter only together with a carry. *)
Lemma sha256_length_lost c : Sha256.count0 c = 0 ->
  Sha256.add_bits (2 ^ 29) c = Some (tt, Sha256.Sha256Ctx 0 (Sha256.count1 c) (Sha256.state c) (Sha256.buf c)).
Proof. intros H. unfold Sha256.add_bits. rewrite H. done. Qed.

(** The reference values of the standard for the message [abc]. *)
Example sha1_abc : Fips.sha1 [97; 98; 99] =
  [0xa9; 0x99; 0x3e; 0x36; 0x47; 0x06; 0x81; 0x6a; 0xba; 0x3e; 0x25; 0x71; 0x78; 0x50; 0xc2; 0x6c; 0x9c; 0xd0; 0xd8; 0x9d].
Proof. vm_compute. reflexivity. Qed.
Example sha256_abc : Fips.sha256 [97; 98; 99] =
  [0xba; 0x78; 0x16; 0xbf; 0x8f; 0x01; 0xcf; 0xea; 0x41; 0x41; 0x40; 0xde; 0x5d; 0xae; 0x22; 0x23;
   0xb0; 0x03; 0x61; 0xa3; 0x96; 0x17; 0x7a; 0x9c; 0xb4; 0x10; 0xff; 0x61; 0xf2; 0x00; 0x15; 0xad].
Proof. vm_compute. reflexivity. Qed.

(** C23. However a message is cut into pieces for the update function, SHA-1, SHA-224 and
    SHA-256 return the digest that the standard defines for the whole message, from any
    context on: the unrolled rounds, the constants, the buffering of partial blocks, the
    32-bit pair of bit counters and the padding all agree with it.  Pieces are shorter than
    2^29 bytes and the message than 2^61. *)
Theorem sha_correct (pieces : list (list Z)) (c1 : Sha1.sha1_ctx) (c2 : Sha256.sha256_ctx)
    (Hs : Forall (fun d => zlen d < 2 ^ 29) pieces) (Hl : zlen (concat pieces) < 2 ^ 61 - 2 ^ 8) (Hb : zlen (Sha256.buf c2) = 128) :
  (exists c', hash_pieces Sha1.sha1_init Sha1.sha1_update Sha1.sha1_final pieces c1 = Some (Fips.sha1 (concat pieces), c')) /\
  (exists c', hash_pieces Sha256.sha256_init Sha256.sha256_update Sha256.sha256_final pieces c2 = Some (Fips.sha256 (concat pieces), c')) /\
  (exists c', hash_pieces Sha256.sha224_init Sha256.sha256_update Sha256.sha224_final pieces c2 = Some (Fips.sha224 (concat pieces), c')).
Proof.
  destruct (hash_pieces_spec (alg := sha1_alg) c1 pieces I Hs Hl) as (d1 & E1 & _).
  destruct (hash_pieces_spec (alg := sha256_alg) c2 pieces Hb Hs Hl) as (d2 & E2 & _).
  destruct (hash_pieces_spec (alg := sha224_alg) c2 pieces Hb Hs Hl) as (d3 & E3 & _).
  split; [by exists d1|]. split; [by exists d2|by exists d3].
Qed.

Lemma sha_correct_witness : exists c', hash_pieces Sha1.sha1_init Sha1.sha1_update Sha1.sha1_final [[97]; replicate 70 98; []; [99]]
    (Sha1.Sha1Ctx 0 [] []) = Some (Fips.sha1 (97 :: replicate 70 98 ++ [99]), c').
Proof.
  apply (sha_correct [[97]; replicate 70 98; []; [99]] (Sha1.Sha1Ctx 0 [] []) (Sha256.Sha256Ctx 0 0 [] (replicate 128 0))).
  - repeat constructor; vm_compute; reflexivity.
  - vm_compute. reflexivity.
  - vm_compute. reflexivity.
Defined.
