(* ===== verification/Md.v ===== *)
(** * MD4 and MD5

    [crypto/md4.c] and [crypto/md5.c].  The two modules differ in the compression
    function only; the update and final functions are the same code, which is
    modelled once with the compression function as an argument.  The block of the
    context is kept as its 64 bytes, which on a little-endian machine
    [le32_to_cpu_array] does not change.

    The compression functions are compared with the steps as RFC 1320 and RFC 1321
    describe them ([Rfc]): one step that moves all registers, the order of the words
    by formulas, and the constants of MD5 as digits of the sine. *)

From Stdlib Require Import ZArith Lia.
From stdpp Require Import base tactics numbers list gmap option.
From S2P Require Import Prelude Bits Cipher Digest.

Abbreviation regs := (Z * Z * Z * Z)%type.
(** The words of a block, and the eight bytes of a number. *)
Definition le_words (x : list Z) : list Z := (fun i => le_word (slice x (4 * Z.of_nat i) 4)) <$> seq 0 16.
Definition le8 (v : Z) : list Z := le4 (v mod 2 ^ 32) ++ le4 (v / 2 ^ 32 mod 2 ^ 32).
Definition add_regs (H : list Z) (r : regs) : list Z :=
  let '(a, b, c, d) := r in [u32 (at_ H 0 + a); u32 (at_ H 1 + b); u32 (at_ H 2 + c); u32 (at_ H 3 + d)].
Definition to_regs (H : list Z) : regs := (at_ H 0, at_ H 1, at_ H 2, at_ H 3).

(** ** The compression function of MD5 *)
Definition md5_F1 (x y z : Z) : Z := Z.lxor z (Z.land x (Z.lxor y z)).
Definition md5_F2 (x y z : Z) : Z := md5_F1 z x y.
Definition md5_F3 (x y z : Z) : Z := Z.lxor (Z.lxor x y) z.
Definition md5_F4 (x y z : Z) : Z := Z.lxor y (Z.lor x (not32 z)).
(** [w += f(x, y, z) + in, w = (w<<s | w>>(32-s)) + x], with the index of the input
    word, the constant and the shift in a row of a table. *)
Definition MD5STEP (f : Z -> Z -> Z -> Z) (input : list Z) (w x y z : Z) (row : Z * Z * Z) : Z :=
  let '(k, t, s) := row in
  let w := u32 (w + (f x y z + (at_ input k + t))) in
  u32 (rol32 w s + x).
Fixpoint md5_steps (f : Z -> Z -> Z -> Z) (input : list Z) (tbl : list (Z * Z * Z)) (r : regs) : regs :=
  match tbl with
  | r0 :: r1 :: r2 :: r3 :: tbl =>
      let '(a, b, c, d) := r in
      let a := MD5STEP f input a b c d r0 in
      let d := MD5STEP f input d a b c r1 in
      let c := MD5STEP f input c d a b r2 in
      let b := MD5STEP f input b c d a r3 in
      md5_steps f input tbl (a, b, c, d)
  | _ => r
  end.
Definition md5_tbl1 : list (Z * Z * Z) :=
  [(0, 0xd76aa478, 7); (1, 0xe8c7b756, 12); (2, 0x242070db, 17); (3, 0xc1bdceee, 22);
   (4, 0xf57c0faf, 7); (5, 0x4787c62a, 12); (6, 0xa8304613, 17); (7, 0xfd469501, 22);
   (8, 0x698098d8, 7); (9, 0x8b44f7af, 12); (10, 0xffff5bb1, 17); (11, 0x895cd7be, 22);
   (12, 0x6b901122, 7); (13, 0xfd987193, 12); (14, 0xa679438e, 17); (15, 0x49b40821, 22)].
Definition md5_tbl2 : list (Z * Z * Z) :=
  [(1, 0xf61e2562, 5); (6, 0xc040b340, 9); (11, 0x265e5a51, 14); (0, 0xe9b6c7aa, 20);
   (5, 0xd62f105d, 5); (10, 0x02441453, 9); (15, 0xd8a1e681, 14); (4, 0xe7d3fbc8, 20);
   (9, 0x21e1cde6, 5); (14, 0xc33707d6, 9); (3, 0xf4d50d87, 14); (8, 0x455a14ed, 20);
   (13, 0xa9e3e905, 5); (2, 0xfcefa3f8, 9); (7, 0x676f02d9, 14); (12, 0x8d2a4c8a, 20)].
Definition md5_tbl3 : list (Z * Z * Z) :=
  [(5, 0xfffa3942, 4); (8, 0x8771f681, 11); (11, 0x6d9d6122, 16); (14, 0xfde5380c, 23);
   (1, 0xa4beea44, 4); (4, 0x4bdecfa9, 11); (7, 0xf6bb4b60, 16); (10, 0xbebfbc70, 23);
   (13, 0x289b7ec6, 4); (0, 0xeaa127fa, 11); (3, 0xd4ef3085, 16); (6, 0x04881d05, 23);
   (9, 0xd9d4d039, 4); (12, 0xe6db99e5, 11); (15, 0x1fa27cf8, 16); (2, 0xc4ac5665, 23)].
Definition md5_tbl4 : list (Z * Z * Z) :=
  [(0, 0xf4292244, 6); (7, 0x432aff97, 10); (14, 0xab9423a7, 15); (5, 0xfc93a039, 21);
   (12, 0x655b59c3, 6); (3, 0x8f0ccc92, 10); (10, 0xffeff47d, 15); (1, 0x85845dd1, 21);
   (8, 0x6fa87e4f, 6); (15, 0xfe2ce6e0, 10); (6, 0xa3014314, 15); (13, 0x4e0811a1, 21);
   (4, 0xf7537e82, 6); (11, 0xbd3af235, 10); (2, 0x2ad7d2bb, 15); (9, 0xeb86d391, 21)].
Definition md5_transform (hash input : list Z) : list Z :=
  let r := md5_steps md5_F1 input md5_tbl1 (to_regs hash) in
  let r := md5_steps md5_F2 input md5_tbl2 r in
  let r := md5_steps md5_F3 input md5_tbl3 r in
  add_regs hash (md5_steps md5_F4 input md5_tbl4 r).

(** ** The compression function of MD4 *)
Definition lshift (x s : Z) : Z :=
  let x := Z.land x 0xFFFFFFFF in
  Z.lor (Z.land (Z.shiftl x s) 0xFFFFFFFF) (Z.shiftr x (32 - s)).
Definition md4_F (x y z : Z) : Z := Z.lor (Z.land x y) (Z.land (not32 x) z).
Definition md4_G (x y z : Z) : Z := Z.lor (Z.lor (Z.land x y) (Z.land x z)) (Z.land y z).
Definition md4_H (x y z : Z) : Z := Z.lxor (Z.lxor x y) z.
Definition ROUND1 (a b c d k s : Z) : Z := lshift (u32 (a + md4_F b c d + k)) s.
Definition ROUND2 (a b c d k s : Z) : Z := lshift (u32 (a + md4_G b c d + k + 0x5A827999)) s.
Definition ROUND3 (a b c d k s : Z) : Z := lshift (u32 (a + md4_H b c d + k + 0x6ED9EBA1)) s.
Fixpoint md4_steps (R : Z -> Z -> Z -> Z -> Z -> Z -> Z) (input : list Z) (tbl : list (Z * Z)) (r : regs) : regs :=
  match tbl with
  | (k0, s0) :: (k1, s1) :: (k2, s2) :: (k3, s3) :: tbl =>
      let '(a, b, c, d) := r in
      let a := R a b c d (at_ input k0) s0 in
      let d := R d a b c (at_ input k1) s1 in
      let c := R c d a b (at_ input k2) s2 in
      let b := R b c d a (at_ input k3) s3 in
      md4_steps R input tbl (a, b, c, d)
  | _ => r
  end.
Definition md4_tbl1 : list (Z * Z) :=
  [(0, 3); (1, 7); (2, 11); (3, 19); (4, 3); (5, 7); (6, 11); (7, 19);
   (8, 3); (9, 7); (10, 11); (11, 19); (12, 3); (13, 7); (14, 11); (15, 19)].
Definition md4_tbl2 : list (Z * Z) :=
  [(0, 3); (4, 5); (8, 9); (12, 13); (1, 3); (5, 5); (9, 9); (13, 13);
   (2, 3); (6, 5); (10, 9); (14, 13); (3, 3); (7, 5); (11, 9); (15, 13)].
Definition md4_tbl3 : list (Z * Z) :=
  [(0, 3); (8, 9); (4, 11); (12, 15); (2, 3); (10, 9); (6, 11); (14, 15);
   (1, 3); (9, 9); (5, 11); (13, 15); (3, 3); (11, 9); (7, 11); (15, 15)].
Definition md4_transform (hash input : list Z) : list Z :=
  let r := md4_steps ROUND1 input md4_tbl1 (to_regs hash) in
  let r := md4_steps ROUND2 input md4_tbl2 r in
  add_regs hash (md4_steps ROUND3 input md4_tbl3 r).

(** ** Contexts *)
Record md_ctx := MdCtx { hash : list Z; block : list Z; byte_count : Z }.
Definition md_init : ST md_ctx unit := fun c =>
  Some (tt, MdCtx [0x67452301; 0xefcdab89; 0x98badcfe; 0x10325476] (block c) 0).

Section Md.
Context (transform : list Z -> list Z -> list Z).
Definition block_put (o : Z) (x : list Z) : ST md_ctx unit := fun c =>
  match poke (block c) o x with Some b => Some (tt, MdCtx (hash c) b (byte_count c)) | None => None end.
Definition md_transform_helper : ST md_ctx unit := fun c =>
  Some (tt, MdCtx (transform (hash c) (le_words (block c))) (block c) (byte_count c)).
(** One round of the loop on the data from [o] on, of which [len] bytes are left. *)
Definition md_round (data : list Z) : Z * Z -> ST md_ctx (Z * Z + Z * Z) := fun '(o, len) =>
  if 64 <=? len then
    let* x := peek data o 64 in
    block_put 0 x ;;
    md_transform_helper ;;
    ret (inl (o + 64, u32 (len - 64)))
  else ret (inr (o, len)).
Definition md_update (data : list Z) : ST md_ctx unit :=
  let len := zlen data in
  let* c := get in
  let avail := u32 (64 - Z.land (byte_count c) 0x3f) in
  put (MdCtx (hash c) (block c) (u64 (byte_count c + len))) ;;
  if len <? avail then
    let* x := peek data 0 len in
    block_put (u32 (64 - avail)) x
  else
    let* x := peek data 0 avail in
    block_put (u32 (64 - avail)) x ;;
    md_transform_helper ;;
    let* ol := while (1 + length data) (md_round data) (avail, u32 (len - avail)) in
    let* x := peek data ol.1 ol.2 in
    block_put 0 x.
Definition md_final : ST md_ctx (list Z) :=
  let* c := get in
  let offset := u32 (Z.land (byte_count c) 0x3f) in
  let padding := s32 (56 - (offset + 1)) in
  block_put offset [0x80] ;;
  let p := offset + 1 in
  let* pp :=
    (if padding <? 0 then
       block_put p (replicate (Z.to_nat (u32 (padding + 8))) 0) ;;
       md_transform_helper ;;
       ret (0, 56)
     else ret (p, padding)) in
  block_put pp.1 (replicate (Z.to_nat pp.2) 0) ;;
  let* c := get in
  block_put (4 * 14) (le4 (u32 (u64 (Z.shiftl (byte_count c) 3)))) ;;
  block_put (4 * 15) (le4 (u32 (Z.shiftr (byte_count c) 29))) ;;
  md_transform_helper ;;
  let* c := get in
  put (MdCtx (replicate 4 0) (replicate 64 0) 0) ;;
  ret (concat (le4 <$> hash c)).
End Md.

Definition md5_init : ST md_ctx unit := md_init.
Definition md5_update : list Z -> ST md_ctx unit := md_update md5_transform.
Definition md5_final : ST md_ctx (list Z) := md_final md5_transform.
Definition md4_init : ST md_ctx unit := md_init.
Definition md4_update : list Z -> ST md_ctx unit := md_update md4_transform.
Definition md4_final : ST md_ctx (list Z) := md_final md4_transform.

(** ** The definition of the digests *)
Module Rfc.
Definition F (x y z : Z) : Z := Z.lor (Z.land x y) (Z.land (Z.lnot x) z).
Definition G (x y z : Z) : Z := Z.lor (Z.land x z) (Z.land y (Z.lnot z)).
Definition H (x y z : Z) : Z := Z.lxor (Z.lxor x y) z.
Definition I (x y z : Z) : Z := Z.lxor y (Z.lor x (not32 z)).
Definition Maj (x y z : Z) : Z := Z.lor (Z.lor (Z.land x y) (Z.land x z)) (Z.land y z).

(** The sine of [n] in steps of 2^-256, by its power series: [term] is
    [n^(2k+1) / (2k+1)!]. *)
Fixpoint sine_from (m : nat) (k term n : Z) : Z :=
  match m with
  | O => 0
  | S m => term - sine_from m (k + 1) (term * n * n / ((2 * k + 2) * (2 * k + 3))) n
  end.
Definition sine (n : Z) : Z := sine_from 130 0 (n * 2 ^ 256) n.
(** [floor(4294967296 * abs(sin(i)))] *)
Definition T (i : Z) : Z := Z.abs (sine i) / 2 ^ 224.

(** Step [i] of MD5, counted from 0. *)
Definition f5 (i : Z) : Z -> Z -> Z -> Z := if i <? 16 then F else if i <? 32 then G else if i <? 48 then H else I.
Definition k5 (i : Z) : Z := (if i <? 16 then i else if i <? 32 then 5 * i + 1 else if i <? 48 then 3 * i + 5 else 7 * i) mod 16.
Definition s5 (i : Z) : Z := at_ [7; 12; 17; 22; 5; 9; 14; 20; 4; 11; 16; 23; 6; 10; 15; 21] (4 * (i / 16) + i mod 4).
Definition step5 (X : list Z) (r : regs) (i : Z) : regs :=
  let '(a, b, c, d) := r in
  (d, u32 (b + rol32 (u32 (a + f5 i b c d + at_ X (k5 i) + T (i + 1))) (s5 i)), b, c).
Definition compress5 (H x : list Z) : list Z := add_regs H (foldl (step5 (le_words x)) (to_regs H) (seqZ 0 64)).

(** Step [i] of MD4: the words are taken in order, by columns, and in the order of the
    reversed bits of the index. *)
Definition f4 (i : Z) : Z -> Z -> Z -> Z := if i <? 16 then F else if i <? 32 then Maj else H.
Definition k4 (i : Z) : Z :=
  if i <? 16 then i else if i <? 32 then (4 * i) mod 16 + (i / 4) mod 4
  else 8 * (i mod 2) + 4 * (i / 2 mod 2) + 2 * (i / 4 mod 2) + i / 8 mod 2.
Definition s4 (i : Z) : Z := at_ [3; 7; 11; 19; 3; 5; 9; 13; 3; 9; 11; 15] (4 * (i / 16) + i mod 4).
(** The square roots of 2 and 3, times 2^30. *)
Definition c4 (i : Z) : Z := if i <? 16 then 0 else if i <? 32 then Z.sqrt (2 * 2 ^ 60) else Z.sqrt (3 * 2 ^ 60).
Definition step4 (X : list Z) (r : regs) (i : Z) : regs :=
  let '(a, b, c, d) := r in
  (d, rol32 (u32 (a + f4 i b c d + at_ X (k4 i) + c4 i)) (s4 i), b, c).
Definition compress4 (H x : list Z) : list Z := add_regs H (foldl (step4 (le_words x)) (to_regs H) (seqZ 0 48)).

Definition iv : list Z := [0x67452301; 0xefcdab89; 0x98badcfe; 0x10325476].
Definition md5 (msg : list Z) : list Z := concat (le4 <$> blocks compress5 iv (pad_message le8 msg)).
Definition md4 (msg : list Z) : list Z := concat (le4 <$> blocks compress4 iv (pad_message le8 msg)).
End Rfc.

(** ** The compression functions *)
Lemma F1_eq x y z : md5_F1 x y z = Rfc.F x y z.
Proof. unfold md5_F1, Rfc.F. bits_eq. Qed.
Lemma F2_eq x y z : md5_F2 x y z = Rfc.G x y z.
Proof. unfold md5_F2, md5_F1, Rfc.G. bits_eq. Qed.
Lemma md4_F_eq x y z : u32 (md4_F x y z) = u32 (Rfc.F x y z).
Proof.
  unfold wrap. rewrite <- !Z.land_ones by done. unfold md4_F, Rfc.F, not32, wrap. rewrite <- Z.land_ones by done.
  apply Z.bits_inj'; intros n Hn. repeat first [rewrite Z.land_spec | rewrite Z.lor_spec].
  destruct (Z.testbit (Z.ones 32) n); [|by rewrite !andb_false_r].
  by rewrite !andb_true_r.
Qed.
Lemma lshift_eq x s : 0 <= s -> lshift (u32 x) s = rol32 (u32 x) s.
Proof.
  intros Hs. unfold lshift, rol32, shl32. change 0xFFFFFFFF with (Z.ones 32). rewrite !Z.land_ones by done. fold (u32 (u32 x)).
  rewrite (wrap_id 32 (u32 x)) by (apply uint_wrap; lia). done.
Qed.

(** Steps in place, four at a time, and steps that move the registers. *)
Definition moved5 (f : Z -> Z -> Z -> Z) (X : list Z) (r : regs) (row : Z * Z * Z) : regs :=
  let '(a, b, c, d) := r in (d, MD5STEP f X a b c d row, b, c).
Definition moved4 (R : Z -> Z -> Z -> Z -> Z -> Z -> Z) (X : list Z) (r : regs) (row : Z * Z) : regs :=
  let '(a, b, c, d) := r in (d, R a b c d (at_ X row.1) row.2, b, c).
Lemma md5_steps_eq f X n : forall tbl r, length tbl = (4 * n)%nat -> md5_steps f X tbl r = foldl (moved5 f X) r tbl.
Proof.
  induction n as [|n IH]; intros tbl [[[a b] c] d] Hl; [by destruct tbl|].
  do 4 (destruct tbl as [|? tbl]; [cbn in Hl; lia|]). cbn -[MD5STEP]. apply IH. cbn in Hl. lia.
Qed.
Lemma md4_steps_eq R X n : forall tbl r, length tbl = (4 * n)%nat -> md4_steps R X tbl r = foldl (moved4 R X) r tbl.
Proof.
  induction n as [|n IH]; intros tbl [[[a b] c] d] Hl; [by destruct tbl|].
  do 4 (destruct tbl as [|[? ?] tbl]; [cbn in Hl; lia|]). cbn. apply IH. cbn in Hl. lia.
Qed.

Lemma foldl_fmap {A B C} (f : A -> B -> A) (g : C -> B) l : forall a, foldl f a (g <$> l) = foldl (fun a x => f a (g x)) a l.
Proof. induction l as [|x l IH]; intros a; [done|]. apply IH. Qed.
Lemma foldl_ext_in {A B} (f g : A -> B -> A) l : (forall a x, x ∈ l -> f a x = g a x) -> forall a, foldl f a l = foldl g a l.
Proof.
  induction l as [|x l IH]; intros H a; [done|]. cbn. rewrite H by set_solver. apply IH. set_solver.
Qed.
(** A group of sixteen steps is that of the description. *)
Lemma group5 f X i tbl r : (forall t x y z, i <= t < i + 16 -> f x y z = Rfc.f5 t x y z) ->
  tbl = (fun t => (Rfc.k5 t, Rfc.T (t + 1), Rfc.s5 t)) <$> seqZ i 16 ->
  md5_steps f X tbl r = foldl (Rfc.step5 X) r (seqZ i 16).
Proof.
  intros Hf ->. rewrite (md5_steps_eq _ _ 4) by (rewrite length_fmap, length_seqZ; done). rewrite foldl_fmap.
  apply foldl_ext_in. intros [[[a b] c] d] t Ht%elem_of_seqZ. unfold moved5, MD5STEP, Rfc.step5. rewrite (Hf t) by lia.
  rewrite (Z.add_comm (rol32 _ _)). by rewrite !Z.add_assoc.
Qed.
Lemma group4 R X i tbl r : (forall t a b c d k s, i <= t < i + 16 -> 0 <= s -> R a b c d k s = rol32 (u32 (a + Rfc.f4 t b c d + k + Rfc.c4 t)) s) ->
  tbl = (fun t => (Rfc.k4 t, Rfc.s4 t)) <$> seqZ i 16 -> Forall (fun row => 0 <= row.2) tbl ->
  md4_steps R X tbl r = foldl (Rfc.step4 X) r (seqZ i 16).
Proof.
  intros HR -> Hs. rewrite (md4_steps_eq _ _ 4) by (rewrite length_fmap, length_seqZ; done). rewrite foldl_fmap.
  apply foldl_ext_in. intros [[[a b] c] d] t Ht. unfold moved4, Rfc.step4. cbn [fst snd].
  rewrite (HR t); [done|by apply elem_of_seqZ in Ht|]. rewrite list.Forall_forall in Hs. apply (Hs (Rfc.k4 t, Rfc.s4 t)).
  apply list_elem_of_fmap. eauto.
Qed.

Ltac by_index t := repeat match goal with |- context [t <? ?k] => destruct (Z.ltb_spec t k); try lia end.
Lemma md5_transform_eq s x : md5_transform s (le_words x) = Rfc.compress5 s x.
Proof.
  unfold md5_transform, Rfc.compress5. change (seqZ 0 64) with (seqZ 0 16 ++ seqZ 16 16 ++ seqZ 32 16 ++ seqZ 48 16). rewrite !foldl_app.
  rewrite (group5 md5_F1 _ 0), (group5 md5_F2 _ 16), (group5 md5_F3 _ 32), (group5 md5_F4 _ 48); [reflexivity|..].
  all: lazymatch goal with |- _ = fmap _ _ => vm_compute; reflexivity | _ => idtac end.
  all: intros t x0 y z Ht; unfold Rfc.f5; by_index t; first [apply F1_eq | apply F2_eq | reflexivity].
Qed.
Lemma md4_transform_eq s x : md4_transform s (le_words x) = Rfc.compress4 s x.
Proof.
  unfold md4_transform, Rfc.compress4. change (seqZ 0 48) with (seqZ 0 16 ++ seqZ 16 16 ++ seqZ 32 16). rewrite !foldl_app.
  rewrite (group4 ROUND1 _ 0), (group4 ROUND2 _ 16), (group4 ROUND3 _ 32); [reflexivity|..].
  all: lazymatch goal with |- _ = fmap _ _ => vm_compute; reflexivity | |- Forall _ _ => repeat constructor; done | _ => idtac end.
  all: intros t a b c d k s0 Ht Hs0; unfold Rfc.f4, Rfc.c4, ROUND1, ROUND2, ROUND3; by_index t; rewrite lshift_eq by done.
  - change (Z.sqrt (3 * 2 ^ 60)) with 0x6ED9EBA1. reflexivity.
  - change (Z.sqrt (2 * 2 ^ 60)) with 0x5A827999. reflexivity.
  - f_equal. pose proof (md4_F_eq b c d) as E. unfold wrap in *. rewrite Z.add_0_r, <- !Z.add_assoc, !(Z.add_comm a).
    rewrite <- !Z.add_assoc, Z.add_mod, E, <- Z.add_mod by done. done.
Qed.

(** ** The modules implement the interface *)
Lemma splice_splice l o x y : 0 <= o -> o + zlen x + zlen y <= zlen l -> splice (splice l o x) (o + zlen x) y = splice l o (x ++ y).
Proof.
  intros Ho Hl. pose proof (zlen_nonneg x). pose proof (zlen_nonneg y). apply zget_ext.
  { rewrite !zlen_splice; rewrite ?zlen_splice, ?zlen_app; lia. }
  intros i Hi. rewrite !zlen_splice in Hi by (rewrite ?zlen_splice; lia).
  rewrite !zget_at by (rewrite !zlen_splice; rewrite ?zlen_splice, ?zlen_app; lia). f_equal.
  rewrite !at_splice by (rewrite ?zlen_splice, ?zlen_app; lia). rewrite zlen_app.
  repeat case_decide; try lia; [rewrite at_app_r by lia; f_equal; lia|by rewrite at_app_l by lia].
Qed.

Section MdAlg.
Context (transform : list Z -> list Z -> list Z).
#[local] Abbreviation compress := (fun s x => transform s (le_words x)).
Definition md_fed (c : md_ctx) (msg : list Z) : Prop :=
  byte_count c = zlen msg /\ holds compress Rfc.iv (hash c) (block c) 64 msg.

Lemma wp_block_put o x c (Q : unit -> md_ctx -> Prop) : 0 <= o -> o + zlen x <= zlen (block c) ->
  Q tt (MdCtx (hash c) (splice (block c) o x) (byte_count c)) -> wp (block_put o x) Q c.
Proof. intros H1 H2 HQ. eapply wp_exact; [|exact HQ]. unfold block_put. by rewrite poke_eq. Qed.

Definition md_after (msg D : list Z) (ol : Z * Z) (c : md_ctx) : Prop :=
  byte_count c = zlen (msg ++ D) /\ zlen (block c) = 64 /\ 0 <= ol.1 <= zlen D /\ ol.2 = zlen D - ol.1 /\
  rest compress Rfc.iv msg D (hash c) ol.1.
Lemma md_loop msg D ol c : md_after msg D ol c -> zlen D < 2 ^ 29 ->
  wp (while (1 + length D) (md_round transform D) ol) (fun ol c' => md_after msg D ol c' /\ ol.2 < 64) c.
Proof.
  intros H HD. apply (wp_while (md_after msg D) _ (fun ol => Z.to_nat (ol.2))); [done|destruct H as (_ & _ & ? & ? & _); unfold zlen in *; lia|].
  clear ol c H. intros [o len] c (H0 & Hb & Hi & Hl & Hr). cbn [fst snd] in *. unfold md_round. destruct (Z.leb_spec 64 len).
  - apply wp_bind, wp_peek; [lia|lia|lia|]. assert (zlen (slice D o 64) = 64) as Hx by (apply zlen_slice; lia).
    apply wp_bind, wp_block_put; [lia|lia|]. apply wp_bind. eapply wp_exact; [reflexivity|]. apply wp_ret.
    cbn [hash block byte_count fst snd]. rewrite u32_id by lia. split; [|cbn; lia]. split; [done|]. split; [cbn [block]; rewrite zlen_splice; lia|].
    split; [cbn; lia|]. split; [cbn; lia|]. cbn [fst hash]. replace (splice (block c) 0 (slice D o 64)) with (slice D o 64).
    { apply (rest_step compress); [done|lia|lia]. }
    unfold splice. rewrite Hx, (drop_ge (block c)) by (unfold zlen in *; lia). cbn. by rewrite app_nil_r.
  - apply wp_ret. split; [|cbn; lia]. by repeat (split; [done|]).
Qed.

Lemma md_update_fed c msg D : md_fed c msg -> zlen D < 2 ^ 29 -> zlen (msg ++ D) < 2 ^ 61 ->
  wp (md_update transform D) (fun _ c' => md_fed c' (msg ++ D)) c.
Proof.
  intros [H0 Hh] HD Hl. pose proof Hh as (_ & Hb & _). unfold md_update. pose proof (zlen_nonneg msg). pose proof (zlen_nonneg D).
  apply wp_bind. eapply wp_exact; [reflexivity|]. cbv beta zeta. rewrite H0, land_63. set (n := zlen msg mod 64).
  assert (0 <= n < 64) by (apply Z.mod_pos_bound; lia). apply wp_bind. eapply wp_exact; [reflexivity|]. cbv beta.
  rewrite zlen_app in Hl. rewrite (u64_id (zlen msg + _)), <- zlen_app, (u32_id (64 - n)), (u32_id (64 - _)) by lia.
  replace (64 - (64 - n)) with n by lia. destruct (Z.ltb_spec (zlen D) (64 - n)).
  - apply wp_bind, wp_peek; [lia|lia|lia|]. rewrite slice_all by done. apply wp_block_put; [lia|cbn; lia|].
    split; [done|]. apply holds_short; [done|lia|lia].
  - destruct (rest_first _ _ _ _ _ _ D n Hh eq_refl) as [E1 E2]; [lia|lia|]. rewrite (slice_all (splice _ _ _)) in E2 by done.
    apply wp_bind, wp_peek; [lia|lia|lia|]. apply wp_bind, wp_block_put; [lia|rewrite zlen_slice; cbn; lia|].
    apply wp_bind. eapply wp_exact; [reflexivity|]. apply wp_bind. rewrite u32_id by lia. eapply wp_mono; [apply md_loop; [|done]|].
    { split; [done|]. split; [done|]. split; [cbn; lia|]. split; [done|]. done. }
    intros [o l] c2 [(H0' & Hb' & Hi & Hle & Hr) Hs]. cbn [fst snd] in *. subst l. apply wp_bind, wp_peek; [lia|lia|lia|].
    apply wp_block_put; [lia|rewrite zlen_slice; lia|]. split; [done|]. apply rest_done; [done|lia|lia|done|lia].
Qed.

Lemma rest_end msg D s i : rest compress Rfc.iv msg D s i -> i = zlen D -> blocks compress Rfc.iv (msg ++ D) = s.
Proof. intros [H _] ->. rewrite H, drop_ge; [done|unfold zlen; lia]. Qed.
(** The last three writes to the block put zeros and the length at its end. *)
Lemma write_tail b p z v : 0 <= p -> 0 <= z -> p + z = 56 -> zlen b = 64 ->
  splice (splice (splice b p (replicate (Z.to_nat z) 0)) 56 (le4 (v mod 2 ^ 32))) 60 (le4 (v / 2 ^ 32 mod 2 ^ 32)) =
  splice b p (replicate (Z.to_nat z) 0 ++ le8 v).
Proof.
  intros Hp Hz Hs Hb. pose proof (zlen_replicate z 0 Hz) as Hr. replace 56 with (p + zlen (replicate (Z.to_nat z) 0)) by lia.
  rewrite (splice_splice b) by (change (zlen (le4 _)) with 4; lia).
  replace 60 with (p + zlen (replicate (Z.to_nat z) 0 ++ le4 (v mod 2 ^ 32))) by (rewrite zlen_app; change (zlen (le4 _)) with 4; lia).
  rewrite (splice_splice b) by (rewrite ?zlen_app; change (zlen (le4 _)) with 4; lia). unfold le8. by rewrite app_assoc.
Qed.
(** What the last steps of [md_final] do. *)
Lemma md_final_tail c m p z s : byte_count c = m -> 0 <= m -> zlen (block c) = 64 -> 0 <= p -> 0 <= z -> p + z = 56 ->
  s = compress (hash c) (splice (block c) p (replicate (Z.to_nat z) 0 ++ le8 (8 * m))) ->
  wp (block_put p (replicate (Z.to_nat z) 0) ;;
      let* c := get in
      block_put (4 * 14) (le4 (u32 (u64 (Z.shiftl (byte_count c) 3)))) ;;
      block_put (4 * 15) (le4 (u32 (Z.shiftr (byte_count c) 29))) ;;
      md_transform_helper transform ;;
      let* c := get in
      put (MdCtx (replicate 4 0) (replicate 64 0) 0) ;;
      ret (concat (le4 <$> hash c)))
    (fun d c' => d = concat (le4 <$> s) /\ zlen (block c') = 64) c.
Proof.
  intros Hm Hm0 Hb Hp Hz Hs ->. pose proof (zlen_replicate z 0 Hz) as Hr.
  assert (zlen (splice (block c) p (replicate (Z.to_nat z) 0)) = 64) as H1 by (rewrite zlen_splice; lia).
  apply wp_bind, wp_block_put; [lia|lia|]. apply wp_bind. eapply wp_exact; [reflexivity|]. cbn [byte_count]. rewrite Hm.
  assert (u32 (u64 (Z.shiftl m 3)) = (8 * m) mod 2 ^ 32) as -> by (rewrite Z.shiftl_mul_pow2 by done; ulia).
  assert (u32 (Z.shiftr m 29) = 8 * m / 2 ^ 32 mod 2 ^ 32) as -> by (rewrite Z.shiftr_div_pow2 by done; unfold wrap; f_equal; dlia).
  apply wp_bind, wp_block_put; [lia|cbn [block]; change (zlen (le4 _)) with 4; lia|]. cbn [block hash byte_count].
  apply wp_bind, wp_block_put; [lia|cbn [block]; rewrite zlen_splice; change (zlen (le4 _)) with 4; lia|]. cbn [block hash byte_count].
  change (4 * 14) with 56. change (4 * 15) with 60. rewrite write_tail by done.
  apply wp_bind. eapply wp_exact; [reflexivity|]. apply wp_bind. eapply wp_exact; [reflexivity|].
  apply wp_bind. eapply wp_exact; [reflexivity|]. apply wp_ret. done.
Qed.
Lemma md_final_fed c msg : md_fed c msg ->
  wp (md_final transform) (fun d c' => d = concat (le4 <$> blocks compress Rfc.iv (pad_message le8 msg)) /\ zlen (block c') = 64) c.
Proof.
  intros [H0 Hh]. pose proof Hh as (_ & Hb & _). pose proof (zlen_nonneg msg). unfold md_final. apply wp_bind. eapply wp_exact; [reflexivity|].
  cbv beta zeta. rewrite H0, land_63. set (n := zlen msg mod 64). assert (0 <= n < 64) by (apply Z.mod_pos_bound; lia).
  rewrite u32_id, s32_id by lia. assert (pad_zeros (zlen msg) = (55 - n) mod 64) as Hz by (unfold pad_zeros, n; dlia).
  set (D := 0x80 :: replicate (Z.to_nat (pad_zeros (zlen msg))) 0 ++ le8 (8 * zlen msg)). change (pad_message le8 msg) with (msg ++ D).
  assert (zlen D = 9 + pad_zeros (zlen msg)) as HD by (unfold D; rewrite zlen_cons, zlen_app, zlen_replicate by dlia; change (zlen (le8 _)) with 8; lia).
  apply wp_bind, wp_block_put; [lia|change (zlen [_]) with 1; lia|]. apply wp_bind.
  destruct (rest_first _ _ _ _ _ _ D n Hh eq_refl) as [E1 E2]; [dlia|done|]. rewrite (slice_all (splice _ _ _)) in E2 by done.
  destruct (Z.ltb_spec (56 - (n + 1)) 0).
  - assert (pad_zeros (zlen msg) = 119 - n) as Hz' by dlia. rewrite u32_id by lia. set (zs := replicate (Z.to_nat (56 - (n + 1) + 8)) 0).
    assert (zlen zs = 63 - n) as Hzs by (unfold zs; rewrite zlen_replicate; lia).
    assert (D = (0x80 :: zs) ++ replicate 56 0 ++ le8 (8 * zlen msg)) as ED.
    { unfold D, zs. rewrite Hz', <- app_comm_cons, app_assoc, <- replicate_add. do 4 f_equal. lia. }
    assert (zlen (0x80 :: zs) = 64 - n) as Hh1 by (rewrite zlen_cons; lia).
    assert (slice D 0 (64 - n) = 0x80 :: zs) as ES by (rewrite ED; apply take_app_length'; unfold zlen in *; lia).
    assert (slice D (64 - n) 64 = replicate 56 0 ++ le8 (8 * zlen msg)) as ES2.
    { rewrite ED. unfold slice. rewrite drop_app_length' by (unfold zlen in *; lia). done. }
    rewrite ES in *. apply wp_bind, wp_block_put; [lia|cbn [block]; rewrite zlen_splice; change (zlen [_]) with 1; lia|].
    change (n + 1) with (n + zlen [0x80]). cbn [block hash byte_count]. rewrite splice_splice by (change (zlen [_]) with 1; lia).
    apply wp_bind. eapply wp_exact; [reflexivity|]. apply wp_ret. cbn [fst snd block hash byte_count].
    apply (md_final_tail _ (zlen msg)); cbn [block hash byte_count]; [done|done|done|done|done|done|].
    apply (rest_end msg D _ (64 - n + 64)); [|lia]. apply rest_step in E2; [|lia|lia]. rewrite ES2 in E2.
    replace (splice _ 0 _) with (replicate 56 0 ++ le8 (8 * zlen msg)); [done|]. symmetry.
    unfold splice at 1. rewrite (drop_ge (splice _ _ _)); [by rewrite app_nil_r|]. change (zlen (_ ++ _)) with 64.
    change ([128] ++ zs) with (128 :: zs). unfold zlen in E1. lia.
  - assert (pad_zeros (zlen msg) = 55 - n) as Hz' by dlia. rewrite (slice_all D) in * by lia.
    apply wp_ret. cbn [fst snd block hash byte_count].
    apply (md_final_tail _ (zlen msg)); cbn [block hash byte_count]; [done|done|rewrite zlen_splice; change (zlen [_]) with 1; lia|lia|lia|lia|].
    change (n + 1) with (n + zlen [0x80]). 
    rewrite splice_splice by (rewrite ?zlen_app, ?zlen_replicate; change (zlen [_]) with 1; try change (zlen (le8 _)) with 8; lia).
    replace (56 - (n + zlen [128])) with (pad_zeros (zlen msg)) by (change (zlen [_]) with 1; lia).
    by apply (rest_end msg D _ (64 - n)); [|lia].
Qed.
End MdAlg.

Definition md5_alg : ShashAlg md_ctx.
Proof.
  refine {| h_init := md5_init; h_update := md5_update; h_final := md5_final; digest := Rfc.md5;
    ready := fun c => zlen (block c) = 64; fed := md_fed md5_transform; init_fed := _; update_fed := _; final_fed := _ |}.
  - intros c Hb. eexists. split; [reflexivity|]. split; [done|]. by apply (holds_nil _ Rfc.iv).
  - intros c msg d Hf Hd Hl. destruct (md_update_fed _ c msg d Hf Hd Hl) as ([] & c' & E & H). eauto.
  - intros c msg Hf Hl. destruct (md_final_fed _ c msg Hf) as (x & c' & E & -> & Hb). exists c'. unfold md5_final, Rfc.md5.
    by rewrite E, (blocks_ext _ _ _ _ md5_transform_eq).
Defined.
Definition md4_alg : ShashAlg md_ctx.
Proof.
  refine {| h_init := md4_init; h_update := md4_update; h_final := md4_final; digest := Rfc.md4;
    ready := fun c => zlen (block c) = 64; fed := md_fed md4_transform; init_fed := _; update_fed := _; final_fed := _ |}.
  - intros c Hb. eexists. split; [reflexivity|]. split; [done|]. by apply (holds_nil _ Rfc.iv).
  - intros c msg d Hf Hd Hl. destruct (md_update_fed _ c msg d Hf Hd Hl) as ([] & c' & E & H). eauto.
  - intros c msg Hf Hl. destruct (md_final_fed _ c msg Hf) as (x & c' & E & -> & Hb). exists c'. unfold md4_final, Rfc.md4.
    by rewrite E, (blocks_ext _ _ _ _ md4_transform_eq).
Defined.

(** The reference values of the descriptions for the message [abc]. *)
Example md5_abc : Rfc.md5 [97; 98; 99] =
  [0x90; 0x01; 0x50; 0x98; 0x3c; 0xd2; 0x4f; 0xb0; 0xd6; 0x96; 0x3f; 0x7d; 0x28; 0xe1; 0x7f; 0x72].
Proof. vm_compute. reflexivity. Qed.
Example md4_abc : Rfc.md4 [97; 98; 99] =
  [0xa4; 0x48; 0x01; 0x7a; 0xaf; 0x21; 0xd8; 0x52; 0x5f; 0xc1; 0x0a; 0xe8; 0x7a; 0xa6; 0x72; 0x9d].
Proof. vm_compute. reflexivity. Qed.

(** However a message is cut into pieces for the update function, MD4 and MD5 return the
    digest that RFC 1320 and RFC 1321 define for the whole message: the steps in place, the
    order of the words, the constants, the buffering and the padding in the block of the
    context, on both sides of the boundary at 56 bytes, agree with it.  Pieces are shorter
    than 2^29 bytes and the message than 2^61. *)
Theorem md_correct (pieces : list (list Z)) (c : md_ctx)
    (Hs : Forall (fun d => zlen d < 2 ^ 29) pieces) (Hl : zlen (concat pieces) < 2 ^ 61 - 2 ^ 8) (Hb : zlen (block c) = 64) :
  (exists c', hash_pieces md5_init md5_update md5_final pieces c = Some (Rfc.md5 (concat pieces), c')) /\
  (exists c', hash_pieces md4_init md4_update md4_final pieces c = Some (Rfc.md4 (concat pieces), c')).
Proof.
  destruct (hash_pieces_spec (alg := md5_alg) c pieces Hb Hs Hl) as (d1 & E1 & _).
  destruct (hash_pieces_spec (alg := md4_alg) c pieces Hb Hs Hl) as (d2 & E2 & _).
  split; [by exists d1|by exists d2].
Qed.

Definition abc_pieces : list (list Z) := [[97]; replicate 58 98; []; [99]].
Lemma md_correct_witness :
  exists c', hash_pieces md5_init md5_update md5_final abc_pieces (MdCtx [] (replicate 64 7) 0) = Some (Rfc.md5 (concat abc_pieces), c').
Proof.
  refine (proj1 (md_correct abc_pieces (MdCtx [] (replicate 64 7) 0) _ _ _)).
  - repeat constructor; vm_compute; reflexivity.
  - vm_compute. reflexivity.
  - vm_compute. reflexivity.
Defined.
