(* ===== verification/StrTo.v ===== *)
(** * Numbers from strings

    The conversions at the head of [lib/vsprintf.c]: [simple_strtoul] and its
    variants, which read the number a string begins with, and the strict variants,
    which accept only a whole number.  The 32-bit and the 64-bit routines are the
    same code at two widths, modelled once with the width as an argument.

    A C string is the list of its characters without the terminator; [ch] reads a
    character, the terminator included, and faults behind it. *)

From Stdlib Require Import ZArith Lia.
From stdpp Require Import base tactics numbers list gmap option.
From S2P Require Import Prelude CString.

Abbreviation P := (ST unit).
Definition ch (s : list Z) (i : Z) : P Z :=
  if decide (i = zlen s) then ret 0 else match zget s i with Some c => ret c | None => fault end.

Definition TOLOWER (x : Z) : Z := Z.lor x 0x20.
Definition simple_guess_base (s : list Z) (cp : Z) : P Z :=
  let* c0 := ch s cp in
  if c0 =? 48 then
    let* c1 := ch s (cp + 1) in
    if TOLOWER c1 =? 120 then
      let* c2 := ch s (cp + 2) in
      ret (if isxdigit c2 then 16 else 8)
    else ret 8
  else ret 10.

(** One round of the loop on [result] and [cp]. *)
Definition strto_round (w : Z) (s : list Z) (base : Z) : Z * Z -> P (Z * Z + Z * Z) := fun '(result, cp) =>
  let* c := ch s cp in
  if isxdigit c then
    let value := u32 (if isdigit c then c - 48 else TOLOWER c - 97 + 10) in
    if base <=? value then ret (inr (result, cp))
    else ret (inl (wrap w (result * base + value), cp + 1))
  else ret (inr (result, cp)).
(** The value, and the place behind the number. *)
Definition simple_strtou (w : Z) (s : list Z) (cp base : Z) : P (Z * Z) :=
  let* base := (if base =? 0 then simple_guess_base s cp else ret base) in
  let* c0 := ch s cp in
  let* hex := (if (base =? 16) && (c0 =? 48) then let* c1 := ch s (cp + 1) in ret (TOLOWER c1 =? 120) else ret false) in
  let cp := if hex : bool then cp + 2 else cp in
  while (1 + length s) (strto_round w s base) (0, cp).
Definition simple_strtoul : list Z -> Z -> Z -> P (Z * Z) := simple_strtou 32.
Definition simple_strtoull : list Z -> Z -> Z -> P (Z * Z) := simple_strtou 64.

(** [-simple_strtoul(...)] is the negation of an unsigned number, read as signed. *)
Definition simple_strto (w : Z) (s : list Z) (cp base : Z) : P (Z * Z) :=
  let* c := ch s cp in
  if c =? 45 then
    let* r := simple_strtou w s (cp + 1) base in
    ret (sgn w (- r.1), r.2)
  else
    let* r := simple_strtou w s cp base in
    ret (sgn w r.1, r.2).
Definition simple_strtol : list Z -> Z -> Z -> P (Z * Z) := simple_strto 32.
Definition simple_strtoll : list Z -> Z -> Z -> P (Z * Z) := simple_strto 64.

(** The result and [*res]. *)
Definition strict_strtou (w : Z) (s : list Z) (cp base : Z) : P (Z * Z) :=
  let len := zlen s - cp in
  if len =? 0 then ret (- EINVAL, 0)
  else
    let* vt := simple_strtou w s cp base in
    let '(val, tail) := vt in
    if tail =? cp then ret (- EINVAL, 0)
    else
      let* c := ch s tail in
      if (c =? 0) || ((len =? u32 (tail - cp + 1)) && (c =? 10)) then ret (0, val) else ret (- EINVAL, 0).
Definition strict_strtoul : list Z -> Z -> Z -> P (Z * Z) := strict_strtou 32.
Definition strict_strtoull : list Z -> Z -> Z -> P (Z * Z) := strict_strtou 64.
Definition strict_strto (w : Z) (s : list Z) (cp base : Z) : P (Z * Z) :=
  let* c := ch s cp in
  let* r := strict_strtou w s (if c =? 45 then cp + 1 else cp) base in
  ret (if (c =? 45) && (r.1 =? 0) then (r.1, sgn w (- r.2)) else (r.1, sgn w r.2)).
Definition strict_strtol : list Z -> Z -> Z -> P (Z * Z) := strict_strto 32.
Definition strict_strtoll : list Z -> Z -> Z -> P (Z * Z) := strict_strto 64.

(** ** Digits *)
(** The value of a character as a digit. *)
Definition digit_of (c : Z) : option Z :=
  if decide (48 <= c <= 57) then Some (c - 48)
  else if decide (65 <= c <= 70) then Some (c - 55)
  else if decide (97 <= c <= 102) then Some (c - 87) else None.
(** The digits that [s] begins with in a base, and their value. *)
Fixpoint leading (base : Z) (s : list Z) : list Z :=
  match s with
  | [] => []
  | c :: s => match digit_of c with Some d => if d <? base then d :: leading base s else [] | None => [] end
  end.
Definition value (base : Z) (ds : list Z) : Z := foldl (fun v d => v * base + d) 0 ds.

(** The prefix [0x], and the base that a string calls for. *)
Definition hex_prefix (s : list Z) : bool :=
  match s with c0 :: c1 :: _ => (c0 =? 48) && ((c1 =? 120) || (c1 =? 88)) | _ => false end.
Definition its_base (s : list Z) : Z :=
  match s with
  | 48 :: c1 :: c2 :: _ => if hex_prefix s && bool_decide (is_Some (digit_of c2)) then 16 else 8
  | 48 :: _ => 8
  | _ => 10
  end.
Definition real_base (s : list Z) (base : Z) : Z := if base =? 0 then its_base s else base.
Definition after_prefix (s : list Z) (base : Z) : Z := if (real_base s base =? 16) && hex_prefix s then 2 else 0.
(** The digits of the number that [s] begins with. *)
Definition number_in (s : list Z) (base : Z) : list Z := leading (real_base s base) (drop (Z.to_nat (after_prefix s base)) s).

(** ** Characters *)
Lemma by_chars (Q : Z -> Prop) : Forall Q (seqZ 0 256) -> forall c, uint 8 c -> Q c.
Proof. intros H c Hc. rewrite list.Forall_forall in H. apply H, elem_of_seqZ. unfold uint in Hc. lia. Qed.
Lemma isxdigit_spec : forall c, uint 8 c ->
  (if isxdigit c then digit_of c = Some (u32 (if isdigit c then c - 48 else TOLOWER c - 97 + 10)) else digit_of c = None).
Proof. apply by_chars. repeat constructor. Qed.
Lemma TOLOWER_x : forall c, uint 8 c -> (TOLOWER c =? 120) = ((c =? 120) || (c =? 88)).
Proof. apply by_chars. repeat constructor. Qed.

(** ** The conversions *)
(** Wrapping at every digit is wrapping at the end. *)
Lemma fold_wrap w base ds : 0 <= w -> forall r, wrap w (foldl (fun v d => v * base + d) (wrap w r) ds) = wrap w (foldl (fun v d => v * base + d) r ds).
Proof.
  intros Hw. assert (0 < 2 ^ w) by (apply Z.pow_pos_nonneg; lia). assert (forall r r', wrap w r = wrap w r' ->
    wrap w (foldl (fun v d => v * base + d) r ds) = wrap w (foldl (fun v d => v * base + d) r' ds)) as Hc.
  { induction ds as [|d ds IH]; intros r r' E; [done|]. cbn. apply IH. unfold wrap in *.
    rewrite Z.add_mod, Z.mul_mod, E, <- Z.mul_mod, <- Z.add_mod by lia. done. }
  intros r. apply Hc. apply wrap_id, uint_wrap. lia.
Qed.
Definition cstring (s : list Z) : Prop := Forall (fun c => 0 < c < 2 ^ 8) s.
Section Read.
Context (s : list Z) (Hs : cstring s).

Lemma ch_eq i u : 0 <= i <= zlen s -> ch s i u = Some (at_ s i, u).
Proof using.
  intros Hi. unfold ch. case_decide as E; [by rewrite at_out by lia|]. rewrite zget_at by lia. done.
Qed.
Lemma at_char i : 0 <= i -> uint 8 (at_ s i).
Proof using Hs.
  intros Hi. destruct (decide (i < zlen s)); [|rewrite at_out by lia; done].
  pose proof (Forall_zget _ s i (at_ s i) Hs ltac:(apply zget_at; lia)). unfold uint. cbn in *. lia.
Qed.
Lemma zlen_leading base l : zlen (leading base l) <= zlen l.
Proof using.
  induction l as [|c l IH]; [done|]. cbn [leading]. pose proof (zlen_nonneg l). rewrite zlen_cons.
  destruct (digit_of c); [|change (zlen []) with 0; lia]. case_if E; [rewrite zlen_cons|change (zlen []) with 0]; lia.
Qed.
Lemma leading_step base i : 0 <= i < zlen s ->
  leading base (drop (Z.to_nat i) s) =
  match digit_of (at_ s i) with Some d => if d <? base then d :: leading base (drop (Z.to_nat (i + 1)) s) else [] | None => [] end.
Proof using.
  intros Hi. pose proof (zget_at s i Hi) as Hg. unfold zget in Hg. rewrite decide_True in Hg by lia.
  rewrite (drop_S _ _ _ Hg). replace (Z.to_nat (i + 1)) with (S (Z.to_nat i)) by lia. done.
Qed.

(** What a loop from [r] and [i] on still has to read. *)
Lemma strto_loop w base r i : 0 <= w -> 0 <= i <= zlen s -> uint w r ->
  let ds := leading base (drop (Z.to_nat i) s) in
  i + zlen ds <= zlen s /\
  wp (while (1 + length s) (strto_round w s base) (r, i)) (fun x _ => x = (wrap w (foldl (fun v d => v * base + d) r ds), i + zlen ds)) tt.
Proof using Hs.
  intros Hw Hi Hr ds. split.
  { pose proof (zlen_leading base (drop (Z.to_nat i) s)). unfold ds. rewrite zlen_drop in * by lia. lia. }
  set (V := wrap w _). set (E := i + zlen ds).
  assert (0 <= i <= zlen s /\ uint w r /\ wrap w (foldl (fun v d => v * base + d) r ds) = V /\ i + zlen ds = E) as HI by done.
  unfold ds in HI. clearbody V E. clear ds Hi Hr.
  apply (wp_while (fun x (_ : unit) => 0 <= x.2 <= zlen s /\ uint w x.1 /\
    wrap w (foldl (fun v d => v * base + d) x.1 (leading base (drop (Z.to_nat x.2) s))) = V /\ x.2 + zlen (leading base (drop (Z.to_nat x.2) s)) = E)
    _ (fun x => Z.to_nat (zlen s - x.2))); [done|unfold zlen in *; cbn; lia|].
  clear i r HI. intros [r i] [] (Hi & Hr & HV & HE). cbn [fst snd] in *. unfold strto_round.
  apply wp_bind. eapply wp_exact; [by apply ch_eq|]. cbv beta zeta. pose proof (isxdigit_spec _ (at_char i ltac:(lia))) as Hd.
  destruct (decide (i = zlen s)) as [->|Hne].
  { rewrite (at_out s) in * by lia. cbn. apply wp_ret. rewrite drop_ge in HV, HE by (unfold zlen; lia). cbn [leading foldl] in HV, HE.
    change (zlen []) with 0 in HE.
    rewrite wrap_id in HV by done. f_equal; [done|lia]. }
  rewrite leading_step in HV, HE by lia. destruct (isxdigit (at_ s i)); rewrite Hd in HV, HE.
  - set (v := u32 _) in *. destruct (Z.leb_spec base v).
    + apply wp_ret. rewrite (proj2 (Z.ltb_ge v base)) in HV, HE by lia. cbn [leading foldl] in HV, HE. change (zlen []) with 0 in HE.
      rewrite wrap_id in HV by done. f_equal; [done|lia].
    + apply wp_ret. rewrite (proj2 (Z.ltb_lt v base)) in HV, HE by lia. rewrite zlen_cons in HE. cbn [foldl] in HV. cbn [fst snd].
      split; [|lia]. split; [lia|]. split; [by apply uint_wrap|]. split; [|lia]. rewrite <- HV. by apply fold_wrap.
  - apply wp_ret. cbn [leading foldl] in HV, HE. change (zlen []) with 0 in HE. rewrite wrap_id in HV by done. f_equal; [done|lia].
Qed.

(** The string from [cp] on. *)
Abbreviation from cp := (drop (Z.to_nat cp) s).
Lemma at_from cp i : 0 <= cp -> 0 <= i -> at_ s (cp + i) = at_ (from cp) i.
Proof using. intros. by rewrite at_drop. Qed.
Lemma zlen_from cp : 0 <= cp <= zlen s -> zlen (from cp) = zlen s - cp.
Proof using. intros. rewrite zlen_drop; lia. Qed.
Lemma hex_prefix_eq t : Forall (uint 8) t ->
  hex_prefix t = (at_ t 0 =? 48) && (TOLOWER (at_ t 1) =? 120).
Proof using.
  intros Ht. destruct t as [|c0 [|c1 t]]; [done|by rewrite andb_false_r|]. cbn [hex_prefix].
  apply Forall_cons_iff in Ht as [_ [H1 _]%Forall_cons_iff]. change (at_ (c0 :: c1 :: t) 1) with c1. by rewrite TOLOWER_x.
Qed.
Lemma chars_from cp : Forall (uint 8) (from cp).
Proof using Hs. apply Forall_drop. eapply List.Forall_impl; [|exact Hs]. unfold uint. cbn. lia. Qed.

Lemma guess_eq cp u : 0 <= cp <= zlen s -> simple_guess_base s cp u = Some (its_base (from cp), u).
Proof using Hs.
  intros Hcp. pose proof (zlen_from cp Hcp) as Hl. pose proof (chars_from cp) as Hc. pose proof (at_from cp 0 ltac:(lia) ltac:(lia)) as A0.
  pose proof (at_from cp 1 ltac:(lia) ltac:(lia)) as A1. pose proof (at_from cp 2 ltac:(lia) ltac:(lia)) as A2. rewrite Z.add_0_r in A0.
  unfold simple_guess_base. run (ch_eq cp u Hcp). rewrite A0. destruct (from cp) as [|c0 t]; [done|]. change (at_ (c0 :: t) 0) with c0.
  destruct (Z.eqb_spec c0 48) as [->|H0].
  2: { unfold its_base. destruct c0 as [|p|p]; try done. repeat (destruct p as [p|p|]; try done). }
  rewrite zlen_cons in Hl. pose proof (zlen_nonneg t). run (ch_eq (cp + 1) u ltac:(lia)). rewrite A1. apply Forall_cons_iff in Hc as [_ Hc].
  destruct t as [|c1 t]; [done|]. change (at_ (48 :: c1 :: t) 1) with c1. apply Forall_cons_iff in Hc as [H1 Hc]. rewrite TOLOWER_x by done.
  rewrite zlen_cons in Hl. pose proof (zlen_nonneg t). destruct t as [|c2 t].
  { cbn [its_base]. case_if E; [|done]. change (zlen []) with 0 in Hl. run (ch_eq (cp + 2) u ltac:(lia)). rewrite A2. done. }
  change (at_ (48 :: c1 :: c2 :: t) 2) with c2 in A2. apply Forall_cons_iff in Hc as [H2 _]. cbn [its_base hex_prefix]. rewrite Z.eqb_refl.
  cbn [andb].
  case_if E; [|done]. run (ch_eq (cp + 2) u ltac:(lia)). rewrite A2. cbn [andb]. pose proof (isxdigit_spec c2 H2) as Hx.
  destruct (isxdigit c2); rewrite Hx; done.
Qed.

Lemma strtou_eq w cp base : 0 <= w -> 0 <= cp <= zlen s -> 
  simple_strtou w s cp base tt = Some ((wrap w (value (real_base (from cp) base) (number_in (from cp) base)),
    cp + after_prefix (from cp) base + zlen (number_in (from cp) base)), tt) /\
  cp + after_prefix (from cp) base + zlen (number_in (from cp) base) <= zlen s.
Proof using Hs.
  intros Hw Hcp. unfold simple_strtou. pose proof (zlen_from cp Hcp) as Hl. pose proof (chars_from cp) as Hc.
  assert ((if base =? 0 then simple_guess_base s cp else ret base) tt = Some (real_base (from cp) base, tt)) as Eb.
  { unfold real_base. case_if E; [by apply guess_eq|done]. }
  run Eb. run (ch_eq cp tt Hcp). pose proof (at_from cp 0 ltac:(lia) ltac:(lia)) as A0. rewrite Z.add_0_r in A0. rewrite A0.
  unfold number_in, after_prefix. rewrite (hex_prefix_eq _ Hc), andb_assoc. set (b := real_base _ _).
  assert ((if (b =? 16) && (at_ (from cp) 0 =? 48) then let* c1 := ch s (cp + 1) in ret (TOLOWER c1 =? 120) else ret false) tt =
    Some ((b =? 16) && (at_ (from cp) 0 =? 48) && (TOLOWER (at_ (from cp) 1) =? 120), tt)) as Eh.
  { destruct ((b =? 16) && (at_ (from cp) 0 =? 48)) eqn:E; [|done]. cbn [andb]. b2p.
    assert (cp < zlen s) by (destruct (from cp) as [|? t]; [done|rewrite zlen_cons in Hl; pose proof (zlen_nonneg t); lia]).
    run (ch_eq (cp + 1) tt ltac:(lia)). by rewrite at_from by lia. }
  run Eh. set (hex := _ && _).
  set (a := if hex then 2 else 0). replace (if hex then cp + 2 else cp) with (cp + a) by (unfold a; destruct hex; lia).
  assert (0 <= a /\ cp + a <= zlen s) as [Ha Hca].
  { unfold a. destruct hex eqn:E; [|lia]. unfold hex in E. b2p. destruct (from cp) as [|? [|? t]]; [done|done|]. rewrite !zlen_cons in Hl.
    pose proof (zlen_nonneg t). lia. }
  destruct (strto_loop w b 0 (cp + a) Hw ltac:(lia)) as [Hle (x & [] & E & ->)]. { split; [done|by apply Z.pow_pos_nonneg]. }
  rewrite E. rewrite drop_drop. replace (Z.to_nat cp + Z.to_nat a)%nat with (Z.to_nat (cp + a)) by lia. done.
Qed.
End Read.

(** ** Numerals *)
Definition digit_in (base c d : Z) : Prop := digit_of c = Some d /\ d < base.
(** The numerals of a base, with their values: digits, after an optional [0x] in
    base 16. *)
Inductive numeral (base : Z) : list Z -> Z -> Prop :=
| numeral_plain cs ds : Forall2 (digit_in base) cs ds -> numeral base cs (value base ds)
| numeral_hex x cs ds : base = 16 -> x = 120 \/ x = 88 -> Forall2 (digit_in base) cs ds -> numeral base (48 :: x :: cs) (value base ds).

Lemma leading_prefix base l : exists rest, Forall2 (digit_in base) (take (length (leading base l)) l) (leading base l) /\
  l = take (length (leading base l)) l ++ rest.
Proof.
  induction l as [|c l IH]; [by exists []|]. cbn [leading]. destruct (digit_of c) as [d|] eqn:E; [|by exists (c :: l)].
  destruct (Z.ltb_spec d base); [|by exists (c :: l)]. destruct IH as (rest & H1 & H2). exists rest. cbn. split; [by constructor|congruence].
Qed.
Lemma leading_whole base cs ds rest : Forall2 (digit_in base) cs ds -> rest = [] \/ rest = [10] -> leading base (cs ++ rest) = ds.
Proof.
  intros H Hr. induction H as [|c d cs ds [Hc Hd] H IH]; [by destruct Hr as [-> | ->]|]. cbn. rewrite Hc, (proj2 (Z.ltb_lt d base)) by done.
  by rewrite IH.
Qed.
Lemma digit_not_x c base d : digit_in base c d -> c <> 120 /\ c <> 88 /\ c <> 10.
Proof. intros [H _]. unfold digit_of in H. repeat case_decide; try done; lia. Qed.

Definition consumed (s : list Z) (base : Z) : Z := after_prefix s base + zlen (number_in s base).
(** What is read is a numeral ... *)
Lemma consumed_numeral s base : exists rest,
  numeral (real_base s base) (take (Z.to_nat (consumed s base)) s) (value (real_base s base) (number_in s base)) /\
  s = take (Z.to_nat (consumed s base)) s ++ rest.
Proof.
  unfold consumed, number_in, after_prefix. set (b := real_base s base). destruct ((b =? 16) && hex_prefix s) eqn:E.
  - apply andb_true_iff in E as [Eb%Z.eqb_eq Eh]. destruct s as [|c0 [|c1 s]]; [done|done|]. cbn in Eh. apply andb_true_iff in Eh as [E0%Z.eqb_eq E1].
    change (drop (Z.to_nat 2) (c0 :: c1 :: s)) with s. destruct (leading_prefix b s) as (rest & H1 & H2). exists rest.
    replace (Z.to_nat (2 + zlen (leading b s))) with (S (S (length (leading b s)))) by (unfold zlen; lia). cbn [take]. subst c0.
    split; [|cbn; congruence]. apply numeral_hex; [done| |done]. apply orb_true_iff in E1 as [->%Z.eqb_eq | ->%Z.eqb_eq]; tauto.
  - change (drop (Z.to_nat 0) s) with s. destruct (leading_prefix b s) as (rest & H1 & H2). exists rest.
    replace (Z.to_nat (0 + zlen (leading b s))) with (length (leading b s)) by (unfold zlen; lia). split; [by apply numeral_plain|done].
Qed.
(** ... and a numeral at the end of the string is read as a whole. *)
Lemma numeral_consumed s base body nl n : s = body ++ nl -> nl = [] \/ nl = [10] -> numeral (real_base s base) body n ->
  consumed s base = zlen body /\ value (real_base s base) (number_in s base) = n.
Proof.
  intros Es Hnl Hn. unfold consumed, number_in, after_prefix. set (b := real_base s base) in *. destruct Hn as [cs ds H|x cs ds Hb Hx H].
  - assert (hex_prefix s = false) as ->.
    { subst s. unfold hex_prefix.
      destruct cs as [|c0 [|c1 cs]]; [by destruct Hnl as [-> | ->]|destruct Hnl as [-> | ->]; [done|cbn; apply andb_false_r]|].
      inversion H as [|? ? ? ? _ H']; subst. inversion H' as [|? ? ? ? H1 _]; subst. cbn.
      apply digit_not_x in H1 as (? & ? & _). destruct (Z.eqb_spec c1 120), (Z.eqb_spec c1 88); try lia; by rewrite andb_false_r. }
    rewrite andb_false_r. change (drop (Z.to_nat 0) s) with s. rewrite Es, (leading_whole _ _ _ _ H Hnl).
    apply Forall2_length in H. unfold zlen. split; [lia|done].
  - assert (hex_prefix s = true) as ->. { subst s. destruct Hx as [-> | ->]; done. }
    rewrite Hb. cbn [Z.eqb Pos.eqb andb]. rewrite Hb in H. assert (drop (Z.to_nat 2) s = cs ++ nl) as -> by by subst s.
    rewrite (leading_whole _ _ _ _ H Hnl). apply Forall2_length in H. unfold zlen. cbn [length]. split; [lia|done].
Qed.

Lemma strict_strtou_eq w s cp base : cstring s -> 0 <= w -> zlen s < 2 ^ 31 -> 0 <= cp <= zlen s ->
  let t := drop (Z.to_nat cp) s in let k := consumed t base in
  strict_strtou w s cp base tt =
    Some (if bool_decide (0 < k /\ (k = zlen t \/ k + 1 = zlen t /\ at_ t k = 10)) then (0, wrap w (value (real_base t base) (number_in t base))) else (- EINVAL, 0), tt).
Proof.
  intros Hs Hw Hl Hcp t k. pose proof (zlen_from s cp Hcp) as Ht. destruct (strtou_eq s Hs w cp base Hw Hcp) as [E Hk]. fold t in E, Hk, Ht.
  rewrite <- Z.add_assoc in E, Hk. fold (consumed t base) in E, Hk. fold k in E, Hk.
  assert (0 <= k) by (unfold k, consumed, after_prefix; pose proof (zlen_nonneg (number_in t base)); case_if E'; lia).
  assert (at_ s (cp + k) = at_ t k) as Ak by (apply at_from; lia).
  unfold strict_strtou. destruct (Z.eqb_spec (zlen s - cp) 0). { rewrite bool_decide_eq_false_2 by lia. done. }
  run E. destruct (Z.eqb_spec (cp + k) cp). { rewrite bool_decide_eq_false_2 by lia. done. }
  run (ch_eq s (cp + k) tt ltac:(lia)). rewrite Ak, <- Ht. replace (cp + k - cp + 1) with (k + 1) by lia. rewrite u32_id by lia.
  case_bool_decide as D.
  - replace ((at_ t k =? 0) || ((zlen t =? k + 1) && (at_ t k =? 10))) with true; [done|].
    destruct D as [_ [D|[D1 D2]]]; [by rewrite at_out by lia|]. rewrite D2, D1, Z.eqb_refl. done.
  - replace ((at_ t k =? 0) || ((zlen t =? k + 1) && (at_ t k =? 10))) with false; [done|]. symmetry. apply orb_false_iff. split.
    + apply Z.eqb_neq. destruct (decide (k = zlen t)); [lia|]. rewrite <- Ak.
      pose proof (Forall_zget _ s (cp + k) (at_ s (cp + k)) Hs ltac:(apply zget_at; lia)) as Hc. cbn in Hc. lia.
    + apply andb_false_iff. rewrite !Z.eqb_neq. lia.
Qed.

Lemma leading_longest base cs ds rest : Forall2 (digit_in base) cs ds -> zlen cs <= zlen (leading base (cs ++ rest)).
Proof.
  intros H. induction H as [|c d cs ds [Hc Hd] H IH]; [apply zlen_nonneg|]. cbn [leading app]. rewrite Hc, (proj2 (Z.ltb_lt d base)) by done.
  rewrite !zlen_cons. lia.
Qed.
(** No longer numeral could be read. *)
Lemma numeral_longest s base body rest n : s = body ++ rest -> numeral (real_base s base) body n -> zlen body <= consumed s base.
Proof.
  intros Es Hn. unfold consumed, number_in, after_prefix. set (b := real_base s base) in *. destruct Hn as [cs ds H|x cs ds Hb Hx H].
  - case_if E; [|change (drop (Z.to_nat 0) s) with s; rewrite Es; by eapply leading_longest].
    pose proof (zlen_nonneg (leading b (drop (Z.to_nat 2) s))). apply andb_true_iff in E as [_ E]. subst s.
    destruct cs as [|c0 [|c1 cs]]; [change (zlen []) with 0; lia|change (zlen [_]) with 1; lia|].
    inversion H as [|? ? ? ? _ H']; subst. inversion H' as [|? ? ? ? H1 _]; subst. apply digit_not_x in H1 as (? & ? & _).
    cbn in E. destruct (Z.eqb_spec c1 120), (Z.eqb_spec c1 88); try lia; by rewrite andb_false_r in E.
  - assert (hex_prefix s = true) as -> by (subst s; by destruct Hx as [-> | ->]). rewrite Hb in *. cbn [Z.eqb Pos.eqb andb].
    assert (drop (Z.to_nat 2) s = cs ++ rest) as -> by by subst s. rewrite !zlen_cons. pose proof (leading_longest _ _ _ rest H). lia.
Qed.

Lemma sgn_opp_wrap w n : 0 <= w -> sgn w (- wrap w n) = sgn w (- n).
Proof. intros. pose proof (sgn_mul_wrap w n (-1) ltac:(done)) as E. by rewrite <- !Z.opp_eq_mul_m1 in E. Qed.
Lemma sgn_wrap w n : 0 <= w -> sgn w (wrap w n) = sgn w n.
Proof. intros. pose proof (sgn_mul_wrap w n 1 ltac:(done)) as E. by rewrite !Z.mul_1_r in E. Qed.
(** What a conversion at [cp] reads: the longest numeral there, of the value [n], in the
    base that is given or, if it is 0, that the string calls for. *)
Definition reads (s : list Z) (cp base n endp : Z) : Prop :=
  let t := drop (Z.to_nat cp) s in
  exists body rest, t = body ++ rest /\ numeral (real_base t base) body n /\ endp = cp + zlen body /\
    forall body' rest' n', t = body' ++ rest' -> numeral (real_base t base) body' n' -> zlen body' <= zlen body.
Lemma strtou_reads s cp base : cstring s -> 0 <= cp <= zlen s ->
  exists n endp, reads s cp base n endp /\ forall w, 0 <= w -> simple_strtou w s cp base tt = Some ((wrap w n, endp), tt).
Proof.
  intros Hs Hcp. pose proof (fun w Hw => proj1 (strtou_eq s Hs w cp base Hw Hcp)) as E.
  pose proof (proj2 (strtou_eq s Hs 0 cp base ltac:(done) Hcp)) as Hle. set (t := drop (Z.to_nat cp) s) in *.
  destruct (consumed_numeral t base) as (rest & Hn & Et). rewrite <- Z.add_assoc in Hle. fold (consumed t base) in Hle.
  assert (0 <= consumed t base) by (unfold consumed, after_prefix; pose proof (zlen_nonneg (number_in t base)); case_if E'; lia).
  assert (zlen t = zlen s - cp) as Ht by (unfold t; rewrite zlen_drop; lia).
  eexists _, (cp + consumed t base). split; [|intros w Hw; rewrite E, <- Z.add_assoc by done; reflexivity].
  exists (take (Z.to_nat (consumed t base)) t), rest. rewrite zlen_take by lia.
  split; [done|]. split; [done|]. split; [lia|]. intros body' rest' n' Et' Hn'. pose proof (numeral_longest t base body' rest' n' Et' Hn'). lia.
Qed.

(** C18. The four conversions read the longest numeral at the beginning of the string, after
    a minus sign for the signed ones, in the base given or recognised from the prefix, and
    return its value modulo the width of the type and the place behind it; they read no
    character behind the terminator and end. *)
Theorem strtoul_correct (s : list Z) (cp base : Z) (Hs : cstring s) (Hcp : 0 <= cp <= zlen s) :
  exists n endp n' endp', reads s cp base n endp /\ (at_ s cp = 45 -> reads s (cp + 1) base n' endp') /\
    simple_strtoul s cp base tt = Some ((u32 n, endp), tt) /\ simple_strtoull s cp base tt = Some ((u64 n, endp), tt) /\
    simple_strtol s cp base tt = Some (if at_ s cp =? 45 then (s32 (- n'), endp') else (s32 n, endp), tt) /\
    simple_strtoll s cp base tt = Some (if at_ s cp =? 45 then (s64 (- n'), endp') else (s64 n, endp), tt).
Proof.
  destruct (strtou_reads s cp base Hs Hcp) as (n & e & H & E). exists n, e.
  unfold simple_strtoul, simple_strtoull, simple_strtol, simple_strtoll, simple_strto. rewrite !(bind_Some _ _ _ _ _ (ch_eq s cp tt Hcp)).
  destruct (Z.eqb_spec (at_ s cp) 45) as [E45|E45].
  - assert (cp < zlen s) by (destruct (decide (cp = zlen s)); [by rewrite at_out in E45 by lia|lia]).
    destruct (strtou_reads s (cp + 1) base Hs ltac:(lia)) as (n' & e' & H' & E'). exists n', e'.
    
    rewrite !E, (bind_Some _ _ _ _ _ (E' 32 ltac:(done))), (bind_Some _ _ _ _ _ (E' 64 ltac:(done))) by done. cbn [fst snd]. by rewrite !sgn_opp_wrap.
  - exists 0, 0. rewrite (bind_Some _ _ _ _ _ (E 32 ltac:(done))), (bind_Some _ _ _ _ _ (E 64 ltac:(done))), !E by done.
    cbn [fst snd]. by rewrite !sgn_wrap.
Qed.

Lemma strtoul_correct_witness : exists n endp, reads [45; 48; 120; 49; 70; 32] 1 0 n endp /\
  simple_strtoul [45; 48; 120; 49; 70; 32] 1 0 tt = Some ((u32 n, endp), tt).
Proof.
  assert (cstring [45; 48; 120; 49; 70; 32]) as Hs by (repeat constructor).
  assert (0 <= 1 <= zlen [45; 48; 120; 49; 70; 32]) as Hc by (split; vm_compute; discriminate).
  destruct (strtoul_correct _ 1 0 Hs Hc) as (n & e & n' & e' & H1 & _ & H2 & _). exists n, e. split; [exact H1|exact H2].
Defined.

(** The strings that are one numeral, with at most one newline at the end. *)
Definition whole_number (s : list Z) (base n : Z) : Prop :=
  exists body, (s = body \/ s = body ++ [10]) /\ body <> [] /\ numeral (real_base s base) body n.
Lemma whole_number_iff s base n : whole_number s base n <->
  (0 < consumed s base /\ (consumed s base = zlen s \/ consumed s base + 1 = zlen s /\ at_ s (consumed s base) = 10)) /\
  n = value (real_base s base) (number_in s base).
Proof.
  split.
  - intros (body & Hs & Hne & Hn). assert (exists nl, s = body ++ nl /\ (nl = [] \/ nl = [10])) as (nl & Es & Hnl).
    { destruct Hs as [-> | ->]; [exists []; rewrite app_nil_r; tauto|exists [10]; tauto]. }
    destruct (numeral_consumed s base body nl n Es Hnl Hn) as [-> ->]. split; [|done].
    split; [destruct body as [|c body]; [done|]; rewrite zlen_cons; pose proof (zlen_nonneg body); lia|].
    subst s. destruct Hnl as [-> | ->]; [left; by rewrite app_nil_r|right]. rewrite zlen_app. split; [done|].
    rewrite at_app_r by lia. by rewrite Z.sub_diag.
  - intros [[Hk Hend] ->]. destruct (consumed_numeral s base) as (rest & Hn & Es). set (k := consumed s base) in *.
    exists (take (Z.to_nat k) s). split; [|split; [|done]].
    + destruct Hend as [E|[E1 E2]]; [left; by rewrite take_ge by (unfold zlen in E; lia)|right].
      rewrite Es at 1. f_equal. assert (rest = drop (Z.to_nat k) s) as ->.
      { rewrite <- (take_drop (Z.to_nat k) s) in Es at 1. by apply app_inv_head in Es. }
      pose proof (zget_at s k ltac:(lia)) as Hg. unfold zget in Hg. rewrite decide_True in Hg by lia.
      rewrite (drop_S _ _ _ Hg), E2, drop_ge; [done|unfold zlen in *; lia].
    + intros E. apply (f_equal zlen) in E. rewrite zlen_take in E by lia. change (zlen []) with 0 in E. lia.
Qed.

(** What the strict conversions say of the string from [cp] on. *)
Lemma strict_strtou_spec w s cp base : cstring s -> 0 <= w -> zlen s < 2 ^ 31 -> 0 <= cp <= zlen s ->
  let t := drop (Z.to_nat cp) s in
  (forall n, whole_number t base n -> strict_strtou w s cp base tt = Some ((0, wrap w n), tt)) /\
  ((forall n, ~ whole_number t base n) -> strict_strtou w s cp base tt = Some ((- EINVAL, 0), tt)).
Proof.
  intros Hs Hw Hl Hcp t. rewrite (strict_strtou_eq w s cp base Hs Hw Hl Hcp). fold t. split.
  - intros n [Hk ->]%whole_number_iff. by rewrite bool_decide_eq_true_2.
  - intros Hn. rewrite bool_decide_eq_false_2; [done|]. intros Hk. eapply Hn, whole_number_iff. split; [exact Hk|done].
Qed.
Definition unsigned_part (s : list Z) : list Z := if at_ s 0 =? 45 then drop 1 s else s.
Definition negated (s : list Z) (n : Z) : Z := if at_ s 0 =? 45 then - n else n.
Lemma strict_strto_spec w s base : cstring s -> 1 <= w -> zlen s < 2 ^ 31 ->
  (forall n, whole_number (unsigned_part s) base n -> strict_strto w s 0 base tt = Some ((0, sgn w (negated s n)), tt)) /\
  ((forall n, ~ whole_number (unsigned_part s) base n) -> strict_strto w s 0 base tt = Some ((- EINVAL, 0), tt)).
Proof.
  intros Hs Hw Hl. pose proof (zlen_nonneg s). assert (sgn w 0 = 0) as S0 by (apply sgn_id; [pose proof (Z.pow_pos_nonneg 2 (w - 1)); lia|lia]).
  unfold strict_strto, unsigned_part, negated. rewrite (bind_Some _ _ _ _ _ (ch_eq s 0 tt ltac:(lia))).
  destruct (Z.eqb_spec (at_ s 0) 45) as [E|E].
  - assert (0 < zlen s) by (destruct (decide (0 < zlen s)); [done|by rewrite at_out in E by lia]).
    destruct (strict_strtou_spec w s 1 base Hs ltac:(lia) Hl ltac:(lia)) as [H1 H2]. change (drop (Z.to_nat 1) s) with (drop 1 s) in *.
    split; [intros n Hn; run (H1 n Hn)|intros Hn; run (H2 Hn)]; cbn; [by rewrite sgn_opp_wrap by lia|by rewrite S0].
  - destruct (strict_strtou_spec w s 0 base Hs ltac:(lia) Hl ltac:(lia)) as [H1 H2]. change (drop (Z.to_nat 0) s) with s in *.
    split; [intros n Hn; run (H1 n Hn)|intros Hn; run (H2 Hn)]; cbn; [by rewrite sgn_wrap by lia|by rewrite S0].
Qed.

(** The strict conversions accept exactly the strings that are one numeral, up to a
    newline at the end and, for the signed ones, a minus sign in front, and give its value
    modulo the width of the type; for every other string they return [-EINVAL] and 0. *)
Theorem strict_strtoul_correct (s : list Z) (base : Z) (Hs : cstring s) (Hl : zlen s < 2 ^ 31) :
  (forall n, whole_number s base n ->
     strict_strtoul s 0 base tt = Some ((0, u32 n), tt) /\ strict_strtoull s 0 base tt = Some ((0, u64 n), tt)) /\
  ((forall n, ~ whole_number s base n) ->
     strict_strtoul s 0 base tt = Some ((- EINVAL, 0), tt) /\ strict_strtoull s 0 base tt = Some ((- EINVAL, 0), tt)) /\
  (forall n, whole_number (unsigned_part s) base n ->
     strict_strtol s 0 base tt = Some ((0, s32 (negated s n)), tt) /\ strict_strtoll s 0 base tt = Some ((0, s64 (negated s n)), tt)) /\
  ((forall n, ~ whole_number (unsigned_part s) base n) ->
     strict_strtol s 0 base tt = Some ((- EINVAL, 0), tt) /\ strict_strtoll s 0 base tt = Some ((- EINVAL, 0), tt)).
Proof.
  pose proof (zlen_nonneg s). pose proof (fun w Hw => strict_strtou_spec w s 0 base Hs Hw Hl ltac:(lia)) as U.
  pose proof (fun w Hw => strict_strto_spec w s base Hs Hw Hl) as S.
  change (drop (Z.to_nat 0) s) with s in U. split; [|split; [|split]].
  - intros n Hn. split; by apply U.
  - intros Hn. split; by apply U.
  - intros n Hn. split; by apply S.
  - intros Hn. split; by apply S.
Qed.

Lemma strict_strtoul_correct_witness : strict_strtoul [49; 50; 10] 0 10 tt = Some ((0, u32 12), tt).
Proof.
  assert (cstring [49; 50; 10]) as Hs by (repeat constructor). assert (zlen [49; 50; 10] < 2 ^ 31) as Hl by (vm_compute; reflexivity).
  apply (proj1 (strict_strtoul_correct [49; 50; 10] 10 Hs Hl) 12). exists [49; 50]. split; [right; reflexivity|]. split; [discriminate|].
  apply (numeral_plain 10 [49; 50] [1; 2]). repeat constructor.
Defined.
