(* ===== verification/Vsprintf.v ===== *)
(** * Formatted output

    The printing half of [lib/vsprintf.c]: the decimal conversion by multiplication
    with reciprocals, [number], [string], [pointer] and [vsnprintf] with its
    wrappers.  The output buffer is a list of bytes at an address; [str] is kept as the
    number of characters put out so far, and the pointer is the address plus that number
    in 32 bits.  Every routine writes only in front of [end] and counts on behind it.

    The arguments are a list of values tagged with their C types, and taking one at
    another type is a fault, as it is undefined in C.  [int], [long], [size_t] and
    [ptrdiff_t] have 32 bits.  A string or pointer argument carries what it points
    to.  [kallsyms] is a parameter of the model. *)

From Stdlib Require Import ZArith Lia.
From stdpp Require Import base tactics numbers list gmap option.
From S2P Require Import Prelude Cipher CString StrTo.

(** ** Decimal digits *)
(** The characters that the routines append, least significant digit first. *)
Definition put_dec_trunc (q : Z) : list Z :=
  let d1 := Z.land (Z.shiftr q 4) 0xf in
  let d2 := Z.land (Z.shiftr q 8) 0xf in
  let d3 := Z.shiftr q 12 in
  let d0 := u32 (6 * (d3 + d2 + d1) + Z.land q 0xf) in
  let q := Z.shiftr (u32 (d0 * 0xcd)) 11 in
  let d0 := u32 (d0 - 10 * q) in
  let d1 := u32 (q + 9 * d3 + 5 * d2 + d1) in
  u8 (d0 + 48) ::
  if negb (d1 =? 0) then
    let q := Z.shiftr (u32 (d1 * 0xcd)) 11 in
    let d1 := u32 (d1 - 10 * q) in
    let d2 := u32 (q + 2 * d2) in
    u8 (d1 + 48) ::
    if negb (d2 =? 0) || negb (d3 =? 0) then
      let q := Z.shiftr (u32 (d2 * 0xd)) 7 in
      let d2 := u32 (d2 - 10 * q) in
      let d3 := u32 (q + 4 * d3) in
      u8 (d2 + 48) ::
      if negb (d3 =? 0) then
        let q := Z.shiftr (u32 (d3 * 0xcd)) 11 in
        let d3 := u32 (d3 - 10 * q) in
        u8 (d3 + 48) :: if negb (q =? 0) then [u8 (q + 48)] else []
      else []
    else []
  else [].
Definition put_dec_full (q : Z) : list Z :=
  let d1 := Z.land (Z.shiftr q 4) 0xf in
  let d2 := Z.land (Z.shiftr q 8) 0xf in
  let d3 := Z.shiftr q 12 in
  let d0 := u32 (6 * (d3 + d2 + d1) + Z.land q 0xf) in
  let q := Z.shiftr (u32 (d0 * 0xcd)) 11 in
  let d0 := u32 (d0 - 10 * q) in
  let d1 := u32 (q + 9 * d3 + 5 * d2 + d1) in
  let q := Z.shiftr (u32 (d1 * 0xcd)) 11 in
  let d1 := u32 (d1 - 10 * q) in
  let d2 := u32 (q + 2 * d2) in
  let q := Z.shiftr (u32 (d2 * 0xd)) 7 in
  let d2 := u32 (d2 - 10 * q) in
  let d3 := u32 (q + 4 * d3) in
  let q := Z.shiftr (u32 (d3 * 0xcd)) 11 in
  let d3 := u32 (d3 - 10 * q) in
  [u8 (d0 + 48); u8 (d1 + 48); u8 (d2 + 48); u8 (d3 + 48); u8 (q + 48)].
(** The loop divides by 100000; a 64-bit number takes at most three rounds. *)
Definition put_dec_round {S} : list Z * Z -> ST S (list Z * Z + list Z) := fun '(buf, num) =>
  if num <? 100000 then ret (inr (buf ++ put_dec_trunc num))
  else ret (inl (buf ++ put_dec_full (num mod 100000), num / 100000)).
Definition put_dec {S} (num : Z) : ST S (list Z) := while 5 put_dec_round ([], num).

(** ** The state *)
(** What a pointer argument points to, where a conversion reads it. *)
Inductive pointee := Resource (start end_ flags : Z) | Bytes (b : list Z) | Opaque_.
Inductive arg :=
| AInt (v : Z) | ALong (v : Z) | ALongLong (v : Z) | ASize (v : Z) | APtrdiff (v : Z)
| AString (s : option (list Z)) | APointer (p : Z) (o : pointee) | AOut (id : Z).
(** The buffer, the offset [str], the arguments left, and what [%n] has stored. *)
Record out := Out { buf : list Z; str : Z; args : list arg; stores : list (Z * Z) }.
Abbreviation PR := (ST out).

(** Where the output goes: the address of the buffer, and [end] as an offset from it. *)
Record window := Window { buf_at : Z; room : Z }.

Section Printf.
Context (end_ : window).

(** [if (buf < end) *buf = c; ++buf;], where the pointer has 32 bits and comes back to 0
    behind the last address. *)
Definition emit (c : Z) : PR unit := fun o =>
  let p := u32 (buf_at end_ + str o) in
  if p <? buf_at end_ + room end_ then
    let i := p - buf_at end_ in
    if decide (0 <= i < zlen (buf o)) then Some (tt, Out (upd (buf o) i c) (str o + 1) (args o) (stores o)) else None
  else Some (tt, Out (buf o) (str o + 1) (args o) (stores o)).
Fixpoint emit_all (l : list Z) : PR unit := match l with [] => ret tt | c :: l => (emit c ;; emit_all l) end.

(** [while (--size >= 0) emit c], which leaves [size]; the counter wraps at [INT_MIN], and
    the loop ends when it is below 0. *)
Definition pad_round (c size : Z) : PR (Z + Z) :=
  let size := s32 (size - 1) in
  if 0 <=? size then (emit c ;; ret (inl size)) else ret (inr size).
Definition pad (c size : Z) : PR Z := while (1 + Z.to_nat (s32 (size - 1) + 1)) (pad_round c) size.

Definition ZEROPAD : Z := 1.
Definition SIGN : Z := 2.
Definition PLUS : Z := 4.
Definition SPACE : Z := 8.
Definition LEFT : Z := 16.
Definition SMALL : Z := 32.
Definition SPECIAL : Z := 64.
Definition has (type f : Z) : bool := negb (Z.land type f =? 0).
Definition digits16 : list Z := [48; 49; 50; 51; 52; 53; 54; 55; 56; 57; 65; 66; 67; 68; 69; 70].

(** The digits of base 8 or 16. *)
Definition pow2_round (mask shift locase : Z) : list Z * Z -> PR (list Z * Z + list Z) := fun '(tmp, num) =>
  if 66 <=? zlen tmp then fault
  else
    let tmp := tmp ++ [Z.lor (at_ digits16 (Z.land (u8 num) mask)) locase] in
    let num := Z.shiftr num shift in
    ret (if num =? 0 then inr tmp else inl (tmp, num)).

(** [while (i <= --precision) emit '0'] *)
Definition zeros_round (i precision : Z) : PR (Z + unit) :=
  let precision := s32 (precision - 1) in
  if i <=? precision then (emit 48 ;; ret (inl precision)) else ret (inr tt).
(** [while (--i >= 0) emit tmp[i]] *)
Definition digits_round (tmp : list Z) (i : Z) : PR (Z + unit) :=
  let i := i - 1 in
  if 0 <=? i then (emit (at_ tmp i) ;; ret (inl i)) else ret (inr tt).

Definition number (num base size precision type : Z) : PR unit :=
  let need_pfx := has type SPECIAL && negb (base =? 10) in
  let locase := Z.land type SMALL in
  let type := if has type LEFT then Z.land type (Z.lnot ZEROPAD) else type in
  let '(sign, num, size) :=
    (if has type SIGN then
       if s64 num <? 0 then (45, u64 (- s64 num), s32 (size - 1))
       else if has type PLUS then (43, num, s32 (size - 1))
       else if has type SPACE then (32, num, s32 (size - 1))
       else (0, num, size)
     else (0, num, size)) in
  let size := if need_pfx then (if base =? 16 then s32 (s32 (size - 1) - 1) else s32 (size - 1)) else size in
  let* tmp :=
    (if num =? 0 then ret [48]
     else if negb (base =? 10) then
       while 66 (pow2_round (base - 1) (if base =? 16 then 4 else 3) locase) ([], num)
     else put_dec num) in
  let i := zlen tmp in
  let precision := if precision <? i then i else precision in
  let size := s32 (size - precision) in
  let* size := (if negb (has type (ZEROPAD + LEFT)) then pad 32 size else ret size) in
  (if negb (sign =? 0) then emit sign else ret tt) ;;
  (if need_pfx then (emit 48 ;; if base =? 16 then emit (Z.lor 88 locase) else ret tt) else ret tt) ;;
  let* size := (if negb (has type LEFT) then pad (if has type ZEROPAD then 48 else 32) size else ret size) in
  while (1 + Z.to_nat precision) (zeros_round i) precision ;;
  while (1 + length tmp) (digits_round tmp) i ;;
  let* _ := pad 32 size in
  ret tt.

(** [while (len < field_width--) emit ' '] *)
Definition width_round (len width : Z) : PR (Z + Z) :=
  if len <? width then (emit 32 ;; ret (inl (s32 (width - 1)))) else ret (inr (s32 (width - 1))).
Definition widen (len width : Z) : PR Z := while (1 + Z.to_nat (width - len)) (width_round len) width.
(** [strnlen(s, precision)], where the precision is converted to [size_t]. *)
Definition strnlen_of (s : list Z) (precision : Z) : Z := Z.min (zlen s) (u32 precision).
Definition null_text : list Z := [60; 78; 85; 76; 76; 62].
(** A null pointer is below [PAGE_SIZE]. *)
Definition string (s : option (list Z)) (field_width precision flags : Z) : PR unit :=
  let s := default null_text s in
  let len := s32 (strnlen_of s precision) in
  let* field_width := (if negb (has flags LEFT) then widen len field_width else ret field_width) in
  emit_all (take (Z.to_nat len) s) ;;
  let* _ := widen len field_width in
  ret tt.
End Printf.

(** *** Pointers *)
Definition hex_asc : list Z := [48; 49; 50; 51; 52; 53; 54; 55; 56; 57; 97; 98; 99; 100; 101; 102].
Definition hex_asc_lo (x : Z) : Z := at_ hex_asc (Z.land x 0x0f).
Definition hex_asc_hi (x : Z) : Z := at_ hex_asc (Z.shiftr (Z.land x 0xf0) 4).
(** A local array of characters is an output of its own, written through [p]: *)
(** [*p++ = c] *)
Definition put_char (c : Z) : PR unit := fun o =>
  if decide (0 <= str o < zlen (buf o)) then Some (tt, Out (upd (buf o) (str o) c) (str o + 1) (args o) (stores o)) else None.
Fixpoint put_chars (l : list Z) : PR unit := match l with [] => ret tt | c :: l => (put_char c ;; put_chars l) end.
Definition pack_hex_byte (byte : Z) : PR unit := put_char (hex_asc_hi byte) ;; put_char (hex_asc_lo byte).
(** The string left in a local array of [n] characters, which ends at the first
    terminator. *)
Definition string_in (l : list Z) : list Z := take (Z.to_nat (default (zlen l) (Z.of_nat <$> (fst <$> list_find (fun c => c = 0) l)))) l.
Definition local_string (n : Z) (m : PR unit) : PR (list Z) := fun o =>
  match m (Out (replicate (Z.to_nat n) 0) 0 [] []) with Some (_, o') => Some (string_in (buf o'), o) | None => None end.

Definition IORESOURCE_IO : Z := 0x100.
Definition IORESOURCE_MEM : Z := 0x200.
Definition read_byte (b : list Z) (i : Z) : PR Z := match zget b i with Some x => ret (u8 x) | None => fault end.

Section Pointer.
(** The text of a symbol ([sprint_symbol] of [kernel/kallsyms.c]), and where the output goes. *)
Context (sprint_symbol : Z -> list Z) (end_ : window).

Definition symbol_string (value field_width precision flags : Z) : PR unit :=
  string end_ (Some (sprint_symbol value)) field_width precision flags.
(** [resource_size_t] has 32 bits, so that [sym] holds 24 characters. *)
Definition resource_string (start stop rflags field_width precision flags : Z) : PR unit :=
  let size := if has rflags IORESOURCE_IO then 4 else if has rflags IORESOURCE_MEM then 8 else -1 in
  let f := Z.lor (Z.lor SPECIAL SMALL) ZEROPAD in
  let pend := Window 0 24 in
  let* sym := local_string 24
    (put_char 91 ;; number pend (u32 start) 16 size (-1) f ;;
     put_char 45 ;; number pend (u32 stop) 16 size (-1) f ;; put_char 93 ;; put_char 0) in
  string end_ (Some sym) field_width precision flags.
Definition mac_address_string (addr : list Z) (field_width precision flags : Z) : PR unit :=
  let* mac := local_string 18
    (for_ 6 0 (fun i =>
       let* b := read_byte addr i in
       pack_hex_byte b ;;
       if negb (has flags SPECIAL) && negb (i =? 5) then put_char 58 else ret tt) ;;
     put_char 0) in
  string end_ (Some mac) field_width precision (Z.land flags (Z.lnot SPECIAL)).
Definition ip6_addr_string (addr : list Z) (field_width precision flags : Z) : PR unit :=
  let* ip6 := local_string 40
    (for_ 8 0 (fun i =>
       let* b := read_byte addr (2 * i) in
       pack_hex_byte b ;;
       let* b := read_byte addr (2 * i + 1) in
       pack_hex_byte b ;;
       if negb (has flags SPECIAL) && negb (i =? 7) then put_char 58 else ret tt) ;;
     put_char 0) in
  string end_ (Some ip6) field_width precision (Z.land flags (Z.lnot SPECIAL)).
(** [temp] holds three characters. *)
Definition ip4_addr_string (addr : list Z) (field_width precision flags : Z) : PR unit :=
  let* ip4 := local_string 16
    (for_ 4 0 (fun i =>
       let* b := read_byte addr i in
       let temp := put_dec_trunc b in
       if 3 <? zlen temp then fault
       else
         put_chars (rev temp) ;;
         if negb (i =? 3) then put_char 46 else ret tt) ;;
     put_char 0) in
  string end_ (Some ip4) field_width precision (Z.land flags (Z.lnot SPECIAL)).

(** [fmt] is behind the [p]. *)
Definition pointer (fmt : list Z) (ptr : Z) (o : pointee) (field_width precision flags : Z) : PR unit :=
  let plain flags :=
    let flags := Z.lor flags SMALL in
    let '(field_width, flags) := if field_width =? -1 then (8, Z.lor flags ZEROPAD) else (field_width, flags) in
    number end_ (u32 ptr) 16 field_width precision flags in
  if ptr =? 0 then string end_ (Some [40; 110; 117; 108; 108; 41]) field_width precision flags
  else
    let c := at_ fmt 0 in
    if (c =? 70) || (c =? 83) then symbol_string ptr field_width precision flags
    else if c =? 82 then match o with Resource a b f => resource_string a b f field_width precision flags | _ => fault end
    else if (c =? 109) || (c =? 77) then
      let flags := if c =? 109 then Z.lor flags SPECIAL else flags in
      match o with Bytes b => mac_address_string b field_width precision flags | _ => fault end
    else if (c =? 105) || (c =? 73) then
      let flags := if c =? 105 then Z.lor flags SPECIAL else flags in
      if at_ fmt 1 =? 54 then match o with Bytes b => ip6_addr_string b field_width precision flags | _ => fault end
      else if at_ fmt 1 =? 52 then match o with Bytes b => ip4_addr_string b field_width precision flags | _ => fault end
      else plain (Z.land flags (Z.lnot SPECIAL))
    else plain flags.

(** *** Formats *)
(** [while (isalnum(fmt[1])) fmt++] *)
Fixpoint skip_alnum (fmt : list Z) : list Z :=
  match fmt with c :: fmt' => if isalnum c then skip_alnum fmt' else fmt | [] => [] end.
Fixpoint skip_atoi (fmt : list Z) (i : Z) : list Z * Z :=
  match fmt with
  | c :: fmt' => if isdigit c then skip_atoi fmt' (s32 (i * 10 + c - 48)) else (fmt, i)
  | [] => ([], i)
  end.
(** The flags at the label [repeat]. *)
Fixpoint flag_chars (fmt : list Z) (flags : Z) : list Z * Z :=
  match fmt with
  | 45 :: fmt' => flag_chars fmt' (Z.lor flags LEFT)
  | 43 :: fmt' => flag_chars fmt' (Z.lor flags PLUS)
  | 32 :: fmt' => flag_chars fmt' (Z.lor flags SPACE)
  | 35 :: fmt' => flag_chars fmt' (Z.lor flags SPECIAL)
  | 48 :: fmt' => flag_chars fmt' (Z.lor flags ZEROPAD)
  | _ => (fmt, flags)
  end.
(** [va_arg] *)
Definition next_arg : PR arg := fun o =>
  match args o with a :: l => Some (a, Out (buf o) (str o) l (stores o)) | [] => None end.
Definition arg_int : PR Z := let* a := next_arg in match a with AInt v => ret v | _ => fault end.

Definition get_width (fmt : list Z) (flags : Z) : PR (list Z * Z * Z) :=
  match fmt with
  | 42 :: fmt' =>
      let* v := arg_int in
      let w := s32 v in
      ret (if w <? 0 then (fmt', s32 (- w), Z.lor flags LEFT) else (fmt', w, flags))
  | c :: _ => if isdigit c then let '(fmt', w) := skip_atoi fmt 0 in ret (fmt', w, flags) else ret (fmt, -1, flags)
  | [] => ret (fmt, -1, flags)
  end.
Definition get_precision (fmt : list Z) : PR (list Z * Z) :=
  match fmt with
  | 46 :: fmt' =>
      let* fp :=
        (match fmt' with
         | 42 :: fmt'' => let* v := arg_int in ret (fmt'', s32 v)
         | c :: _ => if isdigit c then ret (skip_atoi fmt' 0) else ret (fmt', -1)
         | [] => ret (fmt', -1)
         end) in
      ret (fp.1, if fp.2 <? 0 then 0 else fp.2)
  | _ => ret (fmt, -1)
  end.
Definition get_qualifier (fmt : list Z) : list Z * Z :=
  match fmt with
  | c :: fmt' =>
      if (c =? 104) || (c =? 108) || (c =? 76) || (c =? 90) || (c =? 122) || (c =? 116) then
        if (c =? 108) && (at_ fmt' 0 =? 108) then (drop 1 fmt', 76) else (fmt', c)
      else (fmt, -1)
  | [] => (fmt, -1)
  end.

(** The integer argument, converted to [unsigned long long]. *)
Definition get_num (qualifier flags : Z) : PR Z :=
  let* a := next_arg in
  if qualifier =? 76 then match a with ALongLong v => ret (u64 v) | _ => fault end
  else if qualifier =? 108 then
    match a with ALong v => ret (if has flags SIGN then u64 (s32 v) else u32 v) | _ => fault end
  else if (qualifier =? 90) || (qualifier =? 122) then match a with ASize v => ret (u32 v) | _ => fault end
  else if qualifier =? 116 then match a with APtrdiff v => ret (u64 (s32 v)) | _ => fault end
  else if qualifier =? 104 then
    match a with AInt v => ret (if has flags SIGN then u64 (sgn 16 v) else u16 v) | _ => fault end
  else match a with AInt v => ret (if has flags SIGN then u64 (s32 v) else u32 v) | _ => fault end.

(** [while (--field_width > 0) emit ' '] *)
Definition char_round (width : Z) : PR (Z + Z) :=
  let width := s32 (width - 1) in
  if 0 <? width then (emit end_ 32 ;; ret (inl width)) else ret (inr width).
Definition char_pad (width : Z) : PR Z := while (1 + Z.to_nat (s32 (width - 1))) char_round width.
(** [*ip = str - buf], at the type of [*ip]. *)
Definition store_count (id qualifier : Z) : PR unit := fun o =>
  let n := if (qualifier =? 90) || (qualifier =? 122) then u32 (str o) else s32 (str o) in
  Some (tt, Out (buf o) (str o) (args o) (stores o ++ [(id, n)])).

(** The conversion at [fmt]; the result is the format behind it. *)
Definition convert (fmt : list Z) (flags field_width precision qualifier : Z) : PR (list Z) :=
  match fmt with
  | [] => emit end_ 37 ;; ret []
  | c :: fmt' =>
      if c =? 99 then
        let* field_width := (if negb (has flags LEFT) then char_pad field_width else ret field_width) in
        let* v := arg_int in
        emit end_ (u8 v) ;;
        char_pad field_width ;;
        ret fmt'
      else if c =? 115 then
        let* a := next_arg in
        match a with AString s => string end_ s field_width precision flags ;; ret fmt' | _ => fault end
      else if c =? 112 then
        let* a := next_arg in
        match a with
        | APointer p o => pointer fmt' p o field_width precision flags ;; ret (skip_alnum fmt')
        | _ => fault
        end
      else if c =? 110 then
        let* a := next_arg in
        match a with AOut id => store_count id qualifier ;; ret fmt' | _ => fault end
      else if c =? 37 then emit end_ 37 ;; ret fmt'
      else
        let print base flags :=
          let* num := get_num qualifier flags in
          number end_ num base field_width precision flags ;;
          ret fmt' in
        if c =? 111 then print 8 flags
        else if c =? 120 then print 16 (Z.lor flags SMALL)
        else if c =? 88 then print 16 flags
        else if (c =? 100) || (c =? 105) then print 10 (Z.lor flags SIGN)
        else if c =? 117 then print 10 flags
        else emit end_ 37 ;; emit end_ c ;; ret fmt'
  end.
(** One round of the loop over the format. *)
Definition format_round (fmt : list Z) : PR (list Z + unit) :=
  match fmt with
  | [] => ret (inr tt)
  | 37 :: fmt =>
      let '(fmt, flags) := flag_chars fmt 0 in
      let* fwf := get_width fmt flags in
      let '(fmt, field_width, flags) := fwf in
      let* fp := get_precision fmt in
      let '(fmt, precision) := fp in
      let '(fmt, qualifier) := get_qualifier fmt in
      let* fmt := convert fmt flags field_width precision qualifier in
      ret (inl fmt)
  | c :: fmt => emit end_ c ;; ret (inl fmt)
  end.
End Pointer.

Definition store_at (i c : Z) : PR unit := fun o =>
  if decide (0 <= i < zlen (buf o)) then Some (tt, Out (upd (buf o) i c) (str o) (args o) (stores o)) else None.
Section Vsnprintf.
Context (sprint_symbol : Z -> list Z).
(** [addr] is the address of the buffer. *)
Definition vsnprintf (addr size : Z) (fmt : list Z) : PR Z :=
  if s32 size <? 0 then ret 0
  else
    let size := if u32 (addr + size) <? addr then 2 ^ 32 - 1 - addr else size in
    while (1 + length fmt) (format_round sprint_symbol (Window addr size)) fmt ;;
    let* o := get in
    (if 0 <? size then
       let p := u32 (addr + str o) in
       if p <? addr + size then store_at (p - addr) 0 else store_at (size - 1) 0
     else ret tt) ;;
    ret (s32 (str o)).
Definition vscnprintf (addr size : Z) (fmt : list Z) : PR Z :=
  let* i := vsnprintf addr size fmt in
  ret (if size <=? u32 i then s32 (size - 1) else i).
Definition vsprintf (addr : Z) (fmt : list Z) : PR Z := vsnprintf addr INT_MAX fmt.
End Vsnprintf.

(** ** What is written *)
Definition put1 (e : Z) (o : out) (c : Z) : out :=
  Out (if str o <? e then upd (buf o) (str o) c else buf o) (str o + 1) (args o) (stores o).
(** The output after the text [l], of which what lies behind [end] is only counted. *)
Definition push (e : Z) (o : out) (l : list Z) : out := foldl (put1 e) o l.
Lemma push_app e o l1 l2 : push e o (l1 ++ l2) = push e (push e o l1) l2.
Proof. apply foldl_app. Qed.
Lemma push_fields e l : forall o, args (push e o l) = args o /\ stores (push e o l) = stores o /\ str (push e o l) = str o + zlen l.
Proof.
  induction l as [|c l IH]; intros o; [cbn; rewrite Z.add_0_r; done|]. change (push e o (c :: l)) with (push e (put1 e o c) l).
  destruct (IH (put1 e o c)) as (-> & -> & ->). rewrite zlen_cons. cbn. split; [done|]. split; [done|lia].
Qed.
Lemma zlen_push e T : forall o, zlen (buf (push e o T)) = zlen (buf o).
Proof.
  induction T as [|c T IH]; intros o; [done|]. change (push e o (c :: T)) with (push e (put1 e o c) T). rewrite IH. cbn.
  case_if E; [by rewrite zlen_upd|done].
Qed.

Lemma s32_range x : - 2 ^ 31 <= s32 x < 2 ^ 31.
Proof. unfold sgn. pose proof (Z.mod_pos_bound (x + 2 ^ (32 - 1)) (2 ^ 32) ltac:(lia)). change (2 ^ (32 - 1)) with (2 ^ 31) in *. lia. Qed.
Lemma s32_sub x y : s32 (s32 x - y) = s32 (x - y).
Proof.
  unfold sgn. f_equal. replace (_ - _ - y + _) with ((x + 2 ^ (32 - 1)) mod 2 ^ 32 - y) by lia. rewrite Zminus_mod_idemp_l. f_equal. lia.
Qed.

(** A loop that pads a field of the left-over size [fill], and what it leaves. *)
Definition padding (fill : Z) : nat := Z.to_nat (s32 (fill - 1) + 1).
Definition padded (fill : Z) : Z := Z.min (s32 (fill - 1)) (-1).

Section Emits.
Context (w : window).
Definition okout (o : out) : Prop := 0 <= buf_at w /\ 0 <= str o /\ room w <= zlen (buf o).
(** The pointer does not come back to 0 on the text [l], or nothing is written because the
    buffer is empty and at the address 0. *)
Definition fits (o : out) (l : list Z) : Prop := buf_at w + str o + zlen l <= 2 ^ 32 \/ buf_at w = 0 /\ room w = 0.
(** A routine that writes [l] and returns [a].  Where the pointer comes back to 0 it may
    write over other memory, which is a fault; if it goes on, it goes on with the same
    result. *)
Definition goes {A} (m : PR A) (o : out) (l : list Z) (as' : list arg) (a : A) : Prop :=
  m o = None \/ exists o', m o = Some (a, o') /\ args o' = as' /\ str o' = str o + zlen l.
Definition emits {A} (m : PR A) (l : list Z) (a : A) : Prop :=
  forall o, (okout o -> fits o l -> m o = Some (a, push (room w) o l)) /\ goes m o l (args o) a.
Lemma emits_run {A} (m : PR A) l a : emits m l a -> forall o, okout o -> fits o l -> m o = Some (a, push (room w) o l).
Proof. intros H o. apply H. Qed.

Lemma okout_push l o : okout o -> okout (push (room w) o l).
Proof.
  intros (H1 & H2 & H3). destruct (push_fields (room w) l o) as (_ & _ & Hs). pose proof (zlen_nonneg l).
  split; [done|]. rewrite zlen_push, Hs. lia.
Qed.
Lemma fits_app o l1 l2 : fits o (l1 ++ l2) -> fits o l1 /\ fits (push (room w) o l1) l2.
Proof.
  unfold fits. destruct (push_fields (room w) l1 o) as (_ & _ & ->). rewrite zlen_app. pose proof (zlen_nonneg l2).
  intros [Hf|Hf]; [split; left; lia|tauto].
Qed.

(** A routine that only computes. *)
Lemma emits_pure {A} (m : PR A) (a : A) : (forall o, m o = Some (a, o)) -> emits m [] a.
Proof. intros H o. split; [intros _ _; by rewrite H|]. right. exists o. rewrite H. change (zlen []) with 0. by rewrite Z.add_0_r. Qed.
Lemma emits_ret {A} (a : A) : emits (ret a) [] a.
Proof. by apply emits_pure. Qed.
Lemma goes_bind {A B} (m : PR A) (f : A -> PR B) o l1 l2 as1 as2 a b : goes m o l1 as1 a ->
  (forall o', args o' = as1 -> str o' = str o + zlen l1 -> goes (f a) o' l2 as2 b) -> goes (bind m f) o (l1 ++ l2) as2 b.
Proof.
  intros [E|(o1 & E & Ha & Hs)] Hf; [left; unfold bind; by rewrite E|]. destruct (Hf o1 Ha Hs) as [E'|(o2 & E' & Ha' & Hs')].
  - left. by run E.
  - right. exists o2. split; [by run E|]. split; [done|]. rewrite zlen_app. lia.
Qed.
Lemma emits_bind {A B} (m : PR A) (f : A -> PR B) l1 l2 a b : emits m l1 a -> emits (f a) l2 b -> emits (bind m f) (l1 ++ l2) b.
Proof.
  intros H1 H2 o. split.
  - intros Ho [F1 F2]%fits_app. run (emits_run _ _ _ H1 o Ho F1). rewrite push_app. apply H2; [by apply okout_push|done].
  - apply (goes_bind m f o l1 l2 (args o) (args o) a b); [apply H1|]. intros o' <- _. apply H2.
Qed.
Lemma emits_seq {B} (m : PR unit) (f : PR B) l1 l2 b : emits m l1 tt -> emits f l2 b -> emits (bind m (fun _ => f)) (l1 ++ l2) b.
Proof. intros. by eapply emits_bind. Qed.
Lemma emits_emit c : emits (emit w c) [c] tt.
Proof.
  intros o. unfold emit, push, put1. cbn [foldl]. set (p := u32 (buf_at w + str o)). split.
  - intros (H0 & H1 & H2) [Hf|[Hb Hr]].
    + change (zlen [c]) with 1 in Hf. unfold p. rewrite u32_id by lia. replace (buf_at w + str o - buf_at w) with (str o) by lia.
      destruct (Z.ltb_spec (buf_at w + str o) (buf_at w + room w)), (Z.ltb_spec (str o) (room w)); try lia; [|done].
      by rewrite decide_True by lia.
    + pose proof (uint_wrap 32 (buf_at w + str o) ltac:(lia)) as Hu. unfold uint in Hu. fold p in Hu. rewrite Hb, Hr.
      by rewrite (proj2 (Z.ltb_ge _ _)), (proj2 (Z.ltb_ge (str o) 0)) by lia.
  - unfold goes. fold p. destruct (p <? _); [case_decide; [|by left]|]; right; eexists; done.
Qed.
Lemma emits_all l : emits (emit_all w l) l tt.
Proof. induction l as [|c l IH]; [apply emits_ret|]. apply (emits_seq _ _ [c]); [apply emits_emit|done]. Qed.

(** Counted loops. *)
Lemma emits_count {X A} (body : X -> PR (X + A)) (c : Z) (n : nat) (x : nat -> X) (r : A) k x0 : x0 = x 0%nat ->
  (forall i, (i < n)%nat -> emits (body (x i)) [c] (inl (x (S i)))) -> emits (body (x n)) [] (inr r) -> (n < k)%nat ->
  emits (while k body x0) (replicate n c) r.
Proof.
  intros ->. revert x k. induction n as [|n IH]; intros x k Hb He Hk; (destruct k as [|k]; [lia|]); rewrite while_S.
  - apply (emits_bind _ _ [] [] _ _ He). apply emits_ret.
  - apply (emits_bind _ _ [c] (replicate n c) _ _ (Hb 0%nat ltac:(lia))). apply (IH (fun i => x (S i))); [|done|lia]. intros i Hi. apply Hb. lia.
Qed.
(** A counter that is decremented before it is compared: [z] is its value after the first
    decrement, which may wrap. *)
Definition counter (size z : Z) (i : nat) : Z := if decide (i = 0%nat) then size else z + 1 - Z.of_nat i.
Lemma counter_next size i : 0 <= s32 (size - 1) + 1 - Z.of_nat i \/ i = 0%nat ->
  s32 (counter size (s32 (size - 1)) i - 1) = counter size (s32 (size - 1)) (S i).
Proof.
  intros Hi. pose proof (s32_range (size - 1)). unfold counter. rewrite (decide_False (P := S i = 0%nat)) by lia.
  destruct (decide (i = 0%nat)) as [->|Hne]; [lia|]. rewrite s32_id by lia. lia.
Qed.
Lemma emits_pad c size :
  emits (pad w c size) (replicate (padding size) c) (padded size).
Proof.
  unfold padding, padded. set (n := Z.to_nat (s32 (size - 1) + 1)).
  apply (emits_count (pad_round w c) c n (counter size (s32 (size - 1)))); [done| | |lia].
  - intros i Hi. unfold pad_round. rewrite counter_next by lia.
    assert (0 <= counter size (s32 (size - 1)) (S i)) by (unfold counter; rewrite decide_False by lia; lia).
    rewrite (proj2 (Z.leb_le _ _)) by lia. apply (emits_seq _ _ [c] []); [apply emits_emit|apply emits_ret].
  - unfold pad_round. rewrite counter_next by lia.
    assert (counter size (s32 (size - 1)) (S n) = Z.min (s32 (size - 1)) (-1)) as -> by (unfold counter; rewrite decide_False by lia; lia).
    rewrite (proj2 (Z.leb_gt _ _)) by lia. apply emits_ret.
Qed.
Lemma emits_zeros i precision : 0 <= i -> - 2 ^ 31 < precision < 2 ^ 31 ->
  emits (while (1 + Z.to_nat precision) (zeros_round w i) precision) (replicate (Z.to_nat (precision - i)) 48) tt.
Proof.
  intros Hi Hs. apply (emits_count (zeros_round w i) 48 (Z.to_nat (precision - i)) (fun j => precision - Z.of_nat j)); [lia| | |lia].
  - intros j Hj. unfold zeros_round. rewrite s32_id by lia. rewrite (proj2 (Z.leb_le _ _)) by lia.
    apply (emits_seq _ _ [48] []); [apply emits_emit|]. replace (precision - Z.of_nat (S j)) with (precision - Z.of_nat j - 1) by lia.
    apply emits_ret.
  - unfold zeros_round. rewrite s32_id by lia. rewrite (proj2 (Z.leb_gt _ _)) by lia. apply emits_ret.
Qed.
Lemma emits_widen len width : - 2 ^ 31 <= len < 2 ^ 31 -> - 2 ^ 31 <= width < 2 ^ 31 ->
  emits (widen w len width) (replicate (Z.to_nat (width - len)) 32) (s32 (Z.min width len - 1)).
Proof.
  intros Hl Hs. apply (emits_count (width_round w len) 32 (Z.to_nat (width - len)) (fun i => width - Z.of_nat i)); [lia| | |lia].
  - intros i Hi. unfold width_round. rewrite (proj2 (Z.ltb_lt _ _)), s32_id by lia.
    apply (emits_seq _ _ [32] []); [apply emits_emit|]. replace (width - Z.of_nat (S i)) with (width - Z.of_nat i - 1) by lia. apply emits_ret.
  - unfold width_round. rewrite (proj2 (Z.ltb_ge _ _)) by lia.
    replace (width - Z.of_nat (Z.to_nat (width - len))) with (Z.min width len) by lia. apply emits_ret.
Qed.
Lemma emits_char_pad width :
  emits (char_pad w width) (replicate (Z.to_nat (s32 (width - 1))) 32) (Z.min (s32 (width - 1)) 0).
Proof.
  set (n := Z.to_nat (s32 (width - 1))). apply (emits_count (char_round w) 32 n (counter width (s32 (width - 1)))); [done| | |lia].
  - intros i Hi. unfold char_round. rewrite counter_next by lia.
    assert (0 < counter width (s32 (width - 1)) (S i)) by (unfold counter; rewrite decide_False by lia; lia).
    rewrite (proj2 (Z.ltb_lt _ _)) by lia. apply (emits_seq _ _ [32] []); [apply emits_emit|apply emits_ret].
  - unfold char_round. rewrite counter_next by lia.
    assert (counter width (s32 (width - 1)) (S n) = Z.min (s32 (width - 1)) 0) as -> by (unfold counter; rewrite decide_False by lia; lia).
    rewrite (proj2 (Z.ltb_ge _ _)) by lia. apply emits_ret.
Qed.
Lemma emits_digits tmp : forall n k, (n <= length tmp)%nat -> (n < k)%nat ->
  emits (while k (digits_round w tmp) (Z.of_nat n)) (rev (take n tmp)) tt.
Proof.
  induction n as [|n IH]; intros k Hn Hk; (destruct k as [|k]; [lia|]); rewrite while_S.
  - apply (emits_bind _ _ [] [] (inr tt)); apply emits_ret.
  - destruct (lookup_lt_is_Some_2 tmp n ltac:(lia)) as [c Hc]. rewrite (take_S_r _ _ _ Hc), rev_app_distr. cbn [rev app].
    apply (emits_bind _ _ [c] (rev (take n tmp)) (inl (Z.of_nat n))).
    + unfold digits_round. replace (Z.of_nat (S n) - 1) with (Z.of_nat n) by lia. rewrite (proj2 (Z.leb_le _ _)) by lia.
      replace (at_ tmp (Z.of_nat n)) with c. { apply (emits_seq _ _ [c] []); [apply emits_emit|apply emits_ret]. }
      unfold at_, zget. by rewrite decide_True, Nat2Z.id, Hc by lia.
    + apply IH; lia.
Qed.
End Emits.

(** ** Digits *)
(** The digits of [n], least significant first; no leading zero but that of 0. *)
Fixpoint digits_from (fuel : nat) (base n : Z) : list Z :=
  match fuel with
  | O => []
  | S fuel => n mod base :: (if n / base =? 0 then [] else digits_from fuel base (n / base))
  end.
Definition digits (base n : Z) : list Z := digits_from 64 base n.

Lemma digits_from_fuel base n : forall f g, 2 <= base -> 0 <= n < 2 ^ Z.of_nat f -> 0 <= n < 2 ^ Z.of_nat g -> (0 < f)%nat -> (0 < g)%nat ->
  digits_from f base n = digits_from g base n.
Proof.
  intros f. revert n. induction f as [|f IH]; intros n g Hb Hf Hg Hf0 Hg0; [lia|]. destruct g as [|g]; [lia|]. cbn [digits_from].
  rewrite Nat2Z.inj_succ, Z.pow_succ_r in Hf, Hg by lia. destruct (Z.eqb_spec (n / base) 0) as [|Hne]; [done|]. f_equal.
  assert (0 <= n / base) by (apply Z.div_pos; lia). assert (n / base <= n / 2) by (apply Z.div_le_compat_l; lia).
  assert (2 * (n / 2) <= n) by (apply Z.mul_div_le; lia).
  apply IH; try lia; [destruct f; [cbn in Hf; lia|lia]|destruct g; [cbn in Hg; lia|lia]].
Qed.
Lemma digits_from_S f base n : digits_from (S f) base n = n mod base :: (if n / base =? 0 then [] else digits_from f base (n / base)).
Proof. reflexivity. Qed.
Lemma digits_step base n : 2 <= base -> 0 <= n < 2 ^ 64 -> digits base n = n mod base :: (if n / base =? 0 then [] else digits base (n / base)).
Proof.
  intros Hb Hn. unfold digits at 1. rewrite digits_from_S. destruct (Z.eqb_spec (n / base) 0) as [|Hne]; [reflexivity|]. apply (f_equal (cons _)).
  assert (0 <= n / base) by (apply Z.div_pos; lia). assert (n / base <= n / 2) by (apply Z.div_le_compat_l; lia).
  assert (2 * (n / 2) <= n) by (apply Z.mul_div_le; lia). apply digits_from_fuel; [done| |lia|lia|lia]. change (2 ^ Z.of_nat 63) with (2 ^ 63). lia.
Qed.

(** Division by ten as a multiplication and a shift. *)
Lemma div10_205 x : 0 <= x < 400 -> Z.shiftr (u32 (x * 0xcd)) 11 = x / 10.
Proof. intros. rewrite u32_id, Z.shiftr_div_pow2 by lia. change (2 ^ 11) with 2048. dlia. Qed.
Lemma div10_13 x : 0 <= x < 69 -> Z.shiftr (u32 (x * 0xd)) 7 = x / 10.
Proof. intros. rewrite u32_id, Z.shiftr_div_pow2 by lia. change (2 ^ 7) with 128. dlia. Qed.

(** The four hexadecimal digits of [q], of which the routines start; the sums of their
    decimal digits in each place. *)
Lemma hex_places q : 0 <= q < 100000 -> exists h0 h1 h2 h3,
  Z.land q 0xf = h0 /\ Z.land (Z.shiftr q 4) 0xf = h1 /\ Z.land (Z.shiftr q 8) 0xf = h2 /\ Z.shiftr q 12 = h3 /\
  0 <= h0 < 16 /\ 0 <= h1 < 16 /\ 0 <= h2 < 16 /\ 0 <= h3 <= 24 /\ q = h0 + 16 * h1 + 256 * h2 + 4096 * h3.
Proof.
  intros Hq. exists (q mod 16), (q / 16 mod 16), (q / 256 mod 16), (q / 4096). change 0xf with (Z.ones 4).
  rewrite !Z.land_ones, !Z.shiftr_div_pow2 by done. change (2 ^ 4) with 16. change (2 ^ 8) with 256. change (2 ^ 12) with 4096.
  repeat (split; [done||dlia|]). dlia.
Qed.
Lemma chars_id x : 0 <= x < 10 -> u8 (x + 48) = 48 + x.
Proof. intros. unfold wrap. rewrite Z.mod_small; lia. Qed.
(** The place sums have the decimal digits of [q]. *)
Lemma place_sums q h0 h1 h2 h3 : 0 <= h0 < 16 -> 0 <= h1 < 16 -> 0 <= h2 < 16 -> 0 <= h3 <= 24 -> q = h0 + 16 * h1 + 256 * h2 + 4096 * h3 ->
  let a := 6 * (h3 + h2 + h1) + h0 in let b := a / 10 + 9 * h3 + 5 * h2 + h1 in let c := b / 10 + 2 * h2 in let d := c / 10 + 4 * h3 in
  0 <= a < 400 /\ 0 <= b < 400 /\ 0 <= c < 69 /\ 0 <= d < 400 /\
  q / 10 = b + 20 * h2 + 400 * h3 /\ q / 100 = c + 40 * h3 /\ q / 1000 = d /\ q mod 10 = a mod 10 /\ q / 10 mod 10 = b mod 10 /\ q / 100 mod 10 = c mod 10.
Proof.
  intros H0 H1 H2 H3 -> a b c d. unfold d, c, b, a.
  set (q := h0 + _ + _ + _). assert (q / 10 = b + 20 * h2 + 400 * h3) as E1 by (unfold q, b, a; dlia).
  assert (q / 100 = b / 10 + 2 * h2 + 40 * h3) as E2 by (change 100 with (10 * 10); rewrite <- Z.div_div, E1 by lia; dlia).
  assert (q / 1000 = c / 10 + 4 * h3) as E3 by (change 1000 with (100 * 10); rewrite <- Z.div_div, E2 by lia; fold c; dlia).
  fold a b c d. rewrite E1, E2, E3. fold c. assert (0 <= a < 400) by (unfold a; lia). assert (0 <= b < 400) by (unfold b; dlia).
  assert (0 <= c < 69) by (unfold c; dlia). assert (0 <= d < 400) by (unfold d; dlia).
  repeat (split; [done|]). split; [unfold q, a; dlia|]. split; dlia.
Qed.

(** Five digits of [q] and what they are made of. *)
Lemma digits_5 q : 0 <= q < 100000 -> digits 10 q =
  q mod 10 :: if q / 10 =? 0 then [] else q / 10 mod 10 :: if q / 100 =? 0 then [] else q / 100 mod 10 ::
  if q / 1000 =? 0 then [] else q / 1000 mod 10 :: if q / 10000 =? 0 then [] else [q / 10000].
Proof.
  intros Hq.
  assert (forall x, 0 <= x < 100000 -> digits 10 x = x mod 10 :: (if x / 10 =? 0 then [] else digits 10 (x / 10))) as Hs by (intros; apply digits_step; lia).
  assert (0 <= q / 10 < 10000 /\ 0 <= q / 100 < 1000 /\ 0 <= q / 1000 < 100 /\ 0 <= q / 10000 < 10) as (B1 & B2 & B3 & B4) by dlia.
  assert (q / 10 / 10 = q / 100 /\ q / 100 / 10 = q / 1000 /\ q / 1000 / 10 = q / 10000) as (D1 & D2 & D3) by (rewrite !Z.div_div by lia; done).
  rewrite (Hs q), (Hs (q / 10)), D1, (Hs (q / 100)), D2, (Hs (q / 1000)), D3, (Hs (q / 10000)) by lia.
  rewrite (Z.mod_small (q / 10000)), (Z.div_small (q / 10000)) by lia. reflexivity.
Qed.
Lemma low_digit x : 0 <= x < 2 ^ 32 -> u8 (u32 (x - 10 * (x / 10)) + 48) = 48 + x mod 10.
Proof. intros. rewrite u32_id by dlia. rewrite <- chars_id by dlia. do 2 f_equal. dlia. Qed.
Lemma put_dec_trunc_eq q : 0 <= q < 100000 -> put_dec_trunc q = Z.add 48 <$> digits 10 q.
Proof.
  intros Hq. rewrite digits_5 by done. destruct (hex_places q Hq) as (h0 & h1 & h2 & h3 & E0 & E1 & E2 & E3 & B0 & B1 & B2 & B3 & Eq).
  unfold put_dec_trunc. rewrite E0, E1, E2, E3.
  destruct (place_sums q h0 h1 h2 h3 B0 B1 B2 B3 Eq) as (Ba & Bb & Bc & Bd & Q1 & Q2 & Q3 & M0 & M1 & M2).
  set (a := 6 * (h3 + h2 + h1) + h0) in *. rewrite (u32_id a), (div10_205 a) by lia. set (b := a / 10 + 9 * h3 + 5 * h2 + h1) in *.
  rewrite (u32_id b), (div10_205 b) by lia. set (c := b / 10 + 2 * h2) in *. rewrite (u32_id c), (div10_13 c) by lia. set (d := c / 10 + 4 * h3) in *.
  rewrite (u32_id d), (div10_205 d) by lia. rewrite !low_digit by lia. rewrite <- M0, <- M1, <- M2, Q3.
  assert (q / 10000 = d / 10) as Q4 by (change 10000 with (1000 * 10); rewrite <- Z.div_div, Q3 by lia; done).
  assert ((b =? 0) = (q / 10 =? 0)) as -> by (rewrite Q1; destruct (Z.eqb_spec b 0), (Z.eqb_spec (b + 20 * h2 + 400 * h3) 0); unfold b in *; dlia).
  assert (negb (c =? 0) || negb (h3 =? 0) = negb (q / 100 =? 0)) as ->.
  { rewrite Q2. destruct (Z.eqb_spec c 0), (Z.eqb_spec h3 0), (Z.eqb_spec (c + 40 * h3) 0); try done; lia. }
  rewrite Q4. assert (0 <= d / 10 < 10) by (rewrite <- Q4; dlia).
  destruct (q / 10 =? 0); [done|]. destruct (q / 100 =? 0); [done|]. destruct (d =? 0); [done|]. destruct (d / 10 =? 0); [done|].
  cbn [negb]. rewrite (chars_id (d / 10)) by done. reflexivity.
Qed.
Lemma put_dec_full_eq q : 0 <= q < 100000 -> put_dec_full q = Z.add 48 <$> [q mod 10; q / 10 mod 10; q / 100 mod 10; q / 1000 mod 10; q / 10000].
Proof.
  intros Hq. destruct (hex_places q Hq) as (h0 & h1 & h2 & h3 & E0 & E1 & E2 & E3 & B0 & B1 & B2 & B3 & Eq).
  unfold put_dec_full. rewrite E0, E1, E2, E3.
  destruct (place_sums q h0 h1 h2 h3 B0 B1 B2 B3 Eq) as (Ba & Bb & Bc & Bd & Q1 & Q2 & Q3 & M0 & M1 & M2).
  set (a := 6 * (h3 + h2 + h1) + h0) in *. rewrite (u32_id a), (div10_205 a) by lia. set (b := a / 10 + 9 * h3 + 5 * h2 + h1) in *.
  rewrite (u32_id b), (div10_205 b) by lia. set (c := b / 10 + 2 * h2) in *. rewrite (u32_id c), (div10_13 c) by lia. set (d := c / 10 + 4 * h3) in *.
  rewrite (u32_id d), (div10_205 d) by lia. rewrite !low_digit by lia. rewrite <- M0, <- M1, <- M2, Q3.
  assert (q / 10000 = d / 10) as Q4 by (change 10000 with (1000 * 10); rewrite <- Z.div_div, Q3 by lia; done).
  rewrite <- Q4, (chars_id (q / 10000)) by dlia. reflexivity.
Qed.

(** A number above 100000 has the five digits of its remainder below the rest. *)
Lemma digits_high n : 100000 <= n < 2 ^ 64 ->
  digits 10 n = [n mod 10; n / 10 mod 10; n / 100 mod 10; n / 1000 mod 10; n / 10000 mod 10] ++ digits 10 (n / 100000).
Proof.
  intros Hn.
  assert (n / 10 / 10 = n / 100 /\ n / 100 / 10 = n / 1000 /\ n / 1000 / 10 = n / 10000 /\ n / 10000 / 10 = n / 100000) as (D1 & D2 & D3 & D4) by (rewrite !Z.div_div by lia; done).
  assert (1 <= n / 100000) by (apply Z.div_le_lower_bound; lia).
  assert (n / 100000 <= n / 10000 /\ n / 10000 <= n / 1000 /\ n / 1000 <= n / 100 /\ n / 100 <= n / 10 /\ n / 10 <= n) as (L1 & L2 & L3 & L4 & L5) by dlia.
  assert (forall x, 10 <= x < 2 ^ 64 -> digits 10 x = x mod 10 :: digits 10 (x / 10)) as Hs.
  { intros x Hx. rewrite digits_step by lia. assert (1 <= x / 10) by (apply Z.div_le_lower_bound; lia). by rewrite (proj2 (Z.eqb_neq _ _)) by lia. }
  rewrite (Hs n), (Hs (n / 10)), D1, (Hs (n / 100)), D2, (Hs (n / 1000)), D3, (Hs (n / 10000)), D4 by dlia. reflexivity.
Qed.
Lemma put_dec_eq {S} n (s : S) : 0 <= n < 2 ^ 64 -> put_dec n s = Some (Z.add 48 <$> digits 10 n, s).
Proof.
  intros Hn. unfold put_dec. assert (forall f buf n, 0 <= n < 100000 ^ Z.of_nat (Datatypes.S f) -> n < 2 ^ 64 ->
    while (Datatypes.S f) put_dec_round (buf, n) s = Some (buf ++ (Z.add 48 <$> digits 10 n), s)) as H.
  { clear n Hn. induction f as [|f IH]; intros buf n Hf Hn; rewrite while_S; unfold put_dec_round.
    - rewrite (proj2 (Z.ltb_lt _ _)) by (cbn in Hf; lia). run_ret. by rewrite put_dec_trunc_eq by (cbn in Hf; lia).
    - destruct (Z.ltb_spec n 100000); run_ret; [by rewrite put_dec_trunc_eq by lia|].
      rewrite Nat2Z.inj_succ, Z.pow_succ_r in Hf by lia. rewrite IH; [|split; [dlia|apply Z.div_lt_upper_bound; lia]|dlia].
      rewrite <- app_assoc, put_dec_full_eq, (digits_high n), fmap_app by dlia.
      assert (n mod 100000 mod 10 = n mod 10 /\ n mod 100000 / 10 mod 10 = n / 10 mod 10 /\ n mod 100000 / 100 mod 10 = n / 100 mod 10 /\
        n mod 100000 / 1000 mod 10 = n / 1000 mod 10 /\ n mod 100000 / 10000 = n / 10000 mod 10) as (-> & -> & -> & -> & ->) by (repeat split; dlia).
      reflexivity. }
  apply (H 4%nat []); [|lia]. cbn. lia.
Qed.

(** The characters of digits. *)
Definition digit_char (small : bool) (d : Z) : Z := if d <? 10 then 48 + d else (if small then 87 else 55) + d.
Lemma digits16_char locase d : locase = 0 \/ locase = 32 -> 0 <= d < 16 -> Z.lor (at_ digits16 d) locase = digit_char (locase =? 32) d.
Proof.
  intros Hl Hd. assert (d ∈ seqZ 0 16) as H by (apply elem_of_seqZ; lia). revert d H Hd.
  assert (Forall (fun d => 0 <= d < 16 -> Z.lor (at_ digits16 d) locase = digit_char (locase =? 32) d) (seqZ 0 16)) as HF.
  { destruct Hl as [-> | ->]; repeat constructor. }
  intros d H. rewrite list.Forall_forall in HF. by apply HF.
Qed.
Lemma pow2_digits (o : out) locase base n : locase = 0 \/ locase = 32 -> base = 8 \/ base = 16 -> 0 < n < 2 ^ 64 ->
  while 66 (pow2_round (base - 1) (if base =? 16 then 4 else 3) locase) ([], n) o = Some (digit_char (locase =? 32) <$> digits base n, o).
Proof.
  intros Hl Hb Hn. set (sh := if base =? 16 then 4 else 3).
  assert (base = 2 ^ sh /\ base - 1 = Z.ones sh /\ 3 <= sh <= 4) as (E1 & E2 & Hsh) by (unfold sh; by destruct Hb as [-> | ->]).
  assert (forall f tmp n, 0 < n < 2 ^ Z.of_nat f -> n < 2 ^ 64 -> zlen tmp + Z.of_nat f <= 66 ->
    while f (pow2_round (Z.ones sh) sh locase) (tmp, n) o = Some (tmp ++ (digit_char (locase =? 32) <$> digits base n), o)) as H.
  { clear n Hn. induction f as [|f IH]; intros tmp n Hf Hn Ht; [cbn in Hf; lia|]. rewrite while_S. unfold pow2_round.
    rewrite (proj2 (Z.leb_gt _ _)) by lia. run_ret. rewrite Z.land_ones, Z.shiftr_div_pow2, <- E1 by lia.
    rewrite Nat2Z.inj_succ, Z.pow_succ_r in Hf by lia.
    assert (u8 n mod base = n mod base) as ->. { unfold wrap. destruct Hb as [-> | ->]; change (2 ^ 8) with 256; dlia. }
    assert (0 <= n mod base < base) by (apply Z.mod_pos_bound; lia). rewrite digits16_char by (try done; lia).
    rewrite (digits_step base n) by lia. destruct (Z.eqb_spec (n / base) 0) as [E|E]; [done|].
    assert (0 <= n / base) by (apply Z.div_pos; lia). assert (n / base <= n / 2) by (apply Z.div_le_compat_l; lia).
    assert (2 * (n / 2) <= n) by (apply Z.mul_div_le; lia).
    rewrite IH; [by rewrite <- app_assoc|lia|lia|]. rewrite zlen_app. change (zlen [_]) with 1. lia. }
  rewrite E2. apply (H 66%nat []); [|lia|done]. change (2 ^ Z.of_nat 66) with (2 ^ 66). lia.
Qed.

(** ** The text of a number *)
Definition magnitude (type num : Z) : Z := if has type SIGN && (s64 num <? 0) then - s64 num else num.
Definition sign_text (type num : Z) : list Z :=
  if has type SIGN then
    if s64 num <? 0 then [45] else if has type PLUS then [43] else if has type SPACE then [32] else []
  else [].
Definition prefix_text (type base : Z) : list Z :=
  if has type SPECIAL then
    if base =? 16 then [48; if has type SMALL then 120 else 88] else if base =? 8 then [48] else []
  else [].
(** The digits, filled up with zeros to the precision. *)
Definition digits_text (num base precision type : Z) : list Z :=
  let ds := rev (digit_char (has type SMALL) <$> digits base (magnitude type num)) in
  replicate (Z.to_nat (precision - zlen ds)) 48 ++ ds.
(** Sign, prefix and digits, and what fills the field: blanks at the right, zeros behind
    the prefix, or blanks at the left. *)
Definition number_text (num base size precision type : Z) : list Z :=
  let front := sign_text type num ++ prefix_text type base in
  let body := digits_text num base precision type in
  let fill := Z.to_nat (size - zlen front - zlen body) in
  if has type LEFT then front ++ body ++ replicate fill 32
  else if has type ZEROPAD then front ++ replicate fill 48 ++ body
  else replicate fill 32 ++ front ++ body.

Definition flag_bits (type : Z) : Prop := 0 <= type < 128.
Lemma by_flags (Q : Z -> bool) : forallb Q (seqZ 0 128) = true -> forall type, flag_bits type -> Q type = true.
Proof. intros H type Ht. rewrite forallb_forall in H. apply H. apply list_elem_of_In, elem_of_seqZ. unfold flag_bits in Ht. lia. Qed.
(** Clearing [ZEROPAD] when [LEFT] is set leaves the other flags. *)
Definition left_type (type : Z) : Z := if has type LEFT then Z.land type (Z.lnot ZEROPAD) else type.
Lemma left_type_has type : flag_bits type ->
  has (left_type type) SIGN = has type SIGN /\ has (left_type type) PLUS = has type PLUS /\ has (left_type type) SPACE = has type SPACE /\
  has (left_type type) LEFT = has type LEFT /\ has (left_type type) ZEROPAD = has type ZEROPAD && negb (has type LEFT) /\
  has (left_type type) (ZEROPAD + LEFT) = has type ZEROPAD || has type LEFT.
Proof.
  intros Ht.
  pose proof (by_flags (fun type => bool_decide (has (left_type type) SIGN = has type SIGN /\ has (left_type type) PLUS = has type PLUS /\ has (left_type type) SPACE = has type SPACE /\
    has (left_type type) LEFT = has type LEFT /\ has (left_type type) ZEROPAD = has type ZEROPAD && negb (has type LEFT) /\
    has (left_type type) (ZEROPAD + LEFT) = has type ZEROPAD || has type LEFT)) eq_refl type Ht) as H. by apply bool_decide_eq_true in H.
Qed.
Lemma land_SMALL type : Z.land type SMALL = if has type SMALL then 32 else 0.
Proof.
  assert (Z.land type SMALL = 0 \/ Z.land type SMALL = 32) as [E|E]; [|by unfold has; rewrite E|by unfold has; rewrite E].
  change SMALL with (2 ^ 5). destruct (Z.testbit type 5) eqn:T.
  - right. apply Z.bits_inj'. intros n Hn. change 32 with (2 ^ 5). rewrite Z.land_spec, Z.pow2_bits_eqb by done.
    destruct (Z.eqb_spec 5 n) as [<-|]; [by rewrite T|apply andb_false_r].
  - left. apply Z.bits_inj'. intros n Hn. rewrite Z.land_spec, Z.pow2_bits_eqb, Z.bits_0 by done.
    destruct (Z.eqb_spec 5 n) as [<-|]; [by rewrite T|apply andb_false_r].
Qed.

Definition in_range (x : Z) : Prop := - 2 ^ 29 < x < 2 ^ 29.
Lemma zlen_digits base n : 2 <= base -> 0 <= n < 2 ^ 64 -> 1 <= zlen (digits base n) <= 64.
Proof.
  intros Hb Hn. assert (forall f n, (zlen (digits_from f base n) <= Z.of_nat f) /\ ((0 < f)%nat -> 1 <= zlen (digits_from f base n))) as H.
  { clear n Hn. induction f as [|f IH]; intros n; [split; [done|lia]|]. rewrite digits_from_S, zlen_cons. destruct (IH (n / base)).
    pose proof (zlen_nonneg (digits_from f base (n / base))).
    case_if E; [change (zlen []) with 0; lia|lia]. }
  destruct (H 64%nat n) as [H1 H2]. unfold digits. split; [apply H2; lia|exact H1].
Qed.
Lemma digits_lt base n i d : 2 <= base -> 0 <= n -> digits base n !! i = Some d -> 0 <= d < base.
Proof.
  intros Hb. unfold digits. generalize 64%nat as f. intros f. revert n i. induction f as [|f IH]; intros n i Hn Hi; [done|].
  rewrite digits_from_S in Hi. destruct i as [|i]; cbn in Hi; [simplify_eq; apply Z.mod_pos_bound; lia|].
  destruct (n / base =? 0); [done|]. eapply IH; [|exact Hi]. apply Z.div_pos; lia.
Qed.
Lemma zlen_replicate_max {A} z (x : A) : zlen (replicate (Z.to_nat z) x) = Z.max 0 z.
Proof. unfold zlen. rewrite length_replicate. lia. Qed.
Lemma zlen_rev {A} (l : list A) : zlen (rev l) = zlen l.
Proof. unfold zlen. by rewrite length_rev. Qed.

(** What [number] writes for any size and precision: the left-over size is an [int] that may
    wrap, and a loop of padding that starts at [INT_MIN] runs through all of [int]. *)
Definition number_raw (num base size precision type : Z) : list Z :=
  let front := sign_text type num ++ prefix_text type base in
  let body := digits_text num base precision type in
  let fill := s32 (size - zlen front - zlen body) in
  if has type LEFT then front ++ body ++ replicate (padding fill) 32
  else if has type ZEROPAD then
    front ++ replicate (padding fill) 48 ++ body ++ replicate (padding (padded fill)) 32
  else
    replicate (padding fill) 32 ++ front ++ replicate (padding (padded fill)) 32 ++ body ++
    replicate (padding (padded (padded fill))) 32.
Lemma padding_nonneg fill : - 2 ^ 31 < fill < 2 ^ 31 -> padding fill = Z.to_nat fill.
Proof. intros H. unfold padding. rewrite s32_id by lia. lia. Qed.
Lemma padded_small fill : - 2 ^ 31 < fill < 2 ^ 31 -> padded fill = Z.min (fill - 1) (-1).
Proof. intros H. unfold padded. by rewrite s32_id by lia. Qed.

Section Number.
Context (end_ : window) (num base size precision type : Z).
Context (Hnum : 0 <= num < 2 ^ 64) (Hbase : base = 8 \/ base = 10 \/ base = 16).
Context (Hsize : - 2 ^ 31 <= size < 2 ^ 31) (Hprec : - 2 ^ 31 <= precision < 2 ^ 31) (Htype : flag_bits type).

Lemma magnitude_range : 0 <= magnitude type num < 2 ^ 64.
Proof using Hnum. unfold magnitude. case_if E; [|done]. apply andb_true_iff in E as [_ E%Z.ltb_lt]. unfold sgn in *. change (2 ^ (64 - 1)) with (2 ^ 63) in *. dlia. Qed.
Lemma sign_eq :
  (if has type SIGN then
     if s64 num <? 0 then (45, u64 (- s64 num), s32 (size - 1))
     else if has type PLUS then (43, num, s32 (size - 1))
     else if has type SPACE then (32, num, s32 (size - 1))
     else (0, num, size)
   else (0, num, size)) = (at_ (sign_text type num) 0, magnitude type num, s32 (size - zlen (sign_text type num))).
Proof using Hnum Hsize.
  pose proof magnitude_range as Hm. unfold magnitude, sign_text in *. assert (s32 (size - 0) = size) as H0 by (rewrite Z.sub_0_r; apply s32_id; lia).
  destruct (has type SIGN); [|change (zlen []) with 0; by rewrite H0]. cbn [andb] in *.
  destruct (s64 num <? 0); [by rewrite u64_id by lia|]. destruct (has type PLUS); [done|]. destruct (has type SPACE); [done|].
  change (zlen []) with 0. by rewrite H0.
Qed.
Lemma emits_tmp :
  emits end_ (if magnitude type num =? 0 then ret [48]
    else if negb (base =? 10) then while 66 (pow2_round (base - 1) (if base =? 16 then 4 else 3) (Z.land type SMALL)) ([], magnitude type num)
    else put_dec (magnitude type num)) [] (digit_char (has type SMALL) <$> digits base (magnitude type num)).
Proof using Hnum Hbase.
  clear Hsize Hprec. pose proof magnitude_range as Hm. set (m := magnitude type num) in *. apply emits_pure. intros o. destruct (Z.eqb_spec m 0) as [->|Hm0].
  { rewrite digits_step by lia. rewrite Z.mod_0_l, Z.div_0_l by lia. done. }
  destruct (Z.eqb_spec base 10) as [->|Hb]; cbn [negb].
  - rewrite put_dec_eq by done. f_equal. f_equal. apply list_fmap_ext. intros i d Hd. unfold digit_char.
    assert (0 <= d < 10) as Hd10 by (apply (digits_lt 10 m i d); [lia|lia|exact Hd]). by rewrite (proj2 (Z.ltb_lt d 10)) by lia.
  - rewrite pow2_digits; [|rewrite land_SMALL; by destruct (has type SMALL); tauto|lia|lia]. rewrite land_SMALL. by destruct (has type SMALL).
Qed.
Lemma sign_text_char : emits end_ (if negb (at_ (sign_text type num) 0 =? 0) then emit end_ (at_ (sign_text type num) 0) else ret tt) (sign_text type num) tt.
Proof using.
  unfold sign_text. destruct (has type SIGN); [|apply emits_ret].
  destruct (s64 num <? 0); [apply emits_emit|]. destruct (has type PLUS); [apply emits_emit|].
  destruct (has type SPACE); [apply emits_emit|apply emits_ret].
Qed.
Lemma prefix_char :
  emits end_ (if has type SPECIAL && negb (base =? 10) then (emit end_ 48 ;; if base =? 16 then emit end_ (Z.lor 88 (Z.land type SMALL)) else ret tt) else ret tt) (prefix_text type base) tt.
Proof using Hbase.
  unfold prefix_text. destruct (has type SPECIAL); [|apply emits_ret]. rewrite land_SMALL.
  destruct Hbase as [-> | [-> | ->]]; cbn [Z.eqb Pos.eqb negb andb].
  - apply (emits_seq _ _ _ [48] []); [apply emits_emit|apply emits_ret].
  - apply emits_ret.
  - apply (emits_seq _ _ _ [48] [_]); [apply emits_emit|]. destruct (has type SMALL); apply emits_emit.
Qed.
Lemma prefix_size z :
  (if has type SPECIAL && negb (base =? 10) then (if base =? 16 then s32 (s32 (s32 z - 1) - 1) else s32 (s32 z - 1)) else s32 z) =
    s32 (z - zlen (prefix_text type base)).
Proof using Hbase.
  unfold prefix_text. destruct (has type SPECIAL); [|cbn [andb]; change (zlen []) with 0; by rewrite Z.sub_0_r].
  destruct Hbase as [-> | [-> | ->]]; cbn [Z.eqb Pos.eqb negb andb].
  - by rewrite s32_sub.
  - change (zlen []) with 0. by rewrite Z.sub_0_r.
  - by rewrite s32_sub, <- Z.sub_add_distr, s32_sub.
Qed.
(** The zeros of the precision and the digits. *)
Lemma emits_body (tmp : list Z) : zlen tmp <= 64 ->
  let prec := if precision <? zlen tmp then zlen tmp else precision in
  zlen (replicate (Z.to_nat (precision - zlen tmp)) 48 ++ rev tmp) = prec /\
  forall z, emits end_
    (while (1 + Z.to_nat prec) (zeros_round end_ (zlen tmp)) prec ;; while (1 + length tmp) (digits_round end_ tmp) (zlen tmp) ;;
     let* _ := pad end_ 32 z in ret tt) ((replicate (Z.to_nat (precision - zlen tmp)) 48 ++ rev tmp) ++ replicate (padding z) 32) tt.
Proof using Hprec.
  clear Hsize Hnum. intros Ht prec. pose proof (zlen_nonneg tmp). split.
  { unfold prec. rewrite zlen_app, zlen_rev, zlen_replicate_max. case_if E; b2p; lia. }
  intros z. rewrite <- app_assoc. apply emits_seq.
  { replace (Z.to_nat (precision - zlen tmp)) with (Z.to_nat (prec - zlen tmp)) by (unfold prec; case_if E; b2p; lia).
    apply emits_zeros; [lia|]. unfold prec. case_if E; b2p; lia. }
  apply emits_seq. { rewrite <- (firstn_all tmp) at 4. apply (emits_digits end_ tmp (length tmp)); lia. }
  rewrite <- (app_nil_r (replicate (padding z) 32)). eapply emits_bind; [apply emits_pad|apply emits_ret].
Qed.

Lemma emits_number_raw : emits end_ (number end_ num base size precision type) (number_raw num base size precision type) tt.
Proof using Hnum Hbase Hsize Hprec Htype.
  destruct (left_type_has type Htype) as (F1 & F2 & F3 & F4 & F5 & F6). unfold number. fold (left_type type). rewrite F1, F2, F3, F4, F5, F6, sign_eq.
  rewrite prefix_size. pose proof magnitude_range as Hm. pose proof (zlen_digits base (magnitude type num) ltac:(lia) Hm) as Hd.
  unfold number_raw, digits_text. set (tmp := digit_char (has type SMALL) <$> digits base (magnitude type num)).
  assert (zlen tmp = zlen (digits base (magnitude type num))) as Ht by apply zlen_fmap. rewrite (zlen_rev tmp).
  apply (emits_bind _ _ _ [] _ tmp); [apply emits_tmp|]. destruct (emits_body tmp ltac:(lia)) as [Hbody Htail].
  set (prec := if precision <? zlen tmp then zlen tmp else precision) in *. set (sg := sign_text type num) in *.
  set (pf := prefix_text type base) in *.
  set (body := replicate (Z.to_nat (precision - zlen tmp)) 48 ++ rev tmp) in *. clearbody prec.
  rewrite s32_sub, Hbody, zlen_app. replace (size - (zlen sg + zlen pf) - prec) with (size - zlen sg - zlen pf - prec) by lia.
  set (fill := s32 (size - zlen sg - zlen pf - prec)). destruct (has type LEFT) eqn:EL; cbn [orb andb negb] in *.
  - rewrite orb_true_r. cbn [negb]. rewrite <- app_assoc. apply (emits_bind _ _ _ [] _ fill); [apply emits_ret|].
    apply emits_seq; [apply sign_text_char|]. apply emits_seq; [apply prefix_char|]. apply (emits_bind _ _ _ [] _ fill); [apply emits_ret|].
    apply Htail.
  - rewrite orb_false_r, andb_true_r. destruct (has type ZEROPAD); cbn [negb].
    + rewrite <- app_assoc. apply (emits_bind _ _ _ [] _ fill); [apply emits_ret|].
      apply emits_seq; [apply sign_text_char|]. apply emits_seq; [apply prefix_char|]. eapply emits_bind; [apply emits_pad|]. apply Htail.
    + eapply emits_bind; [apply emits_pad|]. rewrite <- app_assoc.
      apply emits_seq; [apply sign_text_char|]. apply emits_seq; [apply prefix_char|]. eapply emits_bind; [apply emits_pad|]. apply Htail.
Qed.
(** For sizes and precisions that are not huge the field is filled up once. *)
Lemma number_raw_text : in_range size -> in_range precision -> number_raw num base size precision type = number_text num base size precision type.
Proof using Hnum Hbase.
  clear Hsize Hprec. intros Hs Hp. unfold in_range in *. unfold number_raw, number_text. set (front := sign_text type num ++ prefix_text type base).
  assert (0 <= zlen front <= 3) as Hf. { subst front. unfold sign_text, prefix_text. rewrite zlen_app. repeat case_match; by split. }
  assert (0 <= zlen (digits_text num base precision type) < 2 ^ 30) as Hb.
  { unfold digits_text. rewrite zlen_app, zlen_rev, zlen_fmap. pose proof (zlen_digits base (magnitude type num) ltac:(lia) magnitude_range).
    rewrite zlen_replicate_max. lia. }
  rewrite s32_id by lia. set (fill := size - zlen front - _).
  rewrite (padded_small fill), (padded_small (Z.min (fill - 1) (-1))), !padding_nonneg by lia.
  destruct (has type LEFT); [done|]. destruct (has type ZEROPAD).
  - replace (Z.to_nat (Z.min (fill - 1) (-1))) with 0%nat by lia. by rewrite app_nil_r.
  - replace (Z.to_nat (Z.min (fill - 1) (-1))) with 0%nat by lia. replace (Z.to_nat (Z.min _ (-1))) with 0%nat by lia. by rewrite app_nil_r.
Qed.
Lemma emits_number : in_range size -> in_range precision ->
  emits end_ (number end_ num base size precision type) (number_text num base size precision type) tt.
Proof using Hnum Hbase Hsize Hprec Htype. intros H1 H2. rewrite <- number_raw_text by done. apply emits_number_raw. Qed.
End Number.

(** ** Which arguments a format takes *)
(** The routines look at the output only through the arguments that are left and, for
    [%n], the count.  What a format asks of its arguments is a computation on the list of
    arguments alone; it faults where an argument is missing, has another type than the
    directive asks for, or points to something else or to too few bytes. *)
Abbreviation AR := (ST (list arg)).
Definition pop : AR arg := fun l => match l with a :: l => Some (a, l) | [] => None end.
Definition pop_if (ok : arg -> bool) : AR unit := let* a := pop in if ok a then ret tt else fault.
Definition is_int (a : arg) : bool := match a with AInt _ => true | _ => false end.
Definition is_string (a : arg) : bool := match a with AString _ => true | _ => false end.
Definition is_out (a : arg) : bool := match a with AOut _ => true | _ => false end.
(** The type of an integer argument by its qualifier. *)
Definition is_integer (qualifier : Z) (a : arg) : bool :=
  match a with
  | ALongLong _ => qualifier =? 76
  | ALong _ => qualifier =? 108
  | ASize _ => (qualifier =? 90) || (qualifier =? 122)
  | APtrdiff _ => qualifier =? 116
  | AInt _ => negb (existsb (Z.eqb qualifier) [76; 108; 90; 122; 116])
  | _ => false
  end.
Definition has_bytes (n : Z) (o : pointee) : bool := match o with Bytes b => n <=? zlen b | _ => false end.
Definition is_resource (o : pointee) : bool := match o with Resource _ _ _ => true | _ => false end.
Definition pointee_ok (fmt : list Z) (p : Z) (o : pointee) : bool :=
  let c := at_ fmt 0 in
  if p =? 0 then true
  else if (c =? 70) || (c =? 83) then true
  else if c =? 82 then is_resource o
  else if (c =? 109) || (c =? 77) then has_bytes 6 o
  else if (c =? 105) || (c =? 73) then
    if at_ fmt 1 =? 54 then has_bytes 16 o else if at_ fmt 1 =? 52 then has_bytes 4 o else true
  else true.
Definition is_pointer (fmt : list Z) (a : arg) : bool := match a with APointer p o => pointee_ok fmt p o | _ => false end.

Definition amount_takes (fmt : list Z) : AR (list Z) :=
  match fmt with 42 :: fmt' => pop_if is_int ;; ret fmt' | _ => ret (skip_atoi fmt 0).1 end.
Definition precision_takes (fmt : list Z) : AR (list Z) := match fmt with 46 :: fmt' => amount_takes fmt' | _ => ret fmt end.
Definition conversion_takes (fmt : list Z) (qualifier : Z) : AR (list Z) :=
  match fmt with
  | [] => ret []
  | c :: fmt' =>
      if c =? 99 then pop_if is_int ;; ret fmt'
      else if c =? 115 then pop_if is_string ;; ret fmt'
      else if c =? 112 then pop_if (is_pointer fmt') ;; ret (skip_alnum fmt')
      else if c =? 110 then pop_if is_out ;; ret fmt'
      else if existsb (Z.eqb c) [111; 120; 88; 100; 105; 117] then pop_if (is_integer qualifier) ;; ret fmt'
      else ret fmt'
  end.
Definition round_takes (fmt : list Z) : AR (list Z + unit) :=
  match fmt with
  | [] => ret (inr tt)
  | 37 :: fmt =>
      let* fmt := amount_takes (flag_chars fmt 0).1 in
      let* fmt := precision_takes fmt in
      let '(fmt, qualifier) := get_qualifier fmt in
      let* fmt := conversion_takes fmt qualifier in
      ret (inl fmt)
  | _ :: fmt => ret (inl fmt)
  end.
(** The arguments that are left behind the format. *)
Definition format_takes (fmt : list Z) (as_ : list arg) : option (list arg) :=
  snd <$> while (1 + length fmt) round_takes fmt as_.

(** ** Truncation *)
Definition after (e : Z) (o : out) (l : list Z) (as' : list arg) (st : list (Z * Z)) : out :=
  Out (buf (push e o l)) (str (push e o l)) as' (stores o ++ st).
(** What is written does not depend on the arguments and stores. *)
Lemma push_buf e l : forall o o', buf o = buf o' -> str o = str o' -> buf (push e o l) = buf (push e o' l).
Proof.
  induction l as [|c l IH]; intros o o' Hb Hs; [done|]. apply (IH (put1 e o c) (put1 e o' c)); unfold put1; cbn; by rewrite ?Hb, ?Hs.
Qed.
Lemma after_after e o l1 as1 st1 l2 as2 st2 : after e (after e o l1 as1 st1) l2 as2 st2 = after e o (l1 ++ l2) as2 (st1 ++ st2).
Proof.
  unfold after at 1 3. rewrite push_app. destruct (push_fields e l2 (after e o l1 as1 st1)) as (_ & _ & ->).
  destruct (push_fields e l2 (push e o l1)) as (_ & _ & ->). f_equal; [by apply push_buf|]. cbn. by rewrite app_assoc.
Qed.
Lemma okout_after w o l as' st : okout w o -> okout w (after (room w) o l as' st).
Proof. intros H. destruct (okout_push w l o H). done. Qed.

(** A routine takes the arguments that [f] takes, if from given arguments and a given count
    it faults for every buffer where [f] faults, and otherwise returns a fixed result,
    writes the same text and leaves the same arguments, whatever the buffer and its end
    are, as long as the pointer does not run over the end of memory. *)
Definition takes {A B} (R : A -> B -> Prop) (m : window -> PR A) (f : AR B) : Prop := forall (as_ : list arg) (pos : Z),
  match f as_ with
  | None => forall w o, args o = as_ -> str o = pos -> m w o = None
  | Some (b, as') => exists l a st, R a b /\ forall w o, args o = as_ -> str o = pos ->
      (okout w o -> fits w o l -> m w o = Some (a, after (room w) o l as' st)) /\ goes (m w) o l as' a
  end.

Lemma takes_emits {A B} (R : A -> B -> Prop) (m : window -> PR A) l a b : (forall w, emits w (m w) l a) -> R a b -> takes R m (ret b).
Proof.
  intros Hm HR as_ pos. exists l, a, []. split; [done|]. intros w o <- _. destruct (Hm w o) as [H1 H2]. split; [|done].
  intros Ho Hf. rewrite H1 by done. destruct (push_fields (room w) l o) as (Ha & Hs & _). unfold after. rewrite app_nil_r, <- Ha, <- Hs.
  by destruct (push _ _ _).
Qed.
Lemma takes_ret {A B} (R : A -> B -> Prop) a b : R a b -> takes R (fun _ => ret a) (ret b).
Proof. intros HR. apply (takes_emits R _ [] a b); [intros w; apply emits_ret|done]. Qed.
Lemma takes_fault {A B} (R : A -> B -> Prop) : takes R (fun _ => fault) fault.
Proof. by intros as_ pos. Qed.
Lemma takes_bind {A A' B B'} (R : A -> A' -> Prop) (Q : B -> B' -> Prop) (m : window -> PR A) (f : AR A') (m' : window -> A -> PR B) (f' : A' -> AR B') :
  takes R m f -> (forall a a', R a a' -> takes Q (fun w => m' w a) (f' a')) -> takes Q (fun w => bind (m w) (m' w)) (bind f f').
Proof.
  intros Hm Hf as_ pos. specialize (Hm as_ pos). unfold bind at 1. destruct (f as_) as [[a' as']|].
  2:{ intros w o Ha Hs. unfold bind. by rewrite Hm. }
  destruct Hm as (l & a & st & HR & H). specialize (Hf a a' HR as' (pos + zlen l)). destruct (f' a' as') as [[b as'']|].
  - destruct Hf as (l' & b' & st' & HQ & H'). exists (l ++ l'), b', (st ++ st'). split; [done|]. intros w o Ha Hs. destruct (H w o Ha Hs) as [H1 H2]. split.
    + intros Ho [F1 F2]%fits_app. specialize (H1 Ho F1). run H1. rewrite <- (after_after (room w) o l as' st l' as'' st').
      apply H'; [done| |by apply okout_after|done]. cbn. rewrite <- Hs. apply push_fields.
    + apply (goes_bind _ _ o l l' as' as'' a b'); [done|]. intros o' Ha' Hs'. apply H'; [done|lia].
  - intros w o Ha Hs. destruct (H w o Ha Hs) as [_ [E|(o' & E & Ha' & Hs')]]; [unfold bind; by rewrite E|]. run E. apply Hf; [done|lia].
Qed.
(** A part that takes no argument. *)
Lemma takes_skip {A B B'} (Q : B -> B' -> Prop) (m : window -> PR A) l a (m' : window -> A -> PR B) (f' : AR B') :
  (forall w, emits w (m w) l a) -> takes Q (fun w => m' w a) f' -> takes Q (fun w => bind (m w) (m' w)) f'.
Proof.
  intros Hm Hf. change f' with (bind (ret a) (fun _ => f')).
  apply (takes_bind (fun x y => x = y /\ x = a) Q _ _ _ (fun _ => f')); [by apply (takes_emits _ _ l a a)|]. by intros ? ? [-> ->].
Qed.
Lemma takes_last {A B} (R : A -> B -> Prop) (m : window -> PR unit) (f : AR unit) a b :
  takes eq m f -> R a b -> takes R (fun w => bind (m w) (fun _ => ret a)) (bind f (fun _ => ret b)).
Proof. intros Hm HR. apply (takes_bind eq R m f _ _ Hm). intros [] [] _. by apply takes_ret. Qed.
(** A routine that writes nothing. *)
Lemma takes_pure {A B} (R : A -> B -> Prop) (m : window -> PR A) a b as_ as' pos st : R a b ->
  (forall w o, args o = as_ -> str o = pos -> m w o = Some (a, Out (buf o) (str o) as' (stores o ++ st))) ->
  exists l a st, R a b /\ forall w o, args o = as_ -> str o = pos ->
    (okout w o -> fits w o l -> m w o = Some (a, after (room w) o l as' st)) /\ goes (m w) o l as' a.
Proof.
  intros HR H. exists [], a, st. split; [done|]. intros w o Ha Hs. split; [by intros _ _; rewrite H|]. right. eexists. split; [by apply H|].
  cbn. by rewrite Z.add_0_r.
Qed.
Lemma takes_pop {B B'} (Q : B -> B' -> Prop) (m' : window -> arg -> PR B) (f' : arg -> AR B') :
  (forall a, takes Q (fun w => m' w a) (f' a)) -> takes Q (fun w => bind next_arg (m' w)) (bind pop f').
Proof.
  intros H. apply (takes_bind eq Q); [|by intros a ? <-]. intros [|a as_] pos; cbn [pop].
  - intros w o Ha _. unfold next_arg. by rewrite Ha.
  - apply (takes_pure eq (fun _ => next_arg) a a _ _ _ []); [done|]. intros w o Ha _. unfold next_arg. by rewrite Ha, app_nil_r.
Qed.
Lemma takes_arg {B B'} (Q : B -> B' -> Prop) ok (m' : window -> arg -> PR B) (f' : AR B') :
  (forall a, ok a = true -> takes Q (fun w => m' w a) f') -> (forall a w, ok a = false -> m' w a = fault) ->
  takes Q (fun w => bind next_arg (m' w)) (bind (pop_if ok) (fun _ => f')).
Proof.
  intros Hy Hn as_ pos. unfold pop_if. rewrite bind_assoc. revert as_ pos.
  apply (takes_pop Q m' (fun a => bind (if ok a then ret tt else fault) (fun _ => f'))). intros a. destruct (ok a) eqn:E; [by apply Hy|].
  intros as_ pos w o _ _. by rewrite Hn.
Qed.
Lemma takes_while {X A} (body : window -> X -> PR (X + A)) (body' : X -> AR (X + A)) fuel :
  (forall x, takes eq (fun w => body w x) (body' x)) -> forall x, takes eq (fun w => while fuel (body w) x) (while fuel body' x).
Proof.
  intros Hb. induction fuel as [|fuel IH]; intros x; [exact (takes_fault eq)|].
  apply (takes_bind eq eq (fun w => body w x) (body' x) (fun w o => match o with inl x' => while fuel (body w) x' | inr r => ret r end)
    (fun o => match o with inl x' => while fuel body' x' | inr r => ret r end)); [apply Hb|].
  intros [x'|r] ? <-; [apply IH|by apply takes_ret].
Qed.
(** ** The text of strings and characters *)
Definition string_text (s : option (list Z)) (width precision flags : Z) : list Z :=
  let s := default null_text s in
  let body := take (Z.to_nat (u32 precision)) s in
  let fill := replicate (Z.to_nat (width - zlen body)) 32 in
  if has flags LEFT then body ++ fill else fill ++ body.
Definition char_text (v width flags : Z) : list Z :=
  let fill := replicate (Z.to_nat (width - 1)) 32 in
  if has flags LEFT then u8 v :: fill else fill ++ [u8 v].

(** What [string] writes for any width and precision. *)
Definition string_raw (s : option (list Z)) (width precision flags : Z) : list Z :=
  let s := default null_text s in
  let len := s32 (strnlen_of s precision) in
  let fill := replicate (Z.to_nat (width - len)) 32 in
  if has flags LEFT then take (Z.to_nat len) s ++ fill
  else fill ++ take (Z.to_nat len) s ++ replicate (Z.to_nat (s32 (Z.min width len - 1) - len)) 32.
Lemma emits_string_raw w s width precision flags : - 2 ^ 31 <= width < 2 ^ 31 ->
  emits w (string w s width precision flags) (string_raw s width precision flags) tt.
Proof.
  intros Hw. unfold string, string_raw. set (t := default null_text s). set (len := s32 (strnlen_of t precision)).
  assert (- 2 ^ 31 <= len < 2 ^ 31) by apply s32_range. destruct (has flags LEFT); cbn [negb].
  - apply (emits_bind _ _ _ [] _ width); [apply emits_ret|]. apply emits_seq; [apply emits_all|].
    rewrite <- (app_nil_r (replicate _ _)). eapply emits_bind; [by apply emits_widen|apply emits_ret].
  - eapply emits_bind; [by apply emits_widen|]. apply emits_seq; [apply emits_all|].
    rewrite <- (app_nil_r (replicate _ _)). eapply emits_bind; [apply emits_widen; [done|apply s32_range]|apply emits_ret].
Qed.
Lemma emits_string w s width precision flags : in_range width -> zlen (default null_text s) < 2 ^ 29 ->
  emits w (string w s width precision flags) (string_text s width precision flags) tt.
Proof.
  intros Hw Hl. unfold in_range in Hw. pose proof (emits_string_raw w s width precision flags ltac:(lia)) as H. revert H.
  unfold string_raw, string_text, strnlen_of. set (t := default null_text s) in *. pose proof (zlen_nonneg t).
  pose proof (Z.mod_pos_bound precision (2 ^ 32) ltac:(lia)) as Hp. fold (u32 precision) in Hp.
  assert (take (Z.to_nat (Z.min (zlen t) (u32 precision))) t = take (Z.to_nat (u32 precision)) t) as Et.
  { destruct (Z.min_spec (zlen t) (u32 precision)) as [[? ->]|[? ->]]; [|done]. rewrite !take_ge; [done|unfold zlen in *; lia|unfold zlen in *; lia].
    }
  rewrite s32_id, Et by lia. set (body := take (Z.to_nat (u32 precision)) t).
  assert (zlen body = Z.min (zlen t) (u32 precision)) as -> by (unfold body; rewrite zlen_take; lia).
  set (len := Z.min (zlen t) (u32 precision)). assert (0 <= len < 2 ^ 29) by lia. destruct (has flags LEFT); [done|].
  rewrite s32_id by lia. replace (Z.to_nat (Z.min width len - 1 - len)) with 0%nat by lia. by rewrite app_nil_r.
Qed.

(** ** Structured formats *)
(** A width or precision is written in the format or given by an argument; a precision may
    be a point alone. *)
Inductive amount := Fixed (n : Z) | Star (v : Z) | Bare.
Inductive qual := QNone | Qh | Ql | Qll | QL | Qz | QZ | Qt.
Inductive int_conv := Dec | Uns | Oct | Hex | HexUpper.
Record directive := Directive { d_flags : list Z; d_width : option amount; d_prec : option amount }.
Inductive item :=
| Literal (c : Z)
| Percent
| Integer (d : directive) (q : qual) (k : int_conv) (v : Z)
| IntegerI (d : directive) (q : qual) (v : Z)
| Character (d : directive) (v : Z)
| Str (d : directive) (s : option (list Z)).

(** The syntax. *)
Definition decimal (n : Z) : list Z := rev (Z.add 48 <$> digits 10 n).
Definition amount_syntax (a : option amount) : list Z := match a with Some (Fixed n) => decimal n | Some (Star _) => [42] | _ => [] end.
Definition prec_syntax (a : option amount) : list Z := match a with Some _ => 46 :: amount_syntax a | None => [] end.
Definition directive_syntax (d : directive) : list Z := d_flags d ++ amount_syntax (d_width d) ++ prec_syntax (d_prec d).
Definition qual_syntax (q : qual) : list Z := match q with QNone => [] | Qh => [104] | Ql => [108] | Qll => [108; 108] | QL => [76] | Qz => [122] | QZ => [90] | Qt => [116] end.
Definition conv_char (k : int_conv) : Z := match k with Dec => 100 | Uns => 117 | Oct => 111 | Hex => 120 | HexUpper => 88 end.
Definition item_syntax (i : item) : list Z :=
  match i with
  | Literal c => [c]
  | Percent => [37; 37]
  | Integer d q k _ => 37 :: directive_syntax d ++ qual_syntax q ++ [conv_char k]
  | IntegerI d q _ => 37 :: directive_syntax d ++ qual_syntax q ++ [105]
  | Character d _ => 37 :: directive_syntax d ++ [99]
  | Str d _ => 37 :: directive_syntax d ++ [115]
  end.

(** The arguments. *)
Definition amount_args (a : option amount) : list arg := match a with Some (Star v) => [AInt v] | _ => [] end.
Definition directive_args (d : directive) : list arg := amount_args (d_width d) ++ amount_args (d_prec d).
Definition int_arg (q : qual) (v : Z) : arg :=
  match q with QNone | Qh => AInt v | Ql => ALong v | Qll | QL => ALongLong v | Qz | QZ => ASize v | Qt => APtrdiff v end.
Definition item_args (i : item) : list arg :=
  match i with
  | Literal _ | Percent => []
  | Integer d q _ v | IntegerI d q v => directive_args d ++ [int_arg q v]
  | Character d v => directive_args d ++ [AInt v]
  | Str d s => directive_args d ++ [AString s]
  end.

(** The meaning: flags, width and precision, the number, the text. *)
Definition flag_of (c : Z) : Z :=
  if c =? 45 then LEFT else if c =? 43 then PLUS else if c =? 32 then SPACE else if c =? 35 then SPECIAL else ZEROPAD.
Definition flags_of (l : list Z) : Z := foldl (fun f c => Z.lor f (flag_of c)) 0 l.
Definition amount_of (a : amount) : Z := match a with Fixed n => n | Star v => v | Bare => 0 end.
Definition d_left (d : directive) : Z :=
  Z.lor (flags_of (d_flags d)) (match d_width d with Some (Star v) => if v <? 0 then LEFT else 0 | _ => 0 end).
Definition width_of (d : directive) : Z := match d_width d with Some a => Z.abs (amount_of a) | None => -1 end.
Definition prec_of (d : directive) : Z := match d_prec d with Some a => Z.max 0 (amount_of a) | None => -1 end.
Definition conv_flags (k : int_conv) : Z := match k with Dec => SIGN | Hex => SMALL | _ => 0 end.
Definition conv_base (k : int_conv) : Z := match k with Dec | Uns => 10 | Oct => 8 | _ => 16 end.
(** The argument at its type, as a 64-bit number; the signed conversions of the type
    [size_t] take it as unsigned. *)
Definition num_of (q : qual) (k : int_conv) (v : Z) : Z :=
  match q, k with
  | QNone, Dec | Ql, Dec => u64 (s32 v)
  | QNone, _ | Ql, _ => u32 v
  | Qh, Dec => u64 (sgn 16 v)
  | Qh, _ => u16 v
  | Qll, _ | QL, _ => u64 v
  | Qz, _ | QZ, _ => u32 v
  | Qt, _ => u64 (s32 v)
  end.
Definition item_text (i : item) : list Z :=
  match i with
  | Literal c => [c]
  | Percent => [37]
  | Integer d q k v => number_text (num_of q k v) (conv_base k) (width_of d) (prec_of d) (Z.lor (d_left d) (conv_flags k))
  | IntegerI d q v => number_text (num_of q Dec v) 10 (width_of d) (prec_of d) (Z.lor (d_left d) SIGN)
  | Character d v => char_text v (width_of d) (d_left d)
  | Str d s => string_text s (width_of d) (prec_of d) (d_left d)
  end.
(** Which directives are meant: flags are flag characters, a width in the format does not
    begin with 0, and numbers are not huge. *)
Definition amount_ok (least : Z) (a : option amount) : Prop :=
  match a with Some (Fixed n) => least <= n < 2 ^ 29 | Some (Star v) => in_range v | Some Bare => least = 0 | None => True end.
Definition directive_ok (d : directive) : Prop :=
  Forall (fun c => c ∈ [45; 43; 32; 35; 48]) (d_flags d) /\ amount_ok 1 (d_width d) /\ amount_ok 0 (d_prec d).
Definition item_ok (i : item) : Prop :=
  match i with
  | Literal c => c <> 37
  | Percent => True
  | Integer d _ _ _ | IntegerI d _ _ => directive_ok d
  | Character d _ => directive_ok d
  | Str d s => directive_ok d /\ zlen (default null_text s) < 2 ^ 29
  end.

(** ** Reading the syntax *)
Lemma value_app base l1 l2 : value base (l1 ++ l2) = foldl (fun v d => v * base + d) (value base l1) l2.
Proof. apply foldl_app. Qed.
Lemma value_digits base n : 2 <= base -> 0 <= n < 2 ^ 64 -> value base (rev (digits base n)) = n.
Proof.
  intros Hb Hn. unfold digits. assert (forall f n, 0 <= n < 2 ^ Z.of_nat f -> value base (rev (digits_from f base n)) = n) as H.
  { clear n Hn. induction f as [|f IH]; intros n Hn; [change (2 ^ Z.of_nat 0) with 1 in Hn; cbn; lia|].
    rewrite Nat2Z.inj_succ, Z.pow_succ_r in Hn by lia.
    rewrite digits_from_S. cbn [rev]. rewrite value_app. cbn [foldl]. pose proof (Z.div_mod n base ltac:(lia)).
    destruct (Z.eqb_spec (n / base) 0) as [E|E]; [cbn; lia|].
    assert (0 <= n / base) by (apply Z.div_pos; lia). assert (n / base <= n / 2) by (apply Z.div_le_compat_l; lia).
    assert (2 * (n / 2) <= n) by (apply Z.mul_div_le; lia).
    rewrite IH by lia. lia. }
  apply H. change (Z.of_nat 64) with 64. lia.
Qed.
Lemma fold_grows ds : forall i, 0 <= i -> Forall (fun d => 0 <= d < 10) ds -> i <= foldl (fun v d => v * 10 + d) i ds.
Proof.
  induction ds as [|d ds IH]; intros i Hi Hd; [cbn; lia|]. apply Forall_cons_iff in Hd as [Hd Hds]. cbn [foldl].
  specialize (IH (i * 10 + d) ltac:(lia) Hds). lia.
Qed.
Lemma isdigit_spec : forall c, uint 8 c -> isdigit c = bool_decide (48 <= c <= 57).
Proof. apply by_chars. repeat constructor. Qed.
Lemma skip_atoi_eq ds rest : forall i, 0 <= i -> Forall (fun d => 0 <= d < 10) ds -> foldl (fun v d => v * 10 + d) i ds < 2 ^ 29 ->
  (forall c, hd_error rest = Some c -> isdigit c = false) ->
  skip_atoi ((Z.add 48 <$> ds) ++ rest) i = (rest, foldl (fun v d => v * 10 + d) i ds).
Proof.
  induction ds as [|d ds IH]; intros i Hi Hd Hv Hr.
  - destruct rest as [|c rest]; [done|]. cbn. by rewrite (Hr c eq_refl).
  - apply Forall_cons_iff in Hd as [Hd Hds]. cbn [fmap list_fmap app skip_atoi foldl] in *. pose proof (fold_grows ds (i * 10 + d) ltac:(lia) Hds).
    rewrite isdigit_spec by (unfold uint; lia). rewrite bool_decide_eq_true_2 by lia. rewrite s32_id by lia.
    replace (i * 10 + (48 + d) - 48) with (i * 10 + d) by lia. apply IH; [lia|done|done|done].
Qed.
Lemma digits_Forall base n : 2 <= base -> 0 <= n -> Forall (fun d => 0 <= d < base) (digits base n).
Proof. intros Hb Hn. apply Forall_lookup. intros i d. by apply digits_lt. Qed.
Lemma skip_decimal n rest : 0 <= n < 2 ^ 29 -> (forall c, hd_error rest = Some c -> isdigit c = false) ->
  skip_atoi (decimal n ++ rest) 0 = (rest, n).
Proof.
  intros Hn Hr. unfold decimal. rewrite <- map_rev. fold (@fmap list _ Z Z (Z.add 48) (rev (digits 10 n))).
  change (List.map (Z.add 48) (rev (digits 10 n))) with (Z.add 48 <$> rev (digits 10 n)).
  pose proof (value_digits 10 n ltac:(lia) ltac:(lia)) as Hv. unfold value in Hv. rewrite skip_atoi_eq; [by rewrite Hv|lia| |lia|done].
  apply Forall_rev. apply digits_Forall; lia.
Qed.
(** A number above 0 begins with a digit above 0. *)
Lemma decimal_head n : 0 <= n < 2 ^ 29 -> exists c l, decimal n = c :: l /\ 48 <= c <= 57 /\ (0 < n -> c <> 48).
Proof.
  intros Hn. unfold decimal. assert (forall f n, (0 < f)%nat -> 0 <= n < 2 ^ Z.of_nat f ->
    exists d l, rev (digits_from f 10 n) = d :: l /\ 0 <= d < 10 /\ (0 < n -> d <> 0)) as H.
  { clear n Hn. induction f as [|f IH]; intros n Hf Hn; [lia|]. rewrite Nat2Z.inj_succ, Z.pow_succ_r in Hn by lia. rewrite digits_from_S. cbn [rev].
    assert (0 <= n mod 10 < 10) by (apply Z.mod_pos_bound; lia). destruct (Z.eqb_spec (n / 10) 0) as [E|E].
    - exists (n mod 10), []. split; [done|]. split; [done|]. dlia.
    - destruct f as [|f]; [cbn in Hn; dlia|]. destruct (IH (n / 10)) as (d & l & -> & Hd & Hd'); [lia|dlia|]. exists d, (l ++ [n mod 10]).
      split; [done|]. split; [done|]. intros _. apply Hd'. dlia. }
  destruct (H 64%nat n ltac:(lia) ltac:(change (Z.of_nat 64) with 64; lia)) as (d & l & E & Hd & Hd').
  exists (48 + d), (Z.add 48 <$> l). unfold digits. rewrite <- map_rev, E. split; [done|]. split; [lia|]. intros Hp. specialize (Hd' Hp). lia.
Qed.

Definition flag_char (c : Z) : Prop := c ∈ [45; 43; 32; 35; 48].
Lemma flag_chars_cons c fmt f : flag_char c -> flag_chars (c :: fmt) f = flag_chars fmt (Z.lor f (flag_of c)).
Proof. unfold flag_char. rewrite !elem_of_cons. intros [-> | [-> | [-> | [-> | [-> | []%not_elem_of_nil]]]]]; done. Qed.
Lemma flag_chars_stop c fmt f : ~ flag_char c -> flag_chars (c :: fmt) f = (c :: fmt, f).
Proof.
  intros H. unfold flag_char in H. rewrite !elem_of_cons in H. unfold flag_chars.
  destruct c as [|p|p]; [done| |done]. do 6 (destruct p as [p|p|]; try done). all: exfalso; tauto.
Qed.
Lemma flag_chars_eq fl c rest : Forall flag_char fl -> ~ flag_char c -> forall f,
  flag_chars (fl ++ c :: rest) f = (c :: rest, foldl (fun f c => Z.lor f (flag_of c)) f fl).
Proof.
  intros Hf Hc. induction Hf as [|x fl Hx Hf IH]; intros f; [by apply flag_chars_stop|]. cbn [app foldl]. rewrite flag_chars_cons by done. apply IH.
Qed.

Definition with_args (o : out) (l : list arg) : out := Out (buf o) (str o) l (stores o).
(** A character that ends a width. *)
Definition ends_width (c : Z) : Prop := isdigit c = false /\ c <> 42.
Lemma get_width_eq w c rest flags l o : amount_ok 1 w -> ends_width c -> args o = amount_args w ++ l ->
  get_width (amount_syntax w ++ c :: rest) flags o =
    Some ((c :: rest, match w with Some a => Z.abs (amount_of a) | None => -1 end,
      Z.lor flags (match w with Some (Star v) => if v <? 0 then LEFT else 0 | _ => 0 end)), with_args o l).
Proof.
  intros Hw [Hd H42] Ha. unfold with_args. destruct w as [[n|v|]|]; cbn [amount_syntax amount_args app amount_of] in *; [| |done|].
  - cbn in Hw. destruct (decimal_head n ltac:(lia)) as (c0 & l0 & E & Hc & _). pose proof (skip_decimal n (c :: rest) ltac:(lia)) as Hs.
    rewrite E in *. cbn [app] in *. rewrite Z.lor_0_r, Z.abs_eq, <- Ha by lia. unfold get_width.
    assert (isdigit c0 = true) as Hc0 by (rewrite isdigit_spec by (unfold uint; lia); by apply bool_decide_eq_true_2).
    rewrite Hc0, Hs by (intros ? [= <-]; done). destruct o. destruct c0 as [|p|p]; [lia| |lia].
    do 6 (destruct p as [p|p|]; try reflexivity); lia.
  - unfold get_width, arg_int, next_arg, bind. rewrite Ha. cbn. cbn [amount_ok] in Hw. unfold in_range in Hw. rewrite s32_id by lia.
    destruct (Z.ltb_spec v 0); [rewrite s32_id by lia; by rewrite Z.abs_neq by lia|]. rewrite Z.abs_eq, Z.lor_0_r by lia. done.
  - rewrite Z.lor_0_r, <- Ha. unfold get_width. rewrite Hd. destruct o. destruct c as [|p|p]; [done| |done].
    do 6 (destruct p as [p|p|]; try reflexivity); lia.
Qed.
Lemma get_precision_eq p c rest l o : amount_ok 0 p -> isdigit c = false -> c <> 42 -> c <> 46 -> args o = amount_args p ++ l ->
  get_precision (prec_syntax p ++ c :: rest) o =
    Some ((c :: rest, match p with Some a => Z.max 0 (amount_of a) | None => -1 end), with_args o l).
Proof.
  intros Hp Hd H42 H46 Ha. unfold with_args. destruct p as [[n|v|]|]; cbn [prec_syntax amount_syntax amount_args app amount_of] in *.
  - cbn in Hp. destruct (decimal_head n ltac:(lia)) as (c0 & l0 & E & Hc & _). pose proof (skip_decimal n (c :: rest) ltac:(lia)) as Hs.
    rewrite E in *. cbn [app] in *. rewrite Z.max_r, <- Ha by lia. unfold get_precision.
    assert (isdigit c0 = true) as Hc0 by (rewrite isdigit_spec by (unfold uint; lia); by apply bool_decide_eq_true_2).
    rewrite Hc0, Hs by (intros ? [= <-]; done). destruct o. destruct c0 as [|q|q]; [lia| |lia].
    do 6 (destruct q as [q|q|]; try lia; try (cbn; rewrite (proj2 (Z.ltb_ge n 0)) by lia; reflexivity)).
  - unfold get_precision, arg_int, next_arg, bind. rewrite Ha. cbn. cbn [amount_ok] in Hp. unfold in_range in Hp. rewrite s32_id by lia.
    destruct (Z.ltb_spec v 0); [by rewrite Z.max_l by lia|]. by rewrite Z.max_r by lia.
  - rewrite <- Ha. unfold get_precision. rewrite Hd. destruct o. destruct c as [|q|q]; [done| |done].
    do 6 (destruct q as [q|q|]; try reflexivity); lia.
  - rewrite <- Ha. unfold get_precision. destruct o. destruct c as [|q|q]; [done| |done].
    do 6 (destruct q as [q|q|]; try reflexivity); lia.
Qed.

(** The flags of a directive are among five. *)
Definition plain_flags (f : Z) : Prop := flag_bits f /\ has f SIGN = false /\ has f SMALL = false.
Lemma flag_bits_lor a b : flag_bits a -> flag_bits b -> flag_bits (Z.lor a b).
Proof. unfold flag_bits. intros Ha Hb. change 128 with (2 ^ 7) in *. apply (uint_lor 7); unfold uint; lia. Qed.
Lemma has_lor a b m : has (Z.lor a b) m = has a m || has b m.
Proof.
  unfold has. rewrite Z.land_lor_distr_l. destruct (Z.eqb_spec (Z.land a m) 0) as [->|Ha]; cbn [negb orb]; [by rewrite Z.lor_0_l|].
  rewrite (proj2 (Z.eqb_neq _ 0)); [done|]. rewrite Z.lor_eq_0_iff. tauto.
Qed.
Lemma plain_flags_lor a b : plain_flags a -> plain_flags b -> plain_flags (Z.lor a b).
Proof. intros (A1 & A2 & A3) (B1 & B2 & B3). split; [by apply flag_bits_lor|]. by rewrite !has_lor, A2, A3, B2, B3. Qed.
Lemma plain_flag_of c : plain_flags (flag_of c).
Proof. unfold flag_of, plain_flags, flag_bits. repeat match goal with |- context [c =? ?k] => destruct (c =? k) end; (split; [split; by vm_compute|split; reflexivity]). Qed.
Lemma plain_0 : plain_flags 0.
Proof. split; [split; by vm_compute|split; reflexivity]. Qed.
Lemma plain_d_left d : plain_flags (d_left d).
Proof.
  unfold d_left. apply plain_flags_lor.
  - unfold flags_of. pose proof plain_0 as H0. revert H0. generalize 0. induction (d_flags d) as [|c l IH]; intros f Hf; [done|].
    cbn. apply IH, plain_flags_lor; [done|apply plain_flag_of].
  - destruct (d_width d) as [[n|v|]|]; [apply plain_0| |apply plain_0|apply plain_0]. case_if E; [apply (plain_flag_of 45)|apply plain_0].
Qed.

(** ** One directive *)
Definition stops (c : Z) : Prop := ~ flag_char c /\ isdigit c = false /\ c <> 42 /\ c <> 46.
Lemma after_flags w p c rest : amount_ok 1 w -> amount_ok 0 p -> stops c ->
  exists x t, amount_syntax w ++ prec_syntax p ++ c :: rest = x :: t /\ ~ flag_char x.
Proof.
  intros Hw Hp (Hc & _). destruct w as [[n|v|]|]; cbn [amount_syntax app]; [| |done|].
  - cbn in Hw. destruct (decimal_head n ltac:(lia)) as (c0 & l0 & -> & Hc0 & Hn). exists c0, (l0 ++ prec_syntax p ++ c :: rest). split; [done|].
    specialize (Hn ltac:(lia)). unfold flag_char. rewrite !elem_of_cons. intros [? | [? | [? | [? | [? | []%not_elem_of_nil]]]]]; lia.
  - eexists _, _. split; [done|]. unfold flag_char. rewrite !elem_of_cons. intros [? | [? | [? | [? | [? | []%not_elem_of_nil]]]]]; lia.
  - destruct p as [a|]; cbn [prec_syntax app]; [|by eexists _, _].
    eexists _, _. split; [done|]. unfold flag_char. rewrite !elem_of_cons. intros [? | [? | [? | [? | [? | []%not_elem_of_nil]]]]]; lia.
Qed.
Lemma directive_eq sym e d c rest l o : directive_ok d -> stops c -> args o = directive_args d ++ l ->
  format_round sym e (37 :: directive_syntax d ++ c :: rest) o =
    (let '(fmt, qualifier) := get_qualifier (c :: rest) in
     let* fmt := convert sym e fmt (d_left d) (width_of d) (prec_of d) qualifier in ret (inl fmt)) (with_args o l).
Proof.
  intros (Hf & Hw & Hp) Hc Ha. unfold format_round, directive_syntax. rewrite <- !app_assoc.
  destruct (after_flags _ _ c rest Hw Hp Hc) as (x & t & Ex & Hx). rewrite Ex, (flag_chars_eq _ _ _ Hf Hx), <- Ex. cbv beta iota. clear Ex x t Hx.
  destruct Hc as (_ & Hd & H42 & H46). unfold directive_args in Ha. rewrite <- app_assoc in Ha.
  assert (exists x t, prec_syntax (d_prec d) ++ c :: rest = x :: t /\ ends_width x) as (x & t & Ex & Hx).
  { destruct (d_prec d) as [a|]; cbn [prec_syntax app]; eexists _, _; (split; [done|]); done. }
  rewrite Ex. run (get_width_eq _ _ t (foldl (fun f c => Z.lor f (flag_of c)) 0 (d_flags d)) _ o Hw Hx Ha). rewrite <- Ex.
  run (get_precision_eq (d_prec d) c rest l (with_args o (amount_args (d_prec d) ++ l)) Hp Hd H42 H46 eq_refl).
  reflexivity.
Qed.

Definition qual_code (q : qual) : Z := match q with QNone => -1 | Qh => 104 | Ql => 108 | Qll | QL => 76 | Qz => 122 | QZ => 90 | Qt => 116 end.
(** The characters of an integer conversion. *)
Definition conv_of (k : int_conv) (c : Z) : Prop := c = conv_char k \/ k = Dec /\ c = 105.
Lemma get_qualifier_eq q k c rest : conv_of k c -> get_qualifier (qual_syntax q ++ c :: rest) = (c :: rest, qual_code q).
Proof. by intros [-> | [-> ->]]; destruct q; try destruct k. Qed.
Lemma get_num_eq q k v f l o : plain_flags f -> args o = int_arg q v :: l ->
  get_num (qual_code q) (Z.lor f (conv_flags k)) o = Some (num_of q k v, with_args o l).
Proof.
  intros (_ & Hf & _) Ha. unfold get_num, next_arg, bind. rewrite Ha. cbv beta iota.
  assert (has (Z.lor f (conv_flags k)) SIGN = match k with Dec => true | _ => false end) as -> by (rewrite has_lor, Hf; by destruct k).
  by destruct q, k.
Qed.
Lemma convert_int sym e k c rest f w p q : conv_of k c -> convert sym e (c :: rest) f w p q =
  (let* num := get_num q (Z.lor f (conv_flags k)) in number e num (conv_base k) w p (Z.lor f (conv_flags k)) ;; ret rest).
Proof. intros [-> | [-> ->]]; [|reflexivity]. destruct k; cbn [conv_flags]; rewrite ?Z.lor_0_r; reflexivity. Qed.
Lemma stops_char x : x ∈ [104; 108; 76; 122; 90; 116; 105; 100; 117; 111; 120; 88; 99; 115; 37] -> stops x.
Proof.
  intros Hx. unfold stops, flag_char. rewrite !elem_of_cons in Hx. rewrite !elem_of_cons.
  repeat destruct Hx as [-> |Hx]; try (by apply not_elem_of_nil in Hx); (split; [intros [? | [? | [? | [? | [? | []%not_elem_of_nil]]]]]; lia|done]).
Qed.
Lemma stops_conv q k c rest : conv_of k c -> exists x t, qual_syntax q ++ c :: rest = x :: t /\ stops x.
Proof.
  intros Hc. destruct q; cbn [qual_syntax app]; [|by eexists _, _; split; [done|]; apply stops_char; set_solver..].
  eexists _, _. split; [done|]. apply stops_char. destruct Hc as [-> | [-> ->]]; [|set_solver]. destruct k; set_solver.
Qed.
Lemma num_of_range q k v : 0 <= num_of q k v < 2 ^ 64.
Proof.
  assert (forall w x, 0 <= w <= 64 -> 0 <= wrap w x < 2 ^ 64) as H.
  { intros w x Hw. pose proof (uint_wrap w x ltac:(lia)) as Hu. unfold uint in Hu. pose proof (Z.pow_le_mono_r 2 w 64 ltac:(lia) ltac:(lia)). lia. }
  destruct q, k; apply H; lia.
Qed.
Lemma amount_range d : directive_ok d -> in_range (width_of d) /\ in_range (prec_of d).
Proof.
  intros (_ & Hw & Hp). unfold width_of, prec_of, in_range.
  destruct (d_width d) as [[n|v|]|], (d_prec d) as [[m|u|]|]; cbn [amount_ok amount_of] in *; unfold in_range in *; lia.
Qed.
(** The width of a character is not huge. *)
Lemma emits_char_fill w width : in_range width ->
  emits w (char_pad w width) (replicate (Z.to_nat (width - 1)) 32) (Z.min (width - 1) 0) /\ emits w (char_pad w (Z.min (width - 1) 0)) [] (Z.min (width - 1) 0 - 1).
Proof.
  intros Hw. unfold in_range in Hw. pose proof (emits_char_pad w width) as H1. pose proof (emits_char_pad w (Z.min (width - 1) 0)) as H2.
  rewrite !s32_id in H1, H2 by lia. replace (Z.to_nat (Z.min (width - 1) 0 - 1)) with 0%nat in H2 by lia.
  by replace (Z.min (Z.min (width - 1) 0 - 1) 0) with (Z.min (width - 1) 0 - 1) in H2 by lia.
Qed.
Lemma push_with_args e o l : forall t, push e (with_args o l) t = with_args (push e o t) l.
Proof.
  intros t. destruct (push_fields e t o) as (_ & Hs & Hp), (push_fields e t (with_args o l)) as (Ha' & Hs' & Hp').
  destruct (push e (with_args o l) t) as [b' s' a' st'] eqn:E. unfold with_args at 1. cbn in *. f_equal; [|lia|done|by rewrite Hs].
  change b' with (buf (Out b' s' a' st')). rewrite <- E. by apply push_buf.
Qed.
Lemma arg_int_eq o v l : arg_int (with_args o (AInt v :: l)) = Some (v, with_args o l).
Proof. done. Qed.
Lemma integer_eq sym w d q k c v rest l o : directive_ok d -> conv_of k c -> okout w o ->
  let T := number_text (num_of q k v) (conv_base k) (width_of d) (prec_of d) (Z.lor (d_left d) (conv_flags k)) in
  fits w o T -> args o = (directive_args d ++ [int_arg q v]) ++ l ->
  format_round sym w ((37 :: directive_syntax d ++ qual_syntax q ++ [c]) ++ rest) o = Some (inl rest, push (room w) (with_args o l) T).
Proof.
  intros Hi Hc Ho T Hf Ha. cbn [app]. rewrite <- !app_assoc. cbn [app]. destruct (stops_conv q k c rest Hc) as (x & t & Ex & Hx). rewrite Ex.
  rewrite <- app_assoc in Ha.
  rewrite (directive_eq sym w d x t (int_arg q v :: l) o Hi Hx Ha), <- Ex, (get_qualifier_eq q k), (convert_int sym w k) by done. cbv beta iota.
  run (get_num_eq q k v (d_left d) l (with_args o (int_arg q v :: l)) (plain_d_left d) eq_refl). destruct (amount_range d Hi) as [Hw Hp].
  assert (flag_bits (Z.lor (d_left d) (conv_flags k))) as Hb by (apply flag_bits_lor; [apply plain_d_left|by destruct k]).
  assert (okout w (with_args o l)) as Ho' by done. assert (fits w (with_args o l) T) as Hf' by done.
  run (emits_run _ _ _ _ (emits_number w (num_of q k v) (conv_base k) (width_of d) (prec_of d) (Z.lor (d_left d) (conv_flags k)) (num_of_range q k v)
    ltac:(destruct k; cbn; tauto) ltac:(unfold in_range in Hw; lia) ltac:(unfold in_range in Hp; lia) Hb Hw Hp) (with_args o l) Ho' Hf'). done.
Qed.
Lemma item_eq sym w i rest l o : item_ok i -> okout w o -> fits w o (item_text i) -> args o = item_args i ++ l ->
  format_round sym w (item_syntax i ++ rest) o = Some (inl rest, push (room w) (with_args o l) (item_text i)).
Proof.
  intros Hi Ho Hf Ha. assert (okout w (with_args o l)) as Ho' by done. assert (fits w (with_args o l) (item_text i)) as Hf' by done.
  destruct i as [c| |d q k v|d q v|d v|d s]; cbn [item_syntax item_args item_text item_ok app] in *.
  - assert (format_round sym w (c :: rest) = (emit w c ;; ret (inl rest))) as ->.
    { cbn in Hi. destruct c as [|p|p]; [done| |done]. do 6 (destruct p as [p|p|]; try done). }
    run (emits_run _ _ _ _ (emits_emit w c) o Ho Hf). destruct o. cbn in Ha |- *. by rewrite <- Ha.
  - change (37 :: 37 :: rest) with (37 :: directive_syntax (Directive [] None None) ++ 37 :: rest).
    rewrite (directive_eq sym w (Directive [] None None) 37 rest l o); [|by repeat constructor|apply stops_char; set_solver|done].
    change (get_qualifier (37 :: rest)) with (37 :: rest, -1). cbv beta iota. change (convert _ _ (37 :: rest) _ _ _ _) with (emit w 37 ;; ret rest).
    run (emits_run _ _ _ _ (emits_emit w 37) _ Ho' Hf'). done.
  - by apply (integer_eq sym w d q k (conv_char k) v rest l o Hi (or_introl eq_refl)).
  - by apply (integer_eq sym w d q Dec 105 v rest l o Hi (or_intror (conj eq_refl eq_refl))).
  - rewrite <- app_assoc in Ha |- *. cbn [app]. rewrite (directive_eq sym w d 99 rest (AInt v :: l) o Hi (stops_char 99 ltac:(set_solver)) Ha).
    change (get_qualifier (99 :: rest)) with (99 :: rest, -1). cbv beta iota. destruct (amount_range d Hi) as [Hw _].
    destruct (emits_char_fill w (width_of d) Hw) as [Hc1 Hc2].
    assert (okout w (with_args o (AInt v :: l))) as Ho1 by done. unfold convert. cbn [Z.eqb Pos.eqb]. revert Hf'. unfold char_text.
    destruct (has (d_left d) LEFT); cbn [negb]; intros Hf'.
    + change (u8 v :: ?f) with ([u8 v] ++ f) in *. apply fits_app in Hf' as [F1 F2].
      run_ret. run (arg_int_eq o v l). run (emits_run _ _ _ _ (emits_emit w (u8 v)) _ Ho' F1). run (emits_run _ _ _ _ Hc1 _ (okout_push w [u8 v] _ Ho') F2).
      run_ret. rewrite <- push_app. done.
    + apply fits_app in Hf' as [F1 F2]. run (emits_run _ _ _ _ Hc1 _ Ho1 F1). rewrite push_with_args.
      set (fill := replicate (Z.to_nat (width_of d - 1)) 32) in *. run (arg_int_eq (push (room w) o fill) v l).
      rewrite <- push_with_args. pose proof (okout_push w fill _ Ho') as Ho2. run (emits_run _ _ _ _ (emits_emit w (u8 v)) _ Ho2 F2).
      assert (fits w (push (room w) (push (room w) (with_args o l) fill) [u8 v]) []) as F3 by (by apply (fits_app w _ [u8 v] [])).
      run (emits_run _ _ _ _ Hc2 _ (okout_push w [u8 v] _ Ho2) F3).
      run_ret. change (push _ (push _ (push _ (with_args o l) fill) [u8 v]) []) with (push (room w) (push (room w) (with_args o l) fill) [u8 v]).
      by rewrite <- push_app.
  - destruct Hi as [Hd Hs]. rewrite <- app_assoc in Ha |- *. cbn [app].
    rewrite (directive_eq sym w d 115 rest (AString s :: l) o Hd (stops_char 115 ltac:(set_solver)) Ha).
    change (get_qualifier (115 :: rest)) with (115 :: rest, -1). cbv beta iota. destruct (amount_range d Hd) as [Hw _].
    unfold convert. cbn [Z.eqb Pos.eqb]. assert (next_arg (with_args o (AString s :: l)) = Some (AString s, with_args o l)) as En by done. run En.
    run (emits_run _ _ _ _ (emits_string w s (width_of d) (prec_of d) (d_left d) Hw Hs) (with_args o l) Ho' Hf'). done.
Qed.

(** ** The whole format *)
Lemma items_eq sym w items : forall l o fuel, Forall item_ok items -> okout w o -> fits w o (concat (item_text <$> items)) ->
  args o = concat (item_args <$> items) ++ l -> (length items < fuel)%nat ->
  while fuel (format_round sym w) (concat (item_syntax <$> items)) o = Some (tt, push (room w) (with_args o l) (concat (item_text <$> items))).
Proof.
  induction items as [|i items IH]; intros l o fuel Hi Ho Hf Ha Hk; (destruct fuel as [|fuel]; [lia|]); rewrite while_S; cbn [fmap list_fmap concat] in *.
  - destruct o. cbn in Ha |- *. by rewrite Ha.
  - apply Forall_cons_iff in Hi as [Hi His]. rewrite <- app_assoc in Ha. apply fits_app in Hf as [F1 F2].
    run (item_eq sym w i (concat (item_syntax <$> items)) _ o Hi Ho F1 Ha). cbn [length] in Hk. rewrite push_with_args.
    rewrite (IH l); [|done|by apply (okout_push w (item_text i) o)|done|done|lia].
    rewrite push_app. f_equal. f_equal. by rewrite !push_with_args.
Qed.
Lemma items_length items : (length items <= length (concat (item_syntax <$> items)))%nat.
Proof.
  induction items as [|i items IH]; [done|]. cbn [fmap list_fmap concat length]. rewrite length_app.
  assert (1 <= length (item_syntax i))%nat by (destruct i; cbn; lia). cbn in IH |- *. lia.
Qed.

(** The buffer after the text. *)
Lemma at_cons_S c (T : list Z) i : 0 <= i -> at_ (c :: T) (1 + i) = at_ T i.
Proof. intros. change (c :: T) with ([c] ++ T). rewrite at_app_r by (change (zlen [c]) with 1; lia). f_equal. change (zlen [c]) with 1. lia. Qed.
Lemma at_push e T : forall o i, 0 <= str o -> e <= zlen (buf o) ->
  at_ (buf (push e o T)) i = if decide (str o <= i < Z.min e (str o + zlen T)) then at_ T (i - str o) else at_ (buf o) i.
Proof.
  induction T as [|c T IH]; intros o i H0 He; [rewrite decide_False; [done|change (zlen []) with 0; lia]|].
  change (push e o (c :: T)) with (push e (put1 e o c) T). rewrite IH; [|cbn; lia|cbn; case_if E; rewrite ?zlen_upd; lia]. rewrite zlen_cons.
  cbn [str buf put1].
  pose proof (zlen_nonneg T). destruct (Z.ltb_spec (str o) e); repeat case_decide; try lia.
  - replace (i - str o) with (1 + (i - (str o + 1))) by lia. by rewrite at_cons_S by lia.
  - assert (i = str o) as -> by lia. rewrite at_upd_eq, Z.sub_diag by lia. done.
  - by rewrite at_upd_ne by lia.
Qed.
(** What [vsnprintf] leaves: as much of the text as there is room for, and the
    terminator; behind it the buffer is as before. *)
Definition truncated (size : Z) (T b : list Z) : list Z :=
  if 0 <? size then splice b 0 (take (Z.to_nat (size - 1)) T ++ [0]) else b.
Lemma truncated_eq e T o : e <= zlen (buf o) -> str o = 0 -> 0 < e ->
  upd (buf (push e o T)) (Z.min (zlen T) (e - 1)) 0 = truncated e T (buf o).
Proof.
  intros Hl Hs He. unfold truncated. rewrite (proj2 (Z.ltb_lt _ _)) by lia. pose proof (zlen_nonneg T).
  assert (zlen (take (Z.to_nat (e - 1)) T ++ [0]) = Z.min (zlen T) (e - 1) + 1) as Hk by (rewrite zlen_app, zlen_take by lia; change (zlen [0]) with 1; lia).
  apply zget_ext; [rewrite zlen_upd, zlen_push, zlen_splice; lia|]. rewrite zlen_upd, zlen_push. intros i Hi.
  rewrite !zget_at by (rewrite ?zlen_upd, ?zlen_push, ?zlen_splice; lia). f_equal. rewrite at_splice, Hk, Z.sub_0_r by lia.
  destruct (decide (i = Z.min (zlen T) (e - 1))) as [->|Hne].
  - rewrite at_upd_eq by (rewrite zlen_push; lia). rewrite decide_True by lia. rewrite at_app_r; rewrite zlen_take by lia; [|lia].
    replace (_ - _) with 0 by lia. done.
  - rewrite at_upd_ne by lia. rewrite at_push, Hs by lia. rewrite Z.sub_0_r. repeat case_decide; try lia.
    rewrite at_app_l by (rewrite zlen_take; lia). by rewrite at_take by lia.
Qed.

(** The end of [vsnprintf], after a loop that has written [T]. *)
Lemma vsnprintf_end sym addr size fmt o T as' st : 0 <= size < 2 ^ 31 -> 0 <= addr -> addr + size < 2 ^ 32 -> size <= zlen (buf o) -> str o = 0 ->
  while (1 + length fmt) (format_round sym (Window addr size)) fmt o = Some (tt, after size o T as' st) -> addr + zlen T < 2 ^ 32 ->
  vsnprintf sym addr size fmt o = Some (s32 (zlen T), Out (truncated size T (buf o)) (zlen T) as' (stores o ++ st)).
Proof.
  intros Hs Haddr Hend Hl H0 Hw HT. unfold vsnprintf.
  rewrite s32_id, (proj2 (Z.ltb_ge size 0)), (u32_id (addr + size)), (proj2 (Z.ltb_ge (addr + size) addr)) by lia.
  run Hw. destruct (push_fields size T o) as (_ & _ & Hstr). rewrite H0, Z.add_0_l in Hstr. pose proof (zlen_nonneg T).
  assert (forall i, 0 <= i < size -> store_at i 0 (after size o T as' st) = Some (tt, Out (upd (buf (push size o T)) i 0) (zlen T) as' (stores o ++ st))) as Hst.
  { intros i Hi. unfold store_at, after. cbn. rewrite zlen_push, decide_True, Hstr by lia. done. }
  assert (get (after size o T as' st) = Some (after size o T as' st, after size o T as' st)) as Eg by done. run Eg.
  change (str (after size o T as' st)) with (str (push size o T)). rewrite Hstr, (u32_id (addr + zlen T)) by lia.
  replace (addr + zlen T - addr) with (zlen T) by lia. destruct (Z.ltb_spec 0 size) as [Hp|Hp].
  - rewrite <- (truncated_eq size T o Hl H0 Hp). destruct (Z.ltb_spec (addr + zlen T) (addr + size)).
    + run (Hst (zlen T) ltac:(lia)). rewrite Z.min_l by lia. done.
    + run (Hst (size - 1) ltac:(lia)). rewrite Z.min_r by lia. done.
  - run_ret. unfold ret, truncated, after. rewrite (proj2 (Z.ltb_ge 0 size)), Hstr by lia. do 3 f_equal.
    apply zget_ext; [apply zlen_push|]. rewrite zlen_push. intros i Hi. rewrite !zget_at by (rewrite ?zlen_push; lia). f_equal.
    rewrite at_push by lia. by rewrite decide_False by lia.
Qed.

(** ** Termination *)
(** Whatever a routine does, its result has the property. *)
Definition returns {A} (m : PR A) (Q : A -> Prop) : Prop := forall o a o', m o = Some (a, o') -> Q a.
Lemma returns_ret {A} (a : A) (Q : A -> Prop) : Q a -> returns (ret a) Q.
Proof. intros H o a' o' [= -> _]. done. Qed.
Lemma returns_fault {A} (Q : A -> Prop) : returns fault Q.
Proof. done. Qed.
Lemma returns_bind {A B} (m : PR A) (f : A -> PR B) (Q : B -> Prop) (R : A -> Prop) :
  returns m R -> (forall a, R a -> returns (f a) Q) -> returns (bind m f) Q.
Proof. intros Hm Hf o b o' H. unfold bind in H. destruct (m o) as [[a o1]|] eqn:E; [|done]. eapply Hf; [by eapply Hm|exact H]. Qed.
Lemma returns_any {A} (m : PR A) : returns m (fun _ => True).
Proof. done. Qed.
Ltac rets := repeat first
  [ progress cbv beta zeta | progress intros
  | match goal with
    | |- returns (ret _) _ => apply returns_ret | |- returns fault _ => apply returns_fault
    | |- returns (bind _ _) _ => eapply returns_bind; [apply returns_any|]
    | |- returns (if ?b then _ else _) _ => destruct b
    | |- returns (match ?x with _ => _ end) _ => destruct x
    end ].

Lemma skip_atoi_length fmt : forall i, (length (skip_atoi fmt i).1 <= length fmt)%nat.
Proof. induction fmt as [|c fmt IH]; intros i; [done|]. cbn. case_if E; [|done]. specialize (IH (s32 (i * 10 + c - 48))). lia. Qed.
Lemma skip_alnum_length fmt : (length (skip_alnum fmt) <= length fmt)%nat.
Proof. induction fmt as [|c fmt IH]; [done|]. cbn. case_if E; [lia|done]. Qed.
Lemma flag_chars_length fmt : forall f, (length (flag_chars fmt f).1 <= length fmt)%nat.
Proof.
  induction fmt as [|c fmt IH]; intros f; [done|].
  destruct (decide (flag_char c)) as [H|H]; [rewrite flag_chars_cons by done|by rewrite flag_chars_stop].
  specialize (IH (Z.lor f (flag_of c))). cbn. lia.
Qed.
Lemma get_width_length fmt flags : returns (get_width fmt flags) (fun r => (length r.1.1 <= length fmt)%nat).
Proof.
  assert (forall c fmt, returns (if isdigit c then let '(fmt', w) := skip_atoi (c :: fmt) 0 in ret (fmt', w, flags) else ret (c :: fmt, -1, flags))
    (fun r => (length r.1.1 <= length (c :: fmt))%nat)) as H.
  { intros c t. pose proof (skip_atoi_length (c :: t) 0) as Hl. destruct (skip_atoi (c :: t) 0). rets; cbn in *; lia. }
  unfold get_width. destruct fmt as [|c t]; [by apply returns_ret|]. destruct c as [|p|p]; [apply H| |apply H].
  do 6 (destruct p as [p|p|]; try apply H). rets; case_if E; cbn; lia.
Qed.
Lemma get_precision_length fmt : returns (get_precision fmt) (fun r => (length r.1 <= length fmt)%nat).
Proof.
  assert (forall c t, returns (if isdigit c then ret (skip_atoi (c :: t) 0) else ret (c :: t, -1)) (fun r : list Z * Z => (length r.1 <= length (c :: t))%nat)) as H.
  { intros c t. pose proof (skip_atoi_length (c :: t) 0) as Hl. rets; [done|cbn; lia]. }
  unfold get_precision. destruct fmt as [|c t]; [by apply returns_ret|]. destruct c as [|p|p]; [by apply returns_ret| |by apply returns_ret].
  do 6 (destruct p as [p|p|]; try (by apply returns_ret)). eapply (returns_bind _ _ _ (fun r => (length r.1 <= length t)%nat)).
  - destruct t as [|c t]; [by apply returns_ret|]. destruct c as [|p|p]; [apply H| |apply H]. do 6 (destruct p as [p|p|]; try apply H).
    rets; cbn; lia.
  - intros a Ha. apply returns_ret. cbn. lia.
Qed.
Lemma get_qualifier_length fmt : (length (get_qualifier fmt).1 <= length fmt)%nat.
Proof.
  destruct fmt as [|c t]; [done|]. unfold get_qualifier. destruct (_ || _); [|done]. destruct (_ && _); cbn [fst length]; rewrite ?length_drop; lia.
Qed.
Lemma convert_length sym e fmt flags w p q : returns (convert sym e fmt flags w p q) (fun r => (length r <= length fmt)%nat).
Proof.
  unfold convert. destruct fmt as [|c t]; [rets; done|]. pose proof (skip_alnum_length t). rets; cbn; lia.
Qed.
Lemma format_shorter sym e fmt : returns (format_round sym e fmt) (fun r => match r with inl fmt' => (length fmt' < length fmt)%nat | inr _ => True end).
Proof.
  assert (forall c t, returns (emit e c ;; ret (inl t)) (fun r : list Z + unit => match r with inl fmt' => (length fmt' < length (c :: t))%nat | inr _ => True end)) as H.
  { intros c t. rets. cbn. lia. }
  unfold format_round. destruct fmt as [|c t]; [by apply returns_ret|]. destruct c as [|p|p]; [apply H| |apply H].
  do 6 (destruct p as [p|p|]; try apply H).
  pose proof (flag_chars_length t 0) as H1. destruct (flag_chars t 0) as [t1 f1]. cbn in H1. eapply returns_bind; [apply get_width_length|].
  intros [[t2 w] f2] H2. cbn in H2. eapply returns_bind; [apply get_precision_length|]. intros [t3 pr] H3. cbn in H3.
  pose proof (get_qualifier_length t3) as H4. destruct (get_qualifier t3) as [t4 q]. cbn in H4. eapply returns_bind; [apply convert_length|].
  intros t5 H5. cbv beta in H5. apply returns_ret. cbn. lia.
Qed.
(** The fuel of the loop is enough. *)
Lemma format_fuel sym e fmt : forall o n m, (length fmt < n)%nat -> (length fmt < m)%nat -> while n (format_round sym e) fmt o = while m (format_round sym e) fmt o.
Proof.
  remember (length fmt) as k eqn:Hk. revert fmt Hk. induction k as [k IH] using lt_wf_ind. intros fmt -> o n m Hn Hm.
  destruct n as [|n]; [lia|]. destruct m as [|m]; [lia|]. rewrite !while_S. unfold bind.
  destruct (format_round sym e fmt o) as [[[fmt'|[]] o']|] eqn:E; [|done|done].
  pose proof (format_shorter sym e fmt o _ o' E) as Hs. cbn in Hs. apply (IH (length fmt') Hs fmt' eq_refl); lia.
Qed.

(** ** Local arrays *)
(** A routine that puts at most [k] characters in an array of [n], if [ok], and faults
    otherwise. *)
Definition puts (n k : Z) (ok : bool) (m : PR unit) : Prop := forall o, zlen (buf o) = n -> 0 <= str o -> str o + k <= n ->
  if ok then exists o', m o = Some (tt, o') /\ zlen (buf o') = n /\ str o <= str o' <= str o + k else m o = None.
Lemma puts_ret n : puts n 0 true (ret tt).
Proof. intros o Hn H0 Hk. exists o. split; [done|lia]. Qed.
Lemma puts_seq n k1 k2 ok1 ok2 m1 m2 : puts n k1 ok1 m1 -> puts n k2 ok2 m2 -> 0 <= k2 -> puts n (k1 + k2) (ok1 && ok2) (m1 ;; m2).
Proof.
  intros H1 H2 Hk2 o Hn H0 Hk. specialize (H1 o Hn H0 ltac:(lia)). destruct ok1; cbn [andb]; [|unfold bind; by rewrite H1].
  destruct H1 as (o1 & E1 & Hn1 & Hs1). specialize (H2 o1 Hn1 ltac:(lia) ltac:(lia)). destruct ok2; [|by run E1].
  destruct H2 as (o2 & E2 & Hn2 & Hs2). exists o2. split; [by run E1|]. split; [done|lia].
Qed.
Lemma puts_char n c : puts n 1 true (put_char c).
Proof. intros o Hn H0 Hk. unfold put_char. rewrite decide_True by lia. eexists. split; [done|]. cbn. rewrite zlen_upd. lia. Qed.
Lemma puts_more n k k' ok m : puts n k ok m -> k <= k' -> puts n k' ok m.
Proof. intros H Hk o Hn H0 Hl. specialize (H o Hn H0 ltac:(lia)). destruct ok; [|done]. destruct H as (o' & ? & ? & ?). exists o'. split; [done|lia]. Qed.
Lemma puts_if n k1 k2 (b : bool) m1 m2 : puts n k1 true m1 -> puts n k2 true m2 -> puts n (if b then k1 else k2) true (if b then m1 else m2).
Proof. by destruct b. Qed.
Lemma puts_hex n b : puts n 2 true (pack_hex_byte b).
Proof. apply (puts_seq n 1 1 true true); [apply puts_char|apply puts_char|lia]. Qed.
Lemma puts_chars n l : puts n (zlen l) true (put_chars l).
Proof.
  induction l as [|c l IH]; [apply puts_ret|]. rewrite zlen_cons. apply (puts_seq n 1 (zlen l) true true); [apply puts_char|done|apply zlen_nonneg].
Qed.
Lemma puts_read n k b i ok (f : Z -> PR unit) : 0 <= i -> (forall x, 0 <= x < 256 -> puts n k ok (f x)) ->
  puts n k ((i <? zlen b) && ok) (let* x := read_byte b i in f x).
Proof.
  intros Hi Hf o Hn H0 Hk. unfold read_byte. destruct (Z.ltb_spec i (zlen b)) as [Hl|Hl]; cbn [andb].
  - rewrite zget_at by lia. run_ret. apply Hf; try done. pose proof (uint_wrap 8 (at_ b i) ltac:(lia)) as Hu. exact Hu.
  - unfold zget. case_decide as Hd; [|done]. rewrite lookup_ge_None_2; [done|]. unfold zlen in Hl. lia.
Qed.
Lemma local_ok n ok m : puts n n ok m -> 0 <= n ->
  if ok then exists t, forall o, local_string n m o = Some (t, o) else forall o, local_string n m o = None.
Proof.
  intros Hm Hn. specialize (Hm (Out (replicate (Z.to_nat n) 0) 0 [] [])). cbn [buf str] in Hm.
  specialize (Hm ltac:(by apply zlen_replicate) ltac:(lia) ltac:(lia)). unfold local_string. destruct ok.
  - destruct Hm as (o' & -> & _). by eexists.
  - by rewrite Hm.
Qed.
(** A local array that is then printed as a string. *)
Lemma takes_local n ok m width precision flags : puts n n ok m -> 0 <= n -> - 2 ^ 31 <= width < 2 ^ 31 ->
  takes eq (fun w => let* s := local_string n m in string w (Some s) width precision flags) (if ok then ret tt else fault).
Proof.
  intros Hm Hn Hw. pose proof (local_ok n ok m Hm Hn) as Hl. destruct ok.
  - destruct Hl as [t Ht]. eapply (takes_skip eq (fun _ => local_string n m) [] t); [by intros w; apply emits_pure|].
    eapply takes_emits; [|done]. intros w. by apply emits_string_raw.
  - intros as_ pos w o _ _. unfold bind. by rewrite Hl.
Qed.

Lemma zlen_digits_pow base (k : nat) n : 2 <= base -> (0 < k)%nat -> 0 <= n < base ^ Z.of_nat k -> zlen (digits base n) <= Z.of_nat k.
Proof.
  intros Hb Hk Hn. unfold digits. generalize 64%nat as f. intros f. revert n k Hk Hn.
  induction f as [|f IH]; intros n k Hk Hn; [change (zlen (digits_from 0 base n)) with 0; lia|].
  rewrite digits_from_S, zlen_cons. destruct k as [|k]; [lia|]. rewrite Nat2Z.inj_succ, Z.pow_succ_r in Hn by lia.
  assert (0 <= n / base < base ^ Z.of_nat k) by (split; [apply Z.div_pos; lia|apply Z.div_lt_upper_bound; lia]).
  destruct (Z.eqb_spec (n / base) 0) as [E|E]; [change (zlen []) with 0; lia|]. destruct k as [|k]; [cbn in *; lia|].
  specialize (IH (n / base) (S k) ltac:(lia) ltac:(lia)). lia.
Qed.
Lemma puts_number n size : 0 <= n < 2 ^ 32 -> size = 4 \/ size = 8 \/ size = -1 -> puts 24 10 true (number (Window 0 24) n 16 size (-1) (Z.lor (Z.lor SPECIAL SMALL) ZEROPAD)).
Proof.
  intros Hn Hs o Hb H0 Hk. set (type := Z.lor (Z.lor SPECIAL SMALL) ZEROPAD).
  assert (emits (Window 0 24) (number (Window 0 24) n 16 size (-1) type) (number_text n 16 size (-1) type) tt) as He.
  { apply emits_number; [lia|lia|lia|lia|by split|unfold in_range; lia|unfold in_range; lia]. }
  assert (zlen (number_text n 16 size (-1) type) <= 10) as Hl.
  { unfold number_text. change (has type LEFT) with false. change (has type ZEROPAD) with true. cbv iota.
    change (sign_text type n ++ prefix_text type 16) with [48; 120].
    unfold digits_text. change (magnitude type n) with n. pose proof (zlen_digits_pow 16 8 n ltac:(lia) ltac:(lia) ltac:(lia)).
    pose proof (zlen_digits 16 n ltac:(lia) ltac:(lia)). rewrite zlen_rev, zlen_fmap. replace (Z.to_nat (-1 - zlen (digits 16 n))) with 0%nat by lia.
    cbn [replicate app]. rewrite !zlen_cons, zlen_app,  zlen_rev, zlen_fmap. rewrite zlen_replicate_max. change (@zlen Z []) with 0. lia. }
  pose proof (zlen_nonneg (number_text n 16 size (-1) type)).
  destruct (push_fields 24 (number_text n 16 size (-1) type) o) as (_ & _ & Hstr).
  exists (push 24 o (number_text n 16 size (-1) type)). rewrite zlen_push, Hstr. split; [|split; [done|lia]].
  apply He; [split; [done|split; [done|cbn [room]; lia]]|left; cbn [buf_at]; lia].
Qed.

(** ** The routines take the arguments that the format asks for *)
Lemma puts_for n (k : Z -> Z) (ok : Z -> bool) (body : Z -> PR unit) : (forall j, 0 <= k j) -> (forall j, 0 <= j -> puts n (k j) (ok j) (body j)) ->
  forall c i, 0 <= i -> puts n (foldr Z.add 0 (k <$> seqZ i (Z.of_nat c))) (forallb ok (seqZ i (Z.of_nat c))) (for_ c i body).
Proof.
  intros Hk Hb. assert (forall l, 0 <= foldr Z.add 0 (k <$> l)) as Hs by (induction l as [|j l IH]; [done|]; cbn; specialize (Hk j); lia).
  induction c as [|c IH]; intros i Hi; [apply puts_ret|]. rewrite (seqZ_cons i (Z.of_nat (S c))) by lia.
  replace (Z.succ i) with (i + 1) by lia. replace (Z.pred (Z.of_nat (S c))) with (Z.of_nat c) by lia.
  exact (puts_seq n (k i) _ (ok i) _ (body i) (for_ c (i + 1) body) (Hb i Hi) (IH (i + 1) ltac:(lia)) (Hs _)).
Qed.
(** The separator behind all but the last group. *)
Lemma puts_sep n (b : bool) c : puts n (if b then 1 else 0) true (if b then put_char c else ret tt).
Proof. destruct b; [apply puts_char|apply puts_ret]. Qed.
(** Groups of [k] characters that need bytes, with separators, and the terminator. *)
Lemma puts_groups n c k (ok : Z -> bool) (sep : Z -> bool) body : 0 <= k ->
  (forall j, 0 <= j -> puts n (k + if sep j then 1 else 0) (ok j) (body j)) ->
  foldr Z.add 0 ((fun j => k + if sep j then 1 else 0) <$> seqZ 0 (Z.of_nat c)) + 1 <= n ->
  puts n n (forallb ok (seqZ 0 (Z.of_nat c))) (for_ c 0 body ;; put_char 0).
Proof.
  intros Hk Hb Hn. eapply puts_more; [|exact Hn]. rewrite <- (andb_true_r (forallb _ _)). apply puts_seq; [|apply puts_char|lia].
  apply (puts_for n (fun j => k + if sep j then 1 else 0)); [intros j; destruct (sep j); lia|done|lia].
Qed.
Lemma put_dec_trunc_byte x : 0 <= x < 256 -> zlen (put_dec_trunc x) <= 3.
Proof. intros Hx. rewrite put_dec_trunc_eq, zlen_fmap by lia. apply (zlen_digits_pow 10 3); lia. Qed.

Section Pointers.
Context (width precision flags : Z) (Hw : - 2 ^ 31 <= width < 2 ^ 31).
Lemma takes_resource start stop rflags : takes eq (fun w => resource_string w start stop rflags width precision flags) (ret tt).
Proof using Hw.
  unfold resource_string. apply (takes_local 24 true); [|lia|done]. set (size := if has rflags IORESOURCE_IO then 4 else _).
  assert (size = 4 \/ size = 8 \/ size = -1) as Hs by (unfold size; repeat case_match; tauto).
  assert (forall x, 0 <= u32 x < 2 ^ 32) as Hu by (intros x; apply (uint_wrap 32); lia).
  apply (puts_seq 24 1 23 true true); [apply puts_char| |lia]. apply (puts_seq 24 10 13 true true); [by apply puts_number| |lia].
  apply (puts_seq 24 1 12 true true); [apply puts_char| |lia]. apply (puts_seq 24 10 2 true true); [by apply puts_number| |lia].
  apply (puts_seq 24 1 1 true true); [apply puts_char|apply puts_char|lia].
Qed.
Lemma takes_mac b : takes eq (fun w => mac_address_string w b width precision flags) (if 6 <=? zlen b then ret tt else fault).
Proof using Hw.
  assert ((6 <=? zlen b) = forallb (fun j => (j <? zlen b) && true) (seqZ 0 (Z.of_nat 6))) as ->.
  { apply eq_true_iff_eq. change (seqZ 0 (Z.of_nat 6)) with [0; 1; 2; 3; 4; 5]. cbn [forallb]. rewrite !andb_true_iff, Z.leb_le, !Z.ltb_lt. lia. }
  apply takes_local; [|lia|done].
  apply (puts_groups 18 6 2 _ (fun j => negb (has flags SPECIAL) && negb (j =? 5))); [lia| |by destruct (has flags SPECIAL)].
  intros j Hj. apply puts_read; [done|]. intros x Hx. apply (puts_seq 18 2 _ true true); [apply puts_hex|apply puts_sep|by case_match].
Qed.
Lemma takes_ip6 b : takes eq (fun w => ip6_addr_string w b width precision flags) (if 16 <=? zlen b then ret tt else fault).
Proof using Hw.
  assert ((16 <=? zlen b) = forallb (fun j => (2 * j <? zlen b) && (true && ((2 * j + 1 <? zlen b) && true))) (seqZ 0 (Z.of_nat 8))) as ->.
  { apply eq_true_iff_eq. change (seqZ 0 (Z.of_nat 8)) with [0; 1; 2; 3; 4; 5; 6; 7]. cbn [forallb]. rewrite !andb_true_iff, Z.leb_le, !Z.ltb_lt. lia.
    }
  apply takes_local; [|lia|done].
  apply (puts_groups 40 8 4 _ (fun j => negb (has flags SPECIAL) && negb (j =? 7))); [lia| |by destruct (has flags SPECIAL)].
  intros j Hj. apply puts_read; [lia|]. intros x Hx. match goal with |- puts _ (4 + ?z) _ _ => replace (4 + z) with (2 + (2 + z)) by lia end.
  apply puts_seq; [apply puts_hex| |case_match; lia].
  apply puts_read; [lia|]. intros y Hy. apply (puts_seq 40 2 _ true true); [apply puts_hex|apply puts_sep|by case_match].
Qed.
Lemma takes_ip4 b : takes eq (fun w => ip4_addr_string w b width precision flags) (if 4 <=? zlen b then ret tt else fault).
Proof using Hw.
  assert ((4 <=? zlen b) = forallb (fun j => (j <? zlen b) && true) (seqZ 0 (Z.of_nat 4))) as ->.
  { apply eq_true_iff_eq. change (seqZ 0 (Z.of_nat 4)) with [0; 1; 2; 3]. cbn [forallb]. rewrite !andb_true_iff, Z.leb_le, !Z.ltb_lt. lia. }
  apply takes_local; [|lia|done]. apply (puts_groups 16 4 3 _ (fun j => negb (j =? 3))); [lia| |done].
  intros j Hj. apply puts_read; [done|]. intros x Hx. pose proof (put_dec_trunc_byte x Hx). rewrite (proj2 (Z.ltb_ge 3 _)) by lia.
  apply (puts_seq 16 3 _ true true); [|apply puts_sep|by case_match].
  apply (puts_more 16 (zlen (rev (put_dec_trunc x)))); [apply puts_chars|by rewrite zlen_rev].
Qed.
End Pointers.

Lemma flag_bits_clear f : flag_bits f -> flag_bits (Z.land f (Z.lnot SPECIAL)).
Proof.
  intros Hf. pose proof (by_flags (fun f => bool_decide (0 <= Z.land f (Z.lnot SPECIAL) < 128)) eq_refl f Hf) as H. by apply bool_decide_eq_true in H.
Qed.
Lemma takes_number num base size precision type : 0 <= num < 2 ^ 64 -> base = 8 \/ base = 10 \/ base = 16 ->
  - 2 ^ 31 <= size < 2 ^ 31 -> - 2 ^ 31 <= precision < 2 ^ 31 -> flag_bits type -> takes eq (fun w => number w num base size precision type) (ret tt).
Proof. intros. eapply takes_emits; [|done]. intros w. by apply emits_number_raw. Qed.
Lemma takes_string s width precision flags : - 2 ^ 31 <= width < 2 ^ 31 -> takes eq (fun w => string w s width precision flags) (ret tt).
Proof. intros. eapply takes_emits; [|done]. intros w. by apply emits_string_raw. Qed.
Lemma takes_pointer sym fmt p o width precision flags : - 2 ^ 31 <= width < 2 ^ 31 -> - 2 ^ 31 <= precision < 2 ^ 31 -> flag_bits flags ->
  takes eq (fun w => pointer sym w fmt p o width precision flags) (if pointee_ok fmt p o then ret tt else fault).
Proof.
  intros Hw Hp Hf. unfold pointer, pointee_ok.
  assert (forall flags, flag_bits flags -> takes eq (fun w =>
    let '(field_width, flags) := if width =? -1 then (8, Z.lor (Z.lor flags SMALL) ZEROPAD) else (width, Z.lor flags SMALL) in
    number w (u32 p) 16 field_width precision flags) (ret tt)) as Hplain.
  { intros f Hf'. pose proof (uint_wrap 32 p ltac:(lia)) as Hu. unfold uint in Hu. pose proof (flag_bits_lor f SMALL Hf' ltac:(by split)) as H1.
    pose proof (flag_bits_lor _ ZEROPAD H1 ltac:(by split)). destruct (width =? -1); (apply takes_number; [lia|tauto|lia|done|done]). }
  destruct (p =? 0); [by apply takes_string|]. destruct (_ || _); [by apply takes_string|].
  destruct (at_ fmt 0 =? 82). { destruct o; cbn [is_resource]; [by apply takes_resource|apply takes_fault|apply takes_fault]. }
  destruct (_ || _). { destruct o; cbn [has_bytes]; [apply takes_fault|by apply takes_mac|apply takes_fault]. }
  destruct (_ || _); [|by apply Hplain].
  destruct (at_ fmt 1 =? 54). { destruct o; cbn [has_bytes]; [apply takes_fault|by apply takes_ip6|apply takes_fault]. }
  destruct (at_ fmt 1 =? 52). { destruct o; cbn [has_bytes]; [apply takes_fault|by apply takes_ip4|apply takes_fault]. }
  apply Hplain. apply flag_bits_clear. destruct (_ =? 105); [|done]. apply flag_bits_lor; [done|by split].
Qed.

Lemma takes_ext {A B} (R : A -> B -> Prop) (m m' : window -> PR A) (f f' : AR B) :
  (forall w o, m w o = m' w o) -> (forall l, f l = f' l) -> takes R m' f' -> takes R m f.
Proof.
  intros Hm Hf H as_ pos. specialize (H as_ pos). rewrite Hf. destruct (f' as_) as [[b as']|].
  - destruct H as (l & a & st & HR & Hl). exists l, a, st. split; [done|]. intros w o Ha Hs. unfold goes. rewrite Hm. by apply Hl.
  - intros w o. rewrite Hm. apply H.
Qed.
Lemma takes_int {B B'} (Q : B -> B' -> Prop) (m' : window -> Z -> PR B) (f' : AR B') :
  (forall v, takes Q (fun w => m' w v) f') -> takes Q (fun w => bind arg_int (m' w)) (bind (pop_if is_int) (fun _ => f')).
Proof.
  intros H. apply (takes_ext Q _ (fun w => let* a := next_arg in let* v := match a with AInt v => ret v | _ => fault end in m' w v) _
    (bind (pop_if is_int) (fun _ => f'))); [intros w o; apply bind_assoc|done|].
  apply takes_arg; [|by intros []]. intros []; try done. intros _. apply H.
Qed.
Lemma skip_atoi_range fmt : forall i, - 2 ^ 31 <= i < 2 ^ 31 -> - 2 ^ 31 <= (skip_atoi fmt i).2 < 2 ^ 31.
Proof. induction fmt as [|c fmt IH]; intros i Hi; [done|]. cbn. case_if E; [|done]. apply IH, s32_range. Qed.
Lemma skip_atoi_none c fmt : isdigit c = false -> (skip_atoi (c :: fmt) 0).1 = c :: fmt.
Proof. intros H. cbn. by rewrite H. Qed.
Lemma flag_chars_bits fmt : forall f, flag_bits f -> flag_bits (flag_chars fmt f).2.
Proof.
  induction fmt as [|c fmt IH]; intros f Hf; [done|]. destruct (decide (flag_char c)) as [H|H]; [|by rewrite flag_chars_stop].
  rewrite flag_chars_cons by done. apply IH, flag_bits_lor; [done|apply plain_flag_of].
Qed.
Definition int_of (x : Z) : Prop := - 2 ^ 31 <= x < 2 ^ 31.
Lemma takes_width fmt flags : flag_bits flags ->
  takes (fun r fmt' => r.1.1 = fmt' /\ int_of r.1.2 /\ flag_bits r.2) (fun _ => get_width fmt flags) (amount_takes fmt).
Proof.
  intros Hf. set (R := fun (r : list Z * Z * Z) fmt' => _).
  assert (forall c t, takes R (fun _ => if isdigit c then let '(fmt', x) := skip_atoi (c :: t) 0 in ret (fmt', x, flags) else ret (c :: t, -1, flags))
    (ret (skip_atoi (c :: t) 0).1)) as H.
  { intros c t. pose proof (skip_atoi_range (c :: t) 0 ltac:(lia)) as Hr. pose proof (skip_atoi_none c t) as Hn. destruct (isdigit c).
    - destruct (skip_atoi (c :: t) 0). by apply takes_ret.
    - rewrite Hn by done. apply takes_ret. split; [done|]. split; [unfold int_of; cbn; lia|done]. }
  unfold get_width, amount_takes. destruct fmt as [|c t]; [apply takes_ret; split; [done|]; split; [unfold int_of; cbn; lia|done]|].
  destruct c as [|p|p]; [apply H| |apply H]. do 6 (destruct p as [p|p|]; try apply H).
  apply takes_int. intros v. apply takes_ret. subst R. cbv beta. pose proof (s32_range v). pose proof (s32_range (- s32 v)).
  destruct (s32 v <? 0); (split; [done|]); (split; [done|]); [|done]. apply flag_bits_lor; [done|by split].
Qed.
Lemma takes_precision fmt : takes (fun r fmt' => r.1 = fmt' /\ int_of r.2) (fun _ => get_precision fmt) (precision_takes fmt).
Proof.
  set (R := fun (r : list Z * Z) fmt' => _).
  assert (forall t : list Z, takes R (fun _ => ret (t, -1)) (ret t)) as H0.
  { intros t. apply takes_ret. split; [done|]. unfold int_of. cbn. lia. }
  assert (forall c t, takes R (fun _ => if isdigit c then ret (skip_atoi (c :: t) 0) else ret (c :: t, -1)) (ret (skip_atoi (c :: t) 0).1)) as H.
  { intros c t. pose proof (skip_atoi_range (c :: t) 0 ltac:(lia)) as Hr. pose proof (skip_atoi_none c t) as Hn. destruct (isdigit c).
    - destruct (skip_atoi (c :: t) 0). by apply takes_ret.
    - rewrite Hn by done. apply H0. }
  unfold get_precision, precision_takes. destruct fmt as [|c t]; [apply H0|]. destruct c as [|p|p]; [apply H0| |apply H0].
  do 6 (destruct p as [p|p|]; try apply H0).
  apply (takes_ext R _ _ _ (bind (amount_takes t) (fun x => ret x)) (fun _ _ => eq_refl)).
  { intros l. unfold bind, ret. by destruct (amount_takes t l) as [[]|]. }
  apply (takes_bind R R _ (amount_takes t) _ (fun x => ret x)).
  - unfold amount_takes. destruct t as [|c t]; [apply H0|]. destruct c as [|p|p]; [apply H| |apply H]. do 6 (destruct p as [p|p|]; try apply H).
    apply takes_int. intros v. apply takes_ret. split; [done|]. apply s32_range.
  - intros a a' [E Hr]. apply takes_ret. split; [done|]. unfold int_of in *. cbn. case_if Ei; b2p; lia.
Qed.
(** The integer argument, at every type. *)
Lemma takes_num {B B'} (Q : B -> B' -> Prop) qualifier flags (m' : window -> Z -> PR B) (f' : AR B') :
  (forall num, 0 <= num < 2 ^ 64 -> takes Q (fun w => m' w num) f') ->
  takes Q (fun w => bind (get_num qualifier flags) (m' w)) (bind (pop_if (is_integer qualifier)) (fun _ => f')).
Proof.
  intros H. eapply (takes_ext Q _ (fun w => bind next_arg _)); [intros w o; apply bind_assoc|done|]. cbv beta.
  assert (forall w x, 0 <= w <= 64 -> 0 <= wrap w x < 2 ^ 64) as Hw.
  { intros w x Hx. pose proof (uint_wrap w x ltac:(lia)) as Hu. unfold uint in Hu. pose proof (Z.pow_le_mono_r 2 w 64 ltac:(lia) ltac:(lia)). lia. }
  apply takes_arg; cbn [is_integer existsb].
  - intros a Ha. destruct (Z.eqb_spec qualifier 76) as [->|]; [destruct a; try done; apply H, Hw; lia|].
    destruct (Z.eqb_spec qualifier 108) as [->|]; [destruct a; try done; apply H; case_match; apply Hw; lia|].
    destruct (Z.eqb_spec qualifier 90) as [->|]; [destruct a; try done; apply H, Hw; lia|].
    destruct (Z.eqb_spec qualifier 122) as [->|]; [destruct a; try done; apply H, Hw; lia|].
    destruct (Z.eqb_spec qualifier 116) as [->|]; [destruct a; try done; apply H, Hw; lia|]. cbn [orb].
    destruct a; cbn [is_integer] in Ha; rewrite ?orb_true_iff, ?Z.eqb_eq in Ha; try done; try lia.
    destruct (qualifier =? 104); apply H; case_match; apply Hw; lia.
  - intros a w Ha. destruct (Z.eqb_spec qualifier 76) as [->|]; [by destruct a|]. destruct (Z.eqb_spec qualifier 108) as [->|]; [by destruct a|].
    destruct (Z.eqb_spec qualifier 90) as [->|]; [by destruct a|]. destruct (Z.eqb_spec qualifier 122) as [->|]; [by destruct a|].
    destruct (Z.eqb_spec qualifier 116) as [->|]; [by destruct a|]. destruct a; [|by cbn [orb]; destruct (qualifier =? 104)..].
    cbn [is_integer existsb] in Ha. rewrite negb_false_iff, !orb_true_iff, !Z.eqb_eq in Ha. lia.
Qed.
Lemma takes_convert sym fmt flags width precision qualifier : int_of width -> int_of precision -> flag_bits flags ->
  takes eq (fun w => convert sym w fmt flags width precision qualifier) (conversion_takes fmt qualifier).
Proof.
  unfold int_of. intros Hw Hp Hf. unfold convert, conversion_takes.
  destruct fmt as [|c t]; [eapply (takes_skip eq (fun w => emit w 37)); [intros w; apply emits_emit|by apply takes_ret]|].
  destruct (c =? 99).
  { assert (forall x, takes eq (fun w => let* v := arg_int in emit w (u8 v) ;; char_pad w x ;; ret t) (pop_if is_int ;; ret t)) as H.
    { intros x. apply takes_int. intros v. eapply (takes_skip eq (fun w => emit w (u8 v))); [intros w; apply emits_emit|].
      eapply (takes_skip eq (fun w => char_pad w x)); [intros w; apply emits_char_pad|by apply takes_ret]. }
    destruct (negb (has flags LEFT)); [|apply (takes_skip eq (fun _ => ret width) [] width); [intros w; apply emits_ret|apply H]].
    eapply (takes_skip eq (fun w => char_pad w width)); [intros w; apply emits_char_pad|apply H]. }
  destruct (c =? 115). { apply takes_arg; [|by intros []]. intros []; try done. intros _. by apply (takes_last eq _ (ret tt)); [apply takes_string|].
  }
  destruct (c =? 112).
  { apply (takes_ext eq _ _ _ (let* a := pop in (if is_pointer t a then ret tt else fault) ;; ret (skip_alnum t)) (fun _ _ => eq_refl)); [intros l; apply bind_assoc|].
    apply takes_pop. intros a. destruct a; try apply takes_fault. cbn [is_pointer]. apply takes_last; [by apply takes_pointer|done]. }
  destruct (c =? 110).
  { apply takes_arg; [|by intros []]. intros []; try done. intros _ as_ pos.
    apply (takes_pure eq _ t t as_ as_ pos [(id, if (qualifier =? 90) || (qualifier =? 122) then u32 pos else s32 pos)]); [done|]. by intros w o <- <-. }
  destruct (Z.eqb_spec c 37) as [->|]; [eapply (takes_skip eq (fun w => emit w 37)); [intros w; apply emits_emit|by apply takes_ret]|].
  assert (forall base f, base = 8 \/ base = 10 \/ base = 16 -> flag_bits f -> takes eq (fun w => let* num := get_num qualifier f in number w num base width precision f ;; ret t)
    (pop_if (is_integer qualifier) ;; ret t)) as Hprint.
  { intros base f Hb Hf'. apply takes_num. intros num Hn. apply (takes_last eq _ (ret tt)); [by apply takes_number|done]. }
  cbn [existsb]. destruct (c =? 111); [apply Hprint; tauto|].
  destruct (c =? 120); [apply Hprint; [tauto|apply flag_bits_lor; [done|by split]]|]. destruct (c =? 88); [apply Hprint; tauto|].
  destruct (c =? 100); [apply Hprint; [tauto|apply flag_bits_lor; [done|by split]]|]. cbn [orb].
  destruct (c =? 105); [apply Hprint; [tauto|apply flag_bits_lor; [done|by split]]|]. destruct (c =? 117); [apply Hprint; tauto|]. cbn [orb].
  eapply (takes_skip eq (fun w => emit w 37)); [intros w; apply emits_emit|].
  eapply (takes_skip eq (fun w => emit w c)); [intros w; apply emits_emit|by apply takes_ret].
Qed.
Lemma takes_round sym fmt : takes eq (fun w => format_round sym w fmt) (round_takes fmt).
Proof.
  assert (forall c t, takes eq (fun w => emit w c ;; ret (inl t)) (ret (inl t : list Z + unit))) as H.
  { intros c t. eapply (takes_skip eq (fun w => emit w c)); [intros w; apply emits_emit|by apply takes_ret]. }
  unfold format_round, round_takes. destruct fmt as [|c t]; [by apply takes_ret|]. destruct c as [|p|p]; [apply H| |apply H].
  do 6 (destruct p as [p|p|]; try apply H). pose proof (flag_chars_bits t 0 ltac:(by split)) as Hf. destruct (flag_chars t 0) as [t1 f1].
  eapply takes_bind; [by apply takes_width|]. intros [[t2 x] f2] ? (<- & Hx & Hf2). cbn [fst snd] in *.
  eapply takes_bind; [apply takes_precision|]. intros [t3 pr] ? [<- Hpr]. cbn [fst snd] in *. destruct (get_qualifier t3) as [t4 q].
  eapply takes_bind; [by apply takes_convert|]. intros t5 ? <-. by apply takes_ret.
Qed.

(** ** The theorems *)
Lemma push_outside e l : forall o, e <= str o -> buf (push e o l) = buf o.
Proof.
  induction l as [|c l IH]; intros o Ho; [done|]. change (push e o (c :: l)) with (push e (put1 e o c) l).
  rewrite IH; unfold put1; cbn; [by rewrite (proj2 (Z.ltb_ge _ _))|lia].
Qed.
(** C16. For every format and every arguments there is one text that [vsnprintf] stands for,
    whatever the buffer is.  Where the arguments are those the format asks for, an empty
    buffer at the address 0 makes it count the text, however long; and in every buffer
    whose address leaves room for the text in memory it returns the length of the text as
    an [int], leaves as much of the text as there is room for with a terminator behind, and
    changes nothing else.  Where an argument is missing, has another type, or points to
    something else or to too few bytes, it faults for every buffer.  So no loop inside runs
    on for ever, for any width and precision, and the loop over the format ends. *)
Theorem vsnprintf_truncates (sym : Z -> list Z) (fmt : list Z) (as_ : list arg) :
  (forall w o fuel, (length fmt < fuel)%nat -> while fuel (format_round sym w) fmt o = while (1 + length fmt) (format_round sym w) fmt o) /\
  match format_takes fmt as_ with
  | Some as' => exists T st,
      (forall b, vsnprintf sym 0 0 fmt (Out b 0 as_ []) = Some (s32 (zlen T), Out b (zlen T) as' st)) /\
      (forall addr size b, 0 <= size < 2 ^ 31 -> 0 <= addr -> addr + size < 2 ^ 32 -> size <= zlen b -> addr + zlen T < 2 ^ 32 ->
         vsnprintf sym addr size fmt (Out b 0 as_ []) = Some (s32 (zlen T), Out (truncated size T b) (zlen T) as' st))
  | None => forall addr size b, 0 <= size < 2 ^ 31 -> vsnprintf sym addr size fmt (Out b 0 as_ []) = None
  end.
Proof.
  split; [intros e o fuel Hf; apply format_fuel; lia|].
  pose proof (takes_while (fun w => format_round sym w) round_takes (1 + length fmt) (takes_round sym) fmt as_ 0) as H.
  unfold format_takes. destruct (while (1 + length fmt) round_takes fmt as_) as [[[] as']|]; cbn [fmap option_fmap option_map snd].
  - destruct H as (T & [] & st & _ & H). exists T, st. split.
    + intros b. destruct (H (Window 0 0) (Out b 0 as_ []) eq_refl eq_refl) as [H1 _].
      specialize (H1 ltac:(split; [done|split; [done|apply zlen_nonneg]]) ltac:(by right)). unfold vsnprintf.
      change (s32 0 <? 0) with false. change (u32 (0 + 0) <? 0) with false. cbv iota. run H1. change (0 <? 0) with false. cbv iota.
      assert (forall o : out, get o = Some (o, o)) as Eg by done. run (Eg (after (room (Window 0 0)) (Out b 0 as_ []) T as' st)). run_ret.
      destruct (push_fields 0 T (Out b 0 as_ [])) as (_ & _ & Hstr). unfold after, ret. cbn [room str stores]. rewrite Hstr.
      by rewrite push_outside.
    + intros addr size b Hs Ha He Hl HT. rewrite (vsnprintf_end sym addr size fmt (Out b 0 as_ []) T as' st); try done.
      apply (H (Window addr size)); [done|done|split; [done|split; [done|done]]|left; cbn; lia].
  - intros addr size b Hs. unfold vsnprintf. rewrite s32_id, (proj2 (Z.ltb_ge size 0)) by lia. unfold bind at 1. by rewrite H.
Qed.

Lemma vsnprintf_items sym items more addr size b : Forall item_ok items -> 0 <= size < 2 ^ 31 -> 0 <= addr -> addr + size < 2 ^ 32 -> size <= zlen b ->
  let T := concat (item_text <$> items) in addr + zlen T < 2 ^ 32 ->
  vsnprintf sym addr size (concat (item_syntax <$> items)) (Out b 0 (concat (item_args <$> items) ++ more) []) =
    Some (s32 (zlen T), Out (truncated size T b) (zlen T) more []).
Proof.
  intros Hi Hs Ha He Hb T HT. apply (vsnprintf_end sym addr size _ (Out b 0 _ []) T more []); [done|done|done|done|done| |done].
  rewrite (items_eq sym (Window addr size) items more); [|done|split; [done|split; [done|done]]|left; cbn [buf_at str]; fold T; lia|done|pose proof (items_length items); lia].
  rewrite push_with_args. f_equal. f_equal. unfold with_args, after. f_equal. apply push_fields.
Qed.
(** C15. For every format made of ordinary characters and integer, character and string
    directives, with any flags, widths, precisions and strings shorter than 2^29, amounts
    also as arguments, and with any qualifier, [vsnprintf] writes the texts that the directives stand for: sign,
    prefix, padding and digits of a number, and the padded and cut string.  The text ends in
    front of the end of memory. *)
Theorem vsnprintf_correct (sym : Z -> list Z) (items : list item) (more : list arg) (addr size : Z) (b : list Z)
    (Hitems : Forall item_ok items) (Hsize : 0 <= size < 2 ^ 31) (Haddr : 0 <= addr) (Hend : addr + size < 2 ^ 32) (Hb : size <= zlen b)
    (HT : addr + zlen (concat (item_text <$> items)) < 2 ^ 32) :
  let T := concat (item_text <$> items) in
  vsnprintf sym addr size (concat (item_syntax <$> items)) (Out b 0 (concat (item_args <$> items) ++ more) []) =
    Some (s32 (zlen T), Out (truncated size T b) (zlen T) more []).
Proof.
  by apply vsnprintf_items.
Qed.

(** [a%-5d|%#x] for -42 and 255, in a buffer of twelve bytes. *)
Lemma vsnprintf_correct_witness :
  vsnprintf (fun _ => []) 0 12 [97; 37; 45; 53; 100; 124; 37; 35; 120] (Out (replicate 12 7) 0 [AInt (-42); AInt 255] []) =
    Some (11, Out [97; 45; 52; 50; 32; 32; 124; 48; 120; 102; 102; 0] 11 [] []).
Proof.
  refine (vsnprintf_correct (fun _ => [])
    [Literal 97; Integer (Directive [45] (Some (Fixed 5)) None) QNone Dec (-42); Literal 124; Integer (Directive [35] None None) QNone Hex 255]
    [] 0 12 (replicate 12 7) _ _ _ _ _ _).
  - repeat constructor; try discriminate; set_solver.
  - split; [discriminate|reflexivity].
  - discriminate.
  - reflexivity.
  - vm_compute. discriminate.
  - vm_compute. reflexivity.
Defined.
(** The format asks for two arguments and gets one, and a [%s] gets an [int]. *)
Lemma vsnprintf_faults : format_takes [37; 42; 100] [AInt 3] = None /\ format_takes [37; 115] [AInt 3] = None /\
  format_takes [37; 46; 105; 37; 112; 77] [AInt 3; APointer 16 (Bytes [1; 2; 3; 4; 5; 6]); AInt 1] = Some [AInt 1].
Proof. by vm_compute. Qed.
(** What a buffer of sixteen bytes holds. *)
Definition print (fmt : list Z) (as_ : list arg) : option (list Z) :=
  match vsnprintf (fun _ => []) 4096 16 fmt (Out (replicate 16 1) 0 as_ []) with Some (_, o) => Some (string_in (buf o)) | None => None end.
(** Where the routine is not that of C99: [%.*s] with a negative precision prints nothing
    and not the string; [%.0d] of 0 prints a digit; [%#x] of 0 has a prefix, and so has
    [%#o]; a [0] flag fills with zeros also when there is a precision; and [%hhd] is no
    directive. *)
Lemma not_c99 :
  print [37; 46; 42; 115] [AInt (-1); AString (Some [97; 98])] = Some [] /\
  print [37; 46; 48; 100] [AInt 0] = Some [48] /\
  print [37; 35; 120] [AInt 0] = Some [48; 120; 48] /\
  print [37; 35; 111] [AInt 0] = Some [48; 48] /\
  print [37; 48; 53; 46; 51; 100] [AInt 7] = Some [48; 48; 48; 48; 55] /\
  print [37; 104; 104; 100] [AInt 7] = Some [37; 104; 100].
Proof. by vm_compute. Qed.
(** [%.2147483647d] without a width: the left-over size is [INT_MIN], and the loop that
    should pad nothing puts out 2^31 blanks. *)
Lemma pad_at_int_min w : s32 (-1 - INT_MAX) = - 2 ^ 31 /\ emits w (pad w 32 (- 2 ^ 31)) (replicate (Z.to_nat (2 ^ 31)) 32) (-1).
Proof.
  assert (padding (- 2 ^ 31) = Z.to_nat (2 ^ 31) /\ padded (- 2 ^ 31) = -1) as [<- <-]; [|split; [done|apply emits_pad]].
  assert (s32 (- 2 ^ 31 - 1) = 2 ^ 31 - 1) as E by done. unfold padding, padded. rewrite E, Z.sub_add. done.
Qed.
(** A negative argument is printed as unsigned by [%zd], and an empty buffer makes
    [vscnprintf] return -1. *)
Lemma zd_is_unsigned : exists o, vsnprintf (fun _ => []) 0 12 [37; 122; 100] (Out (replicate 12 7) 0 [ASize (-1)] []) = Some (10, o) /\
  buf o = [52; 50; 57; 52; 57; 54; 55; 50; 57; 53; 0; 7].
Proof. eexists. vm_compute. auto. Qed.
Lemma vscnprintf_empty : exists o, vscnprintf (fun _ => []) 0 0 [97] (Out [] 0 [] []) = Some (-1, o).
Proof. eexists. vm_compute. reflexivity. Qed.

(** ** Printing and reading back *)
Definition plain : directive := Directive [] None None.
Definition hashed : directive := Directive [35] None None.
Lemma number_text_plain num base type : has type LEFT = false -> has type ZEROPAD = false ->
  number_text num base (-1) (-1) type = sign_text type num ++ prefix_text type base ++ rev (digit_char (has type SMALL) <$> digits base (magnitude type num)).
Proof.
  intros HL HZ. unfold number_text, digits_text. rewrite HL, HZ. set (ds := rev _). pose proof (zlen_nonneg ds).
  replace (Z.to_nat (-1 - zlen ds)) with 0%nat by lia. cbn [replicate app]. pose proof (zlen_nonneg (sign_text type num ++ prefix_text type base)).
  replace (Z.to_nat (-1 - zlen (sign_text type num ++ prefix_text type base) - zlen ds)) with 0%nat by lia. by rewrite <- app_assoc.
Qed.
Lemma digit_of_char small d : 0 <= d < 16 -> digit_of (digit_char small d) = Some d.
Proof.
  intros Hd. unfold digit_char, digit_of. destruct (Z.ltb_spec d 10), small; repeat case_decide; try lia; f_equal; lia.
Qed.
Lemma digit_char_range small d : 0 <= d < 16 -> 48 <= digit_char small d < 128 /\ (d <> 0 -> digit_char small d <> 48).
Proof. intros Hd. unfold digit_char. destruct (Z.ltb_spec d 10); [lia|]. destruct small; lia. Qed.
Lemma digits_numeral small base n : 2 <= base <= 16 -> 0 <= n < 2 ^ 64 ->
  Forall2 (digit_in base) (rev (digit_char small <$> digits base n)) (rev (digits base n)).
Proof.
  intros Hb Hn. pose proof (digits_Forall base n ltac:(lia) ltac:(lia)) as Hd. induction Hd as [|d l Hd Hl IH]; [constructor|].
  cbn [fmap list_fmap rev]. apply Forall2_app; [done|]. constructor; [|constructor]. split; [apply digit_of_char; lia|lia].
Qed.
(** Reading a numeral that ends the string. *)
Lemma strtou_numeral w p s base n : cstring (p ++ s) -> 0 <= w -> numeral (real_base s base) s n -> 0 <= n < 2 ^ w ->
  simple_strtou w (p ++ s) (zlen p) base tt = Some ((n, zlen (p ++ s)), tt).
Proof.
  intros Hs Hw Hn Hr. pose proof (zlen_nonneg s). pose proof (zlen_nonneg p).
  destruct (strtou_eq (p ++ s) Hs w (zlen p) base Hw ltac:(rewrite zlen_app; lia)) as [E _].
  replace (drop (Z.to_nat (zlen p)) (p ++ s)) with s in E by (unfold zlen; by rewrite Nat2Z.id, drop_app_length).
  destruct (numeral_consumed s base s [] n) as [Hc Hv]; [by rewrite app_nil_r|tauto|done|].
  rewrite E, Hv, wrap_id by done. unfold consumed in Hc. by rewrite zlen_app, <- Z.add_assoc, Hc.
Qed.

Lemma string_in_text (T rest : list Z) : cstring T -> string_in (T ++ 0 :: rest) = T.
Proof.
  intros HT. unfold string_in. assert (list_find (fun c => c = 0) (T ++ 0 :: rest) = Some (length T, 0)) as ->.
  { induction HT as [|c l Hc Hl IH]; cbn; [done|]. rewrite decide_False by lia. by rewrite IH. }
  cbn. by rewrite Nat2Z.id, take_app_length.
Qed.
(** What is left in a buffer with room for the whole text. *)
Lemma printed sym addr size b i : item_ok i -> 0 <= size < 2 ^ 31 -> 0 <= addr -> addr + size < 2 ^ 32 -> size <= zlen b ->
  zlen (item_text i) < size -> cstring (item_text i) ->
  exists o, vsnprintf sym addr size (item_syntax i) (Out b 0 (item_args i) []) = Some (zlen (item_text i), o) /\ string_in (buf o) = item_text i.
Proof.
  intros Hi Hs Ha He Hb HT Hc. pose proof (zlen_nonneg (item_text i)).
  assert (concat (item_text <$> [i]) = item_text i) as ET by apply app_nil_r.
  assert (concat (item_syntax <$> [i]) = item_syntax i) as ES by apply app_nil_r.
  assert (concat (item_args <$> [i]) ++ [] = item_args i) as EA by (cbn; by rewrite !app_nil_r).
  pose proof (vsnprintf_items sym [i] [] addr size b ltac:(by repeat constructor) Hs Ha He Hb) as E. cbv zeta in E. rewrite ET, ES, EA in E.
  rewrite s32_id in E by lia. eexists. split; [apply E; lia|]. cbn [buf]. unfold truncated, splice. rewrite (proj2 (Z.ltb_lt 0 size)) by lia.
  cbn [take Z.to_nat app].
  rewrite (take_ge (item_text i)) by (unfold zlen in *; lia). rewrite <- app_assoc. by apply string_in_text.
Qed.

Definition numeral_text (k : int_conv) (n : Z) : list Z := rev (digit_char (has (conv_flags k) SMALL) <$> digits (conv_base k) n).
Definition prefix_of (k : int_conv) : list Z := match k with Oct => [48] | Hex => [48; 120] | HexUpper => [48; 88] | _ => [] end.
Lemma conv_base_range k : 2 <= conv_base k <= 16.
Proof. destruct k; cbn; lia. Qed.
Lemma numeral_text_ok k n : 0 <= n < 2 ^ 64 ->
  cstring (numeral_text k n) /\ 1 <= zlen (numeral_text k n) <= 64 /\ Forall2 (digit_in (conv_base k)) (numeral_text k n) (rev (digits (conv_base k) n)).
Proof.
  intros Hn. pose proof (conv_base_range k). unfold numeral_text. split; [|split].
  - apply Forall_rev, Forall_fmap. pose proof (digits_Forall (conv_base k) n ltac:(lia) ltac:(lia)) as Hd. eapply List.Forall_impl; [|exact Hd].
    intros d Hr. cbv beta in Hr. pose proof (digit_char_range (has (conv_flags k) SMALL) d ltac:(lia)). cbn. lia.
  - rewrite zlen_rev, zlen_fmap. apply zlen_digits; lia.
  - by apply digits_numeral.
Qed.
Lemma plain_text k n : k <> Dec -> 0 <= n < 2 ^ 64 -> item_text (Integer plain Qll k n) = numeral_text k n.
Proof.
  intros Hk Hn. cbn [item_text]. change (d_left plain) with 0. rewrite Z.lor_0_l. change (width_of plain) with (-1). change (prec_of plain) with (-1).
  rewrite number_text_plain by (by destruct k). replace (num_of Qll k n) with n by (cbn; rewrite u64_id; lia).
  unfold magnitude, sign_text, prefix_text, numeral_text. by destruct k.
Qed.
Lemma hashed_text k n : k <> Dec -> 0 <= n < 2 ^ 64 -> item_text (Integer hashed Qll k n) = prefix_of k ++ numeral_text k n.
Proof.
  intros Hk Hn. cbn [item_text]. change (width_of hashed) with (-1). change (prec_of hashed) with (-1).
  rewrite number_text_plain by (by destruct k). replace (num_of Qll k n) with n by (cbn; rewrite u64_id; lia).
  unfold magnitude, sign_text, prefix_text, numeral_text. by destruct k.
Qed.
Lemma signed_text v : - 2 ^ 63 <= v < 2 ^ 63 ->
  item_text (Integer plain Qll Dec v) = (if v <? 0 then [45] else []) ++ numeral_text Dec (Z.abs v).
Proof.
  intros Hv. cbn [item_text]. change (d_left plain) with 0. rewrite Z.lor_0_l. change (width_of plain) with (-1). change (prec_of plain) with (-1).
  rewrite number_text_plain by done. unfold magnitude, sign_text, prefix_text, numeral_text. change (has (conv_flags Dec) SIGN) with true.
  assert (s64 (num_of Qll Dec v) = v) as -> by (change (num_of Qll Dec v) with (wrap 64 v); rewrite sgn_wrap by done; by apply sgn_id).
  cbn [andb]. destruct (Z.ltb_spec v 0); [by rewrite Z.abs_neq by lia|]. rewrite Z.abs_eq by lia. cbn. by rewrite u64_id by lia.
Qed.
(** In the base of the conversion, and with the prefix in the base that the text calls for. *)
Lemma plain_numeral k n : 0 <= n < 2 ^ 64 -> numeral (conv_base k) (numeral_text k n) n.
Proof.
  intros Hn. destruct (numeral_text_ok k n Hn) as (_ & _ & Hd). pose proof (numeral_plain _ _ _ Hd) as H.
  rewrite value_digits in H by (pose proof (conv_base_range k); lia). done.
Qed.
Lemma prefixed_base k c d T : k <> Dec -> k <> Uns -> digit_in (conv_base k) c d -> real_base (prefix_of k ++ c :: T) 0 = conv_base k.
Proof.
  intros H1 H2 Hd. unfold real_base. change (0 =? 0) with true. destruct k; try done; cbn [prefix_of conv_base app its_base] in *.
  - destruct T as [|c2 T]; [done|]. cbn [hex_prefix]. apply digit_not_x in Hd as (H3 & H4 & _). apply Z.eqb_neq in H3, H4. by rewrite H3, H4.
  - cbn [hex_prefix]. destruct Hd as [-> _]. done.
  - cbn [hex_prefix]. destruct Hd as [-> _]. done.
Qed.
Lemma prefixed_numeral k n : k <> Dec -> k <> Uns -> 0 <= n < 2 ^ 64 ->
  real_base (prefix_of k ++ numeral_text k n) 0 = conv_base k /\ numeral (conv_base k) (prefix_of k ++ numeral_text k n) n.
Proof.
  intros H1 H2 Hn. destruct (numeral_text_ok k n Hn) as (_ & Hl & Hd). pose proof (value_digits (conv_base k) n) as Hv.
  specialize (Hv ltac:(pose proof (conv_base_range k); lia) Hn). revert Hl Hd Hv.
  generalize (numeral_text k n) as T, (rev (digits (conv_base k) n)) as ds.
  intros T ds Hl Hd <-. split.
  - destruct Hd as [|c d T ds Hd]; [change (zlen []) with 0 in Hl; clear - Hl; lia|]. by apply (prefixed_base _ _ d).
  - destruct k; try done; cbn [prefix_of app]; [|apply numeral_hex; by auto..].
    change (value (conv_base Oct) ds) with (value (conv_base Oct) (0 :: ds)). by repeat constructor.
Qed.
Lemma prefixed_ok k n : 0 <= n < 2 ^ 64 -> cstring (prefix_of k ++ numeral_text k n) /\ zlen (prefix_of k ++ numeral_text k n) < 70.
Proof.
  intros Hn. destruct (numeral_text_ok k n Hn) as (Hc & Hl & _). split; [apply Forall_app; split; [destruct k; by repeat constructor|done]|].
  rewrite zlen_app. assert (zlen (prefix_of k) <= 2) by (by destruct k). lia.
Qed.
Lemma numeral_text_no_sign k n : 0 <= n < 2 ^ 64 -> at_ (numeral_text k n) 0 <> 45.
Proof.
  intros Hn. destruct (numeral_text_ok k n Hn) as (_ & Hl & Hd). destruct Hd as [|c d T ds [Hd _]]; [change (zlen []) with 0 in Hl; clear - Hl; lia|].
  change (at_ (c :: T) 0) with c. intros ->. done.
Qed.
Lemma strtoll_signed v T : cstring T -> numeral 10 T (Z.abs v) -> - 2 ^ 63 <= v < 2 ^ 63 -> at_ T 0 <> 45 ->
  simple_strtoll ((if v <? 0 then [45] else []) ++ T) 0 10 tt = Some ((v, zlen ((if v <? 0 then [45] else []) ++ T)), tt).
Proof.
  intros HT Hn Hv H0. unfold simple_strtoll, simple_strto. assert (0 <= Z.abs v < 2 ^ 64) as Ha by lia.
  assert (real_base T 10 = 10) as Eb by done. rewrite <- Eb in Hn. pose proof (zlen_nonneg T) as Hl. destruct (Z.ltb_spec v 0) as [Hneg|Hpos].
  - assert (cstring ([45] ++ T)) as HT' by (by constructor). run (ch_eq ([45] ++ T) 0 tt ltac:(rewrite zlen_app; change (zlen [45]) with 1; lia)).
    change (at_ ([45] ++ T) 0 =? 45) with true. cbv iota. run (strtou_numeral 64 [45] T 10 (Z.abs v) HT' ltac:(done) Hn Ha).
    unfold ret. cbn [fst snd]. rewrite sgn_id by lia. do 3 f_equal. lia.
  - change ([] ++ T) with T. run (ch_eq T 0 tt ltac:(lia)). rewrite (proj2 (Z.eqb_neq _ _) H0).
    run (strtou_numeral 64 [] T 10 (Z.abs v) HT ltac:(done) Hn Ha). unfold ret. cbn [fst snd]. rewrite sgn_id by lia. do 3 f_equal. lia.
Qed.

(** C17. A number that [vsnprintf] prints is read back from the buffer: the unsigned and
    the hexadecimal and octal conversions with [simple_strtoull] in their base, the two
    latter also with a [#] flag and base 0, where the prefix tells the base, and the signed
    conversion with [simple_strtoll]; all of what was printed is read. *)
Theorem print_parse_roundtrip (sym : Z -> list Z) (addr : Z) (b : list Z) (Haddr : 0 <= addr) (Hend : addr + 70 < 2 ^ 32) (Hb : 70 <= zlen b) :
  (forall k n, k <> Dec -> 0 <= n < 2 ^ 64 -> exists len o,
     vsnprintf sym addr 70 (item_syntax (Integer plain Qll k n)) (Out b 0 [ALongLong n] []) = Some (len, o) /\
     simple_strtoull (string_in (buf o)) 0 (conv_base k) tt = Some ((n, len), tt)) /\
  (forall k n, k <> Dec -> k <> Uns -> 0 <= n < 2 ^ 64 -> exists len o,
     vsnprintf sym addr 70 (item_syntax (Integer hashed Qll k n)) (Out b 0 [ALongLong n] []) = Some (len, o) /\
     simple_strtoull (string_in (buf o)) 0 0 tt = Some ((n, len), tt)) /\
  (forall v, - 2 ^ 63 <= v < 2 ^ 63 -> exists len o,
     vsnprintf sym addr 70 (item_syntax (Integer plain Qll Dec v)) (Out b 0 [ALongLong v] []) = Some (len, o) /\
     simple_strtoll (string_in (buf o)) 0 10 tt = Some ((v, len), tt)).
Proof.
  split; [|split].
  - intros k n Hk Hn. destruct (numeral_text_ok k n Hn) as (Hc & Hl & _).
    destruct (printed sym addr 70 b (Integer plain Qll k n)) as (o & E & ES); try done; try (rewrite plain_text by done; try done; lia).
    exists (zlen (numeral_text k n)), o. rewrite plain_text in E, ES by done. split; [exact E|]. rewrite ES.
    apply (strtou_numeral 64 []); try done. unfold real_base. pose proof (conv_base_range k). rewrite (proj2 (Z.eqb_neq _ 0)) by lia.
    by apply plain_numeral.
  - intros k n Hk Hk' Hn. destruct (prefixed_ok k n Hn) as [Hc Hl]. destruct (prefixed_numeral k n Hk Hk' Hn) as [Hb' Hnum].
    destruct (printed sym addr 70 b (Integer hashed Qll k n)) as (o & E & ES); try done; try (rewrite hashed_text by done; done).
    { split; [repeat constructor; set_solver|done]. }
    exists (zlen (prefix_of k ++ numeral_text k n)), o. rewrite hashed_text in E, ES by done. split; [exact E|]. rewrite ES.
    apply (strtou_numeral 64 [] (prefix_of k ++ numeral_text k n) 0); [done|done| |done]. by rewrite Hb'.
  - intros v Hv. destruct (numeral_text_ok Dec (Z.abs v) ltac:(lia)) as (Hc & Hl & _).
    set (T := (if v <? 0 then [45] else []) ++ numeral_text Dec (Z.abs v)).
    assert (cstring T /\ zlen T < 70) as [HcT HlT].
    { subst T. rewrite zlen_app. destruct (v <? 0); split; [by constructor|change (zlen [45]) with 1; lia|done|change (zlen []) with 0; lia]. }
    destruct (printed sym addr 70 b (Integer plain Qll Dec v)) as (o & E & ES); try done; try (rewrite signed_text by done; done).
    exists (zlen T), o. rewrite signed_text in E, ES by done. split; [exact E|]. rewrite ES.
    apply strtoll_signed; [done|by apply (plain_numeral Dec); lia|done|by apply numeral_text_no_sign; lia].
Qed.

Lemma print_parse_roundtrip_witness : exists len o,
  vsnprintf (fun _ => []) 0 70 [37; 35; 108; 108; 120] (Out (replicate 70 1) 0 [ALongLong 48879] []) = Some (len, o) /\
  simple_strtoull (string_in (buf o)) 0 0 tt = Some ((48879, len), tt).
Proof.
  refine (proj1 (proj2 (print_parse_roundtrip (fun _ => []) 0 (replicate 70 1) _ _ _)) Hex 48879 _ _ _).
  - discriminate.
  - reflexivity.
  - vm_compute. discriminate.
  - discriminate.
  - discriminate.
  - split; [discriminate|reflexivity].
Defined.
