(* ===== verification/Resource.v ===== *)
(** * The resource tree

    [kernel/resource.c]: address ranges that are nested in each other and shared
    out to drivers.  The heap maps the identity of a [struct resource] to its
    fields; the children of a resource are a list linked by [sibling] in the order
    of their addresses.  [resource_size_t] has 32 bits, as has [unsigned long].
    Names are left out, and so is the lock, which every exported operation holds
    from its first to its last access.  [kzalloc] gives a zeroed resource at an
    unused address, or fails, which is an argument of the operations that call it. *)

From Stdlib Require Import ZArith Lia.
From stdpp Require Import base tactics numbers list gmap option.
From S2P Require Import Prelude.

(** ** The heap *)
Abbreviation rid := positive.
Record resource := Resource {
  start : Z; end_ : Z; flags : Z; parent : option rid; sibling : option rid; child : option rid }.
Abbreviation heap := (gmap rid resource).
Abbreviation RS := (ST heap).

Definition getr (r : rid) : RS resource := fun h => match h !! r with Some n => Some (n, h) | None => None end.
Definition modr (r : rid) (f : resource -> resource) : RS unit := fun h =>
  match h !! r with Some n => Some (tt, <[r := f n]> h) | None => None end.
(** Dereferencing a null pointer is a fault. *)
Definition deref (p : option rid) : RS rid := match p with Some r => ret r | None => fault end.

Definition with_start (v : Z) (n : resource) := Resource v (end_ n) (flags n) (parent n) (sibling n) (child n).
Definition with_end (v : Z) (n : resource) := Resource (start n) v (flags n) (parent n) (sibling n) (child n).
Definition with_parent (v : option rid) (n : resource) := Resource (start n) (end_ n) (flags n) v (sibling n) (child n).
Definition with_sibling (v : option rid) (n : resource) := Resource (start n) (end_ n) (flags n) (parent n) v (child n).
Definition with_child (v : option rid) (n : resource) := Resource (start n) (end_ n) (flags n) (parent n) (sibling n) v.

(** The places that a [struct resource **] of the code points to. *)
Inductive slot := ChildOf (r : rid) | SiblingOf (r : rid).
Definition owner (p : slot) : rid := match p with ChildOf r | SiblingOf r => r end.
Definition in_slot (p : slot) (n : resource) : option rid := match p with ChildOf _ => child n | SiblingOf _ => sibling n end.
Definition set_slot (p : slot) (v : option rid) : resource -> resource :=
  match p with ChildOf _ => with_child v | SiblingOf _ => with_sibling v end.
Definition read_slot (p : slot) : RS (option rid) := let* n := getr (owner p) in ret (in_slot p n).
Definition write_slot (p : slot) (v : option rid) : RS unit := modr (owner p) (set_slot p v).

(** Loops over the resources make at most two more rounds than there are resources. *)
Definition walk {X A} (body : X -> RS (X + A)) (x : X) : RS A := fun h => while (2 + size h) body x h.

Definition IORESOURCE_SIZEALIGN : Z := 0x20000.
Definition IORESOURCE_STARTALIGN : Z := 0x40000.
Definition IORESOURCE_EXCLUSIVE : Z := 0x8000000.
Definition IORESOURCE_BUSY : Z := 0x80000000.
Definition has (f bit : Z) : bool := negb (Z.land f bit =? 0).
Definition busy (n : resource) : bool := has (flags n) IORESOURCE_BUSY.

(** ** Requesting and releasing *)
Definition request_round (root new : rid) (start_ end_' : Z) (p : slot) : RS (slot + option rid) :=
  let* tmp := read_slot p in
  let* before := (match tmp with Some t => let* n := getr t in ret (end_' <? start n) | None => ret true end) in
  if before then
    modr new (with_sibling tmp) ;;
    write_slot p (Some new) ;;
    modr new (with_parent (Some root)) ;;
    ret (inr None)
  else
    let* t := deref tmp in
    let* n := getr t in
    if end_ n <? start_ then ret (inl (SiblingOf t)) else ret (inr (Some t)).
(** The result is the resource in conflict with [new]. *)
Definition __request_resource (root new : rid) : RS (option rid) :=
  let* n := getr new in
  let* r := getr root in
  if end_ n <? start n then ret (Some root)
  else if start n <? start r then ret (Some root)
  else if end_ r <? end_ n then ret (Some root)
  else walk (request_round root new (start n) (end_ n)) (ChildOf root).

Definition release_round (old : rid) (p : slot) : RS (slot + Z) :=
  let* tmp := read_slot p in
  match tmp with
  | None => ret (inr (- EINVAL))
  | Some t =>
      if decide (t = old) then
        let* n := getr t in
        write_slot p (sibling n) ;;
        modr old (with_parent None) ;;
        ret (inr 0)
      else ret (inl (SiblingOf t))
  end.
Definition __release_resource (old : rid) : RS Z :=
  let* o := getr old in
  let* p := deref (parent o) in
  walk (release_round old) (ChildOf p).

Definition request_resource (root new : rid) : RS Z :=
  let* conflict := __request_resource root new in
  ret (match conflict with Some _ => - EBUSY | None => 0 end).
Definition release_resource (old : rid) : RS Z := __release_resource old.

(** ** Allocation *)
Definition ALIGN (x a : Z) : Z := Z.land (u32 (x + u32 (a - 1))) (not32 (u32 (a - 1))).
Section Allocate.
(** [alignf] with its data, a driver's function that may move the range. *)
Context (alignf : option (Z -> Z -> Z -> Z -> Z * Z)).
Definition call_alignf (new : rid) (size align : Z) : RS unit :=
  match alignf with
  | Some f => modr new (fun n => let '(s, e) := f (start n) (end_ n) size align in with_end e (with_start s n))
  | None => ret tt
  end.
Definition find_round (root new : rid) (size min max align : Z) (this : option rid) : RS (option rid + Z) :=
  let* e :=
    (match this with
     | Some t => let* n := getr t in ret (u32 (start n - 1))
     | None => let* r := getr root in ret (end_ r)
     end) in
  modr new (with_end e) ;;
  let* n := getr new in
  (if start n <? min then modr new (with_start min) else ret tt) ;;
  let* n := getr new in
  (if max <? end_ n then modr new (with_end max) else ret tt) ;;
  modr new (fun n => with_start (ALIGN (start n) align) n) ;;
  call_alignf new size align ;;
  let* n := getr new in
  if (start n <? end_ n) && (u32 (size - 1) <=? u32 (end_ n - start n)) then
    modr new (fun n => with_end (u32 (start n + size - 1)) n) ;;
    ret (inr 0)
  else
    match this with
    | None => ret (inr (- EBUSY))
    | Some t =>
        let* n := getr t in
        modr new (with_start (u32 (end_ n + 1))) ;;
        ret (inl (sibling n))
    end.
Definition find_resource (root new : rid) (size min max align : Z) : RS Z :=
  let* r := getr root in
  let this := child r in
  modr new (with_start (start r)) ;;
  let* this :=
    (match this with
     | Some t =>
         let* n := getr t in
         if start n =? 0 then modr new (with_start (u32 (end_ n + 1))) ;; ret (sibling n) else ret this
     | None => ret this
     end) in
  walk (find_round root new size min max align) this.
Definition allocate_resource (root new : rid) (size min max align : Z) : RS Z :=
  let* err := find_resource root new size min max align in
  if 0 <=? err then
    let* conflict := __request_resource root new in
    ret (match conflict with Some _ => - EBUSY | None => err end)
  else ret err.
End Allocate.

(** ** Insertion between parent and children *)
(** The first loop: [inl] is a return, [inr] leaves it with [parent] and [first]. *)
Definition descend_round (new parent : rid) : RS (rid + (option rid + rid * rid)) :=
  let* first := __request_resource parent new in
  match first with
  | None => ret (inr (inl None))
  | Some first =>
      if decide (first = parent) then ret (inr (inl (Some first)))
      else
        let* f := getr first in
        let* n := getr new in
        if (start n <? start f) || (end_ f <? end_ n) then ret (inr (inr (parent, first)))
        else if (start f =? start n) && (end_ f =? end_ n) then ret (inr (inr (parent, first)))
        else ret (inl first)
  end.
(** The second loop: [inl] is the resource that overlaps in part, [inr] the last one
    inside. *)
Definition covered_round (new next : rid) : RS (rid + (rid + rid)) :=
  let* x := getr next in
  let* n := getr new in
  if (start x <? start n) || (end_ n <? end_ x) then ret (inr (inl next))
  else
    match sibling x with
    | None => ret (inr (inr next))
    | Some s => let* y := getr s in if end_ n <? start y then ret (inr (inr next)) else ret (inl s)
    end.
Definition adopt_round (new : rid) (next : option rid) : RS (option rid + unit) :=
  match next with
  | Some r => modr r (with_parent (Some new)) ;; let* n := getr r in ret (inl (sibling n))
  | None => ret (inr tt)
  end.
Definition before_round (first : option rid) (next : rid) : RS (rid + rid) :=
  let* n := getr next in
  if decide (sibling n = first) then ret (inr next)
  else let* s := deref (sibling n) in ret (inl s).
Definition __insert_resource (parent_ new : rid) : RS (option rid) :=
  let* o := walk (descend_round new) parent_ in
  match o with
  | inl res => ret res
  | inr (parent_, first) =>
      let* o := walk (covered_round new) first in
      match o with
      | inl next => ret (Some next)
      | inr next =>
          modr new (with_parent (Some parent_)) ;;
          let* x := getr next in
          modr new (with_sibling (sibling x)) ;;
          modr new (with_child (Some first)) ;;
          modr next (with_sibling None) ;;
          walk (adopt_round new) (Some first) ;;
          let* p := getr parent_ in
          if decide (child p = Some first) then
            modr parent_ (with_child (Some new)) ;;
            ret None
          else
            let* next := deref (child p) in
            let* next := walk (before_round (Some first)) next in
            modr next (with_sibling (Some new)) ;;
            ret None
      end
  end.
Definition insert_resource (parent new : rid) : RS Z :=
  let* conflict := __insert_resource parent new in
  ret (match conflict with Some _ => - EBUSY | None => 0 end).
Definition expand_round (root new : rid) (_ : unit) : RS (unit + unit) :=
  let* conflict := __insert_resource root new in
  match conflict with
  | None => ret (inr tt)
  | Some c =>
      if decide (c = root) then ret (inr tt)
      else
        let* x := getr c in
        let* n := getr new in
        (if start x <? start n then modr new (with_start (start x)) else ret tt) ;;
        let* n := getr new in
        (if end_ n <? end_ x then modr new (with_end (end_ x)) else ret tt) ;;
        ret (inl tt)
  end.
Definition insert_resource_expand_to_fit (root new : rid) : RS unit :=
  let* n := getr new in
  match parent n with
  | Some _ => ret tt
  | None => walk (expand_round root new) tt
  end.

(** ** Changing a range *)
(** Whether the loop over the children leaves by [goto out]. *)
Definition outside_round (start_ end_' : Z) (tmp : option rid) : RS (option rid + bool) :=
  match tmp with
  | Some t =>
      let* n := getr t in
      if (start n <? start_) || (end_' <? end_ n) then ret (inr true) else ret (inl (sibling n))
  | None => ret (inr false)
  end.
Definition adjust_resource (res : rid) (start_ size : Z) : RS Z :=
  let* r := getr res in
  let end_' := u32 (start_ + size - 1) in
  let* parent_ := deref (parent r) in
  let* p := getr parent_ in
  if (start_ <? start p) || (end_ p <? end_') then ret (- EBUSY)
  else
    let* out := walk (outside_round start_ end_') (child r) in
    if out : bool then ret (- EBUSY)
    else
      let* near := (match sibling r with Some s => let* y := getr s in ret (start y <=? end_') | None => ret false end) in
      if near : bool then ret (- EBUSY)
      else
        let* near :=
          (if decide (child p = Some res) then ret false
           else
             let* tmp := deref (child p) in
             let* tmp := walk (before_round (Some res)) tmp in
             let* t := getr tmp in
             ret (start_ <=? end_ t)) in
        if near : bool then ret (- EBUSY)
        else
          modr res (with_start start_) ;;
          modr res (with_end end_') ;;
          ret 0.

(** ** Regions *)
Definition fresh_id (h : heap) : rid := Pos.succ (foldr Pos.max 1%positive (map_to_list h).*1).
(** [avail] tells whether there is memory. *)
Definition kzalloc (avail : bool) : RS (option rid) := fun h =>
  if avail then Some (Some (fresh_id h), <[fresh_id h := Resource 0 0 0 None None None]> h) else Some (None, h).
Definition kfree (r : rid) : RS unit := fun h => Some (tt, delete r h).

(** Look for room in [parent], and below it as long as what is in the way is not busy;
    the result is the resource in conflict. *)
Definition region_round (res parent_ : rid) : RS (rid + option rid) :=
  let* conflict := __request_resource parent_ res in
  match conflict with
  | None => ret (inr None)
  | Some c =>
      if decide (c = parent_) then ret (inr (Some c))
      else let* n := getr c in ret (if busy n then inr (Some c) else inl c)
  end.
Definition __request_region (avail : bool) (parent_ : rid) (start_ n flags_ : Z) : RS (option rid) :=
  let* res := kzalloc avail in
  match res with
  | None => ret None
  | Some res =>
      modr res (with_start start_) ;;
      modr res (with_end (u32 (start_ + n - 1))) ;;
      modr res (fun r => Resource (start r) (end_ r) (Z.lor IORESOURCE_BUSY flags_) (parent r) (sibling r) (child r)) ;;
      let* conflict := walk (region_round res) parent_ in
      match conflict with
      | None => ret (Some res)
      | Some _ => kfree res ;; ret None
      end
  end.
(** [mem] tells for each allocation whether it succeeds; what is left of it is the
    result. *)
Fixpoint __reserve_region_with_split (fuel : nat) (root : rid) (start_ end_' : Z) (mem : list bool) : RS (list bool) :=
  match fuel with
  | O => fault
  | S fuel =>
      let* res := kzalloc (default false (hd_error mem)) in
      let mem := tail mem in
      match res with
      | None => ret mem
      | Some res =>
          modr res (with_start start_) ;;
          modr res (with_end end_') ;;
          modr res (fun r => Resource (start r) (end_ r) IORESOURCE_BUSY (parent r) (sibling r) (child r)) ;;
          let* conflict := walk (region_round res) root in
          match conflict with
          | None => ret mem
          | Some c =>
              kfree res ;;
              let* n := getr c in
              if (start n <=? start_) && (end_' <=? end_ n) then ret mem
              else
                let* mem :=
                  (if start_ <? start n then __reserve_region_with_split fuel root start_ (u32 (start n - 1)) mem else ret mem) in
                let* n := getr c in
                let* mem :=
                  (if negb (busy n) then
                     let common_start := Z.max (start n) start_ in
                     let common_end := Z.min (end_ n) end_' in
                     if common_start <? common_end then __reserve_region_with_split fuel root common_start common_end mem else ret mem
                   else ret mem) in
                let* n := getr c in
                if end_ n <? end_' then __reserve_region_with_split fuel root (u32 (end_ n + 1)) end_' mem else ret mem
          end
      end
  end.
Definition __check_region (avail : bool) (parent_ : rid) (start_ n : Z) : RS Z :=
  let* res := __request_region avail parent_ start_ n 0 in
  match res with
  | None => ret (- EBUSY)
  | Some res => release_resource res ;; kfree res ;; ret 0
  end.
(** The result tells whether a region was freed; the message for the other case is not
    modelled. *)
Definition free_round (start_ end_' : Z) (p : slot) : RS (slot + bool) :=
  let* res := read_slot p in
  match res with
  | None => ret (inr false)
  | Some r =>
      let* n := getr r in
      if (start n <=? start_) && (end_' <=? end_ n) then
        if negb (busy n) then ret (inl (ChildOf r))
        else if negb (start n =? start_) || negb (end_ n =? end_') then ret (inr false)
        else
          write_slot p (sibling n) ;;
          kfree r ;;
          ret (inr true)
      else ret (inl (SiblingOf r))
  end.
Definition __release_region (parent_ : rid) (start_ n : Z) : RS bool :=
  walk (free_round start_ (u32 (start_ + n - 1))) (ChildOf parent_).

Definition resource_size (n : resource) : Z := u32 (end_ n - start n + 1).
Definition resource_alignment (res : rid) : RS Z :=
  let* n := getr res in
  let f := Z.land (flags n) (Z.lor IORESOURCE_SIZEALIGN IORESOURCE_STARTALIGN) in
  ret (if f =? IORESOURCE_SIZEALIGN then resource_size n else if f =? IORESOURCE_STARTALIGN then start n else 0).

(** ** Walking the tree *)
Definition climb_round (p : rid) : RS (rid + rid) :=
  let* n := getr p in
  match sibling n, parent n with
  | None, Some q => ret (inl q)
  | _, _ => ret (inr p)
  end.
Definition r_next (p : rid) : RS (option rid) :=
  let* n := getr p in
  match child n with
  | Some c => ret (Some c)
  | None => let* p := walk climb_round p in let* n := getr p in ret (sibling n)
  end.
Definition PAGE_SHIFT : Z := 12.
Definition PAGE_SIZE : Z := 4096.
Definition PFN_DOWN (x : Z) : Z := Z.shiftr x PAGE_SHIFT.
Definition sanity_round (addr size : Z) (p : option rid) : RS (option rid + Z) :=
  match p with
  | None => ret (inr 0)
  | Some p =>
      let* n := getr p in
      if (u32 (addr + size) <=? start n) || (end_ n <? addr) ||
         ((PFN_DOWN (start n) <=? PFN_DOWN addr) && (PFN_DOWN (u32 (addr + size - 1)) <=? PFN_DOWN (end_ n))) || busy n
      then let* q := r_next p in ret (inl q)
      else ret (inr (-1))
  end.
Definition iomem_map_sanity_check (iomem_resource : rid) (addr size : Z) : RS Z :=
  let* r := getr iomem_resource in
  walk (sanity_round addr size) (child r).
Definition exclusive_round (addr : Z) (p : option rid) : RS (option rid + Z) :=
  match p with
  | None => ret (inr 0)
  | Some p =>
      let* n := getr p in
      if u64 (addr + PAGE_SIZE) <=? start n then ret (inr 0)
      else if negb (end_ n <? addr) && (busy n && has (flags n) IORESOURCE_EXCLUSIVE) then ret (inr 1)
      else let* q := r_next p in ret (inl q)
  end.
(** [strict] is [strict_iomem_checks]; [PAGE_MASK] has the 32 bits of [unsigned long]. *)
Definition iomem_is_exclusive (strict : bool) (iomem_resource : rid) (addr : Z) : RS Z :=
  if negb strict then ret 0
  else
    let addr := Z.land addr (not32 (PAGE_SIZE - 1)) in
    let* r := getr iomem_resource in
    walk (exclusive_round addr) (child r).

(** ** The tree *)
(** A list of siblings with their children: the tree of first children and next
    siblings. *)
Inductive forest := Nil | Node (r : rid) (s e f : Z) (kids next : forest).
Definition head (F : forest) : option rid := match F with Nil => None | Node r _ _ _ _ _ => Some r end.
Fixpoint ids (F : forest) : list rid := match F with Nil => [] | Node r _ _ _ kids next => r :: ids kids ++ ids next end.
Fixpoint tops (F : forest) : list rid := match F with Nil => [] | Node r _ _ _ _ next => r :: tops next end.
(** The heap holds the siblings [F] below [par]. *)
Fixpoint rep (h : heap) (par : option rid) (F : forest) : Prop :=
  match F with
  | Nil => True
  | Node r s e f kids next =>
      h !! r = Some (Resource s e f par (head next) (head kids)) /\ rep h (Some r) kids /\ rep h par next
  end.
(** The ranges are in order, apart, and inside those of their parents. *)
Fixpoint ok (lo hi : Z) (F : forest) : Prop :=
  match F with
  | Nil => True
  | Node _ s e _ kids next => lo <= s /\ s <= e /\ e <= hi /\ ok s e kids /\ ok (e + 1) hi next
  end.

Ltac ids := cbn [ids head] in *; set_solver.

Lemma tops_ids F x : x ∈ tops F -> x ∈ ids F.
Proof. induction F; cbn; set_solver. Qed.
Lemma nodup_node r s e f kids next : NoDup (ids (Node r s e f kids next)) ->
  (r ∉ ids kids ++ ids next) /\ NoDup (ids kids) /\ (forall x, x ∈ ids kids -> x ∉ ids next) /\ NoDup (ids next).
Proof. intros [H1 H2]%list.NoDup_cons. apply list.NoDup_app in H2. tauto. Qed.
Lemma rep_frame h h' par F : (forall x, x ∈ ids F -> h' !! x = h !! x) -> rep h par F -> rep h' par F.
Proof.
  revert par. induction F as [|r s e f kids IHk next IHn]; intros par Hf; [done|]. cbn [rep]. intros (Hr & Hk & Hn).
  rewrite Hf by ids. split; [done|]. split; [apply IHk; [|done]|apply IHn; [|done]]; intros x Hx; apply Hf; ids.
Qed.
Lemma rep_insert_out (h : heap) r n par F : r ∉ ids F -> rep h par F -> rep (<[r := n]> h) par F.
Proof. intros Hr. apply rep_frame. intros x Hx. apply lookup_insert_ne. set_solver. Qed.
Lemma rep_in h par F x : rep h par F -> x ∈ ids F -> is_Some (h !! x).
Proof.
  revert par. induction F as [|r s e f kids IHk next IHn]; intros par; cbn [rep ids]; [set_solver|]. intros (Hr & Hk & Hn) Hx.
  apply elem_of_cons in Hx as [->|[Hx|Hx]%elem_of_app]; eauto.
Qed.
Lemma ok_weaken lo hi lo' hi' F : ok lo hi F -> lo' <= lo -> hi <= hi' -> ok lo' hi' F.
Proof.
  revert lo lo'. induction F as [|r s e f kids IHk next IHn]; intros lo lo'; cbn [ok]; [done|]. intros (? & ? & ? & ? & Hn) ? ?.
  split_and!; try lia; [done|]. eapply IHn; [exact Hn|lia|done].
Qed.

(** ** Surgery *)
(** What is found in the way of a range among siblings. *)
Fixpoint conflict (s e : Z) (F : forest) : option rid :=
  match F with
  | Nil => None
  | Node r s' e' _ _ next => if e <? s' then None else if e' <? s then conflict s e next else Some r
  end.
(** The siblings with a new one, with its children, at its place. *)
Fixpoint place (r : rid) (s e f : Z) (kids F : forest) : forest :=
  match F with
  | Nil => Node r s e f kids Nil
  | Node r' s' e' f' kids' next =>
      if e <? s' then Node r s e f kids F else Node r' s' e' f' kids' (place r s e f kids next)
  end.
Fixpoint remove (r : rid) (F : forest) : forest :=
  match F with
  | Nil => Nil
  | Node r' s e f kids next => if decide (r' = r) then next else Node r' s e f kids (remove r next)
  end.
(** The siblings at the slot [p] are now [F']; only the resources [D] have changed. *)
Record grafted (h h' : heap) (p : slot) (par : option rid) (F' : forest) (D : list rid) : Prop := {
  grafted_owner : h' !! owner p = set_slot p (head F') <$> h !! owner p;
  grafted_rep : rep h' par F';
  grafted_frame : forall x, x ∉ D -> x <> owner p -> h' !! x = h !! x }.

Lemma getr_run (h : heap) r n : h !! r = Some n -> getr r h = Some (n, h).
Proof. intros E. unfold getr. by rewrite E. Qed.
Lemma modr_eq (h : heap) r f n : h !! r = Some n -> modr r f h = Some (tt, <[r := f n]> h).
Proof. intros E. unfold modr. by rewrite E. Qed.
Lemma modr_insert (h : heap) r f n : modr r f (<[r := n]> h) = Some (tt, <[r := f n]> h).
Proof. rewrite (modr_eq _ r f n) by apply lookup_insert_eq. by rewrite insert_insert_eq. Qed.
Lemma getr_insert (h : heap) r n : getr r (<[r := n]> h) = Some (n, <[r := n]> h).
Proof. by apply getr_run, lookup_insert_eq. Qed.
Lemma read_slot_eq (h : heap) p n : h !! owner p = Some n -> read_slot p h = Some (in_slot p n, h).
Proof. intros E. unfold read_slot. run (getr_run _ _ _ E). done. Qed.

Lemma set_in_slot p v n : in_slot p n = v -> set_slot p v n = n.
Proof. intros <-. by destruct p, n. Qed.
(** A change among the younger siblings of the first one, or among its children. *)
Lemma grafted_next h h' p par r s e f kids next next' D :
  rep h par (Node r s e f kids next) -> NoDup (ids (Node r s e f kids next)) -> owner p ∉ ids (Node r s e f kids next) ->
  (forall x, x ∈ D -> (x ∉ r :: ids kids) /\ x <> owner p) -> (in_slot p <$> h !! owner p) = Some (Some r) ->
  grafted h h' (SiblingOf r) par next' D -> grafted h h' p par (Node r s e f kids next') (r :: D).
Proof.
  intros (Hr & Hk & Hn) (Hd1 & _ & Hd2 & _)%nodup_node Ho HD Hp [G1 G2 G3]. cbn [owner] in *. split.
  - rewrite G3; [|intros Hx%HD; tauto|ids]. destruct (h !! owner p) as [o|] eqn:Eo; [|done]. cbn in Hp |- *. injection Hp as Hp.
    by rewrite set_in_slot.
  - cbn [rep head]. rewrite G1, Hr. split; [done|]. split; [|done]. apply (rep_frame h); [|done]. intros x Hx.
    apply G3; [intros HxN; apply HD in HxN; ids|ids].
  - intros x Hx Hxo. apply G3; set_solver.
Qed.
Lemma grafted_kids h h' p par r s e f kids next kids' D :
  rep h par (Node r s e f kids next) -> NoDup (ids (Node r s e f kids next)) -> owner p ∉ ids (Node r s e f kids next) ->
  (forall x, x ∈ D -> (x ∉ r :: ids next) /\ x <> owner p) -> (in_slot p <$> h !! owner p) = Some (Some r) ->
  grafted h h' (ChildOf r) (Some r) kids' D -> grafted h h' p par (Node r s e f kids' next) (r :: D).
Proof.
  intros (Hr & Hk & Hn) (Hd1 & _ & Hd2 & _)%nodup_node Ho HD Hp [G1 G2 G3]. cbn [owner] in *. split.
  - rewrite G3; [|intros Hx%HD; tauto|ids]. destruct (h !! owner p) as [o|] eqn:Eo; [|done]. cbn in Hp |- *. injection Hp as Hp.
    by rewrite set_in_slot.
  - cbn [rep head]. rewrite G1, Hr. split; [done|]. split; [done|]. apply (rep_frame h); [|done]. intros x Hx.
    apply G3; [intros HxN; apply HD in HxN; ids|ids].
  - intros x Hx Hxo. apply G3; set_solver.
Qed.
(** A new first sibling. *)
Definition linked (h : heap) p root new n o t : heap :=
  <[new := with_parent (Some root) (with_sibling t n)]> (<[owner p := set_slot p (Some new) o]> (<[new := with_sibling t n]> h)).
Lemma link_eq (h : heap) p root new n o t {X} : h !! owner p = Some o -> h !! new = Some n -> owner p <> new ->
  (modr new (with_sibling t) ;; write_slot p (Some new) ;; modr new (with_parent (Some root)) ;; ret (inr (A:=X) (@None rid))) h =
    Some (inr None, linked h p root new n o t).
Proof.
  intros Ho Hn Hne. run (modr_eq h new (with_sibling t) n Hn). unfold write_slot.
  run (modr_eq (<[new := with_sibling t n]> h) (owner p) (set_slot p (Some new)) o ltac:(by rewrite lookup_insert_ne)).
  by run (modr_eq (<[owner p := set_slot p (Some new) o]> (<[new := with_sibling t n]> h)) new (with_parent (Some root)) (with_sibling t n)
    ltac:(by rewrite lookup_insert_ne, lookup_insert_eq)).
Qed.
Lemma grafted_here (h : heap) p root new s e f kids o par0 sib0 F :
  let n := Resource s e f par0 sib0 (head kids) in
  h !! owner p = Some o -> h !! new = Some n -> rep h (Some root) F -> rep h (Some new) kids -> owner p <> new ->
  owner p ∉ ids F -> new ∉ ids F -> owner p ∉ ids kids -> new ∉ ids kids ->
  grafted h (linked h p root new n o (head F)) p (Some root) (Node new s e f kids F) [new].
Proof.
  intros n Ho Hn HF Hk Hne H1 H2 H3 H4. unfold linked. split.
  - rewrite lookup_insert_ne, lookup_insert_eq, Ho by done. done.
  - cbn [rep]. rewrite lookup_insert_eq. split; [done|].
    split; (eapply rep_frame; [|eassumption]); intros x Hx; rewrite !lookup_insert_ne; set_solver.
  - intros x Hx Hxo. rewrite !lookup_insert_ne; set_solver.
Qed.
Lemma grafted_more h h' p par F D D' : grafted h h' p par F D -> (forall x, x ∈ D -> x ∈ D') -> grafted h h' p par F D'.
Proof. intros [G1 G2 G3] HD. split; [done|done|]. intros x Hx. apply G3. set_solver. Qed.

(** Scanning the children of [root] for the place of a new one. *)
Lemma request_scan root new s e f kids par0 sib0 F : forall p (h : heap) o fuel,
  let n := Resource s e f par0 sib0 (head kids) in
  h !! owner p = Some o -> in_slot p o = head F -> h !! new = Some n -> rep h (Some root) F -> rep h (Some new) kids -> owner p <> new ->
  owner p ∉ ids F -> new ∉ ids F -> owner p ∉ ids kids -> new ∉ ids kids -> NoDup (ids F) -> (forall x, x ∈ ids kids -> x ∉ ids F) ->
  (length (ids F) < fuel)%nat ->
  match conflict s e F with
  | Some c => while fuel (request_round root new s e) p h = Some (Some c, h)
  | None => exists h', while fuel (request_round root new s e) p h = Some (None, h') /\
      grafted h h' p (Some root) (place new s e f kids F) (tops F ++ [new])
  end.
Proof.
  induction F as [|r s' e' f' kids' _ next IHn]; intros p h o fuel n Ho Hp Hn HF Hk Hne H1 H2 H3 H4 Hd Hdk Hf; (destruct fuel as [|fuel]; [lia|]); rewrite while_S.
  - pose proof (grafted_here h p root new s e f kids o par0 sib0 Nil Ho Hn HF Hk Hne H1 H2 H3 H4) as G. eexists. split; [|exact G].
    assert (request_round root new s e p h = Some (inr None, linked h p root new n o None)) as E; [|by run E].
    unfold request_round. run (read_slot_eq h p o Ho). rewrite Hp. cbn [head]. run_ret. by apply link_eq.
  - pose proof HF as (Hr & HFk & HFn). cbn [conflict place]. pose proof (nodup_node _ _ _ _ _ _ Hd) as (Hd1 & _ & Hd2 & Hd3).
    destruct (Z.ltb_spec e s') as [Hlt|Hge].
    + pose proof (grafted_here h p root new s e f kids o par0 sib0 (Node r s' e' f' kids' next) Ho Hn HF Hk Hne H1 H2 H3 H4) as G.
      eexists. split; [|eapply grafted_more; [exact G|set_solver]].
      assert (request_round root new s e p h = Some (inr None, linked h p root new n o (Some r))) as E; [|by run E].
      unfold request_round. run (read_slot_eq h p o Ho). rewrite Hp. cbn [head]. run (getr_run h r _ Hr). run_ret. cbn [start].
      rewrite (proj2 (Z.ltb_lt _ _)) by lia. by apply link_eq.
    + assert (request_round root new s e p h = Some (if e' <? s then inl (SiblingOf r) else inr (Some r), h)) as E.
      { unfold request_round. run (read_slot_eq h p o Ho). rewrite Hp. cbn [head]. run (getr_run h r _ Hr). run_ret. cbn [start].
        rewrite (proj2 (Z.ltb_ge _ _)) by lia. cbn [deref]. run_ret. run (getr_run h r _ Hr). cbn [end_]. by destruct (e' <? s). }
      run E. destruct (e' <? s); [|done]. cbn [ids length] in Hf. rewrite length_app in Hf.
      specialize (IHn (SiblingOf r) h _ fuel Hr eq_refl Hn HFn Hk). cbn [owner] in IHn.
      specialize (IHn ltac:(ids) ltac:(ids) ltac:(ids) ltac:(ids) ltac:(ids) Hd3 ltac:(ids) ltac:(lia)).
      destruct (conflict s e next); [done|]. destruct IHn as (h' & E' & G). exists h'. split; [done|].
      pose proof (tops_ids next) as Ht. cbn [tops].
      apply (grafted_next _ _ _ _ _ _ _ _ _ next); [done|done|done|ids|rewrite Ho; cbn; by rewrite Hp|done].
Qed.

(** ** Places in the tree *)
(** The range, flags and children of a resource, and its children replaced. *)
Fixpoint find (c : rid) (F : forest) : option (Z * Z * Z * forest) :=
  match F with
  | Nil => None
  | Node r s e f kids next =>
      if decide (r = c) then Some (s, e, f, kids)
      else match find c kids with Some x => Some x | None => find c next end
  end.
Fixpoint set_kids (c : rid) (K F : forest) : forest :=
  match F with
  | Nil => Nil
  | Node r s e f kids next =>
      if decide (r = c) then Node r s e f K next
      else Node r s e f (set_kids c K kids) (set_kids c K next)
  end.
Lemma find_None c F : c ∉ ids F -> find c F = None.
Proof.
  induction F as [|r s e f kids IHk next IHn]; intros Hc; [done|]. cbn [find]. rewrite decide_False by ids. rewrite IHk by ids. apply IHn. ids.
Qed.
Lemma set_kids_out c K F : c ∉ ids F -> set_kids c K F = F.
Proof.
  induction F as [|r s e f kids IHk next IHn]; intros Hc; [done|]. cbn [set_kids]. rewrite decide_False, IHk, IHn by ids. done.
Qed.
Lemma find_ids c F s e f K : find c F = Some (s, e, f, K) -> c ∈ ids F /\ (forall x, x ∈ ids K -> x ∈ ids F).
Proof.
  induction F as [|r s' e' f' kids IHk next IHn]; [done|]. cbn [find]. case_decide as E; [intros; simplify_eq; ids|].
  destruct (find c kids) eqn:Ek; [intros; simplify_eq; destruct (IHk eq_refl); ids|intros H; destruct (IHn H); ids].
Qed.
Lemma find_in c F s e f K : find c F = Some (s, e, f, K) -> c ∈ ids F.
Proof. intros H. apply find_ids in H. tauto. Qed.
Lemma find_nodup c F s e f K : NoDup (ids F) -> find c F = Some (s, e, f, K) -> NoDup (ids K) /\ (c ∉ ids K).
Proof.
  induction F as [|r s' e' f' kids IHk next IHn]; [done|]. intros (H1 & H2 & H3 & H4)%nodup_node. cbn [find].
  case_decide as E; [intros; simplify_eq; split; [done|ids]|].
  destruct (find c kids) eqn:Ek; [intros; simplify_eq; by apply IHk|by apply IHn].
Qed.
Lemma find_rep h par c F s e f K : rep h par F -> find c F = Some (s, e, f, K) ->
  exists par' sib, h !! c = Some (Resource s e f par' sib (head K)) /\ rep h (Some c) K.
Proof.
  revert par. induction F as [|r s' e' f' kids IHk next IHn]; intros par; [done|]. cbn [find rep]. intros (Hr & Hk & Hn).
  case_decide as E; [intros; simplify_eq; eauto|].
  destruct (find c kids) eqn:Ek; [intros; simplify_eq; by eapply IHk|by eapply IHn].
Qed.
Lemma find_ok lo hi c F s e f K : ok lo hi F -> find c F = Some (s, e, f, K) -> lo <= s /\ s <= e /\ e <= hi /\ ok s e K.
Proof.
  revert lo hi. induction F as [|r s' e' f' kids IHk next IHn]; intros lo hi; [done|]. cbn [find ok]. intros (? & ? & ? & Hk & Hn).
  case_decide as E; [intros; by simplify_eq|].
  destruct (find c kids) eqn:Ek; [intros; simplify_eq; destruct (IHk _ _ Hk eq_refl) as (? & ? & ? & ?); split_and!; lia || done|].
  intros H'. destruct (IHn _ _ Hn H') as (? & ? & ? & ?). split_and!; lia || done.
Qed.

Lemma head_set_kids c K F : head (set_kids c K F) = head F.
Proof. destruct F; cbn; [done|]. by case_decide. Qed.
Lemma ids_set_kids c s e f K K' F : NoDup (ids F) -> find c F = Some (s, e, f, K) ->
  forall x, x ∈ ids (set_kids c K' F) <-> (x ∈ ids F /\ x ∉ ids K) \/ x ∈ ids K'.
Proof.
  induction F as [|r s' e' f' kids IHk next IHn]; [done|]. intros (H1 & H2 & H3 & H4)%nodup_node. cbn [find set_kids]. case_decide as E.
  { intros [=-> -> -> ->] x. cbn [ids]. pose proof (H3 x). set_solver. }
  destruct (find c kids) eqn:Ek.
  - intros [=->] x. destruct (find_ids _ _ _ _ _ _ Ek) as [Hc Hs]. rewrite (set_kids_out c K' next) by (by apply H3). specialize (IHk H2 eq_refl x).
    cbn [ids].
    rewrite !elem_of_cons, !elem_of_app, IHk. pose proof (H3 x). pose proof (Hs x). set_solver.
  - intros Hf x. destruct (find_ids _ _ _ _ _ _ Hf) as [Hc Hs]. rewrite (set_kids_out c K' kids) by (intros Hc'; by eapply H3).
    specialize (IHn H4 Hf x). cbn [ids].
    rewrite !elem_of_cons, !elem_of_app, IHn. pose proof (H3 x). pose proof (Hs x). set_solver.
Qed.
Lemma nodup_set_kids c s e f K K' F : NoDup (ids F) -> find c F = Some (s, e, f, K) -> NoDup (ids K') -> (forall x, x ∈ ids K' -> x ∈ ids K \/ x ∉ ids F) ->
  NoDup (ids (set_kids c K' F)).
Proof.
  induction F as [|r s' e' f' kids IHk next IHn]; [done|]. intros Hd. pose proof (nodup_node _ _ _ _ _ _ Hd) as (H1 & H2 & H3 & H4).
  cbn [find set_kids]. case_decide as E.
  { intros [=-> -> -> ->] Hd' Hx. cbn [ids]. apply list.NoDup_cons. split; [ids|]. apply list.NoDup_app. split_and!; [done|ids|done]. }
  destruct (find c kids) eqn:Ek.
  - intros [=->] Hd' Hx. destruct (find_ids _ _ _ _ _ _ Ek) as [Hc Hs]. rewrite (set_kids_out c K' next) by (by apply H3). cbn [ids].
    pose proof (ids_set_kids c s e f K K' kids H2 Ek) as Hi. apply list.NoDup_cons.
    split; [|apply list.NoDup_app; split_and!; [apply IHk; [done|done|done|ids]| |done]].
    + rewrite elem_of_app, Hi. ids.
    + intros x Hx'. rewrite Hi in Hx'. ids.
  - intros Hf Hd' Hx. destruct (find_ids _ _ _ _ _ _ Hf) as [Hc Hs]. rewrite (set_kids_out c K' kids) by (intros Hc'; by eapply H3). cbn [ids].
    pose proof (ids_set_kids c s e f K K' next H4 Hf) as Hi. apply list.NoDup_cons.
    split; [|apply list.NoDup_app; split_and!; [done| |apply IHn; [done|done|done|ids]]].
    + rewrite elem_of_app, Hi. ids.
    + intros x Hx'. rewrite Hi. ids.
Qed.
Lemma ok_set_kids lo hi c s e f K K' F : ok lo hi F -> find c F = Some (s, e, f, K) -> NoDup (ids F) -> ok s e K' -> ok lo hi (set_kids c K' F).
Proof.
  revert lo hi. induction F as [|r s' e' f' kids IHk next IHn]; intros lo hi; [done|].
  intros (L1 & L2 & L3 & Hk & Hn) Hf (H1 & H2 & H3 & H4)%nodup_node HK. cbn [find] in Hf. cbn [set_kids].
  case_decide as E; [simplify_eq; by split_and!|]. destruct (find c kids) eqn:Ek; cbn [ok].
  - simplify_eq. destruct (find_ids _ _ _ _ _ _ Ek) as [Hc Hs]. rewrite (set_kids_out c K' next) by (by apply H3). split_and!; try done. by apply IHk.
  - destruct (find_ids _ _ _ _ _ _ Hf) as [Hc Hs]. rewrite (set_kids_out c K' kids) by (intros Hc'; by eapply H3). split_and!; try done. by apply IHn.
Qed.
(** A change among the children of a resource is a change of the tree. *)
Lemma rep_set_kids h h' par c s e f K K' D F : rep h par F -> NoDup (ids F) -> find c F = Some (s, e, f, K) -> (forall x, x ∈ D -> x ∈ ids K \/ x ∉ ids F) ->
  grafted h h' (ChildOf c) (Some c) K' D -> rep h' par (set_kids c K' F).
Proof.
  intros HF Hd Hf HD [G1 G2 G3]. cbn [owner] in *. destruct (find_ids _ _ _ _ _ _ Hf) as [Hc HK].
  assert (forall par A, rep h par A -> (forall x, x ∈ ids A -> x ∈ ids F) -> c ∉ ids A -> (forall x, x ∈ ids A -> x ∉ ids K) -> rep h' par A) as Hfr.
  { intros par' A HA Hsub HcA HAK. apply (rep_frame h); [|done]. intros x Hx.
    apply G3; [intros [Ht|Ht]%HD; [by eapply HAK|by apply Ht, Hsub]|set_solver]. }
  assert (forall A par, rep h par A -> NoDup (ids A) -> find c A = Some (s, e, f, K) -> (forall x, x ∈ ids A -> x ∈ ids F) -> rep h' par (set_kids c K' A)) as H; [|by apply H].
  clear par HF Hd Hf. intros A. induction A as [|r s' e' f' kids IHk next IHn]; intros par; [done|].
  intros (Hr & Hk & Hn) (H1 & H2 & H3 & H4)%nodup_node Hf Hsub.
  cbn [find] in Hf. cbn [set_kids]. case_decide as E.
  { simplify_eq. cbn [rep]. rewrite G1, Hr. split; [done|]. split; [done|]. apply Hfr; [done|ids|ids|ids]. }
  cbn [rep]. rewrite !head_set_kids. destruct (find c kids) eqn:Ek.
  - simplify_eq. destruct (find_ids _ _ _ _ _ _ Ek) as [Hc' HK']. rewrite (set_kids_out c K' next) by (by apply H3). split_and!.
    + rewrite G3; [done|intros [Ht|Ht]%HD; ids|done].
    + apply IHk; [done|done|done|ids].
    + apply Hfr; [done|ids|ids|ids].
  - destruct (find_ids _ _ _ _ _ _ Hf) as [Hc' HK']. rewrite (set_kids_out c K' kids) by (intros Hc''; by eapply H3). split_and!.
    + rewrite G3; [done|intros [Ht|Ht]%HD; ids|done].
    + apply Hfr; [done|ids|ids|ids].
    + apply IHn; [done|done|done|ids].
Qed.

(** ** Ranges *)
Definition apart (s e : Z) (x : Z * Z) : Prop := e < x.1 \/ x.2 < s.
Fixpoint ranges (F : forest) : list (Z * Z) := match F with Nil => [] | Node _ s e _ _ next => (s, e) :: ranges next end.
Lemma ranges_above lo hi F x : ok lo hi F -> x ∈ ranges F -> lo <= x.1 /\ x.1 <= x.2 /\ x.2 <= hi.
Proof.
  revert lo. induction F as [|r s e f kids _ next IHn]; intros lo; cbn [ok ranges]; [set_solver|].
  intros (? & ? & ? & _ & Hn) [->|Hx]%elem_of_cons; [done|].
  destruct (IHn _ Hn Hx) as (? & ? & ?). split_and!; lia.
Qed.
Lemma conflict_None lo hi s e F : ok lo hi F -> conflict s e F = None <-> Forall (apart s e) (ranges F).
Proof.
  revert lo. induction F as [|r s' e' f' kids _ next IHn]; intros lo; cbn [ok ranges conflict]; [done|]. intros (? & ? & ? & _ & Hn).
  rewrite Forall_cons_iff. unfold apart at 1. cbn [fst snd].
  destruct (Z.ltb_spec e s'); [|destruct (Z.ltb_spec e' s); [rewrite (IHn _ Hn); tauto|split; [done|lia]]].
  split; [intros _|done]. split; [lia|]. apply list.Forall_forall. intros x Hx. left. pose proof (ranges_above _ _ _ _ Hn Hx). lia.
Qed.
Lemma conflict_tops s e F c : conflict s e F = Some c -> c ∈ tops F.
Proof. induction F as [|r s' e' f' kids _ next IHn]; cbn; [done|]. destruct (e <? s'); [done|]. destruct (e' <? s); [intros H%IHn; set_solver|intros [=->]; set_solver]. Qed.

Lemma ids_place r s e f kids F x : x ∈ ids (place r s e f kids F) <-> x = r \/ x ∈ ids kids \/ x ∈ ids F.
Proof. induction F as [|r' s' e' f' kids' _ next IHn]; cbn [place ids]; [set_solver|]. case_if E; cbn [ids]; [set_solver|]. rewrite !elem_of_cons, !elem_of_app, IHn. tauto. Qed.
Lemma tops_place r s e f kids F x : x ∈ tops (place r s e f kids F) <-> x = r \/ x ∈ tops F.
Proof. induction F as [|r' s' e' f' kids' _ next IHn]; cbn [place tops]; [set_solver|]. case_if E; cbn [tops]; [set_solver|]. rewrite !elem_of_cons, IHn. tauto. Qed.
Lemma find_place r s e f kids F : r ∉ ids F -> find r (place r s e f kids F) = Some (s, e, f, kids).
Proof.
  induction F as [|r' s' e' f' kids' _ next IHn]; cbn [place]; intros Hr; [cbn; by rewrite decide_True|].
  case_if E; cbn [find]; [by rewrite decide_True|].
  rewrite decide_False by ids. rewrite find_None by ids. apply IHn. ids.
Qed.
Lemma nodup_place r s e f kids F : NoDup (r :: ids kids) -> NoDup (ids F) -> (forall x, x ∈ r :: ids kids -> x ∉ ids F) -> NoDup (ids (place r s e f kids F)).
Proof.
  intros Hk. induction F as [|r' s' e' f' kids' _ next IHn]; cbn [place]; intros Hd Hx.
  { cbn [ids]. by rewrite app_nil_r. }
  case_if E.
  { change (NoDup ((r :: ids kids) ++ ids (Node r' s' e' f' kids' next))). apply list.NoDup_app. by split_and!. }
  apply nodup_node in Hd as (H1 & H2 & H3 & H4). cbn [ids]. apply list.NoDup_cons.
  split; [|apply list.NoDup_app; split_and!; [done| |apply IHn; [done|ids]]].
  - rewrite elem_of_app, ids_place. ids.
  - intros x Hxk. rewrite ids_place. ids.
Qed.
Lemma ok_place lo hi r s e f kids F : ok lo hi F -> lo <= s -> s <= e -> e <= hi -> ok s e kids -> conflict s e F = None -> ok lo hi (place r s e f kids F).
Proof.
  revert lo. induction F as [|r' s' e' f' kids' _ next IHn]; intros lo; cbn [ok place conflict]; [done|]. intros (? & ? & ? & Hk & Hn) ? ? ? Hs.
  destruct (Z.ltb_spec e s'); [intros _; cbn [ok]; split_and!; lia || done|]. destruct (Z.ltb_spec e' s); [|done]. intros Hc. cbn [ok].
  split_and!; try lia || done.
  apply IHn; lia || done.
Qed.
Lemma remove_place r s e f kids F : r ∉ tops F -> remove r (place r s e f kids F) = F.
Proof.
  induction F as [|r' s' e' f' kids' _ next IHn]; cbn [place tops]; intros Hr; [cbn; by rewrite decide_True|].
  case_if E; cbn [remove]; [by rewrite decide_True|].
  rewrite decide_False by set_solver. f_equal. apply IHn. set_solver.
Qed.
Lemma set_kids_set_kids c K K' F : set_kids c K (set_kids c K' F) = set_kids c K F.
Proof. induction F as [|r s e f kids IHk next IHn]; [done|]. cbn [set_kids]. case_decide as E; cbn [set_kids]; [by rewrite decide_True|]. rewrite decide_False by done. by rewrite IHk, IHn. Qed.
Lemma set_kids_id c s e f K F : NoDup (ids F) -> find c F = Some (s, e, f, K) -> set_kids c K F = F.
Proof.
  induction F as [|r s' e' f' kids IHk next IHn]; [done|]. intros (H1 & H2 & H3 & H4)%nodup_node. cbn [find set_kids].
  case_decide as E; [by intros; simplify_eq|].
  destruct (find c kids) eqn:Ek.
  - intros; simplify_eq. rewrite IHk by done. f_equal. apply set_kids_out, H3. by eapply find_in.
  - intros Hf. rewrite IHn by done. f_equal. apply set_kids_out. intros Hc. eapply H3; [exact Hc|]. by eapply find_in.
Qed.
Lemma find_set_kids c s e f K K' F : find c F = Some (s, e, f, K) -> NoDup (ids F) -> find c (set_kids c K' F) = Some (s, e, f, K').
Proof.
  induction F as [|r s' e' f' kids IHk next IHn]; [done|]. cbn [find set_kids]. intros Hf (H1 & H2 & H3 & H4)%nodup_node.
  case_decide as E; [by simplify_eq; cbn; rewrite decide_True|].
  cbn [find]. rewrite decide_False by done. destruct (find c kids) eqn:Ek; [simplify_eq; by rewrite IHk|].
  rewrite set_kids_out, Ek by (intros Hc; eapply H3; [exact Hc|]; by eapply find_in). by apply IHn.
Qed.

(** ** The state *)
Record tree (h : heap) (T : forest) : Prop := {
  tree_rep : rep h None T; tree_nodup : NoDup (ids T); tree_ok : ok 0 (2 ^ 32 - 1) T }.
(** A resource with its children that is not in the tree. *)
Record detached (h : heap) (T : forest) (r : rid) (s e f : Z) (kids : forest) : Prop := {
  detached_node : exists p q, h !! r = Some (Resource s e f p q (head kids));
  detached_rep : rep h (Some r) kids; detached_nodup : NoDup (r :: ids kids); detached_ok : ok s e kids;
  detached_apart : forall x, x ∈ r :: ids kids -> x ∉ ids T }.
(** Nothing outside the tree has changed but the links of [r]. *)
Definition unchanged (h h' : heap) (T : forest) (N : list rid) : Prop := forall x, x ∉ ids T -> x ∉ N -> h' !! x = h !! x.

Lemma detached_range h T new s e f x y p q c : tree h T -> detached h T new s e f Nil -> c = None -> let h' := <[new := Resource x y f p q c]> h in
  tree h' T /\ detached h' T new x y f Nil /\ unchanged h h' T [new].
Proof.
  intros [HT Hd Hok] [_ _ Hnd _ Hap] -> h'. assert (new ∉ ids T) by (apply Hap; set_solver). split; [split; [by apply rep_insert_out|done|done]|].
  split.
  - split; [exists p, q; apply lookup_insert_eq|done|done|done|done].
  - intros z _ Hz. apply lookup_insert_ne. set_solver.
Qed.

Lemma rep_length h par F : rep h par F -> NoDup (ids F) -> (length (ids F) <= size h)%nat.
Proof.
  intros HF Hd. rewrite <- (size_list_to_set (C:=gset rid) _ Hd), <- size_dom. apply subseteq_size. intros x Hx%elem_of_list_to_set.
  apply elem_of_dom. by eapply rep_in.
Qed.

Definition inside (s e s0 e0 : Z) : bool := (s <=? e) && (s0 <=? s) && (e <=? e0).
Lemma request_eq h T root s0 e0 f0 K new s e f Kn : tree h T -> find root T = Some (s0, e0, f0, K) -> detached h T new s e f Kn ->
  if inside s e s0 e0 then
    match conflict s e K with
    | Some c => __request_resource root new h = Some (Some c, h)
    | None => exists h', __request_resource root new h = Some (None, h') /\
        tree h' (set_kids root (place new s e f Kn K) T) /\ unchanged h h' T [new]
    end
  else __request_resource root new h = Some (Some root, h).
Proof.
  intros [HT Hd Hok] Hf [(p0 & q0 & Hn) Hk Hdk Hokk Hap]. destruct (find_rep _ _ _ _ _ _ _ _ HT Hf) as (pr & qr & Hr & HK).
  destruct (find_ids _ _ _ _ _ _ Hf) as [Hin Hsub]. destruct (find_nodup _ _ _ _ _ _ Hd Hf) as [HdK HrK].
  destruct (find_ok _ _ _ _ _ _ _ _ Hok Hf) as (_ & _ & _ & HoK).
  assert (forall R, (if inside s e s0 e0 then walk (request_round root new s e) (ChildOf root) h = R else Some (Some root, h) = R) ->
    __request_resource root new h = R) as E.
  { intros R HR. unfold __request_resource. run (getr_run h new _ Hn). run (getr_run h root _ Hr). cbn [start end_]. unfold inside in HR.
    destruct (Z.leb_spec s e); cbn [andb] in HR; [|by rewrite (proj2 (Z.ltb_lt _ _)) by lia]. rewrite (proj2 (Z.ltb_ge _ _)) by lia.
    destruct (Z.leb_spec s0 s); cbn [andb] in HR; [|by rewrite (proj2 (Z.ltb_lt _ _)) by lia]. rewrite (proj2 (Z.ltb_ge _ _)) by lia.
    destruct (Z.leb_spec e e0); [|by rewrite (proj2 (Z.ltb_lt _ _)) by lia]. by rewrite (proj2 (Z.ltb_ge _ _)) by lia. }
  destruct (inside s e s0 e0) eqn:Ei; [|by apply E]. unfold inside in Ei. b2p. pose proof (tops_ids K) as HtK.
  pose proof (rep_length _ _ _ HK HdK) as Hsz. assert (new ∉ ids T) by ids. assert (root <> new) by set_solver.
  pose proof (request_scan root new s e f Kn p0 q0 K (ChildOf root) h _ (2 + size h) Hr eq_refl Hn HK Hk ltac:(done) HrK ltac:(ids) ltac:(set_solver)) as S.
  apply list.NoDup_cons in Hdk as [Hdk1 Hdk2]. specialize (S Hdk1 HdK ltac:(set_solver) ltac:(lia)).
  destruct (conflict s e K) as [c|] eqn:Ec; [by apply E|].
  destruct S as (h' & Eh & G). exists h'. split; [by apply E|]. split; [split|].
  - eapply rep_set_kids; [done|done|done| |exact G]. set_solver.
  - eapply nodup_set_kids; [done|done|apply nodup_place; [by apply list.NoDup_cons|done|set_solver]|]. intros x. rewrite ids_place. set_solver.
  - eapply ok_set_kids; [done|done|done|]. by apply ok_place.
  - intros x Hx HN. destruct G as [_ _ G]. cbn [owner] in G. apply G; set_solver.
Qed.

(** Scanning the children for the one to release. *)
Lemma release_scan par old F : forall p (h : heap) o fuel,
  h !! owner p = Some o -> in_slot p o = head F -> rep h par F -> owner p ∉ ids F -> NoDup (ids F) -> (length (ids F) < fuel)%nat ->
  if decide (old ∈ tops F) then exists h', while fuel (release_round old) p h = Some (0, h') /\
    grafted h h' p par (remove old F) (tops F) /\ h' !! old = with_parent None <$> h !! old
  else while fuel (release_round old) p h = Some (- EINVAL, h).
Proof.
  induction F as [|r s e f kids _ next IHn]; intros p h o fuel Ho Hp HF H1 Hd Hf; (destruct fuel as [|fuel]; [lia|]); rewrite while_S.
  - rewrite decide_False by set_solver. assert (release_round old p h = Some (inr (- EINVAL), h)) as E; [|by run E].
    unfold release_round. run (read_slot_eq h p o Ho). by rewrite Hp.
  - pose proof HF as (Hr & HFk & HFn). pose proof (nodup_node _ _ _ _ _ _ Hd) as (Hd1 & _ & Hd2 & Hd3). pose proof (tops_ids next) as Ht.
    cbn [tops remove]. destruct (decide (r = old)) as [->|Hne].
    + rewrite decide_True by set_solver. set (n := Resource s e f par (head next) (head kids)) in *.
      set (h' := <[old := with_parent None n]> (<[owner p := set_slot p (head next) o]> h)).
      assert (owner p <> old) as Hno by ids. assert (release_round old p h = Some (inr 0, h')) as E.
      { unfold release_round. run (read_slot_eq h p o Ho). rewrite Hp. cbn [head]. rewrite decide_True by done. run (getr_run h old n Hr).
        unfold write_slot. run (modr_eq h (owner p) (set_slot p (sibling n)) o Ho).
        by run (modr_eq (<[owner p := set_slot p (sibling n) o]> h) old (with_parent None) n ltac:(by rewrite lookup_insert_ne)). }
      exists h'. split; [by run E|]. subst h'. split; [split|].
      * rewrite lookup_insert_ne, lookup_insert_eq, Ho by done. done.
      * apply (rep_frame h); [|done]. intros x Hx. rewrite !lookup_insert_ne; ids.
      * intros x Hx Hxo. rewrite !lookup_insert_ne; set_solver.
      * by rewrite lookup_insert_eq, Hr.
    + assert (release_round old p h = Some (inl (SiblingOf r), h)) as E.
      { unfold release_round. run (read_slot_eq h p o Ho). rewrite Hp. cbn [head]. by rewrite decide_False. }
      run E. cbn [ids length] in Hf. rewrite length_app in Hf.
      specialize (IHn (SiblingOf r) h _ fuel Hr eq_refl HFn ltac:(cbn [owner]; ids) Hd3 ltac:(lia)).
      destruct (decide (old ∈ tops next)) as [Hin|Hnin]; [rewrite decide_True by set_solver|by rewrite decide_False by set_solver].
      destruct IHn as (h' & E' & G & Hold). exists h'. split; [done|]. split; [|done].
      apply (grafted_next _ _ _ _ _ _ _ _ _ next); [done|done|done|ids|rewrite Ho; cbn; by rewrite Hp|done].
Qed.
Lemma ids_remove old s e f kids F x : NoDup (ids F) -> old ∈ tops F -> find old F = Some (s, e, f, kids) ->
  x ∈ ids (remove old F) <-> x ∈ ids F /\ (x ∉ old :: ids kids).
Proof.
  induction F as [|r s' e' f' kids' _ next IHn]; [set_solver|]. intros (H1 & H2 & H3 & H4)%nodup_node Ht. pose proof (H3 x) as H3x. cbn [find remove].
  case_decide as E.
  - intros; simplify_eq. ids.
  - assert (old ∈ tops next) as Ht' by (cbn [tops] in Ht; set_solver). pose proof (tops_ids _ _ Ht') as Hi.
    rewrite (find_None old kids') by (intros Hk; by eapply H3).
    intros Hf. cbn [ids]. rewrite !elem_of_cons, !elem_of_app, (IHn H4 Ht' Hf), elem_of_cons. destruct (find_ids _ _ _ _ _ _ Hf) as [_ Hs].
    pose proof (Hs x). set_solver.
Qed.
Lemma nodup_remove old F : NoDup (ids F) -> NoDup (ids (remove old F)).
Proof.
  induction F as [|r s e f kids _ next IHn]; [done|]. intros Hd. pose proof Hd as (H1 & H2 & H3 & H4)%nodup_node. cbn [remove].
  case_decide as E; [done|].
  assert (forall x, x ∈ ids (remove old next) -> x ∈ ids next) as Hs.
  { clear. induction next as [|r s e f kids _ next IHn]; cbn [remove]; [done|]. intros x. case_decide; cbn [ids]; set_solver. }
  cbn [ids]. apply list.NoDup_cons. split; [|apply list.NoDup_app; split_and!; [done| |by apply IHn]]; set_solver.
Qed.
Lemma ok_remove lo hi old F : ok lo hi F -> ok lo hi (remove old F).
Proof.
  revert lo. induction F as [|r s e f kids _ next IHn]; intros lo; [done|]. intros (? & ? & ? & Hk & Hn). cbn [remove]. case_decide as E; cbn [ok].
  - eapply ok_weaken; [exact Hn|lia|lia].
  - split_and!; try done. by apply IHn.
Qed.
Lemma tops_find h par F old : rep h par F -> NoDup (ids F) -> old ∈ tops F -> exists s e f kids sib,
  find old F = Some (s, e, f, kids) /\ h !! old = Some (Resource s e f par sib (head kids)) /\ rep h (Some old) kids.
Proof.
  induction F as [|r s e f kids _ next IHn]; [set_solver|]. intros (Hr & Hk & Hn) (H1 & H2 & H3 & H4)%nodup_node Ht. cbn [find].
  case_decide as E; [subst; eauto 10|].
  assert (old ∈ tops next) as Ht' by (cbn [tops] in Ht; set_solver). pose proof (tops_ids _ _ Ht') as Hi.
  rewrite (find_None old kids) by (intros Hk'; by eapply H3). by apply IHn.
Qed.
Lemma find_trans c F s e f K x s' e' f' K' : NoDup (ids F) -> find c F = Some (s, e, f, K) -> find x K = Some (s', e', f', K') -> find x F = Some (s', e', f', K').
Proof.
  induction F as [|r sr er fr kids IHk next IHn]; [done|]. intros (H1 & H2 & H3 & H4)%nodup_node Hf Hx. pose proof (find_in _ _ _ _ _ _ Hx) as Hin.
  cbn [find] in Hf |- *. case_decide as E.
  - simplify_eq. rewrite decide_False by ids. by rewrite Hx.
  - destruct (find c kids) eqn:Ek.
    + simplify_eq. specialize (IHk H2 eq_refl Hx). pose proof (find_in _ _ _ _ _ _ IHk). rewrite decide_False by ids. by rewrite IHk.
    + specialize (IHn H4 Hf Hx). pose proof (find_in _ _ _ _ _ _ IHn) as Hi. rewrite decide_False by ids. rewrite (find_None x kids); [done|].
      intros Hk. by eapply H3.
Qed.
Lemma release_eq h T P s0 e0 f0 K old : tree h T -> find P T = Some (s0, e0, f0, K) -> old ∈ tops K ->
  exists s e f kids h', find old T = Some (s, e, f, kids) /\ __release_resource old h = Some (0, h') /\
    tree h' (set_kids P (remove old K) T) /\ detached h' (set_kids P (remove old K) T) old s e f kids /\ (forall x, x ∉ tops K -> x <> P -> h' !! x = h !! x).
Proof.
  intros [HT Hd Hok] Hf Ht. destruct (find_rep _ _ _ _ _ _ _ _ HT Hf) as (pr & qr & Hr & HK). destruct (find_nodup _ _ _ _ _ _ Hd Hf) as [HdK HrK].
  destruct (find_ok _ _ _ _ _ _ _ _ Hok Hf) as (_ & _ & _ & HoK). destruct (find_ids _ _ _ _ _ _ Hf) as [Hin Hsub].
  destruct (tops_find _ _ _ _ HK HdK Ht) as (s & e & f & kids & sib & Hfo & Hold & Hrk).
  pose proof (find_trans _ _ _ _ _ _ _ _ _ _ _ Hd Hf Hfo) as HfT.
  destruct (find_nodup _ _ _ _ _ _ HdK Hfo) as [Hdk Hok']. destruct (find_ids _ _ _ _ _ _ Hfo) as [Hin' Hsub'].
  pose proof (rep_length _ _ _ HK HdK) as Hsz.
  pose proof (release_scan (Some P) old K (ChildOf P) h _ (2 + size h) Hr eq_refl HK HrK HdK ltac:(lia)) as S. rewrite decide_True in S by done.
  destruct S as (h' & E & G & Ho'). exists s, e, f, kids, h'. split; [done|]. split; [|split; [split|split; [split|]]].
  - unfold __release_resource. run (getr_run h old _ Hold). cbn [parent deref]. run_ret. exact E.
  - eapply rep_set_kids; [done|done|done| |exact G]. intros x Hx%tops_ids. by left.
  - eapply nodup_set_kids; [done|done|by apply nodup_remove|]. intros x. rewrite (ids_remove old s e f kids K x HdK Ht Hfo). tauto.
  - eapply ok_set_kids; [done|done|done|by apply ok_remove].
  - rewrite Ho', Hold. cbn. eauto.
  - apply (rep_frame h); [|done]. intros x Hx. destruct G as [_ _ G]. apply G; [|cbn [owner]; set_solver].
    intros Hx'. clear - HdK Ht Hfo Hx Hx'. induction K as [|r sr er fr k _ next IHn]; [set_solver|]. apply nodup_node in HdK as (H1 & H2 & H3 & H4).
    cbn [find tops] in *.
    case_decide as E; [simplify_eq; apply elem_of_cons in Hx' as [->|Hx'%tops_ids]; ids|]. assert (old ∈ tops next) as Ht' by set_solver.
    pose proof (tops_ids _ _ Ht') as Hi.
    rewrite (find_None old k) in Hfo by (intros Hk'; by eapply H3). destruct (find_ids _ _ _ _ _ _ Hfo) as [_ Hs].
    apply elem_of_cons in Hx' as [->|Hx']; [set_solver|by apply IHn].
  - by apply list.NoDup_cons.
  - by destruct (find_ok _ _ _ _ _ _ _ _ HoK Hfo) as (_ & _ & _ & ?).
  - intros x Hx. rewrite (ids_set_kids P s0 e0 f0 K _ T Hd Hf), (ids_remove old s e f kids K x HdK Ht Hfo). set_solver.
  - intros x Hx HxP. destruct G as [_ _ G]. apply G; set_solver.
Qed.

(** ** Theorems *)
(** [request_resource] puts a resource, with whatever children it has, among the
    children of [root] exactly when its range is not empty, inside that of [root] and
    apart from those of the children there; otherwise it returns [-EBUSY] and changes
    nothing.  The tree stays ordered and nested, and [release_resource] brings the tree
    back that was there before. *)
Theorem request_resource_correct (h : heap) (T : forest) (root : rid) (s0 e0 f0 : Z) (K : forest) (new : rid) (s e f : Z) (Kn : forest)
    (HT : tree h T) (Hf : find root T = Some (s0, e0, f0, K)) (Hn : detached h T new s e f Kn) :
  let fits := s0 <= s /\ s <= e /\ e <= e0 /\ Forall (apart s e) (ranges K) in
  (fits -> exists h', request_resource root new h = Some (0, h') /\ tree h' (set_kids root (place new s e f Kn K) T) /\ unchanged h h' T [new] /\
     exists h'', release_resource new h' = Some (0, h'') /\ tree h'' T /\ detached h'' T new s e f Kn /\ unchanged h h'' T [new]) /\
  (~ fits -> request_resource root new h = Some (- EBUSY, h)).
Proof.
  intros fits. pose proof (request_eq h T root s0 e0 f0 K new s e f Kn HT Hf Hn) as R.
  destruct (find_ok _ _ _ _ _ _ _ _ (tree_ok _ _ HT) Hf) as (_ & _ & _ & HoK).
  assert (fits <-> inside s e s0 e0 = true /\ conflict s e K = None) as Hfit.
  { unfold fits, inside. rewrite (conflict_None _ _ _ _ _ HoK), !andb_true_iff, !Z.leb_le. tauto. }
  rewrite Hfit. clear fits Hfit. unfold request_resource. split.
  - intros [Hi Hc]. rewrite Hi, Hc in R. destruct R as (h' & E & HT' & Hu). exists h'. split; [by run E|]. split; [done|]. split; [done|].
    pose proof (find_set_kids _ _ _ _ _ (place new s e f Kn K) _ Hf (tree_nodup _ _ HT)) as Hf'.
    destruct (release_eq _ _ _ _ _ _ _ new HT' Hf') as (s' & e' & f' & k' & h'' & Hfn & E' & HT'' & Hdet & Hu').
    { rewrite tops_place. set_solver. }
    destruct Hn as [Hn1 Hn2 Hn3 Hn4 Hn5]. pose proof (tops_ids K) as HtK. destruct (find_ids _ _ _ _ _ _ Hf) as [_ Hsub].
    assert (new ∉ ids T) by set_solver.
    rewrite remove_place, set_kids_set_kids, (set_kids_id _ _ _ _ _ _ (tree_nodup _ _ HT) Hf) in HT'', Hdet by set_solver.
    pose proof (find_trans _ _ _ _ _ _ _ _ _ _ _ (tree_nodup _ _ HT') Hf' (find_place new s e f Kn K ltac:(set_solver))) as Hfn'. rewrite Hfn in Hfn'.
    simplify_eq.
    exists h''. split; [done|]. split; [done|]. split; [done|]. pose proof (find_in _ _ _ _ _ _ Hf) as Hin. intros x Hx HN.
    rewrite Hu'; [by apply Hu| |set_solver].
    rewrite tops_place. set_solver.
  - intros Hnf. destruct (inside s e s0 e0); [destruct (conflict s e K)|]; [run R|exfalso; tauto|run R]; done.
Qed.

(** A window of 256 ports with a bus of 16 in it, and a resource that is not in it. *)
Definition ports : forest := Node 1 0 255 0x100 (Node 2 16 31 0x100 Nil Nil) Nil.
Definition ports_heap : heap := <[1%positive := Resource 0 255 0x100 None None (Some 2%positive)]> (<[2%positive := Resource 16 31 0x100 (Some 1%positive) None None]> ∅).
Lemma ports_tree : tree ports_heap ports.
Proof. split; [by vm_compute|repeat constructor; set_solver|by vm_compute]. Qed.
Definition ports_new : heap := <[3%positive := Resource 20 23 0 None None None]> ports_heap.
Lemma ports_new_tree : tree ports_new ports.
Proof. split; [by vm_compute|repeat constructor; set_solver|by vm_compute]. Qed.
Lemma ports_new_detached : detached ports_new ports 3 20 23 0 Nil.
Proof. split; [by exists None, None|done|apply NoDup_singleton|done|]. intros x ->%list_elem_of_singleton. set_solver. Qed.
Lemma request_resource_correct_witness : exists h', request_resource 2 3 ports_new = Some (0, h') /\ tree h' (set_kids 2 (place 3 20 23 0 Nil Nil) ports).
Proof.
  destruct (proj1 (request_resource_correct ports_new ports 2 16 31 0x100 Nil 3 20 23 0 Nil ports_new_tree eq_refl ports_new_detached)) as (h' & E & HT & _).
  - split; [discriminate|]. split; [discriminate|]. split; [discriminate|constructor].
  - exists h'. split; [exact E|exact HT].
Defined.
