(* ===== verification/Region.v ===== *)
(** * Regions of the resource tree

    The theorems about [__request_region], [__check_region], [__release_region] and
    the walks over the tree of [kernel/resource.c], whose definitions are in
    [Resource]. *)

From Stdlib Require Import ZArith Lia.
From stdpp Require Import base tactics numbers list gmap option sorting.
From S2P Require Import Prelude Resource.

(** ** Requesting *)
Definition busy_flag (f : Z) : bool := has f IORESOURCE_BUSY.
(** All resources in the order of the walk: a resource before its children. *)
Fixpoint nodes (F : forest) : list (rid * (Z * Z * Z)) :=
  match F with Nil => [] | Node r s e f kids next => (r, (s, e, f)) :: nodes kids ++ nodes next end.
Lemma nodes_ids F : (nodes F).*1 = ids F.
Proof. induction F as [|r s e f kids IHk next IHn]; [done|]. cbn. by rewrite fmap_app, IHk, IHn. Qed.
Lemma nodes_range lo hi F r s e f : ok lo hi F -> (r, (s, e, f)) ∈ nodes F -> lo <= s /\ s <= e /\ e <= hi.
Proof.
  revert lo hi. induction F as [|r' s' e' f' kids IHk next IHn]; intros lo hi; cbn [ok nodes]; [set_solver|]. intros (? & ? & ? & Hk & Hn).
  intros [?|[Hi|Hi]%elem_of_app]%elem_of_cons; [by simplify_eq|destruct (IHk _ _ Hk Hi); lia|destruct (IHn _ _ Hn Hi); lia].
Qed.

(** A resource leaves room for a range when it is apart from it, or holds it without
    being busy. *)
Definition leaves_room (s e : Z) (x : rid * (Z * Z * Z)) : Prop :=
  let '(_, (s', e', f')) := x in e < s' \/ e' < s \/ (s' <= s /\ e <= e' /\ busy_flag f' = false).
(** Where the search for room ends: the new parent, or the resource in the way. *)
Fixpoint target (s e : Z) (P : rid) (K : forest) : rid + rid :=
  match K with
  | Nil => inl P
  | Node r s' e' f' kids next =>
      if e <? s' then inl P else if e' <? s then target s e P next
      else if busy_flag f' then inr r else if inside s e s' e' then target s e r kids else inr r
  end.
Lemma target_room s e K : s <= e -> forall lo hi P, ok lo hi K ->
  match target s e P K with inl _ => Forall (leaves_room s e) (nodes K) | inr _ => ~ Forall (leaves_room s e) (nodes K) end.
Proof.
  intros Hse. induction K as [|r s' e' f' kids IHk next IHn]; intros lo hi P; [by constructor|]. intros (H1 & H2 & H3 & Hk & Hn). cbn [target nodes].
  assert (forall lo hi F, ok lo hi F -> e < lo \/ hi < s -> Forall (leaves_room s e) (nodes F)) as Hout.
  { intros l u F HF Ho. apply list.Forall_forall. intros [x [[a b] c]] Hx. destruct (nodes_range _ _ _ _ _ _ _ HF Hx) as (? & ? & ?). cbn. lia. }
  pose proof (Forall_cons_iff (leaves_room s e) (r, (s', e', f')) (nodes kids ++ nodes next)) as HF. rewrite Forall_app in HF.
  cbn [leaves_room] in HF.
  destruct (Z.ltb_spec e s') as [Hlt|Hge].
  { apply HF. split; [lia|]. split; [eapply Hout; [exact Hk|lia]|eapply Hout; [exact Hn|lia]]. }
  destruct (Z.ltb_spec e' s) as [Hlt'|Hge'].
  { specialize (IHn _ _ P Hn). destruct (target s e P next); rewrite HF; [|intros (_ & _ & H); by apply IHn]. split; [lia|].
    split; [eapply Hout; [exact Hk|lia]|done]. }
  destruct (busy_flag f'); [cbv iota; rewrite HF; intros ([|[|(_ & _ & H)]] & _); [lia|lia|done]|]. unfold inside. rewrite (proj2 (Z.leb_le _ _) Hse).
  cbn [andb].
  destruct (Z.leb_spec s' s), (Z.leb_spec e e'); cbn [andb]; try (rewrite HF; intros (H' & _); lia).
  specialize (IHk _ _ r Hk). destruct (target s e r kids); rewrite HF; [|intros (_ & H' & _); by apply IHk].
  split; [lia|]. split; [done|]. eapply Hout; [exact Hn|lia].
Qed.
(** One level of the search. *)
Lemma target_step s e P K : NoDup (ids K) ->
  match conflict s e K with
  | None => target s e P K = inl P
  | Some c => exists s' e' f' kids, find c K = Some (s', e', f', kids) /\ (length (ids kids) < length (ids K))%nat /\
      target s e P K = if busy_flag f' then inr c else if inside s e s' e' then target s e c kids else inr c
  end.
Proof.
  induction K as [|r s' e' f' kids _ next IHn]; [done|]. intros (H1 & H2 & H3 & H4)%nodup_node. cbn [conflict target]. destruct (e <? s'); [done|].
  destruct (e' <? s).
  - specialize (IHn H4). destruct (conflict s e next) as [c|] eqn:Ec; [|done]. destruct IHn as (sc & ec & fc & kc & Hf & Hl & Ht).
    exists sc, ec, fc, kc. pose proof (find_in _ _ _ _ _ _ Hf) as Hin.
    split; [|split; [cbn [ids length]; rewrite length_app; lia|done]]. cbn [find]. rewrite decide_False by ids. rewrite find_None; [done|]. intros Hc.
    by eapply H3.
  - exists s', e', f', kids. cbn [find]. rewrite decide_True by done. split; [done|]. split; [cbn [ids length]; rewrite length_app; lia|done].
Qed.
(** The siblings with a new region where the search for room ends. *)
Fixpoint settle (new : rid) (s e f : Z) (K : forest) : forest :=
  match K with
  | Nil => Node new s e f Nil Nil
  | Node r s' e' f' kids next =>
      if e <? s' then Node new s e f Nil K
      else if e' <? s then Node r s' e' f' kids (settle new s e f next)
      else Node r s' e' f' (settle new s e f kids) next
  end.
Lemma settle_step new s e f K : NoDup (ids K) ->
  match conflict s e K with
  | None => settle new s e f K = place new s e f Nil K
  | Some c => forall s' e' f' kids, find c K = Some (s', e', f', kids) -> settle new s e f K = set_kids c (settle new s e f kids) K
  end.
Proof.
  induction K as [|r s' e' f' kids _ next IHn]; [done|]. intros (H1 & H2 & H3 & H4)%nodup_node. cbn [conflict settle place].
  destruct (e <? s'); [done|]. destruct (e' <? s).
  - specialize (IHn H4). destruct (conflict s e next) as [c|] eqn:Ec; [|by rewrite IHn]. intros sc ec fc kc.
    pose proof (tops_ids _ _ (conflict_tops _ _ _ _ Ec)) as Hin.
    cbn [find set_kids]. rewrite !decide_False by ids. rewrite find_None by (intros Hc; by eapply H3). intros Hf.
    rewrite (set_kids_out _ _ kids) by (intros Hc; by eapply H3).
    by rewrite (IHn _ _ _ _ Hf).
  - intros sc ec fc kc. cbn [find set_kids]. rewrite !decide_True by done. by intros; simplify_eq.
Qed.
Lemma set_kids_trans P c s0 e0 f0 K X T : NoDup (ids T) -> find P T = Some (s0, e0, f0, K) -> c ∈ ids K -> set_kids P (set_kids c X K) T = set_kids c X T.
Proof.
  induction T as [|r s e f kids IHk next IHn]; [done|]. intros (H1 & H2 & H3 & H4)%nodup_node. cbn [find set_kids].
  destruct (decide (r = P)) as [->|Hne].
  - intros [=-> -> -> ->] Hc. rewrite decide_False by ids. by rewrite (set_kids_out c X next) by (by apply H3).
  - destruct (find P kids) eqn:Ek.
    + intros [=->] Hc. destruct (find_ids _ _ _ _ _ _ Ek) as [HP Hs]. rewrite decide_False by ids. rewrite (IHk H2 eq_refl Hc). f_equal.
      rewrite !set_kids_out; [done| |]; ids.
    + intros Hf Hc. destruct (find_ids _ _ _ _ _ _ Hf) as [HP Hs]. rewrite decide_False by ids. rewrite (IHn H4 Hf Hc). f_equal.
      rewrite !set_kids_out; [done| |]; ids.
Qed.
Lemma region_walk h T new s e f : tree h T -> detached h T new s e f Nil -> forall P s0 e0 f0 K fuel,
  find P T = Some (s0, e0, f0, K) -> inside s e s0 e0 = true -> (length (ids K) < fuel)%nat ->
  match target s e P K with
  | inr c => while fuel (region_round new) P h = Some (Some c, h)
  | inl _ => exists h', while fuel (region_round new) P h = Some (None, h') /\ tree h' (set_kids P (settle new s e f K) T) /\ unchanged h h' T [new]
  end.
Proof.
  intros HT Hn P s0 e0 f0 K. remember (length (ids K)) as k eqn:Hk. revert P s0 e0 f0 K Hk. induction k as [k IH] using lt_wf_ind.
  intros P s0 e0 f0 K -> fuel Hf Hi Hfu. destruct fuel as [|fuel]; [lia|]. rewrite while_S.
  pose proof (request_eq h T P s0 e0 f0 K new s e f Nil HT Hf Hn) as R. rewrite Hi in R.
  destruct (find_nodup _ _ _ _ _ _ (tree_nodup _ _ HT) Hf) as [HdK HPK]. pose proof (target_step s e P K HdK) as S.
  pose proof (settle_step new s e f K HdK) as S'.
  destruct (conflict s e K) as [c|] eqn:Ec.
  - destruct S as (sc & ec & fc & kc & Hfc & Hl & ->). pose proof (find_trans _ _ _ _ _ _ _ _ _ _ _ (tree_nodup _ _ HT) Hf Hfc) as HfT.
    destruct (find_rep _ _ _ _ _ _ _ _ (tree_rep _ _ HT) HfT) as (pc & qc & Hc & _). pose proof (tops_ids _ _ (conflict_tops _ _ _ _ Ec)) as Hin.
    assert (region_round new P h = Some (if busy_flag fc then inr (Some c) else inl c, h)) as E.
    { unfold region_round. run R. rewrite decide_False by set_solver. run (getr_run h c _ Hc). done. }
    run E. destruct (busy_flag fc) eqn:Eb; [done|]. destruct (inside s e sc ec) eqn:Ei.
    + specialize (IH _ Hl c sc ec fc kc eq_refl fuel HfT Ei ltac:(lia)). destruct (target s e c kc) as [Q|]; [|done].
      by rewrite (S' _ _ _ _ Hfc), (set_kids_trans _ _ _ _ _ _ _ _ (tree_nodup _ _ HT) Hf Hin).
    + destruct fuel as [|fuel]; [lia|]. rewrite while_S. pose proof (request_eq h T c sc ec fc kc new s e f Nil HT HfT Hn) as R'. rewrite Ei in R'.
      assert (region_round new c h = Some (inr (Some c), h)) as E'; [|by run E']. unfold region_round. run R'. by rewrite decide_True.
  - rewrite S, S'. destruct R as (h' & R & HT' & Hu). exists h'. split; [|done].
    assert (region_round new P h = Some (inr None, h')) as E; [|by run E]. unfold region_round. by run R.
Qed.

Lemma region_outside h T P s0 e0 f0 K r s e f : tree h T -> find P T = Some (s0, e0, f0, K) -> detached h T r s e f Nil -> inside s e s0 e0 = false ->
  walk (region_round r) P h = Some (Some P, h).
Proof.
  intros HT Hf Hn Ei. pose proof (request_eq h T P s0 e0 f0 K r s e f Nil HT Hf Hn) as R. rewrite Ei in R. unfold walk.
  change (2 + size h)%nat with (S (S (size h))). rewrite while_S.
  assert (region_round r P h = Some (inr (Some P), h)) as E; [|by run E]. unfold region_round. run R. by rewrite decide_True.
Qed.
Lemma fresh_id_None (h : heap) : h !! fresh_id h = None.
Proof.
  destruct (h !! fresh_id h) as [n|] eqn:E; [|done]. exfalso. apply elem_of_map_to_list in E.
  assert (forall l (x : rid), x ∈ l -> (x <= foldr Pos.max 1 l)%positive) as Hm.
  { induction l as [|y l IH]; [set_solver|]. intros x [->|Hx]%elem_of_cons; cbn; [lia|]. specialize (IH x Hx). lia. }
  assert (fresh_id h ∈ (map_to_list h).*1) as Hin by (apply list_elem_of_fmap; by exists (fresh_id h, n)). apply Hm in Hin. unfold fresh_id in Hin.
  lia.
Qed.
Lemma rep_insert_fresh (h : heap) r n par F : h !! r = None -> rep h par F -> rep (<[r := n]> h) par F.
Proof.
  intros Hr HF. apply (rep_frame h); [|done]. intros x Hx. apply lookup_insert_ne. intros ->. destruct (rep_in _ _ _ _ HF Hx). congruence.
Qed.
(** A heap is determined by the tree it holds and by what is outside. *)
Lemma rep_determines h h' par F x : rep h par F -> rep h' par F -> x ∈ ids F -> h' !! x = h !! x.
Proof.
  revert par. induction F as [|r s e f kids IHk next IHn]; intros par; [set_solver|]. intros (Hr & Hk & Hn) (Hr' & Hk' & Hn').
  intros [->|[Hx|Hx]%elem_of_app]%elem_of_cons; [by rewrite Hr, Hr'|by eapply IHk|by eapply IHn].
Qed.

(** There is room for a range below a resource with the range [[s0, e0]] and the
    children [K]. *)
Definition room (s e s0 e0 : Z) (K : forest) : Prop := s <= e /\ s0 <= s /\ e <= e0 /\ Forall (leaves_room s e) (nodes K).
Lemma room_target s e s0 e0 K P : ok s0 e0 K -> room s e s0 e0 K <-> inside s e s0 e0 = true /\ exists Q, target s e P K = inl Q.
Proof.
  intros HK. unfold room, inside. rewrite !andb_true_iff, !Z.leb_le. pose proof (fun H => target_room s e K H s0 e0 P HK) as H.
  destruct (target s e P K) as [Q|c]; [|naive_solver]. split; [naive_solver|]. intros (? & _). naive_solver.
Qed.
(** The resource that [__request_region] prepares. *)
Definition prepared (h : heap) (s e f : Z) : heap := <[fresh_id h := Resource s e f None None None]> h.
Lemma prepared_tree h T s e f : tree h T -> tree (prepared h s e f) T /\ detached (prepared h s e f) T (fresh_id h) s e f Nil.
Proof.
  intros [HT Hd Hok]. pose proof (fresh_id_None h) as Hf. split; [split; [by apply rep_insert_fresh|done|done]|]. split.
  - exists None, None. unfold prepared. by rewrite lookup_insert_eq.
  - done.
  - apply NoDup_singleton.
  - done.
  - intros x [->|?]%elem_of_cons; [|set_solver]. intros Hx. destruct (rep_in _ _ _ _ HT Hx). congruence.
Qed.
Lemma request_region_run h P s n f : __request_region true P s n f h =
  (let* conflict := walk (region_round (fresh_id h)) P in
   match conflict with None => ret (Some (fresh_id h)) | Some _ => kfree (fresh_id h) ;; ret None end)
  (prepared h s (u32 (s + n - 1)) (Z.lor IORESOURCE_BUSY f)).
Proof.
  unfold __request_region.
  assert (kzalloc true h = Some (Some (fresh_id h), <[fresh_id h := Resource 0 0 0 None None None]> h)) as E by done. run E. set (r := fresh_id h).
  do 3 (erewrite bind_Some by apply modr_insert). done.
Qed.
Lemma request_region_eq h T P s0 e0 f0 K s n f : tree h T -> find P T = Some (s0, e0, f0, K) ->
  let e := u32 (s + n - 1) in let r := fresh_id h in
  (room s e s0 e0 K -> exists h', __request_region true P s n f h = Some (Some r, h') /\ tree h' (set_kids P (settle r s e (Z.lor IORESOURCE_BUSY f) K) T) /\
     (r ∉ ids T) /\ unchanged h h' T [r]) /\
  (~ room s e s0 e0 K -> __request_region true P s n f h = Some (None, h)).
Proof.
  intros HT Hf e r. destruct (prepared_tree h T s e (Z.lor IORESOURCE_BUSY f) HT) as [HT' Hn].
  destruct (find_ok _ _ _ _ _ _ _ _ (tree_ok _ _ HT) Hf) as (_ & _ & _ & HoK).
  assert (r ∉ ids T) as Hr by (apply Hn; set_solver). destruct (find_rep _ _ _ _ _ _ _ _ (tree_rep _ _ HT') Hf) as (p0 & q0 & HP & HK).
  destruct (find_nodup _ _ _ _ _ _ (tree_nodup _ _ HT) Hf) as [HdK _]. pose proof (rep_length _ _ _ HK HdK) as Hsz. rewrite request_region_run.
  fold e r. set (h1 := prepared h s e _) in *.
  assert (kfree r h1 = Some (tt, h)) as Ek. { unfold kfree, h1, prepared. by rewrite delete_insert_id by apply fresh_id_None. }
  rewrite (room_target s e s0 e0 K P HoK). pose proof (region_walk h1 T r s e (Z.lor IORESOURCE_BUSY f) HT' Hn P s0 e0 f0 K (2 + size h1) Hf) as W.
  split.
  - intros [Hi [Q HQ]]. rewrite HQ in W. destruct (W Hi ltac:(lia)) as (h' & E & HTh' & Hu).
    assert (walk (region_round r) P h1 = Some (None, h')) as E' by exact E. exists h'. split; [by run E'|]. split; [done|]. split; [done|].
    intros x Hx HN. rewrite Hu by done. unfold h1, prepared. apply lookup_insert_ne. set_solver.
  - intros Hno. destruct (inside s e s0 e0) eqn:Ei.
    + destruct (target s e P K) as [Q|c]; [exfalso; eauto|]. assert (walk (region_round r) P h1 = Some (Some c, h1)) as E by (apply W; [done|lia]).
      run E. by run Ek.
    + run (region_outside h1 T P s0 e0 f0 K r s e _ HT' Hf Hn Ei). by run Ek.
Qed.

(** ** Releasing *)
(** The busy region with exactly the given range, and the siblings without it. *)
Fixpoint free (s e : Z) (K : forest) : option (rid * forest) :=
  match K with
  | Nil => None
  | Node r s' e' f' kids next =>
      if (s' <=? s) && (e <=? e') then
        if negb (busy_flag f') then (fun x => (x.1, Node r s' e' f' x.2 next)) <$> free s e kids
        else if negb (s' =? s) || negb (e' =? e) then None else Some (r, next)
      else (fun x => (x.1, Node r s' e' f' kids x.2)) <$> free s e next
  end.
Lemma free_in s e K r K' : free s e K = Some (r, K') -> r ∈ ids K /\ (forall x, x ∈ ids K' -> x ∈ ids K).
Proof.
  revert K'. induction K as [|r' s' e' f' kids IHk next IHn]; intros K'; [done|]. cbn [free]. repeat case_match; intros; simplify_eq/=; [|ids|].
  - destruct (free s e kids) as [[r1 K1]|] eqn:Ef; simplify_eq/=. destruct (IHk _ eq_refl). ids.
  - destruct (free s e next) as [[r1 K1]|] eqn:Ef; simplify_eq/=. destruct (IHn _ eq_refl). ids.
Qed.
Lemma free_scan s e K : forall p (h : heap) o par fuel,
  h !! owner p = Some o -> in_slot p o = head K -> rep h par K -> owner p ∉ ids K -> NoDup (ids K) -> (length (ids K) < fuel)%nat ->
  match free s e K with
  | Some (r, K') => exists h', while fuel (free_round s e) p h = Some (true, h') /\ grafted h h' p par K' (ids K) /\ h' !! r = None
  | None => while fuel (free_round s e) p h = Some (false, h)
  end.
Proof.
  induction K as [|r s' e' f' kids IHk next IHn]; intros p h o par fuel Ho Hp HK H1 Hd Hf; (destruct fuel as [|fuel]; [lia|]); rewrite while_S.
  - assert (free_round s e p h = Some (inr false, h)) as E; [|by run E]. unfold free_round. run (read_slot_eq h p o Ho). by rewrite Hp.
  - pose proof HK as (Hr & HKk & HKn). pose proof (nodup_node _ _ _ _ _ _ Hd) as (Hd1 & Hd2 & Hd3 & Hd4). cbn [free]. cbn [ids length] in Hf.
    rewrite length_app in Hf.
    assert (free_round s e p h = (if (s' <=? s) && (e <=? e') then
        if negb (busy_flag f') then ret (inl (ChildOf r)) else if negb (s' =? s) || negb (e' =? e) then ret (inr false) else write_slot p (head next) ;; kfree r ;; ret (inr true)
      else ret (inl (SiblingOf r))) h) as E.
    { unfold free_round. run (read_slot_eq h p o Ho). rewrite Hp. cbn [head]. by run (getr_run h r _ Hr). }
    rewrite (bind_cong _ _ _ h h E). destruct ((s' <=? s) && (e <=? e')); [destruct (negb (busy_flag f'))|].
    + run_ret. specialize (IHk (ChildOf r) h _ (Some r) fuel Hr eq_refl HKk ltac:(cbn [owner]; ids) Hd2 ltac:(lia)).
      destruct (free s e kids) as [[x K']|]; [|done].
      destruct IHk as (h' & E' & G & Hx). exists h'. split; [done|]. split; [|done].
      eapply grafted_more; [apply (grafted_kids _ _ _ _ _ _ _ _ kids next); [done|done|done| |rewrite Ho; cbn; by rewrite Hp|exact G]|]; ids.
    + destruct (negb (s' =? s) || negb (e' =? e)); [run_ret; done|]. unfold write_slot. run (modr_eq h (owner p) (set_slot p (head next)) o Ho).
      eexists. split; [unfold kfree, bind, ret; reflexivity|]. split; [split|].
      * rewrite lookup_delete_ne, lookup_insert_eq, Ho by ids. done.
      * apply (rep_frame h); [|done]. intros x Hx. rewrite lookup_delete_ne, lookup_insert_ne by ids. done.
      * intros x Hx Hxo. cbn [ids] in Hx. rewrite lookup_delete_ne, lookup_insert_ne by set_solver. done.
      * apply lookup_delete_eq.
    + run_ret. specialize (IHn (SiblingOf r) h _ par fuel Hr eq_refl HKn ltac:(cbn [owner]; ids) Hd4 ltac:(lia)).
      destruct (free s e next) as [[x K']|]; [|done].
      destruct IHn as (h' & E' & G & Hx). exists h'. split; [done|]. split; [|done].
      eapply grafted_more; [apply (grafted_next _ _ _ _ _ _ _ _ kids next); [done|done|done| |rewrite Ho; cbn; by rewrite Hp|exact G]|]; ids.
Qed.
Lemma free_nodup s e K r K' : NoDup (ids K) -> free s e K = Some (r, K') -> NoDup (ids K').
Proof.
  revert K'. induction K as [|r' s' e' f' kids IHk next IHn]; intros K'; [done|]. intros Hd.
  pose proof (nodup_node _ _ _ _ _ _ Hd) as (H1 & H2 & H3 & H4). cbn [free].
  repeat case_match; intros; simplify_eq/=; [|done|].
  - destruct (free s e kids) as [[r1 K1]|] eqn:Ef; simplify_eq/=. destruct (free_in _ _ _ _ _ Ef) as [_ Hs]. apply list.NoDup_cons. split; [ids|].
    apply list.NoDup_app. split_and!; [by apply IHk|ids|done].
  - destruct (free s e next) as [[r1 K1]|] eqn:Ef; simplify_eq/=. destruct (free_in _ _ _ _ _ Ef) as [_ Hs]. apply list.NoDup_cons. split; [ids|].
    apply list.NoDup_app. split_and!; [done|ids|by apply IHn].
Qed.
Lemma free_ok s e K r K' lo hi : ok lo hi K -> free s e K = Some (r, K') -> ok lo hi K'.
Proof.
  revert K' lo hi. induction K as [|r' s' e' f' kids IHk next IHn]; intros K' lo hi; [done|]. intros (? & ? & ? & Hk & Hn). cbn [free].
  repeat case_match; intros; simplify_eq/=.
  - destruct (free s e kids) as [[r1 K1]|] eqn:Ef; simplify_eq/=. split_and!; try done. by eapply IHk.
  - eapply ok_weaken; [exact Hn|lia|lia].
  - destruct (free s e next) as [[r1 K1]|] eqn:Ef; simplify_eq/=. split_and!; try done. by eapply IHn.
Qed.
Lemma release_region_eq h T P s0 e0 f0 K s n : tree h T -> find P T = Some (s0, e0, f0, K) -> let e := u32 (s + n - 1) in
  match free s e K with
  | Some (r, K') => exists h', __release_region P s n h = Some (true, h') /\ tree h' (set_kids P K' T) /\ h' !! r = None /\ (forall x, x ∉ ids K -> x <> P -> h' !! x = h !! x)
  | None => __release_region P s n h = Some (false, h)
  end.
Proof.
  intros [HT Hd Hok] Hf e. destruct (find_rep _ _ _ _ _ _ _ _ HT Hf) as (pr & qr & Hr & HK). destruct (find_nodup _ _ _ _ _ _ Hd Hf) as [HdK HrK].
  destruct (find_ok _ _ _ _ _ _ _ _ Hok Hf) as (_ & _ & _ & HoK). pose proof (rep_length _ _ _ HK HdK) as Hsz.
  pose proof (free_scan s e K (ChildOf P) h _ (Some P) (2 + size h) Hr eq_refl HK HrK HdK ltac:(lia)) as S.
  destruct (free s e K) as [[r K']|] eqn:Ef; [|exact S].
  destruct S as (h' & E & G & Hx). exists h'. split; [exact E|]. destruct (free_in _ _ _ _ _ Ef) as [_ Hs]. split; [split|split; [done|]].
  - eapply rep_set_kids; [done|done|done| |exact G]. set_solver.
  - eapply nodup_set_kids; [done|done|by eapply free_nodup|]. set_solver.
  - eapply ok_set_kids; [done|done|done|by eapply free_ok].
  - intros x Hx1 Hx2. destruct G as [_ _ G]. by apply G.
Qed.
(** A region just settled is the one that is freed. *)
Lemma free_settle r s e f K : s <= e -> busy_flag f = true -> forall P Q, target s e P K = inl Q -> free s e (settle r s e f K) = Some (r, K).
Proof.
  intros Hse Hb. induction K as [|r' s' e' f' kids IHk next IHn]; intros P Q.
  - intros _. cbn [settle free]. rewrite !Z.leb_refl, !Z.eqb_refl, Hb. done.
  - cbn [target settle]. destruct (Z.ltb_spec e s').
    { intros _. cbn [free]. rewrite !Z.leb_refl, !Z.eqb_refl, Hb. done. }
    destruct (Z.ltb_spec e' s).
    { intros Ht. cbn [free]. rewrite (proj2 (Z.leb_gt e e')) by lia. rewrite andb_false_r, (IHn _ _ Ht). done. }
    destruct (busy_flag f') eqn:Eb; [done|]. unfold inside. destruct (Z.leb_spec s' s), (Z.leb_spec e e'); rewrite ?andb_false_r; try done. intros Ht.
    rewrite (proj2 (Z.leb_le s e) Hse) in Ht.
    cbn [free]. rewrite (proj2 (Z.leb_le s' s)), (proj2 (Z.leb_le e e')), Eb by lia. cbn [andb negb] in *. by rewrite (IHk _ _ Ht).
Qed.
Lemma settle_target r s e f T : NoDup (ids T) -> forall K P s0 e0 f0 Q, find P T = Some (s0, e0, f0, K) -> target s e P K = inl Q ->
  exists sQ eQ fQ KQ, find Q T = Some (sQ, eQ, fQ, KQ) /\ set_kids P (settle r s e f K) T = set_kids Q (place r s e f Nil KQ) T.
Proof.
  intros Hd K. remember (length (ids K)) as k eqn:Hk. revert K Hk. induction k as [k IH] using lt_wf_ind. intros K -> P s0 e0 f0 Q Hf Ht.
  destruct (find_nodup _ _ _ _ _ _ Hd Hf) as [HdK HPK]. pose proof (target_step s e P K HdK) as S. pose proof (settle_step r s e f K HdK) as S'.
  destruct (conflict s e K) as [c|] eqn:Ec.
  - destruct S as (sc & ec & fc & kc & Hfc & Hl & S). rewrite S in Ht. destruct (busy_flag fc); [done|]. destruct (inside s e sc ec); [|done].
    rewrite (S' _ _ _ _ Hfc), (set_kids_trans _ _ _ _ _ _ _ _ Hd Hf) by (by eapply find_in). eapply (IH _ Hl kc eq_refl); [by eapply find_trans|done].
  - rewrite S in Ht. simplify_eq. rewrite S'. eauto 10.
Qed.
(** After a region is requested and released again, the heap is what it was. *)
Lemma heap_back (h h' : heap) T r : rep h None T -> rep h' None T -> h !! r = None -> h' !! r = None -> (forall x, x ∉ ids T -> x <> r -> h' !! x = h !! x) -> h' = h.
Proof.
  intros H1 H2 H3 H4 Hx. apply map_eq. intros x. destruct (decide (x ∈ ids T)) as [Hi|Hi]; [by eapply rep_determines|].
  destruct (decide (x = r)) as [->|Hr]; [by rewrite H3, H4|]. by apply Hx.
Qed.
Lemma ids_settle r s e f K x : x ∈ ids (settle r s e f K) <-> x = r \/ x ∈ ids K.
Proof. induction K as [|r' s' e' f' kids IHk next IHn]; cbn [settle ids]; [set_solver|]. repeat case_match; cbn [ids]; rewrite ?elem_of_cons, ?elem_of_app, ?IHk, ?IHn; set_solver. Qed.
Lemma busy_lor f : busy_flag (Z.lor IORESOURCE_BUSY f) = true.
Proof.
  unfold busy_flag, has. apply negb_true_iff, Z.eqb_neq. intros H. apply (f_equal (fun z => Z.testbit z 31)) in H.
  rewrite Z.land_spec, Z.lor_spec, Z.bits_0 in H.
  change (Z.testbit IORESOURCE_BUSY 31) with true in H. done.
Qed.
(** The wrappers give back what they took. *)
Lemma region_roundtrip h T P s0 e0 f0 K s n f : tree h T -> find P T = Some (s0, e0, f0, K) -> let e := u32 (s + n - 1) in room s e s0 e0 K ->
  exists h', __request_region true P s n f h = Some (Some (fresh_id h), h') /\ tree h' (set_kids P (settle (fresh_id h) s e (Z.lor IORESOURCE_BUSY f) K) T) /\
    __release_region P s n h' = Some (true, h) /\ (release_resource (fresh_id h) ;; kfree (fresh_id h)) h' = Some (tt, h).
Proof.
  intros HT Hf e Hroom. set (r := fresh_id h). destruct (request_region_eq h T P s0 e0 f0 K s n f HT Hf) as [R _]. fold e r in R.
  destruct (R Hroom) as (h' & E & HT' & Hr & Hu).
  exists h'. split; [done|]. split; [done|]. pose proof HT as [HTr HTd HTo]. destruct (find_ok _ _ _ _ _ _ _ _ HTo Hf) as (_ & _ & _ & HoK).
  destruct (find_ids _ _ _ _ _ _ Hf) as [HP Hsub].
  pose proof Hroom as [Hi [Q HQ]]%(room_target s e s0 e0 K P HoK). destruct Hroom as (Hse & _).
  pose proof (find_set_kids _ _ _ _ _ (settle r s e (Z.lor IORESOURCE_BUSY f) K) _ Hf HTd) as Hf'. pose proof (fresh_id_None h) as Hfr. split.
  - pose proof (release_region_eq h' _ P s0 e0 f0 _ s n HT' Hf') as F. cbv zeta in F. fold e in F.
    rewrite (free_settle r s e _ K Hse (busy_lor f) P Q HQ) in F.
    destruct F as (h'' & E' & HT'' & Hrn & Hu'). rewrite set_kids_set_kids, (set_kids_id _ _ _ _ _ _ HTd Hf) in HT''. rewrite E'. do 2 f_equal.
    apply (heap_back h h'' T r HTr (tree_rep _ _ HT'') Hfr Hrn). intros x Hx Hxr.
    rewrite Hu'; [apply Hu; set_solver|rewrite ids_settle; set_solver|set_solver].
  - destruct (settle_target r s e (Z.lor IORESOURCE_BUSY f) T HTd K P s0 e0 f0 Q Hf HQ) as (sQ & eQ & fQ & KQ & HfQ & Eset). rewrite Eset in HT'.
    destruct (find_ids _ _ _ _ _ _ HfQ) as [HQ' HsQ].
    pose proof (find_set_kids _ _ _ _ _ (place r s e (Z.lor IORESOURCE_BUSY f) Nil KQ) _ HfQ HTd) as HfQ'. pose proof (tops_ids KQ) as HtQ.
    destruct (release_eq _ _ _ _ _ _ _ r HT' HfQ') as (s1 & e1 & f1 & k1 & h'' & _ & E' & HT'' & _ & Hu'); [rewrite tops_place; by left|].
    rewrite remove_place, set_kids_set_kids, (set_kids_id _ _ _ _ _ _ HTd HfQ) in HT'' by set_solver. unfold release_resource. run E'. unfold kfree.
    do 2 f_equal.
    apply (heap_back h _ T r HTr); [|done|apply lookup_delete_eq|].
    + apply (rep_frame h''); [|apply HT'']. intros x Hx. apply lookup_delete_ne. set_solver.
    + intros x Hx Hxr. rewrite lookup_delete_ne, Hu'; [apply Hu; set_solver|rewrite tops_place; set_solver|set_solver|done].
Qed.

(** [__request_region] creates a busy region exactly when there is memory, the range
    is not empty and inside that of the parent, and every resource below the parent is
    apart from it or holds it without being busy; it is put below the innermost of those.
    Otherwise it returns [NULL] and leaves the heap as it was.  [__check_region] answers
    the same question, and it, as [__release_region] after a request, leaves the heap
    exactly as it was. *)
Theorem request_region_correct (h : heap) (T : forest) (P : rid) (s0 e0 f0 : Z) (K : forest) (s n f : Z)
    (HT : tree h T) (Hf : find P T = Some (s0, e0, f0, K)) :
  let e := u32 (s + n - 1) in
  (room s e s0 e0 K -> exists r h' Q sQ eQ fQ KQ, h !! r = None /\ __request_region true P s n f h = Some (Some r, h') /\
     find Q T = Some (sQ, eQ, fQ, KQ) /\ tree h' (set_kids Q (place r s e (Z.lor IORESOURCE_BUSY f) Nil KQ) T) /\
     __release_region P s n h' = Some (true, h) /\ __check_region true P s n h = Some (0, h)) /\
  (~ room s e s0 e0 K -> __request_region true P s n f h = Some (None, h) /\ __check_region true P s n h = Some (- EBUSY, h)) /\
  __request_region false P s n f h = Some (None, h) /\ __check_region false P s n h = Some (- EBUSY, h).
Proof.
  intros e. split; [|split; [|done]].
  - intros Hroom. destruct (region_roundtrip h T P s0 e0 f0 K s n f HT Hf Hroom) as (h' & E & HT' & Er & _). fold e in HT'.
    destruct (region_roundtrip h T P s0 e0 f0 K s n 0 HT Hf Hroom) as (h1 & E1 & _ & _ & Er1).
    destruct (find_ok _ _ _ _ _ _ _ _ (tree_ok _ _ HT) Hf) as (_ & _ & _ & HoK).
    pose proof Hroom as [_ [Q HQ]]%(room_target s e s0 e0 K P HoK).
    destruct (settle_target (fresh_id h) s e (Z.lor IORESOURCE_BUSY f) T (tree_nodup _ _ HT) K P s0 e0 f0 Q Hf HQ) as (sQ & eQ & fQ & KQ & HfQ & Eset).
    rewrite Eset in HT'.
    exists (fresh_id h), h', Q, sQ, eQ, fQ, KQ. split; [apply fresh_id_None|]. split; [done|]. split; [done|]. split; [done|]. split; [done|].
    unfold __check_region. run E1. unfold bind in Er1 |- *. destruct (release_resource (fresh_id h) h1) as [[x h2]|]; [|done]. by rewrite Er1.
  - intros Hno. destruct (request_region_eq h T P s0 e0 f0 K s n f HT Hf) as [_ R].
    destruct (request_region_eq h T P s0 e0 f0 K s n 0 HT Hf) as [_ R0].
    split; [by apply R|]. unfold __check_region. by run (R0 Hno).
Qed.

Lemma request_region_correct_witness : exists r h' Q sQ eQ fQ KQ, ports_heap !! r = None /\ __request_region true 1 20 4 0 ports_heap = Some (Some r, h') /\
  find Q ports = Some (sQ, eQ, fQ, KQ) /\ tree h' (set_kids Q (place r 20 23 (Z.lor IORESOURCE_BUSY 0) Nil KQ) ports) /\
  __release_region 1 20 4 h' = Some (true, ports_heap) /\ __check_region true 1 20 4 ports_heap = Some (0, ports_heap).
Proof.
  apply (request_region_correct ports_heap ports 1 0 255 0x100 (Node 2 16 31 0x100 Nil Nil) 20 4 0 ports_tree eq_refl).
  split; [vm_compute; discriminate|]. split; [vm_compute; discriminate|]. split; [vm_compute; discriminate|].
  constructor; [|constructor]. right. right. split; [discriminate|]. split; [vm_compute; discriminate|reflexivity].
Defined.

(** ** Exclusion *)
(** Busy resources have no children. *)
Fixpoint leaf_busy (F : forest) : Prop :=
  match F with Nil => True | Node _ _ _ f kids next => (busy_flag f = true -> kids = Nil) /\ leaf_busy kids /\ leaf_busy next end.
Lemma leaf_settle r s e f K : leaf_busy K -> forall P Q, target s e P K = inl Q -> leaf_busy (settle r s e f K).
Proof.
  induction K as [|r' s' e' f' kids IHk next IHn]; intros HK P Q; cbn [target settle]; [done|]. destruct HK as (Hb & Hk & Hn).
  destruct (e <? s'); [done|].
  destruct (e' <? s); [intros Ht; split_and!; [done|done|by eapply IHn]|]. destruct (busy_flag f') eqn:Eb; [done|].
  destruct (inside s e s' e'); [|done].
  intros Ht. cbn [leaf_busy]. split_and!; [by rewrite Eb|by eapply IHk|done].
Qed.
Lemma leaf_free s e K r K' : leaf_busy K -> free s e K = Some (r, K') -> leaf_busy K'.
Proof.
  revert K'. induction K as [|r' s' e' f' kids IHk next IHn]; intros K'; [done|]. intros (Hb & Hk & Hn). cbn [free].
  repeat case_match; intros; simplify_eq/=; [|done|].
  - destruct (free s e kids) as [[r1 K1]|] eqn:Ef; simplify_eq/=. b2p. split_and!; [congruence|by apply IHk|done].
  - destruct (free s e next) as [[r1 K1]|] eqn:Ef; simplify_eq/=. split_and!; [done|done|by apply IHn].
Qed.
Definition busy_node (x : rid * (Z * Z * Z)) : Prop := busy_flag x.2.2 = true.
Lemma busy_apart lo hi F : ok lo hi F -> leaf_busy F -> NoDup (ids F) -> forall r1 s1 e1 f1 r2 s2 e2 f2,
  (r1, (s1, e1, f1)) ∈ nodes F -> (r2, (s2, e2, f2)) ∈ nodes F -> r1 <> r2 -> busy_flag f1 = true -> busy_flag f2 = true -> e1 < s2 \/ e2 < s1.
Proof.
  revert lo hi. induction F as [|r s e f kids IHk next IHn]; intros lo hi; [set_solver|].
  intros (? & ? & ? & Hk & Hn) (Hb & Lk & Ln) (H1' & H2 & H3 & H4)%nodup_node.
  assert (forall x a b c y a' b' c', (x, (a, b, c)) ∈ (r, (s, e, f)) :: nodes kids -> (y, (a', b', c')) ∈ nodes next -> b < a') as Hout.
  { intros x a b c y a' b' c' [?|Hx]%elem_of_cons Hy; destruct (nodes_range _ _ _ _ _ _ _ Hn Hy); [simplify_eq; lia|].
    destruct (nodes_range _ _ _ _ _ _ _ Hk Hx). lia. }
  intros r1 s1 e1 f1 r2 s2 e2 f2. cbn [nodes]. rewrite app_comm_cons, !elem_of_app. intros [Hi1|Hi1] [Hi2|Hi2] Hne B1 B2.
  - apply elem_of_cons in Hi1 as [E1|Hi1], Hi2 as [E2|Hi2]; simplify_eq; [rewrite Hb in Hi2 by done; set_solver|rewrite Hb in Hi1 by done; set_solver|by eapply IHk].
  - left. by eapply Hout.
  - right. by eapply Hout.
  - by eapply IHn.
Qed.

(** The calls of drivers below [P], in any order, with memory or without. *)
Inductive call := Request (avail : bool) (s n f : Z) | Check (avail : bool) (s n : Z) | Release (s n : Z).
Definition perform (P : rid) (c : call) : RS unit :=
  match c with
  | Request avail s n f => let* _ := __request_region avail P s n f in ret tt
  | Check avail s n => let* _ := __check_region avail P s n in ret tt
  | Release s n => let* _ := __release_region P s n in ret tt
  end.
Inductive reachable (P : rid) (h0 : heap) : heap -> Prop :=
| reach_start : reachable P h0 h0
| reach_call h h' c : reachable P h0 h -> perform P c h = Some (tt, h') -> reachable P h0 h'.
Lemma perform_ok h T P s0 e0 f0 K c : tree h T -> find P T = Some (s0, e0, f0, K) -> leaf_busy K ->
  exists h' K', perform P c h = Some (tt, h') /\ tree h' (set_kids P K' T) /\ leaf_busy K'.
Proof.
  intros HT Hf HL. pose proof (set_kids_id _ _ _ _ _ _ (tree_nodup _ _ HT) Hf) as Eid.
  destruct (find_ok _ _ _ _ _ _ _ _ (tree_ok _ _ HT) Hf) as (_ & _ & _ & HoK).
  assert (forall s n, room s (u32 (s + n - 1)) s0 e0 K \/ ~ room s (u32 (s + n - 1)) s0 e0 K) as Hdec.
  { intros s n. rewrite (room_target _ _ _ _ _ P HoK). destruct (inside _ _ _ _), (target _ _ P K); naive_solver. }
  destruct c as [[] s n f|[] s n|s n]; cbn [perform].
  - destruct (request_region_eq h T P s0 e0 f0 K s n f HT Hf) as [R1 R2]. destruct (Hdec s n) as [Hr|Hr].
    + destruct (R1 Hr) as (h' & E & HT' & _). eexists _, _. split; [by run E|]. split; [done|].
      apply (room_target _ _ _ _ _ P HoK) in Hr as [_ [Q HQ]]. by eapply leaf_settle.
    + exists h, K. split; [by run (R2 Hr)|]. by rewrite Eid.
  - exists h, K. by rewrite Eid.
  - destruct (Hdec s n) as [Hr|Hr].
    + destruct (region_roundtrip h T P s0 e0 f0 K s n 0 HT Hf Hr) as (h1 & E1 & _ & _ & Er1). exists h, K. rewrite Eid. split; [|done].
      unfold __check_region. rewrite bind_assoc. run E1. unfold bind in Er1 |- *. destruct (release_resource (fresh_id h) h1) as [[x h2]|]; [|done].
      by rewrite Er1.
    + exists h, K. rewrite Eid. split; [|done]. destruct (request_region_eq h T P s0 e0 f0 K s n 0 HT Hf) as [_ R0]. unfold __check_region.
      rewrite bind_assoc. by run (R0 Hr).
  - exists h, K. by rewrite Eid.
  - pose proof (release_region_eq h T P s0 e0 f0 K s n HT Hf) as R. cbv zeta in R. destruct (free s _ K) as [[r K']|] eqn:Ef.
    + destruct R as (h' & E & HT' & _). exists h', K'. split; [by run E|]. split; [done|]. by eapply leaf_free.
    + exists h, K. split; [by run R|]. by rewrite Eid.
Qed.

(** C21. Whatever sequence of requests, checks and releases is made below a resource whose
    busy descendants have no children, no call ever faults, the tree stays ordered and
    nested with everything outside of the resource as it was, and no two busy regions
    below it overlap. *)
Theorem regions_exclusive (h0 : heap) (T : forest) (P : rid) (s0 e0 f0 : Z) (K : forest) (h : heap)
    (HT : tree h0 T) (Hf : find P T = Some (s0, e0, f0, K)) (Hleaf : leaf_busy K) (Hreach : reachable P h0 h) :
  (forall c, is_Some (perform P c h)) /\
  exists K', tree h (set_kids P K' T) /\ forall r1 s1 e1 f1 r2 s2 e2 f2, (r1, (s1, e1, f1)) ∈ nodes K' -> (r2, (s2, e2, f2)) ∈ nodes K' -> r1 <> r2 ->
    busy_flag f1 = true -> busy_flag f2 = true -> e1 < s2 \/ e2 < s1.
Proof.
  assert (exists K', tree h (set_kids P K' T) /\ leaf_busy K') as (K' & HT' & HL').
  { induction Hreach as [|h h' c _ (K1 & HT1 & HL1) Hc].
    - exists K. by rewrite (set_kids_id _ _ _ _ _ _ (tree_nodup _ _ HT) Hf).
    - pose proof (find_set_kids _ _ _ _ _ K1 _ Hf (tree_nodup _ _ HT)) as Hf1.
      destruct (perform_ok h _ P s0 e0 f0 K1 c HT1 Hf1 HL1) as (h2 & K2 & E & HT2 & HL2).
      rewrite Hc in E. simplify_eq. rewrite set_kids_set_kids in HT2. eauto. }
  pose proof (find_set_kids _ _ _ _ _ K' _ Hf (tree_nodup _ _ HT)) as Hf'. split.
  - intros c. destruct (perform_ok h _ P s0 e0 f0 K' c HT' Hf' HL') as (h2 & K2 & E & _). rewrite E. eauto.
  - exists K'. split; [done|]. destruct (find_ok _ _ _ _ _ _ _ _ (tree_ok _ _ HT') Hf') as (_ & _ & _ & HoK).
    destruct (find_nodup _ _ _ _ _ _ (tree_nodup _ _ HT') Hf') as [HdK _].
    by eapply busy_apart.
Qed.
Lemma regions_exclusive_witness : exists h K', reachable 1 ports_heap h /\ tree h (set_kids 1 K' ports).
Proof.
  assert (exists h, perform 1 (Request true 20 4 0) ports_heap = Some (tt, h)) as [h Hh] by (eexists; vm_compute; reflexivity).
  pose proof (reach_call _ _ _ _ _ (reach_start 1 ports_heap) Hh) as Hr. exists h.
  destruct (regions_exclusive ports_heap ports 1 0 255 0x100 (Node 2 16 31 0x100 Nil Nil) h ports_tree eq_refl) as [_ (K' & HT & _)]; [|exact Hr|exists K'; split; [exact Hr|exact HT]].
  split; [discriminate|split; exact I].
Defined.

(** ** Walks *)
(** Climbing from [x] ends, after [n] rounds, at a resource with the sibling [k]. *)
Inductive climbs (h : heap) : nat -> rid -> option rid -> Prop :=
| climbs_stop x n : h !! x = Some n -> sibling n <> None \/ parent n = None -> climbs h 0 x (sibling n)
| climbs_up x n q m k : h !! x = Some n -> sibling n = None -> parent n = Some q -> climbs h m q k -> climbs h (S m) x k.
Lemma climbs_run h m x k : climbs h m x k -> forall fuel, (m < fuel)%nat -> (let* p := while fuel climb_round x in let* n := getr p in ret (sibling n)) h = Some (k, h).
Proof.
  induction 1 as [x n Hx Hs|x n q m k Hx Hs Hp Hc IH]; intros [|fuel] Hf; try lia; rewrite while_S, bind_assoc.
  - assert (climb_round x h = Some (inr x, h)) as E. { unfold climb_round. run (getr_run h x n Hx). destruct (sibling n), (parent n); try done.
    by destruct Hs. }
    run E. run_ret. by run (getr_run h x n Hx).
  - assert (climb_round x h = Some (inl q, h)) as E. { unfold climb_round. run (getr_run h x n Hx). by rewrite Hs, Hp. }
    run E. apply IH. lia.
Qed.
Lemma r_next_leaf h m x n k : h !! x = Some n -> child n = None -> climbs h m x k -> (m <= size h)%nat -> r_next x h = Some (k, h).
Proof. intros Hx Hc Hm Hs. unfold r_next. run (getr_run h x n Hx). rewrite Hc. unfold walk. apply (climbs_run h m x k Hm). lia. Qed.
(** Leaving the first of some siblings. *)
Lemma climbs_first h par r s e f kids next q m k : rep h par (Node r s e f kids next) -> par = Some q -> climbs h m q k ->
  exists m', climbs h m' r (match head next with Some y => Some y | None => k end) /\ (m' <= S m)%nat.
Proof.
  intros (Hr & _) -> Hc. destruct next as [|y s' e' f' kids' next']; cbn [head] in *.
  - exists (S m). split; [|lia]. by eapply climbs_up.
  - exists 0%nat. split; [|lia]. eapply (climbs_stop h r _ Hr). by left.
Qed.
Lemma r_next_order h F : forall q m k, rep h (Some q) F -> climbs h m q k -> (m + length (ids F) <= size h)%nat ->
  forall l1 x l2, ids F = l1 ++ x :: l2 -> r_next x h = Some (match l2 with y :: _ => Some y | [] => k end, h).
Proof.
  induction F as [|r s e f kids IHk next IHn]; intros q m k HF Hc Hs l1 x l2 E; [by destruct l1|]. pose proof HF as (Hr & Hk & Hn).
  destruct (climbs_first h _ _ _ _ _ _ _ q m k HF eq_refl Hc) as (m' & Hc' & Hm'). cbn [ids length] in Hs, E. rewrite length_app in Hs.
  assert (match ids next with y :: _ => Some y | [] => k end = match head next with Some y => Some y | None => k end) as En by (by destruct next).
  destruct l1 as [|r' l1]; cbn in E; injection E as <- E.
  - subst l2. destruct kids as [|c sc ec fc kc nc]; [|unfold r_next; by run (getr_run h r _ Hr)]. cbn [ids app] in *. rewrite En.
    by eapply (r_next_leaf h m'); [exact Hr| | |lia].
  - destruct (app_eq_inv _ _ _ _ E) as [(l & E1 & E2)|(l & E1 & E2)].
    + destruct l as [|x' l]; cbn in E2.
      * rewrite app_nil_r in E1. eapply (IHn q m k Hn Hc ltac:(lia) []). by rewrite E2.
      * injection E2 as <- E2. rewrite (IHk r m' _ Hk Hc' ltac:(lia) l1 x l E1). subst l2. destruct l; cbn [app]; [by rewrite En|done].
    + eapply (IHn q m k Hn Hc ltac:(lia) l). exact E2.
Qed.

(** A loop over the tree that asks [d] of every resource and stops at the first answer. *)
Fixpoint ask (d : Z * Z * Z -> option Z) (l : list (rid * (Z * Z * Z))) : Z :=
  match l with [] => 0 | x :: l => match d x.2 with Some z => z | None => ask d l end end.
Lemma rep_nodes h par F r s e f : rep h par F -> (r, (s, e, f)) ∈ nodes F -> exists p q c, h !! r = Some (Resource s e f p q c).
Proof.
  revert par. induction F as [|r' s' e' f' kids IHk next IHn]; intros par; cbn [nodes rep]; [set_solver|]. intros (Hr & Hk & Hn).
  intros [?|[Hx|Hx]%elem_of_app]%elem_of_cons; [simplify_eq; eauto|by eapply IHk|by eapply IHn].
Qed.
Lemma walk_nodes h root s0 e0 f0 K (round : option rid -> RS (option rid + Z)) d : rep h None (Node root s0 e0 f0 K Nil) -> NoDup (ids (Node root s0 e0 f0 K Nil)) ->
  round None h = Some (inr 0, h) ->
  (forall r s e f p q c, h !! r = Some (Resource s e f p q c) ->
     round (Some r) h = match d (s, e, f) with Some z => Some (inr z, h) | None => (let* q := r_next r in ret (inl q)) h end) ->
  walk round (head K) h = Some (ask d (nodes K), h).
Proof.
  intros HT Hd H0 Hround. pose proof (rep_length _ _ _ HT Hd) as Hs. destruct HT as (Hr & HK & _). cbn [ids length] in Hs. rewrite length_app in Hs.
  assert (climbs h 0 root None) as Hc by (apply (climbs_stop h root _ Hr); by right).
  pose proof (r_next_order h K root 0 None HK Hc ltac:(lia)) as Hnext. rewrite <- nodes_ids in Hnext.
  assert (forall l2 l1 fuel, nodes K = l1 ++ l2 -> (length l2 < fuel)%nat -> while fuel round (fst <$> hd_error l2) h = Some (ask d l2, h)) as Hw.
  { induction l2 as [|[r [[s e] f]] l2 IH]; intros l1 [|fuel] El Hf; cbn [length] in Hf; try lia; rewrite while_S; cbn [hd_error fmap option_fmap option_map fst ask snd].
    - by run H0.
    - assert ((r, (s, e, f)) ∈ nodes K) as Hin by (rewrite El; set_solver). destruct (rep_nodes _ _ _ _ _ _ _ HK Hin) as (p & q & c & Hn).
      pose proof (Hround _ _ _ _ _ _ _ Hn) as R.
      destruct (d (s, e, f)) as [z|]; [by run R|]. specialize (Hnext (l1.*1) r (l2.*1)). rewrite El, fmap_app in Hnext.
      rewrite (bind_cong _ _ _ h h R). rewrite bind_assoc. run (Hnext eq_refl). run_ret.
      rewrite <- (IH (l1 ++ [(r, (s, e, f))]) fuel); [|by rewrite <- app_assoc|lia]. by destruct l2. }
  unfold walk. pose proof (Hw (nodes K) [] (2 + size h)%nat eq_refl) as W. rewrite <- nodes_ids, length_fmap in Hs. rewrite <- W by lia. f_equal.
  by destruct K.
Qed.

Lemma nodes_sorted lo hi F : ok lo hi F -> StronglySorted (fun x y => x.2.1.1 <= y.2.1.1) (nodes F).
Proof.
  revert lo hi. induction F as [|r s e f kids IHk next IHn]; intros lo hi; cbn [nodes ok]; [constructor|]. intros (? & ? & ? & Hk & Hn).
  assert (forall lo hi F x, ok lo hi F -> x ∈ nodes F -> lo <= x.2.1.1 /\ x.2.1.1 <= hi) as Hr.
  { intros l u G [y [[a b] c]] HG Hx. cbn. destruct (nodes_range _ _ _ _ _ _ _ HG Hx). lia. }
  constructor; [apply StronglySorted_app; split_and!; [|by eapply IHk|by eapply IHn]|apply list.Forall_forall].
  - intros x y Hx Hy. destruct (Hr _ _ _ _ Hk Hx), (Hr _ _ _ _ Hn Hy). lia.
  - intros x [Hx|Hx]%elem_of_app; [destruct (Hr _ _ _ _ Hk Hx)|destruct (Hr _ _ _ _ Hn Hx)]; cbn; lia.
Qed.
(** The first resource that starts at a bound or behind it ends the search. *)
Definition exclusive_in (page : Z) (x : rid * (Z * Z * Z)) : Prop :=
  let '(_, (s, e, f)) := x in s < page + PAGE_SIZE /\ page <= e /\ busy_flag f = true /\ has f IORESOURCE_EXCLUSIVE = true.
#[global] Instance exclusive_in_dec page x : Decision (exclusive_in page x).
Proof. destruct x as [r [[s e] f]]. cbn. apply _. Defined.
Definition ask_exclusive (page : Z) : Z * Z * Z -> option Z := fun '(s, e, f) =>
  if page + PAGE_SIZE <=? s then Some 0 else if negb (e <? page) && (busy_flag f && has f IORESOURCE_EXCLUSIVE) then Some 1 else None.
Lemma ask_exclusive_eq page l : StronglySorted (fun x y => x.2.1.1 <= y.2.1.1) l ->
  ask (ask_exclusive page) l = if decide (Exists (exclusive_in page) l) then 1 else 0.
Proof.
  induction 1 as [|[r [[s e] f]] l Hl IH Hx]; [by rewrite decide_False by (by intros ?%Exists_nil)|]. cbn [ask snd ask_exclusive].
  destruct (Z.leb_spec (page + PAGE_SIZE) s).
  - rewrite decide_False; [done|]. rewrite Exists_cons. intros [(Hs & _)|[[y [[a b] c]] [Hy (Hs & _)]]%Exists_exists]; [lia|].
    rewrite list.Forall_forall in Hx. apply Hx in Hy. cbn in Hy. lia.
  - destruct (negb (e <? page) && (busy_flag f && has f IORESOURCE_EXCLUSIVE)) eqn:E.
    + rewrite decide_True; [done|]. apply Exists_cons_hd. b2p. cbn. split_and!; try done; lia.
    + rewrite IH. apply decide_ext. rewrite Exists_cons. split; [by right|]. intros [(Hs & Hp & B & X)|]; [|done].
      rewrite B, X, (proj2 (Z.ltb_ge _ _)) in E by lia. done.
Qed.
(** What the mapping of a range overlaps in part without its being busy. *)
Definition partial (addr size : Z) (x : rid * (Z * Z * Z)) : Prop :=
  let '(_, (s, e, f)) := x in s < addr + size /\ addr <= e /\ busy_flag f = false /\
    ~ (PFN_DOWN s <= PFN_DOWN addr /\ PFN_DOWN (addr + size - 1) <= PFN_DOWN e).
#[global] Instance partial_dec addr size x : Decision (partial addr size x).
Proof. destruct x as [r [[s e] f]]. cbn. apply _. Defined.
Definition ask_partial (addr size : Z) : Z * Z * Z -> option Z := fun '(s, e, f) =>
  if (u32 (addr + size) <=? s) || (e <? addr) || ((PFN_DOWN s <=? PFN_DOWN addr) && (PFN_DOWN (u32 (addr + size - 1)) <=? PFN_DOWN e)) || busy_flag f then None else Some (-1).
Lemma ask_partial_eq addr size l : 0 <= addr -> 1 <= size -> addr + size < 2 ^ 32 -> ask (ask_partial addr size) l = if decide (Exists (partial addr size) l) then -1 else 0.
Proof.
  intros H0 H1 H2. induction l as [|[r [[s e] f]] l IH]; [by rewrite decide_False by (by intros ?%Exists_nil)|]. cbn [ask snd ask_partial].
  rewrite !u32_id by lia.
  destruct ((addr + size <=? s) || (e <? addr) || _ || _) eqn:E.
  - rewrite IH. apply decide_ext. rewrite Exists_cons. split; [by right|]. intros [(Hs & Hp & B & X)|]; [|done]. exfalso. apply X.
    rewrite B, (proj2 (Z.leb_gt _ _)), (proj2 (Z.ltb_ge _ _)) in E by lia.
    rewrite orb_false_r in E. cbn [orb] in E. by b2p.
  - rewrite decide_True; [done|]. apply Exists_cons_hd. b2p. cbn. split_and!; try done; try lia.
Qed.

(** The two checks of memory mappings visit every resource of the tree in the order
    of [r_next] and answer for all of them: [iomem_is_exclusive] returns 1 exactly when a
    busy and exclusive resource overlaps the page, although it stops at the first
    resource behind it, and [iomem_map_sanity_check] returns -1 exactly when a resource
    that is not busy overlaps the range without containing it up to whole pages. *)
Theorem iomem_checks_correct (h : heap) (root : rid) (s0 e0 f0 : Z) (K : forest) (HT : tree h (Node root s0 e0 f0 K Nil)) :
  (forall addr, 0 <= addr -> iomem_is_exclusive false root addr h = Some (0, h) /\
     iomem_is_exclusive true root addr h =
       Some (if decide (Exists (exclusive_in (Z.land addr 0xfffff000)) (nodes K)) then 1 else 0, h)) /\
  (forall addr size, 0 <= addr -> 1 <= size -> addr + size < 2 ^ 32 ->
     iomem_map_sanity_check root addr size h = Some (if decide (Exists (partial addr size) (nodes K)) then -1 else 0, h)).
Proof.
  destruct HT as [HT Hd Hok]. pose proof HT as (Hr & _ & _). destruct Hok as (_ & _ & _ & HoK & _). split.
  - intros addr Ha. split; [done|]. unfold iomem_is_exclusive. cbn [negb]. change (not32 (PAGE_SIZE - 1)) with 0xfffff000.
    set (page := Z.land addr 0xfffff000).
    assert (0 <= page < 2 ^ 32) as Hp. { unfold page. rewrite Z.land_comm. apply (uint_land 32); [lia| |lia]. unfold uint. lia. }
    run (getr_run h root _ Hr). cbn [child]. rewrite (walk_nodes h root s0 e0 f0 K (exclusive_round page) (ask_exclusive page) HT Hd); [|done|].
    + by rewrite (ask_exclusive_eq page _ (nodes_sorted _ _ _ HoK)).
    + intros r s e f p q c Hn. unfold exclusive_round. run (getr_run h r _ Hn). cbn [start end_ flags ask_exclusive]. unfold busy. cbn [flags].
      fold (busy_flag f).
      rewrite u64_id by (unfold PAGE_SIZE; lia). destruct (_ <=? s); [done|]. by destruct (_ && _).
  - intros addr size H0 H1 H2. unfold iomem_map_sanity_check. run (getr_run h root _ Hr). cbn [child].
    rewrite (walk_nodes h root s0 e0 f0 K (sanity_round addr size) (ask_partial addr size) HT Hd); [by rewrite ask_partial_eq|done|].
    intros r s e f p q c Hn. unfold sanity_round. run (getr_run h r _ Hn). cbn [start end_ flags ask_partial]. unfold busy. cbn [flags].
    fold (busy_flag f). by destruct (_ || _).
Qed.
Lemma iomem_checks_correct_witness : iomem_map_sanity_check 1 24 16 ports_heap =
  Some (if decide (Exists (partial 24 16) (nodes (Node 2 16 31 0x100 Nil Nil))) then -1 else 0, ports_heap).
Proof. apply (proj2 (iomem_checks_correct ports_heap 1 0 255 0x100 (Node 2 16 31 0x100 Nil Nil) ports_tree) 24 16); [discriminate|discriminate|reflexivity]. Defined.
(** A mapping that reaches the end of the address space is never refused. *)
Lemma sanity_check_wraps : let h := <[1%positive := Resource 0 0xffffffff 0x200 None None (Some 2%positive)]>
    (<[2%positive := Resource 0xff000000 0xff0fffff 0x200 (Some 1%positive) None None]> ports_heap) in
  iomem_map_sanity_check 1 0xff080000 0xf80000 h = Some (0, h) /\ iomem_map_sanity_check 1 0xff080000 0xf7ffff h = Some (-1, h).
Proof. vm_compute. auto. Qed.

(** ** Reserving around others *)
Lemma target_inr s e K : s <= e -> forall P c, target s e P K = inr c -> exists sc ec fc, (c, (sc, ec, fc)) ∈ nodes K /\ sc <= e /\ s <= ec /\ (busy_flag fc = true \/ ~ (sc <= s /\ e <= ec)).
Proof.
  intros Hse. induction K as [|r s' e' f' kids IHk next IHn]; intros P c; [done|]. cbn [target nodes]. destruct (Z.ltb_spec e s'); [done|].
  destruct (Z.ltb_spec e' s); [intros Ht; destruct (IHn _ _ Ht) as (sc & ec & fc & Hc & ?); exists sc, ec, fc; split; [set_solver|done]|].
  destruct (busy_flag f') eqn:Eb; [intros [=<-]; exists s', e', f'; split; [set_solver|auto]|]. destruct (inside s e s' e') eqn:Ei.
  - intros Ht. destruct (IHk _ _ Ht) as (sc & ec & fc & Hc & ?). exists sc, ec, fc. split; [set_solver|done].
  - intros [=<-]. exists s', e', f'. split; [set_solver|]. split; [lia|]. split; [lia|]. right. intros [X1 X2]. unfold inside in Ei.
    rewrite !(proj2 (Z.leb_le _ _)) in Ei by lia. done.
Qed.
Lemma nodes_settle r s e f K : nodes (settle r s e f K) ≡ₚ (r, (s, e, f)) :: nodes K.
Proof.
  induction K as [|r' s' e' f' kids IHk next IHn]; [done|]. cbn [settle nodes].
  repeat case_match; cbn [nodes]; [done|rewrite IHn, <- Permutation_middle; apply perm_swap|rewrite IHk; cbn [app]; apply perm_swap].
Qed.
(** What has been reserved: the resources that were there are kept, the others are busy
    and inside the range. *)
Definition reserved (s e : Z) (K K' : forest) : Prop := (forall y, y ∈ nodes K -> y ∈ nodes K') /\
  forall r s' e' f', (r, (s', e', f')) ∈ nodes K' -> (r, (s', e', f')) ∈ nodes K \/ (busy_flag f' = true /\ s <= s' /\ e' <= e).
Lemma reserved_trans s1 e1 s2 e2 s e K K1 K2 : reserved s1 e1 K K1 -> reserved s2 e2 K1 K2 -> s <= s1 -> e1 <= e -> s <= s2 -> e2 <= e -> reserved s e K K2.
Proof.
  intros [A1 A2] [B1 B2] ? ? ? ?. split; [auto|]. intros r s' e' f' Hr. destruct (B2 _ _ _ _ Hr) as [Hr'|(? & ? & ?)]; [|right; split; [done|lia]].
  destruct (A2 _ _ _ _ Hr') as [|(? & ? & ?)]; [by left|right; split; [done|lia]].
Qed.
Lemma reserve_ok T root s0 e0 f0 fuel : forall h K s e mem, tree h T -> find root T = Some (s0, e0, f0, K) -> inside s e s0 e0 = true -> e - s < Z.of_nat fuel ->
  exists mem' h' K', __reserve_region_with_split fuel root s e mem h = Some (mem', h') /\ tree h' (set_kids root K' T) /\ reserved s e K K'.
Proof.
  intros h K s e mem HT. revert T h K s e mem HT. induction fuel as [|fuel IH]; intros T h K s e mem HT Hf Hi Hfu; [unfold inside in Hi; b2p; lia|].
  cbn [__reserve_region_with_split].
  pose proof (set_kids_id _ _ _ _ _ _ (tree_nodup _ _ HT) Hf) as Eid. destruct (default false (hd_error mem)) eqn:Em.
  2: { exists (tail mem), h, K. rewrite Eid. split; [done|]. split; [done|]. split; [done|by left]. }
  set (r := fresh_id h). assert (kzalloc true h = Some (Some r, <[r := Resource 0 0 0 None None None]> h)) as E by done. run E.
  do 3 (erewrite bind_Some by apply modr_insert).
  destruct (prepared_tree h T s e IORESOURCE_BUSY HT) as [HT' Hn]. change (<[r := _]> h) with (prepared h s e IORESOURCE_BUSY).
  set (h1 := prepared h s e IORESOURCE_BUSY) in *.
  destruct (find_ok _ _ _ _ _ _ _ _ (tree_ok _ _ HT) Hf) as (_ & _ & O3 & HoK). pose proof (find_ok _ _ _ _ _ _ _ _ (tree_ok _ _ HT) Hf) as (O1 & _).
  destruct (find_rep _ _ _ _ _ _ _ _ (tree_rep _ _ HT') Hf) as (p0 & q0 & _ & HK).
  destruct (find_nodup _ _ _ _ _ _ (tree_nodup _ _ HT) Hf) as [HdK _]. pose proof (rep_length _ _ _ HK HdK) as Hsz. pose proof Hi as Hi'.
  unfold inside in Hi'. b2p.
  pose proof (region_walk h1 T r s e IORESOURCE_BUSY HT' Hn root s0 e0 f0 K (2 + size h1) Hf Hi ltac:(lia)) as W.
  destruct (target s e root K) as [Q|c] eqn:Et.
  { destruct W as (h' & E' & HTh' & _). assert (walk (region_round r) root h1 = Some (None, h')) as Ew by exact E'. run Ew. eexists _, _, _.
    split; [done|]. split; [exact HTh'|]. split.
    - intros y Hy. rewrite nodes_settle. set_solver.
    - intros x s' e' f' Hx. rewrite nodes_settle in Hx. apply elem_of_cons in Hx as [?|Hx]; [|by left]. simplify_eq. right. split; [done|lia]. }
  assert (walk (region_round r) root h1 = Some (Some c, h1)) as Ew by exact W. run Ew. assert (kfree r h1 = Some (tt, h)) as Ek.
  { unfold kfree, h1, prepared. by rewrite delete_insert_id by apply fresh_id_None. }
  run Ek. destruct (target_inr s e K ltac:(lia) _ _ Et) as (sc & ec & fc & Hc & C1 & C2 & C3).
  destruct (nodes_range _ _ _ _ _ _ _ HoK Hc) as (N1 & N2 & N3). clear Ew W HK Hsz Ek h1 HT' Hn.
  assert (forall h' K', tree h' (set_kids root K' T) -> (forall y, y ∈ nodes K -> y ∈ nodes K') -> exists p q k, h' !! c = Some (Resource sc ec fc p q k)) as Hcin.
  { intros h' K' HTh Hsub. pose proof (find_set_kids _ _ _ _ _ K' _ Hf (tree_nodup _ _ HT)) as Hf'.
    destruct (find_rep _ _ _ _ _ _ _ _ (tree_rep _ _ HTh) Hf') as (? & ? & _ & HK'). by eapply rep_nodes; [exact HK'|apply Hsub]. }
  destruct (Hcin h K ltac:(by rewrite Eid) ltac:(done)) as (pc & qc & kc & Hhc). run (getr_run h c _ Hhc). cbn [start end_].
  destruct ((sc <=? s) && (e <=? ec)) eqn:Ecov; [exists (tail mem), h, K; rewrite Eid; split; [done|]; split; [done|]; split; [done|by left]|].
  assert (~ (sc <= s /\ e <= ec)) as Hnc by (b2p; lia). clear C3 Ecov.
  assert (forall (b : bool) h' K1 a z m, tree h' (set_kids root K1 T) -> reserved s e K K1 -> (b = true -> inside a z s0 e0 = true /\ z - a < Z.of_nat fuel /\ s <= a /\ z <= e) ->
    exists m' h2 K2, (if b then __reserve_region_with_split fuel root a z m else ret m) h' = Some (m', h2) /\ tree h2 (set_kids root K2 T) /\ reserved s e K K2) as Hpart.
  { intros [] h' K1 a z m HT1 HR1 Hb; [|by exists m, h', K1]. destruct (Hb eq_refl) as (B1 & B2 & B3 & B4).
    pose proof (find_set_kids _ _ _ _ _ K1 _ Hf (tree_nodup _ _ HT)) as Hf1.
    destruct (IH _ h' K1 a z m HT1 Hf1 B1 B2) as (m' & h2 & K2 & E2 & HT2 & HR2). rewrite set_kids_set_kids in HT2. exists m', h2, K2. split; [done|].
    split; [done|].
    by eapply (reserved_trans s e a z); [exact HR1|exact HR2|lia..]. }
  assert (forall a z, a <= z -> s0 <= a -> z <= e0 -> inside a z s0 e0 = true) as Hin by (intros a z ? ? ?; unfold inside; rewrite !(proj2 (Z.leb_le _ _)) by lia; done).
  destruct (Hpart (s <? sc) h K s (u32 (sc - 1)) (tail mem) ltac:(by rewrite Eid) ltac:(split; [done|by left])) as (m1 & h2 & K2 & E2 & HT2 & HR2).
  { intros Hlt. b2p. rewrite u32_id by lia. split; [apply Hin; lia|lia]. }
  run E2. destruct (Hcin h2 K2 HT2 (proj1 HR2)) as (p2 & q2 & k2 & Hh2). run (getr_run h2 c _ Hh2). cbn [start end_ busy flags]. 
  destruct (Hpart (negb (busy_flag fc) && (Z.max sc s <? Z.min ec e)) h2 K2 (Z.max sc s) (Z.min ec e) m1 HT2 HR2) as (m3 & h3 & K3 & E3 & HT3 & HR3).
  { intros Hlt. b2p. split; [apply Hin; lia|lia]. }
  assert ((if negb (busy_flag fc) then if Z.max sc s <? Z.min ec e then __reserve_region_with_split fuel root (Z.max sc s) (Z.min ec e) m1 else ret m1 else ret m1) h2 = Some (m3, h3)) as E3'.
  { rewrite <- E3. by destruct (negb (busy_flag fc)). }
  run E3'. destruct (Hcin h3 K3 HT3 (proj1 HR3)) as (p3 & q3 & k3 & Hh3). run (getr_run h3 c _ Hh3). cbn [start end_].
  apply (Hpart (ec <? e) h3 K3 (u32 (ec + 1)) e m3 HT3 HR3).
  intros Hlt. b2p. rewrite u32_id by lia. split; [apply Hin; lia|lia].
Qed.

(** C22. For a range inside that of the root, [__reserve_region_with_split] recurs no deeper
    than the range has addresses, faults nowhere, whether allocations succeed or not, and
    keeps the tree ordered and nested; it keeps all resources that were there, and what it
    adds is busy and inside the range. *)
Theorem reserve_region_with_split_correct (h : heap) (T : forest) (root : rid) (s0 e0 f0 : Z) (K : forest) (s e : Z) (mem : list bool) (fuel : nat)
    (HT : tree h T) (Hf : find root T = Some (s0, e0, f0, K)) (Hs : s0 <= s) (Hse : s <= e) (He : e <= e0) (Hfuel : e - s < Z.of_nat fuel) :
  exists mem' h' K', __reserve_region_with_split fuel root s e mem h = Some (mem', h') /\ tree h' (set_kids root K' T) /\ reserved s e K K'.
Proof. apply (reserve_ok T root s0 e0 f0 fuel); [done|done| |done]. unfold inside. rewrite !(proj2 (Z.leb_le _ _)) by lia. done. Qed.
Lemma reserve_region_with_split_correct_witness : exists mem' h' K', __reserve_region_with_split 20 1 8 24 (replicate 5 true) ports_heap = Some (mem', h') /\
  tree h' (set_kids 1 K' ports) /\ reserved 8 24 (Node 2 16 31 0x100 Nil Nil) K'.
Proof. apply (reserve_region_with_split_correct ports_heap ports 1 0 255 0x100 _ 8 24 _ 20 ports_tree eq_refl); try discriminate; reflexivity. Defined.
(** A single address in common with a resource that is not busy is left out: nothing but
    the bus holds address 16 afterwards. *)
Lemma reserve_skips_single : exists mem' h' n, __reserve_region_with_split 20 1 10 16 (replicate 5 true) ports_heap = Some (mem', h') /\
  h' !! 2%positive = Some n /\ child n = None /\ forall x n', h' !! x = Some n' -> busy n' = true -> end_ n' < 16.
Proof.
  eexists _, _, _. split; [vm_compute; reflexivity|]. split; [vm_compute; reflexivity|]. split; [done|].
  assert (map_Forall (fun _ n' => busy n' = true -> end_ n' < 16) (<[3%positive := Resource 10 15 IORESOURCE_BUSY (Some 1%positive) (Some 2%positive) None]> (<[1%positive := Resource 0 255 0x100 None None (Some 3%positive)]> ports_heap))) as H.
  { apply (bool_decide_unpack _). vm_compute. done. }
  exact H.
Qed.
(** A range that begins before that of the root makes the recursion endless. *)
Lemma reserve_endless fuel : __reserve_region_with_split fuel 2 0 15 (replicate fuel true) ports_heap = None.
Proof.
  induction fuel as [|fuel IH]; [done|]. cbn [__reserve_region_with_split replicate hd_error default tail]. set (r := fresh_id ports_heap).
  assert (kzalloc true ports_heap = Some (Some r, <[r := Resource 0 0 0 None None None]> ports_heap)) as E by done. run E.
  do 3 (erewrite bind_Some by apply modr_insert).
  destruct (prepared_tree ports_heap ports 0 15 IORESOURCE_BUSY ports_tree) as [HT Hn].
  change (<[r := _]> ports_heap) with (prepared ports_heap 0 15 IORESOURCE_BUSY).
  run (region_outside _ ports 2 16 31 0x100 Nil r 0 15 IORESOURCE_BUSY HT eq_refl Hn eq_refl).
  assert (kfree r (prepared ports_heap 0 15 IORESOURCE_BUSY) = Some (tt, ports_heap)) as Ek. { unfold kfree, prepared.
  by rewrite delete_insert_id by apply fresh_id_None. }
  run Ek. assert (ports_heap !! 2%positive = Some (Resource 16 31 0x100 (Some 1%positive) None None)) as H2 by done. run (getr_run ports_heap 2 _ H2).
  cbn [start end_]. change (0 <? 16) with true.
  change (u32 (16 - 1)) with 15. cbn [Z.leb Z.compare andb]. unfold bind. by rewrite IH.
Qed.
