(* ===== verification/ResAlloc.v ===== *)
(** * Changing and allocating resources

    The theorems about [adjust_resource], [find_resource] and [allocate_resource] of
    [kernel/resource.c], whose definitions are in [Resource]. *)

From Stdlib Require Import ZArith Lia.
From stdpp Require Import base tactics numbers list gmap option.
From S2P Require Import Prelude Resource.

(** ** Changing a range *)
(** One of the siblings with another range. *)
Fixpoint resize (r : rid) (a b : Z) (K : forest) : forest :=
  match K with
  | Nil => Nil
  | Node r' s e f kids next => if decide (r' = r) then Node r a b f kids next else Node r' s e f kids (resize r a b next)
  end.
(** The sibling before [r], with its end. *)
Fixpoint prev (r : rid) (K : forest) : option (rid * Z) :=
  match K with
  | Nil => None
  | Node r' _ e _ _ next => if decide (head next = Some r) then Some (r', e) else prev r next
  end.
Fixpoint rest (r : rid) (K : forest) : forest :=
  match K with Nil => Nil | Node r' _ _ _ _ next => if decide (r' = r) then next else rest r next end.
Definition first_start (K : forest) : option Z := match K with Nil => None | Node _ s _ _ _ _ => Some s end.

Lemma ok_rest lo hi r K : ok lo hi K -> forall s e f kids, find r K = Some (s, e, f, kids) -> r ∈ tops K -> NoDup (ids K) -> ok (e + 1) hi (rest r K).
Proof.
  revert lo. induction K as [|r' s' e' f' kids' _ next IHn]; intros lo; [set_solver|]. intros (? & ? & ? & Hk & Hn) s e f kids. cbn [find rest tops].
  case_decide as E; [by intros; simplify_eq|].
  intros Hf Ht (H1' & H2 & H3 & H4)%nodup_node. assert (r ∈ tops next) as Ht' by set_solver.
  rewrite find_None in Hf by (intros Hc; eapply H3; [exact Hc|by apply tops_ids]). by eapply IHn.
Qed.
Lemma ok_from lo lo' hi K : ok lo hi K -> ok lo' hi K <-> match first_start K with Some s => lo' <= s | None => True end.
Proof. destruct K; cbn; [done|]. tauto. Qed.
Lemma ok_inside lo hi a b K : ok lo hi K -> ok a b K <-> Forall (fun x => a <= x.1 /\ x.2 <= b) (ranges K).
Proof.
  revert lo a. induction K as [|r s e f kids _ next IHn]; intros lo a; cbn [ok ranges]; [done|]. intros (? & ? & ? & Hk & Hn).
  rewrite Forall_cons_iff. cbn [fst snd]. rewrite (IHn _ (e + 1) Hn).
  rewrite !list.Forall_forall. pose proof (fun x => ranges_above _ _ _ x Hn) as Hr. split.
  - intros (? & ? & ? & ? & H'). split; [lia|]. intros x Hx. specialize (H' x Hx). lia.
  - intros ((? & ?) & H'). split_and!; try lia; [done|]. intros x Hx. specialize (H' x Hx). specialize (Hr x Hx). lia.
Qed.
Lemma prev_out r K : r ∉ tops K -> prev r K = None.
Proof.
  induction K as [|x s e f kids _ next IH]; [done|]. cbn [prev tops]. intros Hr. rewrite decide_False; [apply IH; set_solver|].
  destruct next; [done|]. cbn [head tops] in *. set_solver.
Qed.
Lemma prev_head r K : NoDup (ids K) -> head K = Some r -> prev r K = None.
Proof.
  destruct K as [|x s e f kids next]; [done|]. intros (H & _)%nodup_node [=->]. assert (r ∉ tops next) as Hr by (intros ?%tops_ids; ids). cbn [prev].
  rewrite decide_False by (destruct next; [done|]; cbn in *; set_solver). by apply prev_out.
Qed.
Lemma prev_some r K : r ∈ tops K -> head K <> Some r -> is_Some (prev r K).
Proof. induction K as [|x s e f kids _ next IH]; [set_solver|]. cbn [prev head tops]. intros Ht Eh. case_decide as E; [eauto|]. apply IH; [set_solver|done]. Qed.
Lemma ok_resize lo hi r a b K s e f kids : ok lo hi K -> NoDup (ids K) -> r ∈ tops K -> find r K = Some (s, e, f, kids) -> a <= b ->
  ok lo hi (resize r a b K) <->
    match prev r K with Some (_, e') => e' < a | None => lo <= a end /\ b <= hi /\ ok a b kids /\ match first_start (rest r K) with Some s' => b < s' | None => True end.
Proof.
  revert lo. induction K as [|r' s' e' f' kids' _ next IHn]; intros lo; [set_solver|].
  intros (? & ? & ? & Hk & Hn) (H1' & H2 & H3 & H4)%nodup_node Ht Hf Hab. cbn [find tops] in *. cbn [resize prev rest].
  destruct (decide (r' = r)) as [->|Hne].
  - simplify_eq. assert (r ∉ tops next) as Hr by (intros ?%tops_ids; ids).
    rewrite decide_False, (prev_out r next Hr) by (destruct next; [done|]; cbn in *; set_solver).
    cbn [ok]. rewrite (ok_from (e + 1) (b + 1) hi next Hn). destruct (first_start next); split; intros; destruct_and?; split_and?; lia || done.
  - assert (r ∈ tops next) as Ht' by set_solver. rewrite find_None in Hf by (intros Hc; eapply H3; [exact Hc|by apply tops_ids]). cbn [ok].
    rewrite (IHn _ Hn H4 Ht' Hf Hab).
    destruct (decide (head next = Some r)) as [Eh|Eh]; [rewrite (prev_head r next H4 Eh)|destruct (prev_some r next Ht' Eh) as [[p ep] ->]]; split; intros; destruct_and?; split_and?; lia || done.
Qed.

(** What the loops of [adjust_resource] find. *)
Lemma outside_scan a b par K : forall (h : heap) fuel, rep h par K -> (length (ids K) < fuel)%nat ->
  exists out, while fuel (outside_round a b) (head K) h = Some (out, h) /\ (out = false <-> Forall (fun x => a <= x.1 /\ x.2 <= b) (ranges K)).
Proof.
  induction K as [|r s e f kids _ next IHn]; intros h [|fuel] HK Hf; try lia; rewrite while_S; cbn [head ranges].
  - exists false. split; [done|]. done.
  - destruct HK as (Hr & _ & Hn). cbn [ids length] in Hf. rewrite length_app in Hf. unfold outside_round at 1. rewrite bind_assoc.
    run (getr_run h r _ Hr). cbn [start end_ sibling].
    pose proof (Forall_cons_iff (fun x => a <= x.1 /\ x.2 <= b) (s, e) (ranges next)) as HF. cbn [fst snd] in HF.
    destruct (Z.ltb_spec s a); cbn [orb]; [exists true; split; [done|]; rewrite HF; split; [done|lia]|].
    destruct (Z.ltb_spec b e); [exists true; split; [done|]; rewrite HF; split; [done|lia]|].
    run_ret. destruct (IHn h fuel Hn ltac:(lia)) as (out & E & Ho). exists out. split; [done|]. rewrite HF, Ho. split; [|tauto]. intros.
    split; [lia|done].
Qed.
Lemma before_scan r par K : forall (h : heap) fuel x, rep h par K -> NoDup (ids K) -> r ∈ tops K -> head K = Some x -> x <> r -> (length (ids K) < fuel)%nat ->
  exists p ep np, prev r K = Some (p, ep) /\ while fuel (before_round (Some r)) x h = Some (p, h) /\ h !! p = Some np /\ end_ np = ep.
Proof.
  induction K as [|r' s e f kids _ next IHn]; intros h [|fuel] x HK Hd Ht Hx Hne Hf; try lia; [done|]. rewrite while_S. destruct HK as (Hr & _ & Hn).
  pose proof (nodup_node _ _ _ _ _ _ Hd) as (H1 & H2 & H3 & H4).
  injection Hx as <-. cbn [tops] in Ht. assert (r ∈ tops next) as Ht' by set_solver. cbn [ids length] in Hf. rewrite length_app in Hf. cbn [prev].
  unfold before_round at 1. rewrite bind_assoc. run (getr_run h r' _ Hr). cbn [sibling]. destruct (decide (head next = Some r)) as [E|E].
  - run_ret. eexists _, _, _. split; [done|]. split; [done|]. by split; [exact Hr|].
  - destruct next as [|y sy ey fy ky ny]; [cbn in Ht'; set_solver|]. cbn [head deref]. run_ret. run_ret. cbn [head] in E.
    apply (IHn h fuel y Hn H4 Ht' eq_refl); [congruence|lia].
Qed.
Lemma prev_above lo hi r K p ep : ok lo hi K -> prev r K = Some (p, ep) -> lo <= ep.
Proof.
  revert lo. induction K as [|x s e f kids _ next IH]; intros lo; [done|]. intros (? & ? & ? & _ & Hn). cbn [prev].
  case_decide; [intros; simplify_eq; lia|]. intros Hp. specialize (IH _ Hn Hp). lia.
Qed.
Lemma rep_resize h par r a b K n : rep h par K -> NoDup (ids K) -> r ∈ tops K -> h !! r = Some n ->
  rep (<[r := with_end b (with_start a n)]> h) par (resize r a b K).
Proof.
  induction K as [|r' s e f kids _ next IHn]; [done|]. intros (Hr & Hk & Hn) (H1 & H2 & H3 & H4)%nodup_node Ht Hn'. cbn [resize tops] in *.
  case_decide as E; cbn [rep].
  - subst r'. rewrite lookup_insert_eq, Hr in *. simplify_eq. split; [done|].
    split; (apply (rep_frame h); [|done]); intros x Hx; apply lookup_insert_ne; ids.
  - assert (r ∈ tops next) as Ht' by set_solver. rewrite lookup_insert_ne by done. split; [|split; [|by apply IHn]].
    + rewrite Hr. destruct next; [done|]. cbn [resize head]. by case_decide; subst.
    + apply (rep_frame h); [|done]. intros x Hx. apply lookup_insert_ne. intros <-. eapply H3; [exact Hx|by apply tops_ids].
Qed.
Lemma ids_resize r a b K : ids (resize r a b K) = ids K.
Proof. induction K as [|r' s e f kids _ next IHn]; [done|]. cbn [resize]. case_decide; cbn [ids]; [by subst|by rewrite IHn]. Qed.
Lemma head_resize r a b K : head (resize r a b K) = head K.
Proof. destruct K; cbn; [done|]. case_decide; cbn; [by subst|done]. Qed.
Lemma sibling_first h par r K s e f p q c kids : rep h par K -> NoDup (ids K) -> r ∈ tops K -> find r K = Some (s, e, f, kids) -> h !! r = Some (Resource s e f p q c) ->
  match first_start (rest r K) with
  | Some s' => exists y ny, q = Some y /\ h !! y = Some ny /\ start ny = s'
  | None => q = None
  end.
Proof.
  induction K as [|r' s' e' f' kids' _ next IHn]; [set_solver|]. intros (Hr & _ & Hn) (H1 & H2 & H3 & H4)%nodup_node Ht Hf Hq.
  cbn [tops rest find] in *. case_decide as E.
  - subst. rewrite Hr in Hq. simplify_eq. destruct next as [|y sy ey fy ky ny]; [done|]. destruct Hn as (Hy & _). cbn. eauto.
  - assert (r ∈ tops next) as Ht' by set_solver. rewrite find_None in Hf by (intros Hc; eapply H3; [exact Hc|by apply tops_ids]). by apply IHn.
Qed.

Section Adjust.
Context (h : heap) (P : rid) (s0 e0 f0 : Z) (pr qr : option rid) (K : forest) (res : rid) (s e f : Z) (sib : option rid) (kids : forest) (a b : Z).
Context (HP : h !! P = Some (Resource s0 e0 f0 pr qr (head K))) (HK : rep h (Some P) K) (HdK : NoDup (ids K)) (HoK : ok s0 e0 K) (HPK : P ∉ ids K).
Context (Hres : res ∈ tops K) (Hfr : find res K = Some (s, e, f, kids)) (Hr : h !! res = Some (Resource s e f (Some P) sib (head kids))).
Context (Hkids : rep h (Some res) kids) (Hab : a <= b) (Hb : 0 <= b < 2 ^ 32).
Definition adjusted : heap := <[res := with_end b (with_start a (Resource s e f (Some P) sib (head kids)))]> h.

(** The comparison with the sibling before, and the change. *)
Lemma adjust_last :
  (let* near := (if decide (head K = Some res) then ret false else
     let* tmp := deref (head K) in let* tmp := walk (before_round (Some res)) tmp in let* t := getr tmp in ret (a <=? end_ t)) in
   if near : bool then ret (- EBUSY) else (modr res (with_start a) ;; modr res (with_end b) ;; ret 0)) h =
  if match prev res K with Some (_, e') => e' <? a | None => true end then Some (0, adjusted) else Some (- EBUSY, h).
Proof using All.
  pose proof (rep_length _ _ _ HK HdK) as Hsz. assert ((modr res (with_start a) ;; modr res (with_end b) ;; ret 0) h = Some (0, adjusted)) as E0.
  { run (modr_eq h res (with_start a) _ Hr). erewrite bind_Some by (apply modr_eq, lookup_insert_eq). rewrite insert_insert_eq. done. }
  case_decide as Eh; [run_ret; rewrite (prev_head res K HdK Eh); exact E0|]. destruct (head K) as [x|] eqn:Ex; [|by destruct K]. cbn [deref].
  rewrite !bind_assoc. run_ret.
  destruct (before_scan res _ K h (2 + size h) x HK HdK Hres Ex ltac:(congruence) ltac:(lia)) as (p & ep & np & -> & E & Hp & <-).
  assert (walk (before_round (Some res)) x h = Some (p, h)) as E' by exact E. run E'. run (getr_run h p np Hp). run_ret.
  destruct (Z.leb_spec a (end_ np)), (Z.ltb_spec (end_ np) a); try lia; [done|exact E0].
Qed.
Lemma adjust_run n : u32 (a + n - 1) = b -> exists bad : bool, adjust_resource res a n h = (if bad then Some (- EBUSY, h) else Some (0, adjusted)) /\
  (bad = false <-> ok s0 e0 (resize res a b K)).
Proof using All.
  intros Eb. destruct (find_nodup _ _ _ _ _ _ HdK Hfr) as [Hdk _]. pose proof (rep_length _ _ _ Hkids Hdk) as Hszk.
  destruct (find_ok _ _ _ _ _ _ _ _ HoK Hfr) as (_ & _ & _ & Hokk).
  destruct (outside_scan a b _ kids h (2 + size h) Hkids ltac:(lia)) as (out & Eo & Ho).
  pose proof (sibling_first _ _ _ _ _ _ _ _ _ _ _ HK HdK Hres Hfr Hr) as Hsib.
  exists ((a <? s0) || (e0 <? b) || out || match first_start (rest res K) with Some s' => s' <=? b | None => false end || match prev res K with Some (_, e') => negb (e' <? a) | None => false end).
  split.
  - unfold adjust_resource. run (getr_run h res _ Hr). rewrite Eb. cbn [parent deref]. run_ret. run (getr_run h P _ HP).
    cbn [start end_ child sibling].
    destruct (a <? s0); [done|]. destruct (e0 <? b); [done|]. cbn [orb].
    assert (walk (outside_round a b) (head kids) h = Some (out, h)) as Eo' by exact Eo. run Eo'. destruct out; [done|]. cbn [orb].
    destruct (first_start (rest res K)) as [s'|].
    + destruct Hsib as (y & ny & Es & Hy & <-). rewrite Es. rewrite bind_assoc. run (getr_run h y ny Hy). run_ret. destruct (start ny <=? b); [done|].
      rewrite adjust_last. by destruct (prev res K) as [[p ep]|]; [destruct (ep <? a)|].
    + rewrite Hsib. run_ret. rewrite adjust_last. by destruct (prev res K) as [[p ep]|]; [destruct (ep <? a)|].
  - rewrite (ok_resize s0 e0 res a b K s e f kids HoK HdK Hres Hfr Hab), (ok_inside s e a b kids Hokk), <- Ho, !orb_false_iff, Z.ltb_ge, Z.ltb_ge.
    assert (forall p ep, prev res K = Some (p, ep) -> ep < a -> s0 <= a) as Hprev by (intros p ep Hp; pose proof (prev_above _ _ _ _ _ _ HoK Hp); clear - H; lia).
    destruct (first_start _) as [s'|], (prev res K) as [[p ep]|]; rewrite ?negb_false_iff, ?Z.leb_gt, ?Z.ltb_lt; try specialize (Hprev _ _ eq_refl); clear - Hprev; tauto.
Qed.
Lemma adjusted_grafted : grafted h adjusted (ChildOf P) (Some P) (resize res a b K) [res].
Proof using All.
  pose proof (tops_ids _ _ Hres) as Hin. split; cbn [owner set_slot]; [|by apply rep_resize|intros x Hx _; apply lookup_insert_ne; set_solver].
  unfold adjusted. rewrite lookup_insert_ne, HP, head_resize by set_solver. done.
Qed.
End Adjust.

(** For a new range that does not wrap around, [adjust_resource] succeeds exactly when
    the tree with that range in the place of the old one is still ordered and nested, and
    then makes it so; otherwise it returns [-EBUSY] and changes nothing. *)
Theorem adjust_resource_correct (h : heap) (T : forest) (P : rid) (s0 e0 f0 : Z) (K : forest) (res : rid) (a n : Z)
    (HT : tree h T) (Hf : find P T = Some (s0, e0, f0, K)) (Hres : res ∈ tops K) (Ha : 0 <= a) (Hn : 1 <= n) (Hw : a + n <= 2 ^ 32) :
  let T' := set_kids P (resize res a (a + n - 1) K) T in
  (ok 0 (2 ^ 32 - 1) T' -> exists h', adjust_resource res a n h = Some (0, h') /\ tree h' T' /\ unchanged h h' T []) /\
  (~ ok 0 (2 ^ 32 - 1) T' -> adjust_resource res a n h = Some (- EBUSY, h)).
Proof.
  intros T'. destruct HT as [HT Hd Hok]. destruct (find_rep _ _ _ _ _ _ _ _ HT Hf) as (pr & qr & HP & HK).
  destruct (find_nodup _ _ _ _ _ _ Hd Hf) as [HdK HPK].
  destruct (find_ok _ _ _ _ _ _ _ _ Hok Hf) as (L1 & L2 & L3 & HoK).
  destruct (tops_find _ _ _ _ HK HdK Hres) as (s & e & f & kids & sib & Hfr & Hr & Hkids). pose proof (tops_ids _ _ Hres) as Hin.
  set (b := a + n - 1) in *. assert (ok 0 (2 ^ 32 - 1) T' <-> ok s0 e0 (resize res a b K)) as HT'.
  { split; [|intros; by eapply ok_set_kids]. intros H. pose proof (find_set_kids _ _ _ _ _ (resize res a b K) _ Hf Hd) as Hf'.
    by destruct (find_ok _ _ _ _ _ _ _ _ H Hf') as (_ & _ & _ & ?). }
  destruct (adjust_run h P s0 e0 f0 pr qr K res s e f sib kids a b HP HK HdK HoK HPK Hres Hfr Hr Hkids ltac:(lia) ltac:(lia) n ltac:(apply u32_id; lia)) as (bad & E & Hbad).
  rewrite HT', <- Hbad, E. destruct bad; split; try done. intros _. eexists. split; [done|]. split; [split|].
  - eapply (rep_set_kids h _ None P s0 e0 f0 K _ [res]); [done|done|done| |apply (adjusted_grafted h P s0 e0 f0 pr qr K res s e f sib kids a b HP HK HdK HoK HPK Hres Hfr Hr Hkids); lia].
    intros x ->%list_elem_of_singleton. by left.
  - eapply nodup_set_kids; [done|done|by rewrite ids_resize|]. rewrite ids_resize. tauto.
  - by apply HT', Hbad.
  - intros x Hx _. apply lookup_insert_ne. intros <-. apply Hx. destruct (find_ids _ _ _ _ _ _ Hf) as [_ Hs]. by apply Hs.
Qed.

Lemma adjust_resource_correct_witness : exists h', adjust_resource 2 8 64 ports_heap = Some (0, h') /\ tree h' (set_kids 1 (resize 2 8 71 (Node 2 16 31 0x100 Nil Nil)) ports).
Proof.
  destruct (proj1 (adjust_resource_correct ports_heap ports 1 0 255 0x100 (Node 2 16 31 0x100 Nil Nil) 2 8 64 ports_tree eq_refl
    (list_elem_of_here _ _) ltac:(discriminate) ltac:(discriminate) ltac:(discriminate))) as (h' & E & HT & _).
  - vm_compute. intuition discriminate.
  - exists h'. split; [exact E|exact HT].
Defined.
(** Without that, a range that wraps around is accepted, and ends before it starts. *)
Lemma adjust_resource_wraps : let h := <[1%positive := Resource 0 (2 ^ 32 - 1) 0x200 None None (Some 2%positive)]> ports_heap in
  exists h' n, adjust_resource 2 0xf0000000 0x20000000 h = Some (0, h') /\ h' !! 2%positive = Some n /\ start n = 0xf0000000 /\ end_ n = 0xfffffff.
Proof. eexists _, _. vm_compute. auto. Qed.

(** ** Allocation *)
Lemma ALIGN_spec k x : 0 <= k < 32 -> 0 <= x -> x + (2 ^ k - 1) < 2 ^ 32 ->
  let y := ALIGN x (2 ^ k) in x <= y < x + 2 ^ k /\ (2 ^ k | y) /\ forall z, (2 ^ k | z) -> x <= z -> y <= z.
Proof.
  intros Hk Hx Ho y. assert (0 < 2 ^ k) by (apply Z.pow_pos_nonneg; lia). assert (u32 (2 ^ k - 1) = 2 ^ k - 1) as Hu by (apply u32_id; lia).
  assert (y = x + (2 ^ k - 1) - (x + (2 ^ k - 1)) mod 2 ^ k) as Ey by (unfold y, ALIGN, not32; rewrite Hu, u32_id by lia; apply land_mask; lia).
  pose proof (Z.mod_pos_bound (x + (2 ^ k - 1)) (2 ^ k)). pose proof (Z.div_mod (x + (2 ^ k - 1)) (2 ^ k)). split; [lia|].
  split; [exists ((x + (2 ^ k - 1)) / 2 ^ k); lia|].
  intros z [q ->] Hq. set (d := (x + (2 ^ k - 1)) / 2 ^ k) in *. assert (y = 2 ^ k * d) by lia. assert (2 ^ k * d < 2 ^ k * (q + 1)) by lia.
  assert (d < q + 1) by nia. nia.
Qed.

Section Find.
Context (size min max k : Z) (Hk : 0 <= k < 32) (Hsize : 2 <= size < 2 ^ 32) (Hmin : 0 <= min) (Hmax : 0 <= max < 2 ^ 32) (Hminw : min + 2 ^ k <= 2 ^ 32).
(** The first place in the gap from [lo] to [hi], and in the gaps from [cur] on between
    siblings that end at [top]. *)
Definition gap (lo hi : Z) : option Z :=
  let a := ALIGN (Z.max lo min) (2 ^ k) in let b := Z.min hi max in
  if (a <? b) && (size - 1 <=? b - a) then Some a else None.
Fixpoint search (top cur : Z) (K : forest) : option Z :=
  match K with
  | Nil => gap cur top
  | Node _ s e _ _ next => match gap cur (s - 1) with Some a => Some a | None => search top (e + 1) next end
  end.
Definition candidate (lo hi a : Z) : Prop := (2 ^ k | a) /\ min <= a /\ a + size - 1 <= max /\ lo <= a /\ a + size - 1 <= hi.
Lemma gap_spec lo hi : 0 <= lo -> lo + 2 ^ k <= 2 ^ 32 ->
  match gap lo hi with
  | Some a => candidate lo hi a /\ forall a', candidate lo hi a' -> a <= a'
  | None => forall a, ~ candidate lo hi a
  end.
Proof using All.
  intros Hlo Hw. unfold gap. destruct (ALIGN_spec k (Z.max lo min) Hk ltac:(lia) ltac:(lia)) as (H1 & H2 & H3). set (a := ALIGN _ _) in *.
  destruct (Z.ltb_spec a (Z.min hi max)); cbn [andb]; [destruct (Z.leb_spec (size - 1) (Z.min hi max - a))|]; unfold candidate.
  - split; [split_and!; [done|lia..]|]. intros a' (Hd & ? & ? & ? & ?). apply H3; [done|lia].
  - intros a' (Hd & ? & ? & ? & ?). specialize (H3 a' Hd ltac:(lia)). lia.
  - intros a' (Hd & ? & ? & ? & ?). specialize (H3 a' Hd ltac:(lia)). lia.
Qed.
Definition free_place (top cur : Z) (K : forest) (a : Z) : Prop := candidate cur top a /\ Forall (apart a (a + size - 1)) (ranges K).
Lemma search_spec top K : top + 2 ^ k < 2 ^ 32 -> forall cur, 0 <= cur -> cur + 2 ^ k <= 2 ^ 32 -> ok cur top K ->
  match search top cur K with
  | Some a => free_place top cur K a /\ forall a', free_place top cur K a' -> a <= a'
  | None => forall a, ~ free_place top cur K a
  end.
Proof using All.
  intros Htop. unfold free_place. induction K as [|r s e f kids _ next IHn]; intros cur Hc Hw; cbn [search ranges ok].
  - intros _. pose proof (gap_spec cur top Hc Hw) as G. destruct (gap cur top) as [a|]; [|naive_solver]. destruct G as [G1 G2]. split; [done|].
    intros a' [Ha _]. by apply G2.
  - intros (? & ? & ? & _ & Hn). pose proof (gap_spec cur (s - 1) Hc Hw) as G. pose proof (fun x => ranges_above _ _ _ x Hn) as Hab.
    unfold candidate in *. destruct (gap cur (s - 1)) as [a|].
    + destruct G as [(G1 & G2 & G3 & G4 & G5) G6]. split.
      * split; [split_and!; done || lia|]. apply Forall_cons_iff. split; [left; cbn; lia|]. apply list.Forall_forall. intros x Hx.
        specialize (Hab x Hx). left. lia.
      * intros a' [(? & ? & ? & ? & ?) [Hx _]%Forall_cons_iff]. unfold apart in Hx. cbn in Hx.
        destruct Hx as [Hx|Hx]; [apply G6; split_and!; done || lia|lia].
    + assert (forall a, free_place top cur (Node r s e f kids next) a <-> free_place top (e + 1) next a) as Hiff.
      { intros a. unfold free_place, candidate. cbn [ranges]. rewrite Forall_cons_iff. unfold apart at 1. cbn [fst snd]. split.
        - intros [(? & ? & ? & ? & ?) [Hx Hr]]. destruct Hx as [Hx|Hx]; [exfalso; apply (G a); split_and!; done || lia|].
          split; [split_and!; done || lia|done].
        - intros [(? & ? & ? & ? & ?) Hr]. split; [split_and!; done || lia|]. split; [right; lia|done]. }
      specialize (IHn (e + 1) ltac:(lia) ltac:(lia) Hn). fold (free_place top cur (Node r s e f kids next)). unfold free_place, candidate in Hiff.
      cbn [ranges] in Hiff.
      destruct (search top (e + 1) next) as [a|]; [destruct IHn as [I1 I2]; split; [by apply Hiff|intros a' Ha'; apply I2; by apply Hiff]|intros a Ha; apply (IHn a); by apply Hiff].
Qed.

Lemma find_round_eq root new s0 e0 f0 p0 q0 c0 f p q c K lo (h : heap) cur en :
  h !! root = Some (Resource s0 e0 f0 p0 q0 c0) -> h !! new = Some (Resource cur en f p q c) -> root <> new -> rep h (Some root) K -> new ∉ ids K ->
  0 <= cur -> cur + 2 ^ k <= 2 ^ 32 -> ok lo e0 K -> 1 <= lo -> e0 + 2 ^ k < 2 ^ 32 -> 0 <= e0 ->
  exists x y, let h1 := <[new := Resource x y f p q c]> h in
  find_round None root new size min max (2 ^ k) (head K) h =
    match gap cur (match K with Nil => e0 | Node _ s _ _ _ _ => s - 1 end) with
    | Some a => Some (inr 0, <[new := Resource a (a + size - 1) f p q c]> h)
    | None => match K with Nil => Some (inr (- EBUSY), h1) | Node _ _ e _ _ next => Some (inl (head next), <[new := Resource (e + 1) y f p q c]> h) end
    end.
Proof using All.
  intros Hroot Hnew Hne HK HnK Hc Hw Hok Hlo He0 He0'. set (hi := match K with Nil => e0 | Node _ s _ _ _ _ => s - 1 end).
  set (N := fun x y => Resource x y f p q c).
  assert (0 < 2 ^ k) as Hpos by (apply Z.pow_pos_nonneg; lia). assert (0 <= hi < 2 ^ 32) as Hhi by (subst hi; destruct K; [lia|]; cbn in Hok; lia).
  set (a := ALIGN (Z.max cur min) (2 ^ k)). set (b := Z.min hi max). exists a, b.
  destruct (ALIGN_spec k (Z.max cur min) Hk ltac:(lia) ltac:(lia)) as (Ha & _). fold a in Ha.
  assert ((match head K with Some t => let* n := getr t in ret (u32 (start n - 1)) | None => let* r := getr root in ret (end_ r) end) h = Some (hi, h)) as Ehi.
  { subst hi. destruct K as [|t s e ft kids next]; cbn [head]; [by run (getr_run h root _ Hroot)|]. destruct HK as (Ht & _). run (getr_run h t _ Ht).
    cbn [start]. by rewrite u32_id by lia. }
  assert ((if cur <? min then modr new (with_start min) else ret tt) (<[new := N cur hi]> h) = Some (tt, <[new := N (Z.max cur min) hi]> h)) as Emin.
  { destruct (Z.ltb_spec cur min); [rewrite modr_insert, Z.max_r by lia|rewrite Z.max_l by lia]; done. }
  assert ((if max <? hi then modr new (with_end max) else ret tt) (<[new := N (Z.max cur min) hi]> h) = Some (tt, <[new := N (Z.max cur min) b]> h)) as Emax.
  { subst b. destruct (Z.ltb_spec max hi); [rewrite modr_insert, Z.min_r by lia|rewrite Z.min_l by lia]; done. }
  unfold find_round. run Ehi. run (modr_eq h new (with_end hi) _ Hnew). change (with_end hi (Resource cur en f p q c)) with (N cur hi).
  run (getr_insert h new (N cur hi)). cbn [start]. run Emin.
  run (getr_insert h new (N (Z.max cur min) hi)). cbn [end_]. run Emax.
  run (modr_insert h new (fun n => with_start (ALIGN (start n) (2 ^ k)) n) (N (Z.max cur min) b)).
  change (with_start _ (N (Z.max cur min) b)) with (N a b). cbn [call_alignf]. run_ret. run (getr_insert h new (N a b)).
  change (start (N a b)) with a. change (end_ (N a b)) with b. unfold gap. fold a b.
  rewrite (u32_id (size - 1)) by lia.
  destruct (Z.ltb_spec a b); cbn [andb]; [rewrite (u32_id (b - a)) by lia; destruct (Z.leb_spec (size - 1) (b - a))|].
  { run (modr_insert h new (fun n => with_end (u32 (start n + size - 1)) n) (N a b)). change (start (N a b)) with a. by rewrite u32_id by lia. }
  all: destruct K as [|t s e ft kids next]; cbn [head]; [done|]; destruct HK as (Ht & _); assert (new <> t) by ids; cbn [ok] in Hok;
    run (getr_run (<[new := N a b]> h) t _ ltac:(rewrite lookup_insert_ne by done; exact Ht)); cbn [end_ sibling];
    run (modr_insert h new (with_start (u32 (e + 1))) (N a b)); by rewrite u32_id by lia.
Qed.
Lemma find_scan root new s0 e0 f0 p0 q0 c0 f p q c K : root <> new -> e0 + 2 ^ k < 2 ^ 32 -> 0 <= e0 -> forall lo (h : heap) cur en fuel,
  h !! root = Some (Resource s0 e0 f0 p0 q0 c0) -> h !! new = Some (Resource cur en f p q c) -> rep h (Some root) K -> new ∉ ids K -> NoDup (ids K) ->
  0 <= cur -> cur + 2 ^ k <= 2 ^ 32 -> ok lo e0 K -> 1 <= lo -> (length (ids K) < fuel)%nat ->
  exists x y, while fuel (find_round None root new size min max (2 ^ k)) (head K) h =
      Some (match search e0 cur K with Some _ => 0 | None => - EBUSY end, <[new := Resource x y f p q c]> h) /\
    forall a, search e0 cur K = Some a -> x = a /\ y = a + size - 1.
Proof using All.
  intros Hne He0 He0'.
  induction K as [|t s e ft kids _ next IHn]; intros lo h cur en [|fuel] Hroot Hnew HK HnK Hd Hc Hw Hok Hlo Hf; try lia; rewrite while_S.
  all: destruct (find_round_eq root new s0 e0 f0 p0 q0 c0 f p q c _ lo h cur en Hroot Hnew Hne HK HnK Hc Hw Hok Hlo He0 He0') as (x & y & E); cbv zeta in E; cbn [search].
  - destruct (gap cur e0) as [a|]; run E; eexists _, _; (split; [done|]); intros; by simplify_eq.
  - destruct (gap cur (s - 1)) as [a|]; run E; [eexists _, _; split; [done|]; intros; by simplify_eq|]. destruct HK as (_ & _ & Hn). cbn [ok] in Hok.
    pose proof (nodup_node _ _ _ _ _ _ Hd) as (_ & _ & _ & Hd4).
    cbn [ids length] in Hf. rewrite length_app in Hf. set (h1 := <[new := Resource (e + 1) y f p q c]> h) in *.
    destruct (IHn (e + 1) h1 (e + 1) y fuel) as (x' & y' & E' & Ha); try lia || tauto.
    + unfold h1. by rewrite lookup_insert_ne.
    + apply lookup_insert_eq.
    + apply rep_insert_out; [ids|done].
    + ids.
    + exists x', y'. split; [|done]. rewrite E'. unfold h1. by rewrite insert_insert_eq.
Qed.
End Find.

(** [find_resource] starts behind a first child at address 0. *)
Lemma find_resource_eq h root new size min max k s0 e0 f0 p0 q0 f p q c s e K :
  0 <= k < 32 -> 2 <= size < 2 ^ 32 -> 0 <= min -> 0 <= max < 2 ^ 32 -> min + 2 ^ k <= 2 ^ 32 -> e0 + 2 ^ k < 2 ^ 32 -> 0 <= s0 <= e0 ->
  h !! root = Some (Resource s0 e0 f0 p0 q0 (head K)) -> h !! new = Some (Resource s e f p q c) -> root <> new -> rep h (Some root) K -> new ∉ ids K -> NoDup (ids K) -> ok s0 e0 K ->
  exists x y, find_resource None root new size min max (2 ^ k) h =
      Some (match search size min max k e0 s0 K with Some _ => 0 | None => - EBUSY end, <[new := Resource x y f p q c]> h) /\
    forall a, search size min max k e0 s0 K = Some a -> x = a /\ y = a + size - 1.
Proof.
  intros Hk Hsize Hmin Hmax Hminw He0 Hs0 Hroot Hnew Hne HK HnK Hd Hok. pose proof (rep_length _ _ _ HK Hd) as Hsz.
  set (N := fun x y => Resource x y f p q c). set (h1 := <[new := N s0 e]> h).
  assert (0 < 2 ^ k) by (apply Z.pow_pos_nonneg; lia). unfold find_resource. run (getr_run h root _ Hroot). cbn [child start].
  run (modr_eq h new (with_start s0) _ Hnew). fold h1.
  assert (forall K' cur en, (forall x, x ∈ ids K' -> x ∈ ids K) -> rep h (Some root) K' -> NoDup (ids K') -> (length (ids K') <= length (ids K))%nat -> 0 <= cur <= e0 + 1 -> ok 1 e0 K' ->
    exists x y, walk (find_round None root new size min max (2 ^ k)) (head K') (<[new := N cur en]> h) =
      Some (match search size min max k e0 cur K' with Some _ => 0 | None => - EBUSY end, <[new := N x y]> h) /\ forall a, search size min max k e0 cur K' = Some a -> x = a /\ y = a + size - 1) as Hwalk.
  { intros K' cur en Hsub HK' Hd' Hl Hcur Hok'. set (h2 := <[new := N cur en]> h).
    assert (h2 !! root = Some (Resource s0 e0 f0 p0 q0 (head K))) as Hroot2 by (unfold h2; by rewrite lookup_insert_ne).
    assert (h2 !! new = Some (N cur en)) as Hnew2 by apply lookup_insert_eq.
    assert (Datatypes.length (ids K) <= stdpp.base.size h2)%nat as Hsz2. { apply (rep_length h2 (Some root)); [by apply rep_insert_out|done]. }
    destruct (find_scan size min max k Hk Hsize Hmin Hmax Hminw root new s0 e0 f0 p0 q0 (head K) f p q c K' Hne He0 ltac:(lia) 1 h2 cur en (2 + stdpp.base.size h2)
      Hroot2 Hnew2 ltac:(apply rep_insert_out; [set_solver|done]) ltac:(set_solver) Hd' ltac:(lia) ltac:(lia) Hok' ltac:(lia) ltac:(lia)) as (x & y & E & Ha).
    exists x, y. split; [|done]. unfold h2 in E at 3. rewrite insert_insert_eq in E. exact E. }
  destruct K as [|t st et ft kids next]; cbn [head].
  - run_ret. apply (Hwalk Nil); try done. lia.
  - pose proof HK as (Ht & _ & Hn). assert (new <> t) by ids.
    assert (h1 !! t = Some (Resource st et ft (Some root) (head next) (head kids))) as Ht1 by (unfold h1; by rewrite lookup_insert_ne).
    rewrite bind_assoc. run (getr_run h1 t _ Ht1). cbn [start end_ sibling]. pose proof (nodup_node _ _ _ _ _ _ Hd) as (_ & _ & _ & Hd4).
    pose proof Hok as (O1 & O2 & O3 & O4 & O5). destruct (Z.eqb_spec st 0) as [->|Hst].
    + rewrite bind_assoc. unfold h1. run (modr_insert h new (with_start (u32 (et + 1))) (N s0 e)). run_ret. rewrite u32_id by lia.
      change (with_start (et + 1) (N s0 e)) with (N (et + 1) e).
      destruct (Hwalk next (et + 1) e) as (x & y & E & Ha); [ids|done|done|cbn [ids length]; rewrite length_app; lia|lia|by eapply ok_weaken; [exact O5|lia|lia]|].
      exists x, y. cbn [search]. assert (gap size min max k s0 (0 - 1) = None) as ->; [|done].
      pose proof (gap_spec size min max k Hk Hsize Hmin Hmax Hminw s0 (0 - 1) ltac:(lia) ltac:(lia)) as G.
      destruct (gap size min max k s0 (0 - 1)) as [a|]; [|done]. destruct G as [(_ & ? & ? & ? & ?) _]. lia.
    + run_ret. apply (Hwalk (Node t st et ft kids next)); try done; [lia|]. cbn [ok]. split_and!; done || lia.
Qed.

(** Whatever [alignf] does, the search ends and changes only the range of [new]. *)
Lemma find_round_any alignf root new size min max align r0 t (h : heap) n : h !! root = Some r0 -> h !! new = Some n -> root <> new ->
  (forall x, t = Some x -> x <> new /\ is_Some (h !! x)) -> exists x y, let h' := <[new := Resource x y (flags n) (parent n) (sibling n) (child n)]> h in
  find_round alignf root new size min max align t h = Some (inr 0, h') \/ (t = None /\ find_round alignf root new size min max align t h = Some (inr (- EBUSY), h')) \/
  (exists u nt, t = Some u /\ h !! u = Some nt /\ find_round alignf root new size min max align t h = Some (inl (sibling nt), h')).
Proof.
  intros Hroot Hnew Hne Ht. destruct n as [s e f p q c]. cbn [flags parent sibling child]. set (N := fun x y => Resource x y f p q c).
  assert (exists hi, (match t with Some t => let* n := getr t in ret (u32 (start n - 1)) | None => let* r := getr root in ret (end_ r) end) h = Some (hi, h)) as [hi Ehi].
  { destruct t as [u|]; [destruct (Ht u eq_refl) as [_ [nt Hu]]; eexists; by run (getr_run h u nt Hu)|eexists; by run (getr_run h root r0 Hroot)]. }
  assert (forall (b : bool) g x y, (forall x y, exists x' y', g (N x y) = N x' y') -> exists x' y', (if b then modr new g else ret tt) (<[new := N x y]> h) = Some (tt, <[new := N x' y']> h)) as Hif.
  { intros b g x y Hg. destruct b; [|by exists x, y]. destruct (Hg x y) as (x' & y' & E). exists x', y'. by rewrite modr_insert, E. }
  unfold find_round. run Ehi. run (modr_eq h new (with_end hi) _ Hnew). change (with_end hi (Resource s e f p q c)) with (N s hi).
  run (getr_insert h new (N s hi)).
  destruct (Hif (start (N s hi) <? min) (with_start min) s hi ltac:(intros x y; by exists min, y)) as (x1 & y1 & E1). run E1.
  run (getr_insert h new (N x1 y1)).
  destruct (Hif (max <? end_ (N x1 y1)) (with_end max) x1 y1 ltac:(intros x y; by exists x, max)) as (x2 & y2 & E2). run E2.
  run (modr_insert h new (fun n => with_start (ALIGN (start n) align) n) (N x2 y2)). change (with_start _ (N x2 y2)) with (N (ALIGN x2 align) y2).
  set (x3 := ALIGN x2 align).
  assert (exists x4 y4, call_alignf alignf new size align (<[new := N x3 y2]> h) = Some (tt, <[new := N x4 y4]> h)) as (x4 & y4 & E4).
  { destruct alignf as [g|]; cbn [call_alignf]; [|by exists x3, y2]. rewrite modr_insert. change (start (N x3 y2)) with x3.
    change (end_ (N x3 y2)) with y2. destruct (g x3 y2 size align) as [a b]. by exists a, b. }
  run E4. run (getr_insert h new (N x4 y4)). destruct (_ && _).
  { run (modr_insert h new (fun n => with_end (u32 (start n + size - 1)) n) (N x4 y4)). eexists _, _. left. done. }
  destruct t as [u|]; [|by exists x4, y4; right; left]. destruct (Ht u eq_refl) as [Hu [nt Hnt]].
  run (getr_run (<[new := N x4 y4]> h) u nt ltac:(by rewrite lookup_insert_ne)). run (modr_insert h new (with_start (u32 (end_ nt + 1))) (N x4 y4)).
  eexists _, _. right. right. eauto.
Qed.
Lemma find_any alignf root new size min max align par K : forall (h : heap) n r0 fuel, h !! root = Some r0 -> h !! new = Some n -> root <> new -> rep h par K -> new ∉ ids K -> (length (ids K) < fuel)%nat ->
  exists v x y, while fuel (find_round alignf root new size min max align) (head K) h = Some (v, <[new := Resource x y (flags n) (parent n) (sibling n) (child n)]> h) /\ (v = 0 \/ v = - EBUSY).
Proof.
  induction K as [|t s e ft kids _ next IHn]; intros h n r0 [|fuel] Hroot Hnew Hne HK HnK Hf; try lia; rewrite while_S; cbn [head].
  - destruct (find_round_any alignf root new size min max align r0 None h n Hroot Hnew Hne ltac:(done)) as (x & y & [E|[[_ E]|(u & nt & Hu & _)]]); [run E; eauto 10|run E; eauto 10|done].
  - destruct HK as (Ht & _ & Hn).
    destruct (find_round_any alignf root new size min max align r0 (Some t) h n Hroot Hnew Hne) as (x & y & [E|[[? _]|(u & nt & Hu & Hnt & E)]]).
    { intros x [=<-]. split; [ids|eauto]. }
    { run E; eauto 10. } { done. }
    injection Hu as <-. rewrite Ht in Hnt. injection Hnt as <-. cbn [sibling] in E. run E. cbn [ids length] in Hf. rewrite length_app in Hf.
    set (h1 := <[new := _]> h).
    destruct (IHn h1 (Resource x y (flags n) (parent n) (sibling n) (child n)) r0 fuel) as (v & x' & y' & E' & Hv); [unfold h1; by rewrite lookup_insert_ne|apply lookup_insert_eq|done|apply rep_insert_out; [ids|done]|ids|lia|].
    exists v, x', y'. split; [|done]. rewrite E'. unfold h1. by rewrite insert_insert_eq.
Qed.
Lemma find_resource_any alignf h root new size min max align s0 e0 f0 p0 q0 n K : h !! root = Some (Resource s0 e0 f0 p0 q0 (head K)) -> h !! new = Some n -> root <> new -> rep h (Some root) K -> new ∉ ids K -> NoDup (ids K) ->
  exists v x y, find_resource alignf root new size min max align h = Some (v, <[new := Resource x y (flags n) (parent n) (sibling n) (child n)]> h) /\ (v = 0 \/ v = - EBUSY).
Proof.
  intros Hroot Hnew Hne HK HnK Hd. pose proof (rep_length _ _ _ HK Hd) as Hsz. unfold find_resource. run (getr_run h root _ Hroot). cbn [child start].
  run (modr_eq h new (with_start s0) _ Hnew).
  assert (forall K' x, (forall z, z ∈ ids K' -> z ∈ ids K) -> rep h (Some root) K' -> (length (ids K') <= length (ids K))%nat ->
    exists v x' y', walk (find_round alignf root new size min max align) (head K') (<[new := with_start x n]> h) = Some (v, <[new := Resource x' y' (flags n) (parent n) (sibling n) (child n)]> h) /\ (v = 0 \/ v = - EBUSY)) as Hw.
  { intros K' x Hsub HK' Hl. set (h2 := <[new := with_start x n]> h). assert (length (ids K) <= base.size h2)%nat as Hsz2.
    { apply (rep_length h2 (Some root)); [by apply rep_insert_out|done]. }
    destruct (find_any alignf root new size min max align (Some root) K' h2 (with_start x n) _ (2 + base.size h2) ltac:(unfold h2; rewrite lookup_insert_ne by done; exact Hroot) ltac:(apply lookup_insert_eq) Hne
      ltac:(apply rep_insert_out; [set_solver|done]) ltac:(set_solver) ltac:(lia)) as (v & x' & y' & E & Hv).
    exists v, x', y'. split; [|done]. unfold h2 in E at 3. rewrite insert_insert_eq in E. exact E. }
  destruct K as [|t st et ft kids next]; cbn [head].
  - run_ret. by apply (Hw Nil).
  - pose proof HK as (Ht & _ & Hn). rewrite bind_assoc.
    run (getr_run (<[new := with_start s0 n]> h) t _ ltac:(rewrite lookup_insert_ne by ids; exact Ht)). cbn [start end_ sibling]. destruct (st =? 0).
    + rewrite bind_assoc. run (modr_insert h new (with_start (u32 (et + 1))) (with_start s0 n)). run_ret.
      apply (Hw next (u32 (et + 1))); [ids|done|cbn [ids length]; rewrite length_app; lia].
    + run_ret. by apply (Hw (Node t st et ft kids next)).
Qed.

Lemma allocate_request h T root s0 e0 f0 K new f (HT : tree h T) (Hf : find root T = Some (s0, e0, f0, K)) alignf size min max align v x y p q h0 s e :
  tree h0 T -> detached h0 T new s e f Nil -> h = <[new := Resource x y f p q None]> h0 ->
  find_resource alignf root new size min max align h0 = Some (v, h) -> v = 0 \/ v = - EBUSY ->
  exists h', unchanged h0 h' T [new] /\
  ((v = 0 /\ inside x y s0 e0 = true /\ conflict x y K = None /\ allocate_resource alignf root new size min max align h0 = Some (0, h') /\ tree h' (set_kids root (place new x y f Nil K) T)) \/
   ((v = 0 -> inside x y s0 e0 = true -> conflict x y K <> None) /\ allocate_resource alignf root new size min max align h0 = Some (- EBUSY, h') /\ tree h' T)).
Proof.
  intros HT0 Hn0 Eh E Hv. destruct (detached_range h0 T new s e f x y p q None HT0 Hn0 eq_refl) as (_ & Hn & Hu). rewrite <- Eh in Hn, Hu.
  pose proof (request_eq h T root s0 e0 f0 K new x y f Nil HT Hf Hn) as R.
  unfold allocate_resource. rewrite (bind_Some _ _ _ _ _ E). destruct Hv as [-> | ->]; cbn [Z.leb Z.opp EBUSY].
  - change (0 <=? 0) with true. cbv iota. destruct (inside x y s0 e0); [destruct (conflict x y K) as [c|]|].
    + exists h. split; [done|]. right. by run R.
    + destruct R as (h' & R & HT' & Hu'). exists h'. split; [intros z Hz1 Hz2; by rewrite Hu', Hu|]. left. by run R.
    + exists h. split; [done|]. right. by run R.
  - change (0 <=? - EBUSY) with false. cbv iota. exists h. split; [done|]. right. by split.
Qed.

(** C20. [allocate_resource] never breaks the tree, whatever [alignf] does: it terminates,
    and either puts [new] among the children of [root] or returns [-EBUSY].  Without
    [alignf], for a power-of-two alignment, at least two addresses, and bounds from which
    alignment does not wrap around, it takes the lowest aligned range of the given size
    between [min] and [max] that is free in [root], and fails only if there is none. *)
Theorem allocate_resource_correct (h : heap) (T : forest) (root : rid) (s0 e0 f0 : Z) (K : forest) (new : rid) (s e f : Z)
    (HT : tree h T) (Hf : find root T = Some (s0, e0, f0, K)) (Hn : detached h T new s e f Nil) :
  (forall alignf size min max align, exists v x y h', allocate_resource alignf root new size min max align h = Some (v, h') /\ unchanged h h' T [new] /\
     ((v = 0 /\ tree h' (set_kids root (place new x y f Nil K) T)) \/ (v = - EBUSY /\ tree h' T))) /\
  (forall size min max k, 0 <= k < 32 -> 2 <= size < 2 ^ 32 -> 0 <= min -> 0 <= max < 2 ^ 32 -> min + 2 ^ k <= 2 ^ 32 -> e0 + 2 ^ k < 2 ^ 32 ->
     let fits := free_place size min max k e0 s0 K in
     (forall a, fits a -> (forall a', fits a' -> a <= a') -> exists h', allocate_resource None root new size min max (2 ^ k) h = Some (0, h') /\
        tree h' (set_kids root (place new a (a + size - 1) f Nil K) T)) /\
     ((forall a, ~ fits a) -> exists h', allocate_resource None root new size min max (2 ^ k) h = Some (- EBUSY, h') /\ tree h' T)).
Proof.
  pose proof HT as [HTr Hd Hok]. destruct (find_rep _ _ _ _ _ _ _ _ HTr Hf) as (p0 & q0 & Hroot & HK).
  destruct (find_nodup _ _ _ _ _ _ Hd Hf) as [HdK _]. destruct (find_ids _ _ _ _ _ _ Hf) as [Hin Hsub].
  destruct (find_ok _ _ _ _ _ _ _ _ Hok Hf) as (L1 & L2 & L3 & HoK). pose proof Hn as [(p & q & Hnew) _ _ _ Hap].
  assert (new ∉ ids T) as HnT by (apply Hap; set_solver). assert (root <> new) as Hne by set_solver.
  assert (forall x y, tree (<[new := Resource x y f p q None]> h) T) as HTx by (intros x y; by apply (detached_range h T new s e f x y p q None HT Hn)).
  split.
  - intros alignf size min max align.
    destruct (find_resource_any alignf h root new size min max align s0 e0 f0 p0 q0 _ K Hroot Hnew Hne HK ltac:(set_solver) HdK) as (v & x & y & E & Hv).
    cbn [flags parent sibling child head] in E.
    destruct (allocate_request _ T root s0 e0 f0 K new f (HTx x y) Hf alignf size min max align v x y p q h s e HT Hn eq_refl E Hv) as (h' & Hu & [(-> & _ & _ & Ea & Ht)|(_ & Ea & Ht)]); [exists 0, x, y, h'|exists (- EBUSY), x, y, h']; auto.
  - intros size min max k Hk Hsize Hmin Hmax Hminw He0 fits.
    destruct (find_resource_eq h root new size min max k s0 e0 f0 p0 q0 f p q None s e K Hk Hsize Hmin Hmax Hminw He0 ltac:(lia) Hroot Hnew Hne HK ltac:(set_solver) HdK HoK) as (x & y & E & Hxy).
    pose proof (search_spec size min max k Hk Hsize Hmin Hmax Hminw e0 K He0 s0 ltac:(lia) ltac:(lia) HoK) as S. fold fits in S.
    destruct (allocate_request _ T root s0 e0 f0 K new f (HTx x y) Hf None size min max (2 ^ k) _ x y p q h s e HT Hn eq_refl E ltac:(destruct (search _ _ _ _ _ _ _); tauto)) as (h' & _ & H).
    destruct (search size min max k e0 s0 K) as [a0|].
    + destruct (Hxy a0 eq_refl) as [-> ->], S as [S1 S2]. assert (inside a0 (a0 + size - 1) s0 e0 = true) as Hi.
      { unfold inside. destruct (S1) as [(_ & ? & ? & ? & ?) _]. rewrite !(proj2 (Z.leb_le _ _)) by lia. done. }
      split; [intros a Ha Hleast|intros Hno; by destruct (Hno a0)]. assert (a = a0) as -> by (specialize (Hleast a0 S1); specialize (S2 a Ha); lia).
      destruct H as [(_ & _ & _ & Ea & Ht)|(Hc & _)]; [eauto|]. exfalso. apply Hc; [done|done|]. apply (conflict_None _ _ _ _ _ HoK), S1.
    + split; [intros a Ha _; exfalso; by apply (S a)|]. intros _. destruct H as [(? & _)|(_ & Ea & Ht)]; [done|eauto].
Qed.

Lemma allocate_resource_correct_witness : exists h', allocate_resource None 1 3 8 12 255 8 ports_new = Some (0, h') /\
  tree h' (set_kids 1 (place 3 32 39 0 Nil (Node 2 16 31 0x100 Nil Nil)) ports).
Proof.
  refine (proj1 (proj2 (allocate_resource_correct ports_new ports 1 0 255 0x100 (Node 2 16 31 0x100 Nil Nil) 3 20 23 0 ports_new_tree eq_refl ports_new_detached)
    8 12 255 3 _ _ _ _ _ _) 32 _ _); try (split; [discriminate|reflexivity]); try discriminate; try reflexivity.
  - split; [split; [by exists 4|]; split; [discriminate|]; split; [discriminate|]; split; discriminate|].
    constructor; [right; reflexivity|constructor].
  - intros a' [([z ->] & Hmin & _) [Hap _]%Forall_cons_iff]. unfold apart in Hap. cbn in Hap. lia.
Defined.
(** Near the end of the address space alignment wraps around: with [min] 0x9000 and a
    resource in the way, the range at address 0 is taken. *)
Lemma allocate_below_min : let h := <[1%positive := Resource 0 0xffffffff 0x200 None None (Some 2%positive)]>
    (<[2%positive := Resource 0x10000 0xfffff000 0x200 (Some 1%positive) None None]> ports_new) in
  exists h' n, allocate_resource None 1 3 0x100 0x9000 0xffffffff 0x10000 h = Some (0, h') /\ h' !! 3%positive = Some n /\ start n = 0.
Proof. eexists _, _. vm_compute. auto. Qed.
(** A gap of one address is not used. *)
Lemma allocate_single : let h := <[2%positive := Resource 1 255 0x200 (Some 1%positive) None None]> ports_new in
  exists h', allocate_resource None 1 3 1 0 255 1 h = Some (- EBUSY, h').
Proof. eexists. vm_compute. reflexivity. Qed.
