(* ===== verification/ResInsert.v ===== *)
(** * Inserting resources above others

    The theorems about [insert_resource] and [insert_resource_expand_to_fit] of
    [kernel/resource.c], whose definitions are in [Resource]. *)

From Stdlib Require Import ZArith Lia.
From stdpp Require Import base tactics numbers list gmap option.
From S2P Require Import Prelude Resource Region.

(** ** Segments of sibling lists *)
Fixpoint fapp (A B : forest) : forest := match A with Nil => B | Node r s e f kids next => Node r s e f kids (fapp next B) end.
(** Siblings of which the last one points to [t]. *)
Fixpoint seg (h : heap) (par : option rid) (F : forest) (t : option rid) : Prop :=
  match F with
  | Nil => True
  | Node r s e f kids next =>
      h !! r = Some (Resource s e f par (match next with Nil => t | _ => head next end) (head kids)) /\ rep h (Some r) kids /\ seg h par next t
  end.
Lemma seg_rep h par F : seg h par F None <-> rep h par F.
Proof. induction F as [|r s e f kids _ next IHn]; [done|]. cbn [seg rep]. rewrite IHn. by destruct next. Qed.
Lemma seg_frame h h' par F t : (forall x, x ∈ ids F -> h' !! x = h !! x) -> seg h par F t -> seg h' par F t.
Proof.
  induction F as [|r s e f kids _ next IHn]; intros Hf; [done|]. cbn [seg]. intros (Hr & Hk & Hn). rewrite Hf by ids. split; [done|].
  split; [apply (rep_frame h); [|done]|apply IHn; [|done]]; intros x Hx; apply Hf; ids.
Qed.
Lemma head_fapp A B : head (fapp A B) = match A with Nil => head B | _ => head A end.
Proof. by destruct A. Qed.
Lemma seg_app h par A B t : seg h par (fapp A B) t <-> seg h par A (match B with Nil => t | _ => head B end) /\ seg h par B t.
Proof.
  induction A as [|r s e f kids _ next IHn]; cbn [fapp seg]; [tauto|]. rewrite IHn.
  assert (match fapp next B with Nil => t | _ => head (fapp next B) end = match next with Nil => match B with Nil => t | _ => head B end | _ => head next end) as -> by (by destruct next, B).
  tauto.
Qed.
Lemma ids_app A B : ids (fapp A B) = ids A ++ ids B.
Proof. induction A as [|r s e f kids _ next IHn]; [done|]. cbn [fapp ids]. rewrite IHn. cbn. by rewrite app_assoc. Qed.
Lemma tops_app A B : tops (fapp A B) = tops A ++ tops B.
Proof. induction A as [|r s e f kids _ next IHn]; [done|]. cbn [fapp tops]. by rewrite IHn. Qed.
Lemma nodes_app A B : nodes (fapp A B) = nodes A ++ nodes B.
Proof. induction A as [|r s e f kids _ next IHn]; [done|]. cbn [fapp nodes]. rewrite IHn. cbn. by rewrite app_assoc. Qed.
Fixpoint last_of (d : rid) (F : forest) : rid := match F with Nil => d | Node r _ _ _ _ next => last_of r next end.
Lemma last_tops d F : F <> Nil -> last_of d F ∈ tops F.
Proof.
  revert d. induction F as [|r s e f kids _ next IHn]; intros d Hne; [done|]. cbn [last_of tops].
  destruct next as [|r' s' e' f' kids' next']; [cbn; set_solver|].
  specialize (IHn r ltac:(done)). set_solver.
Qed.
(** The pointer at the end is the sibling of the last one. *)
Lemma seg_last h par F t d : seg h par F t -> F <> Nil -> exists n, h !! last_of d F = Some n /\ sibling n = t.
Proof.
  revert d. induction F as [|r s e f kids _ next IHn]; intros d; [done|]. intros (Hr & Hk & Hn) _. cbn [last_of].
  destruct next as [|r' s' e' f' kids' next']; [cbn; eauto|]. by apply IHn.
Qed.
Lemma seg_relink h par F t t' d n : seg h par F t -> NoDup (ids F) -> F <> Nil -> h !! last_of d F = Some n -> seg (<[last_of d F := with_sibling t' n]> h) par F t'.
Proof.
  revert d. induction F as [|r s e f kids _ next IHn]; intros d; [done|]. intros (Hr & Hk & Hn) (H1 & H2 & H3 & H4)%nodup_node _ Hl.
  cbn [last_of] in *. destruct next as [|r' s' e' f' kids' next'].
  - cbn [last_of] in *. rewrite Hr in Hl. simplify_eq. cbn [seg]. rewrite lookup_insert_eq. split; [done|]. split; [|done].
    apply rep_insert_out; [ids|done].
  - set (F' := Node r' s' e' f' kids' next') in *. pose proof (tops_ids _ _ (last_tops r F' ltac:(done))) as Hin. cbn [seg].
    split; [|split; [|by apply IHn]].
    + rewrite lookup_insert_ne by (intros E; rewrite E in Hin; ids). done.
    + apply rep_insert_out; [|done]. intros Hc. by eapply H3.
Qed.
Lemma seg_link_all h h' par F t t' d : seg h par F t -> NoDup (ids F) -> F <> Nil -> h' !! last_of d F = with_sibling t' <$> h !! last_of d F ->
  (forall x, x ∈ ids F -> x <> last_of d F -> h' !! x = h !! x) -> seg h' par F t'.
Proof.
  intros HF Hd Hne Hl Hx. destruct (seg_last _ _ _ _ d HF Hne) as (n & Hn & _).
  apply (seg_frame (<[last_of d F := with_sibling t' n]> h)); [|by eapply seg_relink].
  intros x Hin. destruct (decide (x = last_of d F)) as [->|Hxl]; [by rewrite Hl, Hn, lookup_insert_eq|]. rewrite lookup_insert_ne by done.
  by apply Hx.
Qed.

(** The loops of [__insert_resource]. *)
Lemma adopt_scan new par F : forall (h : heap) fuel, rep h par F -> NoDup (ids F) -> (length (ids F) < fuel)%nat ->
  exists h', while fuel (adopt_round new) (head F) h = Some (tt, h') /\ rep h' (Some new) F /\ forall x, x ∉ tops F -> h' !! x = h !! x.
Proof.
  induction F as [|r s e f kids _ next IHn]; intros h [|fuel] HF Hd Hf; try lia; rewrite while_S; cbn [head].
  - exists h. done.
  - destruct HF as (Hr & Hk & Hn). pose proof (nodup_node _ _ _ _ _ _ Hd) as (H1 & H2 & H3 & H4). cbn [ids length] in Hf. rewrite length_app in Hf.
    pose proof (tops_ids next) as Ht.
    unfold adopt_round at 1. rewrite !bind_assoc. run (modr_eq h r (with_parent (Some new)) _ Hr). set (n' := with_parent (Some new) _).
    set (h1 := <[r := n']> h).
    run (getr_run h1 r n' ltac:(apply lookup_insert_eq)). run_ret.
    destruct (IHn h1 fuel) as (h' & E & HR & Hx); [apply rep_insert_out; [ids|done]|done|lia|].
    exists h'. split; [exact E|]. split; [|intros x Hnx; cbn [tops] in Hnx; rewrite Hx by set_solver; apply lookup_insert_ne; set_solver]. cbn [rep].
    rewrite Hx by ids. unfold h1. rewrite lookup_insert_eq.
    split; [done|]. split; [|done]. apply (rep_frame h); [|done]. intros x Hin. rewrite Hx by (intros ?%Ht; by eapply H3). apply lookup_insert_ne.
    ids.
Qed.
Lemma seg_before c par A : forall (h : heap) fuel x d, seg h par A (Some c) -> head A = Some x -> c ∉ tops A -> (length (tops A) <= fuel)%nat ->
  while fuel (before_round (Some c)) x h = Some (last_of d A, h).
Proof.
  induction A as [|r s e f kids _ next IHn]; intros h [|fuel] x d HA Hx Hc Hf; try done; cbn [tops length] in Hf; [lia|].
  destruct HA as (Hr & _ & Hn). injection Hx as <-. rewrite while_S. cbn [last_of].
  unfold before_round at 1. rewrite bind_assoc. run (getr_run h r _ Hr). cbn [sibling].
  destruct next as [|y s' e' f' kids' next']; [rewrite decide_True by done; by run_ret|].
  cbn [head tops] in *. rewrite decide_False by set_solver. cbn [deref]. run_ret. run_ret. apply (IHn h fuel y r Hn eq_refl); [set_solver|lia].
Qed.

(** ** Insertion *)
(** The siblings from the first one on that start inside a range, if they all end inside
    it, and the others behind them. *)
Fixpoint cover (s e : Z) (F : forest) : rid + forest * forest :=
  match F with
  | Nil => inr (Nil, Nil)
  | Node r s' e' f' kids next =>
      if (s' <? s) || (e <? e') then inl r
      else
        match next with
        | Nil => inr (Node r s' e' f' kids Nil, Nil)
        | Node _ sn _ _ _ _ =>
            if e <? sn then inr (Node r s' e' f' kids Nil, next)
            else match cover s e next with inl c => inl c | inr (R, B) => inr (Node r s' e' f' kids R, B) end
        end
  end.
Lemma cover_app s e F R B : cover s e F = inr (R, B) -> F = fapp R B /\ (F <> Nil -> R <> Nil /\ head R = head F).
Proof.
  revert R. induction F as [|r s' e' f' kids _ next IHn]; intros R; cbn [cover]; [intros; by simplify_eq|]. destruct (_ || _); [done|].
  destruct next as [|r2 s2 e2 f2 k2 n2]; [intros; by simplify_eq|].
  destruct (e <? s2); [intros; by simplify_eq|]. destruct (cover s e _) as [|[R' B2]]; [done|]. intros; simplify_eq.
  destruct (IHn _ eq_refl) as [-> _]. done.
Qed.
Lemma covered_scan new s e par F : forall (h : heap) n fuel r, h !! new = Some n -> start n = s -> end_ n = e -> rep h par F -> head F = Some r -> (length (ids F) < fuel)%nat ->
  while fuel (covered_round new) r h = Some (match cover s e F with inl c => inl c | inr (R, _) => inr (last_of r R) end, h).
Proof.
  induction F as [|r s' e' f' kids _ next IHn]; intros h n [|fuel] x Hnew Hs He HF Hx Hf; try lia; [done|]. destruct HF as (Hr & _ & Hn).
  injection Hx as <-. rewrite while_S. cbn [cover].
  unfold covered_round at 1. rewrite !bind_assoc. run (getr_run h r _ Hr). rewrite bind_assoc. run (getr_run h new n Hnew). rewrite Hs, He.
  cbn [start end_ sibling]. destruct ((s' <? s) || (e <? e')); [done|].
  destruct next as [|r2 s2 e2 f2 k2 n2]; cbn [head]; [done|]. pose proof Hn as (Hr2 & _). rewrite bind_assoc. run (getr_run h r2 _ Hr2). cbn [start].
  destruct (e <? s2); [done|]. run_ret.
  cbn [ids length] in Hf. rewrite length_app in Hf. specialize (IHn h n fuel r2 Hnew Hs He Hn eq_refl ltac:(cbn [ids length] in *; lia)). rewrite IHn.
  destruct (cover s e _) as [|[R B]] eqn:Ec; [done|]. apply cover_app in Ec as [_ Hc]. destruct (Hc ltac:(done)) as [HR Eh]. destruct R; [done|].
  cbn in Eh. injection Eh as ->. done.
Qed.
Lemma dom_length (h : heap) (l : list rid) : NoDup l -> (forall x, x ∈ l -> is_Some (h !! x)) -> (length l <= size h)%nat.
Proof.
  intros Hd Hl. rewrite <- (size_list_to_set (C:=gset rid) _ Hd), <- size_dom. apply subseteq_size. intros x Hx%elem_of_list_to_set.
  apply elem_of_dom. by apply Hl.
Qed.

Section Splice.
Context (h : heap) (P new c : rid) (s0 e0 f0 : Z) (p0 q0 : option rid) (s e f : Z) (pn qn cn : option rid) (A R B : forest).
Let K := fapp A (fapp R B).
Context (HP : h !! P = Some (Resource s0 e0 f0 p0 q0 (head K))) (HK : rep h (Some P) K) (Hd : NoDup (ids K)) (HPK : P ∉ ids K).
Context (Hnew : h !! new = Some (Resource s e f pn qn cn)) (HnK : new ∉ ids K) (Hne : new <> P) (HR : R <> Nil) (Hc : head R = Some c).

(** The new resource takes over the children [R]. *)
Let h1 : heap := <[new := Resource s e f (Some P) (head B) (Some c)]> h.
Lemma splice_adopt : exists h3, 
  (modr new (with_parent (Some P)) ;; let* x := getr (last_of c R) in modr new (with_sibling (sibling x)) ;; modr new (with_child (Some c)) ;;
   modr (last_of c R) (with_sibling None) ;; walk (adopt_round new) (Some c)) h = Some (tt, h3) /\
  rep h3 (Some new) R /\ h3 !! new = Some (Resource s e f (Some P) (head B) (Some c)) /\ forall x, x <> new -> x ∉ tops R -> h3 !! x = h !! x.
Proof using All.
  pose proof (tops_ids R) as HtR. pose proof (last_tops c R HR) as Hl.
  assert (last_of c R <> new) as Hln by (intros E; apply HnK; unfold K; rewrite !ids_app; rewrite E in Hl; set_solver).
  apply seg_rep in HK. unfold K in HK. rewrite !seg_app in HK. destruct HK as (_ & HsR & _).
  assert (match B with Nil => None | _ => head B end = head B) as ES by (by destruct B). rewrite ES in HsR.
  destruct (seg_last _ _ _ _ c HsR HR) as (nl & Hnl & Hsl). unfold K in Hd, HnK. rewrite !ids_app in Hd, HnK.
  apply list.NoDup_app in Hd as (_ & _ & [HdR _]%list.NoDup_app).
  set (N := fun p q k => Resource s e f p q k). run (modr_eq h new (with_parent (Some P)) _ Hnew).
  change (with_parent (Some P) _) with (N (Some P) qn cn).
  run (getr_run (<[new := N (Some P) qn cn]> h) _ nl ltac:(by rewrite lookup_insert_ne)). rewrite Hsl.
  run (modr_insert h new (with_sibling (head B)) (N (Some P) qn cn)). change (with_sibling _ _) with (N (Some P) (head B) cn).
  run (modr_insert h new (with_child (Some c)) (N (Some P) (head B) cn)). change (<[new := with_child _ _]> h) with h1.
  run (modr_eq h1 (last_of c R) (with_sibling None) nl ltac:(unfold h1; by rewrite lookup_insert_ne)).
  set (h2 := <[last_of c R := with_sibling None nl]> h1).
  assert (rep h2 (Some P) R) as HR2.
  { apply seg_rep. eapply seg_relink; [|done|done|unfold h1; by rewrite lookup_insert_ne]. apply (seg_frame h); [|done]. intros x Hx.
    apply lookup_insert_ne. set_solver. }
  destruct (adopt_scan new _ R h2 (2 + size h2) HR2 HdR ltac:(pose proof (rep_length _ _ _ HR2 HdR); lia)) as (h3 & E3 & HR3 & Hx3). rewrite Hc in E3.
  exists h3. split; [exact E3|]. split; [done|]. split; [|intros x Hx1 Hx2].
  - rewrite Hx3 by (intros ?%HtR; set_solver). unfold h2, h1. by rewrite lookup_insert_ne, lookup_insert_eq.
  - rewrite Hx3 by done. unfold h2, h1. rewrite !lookup_insert_ne; [done|done|intros <-; done].
Qed.
(** ... and their place. *)
Lemma splice_link h3 : rep h3 (Some new) R -> h3 !! new = Some (Resource s e f (Some P) (head B) (Some c)) -> (forall x, x <> new -> x ∉ tops R -> h3 !! x = h !! x) ->
  exists h4, (let* p := getr P in
    if decide (child p = Some c) then modr P (with_child (Some new)) ;; ret (@None rid)
    else let* next := deref (child p) in let* next := walk (before_round (Some c)) next in modr next (with_sibling (Some new)) ;; ret None) h3 = Some (None, h4) /\
  grafted h h4 (ChildOf P) (Some P) (fapp A (Node new s e f R B)) (new :: tops K).
Proof using All.
  intros H1 H2 H3. pose proof (tops_ids R) as HtR. apply seg_rep in HK. unfold K in HK, Hd, HPK, HnK. rewrite !seg_app in HK.
  destruct HK as (HsA & _ & HsS). rewrite !ids_app in Hd, HPK, HnK.
  apply list.NoDup_app in Hd as (HdA & HdX & [HdR [HdRS HdS]]%list.NoDup_app).
  assert (c ∈ tops R) as HcR by (destruct R; [done|]; injection Hc as ->; cbn; set_solver).
  assert (h3 !! P = Some (Resource s0 e0 f0 p0 q0 (head K))) as HP3 by (rewrite H3; [done|done|intros ?%HtR; set_solver]).
  assert (seg h3 (Some P) B None) as HS3 by (apply (seg_frame h); [|done]; intros x Hx; apply H3; [set_solver|intros ?%HtR; set_solver]).
  assert (seg h3 (Some P) A (Some c)) as HA3.
  { apply (seg_frame h); [intros x Hx; apply H3; [set_solver|intros ?%HtR; set_solver]|]. destruct R; [done|]. cbn in HsA, Hc. by simplify_eq. }
  assert (forall x v, x <> new -> x ∉ ids R -> x ∉ ids B -> seg (<[x := v]> h3) (Some P) (Node new s e f R B) None) as Hnode.
  { intros x v X1 X2 X3. apply seg_rep. cbn [rep]. rewrite lookup_insert_ne, H2, Hc by done. split; [done|]. split; [by apply rep_insert_out|].
    apply rep_insert_out; [done|]. by apply seg_rep. }
  run (getr_run h3 P _ HP3). cbn [child]. unfold K. rewrite !head_fapp.
  assert (match R with Nil => head B | _ => head R end = Some c) as EhR by (by destruct R). rewrite EhR.
  assert (A = Nil \/ exists a, head A = Some a /\ A <> Nil) as [EA|(a & Ha & HA)] by (destruct A; cbn; eauto).
  - rewrite EA. rewrite decide_True by done. run (modr_eq h3 P (with_child (Some new)) _ HP3). eexists. split; [done|].
    split; cbn [owner set_slot fapp].
    + rewrite lookup_insert_eq, HP. done.
    + apply seg_rep, Hnode; [done|set_solver|set_solver].
    + intros x Hx1 Hx2. rewrite lookup_insert_ne by done. apply H3; [set_solver|]. rewrite !tops_app in Hx1. set_solver.
  - assert (match A with Nil => Some c | _ => head A end = Some a) as -> by (by destruct A). pose proof (tops_ids A) as HtA.
    pose proof (last_tops c A HA) as Hl.
    assert (a ∈ tops A) as HaA by (destruct A; [done|]; injection Ha as ->; cbn; set_solver).
    assert (a <> c) as Hac by (intros ->; apply (HdX c); [by apply HtA|apply elem_of_app; left; by apply HtR]). rewrite decide_False by congruence.
    cbn [deref]. run_ret. assert (walk (before_round (Some c)) a h3 = Some (last_of c A, h3)) as Ew.
    { apply (seg_before c (Some P) A); [done|done| |].
      - intros ?%HtA. apply (HdX c); [done|]. apply elem_of_app. left. by apply HtR.
      - assert (length (tops A) <= size h3)%nat; [|lia]. apply dom_length.
        + clear - HdA. induction A as [|r' s' e' f' k' _ n' IH]; [constructor|]. apply nodup_node in HdA as (X1 & _ & _ & X4). cbn [tops].
          apply list.NoDup_cons. split; [intros ?%tops_ids; set_solver|by apply IH].
        + intros x Hx. clear - HA3 Hx. induction A as [|r' s' e' f' k' _ n' IH]; [set_solver|]. destruct HA3 as (X & _ & Y). cbn [tops] in Hx.
          apply elem_of_cons in Hx as [->|Hx]; [eauto|by apply IH]. }
    run Ew. destruct (seg_last _ _ _ _ c HA3 HA) as (nl & Hnl & _). run (modr_eq h3 (last_of c A) (with_sibling (Some new)) nl Hnl). eexists.
    split; [done|]. apply HtA in Hl. split; cbn [owner set_slot].
    + rewrite lookup_insert_ne by set_solver. rewrite HP3, HP. unfold K. rewrite !head_fapp. by destruct A.
    + apply seg_rep, seg_app. split; [by eapply seg_relink|].
      apply Hnode; [set_solver|intros ?; by eapply HdX; [exact Hl|set_solver]|intros ?; by eapply HdX; [exact Hl|set_solver]].
    + intros x Hx1 Hx2. rewrite !tops_app in Hx1. pose proof (last_tops c A HA). rewrite lookup_insert_ne by set_solver. apply H3; set_solver.
Qed.
End Splice.

(** A resource in the way that does not hold the new one properly ends the descent. *)
Definition breaks (s e s' e' : Z) : bool := (s <? s') || (e' <? e) || ((s' =? s) && (e' =? e)).
(** The siblings with the new one, above those it covers, or the resource it overlaps in
    part. *)
Fixpoint insert (new : rid) (s e f : Z) (F : forest) : rid + forest :=
  match F with
  | Nil => inr (Node new s e f Nil Nil)
  | Node r s' e' f' kids next =>
      if e <? s' then inr (Node new s e f Nil F)
      else if e' <? s then match insert new s e f next with inl c => inl c | inr next' => inr (Node r s' e' f' kids next') end
      else if breaks s e s' e' then match cover s e F with inl c => inl c | inr (R, B) => inr (Node new s e f R B) end
      else match insert new s e f kids with inl c => inl c | inr kids' => inr (Node r s' e' f' kids' next) end
  end.
Lemma insert_step new s e f K : NoDup (ids K) ->
  match conflict s e K with
  | None => insert new s e f K = inr (place new s e f Nil K)
  | Some c => exists A sc ec fc kc nc, let F := Node c sc ec fc kc nc in K = fapp A F /\ find c K = Some (sc, ec, fc, kc) /\ (length (ids kc) < length (ids K))%nat /\
      insert new s e f K =
        if breaks s e sc ec then match cover s e F with inl x => inl x | inr (R, B) => inr (fapp A (Node new s e f R B)) end
        else match insert new s e f kc with inl x => inl x | inr kc' => inr (set_kids c kc' K) end
  end.
Proof.
  induction K as [|r s' e' f' kids _ next IHn]; [done|]. intros (H1 & H2 & H3 & H4)%nodup_node. cbn [conflict insert place].
  destruct (e <? s'); [done|]. destruct (e' <? s).
  - specialize (IHn H4). destruct (conflict s e next) as [c|] eqn:Ec; [|by rewrite IHn].
    destruct IHn as (A & sc & ec & fc & kc & nc & EK & Hf & Hl & Ei). pose proof (find_in _ _ _ _ _ _ Hf) as Hin.
    exists (Node r s' e' f' kids A), sc, ec, fc, kc, nc. cbv zeta. split; [cbn; by rewrite EK|].
    assert (c ∉ ids kids) as Hck by (intros Hc; by eapply H3). split; [|split].
    + cbn [find]. rewrite decide_False by ids. by rewrite find_None.
    + cbn [ids length]. rewrite length_app. lia.
    + rewrite Ei. destruct (breaks s e sc ec); [by destruct (cover s e _) as [|[R B]]|]. destruct (insert new s e f kc) as [|kc']; [done|].
      cbn [set_kids]. rewrite decide_False by ids. by rewrite (set_kids_out c kc' kids).
  - exists Nil, s', e', f', kids, next. cbv zeta. split; [done|]. cbn [find set_kids fapp]. rewrite decide_True by done. split; [done|].
    split; [cbn [ids length]; rewrite length_app; lia|].
    destruct (breaks s e s' e'); [by destruct (cover s e _) as [|[R B]]|]. destruct (insert new s e f kids); [done|]. by rewrite decide_True.
Qed.
Lemma descend_walk h T new s e f : tree h T -> detached h T new s e f Nil -> forall P s0 e0 f0 K fuel,
  find P T = Some (s0, e0, f0, K) -> inside s e s0 e0 = true -> (length (ids K) < fuel)%nat ->
  (exists h' K', while fuel (descend_round new) P h = Some (inl None, h') /\ insert new s e f K = inr K' /\ tree h' (set_kids P K' T) /\ unchanged h h' T [new]) \/
  (exists Q c sQ eQ fQ A sc ec fc kc nc, let F := Node c sc ec fc kc nc in while fuel (descend_round new) P h = Some (inr (Q, c), h) /\ find Q T = Some (sQ, eQ, fQ, fapp A F) /\
     match cover s e F with
     | inl x => insert new s e f K = inl x
     | inr (R, B) => exists K', insert new s e f K = inr K' /\ set_kids P K' T = set_kids Q (fapp A (Node new s e f R B)) T
     end).
Proof.
  intros HT Hn P s0 e0 f0 K. remember (length (ids K)) as k eqn:Hk. revert P s0 e0 f0 K Hk. induction k as [k IH] using lt_wf_ind.
  intros P s0 e0 f0 K -> fuel Hf Hi Hfu. destruct fuel as [|fuel]; [lia|]. rewrite while_S.
  pose proof (request_eq h T P s0 e0 f0 K new s e f Nil HT Hf Hn) as R. rewrite Hi in R.
  destruct (find_nodup _ _ _ _ _ _ (tree_nodup _ _ HT) Hf) as [HdK HPK]. pose proof (insert_step new s e f K HdK) as St.
  destruct (conflict s e K) as [c|] eqn:Ec.
  - destruct St as (A & sc & ec & fc & kc & nc & EK & Hfc & Hl & Ei). cbv zeta in *.
    pose proof (find_trans _ _ _ _ _ _ _ _ _ _ _ (tree_nodup _ _ HT) Hf Hfc) as HfT.
    destruct (find_rep _ _ _ _ _ _ _ _ (tree_rep _ _ HT) HfT) as (pc & qc & Hc & _). pose proof (find_in _ _ _ _ _ _ Hfc) as Hin.
    destruct (detached_node _ _ _ _ _ _ _ Hn) as (pn & qn & Hnew).
    assert (descend_round new P h = Some (if breaks s e sc ec then inr (inr (P, c)) else inl c, h)) as E.
    { unfold descend_round. run R. rewrite decide_False by set_solver. run (getr_run h c _ Hc). run (getr_run h new _ Hnew). cbn [start end_].
      unfold breaks.
      destruct ((s <? sc) || (ec <? e)); [done|]. cbn [orb]. by destruct (_ && _). }
    run E. destruct (breaks s e sc ec) eqn:Eb.
    + right. exists P, c, s0, e0, f0, A, sc, ec, fc, kc, nc. cbv zeta. split; [done|]. split; [by rewrite Hf, EK|]. rewrite Ei.
      destruct (cover s e _) as [|[R' B]]; [done|]. eauto.
    + assert (inside s e sc ec = true) as Hi'.
      { unfold breaks in Eb. unfold inside in *. b2p. rewrite !(proj2 (Z.leb_le _ _)) by lia. done. }
      destruct (IH _ Hl c sc ec fc kc eq_refl fuel HfT Hi' ltac:(lia)) as [(h' & K' & E' & Ek & HT' & Hu)|(Q & c' & sQ & eQ & fQ & A' & sc' & ec' & fc' & kc' & nc' & E' & HfQ & Hcov)].
      * left. exists h', (set_kids c K' K). split; [done|]. split; [by rewrite Ei, Ek|].
        split; [by rewrite (set_kids_trans _ _ _ _ _ _ _ _ (tree_nodup _ _ HT) Hf Hin)|done].
      * right. exists Q, c', sQ, eQ, fQ, A', sc', ec', fc', kc', nc'. cbv zeta in *. split; [done|]. split; [done|].
        destruct (cover s e _) as [x|[R' B]]; [by rewrite Ei, Hcov|].
        destruct Hcov as (K' & Ek & Es). exists (set_kids c K' K). split; [by rewrite Ei, Ek|].
        by rewrite (set_kids_trans _ _ _ _ _ _ _ _ (tree_nodup _ _ HT) Hf Hin).
  - left. destruct R as (h' & R & HT' & Hu). exists h', (place new s e f Nil K). split; [|by split_and!].
    assert (descend_round new P h = Some (inr (inl None), h')) as E; [|by run E].
    unfold descend_round. by run R.
Qed.

(** *** What insertion makes of the tree *)
(** Of a range and a resource, one holds the other, or they are apart. *)
Definition nested (s e : Z) (x : rid * (Z * Z * Z)) : Prop :=
  let '(_, (s', e', _)) := x in e < s' \/ e' < s \/ (s' <= s /\ e <= e') \/ (s <= s' /\ e' <= e).
Lemma nested_range s e lo hi F : ok lo hi F -> e < lo \/ hi < s \/ (s <= lo /\ hi <= e) -> Forall (nested s e) (nodes F).
Proof. intros HF Ho. apply list.Forall_forall. intros [x [[a b] c]] Hx. destruct (nodes_range _ _ _ _ _ _ _ HF Hx) as (? & ? & ?). cbn. lia. Qed.
Lemma cover_spec s e F lo hi : ok lo hi F -> s <= lo -> (forall r s' e' f' k n, F = Node r s' e' f' k n -> s' <= e /\ (s < s' \/ e' <= e)) ->
  match cover s e F with
  | inl c => exists y, (c, y) ∈ nodes F /\ ~ nested s e (c, y)
  | inr (R, B) => Forall (nested s e) (nodes F) /\ ok lo e R /\ ok (e + 1) hi B
  end.
Proof.
  revert lo. induction F as [|r s' e' f' kids _ next IHn]; intros lo; cbn [cover]; [intros; cbn; auto|]. intros (O1 & O2 & O3 & O4 & O5) Hlo Hs.
  destruct (Hs _ _ _ _ _ _ eq_refl) as [Hs1 Hs2].
  pose proof (Forall_cons_iff (nested s e) (r, (s', e', f')) (nodes kids ++ nodes next)) as HF. rewrite Forall_app in HF. cbn [nested] in HF.
  cbn [nodes]. rewrite (proj2 (Z.ltb_ge s' s)) by lia. cbn [orb].
  destruct (Z.ltb_spec e e') as [Hlt|Hge]; [exists (s', e', f'); split; [set_solver|cbn; lia]|].
  pose proof (nested_range s e s' e' kids O4 ltac:(lia)) as Hk. destruct next as [|r2 s2 e2 f2 k2 n2].
  - rewrite HF. cbn [ok]. split; [split; [lia|done]|]. split; [split_and!; done || lia|done].
  - set (next := Node r2 s2 e2 f2 k2 n2) in *. destruct (Z.ltb_spec e s2) as [Hlt2|Hge2].
    + assert (ok (e + 1) hi next) as HB by (destruct O5 as (_ & ? & ? & ? & ?); cbn; split_and!; done || lia). rewrite HF.
      split; [|cbn [ok]; split; [split_and!; done || lia|done]].
      split; [lia|]. split; [done|]. by apply (nested_range s e (e + 1) hi); [|lia].
    + specialize (IHn (e' + 1) O5 ltac:(lia) ltac:(intros; simplify_eq; destruct O5; lia)). destruct (cover s e next) as [x|[R B]].
      * destruct IHn as (y & Hy & Hny). exists y. split; [set_solver|done].
      * destruct IHn as (I1 & I2 & I3). rewrite HF. split; [split; [lia|done]|]. split; [|done]. cbn [ok]. split_and!; done || lia.
Qed.
(** An insertion succeeds exactly when the new range is nested with all others. *)
Lemma insert_spec new s e f K lo hi : ok lo hi K -> s <= e -> lo <= s -> e <= hi ->
  match insert new s e f K with
  | inl c => exists y, (c, y) ∈ nodes K /\ ~ nested s e (c, y)
  | inr K' => Forall (nested s e) (nodes K) /\ ok lo hi K' /\ nodes K' ≡ₚ (new, (s, e, f)) :: nodes K
  end.
Proof.
  intros HK Hse. revert lo hi HK. induction K as [|r s' e' f' kids IHk next IHn]; intros lo hi; [intros _ ? ?; cbn; split_and!; done|].
  intros (O1 & O2 & O3 & O4 & O5) Hlo Hhi. cbn [insert].
  pose proof (Forall_cons_iff (nested s e) (r, (s', e', f')) (nodes kids ++ nodes next)) as HF. rewrite Forall_app in HF. cbn [nested] in HF.
  destruct (Z.ltb_spec e s') as [Hlt|Hge].
  { cbn [nodes ok]. rewrite HF. split; [|split; [split_and!; done || lia|done]]. split; [lia|]. split; (eapply nested_range; [eassumption|lia]). }
  destruct (Z.ltb_spec e' s) as [Hlt'|Hge'].
  { specialize (IHn _ _ O5 ltac:(lia) Hhi). cbn [nodes].
    destruct (insert new s e f next) as [x|next']; [destruct IHn as (y & Hy & Hny); exists y; split; [set_solver|done]|]. rewrite HF.
    destruct IHn as (I1 & I2 & I3). split; [split; [lia|]; split; [by eapply nested_range; [eassumption|lia]|done]|].
    split; [cbn [ok]; by split_and!|]. cbn [nodes]. rewrite I3. rewrite <- Permutation_middle. apply perm_swap. }
  destruct (breaks s e s' e') eqn:Eb.
  - assert (cover s e (Node r s' e' f' kids next) = inl r /\ s' < s /\ e' < e \/ s <= s' /\ (s < s' \/ e' <= e)) as [(Ec & Hs & He)|(Hs & Hs2)].
    { unfold breaks in Eb. cbn [cover].
      destruct (Z.ltb_spec s s'), (Z.ltb_spec e' e), (Z.eqb_spec s' s), (Z.eqb_spec e' e), (Z.ltb_spec s' s); cbn [orb andb] in *; try done; try (right; lia); left; done.
      }
    + rewrite Ec. exists (s', e', f'). split; [cbn; set_solver|cbn; lia].
    + pose proof (cover_spec s e (Node r s' e' f' kids next) s' hi ltac:(cbn; split_and!; done || lia) Hs ltac:(intros; simplify_eq; lia)) as C.
      destruct (cover s e _) as [x|[R B]] eqn:Ec; [done|].
      destruct C as (C1 & C2 & C3). split; [done|]. apply cover_app in Ec as [Ec _]. split.
      * cbn [ok]. split_and!; try lia; [by eapply ok_weaken; [exact C2|lia|lia]|done].
      * rewrite Ec, nodes_app. done.
  - unfold breaks in Eb. b2p. specialize (IHk _ _ O4 ltac:(lia) ltac:(lia)). cbn [nodes].
    destruct (insert new s e f kids) as [x|kids']; [destruct IHk as (y & Hy & Hny); exists y; split; [set_solver|done]|].
    rewrite HF. destruct IHk as (I1 & I2 & I3). split.
    + split; [lia|]. split; [done|]. eapply nested_range; [exact O5|lia].
    + split; [cbn [ok]; by split_and!|]. cbn [nodes]. rewrite I3. cbn [app]. apply perm_swap.
Qed.
Lemma insert_ids new s e f K K' lo hi : ok lo hi K -> s <= e -> lo <= s -> e <= hi -> insert new s e f K = inr K' -> ids K' ≡ₚ new :: ids K.
Proof. intros HK H1 H2 H3 E. pose proof (insert_spec new s e f K lo hi HK H1 H2 H3) as S. rewrite E in S. destruct S as (_ & _ & S). rewrite <- !nodes_ids, S. done. Qed.
Lemma bind_inv {X Y Z} (m : ST X Y) (k : Y -> ST X Z) h r : bind m k h = Some r -> exists a h', m h = Some (a, h') /\ k a h' = Some r.
Proof. unfold bind. destruct (m h) as [[a h']|]; [eauto|done]. Qed.
Lemma insert_eq h T P s0 e0 f0 K new s e f : tree h T -> find P T = Some (s0, e0, f0, K) -> detached h T new s e f Nil ->
  if inside s e s0 e0 then
    match insert new s e f K with
    | inl x => __insert_resource P new h = Some (Some x, h)
    | inr K' => exists h', __insert_resource P new h = Some (None, h') /\ tree h' (set_kids P K' T) /\ unchanged h h' T [new]
    end
  else __insert_resource P new h = Some (Some P, h).
Proof.
  intros HT Hf Hn. pose proof HT as [HTr Hd Hok]. destruct (find_rep _ _ _ _ _ _ _ _ HTr Hf) as (p0 & q0 & _ & HK).
  destruct (find_nodup _ _ _ _ _ _ Hd Hf) as [HdK _]. destruct (find_ids _ _ _ _ _ _ Hf) as [_ Hsub].
  destruct (find_ok _ _ _ _ _ _ _ _ Hok Hf) as (_ & _ & _ & HoK). destruct (detached_node _ _ _ _ _ _ _ Hn) as (pn & qn & Hnew).
  assert (new ∉ ids T) as HnT by (apply (detached_apart _ _ _ _ _ _ _ Hn); set_solver).
  destruct (inside s e s0 e0) eqn:Ei.
  2: { pose proof (request_eq h T P s0 e0 f0 K new s e f Nil HT Hf Hn) as R. rewrite Ei in R.
       assert (walk (descend_round new) P h = Some (inl (Some P), h)) as E; [|unfold __insert_resource; by run E].
       unfold walk. change (2 + size h)%nat with (S (S (size h))). rewrite while_S.
       assert (descend_round new P h = Some (inr (inl (Some P)), h)) as E; [|by run E]. unfold descend_round. run R. by rewrite decide_True. }
  pose proof Ei as Ei'. unfold inside in Ei'. b2p. pose proof (rep_length _ _ _ HK HdK) as Hsz.
  destruct (descend_walk h T new s e f HT Hn P s0 e0 f0 K (2 + size h) Hf Ei ltac:(lia)) as [(h' & K' & E & Ek & HT' & Hu)|(Q & c & sQ & eQ & fQ & A & sc & ec & fc & kc & nc & E & HfQ & Hcov)].
  { rewrite Ek. exists h'. split; [|done]. assert (walk (descend_round new) P h = Some (inl None, h')) as E' by exact E. unfold __insert_resource.
    by run E'. }
  cbv zeta in *. set (F := Node c sc ec fc kc nc) in *. assert (walk (descend_round new) P h = Some (inr (Q, c), h)) as E' by exact E. clear E.
  destruct (find_rep _ _ _ _ _ _ _ _ HTr HfQ) as (pQ & qQ & HQ & HKQ). destruct (find_nodup _ _ _ _ _ _ Hd HfQ) as [HdQ HQK].
  destruct (find_ids _ _ _ _ _ _ HfQ) as [HQT HsubQ].
  assert (rep h (Some Q) F) as HFr by (apply seg_rep in HKQ; rewrite seg_app in HKQ; by apply seg_rep, HKQ). pose proof HdQ as HdF.
  rewrite ids_app in HdF. apply list.NoDup_app in HdF as (_ & _ & HdF).
  pose proof (covered_scan new s e (Some Q) F h _ (2 + size h) c Hnew eq_refl eq_refl HFr eq_refl ltac:(pose proof (rep_length _ _ _ HFr HdF); lia)) as Ec.
  unfold __insert_resource. run E'. destruct (cover s e F) as [x|[R B]] eqn:Ecov.
  { rewrite Hcov. assert (walk (covered_round new) c h = Some (inl x, h)) as E by exact Ec. by run E. }
  destruct Hcov as (K' & Ek & Es). rewrite Ek. assert (walk (covered_round new) c h = Some (inr (last_of c R), h)) as E by exact Ec. run E.
  apply cover_app in Ecov as [EF HR]. destruct (HR ltac:(done)) as [HR1 HR2'].
  assert (head R = Some c) as HR2 by (by rewrite HR2'). clear HR HR2'. rewrite EF in *.
  destruct (splice_adopt h Q new c sQ eQ fQ pQ qQ s e f pn qn None A R B HQ HKQ HdQ HQK Hnew ltac:(set_solver) ltac:(set_solver) HR1 HR2) as (h3 & E3 & X1 & X2 & X3).
  destruct (splice_link h Q new c sQ eQ fQ pQ qQ s e f pn qn None A R B HQ HKQ HdQ HQK Hnew ltac:(set_solver) ltac:(set_solver) HR1 HR2 h3 X1 X2 X3) as (h4 & E4 & G).
  exists h4. split; [|split; [split|]].
  - rewrite <- E4. do 5 (let Em := fresh in apply bind_inv in E3 as (? & ? & Em & E3); run Em). by run E3.
  - rewrite Es. eapply rep_set_kids; [done|done|done| |exact G]. intros x [->|Hx%tops_ids]%elem_of_cons; [by right|by left].
  - pose proof (insert_ids new s e f K K' s0 e0 HoK ltac:(lia) ltac:(lia) ltac:(lia) Ek) as Hp. eapply nodup_set_kids; [done|done| |].
    + rewrite Hp. apply list.NoDup_cons. split; [set_solver|done].
    + intros x. rewrite Hp. set_solver.
  - eapply ok_set_kids; [done|done|done|]. pose proof (insert_spec new s e f K s0 e0 HoK ltac:(lia) ltac:(lia) ltac:(lia)) as S. rewrite Ek in S.
    tauto.
  - intros x Hx1 Hx2. destruct G as [_ _ G]. apply G; [|cbn [owner]; set_solver]. intros [->|Hx%tops_ids]%elem_of_cons; set_solver.
Qed.

(** C19. [insert_resource] puts a resource without children into the tree exactly when its
    range is not empty, inside that of the parent, and with each resource below either
    apart, inside or around; those inside become its descendants, nothing else changes,
    and the tree stays ordered and nested.  Otherwise it returns [-EBUSY] and changes
    nothing. *)
Theorem insert_resource_correct (h : heap) (T : forest) (P : rid) (s0 e0 f0 : Z) (K : forest) (new : rid) (s e f : Z)
    (HT : tree h T) (Hf : find P T = Some (s0, e0, f0, K)) (Hn : detached h T new s e f Nil) :
  let fits := s0 <= s /\ s <= e /\ e <= e0 /\ Forall (nested s e) (nodes K) in
  (fits -> exists h' K', insert_resource P new h = Some (0, h') /\ tree h' (set_kids P K' T) /\ nodes K' ≡ₚ (new, (s, e, f)) :: nodes K /\ unchanged h h' T [new]) /\
  (~ fits -> insert_resource P new h = Some (- EBUSY, h)).
Proof.
  intros fits. pose proof (insert_eq h T P s0 e0 f0 K new s e f HT Hf Hn) as R.
  destruct (find_ok _ _ _ _ _ _ _ _ (tree_ok _ _ HT) Hf) as (_ & _ & _ & HoK). unfold insert_resource, fits. clear fits.
  destruct (inside s e s0 e0) eqn:Ei.
  - unfold inside in Ei. b2p. pose proof (insert_spec new s e f K s0 e0 HoK ltac:(lia) ltac:(lia) ltac:(lia)) as S.
    destruct (insert new s e f K) as [x|K'].
    + destruct S as (y & Hy & Hny). split; [|intros _; by run R]. intros (_ & _ & _ & HF). rewrite list.Forall_forall in HF. by apply HF in Hy.
    + destruct R as (h' & R & HT' & Hu), S as (S1 & S2 & S3). split; [|intros Hno; exfalso; apply Hno; split_and!; done || lia]. intros _.
      exists h', K'. split; [by run R|done].
  - split; [|intros _; by run R]. intros (? & ? & ? & _). unfold inside in Ei. rewrite !(proj2 (Z.leb_le _ _)) in Ei by lia. done.
Qed.
Lemma insert_resource_correct_witness : exists h' K', insert_resource 1 3 (<[3%positive := Resource 8 63 0 None None None]> ports_heap) = Some (0, h') /\
  tree h' (set_kids 1 K' ports) /\ nodes K' ≡ₚ [(3%positive, (8, 63, 0)); (2%positive, (16, 31, 0x100))].
Proof.
  destruct (detached_range ports_new ports 3 20 23 0 8 63 None None None ports_new_tree ports_new_detached eq_refl) as (HT & Hd & _).
  unfold ports_new in HT, Hd. rewrite insert_insert_eq in HT, Hd.
  destruct (proj1 (insert_resource_correct _ ports 1 0 255 0x100 (Node 2 16 31 0x100 Nil Nil) 3 8 63 0 HT eq_refl Hd)) as (h' & K' & E & HT' & Hp & _).
  - split; [discriminate|]. split; [discriminate|]. split; [discriminate|]. constructor; [|constructor]. right. right. right. split; discriminate.
  - exists h', K'. split; [exact E|]. split; [exact HT'|exact Hp].
Defined.

(** ** Expanding to fit *)
Definition outside (s e : Z) (x : rid * (Z * Z * Z)) : Prop := let '(_, (s', e', _)) := x in ~ (s <= s' /\ e' <= e).
#[global] Instance outside_dec s e x : Decision (outside s e x).
Proof. destruct x as [r [[a b] c]]. cbn. apply _. Defined.
Definition outsiders (s e : Z) (K : forest) : nat := length (filter (outside s e) (nodes K)).
Lemma filter_shorter {A} (P Q : A -> Prop) `{!forall x, Decision (P x), !forall x, Decision (Q x)} (l : list A) y :
  (forall x, Q x -> P x) -> y ∈ l -> P y -> ~ Q y -> (length (filter Q l) < length (filter P l))%nat.
Proof.
  intros HQP Hy HP HQ. assert (forall l, (length (filter Q l) <= length (filter P l))%nat) as Hle.
  { clear l Hy. induction l as [|x l IH]; [done|]. rewrite !filter_cons. repeat case_decide; cbn [length]; try lia. exfalso. auto. }
  induction l as [|x l IH]; [set_solver|]. rewrite !filter_cons. apply elem_of_cons in Hy as [->|Hy].
  - rewrite decide_False, decide_True by done. cbn [length]. specialize (Hle l). lia.
  - specialize (IH Hy). repeat case_decide; cbn [length]; try lia. exfalso. auto.
Qed.
Lemma expand_walk T root s0 e0 f0 K new f fuel : find root T = Some (s0, e0, f0, K) -> forall h s e, tree h T -> detached h T new s e f Nil ->
  inside s e s0 e0 = true -> (outsiders s e K < fuel)%nat ->
  exists s1 e1 h' K', while fuel (expand_round root new) tt h = Some (tt, h') /\ tree h' (set_kids root K' T) /\ nodes K' ≡ₚ (new, (s1, e1, f)) :: nodes K /\ unchanged h h' T [new] /\
    s1 <= s /\ e <= e1 /\ forall s2 e2, s2 <= s -> e <= e2 -> Forall (nested s2 e2) (nodes K) -> s2 <= s1 /\ e1 <= e2.
Proof.
  intros Hf. induction fuel as [|fuel IH]; intros h s e HT Hn Hi Hfu; [lia|]. rewrite while_S.
  pose proof (insert_eq h T root s0 e0 f0 K new s e f HT Hf Hn) as R. rewrite Hi in R.
  destruct (find_ok _ _ _ _ _ _ _ _ (tree_ok _ _ HT) Hf) as (_ & _ & _ & HoK). destruct (find_nodup _ _ _ _ _ _ (tree_nodup _ _ HT) Hf) as [_ HrK].
  unfold inside in Hi. b2p.
  pose proof (insert_spec new s e f K s0 e0 HoK ltac:(lia) ltac:(lia) ltac:(lia)) as S. destruct (insert new s e f K) as [x|K'].
  2: { destruct R as (h' & R & HT' & Hu), S as (_ & _ & S3). exists s, e, h', K'. split; [|split_and!; done || lia].
       assert (expand_round root new tt h = Some (inr tt, h')) as E; [|by run E]. unfold expand_round. by run R. }
  destruct S as ([[sx ex] fx] & Hx & Hnx). destruct (find_rep _ _ _ _ _ _ _ _ (tree_rep _ _ HT) Hf) as (? & ? & _ & HK).
  destruct (rep_nodes _ _ _ _ _ _ _ HK Hx) as (px & qx & cx & Hhx).
  destruct (nodes_range _ _ _ _ _ _ _ HoK Hx) as (X1 & X2 & X3). cbn in Hnx.
  assert (x ∈ ids K) as Hxin by (rewrite <- nodes_ids; apply list_elem_of_fmap; by exists (x, (sx, ex, fx))).
  destruct (detached_node _ _ _ _ _ _ _ Hn) as (pn & qn & Hnew). set (s' := Z.min s sx). set (e' := Z.max e ex).
  destruct (detached_range h T new s e f s' e' pn qn None HT Hn eq_refl) as (HT1 & Hn1 & Hu1). set (h1 := <[new := _]> h) in *.
  assert (expand_round root new tt h = Some (inl tt, h1)) as E.
  { unfold expand_round. run R. rewrite decide_False by set_solver. run (getr_run h x _ Hhx). run (getr_run h new _ Hnew). cbn [start end_ head].
    assert (((if sx <? s then modr new (with_start sx) else ret tt) h) = Some (tt, <[new := Resource s' e f pn qn None]> h)) as E1.
    { unfold s'. destruct (Z.ltb_spec sx s); [rewrite (modr_eq h new _ _ Hnew), Z.min_r by lia; done|]. rewrite Z.min_l by lia.
      rewrite insert_id by done. done. }
    run E1. run (getr_insert h new (Resource s' e f pn qn None)). cbn [end_].
    assert ((if e <? ex then modr new (with_end ex) else ret tt) (<[new := Resource s' e f pn qn None]> h) = Some (tt, h1)) as E2.
    { unfold h1, e'. destruct (Z.ltb_spec e ex); [rewrite modr_insert, Z.max_r by lia|rewrite Z.max_l by lia]; done. }
    by run E2. }
  run E. destruct (IH h1 s' e' HT1 Hn1) as (s1 & e1 & h' & K' & E' & HT' & Hp & Hu & L1 & L2 & Hmin).
  { unfold inside. rewrite !(proj2 (Z.leb_le _ _)) by lia. done. }
  { enough (outsiders s' e' K < outsiders s e K)%nat by lia. apply (filter_shorter _ _ _ (x, (sx, ex, fx))); [|done|cbn; lia|cbn; lia].
    intros [r [[a b] c]]. cbn. lia. }
  exists s1, e1, h', K'. split; [done|]. split; [done|]. split; [done|]. split; [intros z Z1 Z2; by rewrite Hu, Hu1|]. split; [lia|]. split; [lia|].
  intros s2 e2 Hs2 He2 HF. apply Hmin; [|  |done]; rewrite list.Forall_forall in HF; specialize (HF _ Hx); cbn in HF; lia.
Qed.

(** [insert_resource_expand_to_fit] terminates and, if the resource is new and its
    range lies inside that of the root, inserts it with the smallest range around its own
    that overlaps no other resource in part; otherwise it changes nothing. *)
Theorem insert_resource_expand_to_fit_correct (h : heap) (T : forest) (root : rid) (s0 e0 f0 : Z) (K : forest) (new : rid) (s e f : Z)
    (HT : tree h T) (Hf : find root T = Some (s0, e0, f0, K)) (Hn : detached h T new s e f Nil) (Hpar : parent <$> h !! new = Some None) :
  let fits := s0 <= s /\ s <= e /\ e <= e0 in
  (fits -> exists s1 e1 h' K', insert_resource_expand_to_fit root new h = Some (tt, h') /\
     tree h' (set_kids root K' T) /\ nodes K' ≡ₚ (new, (s1, e1, f)) :: nodes K /\ unchanged h h' T [new] /\
     s1 <= s /\ e <= e1 /\ forall s2 e2, s2 <= s -> e <= e2 -> Forall (nested s2 e2) (nodes K) -> s2 <= s1 /\ e1 <= e2) /\
  (~ fits -> insert_resource_expand_to_fit root new h = Some (tt, h)).
Proof.
  intros fits. destruct (detached_node _ _ _ _ _ _ _ Hn) as (pn & qn & Hnew). rewrite Hnew in Hpar. injection Hpar as ->.
  destruct (find_rep _ _ _ _ _ _ _ _ (tree_rep _ _ HT) Hf) as (pr & qr & _ & HK).
  destruct (find_nodup _ _ _ _ _ _ (tree_nodup _ _ HT) Hf) as [HdK _]. pose proof (rep_length _ _ _ HK HdK) as Hsz.
  assert (insert_resource_expand_to_fit root new h = walk (expand_round root new) tt h) as -> by (unfold insert_resource_expand_to_fit; by run (getr_run h new _ Hnew)).
  destruct (inside s e s0 e0) eqn:Ei; split.
  - intros _.
    destruct (expand_walk T root s0 e0 f0 K new f (2 + size h) Hf h s e HT Hn Ei) as (s1 & e1 & h' & K' & E & H); [|by exists s1, e1, h', K'].
    unfold outsiders. pose proof (length_filter (outside s e) (nodes K)). rewrite <- nodes_ids, length_fmap in Hsz. lia.
  - intros Hno. exfalso. apply Hno. unfold inside in Ei. b2p. unfold fits. lia.
  - intros (? & ? & ?). unfold inside in Ei. rewrite !(proj2 (Z.leb_le _ _)) in Ei by lia. done.
  - intros _. pose proof (insert_eq h T root s0 e0 f0 K new s e f HT Hf Hn) as R. rewrite Ei in R. unfold walk.
    change (2 + size h)%nat with (S (S (size h))). rewrite while_S.
    assert (expand_round root new tt h = Some (inr tt, h)) as E; [|by run E]. unfold expand_round. run R. by rewrite decide_True.
Qed.
Lemma insert_resource_expand_to_fit_correct_witness : exists s1 e1 h' K', insert_resource_expand_to_fit 1 3 (<[3%positive := Resource 20 63 0 None None None]> ports_heap) = Some (tt, h') /\
  tree h' (set_kids 1 K' ports) /\ nodes K' ≡ₚ [(3%positive, (s1, e1, 0)); (2%positive, (16, 31, 0x100))].
Proof.
  destruct (detached_range ports_new ports 3 20 23 0 20 63 None None None ports_new_tree ports_new_detached eq_refl) as (HT & Hd & _).
  unfold ports_new in HT, Hd. rewrite insert_insert_eq in HT, Hd.
  destruct (proj1 (insert_resource_expand_to_fit_correct _ ports 1 0 255 0x100 (Node 2 16 31 0x100 Nil Nil) 3 20 63 0 HT eq_refl Hd eq_refl)) as (s1 & e1 & h' & K' & E & HT' & Hp & _).
  - split; [discriminate|]. split; discriminate.
  - exists s1, e1, h', K'. split; [exact E|]. split; [exact HT'|exact Hp].
Defined.
