(* ===== verification/PrioHeap.v ===== *)
(** * Priority heaps

    [lib/prio_heap.c]: an array of pointers of fixed capacity that keeps the
    smallest elements it is given.  [heap_insert] sifts a new element up while
    there is room; a full heap gives up its greatest element and sifts the new
    one down.  After any number of insertions the heap holds the smallest
    elements of all and has returned the rest. *)

From Stdlib Require Import ZArith Lia.
From stdpp Require Import base tactics numbers list gmap option.
From S2P Require Import Prelude Sort.

(** ** The heap *)
(** A pointer is a number, [NULL] is 0, and [ptrs] is an array object of
    pointers of [sizeof(void * )] bytes each. *)
Definition sizeof_ptr : Z := 4.
Record ptr_heap := PtrHeap { ptrs : block; max : Z; hsize : Z; gt : Z -> Z -> Z }.

(** [kmalloc n] allocates [n] bytes; the object is an array of pointers. *)
Definition heap_init (kmalloc : Z -> C (option block)) (sz : Z) (gt : Z -> Z -> Z) : C (Z + ptr_heap) :=
  let* p := kmalloc sz in
  match p with
  | None => ret (inl (- ENOMEM))
  | Some b => ret (inr (PtrHeap b (s32 (sz / sizeof_ptr)) 0 gt))
  end.
Definition heap_free (kfree : block -> C unit) (heap : ptr_heap) : C unit := kfree (ptrs heap).

(** The loop that moves larger ancestors down until [p] fits. *)
Definition sift_up (heap : ptr_heap) (p pos : Z) : C Z :=
  while (S (Z.to_nat pos)) (fun pos =>
    if 0 <? pos then
      let* parent := load (ptrs heap) ((pos - 1) / 2) in
      if gt heap p parent =? 0 then ret (inr pos) else
      let* v := load (ptrs heap) ((pos - 1) / 2) in
      store (ptrs heap) pos v ;;
      ret (inl ((pos - 1) / 2))
    else ret (inr pos)) pos.

(** The loop that pushes [p] down below its larger children. *)
Definition sift_down (heap : ptr_heap) (p : Z) : C unit :=
  while (S (Z.to_nat (hsize heap))) (fun pos =>
    let left := s32 (2 * pos + 1) in
    let right := s32 (2 * pos + 2) in
    let* largest :=
      (if left <? hsize heap then
         let* v := load (ptrs heap) left in
         ret (if gt heap v p =? 0 then pos else left)
       else ret pos) in
    let* largest :=
      (if right <? hsize heap then
         let* v := load (ptrs heap) right in
         let* w := load (ptrs heap) largest in
         ret (if gt heap v w =? 0 then largest else right)
       else ret largest) in
    if largest =? pos then ret (inr tt) else
    let* v := load (ptrs heap) largest in
    store (ptrs heap) pos v ;;
    store (ptrs heap) largest p ;;
    ret (inl largest)) 0.

Definition heap_insert (heap : ptr_heap) (p : Z) : C (Z * ptr_heap) :=
  if hsize heap <? max heap then
    let pos := hsize heap in
    let heap := PtrHeap (ptrs heap) (max heap) (s32 (hsize heap + 1)) (gt heap) in
    let* pos := sift_up heap p pos in
    store (ptrs heap) pos p ;;
    ret (0, heap)
  else
    let* top := load (ptrs heap) 0 in
    if negb (gt heap p top =? 0) then ret (p, heap) else
    let* res := load (ptrs heap) 0 in
    store (ptrs heap) 0 p ;;
    sift_down heap p ;;
    ret (res, heap).

(** ** Contents and well-formedness *)
Definition contents (l : list Z) (n : Z) : list Z := at_ l <$> seqZ 0 n.
Definition hle (heap : ptr_heap) (x y : Z) : Prop := gt heap x y = 0.
(** [gt] is a strict weak order. *)
Record gt_ok (gt : Z -> Z -> Z) : Prop := GtOk {
  gt_asym x y : gt x y <> 0 -> gt y x = 0;
  gt_negtrans x y z : gt x y = 0 -> gt y z = 0 -> gt x z = 0 }.

(** The array has room for [max] elements, of which the first [size] are in
    heap order, the greatest at the root. *)
Record heap_wf (h : mem) (heap : ptr_heap) (l : list Z) : Prop := HeapWf {
  wf_ptrs : h !! ptrs heap = Some l;
  wf_room : zlen l = max heap;
  wf_size : 0 <= hsize heap <= max heap;
  wf_max : max heap < 2 ^ 30;
  wf_order : Sort.heap (hle heap) (at_ l) 0 (hsize heap);
  wf_gt : gt_ok (gt heap) }.

Lemma contents_ext l l' n : (forall i, 0 <= i < n -> at_ l i = at_ l' i) -> contents l n = contents l' n.
Proof.
  intros H. unfold contents. apply list_fmap_ext. intros k x Hk. apply lookup_seqZ in Hk as [-> Hk].
  apply H. lia.
Qed.
Lemma contents_snoc l n : 0 <= n -> contents l (n + 1) = contents l n ++ [at_ l n].
Proof. intros. unfold contents. rewrite seqZ_app by lia. rewrite fmap_app. cbn. done. Qed.
Lemma elem_of_contents l n x : x ∈ contents l n <-> exists i, 0 <= i < n /\ x = at_ l i.
Proof.
  unfold contents. rewrite list_elem_of_fmap. setoid_rewrite elem_of_seqZ.
  split; intros (i & H1 & H2); exists i; (split; [lia || done|]; done || lia).
Qed.

(** A heap in which only the element at [r] may be above its parent, and its
    children are below that parent. *)
Definition heap_up (le : Z -> Z -> Prop) (e : Z -> Z) (n r : Z) : Prop :=
  (forall i c, 0 <= i -> child i c -> c < n -> c <> r -> le (e c) (e i)) /\
  (forall q c, 0 <= q -> child q r -> child r c -> c < n -> le (e c) (e q)).

Section Up.
Context (le : Z -> Z -> Prop).
Context (le_trans : forall x y z, le x y -> le y z -> le x z).

Lemma heap_up_step e e' n num r q :
  heap_up le e n r -> exch e e' num r q -> n <= num -> 0 <= q -> child q r -> r < n -> le (e q) (e r) ->
  heap_up le e' n q.
Proof using le_trans.
  intros (H1 & H2) (E1 & E2 & E3) Hn Hq Hqr Hr Hle. unfold child in Hqr. split.
  - intros i c Hi Hc Hcn Hcq. unfold child in Hc. destruct (Z.eq_dec i q) as [->|].
    + rewrite E2. destruct (Z.eq_dec c r) as [->|]; [by rewrite E1|]. rewrite E3 by lia.
      apply le_trans with (e q); [apply H1; unfold child; lia|done].
    + destruct (Z.eq_dec i r) as [->|].
      * rewrite E1, E3 by lia. apply H2; unfold child; lia.
      * rewrite !E3 by lia. apply H1; unfold child; lia.
  - intros p c Hp Hpq Hqc Hcn. unfold child in Hpq, Hqc. rewrite (E3 p) by lia.
    assert (le (e q) (e p)) by (apply H1; unfold child; lia).
    destruct (Z.eq_dec c r) as [->|]; [by rewrite E1|]. rewrite E3 by lia.
    apply le_trans with (e q); [apply H1; unfold child; lia|done].
Qed.

Lemma heap_up_done e n r : heap_up le e n r -> (forall q, 0 <= q -> child q r -> le (e r) (e q)) -> Sort.heap le e 0 n.
Proof using. intros (H1 & _) Hr i Hi c Hc Hcn. destruct (Z.eq_dec c r) as [->|]; auto. Qed.
End Up.

(** ** The two loops *)
Section Insert.
Context (heap : ptr_heap) (Hgt : gt_ok (gt heap)).

Lemma hle_refl x : hle heap x x.
Proof using Hgt. unfold hle. destruct (Z.eq_dec (gt heap x x) 0) as [|E]; [done|]. by apply (gt_asym _ Hgt). Qed.
Lemma hle_trans x y z : hle heap x y -> hle heap y z -> hle heap x z.
Proof using Hgt. apply (gt_negtrans _ Hgt). Qed.
Lemma gt_hle x y : gt heap x y <> 0 -> hle heap y x.
Proof using Hgt. apply (gt_asym _ Hgt). Qed.

Lemma exch_upd l r q p : 0 <= r < zlen l -> 0 <= q < zlen l -> r <> q ->
  exch (at_ (upd l r p)) (at_ (upd (upd l r (at_ l q)) q p)) (zlen l) r q.
Proof using.
  intros. repeat split.
  - rewrite (at_upd_ne _ q r), at_upd_eq, at_upd_ne by lia. done.
  - rewrite !at_upd_eq by (rewrite ?zlen_upd; lia). done.
  - intros k Hk Hr Hq. by rewrite !at_upd_ne by lia.
Qed.

Lemma sift_up_spec l p n (h : mem) :
  h !! ptrs heap = Some l -> 0 <= n < zlen l -> heap_up (hle heap) (at_ (upd l n p)) (n + 1) n ->
  wp (sift_up heap p n) (fun pos h' => exists l', h' = <[ptrs heap := l']> h /\ zlen l' = zlen l /\ 0 <= pos <= n /\
    Sort.heap (hle heap) (at_ (upd l' pos p)) 0 (n + 1) /\ contents (upd l' pos p) (n + 1) ≡ₚ contents (upd l n p) (n + 1)) h.
Proof using Hgt.
  intros Hb Hn Hh. unfold sift_up.
  apply (wp_while (fun pos h' => exists l', h' = <[ptrs heap := l']> h /\ zlen l' = zlen l /\ 0 <= pos <= n /\
    heap_up (hle heap) (at_ (upd l' pos p)) (n + 1) pos /\ contents (upd l' pos p) (n + 1) ≡ₚ contents (upd l n p) (n + 1))
    _ Z.to_nat); [|lia|].
  { exists l. rewrite insert_id by done. repeat split; try done; try lia; apply Hh. }
  intros r h' (l' & -> & Hl & Hr & Hup & HP). wp_step; b2p.
  2:{ wp_step. exists l'. split; [done|]. split; [done|]. split; [done|]. split; [|done].
      eapply heap_up_done; [done|]. unfold child. intros q ? ?. lia. }
  set (q := (r - 1) / 2). assert (child q r /\ 0 <= q < r) as [Hq Hqr] by (unfold child, q; dlia).
  wp_step. wp_step. wp_step; b2p.
  - wp_step. exists l'. split; [done|]. split; [done|]. split; [done|]. split; [|done].
    eapply heap_up_done; [done|]. intros q' Hq' Hc. assert (q' = q) as -> by (unfold child in *; lia).
    rewrite at_upd_eq, at_upd_ne by lia. done.
  - wp_steps. split; [|lia]. exists (upd l' r (at_ l' q)). rewrite insert_insert_eq, zlen_upd.
    split; [done|]. split; [done|]. split; [lia|].
    pose proof (exch_upd l' r q p ltac:(lia) ltac:(lia) ltac:(lia)) as Hx. split.
    + eapply (heap_up_step _ hle_trans); try done; try lia. rewrite at_upd_ne, at_upd_eq by lia. by apply gt_hle.
    + etransitivity; [|exact HP]. unfold contents.
      assert (exch (at_ (upd l' r p)) (at_ (upd (upd l' r (at_ l' q)) q p)) (n + 1) r q) as Hx'.
      { destruct Hx as (? & ? & Hx). repeat split; [done..|]. intros k Hk. apply Hx. lia. }
      apply (exch_shuffled _ _ _ 0 (n + 1) r q Hx'); lia.
Qed.

Lemma sift_down_spec l p (h : mem) :
  h !! ptrs heap = Some l -> 0 < hsize heap <= zlen l -> zlen l < 2 ^ 30 -> at_ l 0 = p ->
  heap_but (hle heap) (at_ l) 0 (hsize heap) 0 ->
  wp (sift_down heap p) (fun _ h' => exists l', h' = <[ptrs heap := l']> h /\ zlen l' = zlen l /\
    Sort.heap (hle heap) (at_ l') 0 (hsize heap) /\ contents l' (hsize heap) ≡ₚ contents l (hsize heap)) h.
Proof using Hgt.
  intros Hb Hn Hmax Hp Hh. pow2. unfold sift_down. set (n := hsize heap) in *.
  apply (wp_while (fun pos h' => exists l', h' = <[ptrs heap := l']> h /\ zlen l' = zlen l /\ 0 <= pos < n /\ at_ l' pos = p /\
    heap_but (hle heap) (at_ l') 0 n pos /\ contents l' n ≡ₚ contents l n)
    _ (fun pos => Z.to_nat (n - pos))); [|lia|].
  { exists l. rewrite insert_id by done. repeat split; try done; try lia; apply Hh. }
  intros r h' (l' & -> & Hl & Hr & Hlr & Hbut & HP). cbv zeta. rewrite !s32_id by lia.
  wp_step. eapply (wp_mono _ (fun v h'' => h'' = <[ptrs heap := l']> h /\ (v = r \/ child r v /\ v < n) /\
    hle heap p (at_ l' v) /\ (2 * r + 1 < n -> hle heap (at_ l' (2 * r + 1)) (at_ l' v)))).
  { wp_step; b2p; wp_steps; (split; [done|]); [|split; [by left|rewrite Hlr; split; [apply hle_refl|lia]]].
    case_if Eg; b2p; [split; [by left|rewrite Hlr; split; [apply hle_refl|done]]|].
    split; [right; unfold child; lia|]. split; [by apply gt_hle|intros; apply hle_refl]. }
  intros v0 h'' (-> & Hv0 & Hle0 & Hleft). wp_step.
  eapply (wp_mono _ (fun v h'' => h'' = <[ptrs heap := l']> h /\ (v = r \/ child r v /\ v < n) /\
    hle heap p (at_ l' v) /\ forall d, child r d -> d < n -> hle heap (at_ l' d) (at_ l' v))).
  { assert (0 <= v0 < zlen l') by (unfold child in Hv0; lia).
    wp_step; b2p; wp_steps; (split; [done|]); [|split; [done|split; [done|intros d [-> | ->] Hd; [auto|lia]]]].
    case_if Eg; b2p; [split; [done|split; [done|intros d [-> | ->] Hd; auto]]|]. apply gt_hle in Eg.
    split; [right; unfold child; lia|]. split; [eapply hle_trans; eauto|].
    intros d [-> | ->] Hd; [eapply hle_trans; eauto|apply hle_refl]. }
  intros v h'' (-> & Hv & Hle & Hd). wp_step; b2p.
  - subst v. wp_step. exists l'. split; [done|]. split; [done|]. split; [|done].
    eapply heap_but_done; [done|]. intros c Hc Hcn. auto.
  - destruct Hv as [?|[Hv Hvn]]; [lia|]. assert (r < v) by (unfold child in Hv; lia).
    wp_steps. split; [|lia]. exists (upd (upd l' r (at_ l' v)) v p). rewrite !insert_insert_eq, !zlen_upd.
    split; [done|]. split; [done|]. split; [lia|]. split; [rewrite at_upd_eq; [done|rewrite zlen_upd; lia]|].
    assert (exch (at_ l') (at_ (upd (upd l' r (at_ l' v)) v p)) n r v) as Hx.
    { split; [rewrite at_upd_ne, at_upd_eq by lia; done|]. split; [rewrite at_upd_eq; [done|rewrite zlen_upd; lia]|].
      intros k Hk ? ?. by rewrite !at_upd_ne by lia. }
    split; [eapply heap_but_step; try done; try lia; by rewrite Hlr|].
    etransitivity; [|exact HP]. unfold contents. apply (exch_shuffled _ _ _ 0 n r v Hx); lia.
Qed.
End Insert.

(** ** Insertion *)
Definition insert_post (h : mem) (heap : ptr_heap) (l : list Z) (p r : Z) (heap' : ptr_heap) (h' : mem) : Prop :=
  exists l', h' = <[ptrs heap := l']> h /\ heap_wf h' heap' l' /\
    ptrs heap' = ptrs heap /\ max heap' = max heap /\ gt heap' = gt heap /\
    ((hsize heap < max heap /\ r = 0 /\ hsize heap' = hsize heap + 1 /\
      contents l' (hsize heap') ≡ₚ p :: contents l (hsize heap)) \/
     (hsize heap = max heap /\ heap' = heap /\
      r :: contents l' (hsize heap) ≡ₚ p :: contents l (hsize heap) /\
      forall x, x ∈ contents l' (hsize heap) -> gt heap x r = 0)).

Lemma insert_room heap l p (h : mem) :
  heap_wf h heap l -> hsize heap < max heap ->
  wp (heap_insert heap p) (fun o h' => insert_post h heap l p o.1 o.2 h') h.
Proof.
  intros [Hb Hl Hsz Hmax Hord Hgt] Hlt. pow2. unfold heap_insert. rewrite ltb_t by done. cbv zeta.
  rewrite s32_id by lia. set (hp := PtrHeap _ _ _ _).
  wp_step. eapply wp_mono.
  { apply (sift_up_spec hp Hgt l p (hsize heap) h Hb); [lia|]. split; unfold child.
    - intros i c Hi Hc Hcn Hcr. rewrite !at_upd_ne by lia. apply Hord; [done|done|lia].
    - intros; lia. }
  intros pos h' (l' & -> & Hl' & Hpos & Hh & HP). cbn [ptrs] in *. wp_steps.
  exists (upd l' pos p). rewrite insert_insert_eq. cbn [fst snd]. subst hp. cbn [ptrs max hsize gt] in *. split; [done|]. split.
  { split; cbn [ptrs max hsize]; [by rewrite lookup_insert_eq|rewrite zlen_upd; lia|lia|done|exact Hh|done]. }
  do 3 (split; [done|]). left. split; [done|]. split; [done|]. split; [done|].
  rewrite HP, contents_snoc, at_upd_eq by lia.
  rewrite Permutation_app_comm. cbn. f_equiv. erewrite contents_ext; [done|]. intros. by rewrite at_upd_ne by lia.
Qed.

Lemma contents_cons l n : 0 < n -> contents l n = at_ l 0 :: (at_ l <$> seqZ 1 (n - 1)).
Proof. intros. unfold contents. rewrite seqZ_cons by lia. done. Qed.

Lemma insert_full heap l p (h : mem) :
  heap_wf h heap l -> hsize heap = max heap -> 0 < max heap ->
  wp (heap_insert heap p) (fun o h' => insert_post h heap l p o.1 o.2 h') h.
Proof.
  intros Hwf Hfull Hpos. pose proof Hwf as [Hb Hl Hsz Hmax Hord Hgt]. unfold heap_insert. rewrite ltb_f by lia.
  pose proof (heap_max _ (hle_trans heap Hgt) (hle_refl heap Hgt) (at_ l) (hsize heap)) as Htop.
  wp_step. wp_step. wp_step; b2p.
  - wp_step. exists l. rewrite insert_id by done. split; [done|]. split; [done|]. do 3 (split; [done|]). right.
    split; [done|]. split; [done|]. split; [done|]. intros x (i & Hi & ->)%elem_of_contents. cbn [fst].
    eapply (hle_trans heap Hgt); [by apply Htop|]. by apply (gt_hle heap Hgt).
  - wp_step. wp_step. wp_step. wp_step. wp_step. eapply wp_mono.
    { apply (sift_down_spec heap Hgt (upd l 0 p) p); rewrite ?zlen_upd; try lia.
      - by rewrite lookup_insert_eq.
      - by rewrite at_upd_eq by lia.
      - split; unfold child.
        + intros i Hi Hi0 c Hc Hcn. unfold child in Hc. rewrite !at_upd_ne by lia. apply Hord; [done|unfold child; lia|done].
        + intros; lia. }
    intros _ h' (l' & -> & Hl' & Hh & HP). rewrite zlen_upd in Hl'. wp_step. exists l'. rewrite insert_insert_eq. cbn [fst snd].
    split; [done|]. split; [split; try done; [by rewrite lookup_insert_eq|lia]|]. do 3 (split; [done|]). right.
    assert (contents (upd l 0 p) (hsize heap) = p :: (at_ l <$> seqZ 1 (hsize heap - 1))) as E1.
    { rewrite contents_cons, at_upd_eq by lia. f_equal. apply list_fmap_ext. intros k x Hx.
      apply lookup_seqZ in Hx as [-> ?]. by rewrite at_upd_ne by lia. }
    split; [done|]. split; [done|]. rewrite E1 in HP. split.
    + rewrite HP, (contents_cons l) by lia. constructor.
    + intros x Hx. rewrite HP in Hx. apply elem_of_cons in Hx as [->|Hx]; [done|].
      apply list_elem_of_fmap in Hx as (i & -> & Hi%elem_of_seqZ). apply Htop; [done|lia].
Qed.

Lemma heap_insert_spec heap l p (h : mem) :
  heap_wf h heap l -> 0 < max heap -> wp (heap_insert heap p) (fun o h' => insert_post h heap l p o.1 o.2 h') h.
Proof.
  intros Hwf Hm. destruct (Z_lt_le_dec (hsize heap) (max heap)); [by apply insert_room|apply insert_full; try done].
  destruct Hwf. lia.
Qed.

(** ** A life of a heap *)
(** The elements are inserted in turn; those that are returned are collected. *)
Fixpoint insert_all (heap : ptr_heap) (ps : list Z) : C (list Z * ptr_heap) :=
  match ps with
  | [] => ret ([], heap)
  | p :: ps =>
      let* r := heap_insert heap p in
      let* o := insert_all r.2 ps in
      ret (if r.1 =? 0 then o.1 else r.1 :: o.1, o.2)
  end.

Lemma zlen_contents l n : 0 <= n -> zlen (contents l n) = n.
Proof. intros. unfold contents, zlen. rewrite length_fmap, length_seqZ. lia. Qed.

(** What is kept and what has been returned, one insertion later. *)
Lemma insert_post_dropped heap l p r heap' l' seen dropped :
  0 <= hsize heap <= max heap -> 0 < max heap -> max heap' = max heap ->
  ((hsize heap < max heap /\ r = 0 /\ hsize heap' = hsize heap + 1 /\ contents l' (hsize heap') ≡ₚ p :: contents l (hsize heap)) \/
   (hsize heap = max heap /\ heap' = heap /\ r :: contents l' (hsize heap) ≡ₚ p :: contents l (hsize heap) /\
      forall x, x ∈ contents l' (hsize heap) -> gt heap x r = 0)) ->
  0 ∉ contents l (hsize heap) -> 0 <> p -> gt_ok (gt heap) ->
  contents l (hsize heap) ++ dropped ≡ₚ seen -> hsize heap = Z.min (max heap) (zlen seen) ->
  (forall k d, k ∈ contents l (hsize heap) -> d ∈ dropped -> gt heap k d = 0) ->
  let dr := if r =? 0 then [] else [r] in
  (0 ∉ contents l' (hsize heap')) /\ contents l' (hsize heap') ++ dropped ++ dr ≡ₚ seen ++ [p] /\
  hsize heap' = Z.min (max heap) (zlen seen + 1) /\
  forall k d, k ∈ contents l' (hsize heap') -> d ∈ dropped ++ dr -> gt heap k d = 0.
Proof.
  intros Hsz Hm Em Hcase H0 Hp Hgt HP Hn Hle dr.
  assert (zlen seen = hsize heap + zlen dropped) as Hlen.
  { rewrite <- (zlen_contents l (hsize heap)), <- zlen_app by lia. unfold zlen. by rewrite HP. }
  pose proof (zlen_nonneg dropped). destruct Hcase as [(Hlt & -> & -> & HC)|(Hfull & -> & HC & Hmx)].
  - cbn in dr. subst dr. rewrite app_nil_r, HC. assert (dropped = []) as ->.
    { destruct dropped; [done|]. rewrite zlen_cons in *. pose proof (zlen_nonneg dropped). lia. }
    split; [rewrite elem_of_cons; naive_solver|]. rewrite app_nil_r in *. split; [by rewrite HP, Permutation_cons_append|].
    split; [lia|]. intros k d _ Hd. by apply elem_of_nil in Hd.
  - assert (0 ∉ r :: contents l' (hsize heap)) as H0' by (rewrite HC, elem_of_cons; naive_solver).
    apply not_elem_of_cons in H0' as [Hr H0']. assert (dr = [r]) as -> by (unfold dr; rewrite eqb_f by done; done).
    split; [done|]. split; [|split; [lia|]].
    + rewrite app_assoc, Permutation_app_comm, <- HP. cbn [app]. rewrite app_comm_cons, HC. cbn. by rewrite Permutation_cons_append.
    + intros k d Hk [Hd|Hd%list_elem_of_singleton]%elem_of_app; [|subst; auto].
      assert (k ∈ p :: contents l (hsize heap)) as [->|Hk']%elem_of_cons by (rewrite <- HC; apply elem_of_cons; by right); [|auto].
      assert (r ∈ p :: contents l (hsize heap)) as [->|Hr']%elem_of_cons by (rewrite <- HC; apply elem_of_cons; by left).
      * apply Permutation_cons_inv in HC. rewrite HC in Hk. auto.
      * eapply (gt_negtrans _ Hgt); [by apply Hmx|auto].
Qed.

Lemma insert_all_spec ps : forall heap l (h : mem) seen dropped,
  heap_wf h heap l -> 0 < max heap -> 0 ∉ contents l (hsize heap) -> 0 ∉ ps ->
  contents l (hsize heap) ++ dropped ≡ₚ seen -> hsize heap = Z.min (max heap) (zlen seen) ->
  (forall k d, k ∈ contents l (hsize heap) -> d ∈ dropped -> gt heap k d = 0) ->
  wp (insert_all heap ps) (fun o h' => exists l', heap_wf h' o.2 l' /\ h' = <[ptrs heap := l']> h /\
    max o.2 = max heap /\ gt o.2 = gt heap /\ ptrs o.2 = ptrs heap /\
    contents l' (hsize o.2) ++ dropped ++ o.1 ≡ₚ seen ++ ps /\ hsize o.2 = Z.min (max heap) (zlen (seen ++ ps)) /\
    forall k d, k ∈ contents l' (hsize o.2) -> d ∈ dropped ++ o.1 -> gt heap k d = 0) h.
Proof.
  induction ps as [|p ps IH]; intros heap l h seen dropped Hwf Hm H0 Hps HP Hn Hle; cbn [insert_all].
  { wp_step. exists l. cbn [fst snd]. rewrite !app_nil_r. rewrite insert_id by apply Hwf. done. }
  apply not_elem_of_cons in Hps as [Hp Hps].
  wp_step. eapply wp_mono; [by apply heap_insert_spec|].
  intros [r heap'] h' (l' & -> & Hwf' & Eb & Em & Eg & Hcase). cbn [fst snd] in *. wp_step.
  set (dr := if r =? 0 then [] else [r]).
  assert ((0 ∉ contents l' (hsize heap')) /\ contents l' (hsize heap') ++ dropped ++ dr ≡ₚ seen ++ [p] /\
    hsize heap' = Z.min (max heap') (zlen (seen ++ [p])) /\
    forall k d, k ∈ contents l' (hsize heap') -> d ∈ dropped ++ dr -> gt heap' k d = 0) as (G0 & GP & Gn & Gle).
  { rewrite zlen_app, Em, Eg. change (zlen [p]) with 1. apply (insert_post_dropped heap l p r heap' l'); done || apply Hwf. }
  eapply wp_mono; [apply (IH heap' l' _ (seen ++ [p]) (dropped ++ dr)); try done; by rewrite Em|].
  intros [o heap''] h'' (l'' & Hwf'' & -> & Em' & Eg' & Eb' & FP & Fn & Fle). cbn [fst snd] in *. wp_step. cbn [fst snd].
  exists l''. rewrite Eb, insert_insert_eq in Hwf'' |- *. rewrite <- !app_assoc in *. cbn [app] in *.
  assert ((if r =? 0 then o else r :: o) = dr ++ o) as -> by (unfold dr; by case_if E).
  repeat (split; [done || congruence|]). by rewrite <- Eg.
Qed.

(** What [kmalloc] is relied on for: it fails without an effect, or returns a
    fresh array of as many pointers as fit the bytes asked for. *)
Definition kmalloc_ptrs (kmalloc : Z -> C (option block)) : Prop := forall n (h : mem),
  0 <= n -> wp (kmalloc n) (fun o h' => match o with
    | None => h' = h
    | Some b => h !! b = None /\ exists l, zlen l = n / sizeof_ptr /\ h' = <[b := l]> h end) h.

(** [heap_insert] keeps the array in heap order, never leaves it, and takes
    in the new element while there is room; on a full heap it takes in the
    element and gives back the greatest of all, or gives the new one back when
    that is the greatest. *)
Theorem heap_insert_correct heap l p (h : mem) :
  heap_wf h heap l -> 0 < max heap ->
  exists r heap' l', heap_insert heap p h = Some ((r, heap'), <[ptrs heap := l']> h) /\
    heap_wf (<[ptrs heap := l']> h) heap' l' /\ max heap' = max heap /\ gt heap' = gt heap /\
    ((hsize heap < max heap /\ r = 0 /\ hsize heap' = hsize heap + 1 /\
      contents l' (hsize heap') ≡ₚ p :: contents l (hsize heap)) \/
     (hsize heap = max heap /\ heap' = heap /\
      r :: contents l' (hsize heap) ≡ₚ p :: contents l (hsize heap) /\
      forall x, x ∈ contents l' (hsize heap) -> gt heap x r = 0)).
Proof.
  intros Hwf Hm. destruct (heap_insert_spec heap l p h Hwf Hm) as ([r heap'] & h' & Hr & l' & -> & Hpost).
  exists r, heap', l'. naive_solver.
Qed.

Definition int_gt (x y : Z) : Z := if y <? x then 1 else 0.
Lemma int_gt_ok : gt_ok int_gt.
Proof. split; unfold int_gt; intros *; repeat case_match; b2p; intros; lia. Qed.

Lemma heap_insert_correct_witness :
  let heap := PtrHeap 1%positive 3 3 int_gt in
  exists r heap' l', heap_insert heap 4 {[1%positive := [9; 5; 7]]} = Some ((r, heap'), <[1%positive := l']> {[1%positive := [9; 5; 7]]}) /\
    r :: contents l' 3 ≡ₚ [4; 9; 5; 7] /\ forall x, x ∈ contents l' 3 -> int_gt x r = 0.
Proof.
  intros heap. destruct (heap_insert_correct heap [9; 5; 7] 4 {[1%positive := [9; 5; 7]]}) as (r & heap' & l' & H & _ & _ & _ & C).
  - split; cbn; [done|done|lia|lia| |apply int_gt_ok]. intros i Hi c [-> | ->] Hc; unfold hle; cbn;
      (assert (i = 0) as -> by lia); reflexivity.
  - cbn; lia.
  - exists r, heap', l'. split; [exact H|]. destruct C as [(C & _)|(_ & _ & C1 & C2)]; [cbn in C; lia|]. split; [exact C1|exact C2].
Defined.

(** C36. A heap that is given any sequence of elements holds in the end the
    smallest [size / sizeof(void * )] of them, or all when there are no more,
    and has given back the others: no element kept is greater than one given
    back.  Without memory [heap_init] fails with [-ENOMEM]. *)
Theorem heap_keeps_smallest kmalloc sz gt ps (h : mem) :
  kmalloc_ptrs kmalloc -> gt_ok gt -> sizeof_ptr <= sz < 2 ^ 32 -> 0 ∉ ps ->
  wp (heap_init kmalloc sz gt) (fun r h' => match r with
    | inl e => e = - ENOMEM /\ h' = h
    | inr heap => wp (insert_all heap ps) (fun o h'' => exists kept, let '(dropped, heap') := o in
        h'' !! ptrs heap' = Some kept /\ delete (ptrs heap') h'' = h /\
        contents kept (hsize heap') ++ dropped ≡ₚ ps /\ hsize heap' = Z.min (sz / sizeof_ptr) (zlen ps) /\
        forall k d, k ∈ contents kept (hsize heap') -> d ∈ dropped -> gt k d = 0) h'
    end) h.
Proof.
  intros Hk Hgt Hsz Hps. pow2. unfold sizeof_ptr in Hsz. unfold heap_init. wp_step. eapply wp_mono; [apply Hk; lia|].
  intros [b|] h'; [|by intros ->; wp_step]. intros (Hb & l & Hl & ->). unfold sizeof_ptr in *.
  wp_step. rewrite s32_id by dlia. set (heap := PtrHeap _ _ _ _).
  assert (heap_wf (<[b := l]> h) heap l).
  { unfold heap. split; cbn [ptrs max hsize]; [by rewrite lookup_insert_eq|done|dlia|pow2; dlia| |done].
    intros i Hi c Hc Hcn. unfold child in Hc. lia. }
  eapply wp_mono; [apply (insert_all_spec ps heap l _ [] []); try done|].
  - cbn. dlia.
  - cbn. apply not_elem_of_nil.
  - change (hsize heap) with 0. change (zlen (@nil Z)) with 0. change (max heap) with (sz / 4). dlia.
  - intros k d _ Hd. by apply elem_of_nil in Hd.
  - intros [dropped heap'] h'' (l' & Hwf & -> & _ & _ & Ep & HP & Hn & Hle). exists l'. cbn [fst snd] in *.
    rewrite Ep. change (ptrs heap) with b. rewrite insert_insert_eq, lookup_insert_eq, delete_insert_id by done.
    split; [done|]. split; [done|]. split; [exact HP|]. split; [exact Hn|exact Hle].
Qed.

Definition ptr_kmalloc (n : Z) : C (option block) := fun h =>
  let b := fresh (dom h) in Some (Some b, <[b := replicate (Z.to_nat (n / sizeof_ptr)) 0]> h).

Lemma heap_keeps_smallest_witness :
  kmalloc_ptrs ptr_kmalloc /\
  wp (heap_init ptr_kmalloc 8 int_gt) (fun r h' => match r with
    | inl e => e = - ENOMEM /\ h' = ∅
    | inr heap => wp (insert_all heap [5; 2; 9; 1]) (fun o h'' => exists kept, let '(dropped, heap') := o in
        h'' !! ptrs heap' = Some kept /\ delete (ptrs heap') h'' = ∅ /\
        contents kept (hsize heap') ++ dropped ≡ₚ [5; 2; 9; 1] /\ hsize heap' = Z.min (8 / sizeof_ptr) 4 /\
        forall k d, k ∈ contents kept (hsize heap') -> d ∈ dropped -> int_gt k d = 0) h'
    end) ∅.
Proof.
  assert (Hm : kmalloc_ptrs ptr_kmalloc).
  { intros n h Hn. eexists _, _. split; [reflexivity|]. cbv beta zeta.
    split; [apply not_elem_of_dom, is_fresh|]. eexists. split; [|done].
    apply zlen_replicate. unfold sizeof_ptr. dlia. }
  split; [exact Hm|]. apply (heap_keeps_smallest ptr_kmalloc 8 int_gt [5; 2; 9; 1]); [exact Hm|apply int_gt_ok|unfold sizeof_ptr; lia|].
  rewrite !not_elem_of_cons. repeat split; try lia. apply not_elem_of_nil.
Defined.

(** A heap of fewer than [sizeof(void * )] bytes has no room for one element,
    and an insertion reads [ptrs[0]] outside the array. *)
Example heap_insert_no_room :
  heap_insert (PtrHeap 1%positive 0 0 int_gt) 7 {[1%positive := []]} = None /\
  (exists heap h, heap_init ptr_kmalloc 3 int_gt ∅ = Some (inr heap, h) /\ max heap = 0 /\ heap_insert heap 7 h = None).
Proof. split; [reflexivity|]. eexists _, _. split; [reflexivity|]. split; reflexivity. Qed.
