(* ===== verification/Semaphore.v ===== *)
(** * Counting semaphores

    [kernel/semaphore.c]: the sections under [sem->lock] are operations on the
    count and the queue; a labelled step relation interleaves them for any
    number of tasks with the sleep of [__down_common], signals, expiring timers
    and other wake-ups.  Units are conserved, the queue is served in order, a
    granted unit is never lost to a signal or a timeout, and [down], whose
    result is dropped, always returns with the semaphore acquired. *)

From Stdlib Require Import ZArith Lia.
From stdpp Require Import base tactics numbers list gmap option.
From S2P Require Import Prelude.

(** ** The semaphore *)
(** A waiter lives on the stack of its task, so the queue is one of tasks. *)
Record semaphore := Semaphore { count : Z; wait_list : list Z }.
Abbreviation SM := (ST semaphore).

Definition TASK_INTERRUPTIBLE : Z := 1.
Definition TASK_UNINTERRUPTIBLE : Z := 2.
Definition TASK_WAKEKILL : Z := 128.
Definition TASK_KILLABLE : Z := Z.lor TASK_WAKEKILL TASK_UNINTERRUPTIBLE.
Definition MAX_SCHEDULE_TIMEOUT : Z := 2147483647.
Definition ETIME : Z := 62.

Definition sema_init (val : Z) : semaphore := Semaphore (u32 val) [].

(** The signals of the calling task: whether one is pending, and a fatal one. *)
Record signals := Signals { pending : bool; fatal : bool }.
Definition signal_pending_state (state : Z) (p : signals) : bool :=
  if Z.land state (Z.lor TASK_INTERRUPTIBLE TASK_WAKEKILL) =? 0 then false
  else if negb (pending p) then false
  else negb (Z.land state TASK_INTERRUPTIBLE =? 0) || fatal p.

(** The result of [schedule_timeout] when [jiffies] has advanced by [elapsed]. *)
Definition schedule_timeout (timeout elapsed : Z) : Z :=
  if timeout =? MAX_SCHEDULE_TIMEOUT then timeout
  else let timeout := if timeout <? 0 then timeout else s32 (timeout - elapsed) in
       if timeout <? 0 then 0 else timeout.

Definition list_del (t : Z) (l : list Z) : list Z := filter (fun u => u <> t) l.

(** The head of the loop in [__down_common]: [Some] result, or [None] to sleep. *)
Definition wait_round (state timeout task : Z) (p : signals) : SM (option Z) := fun sem =>
  if signal_pending_state state p then
    Some (Some (- EINTR), Semaphore (count sem) (list_del task (wait_list sem)))
  else if timeout <=? 0 then
    Some (Some (- ETIME), Semaphore (count sem) (list_del task (wait_list sem)))
  else Some (None, sem).
(** [__down_common] up to its first sleep, and from one sleep to the next. *)
Definition __down_common (state timeout task : Z) (p : signals) : SM (option Z) := fun sem =>
  wait_round state timeout task p (Semaphore (count sem) (wait_list sem ++ [task])).
Definition down_resume (state timeout elapsed task : Z) (up : bool) (p : signals) : SM (option Z) :=
  if up then ret (Some 0) else wait_round state (schedule_timeout timeout elapsed) task p.

Definition __down : Z -> signals -> SM (option Z) := __down_common TASK_UNINTERRUPTIBLE MAX_SCHEDULE_TIMEOUT.
Definition __down_interruptible : Z -> signals -> SM (option Z) := __down_common TASK_INTERRUPTIBLE MAX_SCHEDULE_TIMEOUT.
Definition __down_killable : Z -> signals -> SM (option Z) := __down_common TASK_KILLABLE MAX_SCHEDULE_TIMEOUT.
Definition __down_timeout (jiffies : Z) : Z -> signals -> SM (option Z) := __down_common TASK_UNINTERRUPTIBLE jiffies.

(** The test all four share. *)
Definition acquire (slow : SM (option Z)) : SM (option Z) := fun sem =>
  if 0 <? count sem then Some (Some 0, Semaphore (u32 (count sem - 1)) (wait_list sem)) else slow sem.
Definition down (task : Z) (p : signals) : SM (option Z) := acquire (__down task p).
Definition down_interruptible (task : Z) (p : signals) : SM (option Z) := acquire (__down_interruptible task p).
Definition down_killable (task : Z) (p : signals) : SM (option Z) := acquire (__down_killable task p).
Definition down_timeout (jiffies : Z) (task : Z) (p : signals) : SM (option Z) := acquire (__down_timeout jiffies task p).

Definition down_trylock : SM Z := fun sem =>
  let c := s32 (count sem - 1) in
  Some (if c <? 0 then 1 else 0, if 0 <=? c then Semaphore (u32 c) (wait_list sem) else sem).

(** [__up] gives the task it marks and wakes. *)
Definition __up : SM (option Z) := fun sem =>
  match wait_list sem with
  | [] => None
  | waiter :: _ => Some (Some waiter, Semaphore (count sem) (list_del waiter (wait_list sem)))
  end.
Definition up : SM (option Z) := fun sem =>
  match wait_list sem with
  | [] => Some (None, Semaphore (u32 (count sem + 1)) [])
  | _ => __up sem
  end.

(** ** Tasks that use the semaphore *)
Inductive request := Down | DownInterruptible | DownKillable | DownTimeout (jiffies : Z).
Definition call (r : request) : Z -> signals -> SM (option Z) :=
  match r with
  | Down => down | DownInterruptible => down_interruptible
  | DownKillable => down_killable | DownTimeout j => down_timeout j
  end.
Definition state_of (r : request) : Z :=
  match r with
  | Down | DownTimeout _ => TASK_UNINTERRUPTIBLE
  | DownInterruptible => TASK_INTERRUPTIBLE | DownKillable => TASK_KILLABLE
  end.
Definition timeout_of (r : request) : Z :=
  match r with DownTimeout j => j | _ => MAX_SCHEDULE_TIMEOUT end.

(** A task is outside, or asleep in [schedule_timeout] with the given timeout. *)
Inductive place := Out | Asleep (r : request) (timeout : Z).
(** [running] is its scheduler state and [given] the field [up] of its waiter. *)
Record tstate := Task { pc : place; running : bool; given : bool; sigs : signals }.
Record config := Config { sem : semaphore; ts : Z -> tstate }.
Definition set_task (t : Z) (s : tstate) (ts : Z -> tstate) : Z -> tstate := fun u => if decide (u = t) then s else ts u.

Inductive event := Acquired (t : Z) | Failed (t e : Z) (r : request) | Released | Silent.

(** A call, or a round of its loop, either returns or sleeps. *)
Definition after (r : request) (timeout : Z) (s : tstate) (o : option Z) : tstate :=
  match o with
  | Some _ => Task Out true false (sigs s)
  | None => Task (Asleep r timeout) false false (sigs s)
  end.
Definition outcome (t : Z) (r : request) (o : option Z) : event :=
  match o with
  | Some e => if e =? 0 then Acquired t else Failed t e r
  | None => Silent
  end.
Definition grant (o : option Z) (ts : Z -> tstate) : Z -> tstate :=
  match o with
  | Some t => set_task t (Task (pc (ts t)) true true (sigs (ts t))) ts
  | None => ts
  end.

Inductive step : config -> event -> config -> Prop :=
  | step_call r t s s' o ts : pc (ts t) = Out -> call r t (sigs (ts t)) s = Some (o, s') ->
      step (Config s ts) (outcome t r o) (Config s' (set_task t (after r (timeout_of r) (ts t) o) ts))
  | step_trylock t s s' v ts : pc (ts t) = Out -> down_trylock s = Some (v, s') ->
      step (Config s ts) (if v =? 0 then Acquired t else Silent) (Config s' ts)
  | step_resume r timeout elapsed t s s' o ts : pc (ts t) = Asleep r timeout -> running (ts t) = true -> 0 <= elapsed < 2 ^ 31 ->
      down_resume (state_of r) timeout elapsed t (given (ts t)) (sigs (ts t)) s = Some (o, s') ->
      step (Config s ts) (outcome t r o) (Config s' (set_task t (after r (schedule_timeout timeout elapsed) (ts t) o) ts))
  | step_up s s' o ts : up s = Some (o, s') ->
      step (Config s ts) Released (Config s' (grant o ts))
  | step_signal t f s ts :
      step (Config s ts) Silent (Config s (set_task t (Task (pc (ts t)) true (given (ts t)) (Signals true (f || fatal (sigs (ts t))))) ts))
  | step_handled t s ts : pc (ts t) = Out ->
      step (Config s ts) Silent (Config s (set_task t (Task Out (running (ts t)) (given (ts t)) (Signals false false)) ts))
  | step_wake t s ts :
      step (Config s ts) Silent (Config s (set_task t (Task (pc (ts t)) true (given (ts t)) (sigs (ts t))) ts)).

Inductive steps : config -> list event -> config -> Prop :=
  | steps_nil c : steps c [] c
  | steps_snoc c es c' e c'' : steps c es c' -> step c' e c'' -> steps c (es ++ [e]) c''.
Definition start (val : Z) : config := Config (sema_init val) (fun _ => Task Out true false (Signals false false)).

Definition is_acquired (e : event) : bool := match e with Acquired _ => true | _ => false end.
Definition is_released (e : event) : bool := match e with Released => true | _ => false end.
Definition count_ev (f : event -> bool) (es : list event) : Z := zlen (List.filter f es).

(** ** The invariant *)
Definition is_asleep (p : place) : bool := match p with Out => false | Asleep _ _ => true end.
(** [G] are the tasks that have been given a unit and have not yet noticed. *)
Record inv (n : Z) (c : config) (G : list Z) (acq ups : Z) : Prop := Inv {
  v_count : 0 <= count (sem c);
  v_queue : NoDup (wait_list (sem c));
  v_waits t : t ∈ wait_list (sem c) <-> is_asleep (pc (ts c t)) = true /\ given (ts c t) = false;
  v_nodup : NoDup G;
  v_given t : t ∈ G <-> is_asleep (pc (ts c t)) = true /\ given (ts c t) = true;
  v_woken t : t ∈ G -> running (ts c t) = true;
  v_timeout t r timeout : pc (ts c t) = Asleep r timeout -> timeout_of r = MAX_SCHEDULE_TIMEOUT -> timeout = MAX_SCHEDULE_TIMEOUT;
  v_units : count (sem c) + acq + zlen G = n + ups;
  v_idle : 0 < count (sem c) -> wait_list (sem c) = [] }.

Lemma set_task_same t s ts : set_task t s ts t = s.
Proof. unfold set_task. by rewrite decide_True. Qed.
Lemma set_task_other t s ts u : u <> t -> set_task t s ts u = ts u.
Proof. intros. unfold set_task. by rewrite decide_False. Qed.

(** A step that changes one task and its places in the queue and in [G]. *)
Lemma inv_local n s ts0 G acq ups t x s' G' acq' ups' :
  inv n (Config s ts0) G acq ups ->
  0 <= count s' -> NoDup (wait_list s') -> NoDup G' ->
  (forall u, u <> t -> (u ∈ wait_list s' <-> u ∈ wait_list s) /\ (u ∈ G' <-> u ∈ G)) ->
  (t ∈ wait_list s' <-> is_asleep (pc x) = true /\ given x = false) ->
  (t ∈ G' <-> is_asleep (pc x) = true /\ given x = true) -> (t ∈ G' -> running x = true) ->
  (forall r timeout, pc x = Asleep r timeout -> timeout_of r = MAX_SCHEDULE_TIMEOUT -> timeout = MAX_SCHEDULE_TIMEOUT) ->
  count s' + acq' + zlen G' = n + ups' -> (0 < count s' -> wait_list s' = []) ->
  inv n (Config s' (set_task t x ts0)) G' acq' ups'.
Proof.
  intros [I1 I2 I3 I4 I5 I6 I7 I8 I9] H1 H2 H3 Hu Ht1 Ht2 Ht3 Ht4 Hs Hi. cbn [sem ts] in *.
  split; cbn [sem ts]; try done.
  - intros u. destruct (decide (u = t)) as [->|Hne]; [by rewrite set_task_same|]. rewrite set_task_other by done. destruct (Hu u Hne) as [-> _].
    apply I3.
  - intros u. destruct (decide (u = t)) as [->|Hne]; [by rewrite set_task_same|]. rewrite set_task_other by done. destruct (Hu u Hne) as [_ ->].
    apply I5.
  - intros u. destruct (decide (u = t)) as [->|Hne]; [by rewrite set_task_same|]. rewrite set_task_other by done. destruct (Hu u Hne) as [_ ->].
    apply I6.
  - intros u. destruct (decide (u = t)) as [->|Hne]; [by rewrite set_task_same|]. rewrite set_task_other by done. apply I7.
Qed.

Lemma list_del_notin t l : t ∉ l -> list_del t l = l.
Proof.
  intros Ht. unfold list_del. induction l as [|u l IH]; [done|]. apply not_elem_of_cons in Ht as [? ?].
  rewrite filter_cons_True by done. f_equal. auto.
Qed.
Lemma list_del_snoc t l : t ∉ l -> list_del t (l ++ [t]) = l.
Proof. intros Ht. unfold list_del. rewrite list.filter_app. fold (list_del t l). rewrite list_del_notin by done. cbn. rewrite decide_False by naive_solver. apply app_nil_r. Qed.
Lemma list_del_head t l : NoDup (t :: l) -> list_del t (t :: l) = l.
Proof. intros [Ht _]%list.NoDup_cons. unfold list_del. rewrite filter_cons_False by naive_solver. by apply list_del_notin. Qed.

Definition weight (f : event -> bool) (e : event) : Z := if f e then 1 else 0.

Lemma call_common r t p : call r t p = acquire (__down_common (state_of r) (timeout_of r) t p).
Proof. by destruct r. Qed.

Section Step.
Context (n : Z) (s : semaphore) (ts0 : Z -> tstate) (G : list Z) (a u : Z) (t : Z).
Context (H : inv n (Config s ts0) G a u).

Lemma out_free : pc (ts0 t) = Out -> (t ∉ wait_list s) /\ (t ∉ G).
Proof using H. intros E. pose proof (v_waits _ _ _ _ _ H t) as H1. pose proof (v_given _ _ _ _ _ H t) as H2. cbn [sem ts] in *. rewrite E in *. naive_solver. Qed.

(** The task is, or stays, outside, and the queue stays. *)
Lemma inv_out x s' a' : pc (ts0 t) = Out -> pc x = Out -> wait_list s' = wait_list s -> 0 <= count s' <= count s ->
  count s' + a' = count s + a -> inv n (Config s' (set_task t x ts0)) G a' u.
Proof using H.
  intros E Ex Ew Hc Ha. destruct (out_free E) as [N1 N2]. destruct H as [I1 I2 I3 I4 I5 I6 I7 I8 I9]; cbn [sem ts] in *.
  apply (inv_local n s ts0 G a u t x s' G a' u); rewrite ?Ew, ?Ex; cbn [is_asleep]; try done; try naive_solver lia.
Qed.

(** The task changes, but neither falls asleep nor wakes up nor is given a unit. *)
Lemma inv_stay x : is_asleep (pc x) = is_asleep (pc (ts0 t)) -> (is_asleep (pc x) = true -> given x = given (ts0 t)) ->
  (is_asleep (pc x) = true -> given x = true -> running x = true) ->
  (forall r timeout, pc x = Asleep r timeout -> timeout_of r = MAX_SCHEDULE_TIMEOUT -> timeout = MAX_SCHEDULE_TIMEOUT) ->
  inv n (Config s (set_task t x ts0)) G a u.
Proof using H.
  intros E Eg Er Et. destruct H as [I1 I2 I3 I4 I5 I6 I7 I8 I9]; cbn [sem ts] in *.
  apply (inv_local n s ts0 G a u t x s G a u H); try done.
  - rewrite I3, <- E. naive_solver.
  - rewrite I5, <- E. naive_solver.
  - rewrite I5, <- E. naive_solver.
Qed.

(** The task is queued. *)
Lemma inv_sleep r sg : pc (ts0 t) = Out -> count s = 0 ->
  inv n (Config (Semaphore (count s) (wait_list s ++ [t])) (set_task t (Task (Asleep r (timeout_of r)) false false sg) ts0)) G a u.
Proof using H.
  intros E Hc. destruct (out_free E) as [N1 N2]. destruct H as [I1 I2 I3 I4 I5 I6 I7 I8 I9]; cbn [sem ts] in *.
  apply (inv_local n s ts0 G a u t _ _ G a u H); cbn [count wait_list pc is_asleep given running]; try done; try lia.
  - apply list.NoDup_app. split; [done|]. split; [|apply NoDup_singleton]. intros v Hv Hin%list_elem_of_singleton. congruence.
  - intros v Hv. rewrite elem_of_app, list_elem_of_singleton. naive_solver.
  - rewrite elem_of_app, list_elem_of_singleton. naive_solver.
  - naive_solver.
  - by intros r' timeout [= -> ->].
Qed.

Lemma elem_of_list_del v l : v ∈ list_del t l <-> v ∈ l /\ v <> t.
Proof using. unfold list_del. rewrite list_elem_of_filter. naive_solver. Qed.
Lemma zlen_list_del l : NoDup l -> t ∈ l -> zlen (list_del t l) = zlen l - 1.
Proof using.
  intros Hnd (l1 & l2 & ->)%list_elem_of_split. apply list.NoDup_app in Hnd as (_ & N1 & [N2 _]%list.NoDup_cons).
  unfold list_del. rewrite list.filter_app, filter_cons_False by naive_solver. fold (list_del t l1) (list_del t l2).
  rewrite !list_del_notin; [rewrite !zlen_app, zlen_cons; lia|done|]. intros Hin. apply (N1 t Hin), elem_of_cons. by left.
Qed.

(** The task gives up and leaves the queue. *)
Lemma inv_leave x : given (ts0 t) = false -> pc x = Out ->
  inv n (Config (Semaphore (count s) (list_del t (wait_list s))) (set_task t x ts0)) G a u.
Proof using H.
  intros E Ex. destruct H as [I1 I2 I3 I4 I5 I6 I7 I8 I9]; cbn [sem ts] in *.
  apply (inv_local n s ts0 G a u t _ _ G a u H); cbn [count wait_list]; rewrite ?Ex; cbn [is_asleep]; try done.
  - by apply list.NoDup_filter.
  - intros v Hv. rewrite elem_of_list_del. naive_solver.
  - rewrite elem_of_list_del. naive_solver.
  - rewrite I5, E. naive_solver.
  - rewrite I5, E. naive_solver.
  - intros Hc. by rewrite I9.
Qed.

(** The task notices that it was given a unit. *)
Lemma inv_take x : is_asleep (pc (ts0 t)) = true -> given (ts0 t) = true -> pc x = Out ->
  inv n (Config s (set_task t x ts0)) (list_del t G) (a + 1) u.
Proof using H.
  intros Es E Ex. destruct H as [I1 I2 I3 I4 I5 I6 I7 I8 I9]; cbn [sem ts] in *.
  apply (inv_local n s ts0 G a u t _ _ _ _ _ H); rewrite ?Ex; cbn [is_asleep]; try done.
  - by apply list.NoDup_filter.
  - intros v Hv. rewrite elem_of_list_del. naive_solver.
  - rewrite I3, E. naive_solver.
  - rewrite elem_of_list_del. naive_solver.
  - rewrite elem_of_list_del. naive_solver.
  - rewrite zlen_list_del; [lia|done|by apply I5].
Qed.
End Step.

(** A release goes to the first in the queue, or to the count. *)
Lemma inv_up n s ts0 G a u : inv n (Config s ts0) G a u -> count s < 2 ^ 32 - 1 \/ wait_list s <> [] ->
  exists o s' G', up s = Some (o, s') /\ inv n (Config s' (grant o ts0)) G' a (u + 1) /\
    o = hd_error (wait_list s) /\ wait_list s' = tail (wait_list s).
Proof.
  intros H Hb. pose proof H as [I1 I2 I3 I4 I5 I6 I7 I8 I9]; cbn [sem ts] in *. unfold up, __up.
  destruct (wait_list s) as [|t l] eqn:Ew.
  - destruct Hb as [Hb|]; [|done]. rewrite u32_id by lia. eexists None, _, G. split; [done|]. split; [|done].
    split; cbn [sem ts count wait_list grant]; try done; try lia; try (by constructor).
  - rewrite list_del_head by done. eexists (Some t), _, (t :: G). split; [done|]. split; [|done]. cbn [grant].
    apply list.NoDup_cons in I2 as [N2 I2]. assert (t ∈ t :: l) as Ht by (apply elem_of_cons; by left).
    apply I3 in Ht as [Ha Hg]. assert (t ∉ G) as N3 by (rewrite I5, Hg; naive_solver).
    apply (inv_local n s ts0 G a u t _ _ _ _ _ H); cbn [count wait_list pc given running]; try done.
    + by apply list.NoDup_cons.
    + intros v Hv. rewrite Ew, !elem_of_cons. naive_solver.
    + naive_solver.
    + rewrite elem_of_cons. naive_solver.
    + apply I7.
    + rewrite zlen_cons. lia.
    + intros Hc. specialize (I9 Hc). done.
Qed.

(** ** Every run *)
Lemma wait_round_cases state timeout t p s :
  (wait_round state timeout t p s = Some (None, s) /\ signal_pending_state state p = false /\ 0 < timeout) \/
  (exists e, wait_round state timeout t p s = Some (Some (- e), Semaphore (count s) (list_del t (wait_list s))) /\
    ((e = EINTR /\ signal_pending_state state p = true) \/ (e = ETIME /\ signal_pending_state state p = false /\ timeout <= 0))).
Proof. unfold wait_round. destruct (signal_pending_state state p); [right; exists EINTR; auto|]. case_if E; b2p; [right; exists ETIME; auto|left; auto]. Qed.

Lemma inv_call n s ts0 G a u r t o s' : inv n (Config s ts0) G a u -> count s < 2 ^ 32 -> pc (ts0 t) = Out ->
  call r t (sigs (ts0 t)) s = Some (o, s') ->
  inv n (Config s' (set_task t (after r (timeout_of r) (ts0 t) o) ts0)) G (a + weight is_acquired (outcome t r o)) u.
Proof.
  intros H Hb Hp Hc. rewrite call_common in Hc. unfold acquire in Hc. destruct (out_free _ _ _ _ _ _ _ H Hp) as [N1 N2].
  pose proof (v_count _ _ _ _ _ H) as Hc0. cbn [sem] in Hc0. destruct (0 <? count s) eqn:E; b2p.
  { injection Hc as <- <-. rewrite u32_id by lia. apply (inv_out n s ts0 G a u t H); cbn; try done; lia. }
  unfold __down_common in Hc.
  destruct (wait_round_cases (state_of r) (timeout_of r) t (sigs (ts0 t)) (Semaphore (count s) (wait_list s ++ [t]))) as [(E1 & _)|(e & E1 & Er)];
    rewrite E1 in Hc; injection Hc as <- <-; cbn [count wait_list after].
  - unfold weight. cbn [outcome is_acquired]. rewrite Z.add_0_r. apply inv_sleep; [done..|lia].
  - rewrite list_del_snoc by done. assert (weight is_acquired (outcome t r (Some (- e))) = 0) as -> by (destruct Er as [[-> _]|[-> _]]; done).
    rewrite Z.add_0_r. apply (inv_out n s ts0 G a u t H); cbn; try done; lia.
Qed.

Lemma schedule_timeout_max e : schedule_timeout MAX_SCHEDULE_TIMEOUT e = MAX_SCHEDULE_TIMEOUT.
Proof. done. Qed.

Lemma inv_resume n s ts0 G a u r timeout elapsed t o s' : inv n (Config s ts0) G a u -> pc (ts0 t) = Asleep r timeout ->
  down_resume (state_of r) timeout elapsed t (given (ts0 t)) (sigs (ts0 t)) s = Some (o, s') ->
  exists G', inv n (Config s' (set_task t (after r (schedule_timeout timeout elapsed) (ts0 t) o) ts0)) G' (a + weight is_acquired (outcome t r o)) u.
Proof.
  intros H Hp Hc. assert (is_asleep (pc (ts0 t)) = true) as Ha by (by rewrite Hp). unfold down_resume in Hc. destruct (given (ts0 t)) eqn:Hg.
  { injection Hc as <- <-. exists (list_del t G). by apply inv_take. }
  destruct (wait_round_cases (state_of r) (schedule_timeout timeout elapsed) t (sigs (ts0 t)) s) as [(E1 & _)|(e & E1 & Er)];
    rewrite E1 in Hc; injection Hc as <- <-; exists G.
  - unfold weight. cbn [outcome is_acquired]. rewrite Z.add_0_r. apply inv_stay; cbn [after pc is_asleep given running]; try done.
    intros r' to [= <- <-] Hr. by rewrite (v_timeout _ _ _ _ _ H t r timeout).
  - assert (weight is_acquired (outcome t r (Some (- e))) = 0) as -> by (destruct Er as [[-> _]|[-> _]]; done).
    rewrite Z.add_0_r. by apply inv_leave.
Qed.

Lemma trylock_cases s : 0 <= count s < 2 ^ 32 ->
  (down_trylock s = Some (1, s) /\ (count s = 0 \/ 2 ^ 31 < count s)) \/
  (down_trylock s = Some (0, Semaphore (count s - 1) (wait_list s)) /\ 0 < count s <= 2 ^ 31).
Proof.
  intros Hc. unfold down_trylock. pow2. destruct (Z_lt_le_dec 2147483648 (count s)).
  - left. assert (s32 (count s - 1) < 0) by (unfold s32, sgn; change (2 ^ (32 - 1)) with 2147483648; change (2 ^ 32) with 4294967296; dlia).
    rewrite ltb_t by lia. case_if E; b2p; [lia|]. auto.
  - rewrite s32_id by lia. destruct (Z.eq_dec (count s) 0) as [->|]; [left; split; [done|by left]|right].
    rewrite ltb_f by lia. case_if E; b2p; [|lia]. rewrite u32_id by lia. split; [done|lia].
Qed.

Lemma step_keeps_inv n c e c' G a u : 0 <= a -> n + u + weight is_released e < 2 ^ 32 -> inv n c G a u -> step c e c' ->
  exists G', inv n c' G' (a + weight is_acquired e) (u + weight is_released e).
Proof.
  intros Ha Hb H Hst. pose proof (v_units _ _ _ _ _ H) as Hu. pose proof (v_count _ _ _ _ _ H) as Hc0. pose proof (zlen_nonneg G) as HG.
  assert (forall t r o, weight is_released (outcome t r o) = 0) as Hw by (intros t r [v|]; cbn; [case_match|]; done).
  destruct Hst as [r t s s' o ts0 Hp Hc|t s s' v ts0 Hp Hc|r to el t s s' o ts0 Hp Hr He Hc|s s' o ts0 Hc|t f s ts0|t s ts0 Hp|t s ts0]; cbn [sem] in *.
  - rewrite Hw, Z.add_0_r in *. exists G. eapply inv_call; try done. lia.
  - assert (weight is_released (if v =? 0 then Acquired t else Silent) = 0) as E0 by (by case_match). rewrite E0, Z.add_0_r in *. exists G.
    destruct (trylock_cases s) as [(E & Ec)|(E & Ec)]; [lia|..]; rewrite Hc in E; injection E as -> ->; cbn; [rewrite Z.add_0_r; done|].
    destruct H as [I1 I2 I3 I4 I5 I6 I7 I8 I9]. split; cbn [sem ts count wait_list] in *; try done; try lia. intros. apply I9. lia.
  - rewrite Hw, Z.add_0_r in *. eapply inv_resume; done.
  - cbn in Hb. destruct (inv_up n s ts0 G a u H) as (o' & s'' & G' & E & H' & _); [left; lia|]. rewrite Hc in E. injection E as <- <-.
    exists G'. cbn. by rewrite Z.add_0_r.
  - exists G. cbn. rewrite !Z.add_0_r. apply inv_stay; cbn; try done. apply (v_timeout _ _ _ _ _ H).
  - exists G. cbn. rewrite !Z.add_0_r. apply inv_stay; cbn; try done. by rewrite Hp.
  - exists G. cbn. rewrite !Z.add_0_r. apply inv_stay; cbn; try done. apply (v_timeout _ _ _ _ _ H).
Qed.

Lemma count_ev_snoc f es e : count_ev f (es ++ [e]) = count_ev f es + weight f e.
Proof. unfold count_ev, weight. rewrite List.filter_app, zlen_app. cbn. by destruct (f e). Qed.
Lemma count_ev_nonneg f es : 0 <= count_ev f es.
Proof. apply zlen_nonneg. Qed.

Lemma steps_inv val es c : 0 <= val -> val + count_ev is_released es < 2 ^ 32 -> steps (start val) es c ->
  exists G, inv val c G (count_ev is_acquired es) (count_ev is_released es).
Proof.
  intros Hv Hb Hs. remember (start val) as c0 eqn:E0. induction Hs as [c|c es c' e c'' Hs IH Hst]; subst c.
  { exists []. change (count_ev is_released []) with 0 in *. unfold start, sema_init. rewrite u32_id by lia.
    split; cbn; try done; try apply NoDup_nil_2; try (change (zlen (@nil Z)) with 0; change (count_ev is_acquired []) with 0; lia); intros t; rewrite elem_of_nil; naive_solver.
    }
  rewrite count_ev_snoc in Hb. assert (0 <= weight is_released e) by (unfold weight; by case_match).
  destruct IH as [G HG]; [lia|done|]. rewrite !count_ev_snoc. eapply step_keeps_inv; try done; [apply count_ev_nonneg|lia].
Qed.

(** C12. In every interleaving of any number of tasks, units are conserved: the
    count, the calls that have returned with the semaphore and the tasks that
    were given a unit and are about to return add up to the initial value and
    the releases, so that no more calls succeed than there are units.  The queue
    holds exactly the sleeping tasks that have not been given one, each once,
    and it is empty while the count is positive. *)
Theorem semaphore_conserves val es c :
  0 <= val -> val + count_ev is_released es < 2 ^ 32 -> steps (start val) es c ->
  exists G, NoDup G /\ (forall t, t ∈ G <-> is_asleep (pc (ts c t)) = true /\ given (ts c t) = true) /\
    count (sem c) + count_ev is_acquired es + zlen G = val + count_ev is_released es /\
    0 <= count (sem c) /\ count_ev is_acquired es <= val + count_ev is_released es /\
    NoDup (wait_list (sem c)) /\
    (forall t, t ∈ wait_list (sem c) <-> is_asleep (pc (ts c t)) = true /\ given (ts c t) = false) /\
    (0 < count (sem c) -> wait_list (sem c) = []).
Proof.
  intros Hv Hb Hs. destruct (steps_inv val es c Hv Hb Hs) as [G [I1 I2 I3 I4 I5 I6 I7 I8 I9]].
  exists G. pose proof (zlen_nonneg G). repeat (split; [done || lia|]). done.
Qed.

(** ** The queue *)
Lemma steps_one c e c' : step c e c' -> steps c [e] c'.
Proof. intros H. apply (steps_snoc c [] c e c'); [constructor|done]. Qed.
Lemma steps_app c1 es c2 es' c3 : steps c1 es c2 -> steps c2 es' c3 -> steps c1 (es ++ es') c3.
Proof.
  intros H1 H2. induction H2 as [|? ? ? ? ? ? IH]; [by rewrite app_nil_r|]. rewrite app_assoc. econstructor; eauto.
Qed.

(** As many releases as there are waiters before [post] wake them in turn. *)
Lemma ups_in_order n pre : forall c G a u post, inv n c G a u -> wait_list (sem c) = pre ++ post ->
  exists c' G', steps c (replicate (length pre) Released) c' /\ inv n c' G' a (u + zlen pre) /\
    count (sem c') = count (sem c) /\ wait_list (sem c') = post /\
    forall v, pc (ts c' v) = pc (ts c v) /\ (v ∈ pre \/ given (ts c v) = true -> given (ts c' v) = true).
Proof.
  induction pre as [|t pre IH]; intros [s ts0] G a u post H Hw; cbn [sem] in Hw.
  { exists (Config s ts0), G. change (zlen (@nil Z)) with 0. rewrite Z.add_0_r. split; [constructor|]. repeat (split; [done|]).
    intros [Hv|?]; [by apply elem_of_nil in Hv|done]. }
  destruct (inv_up n s ts0 G a u H) as (o & s' & G' & E & H' & Ho & Hw'); [right; by rewrite Hw|]. rewrite Hw in Ho, Hw'. cbn in Ho, Hw'.
  destruct (IH _ G' a (u + 1) post H' Hw') as (c' & G'' & Hs & H'' & Hc & Hq & Hg). exists c', G''.
  split; [|rewrite zlen_cons; replace (u + (1 + zlen pre)) with (u + 1 + zlen pre) by lia; split; [done|]].
  { apply (steps_app _ [Released] (Config s' (grant o ts0))); [by apply steps_one, step_up|done]. }
  assert (count s' = count s) as Ec.
  { unfold up in E. rewrite Hw in E. unfold __up in E. rewrite Hw in E. cbn [app] in E. injection E as _ <-. done. }
  split; [cbn in *; congruence|]. split; [done|]. subst o. cbn [ts grant] in *. intros v. destruct (Hg v) as [-> Hv].
  unfold set_task in *. destruct (decide (v = t)) as [->|Hne]; cbn in *; [auto|]. split; [done|]. rewrite elem_of_cons. naive_solver.
Qed.

(** A task that was given a unit returns with it when it runs. *)
Lemma given_acquires n c G a u t : inv n c G a u -> is_asleep (pc (ts c t)) = true -> given (ts c t) = true ->
  exists c', step c (Acquired t) c' /\ pc (ts c' t) = Out.
Proof.
  intros H Ha Hg. assert (t ∈ G) as Ht by (by apply (v_given _ _ _ _ _ H)). apply (v_woken _ _ _ _ _ H) in Ht.
  destruct c as [s ts0]. cbn [ts sem] in *. destruct (pc (ts0 t)) as [|r to] eqn:E; [done|].
  eexists. split.
  - apply (step_resume r to 0 t s s (Some 0) ts0 E Ht); [lia|]. unfold down_resume. by rewrite Hg.
  - cbn. by rewrite set_task_same.
Qed.

(** C13. No wake-up is lost and the queue is served in order: from every reachable
    state in which [t] waits with the tasks [pre] before it, one release for
    each of them and one more give exactly these tasks a unit, leave those
    behind them queued, and [t] returns with the semaphore when it next runs. *)
Theorem semaphore_serves_in_order val es c pre t post :
  0 <= val -> val + count_ev is_released es < 2 ^ 32 -> steps (start val) es c ->
  wait_list (sem c) = pre ++ t :: post ->
  exists c1 c2, steps c (replicate (S (length pre)) Released) c1 /\
    wait_list (sem c1) = post /\ count (sem c1) = count (sem c) /\
    (forall v, v ∈ pre ++ [t] -> given (ts c1 v) = true /\ running (ts c1 v) = true) /\
    step c1 (Acquired t) c2 /\ pc (ts c2 t) = Out.
Proof.
  intros Hv Hb Hs Hw. destruct (steps_inv val es c Hv Hb Hs) as [G H].
  destruct (ups_in_order val (pre ++ [t]) c G _ _ post H) as (c1 & G' & S1 & H1 & Hc & Hq & Hg); [by rewrite <- app_assoc|].
  rewrite length_app, Nat.add_1_r in S1.
  assert (forall v, v ∈ pre ++ [t] -> is_asleep (pc (ts c1 v)) = true /\ given (ts c1 v) = true) as Hall.
  { intros v Hin. destruct (Hg v) as [-> Hgv]. split; [|auto]. apply (v_waits _ _ _ _ _ H). rewrite Hw.
    apply elem_of_app in Hin as [?|?%list_elem_of_singleton]; [apply elem_of_app; by left|subst]. apply elem_of_app. right. apply elem_of_cons.
    by left. }
  destruct (Hall t) as [A1 A2]; [apply elem_of_app; right; by apply list_elem_of_singleton|].
  destruct (given_acquires _ _ _ _ _ t H1 A1 A2) as (c2 & S2 & E2). exists c1, c2. repeat (split; [done|]). split; [|done].
  intros v Hin. split; [by apply Hall|]. eapply (v_woken _ _ _ _ _ H1), (v_given _ _ _ _ _ H1). auto.
Qed.

(** ** Failures *)
Lemma pending_cases r p : signal_pending_state (state_of r) p = true ->
  pending p = true /\ (r = DownInterruptible \/ r = DownKillable /\ fatal p = true).
Proof. destruct r, p as [[] []]; cbn; intros; try done; auto. Qed.

Definition why_failed (t e : Z) (r : request) (c : config) : Prop :=
  (e = - EINTR /\ pending (sigs (ts c t)) = true /\ (r = DownInterruptible \/ r = DownKillable /\ fatal (sigs (ts c t)) = true)) \/
  (e = - ETIME /\ exists j, r = DownTimeout j /\ j <> MAX_SCHEDULE_TIMEOUT).

Lemma outcome_failed t0 r0 o t e r : outcome t0 r0 o = Failed t e r -> t0 = t /\ r0 = r /\ o = Some e /\ e <> 0.
Proof. destruct o as [v|]; cbn; [|done]. destruct (v =? 0) eqn:E; [done|]. b2p. by intros [= -> -> ->]. Qed.

Lemma round_failed state timeout t p s e s' : wait_round state timeout t p s = Some (Some e, s') ->
  s' = Semaphore (count s) (list_del t (wait_list s)) /\
  ((e = - EINTR /\ signal_pending_state state p = true) \/ (e = - ETIME /\ timeout <= 0)).
Proof. destruct (wait_round_cases state timeout t p s) as [(-> & _)|(e' & -> & He)]; [done|]. intros [= <- <-]. naive_solver. Qed.

(** C14. A call fails only with [-EINTR] because of a signal its kind admits, or
    with [-ETIME] when it was given a finite timeout; [down], whose caller sees
    no result, never fails.  A call that fails was not given a unit, takes
    itself off the queue and changes neither the count nor the order of the
    others. *)
Theorem semaphore_failures val es c t e r c' :
  0 <= val -> val + count_ev is_released es < 2 ^ 32 -> steps (start val) es c -> step c (Failed t e r) c' ->
  why_failed t e r c /\ r <> Down /\ ~ (is_asleep (pc (ts c t)) = true /\ given (ts c t) = true) /\
  pc (ts c' t) = Out /\ count (sem c') = count (sem c) /\ wait_list (sem c') = list_del t (wait_list (sem c)).
Proof.
  intros Hv Hb Hs Hst. destruct (steps_inv val es c Hv Hb Hs) as [G H].
  assert (why_failed t e r c -> r <> Down) as Hd by (unfold why_failed; naive_solver).
  enough (why_failed t e r c /\ ~ (is_asleep (pc (ts c t)) = true /\ given (ts c t) = true) /\
    pc (ts c' t) = Out /\ count (sem c') = count (sem c) /\ wait_list (sem c') = list_del t (wait_list (sem c))) by naive_solver.
  remember (Failed t e r) as ev eqn:Ev.
  destruct Hst as [r0 t0 s s' o ts0 Hp Hc|t0 s s' v ts0 Hp Hc|r0 to el t0 s s' o ts0 Hp Hr He Hc| | | |]; try done; [|by destruct (v =? 0)|].
  - apply outcome_failed in Ev as (-> & -> & -> & Ne). cbn [sem ts] in *. destruct (out_free _ _ _ _ _ _ _ H Hp) as [N1 _].
    rewrite call_common in Hc. unfold acquire, __down_common in Hc. destruct (0 <? count s); [naive_solver|].
    apply round_failed in Hc as (-> & Hw). cbn [count wait_list]. rewrite set_task_same, Hp, list_del_snoc, list_del_notin by done.
    split; [|naive_solver]. unfold why_failed. cbn [ts]. destruct Hw as [(-> & Hw%pending_cases)|(-> & Hw)]; [naive_solver|right].
    split; [done|]. destruct r; cbn in Hw; try (unfold MAX_SCHEDULE_TIMEOUT in Hw; lia). exists jiffies.
    split; [done|unfold MAX_SCHEDULE_TIMEOUT; lia].
  - apply outcome_failed in Ev as (-> & -> & -> & Ne). cbn [sem ts] in *. unfold down_resume in Hc.
    destruct (given (ts0 t)) eqn:Eg; [by injection Hc as <- _|]. apply round_failed in Hc as (-> & Hw).
    cbn [count wait_list]. rewrite set_task_same. split; [|naive_solver]. unfold why_failed. cbn [ts].
    destruct Hw as [(-> & Hw%pending_cases)|(-> & Hw)]; [naive_solver|right]. split; [done|].
    pose proof (v_timeout _ _ _ _ _ H t r to Hp) as Ht. destruct (Z.eq_dec (timeout_of r) MAX_SCHEDULE_TIMEOUT) as [Em|Em].
    + rewrite (Ht Em), schedule_timeout_max in Hw. unfold MAX_SCHEDULE_TIMEOUT in Hw. lia.
    + destruct r; cbn in Em; try done. eauto.
Qed.

(** ** Examples *)
(** Task 1 holds the semaphore and task 2 waits for it with the given call. *)
Lemma example_run (r : request) : 0 < timeout_of r -> exists c,
  steps (start 1) [Acquired 1; Silent] c /\ wait_list (sem c) = [2] /\ pc (ts c 2) = Asleep r (timeout_of r) /\
  given (ts c 2) = false /\ sigs (ts c 2) = Signals false false.
Proof.
  intros Hr. eexists. split.
  - eapply (steps_snoc _ [Acquired 1] _ Silent); [eapply (steps_snoc _ [] _ (Acquired 1)); [constructor|]|].
    + by apply (step_call Down 1 _ (Semaphore 0 []) (Some 0)).
    + apply (step_call r 2 _ (Semaphore 0 [2]) None); [done|]. rewrite call_common. unfold acquire, __down_common, wait_round.
      cbn [count wait_list Z.ltb Z.compare app set_task decide sigs].
      change (sigs _) with (Signals false false).
      assert (signal_pending_state (state_of r) (Signals false false) = false) as -> by (by destruct r).
      case_if E; b2p; [lia|done].
  - done.
Qed.

Lemma semaphore_conserves_witness : exists c (G : list Z), steps (start 1) [Acquired 1; Silent] c /\
  count (sem c) + 1 + zlen G = 1 + 0 /\ wait_list (sem c) = [2].
Proof.
  destruct (example_run Down eq_refl) as (c & Hs & Hw & _).
  destruct (semaphore_conserves 1 [Acquired 1; Silent] c ltac:(lia) eq_refl Hs) as (G & _ & _ & Hu & _).
  exists c, G. split; [exact Hs|]. split; [exact Hu|exact Hw].
Defined.

Lemma semaphore_serves_in_order_witness : exists c c1 c2, steps (start 1) [Acquired 1; Silent] c /\
  steps c [Released] c1 /\ step c1 (Acquired 2) c2.
Proof.
  destruct (example_run Down eq_refl) as (c & Hs & Hw & _).
  destruct (semaphore_serves_in_order 1 [Acquired 1; Silent] c [] 2 [] ltac:(lia) eq_refl Hs Hw) as (c1 & c2 & H1 & _ & _ & _ & H2 & _).
  exists c, c1, c2. split; [exact Hs|]. split; [exact H1|exact H2].
Defined.

(** Its timer expires: task 2 leaves with [-ETIME]. *)
Lemma example_expired : exists c c',
  steps (start 1) [Acquired 1; Silent; Silent] c /\ step c (Failed 2 (-62) (DownTimeout 10)) c' /\ wait_list (sem c) = [2].
Proof.
  destruct (example_run (DownTimeout 10) eq_refl) as ([s ts0] & Hs & Hw & Hp & Hg & Hsg). cbn [sem ts] in *.
  eexists _, _. split; [|split].
  - apply (steps_snoc _ [Acquired 1; Silent] (Config s ts0) Silent); [exact Hs|]. apply (step_wake 2).
  - eapply (step_resume (DownTimeout 10) 10 12 2 s _ (Some (-62))); rewrite ?set_task_same; cbn [pc running given sigs]; [done|done|lia|].
    rewrite Hg, Hsg. reflexivity.
  - done.
Qed.

Lemma semaphore_failures_witness : exists c c', step c (Failed 2 (-62) (DownTimeout 10)) c' /\
  count (sem c') = count (sem c) /\ wait_list (sem c') = [].
Proof.
  destruct example_expired as (c & c' & Hs & Hst & Hw).
  destruct (semaphore_failures 1 [Acquired 1; Silent; Silent] c 2 (-62) (DownTimeout 10) c' ltac:(lia) eq_refl Hs Hst) as (_ & _ & _ & _ & Hc & Hl).
  exists c, c'. split; [exact Hst|]. split; [exact Hc|]. rewrite Hl, Hw. reflexivity.
Defined.

(** A count above [2^31], which [sema_init] sets when it is given a negative
    value, makes [down_trylock] fail while [down] succeeds. *)
Example trylock_large_count :
  down_trylock (sema_init (-1)) = Some (1, sema_init (-1)) /\
  down 1 (Signals false false) (sema_init (-1)) = Some (Some 0, Semaphore 4294967294 []).
Proof. split; reflexivity. Qed.
