(* ===== verification/RadixTree.v ===== *)
(** * Radix trees: nodes and lookup

    [lib/radix-tree.c]: the map from 32-bit indices to pointers behind the page
    cache.  Nodes are objects of a heap with 64 slots, a count and two rows of
    tag bits; the root holds the height, the tags of the whole tree and the top
    node or, at height 0, the item at index 0 itself.  This file holds the nodes,
    the abstraction and lookup; [RadixInsert] has allocation and insertion,
    [RadixTag] the tags and deletion, [RadixGang] the scans.

    The abstraction of a tree is a map from indices to items and a set of indices
    for each tag.  Nodes are addressed by their height [k] and the prefix
    [index / 64^k] they cover, which makes every change of a slot a change at one
    address. *)

From Stdlib Require Import ZArith Lia.
From stdpp Require Import base tactics numbers list gmap option.
From S2P Require Import Prelude.

(** ** Constants *)
Definition RADIX_TREE_MAP_SHIFT : Z := 6.
Definition RADIX_TREE_MAP_SIZE : Z := Z.shiftl 1 RADIX_TREE_MAP_SHIFT.
Definition RADIX_TREE_MAP_MASK : Z := RADIX_TREE_MAP_SIZE - 1.
Definition RADIX_TREE_TAG_LONGS : Z := (RADIX_TREE_MAP_SIZE + BITS_PER_LONG - 1) / BITS_PER_LONG.
Definition RADIX_TREE_INDEX_BITS : Z := 8 * 4.
Definition RADIX_TREE_MAX_PATH : Z := (RADIX_TREE_INDEX_BITS + RADIX_TREE_MAP_SHIFT - 1) / RADIX_TREE_MAP_SHIFT.
Definition RADIX_TREE_MAX_TAGS : Z := 2.
Definition RADIX_TREE_INDIRECT_PTR : Z := 1.
Definition RADIX_TREE_RETRY : Z := 2 ^ 32 - 1.
Definition __GFP_WAIT : Z := 0x10.
Definition __GFP_BITS_SHIFT : Z := 21.
Definition __GFP_BITS_MASK : Z := Z.shiftl 1 __GFP_BITS_SHIFT - 1.
Definition EEXIST : Z := 17.

(** ** Data *)
(** Pointers are addresses and [NULL] is 0.  [tags] has a row of words for each
    tag. *)
Record radix_tree_node := Node { nheight : Z; ncount : Z; slots : list Z; tags : list (list Z) }.
(** The root, the nodes that exist, the nodes in the pool of this processor, the
    last one first, and the nodes that wait for a grace period. *)
Record state := State {
  rheight : Z; gfp_mask : Z; rnode : Z;
  nodes : gmap Z radix_tree_node; pool : list Z; rcu : list Z }.
Abbreviation R := (ST state).

Definition set_height (v : Z) : R unit := fun st => Some (tt, State v (gfp_mask st) (rnode st) (nodes st) (pool st) (rcu st)).
Definition set_gfp (v : Z) : R unit := fun st => Some (tt, State (rheight st) v (rnode st) (nodes st) (pool st) (rcu st)).
Definition set_rnode (v : Z) : R unit := fun st => Some (tt, State (rheight st) (gfp_mask st) v (nodes st) (pool st) (rcu st)).
Definition set_nodes (v : gmap Z radix_tree_node) : R unit := fun st => Some (tt, State (rheight st) (gfp_mask st) (rnode st) v (pool st) (rcu st)).
Definition set_pool (v : list Z) : R unit := fun st => Some (tt, State (rheight st) (gfp_mask st) (rnode st) (nodes st) v (rcu st)).
Definition set_rcu (v : list Z) : R unit := fun st => Some (tt, State (rheight st) (gfp_mask st) (rnode st) (nodes st) (pool st) v).

Definition INIT_RADIX_TREE (mask : Z) : R unit := set_height 0 ;; set_gfp mask ;; set_rnode 0.

(** A read or a write through a pointer that is not a node, or outside one of its
    arrays, faults. *)
Definition get_node (p : Z) : R radix_tree_node := fun st =>
  match nodes st !! p with Some nd => Some (nd, st) | None => None end.
Definition put_node (p : Z) (nd : radix_tree_node) : R unit := let* st := get in set_nodes (<[p := nd]> (nodes st)).
Definition index {A} (l : list A) (i : Z) : R A := match zget l i with Some v => ret v | None => fault end.

Definition get_slot (p i : Z) : R Z := let* nd := get_node p in index (slots nd) i.
Definition put_slot (p i v : Z) : R unit :=
  let* nd := get_node p in
  index (slots nd) i ;;
  put_node p (Node (nheight nd) (ncount nd) (upd (slots nd) i v) (tags nd)).
Definition put_height (p v : Z) : R unit :=
  let* nd := get_node p in put_node p (Node v (ncount nd) (slots nd) (tags nd)).
Definition put_count (p v : Z) : R unit :=
  let* nd := get_node p in put_node p (Node (nheight nd) v (slots nd) (tags nd)).
Definition put_tag (p tag w v : Z) : R unit :=
  let* nd := get_node p in
  let* row := index (tags nd) tag in
  index row w ;;
  put_node p (Node (nheight nd) (ncount nd) (slots nd) (upd (tags nd) tag (upd row w v))).

Definition BUG_ON (b : bool) : R unit := if b then fault else ret tt.

(** ** Indirect pointers *)
Definition radix_tree_ptr_to_indirect (p : Z) : Z := Z.lor p RADIX_TREE_INDIRECT_PTR.
Definition radix_tree_indirect_to_ptr (p : Z) : Z := Z.land p (not32 RADIX_TREE_INDIRECT_PTR).
Definition radix_tree_is_indirect_ptr (p : Z) : bool := negb (Z.land p RADIX_TREE_INDIRECT_PTR =? 0).

(** ** Tags *)
Definition tag_get (p tag offset : Z) : R bool :=
  let* nd := get_node p in
  let* row := index (tags nd) tag in
  let* w := index row (offset / BITS_PER_LONG) in
  ret (Z.testbit w (offset mod BITS_PER_LONG)).
Definition tag_set (p tag offset : Z) : R unit :=
  let* nd := get_node p in
  let* row := index (tags nd) tag in
  let* w := index row (offset / BITS_PER_LONG) in
  put_tag p tag (offset / BITS_PER_LONG) (Z.lor w (Z.shiftl 1 (offset mod BITS_PER_LONG))).
Definition tag_clear (p tag offset : Z) : R unit :=
  let* nd := get_node p in
  let* row := index (tags nd) tag in
  let* w := index row (offset / BITS_PER_LONG) in
  put_tag p tag (offset / BITS_PER_LONG) (Z.land w (not32 (Z.shiftl 1 (offset mod BITS_PER_LONG)))).
Definition any_tag_set (p tag : Z) : R bool :=
  let* nd := get_node p in
  let* row := index (tags nd) tag in
  let* r := for_ret (Z.to_nat RADIX_TREE_TAG_LONGS) 0 (fun idx =>
    let* w := index row idx in ret (if w =? 0 then None else Some true)) in
  ret (default false r).

Definition root_gfp_mask : R Z := let* st := get in ret (Z.land (gfp_mask st) __GFP_BITS_MASK).
Definition root_tag_bit (tag : Z) : Z := Z.shiftl 1 (tag + __GFP_BITS_SHIFT).
Definition root_tag_set (tag : Z) : R unit := let* st := get in set_gfp (Z.lor (gfp_mask st) (root_tag_bit tag)).
Definition root_tag_clear (tag : Z) : R unit := let* st := get in set_gfp (Z.land (gfp_mask st) (not32 (root_tag_bit tag))).
Definition root_tag_clear_all : R unit := let* st := get in set_gfp (Z.land (gfp_mask st) __GFP_BITS_MASK).
Definition root_tag_get (tag : Z) : R bool := let* st := get in ret (negb (Z.land (gfp_mask st) (root_tag_bit tag) =? 0)).

(** ** The largest index of a height *)
Definition __maxindex (height : Z) : Z :=
  let width := u32 (height * RADIX_TREE_MAP_SHIFT) in
  let shift := s32 (RADIX_TREE_INDEX_BITS - width) in
  if shift <? 0 then u32 (Z.lnot 0)
  else if BITS_PER_LONG <=? shift then 0
  else Z.shiftr (u32 (Z.lnot 0)) shift.
(** The table [radix_tree_init_maxindex] fills. *)
Definition height_to_maxindex : list Z := __maxindex <$> seqZ 0 (RADIX_TREE_MAX_PATH + 1).
Definition radix_tree_maxindex (height : Z) : R Z := index height_to_maxindex height.

(** ** Empty nodes *)
Definition zero_node (height : Z) : radix_tree_node :=
  Node height 0 (replicate (Z.to_nat RADIX_TREE_MAP_SIZE) 0) (replicate 2 (replicate (Z.to_nat RADIX_TREE_TAG_LONGS) 0)).

(** ** Lookup *)
(** A slot is the field [rnode] of the root or a slot of a node. *)
Inductive slot_ref := RootSlot | NodeSlot (p i : Z).
Definition read_slot (r : slot_ref) : R Z :=
  match r with RootSlot => let* st := get in ret (rnode st) | NodeSlot p i => get_slot p i end.
Definition write_slot (r : slot_ref) (v : Z) : R unit :=
  match r with RootSlot => set_rnode v | NodeSlot p i => put_slot p i v end.

(** One round of the descent on [slot], [node], [shift] and [height]. *)
Definition lookup_round (idx : Z) : slot_ref * Z * Z * Z -> R (slot_ref * Z * Z * Z + option (slot_ref * Z)) :=
  fun '(_, node, shift, height) =>
  let slot := NodeSlot node (Z.land (Z.shiftr idx shift) RADIX_TREE_MAP_MASK) in
  let* node := read_slot slot in
  if node =? 0 then ret (inr None) else
  let height := u32 (height - 1) in
  ret (if 0 <? height then inl (slot, node, u32 (shift - RADIX_TREE_MAP_SHIFT), height) else inr (Some (slot, node))).
(** The slot and the item, for both functions. *)
Definition lookup_both (idx : Z) : R (option (slot_ref * Z)) :=
  let* st := get in
  let node := rnode st in
  if node =? 0 then ret None
  else if negb (radix_tree_is_indirect_ptr node) then
    if 0 <? idx then ret None else ret (Some (RootSlot, node))
  else
    let node := radix_tree_indirect_to_ptr node in
    let* nd := get_node node in
    let height := nheight nd in
    let* m := radix_tree_maxindex height in
    if m <? idx then ret None else
    while (S (Z.to_nat RADIX_TREE_MAX_PATH)) (lookup_round idx)
      (RootSlot, node, u32 ((height - 1) * RADIX_TREE_MAP_SHIFT), height).
Definition radix_tree_lookup_slot (idx : Z) : R (option slot_ref) :=
  let* r := lookup_both idx in ret (fst <$> r).
Definition radix_tree_lookup (idx : Z) : R Z :=
  let* r := lookup_both idx in ret (match r with Some (_, v) => v | None => 0 end).
Definition radix_tree_deref_slot (r : slot_ref) : R Z :=
  let* v := read_slot r in
  ret (if radix_tree_is_indirect_ptr v then RADIX_TREE_RETRY else v).
Definition radix_tree_replace_slot (r : slot_ref) (item : Z) : R unit :=
  BUG_ON (radix_tree_is_indirect_ptr item) ;; write_slot r item.

(** ** Arithmetic of indices and pointers *)
(** A pointer to a node or an item is even. *)
Definition ptr_ok (p : Z) : Prop := p mod 2 = 0 /\ 0 <= p < 2 ^ 32.

Lemma land_1 p : Z.land p 1 = p mod 2.
Proof. apply (Z.land_ones p 1). lia. Qed.
Lemma lor_1 p : p mod 2 = 0 -> Z.lor p 1 = p + 1.
Proof.
  intros E. rewrite Z.add_nocarry_lxor, Z.lxor_lor; [done|..]; by rewrite land_1.
Qed.
Lemma to_indirect p : ptr_ok p -> radix_tree_ptr_to_indirect p = p + 1.
Proof. intros [E _]. by apply lor_1. Qed.
Lemma land_not1 p : 0 <= p < 2 ^ 32 -> Z.land p (not32 1) = p - p mod 2.
Proof. intros Hp. change (not32 1) with (wrap 32 (Z.lnot (2 ^ 1 - 1))). rewrite land_mask by lia. done. Qed.
Lemma to_ptr p : ptr_ok p -> radix_tree_indirect_to_ptr p = p.
Proof. intros [E Hp]. unfold radix_tree_indirect_to_ptr, RADIX_TREE_INDIRECT_PTR. rewrite land_not1 by done. lia. Qed.
Lemma to_ptr_indirect p : ptr_ok p -> radix_tree_indirect_to_ptr (p + 1) = p.
Proof.
  intros [E Hp]. unfold radix_tree_indirect_to_ptr, RADIX_TREE_INDIRECT_PTR.
  pow2. rewrite land_not1 by (pow2; dlia). dlia.
Qed.
Lemma not_indirect p : ptr_ok p -> radix_tree_is_indirect_ptr p = false.
Proof. intros [E _]. unfold radix_tree_is_indirect_ptr, RADIX_TREE_INDIRECT_PTR. by rewrite land_1, E. Qed.
Lemma is_indirect p : ptr_ok p -> radix_tree_is_indirect_ptr (p + 1) = true.
Proof.
  intros [E _]. unfold radix_tree_is_indirect_ptr, RADIX_TREE_INDIRECT_PTR. rewrite land_1.
  assert ((p + 1) mod 2 = 1) as -> by dlia. done.
Qed.
Lemma ptr_ok_0 : ptr_ok 0.
Proof. done. Qed.
#[global] Hint Resolve ptr_ok_0 : core.

(** The prefix of an index that a node of height [k] covers, and the place of the
    next one in it. *)
Definition pfx (k idx : Z) : Z := idx / 64 ^ k.
Lemma pow64 k : 0 <= k -> 0 < 64 ^ k.
Proof. intros. apply Z.pow_pos_nonneg; lia. Qed.
Lemma pfx_0 idx : pfx 0 idx = idx.
Proof. unfold pfx. by rewrite Z.pow_0_r, Z.div_1_r. Qed.
Lemma pfx_S k idx : 0 <= k -> pfx (k + 1) idx = pfx k idx / 64.
Proof. intros. unfold pfx. rewrite Z.pow_add_r, Z.pow_1_r, Z.div_div by lia. done. Qed.
Lemma pfx_down k idx : 1 <= k -> pfx (k - 1) idx = 64 * pfx k idx + pfx (k - 1) idx mod 64.
Proof. intros. replace k with (k - 1 + 1) at 2 by lia. rewrite pfx_S by lia. dlia. Qed.
Lemma pfx_up k idx y : 1 <= k -> pfx (k - 1) idx = y -> pfx k idx = y / 64.
Proof. intros Hk <-. replace k with (k - 1 + 1) at 1 by lia. by rewrite pfx_S by lia. Qed.
Lemma pfx_nonneg k idx : 0 <= k -> 0 <= idx -> 0 <= pfx k idx.
Proof. intros. apply Z.div_pos; [done|]. by apply pow64. Qed.
Lemma pfx_small k idx : 0 <= k -> 0 <= idx -> pfx k idx = 0 <-> idx < 64 ^ k.
Proof.
  intros Hk Hi. pose proof (pow64 k Hk). unfold pfx. split; intros E.
  - apply Z.div_small_iff in E; lia.
  - by apply Z.div_small.
Qed.

Lemma offset_eq k idx : 1 <= k <= 6 -> 0 <= idx ->
  Z.land (Z.shiftr idx (u32 ((k - 1) * RADIX_TREE_MAP_SHIFT))) RADIX_TREE_MAP_MASK = pfx (k - 1) idx mod 64.
Proof.
  intros Hk Hi. unfold RADIX_TREE_MAP_SHIFT. rewrite u32_id by lia. rewrite Z.shiftr_div_pow2 by lia.
  replace (2 ^ ((k - 1) * 6)) with (64 ^ (k - 1)) by (change 64 with (2 ^ 6); rewrite <- Z.pow_mul_r by lia; f_equal; lia).
  apply (Z.land_ones _ 6). lia.
Qed.
Lemma shift_next a : u32 (u32 a - RADIX_TREE_MAP_SHIFT) = u32 (a - RADIX_TREE_MAP_SHIFT).
Proof. unfold wrap. rewrite Zminus_mod_idemp_l. done. Qed.
Lemma shift_step k : u32 (u32 ((k - 1) * RADIX_TREE_MAP_SHIFT) - RADIX_TREE_MAP_SHIFT) = u32 ((k - 1 - 1) * RADIX_TREE_MAP_SHIFT).
Proof. rewrite shift_next. f_equal. unfold RADIX_TREE_MAP_SHIFT. lia. Qed.

(** [maxindex] is the last index of a tree of the height. *)
Lemma maxindex_eq h (st : state) : 0 <= h <= 6 ->
  radix_tree_maxindex h st = Some (Z.min (64 ^ h - 1) (2 ^ 32 - 1), st).
Proof.
  intros Hh. assert (h = 0 \/ h = 1 \/ h = 2 \/ h = 3 \/ h = 4 \/ h = 5 \/ h = 6) as Hc by lia.
  repeat destruct Hc as [->|Hc]; try subst h; reflexivity.
Qed.
Lemma above_max h idx : 0 <= h <= 6 -> 0 <= idx < 2 ^ 32 ->
  (Z.min (64 ^ h - 1) (2 ^ 32 - 1) <? idx) = negb (pfx h idx =? 0).
Proof.
  intros Hh Hi. pose proof (pfx_small h idx ltac:(lia) ltac:(lia)) as Hs.
  destruct (Z.eqb_spec (pfx h idx) 0) as [E|E]; cbn.
  - apply Hs in E. apply ltb_f. lia.
  - apply ltb_t. destruct (Z_lt_le_dec idx (64 ^ h)) as [L|L]; [|lia]. apply Hs in L. done.
Qed.

(** ** Access to nodes *)
Definition with_nodes (st : state) (ns : gmap Z radix_tree_node) : state :=
  State (rheight st) (gfp_mask st) (rnode st) ns (pool st) (rcu st).
Definition nd_slot (nd : radix_tree_node) (i v : Z) : radix_tree_node := Node (nheight nd) (ncount nd) (upd (slots nd) i v) (tags nd).
Definition nd_count (nd : radix_tree_node) (v : Z) : radix_tree_node := Node (nheight nd) v (slots nd) (tags nd).
Definition nd_height (nd : radix_tree_node) (v : Z) : radix_tree_node := Node v (ncount nd) (slots nd) (tags nd).
Definition row (nd : radix_tree_node) (tag : Z) : list Z := default [] (zget (tags nd) tag).
Definition nd_tag (nd : radix_tree_node) (tag w v : Z) : radix_tree_node :=
  Node (nheight nd) (ncount nd) (slots nd) (upd (tags nd) tag (upd (row nd tag) w v)).
Definition tagbit (nd : radix_tree_node) (tag i : Z) : bool := Z.testbit (at_ (row nd tag) (i / 32)) (i mod 32).

(** The arrays have their sizes. *)
Record shape (nd : radix_tree_node) : Prop := Shape {
  sh_slots : zlen (slots nd) = 64;
  sh_tags : zlen (tags nd) = 2;
  sh_rows tag : 0 <= tag < 2 -> zlen (row nd tag) = 2 /\ Forall (uint 32) (row nd tag) }.

Lemma with_nodes_id st : with_nodes st (nodes st) = st.
Proof. by destruct st. Qed.
Lemma with_nodes_twice st ns ns' : with_nodes (with_nodes st ns) ns' = with_nodes st ns'.
Proof. done. Qed.

Lemma get_eq (st : state) : get st = Some (st, st).
Proof. done. Qed.
Lemma bug_not (st : state) : BUG_ON false st = Some (tt, st).
Proof. done. Qed.

Section Node.
Context (st : state) (p : Z) (nd : radix_tree_node) (Hp : nodes st !! p = Some nd).

Lemma get_node_eq : get_node p st = Some (nd, st).
Proof using Hp. unfold get_node. by rewrite Hp. Qed.
Lemma put_node_eq nd' : put_node p nd' st = Some (tt, with_nodes st (<[p := nd']> (nodes st))).
Proof using. done. Qed.
Lemma nth_index_eq {A} (l : list A) i v : zget l i = Some v -> index l i st = Some (v, st).
Proof using. intros E. unfold index. by rewrite E. Qed.
Lemma put_height_eq v : put_height p v st = Some (tt, with_nodes st (<[p := nd_height nd v]> (nodes st))).
Proof using Hp. unfold put_height. by run get_node_eq. Qed.
Lemma put_count_eq v : put_count p v st = Some (tt, with_nodes st (<[p := nd_count nd v]> (nodes st))).
Proof using Hp. unfold put_count. by run get_node_eq. Qed.

Context (Hs : shape nd).
Lemma get_slot_eq i : 0 <= i < 64 -> get_slot p i st = Some (at_ (slots nd) i, st).
Proof using Hp Hs. intros Hi. unfold get_slot. run get_node_eq. apply nth_index_eq, zget_at. rewrite (sh_slots _ Hs). done. Qed.
Lemma put_slot_eq i v : 0 <= i < 64 -> put_slot p i v st = Some (tt, with_nodes st (<[p := nd_slot nd i v]> (nodes st))).
Proof using Hp Hs.
  intros Hi. unfold put_slot. run get_node_eq.
  assert (index (slots nd) i st = Some (at_ (slots nd) i, st)) as E by (apply nth_index_eq, zget_at; rewrite (sh_slots _ Hs); done).
  run E. done.
Qed.

Lemma row_eq tag : 0 <= tag < 2 -> zget (tags nd) tag = Some (row nd tag).
Proof using Hs.
  intros Ht. unfold row. destruct (zget (tags nd) tag) eqn:E; [done|].
  assert (is_Some (zget (tags nd) tag)) as [? ?] by (apply zget_is_Some; rewrite (sh_tags _ Hs); done). congruence.
Qed.
Lemma word_eq tag w : 0 <= tag < 2 -> 0 <= w < 2 -> zget (row nd tag) w = Some (at_ (row nd tag) w) /\ uint 32 (at_ (row nd tag) w).
Proof using Hs.
  intros Ht Hw. destruct (sh_rows _ Hs tag Ht) as [Hl Hf]. split; [apply zget_at; lia|]. apply Forall_at; [done|lia].
Qed.
Lemma tag_get_eq tag i : 0 <= tag < 2 -> 0 <= i < 64 -> tag_get p tag i st = Some (tagbit nd tag i, st).
Proof using Hp Hs.
  intros Ht Hi. unfold tag_get, BITS_PER_LONG. run get_node_eq. run (nth_index_eq _ _ _ (row_eq tag Ht)).
  run (nth_index_eq _ _ _ (proj1 (word_eq tag (i / 32) Ht ltac:(dlia)))). done.
Qed.
Lemma put_tag_eq tag w v : 0 <= tag < 2 -> 0 <= w < 2 ->
  put_tag p tag w v st = Some (tt, with_nodes st (<[p := nd_tag nd tag w v]> (nodes st))).
Proof using Hp Hs.
  intros Ht Hw. unfold put_tag. run get_node_eq. run (nth_index_eq _ _ _ (row_eq tag Ht)).
  run (nth_index_eq _ _ _ (proj1 (word_eq tag w Ht Hw))). done.
Qed.

Lemma row_nd_tag tag w v t : 0 <= tag < 2 -> 0 <= t < 2 -> row (nd_tag nd tag w v) t = if t =? tag then upd (row nd tag) w v else row nd t.
Proof using Hs.
  intros Ht Ht'. unfold row at 1, nd_tag. cbn [tags]. destruct (Z.eqb_spec t tag) as [->|].
  - by rewrite zget_upd_eq by (rewrite (sh_tags _ Hs); done).
  - by rewrite zget_upd_ne by lia.
Qed.
Lemma shape_nd_tag tag w v : 0 <= tag < 2 -> uint 32 v -> shape (nd_tag nd tag w v).
Proof using Hs.
  intros Ht Hv. split; cbn [nd_tag slots tags]; [apply Hs|rewrite zlen_upd; apply Hs|].
  intros t Ht'. rewrite row_nd_tag by done. destruct (Z.eqb_spec t tag) as [->|]; [|by apply Hs].
  rewrite zlen_upd. destruct (sh_rows _ Hs tag Ht). split; [done|]. by apply Forall_upd.
Qed.

(** A change of one bit. *)
Lemma tagbit_nd_tag tag i v t j (b : bool) : 0 <= tag < 2 -> 0 <= i < 64 -> 0 <= t < 2 -> 0 <= j < 64 ->
  (forall n, 0 <= n < 32 -> Z.testbit v n = if n =? i mod 32 then b else Z.testbit (at_ (row nd tag) (i / 32)) n) ->
  tagbit (nd_tag nd tag (i / 32) v) t j = if (t =? tag) && (j =? i) then b else tagbit nd t j.
Proof using Hs.
  intros Ht Hi Ht' Hj Hv. unfold tagbit. rewrite row_nd_tag by done. destruct (Z.eqb_spec t tag) as [->|]; cbn [andb]; [|done].
  destruct (sh_rows _ Hs tag Ht) as [Hl _]. destruct (Z.eq_dec (j / 32) (i / 32)) as [E|E].
  - rewrite E, at_upd_eq by dlia. rewrite Hv by dlia.
    destruct (Z.eqb_spec (j mod 32) (i mod 32)), (Z.eqb_spec j i); try done; dlia.
  - rewrite at_upd_ne by dlia. destruct (Z.eqb_spec j i); [subst; done|done].
Qed.
End Node.

(** [nd'] is [nd] with one tag bit set to [b]. *)
Record tag_changed (nd nd' : radix_tree_node) (tag i : Z) (b : bool) : Prop := TagChanged {
  tc_shape : shape nd';
  tc_height : nheight nd' = nheight nd;
  tc_count : ncount nd' = ncount nd;
  tc_slots : slots nd' = slots nd;
  tc_bit t j : 0 <= t < 2 -> 0 <= j < 64 -> tagbit nd' t j = if (t =? tag) && (j =? i) then b else tagbit nd t j }.

Lemma bit32 n : 0 <= n < 32 -> Z.shiftl 1 n = 2 ^ n /\ uint 32 (2 ^ n).
Proof.
  intros Hn. rewrite Z.shiftl_1_l. split; [done|]. unfold uint. split; [apply Z.pow_nonneg; lia|]. apply Z.pow_lt_mono_r; lia.
Qed.

Section Bits.
Context (st : state) (p : Z) (nd : radix_tree_node) (Hp : nodes st !! p = Some nd) (Hs : shape nd).
Context (tag i : Z) (Ht : 0 <= tag < 2) (Hi : 0 <= i < 64).

Lemma tag_set_eq : exists nd', tag_set p tag i st = Some (tt, with_nodes st (<[p := nd']> (nodes st))) /\ tag_changed nd nd' tag i true.
Proof using All.
  destruct (bit32 (i mod 32) ltac:(dlia)) as [Eb Hb]. destruct (word_eq nd Hs tag (i / 32) Ht ltac:(dlia)) as [Ew Hw].
  exists (nd_tag nd tag (i / 32) (Z.lor (at_ (row nd tag) (i / 32)) (2 ^ (i mod 32)))). split.
  - unfold tag_set, BITS_PER_LONG. run (get_node_eq st p nd Hp). run (nth_index_eq st _ _ _ (row_eq nd Hs tag Ht)). run (nth_index_eq st _ _ _ Ew).
    rewrite Eb. apply put_tag_eq; try done. dlia.
  - split; try done; [by apply shape_nd_tag, uint_lor|]. intros t j Ht' Hj. apply tagbit_nd_tag; try done.
    intros n Hn. rewrite Z.lor_spec, Z.pow2_bits_eqb by dlia. rewrite Z.eqb_sym. destruct (n =? i mod 32); [apply orb_true_r|apply orb_false_r].
Qed.
Lemma tag_clear_eq : exists nd', tag_clear p tag i st = Some (tt, with_nodes st (<[p := nd']> (nodes st))) /\ tag_changed nd nd' tag i false.
Proof using All.
  destruct (bit32 (i mod 32) ltac:(dlia)) as [Eb Hb]. destruct (word_eq nd Hs tag (i / 32) Ht ltac:(dlia)) as [Ew Hw].
  exists (nd_tag nd tag (i / 32) (Z.land (at_ (row nd tag) (i / 32)) (not32 (2 ^ (i mod 32))))). split.
  - unfold tag_clear, BITS_PER_LONG. run (get_node_eq st p nd Hp). run (nth_index_eq st _ _ _ (row_eq nd Hs tag Ht)). run (nth_index_eq st _ _ _ Ew).
    rewrite Eb. apply put_tag_eq; try done. dlia.
  - split; try done; [apply shape_nd_tag; [done..|]; apply uint_land; [lia|done|]; apply (uint_nonneg 32), uint_not32|].
    intros t j Ht' Hj. apply tagbit_nd_tag; try done.
    intros n Hn. rewrite Z.land_spec, testbit_not32, Z.pow2_bits_eqb by dlia. rewrite (Z.eqb_sym (i mod 32) n).
    rewrite (ltb_t n 32) by lia. destruct (n =? i mod 32); [apply andb_false_r|apply andb_true_r].
Qed.
Lemma any_tag_set_eq : exists b, any_tag_set p tag st = Some (b, st) /\ (b = true <-> exists j, 0 <= j < 64 /\ tagbit nd tag j = true).
Proof using Hp Hs Ht.
  clear Hi i. destruct (word_eq nd Hs tag 0 Ht ltac:(lia)) as [E0 H0]. destruct (word_eq nd Hs tag 1 Ht ltac:(lia)) as [E1 H1].
  exists (negb (at_ (row nd tag) 0 =? 0) || negb (at_ (row nd tag) 1 =? 0)). split.
  - unfold any_tag_set. run (get_node_eq st p nd Hp). run (nth_index_eq st _ _ _ (row_eq nd Hs tag Ht)).
    change (Z.to_nat RADIX_TREE_TAG_LONGS) with 2%nat. cbn [for_ret]. run (nth_index_eq st _ _ _ E0). change (0 + 1) with 1.
    destruct (at_ (row nd tag) 0 =? 0) eqn:B0; cbn [negb orb]; run_ret; [|done]. run (nth_index_eq st _ _ _ E1).
    destruct (at_ (row nd tag) 1 =? 0) eqn:B1; cbn [negb orb]; run_ret; done.
  - assert (forall w, 0 <= w < 2 -> uint 32 (at_ (row nd tag) w) -> negb (at_ (row nd tag) w =? 0) = true <-> exists n, 0 <= n < 32 /\ Z.testbit (at_ (row nd tag) w) n = true) as Hword.
    { intros w Hw Hu. rewrite negb_true_iff, Z.eqb_neq. split.
      - intros Hn. exists (Z.log2 (at_ (row nd tag) w)). unfold uint in Hu. split; [|by apply Z.bit_log2; lia].
        split; [apply Z.log2_nonneg|]. apply Z.log2_lt_pow2; lia.
      - intros (n & Hn & E) Hz. by rewrite Hz, Z.bits_0 in E. }
    rewrite orb_true_iff, !Hword by (done || lia). unfold tagbit. split.
    + intros [(n & Hn & E)|(n & Hn & E)]; [exists n|exists (32 + n)]; (split; [lia|]).
      * by rewrite Z.div_small, Z.mod_small by lia.
      * assert ((32 + n) / 32 = 1) as -> by dlia. assert ((32 + n) mod 32 = n) as -> by dlia. done.
    + intros (j & Hj & E).
      assert (j / 32 = 0 \/ j / 32 = 1) as [Ej|Ej] by dlia; rewrite Ej in E; [left|right]; exists (j mod 32); (split; [dlia|done]).
Qed.
End Bits.

(** ** The abstraction *)
(** How many slots of a node are in use. *)
Definition used (l : list Z) : Z := zlen (filter (fun v => v <> 0) l).

(** [T k x] is what the slot for the prefix [x] at height [k] holds: a node for
    [k > 0], an item for [k = 0], and 0 where there is none; [tg tag] are the
    indices with the tag. *)
Definition covers (tg : Z -> gset Z) (tag k y : Z) : Prop := exists idx, idx ∈ tg tag /\ pfx k idx = y.
Record node_ok (T : Z -> Z -> Z) (tg : Z -> gset Z) (k x : Z) (nd : radix_tree_node) : Prop := NodeOk {
  n_shape : shape nd;
  n_height : nheight nd = k;
  n_slot i : 0 <= i < 64 -> at_ (slots nd) i = T (k - 1) (64 * x + i);
  n_count : ncount nd = used (slots nd);
  n_tag tag i : 0 <= tag < 2 -> 0 <= i < 64 -> tagbit nd tag i = true <-> covers tg tag (k - 1) (64 * x + i) }.

(** What [radix_tree_node_rcu_free] leaves of a node. *)
Definition cleaned (nd : radix_tree_node) : radix_tree_node :=
  nd_count (nd_slot (nd_tag (nd_tag nd 0 0 (Z.land (at_ (row nd 0) 0) (not32 1))) 1 0 (Z.land (at_ (row nd 1) 0) (not32 1))) 0 0) 0.

(** The nodes and items of a tree of height [h]. *)
Record struct_ok (h : Z) (ns : gmap Z radix_tree_node) (T : Z -> Z -> Z) (tg : Z -> gset Z) : Prop := StructOk {
  s_height : 0 <= h <= 6;
  s_node k x : 1 <= k <= h -> 0 <= x -> T k x <> 0 -> exists nd, ns !! T k x = Some nd /\ node_ok T tg k x nd;
  s_none k x i : 1 <= k <= h -> 0 <= x -> 0 <= i < 64 -> T k x = 0 -> T (k - 1) (64 * x + i) = 0;
  s_top x : 0 < x -> T h x = 0;
  s_above k x : h < k -> 0 <= x -> T k x = 0;
  s_inj k x k' x' : 1 <= k -> 0 <= x -> 1 <= k' -> 0 <= x' -> T k x <> 0 -> T k x = T k' x' -> k = k' /\ x = x';
  s_ptr k x : 0 <= k -> 0 <= x -> ptr_ok (T k x);
  s_index idx : 0 <= idx -> T 0 idx <> 0 -> idx < 2 ^ 32;
  s_tagged tag idx : 0 <= tag < 2 -> idx ∈ tg tag -> 0 <= idx /\ T 0 idx <> 0 }.
(** The root. *)
Record root_ok (h mask rn : Z) (T : Z -> Z -> Z) (tg : Z -> gset Z) : Prop := RootOk {
  r_rnode : rn = if h =? 0 then T 0 0 else if T h 0 =? 0 then 0 else T h 0 + 1;
  r_gfp : 0 <= mask < 2 ^ 23;
  r_tag tag : 0 <= tag < 2 -> Z.testbit mask (tag + 21) = true <-> exists idx, idx ∈ tg tag }.
(** Every node is in the tree, a spare, in the pool or waits for a grace period,
    and in one of them only; spare and pooled nodes are zero, and those that wait
    will be. *)
Definition zeroed (ns : gmap Z radix_tree_node) (p : Z) : Prop := exists stale, ns !! p = Some (zero_node stale).
Definition cleanable (ns : gmap Z radix_tree_node) (p : Z) : Prop := exists nd stale, ns !! p = Some nd /\ shape nd /\ cleaned nd = zero_node stale.
Record own_ok (ns : gmap Z radix_tree_node) (tree : Z -> Prop) (spare pool rcu : list Z) : Prop := OwnOk {
  o_nodup : NoDup (spare ++ pool ++ rcu);
  o_other p : p ∈ spare ++ pool ++ rcu -> p <> 0 /\ ptr_ok p /\ ~ tree p;
  o_spare p : p ∈ spare -> zeroed ns p;
  o_pool p : p ∈ pool -> zeroed ns p;
  o_rcu p : p ∈ rcu -> cleanable ns p;
  o_owned p : is_Some (ns !! p) -> tree p \/ p ∈ spare ++ pool ++ rcu }.

(** The tree in the heap.  [spare] are zeroed nodes in the hands of the running
    operation. *)
Definition in_tree (T : Z -> Z -> Z) (p : Z) : Prop := p <> 0 /\ exists k x, 1 <= k /\ 0 <= x /\ T k x = p.
Record tree_ok (st : state) (T : Z -> Z -> Z) (tg : Z -> gset Z) (spare : list Z) : Prop := TreeOk {
  t_struct : struct_ok (rheight st) (nodes st) T tg;
  t_root : root_ok (rheight st) (gfp_mask st) (rnode st) T tg;
  t_own : own_ok (nodes st) (in_tree T) spare (pool st) (rcu st) }.

(** The tree stands for the map [m] from indices to items and the sets [tg]. *)
Definition rep (st : state) (m : gmap Z Z) (tg : Z -> gset Z) : Prop :=
  exists T, tree_ok st T tg [] /\ (forall idx v, m !! idx = Some v -> 0 <= idx /\ v <> 0) /\
    forall idx, 0 <= idx -> T 0 idx = default 0 (m !! idx).

(** ** The way down *)
Section Path.
Context (h : Z) (ns : gmap Z radix_tree_node) (T : Z -> Z -> Z) (tg : Z -> gset Z) (H : struct_ok h ns T tg).
Context (idx : Z) (Hi : 0 <= idx).

Lemma path_child k : 1 <= k <= h -> T k (pfx k idx) = 0 -> T (k - 1) (pfx (k - 1) idx) = 0.
Proof using H Hi.
  intros Hk E. rewrite pfx_down by lia. apply (s_none _ _ _ _ H); try done; [apply pfx_nonneg; lia|dlia].
Qed.
Lemma below_none k j : 0 <= j <= k -> k <= h -> T k (pfx k idx) = 0 -> T j (pfx j idx) = 0.
Proof using H Hi.
  intros Hj Hk E. remember (Z.to_nat (k - j)) as n eqn:En. revert k Hj Hk E En.
  induction n as [|n IH]; intros k Hj Hk E En; [by replace j with k by lia|].
  apply (IH (k - 1)); try lia. apply path_child; [lia|done].
Qed.
Lemma out_none j : 0 <= j <= h -> pfx (h) idx <> 0 -> T j (pfx j idx) = 0.
Proof using H Hi.
  intros Hj E. apply (below_none (h)); [lia..|]. apply (s_top _ _ _ _ H).
  pose proof (s_height _ _ _ _ H). pose proof (pfx_nonneg (h) idx). lia.
Qed.
Lemma path_node k : 1 <= k <= h -> T k (pfx k idx) <> 0 ->
  exists nd, ns !! T k (pfx k idx) = Some nd /\ node_ok T tg k (pfx k idx) nd /\
    at_ (slots nd) (pfx (k - 1) idx mod 64) = T (k - 1) (pfx (k - 1) idx).
Proof using H Hi.
  intros Hk E. destruct (s_node _ _ _ _ H k (pfx k idx)) as (nd & En & Hn); [done|apply pfx_nonneg; lia|done|].
  exists nd. split; [done|]. split; [done|]. rewrite (n_slot _ _ _ _ _ Hn) by dlia. by rewrite <- pfx_down by lia.
Qed.
Lemma top_prefix k : h <= k -> T (h) (pfx (h) idx) <> 0 -> pfx (h) idx = 0.
Proof using H Hi.
  intros Hk E. apply dec_stable. intros N. destruct E. apply out_none; [|done]. pose proof (s_height _ _ _ _ H). lia.
Qed.
Lemma item_top : T 0 idx <> 0 -> pfx (h) idx = 0.
Proof using H Hi.
  intros E. apply dec_stable. intros N. apply (out_none 0) in N; [by rewrite pfx_0 in N|]. pose proof (s_height _ _ _ _ H). lia.
Qed.

End Path.
Lemma covers_none h ns T tg tag k y : struct_ok h ns T tg -> 0 <= tag < 2 -> 0 <= k <= h -> T k y = 0 -> ~ covers tg tag k y.
Proof.
  intros H Ht Hk E (idx & Hin & <-). destruct (s_tagged _ _ _ _ H tag idx Ht Hin) as [Hi Hn]. destruct Hn.
  rewrite <- (pfx_0 idx). apply (below_none _ _ _ _ H idx Hi k); [lia..|done].
Qed.

(** ** Looking up *)
Section Lookup.
Context (st : state) (T : Z -> Z -> Z) (tg : Z -> gset Z) (spare : list Z) (H : tree_ok st T tg spare).
Context (idx : Z) (Hi : 0 <= idx).
Let HS := t_struct _ _ _ _ H.

(** Where a lookup ends. *)
Definition slot_of : slot_ref := if rheight st =? 0 then RootSlot else NodeSlot (T 1 (pfx 1 idx)) (idx mod 64).
Definition found (r : option (slot_ref * Z)) : Prop :=
  match r with Some (sl, v) => v = T 0 idx /\ v <> 0 /\ sl = slot_of | None => T 0 idx = 0 end.

Lemma lookup_loop k sl fuel : 1 <= k <= rheight st -> T k (pfx k idx) <> 0 -> (Z.to_nat k < fuel)%nat ->
  exists r, while fuel (lookup_round idx) (sl, T k (pfx k idx), u32 ((k - 1) * RADIX_TREE_MAP_SHIFT), k) st = Some (r, st) /\ found r.
Proof using H Hi.
  remember (Z.to_nat k) as n eqn:En. revert k sl fuel En. induction n as [|n IH]; intros k sl fuel En Hk E Hf; [lia|].
  destruct fuel as [|fuel]; [lia|]. rewrite while_S. unfold lookup_round at 1. pose proof (s_height _ _ _ _ HS) as Hh.
  rewrite offset_eq by lia. destruct (path_node _ _ _ _ HS idx Hi k Hk E) as (nd & Ep & Hn & Es). unfold read_slot.
  run (get_slot_eq st _ nd Ep (n_shape _ _ _ _ _ Hn) (pfx (k - 1) idx mod 64) ltac:(dlia)). rewrite Es.
  destruct (Z.eqb_spec (T (k - 1) (pfx (k - 1) idx)) 0) as [E0|E0]; run_ret.
  { eexists. split; [done|]. cbn. rewrite <- (pfx_0 idx). apply (below_none _ _ _ _ HS idx Hi (k - 1)); [lia..|done]. }
  rewrite u32_id by lia. destruct (0 <? k - 1) eqn:B; b2p; cbn [bind].
  - rewrite shift_step. apply IH; try done; lia.
  - assert (k = 1) as -> by lia. eexists. split; [done|]. cbn. unfold slot_of. rewrite Z.sub_diag, !pfx_0 in *.
    destruct (Z.eqb_spec (rheight st) 0); [lia|]. done.
Qed.

Lemma lookup_both_eq : idx < 2 ^ 32 -> exists r, lookup_both idx st = Some (r, st) /\ found r.
Proof using H Hi.
  intros Hlt. pose proof (s_height _ _ _ _ HS) as Hh. unfold lookup_both. run (get_eq st).
  rewrite (r_rnode _ _ _ _ _ (t_root _ _ _ _ H)). destruct (Z.eqb_spec (rheight st) 0) as [E|E].
  - pose proof (s_ptr _ _ _ _ HS 0 0 ltac:(lia) ltac:(lia)) as Hp. unfold found, slot_of. rewrite E. cbn [Z.eqb].
    pose proof (s_top _ _ _ _ HS idx) as Hz. rewrite E in Hz.
    destruct (Z.eqb_spec (T 0 0) 0) as [E0|E0]; [eexists; split; [done|]; destruct (Z.eq_dec idx 0) as [->|]; [done|apply Hz; lia]|].
    rewrite not_indirect by done. cbn [negb]. destruct (0 <? idx) eqn:B; b2p; eexists; (split; [done|]); [apply Hz; lia|].
    assert (idx = 0) as -> by lia. done.
  - destruct (Z.eqb_spec (T (rheight st) 0) 0) as [E0|E0].
    + eexists. split; [done|]. cbn. rewrite <- (pfx_0 idx). destruct (Z.eq_dec (pfx (rheight st) idx) 0) as [Ep|Ep].
      * apply (below_none _ _ _ _ HS idx Hi (rheight st)); [lia..|]. by rewrite Ep.
      * apply (out_none _ _ _ _ HS idx Hi); [lia|done].
    + pose proof (s_ptr _ _ _ _ HS (rheight st) 0 ltac:(lia) ltac:(lia)) as Hp.
      destruct (s_node _ _ _ _ HS (rheight st) 0 ltac:(lia) ltac:(lia) E0) as (nd & En & Hn).
      destruct (Z.eqb_spec (T (rheight st) 0 + 1) 0); [unfold ptr_ok in Hp; lia|].
      rewrite is_indirect, to_ptr_indirect by done. cbn [negb]. run (get_node_eq st _ nd En). rewrite (n_height _ _ _ _ _ Hn).
      run (maxindex_eq (rheight st) st Hh). rewrite above_max by lia. destruct (Z.eqb_spec (pfx (rheight st) idx) 0) as [Ep|Ep]; cbn [negb].
      * rewrite <- Ep. apply lookup_loop; [lia|by rewrite Ep|]. change (Z.to_nat RADIX_TREE_MAX_PATH) with 6%nat. lia.
      * eexists. split; [done|]. cbn. rewrite <- (pfx_0 idx). apply (out_none _ _ _ _ HS idx Hi); [lia|done].
Qed.
End Lookup.

(** ** Counting the slots in use *)
Lemma used_app l1 l2 : used (l1 ++ l2) = used l1 + used l2.
Proof. unfold used. rewrite list.filter_app. apply zlen_app. Qed.
Lemma used_cons v l : used (v :: l) = (if v =? 0 then 0 else 1) + used l.
Proof.
  unfold used. destruct (Z.eqb_spec v 0) as [->|].
  - rewrite filter_cons_False by naive_solver. done.
  - rewrite filter_cons_True by done. apply zlen_cons.
Qed.
Lemma used_nonneg l : 0 <= used l.
Proof. apply zlen_nonneg. Qed.
Lemma used_le l : used l <= zlen l.
Proof. unfold used, zlen. pose proof (length_filter (fun v : Z => v <> 0) l). lia. Qed.
Lemma used_upd l i v : 0 <= i < zlen l ->
  used (upd l i v) = used l - (if at_ l i =? 0 then 0 else 1) + (if v =? 0 then 0 else 1).
Proof.
  intros Hi. pose proof (zget_at l i Hi) as E. unfold zget in E. unfold upd. destruct (decide _) in E; [|done].
  rewrite insert_take_drop by (unfold zlen in Hi; lia). rewrite <- (take_drop_middle l (Z.to_nat i) (at_ l i) E) at 3.
  rewrite !used_app, !used_cons. lia.
Qed.
Lemma used_zero l i : used l = 0 -> at_ l i = 0.
Proof.
  intros E. destruct (decide (0 <= i < zlen l)) as [Hi|Hi]; [|by apply at_out].
  pose proof (used_upd l i 0 Hi) as E'. cbn in E'. pose proof (used_nonneg (upd l i 0)). destruct (Z.eqb_spec (at_ l i) 0); lia.
Qed.
Lemma used_one l i j : used l = 1 -> at_ l i <> 0 -> i <> j -> at_ l j = 0.
Proof.
  intros E Hi Hij. destruct (decide (0 <= i < zlen l)) as [Hl|Hl]; [|by rewrite at_out in Hi].
  pose proof (used_upd l i 0 Hl) as E'. cbn in E'. destruct (Z.eqb_spec (at_ l i) 0); [done|].
  pose proof (used_zero (upd l i 0) j ltac:(lia)) as Hz. by rewrite at_upd_ne in Hz by lia.
Qed.
Lemma used_replicate n : used (replicate n 0) = 0.
Proof. induction n as [|n IH]; [done|]. cbn [replicate]. rewrite used_cons, IH. done. Qed.

Lemma at_replicate n i : at_ (replicate n 0) i = 0.
Proof. unfold at_, zget. case_decide; [|done]. destruct (replicate n 0 !! Z.to_nat i) eqn:E; [|done]. by apply lookup_replicate in E as [-> _]. Qed.
Lemma count_small T tg k x nd : node_ok T tg k x nd -> 0 <= ncount nd <= 64.
Proof. intros Hn. rewrite (n_count _ _ _ _ _ Hn). pose proof (used_le (slots nd)). rewrite (sh_slots _ (n_shape _ _ _ _ _ Hn)) in *. pose proof (used_nonneg (slots nd)). lia. Qed.

(** ** Changes at one place *)
Definition set_T (T : Z -> Z -> Z) (k x v : Z) : Z -> Z -> Z := fun k' x' => if decide (k' = k /\ x' = x) then v else T k' x'.
Lemma set_T_eq T k x v : set_T T k x v k x = v.
Proof. unfold set_T. by rewrite decide_True. Qed.
Lemma set_T_ne T k x v k' x' : k' <> k \/ x' <> x -> set_T T k x v k' x' = T k' x'.
Proof. intros. unfold set_T. rewrite decide_False by naive_solver. done. Qed.

Lemma node_ok_frame T T' tg k x nd : node_ok T tg k x nd ->
  (forall i, 0 <= i < 64 -> T' (k - 1) (64 * x + i) = T (k - 1) (64 * x + i)) -> node_ok T' tg k x nd.
Proof. intros [S1 S2 S3 S4 S5] HT. split; try done. intros i Hi. rewrite HT by done. auto. Qed.
(** The node above a change. *)
Lemma node_ok_slot T tg k x nd i v : node_ok T tg k x nd -> 0 <= i < 64 ->
  node_ok (set_T T (k - 1) (64 * x + i) v) tg k x (nd_count (nd_slot nd i v) (used (upd (slots nd) i v))).
Proof.
  intros [S1 S2 S3 S4 S5] Hi. split; cbn [nd_count nd_slot nheight ncount slots]; try done.
  - destruct S1 as [A1 A2 A3]. split; cbn; [by rewrite zlen_upd|done|done].
  - intros j Hj. destruct (Z.eq_dec j i) as [->|].
    + rewrite at_upd_eq by (rewrite (sh_slots _ S1); done). by rewrite set_T_eq.
    + rewrite at_upd_ne, set_T_ne by lia. auto.
Qed.
Lemma node_ok_other T tg k x k' x' nd v i : node_ok T tg k' x' nd -> 0 <= i < 64 -> k' <> k \/ x' <> x ->
  node_ok (set_T T (k - 1) (64 * x + i) v) tg k' x' nd.
Proof. intros Hn Hi Hne. eapply node_ok_frame; [done|]. intros j Hj. apply set_T_ne. lia. Qed.
Lemma shape_zero stale : shape (zero_node stale).
Proof.
  split; [done|done|]. intros tag Ht. assert (tag = 0 \/ tag = 1) as [-> | ->] by lia; (split; [done|]); repeat constructor; done.
Qed.
Lemma tagbit_zero stale tag i : 0 <= tag < 2 -> 0 <= i < 64 -> tagbit (zero_node stale) tag i = false.
Proof.
  intros Ht Hi. unfold tagbit. assert (row (zero_node stale) tag = [0; 0]) as -> by (assert (tag = 0 \/ tag = 1) as [-> | ->] by lia; done).
  assert (i / 32 = 0 \/ i / 32 = 1) as [-> | ->] by dlia; apply Z.bits_0.
Qed.


(** *** Ownership *)
Lemma own_frame ns tree spare pl rc ns' tree' : own_ok ns tree spare pl rc -> (forall p, tree' p <-> tree p) ->
  (forall p, p ∈ spare ++ pl ++ rc -> ns' !! p = ns !! p) -> (forall p, is_Some (ns' !! p) -> is_Some (ns !! p)) ->
  own_ok ns' tree' spare pl rc.
Proof.
  intros [O1 O2 O3 O4 O5 O6] Ht Hns Hdom. split; try done.
  - intros p Hp. rewrite Ht. auto.
  - intros p Hp. unfold zeroed. rewrite Hns; [by apply O3|apply elem_of_app; by left].
  - intros p Hp. unfold zeroed. rewrite Hns; [by apply O4|apply elem_of_app; right; apply elem_of_app; by left].
  - intros p Hp. unfold cleanable. rewrite Hns; [by apply O5|apply elem_of_app; right; apply elem_of_app; by right].
  - intros p Hp. rewrite Ht. auto.
Qed.
(** A spare node joins the tree, and the reverse. *)
Lemma own_adopt ns tree v spare pl rc tree' : own_ok ns tree (v :: spare) pl rc -> (forall p, tree' p <-> tree p \/ p = v) ->
  own_ok ns tree' spare pl rc.
Proof.
  intros [O1 O2 O3 O4 O5 O6] Ht. apply list.NoDup_cons in O1 as [N1 O1]. split; try done.
  - intros p Hp. destruct (O2 p) as (A1 & A2 & A3); [apply elem_of_cons; by right|]. rewrite Ht. repeat split; try done; try apply A2.
    intros [?| ->]; done.
  - intros p Hp. apply O3, elem_of_cons. by right.
  - intros p Hp. rewrite Ht. destruct (O6 p Hp) as [?|[?|?]%elem_of_cons]; auto.
Qed.
(** The nodes of the tree are none of the others. *)
Lemma own_apart ns tree spare pl rc p q : own_ok ns tree spare pl rc -> tree p -> q ∈ spare ++ pl ++ rc -> q <> p.
Proof. intros O Hp Hq ->. by destruct (o_other _ _ _ _ _ O p Hq) as (_ & _ & ?). Qed.

Lemma in_tree_link T k x v p : 1 <= k -> 0 <= x -> T k x = 0 -> v <> 0 -> in_tree (set_T T k x v) p <-> in_tree T p \/ p = v.
Proof.
  intros Hk Hx E Nv. unfold in_tree. split.
  - intros (Np & k' & x' & A1 & A2 & A3). destruct (decide (k' = k /\ x' = x)) as [[-> ->]|Hne]; [right; by rewrite set_T_eq in A3|left].
    split; [done|]. exists k', x'. rewrite set_T_ne in A3 by lia. done.
  - intros [(Np & k' & x' & A1 & A2 & A3)| ->]; [|split; [done|]; exists k, x; by rewrite set_T_eq]. split; [done|]. exists k', x'.
    rewrite set_T_ne; [done|]. destruct (decide (k' = k /\ x' = x)) as [[-> ->]|]; [congruence|lia].
Qed.
Lemma in_tree_item T x v p : in_tree (set_T T 0 x v) p <-> in_tree T p.
Proof.
  unfold in_tree. split; intros (Np & k & y & A1 & A2 & A3); (split; [done|]); exists k, y; rewrite set_T_ne in * by lia; done.
Qed.
Lemma in_tree_unlink T k x p : 1 <= k -> 0 <= x -> T k x <> 0 ->
  (forall k' x', 1 <= k' -> 0 <= x' -> T k x = T k' x' -> k = k' /\ x = x') ->
  in_tree (set_T T k x 0) p <-> in_tree T p /\ p <> T k x.
Proof.
  intros Hk Hx N Hinj. unfold in_tree. split.
  - intros (Np & k' & x' & A1 & A2 & A3). destruct (decide (k' = k /\ x' = x)) as [[-> ->]|Hne]; [by rewrite set_T_eq in A3|].
    rewrite set_T_ne in A3 by lia. split; [split; [done|]; by exists k', x'|]. intros E. destruct (Hinj k' x'); [done..|congruence|]. naive_solver.
  - intros ((Np & k' & x' & A1 & A2 & A3) & Ne). split; [done|]. exists k', x'. rewrite set_T_ne; [done|].
    destruct (decide (k' = k /\ x' = x)) as [[-> ->]|]; [congruence|lia].
Qed.

(** *** Structure *)
Section Set_.
Context (h : Z) (ns : gmap Z radix_tree_node) (T : Z -> Z -> Z) (tg : Z -> gset Z) (H : struct_ok h ns T tg).
Context (k x v : Z) (ns' : gmap Z radix_tree_node).
Let T' := set_T T k x v.

(** The place [(k, x)] gets a new content, and its parent and the new node, if it
    is one, describe it. *)
Lemma struct_set : 0 <= k <= h -> 0 <= x -> (k = h -> x = 0) -> ptr_ok v ->
  (k < h -> T (k + 1) (x / 64) <> 0 /\ exists nd, ns' !! T (k + 1) (x / 64) = Some nd /\ node_ok T' tg (k + 1) (x / 64) nd) ->
  (1 <= k -> v <> 0 -> ~ in_tree T v /\ exists nd, ns' !! v = Some nd /\ node_ok T' tg k x nd) ->
  (forall k' x', 1 <= k' <= h -> 0 <= x' -> T k' x' <> 0 -> k' <> k \/ x' <> x -> k' <> k + 1 \/ x' <> x / 64 ->
    ns' !! T k' x' = ns !! T k' x') ->
  (1 <= k -> v = 0 -> forall i, 0 <= i < 64 -> T (k - 1) (64 * x + i) = 0) ->
  (k = 0 -> (v <> 0 -> x < 2 ^ 32) /\ (v = 0 -> forall tag, 0 <= tag < 2 -> x ∉ tg tag)) ->
  struct_ok h ns' T' tg.
Proof using H.
  intros Hk Hx Htop Pv Hparent Hself Hother Hempty Hitem.
  assert (forall k' x', k' <> k \/ x' <> x -> T' k' x' = T k' x') as Tne by (intros; by apply set_T_ne).
  assert (T' k x = v) as Teq by apply set_T_eq.
  destruct H as [B1 B2 B3 B4 B5 B6 B7 B8 B9]. split; try done.
  - intros k' x' Hk' Hx' N. destruct (decide (k' = k /\ x' = x)) as [[-> ->]|Hne]; [rewrite Teq in *; apply Hself; [lia|done]|].
    rewrite Tne in * by lia. destruct (decide (k' = k + 1 /\ x' = x / 64)) as [[-> ->]|Hnp]; [apply Hparent; lia|].
    destruct (B2 k' x' Hk' Hx' N) as (nd & En & Hn). exists nd. split; [rewrite Hother; [done..|lia|lia]|].
    eapply node_ok_frame; [exact Hn|]. intros i Hi. apply Tne. destruct (Z.eq_dec k' (k + 1)) as [->|]; [right|lia].
    intros E. apply Hnp. split; [done|]. dlia.
  - intros k' x' i Hk' Hx' Hi E. destruct (decide (k' - 1 = k /\ 64 * x' + i = x)) as [[Ek Ex]|Hc].
    + exfalso. assert (k' = k + 1 /\ x' = x / 64) as [-> ->] by (split; [lia|dlia]). rewrite Tne in E by lia. apply Hparent in E; [done|lia].
    + rewrite (Tne (k' - 1)) by lia. destruct (decide (k' = k /\ x' = x)) as [[-> ->]|Hne]; [apply Hempty; [lia|congruence|done]|].
      rewrite Tne in E by lia. by apply B3.
  - intros x' Hx'. rewrite Tne; [by apply B4|]. destruct (Z.eq_dec k h); [right; lia|left; lia].
  - intros k' x' Hk' Hx'. rewrite Tne by lia. by apply B5.
  - assert (forall k' x', 1 <= k -> 1 <= k' -> 0 <= x' -> v <> 0 -> T k' x' <> v) as Hfresh.
    { intros k' x' ? ? ? Nv E. destruct Hself as [F _]; [done..|]. apply F. split; [done|]. by exists k', x'. }
    intros k1 x1 k2 x2 G1 G2 G3 G4 N E.
    destruct (decide (k1 = k /\ x1 = x)) as [[-> ->]|N1], (decide (k2 = k /\ x2 = x)) as [[-> ->]|N2]; [done|..].
    + rewrite (Tne k2) in E by lia. rewrite Teq in *. symmetry in E. by apply Hfresh in E.
    + rewrite (Tne k1) in * by lia. rewrite Teq in E. apply Hfresh in E; [done..|congruence].
    + rewrite !Tne in * by lia. by apply B6.
  - intros k' x' G1 G2. destruct (decide (k' = k /\ x' = x)) as [[-> ->]|Hne]; [by rewrite Teq|]. rewrite Tne by lia. by apply B7.
  - intros idx G1 G2. destruct (decide (0 = k /\ idx = x)) as [[E ->]|Hne]; [apply Hitem; [done|]; intros ->; apply G2; by rewrite <- E in Teq|].
    rewrite Tne in G2 by lia. by apply B8.
  - intros tag idx Ht Hidx. destruct (B9 tag idx Ht Hidx) as [A1 A2]. split; [done|].
    destruct (decide (0 = k /\ idx = x)) as [[E ->]|Hne]; [|rewrite Tne by lia; done]. rewrite <- E in Teq. rewrite Teq. intros Ev.
    destruct (Hitem ltac:(done)) as [_ Hu]. by apply (Hu Ev tag Ht).
Qed.
End Set_.

Lemma struct_frame h ns T tg ns' : struct_ok h ns T tg -> (forall p, in_tree T p -> ns' !! p = ns !! p) -> struct_ok h ns' T tg.
Proof.
  intros [B1 B2 B3 B4 B5 B6 B7 B8 B9] Hf. split; try done. intros k x Hk Hx N. destruct (B2 k x Hk Hx N) as (nd & En & Hn).
  exists nd. rewrite Hf; [done|]. split; [done|]. exists k, x. split; [lia|done].
Qed.
Lemma struct_dom h ns T tg p : struct_ok h ns T tg -> in_tree T p -> is_Some (ns !! p).
Proof.
  intros H (Np & k & x & Hk & Hx & <-). destruct (Z_lt_le_dec h k); [destruct Np; by apply (s_above _ _ _ _ H)|].
  destruct (s_node _ _ _ _ H k x) as (nd & -> & _); [lia|done|done|]. eauto.
Qed.
Lemma own_dom ns tree spare pl rc p : own_ok ns tree spare pl rc -> p ∈ spare ++ pl ++ rc -> is_Some (ns !! p).
Proof.
  intros [O1 O2 O3 O4 O5 O6] [Hp|[Hp|Hp]%elem_of_app]%elem_of_app.
  - destruct (O3 p Hp) as [? ->]. eauto.
  - destruct (O4 p Hp) as [? ->]. eauto.
  - destruct (O5 p Hp) as (? & ? & -> & _). eauto.
Qed.
(** A node from the pool, or a new one, is a spare. *)
Lemma own_take ns tree spare p pl rc : own_ok ns tree spare (p :: pl) rc -> own_ok ns tree (p :: spare) pl rc.
Proof.
  intros [O1 O2 O3 O4 O5 O6]. assert (spare ++ (p :: pl) ++ rc ≡ₚ (p :: spare) ++ pl ++ rc) as HP by (cbn; symmetry; apply Permutation_middle).
  split; try done.
  - by rewrite <- HP.
  - intros q Hq. apply O2. by rewrite HP.
  - intros q [->|Hq]%elem_of_cons; [apply O4, elem_of_cons; by left|auto].
  - intros q Hq. apply O4, elem_of_cons. by right.
  - intros q Hq. rewrite <- HP. auto.
Qed.
Lemma own_put ns tree spare p pl rc : own_ok ns tree (p :: spare) pl rc -> own_ok ns tree spare (p :: pl) rc.
Proof.
  intros [O1 O2 O3 O4 O5 O6]. assert ((p :: spare) ++ pl ++ rc ≡ₚ spare ++ (p :: pl) ++ rc) as HP by (cbn; apply Permutation_middle).
  split; try done.
  - by rewrite <- HP.
  - intros q Hq. apply O2. by rewrite HP.
  - intros q Hq. apply O3, elem_of_cons. by right.
  - intros q [->|Hq]%elem_of_cons; [apply O3, elem_of_cons; by left|auto].
  - intros q Hq. rewrite <- HP. auto.
Qed.
Lemma own_new ns tree spare p pl rc stale : own_ok ns tree spare pl rc -> (tree p -> is_Some (ns !! p)) -> ns !! p = None -> p <> 0 -> ptr_ok p ->
  own_ok (<[p := zero_node stale]> ns) tree (p :: spare) pl rc.
Proof.
  intros O Ht E Np Pp. assert (p ∉ spare ++ pl ++ rc) as Nin by (intros Hin; destruct (own_dom _ _ _ _ _ _ O Hin); congruence).
  pose proof O as [O1 O2 O3 O4 O5 O6]. assert (forall q, q ∈ spare ++ pl ++ rc -> <[p := zero_node stale]> ns !! q = ns !! q) as Hq.
  { intros q Hq. rewrite lookup_insert_ne; [done|]. intros ->. done. }
  split.
  - by apply list.NoDup_cons.
  - intros q [->|Hin]%elem_of_cons; [|auto]. split; [done|]. split; [done|]. intros Tp. destruct (Ht Tp). congruence.
  - intros q [->|Hin]%elem_of_cons; [exists stale; by rewrite lookup_insert_eq|]. unfold zeroed. rewrite Hq; [by apply O3|apply elem_of_app; by left].
  - intros q Hin. unfold zeroed. rewrite Hq; [by apply O4|apply elem_of_app; right; apply elem_of_app; by left].
  - intros q Hin. unfold cleanable. rewrite Hq; [by apply O5|apply elem_of_app; right; apply elem_of_app; by right].
  - intros q Hin. cbn [app]. rewrite elem_of_cons. destruct (decide (q = p)) as [->|]; [auto|]. rewrite lookup_insert_ne in Hin by done.
    destruct (O6 q Hin); auto.
Qed.

(** ** The root *)
Lemma root_tag_get_eq tag (st : state) : 0 <= tag < 2 -> root_tag_get tag st = Some (Z.testbit (gfp_mask st) (tag + 21), st).
Proof.
  intros Ht. unfold root_tag_get. run (get_eq st). unfold root_tag_bit, __GFP_BITS_SHIFT. rewrite Z.shiftl_1_l.
  unfold ret. do 2 f_equal. apply eq_true_iff_eq. rewrite negb_true_iff, Z.eqb_neq. split; intros E.
  - apply not_false_iff_true. intros Eb. apply E. apply Z.bits_inj'. intros n Hn. rewrite Z.land_spec, Z.pow2_bits_eqb, Z.bits_0 by lia.
    destruct (Z.eqb_spec (tag + 21) n) as [<-|]; [by rewrite Eb|apply andb_false_r].
  - intros Ez.
    assert (Z.testbit (Z.land (gfp_mask st) (2 ^ (tag + 21))) (tag + 21) = true) as Hb by (rewrite Z.land_spec, E, Z.pow2_bits_true by lia; done).
    by rewrite Ez, Z.bits_0 in Hb.
Qed.

Lemma pfx_mul k x : 0 <= k -> pfx k (x * 64 ^ k) = x.
Proof. intros. unfold pfx. apply Z.div_mul. pose proof (pow64 k). lia. Qed.
Lemma empty_all h ns T tg k x : struct_ok h ns T tg -> T h 0 = 0 -> 0 <= k -> 0 <= x -> T k x = 0.
Proof.
  intros H E Hk Hx. destruct (Z_lt_le_dec h k); [by apply (s_above _ _ _ _ H)|]. pose proof (pow64 k Hk).
  rewrite <- (pfx_mul k x Hk). apply (below_none _ _ _ _ H (x * 64 ^ k) ltac:(nia) h); [lia..|].
  destruct (Z.eq_dec (pfx h (x * 64 ^ k)) 0) as [->|N]; [done|]. apply (s_top _ _ _ _ H).
  pose proof (s_height _ _ _ _ H). pose proof (pfx_nonneg h (x * 64 ^ k)). nia.
Qed.
(** An empty tree has any height. *)
Lemma struct_lift h ns T tg h' : struct_ok h ns T tg -> T h 0 = 0 -> 0 <= h' <= 6 -> struct_ok h' ns T tg.
Proof.
  intros H E Hh. assert (forall k x, 0 <= k -> 0 <= x -> T k x = 0) as Hz by (intros; by apply (empty_all h ns T tg)).
  pose proof H as [B1 B2 B3 B4 B5 B6 B7 B8 B9]. split; try done.
  - intros k x Hk Hx N. rewrite Hz in N by lia. done.
  - intros k x i Hk Hx Hi _. apply Hz; lia.
  - intros x Hx. apply Hz; lia.
  - intros k x Hk Hx. apply Hz; lia.
Qed.

(** ** Items *)
Section Item.
Context (st : state) (T : Z -> Z -> Z) (tg : Z -> gset Z) (spare : list Z) (H : tree_ok st T tg spare).
Context (idx : Z) (Hi : 0 <= idx < 2 ^ 32) (v : Z) (Pv : ptr_ok v).
Context (Huntag : v = 0 -> forall tag, 0 <= tag < 2 -> idx ∉ tg tag).

(** The slot of an index in the lowest node, or in the root, gets a new item. *)
Lemma item_set nd : 1 <= rheight st -> T 1 (pfx 1 idx) <> 0 -> node_ok (set_T T 0 idx v) tg 1 (pfx 1 idx) nd ->
  tree_ok (with_nodes st (<[T 1 (pfx 1 idx) := nd]> (nodes st))) (set_T T 0 idx v) tg spare.
Proof using All.
  intros Hh NP Hn. destruct H as [HS HR HO]. set (P := T 1 (pfx 1 idx)) in *. pose proof (pfx_nonneg 1 idx ltac:(lia) ltac:(lia)) as Hx.
  assert (in_tree T P) as TP by (split; [done|]; exists 1, (pfx 1 idx); done).
  split; cbn [rheight nodes gfp_mask rnode pool rcu with_nodes].
  - apply (struct_set _ _ _ _ HS 0 idx v); try done; try lia.
    + intros _. change (0 + 1) with 1. rewrite <- (pfx_up 1 idx idx) by (lia || apply pfx_0). fold P. split; [done|]. exists nd.
      by rewrite lookup_insert_eq.
    + intros k' x' G1 G2 G3 _ G5. change (0 + 1) with 1 in G5. rewrite <- (pfx_up 1 idx idx) in G5 by (lia || apply pfx_0). apply lookup_insert_ne.
      intros E.
      destruct (s_inj _ _ _ _ HS 1 (pfx 1 idx) k' x'); try done; lia.
    + intros _. split; [lia|exact Huntag].
  - destruct HR as [R1 R2 R3]. split; try done. rewrite R1, !(eqb_f (rheight st) 0), set_T_ne by lia. done.
  - apply (own_frame (nodes st) (in_tree T)); [done|apply in_tree_item|..].
    + intros p Hp. apply lookup_insert_ne, not_eq_sym. by apply (own_apart _ _ _ _ _ P p HO).
    + intros p Hp. destruct (decide (p = P)) as [->|]; [by apply (struct_dom _ _ _ _ _ HS)|]. by rewrite lookup_insert_ne in Hp.
Qed.
Lemma item_set_root : rheight st = 0 -> idx = 0 ->
  tree_ok (State (rheight st) (gfp_mask st) v (nodes st) (pool st) (rcu st)) (set_T T 0 idx v) tg spare.
Proof using All.
  intros Hh E. destruct H as [HS HR HO]. split; cbn [rheight nodes gfp_mask rnode pool rcu].
  - apply (struct_set _ _ _ _ HS 0 idx v); try done; try lia. intros _. split; [lia|exact Huntag].
  - destruct HR as [R1 R2 R3]. split; try done. rewrite Hh, E, set_T_eq. done.
  - apply (own_frame (nodes st) (in_tree T)); [done|apply in_tree_item|done|done].
Qed.
End Item.

Lemma rnode_ptr st T tg spare : tree_ok st T tg spare -> radix_tree_indirect_to_ptr (rnode st) = T (rheight st) 0.
Proof.
  intros [HS HR HO]. pose proof (s_height _ _ _ _ HS). pose proof (s_ptr _ _ _ _ HS (rheight st) 0 ltac:(lia) ltac:(lia)).
  rewrite (r_rnode _ _ _ _ _ HR).
  destruct (Z.eqb_spec (rheight st) 0) as [E|]; [rewrite E in *; by rewrite to_ptr|].
  destruct (Z.eqb_spec (T (rheight st) 0) 0) as [->|]; [done|]. by rewrite to_ptr_indirect.
Qed.
Lemma rnode_zero st T tg spare : tree_ok st T tg spare -> rnode st = 0 <-> T (rheight st) 0 = 0.
Proof.
  intros [HS HR HO]. pose proof (s_height _ _ _ _ HS). pose proof (s_ptr _ _ _ _ HS (rheight st) 0 ltac:(lia) ltac:(lia)) as [_ ?].
  rewrite (r_rnode _ _ _ _ _ HR).
  destruct (Z.eqb_spec (rheight st) 0) as [->|]; [done|]. destruct (Z.eqb_spec (T (rheight st) 0) 0); [done|]. lia.
Qed.

(** ** What the operations do to the map *)
Definition items_of (m : gmap Z Z) (T : Z -> Z -> Z) : Prop :=
  (forall idx v, m !! idx = Some v -> 0 <= idx /\ v <> 0) /\ forall idx, 0 <= idx -> T 0 idx = default 0 (m !! idx).
Lemma items_same m T T' : items_of m T -> (forall x, 0 <= x -> T' 0 x = T 0 x) -> items_of m T'.
Proof. intros [A1 A2] HT. split; [done|]. intros i Hi. rewrite HT; auto. Qed.
Lemma items_insert m T T' idx v : items_of m T -> 0 <= idx -> v <> 0 -> (forall x, 0 <= x -> T' 0 x = set_T T 0 idx v 0 x) -> items_of (<[idx := v]> m) T'.
Proof.
  intros [A1 A2] Hi Nv HT. split.
  - intros i w [(<- & <-)|[_ Hm]]%lookup_insert_Some; [done|by eapply A1].
  - intros i Hi'. rewrite HT by done. destruct (decide (i = idx)) as [->|].
    + by rewrite set_T_eq, lookup_insert_eq.
    + rewrite set_T_ne, lookup_insert_ne by lia. auto.
Qed.
Lemma items_delete m T T' idx : items_of m T -> (forall x, 0 <= x -> T' 0 x = set_T T 0 idx 0 0 x) -> items_of (delete idx m) T'.
Proof.
  intros [A1 A2] HT. split.
  - intros i w [_ Hm]%lookup_delete_Some. by eapply A1.
  - intros i Hi'. rewrite HT by done. destruct (decide (i = idx)) as [->|].
    + by rewrite set_T_eq, lookup_delete_eq.
    + rewrite set_T_ne, lookup_delete_ne by lia. auto.
Qed.
Lemma items_none m T idx : items_of m T -> 0 <= idx -> T 0 idx = 0 <-> m !! idx = None.
Proof.
  intros [A1 A2] Hi. rewrite A2 by done. destruct (m !! idx) as [v|] eqn:E; [|done]. cbn. destruct (A1 idx v E). naive_solver.
Qed.
(** ** Trees without waste *)
(** Every node of the tree has a slot in use, and if there are nodes, the one at
    the root has another slot in use than the first: no node can be left out. *)
Definition tight (st : state) : Prop :=
  (forall p nd, nodes st !! p = Some nd -> p ∉ pool st -> p ∉ rcu st -> ncount nd <> 0) /\
  (0 < rheight st -> exists nd i, nodes st !! radix_tree_indirect_to_ptr (rnode st) = Some nd /\ 0 < i < 64 /\ at_ (slots nd) i <> 0).

Definition full_at (T : Z -> Z -> Z) (k x : Z) : Prop := T k x <> 0 -> exists i, 0 <= i < 64 /\ T (k - 1) (64 * x + i) <> 0.
(** All nodes but the one for [x0] at height [k0] have a child. *)
Definition full_but (h k0 x0 : Z) (T : Z -> Z -> Z) : Prop := forall k x, 1 <= k <= h -> 0 <= x -> k <> k0 \/ x <> x0 -> full_at T k x.
Definition full (h : Z) : (Z -> Z -> Z) -> Prop := full_but h 0 0.
Definition wide (h : Z) (T : Z -> Z -> Z) : Prop := 0 < h -> exists i, 0 < i < 64 /\ T (h - 1) i <> 0.

Lemma used_some l : used l <> 0 -> exists i, 0 <= i < zlen l /\ at_ l i <> 0.
Proof.
  induction l as [|v l IH]; [done|]. rewrite used_cons, zlen_cons. pose proof (zlen_nonneg l). destruct (Z.eqb_spec v 0) as [->|Nv]; intros N.
  - destruct IH as (i & Hi & Ni); [lia|]. exists (i + 1). split; [lia|]. change (0 :: l) with ([0] ++ l). rewrite at_app_r by (change (zlen [0]) with 1; lia).
    change (zlen [0]) with 1. by replace (i + 1 - 1) with i by lia.
  - exists 0. split; [lia|done].
Qed.
Lemma used_more l : used l <> 0 -> used l <> 1 -> exists i, 0 < i < zlen l /\ at_ l i <> 0.
Proof.
  destruct l as [|v l]; [done|]. rewrite used_cons, zlen_cons. intros N0 N1. destruct (used_some l) as (i & Hi & Ni).
  { destruct (v =? 0); lia. }
  exists (i + 1). split; [lia|]. change (v :: l) with ([v] ++ l). rewrite at_app_r by (change (zlen [v]) with 1; lia).
  change (zlen [v]) with 1. by replace (i + 1 - 1) with i by lia.
Qed.
Lemma node_full T tg k x nd : node_ok T tg k x nd -> ncount nd <> 0 <-> exists i, 0 <= i < 64 /\ T (k - 1) (64 * x + i) <> 0.
Proof.
  intros Hn. rewrite (n_count _ _ _ _ _ Hn). split.
  - intros N. apply used_some in N as (i & Hi & N). rewrite (sh_slots _ (n_shape _ _ _ _ _ Hn)) in Hi. exists i. split; [done|].
    by rewrite <- (n_slot _ _ _ _ _ Hn).
  - intros (i & Hi & N) E. apply N. rewrite <- (n_slot _ _ _ _ _ Hn) by done. by apply used_zero.
Qed.
Lemma tight_T st T tg : tree_ok st T tg [] -> tight st <-> full (rheight st) T /\ wide (rheight st) T.
Proof.
  intros H. pose proof H as [HS HR HO]. unfold tight. rewrite (rnode_ptr st T tg [] H). split; intros [F W]; split.
  - intros k x Hk Hx _ N. destruct (s_node _ _ _ _ HS k x Hk Hx N) as (nd & En & Hn). apply (node_full T tg k x nd Hn).
    assert (T k x ∉ pool st ++ rcu st) as Nin.
    { intros Hin. destruct (o_other _ _ _ _ _ HO (T k x) Hin) as (_ & _ & Ht). apply Ht. split; [done|]. exists k, x. split; [lia|done]. }
    rewrite elem_of_app in Nin. apply (F (T k x)); naive_solver.
  - intros Hh. destruct (W Hh) as (nd & i & En & Hi & Ni). exists i. split; [done|].
    assert (T (rheight st) 0 <> 0) as N.
    { intros E. rewrite E in En. destruct (o_owned _ _ _ _ _ HO 0) as [[? _]|Hin]; [by eexists|done|]. by destruct (o_other _ _ _ _ _ HO 0 Hin). }
    destruct (s_node _ _ _ _ HS (rheight st) 0 ltac:(lia) ltac:(lia) N) as (nd' & En' & Hn). rewrite En in En'. injection En' as <-.
    rewrite (n_slot _ _ _ _ _ Hn) in Ni by lia. done.
  - intros p nd En N1 N2. destruct (o_owned _ _ _ _ _ HO p) as [[Np (k & x & Hk & Hx & E)]|Hin]; [by eexists| |].
    + subst p. assert (k <= rheight st) as Hkh by (destruct (Z.le_gt_cases k (rheight st)); [done|]; by rewrite (s_above _ _ _ _ HS) in Np by lia).
      destruct (s_node _ _ _ _ HS k x ltac:(lia) Hx Np) as (nd' & En' & Hn). rewrite En in En'. injection En' as <-.
      apply (node_full T tg k x nd Hn). apply F; [lia|done|lia|done].
    + cbn [app] in Hin. by apply elem_of_app in Hin as [?|?].
  - intros Hh. destruct (W Hh) as (i & Hi & Ni).
    assert (T (rheight st) 0 <> 0) as N by (intros E; apply Ni; by apply (s_none _ _ _ _ HS (rheight st) 0 i); [lia..|]).
    destruct (s_node _ _ _ _ HS (rheight st) 0 ltac:(lia) ltac:(lia) N) as (nd & En & Hn). exists nd, i. split; [done|]. split; [done|].
    by rewrite (n_slot _ _ _ _ _ Hn) by lia.
Qed.
(** Then the height is the least for the items. *)
Lemma full_item h T : full h T -> forall k x, 0 <= k <= h -> 0 <= x -> T k x <> 0 -> exists idx, 0 <= idx /\ T 0 idx <> 0 /\ pfx k idx = x.
Proof.
  intros F k x [Hk Hkh] Hx N. revert x Hx N Hkh. pattern k. apply natlike_ind; [| |done]; clear k Hk.
  - intros x Hx N _. exists x. split; [done|]. split; [done|]. apply pfx_0.
  - intros k Hk IH x Hx N Hkh. unfold Z.succ in *. destruct (F (k + 1) x ltac:(lia) Hx ltac:(lia) N) as (i & Hi & Ni).
    replace (k + 1 - 1) with k in Ni by lia. destruct (IH (64 * x + i) ltac:(lia) Ni ltac:(lia)) as (idx & H0 & H1 & H2).
    exists idx. split; [done|]. split; [done|]. rewrite pfx_S by done. rewrite H2. dlia.
Qed.
Lemma tight_height h T : full h T -> wide h T -> 0 < h -> exists idx, T 0 idx <> 0 /\ 64 ^ (h - 1) <= idx.
Proof.
  intros F W Hh. destruct (W Hh) as (i & Hi & Ni). destruct (full_item h T F (h - 1) i ltac:(lia) ltac:(lia) Ni) as (idx & H0 & H1 & H2).
  exists idx. split; [done|]. destruct (Z.le_gt_cases (64 ^ (h - 1)) idx) as [|Hlt]; [done|].
  apply pfx_small in Hlt; lia.
Qed.

Lemma rep_of st m tg T : tree_ok st T tg [] -> items_of m T -> rep st m tg.
Proof. intros H [A1 A2]. by exists T. Qed.

(** [radix_tree_lookup] returns the item at the index, or [NULL], and
    [radix_tree_lookup_slot] the slot that holds it: reading the slot gives the
    item and [radix_tree_replace_slot] replaces it in the map, with all tags. *)
Theorem radix_tree_lookup_correct st m tg idx item :
  rep st m tg -> 0 <= idx < 2 ^ 32 -> ptr_ok item -> item <> 0 ->
  radix_tree_lookup idx st = Some (default 0 (m !! idx), st) /\
  exists r, radix_tree_lookup_slot idx st = Some (r, st) /\
    match r with
    | None => m !! idx = None
    | Some sl => exists v, m !! idx = Some v /\ radix_tree_deref_slot sl st = Some (v, st) /\
        exists st', radix_tree_replace_slot sl item st = Some (tt, st') /\ rep st' (<[idx := item]> m) tg
    end.
Proof.
  intros (T & H & HT) Hi Pv Nv. destruct (lookup_both_eq st T tg [] H idx ltac:(lia) ltac:(lia)) as (r & E & Hf).
  unfold radix_tree_lookup, radix_tree_lookup_slot. run E. rewrite (bind_Some _ _ _ _ _ E). pose proof (items_none m T idx HT ltac:(lia)) as Hnone.
  destruct r as [[sl v]|]; cbn in Hf.
  2:{ rewrite Hnone in Hf. rewrite Hf. split; [done|]. by exists None. }
  destruct Hf as (-> & N0 & ->). rewrite <- (proj2 HT idx) by lia. split; [done|]. eexists. split; [done|]. cbn.
  exists (T 0 idx). split.
  { rewrite (proj2 HT idx) in * by lia. destruct (m !! idx); [done|]. cbn in N0. done. }
  assert (items_of (<[idx := item]> m) (set_T T 0 idx item)) as HT' by (apply (items_insert m T); done || lia).
  pose proof (s_ptr _ _ _ _ (t_struct _ _ _ _ H) 0 idx ltac:(lia) ltac:(lia)) as Pi.
  pose proof (item_top _ _ _ _ (t_struct _ _ _ _ H) idx ltac:(lia) N0) as Hz.
  pose proof (s_height _ _ _ _ (t_struct _ _ _ _ H)) as Hh.
  unfold radix_tree_deref_slot, radix_tree_replace_slot, slot_of. rewrite (not_indirect item) by done. rewrite (bind_Some _ _ _ _ _ (bug_not st)).
  destruct (Z.eqb_spec (rheight st) 0) as [Eh|Nh]; cbn [read_slot write_slot].
  - assert (idx = 0) as Ei by (by rewrite Eh, pfx_0 in Hz). run (get_eq st). rewrite (r_rnode _ _ _ _ _ (t_root _ _ _ _ H)), Eh. cbn [Z.eqb].
    rewrite Ei in *. run_ret. rewrite not_indirect by done. split; [done|]. eexists. split; [done|].
    apply (rep_of _ _ _ (set_T T 0 0 item)); [|done]. apply item_set_root; done || lia.
  - assert (T 1 (pfx 1 idx) <> 0) as NP.
    { intros E1. apply N0. rewrite <- (pfx_0 idx). apply (below_none _ _ _ _ (t_struct _ _ _ _ H) idx ltac:(lia) 1); [lia|lia|done]. }
    destruct (path_node _ _ _ _ (t_struct _ _ _ _ H) idx ltac:(lia) 1 ltac:(lia) NP) as (nd & En & Hn & Es). rewrite Z.sub_diag, pfx_0 in Es.
    pose proof (n_shape _ _ _ _ _ Hn) as Sh.
    run (get_slot_eq st _ nd En Sh (idx mod 64) ltac:(dlia)). rewrite Es, not_indirect by done. split; [done|].
    eexists. split; [apply (put_slot_eq st _ nd En Sh); dlia|]. apply (rep_of _ _ _ (set_T T 0 idx item)); [|done]. apply item_set; try done; [lia|].
    pose proof (pfx_down 1 idx ltac:(lia)) as Ed. rewrite Z.sub_diag, pfx_0 in Ed.
    pose proof (node_ok_slot T tg 1 (pfx 1 idx) nd (idx mod 64) item Hn ltac:(dlia)) as Hs. rewrite Z.sub_diag, <- Ed in Hs.
    rewrite used_upd in Hs by (rewrite (sh_slots _ Sh); dlia). rewrite Es, !eqb_f in Hs by done.
    replace (used (slots nd) - 1 + 1) with (ncount nd) in Hs by (rewrite (n_count _ _ _ _ _ Hn); lia). exact Hs.
Qed.


Lemma rep_init mask : 0 <= mask < 2 ^ 21 -> exists st, INIT_RADIX_TREE mask (State 0 0 0 ∅ [] []) = Some (tt, st) /\ rep st ∅ (fun _ => ∅) /\ gfp_mask st = mask.
Proof.
  intros Hm. eexists. split; [done|]. split; [|done]. exists (fun _ _ => 0). split; [|split; [done|by intros idx _]].
  split; cbn; [split; try done|split; try done|split; try done].
  - pow2. lia.
  - intros tag Ht. rewrite (testbit_above 21) by (done || lia). split; [done|]. intros (idx & Hin). by apply not_elem_of_empty in Hin.
  - apply NoDup_nil_2.
  - intros p Hp. by apply elem_of_nil in Hp.
  - intros p Hp. by apply elem_of_nil in Hp.
  - intros p Hp. by apply elem_of_nil in Hp.
  - intros p Hp. by apply elem_of_nil in Hp.
  - intros p [? Hp]. by rewrite lookup_empty in Hp.
Qed.

Lemma radix_tree_lookup_correct_witness : exists st, radix_tree_lookup 7 st = Some (0, st) /\ radix_tree_lookup_slot 7 st = Some (None, st).
Proof.
  destruct (rep_init 0 ltac:(lia)) as (st & E & Hrep & _).
  destruct (radix_tree_lookup_correct st ∅ (fun _ => ∅) 7 2 Hrep ltac:(lia) ltac:(done) ltac:(lia)) as (E1 & r & E2 & Hr).
  exists st. split; [exact E1|]. destruct r as [sl|]; [|exact E2]. destruct Hr as (v & Hv & _). by rewrite lookup_empty in Hv.
Defined.
