(* ===== verification/RadixInsert.v ===== *)
(** * Radix trees: insertion

    The part of [lib/radix-tree.c] that allocates: nodes from the slab cache or
    from the per-processor pool that [radix_tree_preload] fills, the extension of
    a tree that is too low, and [radix_tree_insert].  An insertion keeps the map
    whatever the allocator does, and a successful preload makes it succeed except
    where the tree must grow above items: then up to eleven nodes are needed and
    the pool holds six. *)

From Stdlib Require Import ZArith Lia.
From stdpp Require Import base tactics numbers list gmap option.
From S2P Require Import Prelude RadixTree.

(** ** Allocation *)
Section Alloc.
(** [kmem_cache_alloc]: given the flags and the nodes that exist, the address of
    the new node and what its field [height] holds, or [None] for [NULL].  The
    other fields of a node from the cache are zero. *)
Context (kmem_cache_alloc : Z -> gmap Z radix_tree_node -> option (Z * Z)).

Definition cache_alloc (mask : Z) : R Z :=
  let* st := get in
  match kmem_cache_alloc mask (nodes st) with
  | None => ret 0
  | Some (p, stale) => put_node p (zero_node stale) ;; ret p
  end.

Definition radix_tree_node_alloc : R Z :=
  let* mask := root_gfp_mask in
  let* r :=
    (if Z.land mask __GFP_WAIT =? 0 then
       let* st := get in
       match pool st with
       | [] => ret 0
       | p :: rest => set_pool rest ;; ret p
       end
     else ret 0) in
  let* r := (if r =? 0 then cache_alloc mask else ret r) in
  BUG_ON (radix_tree_is_indirect_ptr r) ;;
  ret r.

Definition preload_round (mask : Z) (_ : unit) : R (unit + Z) :=
  let* st := get in
  if zlen (pool st) <? RADIX_TREE_MAX_PATH then
    let* p := cache_alloc mask in
    if p =? 0 then ret (inr (- ENOMEM)) else
    let* st := get in
    (if zlen (pool st) <? RADIX_TREE_MAX_PATH then set_pool (p :: pool st) else set_nodes (delete p (nodes st))) ;;
    ret (inl tt)
  else ret (inr 0).
Definition radix_tree_preload (mask : Z) : R Z := while (S (Z.to_nat RADIX_TREE_MAX_PATH)) (preload_round mask) tt.

(** ** Growing *)
(** The new top takes over the tree and the tags of the root; the height it gives. *)
Definition grow (node : Z) : R Z :=
  let* st := get in
  put_slot node 0 (radix_tree_indirect_to_ptr (rnode st)) ;;
  for_ (Z.to_nat RADIX_TREE_MAX_TAGS) 0 (fun tag =>
    let* b := root_tag_get tag in
    if b then tag_set node tag 0 else ret tt) ;;
  let newheight := u32 (rheight st + 1) in
  put_height node newheight ;;
  put_count node 1 ;;
  set_rnode (radix_tree_ptr_to_indirect node) ;;
  set_height newheight ;;
  ret newheight.
Definition radix_tree_extend (idx : Z) : R Z :=
  let* st := get in
  let* height := while (S (Z.to_nat RADIX_TREE_MAX_PATH)) (fun height =>
    let* m := radix_tree_maxindex height in
    ret (if m <? idx then inl (height + 1) else inr height)) (rheight st + 1) in
  if rnode st =? 0 then set_height height ;; ret 0
  else while (S (Z.to_nat RADIX_TREE_MAX_PATH)) (fun _ =>
    let* node := radix_tree_node_alloc in
    if node =? 0 then ret (inr (- ENOMEM)) else
    let* newheight := grow node in
    ret (if newheight <? height then inl tt else inr 0)) tt.

(** A missing node is added below [node], or as the top. *)
Definition add_child (node offset height : Z) : R Z :=
  let* slot := radix_tree_node_alloc in
  if slot =? 0 then ret 0 else
  put_height slot height ;;
  (if negb (node =? 0) then
     put_slot node offset slot ;;
     let* nd := get_node node in
     put_count node (u32 (ncount nd + 1))
   else set_rnode (radix_tree_ptr_to_indirect slot)) ;;
  ret slot.
(** One round of the descent on [slot], [node], [offset], [shift] and [height]. *)
Definition insert_round (idx : Z) : Z * Z * Z * Z * Z -> R (Z * Z * Z * Z * Z + (Z + Z * Z * Z)) :=
  fun '(slot, node, offset, shift, height) =>
  if 0 <? height then
    let* slot := (if slot =? 0 then add_child node offset height else ret slot) in
    if slot =? 0 then ret (inr (inl (- ENOMEM))) else
    let offset := Z.land (Z.shiftr idx shift) RADIX_TREE_MAP_MASK in
    let node := slot in
    let* slot := get_slot node offset in
    ret (inl (slot, node, offset, u32 (shift - RADIX_TREE_MAP_SHIFT), height - 1))
  else ret (inr (inr (slot, node, offset))).

(** The end of [radix_tree_insert] at an empty place. *)
Definition store_item (node offset item : Z) : R Z :=
  if negb (node =? 0) then
    let* nd := get_node node in
    put_count node (u32 (ncount nd + 1)) ;;
    put_slot node offset item ;;
    let* t0 := tag_get node 0 offset in
    BUG_ON t0 ;;
    let* t1 := tag_get node 1 offset in
    BUG_ON t1 ;;
    ret 0
  else
    set_rnode item ;;
    let* t0 := root_tag_get 0 in
    BUG_ON t0 ;;
    let* t1 := root_tag_get 1 in
    BUG_ON t1 ;;
    ret 0.

Definition radix_tree_insert (idx item : Z) : R Z :=
  BUG_ON (radix_tree_is_indirect_ptr item) ;;
  let* st := get in
  let* m := radix_tree_maxindex (rheight st) in
  let* error := (if m <? idx then radix_tree_extend idx else ret 0) in
  if negb (error =? 0) then ret error else
  let* st := get in
  let* r := while (S (Z.to_nat RADIX_TREE_MAX_PATH)) (insert_round idx)
    (radix_tree_indirect_to_ptr (rnode st), 0, 0, u32 ((rheight st - 1) * RADIX_TREE_MAP_SHIFT), rheight st) in
  match r with
  | inl error => ret error
  | inr (slot, node, offset) =>
      if negb (slot =? 0) then ret (- EEXIST) else
      store_item node offset item
  end.
End Alloc.

(** ** What an allocation gives *)
(** What [kmem_cache_alloc] is relied on for: a new node is none of those that
    exist, and aligned. *)
Definition alloc_ok (kmem_cache_alloc : Z -> gmap Z radix_tree_node -> option (Z * Z)) : Prop :=
  forall mask ns p stale, kmem_cache_alloc mask ns = Some (p, stale) -> ns !! p = None /\ p <> 0 /\ ptr_ok p.
(** The tree may not sleep for memory and takes nodes from the pool. *)
Definition nowait (st : state) : bool := Z.land (Z.land (gfp_mask st) __GFP_BITS_MASK) __GFP_WAIT =? 0.
Definition same_root (st st' : state) : Prop := rheight st' = rheight st /\ gfp_mask st' = gfp_mask st /\ rnode st' = rnode st /\ rcu st' = rcu st.

Section AllocSpec.
Context (kmem_cache_alloc : Z -> gmap Z radix_tree_node -> option (Z * Z)) (Ha : alloc_ok kmem_cache_alloc).

Lemma cache_alloc_eq mask st T tg spare : tree_ok st T tg spare ->
  exists r st', cache_alloc kmem_cache_alloc mask st = Some (r, st') /\ same_root st st' /\ pool st' = pool st /\
    (forall p, is_Some (nodes st !! p) -> nodes st' !! p = nodes st !! p) /\
    ((r = 0 /\ st' = st) \/ (r <> 0 /\ ptr_ok r /\ tree_ok st' T tg (r :: spare))).
Proof using Ha.
  intros [HS HR HO]. unfold cache_alloc. run (get_eq st). destruct (kmem_cache_alloc mask (nodes st)) as [[p stale]|] eqn:E.
  - destruct (Ha _ _ _ _ E) as (E0 & Np & Pp). run (put_node_eq st p (zero_node stale)). eexists _, _. split; [done|].
    split; [done|]. split; [done|]. assert (forall q, is_Some (nodes st !! q) -> <[p:=zero_node stale]> (nodes st) !! q = nodes st !! q) as Hq.
    { intros q [? Hq]. rewrite lookup_insert_ne; [done|]. intros ->. congruence. }
    split; [exact Hq|]. right. split; [done|]. split; [done|]. split; cbn [with_nodes rheight nodes gfp_mask rnode pool rcu]; [|done|].
    + eapply struct_frame; [done|]. intros q Hin. apply Hq. by eapply struct_dom.
    + apply own_new; try done. by apply struct_dom with (1 := HS).
  - eexists _, _. split; [done|]. split; [done|]. split; [done|]. split; [done|]. by left.
Qed.

Lemma node_alloc_eq st T tg spare : tree_ok st T tg spare ->
  exists r st', radix_tree_node_alloc kmem_cache_alloc st = Some (r, st') /\ same_root st st' /\
    (forall p, is_Some (nodes st !! p) -> nodes st' !! p = nodes st !! p) /\ zlen (pool st) - 1 <= zlen (pool st') /\
    ((r = 0 /\ st' = st /\ (nowait st = true -> pool st = [])) \/ (r <> 0 /\ ptr_ok r /\ tree_ok st' T tg (r :: spare))).
Proof using Ha.
  intros H. unfold radix_tree_node_alloc, root_gfp_mask. run (get_eq st). run_ret. fold (nowait st).
  assert (forall r, ptr_ok r -> forall st', (BUG_ON (radix_tree_is_indirect_ptr r) ;; ret r) st' = Some (r, st')) as Hbug.
  { intros r Pr st'. rewrite not_indirect by done. done. }
  destruct (cache_alloc_eq (Z.land (gfp_mask st) __GFP_BITS_MASK) st T tg spare H) as (r & st' & E & Hr & Hp & Hn & Hcase).
  assert (ptr_ok r) as Pr by (destruct Hcase as [[-> _]|(_ & ? & _)]; done).
  destruct (nowait st) eqn:Ew; [destruct (pool st) as [|p rest] eqn:Epool|].
  - run (get_eq st). rewrite Epool. run_ret. cbn [Z.eqb]. run E. rewrite Hbug by done. exists r, st'. split; [done|]. split; [done|]. split; [done|].
    split; [rewrite Hp; lia|]. naive_solver.
  - run (get_eq st). rewrite Epool. destruct H as [HS HR HO]. rewrite Epool in HO. pose proof (own_take _ _ _ _ _ _ HO) as HO'.
    destruct (o_other _ _ _ _ _ HO' p) as (Np & Pp & _); [apply elem_of_cons; by left|].
    unfold bind at 1, set_pool. cbn. rewrite eqb_f by done. run_ret. rewrite Hbug by done. eexists _, _. split; [done|]. split; [done|].
    split; [done|].
    cbn [pool]. split; [rewrite zlen_cons; lia|]. right. split; [done|]. split; [done|]. by split.
  - run_ret. cbn [Z.eqb]. run E. rewrite Hbug by done. exists r, st'. split; [done|]. split; [done|]. split; [done|]. split; [rewrite Hp; lia|].
    naive_solver.
Qed.
End AllocSpec.

Lemma height_loop idx (st : state) fuel : 0 <= idx < 2 ^ 32 -> forall j, 1 <= j <= 6 -> (Z.to_nat (6 - j) < fuel)%nat ->
  exists H, while fuel (fun height => let* m := radix_tree_maxindex height in
      ret (if m <? idx then inl (height + 1) else inr height)) j st = Some (H, st) /\ j <= H <= 6 /\ pfx H idx = 0.
Proof.
  intros Hi. induction fuel as [|fuel IH]; intros j Hj Hf; [lia|]. rewrite while_S. cbv beta. run (maxindex_eq j st ltac:(lia)).
  run_ret. rewrite above_max by lia. destruct (Z.eqb_spec (pfx j idx) 0) as [E|E]; cbn [negb].
  - exists j. split; [done|]. split; [lia|done].
  - destruct (Z.eq_dec j 6) as [->|]; [destruct E; apply pfx_small; lia|].
    destruct (IH (j + 1)) as (H & E' & ? & ?); [lia|lia|]. exists H. split; [done|]. split; [lia|done].
Qed.

(** ** Extending the tree *)
(** A new top above a tree that is not empty. *)
Lemma struct_grow h ns T tg v ns' nd : struct_ok h ns T tg -> h < 6 -> T h 0 <> 0 -> v <> 0 -> ptr_ok v -> ~ in_tree T v ->
  let T' := set_T T (h + 1) 0 v in
  ns' !! v = Some nd -> node_ok T' tg (h + 1) 0 nd -> (forall p, p <> v -> ns' !! p = ns !! p) -> struct_ok (h + 1) ns' T' tg.
Proof.
  intros H Hh Ntop Nv Pv Fv T' En Hn Hother. assert (forall k x, k <> h + 1 \/ x <> 0 -> T' k x = T k x) as Tne by (intros; by apply set_T_ne).
  assert (T' (h + 1) 0 = v) as Teq by apply set_T_eq. destruct H as [B1 B2 B3 B4 B5 B6 B7 B8 B9].
  assert (forall k x, 1 <= k -> 0 <= x -> T k x <> v) as Hfresh by (intros k x ? ? E; apply Fv; split; [done|]; by exists k, x).
  split; [lia|..].
  - intros k x Hk Hx N. destruct (decide (k = h + 1 /\ x = 0)) as [[-> ->]|Hne]; [rewrite Teq; eauto|]. rewrite Tne in * by lia.
    destruct (Z.eq_dec k (h + 1)) as [->|]; [rewrite B5 in N by lia; done|]. destruct (B2 k x) as (nd' & En' & Hn'); [lia|done|done|].
    exists nd'. rewrite Hother by (by apply Hfresh; lia). split; [done|]. eapply node_ok_frame; [done|]. intros i Hi. apply Tne. lia.
  - intros k x i Hk Hx Hi E. rewrite Tne by lia. destruct (decide (k = h + 1 /\ x = 0)) as [[-> ->]|Hne]; [congruence|]. rewrite Tne in E by lia.
    destruct (Z.eq_dec k (h + 1)) as [->|]; [|apply B3; lia || done]. replace (h + 1 - 1) with h by lia. apply B4. lia.
  - intros x Hx. rewrite Tne by lia. apply B5; lia.
  - intros k x Hk Hx. rewrite Tne by lia. apply B5; lia.
  - intros k1 x1 k2 x2 G1 G2 G3 G4 N E.
    destruct (decide (k1 = h + 1 /\ x1 = 0)) as [[-> ->]|N1], (decide (k2 = h + 1 /\ x2 = 0)) as [[-> ->]|N2]; [done|..].
    + rewrite Teq, Tne in E by lia. symmetry in E. by apply Hfresh in E.
    + rewrite Teq, Tne in E by lia. by apply Hfresh in E.
    + rewrite !Tne in * by lia. by apply B6.
  - intros k x G1 G2. destruct (decide (k = h + 1 /\ x = 0)) as [[-> ->]|Hne]; [by rewrite Teq|]. rewrite Tne by lia. by apply B7.
  - intros idx G1 G2. rewrite Tne in G2 by lia. by apply B8.
  - intros tag idx Ht Hidx. rewrite Tne by lia. by apply B9 with tag.
Qed.

Lemma copy_tag st v nd tag : nodes st !! v = Some nd -> shape nd -> 0 <= tag < 2 -> exists nd',
  (let* b := root_tag_get tag in if b then tag_set v tag 0 else ret tt) st = Some (tt, with_nodes st (<[v := nd']> (nodes st))) /\
  tag_changed nd nd' tag 0 (tagbit nd tag 0 || Z.testbit (gfp_mask st) (tag + 21)).
Proof.
  intros En Hs Ht. run (root_tag_get_eq tag st Ht). destruct (Z.testbit (gfp_mask st) (tag + 21)).
  - rewrite orb_true_r. by apply tag_set_eq.
  - exists nd. rewrite insert_id, with_nodes_id by done. split; [done|]. split; try done.
    intros t j Ht' Hj. destruct (Z.eqb_spec t tag) as [->|], (Z.eqb_spec j 0) as [->|]; cbn; rewrite ?orb_false_r; done.
Qed.
Lemma copy_tags st v nd : nodes st !! v = Some nd -> shape nd -> exists nd',
  for_ (Z.to_nat RADIX_TREE_MAX_TAGS) 0 (fun tag => let* b := root_tag_get tag in if b then tag_set v tag 0 else ret tt) st =
    Some (tt, with_nodes st (<[v := nd']> (nodes st))) /\
  shape nd' /\ slots nd' = slots nd /\
  forall t j, 0 <= t < 2 -> 0 <= j < 64 -> tagbit nd' t j = tagbit nd t j || ((j =? 0) && Z.testbit (gfp_mask st) (t + 21)).
Proof.
  intros En Hs. change (Z.to_nat RADIX_TREE_MAX_TAGS) with 2%nat. cbn [for_]. change (0 + 1) with 1.
  destruct (copy_tag st v nd 0 En Hs ltac:(lia)) as (nd1 & E1 & [C1 _ _ C4 C5]). rewrite (bind_Some _ _ _ _ _ E1).
  destruct (copy_tag (with_nodes st (<[v := nd1]> (nodes st))) v nd1 1) as (nd2 & E2 & [D1 _ _ D4 D5]); [cbn; by rewrite lookup_insert_eq|done|lia|].
  rewrite (bind_Some _ _ _ _ _ E2). exists nd2. cbn [nodes with_nodes]. rewrite insert_insert_eq. split; [done|]. split; [done|].
  split; [congruence|].
  intros t j Ht Hj. rewrite D5, !C5 by lia. cbn [gfp_mask with_nodes].
  assert (t = 0 \/ t = 1) as [-> | ->] by lia; destruct (Z.eqb_spec j 0) as [->|]; cbn; rewrite ?orb_false_r; try done.
Qed.

(** What is under the top is what is in the tree. *)
Lemma grow_node_ok h ns T tg v stale nd mask : struct_ok h ns T tg -> T h 0 <> 0 ->
  (forall tag, 0 <= tag < 2 -> Z.testbit mask (tag + 21) = true <-> exists idx, idx ∈ tg tag) ->
  shape nd -> slots nd = upd (slots (zero_node stale)) 0 (T h 0) ->
  (forall t j, 0 <= t < 2 -> 0 <= j < 64 -> tagbit nd t j = tagbit (zero_node stale) t j || ((j =? 0) && Z.testbit mask (t + 21))) ->
  node_ok (set_T T (h + 1) 0 v) tg (h + 1) 0 (nd_count (nd_height nd (h + 1)) 1).
Proof.
  intros HS Ntop Hm Sh Es Eb. pose proof (s_height _ _ _ _ HS).
  split; cbn [nd_count nd_height nheight ncount slots]; [by destruct Sh; split|done|..].
  - intros i Hi. replace (h + 1 - 1) with h by lia. rewrite set_T_ne, Es by lia. cbn [zero_node slots Z.mul Z.add]. destruct (Z.eq_dec i 0) as [->|].
    + by rewrite at_upd_eq.
    + rewrite at_upd_ne, at_replicate by lia. symmetry. apply (s_top _ _ _ _ HS). lia.
  - rewrite Es, used_upd by done. cbn [zero_node slots]. rewrite used_replicate, at_replicate, (eqb_f (T h 0)) by done. done.
  - intros tag i Ht Hi. change (tagbit (nd_count (nd_height nd (h + 1)) 1) tag i) with (tagbit nd tag i).
    rewrite Eb, tagbit_zero by done. cbn [orb]. replace (h + 1 - 1) with h by lia. cbn [Z.mul Z.add]. destruct (Z.eqb_spec i 0) as [->|]; cbn [andb].
    + rewrite Hm by done. split; intros (idx & Hin); [|naive_solver]. exists idx. split; [done|].
      destruct (s_tagged _ _ _ _ HS tag idx Ht Hin). by apply (item_top _ _ _ _ HS idx).
    + split; [done|]. intros Hc. destruct (covers_none _ _ _ _ tag h i HS Ht ltac:(lia)); [apply (s_top _ _ _ _ HS); lia|done].
Qed.

Lemma grow_eq st T tg v : tree_ok st T tg [v] -> rheight st < 6 -> rnode st <> 0 ->
  exists st', grow v st = Some (rheight st + 1, st') /\ tree_ok st' (set_T T (rheight st + 1) 0 v) tg [] /\
    rheight st' = rheight st + 1 /\ gfp_mask st' = gfp_mask st /\ pool st' = pool st /\ rcu st' = rcu st /\ rnode st' <> 0.
Proof.
  intros [HS HR HO] Hh Nr. pose proof (s_height _ _ _ _ HS) as Hh0. unfold grow. run (get_eq st).
  destruct (o_other _ _ _ _ _ HO v) as (Nv & Pv & Fv); [apply elem_of_app; left; by apply list_elem_of_singleton|].
  destruct (o_spare _ _ _ _ _ HO v) as [stale En]; [by apply list_elem_of_singleton|].
  assert (radix_tree_indirect_to_ptr (rnode st) = T (rheight st) 0 /\ T (rheight st) 0 <> 0) as [-> Ntop].
  { pose proof (s_ptr _ _ _ _ HS (rheight st) 0 ltac:(lia) ltac:(lia)). rewrite (r_rnode _ _ _ _ _ HR) in *.
    destruct (Z.eqb_spec (rheight st) 0) as [E|]; [rewrite E in *; by rewrite to_ptr|]. destruct (Z.eqb_spec (T (rheight st) 0) 0); [done|].
    by rewrite to_ptr_indirect. }
  run (put_slot_eq st v _ En (shape_zero stale) 0 (T (rheight st) 0) ltac:(lia)).
  destruct (copy_tags (with_nodes st (<[v := nd_slot (zero_node stale) 0 (T (rheight st) 0)]> (nodes st))) v (nd_slot (zero_node stale) 0 (T (rheight st) 0)))
    as (nd' & Et & Sh & Esl & Eb); [cbn; by rewrite lookup_insert_eq|destruct (shape_zero stale); by split|].
  run Et. rewrite u32_id by lia. cbn [nodes with_nodes] in *. rewrite insert_insert_eq.
  assert (put_height v (rheight st + 1) (with_nodes st (<[v := nd']> (nodes st))) = Some (tt, with_nodes st (<[v := nd_height nd' (rheight st + 1)]> (nodes st)))) as E1.
  { rewrite (put_height_eq _ v nd') by (cbn; by rewrite lookup_insert_eq). cbn [nodes with_nodes]. by rewrite insert_insert_eq. }
  run E1. set (nd2 := nd_count (nd_height nd' (rheight st + 1)) 1).
  assert (put_count v 1 (with_nodes st (<[v := nd_height nd' (rheight st + 1)]> (nodes st))) = Some (tt, with_nodes st (<[v := nd2]> (nodes st)))) as E2.
  { rewrite (put_count_eq _ v (nd_height nd' (rheight st + 1))) by (cbn; by rewrite lookup_insert_eq). cbn [nodes with_nodes].
    by rewrite insert_insert_eq. }
  run E2. rewrite to_indirect by done. eexists. split; [done|]. cbn [rheight gfp_mask pool rcu rnode nodes with_nodes].
  assert (node_ok (set_T T (rheight st + 1) 0 v) tg (rheight st + 1) 0 nd2) as Hn.
  { apply (grow_node_ok _ (nodes st) T tg v stale nd' (gfp_mask st)); try done. apply HR. }
  split; [split; cbn [rheight gfp_mask pool rcu rnode nodes]|].
  - apply (struct_grow _ (nodes st) T tg v _ nd2); try done; [by rewrite lookup_insert_eq|]. intros p Np. by rewrite lookup_insert_ne.
  - destruct HR as [R1 R2 R3]. split; try done. rewrite eqb_f by lia. rewrite set_T_eq, eqb_f by done. done.
  - apply (own_frame (nodes st) (in_tree (set_T T (rheight st + 1) 0 v))); [apply (own_adopt _ (in_tree T) v []); [exact HO|]|done|..].
    + intros p. apply in_tree_link; try done; [lia|]. apply (s_above _ _ _ _ HS); lia.
    + intros p Hp. apply lookup_insert_ne. apply not_eq_sym. intros ->. cbn in Hp. destruct HO as [O1 _ _ _ _ _].
      by apply list.NoDup_cons in O1 as [? _].
    + intros p Hp. destruct (decide (p = v)) as [->|]; [eauto|]. by rewrite lookup_insert_ne in Hp.
  - repeat split. unfold ptr_ok in Pv. lia.
Qed.

Section Extend.
Context (kmem_cache_alloc : Z -> gmap Z radix_tree_node -> option (Z * Z)) (Ha : alloc_ok kmem_cache_alloc).

(** A change that keeps the items: what a failed or unfinished insertion leaves. *)
Definition kept (st st' : state) (T T' : Z -> Z -> Z) (tg : Z -> gset Z) : Prop :=
  tree_ok st' T' tg [] /\ (forall x, 0 <= x -> T' 0 x = T 0 x) /\ gfp_mask st' = gfp_mask st /\ rcu st' = rcu st.

Lemma grow_loop tg height fuel : forall st T, tree_ok st T tg [] -> rnode st <> 0 -> rheight st < height <= 6 ->
  (Z.to_nat (height - rheight st) <= fuel)%nat ->
  exists e st' T', while fuel (fun _ =>
      let* node := radix_tree_node_alloc kmem_cache_alloc in
      if node =? 0 then ret (inr (- ENOMEM)) else
      let* newheight := grow node in
      ret (if newheight <? height then inl tt else inr 0)) tt st = Some (e, st') /\ kept st st' T T' tg /\
    rheight st <= rheight st' <= height /\ zlen (pool st) - (rheight st' - rheight st) <= zlen (pool st') /\
    ((e = 0 /\ rheight st' = height /\ rnode st' <> 0) \/
     (e = - ENOMEM /\ rheight st' < height /\ (nowait st = true -> pool st' = []))).
Proof using Ha.
  induction fuel as [|fuel IH]; intros st T H Nr Hh Hf; [lia|]. rewrite while_S. cbv beta.
  destruct (node_alloc_eq _ Ha st T tg [] H) as (v & st1 & E & (S1 & S2 & S3 & S4) & _ & Hp & [(-> & -> & Hw)|(Nv & Pv & H1)]); run E.
  { cbn [Z.eqb]. run_ret. exists (- ENOMEM), st, T. split; [done|]. split; [done|]. split; [lia|]. split; [lia|]. right. split; [done|].
    split; [lia|done]. }
  rewrite eqb_f by done. destruct (grow_eq st1 T tg v H1 ltac:(lia) ltac:(congruence)) as (st2 & E2 & H2 & G1 & G2 & G3 & G4 & G5). run E2. run_ret.
  pose proof (s_height _ _ _ _ (t_struct _ _ _ _ H)) as Hh0.
  assert (forall x, 0 <= x -> set_T T (rheight st1 + 1) 0 v 0 x = T 0 x) as Hsame by (intros; apply set_T_ne; lia).
  destruct (rheight st1 + 1 <? height) eqn:B; b2p; cbn [bind].
  - destruct (IH st2 _ H2 G5 ltac:(lia) ltac:(lia)) as (e & st' & T' & E' & (K1 & K2 & K3 & K4) & L1 & L2 & L3). exists e, st', T'. split; [done|].
    split; [split; [done|]; split; [intros; rewrite K2, Hsame by done; done|split; congruence]|]. split; [lia|]. split; [rewrite G3 in L2; lia|].
    destruct L3 as [L3|(L3 & L4 & L5)]; [by left|right]. split; [done|]. split; [done|]. unfold nowait in *. by rewrite G2, S2 in L5.
  - exists 0, st2, (set_T T (rheight st1 + 1) 0 v). split; [done|]. split; [split; [done|]; split; [done|split; congruence]|].
    split; [lia|]. split; [rewrite G3; lia|]. left. split; [done|]. split; [lia|done].
Qed.

Lemma pfx_6 idx : 0 <= idx < 2 ^ 32 -> pfx 6 idx = 0.
Proof using. intros Hi. apply pfx_small; lia. Qed.

Lemma extend_eq st T tg idx : tree_ok st T tg [] -> 0 <= idx < 2 ^ 32 -> pfx (rheight st) idx <> 0 ->
  exists e st' T', radix_tree_extend kmem_cache_alloc idx st = Some (e, st') /\ kept st st' T T' tg /\ rheight st <= rheight st' <= 6 /\
    ((e = 0 /\ pfx (rheight st') idx = 0 /\ (rnode st = 0 -> pool st' = pool st) /\
      (rnode st <> 0 -> rnode st' <> 0 /\ zlen (pool st) - (rheight st' - rheight st) <= zlen (pool st'))) \/
     (e = - ENOMEM /\ rheight st' < 6 /\ rnode st <> 0 /\ zlen (pool st) - (rheight st' - rheight st) <= zlen (pool st') /\
      (nowait st = true -> pool st' = []))).
Proof using Ha.
  intros H Hi Np. pose proof H as [HS HR HO]. pose proof (s_height _ _ _ _ HS) as Hh.
  assert (rheight st < 6) as Hlt by (destruct (Z.eq_dec (rheight st) 6) as [E|]; [rewrite E, pfx_6 in Np by done; done|lia]).
  unfold radix_tree_extend. run (get_eq st).
  destruct (height_loop idx st (S (Z.to_nat RADIX_TREE_MAX_PATH)) Hi (rheight st + 1)) as (height & E & Hr & Hz); [lia|change (Z.to_nat RADIX_TREE_MAX_PATH) with 6%nat; lia|].
  rewrite (bind_Some _ _ _ _ _ E). destruct (Z.eqb_spec (rnode st) 0) as [Er|Er].
  - assert (T (rheight st) 0 = 0) as Et.
    { rewrite (r_rnode _ _ _ _ _ HR) in Er. destruct (Z.eqb_spec (rheight st) 0) as [E0|]; [by rewrite E0|].
      destruct (Z.eqb_spec (T (rheight st) 0) 0); [done|]. pose proof (s_ptr _ _ _ _ HS (rheight st) 0 ltac:(lia) ltac:(lia)) as [_ Hp]. lia. }
    eexists 0, _, T. split; [done|]. cbn [rheight pool]. split; [split; [|done]|split; [lia|left]].
    2:{ split; [done|]. split; [done|]. split; [done|]. by intros ?. }
    split; cbn [rheight nodes gfp_mask rnode pool rcu]; [by apply (struct_lift (rheight st)); try lia| |done].
    destruct HR as [R1 R2 R3]. split; try done. rewrite Er. rewrite eqb_f by lia.
    rewrite (empty_all (rheight st) (nodes st) T tg height 0 HS Et) by lia. done.
  - destruct (grow_loop tg height (S (Z.to_nat RADIX_TREE_MAX_PATH)) st T H Er ltac:(lia)) as (e & st' & T' & E' & K & L1 & L2 & L3).
    { change (Z.to_nat RADIX_TREE_MAX_PATH) with 6%nat. lia. }
    exists e, st', T'. split; [exact E'|]. split; [done|]. split; [lia|]. destruct L3 as [(-> & L3 & L4)|(-> & L3 & L4)]; [left|right].
    + split; [done|]. split; [by rewrite L3|]. done.
    + split; [done|]. split; [lia|done].
Qed.
End Extend.

(** ** Insertion *)
Lemma zero_node_ok h ns T tg k x v : struct_ok h ns T tg -> 1 <= k <= h -> 0 <= x -> T k x = 0 -> node_ok (set_T T k x v) tg k x (zero_node k).
Proof.
  intros HS Hk Hx E. assert (forall i, 0 <= i < 64 -> T (k - 1) (64 * x + i) = 0) as Hz by (intros; by apply (s_none _ _ _ _ HS)).
  split; [apply shape_zero|done| |by cbn [zero_node slots ncount]; rewrite used_replicate|].
  - intros i Hi. cbn [zero_node slots]. by rewrite at_replicate, set_T_ne, Hz by lia.
  - intros tag i Ht Hi. rewrite tagbit_zero by done. split; [done|]. intros Hc.
    by destruct (covers_none _ _ _ _ tag (k - 1) (64 * x + i) HS Ht ltac:(lia) (Hz i Hi)).
Qed.

(** A slot that was empty is filled, with the count. *)
Lemma fill_slot T tg k x nd i v : node_ok T tg k x nd -> 0 <= i < 64 -> T (k - 1) (64 * x + i) = 0 -> v <> 0 ->
  node_ok (set_T T (k - 1) (64 * x + i) v) tg k x (nd_count (nd_slot nd i v) (u32 (ncount nd + 1))).
Proof.
  intros Hn Hi E Nv. pose proof (count_small _ _ _ _ _ Hn). rewrite u32_id by lia. rewrite (n_count _ _ _ _ _ Hn).
  replace (used (slots nd) + 1) with (used (upd (slots nd) i v)); [by apply node_ok_slot|].
  rewrite used_upd by (rewrite (sh_slots _ (n_shape _ _ _ _ _ Hn)); done). rewrite (n_slot _ _ _ _ _ Hn) by done. rewrite E, (eqb_f v) by done. cbn.
  lia.
Qed.

Section Down.
Context (tg : Z -> gset Z) (idx : Z) (Hi : 0 <= idx < 2 ^ 32).

(** The node above the place at height [k] on the way, and the place in it. *)
Definition above (st : state) (T : Z -> Z -> Z) (k : Z) : Z := if k =? rheight st then 0 else T (k + 1) (pfx (k + 1) idx).
Definition place (st : state) (k : Z) : Z := if k =? rheight st then 0 else pfx k idx mod 64.

(** A spare node becomes the top of an empty tree. *)
Lemma link_top st T v : tree_ok st T tg [v] -> 1 <= rheight st -> T (rheight st) 0 = 0 ->
  tree_ok (State (rheight st) (gfp_mask st) (v + 1) (<[v := zero_node (rheight st)]> (nodes st)) (pool st) (rcu st)) (set_T T (rheight st) 0 v) tg [].
Proof using.
  intros [HS HR HO] Hk E. destruct (o_other _ _ _ _ _ HO v) as (Nv & Pv & Fv); [apply elem_of_app; left; by apply list_elem_of_singleton|].
  pose proof (zero_node_ok _ _ _ _ (rheight st) 0 v HS ltac:(lia) ltac:(lia) E) as Hv. split; cbn [rheight nodes gfp_mask rnode pool rcu].
  - apply (struct_set _ _ _ _ HS (rheight st) 0 v); try done; try lia; [split; [done|]; exists (zero_node (rheight st)); by rewrite lookup_insert_eq|].
    intros k' x' G1 G2 G3 _ _. rewrite lookup_insert_ne; [done|]. intros ->. apply Fv. split; [done|]. exists k', x'. split; [lia|done].
  - destruct HR as [R1 R2 R3]. split; try done. rewrite eqb_f by lia. rewrite set_T_eq, eqb_f by done. done.
  - apply (own_frame (nodes st) (in_tree (set_T T (rheight st) 0 v))); [apply (own_adopt _ (in_tree T) v []); [done|]|done|..].
    + intros p. apply in_tree_link; done || lia.
    + intros p Hp. apply lookup_insert_ne. intros <-. destruct HO as [O1 _ _ _ _ _]. by apply list.NoDup_cons in O1 as [? _].
    + intros p Hp. destruct (decide (p = v)) as [->|]; [|by rewrite lookup_insert_ne in Hp]. apply (own_dom _ _ _ _ _ _ HO), elem_of_app. left.
      by apply list_elem_of_singleton.
Qed.
(** A spare node becomes a child of a node of the tree. *)
Lemma link_child st T v k nd : tree_ok st T tg [v] -> 1 <= k < rheight st -> T k (pfx k idx) = 0 ->
  let P := T (k + 1) (pfx (k + 1) idx) in P <> 0 -> nodes st !! P = Some nd -> node_ok T tg (k + 1) (pfx (k + 1) idx) nd ->
  P <> v /\ tree_ok (with_nodes st (<[P := nd_count (nd_slot nd (pfx k idx mod 64) v) (u32 (ncount nd + 1))]> (<[v := zero_node k]> (nodes st))))
    (set_T T k (pfx k idx) v) tg [].
Proof using Hi.
  intros [HS HR HO] Hk E P NP EP HP. pose proof (pfx_nonneg k idx ltac:(lia) ltac:(lia)) as Hx.
  destruct (o_other _ _ _ _ _ HO v) as (Nv & Pv & Fv); [apply elem_of_app; left; by apply list_elem_of_singleton|].
  pose proof (zero_node_ok _ _ _ _ k _ v HS ltac:(lia) Hx E) as Hv.
  assert (in_tree T P) as TP by (split; [done|]; exists (k + 1), (pfx (k + 1) idx); repeat split; [lia|apply pfx_nonneg; lia]).
  assert (P <> v) as NPv by (intros EPv; apply Fv; by rewrite <- EPv). split; [done|].
  assert (pfx (k + 1) idx = pfx k idx / 64) as EQ by (apply pfx_S; lia).
  pose proof (fill_slot T tg (k + 1) (pfx (k + 1) idx) nd (pfx k idx mod 64) v HP ltac:(dlia)) as HP'.
  replace (k + 1 - 1) with k in HP' by lia. rewrite EQ in HP' at 1 2.
  replace (64 * (pfx k idx / 64) + pfx k idx mod 64) with (pfx k idx) in HP' by dlia.
  specialize (HP' E Nv). split; cbn [rheight nodes gfp_mask rnode pool rcu with_nodes].
  - apply (struct_set _ _ _ _ HS k (pfx k idx) v); try done; try lia.
    + intros _. rewrite <- EQ. split; [done|]. eexists. fold P. rewrite lookup_insert_eq. done.
    + intros _ _. split; [done|]. exists (zero_node k). rewrite lookup_insert_ne by done. by rewrite lookup_insert_eq.
    + intros k' x' G1 G2 G3 G4 G5. rewrite <- EQ in G5. rewrite !lookup_insert_ne; [done|..].
      * intros ->. apply Fv. split; [done|]. exists k', x'. split; [lia|done].
      * intros EP'. destruct (s_inj _ _ _ _ HS k' x' (k + 1) (pfx (k + 1) idx)); try done; try lia. apply pfx_nonneg; lia.
  - destruct HR as [R1 R2 R3]. split; try done. rewrite R1, !set_T_ne by lia. done.
  - apply (own_frame (nodes st) (in_tree (set_T T k (pfx k idx) v))); [apply (own_adopt _ (in_tree T) v []); [done|]|done|..].
    + intros p. apply in_tree_link; done || lia.
    + intros p Hp. rewrite !lookup_insert_ne; [done|..].
      * intros <-. destruct HO as [O1 _ _ _ _ _]. by apply list.NoDup_cons in O1 as [? _].
      * apply not_eq_sym, (own_apart _ _ _ _ _ P p HO TP). apply elem_of_app. by right.
    + intros p Hp. destruct (decide (p = P)) as [->|]; [eauto|]. rewrite lookup_insert_ne in Hp by done.
      destruct (decide (p = v)) as [->|]; [|by rewrite lookup_insert_ne in Hp]. apply (own_dom _ _ _ _ _ _ HO), elem_of_app. left.
      by apply list_elem_of_singleton.
Qed.

Lemma link_child_eq st T v k : tree_ok st T tg [v] -> pfx (rheight st) idx = 0 -> 1 <= k <= rheight st -> T k (pfx k idx) = 0 ->
  (k < rheight st -> T (k + 1) (pfx (k + 1) idx) <> 0) ->
  exists st', (put_height v k ;;
      (if negb (above st T k =? 0) then
         put_slot (above st T k) (place st k) v ;;
         let* nd := get_node (above st T k) in
         put_count (above st T k) (u32 (ncount nd + 1))
       else set_rnode (radix_tree_ptr_to_indirect v)) ;; ret v) st = Some (v, st') /\
    tree_ok st' (set_T T k (pfx k idx) v) tg [] /\
    rheight st' = rheight st /\ gfp_mask st' = gfp_mask st /\ rcu st' = rcu st /\ pool st' = pool st.
Proof using Hi.
  intros H Hz Hk E Hab.
  pose proof (o_other _ _ _ _ _ (t_own _ _ _ _ H) v ltac:(apply elem_of_app; left; by apply list_elem_of_singleton)) as (Nv & Pv & _).
  destruct (o_spare _ _ _ _ _ (t_own _ _ _ _ H) v) as [stale En]; [by apply list_elem_of_singleton|].
  run (put_height_eq st v _ En k). change (nd_height (zero_node stale) k) with (zero_node k).
  unfold above, place. destruct (Z.eqb_spec k (rheight st)) as [->|Nk]; cbn [negb Z.eqb].
  - rewrite to_indirect by done. eexists. split; [done|]. rewrite Hz in *. split; [apply (link_top st T v); done || lia|done].
  - pose proof (Hab ltac:(lia)) as NP. set (P := T (k + 1) (pfx (k + 1) idx)) in *.
    destruct (path_node _ _ _ _ (t_struct _ _ _ _ H) idx ltac:(lia) (k + 1) ltac:(lia) NP) as (nd & EP & HP & _). fold P in EP.
    destruct (link_child st T v k nd H ltac:(lia) E NP EP HP) as [NPv Hl]. fold P in NPv, Hl.
    rewrite eqb_f by done. cbn [negb]. set (st1 := with_nodes st (<[v := zero_node k]> (nodes st))).
    assert (nodes st1 !! P = Some nd) as EP1 by (cbn; by rewrite lookup_insert_ne).
    run (put_slot_eq st1 P nd EP1 (n_shape _ _ _ _ _ HP) (pfx k idx mod 64) v ltac:(dlia)).
    set (nd1 := nd_slot nd (pfx k idx mod 64) v). set (st2 := with_nodes st1 (<[P := nd1]> (nodes st1))).
    assert (nodes st2 !! P = Some nd1) as EP2 by (cbn; by rewrite lookup_insert_eq).
    run (get_node_eq st2 P nd1 EP2). run (put_count_eq st2 P nd1 EP2 (u32 (ncount nd1 + 1))).
    eexists. split; [done|]. split; [|done]. cbn [st2 st1 with_nodes nodes]. rewrite insert_insert_eq. exact Hl.
Qed.
Context (kmem_cache_alloc : Z -> gmap Z radix_tree_node -> option (Z * Z)) (Ha : alloc_ok kmem_cache_alloc).

(** How many nodes are missing at most below height [k]. *)
Definition missing (T : Z -> Z -> Z) (k : Z) : Z := if T k (pfx k idx) =? 0 then k else k - 1.
Definition descended (st' : state) (T' : Z -> Z -> Z) (r : Z * Z * Z) : Prop :=
  r = (T' 0 idx, above st' T' 0, place st' 0) /\ (0 < rheight st' -> above st' T' 0 <> 0).

(** The node for height [k] on the way, there or new. *)
Lemma child_eq st T k : tree_ok st T tg [] -> pfx (rheight st) idx = 0 -> 1 <= k <= rheight st ->
  (k < rheight st -> T (k + 1) (pfx (k + 1) idx) <> 0) ->
  exists v st1 T1, (if T k (pfx k idx) =? 0 then add_child kmem_cache_alloc (above st T k) (place st k) k else ret (T k (pfx k idx))) st = Some (v, st1) /\
    ((v = 0 /\ st1 = st /\ T k (pfx k idx) = 0 /\ (nowait st = true -> pool st = [])) \/
     (v <> 0 /\ T1 k (pfx k idx) = v /\ kept st st1 T T1 tg /\ rheight st1 = rheight st /\
      zlen (pool st) - (if T k (pfx k idx) =? 0 then 1 else 0) <= zlen (pool st1) /\ T1 (k - 1) (pfx (k - 1) idx) = T (k - 1) (pfx (k - 1) idx))).
Proof using Ha Hi.
  intros H Hz Hk Hab. destruct (Z.eqb_spec (T k (pfx k idx)) 0) as [E0|E0].
  - unfold add_child.
    destruct (node_alloc_eq _ Ha st T tg [] H) as (v & st1 & E & (S1 & S2 & S3 & S4) & _ & Hp & [(-> & -> & Hw)|(Nv & Pv & H1)]); run E.
    { exists 0, st, T. split; [done|]. by left. }
    rewrite eqb_f by done. destruct (link_child_eq st1 T v k H1) as (st2 & E2 & H2 & G1 & G2 & G3 & G4); rewrite ?S1; try done.
    unfold above, place in *. rewrite S1 in E2. rewrite E2. exists v, st2, (set_T T k (pfx k idx) v). split; [done|]. right. split; [done|].
    split; [apply set_T_eq|]. split; [split; [done|]; split; [intros; apply set_T_ne; lia|split; congruence]|]. split; [congruence|].
    split; [rewrite G4; lia|]. apply set_T_ne. lia.
  - exists (T k (pfx k idx)), st, T. split; [done|]. right. split; [done|]. split; [done|]. split; [done|]. split; [done|]. split; [lia|done].
Qed.

Lemma insert_walk k : 0 <= k -> forall fuel st T, tree_ok st T tg [] -> pfx (rheight st) idx = 0 -> k <= rheight st ->
  (k < rheight st -> T (k + 1) (pfx (k + 1) idx) <> 0) -> (Z.to_nat k < fuel)%nat ->
  exists r st' T', while fuel (insert_round kmem_cache_alloc idx)
      (T k (pfx k idx), above st T k, place st k, u32 ((k - 1) * RADIX_TREE_MAP_SHIFT), k) st = Some (r, st') /\
    kept st st' T T' tg /\ rheight st' = rheight st /\
    match r with
    | inl e => e = - ENOMEM /\ (nowait st = true -> zlen (pool st) < missing T k)
    | inr r => descended st' T' r
    end.
Proof using Ha Hi.
  intros Hk. pattern k. apply natlike_ind; [| |done]; clear k Hk.
  { intros fuel st T H Hz _ Hab Hf. destruct fuel as [|fuel]; [lia|]. rewrite while_S. unfold insert_round. cbn [Z.ltb Z.compare]. run_ret.
    eexists _, st, T. split; [done|]. split; [done|]. split; [done|]. unfold descended. rewrite pfx_0. split; [done|]. intros Hlt. unfold above.
    rewrite eqb_f by lia. by apply Hab. }
  intros k Hk IH fuel st T H Hz Hh Hab Hf. unfold Z.succ in *. destruct fuel as [|fuel]; [lia|]. rewrite while_S.
  pose proof (s_height _ _ _ _ (t_struct _ _ _ _ H)) as H6. unfold insert_round at 1. rewrite ltb_t by lia. rewrite offset_eq by lia.
  rewrite shift_step. replace (k + 1 - 1) with k by lia.
  destruct (child_eq st T (k + 1) H Hz ltac:(lia) Hab) as (v & st1 & T1 & E1 & Hcase). rewrite bind_assoc, (bind_Some _ _ _ _ _ E1).
  destruct Hcase as [(-> & -> & E0 & Hw)|(Nv & ET & (K1 & K2 & K3 & K4) & Eh & Hp & Ec)].
  { cbn [Z.eqb]. run_ret. eexists _, st, T. split; [done|]. split; [done|]. split; [done|]. split; [done|]. intros Hn. rewrite Hw by done.
    unfold missing. rewrite E0. cbn. change (zlen []) with 0. lia. }
  rewrite eqb_f by done. rewrite <- ET in *. replace (k + 1 - 1) with k in Ec by lia.
  destruct (path_node _ _ _ _ (t_struct _ _ _ _ K1) idx ltac:(lia) (k + 1) ltac:(lia) Nv) as (nd & En & Hn & Es).
  replace (k + 1 - 1) with k in Es by lia.
  run (get_slot_eq st1 _ nd En (n_shape _ _ _ _ _ Hn) (pfx k idx mod 64) ltac:(dlia)). rewrite Es. run_ret. cbn [bind].
  destruct (IH fuel st1 T1 K1) as (r & st' & T' & Er & (L1 & L2 & L3 & L4) & Eh' & Hr); rewrite ?Eh; try done; try lia.
  exists r, st', T'. split.
  { unfold above, place in Er. rewrite Eh, eqb_f in Er by lia. exact Er. }
  split; [split; [done|]; split; [intros; rewrite L2, K2 by done; done|split; congruence]|]. split; [congruence|]. destruct r as [e|r]; [|done].
  destruct Hr as [-> Hr]. split; [done|]. intros Hn'. unfold nowait in *. rewrite K3 in Hr. specialize (Hr Hn'). revert Hr Hp. unfold missing.
  rewrite Ec.
  destruct (Z.eqb_spec (T (k + 1) (pfx (k + 1) idx)) 0) as [E0|E0]; [|destruct (T k (pfx k idx) =? 0); lia].
  pose proof (path_child _ _ _ _ (t_struct _ _ _ _ H) idx ltac:(lia) (k + 1) ltac:(lia) E0) as Ez. replace (k + 1 - 1) with k in Ez by lia.
  rewrite Ez. cbn. lia.
Qed.
End Down.

Section InsertSpec.
Context (kmem_cache_alloc : Z -> gmap Z radix_tree_node -> option (Z * Z)) (Ha : alloc_ok kmem_cache_alloc).
Context (tg : Z -> gset Z) (idx item : Z) (Hi : 0 <= idx < 2 ^ 32) (Pv : ptr_ok item) (Nv : item <> 0).

Lemma store_item_eq st T : tree_ok st T tg [] -> pfx (rheight st) idx = 0 -> (0 < rheight st -> above idx st T 0 <> 0) -> T 0 idx = 0 ->
  exists st', store_item (above idx st T 0) (place idx st 0) item st = Some (0, st') /\ tree_ok st' (set_T T 0 idx item) tg [] /\
    gfp_mask st' = gfp_mask st /\ rcu st' = rcu st.
Proof using Hi Pv Nv.
  intros H Hz Hab E. pose proof (s_height _ _ _ _ (t_struct _ _ _ _ H)) as Hh. unfold store_item, above, place in *. rewrite Z.add_0_l in *.
  destruct (Z.eqb_spec 0 (rheight st)) as [Eh|Nh]; cbn [negb Z.eqb].
  - assert (idx = 0) as Ei by (by rewrite <- Eh, pfx_0 in Hz).
    pose proof (item_set_root st T tg [] H idx Hi item Pv ltac:(done) (eq_sym Eh) Ei) as H'.
    set (st1 := State (rheight st) (gfp_mask st) item (nodes st) (pool st) (rcu st)) in *. assert (set_rnode item st = Some (tt, st1)) as E1 by done.
    run E1.
    assert (forall tag, 0 <= tag < 2 -> Z.testbit (gfp_mask st1) (tag + 21) = false) as Hb.
    { intros tag Ht. apply not_true_iff_false. cbn [gfp_mask st1]. rewrite (r_tag _ _ _ _ _ (t_root _ _ _ _ H) tag Ht). intros (i & Hin).
      destruct (s_tagged _ _ _ _ (t_struct _ _ _ _ H) tag i Ht Hin) as [A1 A2]. apply A2. apply (empty_all _ _ _ _ 0 i (t_struct _ _ _ _ H)); try lia.
      rewrite <- Eh. by rewrite Ei in E. }
    run (root_tag_get_eq 0 st1 ltac:(lia)). rewrite Hb by lia. run (bug_not st1). run (root_tag_get_eq 1 st1 ltac:(lia)). rewrite Hb by lia.
    run (bug_not st1).
    exists st1. done.
  - rewrite eqb_f by (apply Hab; lia). cbn [negb]. rewrite pfx_0. specialize (Hab ltac:(lia)). set (P := T 1 (pfx 1 idx)) in *.
    destruct (path_node _ _ _ _ (t_struct _ _ _ _ H) idx ltac:(lia) 1 ltac:(lia) Hab) as (nd & En & Hn & _). fold P in En.
    pose proof (n_shape _ _ _ _ _ Hn) as Sh.
    pose proof (pfx_down 1 idx ltac:(lia)) as Ed. rewrite Z.sub_diag, pfx_0 in Ed.
    pose proof (fill_slot T tg 1 (pfx 1 idx) nd (idx mod 64) item Hn ltac:(dlia)) as Hf. rewrite Z.sub_diag, <- Ed in Hf. specialize (Hf E Nv).
    run (get_node_eq st P nd En). run (put_count_eq st P nd En (u32 (ncount nd + 1))). set (nd1 := nd_count nd (u32 (ncount nd + 1))).
    set (st1 := with_nodes st (<[P := nd1]> (nodes st))). assert (nodes st1 !! P = Some nd1) as E1 by (cbn; by rewrite lookup_insert_eq).
    run (put_slot_eq st1 P nd1 E1 (ltac:(by destruct Sh; split)) (idx mod 64) item ltac:(dlia)). set (nd2 := nd_slot nd1 (idx mod 64) item) in *.
    set (st2 := with_nodes st1 (<[P := nd2]> (nodes st1))). assert (nodes st2 !! P = Some nd2) as E2 by (cbn; by rewrite lookup_insert_eq).
    assert (forall tag, 0 <= tag < 2 -> tag_get P tag (idx mod 64) st2 = Some (false, st2)) as Ht.
    { intros tag Ht. rewrite (tag_get_eq st2 P nd2 E2 (n_shape _ _ _ _ _ Hf) tag (idx mod 64) Ht ltac:(dlia)). do 2 f_equal. apply not_true_iff_false.
      change nd2 with (nd_count (nd_slot nd (idx mod 64) item) (u32 (ncount nd + 1))). rewrite (n_tag _ _ _ _ _ Hf) by (done || dlia).
      rewrite Z.sub_diag, <- Ed. apply (covers_none _ _ _ _ tag 0 idx (t_struct _ _ _ _ H)); done || lia. }
    run (Ht 0 ltac:(lia)). run (bug_not st2). run (Ht 1 ltac:(lia)). run (bug_not st2). exists st2. split; [done|]. split; [|done].
    unfold st2, st1. rewrite with_nodes_twice. cbn [nodes with_nodes]. rewrite insert_insert_eq. apply item_set; try done. lia.
Qed.
(** How many pooled nodes are enough. *)
Definition enough (st : state) : Z := if (pfx (rheight st) idx =? 0) || (rnode st =? 0) then 6 else 11.
Definition inserted (st st' : state) (T T' : Z -> Z -> Z) (e : Z) : Prop :=
  (e = 0 /\ T 0 idx = 0 /\ forall x, 0 <= x -> T' 0 x = set_T T 0 idx item 0 x) \/
  (e = - EEXIST /\ T 0 idx <> 0 /\ forall x, 0 <= x -> T' 0 x = T 0 x) \/
  (e = - ENOMEM /\ (forall x, 0 <= x -> T' 0 x = T 0 x) /\ (nowait st = true -> zlen (pool st) < enough st)).

(** From the root down, in a tree that is high enough. *)
Lemma insert_down st T : tree_ok st T tg [] -> pfx (rheight st) idx = 0 ->
  exists e st' T', (let* r := while (S (Z.to_nat RADIX_TREE_MAX_PATH)) (insert_round kmem_cache_alloc idx)
      (radix_tree_indirect_to_ptr (rnode st), 0, 0, u32 ((rheight st - 1) * RADIX_TREE_MAP_SHIFT), rheight st) in
    match r with
    | inl error => ret error
    | inr (slot, node, offset) => if negb (slot =? 0) then ret (- EEXIST) else store_item node offset item
    end) st = Some (e, st') /\ tree_ok st' T' tg [] /\ gfp_mask st' = gfp_mask st /\ rcu st' = rcu st /\
    ((e = 0 /\ T 0 idx = 0 /\ forall x, 0 <= x -> T' 0 x = set_T T 0 idx item 0 x) \/
     (e = - EEXIST /\ T 0 idx <> 0 /\ forall x, 0 <= x -> T' 0 x = T 0 x) \/
     (e = - ENOMEM /\ (forall x, 0 <= x -> T' 0 x = T 0 x) /\ (nowait st = true -> zlen (pool st) < missing idx T (rheight st)))).
Proof using Ha Hi Pv Nv.
  intros H Hz. pose proof (s_height _ _ _ _ (t_struct _ _ _ _ H)) as Hh. rewrite (rnode_ptr st T tg [] H).
  destruct (insert_walk tg idx Hi kmem_cache_alloc Ha (rheight st) ltac:(lia) (S (Z.to_nat RADIX_TREE_MAX_PATH)) st T H Hz ltac:(lia))
    as (r & st1 & T1 & E1 & (K1 & K2 & K3 & K4) & Eh & Hr); [lia|change (Z.to_nat RADIX_TREE_MAX_PATH) with 6%nat; lia|].
  unfold above, place in E1. rewrite Z.eqb_refl, Hz in E1. rewrite (bind_Some _ _ _ _ _ E1).
  destruct r as [e|r].
  { destruct Hr as [-> Hr]. exists (- ENOMEM), st1, T1. split; [done|]. split; [done|]. split; [done|]. split; [done|]. auto. }
  destruct Hr as [-> Hab]. destruct (Z.eqb_spec (T1 0 idx) 0) as [E0|E0]; cbn [negb].
  - destruct (store_item_eq st1 T1 K1 ltac:(congruence) Hab E0) as (st2 & E2 & H2 & G1 & G2). exists 0, st2, (set_T T1 0 idx item).
    split; [exact E2|]. split; [done|]. split; [congruence|]. split; [congruence|]. left. split; [done|]. split; [by rewrite <- K2 by lia|].
    intros x Hx. unfold set_T. case_decide; [done|]. by apply K2.
  - exists (- EEXIST), st1, T1. split; [done|]. split; [done|]. split; [done|]. split; [done|]. right. left. split; [done|].
    split; [by rewrite <- K2 by lia|done].
Qed.

Lemma radix_insert_eq st T : tree_ok st T tg [] -> exists e st' T', radix_tree_insert kmem_cache_alloc idx item st = Some (e, st') /\
  tree_ok st' T' tg [] /\ gfp_mask st' = gfp_mask st /\ rcu st' = rcu st /\ inserted st st' T T' e.
Proof using Ha Hi Pv Nv.
  intros H. pose proof (s_height _ _ _ _ (t_struct _ _ _ _ H)) as Hh. unfold radix_tree_insert. rewrite not_indirect by done. run (bug_not st).
  run (get_eq st).
  run (maxindex_eq (rheight st) st Hh). rewrite above_max by done. unfold inserted, enough.
  destruct (Z.eqb_spec (pfx (rheight st) idx) 0) as [Ez|Nz]; cbn [negb orb].
  - run_ret. cbn [Z.eqb negb]. run (get_eq st). destruct (insert_down st T H Ez) as (e & st' & T' & E & H' & G1 & G2 & Hr). exists e, st', T'.
    split; [exact E|]. split; [done|]. split; [done|]. split; [done|]. destruct Hr as [?|[?|(? & ? & Hm)]]; [auto|auto|]. right. right.
    split; [done|]. split; [done|].
    intros Hn. specialize (Hm Hn). unfold missing in Hm. case_match; lia.
  - destruct (extend_eq _ Ha st T tg idx H Hi Nz) as (e & st1 & T1 & E1 & (K1 & K2 & K3 & K4) & L1 & Hcase). run E1.
    destruct Hcase as [(-> & Ez & Hp0 & Hp1)|(-> & L2 & Nr & Hp & Hw)].
    2:{ cbn. exists (- ENOMEM), st1, T1. split; [done|]. split; [done|]. split; [done|]. split; [done|]. right. right. split; [done|]. split; [done|].
        intros Hn. rewrite (Hw Hn) in Hp. change (zlen []) with 0 in Hp. rewrite eqb_f by done. lia. }
    cbn [Z.eqb negb]. run (get_eq st1). destruct (insert_down st1 T1 K1 Ez) as (e & st' & T' & E & H' & G1 & G2 & Hr). exists e, st', T'.
    split; [exact E|]. split; [done|]. split; [congruence|]. split; [congruence|]. rewrite <- (K2 idx) by lia.
    destruct Hr as [(-> & A1 & A2)|[(-> & A1 & A2)|(-> & A1 & Hm)]].
    + left. split; [done|]. split; [done|]. intros x Hx. rewrite A2 by done. unfold set_T. case_decide; [done|]. by apply K2.
    + right. left. split; [done|]. split; [done|]. intros x Hx. rewrite A2, K2 by done. done.
    + right. right. split; [done|]. split; [intros x Hx; rewrite A1, K2 by done; done|]. intros Hn. unfold nowait in *. rewrite K3 in Hm.
      specialize (Hm Hn).
      unfold missing in Hm. destruct (Z.eqb_spec (rnode st) 0) as [Er|Er]; [rewrite (Hp0 Er) in Hm; case_match; lia|].
      destruct (Hp1 Er) as [Nr Hp]. rewrite (rnode_zero _ _ _ _ K1) in Nr. rewrite Ez, eqb_f in Hm by done. lia.
Qed.
End InsertSpec.

(** ** What the operations do to the map *)
Lemma preload_eq kmem_cache_alloc mask m tg fuel : alloc_ok kmem_cache_alloc -> forall st, rep st m tg -> (Z.to_nat (6 - zlen (pool st)) < fuel)%nat ->
  exists e st', while fuel (preload_round kmem_cache_alloc mask) tt st = Some (e, st') /\ rep st' m tg /\ same_root st st' /\
    ((e = 0 /\ 6 <= zlen (pool st')) \/ e = - ENOMEM).
Proof.
  intros Ha. induction fuel as [|fuel IH]; intros st Hrep Hf; [lia|]. rewrite while_S. unfold preload_round at 1. run (get_eq st).
  change RADIX_TREE_MAX_PATH with 6.
  destruct (zlen (pool st) <? 6) eqn:B; b2p; [|run_ret; exists 0, st; split; [done|]; split; [done|]; split; [done|]; left; split; [done|lia]].
  destruct Hrep as (T & H & HT). destruct (cache_alloc_eq _ Ha mask st T tg [] H) as (v & st1 & E & Hr & Hp & _ & Hcase). run E.
  destruct Hcase as [(-> & ->)|(Nv & Pv & H1)]; [cbn; exists (- ENOMEM), st; split; [done|]; split; [by exists T|]; split; [done|by right]|].
  rewrite eqb_f by done. run (get_eq st1). rewrite Hp, ltb_t, <- Hp by lia.
  set (st2 := State (rheight st1) (gfp_mask st1) (rnode st1) (nodes st1) (v :: pool st1) (rcu st1)).
  assert (set_pool (v :: pool st1) st1 = Some (tt, st2)) as E2 by done. run E2. run_ret. cbn [bind].
  destruct (IH st2) as (e & st' & E' & Hrep' & Hr' & Hcase').
  - exists T. split; [|done]. destruct H1 as [HS HR HO]. split; [done|done|]. by apply own_put.
  - cbn [pool st2]. rewrite zlen_cons, Hp. lia.
  - exists e, st'. split; [done|]. split; [done|]. split; [|done]. unfold same_root in *. cbn [st2 rheight gfp_mask rnode rcu] in Hr'.
    intuition congruence.
Qed.

(** C6. [radix_tree_insert] adds the item when its index is free, reports
    [-EEXIST] when it is taken and [-ENOMEM] when a node is missing, and in both
    cases leaves the map as it was; the tags stay.  A tree that takes nodes from
    the pool does not run out of them with six in the pool when it is empty or
    high enough for the index, and with eleven in any case. *)
Theorem radix_tree_insert_correct kmem_cache_alloc st m tg idx item :
  alloc_ok kmem_cache_alloc -> rep st m tg -> 0 <= idx < 2 ^ 32 -> ptr_ok item -> item <> 0 ->
  exists e st', radix_tree_insert kmem_cache_alloc idx item st = Some (e, st') /\
    ((e = 0 /\ m !! idx = None /\ rep st' (<[idx := item]> m) tg) \/
     (e = - EEXIST /\ is_Some (m !! idx) /\ rep st' m tg) \/
     (e = - ENOMEM /\ rep st' m tg /\ (nowait st = true -> zlen (pool st) < enough idx st))).
Proof.
  intros Ha (T & H & HT) Hi Pv Nv. destruct (radix_insert_eq _ Ha tg idx item Hi Pv Nv st T H) as (e & st' & T' & E & H' & _ & _ & Hr).
  exists e, st'. split; [done|]. destruct Hr as [(-> & E0 & Hx)|[(-> & E0 & Hx)|(-> & Hx & Hp)]].
  - left. split; [done|]. split; [apply (items_none m T idx HT); [lia|done]|]. apply (rep_of _ _ _ T'); [done|].
    apply (items_insert m T); done || lia.
  - right. left. split; [done|]. split; [|apply (rep_of _ _ _ T'); [done|by apply (items_same m T)]].
    rewrite (items_none m T idx HT) in E0 by lia. by apply not_eq_None_Some.
  - right. right. split; [done|]. split; [|done]. apply (rep_of _ _ _ T'); [done|by apply (items_same m T)].
Qed.

(** C11. A successful [radix_tree_preload] guarantees that the next insertion does
    not fail for want of memory, whatever the allocator does, if the tree takes
    nodes from the pool and is empty or high enough for the index. *)
Theorem radix_tree_preload_correct kmem_cache_alloc kmem_cache_alloc' mask st m tg idx item :
  alloc_ok kmem_cache_alloc -> alloc_ok kmem_cache_alloc' -> rep st m tg -> 0 <= idx < 2 ^ 32 -> ptr_ok item -> item <> 0 ->
  nowait st = true -> pfx (rheight st) idx = 0 \/ rnode st = 0 ->
  exists e st', radix_tree_preload kmem_cache_alloc mask st = Some (e, st') /\ rep st' m tg /\
    (e = - ENOMEM \/
     e = 0 /\ exists e' st'', radix_tree_insert kmem_cache_alloc' idx item st' = Some (e', st'') /\
       ((e' = 0 /\ rep st'' (<[idx := item]> m) tg) \/ (e' = - EEXIST /\ is_Some (m !! idx) /\ rep st'' m tg))).
Proof.
  intros Ha Ha' Hrep Hi Pv Nv Hn Hs.
  destruct (preload_eq kmem_cache_alloc mask m tg (S (Z.to_nat RADIX_TREE_MAX_PATH)) Ha st Hrep) as (e & st' & E & Hrep' & Hr & He).
  { change (Z.to_nat RADIX_TREE_MAX_PATH) with 6%nat. pose proof (zlen_nonneg (pool st)). lia. }
  exists e, st'. split; [exact E|]. split; [done|]. destruct He as [[-> Hp]| ->]; [right|by left]. split; [done|].
  destruct Hrep' as (T & H & HT). destruct (radix_insert_eq _ Ha' tg idx item Hi Pv Nv st' T H) as (e & st'' & T' & E' & H' & _ & _ & Hins).
  exists e, st''. split; [done|]. destruct Hr as (R1 & R2 & R3 & _). destruct Hins as [(-> & E0 & Hx)|[(-> & E0 & Hx)|(-> & Hx & Hlt)]].
  - left. split; [done|]. apply (rep_of _ _ _ T'); [done|]. apply (items_insert m T); done || lia.
  - right. split; [done|]. split; [|apply (rep_of _ _ _ T'); [done|by apply (items_same m T)]].
    rewrite (items_none m T idx HT) in E0 by lia. by apply not_eq_None_Some.
  - exfalso. unfold nowait, enough in *. rewrite R1, R2, R3 in Hlt. specialize (Hlt Hn).
    assert ((pfx (rheight st) idx =? 0) || (rnode st =? 0) = true) as Eb by (destruct Hs as [-> | ->]; [done|apply orb_true_r]). rewrite Eb in Hlt.
    lia.
Qed.

(** *** Examples *)
(** An allocator that always has a node, and one that never has. *)
Definition next_node (mask : Z) (ns : gmap Z radix_tree_node) : option (Z * Z) :=
  let p := 2 * (1 + foldr Z.max 0 (elements (dom ns))) in if p <? 2 ^ 32 then Some (p, 0) else None.
Definition no_node (mask : Z) (ns : gmap Z radix_tree_node) : option (Z * Z) := None.
Lemma next_node_ok : alloc_ok next_node.
Proof.
  intros mask ns p stale. unfold next_node. set (b := foldr Z.max 0 (elements (dom ns))).
  assert (0 <= b /\ forall q, q ∈ elements (dom ns) -> q <= b) as [Hb Hq].
  { unfold b. induction (elements (dom ns)) as [|q l IH]; [split; [done|]; intros q Hq; by apply elem_of_nil in Hq|]. cbn [foldr].
    destruct IH as [I1 I2].
    split; [lia|]. intros q' [->|Hq]%elem_of_cons; [lia|]. specialize (I2 q' Hq). lia. }
  case_if E; b2p; [|done]. intros [= <- _]. split; [|split; [lia|split; [|lia]]].
  - apply not_elem_of_dom. intros Hin%elem_of_elements. specialize (Hq _ Hin). lia.
  - rewrite Z.mul_comm. apply Z.mod_mul. lia.
Qed.
Lemma no_node_ok : alloc_ok no_node.
Proof. by intros mask ns p stale. Qed.

(** A tree with one item below two nodes. *)
Definition sample_state : state :=
  match (INIT_RADIX_TREE 0 ;; radix_tree_insert next_node 70 12) (State 0 0 0 ∅ [] []) with
  | Some (_, st) => st
  | None => State 0 0 0 ∅ [] []
  end.
Lemma sample_rep : rep sample_state (<[70 := 12]> ∅) (fun _ => ∅).
Proof.
  destruct (rep_init 0 ltac:(lia)) as (st & E & (T & H & HT) & _). unfold sample_state. rewrite (bind_Some _ _ _ _ _ E).
  destruct (radix_insert_eq next_node next_node_ok (fun _ => ∅) 70 12 ltac:(lia) ltac:(done) ltac:(lia) st T H) as (e & st' & T' & E' & H' & _ & _ & Hr).
  rewrite E'. injection E as <-. vm_compute in E'. injection E' as <- _.
  destruct Hr as [(_ & _ & Hx)|[(Hbad & _)|(Hbad & _)]]; [|discriminate Hbad..].
  apply (rep_of _ _ _ T'); [done|]. apply (items_insert ∅ T); done || lia.
Qed.

Lemma radix_tree_insert_correct_witness : exists st e st', INIT_RADIX_TREE 0 (State 0 0 0 ∅ [] []) = Some (tt, st) /\
  radix_tree_insert next_node 4294967295 12 st = Some (e, st') /\ e = 0 /\ rep st' (<[4294967295 := 12]> ∅) (fun _ => ∅).
Proof.
  destruct (rep_init 0 ltac:(lia)) as (st & E & Hrep & _).
  destruct (radix_tree_insert_correct next_node st ∅ (fun _ => ∅) 4294967295 12 next_node_ok Hrep ltac:(lia) ltac:(done) ltac:(lia)) as (e & st' & E' & Hr).
  exists st, e, st'. split; [exact E|]. split; [exact E'|]. injection E as <-. vm_compute in E'. injection E' as <- Est.
  destruct Hr as [(_ & _ & Hr)|[(Hbad & _)|(Hbad & _)]]; [|discriminate Hbad..]. split; [reflexivity|exact Hr].
Defined.

Lemma radix_tree_preload_correct_witness : exists st st' e st'', radix_tree_preload next_node 0 st = Some (0, st') /\
  radix_tree_insert no_node 4294967295 12 st' = Some (e, st'') /\ e = 0.
Proof.
  destruct (rep_init 0 ltac:(lia)) as (st & E & Hrep & _). injection E as <-.
  destruct (radix_tree_preload_correct next_node no_node 0 _ ∅ (fun _ => ∅) 4294967295 12 next_node_ok no_node_ok Hrep ltac:(lia) ltac:(done) ltac:(lia) eq_refl ltac:(by right))
    as (e & st' & E' & _ & [Hbad|(-> & e' & st'' & E'' & Hr)]).
  - subst e. vm_compute in E'. discriminate E'.
  - eexists _, st', e', st''. split; [exact E'|]. split; [exact E''|].
    destruct Hr as [[Hr _]|(_ & [v Hv] & _)]; [exact Hr|by rewrite lookup_empty in Hv].
Defined.

(** With the item at index 0 in the tree, the insertion at the last index fails
    after a successful [radix_tree_preload]: the pool holds six nodes and eleven
    are needed. *)
Example radix_tree_preload_short :
  option_map fst ((INIT_RADIX_TREE 0 ;; let* e0 := radix_tree_insert no_node 0 8 in let* e1 := radix_tree_preload next_node 0 in
    let* e2 := radix_tree_insert no_node 4294967295 12 in ret (e0, e1, e2)) (State 0 0 0 ∅ [] [])) = Some (0, 0, - ENOMEM).
Proof. vm_compute. reflexivity. Qed.
