(* ===== verification/RadixTag.v ===== *)
(** * Radix trees: tags and deletion

    The part of [lib/radix-tree.c] that sets and clears the tags of an index, from
    the root to the lowest node and back, and that deletes an item, frees the nodes
    that become empty and shrinks the tree.  Freed nodes go through
    [radix_tree_node_rcu_free] after a grace period and are zero when they return
    to the slab cache. *)

From Stdlib Require Import ZArith Lia.
From stdpp Require Import base tactics numbers list gmap option.
From S2P Require Import Prelude RadixTree RadixInsert.

(** ** Tags of an index *)
Definition tag_set_once (p tag offset : Z) : R unit :=
  let* b := tag_get p tag offset in if negb b then tag_set p tag offset else ret tt.
Definition tag_set_round (idx tag : Z) : Z * Z * Z -> R (Z * Z * Z + Z) := fun '(slot, shift, height) =>
  if 0 <? height then
    let offset := Z.land (Z.shiftr idx shift) RADIX_TREE_MAP_MASK in
    tag_set_once slot tag offset ;;
    let* slot := get_slot slot offset in
    BUG_ON (slot =? 0) ;;
    ret (inl (slot, u32 (shift - RADIX_TREE_MAP_SHIFT), height - 1))
  else ret (inr slot).
Definition radix_tree_tag_set (idx tag : Z) : R Z :=
  let* st := get in
  let height := rheight st in
  let* m := radix_tree_maxindex height in
  BUG_ON (m <? idx) ;;
  let* slot := while (S (Z.to_nat RADIX_TREE_MAX_PATH)) (tag_set_round idx tag)
    (radix_tree_indirect_to_ptr (rnode st), u32 ((height - 1) * RADIX_TREE_MAP_SHIFT), height) in
  (if negb (slot =? 0) then
     let* b := root_tag_get tag in
     if negb b then root_tag_set tag else ret tt
   else ret tt) ;;
  ret slot.

(** The way down with the path, the lowest node first; [None] when it ends early. *)
Definition path_round (idx : Z) : Z * list (Z * Z) * Z * Z -> R (Z * list (Z * Z) * Z * Z + option (Z * list (Z * Z))) :=
  fun '(slot, path, shift, height) =>
  if 0 <? height then
    if slot =? 0 then ret (inr None) else
    let offset := Z.land (Z.shiftr idx shift) RADIX_TREE_MAP_MASK in
    let path := (slot, offset) :: path in
    let* slot := get_slot slot offset in
    ret (inl (slot, path, u32 (shift - RADIX_TREE_MAP_SHIFT), height - 1))
  else ret (inr (if slot =? 0 then None else Some (slot, path))).
Definition find_path (idx slot height : Z) : R (option (Z * list (Z * Z))) :=
  while (S (Z.to_nat RADIX_TREE_MAX_PATH)) (path_round idx) (slot, [], u32 ((height - 1) * RADIX_TREE_MAP_SHIFT), height).

(** Back up the path. *)
Fixpoint clear_up (tag : Z) (path : list (Z * Z)) : R unit :=
  match path with
  | [] => let* b := root_tag_get tag in if b then root_tag_clear tag else ret tt
  | (node, offset) :: path =>
      let* b := tag_get node tag offset in
      if negb b then ret tt else
      tag_clear node tag offset ;;
      let* any := any_tag_set node tag in
      if any then ret tt else clear_up tag path
  end.
Definition radix_tree_tag_clear (idx tag : Z) : R Z :=
  let* st := get in
  let height := rheight st in
  let* m := radix_tree_maxindex height in
  if m <? idx then ret 0 else
  let* r := find_path idx (radix_tree_indirect_to_ptr (rnode st)) height in
  match r with
  | None => ret 0
  | Some (slot, path) => clear_up tag path ;; ret slot
  end.
Definition radix_tree_tagged (tag : Z) : R bool := root_tag_get tag.

(** ** Freeing nodes *)
Definition radix_tree_node_free (p : Z) : R unit := let* st := get in set_rcu (rcu st ++ [p]).
(** What the node holds when it goes back to the cache. *)
Definition radix_tree_node_rcu_free (p : Z) : R radix_tree_node :=
  tag_clear p 0 0 ;;
  tag_clear p 1 0 ;;
  put_slot p 0 0 ;;
  put_count p 0 ;;
  let* nd := get_node p in
  let* st := get in
  set_nodes (delete p (nodes st)) ;;
  ret nd.
(** The end of a grace period: the first of the waiting nodes is freed. *)
Definition rcu_callback : R (option radix_tree_node) :=
  let* st := get in
  match rcu st with
  | [] => ret None
  | p :: rest => set_rcu rest ;; let* nd := radix_tree_node_rcu_free p in ret (Some nd)
  end.

(** A processor is gone: the nodes of its pool go back to the cache. *)
Definition CPU_DEAD : Z := 0x7.
Definition CPU_DEAD_FROZEN : Z := Z.lor CPU_DEAD 0x10.
Definition drain_round (freed : list radix_tree_node) : R (list radix_tree_node + list radix_tree_node) :=
  let* st := get in
  match pool st with
  | [] => ret (inr freed)
  | p :: rest =>
      let* nd := get_node p in
      set_nodes (delete p (nodes st)) ;;
      set_pool rest ;;
      ret (inl (freed ++ [nd]))
  end.
Definition radix_tree_callback (action : Z) : R (list radix_tree_node) :=
  if (action =? CPU_DEAD) || (action =? CPU_DEAD_FROZEN) then
    let* st := get in while (S (length (pool st))) drain_round []
  else ret [].

(** ** Deletion *)
Definition shrink_round (_ : unit) : R (unit + unit) :=
  let* st := get in
  if 0 <? rheight st then
    let to_free := rnode st in
    BUG_ON (negb (radix_tree_is_indirect_ptr to_free)) ;;
    let to_free := radix_tree_indirect_to_ptr to_free in
    let* nd := get_node to_free in
    if negb (ncount nd =? 1) then ret (inr tt) else
    let* newptr := get_slot to_free 0 in
    if newptr =? 0 then ret (inr tt) else
    let newptr := if 1 <? rheight st then radix_tree_ptr_to_indirect newptr else newptr in
    set_rnode newptr ;;
    set_height (u32 (rheight st - 1)) ;;
    radix_tree_node_free to_free ;;
    ret (inl tt)
  else ret (inr tt).
Definition radix_tree_shrink : R unit := while (S (Z.to_nat RADIX_TREE_MAX_PATH)) shrink_round tt.

Fixpoint delete_up (path : list (Z * Z)) (to_free : Z) : R unit :=
  match path with
  | [] =>
      root_tag_clear_all ;;
      set_height 0 ;;
      set_rnode 0 ;;
      if negb (to_free =? 0) then radix_tree_node_free to_free else ret tt
  | (node, offset) :: path =>
      put_slot node offset 0 ;;
      let* nd := get_node node in
      put_count node (u32 (ncount nd - 1)) ;;
      (if negb (to_free =? 0) then radix_tree_node_free to_free else ret tt) ;;
      let* nd := get_node node in
      if negb (ncount nd =? 0) then
        let* st := get in
        if node =? radix_tree_indirect_to_ptr (rnode st) then radix_tree_shrink else ret tt
      else delete_up path node
  end.

(** The tags of the item. *)
Definition delete_tags (idx node offset : Z) : R unit :=
  for_ (Z.to_nat RADIX_TREE_MAX_TAGS) 0 (fun tag =>
    let* b := tag_get node tag offset in
    if b then radix_tree_tag_clear idx tag ;; ret tt else ret tt).

Definition radix_tree_delete (idx : Z) : R Z :=
  let* st := get in
  let height := rheight st in
  let* m := radix_tree_maxindex height in
  if m <? idx then ret 0 else
  let slot := rnode st in
  if height =? 0 then root_tag_clear_all ;; set_rnode 0 ;; ret slot
  else
    let* r := find_path idx (radix_tree_indirect_to_ptr slot) height in
    match r with
    | None => ret 0
    | Some (slot, path) =>
        match path with
        | [] => fault
        | (node, offset) :: _ =>
            delete_tags idx node offset ;;
            delete_up path 0 ;;
            ret slot
        end
    end.

(** ** Sets of tagged indices *)
Definition tg_add (tg : Z -> gset Z) (tag idx : Z) : Z -> gset Z := fun t => if t =? tag then {[idx]} ∪ tg t else tg t.
Definition tg_del (tg : Z -> gset Z) (tag idx : Z) : Z -> gset Z := fun t => if t =? tag then tg t ∖ {[idx]} else tg t.

Lemma elem_tg_add tg tag idx t i : i ∈ tg_add tg tag idx t <-> i ∈ tg t \/ (t = tag /\ i = idx).
Proof. unfold tg_add. destruct (Z.eqb_spec t tag); set_solver. Qed.
Lemma elem_tg_del tg tag idx t i : i ∈ tg_del tg tag idx t <-> i ∈ tg t /\ ~ (t = tag /\ i = idx).
Proof. unfold tg_del. destruct (Z.eqb_spec t tag); set_solver. Qed.
Lemma covers_add tg tag idx t k y : covers (tg_add tg tag idx) t k y <-> covers tg t k y \/ (t = tag /\ y = pfx k idx).
Proof. unfold covers. setoid_rewrite elem_tg_add. naive_solver. Qed.
Lemma covers_del tg tag idx t k y : covers (tg_del tg tag idx) t k y <-> exists i, i ∈ tg t /\ ~ (t = tag /\ i = idx) /\ pfx k i = y.
Proof. unfold covers. setoid_rewrite elem_tg_del. naive_solver. Qed.
(** Away from the path of an index nothing changes. *)
Lemma covers_del_off tg tag idx t k y : pfx k idx <> y \/ t <> tag -> covers (tg_del tg tag idx) t k y <-> covers tg t k y.
Proof. intros Hne. rewrite covers_del. unfold covers. split; [naive_solver|]. intros (i & Hi & E). exists i. naive_solver. Qed.
Lemma covers_up tg t k y : 0 <= k -> covers tg t k y -> covers tg t (k + 1) (y / 64).
Proof. intros Hk (i & Hi & <-). exists i. split; [done|]. by apply pfx_S. Qed.
Lemma covers_down tg t k x : 1 <= k -> (forall i, i ∈ tg t -> 0 <= i) -> covers tg t k x <-> exists j, 0 <= j < 64 /\ covers tg t (k - 1) (64 * x + j).
Proof.
  intros Hk Hpos. split.
  - intros (i & Hi & E). exists (pfx (k - 1) i mod 64). split; [dlia|]. exists i. split; [done|]. rewrite <- E. by apply pfx_down.
  - intros (j & Hj & i & Hi & E). exists i. split; [done|]. rewrite (pfx_up k i _ Hk E). dlia.
Qed.

Lemma struct_retag h ns T tg ns' tg' : struct_ok h ns T tg ->
  (forall k x nd, 1 <= k <= h -> 0 <= x -> T k x <> 0 -> ns !! T k x = Some nd -> node_ok T tg k x nd ->
    exists nd', ns' !! T k x = Some nd' /\ node_ok T tg' k x nd') ->
  (forall tag idx, 0 <= tag < 2 -> idx ∈ tg' tag -> 0 <= idx /\ T 0 idx <> 0) -> struct_ok h ns' T tg'.
Proof.
  intros [B1 B2 B3 B4 B5 B6 B7 B8 B9] Hn Ht. split; try done. intros k x Hk Hx N. destruct (B2 k x Hk Hx N) as (nd & En & Hnd). by apply (Hn k x nd).
Qed.

(** ** The path of an index *)
Section ThePath.
Context (h : Z) (ns : gmap Z radix_tree_node) (T : Z -> Z -> Z) (tg : Z -> gset Z) (H : struct_ok h ns T tg).
Context (idx : Z) (Hi : 0 <= idx) (Hitem : T 0 idx <> 0).

Definition step_of (k : Z) : Z * Z := (T k (pfx k idx), pfx (k - 1) idx mod 64).
Definition path_from (k : Z) : list (Z * Z) := step_of <$> seqZ k (h - k + 1).
Definition on_path (k p : Z) : Prop := exists j, k <= j <= h /\ p = T j (pfx j idx).

Lemma path_from_cons k : 1 <= k <= h -> path_from k = step_of k :: path_from (k + 1).
Proof using. intros Hk. unfold path_from. rewrite seqZ_cons by lia. rewrite fmap_cons. do 3 f_equal. lia. Qed.
Lemma path_from_nil : path_from (h + 1) = [].
Proof using. unfold path_from. replace (h - (h + 1) + 1) with 0 by lia. done. Qed.
Lemma path_nonzero k : 0 <= k <= h -> T k (pfx k idx) <> 0.
Proof using H Hi Hitem. intros Hk E. apply Hitem. rewrite <- (pfx_0 idx). apply (below_none _ _ _ _ H idx Hi k); [lia..|done]. Qed.
Lemma path_inj k k' : 1 <= k <= h -> 1 <= k' <= h -> T k (pfx k idx) = T k' (pfx k' idx) -> k = k'.
Proof using H Hi Hitem.
  intros Hk Hk' E. apply (s_inj _ _ _ _ H k (pfx k idx) k' (pfx k' idx)); try lia; try done; try (apply pfx_nonneg; lia). apply path_nonzero. lia.
Qed.
(** The place of a node of the tree is on the path or the node is none of it. *)
Lemma off_path k x j : 1 <= k <= h -> 0 <= x -> T k x <> 0 -> 1 <= j -> x <> pfx k idx \/ k < j -> ~ on_path j (T k x).
Proof using H Hi Hitem.
  intros Hk Hx N Hj Hne (j' & Hj' & E). destruct (s_inj _ _ _ _ H k x j' (pfx j' idx)) as [-> ->]; try lia; try done. apply pfx_nonneg; lia.
Qed.
End ThePath.

Lemma find_path_eq st T tg spare idx : tree_ok st T tg spare -> 0 <= idx < 2 ^ 32 -> pfx (rheight st) idx = 0 ->
  find_path idx (T (rheight st) 0) (rheight st) st =
    Some (if T 0 idx =? 0 then None else Some (T 0 idx, path_from (rheight st) T idx 1), st).
Proof.
  intros H Hi Hz. unfold find_path. pose proof (s_height _ _ _ _ (t_struct _ _ _ _ H)) as Hh.
  assert (forall k fuel, 0 <= k <= rheight st -> (Z.to_nat k < fuel)%nat ->
    while fuel (path_round idx) (T k (pfx k idx), path_from (rheight st) T idx (k + 1), u32 ((k - 1) * RADIX_TREE_MAP_SHIFT), k) st =
      Some (if T 0 idx =? 0 then None else Some (T 0 idx, path_from (rheight st) T idx 1), st)) as Hloop.
  { intros k fuel Hk. revert fuel. destruct Hk as [Hk Hkh]. revert Hkh. pattern k. apply natlike_ind; [| |done]; clear k Hk.
    - intros _ [|fuel] Hf; [lia|]. rewrite while_S. unfold path_round. cbn [Z.ltb Z.compare]. run_ret. rewrite pfx_0. done.
    - intros k Hk IH Hkh [|fuel] Hf; [lia|]. unfold Z.succ in *. rewrite while_S. unfold path_round at 1. rewrite ltb_t by lia.
      destruct (Z.eqb_spec (T (k + 1) (pfx (k + 1) idx)) 0) as [E|E].
      + run_ret. assert (T 0 idx = 0) as ->; [|done]. rewrite <- (pfx_0 idx).
        apply (below_none _ _ _ _ (t_struct _ _ _ _ H) idx ltac:(lia) (k + 1)); [lia..|done].
      + destruct (path_node _ _ _ _ (t_struct _ _ _ _ H) idx ltac:(lia) (k + 1) ltac:(lia) E) as (nd & En & Hn & Es). rewrite offset_eq by lia.
        run (get_slot_eq st _ nd En (n_shape _ _ _ _ _ Hn) (pfx (k + 1 - 1) idx mod 64) ltac:(dlia)). rewrite Es, shift_step. run_ret. cbn [bind].
        replace (k + 1 - 1) with k by lia. rewrite <- (IH ltac:(lia) fuel ltac:(lia)). rewrite (path_from_cons (rheight st) T idx (k + 1)) by lia.
        unfold step_of.
        replace (k + 1 - 1) with k by lia. done. }
  specialize (Hloop (rheight st) (S (Z.to_nat RADIX_TREE_MAX_PATH)) ltac:(lia)). rewrite path_from_nil, Hz in Hloop. apply Hloop.
  change (Z.to_nat RADIX_TREE_MAX_PATH) with 6%nat. lia.
Qed.

(** A change of tags along a path. *)
Lemma tree_retag st T tg spare idx tg' ns' g : tree_ok st T tg spare -> 0 <= idx -> T 0 idx <> 0 ->
  (forall p, (forall j, 1 <= j <= rheight st -> p <> T j (pfx j idx)) -> ns' !! p = nodes st !! p) ->
  (forall j, 1 <= j <= rheight st -> exists nd', ns' !! T j (pfx j idx) = Some nd' /\ node_ok T tg' j (pfx j idx) nd') ->
  (forall k x nd, 1 <= k -> x <> pfx k idx -> node_ok T tg k x nd -> node_ok T tg' k x nd) ->
  (forall tag i, 0 <= tag < 2 -> i ∈ tg' tag -> 0 <= i /\ T 0 i <> 0) ->
  0 <= g < 2 ^ 23 -> (forall t, 0 <= t < 2 -> Z.testbit g (t + 21) = true <-> exists i, i ∈ tg' t) ->
  tree_ok (State (rheight st) g (rnode st) ns' (pool st) (rcu st)) T tg' spare.
Proof.
  intros [HS HR HO] Hi Hitem Hother Hpath Hoff Htag Hg Hbits. split; cbn [rheight nodes gfp_mask rnode pool rcu].
  - apply (struct_retag _ (nodes st) T tg); [done| |done]. intros k x nd Hk Hx N En Hn.
    destruct (Z.eq_dec x (pfx k idx)) as [->|Nx]; [by apply Hpath|]. exists nd. split; [|by apply Hoff; try lia].
    rewrite Hother; [done|]. intros j Hj E. destruct (s_inj _ _ _ _ HS k x j (pfx j idx)) as [-> ->]; try lia; try done. apply pfx_nonneg; lia.
  - destruct HR as [R1 R2 R3]. by split.
  - apply (own_frame (nodes st) (in_tree T)); [done|done|..].
    + intros p Hp. apply Hother. intros j Hj ->. destruct (o_other _ _ _ _ _ HO _ Hp) as (_ & _ & Hno). apply Hno.
      split; [apply (path_nonzero _ _ _ _ HS idx); lia || done|].
      exists j, (pfx j idx). repeat split; [lia|apply pfx_nonneg; lia].
    + intros p Hp. destruct (decide (Exists (fun j => p = T j (pfx j idx)) (seqZ 1 (rheight st)))) as [He|He].
      * apply list.Exists_exists in He as (j & Hj%elem_of_seqZ & ->).
        destruct (path_node _ _ _ _ HS idx ltac:(lia) j ltac:(lia)) as (nd & -> & _); [apply (path_nonzero _ _ _ _ HS idx); lia || done|eauto].
      * rewrite Hother in Hp; [done|]. intros j Hj E. apply He, list.Exists_exists. exists j. split; [apply elem_of_seqZ; lia|done].
Qed.
(** Only the members of the sets matter. *)
Lemma tree_ok_ext st T tg tg' spare : tree_ok st T tg spare -> (forall t i, 0 <= t < 2 -> i ∈ tg' t <-> i ∈ tg t) -> tree_ok st T tg' spare.
Proof.
  intros [HS [R1 R2 R3] HO] He. split; [|split; try done|done].
  - apply (struct_retag _ (nodes st) T tg); [done|..].
    + intros k x nd Hk Hx N En [S1 S2 S3 S4 S5]. exists nd. split; [done|]. split; try done. intros tag i Ht Hi. rewrite S5 by done.
      unfold covers. split; intros (j & Hj & E); exists j; (split; [by apply He|done]).
    + intros tag i Ht Hi. apply (s_tagged _ _ _ _ HS tag); [done|]. by apply He.
  - intros tag Ht. rewrite R3 by done. split; intros (i & Hi); exists i; by apply He.
Qed.

(** ** Setting a tag *)
Section SetTag.
Context (st : state) (T : Z -> Z -> Z) (tg : Z -> gset Z) (spare : list Z) (H : tree_ok st T tg spare).
Context (idx tag : Z) (Hi : 0 <= idx < 2 ^ 32) (Ht : 0 <= tag < 2) (Hitem : T 0 idx <> 0).
Let HS : struct_ok (rheight st) (nodes st) T tg := t_struct _ _ _ _ H.

Lemma node_add k nd nd' : 1 <= k -> node_ok T tg k (pfx k idx) nd -> tag_changed nd nd' tag (pfx (k - 1) idx mod 64) true ->
  node_ok T (tg_add tg tag idx) k (pfx k idx) nd'.
Proof using Hi Ht.
  intros Hk [S1 S2 S3 S4 S5] [C1 C2 C3 C4 C5]. split; [done|congruence|rewrite C4; done|congruence|].
  intros t j Ht' Hj. rewrite C5, covers_add by done. pose proof (pfx_down k idx Hk) as Ed. rewrite <- (S5 t j Ht' Hj).
  destruct (Z.eqb_spec t tag) as [->|Nt], (Z.eqb_spec j (pfx (k - 1) idx mod 64)) as [->|Nj]; cbn [andb].
  - split; [|done]. intros _. right. split; [done|]. by rewrite <- Ed.
  - split; [by left|]. intros [?|[_ E]]; [done|]. rewrite Ed in E. lia.
  - split; [by left|]. by intros [?|[? _]].
  - split; [by left|]. by intros [?|[? _]].
Qed.
Lemma node_add_off k x nd : 1 <= k -> x <> pfx k idx -> node_ok T tg k x nd -> node_ok T (tg_add tg tag idx) k x nd.
Proof using Hi Ht.
  intros Hk Hx [S1 S2 S3 S4 S5]. split; try done. intros t j Ht' Hj. rewrite covers_add, (S5 t j Ht' Hj). split; [by left|].
  intros [?|[_ E]]; [done|]. destruct Hx. rewrite (pfx_up k idx _ Hk (eq_sym E)). dlia.
Qed.

Lemma set_bit st' p nd i : nodes st' !! p = Some nd -> shape nd -> 0 <= i < 64 -> exists nd',
  tag_set_once p tag i st' = Some (tt, with_nodes st' (<[p := nd']> (nodes st'))) /\ tag_changed nd nd' tag i true.
Proof using Ht.
  clear Hi. intros En Sh Hi. unfold tag_set_once. run (tag_get_eq st' p nd En Sh tag i Ht Hi).
  destruct (tagbit nd tag i) eqn:E; cbn [negb]; [|by apply RadixTree.tag_set_eq].
  exists nd. rewrite insert_id, with_nodes_id by done. split; [done|]. split; try done. intros t j _ _.
  destruct (Z.eqb_spec t tag) as [->|], (Z.eqb_spec j i) as [->|]; done.
Qed.

Lemma set_loop k : 0 <= k -> forall fuel st', k <= rheight st -> (Z.to_nat k < fuel)%nat ->
  (forall j, 1 <= j <= k -> nodes st' !! T j (pfx j idx) = nodes st !! T j (pfx j idx)) ->
  exists ns', while fuel (tag_set_round idx tag) (T k (pfx k idx), u32 ((k - 1) * RADIX_TREE_MAP_SHIFT), k) st' = Some (T 0 idx, with_nodes st' ns') /\
    (forall p, (forall j, 1 <= j <= k -> p <> T j (pfx j idx)) -> ns' !! p = nodes st' !! p) /\
    (forall j, 1 <= j <= k -> exists nd', ns' !! T j (pfx j idx) = Some nd' /\ node_ok T (tg_add tg tag idx) j (pfx j idx) nd').
Proof using All.
  intros Hk. pattern k. apply natlike_ind; [| |done]; clear k Hk.
  - intros [|fuel] st' _ Hf _; [lia|]. rewrite while_S. unfold tag_set_round. cbn [Z.ltb Z.compare]. run_ret. rewrite pfx_0. exists (nodes st').
    rewrite with_nodes_id.
    split; [done|]. split; [done|]. intros j Hj. lia.
  - intros k Hk IH [|fuel] st' Hh Hf Hsame; [lia|]. unfold Z.succ in *. pose proof (s_height _ _ _ _ HS) as H6.
    rewrite while_S. unfold tag_set_round at 1. rewrite ltb_t by lia. rewrite offset_eq by lia. rewrite shift_step. replace (k + 1 - 1) with k by lia.
    destruct (path_node _ _ _ _ HS idx ltac:(lia) (k + 1) ltac:(lia) ltac:(apply (path_nonzero _ _ _ _ HS idx); lia || done)) as (nd & En & Hn & Es).
    replace (k + 1 - 1) with k in Es by lia. set (P := T (k + 1) (pfx (k + 1) idx)) in *.
    destruct (set_bit st' P nd (pfx k idx mod 64)) as (nd' & E1 & Hc); [unfold P; rewrite Hsame by lia; exact En|apply Hn|dlia|].
    run E1. set (st1 := with_nodes st' (<[P := nd']> (nodes st'))).
    assert (nodes st1 !! P = Some nd') as E2 by (cbn; by rewrite lookup_insert_eq).
    run (get_slot_eq st1 P nd' E2 (tc_shape _ _ _ _ _ Hc) (pfx k idx mod 64) ltac:(dlia)). rewrite (tc_slots _ _ _ _ _ Hc), Es.
    rewrite eqb_f by (apply (path_nonzero _ _ _ _ HS idx); lia || done). run (bug_not st1). run_ret. cbn [bind].
    assert (forall j, 1 <= j <= k -> T j (pfx j idx) <> P) as Hne.
    { intros j Hj E. apply (path_inj _ _ _ _ HS idx ltac:(lia) Hitem) in E; lia. }
    destruct (IH fuel st1 ltac:(lia) ltac:(lia)) as (ns' & E3 & Hother & Hpath).
    { intros j Hj. cbn [st1 nodes with_nodes]. rewrite lookup_insert_ne by (apply not_eq_sym; by apply Hne). apply Hsame. lia. }
    exists ns'. split; [exact E3|]. split.
    + intros p Hp. rewrite Hother by (intros j Hj; apply Hp; lia). cbn [st1 nodes with_nodes]. apply lookup_insert_ne, not_eq_sym, Hp. lia.
    + intros j Hj. destruct (Z.eq_dec j (k + 1)) as [->|]; [|apply Hpath; lia]. exists nd'. fold P. split.
      * rewrite Hother by (intros j' Hj'; apply not_eq_sym; by apply Hne). exact E2.
      * apply (node_add (k + 1) nd); [lia|done|]. by replace (k + 1 - 1) with k by lia.
Qed.

Lemma root_tag_set_eq st' : root_tag_set tag st' = Some (tt, State (rheight st') (Z.lor (gfp_mask st') (2 ^ (tag + 21))) (rnode st') (nodes st') (pool st') (rcu st')).
Proof using. unfold root_tag_set. run (get_eq st'). unfold root_tag_bit, __GFP_BITS_SHIFT. by rewrite Z.shiftl_1_l. Qed.
Lemma testbit_set m t : 0 <= t -> Z.testbit (Z.lor m (2 ^ (tag + 21))) (t + 21) = Z.testbit m (t + 21) || (t =? tag).
Proof using Ht.
  clear Hi. intros Ht'. rewrite Z.lor_spec, Z.pow2_bits_eqb by lia. f_equal.
  destruct (Z.eqb_spec (tag + 21) (t + 21)), (Z.eqb_spec t tag); lia || done.
Qed.

Lemma index_tag_set_eq : exists st', radix_tree_tag_set idx tag st = Some (T 0 idx, st') /\ tree_ok st' T (tg_add tg tag idx) spare /\
  rheight st' = rheight st /\ pool st' = pool st /\ rcu st' = rcu st.
Proof using All.
  pose proof (s_height _ _ _ _ HS) as Hh. pose proof (item_top _ _ _ _ HS idx ltac:(lia) Hitem) as Hz.
  unfold radix_tree_tag_set. run (get_eq st). run (maxindex_eq (rheight st) st Hh). rewrite above_max, Hz by done. cbn [Z.eqb negb]. run (bug_not st).
  rewrite (rnode_ptr st T tg spare H).
  destruct (set_loop (rheight st) ltac:(lia) (S (Z.to_nat RADIX_TREE_MAX_PATH)) st ltac:(lia)) as (ns' & E1 & Hother & Hpath); [change (Z.to_nat RADIX_TREE_MAX_PATH) with 6%nat; lia|done|].
  rewrite Hz in E1. run E1. rewrite eqb_f by done. cbn [negb]. set (st1 := with_nodes st ns').
  set (st2 := State (rheight st) (Z.lor (gfp_mask st) (2 ^ (tag + 21))) (rnode st) ns' (pool st) (rcu st)).
  assert ((let* b := root_tag_get tag in if negb b then root_tag_set tag else ret tt) st1 = Some (tt, st2)) as E2.
  { run (root_tag_get_eq tag st1 Ht). destruct (Z.testbit (gfp_mask st1) (tag + 21)) eqn:Eb; cbn [negb]; [|apply root_tag_set_eq].
    assert (Z.lor (gfp_mask st) (2 ^ (tag + 21)) = gfp_mask st) as Em.
    { apply Z.bits_inj'. intros n Hn. rewrite Z.lor_spec, Z.pow2_bits_eqb by lia. destruct (Z.eqb_spec (tag + 21) n) as [<-|]; [|apply orb_false_r].
      cbn in Eb. rewrite Eb. done. }
    unfold st2. rewrite Em. done. }
  rewrite (bind_Some _ _ _ _ _ E2). exists st2. split; [done|]. split; [|done]. destruct (t_root _ _ _ _ H) as [_ R2 R3].
  apply (tree_retag st T tg spare idx); try done; try lia.
  - intros k x nd Hk Nx Hn. by apply node_add_off.
  - intros t i Ht'. rewrite elem_tg_add. intros [Hin|[-> ->]]; [by apply (s_tagged _ _ _ _ HS t)|]. split; [lia|done].
  - change (2 ^ 23) with 8388608 in *. pose proof (uint_lor 23 (gfp_mask st) (2 ^ (tag + 21)) ltac:(lia)) as Hu. unfold uint in Hu.
    change (2 ^ 23) with 8388608 in Hu.
    apply Hu; [done|]. split; [apply Z.pow_nonneg; lia|]. change 8388608 with (2 ^ 23). apply Z.pow_lt_mono_r; lia.
  - intros t Ht'. rewrite testbit_set by lia. setoid_rewrite elem_tg_add. rewrite orb_true_iff, R3 by done. destruct (Z.eqb_spec t tag) as [->|].
    + split; [intros _; exists idx; by right|intros _; by right].
    + split; [intros [(i & ?)|?]; [exists i; by left|done]|]. intros (i & [?|[? _]]); [left; eauto|done].
Qed.
End SetTag.

(** ** Clearing a tag *)
Lemma pfx_mono k j a b : 0 <= k <= j -> pfx k a = pfx k b -> pfx j a = pfx j b.
Proof.
  intros Hk E. unfold pfx in *. replace j with (k + (j - k)) by lia. pose proof (pow64 k). pose proof (pow64 (j - k)).
  rewrite Z.pow_add_r, <- !Z.div_div, E by lia. done.
Qed.
Section ClearTag.
Context (st : state) (T : Z -> Z -> Z) (tg : Z -> gset Z) (spare : list Z) (H : tree_ok st T tg spare).
Context (idx tag : Z) (Hi : 0 <= idx < 2 ^ 32) (Ht : 0 <= tag < 2) (Hitem : T 0 idx <> 0).
Let HS : struct_ok (rheight st) (nodes st) T tg := t_struct _ _ _ _ H.
Let tg' : Z -> gset Z := tg_del tg tag idx.

Lemma del_sub t k y : covers tg' t k y -> covers tg t k y.
Proof using. unfold tg'. rewrite covers_del. intros (i & ? & _ & ?). by exists i. Qed.
Lemma del_untagged t k y : idx ∉ tg tag -> covers tg t k y -> covers tg' t k y.
Proof using. intros Hn (i & Hin & E). apply covers_del. exists i. split; [done|]. split; [|done]. intros [-> ->]. done. Qed.

Lemma node_del k nd nd' : 1 <= k -> node_ok T tg k (pfx k idx) nd -> tag_changed nd nd' tag (pfx (k - 1) idx mod 64) false ->
  ~ covers tg' tag (k - 1) (pfx (k - 1) idx) -> node_ok T tg' k (pfx k idx) nd'.
Proof using Hi Ht.
  intros Hk [S1 S2 S3 S4 S5] [C1 C2 C3 C4 C5] Hno. split; [done|congruence|rewrite C4; done|congruence|].
  intros t j Ht' Hj. rewrite C5 by done. pose proof (pfx_down k idx Hk) as Ed.
  destruct (Z.eqb_spec t tag) as [->|Nt], (Z.eqb_spec j (pfx (k - 1) idx mod 64)) as [->|Nj]; cbn [andb]; rewrite ?(S5 _ _ Ht' Hj).
  - split; [done|]. rewrite <- Ed. by intros ?%Hno.
  - unfold tg'. rewrite covers_del_off; [done|]. left. lia.
  - unfold tg'. rewrite covers_del_off; [done|by right].
  - unfold tg'. rewrite covers_del_off; [done|by right].
Qed.
Lemma node_del_same k x nd : 1 <= k -> node_ok T tg k x nd ->
  x <> pfx k idx \/ idx ∉ tg tag \/ covers tg' tag (k - 1) (pfx (k - 1) idx) -> node_ok T tg' k x nd.
Proof using Hi Ht.
  intros Hk [S1 S2 S3 S4 S5] Hc. split; try done. intros t j Ht' Hj. rewrite (S5 t j Ht' Hj). split; [|apply del_sub].
  intros Hcov. destruct Hc as [Hx|[Hx|Hx]]; [|by apply del_untagged|].
  - unfold tg'. rewrite covers_del_off; [done|]. left. intros E. apply Hx. rewrite (pfx_up k idx _ Hk E). dlia.
  - destruct (decide (t = tag /\ pfx (k - 1) idx = 64 * x + j)) as [[-> <-]|Hne]; [done|]. unfold tg'. rewrite covers_del_off; [done|].
    destruct (Z.eq_dec t tag); [left; naive_solver|by right].
Qed.

(** The root tag says whether a tag is left. *)
Definition root_mask (g : Z) : Prop := 0 <= g < 2 ^ 23 /\ forall t, 0 <= t < 2 -> Z.testbit g (t + 21) = true <-> exists i, i ∈ tg' t.
Lemma root_mask_same : idx ∉ tg tag \/ (exists i, i ∈ tg' tag) -> root_mask (gfp_mask st).
Proof using H Hi Ht.
  intros Hc. destruct (t_root _ _ _ _ H) as [_ R2 R3]. split; [done|]. intros t Ht'. rewrite R3 by done. unfold tg'. split.
  - intros (i & Hin). destruct (Z.eq_dec t tag) as [->|]; [|exists i; apply elem_tg_del; naive_solver].
    destruct Hc as [Hc|Hc]; [|done]. exists i. apply elem_tg_del. split; [done|]. intros [_ ->]. done.
  - intros (i & [? _]%elem_tg_del). eauto.
Qed.
Lemma testbit_clear m t : 0 <= t -> Z.testbit (Z.land m (not32 (2 ^ (tag + 21)))) (t + 21) = Z.testbit m (t + 21) && (t + 21 <? 32) && negb (t =? tag).
Proof using Ht.
  clear Hi. intros Ht'. rewrite Z.land_spec, testbit_not32, Z.pow2_bits_eqb by lia. rewrite <- andb_assoc. do 2 f_equal. f_equal.
  destruct (Z.eqb_spec (tag + 21) (t + 21)), (Z.eqb_spec t tag); lia || done.
Qed.
Lemma root_clear_eq st' : gfp_mask st' = gfp_mask st -> (forall i, i ∉ tg' tag) -> exists g,
  (let* b := root_tag_get tag in if b then root_tag_clear tag else ret tt) st' = Some (tt, State (rheight st') g (rnode st') (nodes st') (pool st') (rcu st')) /\ root_mask g.
Proof using H Hi Ht.
  intros Eg Hno. destruct (t_root _ _ _ _ H) as [_ R2 R3]. run (root_tag_get_eq tag st' Ht). rewrite Eg.
  destruct (Z.testbit (gfp_mask st) (tag + 21)) eqn:Eb.
  - exists (Z.land (gfp_mask st) (not32 (2 ^ (tag + 21)))). split.
    { unfold root_tag_clear. run (get_eq st'). unfold root_tag_bit, __GFP_BITS_SHIFT. by rewrite Z.shiftl_1_l, Eg. }
    split; [apply (uint_land 23); [lia|done|apply (uint_nonneg 32), uint_not32]|]. intros t Ht'. rewrite testbit_clear, ltb_t, andb_true_r by lia.
    unfold tg'. setoid_rewrite elem_tg_del. rewrite andb_true_iff, R3 by done. destruct (Z.eqb_spec t tag) as [->|]; cbn [negb].
    + split; [by intros [_ ?]|]. intros (i & Hin). destruct (Hno i). by apply elem_tg_del.
    + split; [intros [(i & ?) _]; exists i; naive_solver|]. intros (i & ? & _). eauto.
  - exists (gfp_mask st). split; [rewrite <- Eg; by destruct st'|]. apply root_mask_same. left. intros Hin.
    assert (Z.testbit (gfp_mask st) (tag + 21) = true) by (apply R3; eauto). congruence.
Qed.

Lemma clear_up_eq k : 1 <= k <= rheight st + 1 -> forall st', gfp_mask st' = gfp_mask st ->
  (forall j, k <= j <= rheight st -> nodes st' !! T j (pfx j idx) = nodes st !! T j (pfx j idx)) ->
  ~ covers tg' tag (k - 1) (pfx (k - 1) idx) ->
  exists ns g, clear_up tag (path_from (rheight st) T idx k) st' = Some (tt, State (rheight st') g (rnode st') ns (pool st') (rcu st')) /\ root_mask g /\
    (forall p, (forall j, k <= j <= rheight st -> p <> T j (pfx j idx)) -> ns !! p = nodes st' !! p) /\
    (forall j, k <= j <= rheight st -> exists nd', ns !! T j (pfx j idx) = Some nd' /\ node_ok T tg' j (pfx j idx) nd').
Proof using All.
  remember (Z.to_nat (rheight st + 1 - k)) as n eqn:En. revert k En. induction n as [|n IH]; intros k En Hk st' Eg Hsame Hno.
  { assert (k = rheight st + 1) as -> by lia. rewrite path_from_nil. cbn [clear_up]. destruct (root_clear_eq st' Eg) as (g & E & Hg).
    { intros i Hin. apply Hno. replace (rheight st + 1 - 1) with (rheight st) by lia. exists i. split; [done|].
      apply elem_tg_del in Hin as [Hin _]. destruct (s_tagged _ _ _ _ HS tag i Ht Hin) as [Hp Hn].
      rewrite (item_top _ _ _ _ HS i Hp Hn), (item_top _ _ _ _ HS idx); lia || done. }
    exists (nodes st'), g. split; [exact E|]. split; [done|]. split; [done|]. intros j Hj. lia. }
  assert (k <= rheight st) as Hle by lia. rewrite path_from_cons by lia. cbn [clear_up step_of]. unfold step_of.
  set (P := T k (pfx k idx)). set (off := pfx (k - 1) idx mod 64). assert (0 <= off < 64) as Hoff by (unfold off; dlia).
  destruct (path_node _ _ _ _ HS idx ltac:(lia) k ltac:(lia) ltac:(apply (path_nonzero _ _ _ _ HS idx); lia || done)) as (nd & Ep & Hn & _).
  assert (nodes st' !! P = Some nd) as Ep' by (unfold P; rewrite Hsame by lia; exact Ep). pose proof (n_shape _ _ _ _ _ Hn) as Sh.
  run (tag_get_eq st' P nd Ep' Sh tag off Ht Hoff). destruct (tagbit nd tag off) eqn:Eb; cbn [negb].
  2:{ assert (idx ∉ tg tag) as Hun.
      { intros Hin. assert (tagbit nd tag off = true) as Eb'; [|congruence]. apply (n_tag _ _ _ _ _ Hn tag off Ht Hoff). unfold off.
        rewrite <- pfx_down by lia. by exists idx. }
      exists (nodes st'), (gfp_mask st). split; [rewrite <- Eg; by destruct st'|]. split; [apply root_mask_same; by left|]. split; [done|].
      intros j Hj.
      destruct (path_node _ _ _ _ HS idx ltac:(lia) j ltac:(lia) ltac:(apply (path_nonzero _ _ _ _ HS idx); lia || done)) as (ndj & Ej & Hj' & _).
      exists ndj. rewrite Hsame by lia. split; [done|]. apply node_del_same; [lia|done|auto]. }
  destruct (tag_clear_eq st' P nd Ep' Sh tag off Ht Hoff) as (nd' & E1 & Hc). run E1. set (st1 := with_nodes st' (<[P := nd']> (nodes st'))).
  assert (nodes st1 !! P = Some nd') as E1' by (cbn; by rewrite lookup_insert_eq).
  destruct (any_tag_set_eq st1 P nd' E1' (tc_shape _ _ _ _ _ Hc) tag Ht) as (b & E2 & Hb). run E2.
  pose proof (node_del k nd nd' ltac:(lia) Hn Hc Hno) as Hn'. fold P in Hn'.
  assert (covers tg' tag k (pfx k idx) <-> b = true) as Hcov.
  { rewrite (covers_down tg' tag k (pfx k idx) ltac:(lia)), Hb.
    - split; intros (j & Hj & Hc'); exists j; (split; [done|]); [apply (n_tag _ _ _ _ _ Hn')|apply (n_tag _ _ _ _ _ Hn') in Hc']; done.
    - intros i [Hin _]%elem_tg_del. by apply (s_tagged _ _ _ _ HS tag i Ht). }
  assert (forall j, k < j <= rheight st -> T j (pfx j idx) <> P) as Hne by (intros j Hj E; apply (path_inj _ _ _ _ HS idx ltac:(lia) Hitem) in E; lia).
  destruct b.
  - apply proj2 in Hcov. destruct (Hcov eq_refl) as (i & Hin & Epi). exists (<[P := nd']> (nodes st')), (gfp_mask st). split; [rewrite <- Eg; done|].
    split; [apply root_mask_same; right; eauto|]. split; [intros p Hp; apply lookup_insert_ne, not_eq_sym, Hp; lia|].
    intros j Hj. destruct (Z.eq_dec j k) as [->|]; [exists nd'; fold P; by rewrite lookup_insert_eq|].
    destruct (path_node _ _ _ _ HS idx ltac:(lia) j ltac:(lia) ltac:(apply (path_nonzero _ _ _ _ HS idx); lia || done)) as (ndj & Ej & Hj' & _).
    exists ndj. rewrite lookup_insert_ne by (apply not_eq_sym, Hne; lia). rewrite Hsame by lia. split; [done|]. apply node_del_same; [lia|done|].
    right. right. exists i. split; [done|]. apply (pfx_mono k); [lia|done].
  - destruct (IH (k + 1) ltac:(lia) ltac:(lia) st1 Eg) as (ns & g & E3 & Hg & Hother & Hpath).
    { intros j Hj. cbn [st1 nodes with_nodes]. rewrite lookup_insert_ne by (apply not_eq_sym, Hne; lia). apply Hsame. lia. }
    { replace (k + 1 - 1) with k by lia. rewrite Hcov. done. }
    exists ns, g. split; [exact E3|]. split; [done|]. split.
    + intros p Hp. rewrite Hother by (intros j Hj; apply Hp; lia). cbn [st1 nodes with_nodes]. apply lookup_insert_ne, not_eq_sym, Hp. lia.
    + intros j Hj. destruct (Z.eq_dec j k) as [->|]; [|apply Hpath; lia]. exists nd'. fold P. split; [|done]. rewrite Hother; [done|].
      intros j Hj'. apply not_eq_sym, Hne. lia.
Qed.
Lemma index_tag_clear_path : exists st', clear_up tag (path_from (rheight st) T idx 1) st = Some (tt, st') /\ tree_ok st' T tg' spare /\
  rheight st' = rheight st /\ rnode st' = rnode st /\ pool st' = pool st /\ rcu st' = rcu st.
Proof using All.
  pose proof (s_height _ _ _ _ HS) as Hh. destruct (clear_up_eq 1 ltac:(lia) st eq_refl ltac:(done)) as (ns & g & E & [Hg1 Hg2] & Hother & Hpath).
  { rewrite Z.sub_diag. unfold tg'. rewrite covers_del. intros (i & Hin & Hne & Ei). rewrite !pfx_0 in Ei. apply Hne. done. }
  eexists. split; [exact E|]. split; [|done]. apply (tree_retag st T tg spare idx); try done; try lia.
  - intros k x nd Hk Nx Hn. apply node_del_same; [done|done|by left].
  - intros t i Ht' [Hin _]%elem_tg_del. by apply (s_tagged _ _ _ _ HS t).
Qed.
End ClearTag.

Lemma index_tag_clear_eq st T tg spare idx tag : tree_ok st T tg spare -> 0 <= idx < 2 ^ 32 -> 0 <= tag < 2 ->
  exists st', radix_tree_tag_clear idx tag st = Some (T 0 idx, st') /\ tree_ok st' T (tg_del tg tag idx) spare /\
    rheight st' = rheight st /\ rnode st' = rnode st /\ pool st' = pool st /\ rcu st' = rcu st.
Proof.
  intros H Hi Ht. pose proof (t_struct _ _ _ _ H) as HS. pose proof (s_height _ _ _ _ HS) as Hh.
  unfold radix_tree_tag_clear. run (get_eq st). run (maxindex_eq (rheight st) st Hh). rewrite above_max by done.
  assert (T 0 idx = 0 -> tree_ok st T (tg_del tg tag idx) spare) as Hsame.
  { intros E. apply (tree_ok_ext _ _ tg); [done|]. intros t i Ht'. rewrite elem_tg_del. split; [naive_solver|]. intros Hin. split; [done|].
    intros [-> ->].
    by destruct (s_tagged _ _ _ _ HS tag idx Ht' Hin). }
  destruct (Z.eqb_spec (pfx (rheight st) idx) 0) as [Ez|Nz]; cbn [negb].
  - rewrite (rnode_ptr st T tg spare H). run (find_path_eq st T tg spare idx H Hi Ez). destruct (Z.eqb_spec (T 0 idx) 0) as [E0|E0].
    + exists st. rewrite E0. split; [done|]. split; [auto|done].
    + destruct (index_tag_clear_path st T tg spare H idx tag Hi Ht E0) as (st' & E & H' & Hr). run E. by exists st'.
  - assert (T 0 idx = 0) as E0 by (rewrite <- (pfx_0 idx); apply (out_none _ _ _ _ HS idx); lia || done). exists st. rewrite E0. split; [done|].
    split; [auto|done].
Qed.


(** ** Empty nodes *)
Lemma list_two (l : list Z) : zlen l = 2 -> l = [at_ l 0; at_ l 1].
Proof. intros E. apply at_ext; [by rewrite E|]. intros i Hi. assert (i = 0 \/ i = 1) as [-> | ->] by lia; done. Qed.
Lemma rows_two nd : shape nd -> tags nd = [row nd 0; row nd 1].
Proof.
  intros Sh. pose proof (sh_tags _ Sh) as S2. apply zget_ext; [by rewrite S2|]. intros i Hi. rewrite S2 in Hi. rewrite (row_eq nd) by done.
  assert (i = 0 \/ i = 1) as [-> | ->] by lia; done.
Qed.
Lemma row_zero nd t (f : Z -> bool) : shape nd -> 0 <= t < 2 -> (forall j, 0 <= j < 64 -> f j = false -> tagbit nd t j = false) ->
  (forall j, 0 < j -> f j = false) ->
  at_ (row nd t) 1 = 0 /\ Z.land (at_ (row nd t) 0) (not32 1) = 0 /\ (f 0 = false -> at_ (row nd t) 0 = 0).
Proof.
  intros Sh Ht Hb Hf. destruct (word_eq nd Sh t 0 Ht ltac:(lia)) as [_ U0]. destruct (word_eq nd Sh t 1 Ht ltac:(lia)) as [_ U1].
  assert (forall n, 0 <= n < 32 -> Z.testbit (at_ (row nd t) 1) n = false) as B1.
  { intros n Hn. specialize (Hb (32 + n) ltac:(lia) ltac:(apply Hf; lia)). unfold tagbit in Hb.
    assert ((32 + n) / 32 = 1) as E1 by dlia. assert ((32 + n) mod 32 = n) as E2 by dlia. by rewrite E1, E2 in Hb. }
  assert (forall n, 0 <= n < 32 -> f n = false -> Z.testbit (at_ (row nd t) 0) n = false) as B0.
  { intros n Hn Hfn. specialize (Hb n ltac:(lia) Hfn). unfold tagbit in Hb. by rewrite Z.div_small, Z.mod_small in Hb by lia. }
  split; [by apply (word_zero_iff 32)|]. split.
  - rewrite land_not1 by done. assert (at_ (row nd t) 0 / 2 = 0) as Ed; [|dlia]. rewrite <- Z.shiftr_div_pow2 with (n := 1) by lia.
    apply (word_zero_iff 32); [lia|by apply uint_shiftr|]. intros n Hn. rewrite Z.shiftr_spec by lia. destruct (decide (n + 1 < 32)).
    + apply B0; [lia|]. apply Hf. lia.
    + apply (testbit_above 32); [lia|done|lia].
  - intros F0. apply (word_zero_iff 32); [lia|done|]. intros n Hn. apply B0; [done|]. destruct (Z.eq_dec n 0) as [->|]; [done|apply Hf; lia].
Qed.
Lemma slots_zero l : zlen l = 64 -> (forall i, 0 <= i < 64 -> at_ l i = 0) -> l = replicate (Z.to_nat RADIX_TREE_MAP_SIZE) 0.
Proof. intros Hl Hz. apply at_ext; [by rewrite Hl|]. intros i Hi. rewrite at_replicate. apply Hz. lia. Qed.

(** A node without slots in use is zero but for its height. *)
Lemma empty_node h ns T tg k x nd : struct_ok h ns T tg -> 1 <= k <= h -> node_ok T tg k x nd -> ncount nd = 0 ->
  nd = zero_node k /\ forall i, 0 <= i < 64 -> T (k - 1) (64 * x + i) = 0.
Proof.
  intros HS Hk Hn Ec. pose proof Hn as [S1 S2 S3 S4 S5]. rewrite S4 in Ec.
  assert (forall i, 0 <= i < 64 -> T (k - 1) (64 * x + i) = 0) as Hz by (intros i Hi; rewrite <- S3 by done; by apply used_zero). split; [|done].
  assert (forall t, 0 <= t < 2 -> row nd t = [0; 0]) as Hr.
  { intros t Ht. destruct (row_zero nd t (fun _ => false) S1 Ht) as (A1 & _ & A3); [|done|].
    - intros j Hj _. apply not_true_iff_false. rewrite S5 by done. apply (covers_none _ _ _ _ _ _ _ HS); [done|lia|auto].
    - rewrite (list_two (row nd t)), A1, A3; [done|done|]. by apply S1. }
  destruct nd as [nh nc sl tgs]. cbn in S2, S4. subst nh nc. unfold zero_node. f_equal; [done|..].
  - apply slots_zero; [apply S1|]. intros i Hi. by apply used_zero.
  - change tgs with (tags (Node k (used sl) sl tgs)). rewrite rows_two by done. rewrite !Hr by lia. done.
Qed.
(** A node with its first slot only is zero after [radix_tree_node_rcu_free]. *)
Lemma single_node h ns T tg k x nd : struct_ok h ns T tg -> 1 <= k <= h -> node_ok T tg k x nd -> (forall i, 0 < i < 64 -> at_ (slots nd) i = 0) ->
  cleaned nd = zero_node k.
Proof.
  intros HS Hk Hn Hs. pose proof Hn as [S1 S2 S3 S4 S5].
  assert (forall t, 0 <= t < 2 -> at_ (row nd t) 1 = 0 /\ Z.land (at_ (row nd t) 0) (not32 1) = 0) as Hr.
  { intros t Ht. destruct (row_zero nd t (fun j => j =? 0) S1 Ht) as (A1 & A2 & _); [| |done].
    - intros j Hj Hj0. b2p. apply not_true_iff_false. rewrite S5 by done. apply (covers_none _ _ _ _ _ _ _ HS); [done|lia|]. rewrite <- S3 by done.
      apply Hs. lia.
    - intros j Hj. apply eqb_f. lia. }
  unfold cleaned, zero_node, nd_count, nd_slot. cbn [nheight ncount slots tags nd_tag]. rewrite S2. f_equal.
  - apply slots_zero; [rewrite zlen_upd; apply S1|]. intros i Hi. destruct (Z.eq_dec i 0) as [->|]; [apply at_upd_eq; rewrite (sh_slots _ S1); lia|].
    rewrite at_upd_ne by lia. apply Hs. lia.
  - destruct (Hr 0 ltac:(lia)) as [E01 ->]. destruct (Hr 1 ltac:(lia)) as [E11 ->].
    pose proof (shape_nd_tag nd S1 0 0 0 ltac:(lia) ltac:(done)) as S'.
    change (upd (tags nd) 0 (upd (row nd 0) 0 0)) with (tags (nd_tag nd 0 0 0)).
    change (upd (tags (nd_tag nd 0 0 0)) 1 (upd (row (nd_tag nd 0 0 0) 1) 0 0)) with (tags (nd_tag (nd_tag nd 0 0 0) 1 0 0)).
    rewrite rows_two by (apply shape_nd_tag; [done|lia|done]). rewrite !(row_nd_tag (nd_tag nd 0 0 0)), !row_nd_tag by (done || lia). cbn [Z.eqb].
    destruct (sh_rows _ S1 0 ltac:(lia)) as [L0 _]. destruct (sh_rows _ S1 1 ltac:(lia)) as [L1 _].
    assert (forall l, zlen l = 2 -> at_ l 1 = 0 -> upd l 0 0 = [0; 0]) as Hu.
    { intros l Hl E. rewrite (list_two (upd l 0 0)) by (rewrite zlen_upd; done). rewrite at_upd_eq, at_upd_ne, E by lia. done. }
    rewrite !Hu by done. done.
Qed.

(** ** Nodes that leave the tree *)
Lemma own_retire ns tree v spare pl rc tree' : own_ok ns tree spare pl rc -> v <> 0 -> ptr_ok v -> tree v -> cleanable ns v ->
  (forall p, tree' p <-> tree p /\ p <> v) -> own_ok ns tree' spare pl (rc ++ [v]).
Proof.
  intros [O1 O2 O3 O4 O5 O6] Nv Pv Tv Cv Ht. assert (v ∉ spare ++ pl ++ rc) as Nin by (intros Hin; by destruct (O2 v Hin) as (_ & _ & ?)).
  assert (spare ++ pl ++ rc ++ [v] ≡ₚ v :: spare ++ pl ++ rc) as HP by (rewrite !app_assoc, Permutation_app_comm; done). split; try done.
  - rewrite HP. by apply list.NoDup_cons.
  - intros p Hp. rewrite HP in Hp. rewrite Ht. apply elem_of_cons in Hp as [->|Hp]; [split; [done|]; split; [done|]; by intros [_ ?]|].
    destruct (O2 p Hp) as (? & ? & ?). split; [done|]. split; [done|]. by intros [? _].
  - intros p [Hp|Hp%list_elem_of_singleton]%elem_of_app; [auto|by subst].
  - intros p Hp. rewrite HP, elem_of_cons, Ht. destruct (decide (p = v)); [auto|]. destruct (O6 p Hp); auto.
Qed.
Lemma zeroed_cleanable ns p : zeroed ns p -> cleanable ns p.
Proof. intros [stale E]. exists (zero_node stale), stale. split; [done|]. split; [apply shape_zero|]. done. Qed.

Lemma struct_shrink h ns T tg : struct_ok h ns T tg -> 1 <= h -> T h 0 <> 0 -> (forall x, 0 < x -> T (h - 1) x = 0) -> struct_ok (h - 1) ns (set_T T h 0 0) tg.
Proof.
  intros [B1 B2 B3 B4 B5 B6 B7 B8 B9] Hh N Hx.
  assert (forall k x, k <> h \/ x <> 0 -> set_T T h 0 0 k x = T k x) as Tne by (intros; by apply set_T_ne).
  split; [lia|..].
  - intros k x Hk Hx' Nk. rewrite Tne in * by lia. destruct (B2 k x ltac:(lia) Hx' Nk) as (nd & En & Hn). exists nd. split; [done|].
    eapply node_ok_frame; [done|]. intros i Hi. apply Tne. lia.
  - intros k x i Hk Hx' Hi. rewrite !Tne by lia. apply B3; lia || done.
  - intros x Hx'. rewrite Tne by lia. auto.
  - intros k x Hk Hx'. destruct (decide (k = h /\ x = 0)) as [[-> ->]|]; [apply set_T_eq|]. rewrite Tne by lia.
    destruct (Z.eq_dec k h) as [->|]; [apply B4; lia|apply B5; lia].
  - intros k1 x1 k2 x2 G1 G2 G3 G4 N1 E. destruct (decide (k1 = h /\ x1 = 0)) as [[-> ->]|]; [by rewrite set_T_eq in N1|].
    rewrite (Tne k1) in * by lia.
    destruct (decide (k2 = h /\ x2 = 0)) as [[-> ->]|]; [by rewrite set_T_eq in E|]. rewrite Tne in E by lia. by apply B6.
  - intros k x G1 G2. destruct (decide (k = h /\ x = 0)) as [[-> ->]|]; [rewrite set_T_eq; apply ptr_ok_0|]. rewrite Tne by lia. by apply B7.
  - intros idx G1 G2. rewrite Tne in G2 by lia. by apply B8.
  - intros tag idx Ht Hin. rewrite Tne by lia. by apply (B9 tag).
Qed.

Lemma shrink_loop tg fuel : forall st T, tree_ok st T tg [] -> (0 < rheight st -> T (rheight st) 0 <> 0) -> (Z.to_nat (rheight st) < fuel)%nat ->
  exists st' T', while fuel shrink_round tt st = Some (tt, st') /\ tree_ok st' T' tg [] /\ (forall x, 0 <= x -> T' 0 x = T 0 x) /\ pool st' = pool st /\
    (full (rheight st) T -> full (rheight st') T' /\ wide (rheight st') T').
Proof.
  induction fuel as [|fuel IH]; intros st T H Ntop Hf; [lia|]. rewrite while_S. unfold shrink_round at 1. run (get_eq st).
  pose proof H as [HS HR HO]. pose proof (s_height _ _ _ _ HS) as Hh. destruct (0 <? rheight st) eqn:B; b2p.
  2:{ run_ret. exists st, T. do 4 (split; [done|]). intros F. split; [done|]. intros ?. lia. }
  specialize (Ntop B). set (P := T (rheight st) 0) in *. pose proof (s_ptr _ _ _ _ HS (rheight st) 0 ltac:(lia) ltac:(lia)) as PP. fold P in PP.
  rewrite (r_rnode _ _ _ _ _ HR), (eqb_f (rheight st)) by lia. fold P. rewrite eqb_f, is_indirect, to_ptr_indirect by done. cbn [negb].
  run (bug_not st).
  destruct (s_node _ _ _ _ HS (rheight st) 0 ltac:(lia) ltac:(lia) Ntop) as (nd & En & Hn). fold P in En. run (get_node_eq st P nd En).
  destruct (Z.eqb_spec (ncount nd) 1) as [Ec|]; cbn [negb].
  2:{ run_ret. exists st, T. do 4 (split; [done|]). intros F. split; [done|]. intros _.
      destruct (used_more (slots nd)) as (i & Hi & Ni); rewrite <- ?(n_count _ _ _ _ _ Hn); [|done|].
      - apply (node_full _ _ _ _ _ Hn). apply F; [lia..|done].
      - rewrite (sh_slots _ (n_shape _ _ _ _ _ Hn)) in Hi. exists i. split; [done|]. by rewrite (n_slot _ _ _ _ _ Hn) in Ni by lia. }
  run (get_slot_eq st P nd En (n_shape _ _ _ _ _ Hn) 0 ltac:(lia)). rewrite (n_slot _ _ _ _ _ Hn) by lia. change (64 * 0 + 0) with 0.
  destruct (Z.eqb_spec (T (rheight st - 1) 0) 0) as [E0|E0].
  { run_ret. exists st, T. do 4 (split; [done|]). intros F. split; [done|]. intros _. destruct (F (rheight st) 0) as (i & Hi & Ni); [lia..|done|].
    rewrite Z.mul_0_r, Z.add_0_l in Ni. exists i. split; [|done]. destruct (Z.eq_dec i 0) as [->|]; [done|lia]. }
  pose proof (s_ptr _ _ _ _ HS (rheight st - 1) 0 ltac:(lia) ltac:(lia)) as P0.
  assert (forall i, 0 < i < 64 -> at_ (slots nd) i = 0) as Hone.
  { intros i Hi. apply (used_one _ 0); [by rewrite <- (n_count _ _ _ _ _ Hn)| |lia]. by rewrite (n_slot _ _ _ _ _ Hn) by lia. }
  set (newptr := if 1 <? rheight st then _ else _). set (st1 := State (rheight st - 1) (gfp_mask st) newptr (nodes st) (pool st) (rcu st ++ [P])).
  assert ((set_rnode newptr ;; set_height (u32 (rheight st - 1)) ;; radix_tree_node_free P ;; ret (inl ())) st = Some (inl tt : unit + unit, st1)) as E1.
  { rewrite u32_id by lia. reflexivity. }
  rewrite (bind_Some _ _ _ _ _ E1). destruct (IH st1 (set_T T (rheight st) 0 0)) as (st' & T' & E' & H' & Hx & Hp & HF).
  - split; cbn [st1 rheight nodes gfp_mask rnode pool rcu].
    + apply struct_shrink; try done; [lia|]. intros x Hx. destruct (decide (x < 64)).
      * specialize (Hone x ltac:(lia)). by rewrite (n_slot _ _ _ _ _ Hn) in Hone by lia.
      * replace x with (64 * (x / 64) + x mod 64) by dlia. apply (s_none _ _ _ _ HS); [lia|dlia|dlia|]. apply (s_top _ _ _ _ HS). dlia.
    + destruct HR as [R1 R2 R3]. split; try done. rewrite !set_T_ne by lia. unfold newptr. rewrite (eqb_f (T (rheight st - 1) 0)) by done.
      destruct (Z.eqb_spec (rheight st - 1) 0) as [Eh|Nh]; [rewrite ltb_f by lia; by rewrite Eh|]. rewrite ltb_t by lia. by apply to_indirect.
    + apply (own_retire _ (in_tree T)); try done.
      * split; [done|]. exists (rheight st), 0. split; [lia|done].
      * exists nd, (rheight st). split; [done|]. split; [apply Hn|]. apply (single_node _ _ _ _ _ 0 nd HS); try done. lia.
      * intros p. apply in_tree_unlink; try done; [lia|]. intros k' x' Hk' Hx'. apply (s_inj _ _ _ _ HS); done || lia.
  - cbn [st1 rheight]. intros Hlt. by rewrite set_T_ne by lia.
  - cbn [st1 rheight]. lia.
  - exists st', T'. split; [exact E'|]. split; [done|]. split; [|split; [done|]].
    + intros x Hx'. rewrite Hx by done. apply set_T_ne. lia.
    + intros F. apply HF. cbn [st1 rheight]. intros k x Hk Hx' _ Nk. rewrite set_T_ne in Nk by lia.
      destruct (F k x ltac:(lia) Hx' ltac:(lia) Nk) as (i & Hi & Ni). exists i. split; [done|]. by rewrite set_T_ne by lia.
Qed.

(** ** Unlinking along the path *)
(** One step up: the slot of the child is cleared, and the child, which is empty,
    waits for a grace period. *)
Definition unlinked (st : state) (P offset : Z) (nd : radix_tree_node) (gone : list Z) : state :=
  State (rheight st) (gfp_mask st) (rnode st) (<[P := nd_count (nd_slot nd offset 0) (ncount nd - 1)]> (nodes st)) (pool st) (rcu st ++ gone).

Section Unlink.
Context (st : state) (T : Z -> Z -> Z) (tg : Z -> gset Z) (H : tree_ok st T tg []).
Context (idx k : Z) (Hi : 0 <= idx < 2 ^ 32) (Hk : 1 <= k <= rheight st) (N : T (k - 1) (pfx (k - 1) idx) <> 0).
Context (Huntag : forall tag, 0 <= tag < 2 -> idx ∉ tg tag).
Context (Hempty : 2 <= k -> exists nd, nodes st !! T (k - 1) (pfx (k - 1) idx) = Some nd /\ ncount nd = 0).
Let HS : struct_ok (rheight st) (nodes st) T tg := t_struct _ _ _ _ H.
Let P := T k (pfx k idx).
Let x := pfx (k - 1) idx.
Let T1 := set_T T (k - 1) x 0.
Definition child_gone : list Z := if k =? 1 then [] else [T (k - 1) (pfx (k - 1) idx)].

Lemma unlink_parent : P <> 0 /\ in_tree T P.
Proof using All.
  assert (P <> 0) as NP by (intros E; apply N; apply (path_child _ _ _ _ HS idx); lia || done). split; [done|]. split; [done|].
  exists k, (pfx k idx). split; [lia|]. split; [apply pfx_nonneg; lia|done].
Qed.
Lemma child_zero : 2 <= k -> nodes st !! T (k - 1) x = Some (zero_node (k - 1)) /\ T (k - 1) x <> P /\ forall i, 0 <= i < 64 -> T (k - 1 - 1) (64 * x + i) = 0.
Proof using All.
  intros Hk2. destruct (Hempty Hk2) as (nd & En & Ec). fold x in En. assert (0 <= x) as Hx by (apply pfx_nonneg; lia).
  destruct (s_node _ _ _ _ HS (k - 1) x ltac:(lia) Hx N) as (nd' & En' & Hn). rewrite En in En'. injection En' as <-.
  destruct (empty_node _ _ _ _ (k - 1) x nd HS ltac:(lia) Hn Ec) as [-> Hz]. split; [done|]. split; [|done].
  intros E. destruct (s_inj _ _ _ _ HS (k - 1) x k (pfx k idx)); try lia; try done. apply pfx_nonneg; lia.
Qed.
Lemma unlink_node nd : nodes st !! P = Some nd -> node_ok T tg k (pfx k idx) nd ->
  1 <= ncount nd <= 64 /\ node_ok T1 tg k (pfx k idx) (nd_count (nd_slot nd (x mod 64) 0) (ncount nd - 1)).
Proof using All.
  intros En Hn. pose proof (pfx_down k idx ltac:(lia)) as Ed. pose proof (n_shape _ _ _ _ _ Hn) as Sh. pose proof (sh_slots _ Sh) as Hl.
  pose proof (node_ok_slot T tg k (pfx k idx) nd (x mod 64) 0 Hn ltac:(dlia)) as Hs. unfold x in Hs. rewrite <- Ed in Hs. fold x in Hs. fold T1 in Hs.
  pose proof (used_upd (slots nd) (x mod 64) 0 ltac:(rewrite Hl; dlia)) as Hu. rewrite (n_slot _ _ _ _ _ Hn) in Hu by dlia.
  unfold x in Hu at 2. rewrite <- Ed in Hu. rewrite eqb_f in Hu by done. cbn [Z.eqb] in Hu. rewrite <- (n_count _ _ _ _ _ Hn) in Hu.
  pose proof (used_le (slots nd)) as Hle. pose proof (used_nonneg (upd (slots nd) (x mod 64) 0)). pose proof (n_count _ _ _ _ _ Hn). split; [lia|].
  replace (ncount nd - 1) with (used (upd (slots nd) (x mod 64) 0)) by lia. exact Hs.
Qed.

Lemma unlink_ok nd : nodes st !! P = Some nd -> node_ok T tg k (pfx k idx) nd -> tree_ok (unlinked st P (x mod 64) nd child_gone) T1 tg [].
Proof using All.
  intros En Hn. destruct (unlink_node nd En Hn) as [_ Hn']. destruct unlink_parent as [NP TP]. pose proof H as [_ HR HO].
  assert (0 <= x) as Hx by (apply pfx_nonneg; lia).
  assert (x / 64 = pfx k idx) as Ex by (symmetry; apply pfx_up; lia || done).
  set (ns1 := <[P := nd_count (nd_slot nd (x mod 64) 0) (ncount nd - 1)]> (nodes st)).
  split; unfold unlinked; cbn [rheight nodes gfp_mask rnode pool rcu]; fold ns1.
  - apply (struct_set _ _ _ _ HS (k - 1) x 0); try done; try lia.
    + intros _. replace (k - 1 + 1) with k by lia. rewrite Ex. fold P. split; [done|]. eexists. split; [apply lookup_insert_eq|exact Hn'].
    + intros k' x' G1 G2 G3 _ G5. replace (k - 1 + 1) with k in G5 by lia. rewrite Ex in G5. apply lookup_insert_ne. intros E.
      destruct (s_inj _ _ _ _ HS k (pfx k idx) k' x'); try done; try lia. apply pfx_nonneg; lia.
    + intros Hk2 _. apply child_zero. lia.
    + intros Ek. split; [done|]. intros _. unfold x. rewrite Ek, pfx_0. exact Huntag.
  - destruct HR as [R1 R2 R3]. split; try done. unfold T1. rewrite R1, !(eqb_f (rheight st) 0), set_T_ne by lia. done.
  - assert (own_ok ns1 (in_tree T) [] (pool st) (rcu st)) as HO1.
    { apply (own_frame (nodes st) (in_tree T)); [done|done|..].
      - intros p Hp. apply lookup_insert_ne, not_eq_sym. by apply (own_apart _ _ _ _ _ P p HO).
      - intros p Hp. destruct (decide (p = P)) as [->|Np]; [by apply (struct_dom _ _ _ _ _ HS)|]. unfold ns1 in Hp.
        by rewrite lookup_insert_ne in Hp by done. }
    unfold child_gone. destruct (Z.eqb_spec k 1) as [Ek|Nk].
    + rewrite app_nil_r. apply (own_frame ns1 (in_tree T)); try done. intros p. unfold T1. replace (k - 1) with 0 by lia. apply in_tree_item.
    + destruct (child_zero ltac:(lia)) as (Ez & Nz & _). apply (own_retire _ (in_tree T)); try done.
      * apply (s_ptr _ _ _ _ HS); lia.
      * split; [done|]. exists (k - 1), x. split; [lia|done].
      * apply zeroed_cleanable. exists (k - 1). unfold ns1. by rewrite lookup_insert_ne by (apply not_eq_sym; exact Nz).
      * intros p. apply in_tree_unlink; try done; [lia|]. intros k' x' Hk' Hx'. apply (s_inj _ _ _ _ HS); done || lia.
Qed.
End Unlink.

Lemma path_from_ext h T T' idx k : (forall j, k <= j <= h -> T' j (pfx j idx) = T j (pfx j idx)) -> path_from h T' idx k = path_from h T idx k.
Proof.
  intros HT. unfold path_from. apply list_fmap_ext. intros i j Hj. unfold step_of. apply lookup_seqZ in Hj as [-> Hj]. rewrite HT; [done|lia].
Qed.

(** No node is left: the root becomes empty. *)
Lemma root_emptied st T tg idx : tree_ok st T tg [] -> 0 <= idx < 2 ^ 32 -> 1 <= rheight st ->
  T (rheight st) 0 <> 0 -> (exists nd, nodes st !! T (rheight st) 0 = Some nd /\ ncount nd = 0) ->
  exists st' T', delete_up [] (T (rheight st) 0) st = Some (tt, st') /\ tree_ok st' T' tg [] /\
    (forall x, 0 <= x -> T' 0 x = if x =? idx then 0 else T 0 x) /\ pool st' = pool st /\ rheight st' = 0.
Proof.
  intros H Hi Hh N (nd & En & Ec). pose proof H as [HS HR HO]. pose proof (s_height _ _ _ _ HS) as H6.
  destruct (s_node _ _ _ _ HS (rheight st) 0 ltac:(lia) ltac:(lia) N) as (nd' & En' & Hn). rewrite En in En'. injection En' as <-.
  destruct (empty_node _ _ _ _ (rheight st) 0 nd HS ltac:(lia) Hn Ec) as [-> Hz].
  set (P := T (rheight st) 0) in *. set (T' := set_T T (rheight st) 0 0).
  assert (struct_ok (rheight st - 1) (nodes st) T' tg) as HS1.
  { apply struct_shrink; try done. intros x Hx. destruct (decide (x < 64)); [specialize (Hz x ltac:(lia)); by rewrite Z.mul_0_r, Z.add_0_l in Hz|].
    replace x with (64 * (x / 64) + x mod 64) by dlia. apply (s_none _ _ _ _ HS); [lia|dlia|dlia|]. apply (s_top _ _ _ _ HS). dlia. }
  assert (T' (rheight st - 1) 0 = 0) as E0 by (unfold T'; rewrite set_T_ne by lia; apply (Hz 0); lia).
  assert (forall k x, 0 <= k -> 0 <= x -> T' k x = 0) as Hall by (intros k x; by apply (empty_all _ _ _ _ k x HS1)).
  eexists _, T'. split; [|split; [|split; [|split]]].
  - unfold delete_up, root_tag_clear_all. run (get_eq st). rewrite (eqb_f P) by done. reflexivity.
  - split; cbn [rheight nodes gfp_mask rnode pool rcu].
    + apply (struct_lift (rheight st - 1)); done || lia.
    + destruct HR as [R1 R2 R3]. split; cbn [Z.eqb].
      * by rewrite Hall by lia.
      * change __GFP_BITS_MASK with (Z.ones 21). rewrite Z.land_ones by lia. pow2. dlia.
      * intros t Ht. change __GFP_BITS_MASK with (Z.ones 21). rewrite Z.land_spec, Z.ones_spec_high, andb_false_r by lia. split; [done|].
        intros (i & Hin). destruct (s_tagged _ _ _ _ HS1 t i Ht Hin) as [Hi' Ni]. by rewrite Hall in Ni by lia.
    + apply (own_retire _ (in_tree T)); try done.
      * apply (s_ptr _ _ _ _ HS); lia.
      * split; [done|]. exists (rheight st), 0. done.
      * apply zeroed_cleanable. by exists (rheight st).
      * intros p. apply in_tree_unlink; try done. intros k' x' Hk' Hx'. apply (s_inj _ _ _ _ HS); done || lia.
  - intros x Hx. rewrite Hall by lia. destruct (x =? idx); [done|]. transitivity (T' 0 x); [symmetry; apply Hall; lia|]. apply set_T_ne. lia.
  - done.
  - done.
Qed.

Lemma full_join h k x T : full_but h k x T -> full_at T k x -> full h T.
Proof. intros F Fk j y Hj Hy _. destruct (decide (j = k /\ y = x)) as [[-> ->]|]; [done|]. apply F; [done|done|lia]. Qed.
Lemma wide_below h T T' : wide h T -> (forall i, T' (h - 1) i = T (h - 1) i) -> wide h T'.
Proof. intros W E Hh. destruct (W Hh) as (i & Hi & Ni). exists i. by rewrite E. Qed.

Section DeleteUp.
Context (tg : Z -> gset Z) (idx : Z) (Hi : 0 <= idx < 2 ^ 32) (Huntag : forall tag, 0 <= tag < 2 -> idx ∉ tg tag).

Definition to_free_at (T : Z -> Z -> Z) (k : Z) : Z := if k =? 1 then 0 else T (k - 1) (pfx (k - 1) idx).

Lemma unlink_run st T k nd rest : tree_ok st T tg [] -> 1 <= k <= rheight st -> T (k - 1) (pfx (k - 1) idx) <> 0 ->
  (2 <= k -> exists nd, nodes st !! T (k - 1) (pfx (k - 1) idx) = Some nd /\ ncount nd = 0) ->
  let P := T k (pfx k idx) in let st1 := unlinked st P (pfx (k - 1) idx mod 64) nd (child_gone T idx k) in
  nodes st !! P = Some nd -> node_ok T tg k (pfx k idx) nd ->
  delete_up ((P, pfx (k - 1) idx mod 64) :: rest) (to_free_at T k) st =
    (if negb (ncount nd - 1 =? 0) then
       if P =? radix_tree_indirect_to_ptr (rnode st) then radix_tree_shrink else ret tt
     else delete_up rest P) st1.
Proof using Hi Huntag.
  intros H Hk N Hempty P st1 En Hn. pose proof (n_shape _ _ _ _ _ Hn) as Sh. cbn [delete_up].
  destruct (unlink_node st T tg H idx k Hi Hk N Huntag Hempty nd En Hn) as [Hc _].
  run (put_slot_eq st P nd En Sh (pfx (k - 1) idx mod 64) 0 ltac:(dlia)). set (nd1 := nd_slot nd (pfx (k - 1) idx mod 64) 0).
  set (sta := with_nodes st (<[P := nd1]> (nodes st))).
  assert (nodes sta !! P = Some nd1) as Ea by apply lookup_insert_eq. run (get_node_eq sta P nd1 Ea). change (ncount nd1) with (ncount nd).
  rewrite u32_id by lia.
  run (put_count_eq sta P nd1 Ea (ncount nd - 1)). set (stb := with_nodes sta _).
  assert ((if negb (to_free_at T k =? 0) then radix_tree_node_free (to_free_at T k) else ret tt) stb = Some (tt, st1)) as Ef.
  { unfold st1, unlinked, stb, sta, with_nodes, to_free_at, child_gone. cbn [nodes rheight gfp_mask rnode pool rcu]. rewrite insert_insert_eq.
    destruct (Z.eqb_spec k 1); [cbn [Z.eqb negb]; by rewrite app_nil_r|]. rewrite eqb_f by done. done. }
  run Ef. assert (nodes st1 !! P = Some (nd_count nd1 (ncount nd - 1))) as E1 by apply lookup_insert_eq.
  run (get_node_eq st1 P _ E1). cbn [nd_count ncount]. by destruct (ncount nd - 1 =? 0).
Qed.

(** The nodes beside the path keep their children. *)
Lemma unlink_full st T k : tree_ok st T tg [] -> 1 <= k <= rheight st ->
  full_but (rheight st) (k - 1) (pfx (k - 1) idx) T -> full_but (rheight st) k (pfx k idx) (set_T T (k - 1) (pfx (k - 1) idx) 0).
Proof using Hi.
  intros H Hk F j x Hj Hx Hne Nj. destruct (decide (j = k - 1 /\ x = pfx (k - 1) idx)) as [[-> ->]|Hd]; [by rewrite set_T_eq in Nj|].
  rewrite set_T_ne in Nj by lia. destruct (F j x Hj Hx ltac:(lia) Nj) as (i & Hi' & Ni). exists i. split; [done|].
  rewrite set_T_ne; [done|]. destruct (Z.eq_dec j k) as [->|]; [|lia]. right. intros E. pose proof (pfx_up k idx _ ltac:(lia) (eq_sym E)).
  assert (x = (64 * x + i) / 64) by dlia. lia.
Qed.
Lemma delete_up_eq n : forall st T k, n = Z.to_nat (rheight st + 1 - k) -> tree_ok st T tg [] -> 1 <= k <= rheight st + 1 -> 1 <= rheight st ->
  T (k - 1) (pfx (k - 1) idx) <> 0 -> (2 <= k -> exists nd, nodes st !! T (k - 1) (pfx (k - 1) idx) = Some nd /\ ncount nd = 0) ->
  exists st' T', delete_up (path_from (rheight st) T idx k) (to_free_at T k) st = Some (tt, st') /\ tree_ok st' T' tg [] /\
    (forall x, 0 <= x -> T' 0 x = if x =? idx then 0 else T 0 x) /\ pool st' = pool st /\
    (full_but (rheight st) (k - 1) (pfx (k - 1) idx) T -> (k <= rheight st -> wide (rheight st) T) ->
     full (rheight st') T' /\ wide (rheight st') T').
Proof using Hi Huntag.
  induction n as [|n IH]; intros st T k En H Hk Hh N Hempty; pose proof H as [HS HR HO]; pose proof (s_height _ _ _ _ HS) as H6.
  - assert (k = rheight st + 1) as -> by lia. rewrite path_from_nil. unfold to_free_at. rewrite eqb_f by lia.
    replace (rheight st + 1 - 1) with (rheight st) in * by lia.
    assert (pfx (rheight st) idx = 0) as Ez by (apply (top_prefix _ _ _ _ HS idx ltac:(lia) (rheight st)); lia || done). rewrite Ez in *.
    destruct (root_emptied st T tg idx H Hi Hh N ltac:(apply Hempty; lia)) as (st' & T' & E & H' & HT & Hp & E0). exists st', T'.
    do 4 (split; [done|]). intros _ _. rewrite E0. split; [intros k' x Hk'; lia|intros ?; lia].
  - assert (k <= rheight st) as Hkh by lia. rewrite path_from_cons by lia.
    destruct (unlink_parent st T tg H idx k Hi ltac:(lia) N Huntag Hempty) as [NP TP].
    destruct (path_node _ _ _ _ HS idx ltac:(lia) k ltac:(lia) NP) as (nd & Ep & Hn & Es). unfold step_of.
    rewrite (unlink_run st T k nd) by (done || lia). pose proof (unlink_ok st T tg H idx k Hi ltac:(lia) N Huntag Hempty nd Ep Hn) as H1.
    set (P := T k (pfx k idx)) in *. set (T1 := set_T T (k - 1) (pfx (k - 1) idx) 0) in *. set (st1 := unlinked _ _ _ _ _) in *.
    assert (forall x, 0 <= x -> T1 0 x = if x =? idx then 0 else T 0 x) as HT1.
    { intros x Hx. destruct (Z.eqb_spec x idx) as [->|].
      - rewrite <- (pfx_0 idx).
        apply (below_none _ _ _ _ (t_struct _ _ _ _ H1) idx ltac:(lia) (k - 1)); [lia|change (rheight st1) with (rheight st); lia|]. apply set_T_eq.
      - apply set_T_ne. destruct (Z.eq_dec k 1) as [->|]; [right; by rewrite Z.sub_diag, pfx_0|lia]. }
    pose proof (unlink_full st T k H ltac:(lia)) as HU. fold T1 in HU.
    destruct (Z.eqb_spec (ncount nd - 1) 0) as [Ec|Ec]; cbn [negb].
    + rewrite <- (path_from_ext (rheight st) T T1) by (intros j Hj; apply set_T_ne; lia).
      assert (to_free_at T1 (k + 1) = P) as Etf.
      { unfold to_free_at. rewrite eqb_f by lia. replace (k + 1 - 1) with k by lia. apply set_T_ne. lia. }
      rewrite <- Etf. destruct (IH st1 T1 (k + 1)) as (st' & T' & E & H' & HT & Hp & HF); change (rheight st1) with (rheight st); try lia; try done.
      * replace (k + 1 - 1) with k by lia. unfold T1. rewrite set_T_ne by lia. done.
      * intros _. replace (k + 1 - 1) with k by lia. unfold T1. rewrite set_T_ne by lia. eexists. split; [apply lookup_insert_eq|done].
      * exists st', T'. split; [exact E|]. split; [done|]. split; [intros x Hx; rewrite HT, HT1 by done; by destruct (x =? idx)|]. split; [done|].
        intros F W. change (rheight st1) with (rheight st) in HF. apply HF; [by replace (k + 1 - 1) with k by lia; apply HU|].
        intros Hk1. apply (wide_below _ T); [by apply W|]. intros i. apply set_T_ne. lia.
    + assert (full_but (rheight st) k (pfx k idx) T1 -> full (rheight st) T1) as HU1.
      { intros F. apply (full_join _ k (pfx k idx)); [done|]. intros _. destruct (unlink_node st T tg H idx k Hi ltac:(lia) N Huntag Hempty nd Ep Hn) as [_ Hn1].
        by apply (node_full _ _ _ _ _ Hn1). }
      destruct (P =? radix_tree_indirect_to_ptr (rnode st)) eqn:Er; b2p.
      2:{ exists st1, T1. split; [done|]. split; [done|]. split; [done|]. split; [done|]. intros F W. change (rheight st1) with (rheight st).
          split; [by apply HU1, HU|]. apply (wide_below _ T); [by apply W|]. intros i. apply set_T_ne. left. intros Ekh. apply Er.
          rewrite (rnode_ptr st T tg [] H). unfold P. assert (k = rheight st) as -> by lia. f_equal. by apply (top_prefix _ _ _ _ HS idx ltac:(lia) (rheight st)); [lia|]. }
      destruct (shrink_loop tg (S (Z.to_nat RADIX_TREE_MAX_PATH)) st1 T1 H1) as (st' & T' & E & H' & HT & Hp & HF).
      * change (rheight st1) with (rheight st). intros _. unfold T1. rewrite set_T_ne by lia. rewrite <- (rnode_ptr st T tg [] H), <- Er. done.
      * change (rheight st1) with (rheight st). change (Z.to_nat RADIX_TREE_MAX_PATH) with 6%nat. lia.
      * exists st', T'. split; [exact E|]. split; [done|]. split; [intros x Hx; rewrite HT by done; by apply HT1|]. split; [done|].
        intros F _. apply HF. by apply HU1, HU.
Qed.
End DeleteUp.

(** ** Deletion *)
Lemma delete_tag_eq st T tg idx tag : tree_ok st T tg [] -> 0 <= idx < 2 ^ 32 -> T 0 idx <> 0 -> 1 <= rheight st -> 0 <= tag < 2 ->
  exists st', (let* b := tag_get (T 1 (pfx 1 idx)) tag (pfx 0 idx mod 64) in if b then radix_tree_tag_clear idx tag ;; ret tt else ret tt) st = Some (tt, st') /\
    tree_ok st' T (tg_del tg tag idx) [] /\ rheight st' = rheight st /\ rnode st' = rnode st /\ pool st' = pool st /\ rcu st' = rcu st.
Proof.
  intros H Hi N Hh Ht. pose proof (t_struct _ _ _ _ H) as HS. pose proof (path_nonzero _ _ _ _ HS idx ltac:(lia) N 1 ltac:(lia)) as N1.
  destruct (path_node _ _ _ _ HS idx ltac:(lia) 1 ltac:(lia) N1) as (nd & En & Hn & _).
  run (tag_get_eq st _ nd En (n_shape _ _ _ _ _ Hn) tag (pfx 0 idx mod 64) Ht ltac:(dlia)). destruct (tagbit nd tag (pfx 0 idx mod 64)) eqn:Eb.
  - destruct (index_tag_clear_eq st T tg [] idx tag H Hi Ht) as (st' & E & H'). rewrite (bind_Some _ _ _ _ _ E). by exists st'.
  - exists st. split; [done|]. split; [|done]. apply (tree_ok_ext _ _ tg); [done|]. intros t i Ht'. rewrite elem_tg_del. split; [by intros [? _]|].
    intros Hin. split; [done|].
    intros [-> ->]. apply not_true_iff_false in Eb. apply Eb, (n_tag _ _ _ _ _ Hn); [done|dlia|]. exists idx. split; [done|].
    rewrite Z.sub_diag. pose proof (pfx_down 1 idx ltac:(lia)) as Ed. by rewrite Z.sub_diag in Ed.
Qed.
Lemma delete_tags_eq st T tg idx : tree_ok st T tg [] -> 0 <= idx < 2 ^ 32 -> T 0 idx <> 0 -> 1 <= rheight st ->
  exists st', delete_tags idx (T 1 (pfx 1 idx)) (pfx 0 idx mod 64) st = Some (tt, st') /\
    tree_ok st' T (fun t => tg t ∖ {[idx]}) [] /\ rheight st' = rheight st /\ pool st' = pool st.
Proof.
  intros H Hi N Hh. unfold delete_tags. change (Z.to_nat RADIX_TREE_MAX_TAGS) with 2%nat. cbn [for_]. change (0 + 1) with 1.
  destruct (delete_tag_eq st T tg idx 0 H Hi N Hh ltac:(lia)) as (st1 & E1 & H1 & Eh1 & _ & Ep1 & _). rewrite (bind_Some _ _ _ _ _ E1).
  destruct (delete_tag_eq st1 T (tg_del tg 0 idx) idx 1 H1 Hi N ltac:(lia) ltac:(lia)) as (st2 & E2 & H2 & Eh2 & _ & Ep2 & _).
  rewrite (bind_Some _ _ _ _ _ E2).
  exists st2. split; [done|]. split; [|split; congruence]. apply (tree_ok_ext _ _ _ _ _ H2). intros t i Ht. rewrite !elem_tg_del.
  rewrite elem_of_difference, elem_of_singleton. assert (t = 0 \/ t = 1) as [-> | ->] by lia; naive_solver.
Qed.

Lemma index_delete_eq st T tg idx : tree_ok st T tg [] -> 0 <= idx < 2 ^ 32 ->
  exists st' T', radix_tree_delete idx st = Some (T 0 idx, st') /\ tree_ok st' T' (fun t => tg t ∖ {[idx]}) [] /\
    (forall x, 0 <= x -> T' 0 x = if x =? idx then 0 else T 0 x) /\ pool st' = pool st /\
    (full (rheight st) T /\ wide (rheight st) T -> full (rheight st') T' /\ wide (rheight st') T').
Proof.
  intros H Hi. pose proof H as [HS HR HO]. pose proof (s_height _ _ _ _ HS) as Hh. unfold radix_tree_delete. run (get_eq st).
  run (maxindex_eq (rheight st) st Hh).
  rewrite above_max by done.
  assert (T 0 idx = 0 -> tree_ok st T (fun t => tg t ∖ {[idx]}) [] /\ forall x, 0 <= x -> T 0 x = if x =? idx then 0 else T 0 x) as Hsame.
  { intros E0. split; [|intros x Hx; by destruct (Z.eqb_spec x idx) as [->|]]. apply (tree_ok_ext _ _ tg); [done|]. intros t i Ht.
    rewrite elem_of_difference, elem_of_singleton.
    split; [by intros [? _]|]. intros Hin. split; [done|]. intros ->. by destruct (s_tagged _ _ _ _ HS t idx Ht Hin). }
  destruct (Z.eqb_spec (pfx (rheight st) idx) 0) as [Ez|Nz]; cbn [negb].
  2:{ assert (T 0 idx = 0) as E0 by (rewrite <- (pfx_0 idx); apply (out_none _ _ _ _ HS idx); lia || done). rewrite E0. exists st, T. split; [done|].
      destruct (Hsame E0). done. }
  destruct (Z.eqb_spec (rheight st) 0) as [Eh|Nh].
  - rewrite Eh, pfx_0 in Ez. rewrite Ez in *. rewrite (r_rnode _ _ _ _ _ HR), Eh. cbn [Z.eqb]. unfold root_tag_clear_all. rewrite ?bind_assoc.
    rewrite (bind_Some _ _ _ _ _ (get_eq st)).
    assert (forall t i, 0 <= t < 2 -> i ∈ tg t -> i = 0) as Hz.
    { intros t i Ht Hin. destruct (s_tagged _ _ _ _ HS t i Ht Hin) as [A1 A2]. apply dec_stable. intros Ni. apply A2.
      pose proof (s_top _ _ _ _ HS i) as Ht'.
      rewrite Eh in Ht'. apply Ht'. lia. }
    eexists _, (set_T T 0 0 0). split; [reflexivity|]. split; [|split; [|split; [done|]]].
    3:{ intros _. cbn [rheight]. rewrite Eh. split; [intros k x Hk; lia|intros ?; lia]. }
    + assert (struct_ok (rheight st) (nodes st) T (fun t => tg t ∖ {[0]})) as HS'.
      { apply (struct_retag _ (nodes st) T tg); [done|intros; lia|]. intros t i Ht [Hin _]%elem_of_difference. by apply (s_tagged _ _ _ _ HS t). }
      split; cbn [rheight nodes gfp_mask rnode pool rcu].
      * apply (struct_set _ _ _ _ HS' 0 0 0); try done; try lia. intros _. split; [done|]. intros _ t Ht. set_solver.
      * destruct HR as [R1 R2 R3]. split; [by rewrite Eh, set_T_eq|..].
        { change __GFP_BITS_MASK with (Z.ones 21). rewrite Z.land_ones by lia. pow2. dlia. }
        intros t Ht. change __GFP_BITS_MASK with (Z.ones 21). rewrite Z.land_spec, Z.ones_spec_high, andb_false_r by lia. split; [done|].
        intros (i & [Hin Hne]%elem_of_difference). apply Hz in Hin; [|done]. set_solver.
      * apply (own_frame (nodes st) (in_tree T)); [done|apply in_tree_item|done|done].
    + intros x Hx. destruct (Z.eqb_spec x 0) as [->|]; [apply set_T_eq|apply set_T_ne; lia].
  - rewrite (rnode_ptr st T tg [] H). run (find_path_eq st T tg [] idx H Hi Ez). destruct (Z.eqb_spec (T 0 idx) 0) as [E0|N0].
    { rewrite E0. exists st, T. split; [done|]. destruct (Hsame E0). done. }
    rewrite path_from_cons by lia. unfold step_of at 1. replace (1 - 1) with 0 by lia.
    destruct (delete_tags_eq st T tg idx H Hi N0 ltac:(lia)) as (st1 & E1 & H1 & Eh1 & Ep1). rewrite (bind_Some _ _ _ _ _ E1).
    destruct (delete_up_eq (fun t => tg t ∖ {[idx]}) idx Hi ltac:(intros t _; set_solver) (Z.to_nat (rheight st1)) st1 T 1 ltac:(f_equal; lia) H1 ltac:(lia) ltac:(lia)) as (st2 & T2 & E2 & H2 & HT2 & Ep2 & HF).
    { by rewrite Z.sub_diag, pfx_0. }
    { lia. }
    rewrite Eh1, path_from_cons in E2 by lia. unfold step_of at 1 in E2. replace (1 - 1) with 0 in E2 by lia.
    change (to_free_at idx T 1) with 0 in E2.
    rewrite (bind_Some _ _ _ _ _ E2). exists st2, T2. split; [done|]. split; [done|]. split; [done|]. split; [congruence|].
    rewrite Eh1 in HF. intros [F W]. apply HF; [|done]. intros k x Hk Hx _. apply F; [done|done|lia].
Qed.

(** ** Tagging what is not there *)
Lemma no_null st T tg spare : tree_ok st T tg spare -> nodes st !! 0 = None.
Proof.
  intros [_ _ HO]. destruct (nodes st !! 0) eqn:E; [|done]. destruct (o_owned _ _ _ _ _ HO 0 ltac:(by rewrite E)) as [[? _]|Hin]; [done|].
  by destruct (o_other _ _ _ _ _ HO 0 Hin).
Qed.
Section SetMissing.
Context (st : state) (T : Z -> Z -> Z) (tg : Z -> gset Z) (H : tree_ok st T tg []).
Context (idx tag : Z) (Hi : 0 <= idx < 2 ^ 32) (Ht : 0 <= tag < 2) (Hnone : T 0 idx = 0).
Let HS : struct_ok (rheight st) (nodes st) T tg := t_struct _ _ _ _ H.

Lemma missing_loop n : forall k fuel st', n = Z.to_nat k -> 1 <= k <= rheight st -> T k (pfx k idx) <> 0 ->
  (forall j, 1 <= j <= k -> nodes st' !! T j (pfx j idx) = nodes st !! T j (pfx j idx)) ->
  while fuel (tag_set_round idx tag) (T k (pfx k idx), u32 ((k - 1) * RADIX_TREE_MAP_SHIFT), k) st' = None.
Proof using All.
  induction n as [|n IH]; intros k fuel st' Ek Hk N Hsame; [lia|]. pose proof (s_height _ _ _ _ HS) as H6. destruct fuel as [|fuel]; [done|].
  rewrite while_S. unfold tag_set_round at 1. rewrite ltb_t, offset_eq, shift_step by lia.
  destruct (path_node _ _ _ _ HS idx ltac:(lia) k Hk N) as (nd & En & Hn & Es). rewrite <- Hsame in En by lia. set (P := T k (pfx k idx)) in *.
  destruct (set_bit tag Ht st' P nd (pfx (k - 1) idx mod 64) En (n_shape _ _ _ _ _ Hn) ltac:(dlia)) as (nd' & E1 & Hc). run E1.
  set (st1 := with_nodes st' (<[P := nd']> (nodes st'))). assert (nodes st1 !! P = Some nd') as E2 by apply lookup_insert_eq.
  run (get_slot_eq st1 P nd' E2 (tc_shape _ _ _ _ _ Hc) (pfx (k - 1) idx mod 64) ltac:(dlia)). rewrite (tc_slots _ _ _ _ _ Hc), Es.
  destruct (Z.eqb_spec (T (k - 1) (pfx (k - 1) idx)) 0) as [E0|N0]; [done|]. run (bug_not st1). run_ret. cbn [bind].
  assert (k <> 1) as Nk by (intros ->; apply N0; by rewrite Z.sub_diag, pfx_0).
  apply IH; [lia|lia|done|]. intros j Hj. cbn [st1 nodes with_nodes]. rewrite lookup_insert_ne; [apply Hsame; lia|]. intros E.
  destruct (s_inj _ _ _ _ HS k (pfx k idx) j (pfx j idx)); try lia; try done; apply pfx_nonneg; lia.
Qed.
(** Only the empty root survives it. *)
Lemma tag_set_missing : radix_tree_tag_set idx tag st = if (rheight st =? 0) && (idx =? 0) then Some (0, st) else None.
Proof using All.
  pose proof (s_height _ _ _ _ HS) as Hh. unfold radix_tree_tag_set. run (get_eq st). run (maxindex_eq (rheight st) st Hh). rewrite above_max by done.
  destruct (Z.eqb_spec (pfx (rheight st) idx) 0) as [Ez|Nz]; cbn [negb].
  2:{ destruct (Z.eqb_spec (rheight st) 0) as [Eh|]; [|done]. rewrite Eh, pfx_0 in Nz. by rewrite eqb_f. }
  run (bug_not st). rewrite (rnode_ptr st T tg [] H). destruct (Z.eqb_spec (rheight st) 0) as [Eh|Nh].
  - rewrite Eh, pfx_0 in *. rewrite Ez in *. rewrite Hnone. done.
  - cbn [andb]. destruct (Z.eq_dec (T (rheight st) 0) 0) as [E0|N0].
    + rewrite E0, while_S. unfold tag_set_round at 1. rewrite ltb_t by lia. unfold tag_set_once, tag_get, get_node, bind.
      by rewrite (no_null st T tg [] H).
    + rewrite <- Ez in N0 |- *. unfold bind at 1. rewrite Ez at 1. rewrite <- Ez at 1.
      rewrite (missing_loop (Z.to_nat (rheight st)) (rheight st)); done || lia.
Qed.
End SetMissing.

(** ** The end of a grace period *)
Lemma tag_clear_first st p nd tag : nodes st !! p = Some nd -> shape nd -> 0 <= tag < 2 ->
  tag_clear p tag 0 st = Some (tt, with_nodes st (<[p := nd_tag nd tag 0 (Z.land (at_ (row nd tag) 0) (not32 1))]> (nodes st))).
Proof.
  intros Ep Sh Ht. destruct (word_eq nd Sh tag 0 Ht ltac:(lia)) as [Ew Hw]. unfold tag_clear. change (0 / BITS_PER_LONG) with 0.
  change (0 mod BITS_PER_LONG) with 0.
  run (get_node_eq st p nd Ep). run (nth_index_eq st _ _ _ (row_eq nd Sh tag Ht)). run (nth_index_eq st _ _ _ Ew).
  rewrite put_tag_eq with (nd := nd) by (done || lia). done.
Qed.
Lemma rcu_free_eq st p nd : nodes st !! p = Some nd -> shape nd -> radix_tree_node_rcu_free p st = Some (cleaned nd, with_nodes st (delete p (nodes st))).
Proof.
  intros Ep Sh. unfold radix_tree_node_rcu_free. run (tag_clear_first st p nd 0 Ep Sh ltac:(lia)).
  set (nd1 := nd_tag nd 0 _ _).
  assert (shape nd1) as Sh1 by (apply shape_nd_tag; [done|lia|]; apply uint_land; [lia|apply word_eq; done || lia|]; apply (uint_nonneg 32), uint_not32).
  set (st1 := with_nodes st _). assert (nodes st1 !! p = Some nd1) as E1 by apply lookup_insert_eq.
  run (tag_clear_first st1 p nd1 1 E1 Sh1 ltac:(lia)). assert (row nd1 1 = row nd 1) as -> by (unfold nd1; rewrite row_nd_tag by (done || lia); done).
  set (nd2 := nd_tag nd1 1 _ _).
  assert (shape nd2) as Sh2 by (apply shape_nd_tag; [done|lia|]; apply uint_land; [lia|apply word_eq; done || lia|]; apply (uint_nonneg 32), uint_not32).
  set (st2 := with_nodes st1 _). assert (nodes st2 !! p = Some nd2) as E2 by apply lookup_insert_eq.
  run (put_slot_eq st2 p nd2 E2 Sh2 0 0 ltac:(lia)).
  set (nd3 := nd_slot nd2 _ _). set (st3 := with_nodes st2 _). assert (nodes st3 !! p = Some nd3) as E3 by apply lookup_insert_eq.
  run (put_count_eq st3 p nd3 E3 0).
  set (st4 := with_nodes st3 _). assert (nodes st4 !! p = Some (cleaned nd)) as E4 by apply lookup_insert_eq. run (get_node_eq st4 p _ E4).
  run (get_eq st4).
  unfold set_nodes, bind, ret. do 2 f_equal. unfold st4, st3, st2, st1, with_nodes. cbn [nodes rheight gfp_mask rnode pool rcu]. f_equal.
  by rewrite !delete_insert_eq.
Qed.
(** A node that is not in the tree goes away. *)
Lemma own_gone ns tree pl rc p pl' rc' : own_ok ns tree [] pl rc -> pl ++ rc ≡ₚ p :: pl' ++ rc' -> pl' ⊆ pl -> rc' ⊆ rc -> own_ok (delete p ns) tree [] pl' rc'.
Proof.
  intros [O1 O2 O3 O4 O5 O6] HP Hpl Hrc. cbn [app] in *. rewrite HP in O1. apply list.NoDup_cons in O1 as [Np O1].
  assert (forall q, q ∈ pl' ++ rc' -> delete p ns !! q = ns !! q) as Hd by (intros q Hq; apply lookup_delete_ne; intros ->; done).
  split; cbn [app]; try done.
  - intros q Hq. apply O2. rewrite HP. by apply elem_of_cons; right.
  - intros q Hq. by apply elem_of_nil in Hq.
  - intros q Hq. unfold zeroed. rewrite Hd by (apply elem_of_app; by left). by apply O4, Hpl.
  - intros q Hq. unfold cleanable. rewrite Hd by (apply elem_of_app; by right). by apply O5, Hrc.
  - intros q [v [Nq Hq]%lookup_delete_Some]. destruct (O6 q ltac:(by rewrite Hq)) as [?|Hin]; [by left|right]. rewrite HP in Hin.
    apply elem_of_cons in Hin as [->|]; done.
Qed.
Lemma tree_gone st T tg p pl' rc' : tree_ok st T tg [] -> pool st ++ rcu st ≡ₚ p :: pl' ++ rc' -> pl' ⊆ pool st -> rc' ⊆ rcu st ->
  tree_ok (State (rheight st) (gfp_mask st) (rnode st) (delete p (nodes st)) pl' rc') T tg [].
Proof.
  intros [HS [R1 R2 R3] HO] HP Hpl Hrc. assert (~ in_tree T p) as Np.
  { destruct (o_other _ _ _ _ _ HO p) as (_ & _ & ?); [|done]. cbn [app]. rewrite HP. apply elem_of_cons. by left. }
  split; cbn [rheight nodes gfp_mask rnode pool rcu]; [|by split|by apply (own_gone _ _ (pool st) (rcu st))].
  apply (struct_frame _ (nodes st)); [done|]. intros q Hq. apply lookup_delete_ne. intros ->. done.
Qed.
Lemma rcu_callback_eq st T tg : tree_ok st T tg [] -> exists r st', rcu_callback st = Some (r, st') /\ tree_ok st' T tg [] /\ pool st' = pool st /\
  match r with None => rcu st = [] | Some nd => exists stale, nd = zero_node stale /\ length (rcu st) = S (length (rcu st')) end.
Proof.
  intros H. pose proof H as [HS HR HO]. unfold rcu_callback. run (get_eq st). destruct (rcu st) as [|p rest] eqn:Er; [by exists None, st|].
  destruct (o_rcu _ _ _ _ _ HO p ltac:(apply elem_of_cons; by left)) as (nd & stale & Ep & Sh & Ec).
  set (st1 := State (rheight st) (gfp_mask st) (rnode st) (nodes st) (pool st) rest). assert (set_rcu rest st = Some (tt, st1)) as E1 by done. run E1.
  run (rcu_free_eq st1 p nd Ep Sh). eexists _, _. split; [reflexivity|]. split; [|split; [done|]; by exists stale].
  apply (tree_gone st T tg p (pool st) rest H); [rewrite Er; symmetry; apply Permutation_middle|done|]. rewrite Er. intros q Hq. apply elem_of_cons.
  by right.
Qed.
Lemma drain_eq tg T n : forall st freed, n = length (pool st) -> tree_ok st T tg [] -> Forall (fun nd => exists stale, nd = zero_node stale) freed ->
  exists l st', while (S n) drain_round freed st = Some (l, st') /\ tree_ok st' T tg [] /\ pool st' = [] /\ Forall (fun nd => exists stale, nd = zero_node stale) l.
Proof.
  induction n as [|n IH]; intros st freed En H Hf; rewrite while_S; unfold drain_round at 1; run (get_eq st); destruct (pool st) as [|p rest] eqn:Ep; try done.
  - run_ret. by exists freed, st.
  - destruct (o_pool _ _ _ _ _ (t_own _ _ _ _ H) p ltac:(rewrite Ep; apply elem_of_cons; by left)) as (stale & Ez). run (get_node_eq st p _ Ez).
    set (st1 := State (rheight st) (gfp_mask st) (rnode st) (delete p (nodes st)) rest (rcu st)).
    assert ((set_nodes (delete p (nodes st)) ;; set_pool rest ;; ret (inl (freed ++ [zero_node stale]))) st = Some (inl (freed ++ [zero_node stale]) : _ + list radix_tree_node, st1)) as E1 by done.
    rewrite (bind_Some _ _ _ _ _ E1). apply IH; [injection En as ->; done| |].
    + apply tree_gone; [done|by rewrite Ep| |done]. rewrite Ep. intros q Hq. apply elem_of_cons. by right.
    + apply Forall_app. split; [done|]. constructor; [by exists stale|constructor].
Qed.

(** ** Correctness *)
(** C8. [radix_tree_tag_set] adds the index to the set of the tag and
    [radix_tree_tag_clear] removes it, both return the item and no item moves;
    [radix_tree_tagged] tells whether the set has an element.  Tagging an index
    without an item hits a [BUG], but for index 0 of a tree of height 0. *)
Theorem radix_tree_tag_correct st m tg idx tag :
  rep st m tg -> 0 <= idx < 2 ^ 32 -> 0 <= tag < 2 ->
  match m !! idx with
  | Some v => exists st', radix_tree_tag_set idx tag st = Some (v, st') /\ rep st' m (tg_add tg tag idx)
  | None => radix_tree_tag_set idx tag st = if (rheight st =? 0) && (idx =? 0) then Some (0, st) else None
  end /\
  (exists st', radix_tree_tag_clear idx tag st = Some (default 0 (m !! idx), st') /\ rep st' m (tg_del tg tag idx)) /\
  exists b, radix_tree_tagged tag st = Some (b, st) /\ (b = true <-> exists i, i ∈ tg tag).
Proof.
  intros (T & H & HT) Hi Ht. split; [|split].
  - destruct (m !! idx) as [v|] eqn:Em.
    + assert (T 0 idx = v) as Ev by (rewrite (proj2 HT), Em by lia; done). destruct (proj1 HT idx v Em) as [_ Nv].
      destruct (index_tag_set_eq st T tg [] H idx tag Hi Ht ltac:(congruence)) as (st' & E & H' & _). rewrite Ev in E. exists st'. split; [done|].
      by apply (rep_of _ _ _ T).
    + apply (tag_set_missing st T tg H); try done. by apply (items_none m T); [done|lia|].
  - destruct (index_tag_clear_eq st T tg [] idx tag H Hi Ht) as (st' & E & H' & _). rewrite <- (proj2 HT) by lia. exists st'. split; [done|].
    by apply (rep_of _ _ _ T).
  - eexists. split; [apply root_tag_get_eq; done|]. apply (r_tag _ _ _ _ _ (t_root _ _ _ _ H)). done.
Qed.

(** C7. [radix_tree_delete] returns the item at the index, or [NULL], and removes
    it from the map and its index from the sets of both tags; the pool does not
    change. No waste is left behind: if every node of the tree had a slot in use
    and the root could not be left out, then it is so after the deletion, which
    means that nodes that become empty leave the tree and that the tree shrinks to
    the least height for the items that are left. *)
Theorem radix_tree_delete_correct st m tg idx : rep st m tg -> 0 <= idx < 2 ^ 32 ->
  exists st', radix_tree_delete idx st = Some (default 0 (m !! idx), st') /\ rep st' (delete idx m) (fun t => tg t ∖ {[idx]}) /\ pool st' = pool st /\
    (tight st -> tight st' /\ (0 < rheight st' -> exists i, i ∈ dom (delete idx m) /\ 64 ^ (rheight st' - 1) <= i)).
Proof.
  intros (T & H & HT) Hi. destruct (index_delete_eq st T tg idx H Hi) as (st' & T' & E & H' & Hx & Hp & HF). exists st'. rewrite <- (proj2 HT) by lia.
  assert (items_of (delete idx m) T') as HT'.
  { apply (items_delete m T); [done|]. intros x Hx'. rewrite Hx by done.
    destruct (Z.eqb_spec x idx) as [->|]; [by rewrite set_T_eq|]. by rewrite set_T_ne by lia. }
  split; [done|]. split; [by apply (rep_of _ _ _ T')|]. split; [done|]. rewrite (tight_T _ _ _ H), (tight_T _ _ _ H').
  intros HC. destruct (HF HC) as [F W]. split; [done|]. intros Hh. destruct (tight_height _ _ F W Hh) as (i & Ni & Hle). exists i. split; [|done].
  pose proof (pow64 (rheight st' - 1) ltac:(lia)). apply elem_of_dom. rewrite (proj2 HT') in Ni by lia. by destruct (delete idx m !! i).
Qed.

(** C9. Whatever node waits for the end of its grace period or in the pool of a
    processor that goes away, the slab cache gets it back as its constructor left
    it, all slots, tags and the count zero (only the height stays), and the tree
    does not change. *)
Theorem radix_tree_frees_zeroed st m tg action : rep st m tg ->
  (exists r st', rcu_callback st = Some (r, st') /\ rep st' m tg /\
    match r with
    | None => rcu st = []
    | Some nd => exists stale, nd = zero_node stale /\ length (rcu st) = S (length (rcu st'))
    end) /\
  exists l st', radix_tree_callback action st = Some (l, st') /\ rep st' m tg /\ Forall (fun nd => exists stale, nd = zero_node stale) l /\
    (action = CPU_DEAD \/ action = CPU_DEAD_FROZEN -> pool st' = []).
Proof.
  intros (T & H & HT). split.
  - destruct (rcu_callback_eq st T tg H) as (r & st' & E & H' & _ & Hr). exists r, st'. split; [done|]. split; [|done]. by apply (rep_of _ _ _ T).
  - unfold radix_tree_callback. destruct ((action =? CPU_DEAD) || (action =? CPU_DEAD_FROZEN)) eqn:B.
    + run (get_eq st). destruct (drain_eq tg T (length (pool st)) st [] eq_refl H ltac:(constructor)) as (l & st' & E & H' & Hp & Hl). exists l, st'.
      split; [done|]. split; [by apply (rep_of _ _ _ T)|done].
    + exists [], st. apply orb_false_iff in B as [B1 B2]. b2p. split; [done|]. split; [by apply (rep_of _ _ _ T)|]. split; [constructor|].
      intros [?|?]; done.
Qed.

(** *** Examples *)
Lemma radix_tree_tag_correct_witness : exists st', radix_tree_tag_set 70 1 sample_state = Some (12, st') /\ rep st' (<[70 := 12]> ∅) (tg_add (fun _ => ∅) 1 70) /\
  option_map fst (radix_tree_tagged 1 st') = Some true.
Proof.
  destruct (radix_tree_tag_correct sample_state (<[70 := 12]> ∅) (fun _ => ∅) 70 1 sample_rep ltac:(lia) ltac:(lia)) as (Hs & _ & _).
  rewrite lookup_insert_eq in Hs. destruct Hs as (st' & E & H). exists st'. split; [exact E|]. split; [exact H|].
  vm_compute in E. injection E as <-. vm_compute. reflexivity.
Defined.
(** A tree of height 2 with two items, of which one is deleted. *)
Definition two_state : state := match radix_tree_insert next_node 3 8 sample_state with Some (_, st) => st | None => sample_state end.
Lemma two_rep : rep two_state (<[3 := 8]> (<[70 := 12]> ∅)) (fun _ => ∅).
Proof.
  destruct sample_rep as (T & H & HT). unfold two_state.
  destruct (radix_insert_eq next_node next_node_ok (fun _ => ∅) 3 8 ltac:(lia) ltac:(done) ltac:(lia) sample_state T H) as (e & st1 & T1 & E1 & H1 & _ & _ & Hr).
  rewrite E1. pose proof E1 as E1'. vm_compute in E1'. injection E1' as <- _. destruct Hr as [(_ & _ & Hx)|[(Hbad & _)|(Hbad & _)]]; [|discriminate Hbad..].
  apply (rep_of _ _ _ T1); [done|]. by apply (items_insert _ T T1).
Qed.
Lemma two_tight : tight two_state.
Proof.
  split.
  - assert (Forall (fun q : Z * radix_tree_node => q.1 ∈ pool two_state \/ q.1 ∈ rcu two_state \/ ncount q.2 <> 0) (map_to_list (nodes two_state))) as HF
      by (vm_compute; repeat (apply Forall_cons_2; [right; right; done|]); apply Forall_nil_2).
    intros p nd En%elem_of_map_to_list N1 N2. rewrite list.Forall_forall in HF. destruct (HF (p, nd) En) as [?|[?|?]]; done.
  - intros _. eexists _, 1. split; [vm_compute; reflexivity|]. split; [lia|]. vm_compute. done.
Qed.
Lemma radix_tree_delete_correct_witness : exists st', radix_tree_delete 70 two_state = Some (12, st') /\
  rep st' (delete 70 (<[3 := 8]> (<[70 := 12]> ∅))) (fun t => ∅ ∖ {[70]}) /\ tight st' /\ rheight two_state = 2 /\ rheight st' = 1.
Proof.
  destruct (radix_tree_delete_correct two_state _ _ 70 two_rep ltac:(lia)) as (st' & E & H & _ & Ht).
  exists st'. split; [exact E|]. split; [exact H|]. split; [exact (proj1 (Ht two_tight))|].
  split; [vm_compute; reflexivity|]. vm_compute in E. injection E as <-. vm_compute. reflexivity.
Defined.
(** A node that [radix_tree_shrink] takes out with its first slot in use and its
    first tag bit set. *)
Definition shrunk_state : state :=
  match (radix_tree_insert next_node 3 8 ;; radix_tree_tag_set 3 0 ;; radix_tree_delete 70) sample_state with
  | Some (_, st) => st
  | None => sample_state
  end.
Lemma shrunk_rep : rep shrunk_state (<[3 := 8]> ∅) (fun t => tg_add (fun _ => ∅) 0 3 t ∖ {[70]}).
Proof.
  destruct sample_rep as (T & H & HT). unfold shrunk_state.
  destruct (radix_insert_eq next_node next_node_ok (fun _ => ∅) 3 8 ltac:(lia) ltac:(done) ltac:(lia) sample_state T H) as (e & st1 & T1 & E1 & H1 & _ & _ & Hr).
  rewrite (bind_Some _ _ _ _ _ E1). pose proof E1 as E1'. vm_compute in E1'. injection E1' as <- _.
  destruct Hr as [(_ & _ & Hx)|[(Hbad & _)|(Hbad & _)]]; [|discriminate Hbad..].
  pose proof (items_insert _ T T1 3 8 HT ltac:(lia) ltac:(lia) Hx) as HT1.
  assert (T1 0 3 <> 0) as N by (rewrite (proj2 HT1), lookup_insert_eq by lia; done).
  destruct (index_tag_set_eq st1 T1 _ [] H1 3 0 ltac:(lia) ltac:(lia) N) as (st2 & E2 & H2 & _). rewrite (bind_Some _ _ _ _ _ E2).
  destruct (index_delete_eq st2 T1 _ 70 H2 ltac:(lia)) as (st3 & T3 & E3 & H3 & Hx3 & _). rewrite E3. apply (rep_of _ _ _ T3); [done|].
  assert (delete 70 (<[3 := 8]> (<[70 := 12]> (∅ : gmap Z Z))) = <[3 := 8]> ∅) as <- by (vm_compute; reflexivity).
  apply (items_delete _ T1); [done|]. intros x Hx'. rewrite Hx3 by done. destruct (Z.eqb_spec x 70) as [->|]; [by rewrite set_T_eq|].
  by rewrite set_T_ne by lia.
Qed.
Lemma radix_tree_frees_zeroed_witness : exists nd st', rcu_callback shrunk_state = Some (Some nd, st') /\ exists stale, nd = zero_node stale.
Proof.
  destruct (radix_tree_frees_zeroed shrunk_state _ _ CPU_DEAD shrunk_rep) as ((r & st' & E & _ & Hr) & _).
  destruct r as [nd|]; [|vm_compute in Hr; discriminate Hr].
  exists nd, st'. split; [exact E|]. destruct Hr as (stale & -> & _). by exists stale.
Defined.
