(* ===== verification/RadixGang.v ===== *)
(** * Radix trees: scans

    The part of [lib/radix-tree.c] that walks over ranges of indices:
    [radix_tree_next_hole] and the gang lookups of items and slots, with and
    without a tag.  A gang lookup returns the first items, in the order of their
    indices, from the first index on. *)

From Stdlib Require Import ZArith Lia.
From stdpp Require Import base tactics numbers list gmap option.
From S2P Require Import Prelude RadixTree RadixInsert.

(** ** Holes *)
Definition hole_round (max_scan : Z) : Z * Z -> R (Z * Z + Z) := fun '(i, idx) =>
  if i <? max_scan then
    let* v := radix_tree_lookup idx in
    if v =? 0 then ret (inr idx) else
    let idx := u32 (idx + 1) in
    if idx =? 0 then ret (inr idx) else ret (inl (u32 (i + 1), idx))
  else ret (inr idx).
Definition radix_tree_next_hole (idx max_scan : Z) : R Z := while2 33 (hole_round max_scan) (0, idx).

(** ** Scans below one node *)
(** The search for a slot at one height: the index moves to the begin of the next
    slot, and [None] is the way out. *)
Definition skip_round (shift : Z) (test : Z -> R bool) : Z * Z -> R (Z * Z + Z * option Z) := fun '(idx, i) =>
  let* b := test i in
  if b then ret (inr (idx, Some i)) else
  let idx := Z.land idx (not32 (u32 (Z.shiftl 1 shift) - 1)) in
  let idx := u32 (idx + u32 (Z.shiftl 1 shift)) in
  if idx =? 0 then ret (inr (idx, None)) else
  let i := i + 1 in
  if i =? RADIX_TREE_MAP_SIZE then ret (inr (idx, None)) else ret (inl (idx, i)).
Definition skip (shift : Z) (test : Z -> R bool) (idx i : Z) : R (Z * option Z) :=
  while (S (Z.to_nat RADIX_TREE_MAP_SIZE)) (skip_round shift test) (idx, i).

(** The items of a lowest node, at most [max_items] of them. *)
Definition grab_round (slot : Z) (test : Z -> R bool) (max_items : Z) :
    Z * Z * list slot_ref -> R (Z * Z * list slot_ref + Z * list slot_ref) := fun '(i, idx, found) =>
  if i <? RADIX_TREE_MAP_SIZE then
    let idx := u32 (idx + 1) in
    let* b := test i in
    if b then
      let found := found ++ [NodeSlot slot i] in
      if zlen found =? max_items then ret (inr (idx, found)) else ret (inl (i + 1, idx, found))
    else ret (inl (i + 1, idx, found))
  else ret (inr (idx, found)).
Definition grab (slot : Z) (test : Z -> R bool) (max_items idx : Z) : R (Z * list slot_ref) :=
  while (S (Z.to_nat RADIX_TREE_MAP_SIZE)) (grab_round slot test max_items) (Z.land idx RADIX_TREE_MAP_MASK, idx, []).

Definition slot_used (slot i : Z) : R bool := let* v := get_slot slot i in ret (negb (v =? 0)).
Definition level_round : Z * Z * Z * Z -> R (Z * Z * Z * Z + Z * option Z) := fun '(slot, idx, shift, height) =>
  if 1 <? height then
    let* '(idx, r) := skip shift (slot_used slot) idx (Z.land (Z.shiftr idx shift) RADIX_TREE_MAP_MASK) in
    match r with
    | None => ret (inr (idx, None))
    | Some i =>
        let* slot := get_slot slot i in
        if slot =? 0 then ret (inr (idx, None))
        else ret (inl (slot, idx, u32 (shift - RADIX_TREE_MAP_SHIFT), height - 1))
    end
  else ret (inr (idx, Some slot)).
(** The index at which to go on and the slots. *)
Definition __lookup (slot idx max_items : Z) : R (Z * list slot_ref) :=
  let* nd := get_node slot in
  let height := nheight nd in
  if height =? 0 then ret (idx, []) else
  let* '(idx, r) := while (S (Z.to_nat RADIX_TREE_MAX_PATH)) level_round
    (slot, idx, u32 ((height - 1) * RADIX_TREE_MAP_SHIFT), height) in
  match r with
  | None => ret (idx, [])
  | Some slot => grab slot (slot_used slot) max_items idx
  end.

Definition slot_tagged (slot tag i : Z) : R bool :=
  let* t := tag_get slot tag i in if t then slot_used slot i else ret false.
Definition tag_level_round (tag max_items : Z) :
    Z * Z * Z * Z * list slot_ref -> R (Z * Z * Z * Z * list slot_ref + Z * list slot_ref) :=
  fun '(slot, idx, shift, height, found) =>
  if 0 <? height then
    let* '(idx, r) := skip shift (tag_get slot tag) idx (Z.land (Z.shiftr idx shift) RADIX_TREE_MAP_MASK) in
    match r with
    | None => ret (inr (idx, found))
    | Some i =>
        let height := height - 1 in
        let* '(idx, found) := (if height =? 0 then grab slot (slot_tagged slot tag) max_items idx else ret (idx, found)) in
        if (height =? 0) && (zlen found =? max_items) then ret (inr (idx, found)) else
        let* slot := get_slot slot i in
        if slot =? 0 then ret (inr (idx, found))
        else ret (inl (slot, idx, u32 (shift - RADIX_TREE_MAP_SHIFT), height, found))
    end
  else ret (inr (idx, found)).
Definition __lookup_tag (tag slot idx max_items : Z) : R (Z * list slot_ref) :=
  let* nd := get_node slot in
  let height := nheight nd in
  if height =? 0 then ret (idx, []) else
  while (S (Z.to_nat RADIX_TREE_MAX_PATH)) (tag_level_round tag max_items)
    (slot, idx, u32 ((height - 1) * RADIX_TREE_MAP_SHIFT), height, []).

(** ** Gang lookups *)
(** The results of one call: the slots, or the items in them. *)
Fixpoint read_items (l : list slot_ref) : R (list Z) :=
  match l with
  | [] => ret []
  | r :: l =>
      let* v := read_slot r in
      let* vs := read_items l in
      ret (if v =? 0 then vs else v :: vs)
  end.
Definition gang_round {A} (lookup : Z -> Z -> Z -> R (Z * list slot_ref)) (results_of : list slot_ref -> R (list A))
    (node max_index max_items : Z) : Z * list A -> R (Z * list A + list A) := fun '(cur_index, results) =>
  if zlen results <? max_items then
    if max_index <? cur_index then ret (inr results) else
    let* '(next_index, found) := lookup node cur_index (max_items - zlen results) in
    let* new := results_of found in
    if next_index =? 0 then ret (inr (results ++ new)) else ret (inl (next_index, results ++ new))
  else ret (inr results).
Definition gang {A} (lookup : Z -> Z -> Z -> R (Z * list slot_ref)) (results_of : list slot_ref -> R (list A)) (first_index max_items : Z) : R (list A) :=
  let* st := get in
  let node := rnode st in
  if node =? 0 then ret []
  else if negb (radix_tree_is_indirect_ptr node) then
    if 0 <? first_index then ret [] else results_of [RootSlot]
  else
    let node := radix_tree_indirect_to_ptr node in
    let* nd := get_node node in
    let* max_index := radix_tree_maxindex (nheight nd) in
    while2 33 (gang_round lookup results_of node max_index max_items) (first_index, []).

Definition radix_tree_gang_lookup (first_index max_items : Z) : R (list Z) := gang __lookup read_items first_index max_items.
Definition radix_tree_gang_lookup_slot (first_index max_items : Z) : R (list slot_ref) := gang __lookup ret first_index max_items.
Definition radix_tree_gang_lookup_tag (first_index max_items tag : Z) : R (list Z) :=
  let* b := root_tag_get tag in
  if negb b then ret [] else gang (__lookup_tag tag) read_items first_index max_items.
Definition radix_tree_gang_lookup_tag_slot (first_index max_items tag : Z) : R (list slot_ref) :=
  let* b := root_tag_get tag in
  if negb b then ret [] else gang (__lookup_tag tag) ret first_index max_items.

(** ** Indices of a range *)
Section Range.
Context (Q : Z -> Prop) `{forall i, Decision (Q i)}.
Definition idxs (a b : Z) : list Z := filter Q (seqZ a (b - a)).

Lemma idxs_split a b c : a <= b <= c -> idxs a c = idxs a b ++ idxs b c.
Proof.
  intros Hab. unfold idxs. rewrite <- list.filter_app. f_equal. replace (c - a) with ((b - a) + (c - b)) by lia. rewrite seqZ_app by lia. f_equal.
  f_equal. lia.
Qed.
Lemma idxs_none a b : (forall i, a <= i < b -> ~ Q i) -> idxs a b = [].
Proof.
  intros Hn. unfold idxs. apply elem_of_nil_inv. intros i [Hq Hi%elem_of_seqZ]%list_elem_of_filter. apply (Hn i); [lia|done].
Qed.
Lemma idxs_one a : idxs a (a + 1) = if decide (Q a) then [a] else [].
Proof. unfold idxs. replace (a + 1 - a) with 1 by lia. rewrite seqZ_cons by lia. cbn. done. Qed.
End Range.

(** ** The search at one height *)
(** An index as the code has it, where the end of the index space is 0. *)
Definition nxt (n : Z) : Z := if n =? 0 then 2 ^ 32 else n.
Lemma nxt_u32 n : 0 < n <= 2 ^ 32 -> nxt (u32 n) = n.
Proof.
  intros Hn. unfold nxt. destruct (Z.eq_dec n (2 ^ 32)) as [->|]; [done|]. rewrite u32_id by lia. by rewrite eqb_f by lia.
Qed.
Lemma nxt_pos n : 0 < n -> nxt n = n.
Proof. intros. unfold nxt. by rewrite eqb_f by lia. Qed.

(** The begin of the next slot. *)
Definition slot_end (k idx : Z) : Z := (pfx (k - 1) idx + 1) * 64 ^ (k - 1).
Lemma slot_size k : 1 <= k <= 6 -> u32 (Z.shiftl 1 (u32 ((k - 1) * RADIX_TREE_MAP_SHIFT))) = 2 ^ ((k - 1) * 6) /\ 64 ^ (k - 1) = 2 ^ ((k - 1) * 6) /\
  exists c, 2 ^ 32 = c * 64 ^ (k - 1) /\ 0 < c.
Proof.
  intros Hk. assert (64 ^ (k - 1) = 2 ^ ((k - 1) * 6)) as E by (change 64 with (2 ^ 6); rewrite <- Z.pow_mul_r by lia; f_equal; lia).
  unfold RADIX_TREE_MAP_SHIFT. rewrite (u32_id ((k - 1) * 6)) by lia. rewrite Z.shiftl_1_l. split; [|split; [done|]].
  - apply u32_id. split; [apply Z.pow_nonneg; lia|]. apply Z.pow_lt_mono_r; lia.
  - exists (2 ^ (32 - (k - 1) * 6)). rewrite E, <- Z.pow_add_r by lia. split; [f_equal; lia|]. apply Z.pow_pos_nonneg; lia.
Qed.
Lemma slot_end_spec k idx : 1 <= k <= 6 -> 0 <= idx < 2 ^ 32 ->
  idx < slot_end k idx <= 2 ^ 32 /\ (forall j, idx <= j < slot_end k idx -> pfx (k - 1) j = pfx (k - 1) idx) /\
  u32 (Z.land idx (not32 (u32 (Z.shiftl 1 (u32 ((k - 1) * RADIX_TREE_MAP_SHIFT))) - 1)) + u32 (Z.shiftl 1 (u32 ((k - 1) * RADIX_TREE_MAP_SHIFT)))) = u32 (slot_end k idx).
Proof.
  intros Hk Hi. destruct (slot_size k Hk) as (-> & E & c & Ec & Hc). pose proof (pow64 (k - 1) ltac:(lia)) as Hw. unfold slot_end.
  pose proof (Z.div_mod idx (64 ^ (k - 1)) ltac:(lia)) as Hd. pose proof (Z.mod_pos_bound idx (64 ^ (k - 1)) Hw) as Hm. fold (pfx (k - 1) idx) in Hd.
  set (w := 64 ^ (k - 1)) in *. set (y := pfx (k - 1) idx) in *. split; [|split].
  - split; [lia|]. rewrite Ec in Hi |- *. assert (y < c) by nia. nia.
  - intros j Hj. unfold pfx. fold w. symmetry. apply (Z.div_unique_pos j w y (j - w * y)); nia.
  - unfold not32. rewrite land_mask by lia. rewrite <- E. f_equal. lia.
Qed.
Lemma pfx_slot_end k idx : 1 <= k -> pfx (k - 1) idx mod 64 + 1 <> 64 ->
  pfx k (slot_end k idx) = pfx k idx /\ pfx (k - 1) (slot_end k idx) mod 64 = pfx (k - 1) idx mod 64 + 1.
Proof.
  intros Hk Hne. assert (pfx (k - 1) (slot_end k idx) = pfx (k - 1) idx + 1) as E by (apply pfx_mul; lia). split; [|rewrite E; dlia].
  rewrite (pfx_up k (slot_end k idx) _ Hk E), (pfx_up k idx _ Hk eq_refl). dlia.
Qed.

Section Skip.
Context (st : state) (k x : Z) (Hk : 1 <= k <= 6) (test : Z -> R bool) (b : Z -> bool) (Q : Z -> Prop).
Context (Htest : forall i, 0 <= i < 64 -> test i st = Some (b i, st)).
Context (HQ : forall i j, 0 <= i < 64 -> b i = false -> 0 <= j -> pfx (k - 1) j = 64 * x + i -> ~ Q j).

Definition skipped (idx idx' : Z) (r : option Z) : Prop :=
  match r with
  | Some i => idx <= idx' < 2 ^ 32 /\ pfx k idx' = x /\ i = pfx (k - 1) idx' mod 64 /\ b i = true /\ forall j, idx <= j < idx' -> ~ Q j
  | None => 0 <= idx' < 2 ^ 32 /\ idx < nxt idx' <= 2 ^ 32 /\ forall j, idx <= j < nxt idx' -> ~ Q j
  end.
Lemma skip_loop fuel : forall idx, 0 <= idx < 2 ^ 32 -> pfx k idx = x -> (Z.to_nat (64 - pfx (k - 1) idx mod 64) < fuel)%nat ->
  exists idx' r, while fuel (skip_round (u32 ((k - 1) * RADIX_TREE_MAP_SHIFT)) test) (idx, pfx (k - 1) idx mod 64) st = Some ((idx', r), st) /\ skipped idx idx' r.
Proof using All.
  induction fuel as [|fuel IH]; intros idx Hi Hx Hf; [lia|]. rewrite while_S. unfold skip_round at 1. set (i := pfx (k - 1) idx mod 64) in *.
  assert (0 <= i < 64) as Hi' by (unfold i; dlia). run (Htest i Hi'). destruct (b i) eqn:Eb.
  { exists idx, (Some i). split; [done|]. split; [lia|]. repeat split; try done. intros j Hj. lia. }
  destruct (slot_end_spec k idx Hk Hi) as (He & Hin & ->). set (e := slot_end k idx) in *.
  assert (forall j, idx <= j < e -> ~ Q j) as Hno.
  { intros j Hj. apply (HQ i); [done|done|lia|]. rewrite Hin by done. rewrite <- Hx. unfold i. apply pfx_down. lia. }
  assert (skipped idx (u32 e) None) as Hout.
  { split; [apply (uint_wrap 32); lia|]. rewrite nxt_u32 by lia. done. }
  destruct (Z.eqb_spec (u32 e) 0) as [E0|N0]; [by exists (u32 e), None|]. change RADIX_TREE_MAP_SIZE with 64.
  destruct (Z.eqb_spec (i + 1) 64) as [E64|N64]; [by exists (u32 e), None|]. run_ret. cbn [bind].
  assert (e < 2 ^ 32) as Hlt by (destruct (Z.eq_dec e (2 ^ 32)) as [E|]; [by rewrite E in N0|lia]). assert (u32 e = e) as Eu by (apply u32_id; lia).
  rewrite Eu in *.
  destruct (pfx_slot_end k idx ltac:(lia) N64) as [E1 E2]. fold e i in E1, E2. rewrite <- E2.
  destruct (IH e ltac:(lia) ltac:(congruence)) as (idx' & r & E & Hr); [lia|]. exists idx', r. split; [exact E|]. destruct r as [i'|].
  - destruct Hr as (A1 & A2 & A3 & A4 & A5). split; [lia|]. repeat split; try done. intros j Hj.
    destruct (Z_lt_le_dec j e); [apply Hno; lia|apply A5; lia].
  - destruct Hr as (A1 & A2 & A3). split; [done|]. split; [lia|]. intros j Hj. destruct (Z_lt_le_dec j e); [apply Hno; lia|apply A3; lia].
Qed.
Lemma skip_eq idx : 0 <= idx < 2 ^ 32 -> pfx k idx = x ->
  exists idx' r, skip (u32 ((k - 1) * RADIX_TREE_MAP_SHIFT)) test idx (pfx (k - 1) idx mod 64) st = Some ((idx', r), st) /\ skipped idx idx' r.
Proof using All. intros Hi Hx. apply skip_loop; [done|done|]. change (Z.to_nat RADIX_TREE_MAP_SIZE) with 64%nat. dlia. Qed.
End Skip.

(** ** The items of a lowest node *)
Definition refs (P : Z) (l : list Z) : list slot_ref := (fun j => NodeSlot P (j mod 64)) <$> l.
Lemma zlen_refs P l : zlen (refs P l) = zlen l.
Proof. unfold zlen, refs. by rewrite length_fmap. Qed.

Section Grab.
Context (st : state) (P x max_items : Z) (Hx : 0 <= x) (Hend : 64 * x + 64 <= 2 ^ 32) (test : Z -> R bool) (Q : Z -> Prop) `{forall i, Decision (Q i)}.
Context (Htest : forall i, 0 <= i < 64 -> test i st = Some (bool_decide (Q (64 * x + i)), st)).

Lemma grab_loop fuel : forall i found, 0 <= i <= 64 -> zlen found < max_items -> (Z.to_nat (64 - i) < fuel)%nat ->
  exists e, while fuel (grab_round P test max_items) (i, u32 (64 * x + i), found) st = Some ((u32 e, found ++ refs P (idxs Q (64 * x + i) e)), st) /\
    64 * x + i <= e <= 64 * x + 64 /\ (i < 64 -> 64 * x + i < e) /\ zlen found + zlen (idxs Q (64 * x + i) e) <= max_items.
Proof using Hx Hend Htest.
  induction fuel as [|fuel IH]; intros i found Hi Hfd Hf; [lia|]. rewrite while_S. unfold grab_round at 1. change RADIX_TREE_MAP_SIZE with 64.
  destruct (i <? 64) eqn:B; b2p.
  2:{ exists (64 * x + i). rewrite idxs_none by (intros; lia). cbn [refs fmap list_fmap]. rewrite app_nil_r. change (zlen []) with 0. run_ret.
      split; [done|lia]. }
  run (Htest i ltac:(lia)).
  assert (u32 (u32 (64 * x + i) + 1) = u32 (64 * x + (i + 1))) as -> by (unfold wrap; rewrite Zplus_mod_idemp_l; f_equal; lia).
  assert (forall e, 64 * x + i < e -> idxs Q (64 * x + i) e = (if decide (Q (64 * x + i)) then [64 * x + i] else []) ++ idxs Q (64 * x + (i + 1)) e) as Hsplit.
  { intros e He. rewrite (idxs_split Q _ (64 * x + i + 1) e) by lia. rewrite idxs_one. do 2 f_equal. lia. }
  assert ((64 * x + i) mod 64 = i) as Em by dlia.
  case_bool_decide as Hq; [destruct (Z.eqb_spec (zlen (found ++ [NodeSlot P i])) max_items) as [El|Nl]|]; rewrite ?zlen_app in *.
  - exists (64 * x + (i + 1)). rewrite Hsplit by lia. rewrite decide_True, idxs_none by (done || intros; lia). cbn [app refs fmap list_fmap].
    rewrite Em.
    change (zlen [NodeSlot P i]) with 1 in *. change (zlen [64 * x + i]) with 1. run_ret. split; [done|lia].
  - change (zlen [NodeSlot P i]) with 1 in *. run_ret. cbn [bind].
    destruct (IH (i + 1) (found ++ [NodeSlot P i]) ltac:(lia) ltac:(rewrite zlen_app; change (zlen [NodeSlot P i]) with 1; lia) ltac:(lia)) as (e & E & He & _ & Hm).
    exists e. rewrite Hsplit by lia. rewrite decide_True by done. rewrite zlen_app in Hm. rewrite zlen_app. change (zlen [NodeSlot P i]) with 1 in Hm.
    change (zlen [64 * x + i]) with 1.
    split; [rewrite E; cbn [app refs fmap list_fmap]; rewrite Em, <- app_assoc; done|lia].
  - run_ret. cbn [bind]. destruct (IH (i + 1) found ltac:(lia) ltac:(lia) ltac:(lia)) as (e & E & He & _ & Hm).
    exists e. rewrite Hsplit by lia. rewrite decide_False by done. cbn [app]. split; [exact E|lia].
Qed.
Lemma grab_eq idx : 1 <= max_items -> 0 <= idx < 2 ^ 32 -> pfx 1 idx = x ->
  exists e, grab P test max_items idx st = Some ((u32 e, refs P (idxs Q idx e)), st) /\ idx < e <= 64 * x + 64 /\ zlen (idxs Q idx e) <= max_items.
Proof using Hx Hend Htest.
  intros Hm Hi Ex. unfold grab. change RADIX_TREE_MAP_MASK with (Z.ones 6). rewrite Z.land_ones by lia. change (2 ^ 6) with 64.
  pose proof (pfx_down 1 idx ltac:(lia)) as Ed. rewrite Z.sub_diag, pfx_0, Ex in Ed.
  destruct (grab_loop (S (Z.to_nat RADIX_TREE_MAP_SIZE)) (idx mod 64) [] ltac:(dlia) ltac:(change (zlen []) with 0; lia)) as (e & E & H1 & H2 & H3).
  { change (Z.to_nat RADIX_TREE_MAP_SIZE) with 64%nat. dlia. }
  rewrite <- Ed in *. rewrite u32_id in E by lia. exists e. split; [exact E|]. change (zlen []) with 0 in H3.
  split; [split; [apply H2; dlia|lia]|lia].
Qed.
End Grab.

(** ** One call *)
Section OneCall.
Context (st : state) (T : Z -> Z -> Z) (tg : Z -> gset Z) (H : tree_ok st T tg []).
Let HS : struct_ok (rheight st) (nodes st) T tg := t_struct _ _ _ _ H.

Definition slot_at (j : Z) : slot_ref := NodeSlot (T 1 (pfx 1 j)) (j mod 64).
(** The slots of all indices up to the one at which to go on. *)
Definition scanned (Q : Z -> Prop) `{forall i, Decision (Q i)} (idx max_items : Z) (r : Z * list slot_ref) : Prop :=
  0 <= r.1 < 2 ^ 32 /\ idx < nxt r.1 <= 2 ^ 32 /\ r.2 = slot_at <$> idxs Q idx (nxt r.1) /\ zlen r.2 <= max_items.

Lemma refs_slot_at Q `{forall i, Decision (Q i)} idx e : 0 <= idx -> e <= 64 * pfx 1 idx + 64 -> refs (T 1 (pfx 1 idx)) (idxs Q idx e) = slot_at <$> idxs Q idx e.
Proof using.
  intros Hi He. unfold refs. apply list_fmap_ext. intros n j Hj%list_elem_of_lookup_2. apply list_elem_of_filter in Hj as [_ Hj%elem_of_seqZ].
  unfold slot_at. do 2 f_equal.
  unfold pfx in *. change (64 ^ 1) with 64 in *. dlia.
Qed.
(** A scan that ends in a lowest node. *)
Lemma scanned_grab Q `{forall i, Decision (Q i)} idx idx' e max_items : 0 <= idx <= idx' -> idx' < 2 ^ 32 -> (forall j, idx <= j < idx' -> ~ Q j) ->
  idx' < e <= 64 * pfx 1 idx' + 64 -> zlen (idxs Q idx' e) <= max_items -> scanned Q idx max_items (u32 e, refs (T 1 (pfx 1 idx')) (idxs Q idx' e)).
Proof using.
  intros Hi Hlt Hno He Hm. assert (e <= 2 ^ 32) as He2 by (unfold pfx in He; change (64 ^ 1) with 64 in He; pow2; dlia).
  unfold scanned. cbn [fst snd]. split; [apply (uint_wrap 32); lia|]. rewrite nxt_u32 by lia. rewrite zlen_refs. split; [lia|]. split; [|done].
  rewrite refs_slot_at by lia. rewrite (idxs_split Q idx idx' e), (idxs_none Q idx idx') by (done || lia). done.
Qed.
Lemma scanned_out Q `{forall i, Decision (Q i)} idx idx' max_items : 0 <= max_items -> 0 <= idx' < 2 ^ 32 -> idx < nxt idx' <= 2 ^ 32 ->
  (forall j, idx <= j < nxt idx' -> ~ Q j) -> scanned Q idx max_items (idx', []).
Proof using. intros Hm H1 H2 H3. unfold scanned. cbn [fst snd]. rewrite idxs_none by done. change (zlen []) with 0. done. Qed.
Lemma scanned_later Q `{forall i, Decision (Q i)} idx idx' max_items r : idx <= idx' -> (forall j, idx <= j < idx' -> ~ Q j) -> scanned Q idx' max_items r -> scanned Q idx max_items r.
Proof using.
  intros Hle Hno (A1 & A2 & A3 & A4). split; [done|]. split; [lia|]. split; [|done]. rewrite A3. f_equal.
  rewrite (idxs_split Q idx idx'), (idxs_none Q idx idx') by (done || lia). done.
Qed.

Lemma slot_used_eq P nd i : nodes st !! P = Some nd -> shape nd -> 0 <= i < 64 -> slot_used P i st = Some (negb (at_ (slots nd) i =? 0), st).
Proof using. intros En Sh Hi. unfold slot_used. run (get_slot_eq st P nd En Sh i Hi). done. Qed.

Definition item (j : Z) : Prop := T 0 j <> 0.
Definition leveled (idx idx' : Z) (r : option Z) : Prop :=
  match r with
  | Some slot => idx <= idx' < 2 ^ 32 /\ slot = T 1 (pfx 1 idx') /\ slot <> 0 /\ forall j, idx <= j < idx' -> ~ item j
  | None => 0 <= idx' < 2 ^ 32 /\ idx < nxt idx' <= 2 ^ 32 /\ forall j, idx <= j < nxt idx' -> ~ item j
  end.
Lemma level_loop n : forall k idx fuel, n = Z.to_nat k -> 1 <= k <= rheight st -> 0 <= idx < 2 ^ 32 -> T k (pfx k idx) <> 0 -> (n <= fuel)%nat ->
  exists idx' r, while fuel level_round (T k (pfx k idx), idx, u32 ((k - 1) * RADIX_TREE_MAP_SHIFT), k) st = Some ((idx', r), st) /\ leveled idx idx' r.
Proof using All.
  induction n as [|n IH]; intros k idx fuel En Hk Hi N Hf; [lia|]. destruct fuel as [|fuel]; [lia|]. pose proof (s_height _ _ _ _ HS) as H6.
  rewrite while_S. unfold level_round at 1. destruct (1 <? k) eqn:B; b2p.
  2:{ assert (k = 1) as -> by lia. run_ret. exists idx, (Some (T 1 (pfx 1 idx))). split; [done|]. split; [lia|]. repeat split; try done. intros; lia.
      }
  rewrite offset_eq by lia. destruct (path_node _ _ _ _ HS idx ltac:(lia) k Hk N) as (nd & Ep & Hn & _). set (x := pfx k idx) in *.
  destruct (skip_eq st k x ltac:(lia) (slot_used (T k x)) (fun i => negb (at_ (slots nd) i =? 0)) item) with (idx := idx) as (idx' & r & E & Hr); [|..|done|done|].
  { intros i Hi'. apply slot_used_eq; [done|apply Hn|done]. }
  { intros i j Hi' Eb Hj Ej Hit. b2p. rewrite (n_slot _ _ _ _ _ Hn) in Eb by done. apply Hit. rewrite <- (pfx_0 j).
    apply (below_none _ _ _ _ HS j Hj (k - 1)); [lia..|]. by rewrite Ej. }
  run E. destruct r as [i|]; [|by exists idx', None]. destruct Hr as (A1 & A2 & -> & A4 & A5). b2p.
  run (get_slot_eq st _ nd Ep (n_shape _ _ _ _ _ Hn) (pfx (k - 1) idx' mod 64) ltac:(dlia)). rewrite eqb_f by done.
  rewrite (n_slot _ _ _ _ _ Hn) in A4 |- * by dlia. rewrite <- A2 in A4 |- *. rewrite <- pfx_down in A4 |- * by lia. rewrite shift_step. run_ret.
  cbn [bind].
  destruct (IH (k - 1) idx' fuel ltac:(lia) ltac:(lia) ltac:(lia) A4 ltac:(lia)) as (idx2 & r & E2 & Hr). exists idx2, r. split; [exact E2|].
  destruct r as [slot|].
  - destruct Hr as (B1 & B2 & B3 & B4). split; [lia|]. split; [done|]. split; [done|]. intros j Hj.
    destruct (Z_lt_le_dec j idx'); [apply A5; lia|apply B4; lia].
  - destruct Hr as (B1 & B2 & B3). split; [done|]. split; [lia|]. intros j Hj. destruct (Z_lt_le_dec j idx'); [apply A5; lia|apply B3; lia].
Qed.

#[local] Instance item_dec j : Decision (item j) := _.
Lemma lookup_call idx max_items : 1 <= rheight st -> T (rheight st) 0 <> 0 -> 1 <= max_items -> 0 <= idx < 2 ^ 32 -> pfx (rheight st) idx = 0 ->
  exists r, __lookup (T (rheight st) 0) idx max_items st = Some (r, st) /\ scanned item idx max_items r.
Proof using All.
  intros Hh N Hm Hi Ez. pose proof (s_height _ _ _ _ HS) as H6. destruct (s_node _ _ _ _ HS (rheight st) 0 ltac:(lia) ltac:(lia) N) as (nd & En & Hn).
  unfold __lookup. run (get_node_eq st _ nd En). rewrite (n_height _ _ _ _ _ Hn), eqb_f by lia.
  destruct (level_loop (Z.to_nat (rheight st)) (rheight st) idx (S (Z.to_nat RADIX_TREE_MAX_PATH))) as (idx' & r & E & Hr); try done; try lia; [by rewrite Ez|change (Z.to_nat RADIX_TREE_MAX_PATH) with 6%nat; lia|].
  rewrite Ez in E. run E. destruct r as [slot|].
  - destruct Hr as (A1 & -> & A3 & A4). destruct (s_node _ _ _ _ HS 1 (pfx 1 idx') ltac:(lia) ltac:(apply pfx_nonneg; lia) A3) as (nd1 & En1 & Hn1).
    destruct (grab_eq st (T 1 (pfx 1 idx')) (pfx 1 idx') max_items) with (test := slot_used (T 1 (pfx 1 idx'))) (Q := item) (idx := idx') (H := item_dec) as (e & E' & He & Hz); try done; try lia.
    + apply pfx_nonneg; lia.
    + unfold pfx. change (64 ^ 1) with 64. pow2. dlia.
    + intros i Hi'. rewrite (slot_used_eq _ nd1) by (done || apply Hn1). rewrite (n_slot _ _ _ _ _ Hn1) by done. rewrite Z.sub_diag. do 2 f_equal.
      unfold item.
      case_bool_decide as Hc; destruct (Z.eqb_spec (T 0 (64 * pfx 1 idx' + i)) 0); done.
    + eexists. split; [exact E'|]. apply scanned_grab; try done; lia.
  - destruct Hr as (A1 & A2 & A3). eexists. split; [done|]. apply scanned_out; try done; lia.
Qed.

(** With a tag. *)
Section Tagged.
Context (tag : Z) (Ht : 0 <= tag < 2).
Definition tagged (j : Z) : Prop := j ∈ tg tag.
#[local] Instance tagged_dec j : Decision (tagged j) := _.

Lemma slot_tagged_eq x nd : T 1 x <> 0 -> nodes st !! T 1 x = Some nd -> node_ok T tg 1 x nd ->
  forall i, 0 <= i < 64 -> slot_tagged (T 1 x) tag i st = Some (bool_decide (tagged (64 * x + i)), st).
Proof using H Ht.
  intros N En Hn i Hi. unfold slot_tagged. run (tag_get_eq st _ nd En (n_shape _ _ _ _ _ Hn) tag i Ht Hi).
  pose proof (n_tag _ _ _ _ _ Hn tag i Ht Hi) as Hb.
  assert (covers tg tag (1 - 1) (64 * x + i) <-> tagged (64 * x + i)) as Hc.
  { unfold covers, tagged. rewrite Z.sub_diag. setoid_rewrite pfx_0. split; [by intros (j & Hj & ->)|eauto]. }
  rewrite Hc in Hb. destruct (tagbit nd tag i).
  - rewrite (slot_used_eq _ nd) by (done || apply Hn). assert (tagged (64 * x + i)) as Hq by (by apply Hb). rewrite bool_decide_true by done.
    rewrite (n_slot _ _ _ _ _ Hn) by done. destruct (s_tagged _ _ _ _ HS tag _ Ht Hq) as [_ N0]. rewrite Z.sub_diag, eqb_f by done. done.
  - rewrite bool_decide_false; [done|]. intros Hq. apply Hb in Hq. done.
Qed.

Lemma tag_level_loop max_items n : 1 <= max_items -> forall k idx fuel, n = Z.to_nat k -> 1 <= k <= rheight st -> 0 <= idx < 2 ^ 32 -> T k (pfx k idx) <> 0 -> (n < fuel)%nat ->
  exists r, while fuel (tag_level_round tag max_items) (T k (pfx k idx), idx, u32 ((k - 1) * RADIX_TREE_MAP_SHIFT), k, []) st = Some (r, st) /\ scanned tagged idx max_items r.
Proof using H Ht.
  intros Hm. induction n as [|n IH]; intros k idx fuel En Hk Hi N Hf; [lia|]. destruct fuel as [|fuel]; [lia|].
  pose proof (s_height _ _ _ _ HS) as H6.
  rewrite while_S. unfold tag_level_round at 1. rewrite ltb_t, offset_eq by lia.
  destruct (path_node _ _ _ _ HS idx ltac:(lia) k Hk N) as (nd & Ep & Hn & _). set (x := pfx k idx) in *.
  destruct (skip_eq st k x ltac:(lia) (tag_get (T k x) tag) (tagbit nd tag) tagged) with (idx := idx) as (idx' & r & E & Hr); [|..|done|done|].
  { intros i Hi'. apply (tag_get_eq st _ nd Ep); [apply Hn|done|done]. }
  { intros i j Hi' Eb Hj Ej Hq. apply not_true_iff_false in Eb. apply Eb, (n_tag _ _ _ _ _ Hn); [done|done|]. by exists j. }
  run E. destruct r as [i|].
  2:{ destruct Hr as (A1 & A2 & A3). eexists. split; [done|]. apply scanned_out; try done; lia. }
  destruct Hr as (A1 & A2 & -> & A4 & A5). pose proof (n_slot _ _ _ _ _ Hn (pfx (k - 1) idx' mod 64) ltac:(dlia)) as Es.
  rewrite <- A2, <- pfx_down in Es by lia.
  assert (T (k - 1) (pfx (k - 1) idx') <> 0) as N'.
  { intros E0. apply (n_tag _ _ _ _ _ Hn) in A4; [|done|dlia]. rewrite <- A2, <- pfx_down in A4 by lia.
    by apply (covers_none _ _ _ _ _ _ _ HS) in A4; [|lia..|]. }
  destruct (Z.eqb_spec (k - 1) 0) as [E1|N1]; cbn [andb].
  - assert (k = 1) as -> by lia. unfold x in *. rewrite <- A2 in *.
    destruct (grab_eq st (T 1 (pfx 1 idx')) (pfx 1 idx') max_items) with (test := slot_tagged (T 1 (pfx 1 idx')) tag) (Q := tagged) (idx := idx') (H := tagged_dec) as (e & E' & He & Hz); try done; try lia.
    { apply pfx_nonneg; lia. }
    { unfold pfx. change (64 ^ 1) with 64. pow2. dlia. }
    { by apply (slot_tagged_eq _ nd). }
    run E'. pose proof (scanned_grab tagged idx idx' e max_items ltac:(lia) ltac:(lia) A5 He Hz) as Hs. rewrite zlen_refs.
    destruct (Z.eqb_spec (zlen (idxs tagged idx' e)) max_items); [by eexists|].
    run (get_slot_eq st _ nd Ep (n_shape _ _ _ _ _ Hn) (pfx (1 - 1) idx' mod 64) ltac:(dlia)). rewrite Es, eqb_f by done. run_ret. cbn [bind].
    destruct fuel as [|fuel]; [lia|]. rewrite while_S. unfold tag_level_round at 1. cbn [Z.sub Z.ltb Z.compare Z.add Z.opp Z.pos_sub]. by eexists.
  - run_ret. run (get_slot_eq st _ nd Ep (n_shape _ _ _ _ _ Hn) (pfx (k - 1) idx' mod 64) ltac:(dlia)). rewrite Es, eqb_f by done. rewrite shift_step.
    run_ret. cbn [bind].
    destruct (IH (k - 1) idx' fuel ltac:(lia) ltac:(lia) ltac:(lia) N' ltac:(lia)) as (r & E2 & Hr). exists r. split; [exact E2|].
    by apply (scanned_later tagged idx idx'); [lia|..].
Qed.
Lemma lookup_tag_call idx max_items : 1 <= rheight st -> T (rheight st) 0 <> 0 -> 1 <= max_items -> 0 <= idx < 2 ^ 32 -> pfx (rheight st) idx = 0 ->
  exists r, __lookup_tag tag (T (rheight st) 0) idx max_items st = Some (r, st) /\ scanned tagged idx max_items r.
Proof using H Ht.
  intros Hh N Hm Hi Ez. pose proof (s_height _ _ _ _ HS) as H6. destruct (s_node _ _ _ _ HS (rheight st) 0 ltac:(lia) ltac:(lia) N) as (nd & En & Hn).
  unfold __lookup_tag. run (get_node_eq st _ nd En). rewrite (n_height _ _ _ _ _ Hn), eqb_f by lia.
  destruct (tag_level_loop max_items (Z.to_nat (rheight st)) Hm (rheight st) idx (S (Z.to_nat RADIX_TREE_MAX_PATH))) as (r & E & Hr); try done; try lia; [by rewrite Ez|change (Z.to_nat RADIX_TREE_MAX_PATH) with 6%nat; lia|].
  rewrite Ez in E. by exists r.
Qed.
End Tagged.
End OneCall.

(** ** All calls *)
Lemma idxs_ext Q Q' `{forall i, Decision (Q i)} `{forall i, Decision (Q' i)} a b : (forall i, a <= i < b -> Q i <-> Q' i) -> idxs Q a b = idxs Q' a b.
Proof.
  intros HQ. unfold idxs. assert (forall i, i ∈ seqZ a (b - a) -> Q i <-> Q' i) as Hl by (intros i Hi%elem_of_seqZ; apply HQ; lia).
  induction (seqZ a (b - a)) as [|i l IH]; [done|]. assert (Q i <-> Q' i) as Hi by (apply Hl, elem_of_cons; by left).
  rewrite !filter_cons. rewrite IH by (intros j Hj; apply Hl, elem_of_cons; by right). destruct (decide (Q i)), (decide (Q' i)); done || naive_solver.
Qed.
Lemma elem_idxs Q `{forall i, Decision (Q i)} a b i : i ∈ idxs Q a b <-> Q i /\ a <= i < b.
Proof. unfold idxs. rewrite list_elem_of_filter, elem_of_seqZ. split; intros [? ?]; (split; [done|lia]). Qed.
Lemma take_prefix {A} (l1 l2 : list A) n : zlen l1 <= n -> zlen l1 = n \/ l2 = [] -> take (Z.to_nat n) (l1 ++ l2) = l1.
Proof.
  intros Hn [E| ->]; [|rewrite app_nil_r; apply take_ge; unfold zlen in *; lia]. rewrite take_app_length'; [done|]. unfold zlen in E. lia.
Qed.

Section Gang.
Context (st : state) (T : Z -> Z -> Z) (tg : Z -> gset Z) (H : tree_ok st T tg []).
Context {A : Type} (lookup : Z -> Z -> Z -> R (Z * list slot_ref)) (results_of : list slot_ref -> R (list A)) (g : Z -> A).
Context (Q : Z -> Prop) `{forall i, Decision (Q i)} (HQ : forall i, 0 <= i -> Q i -> T 0 i <> 0).
Context (Hres : forall l, (forall i, i ∈ l -> 0 <= i < 2 ^ 32 /\ Q i) -> results_of (slot_of st T <$> l) st = Some (g <$> l, st)).
Context (Hcall : forall idx max_items, 1 <= rheight st -> T (rheight st) 0 <> 0 -> 1 <= max_items -> 0 <= idx < 2 ^ 32 -> pfx (rheight st) idx = 0 ->
  exists r, lookup (T (rheight st) 0) idx max_items st = Some (r, st) /\ scanned T Q idx max_items r).
Let HS : struct_ok (rheight st) (nodes st) T tg := t_struct _ _ _ _ H.

Definition gang_result (first_index max_items : Z) : list A := g <$> take (Z.to_nat max_items) (idxs Q first_index (2 ^ 32)).

Lemma gang_loop first_index max_items max_index : 1 <= rheight st -> T (rheight st) 0 <> 0 -> 1 <= max_items -> 0 <= first_index < 2 ^ 32 ->
  max_index = Z.min (64 ^ rheight st - 1) (2 ^ 32 - 1) ->
  exists r, while2 33 (gang_round lookup results_of (T (rheight st) 0) max_index max_items) (first_index, []) st = Some (r, st) /\ r = gang_result first_index max_items.
Proof using All.
  intros Hh N Hm Hi ->. pose proof (s_height _ _ _ _ HS) as H6.
  apply (while2_spec _ st (fun '(cur, results) => first_index <= cur < 2 ^ 32 /\ results = g <$> idxs Q first_index cur /\ zlen results <= max_items)
    (fun r => r = gang_result first_index max_items) (fun '(cur, _) => 2 ^ 32 - cur)).
  - intros [cur results] [? _]. lia.
  - intros [cur results] (Hc & -> & Hl). unfold gang_round.
    assert (zlen (g <$> idxs Q first_index cur) = zlen (idxs Q first_index cur)) as El by apply zlen_fmap.
    rewrite El in *. destruct (zlen (idxs Q first_index cur) <? max_items) eqn:B; b2p.
    2:{ eexists. split; [done|]. unfold gang_result. rewrite (idxs_split Q first_index cur (2 ^ 32)) by lia. by rewrite take_prefix by lia. }
    rewrite above_max by (done || lia). destruct (Z.eqb_spec (pfx (rheight st) cur) 0) as [Ez|Nz]; cbn [negb].
    2:{ eexists. split; [done|]. unfold gang_result.
        rewrite (idxs_split Q first_index cur (2 ^ 32)), (idxs_none Q cur); [by rewrite app_nil_r, take_ge by (unfold zlen in *; lia)| |lia].
        intros j Hj Hq. pose proof (HQ j ltac:(lia) Hq) as Nj. apply (item_top _ _ _ _ HS j ltac:(lia)) in Nj. rewrite pfx_small in Nj, Nz by lia.
        lia. }
    pose proof (Hcall cur (max_items - zlen (idxs Q first_index cur))) as Hcall1.
    destruct (Hcall1 Hh N ltac:(lia) ltac:(lia) Ez) as ([n fd] & E & Hs). run E.
    destruct Hs as (S1 & S2 & S3 & S4). cbn [fst snd] in *. subst fd.
    assert (slot_at T <$> idxs Q cur (nxt n) = slot_of st T <$> idxs Q cur (nxt n)) as Esl.
    { apply list_fmap_ext. intros k j _. unfold slot_at, slot_of. by rewrite eqb_f by lia. }
    rewrite Esl. run (Hres (idxs Q cur (nxt n)) ltac:(intros i [Hq Hr]%elem_idxs; split; [lia|exact Hq])). rewrite <- fmap_app, <- idxs_split by lia.
    rewrite zlen_fmap in S4.
    assert (zlen (idxs Q first_index (nxt n)) <= max_items) as Hl' by (rewrite (idxs_split Q first_index cur), zlen_app by lia; lia).
    destruct (Z.eqb_spec n 0) as [->|Nn]; (eexists; split; [done|]).
    + unfold gang_result. by rewrite take_ge by (change (nxt 0) with (2 ^ 32) in Hl'; unfold zlen in Hl'; lia).
    + rewrite (nxt_pos n) in * by lia. split; [|lia]. split; [lia|]. split; [done|]. by rewrite zlen_fmap.
  - split; [lia|]. rewrite idxs_none by (intros; lia). split; [done|]. change (zlen []) with 0. lia.
  - lia.
Qed.

Lemma gang_eq first_index max_items : 1 <= max_items -> 0 <= first_index < 2 ^ 32 -> (rheight st = 0 -> T 0 0 <> 0 -> Q 0) ->
  gang lookup results_of first_index max_items st = Some (gang_result first_index max_items, st).
Proof using All.
  intros Hm Hi Hroot. pose proof (s_height _ _ _ _ HS) as H6. unfold gang. run (get_eq st).
  pose proof (s_ptr _ _ _ _ HS (rheight st) 0 ltac:(lia) ltac:(lia)) as PP. pose proof (rnode_zero st T tg [] H) as Hz.
  destruct (Z.eqb_spec (rnode st) 0) as [E0|N0].
  { apply Hz in E0. unfold gang_result. rewrite idxs_none; [by rewrite take_nil|]. intros j Hj Hq. apply (HQ j ltac:(lia) Hq).
    apply (empty_all _ _ _ _ 0 j HS); done || lia. }
  assert (T (rheight st) 0 <> 0) as N by (intros E; by apply Hz in E). rewrite (r_rnode _ _ _ _ _ (t_root _ _ _ _ H)).
  destruct (Z.eqb_spec (rheight st) 0) as [Eh|Nh].
  - rewrite Eh in *. rewrite not_indirect by done. cbn [negb]. assert (forall j, 0 < j -> ~ Q j) as Hno.
    { intros j Hj Hq. apply (HQ j ltac:(lia) Hq). exact (s_top _ _ _ _ HS j Hj). }
    destruct (0 <? first_index) eqn:B; b2p.
    + unfold gang_result. rewrite idxs_none by (intros j Hj; apply Hno; lia). by rewrite take_nil.
    + assert (first_index = 0) as -> by lia.
      pose proof (Hres [0] ltac:(intros i Hin%list_elem_of_singleton; subst i; split; [lia|]; by apply Hroot)) as E.
      cbn [fmap list_fmap] in E. unfold slot_of in E at 1. rewrite Eh in E. cbn [Z.eqb] in E. rewrite E. unfold gang_result.
      rewrite (idxs_split Q 0 (0 + 1)), idxs_one, (idxs_none Q (0 + 1)), decide_True by (lia || auto || (intros j Hj; apply Hno; lia)).
      rewrite app_nil_r, take_ge by (cbn; lia). done.
  - rewrite eqb_f, is_indirect, to_ptr_indirect by done. cbn [negb].
    destruct (s_node _ _ _ _ HS (rheight st) 0 ltac:(lia) ltac:(lia) N) as (nd & En & Hn).
    run (get_node_eq st _ nd En). rewrite (n_height _ _ _ _ _ Hn). run (maxindex_eq (rheight st) st H6).
    destruct (gang_loop first_index max_items _ ltac:(lia) N Hm Hi eq_refl) as (r & E & ->). exact E.
Qed.
End Gang.

(** ** Correctness *)
Section Items.
Context (st : state) (T : Z -> Z -> Z) (tg : Z -> gset Z) (H : tree_ok st T tg []).
Let HS : struct_ok (rheight st) (nodes st) T tg := t_struct _ _ _ _ H.

Lemma read_slot_of i : 0 <= i -> T 0 i <> 0 -> read_slot (slot_of st T i) st = Some (T 0 i, st).
Proof using H.
  intros Hi N. pose proof (s_height _ _ _ _ HS) as H6. pose proof (item_top _ _ _ _ HS i Hi N) as Hz. unfold slot_of.
  destruct (Z.eqb_spec (rheight st) 0) as [Eh|Nh]; cbn [read_slot].
  - rewrite Eh, pfx_0 in Hz. run (get_eq st). rewrite (r_rnode _ _ _ _ _ (t_root _ _ _ _ H)), Eh, Hz. done.
  - assert (T 1 (pfx 1 i) <> 0) as N1 by (intros E1; apply N; rewrite <- (pfx_0 i); apply (below_none _ _ _ _ HS i Hi 1); [lia|lia|done]).
    destruct (path_node _ _ _ _ HS i Hi 1 ltac:(lia) N1) as (nd & En & Hn & Es). rewrite Z.sub_diag, pfx_0 in Es.
    rewrite (get_slot_eq st _ nd En (n_shape _ _ _ _ _ Hn)) by dlia. by rewrite Es.
Qed.
Lemma read_items_eq l : (forall i, i ∈ l -> 0 <= i /\ T 0 i <> 0) -> read_items (slot_of st T <$> l) st = Some (T 0 <$> l, st).
Proof using H.
  induction l as [|i l IH]; intros Hl; [done|]. destruct (Hl i ltac:(apply elem_of_cons; by left)) as [Hi N]. cbn [fmap list_fmap read_items].
  run (read_slot_of i Hi N).
  assert (read_items (slot_of st T <$> l) st = Some (T 0 <$> l, st)) as E by (apply IH; intros j Hj; apply Hl, elem_of_cons; by right).
  run E. by rewrite eqb_f by done.
Qed.
Lemma lookup_slot_of i : 0 <= i < 2 ^ 32 -> T 0 i <> 0 -> radix_tree_lookup_slot i st = Some (Some (slot_of st T i), st).
Proof using H.
  intros Hi N. destruct (lookup_both_eq st T tg [] H i ltac:(lia) ltac:(lia)) as (r & E & Hf). unfold radix_tree_lookup_slot. run E.
  destruct r as [[sl v]|]; cbn in Hf; [|done]. destruct Hf as (_ & _ & ->). done.
Qed.
Lemma lookup_item i : 0 <= i < 2 ^ 32 -> radix_tree_lookup i st = Some (T 0 i, st).
Proof using H.
  intros Hi. destruct (lookup_both_eq st T tg [] H i ltac:(lia) ltac:(lia)) as (r & E & Hf). unfold radix_tree_lookup. run E.
  destruct r as [[sl v]|]; cbn in Hf; [by destruct Hf as (-> & _)|by rewrite Hf].
Qed.
Lemma slots_Forall2 l : (forall i, i ∈ l -> 0 <= i < 2 ^ 32 /\ T 0 i <> 0) -> Forall2 (fun sl i => radix_tree_lookup_slot i st = Some (Some sl, st)) (slot_of st T <$> l) l.
Proof using H.
  induction l as [|i l IH]; intros Hl; constructor.
  - destruct (Hl i ltac:(apply elem_of_cons; by left)). by apply lookup_slot_of.
  - apply IH. intros j Hj. apply Hl, elem_of_cons. by right.
Qed.
Section Gangs.
Context {A : Type} (results_of : list slot_ref -> R (list A)) (g : Z -> A) (first_index max_items : Z) (Hi : 0 <= first_index < 2 ^ 32) (Hm : 1 <= max_items).
Context (Hres : forall l, (forall i, i ∈ l -> 0 <= i < 2 ^ 32 /\ T 0 i <> 0) -> results_of (slot_of st T <$> l) st = Some (g <$> l, st)).

Lemma gang_present : gang __lookup results_of first_index max_items st = Some (g <$> take (Z.to_nat max_items) (idxs (item T) first_index (2 ^ 32)), st).
Proof using All.
  apply (gang_eq st T tg H); try done; try lia. intros idx mi H1 H2 H3 H4 H5. by apply (lookup_call st T tg H).
Qed.
Lemma gang_marked tag : 0 <= tag < 2 ->
  (let* b := root_tag_get tag in if negb b then ret [] else gang (__lookup_tag tag) results_of first_index max_items) st =
    Some (g <$> take (Z.to_nat max_items) (idxs (fun i => i ∈ tg tag) first_index (2 ^ 32)), st).
Proof using All.
  intros Ht. run (root_tag_get_eq tag st Ht). destruct (Z.testbit (gfp_mask st) (tag + 21)) eqn:Eb; cbn [negb].
  - destruct (proj1 (r_tag _ _ _ _ _ (t_root _ _ _ _ H) tag Ht) Eb) as (i0 & Hi0). apply (gang_eq st T tg H); try done; try lia.
    + intros i _ Hq. by apply (s_tagged _ _ _ _ HS tag i Ht).
    + intros l Hl. apply Hres. intros i Hin. destruct (Hl i Hin) as [? Hq]. split; [done|]. by apply (s_tagged _ _ _ _ HS tag i Ht).
    + intros idx mi H1 H2 H3 H4 H5. by apply (lookup_tag_call st T tg H tag Ht).
    + intros Eh _. destruct (s_tagged _ _ _ _ HS tag i0 Ht Hi0) as [Hn Nn]. apply (item_top _ _ _ _ HS i0 Hn) in Nn. rewrite Eh, pfx_0 in Nn.
      by subst i0.
  - rewrite idxs_none; [by rewrite take_nil|]. intros i _ Hq. apply not_true_iff_false in Eb. apply Eb, (r_tag _ _ _ _ _ (t_root _ _ _ _ H) tag Ht).
    by exists i.
Qed.
End Gangs.
End Items.

Lemma omap_items (m : gmap Z Z) T (l : list Z) : items_of m T -> (forall i, i ∈ l -> 0 <= i /\ T 0 i <> 0) -> T 0 <$> l = omap (fun i => m !! i) l.
Proof.
  intros [A1 A2] Hl. induction l as [|i l IH]; [done|]. destruct (Hl i ltac:(apply elem_of_cons; by left)) as [Hi N].
  cbn [fmap list_fmap omap list_omap].
  rewrite A2 in N |- * by done. destruct (m !! i); [|done]. cbn. f_equal. apply IH. intros j Hj. apply Hl, elem_of_cons. by right.
Qed.

(** The items of a map. *)
Lemma items_idxs (m : gmap Z Z) T a b : items_of m T -> 0 <= a -> idxs (fun i => is_Some (m !! i)) a b = idxs (item T) a b.
Proof. intros HT Ha. apply idxs_ext. intros i Hr. unfold item. rewrite (items_none m T i HT) by lia. by rewrite not_eq_None_Some. Qed.
Lemma elem_take_idxs Q `{forall i, Decision (Q i)} a b n i : i ∈ take n (idxs Q a b) -> Q i /\ a <= i < b.
Proof. intros Hin. apply subseteq_take, elem_idxs in Hin. done. Qed.
Lemma gang_items st T tg m first_index max_items : tree_ok st T tg [] -> items_of m T -> 0 <= first_index < 2 ^ 32 -> 1 <= max_items ->
  radix_tree_gang_lookup first_index max_items st =
    Some (omap (fun i => m !! i) (take (Z.to_nat max_items) (idxs (fun i => is_Some (m !! i)) first_index (2 ^ 32))), st).
Proof.
  intros H HT Hi Hm. rewrite (items_idxs m T) by (done || lia).
  rewrite <- (omap_items m T) by (done || (intros i [? ?]%elem_take_idxs; split; [lia|done])).
  apply (gang_present st T tg H); try done. intros l Hl. apply (read_items_eq st T tg H). intros i Hin. destruct (Hl i Hin). split; [lia|done].
Qed.

(** C10. The gang lookups return the items, or their slots, at the first
    [max_items] indices in use, or with the tag, from [first_index] on, in
    ascending order, and end for every tree. *)
Theorem radix_tree_gang_lookup_correct st m tg first_index max_items tag :
  rep st m tg -> 0 <= first_index < 2 ^ 32 -> 1 <= max_items < 2 ^ 32 -> 0 <= tag < 2 ->
  let present := take (Z.to_nat max_items) (idxs (fun i => is_Some (m !! i)) first_index (2 ^ 32)) in
  let marked := take (Z.to_nat max_items) (idxs (fun i => i ∈ tg tag) first_index (2 ^ 32)) in
  radix_tree_gang_lookup first_index max_items st = Some (omap (fun i => m !! i) present, st) /\
  radix_tree_gang_lookup_tag first_index max_items tag st = Some (omap (fun i => m !! i) marked, st) /\
  (exists l, radix_tree_gang_lookup_slot first_index max_items st = Some (l, st) /\
    Forall2 (fun sl i => radix_tree_lookup_slot i st = Some (Some sl, st)) l present) /\
  exists l, radix_tree_gang_lookup_tag_slot first_index max_items tag st = Some (l, st) /\
    Forall2 (fun sl i => radix_tree_lookup_slot i st = Some (Some sl, st)) l marked.
Proof.
  intros (T & H & HT) Hi Hm Ht present marked. pose proof (t_struct _ _ _ _ H) as HS.
  assert (present = take (Z.to_nat max_items) (idxs (item T) first_index (2 ^ 32))) as Ep by (unfold present; rewrite (items_idxs m T) by (done || lia); done).
  assert (forall i, i ∈ present -> 0 <= i < 2 ^ 32 /\ T 0 i <> 0) as Hp by (rewrite Ep; intros i [Hq Hr]%elem_take_idxs; split; [lia|exact Hq]).
  assert (forall i, i ∈ marked -> 0 <= i < 2 ^ 32 /\ T 0 i <> 0) as Hk by (intros i [Hq Hr]%elem_take_idxs; split; [lia|by apply (s_tagged _ _ _ _ HS tag i Ht)]).
  assert (forall l, (forall i, i ∈ l -> 0 <= i < 2 ^ 32 /\ T 0 i <> 0) -> read_items (slot_of st T <$> l) st = Some (T 0 <$> l, st)) as Hread.
  { intros l Hl. apply (read_items_eq st T tg H). intros i Hin. destruct (Hl i Hin). split; [lia|done]. }
  unfold radix_tree_gang_lookup_tag, radix_tree_gang_lookup_slot, radix_tree_gang_lookup_tag_slot.
  split; [|split; [|split]].
  - apply (gang_items st T tg m); done || lia.
  - rewrite <- (omap_items m T) by (done || (intros i Hin; destruct (Hk i Hin); split; [lia|done])). by apply (gang_marked st T tg H); try lia.
  - exists (slot_of st T <$> present). split; [rewrite Ep; by apply (gang_present st T tg H); try lia|]. by apply (slots_Forall2 st T tg H).
  - exists (slot_of st T <$> marked). split; [by apply (gang_marked st T tg H); try lia|]. by apply (slots_Forall2 st T tg H).
Qed.

(** [radix_tree_next_hole] scans at most [max_scan] indices and ends at the
    first one without an item; it returns 0 if it reaches the end of the index
    space. *)
Theorem radix_tree_next_hole_correct st m tg idx max_scan :
  rep st m tg -> 0 <= idx < 2 ^ 32 -> 0 <= max_scan < 2 ^ 32 ->
  exists n, radix_tree_next_hole idx max_scan st = Some (u32 (idx + n), st) /\ 0 <= n <= max_scan /\ idx + n <= 2 ^ 32 /\
    (forall i, idx <= i < idx + n -> is_Some (m !! i)) /\ (n = max_scan \/ idx + n = 2 ^ 32 \/ m !! (idx + n) = None).
Proof.
  intros (T & H & HT) Hi Hm. assert (forall i, 0 <= i -> T 0 i = 0 <-> m !! i = None) as Hnone by (intros i; by apply (items_none m T)).
  destruct (while2_spec (hole_round max_scan) st
    (fun '(i, cur) => 0 <= i <= max_scan /\ cur = idx + i /\ cur < 2 ^ 32 /\ forall j, idx <= j < cur -> is_Some (m !! j))
    (fun r => exists n, r = u32 (idx + n) /\ 0 <= n <= max_scan /\ idx + n <= 2 ^ 32 /\
      (forall i, idx <= i < idx + n -> is_Some (m !! i)) /\ (n = max_scan \/ idx + n = 2 ^ 32 \/ m !! (idx + n) = None))
    (fun '(i, _) => max_scan - i)) with (n := 33%nat) (x := (0, idx)) as (r & E & n & -> & Hr).
  - intros [i cur] (? & _). lia.
  - intros [i cur] (Hr & -> & Hlt & Hall). unfold hole_round. destruct (i <? max_scan) eqn:B; b2p.
    + run (lookup_item st T tg H (idx + i) ltac:(lia)). destruct (Z.eqb_spec (T 0 (idx + i)) 0) as [E0|N0].
      { eexists. split; [done|]. exists i. rewrite u32_id by lia. rewrite Hnone in E0 by lia. split; [done|]. split; [lia|]. split; [lia|].
        split; [done|]. by right; right. }
      assert (forall j, idx <= j < idx + (i + 1) -> is_Some (m !! j)) as Hall'.
      { intros j Hj. destruct (Z.eq_dec j (idx + i)) as [->|]; [|apply Hall; lia]. rewrite Hnone in N0 by lia. by apply not_eq_None_Some. }
      replace (idx + i + 1) with (idx + (i + 1)) by lia. destruct (Z.eqb_spec (u32 (idx + (i + 1))) 0) as [Ez|Nz].
      * eexists. split; [done|]. exists (i + 1). split; [done|]. split; [lia|]. split; [lia|]. split; [done|]. right. left.
        destruct (Z.eq_dec (idx + (i + 1)) (2 ^ 32)); [done|]. rewrite u32_id in Ez by lia. lia.
      * eexists. split; [done|]. assert (idx + (i + 1) <> 2 ^ 32) by (intros Ee; by rewrite Ee in Nz). rewrite !u32_id by lia. split; [|lia].
        split; [lia|]. split; [done|]. split; [lia|done].
    + eexists. split; [done|]. exists i. rewrite u32_id by lia. split; [done|]. split; [lia|]. split; [lia|]. split; [done|]. left. lia.
  - split; [lia|]. split; [lia|]. split; [lia|]. intros; lia.
  - lia.
  - by exists n.
Qed.

(** *** Examples *)
Lemma radix_tree_gang_lookup_correct_witness : exists r, radix_tree_gang_lookup 5 16 sample_state = Some (r, sample_state) /\ r = [12].
Proof.
  destruct (radix_tree_gang_lookup_correct sample_state (<[70 := 12]> ∅) (fun _ => ∅) 5 16 0 sample_rep ltac:(lia) ltac:(lia) ltac:(lia)) as (E & _).
  assert (radix_tree_gang_lookup 5 16 sample_state = Some ([12], sample_state)) as E' by (vm_compute; reflexivity).
  eexists. split; [exact E|]. rewrite E in E'. exact (f_equal (fun o => match o with Some (r, _) => r | None => [] end) E').
Defined.
Lemma radix_tree_next_hole_correct_witness : radix_tree_next_hole 70 10 sample_state = Some (71, sample_state).
Proof.
  destruct (radix_tree_next_hole_correct sample_state (<[70 := 12]> ∅) (fun _ => ∅) 70 10 sample_rep ltac:(lia) ltac:(lia)) as (n & E & _).
  assert (radix_tree_next_hole 70 10 sample_state = Some (71, sample_state)) as E' by (vm_compute; reflexivity). rewrite E in E'. rewrite E. exact E'.
Defined.
(** A tree of height 0 gives its item also where no result is asked for. *)
Example gang_lookup_none_wanted :
  option_map fst ((INIT_RADIX_TREE 0 ;; radix_tree_insert no_node 0 8 ;; radix_tree_gang_lookup 0 0) (State 0 0 0 ∅ [] [])) = Some [8].
Proof. vm_compute. reflexivity. Qed.
