(* ===== verification/RadixMap.v ===== *)
(** * Radix trees: the interface as a map

    What the users of [lib/radix-tree.c] rely on: any sequence of calls behaves
    like calls on a map from indices to items with a set of indices for each tag,
    in which an insertion may fail for want of memory and nothing else fails. *)

From Stdlib Require Import ZArith Lia.
From stdpp Require Import base tactics numbers list gmap option.
From S2P Require Import Prelude RadixTree RadixInsert RadixTag RadixGang.

(** ** Calls *)
Inductive op :=
| Insert (idx item : Z)
| Delete (idx : Z)
| Lookup (idx : Z)
| TagSet (idx tag : Z)
| TagClear (idx tag : Z)
| Tagged (tag : Z)
| GangLookup (first_index max_items : Z)
| Preload (mask : Z)
| GracePeriod.
Definition op_ok (o : op) : Prop :=
  match o with
  | Insert idx item => 0 <= idx < 2 ^ 32 /\ ptr_ok item /\ item <> 0
  | Delete idx | Lookup idx => 0 <= idx < 2 ^ 32
  | TagSet idx tag | TagClear idx tag => 0 <= idx < 2 ^ 32 /\ 0 <= tag < 2
  | Tagged tag => 0 <= tag < 2
  | GangLookup first_index max_items => 0 <= first_index < 2 ^ 32 /\ 1 <= max_items < 2 ^ 32
  | Preload _ | GracePeriod => True
  end.

Section Exec.
Context (kmem_cache_alloc : Z -> gmap Z radix_tree_node -> option (Z * Z)).
(** What a call returns, as a list of words. *)
Definition exec (o : op) : R (list Z) :=
  match o with
  | Insert idx item => let* e := radix_tree_insert kmem_cache_alloc idx item in ret [e]
  | Delete idx => let* v := radix_tree_delete idx in ret [v]
  | Lookup idx => let* v := radix_tree_lookup idx in ret [v]
  | TagSet idx tag => let* v := radix_tree_tag_set idx tag in ret [v]
  | TagClear idx tag => let* v := radix_tree_tag_clear idx tag in ret [v]
  | Tagged tag => let* b := radix_tree_tagged tag in ret [Z.b2z b]
  | GangLookup first_index max_items => radix_tree_gang_lookup first_index max_items
  | Preload mask => let* e := radix_tree_preload kmem_cache_alloc mask in ret [e]
  | GracePeriod => rcu_callback ;; ret []
  end.
Fixpoint exec_all (os : list op) : R (list (list Z)) :=
  match os with
  | [] => ret []
  | o :: os => let* r := exec o in let* rs := exec_all os in ret (r :: rs)
  end.
End Exec.

(** ** The map *)
Definition tags_without (tg : Z -> gset Z) (idx : Z) : Z -> gset Z := fun t => tg t ∖ {[idx]}.
Inductive spec_step (m : gmap Z Z) (tg : Z -> gset Z) : op -> list Z -> gmap Z Z -> (Z -> gset Z) -> Prop :=
| spec_insert idx item : m !! idx = None -> spec_step m tg (Insert idx item) [0] (<[idx := item]> m) tg
| spec_exists idx item : is_Some (m !! idx) -> spec_step m tg (Insert idx item) [- EEXIST] m tg
| spec_no_memory idx item : spec_step m tg (Insert idx item) [- ENOMEM] m tg
| spec_delete idx : spec_step m tg (Delete idx) [default 0 (m !! idx)] (delete idx m) (tags_without tg idx)
| spec_lookup idx : spec_step m tg (Lookup idx) [default 0 (m !! idx)] m tg
| spec_tag_set idx tag v : m !! idx = Some v -> spec_step m tg (TagSet idx tag) [v] m (tg_add tg tag idx)
| spec_tag_missing idx tag : m !! idx = None -> spec_step m tg (TagSet idx tag) [0] m tg
| spec_tag_clear idx tag : spec_step m tg (TagClear idx tag) [default 0 (m !! idx)] m (tg_del tg tag idx)
| spec_tagged tag b : (b = true <-> exists i, i ∈ tg tag) -> spec_step m tg (Tagged tag) [Z.b2z b] m tg
| spec_gang first_index max_items :
    spec_step m tg (GangLookup first_index max_items)
      (omap (fun i => m !! i) (take (Z.to_nat max_items) (idxs (fun i => is_Some (m !! i)) first_index (2 ^ 32)))) m tg
| spec_preload mask e : e = 0 \/ e = - ENOMEM -> spec_step m tg (Preload mask) [e] m tg
| spec_grace : spec_step m tg GracePeriod [] m tg.
Inductive spec_run (m : gmap Z Z) (tg : Z -> gset Z) : list op -> list (list Z) -> gmap Z Z -> (Z -> gset Z) -> Prop :=
| run_nil : spec_run m tg [] [] m tg
| run_cons o os r rs m1 tg1 m2 tg2 : spec_step m tg o r m1 tg1 -> spec_run m1 tg1 os rs m2 tg2 -> spec_run m tg (o :: os) (r :: rs) m2 tg2.

(** ** Simulation *)
(** Only tagging an index without an item may fault. *)
Definition may_fault (m : gmap Z Z) (o : op) : Prop := match o with TagSet idx _ => m !! idx = None | _ => False end.

Section Simulation.
Context (kmem_cache_alloc : Z -> gmap Z radix_tree_node -> option (Z * Z)) (Ha : alloc_ok kmem_cache_alloc).

Lemma exec_step st m tg o : rep st m tg -> op_ok o ->
  (may_fault m o /\ exec kmem_cache_alloc o st = None) \/
  exists r st' m' tg', exec kmem_cache_alloc o st = Some (r, st') /\ rep st' m' tg' /\ spec_step m tg o r m' tg'.
Proof using Ha.
  intros Hrep Hok. pose proof Hrep as (T & H & HT). pose proof (proj2 HT) as Hitem.
  destruct o as [idx item|idx|idx|idx tag|idx tag|tag|first_index max_items|mask|]; cbn [op_ok exec may_fault] in *.
  - right. destruct Hok as (Hi & Pv & Nv). destruct (radix_insert_eq _ Ha tg idx item Hi Pv Nv st T H) as (e & st' & T' & E & H' & _ & _ & Hr). run E.
    destruct Hr as [(-> & E0 & Hx)|[(-> & E0 & Hx)|(-> & Hx & _)]]; try rewrite (items_none m T idx HT) in E0 by lia.
    + exists [0], st', (<[idx := item]> m), tg. split; [done|]. split; [|by constructor]. apply (rep_of _ _ _ T'); [done|].
      apply (items_insert m T); done || lia.
    + exists [- EEXIST], st', m, tg. split; [done|]. split; [apply (rep_of _ _ _ T'); [done|by apply (items_same m T)]|]. constructor.
      by apply not_eq_None_Some.
    + exists [- ENOMEM], st', m, tg. split; [done|]. split; [apply (rep_of _ _ _ T'); [done|by apply (items_same m T)]|]. constructor.
  - right. destruct (index_delete_eq st T tg idx H Hok) as (st' & T' & E & H' & Hx & _). run E. rewrite (Hitem idx) by lia.
    exists [default 0 (m !! idx)], st', (delete idx m), (tags_without tg idx). split; [done|]. split; [|constructor].
    apply (rep_of _ _ _ T'); [done|].
    apply (items_delete m T); [done|]. intros x Hx'. rewrite Hx by done.
    destruct (Z.eqb_spec x idx) as [->|]; [by rewrite set_T_eq|by rewrite set_T_ne by lia].
  - right. run (lookup_item st T tg H idx Hok). rewrite (Hitem idx) by lia. exists [default 0 (m !! idx)], st, m, tg. split; [done|].
    split; [done|constructor].
  - destruct Hok as [Hi Ht]. destruct (m !! idx) as [v|] eqn:Em.
    + right. assert (T 0 idx = v) as Ev by (rewrite Hitem, Em by lia; done). destruct (proj1 HT idx v Em) as [_ Nv].
      destruct (index_tag_set_eq st T tg [] H idx tag Hi Ht ltac:(congruence)) as (st' & E & H' & _). run E. rewrite Ev.
      exists [v], st', m, (tg_add tg tag idx). split; [done|]. split; [by apply (rep_of _ _ _ T)|by constructor].
    + pose proof (tag_set_missing st T tg H idx tag Hi Ht ltac:(by apply (items_none m T); [done|lia|])) as E.
      destruct ((rheight st =? 0) && (idx =? 0)).
      * right. run E. exists [0], st, m, tg. split; [done|]. split; [done|by constructor].
      * left. split; [done|]. unfold bind. by rewrite E.
  - right. destruct Hok as [Hi Ht]. destruct (index_tag_clear_eq st T tg [] idx tag H Hi Ht) as (st' & E & H' & _). run E. rewrite (Hitem idx) by lia.
    exists [default 0 (m !! idx)], st', m, (tg_del tg tag idx). split; [done|]. split; [by apply (rep_of _ _ _ T)|constructor].
  - right. unfold radix_tree_tagged. run (root_tag_get_eq tag st Hok). eexists _, st, m, tg. split; [done|]. split; [done|]. constructor.
    apply (r_tag _ _ _ _ _ (t_root _ _ _ _ H)). done.
  - right. destruct Hok as [Hi Hm]. eexists _, st, m, tg. split; [|split; [done|constructor]]. apply (gang_items st T tg m); done || lia.
  - right. destruct (preload_eq kmem_cache_alloc mask m tg (S (Z.to_nat RADIX_TREE_MAX_PATH)) Ha st Hrep) as (e & st' & E & Hrep' & _ & He).
    { change (Z.to_nat RADIX_TREE_MAX_PATH) with 6%nat. pose proof (zlen_nonneg (pool st)). lia. }
    unfold radix_tree_preload. run E. exists [e], st', m, tg. split; [done|]. split; [done|]. constructor.
    destruct He as [[-> _]| ->]; [by left|by right].
  - right. destruct (rcu_callback_eq st T tg H) as (r & st' & E & H' & _). run E. exists [], st', m, tg. split; [done|].
    split; [by apply (rep_of _ _ _ T)|constructor].
Qed.
End Simulation.

(** C5. Whatever calls are made, in whatever order and whatever the allocator
    does, the results are those of the same calls on the map, the tree stands for
    the map that they leave, and no next call faults but to tag an index without
    an item. *)
Theorem radix_tree_refines_map kmem_cache_alloc mask os rs st :
  alloc_ok kmem_cache_alloc -> 0 <= mask < 2 ^ 21 -> Forall op_ok os ->
  (INIT_RADIX_TREE mask ;; exec_all kmem_cache_alloc os) (State 0 0 0 ∅ [] []) = Some (rs, st) ->
  exists m tg, spec_run ∅ (fun _ => ∅) os rs m tg /\ rep st m tg /\
    forall o, op_ok o -> ~ may_fault m o -> is_Some (exec kmem_cache_alloc o st).
Proof.
  intros Ha Hm Hok E. destruct (rep_init mask Hm) as (st0 & E0 & Hrep & _). rewrite (bind_Some _ _ _ _ _ E0) in E. clear E0.
  revert E. generalize dependent st0. generalize dependent (fun _ : Z => ∅ : gset Z). generalize dependent (∅ : gmap Z Z). revert rs.
  induction Hok as [|o os Ho _ IH]; intros rs m tg st0 Hrep E.
  - injection E as <- <-. exists m, tg. split; [constructor|]. split; [done|]. intros o Ho Hf.
    destruct (exec_step _ Ha st0 m tg o Hrep Ho) as [[? _]|(r & st' & m' & tg' & E & _)]; [done|]. rewrite E. done.
  - cbn [exec_all] in E.
    destruct (exec_step _ Ha st0 m tg o Hrep Ho) as [[_ E1]|(r & st1 & m1 & tg1 & E1 & Hrep1 & Hs)]; [unfold bind in E; by rewrite E1 in E|].
    rewrite (bind_Some _ _ _ _ _ E1) in E. unfold bind in E. destruct (exec_all kmem_cache_alloc os st1) as [[rs' st2]|] eqn:E2; [|done].
    injection E as <- <-.
    destruct (IH rs' m1 tg1 st1 Hrep1 E2) as (m2 & tg2 & Hrun & Hrest). exists m2, tg2. split; [by econstructor|done].
Qed.

(** *** Example *)
Lemma radix_tree_refines_map_witness : exists rs st m tg,
  (INIT_RADIX_TREE 0 ;; exec_all next_node [Insert 70 12; Insert 3 8; TagSet 3 0; Delete 70; GracePeriod; Tagged 0; GangLookup 0 5]) (State 0 0 0 ∅ [] []) = Some (rs, st) /\
  rs = [[0]; [0]; [8]; [12]; []; [1]; [8]] /\
  spec_run ∅ (fun _ => ∅) [Insert 70 12; Insert 3 8; TagSet 3 0; Delete 70; GracePeriod; Tagged 0; GangLookup 0 5] rs m tg.
Proof.
  set (os := [Insert 70 12; Insert 3 8; TagSet 3 0; Delete 70; GracePeriod; Tagged 0; GangLookup 0 5]).
  assert (Forall op_ok os) as Hok.
  { unfold os. repeat apply Forall_cons_2; try apply Forall_nil_2; cbn [op_ok]; unfold ptr_ok; repeat split; lia || reflexivity. }
  assert (exists rs st, (INIT_RADIX_TREE 0 ;; exec_all next_node os) (State 0 0 0 ∅ [] []) = Some (rs, st) /\ rs = [[0]; [0]; [8]; [12]; []; [1]; [8]]) as (rs & st & E & Ers).
  { vm_compute. eexists _, _. split; reflexivity. }
  destruct (radix_tree_refines_map next_node 0 os rs st next_node_ok ltac:(lia) Hok E) as (m & tg & Hrun & _).
  exists rs, st, m, tg. split; [exact E|]. split; [exact Ers|exact Hrun].
Defined.
