(* ===== verification/CmdLine.v ===== *)
(** * Options on the command line

    [lib/cmdline.c]: integers, lists and ranges of integers and sizes with a suffix
    in option strings, on top of the conversions of [StrTo].  The string is read at
    an offset; the array of integers that [get_options] fills is the state, and a
    write outside of it faults. *)

From Stdlib Require Import ZArith Lia.
From stdpp Require Import base tactics numbers list gmap option.
From S2P Require Import Prelude CString StrTo.

Abbreviation O := (ST (list Z)).
Definition lift {A} (m : P A) : O A := fun ints => match m tt with Some (v, _) => Some (v, ints) | None => None end.
Definition get_int (i : Z) : O Z := fun ints => match zget ints i with Some v => Some (v, ints) | None => None end.
Definition put_int (i v : Z) : O unit := fun ints => match zget ints i with Some _ => Some (tt, upd ints i v) | None => None end.

(** The result and [*str]; [*pint] is [ints[i]]. *)
Definition get_option (s : list Z) (cur i : Z) : O (Z * Z) :=
  let* c := lift (ch s cur) in
  if c =? 0 then ret (0, cur) else
  let* '(v, str) := lift (simple_strtol s cur 0) in
  put_int i v ;;
  if cur =? str then ret (0, str) else
  let* c := lift (ch s str) in
  if c =? 44 then ret (2, str + 1)
  else if c =? 45 then ret (3, str)
  else ret (1, str).

Definition range_round (upper_range : Z) : Z * Z -> O (Z * Z + unit) := fun '(x, i) =>
  if x <? upper_range then put_int i x ;; ret (inl (x + 1, i + 1)) else ret (inr tt).
(** The loop writes at every round, so it ends at the latest behind the array. *)
Definition get_range (s : list Z) (str i : Z) : O (Z * Z) :=
  let str := str + 1 in
  let* '(upper_range, _) := lift (simple_strtol s str 0) in
  let* first := get_int i in
  let inc_counter := s32 (upper_range - first) in
  let* ints := get in
  while (S (S (length ints))) (range_round upper_range) (first, i) ;;
  ret (inc_counter, str).

Definition options_round (s : list Z) (nints : Z) : Z * Z -> O (Z * Z + Z * Z) := fun '(i, str) =>
  if i <? nints then
    let* '(res, str) := get_option s str i in
    if res =? 0 then ret (inr (i, str)) else
    let* '(stop, i, str) :=
      (if res =? 3 then
         let* '(range_nums, str) := get_range s str i in
         ret (if range_nums <? 0 then (true, i, str) else (false, i + (range_nums - 1), str))
       else ret (false, i, str)) in
    if stop : bool then ret (inr (i, str)) else
    let i := i + 1 in
    ret (if res =? 1 then inr (i, str) else inl (i, str))
  else ret (inr (i, str)).
Definition get_options (s : list Z) (str nints : Z) : O Z :=
  let* '(i, str) := while (S (S (length s))) (options_round s nints) (1, str) in
  put_int 0 (i - 1) ;;
  ret str.

(** The value and [*retptr]. *)
Definition memparse (s : list Z) (ptr : Z) : P (Z * Z) :=
  let* '(r, endptr) := simple_strtoull s ptr 0 in
  let* c := ch s endptr in
  let shl r := u64 (Z.shiftl r 10) in
  ret (if (c =? 71) || (c =? 103) then (shl (shl (shl r)), endptr + 1)
       else if (c =? 77) || (c =? 109) then (shl (shl r), endptr + 1)
       else if (c =? 75) || (c =? 107) then (shl r, endptr + 1)
       else (r, endptr)).

(** ** Sizes *)
Definition suffix (c : Z) : Z :=
  if (c =? 71) || (c =? 103) then 30 else if (c =? 77) || (c =? 109) then 20 else if (c =? 75) || (c =? 107) then 10 else 0.
Lemma shl_wrap r : u64 (Z.shiftl (u64 r) 10) = u64 (r * 2 ^ 10).
Proof. rewrite Z.shiftl_mul_pow2 by lia. unfold wrap. by rewrite Zmult_mod_idemp_l. Qed.

(** [memparse] reads the longest numeral, multiplies it by what the suffix K, M
    or G stands for, modulo [2 ^ 64], and returns the place behind the suffix. *)
Theorem memparse_correct (s : list Z) (ptr : Z) : cstring s -> 0 <= ptr <= zlen s ->
  exists n endp, reads s ptr 0 n endp /\
    memparse s ptr tt = Some ((u64 (n * 2 ^ suffix (at_ s endp)), endp + (if suffix (at_ s endp) =? 0 then 0 else 1)), tt).
Proof.
  intros Hs Hp. destruct (strtou_reads s ptr 0 Hs Hp) as (n & e & Hr & E). exists n, e. split; [done|]. unfold memparse, simple_strtoull.
  run (E 64 ltac:(lia)).
  assert (0 <= e <= zlen s) as He. { destruct Hr as (body & rest & Et & _ & -> & _). pose proof (zlen_from s ptr Hp) as Hl.
  rewrite Et, zlen_app in Hl. pose proof (zlen_nonneg rest). pose proof (zlen_nonneg body). lia. }
  run (ch_eq s e tt He). unfold ret, suffix. do 2 f_equal.
  destruct ((at_ s e =? 71) || (at_ s e =? 103)); [|destruct ((at_ s e =? 77) || (at_ s e =? 109)); [|destruct ((at_ s e =? 75) || (at_ s e =? 107))]].
  - rewrite (shl_wrap n), (shl_wrap (n * 2 ^ 10)), shl_wrap. replace (n * 2 ^ 10 * 2 ^ 10 * 2 ^ 10) with (n * 2 ^ 30) by lia. done.
  - rewrite (shl_wrap n), shl_wrap. replace (n * 2 ^ 10 * 2 ^ 10) with (n * 2 ^ 20) by lia. done.
  - rewrite shl_wrap. done.
  - rewrite Z.pow_0_r, Z.mul_1_r, Z.add_0_r. done.
Qed.
Lemma memparse_correct_witness : exists n endp, reads [52; 77; 64] 0 0 n endp /\
  4194304 = u64 (n * 2 ^ suffix (at_ [52; 77; 64] endp)).
Proof.
  destruct (memparse_correct [52; 77; 64] 0) as (n & e & Hr & E); [repeat constructor|vm_compute; split; discriminate|].
  exists n, e. split; [exact Hr|]. assert (memparse [52; 77; 64] 0 tt = Some ((4194304, 2), tt)) as E' by (vm_compute; reflexivity). rewrite E in E'.
  injection E' as E1 _. symmetry. exact E1.
Defined.

(** ** Lists of integers *)
(** The decimal text of a number. *)
Inductive decimal : list Z -> Z -> Prop :=
| decimal_zero : decimal [48] 0
| decimal_digits c cs ds : c <> 48 -> Forall2 (digit_in 10) (c :: cs) ds -> decimal (c :: cs) (value 10 ds).
(** What may follow a number. *)
Definition ends (rest : list Z) : Prop := match rest with [] => True | c :: _ => c = 44 \/ c = 45 end.

Lemma leading_ends base cs ds rest : Forall2 (digit_in base) cs ds -> ends rest -> leading base (cs ++ rest) = ds.
Proof.
  intros H Hr. induction H as [|c d cs ds [Hc Hd] H IH]; [destruct rest as [|c rest]; [done|]; destruct Hr as [-> | ->]; done|]. cbn.
  rewrite Hc, (proj2 (Z.ltb_lt d base)) by done. by rewrite IH.
Qed.
Lemma decimal_consumed t b n rest : decimal b n -> ends rest -> t = b ++ rest -> consumed t 0 = zlen b /\ value (real_base t 0) (number_in t 0) = n.
Proof.
  intros Hd He ->. unfold consumed, number_in, after_prefix, real_base. cbn [Z.eqb]. destruct Hd as [|c cs ds Nc H].
  - destruct rest as [|c rest]; [done|]. assert (hex_prefix ([48] ++ c :: rest) = false) as Eh by (destruct He as [-> | ->]; done).
    assert (its_base ([48] ++ c :: rest) = 8) as Eb by (unfold its_base; cbn [app]; destruct rest; [done|]; destruct He as [-> | ->]; done).
    rewrite Eh, Eb. destruct He as [-> | ->]; done.
  - assert (its_base ((c :: cs) ++ rest) = 10) as Eb.
    { unfold its_base. cbn [app]. destruct (Z.eq_dec c 48); [done|]. destruct c as [|p|p]; try done. repeat (destruct p as [p|p|]; try done). }
    rewrite Eb. cbn [Z.eqb Pos.eqb andb]. change (drop (Z.to_nat 0) ((c :: cs) ++ rest)) with ((c :: cs) ++ rest).
    rewrite (leading_ends _ _ _ _ H He).
    apply Forall2_length in H. unfold zlen. split; [lia|done].
Qed.
Lemma decimal_first b n : decimal b n -> exists c cs, b = c :: cs /\ c <> 45 /\ c <> 0.
Proof.
  intros [|c cs ds _ H]; [by exists 48, []|]. exists c, cs. split; [done|]. inversion H as [|? d ? ? [Hd _] _]; subst. unfold digit_of in Hd.
  repeat case_decide; done || lia.
Qed.

(** The texts of lists of numbers and ranges, with the numbers they stand for. *)
Inductive options : list Z -> list Z -> Prop :=
| options_last b n : decimal b n -> n < 2 ^ 31 -> options b [n]
| options_comma b n t l : decimal b n -> n < 2 ^ 31 -> options t l -> options (b ++ 44 :: t) (n :: l)
| options_range b n t n' l : decimal b n -> options t (n' :: l) -> n < n' -> options (b ++ 45 :: t) (seqZ n (n' - n) ++ n' :: l).
Lemma decimal_nonneg b n : decimal b n -> 0 <= n.
Proof.
  intros [|c cs ds _ H]; [lia|]. unfold value. assert (forall v, 0 <= v -> 0 <= foldl (fun v d => v * 10 + d) v ds) as Hf; [|by apply Hf].
  induction H as [|c' d cs' ds' [Hd _] _ IH]; intros v Hv; [done|]. cbn. apply IH. unfold digit_of in Hd.
  repeat case_decide; try done; injection Hd as <-; lia.
Qed.
Lemma options_head t l : options t l -> exists b n rest l', t = b ++ rest /\ l = n :: l' /\ decimal b n /\ n < 2 ^ 31 /\ ends rest.
Proof.
  induction 1 as [b n Hd Hn|b n t l Hd Hn _ _|b n t n' l Hd _ IH Hlt].
  - exists b, n, [], []. rewrite app_nil_r. done.
  - exists b, n, (44 :: t), l. split; [done|]. split; [done|]. split; [done|]. split; [done|]. by left.
  - destruct IH as (? & ? & ? & ? & _ & [= <- <-] & _ & Hn' & _). exists b, n, (45 :: t), (seqZ (n + 1) (n' - n - 1) ++ n' :: l). split; [done|].
    split; [rewrite seqZ_cons by lia; cbn; do 3 f_equal; lia|]. split; [done|]. split; [lia|]. by right.
Qed.

(** The array with the numbers [l] behind its first element. *)
Section Fill.
Context (a0 : Z) (tl : list Z).
Definition fill (l : list Z) : list Z := a0 :: l ++ drop (length l) tl.
Lemma zlen_fill l : zlen l <= zlen tl -> zlen (fill l) = 1 + zlen tl.
Proof using. intros Hl. unfold fill. rewrite zlen_cons, zlen_app. unfold zlen in *. rewrite length_drop. lia. Qed.
Lemma upd_fill l v : zlen l < zlen tl -> upd (fill l) (1 + zlen l) v = fill (l ++ [v]).
Proof using.
  intros Hl. unfold upd, fill. replace (Z.to_nat (1 + zlen l)) with (S (length l + 0)) by (unfold zlen; lia). cbn [list_insert].
  change (<[S (length l + 0) := v]> (a0 :: l ++ drop (length l) tl)) with (a0 :: <[(length l + 0)%nat := v]> (l ++ drop (length l) tl)).
  rewrite insert_app_r. f_equal.
  rewrite <- app_assoc, length_app. cbn [length app]. f_equal. destruct (drop (length l) tl) as [|w rest] eqn:E.
  - apply (f_equal length) in E. rewrite length_drop in E. cbn in E. unfold zlen in Hl. lia.
  - cbn. f_equal. replace (length l + 1)%nat with (S (length l)) by lia. change (S (length l)) with (1 + length l)%nat.
    rewrite Nat.add_comm, <- drop_drop, E. done.
Qed.
Lemma put_fill l v : zlen l < zlen tl -> put_int (1 + zlen l) v (fill l) = Some (tt, fill (l ++ [v])).
Proof using.
  intros Hl. unfold put_int.
  destruct (proj1 (zget_is_Some (fill l) (1 + zlen l))) as [w ->]; [rewrite zlen_fill by lia; pose proof (zlen_nonneg l); lia|]. by rewrite upd_fill.
Qed.
Lemma get_fill l v : zlen l < zlen tl -> get_int (1 + zlen l) (fill (l ++ [v])) = Some (v, fill (l ++ [v])).
Proof using.
  intros Hl. unfold get_int. rewrite <- upd_fill by done. rewrite zget_upd_eq; [done|]. rewrite zlen_fill by lia. pose proof (zlen_nonneg l). lia.
Qed.
Lemma put_fill_again l v : zlen l < zlen tl -> put_int (1 + zlen l) v (fill (l ++ [v])) = Some (tt, fill (l ++ [v])).
Proof using.
  intros Hl. pose proof (get_fill l v Hl) as Hg. unfold get_int in Hg. unfold put_int. destruct (zget (fill (l ++ [v])) (1 + zlen l)); [|done].
  rewrite <- upd_fill, upd_upd by done. done.
Qed.
End Fill.

Section Options.
Context (s : list Z) (Hs : cstring s) (a0 : Z) (tl : list Z).

Lemma strtol_decimal cp b n rest : 0 <= cp <= zlen s -> drop (Z.to_nat cp) s = b ++ rest -> decimal b n -> n < 2 ^ 31 -> ends rest ->
  at_ s cp <> 0 /\ 0 < zlen b /\ cp + zlen b <= zlen s /\ at_ s (cp + zlen b) = at_ rest 0 /\ simple_strtol s cp 0 tt = Some ((n, cp + zlen b), tt).
Proof using Hs.
  intros Hcp Et Hd Hn He. destruct (decimal_first b n Hd) as (c & cs & Eb & N45 & N0). pose proof (decimal_nonneg b n Hd) as Hn0.
  assert (at_ s cp = c) as Ec by (rewrite <- (Z.add_0_r cp), at_from, Et, Eb by lia; done). pose proof (zlen_from s cp Hcp) as Hl.
  rewrite Et, zlen_app in Hl.
  pose proof (zlen_nonneg rest). assert (0 < zlen b) as Hb by (rewrite Eb, zlen_cons; pose proof (zlen_nonneg cs); lia). split; [congruence|].
  split; [done|]. split; [lia|].
  split; [rewrite at_from, Et, at_app_r by lia; f_equal; lia|]. destruct (strtou_eq s Hs 32 cp 0 ltac:(lia) Hcp) as [E _].
  destruct (decimal_consumed (drop (Z.to_nat cp) s) b n rest Hd He Et) as [C1 C2]. unfold consumed in C1. rewrite <- Z.add_assoc, C1, C2 in E.
  unfold simple_strtol, simple_strto. run (ch_eq s cp tt Hcp). rewrite Ec, eqb_f by done. run E. cbn [fst snd]. rewrite sgn_wrap, s32_id by lia. done.
Qed.
Lemma get_option_decimal cp b n rest l : 0 <= cp <= zlen s -> drop (Z.to_nat cp) s = b ++ rest -> decimal b n -> n < 2 ^ 31 -> ends rest -> zlen l < zlen tl ->
  get_option s cp (1 + zlen l) (fill a0 tl l) =
    Some ((match rest with [] => 1 | c :: _ => if c =? 44 then 2 else 3 end, cp + zlen b + match rest with [] => 0 | c :: _ => if c =? 44 then 1 else 0 end), fill a0 tl (l ++ [n])).
Proof using Hs.
  intros Hcp Et Hd Hn He Hl. destruct (strtol_decimal cp b n rest Hcp Et Hd Hn He) as (N0 & Hb & Hle & Er & E). unfold get_option, lift, bind at 1.
  rewrite (ch_eq s cp tt Hcp).
  rewrite eqb_f by done. unfold bind at 1. rewrite E. run (put_fill a0 tl l n Hl). rewrite eqb_f by lia. unfold bind.
  rewrite (ch_eq s (cp + zlen b) tt) by lia. rewrite Er.
  destruct rest as [|c rest]; [cbn; by rewrite Z.add_0_r|]. change (at_ (c :: rest) 0) with c.
  destruct He as [-> | ->]; cbn [Z.eqb Pos.eqb]; [done|by rewrite Z.add_0_r].
Qed.

Lemma range_loop m : forall x l fuel, zlen l + Z.of_nat m <= zlen tl -> (m < fuel)%nat ->
  while fuel (range_round (x + Z.of_nat m)) (x, 1 + zlen l) (fill a0 tl l) = Some (tt, fill a0 tl (l ++ seqZ x (Z.of_nat m))).
Proof using.
  induction m as [|m IH]; intros x l [|fuel] Hl Hf; try lia; rewrite while_S; unfold range_round at 1.
  - rewrite ltb_f by lia. cbn. by rewrite app_nil_r.
  - rewrite ltb_t by lia. run (put_fill a0 tl l x ltac:(lia)). run_ret. cbn [bind]. specialize (IH (x + 1) (l ++ [x]) fuel). rewrite zlen_app in IH.
    change (zlen [x]) with 1 in IH.
    replace (x + 1 + Z.of_nat m) with (x + Z.of_nat (S m)) in IH by lia. replace (1 + (zlen l + 1)) with (1 + zlen l + 1) in IH by lia.
    rewrite IH by lia.
    assert (seqZ x (Z.of_nat (S m)) = x :: seqZ (x + 1) (Z.of_nat m)) as -> by (rewrite seqZ_cons by lia; f_equal; f_equal; lia).
    by rewrite <- app_assoc.
Qed.
Lemma get_range_decimal cp b n n' rest l : 0 <= cp < zlen s -> drop (Z.to_nat (cp + 1)) s = b ++ rest -> decimal b n' -> n' < 2 ^ 31 -> ends rest ->
  0 <= n < n' -> zlen l + (n' - n) <= zlen tl ->
  get_range s cp (1 + zlen l) (fill a0 tl (l ++ [n])) = Some ((n' - n, cp + 1), fill a0 tl (l ++ seqZ n (n' - n))).
Proof using Hs.
  intros Hcp Et Hd Hn' He Hlt Hl. destruct (strtol_decimal (cp + 1) b n' rest ltac:(lia) Et Hd Hn' He) as (_ & _ & _ & _ & E).
  unfold get_range, lift, bind at 1. rewrite E.
  pose proof (zlen_nonneg l). run (get_fill a0 tl l n ltac:(lia)). rewrite s32_id by lia. set (A := fill a0 tl (l ++ [n])).
  assert (get A = Some (A, A)) as Eg by done. run Eg. assert (length A = (1 + length tl)%nat) as El.
  { pose proof (zlen_fill a0 tl (l ++ [n]) ltac:(rewrite zlen_app; change (zlen [n]) with 1; lia)) as Hz. fold A in Hz. unfold zlen in Hz. lia. }
  assert (while (S (S (length A))) (range_round n') (n, 1 + zlen l) A = Some (tt, fill a0 tl (l ++ seqZ n (n' - n)))) as Ew; [|run Ew; done].
  rewrite while_S. unfold range_round at 1. rewrite ltb_t by lia. run (put_fill_again a0 tl l n ltac:(lia)). run_ret. cbn [bind].
  pose proof (range_loop (Z.to_nat (n' - n - 1)) (n + 1) (l ++ [n]) (S (length A))) as Hr. rewrite zlen_app in Hr. change (zlen [n]) with 1 in Hr.
  rewrite Z2Nat.id in Hr by lia.
  replace (n + 1 + (n' - n - 1)) with n' in Hr by lia. replace (1 + (zlen l + 1)) with (1 + zlen l + 1) in Hr by lia.
  rewrite Hr by (rewrite ?El; unfold zlen in *; lia).
  assert (seqZ n (n' - n) = n :: seqZ (n + 1) (n' - n - 1)) as -> by (rewrite seqZ_cons by lia; f_equal; f_equal; lia). by rewrite <- app_assoc.
Qed.

Lemma drop_behind cp b c t : 0 <= cp -> drop (Z.to_nat cp) s = b ++ c :: t -> drop (Z.to_nat (cp + zlen b + 1)) s = t.
Proof using.
  intros Hcp Et. pose proof (zlen_nonneg b). replace (Z.to_nat (cp + zlen b + 1)) with (Z.to_nat cp + (length b + 1))%nat by (unfold zlen; lia).
  rewrite <- drop_drop, Et, drop_app_add. done.
Qed.
Lemma zlen_seqZ x m : 0 <= m -> zlen (seqZ x m) = m.
Proof using. intros. unfold zlen. rewrite length_seqZ. lia. Qed.
Lemma options_loop nints t l : options t l -> forall cp l0 fuel, 0 <= cp <= zlen s -> drop (Z.to_nat cp) s = t -> zlen l0 + zlen l < nints -> zlen l0 + zlen l <= zlen tl -> (length t < fuel)%nat ->
  while fuel (options_round s nints) (1 + zlen l0, cp) (fill a0 tl l0) = Some ((1 + zlen (l0 ++ l), zlen s), fill a0 tl (l0 ++ l)).
Proof using Hs.
  induction 1 as [b n Hd Hn|b n t l Hd Hn Ho IH|b n t n' l Hd Ho IH Hlt]; intros cp l0 [|fuel] Hcp Et Hm Htl Hf; try lia; rewrite while_S; unfold options_round at 1.
  - change (zlen [n]) with 1 in *. rewrite ltb_t by lia.
    pose proof (get_option_decimal cp b n [] l0 Hcp ltac:(by rewrite app_nil_r) Hd Hn I ltac:(lia)) as E. run E. cbn [Z.eqb Pos.eqb].
    pose proof (zlen_from s cp Hcp) as Hl. rewrite Et in Hl. rewrite ?bind_assoc. run_ret. run_ret. rewrite zlen_app. change (zlen [n]) with 1.
    replace (cp + zlen b + 0) with (zlen s) by lia. by replace (1 + (zlen l0 + 1)) with (1 + zlen l0 + 1) by lia.
  - rewrite zlen_cons in *. pose proof (zlen_nonneg l). rewrite ltb_t by lia.
    pose proof (get_option_decimal cp b n (44 :: t) l0 Hcp Et Hd Hn ltac:(by left) ltac:(lia)) as E. run E. cbn [Z.eqb Pos.eqb].
    rewrite ?bind_assoc. run_ret. run_ret. cbn [bind]. pose proof (zlen_from s cp Hcp) as Hl. rewrite Et, zlen_app, zlen_cons in Hl.
    pose proof (zlen_nonneg t). pose proof (zlen_nonneg b).
    specialize (IH (cp + zlen b + 1) (l0 ++ [n]) fuel). rewrite zlen_app, <- app_assoc in IH. change (zlen [n]) with 1 in IH. cbn [app] in IH.
    replace (1 + (zlen l0 + 1)) with (1 + zlen l0 + 1) in IH by lia.
    apply IH; try lia; [|rewrite length_app in Hf; cbn in Hf; lia]. apply (drop_behind cp b 44); [lia|done].
  - rewrite zlen_app, zlen_cons, zlen_seqZ in * by lia. pose proof (zlen_nonneg l). pose proof (decimal_nonneg b n Hd) as Hn0. rewrite ltb_t by lia.
    destruct (options_head t (n' :: l) Ho) as (b' & ? & rest & ? & Etb & [= <- <-] & Hd' & Hn' & He').
    pose proof (get_option_decimal cp b n (45 :: t) l0 Hcp Et Hd ltac:(lia) ltac:(by right) ltac:(lia)) as E. run E. cbn [Z.eqb Pos.eqb].
    rewrite Z.add_0_r.
    pose proof (zlen_from s cp Hcp) as Hl. rewrite Et, zlen_app, zlen_cons in Hl. pose proof (zlen_nonneg t). pose proof (zlen_nonneg b).
    pose proof (drop_behind cp b 45 t ltac:(lia) Et) as Et'.
    pose proof (get_range_decimal (cp + zlen b) b' n n' rest l0 ltac:(lia) ltac:(congruence) Hd' Hn' He' ltac:(lia) ltac:(lia)) as E2. run E2.
    run_ret. rewrite ltb_f by lia. run_ret. cbn [bind].
    specialize (IH (cp + zlen b + 1) (l0 ++ seqZ n (n' - n)) fuel). rewrite !zlen_app, zlen_cons, zlen_seqZ, <- app_assoc in IH by lia.
    replace (1 + (zlen l0 + (n' - n))) with (1 + zlen l0 + (n' - n - 1) + 1) in IH by lia.
    rewrite IH; try lia; try done; [|rewrite length_app in Hf; cbn in Hf; lia].
    rewrite !zlen_app, zlen_cons, zlen_seqZ by lia. do 3 f_equal. lia.
Qed.
End Options.

(** C40. A list of decimal numbers and rising ranges, separated by commas, that fits
    is taken in completely: the array holds its length and all its numbers, the
    ranges written out, the rest of the array is as before, and the end of the
    string is returned. *)
Theorem get_options_correct (s l : list Z) (nints a0 : Z) (tl : list Z) :
  cstring s -> options s l -> zlen l < nints -> nints <= 1 + zlen tl ->
  get_options s 0 nints (a0 :: tl) = Some (zlen s, zlen l :: l ++ drop (length l) tl).
Proof.
  intros Hs Ho Hn Htl. unfold get_options. pose proof (zlen_nonneg s). pose proof (zlen_nonneg l).
  pose proof (options_loop s Hs a0 tl nints s l Ho 0 [] (S (S (length s))) ltac:(lia) eq_refl ltac:(change (zlen []) with 0; lia) ltac:(change (zlen []) with 0; lia) ltac:(lia)) as E.
  change (1 + zlen []) with 1 in E. cbn [app] in E. change (fill a0 tl []) with (a0 :: tl) in E. run E. unfold put_int, fill. cbn.
  by replace (1 + zlen l - 1) with (zlen l) by lia.
Qed.
Lemma get_options_correct_witness : get_options [49; 44; 52; 45; 54; 44; 48] 0 6 [0; 0; 0; 0; 0; 0; 9] = Some (7, [5; 1; 4; 5; 6; 0; 9]).
Proof.
  assert (decimal [49] 1) as D1 by (apply (decimal_digits 49 [] [1]); [discriminate|repeat constructor; reflexivity]).
  assert (decimal [52] 4) as D4 by (apply (decimal_digits 52 [] [4]); [discriminate|repeat constructor; reflexivity]).
  assert (decimal [54] 6) as D6 by (apply (decimal_digits 54 [] [6]); [discriminate|repeat constructor; reflexivity]).
  apply (get_options_correct [49; 44; 52; 45; 54; 44; 48] [1; 4; 5; 6; 0] 6 0 [0; 0; 0; 0; 0; 9]); [repeat constructor| |reflexivity|vm_compute; discriminate].
  apply (options_comma [49] 1 [52; 45; 54; 44; 48] [4; 5; 6; 0] D1 ltac:(lia)). apply (options_range [52] 4 [54; 44; 48] 6 [0] D4); [|lia].
  apply (options_comma [54] 6 [48] [0] D6 ltac:(lia)). apply (options_last [48] 0 decimal_zero ltac:(lia)).
Defined.
(** A range that does not fit is written over the end of the array. *)
Example get_options_overflow : get_options [49; 45; 57] 0 4 [0; 0; 0; 0] = None.
Proof. vm_compute. reflexivity. Qed.
(** A lone hyphen counts as the number 0. *)
Example get_option_hyphen : get_option [45] 0 0 [7] = Some ((1, 1), [0]).
Proof. vm_compute. reflexivity. Qed.
