(* ===== verification/Arith.v ===== *)
(** * Integer arithmetic

    The arithmetic routines of [lib/]: the 64-bit divisions of a 32-bit machine
    ([lib/div64.c], [include/linux/math64.h], [include/asm-generic/div64.h]), the
    integer square root ([lib/int_sqrt.c]), division by multiplication
    ([lib/reciprocal_div.c]) and binary coded decimals ([lib/bcd.c]). *)

From Stdlib Require Import ZArith Lia.
From stdpp Require Import base tactics numbers list gmap option.
From S2P Require Import Prelude Bits.

Abbreviation A := (ST unit).
(** Division by zero faults. *)
Definition div_ (a b : Z) : A Z := if b =? 0 then fault else ret (a / b).
Definition mod_ (a b : Z) : A Z := if b =? 0 then fault else ret (a mod b).

(** ** Division of 64 bits by 32 bits *)
(** The divisor and its multiple, doubled while less than the remainder. *)
Definition scale_round (rem : Z) : Z * Z -> A (Z * Z + Z * Z) := fun '(b, d) =>
  ret (if (0 <? s64 b) && (b <? rem) then inl (u64 (b + b), u64 (d + d)) else inr (b, d)).
Definition subtract_round : Z * Z * Z * Z -> A (Z * Z * Z * Z + Z * Z) := fun '(rem, res, b, d) =>
  let '(rem, res) := if b <=? rem then (u64 (rem - b), u64 (res + d)) else (rem, res) in
  let b := Z.shiftr b 1 in
  let d := Z.shiftr d 1 in
  ret (if negb (d =? 0) then inl (rem, res, b, d) else inr (rem, res)).
(** The remainder, and the quotient left in [*n]. *)
Definition __div64_32 (n base : Z) : A (Z * Z) :=
  let rem := n in
  let high := u32 (Z.shiftr rem 32) in
  let* '(rem, res) :=
    (if base <=? high then
       let* high := div_ high base in
       ret (u64 (rem - u64 (Z.shiftl (u32 (high * base)) 32)), u64 (Z.shiftl high 32))
     else ret (rem, 0)) in
  let* '(b, d) := while 65 (scale_round rem) (base, 1) in
  let* '(rem, res) := while 65 subtract_round (rem, res, b, d) in
  ret (u32 rem, res).
Definition do_div (n base : Z) : A (Z * Z) :=
  if Z.shiftr n 32 =? 0 then
    let* rem := mod_ (u32 n) base in
    let* n := div_ (u32 n) base in
    ret (rem, n)
  else __div64_32 n base.
(** The quotient and [*remainder]. *)
Definition div_u64_rem (dividend divisor : Z) : A (Z * Z) :=
  let* '(remainder, dividend) := do_div dividend divisor in ret (dividend, remainder).
Definition div_u64 (dividend divisor : Z) : A Z :=
  let* '(quotient, _) := div_u64_rem dividend divisor in ret quotient.
Definition abs (x : Z) : Z := if x <? 0 then s32 (- x) else x.
Definition div_s64_rem (dividend divisor : Z) : A (Z * Z) :=
  if dividend <? 0 then
    let* '(quotient, remainder) := div_u64_rem (u64 (- dividend)) (u32 (abs divisor)) in
    let remainder := s32 (- s32 remainder) in
    let quotient := if 0 <? divisor then u64 (- quotient) else quotient in
    ret (s64 quotient, remainder)
  else
    let* '(quotient, remainder) := div_u64_rem dividend (u32 (abs divisor)) in
    let quotient := if divisor <? 0 then u64 (- quotient) else quotient in
    ret (s64 quotient, s32 remainder).
Definition div_s64 (dividend divisor : Z) : A Z :=
  let* '(quotient, _) := div_s64_rem dividend divisor in ret quotient.
Definition div64_u64 (dividend divisor : Z) : A Z :=
  let high := u32 (Z.shiftr divisor 32) in
  if negb (high =? 0) then
    let shift := fls high in
    div_u64 (Z.shiftr dividend shift) (u32 (Z.shiftr divisor shift))
  else div_u64 dividend (u32 divisor).

(** By repeated subtraction. *)
Definition iter_round (divisor : Z) : Z * Z -> A (Z * Z + Z * Z) := fun '(dividend, r) =>
  ret (if divisor <=? dividend then inl (u64 (dividend - divisor), u32 (r + 1)) else inr (r, dividend)).
Definition __iter_div_u64_rem (dividend divisor : Z) : A (Z * Z) := while2 65 (iter_round divisor) (dividend, 0).
Definition iter_div_u64_rem : Z -> Z -> A (Z * Z) := __iter_div_u64_rem.

(** ** Square root *)
Definition one_round (op one : Z) : A (Z + Z) := ret (if op <? one then inl (Z.shiftr one 2) else inr one).
Definition root_round : Z * Z * Z -> A (Z * Z * Z + Z) := fun '(op, res, one) =>
  if negb (one =? 0) then
    let '(op, res) := if u32 (res + one) <=? op then (u32 (op - u32 (res + one)), u32 (res + 2 * one)) else (op, res) in
    ret (inl (op, res / 2, one / 4))
  else ret (inr res).
Definition int_sqrt (x : Z) : A Z :=
  let* one := while 17 (one_round x) (Z.shiftl 1 (BITS_PER_LONG - 2)) in
  while 17 root_round (x, 0, one).

(** ** Reciprocals *)
Definition reciprocal_value (k : Z) : A Z :=
  let* '(_, val) := do_div (u64 (Z.shiftl 1 32 + u32 (k - 1))) k in ret (u32 val).
Definition reciprocal_divide (a r : Z) : Z := u32 (Z.shiftr (u64 (a * r)) 32).

(** ** Binary coded decimals *)
Definition bcd2bin (val : Z) : Z := Z.land val 0x0f + Z.shiftr val 4 * 10.
Definition bin2bcd (val : Z) : Z := u8 (u32 (Z.shiftl (val / 10) 4) + val mod 10).

(** ** Proofs: division *)
(** After the scaling the remainder is below twice the multiple. *)
Lemma scale_loop rem base : 0 < base < 2 ^ 32 -> 0 <= rem < 2 ^ 64 -> forall j fuel, 0 <= j < 64 -> base * 2 ^ j < 2 ^ 64 -> (Z.to_nat (64 - j) < fuel)%nat ->
  exists j', j <= j' < 64 /\ base * 2 ^ j' < 2 ^ 64 /\ rem < 2 * (base * 2 ^ j') /\
    while fuel (scale_round rem) (base * 2 ^ j, 2 ^ j) tt = Some ((base * 2 ^ j', 2 ^ j'), tt).
Proof.
  intros Hb Hr j fuel. revert j. induction fuel as [|fuel IH]; intros j Hj Hlt Hf; [lia|]. rewrite while_S. unfold scale_round at 1.
  assert (0 < 2 ^ j) as Hp by (apply Z.pow_pos_nonneg; lia). assert (0 < base * 2 ^ j) as Hpos by nia.
  assert ((0 <? s64 (base * 2 ^ j)) = (base * 2 ^ j <? 2 ^ 63)) as ->.
  { destruct (base * 2 ^ j <? 2 ^ 63) eqn:B; b2p.
    - rewrite sgn_id by lia. apply ltb_t. lia.
    - apply ltb_f. unfold sgn. change (64 - 1) with 63. replace (base * 2 ^ j + 2 ^ 63) with (base * 2 ^ j - 2 ^ 63 + 1 * 2 ^ 64) by lia.
      rewrite Z.mod_add, Z.mod_small by lia. lia. }
  destruct ((base * 2 ^ j <? 2 ^ 63) && (base * 2 ^ j <? rem)) eqn:B.
  - apply andb_true_iff in B as [B1 B2]. b2p. run_ret. cbn [bind]. rewrite !u64_id by (split; [lia|]; nia).
    replace (base * 2 ^ j + base * 2 ^ j) with (base * 2 ^ (j + 1)) by (rewrite Z.pow_add_r by lia; lia).
    replace (2 ^ j + 2 ^ j) with (2 ^ (j + 1)) by (rewrite Z.pow_add_r by lia; lia).
    assert (base * 2 ^ (j + 1) < 2 ^ 64) as Hlt' by (rewrite Z.pow_add_r by lia; lia).
    assert (j + 1 < 64) as Hj'. { destruct (Z_lt_le_dec (j + 1) 64); [done|]. assert (2 ^ 64 <= 2 ^ (j + 1)) by (apply Z.pow_le_mono_r; lia). nia. }
    destruct (IH (j + 1) ltac:(lia) Hlt' ltac:(lia)) as (j' & H1 & H2 & H3 & H4). exists j'. split; [lia|]. done.
  - exists j. split; [lia|]. split; [done|]. split; [|done]. apply andb_false_iff in B as [B|B]; b2p; lia.
Qed.
Lemma subtract_loop base : 0 < base -> forall j fuel rem res, 0 <= j < 64 -> base * 2 ^ j < 2 ^ 64 -> 0 <= rem < 2 * (base * 2 ^ j) -> rem < 2 ^ 64 ->
  0 <= res -> res * base + rem < 2 ^ 64 -> (Z.to_nat j < fuel)%nat ->
  while fuel subtract_round (rem, res, base * 2 ^ j, 2 ^ j) tt = Some ((rem mod base, res + rem / base), tt).
Proof.
  intros Hb j fuel. revert j. induction fuel as [|fuel IH]; intros j rem res Hj Hlt Hr Hr64 Hres Hsum Hf; [lia|]. rewrite while_S.
  unfold subtract_round at 1.
  assert (0 < 2 ^ j) as Hp by (apply Z.pow_pos_nonneg; lia).
  set (rr := if base * 2 ^ j <=? rem then _ else _).
  assert (exists rem' res', rr = (rem', res') /\ 0 <= rem' < base * 2 ^ j /\ 0 <= res' /\ rem' mod base = rem mod base /\ res' + rem' / base = res + rem / base /\ res' * base + rem' = res * base + rem) as (rem' & res' & -> & H1 & H2 & H3 & H4 & H5).
  { unfold rr. destruct (base * 2 ^ j <=? rem) eqn:B; b2p; [|exists rem, res; split; [done|]; split; [lia|done]].
    assert (res + 2 ^ j < 2 ^ 64) by nia. rewrite !u64_id by nia. exists (rem - base * 2 ^ j), (res + 2 ^ j). split; [done|]. split; [lia|].
    split; [lia|].
    replace (rem - base * 2 ^ j) with (rem + - 2 ^ j * base) by lia. rewrite Z.mod_add, Z.div_add by lia. split; [done|]. split; [lia|]. nia. }
  cbn beta iota. rewrite !Z.shiftr_div_pow2 by lia. change (2 ^ 1) with 2. destruct (Z.eq_dec j 0) as [->|Nj].
  - rewrite Z.pow_0_r, Z.mul_1_r in *. cbn [Z.div Z.eqb negb]. change (1 / 2 =? 0) with true. cbn [negb]. run_ret. rewrite Z.mod_small in H3 by lia.
    rewrite Z.div_small in H4 by lia. rewrite <- H3, <- H4, Z.add_0_r. done.
  - assert (2 ^ j = 2 * 2 ^ (j - 1)) as Ej by (rewrite <- Z.pow_succ_r by lia; f_equal; lia).
    assert (0 < 2 ^ (j - 1)) by (apply Z.pow_pos_nonneg; lia).
    assert (2 ^ j / 2 = 2 ^ (j - 1)) as -> by (rewrite Ej; symmetry; apply Z.div_unique_exact; lia).
    assert (base * 2 ^ j / 2 = base * 2 ^ (j - 1)) as -> by (rewrite Ej; symmetry; apply Z.div_unique_exact; lia).
    rewrite eqb_f by lia. cbn [negb]. run_ret. cbn [bind]. rewrite IH by lia. by rewrite H3, H4.
Qed.

Lemma div64_32_eq n base : 0 <= n < 2 ^ 64 -> 0 < base < 2 ^ 32 -> __div64_32 n base tt = Some ((n mod base, n / base), tt).
Proof.
  intros Hn Hb. unfold __div64_32. rewrite !Z.shiftr_div_pow2 by lia. pose proof (Z.div_mod n (2 ^ 32) ltac:(lia)) as Hd.
  pose proof (Z.mod_pos_bound n (2 ^ 32) ltac:(lia)) as Hm.
  set (high := n / 2 ^ 32) in *. assert (0 <= high < 2 ^ 32) as Hh by lia. rewrite (u32_id high) by lia.
  set (first := if base <=? high then _ else _).
  assert (exists rem res, first tt = Some ((rem, res), tt) /\ 0 <= rem < base * 2 ^ 32 /\ rem <= n /\ 0 <= res /\ n = res * base + rem) as (rem & res & E & H1 & H2 & H3 & H4).
  { unfold first. destruct (base <=? high) eqn:B; b2p; [|exists n, 0; split; [done|]; nia]. unfold div_. rewrite eqb_f by lia. run_ret.
    pose proof (Z.div_mod high base ltac:(lia)) as Hq. pose proof (Z.mod_pos_bound high base ltac:(lia)) as Hq'. set (q := high / base) in *.
    assert (0 <= q) by (apply Z.div_pos; lia).
    assert (0 <= q <= q * base) by nia. assert (q * base <= high) by lia.
    rewrite (u32_id (q * base)) by lia. rewrite !Z.shiftl_mul_pow2 by lia. rewrite (u64_id (q * base * 2 ^ 32)), !u64_id by lia. eexists _, _.
    split; [done|]. split; [lia|]. split; [lia|]. split; [lia|]. lia. }
  run E. assert (rem < 2 ^ 64) by lia.
  destruct (scale_loop rem base Hb ltac:(lia) 0 65 ltac:(lia) ltac:(lia) ltac:(lia)) as (j & J1 & J2 & J3 & E2). rewrite Z.pow_0_r, Z.mul_1_r in E2.
  run E2.
  assert (while 65 subtract_round (rem, res, base * 2 ^ j, 2 ^ j) tt = Some ((rem mod base, res + rem / base), tt)) as E3 by (apply subtract_loop; lia).
  run E3.
  assert (n mod base = rem mod base) as -> by (rewrite H4, Z.add_comm; apply Z.mod_add; lia).
  assert (n / base = res + rem / base) as -> by (rewrite H4, Z.add_comm, Z.div_add by lia; lia).
  pose proof (Z.mod_pos_bound rem base ltac:(lia)). rewrite u32_id by lia. done.
Qed.
Lemma do_div_eq n base : 0 <= n < 2 ^ 64 -> 0 < base < 2 ^ 32 -> do_div n base tt = Some ((n mod base, n / base), tt).
Proof.
  intros Hn Hb. unfold do_div. rewrite Z.shiftr_div_pow2 by lia. destruct (Z.eqb_spec (n / 2 ^ 32) 0) as [E|]; [|by apply div64_32_eq].
  apply Z.div_small_iff in E; [|lia]. rewrite u32_id by lia. unfold mod_, div_. rewrite eqb_f by lia. done.
Qed.
Lemma div_u64_rem_eq n base : 0 <= n < 2 ^ 64 -> 0 < base < 2 ^ 32 -> div_u64_rem n base tt = Some ((n / base, n mod base), tt).
Proof. intros Hn Hb. unfold div_u64_rem. by run (do_div_eq n base Hn Hb). Qed.
Lemma div_u64_eq n base : 0 <= n < 2 ^ 64 -> 0 < base < 2 ^ 32 -> div_u64 n base tt = Some (n / base, tt).
Proof. intros Hn Hb. unfold div_u64. by run (div_u64_rem_eq n base Hn Hb). Qed.

(** The divisor is the absolute value also of [INT_MIN]. *)
Lemma u32_abs x : - 2 ^ 31 <= x < 2 ^ 31 -> u32 (abs x) = Z.abs x.
Proof.
  intros Hx. unfold abs. destruct (x <? 0) eqn:B; b2p; [|rewrite u32_id by lia; lia]. unfold sgn, wrap. change (32 - 1) with 31.
  rewrite Zminus_mod_idemp_l. replace (- x + 2 ^ 31 - 2 ^ 31) with (- x) by lia. rewrite Z.mod_small by lia. lia.
Qed.
Lemma s64_neg_u64 x : s64 (u64 (- x)) = s64 (- x).
Proof. unfold sgn, wrap. by rewrite Zplus_mod_idemp_l. Qed.
Lemma div_s64_rem_eq n v : - 2 ^ 63 <= n < 2 ^ 63 -> - 2 ^ 31 <= v < 2 ^ 31 -> v <> 0 -> div_s64_rem n v tt = Some ((s64 (Z.quot n v), Z.rem n v), tt).
Proof.
  intros Hn Hv Nv. unfold div_s64_rem. rewrite u32_abs by done. pose proof (Z.quot_abs n v Nv) as Q. pose proof (Z.rem_abs n v Nv) as Rm.
  rewrite Z.quot_div_nonneg in Q by lia. rewrite Z.rem_mod_nonneg in Rm by lia. pose proof (Z.mod_pos_bound (Z.abs n) (Z.abs v) ltac:(lia)) as Hm.
  destruct (n <? 0) eqn:B; b2p.
  - rewrite u64_id by lia. replace (- n) with (Z.abs n) by lia. run (div_u64_rem_eq (Z.abs n) (Z.abs v) ltac:(lia) ltac:(lia)). rewrite Q, Rm.
    unfold ret.
    pose proof (Z.rem_nonpos n v Nv ltac:(lia)) as Hs. rewrite (s32_id (Z.abs (Z.rem n v))), s32_id by lia. do 3 f_equal; [|lia].
    destruct (0 <? v) eqn:Bv; b2p.
    + rewrite s64_neg_u64. f_equal. pose proof (Z.quot_opp_l (- n) v Nv) as E. rewrite Z.opp_involutive in E.
      pose proof (Z.quot_pos (- n) v ltac:(lia) ltac:(lia)). lia.
    + f_equal. pose proof (Z.quot_opp_opp n v Nv) as E. pose proof (Z.quot_pos (- n) (- v) ltac:(lia) ltac:(lia)). lia.
  - replace n with (Z.abs n) at 1 by lia. run (div_u64_rem_eq (Z.abs n) (Z.abs v) ltac:(lia) ltac:(lia)). rewrite Q, Rm. unfold ret.
    pose proof (Z.rem_nonneg n v Nv ltac:(lia)) as Hs. rewrite (s32_id (Z.abs (Z.rem n v))) by lia. do 3 f_equal; [|lia].
    destruct (v <? 0) eqn:Bv; b2p.
    + rewrite s64_neg_u64. f_equal. pose proof (Z.quot_opp_r n v Nv) as E. pose proof (Z.quot_pos n (- v) ltac:(lia) ltac:(lia)). lia.
    + f_equal. pose proof (Z.quot_pos n v ltac:(lia) ltac:(lia)). lia.
Qed.

Lemma iter_div_eq n v : 0 <= n < 2 ^ 64 -> 0 < v < 2 ^ 32 -> __iter_div_u64_rem n v tt = Some ((u32 (n / v), n mod v), tt).
Proof.
  intros Hn Hv. unfold __iter_div_u64_rem.
  destruct (while2_spec (iter_round v) tt (fun '(d, r) => exists k, 0 <= k /\ 0 <= d < 2 ^ 64 /\ n = k * v + d /\ r = u32 k)
    (fun r => r = (u32 (n / v), n mod v)) (fun '(d, _) => d)) with (n := 65%nat) (x := (n, 0)) as (r & E & ->); try done.
  - intros [d r] (k & _ & ? & _). lia.
  - intros [d r] (k & Hk & Hd & En & ->). unfold iter_round. destruct (v <=? d) eqn:B; b2p; (eexists; split; [done|]).
    + rewrite u64_id by lia. split; [|lia]. exists (k + 1). split; [lia|]. split; [lia|]. split; [lia|]. unfold wrap. by rewrite Zplus_mod_idemp_l.
    + f_equal; [f_equal; apply (Z.div_unique_pos n v k d); lia|apply (Z.mod_unique_pos n v k d); lia].
  - exists 0. split; [lia|]. split; [lia|]. split; [lia|done].
  - cbn. lia.
Qed.

(** C37. The 64-bit divisions are exact: the unsigned ones give the quotient and the
    remainder for every dividend and every divisor but 0, the signed one rounds
    towards zero with the sign of the dividend on the remainder, the divisor
    [INT_MIN] included, and the division by subtraction ends and gives the quotient
    modulo [2 ^ 32]. *)
Theorem div64_correct (n base m v : Z) :
  0 <= n < 2 ^ 64 -> 0 < base < 2 ^ 32 -> - 2 ^ 63 <= m < 2 ^ 63 -> - 2 ^ 31 <= v < 2 ^ 31 -> v <> 0 ->
  __div64_32 n base tt = Some ((n mod base, n / base), tt) /\
  do_div n base tt = Some ((n mod base, n / base), tt) /\
  div_u64_rem n base tt = Some ((n / base, n mod base), tt) /\ div_u64 n base tt = Some (n / base, tt) /\
  div_s64_rem m v tt = Some ((s64 (Z.quot m v), Z.rem m v), tt) /\ div_s64 m v tt = Some (s64 (Z.quot m v), tt) /\
  iter_div_u64_rem n base tt = Some ((u32 (n / base), n mod base), tt).
Proof.
  intros Hn Hb Hm Hv Nv. split; [by apply div64_32_eq|]. split; [by apply do_div_eq|]. split; [by apply div_u64_rem_eq|].
  split; [by apply div_u64_eq|].
  split; [by apply div_s64_rem_eq|]. split; [|by apply iter_div_eq]. unfold div_s64. by run (div_s64_rem_eq m v Hm Hv Nv).
Qed.
Lemma div64_correct_witness : do_div 18446744073709551615 10 tt = Some ((5, 1844674407370955161), tt) /\ div_s64_rem (- 7) 2 tt = Some ((- 3, - 1), tt).
Proof.
  destruct (div64_correct 18446744073709551615 10 (- 7) 2 ltac:(lia) ltac:(lia) ltac:(lia) ltac:(lia) ltac:(lia)) as (_ & E1 & _ & _ & E2 & _).
  split; [exact E1|exact E2].
Defined.

(** With a divisor of more than 32 bits only its 32 leading bits count: the result
    is never too small and at most 2 too large. *)
Theorem div64_u64_bounds n v : 0 <= n < 2 ^ 64 -> 0 < v < 2 ^ 64 ->
  exists q, div64_u64 n v tt = Some (q, tt) /\ n / v <= q <= n / v + 2 /\ (v < 2 ^ 32 -> q = n / v).
Proof.
  intros Hn Hv. unfold div64_u64. rewrite Z.shiftr_div_pow2 by lia. pose proof (Z.div_mod v (2 ^ 32) ltac:(lia)) as Hd.
  pose proof (Z.mod_pos_bound v (2 ^ 32) ltac:(lia)) as Hm.
  set (high := v / 2 ^ 32) in *. rewrite (u32_id high) by lia. destruct (Z.eqb_spec high 0) as [E|E]; cbn [negb].
  - rewrite u32_id by lia. exists (n / v). split; [apply div_u64_eq; lia|]. lia.
  - rewrite fls_spec by (done || (unfold uint; lia)). pose proof (Z.log2_spec high ltac:(lia)) as Hl. pose proof (Z.log2_nonneg high) as Hl0.
    set (s := Z.log2 high) in *. unfold Z.succ in *.
    assert (s < 32) as Hs by (apply Z.log2_lt_pow2; lia). rewrite !Z.shiftr_div_pow2 by lia. assert (0 < 2 ^ s) as P by (apply Z.pow_pos_nonneg; lia).
    rewrite Z.pow_add_r in * by lia. change (2 ^ 1) with 2 in *.
    set (w := 2 ^ s * 2) in *. pose proof (Z.div_mod v w ltac:(lia)) as Dv. pose proof (Z.mod_pos_bound v w ltac:(lia)) as Mv.
    pose proof (Z.div_mod n w ltac:(lia)) as Dn. pose proof (Z.mod_pos_bound n w ltac:(lia)) as Mn.
    assert (2 ^ 31 <= v / w < 2 ^ 32) as Hdd by (split; [apply Z.div_le_lower_bound; lia|apply Z.div_lt_upper_bound; lia]).
    assert (0 <= n / w < 2 ^ 64) as Hmm by (split; [apply Z.div_pos; lia|apply Z.div_lt_upper_bound; lia]).
    set (d := v / w) in *. set (m := n / w) in *. rewrite u32_id by lia. exists (m / d). split; [apply div_u64_eq; lia|]. split; [|lia].
    pose proof (Z.div_mod n v ltac:(lia)) as Dt. pose proof (Z.mod_pos_bound n v ltac:(lia)) as Mt.
    assert (0 <= n / v < 2 ^ 32) as Ht by (split; [apply Z.div_pos; lia|apply Z.div_lt_upper_bound; lia]). set (t := n / v) in *.
    pose proof (Z.div_mod m d ltac:(lia)) as Dq. pose proof (Z.mod_pos_bound m d ltac:(lia)) as Mq. split.
    + apply Z.div_le_lower_bound; [lia|]. assert (w * d * t <= v * t) by (apply Z.mul_le_mono_nonneg_r; lia).
      apply Z.div_le_lower_bound; [lia|]. lia.
    + set (q := m / d) in *. destruct (Z_lt_le_dec (t + 2) q) as [Hlt|]; [exfalso|lia].
      assert (w * (d * q) <= w * m) by (apply Z.mul_le_mono_nonneg_l; lia).
      assert (v * (t + 1) <= w * (d + 1) * (t + 1)) by (apply Z.mul_le_mono_nonneg_r; lia).
      assert (d * q < (d + 1) * (t + 1)) by (apply (Z.mul_lt_mono_pos_l w); lia).
      assert (d * (t + 3) <= d * q) by (apply Z.mul_le_mono_nonneg_l; lia). lia.
Qed.

(** ** Proofs: square root *)
Lemma one_loop x j : 0 <= j <= 15 -> forall fuel, (Z.to_nat j + 1 < fuel)%nat -> 0 <= x < 4 ^ (j + 1) -> 0 < x ->
  exists k, 0 <= k <= j /\ 4 ^ k <= x < 4 ^ (k + 1) /\ while fuel (one_round x) (4 ^ j) tt = Some (4 ^ k, tt).
Proof.
  intros [Hj Hj15]. revert Hj15. pattern j. apply natlike_ind; [| |done]; clear j Hj.
  - intros _ [|fuel] Hf Hx Hp; [lia|]. exists 0. split; [lia|]. split; [lia|]. rewrite while_S. unfold one_round at 1.
    rewrite Z.pow_0_r, ltb_f by lia. done.
  - intros j Hj IH Hj15 [|fuel] Hf Hx Hp; [lia|]. unfold Z.succ in *. rewrite while_S. unfold one_round at 1. destruct (x <? 4 ^ (j + 1)) eqn:B; b2p.
    + run_ret. cbn [bind]. rewrite Z.shiftr_div_pow2 by lia. change (2 ^ 2) with 4.
      assert (4 ^ (j + 1) / 4 = 4 ^ j) as -> by (rewrite Z.pow_add_r, Z.pow_1_r by lia; apply Z.div_mul; lia).
      destruct (IH ltac:(lia) fuel ltac:(lia) ltac:(lia) Hp) as (k & K1 & K2 & K3). exists k. split; [lia|done].
    + exists (j + 1). split; [lia|]. split; [lia|done].
Qed.
(** With [r] the leading digits of the root, those above the digit [a = 2 ^ k], the
    loop holds the rest [x - r ^ 2] and [2 * r * a]. *)
Lemma root_loop x : 0 <= x < 2 ^ 32 -> forall k, -1 <= k -> k <= 15 -> forall fuel r, (Z.to_nat (k + 1) < fuel)%nat -> 0 <= r ->
  (exists c, r = c * 2 ^ (k + 1)) -> r * r <= x < (r + 2 ^ (k + 1)) * (r + 2 ^ (k + 1)) ->
  exists s, while fuel root_round (x - r * r, if k <? 0 then r else 2 * r * 2 ^ k, if k <? 0 then 0 else 4 ^ k) tt = Some (s, tt) /\ 0 <= s /\ s * s <= x < (s + 1) * (s + 1).
Proof.
  intros Hx. assert (forall n k, Z.to_nat (k + 1) = n -> -1 <= k -> k <= 15 -> forall fuel r, (n < fuel)%nat -> 0 <= r ->
    (exists c, r = c * 2 ^ (k + 1)) -> r * r <= x < (r + 2 ^ (k + 1)) * (r + 2 ^ (k + 1)) ->
    exists s, while fuel root_round (x - r * r, if k <? 0 then r else 2 * r * 2 ^ k, if k <? 0 then 0 else 4 ^ k) tt = Some (s, tt) /\ 0 <= s /\ s * s <= x < (s + 1) * (s + 1)) as Hall.
  2:{ intros k H1 H2 fuel r Hf. by apply (Hall (Z.to_nat (k + 1))). }
  induction n as [|n IH]; intros k En H1 H2 [|fuel] r Hf Hr (c & Ec) Hs; try lia; rewrite while_S; unfold root_round at 1.
  - assert (k = -1) as -> by lia. cbn [Z.ltb Z.compare Z.eqb negb]. exists r. split; [done|]. change (2 ^ (-1 + 1)) with 1 in Hs. done.
  - assert (0 <= k) by lia. rewrite !ltb_f by lia. assert (4 ^ k = 2 ^ k * 2 ^ k) as E4 by (change 4 with (2 * 2); apply Z.pow_mul_l).
    assert (0 < 2 ^ k) as P by (apply Z.pow_pos_nonneg; lia). assert (2 ^ k <= 2 ^ 15) as P2 by (apply Z.pow_le_mono_r; lia).
    assert (2 ^ (k + 1) = 2 * 2 ^ k) as E2 by (rewrite Z.pow_add_r by lia; lia). rewrite E2 in *. rewrite E4. set (a := 2 ^ k) in *.
    rewrite eqb_f by nia. cbn [negb].
    assert (r < 2 ^ 16) as R16 by nia. assert (0 <= c) by nia. assert (2 * r * a + a * a < 2 ^ 32 /\ (a = 2 ^ 15 -> r = 0)) as [Hb Ha].
    { assert (a = 2 ^ 15 -> r = 0) as Ha by nia. split; [|done]. destruct (Z.eq_dec a (2 ^ 15)) as [E|]; [rewrite Ha, E by done; lia|].
      assert (k < 15) as K15. { destruct (Z.eq_dec k 15) as [->|]; [done|lia]. } assert (a <= 2 ^ 14) by (apply Z.pow_le_mono_r; lia). nia. }
    rewrite (u32_id (2 * r * a + a * a)) by nia.
    assert (forall r', (r' = r \/ r' = r + a) -> r' * r' <= x < (r' + a) * (r' + a) ->
      exists s, while fuel root_round (x - r' * r', 2 * r' * a / 2, a * a / 4) tt = Some (s, tt) /\ 0 <= s /\ s * s <= x < (s + 1) * (s + 1)) as Hnext.
    { intros r' Hr' Hs'. replace (2 * r' * a / 2) with (if k - 1 <? 0 then r' else 2 * r' * 2 ^ (k - 1)).
      2:{ destruct (Z.eq_dec k 0) as [->|]; [rewrite ltb_t by lia; change a with 1; apply Z.div_unique_exact; lia|]. rewrite ltb_f by lia.
          assert (a = 2 * 2 ^ (k - 1)) as -> by (unfold a; rewrite <- Z.pow_succ_r by lia; f_equal; lia). apply Z.div_unique_exact; lia. }
      replace (a * a / 4) with (if k - 1 <? 0 then 0 else 4 ^ (k - 1)).
      2:{ destruct (Z.eq_dec k 0) as [->|]; [done|]. rewrite ltb_f, <- E4 by lia. replace k with (k - 1 + 1) at 2 by lia.
          rewrite Z.pow_add_r, Z.pow_1_r by lia. symmetry. apply Z.div_mul. lia. }
      apply IH; try lia; replace (k - 1 + 1) with k by lia; fold a; [|done]. destruct Hr' as [-> | ->]; [exists (2 * c)|exists (2 * c + 1)]; lia. }
    destruct (2 * r * a + a * a <=? x - r * r) eqn:B; b2p.
    + rewrite !u32_id by nia. run_ret. cbn [bind]. replace (x - r * r - (2 * r * a + a * a)) with (x - (r + a) * (r + a)) by lia.
      replace (2 * r * a + 2 * (a * a)) with (2 * (r + a) * a) by lia. apply Hnext; [by right|]. nia.
    + run_ret. cbn [bind]. apply Hnext; [by left|]. nia.
Qed.

(** C38. [int_sqrt] is the integer square root of every 32-bit number. *)
Theorem int_sqrt_correct x : 0 <= x < 2 ^ 32 -> int_sqrt x tt = Some (Z.sqrt x, tt).
Proof.
  intros Hx. unfold int_sqrt.
  assert (forall s, 0 <= s -> s * s <= x < (s + 1) * (s + 1) -> Z.sqrt x = s) as Hu by (intros s H0 Hs; apply Z.sqrt_unique; unfold Z.succ; lia).
  destruct (Z.eq_dec x 0) as [->|N]; [reflexivity|]. change (Z.shiftl 1 (BITS_PER_LONG - 2)) with (4 ^ 15).
  destruct (one_loop x 15 ltac:(lia) 17 ltac:(lia) ltac:(change (4 ^ (15 + 1)) with (2 ^ 32); lia) ltac:(lia)) as (k & K1 & K2 & E). run E.
  assert (forall j, 0 <= j -> 4 ^ j = 2 ^ j * 2 ^ j) as E4 by (intros j _; change 4 with (2 * 2); apply Z.pow_mul_l). rewrite !E4 in K2 by lia.
  destruct (root_loop x Hx k ltac:(lia) ltac:(lia) 17 0 ltac:(lia) ltac:(lia) ltac:(by exists 0) ltac:(lia)) as (s & Es & H0 & Hs).
  rewrite (ltb_f k 0) in Es by lia. replace (x - 0 * 0) with x in Es by lia. replace (2 * 0 * 2 ^ k) with 0 in Es by lia. rewrite Es. do 2 f_equal.
  symmetry. by apply Hu.
Qed.
Lemma int_sqrt_correct_witness : int_sqrt 4294967295 tt = Some (65535, tt).
Proof. exact (int_sqrt_correct 4294967295 ltac:(lia)). Defined.

(** ** Proofs: reciprocals and decimals *)
Lemma quotient_near K q m t y : 0 < K -> K * q + m = K * t + y -> 0 <= m < K -> 0 <= y < 2 * K -> t <= q <= t + 1 /\ (q = t <-> y < K).
Proof. intros HK E Hm Hy. assert (t <= q) by nia. assert (q <= t + 1) by nia. split; [lia|]. split; intros; nia. Qed.
(** C39. For a divisor [k] of at least 2, with [e] what the reciprocal has too much,
    the division by multiplication gives the quotient or one more, and the quotient
    exactly if the numbers are small enough, in particular if [a * (k - 1)] is
    below [2 ^ 32]. *)
Theorem reciprocal_divide_correct a k : 0 <= a < 2 ^ 32 -> 2 <= k < 2 ^ 32 ->
  exists r, reciprocal_value k tt = Some (r, tt) /\ let e := k * r - 2 ^ 32 in 0 <= e < k /\
    a / k <= reciprocal_divide a r <= a / k + 1 /\
    (reciprocal_divide a r = a / k <-> (a mod k) * 2 ^ 32 + a * e < k * 2 ^ 32) /\
    (a * (k - 1) < 2 ^ 32 -> reciprocal_divide a r = a / k).
Proof.
  intros Ha Hk. unfold reciprocal_value. rewrite (u32_id (k - 1)) by lia. change (Z.shiftl 1 32) with (2 ^ 32). rewrite u64_id by lia.
  run (do_div_eq (2 ^ 32 + (k - 1)) k ltac:(lia) ltac:(lia)). pose proof (Z.div_mod (2 ^ 32 + (k - 1)) k ltac:(lia)) as Dr.
  pose proof (Z.mod_pos_bound (2 ^ 32 + (k - 1)) k ltac:(lia)) as Mr.
  assert (0 <= (2 ^ 32 + (k - 1)) / k < 2 ^ 32) as Hr by (split; [apply Z.div_pos; lia|apply Z.div_lt_upper_bound; lia]). rewrite u32_id by done.
  set (r := (2 ^ 32 + (k - 1)) / k) in *. exists r. split; [done|]. cbv zeta. set (e := k * r - 2 ^ 32). assert (0 <= e < k) as He by (unfold e; lia).
  split; [done|].
  assert (reciprocal_divide a r = a * r / 2 ^ 32) as ->.
  { unfold reciprocal_divide. assert (0 <= a * r < 2 ^ 32 * 2 ^ 32) by (split; [apply Z.mul_nonneg_nonneg|apply Z.mul_lt_mono_nonneg]; lia).
    rewrite u64_id, Z.shiftr_div_pow2 by lia. apply u32_id. split; [apply Z.div_pos; lia|apply Z.div_lt_upper_bound; lia]. }
  pose proof (Z.div_mod a k ltac:(lia)) as Da. pose proof (Z.mod_pos_bound a k ltac:(lia)) as Ma.
  pose proof (Z.div_mod (a * r) (2 ^ 32) ltac:(lia)) as Dq. pose proof (Z.mod_pos_bound (a * r) (2 ^ 32) ltac:(lia)) as Mq.
  set (t := a / k) in *. set (q := a * r / 2 ^ 32) in *. assert (k * (a * r) = a * 2 ^ 32 + a * e) as Ek by (unfold e; lia).
  assert (0 <= a * e) by (apply Z.mul_nonneg_nonneg; lia).
  assert (k * 2 ^ 32 * q + k * ((a * r) mod 2 ^ 32) = k * 2 ^ 32 * t + (a mod k * 2 ^ 32 + a * e)) as Eq by lia.
  assert (0 <= k * ((a * r) mod 2 ^ 32) < k * 2 ^ 32) as Hkm by (split; [apply Z.mul_nonneg_nonneg; lia|apply Z.mul_lt_mono_pos_l; lia]).
  assert (a * e < 2 ^ 32 * k) as Hae by (apply Z.mul_lt_mono_nonneg; lia).
  destruct (quotient_near (k * 2 ^ 32) q _ t _ ltac:(lia) Eq Hkm ltac:(lia)) as [Hqt Hiff]. split; [done|].
  split; [done|]. intros Hsmall. apply Hiff. assert (a * e <= a * (k - 1)) by (apply Z.mul_le_mono_nonneg_l; lia). lia.
Qed.
Lemma reciprocal_divide_correct_witness : exists r, reciprocal_value 10 tt = Some (r, tt) /\ reciprocal_divide 123456789 r = 12345678.
Proof.
  destruct (reciprocal_divide_correct 123456789 10 ltac:(lia) ltac:(lia)) as (r & E & He & _ & _ & H). exists r. split; [exact E|].
  exact (H ltac:(lia)).
Defined.
(** The reciprocal of 1 does not fit and becomes 0, and for large dividends the
    quotient may be one too large. *)
Example reciprocal_of_one : exists r, reciprocal_value 1 tt = Some (r, tt) /\ reciprocal_divide 1000 r = 0.
Proof. eexists. split; [vm_compute; reflexivity|]. vm_compute. reflexivity. Qed.
Example reciprocal_of_seven : exists r, reciprocal_value 7 tt = Some (r, tt) /\ reciprocal_divide 4294967291 r = 4294967291 / 7 + 1.
Proof. eexists. split; [vm_compute; reflexivity|]. vm_compute. reflexivity. Qed.

(** The conversions between numbers below 100 and two decimal digits are inverse to
    each other. *)
Theorem bcd_roundtrip v hi lo : 0 <= v < 100 -> 0 <= hi < 10 -> 0 <= lo < 10 ->
  bcd2bin (bin2bcd v) = v /\ bin2bcd (bcd2bin (16 * hi + lo)) = 16 * hi + lo.
Proof.
  intros Hv Hhi Hlo. assert (forall x, 0 <= x < 256 -> bcd2bin x = x mod 16 + x / 16 * 10) as E1.
  { intros x Hx. unfold bcd2bin. change 0x0f with (Z.ones 4). by rewrite Z.land_ones, Z.shiftr_div_pow2 by lia. }
  assert (forall x, 0 <= x < 100 -> bin2bcd x = 16 * (x / 10) + x mod 10) as E2.
  { intros x Hx. unfold bin2bcd. rewrite Z.shiftl_mul_pow2 by lia. change (2 ^ 4) with 16. rewrite u32_id by dlia. unfold wrap.
    rewrite Z.mod_small by dlia. lia. }
  rewrite E2, !E1, E2 by dlia. split; dlia.
Qed.
